(* ===== verification/_CoqProject ===== *)
-Q . S2P
Prelude.v
RustStr.v
SeekSequence.v
PatchParser.v
StreamingParser.v
PatchRoundtrip.v
PatchApply.v
AbsolutePath.v
PatchFs.v
PatchDelta.v
ExecPolicy.v
ExecPolicyParser.v
ExecPolicyAmend.v
HeadTailBuffer.v
ShellParse.v
CommandSafety.v
OutputTruncation.v
ConversationItems.v
HistoryNormalize.v
ContextManager.v
TokenEstimate.v
NetworkHosts.v
NetworkState.v
NetworkRuntime.v
NetworkPolicy.v
NetworkHandlers.v
NetworkSafety.v
NetworkListen.v
StreamTags.v
StreamPlan.v
Utf8Stream.v
SandboxPaths.v
Permissions.v
PermissionSafety.v
PermissionLegacy.v
PermissionProfiles.v
PermissionGrants.v
ExecApproval.v
ExecApprovalSafety.v
ConfigToml.v
ConfigLayers.v
ExecPolicyManager.v
ExecPolicyUpdates.v
Readiness.v
AgentRegistry.v
ToolOrchestrator.v
ToolSafety.v
TurnItems.v
Compaction.v
CompactionSafety.v
RolloutReplay.v
RolloutSafety.v
BwrapMounts.v
BwrapSafety.v
BwrapGlobs.v
BwrapPolicy.v
PatchInvocation.v
PatchTouches.v
PatchApproval.v
ShellEnvironment.v
TurnDiff.v
TurnDiffSafety.v
ConfigRequirements.v
RequirementsSafety.v
NetworkApproval.v
NetworkApprovalSafety.v
