(* ===== verification/Prelude.v ===== *)
(** * A verification of the Codex command-line agent's core

    The program (codex-rs) is a coding agent: a model proposes patches and shell
    commands, and the program decides which may run and where, applies the patches,
    keeps the output and remembers the conversation.  This library models the parts
    that decide, edit and remember, as executable definitions translated from the
    Rust sources, and proves what makes them correct.

    ** Parts and files

    - apply-patch.  A patch text is parsed into hunks, in one go or while the
      model is still writing, the hunks are located in files and applied through
      a file system interface, and the run returns a record of what it changed.
      [PatchParser] (parser.rs), [StreamingParser] (streaming_parser.rs),
      [PatchRoundtrip] (a printer of the grammar, and both parsers on it),
      [SeekSequence] (seek_sequence.rs), [PatchApply] (the part of lib.rs from
      chunks to text), [PatchFs] (the part of lib.rs that runs on files, and the
      trait [ExecutorFileSystem] of file-system/src/lib.rs as a class with its
      laws), [PatchDelta] (the meaning of the returned delta).  [PatchInvocation]
      (invocation.rs and the action types of lib.rs): which commands call
      [apply_patch], and the changes a patch would make.  [PatchTouches]: the paths a
      run touches.
    - core/src/safety.rs, core/src/apply_patch.rs.  [PatchApproval]: whether a patch is
      applied unasked, after asking or not at all, and the check together with the run.
    - core/src/turn_diff_tracker.rs, core/src/tools/events.rs,
      core/src/tools/runtimes/apply_patch.rs.  [TurnDiff]: the diff that a turn shows of
      its patches, from the deltas of their runs.  [TurnDiffSafety]: that diff against
      the files.
    - protocol/src/shell_environment.rs.  [ShellEnvironment]: the variables of the agent
      that a command gets to see.
    - utils/absolute-path.  [AbsolutePath]: lexical resolution of paths, used by
      apply-patch and by execpolicy.
    - execpolicy.  [ExecPolicy] (decision.rs, rule.rs, policy.rs, error.rs,
      executable_name.rs): rules by program, network rules, evaluation, merging.
      [ExecPolicyParser] (parser.rs): the built-ins of policy files, the builder
      and the validation of examples.  [ExecPolicyAmend] (amend.rs): appending a
      rule to a file.
    - shell-command.  [ShellParse] (bash.rs, shell_detect.rs): which scripts are
      plain lists of commands.  [CommandSafety] (command_safety/): which commands
      are approved without asking and which are flagged.
    - core/src/unified_exec.  [HeadTailBuffer]: the capped output buffer.
    - core/src/context_manager.  [ConversationItems] (protocol/src/models.rs and
      the recognition of injected context in core/src/event_mapping.rs and
      core/src/context): the items of a conversation.  [HistoryNormalize]
      (normalize.rs): the pairing of calls and outputs.  [ContextManager]
      (history.rs): recording, prompts, removal, rollback, token usage.
      [TokenEstimate] (history.rs): estimates of the context used.
    - utils/string, utils/output-truncation.  [OutputTruncation]: cutting the
      middle out of long tool output, used when an item is recorded.
    - network-proxy.  The proxy that polices what sandboxed commands reach.
      [NetworkHosts] (policy.rs): addresses, host names, domain patterns.
      [NetworkState] (config.rs, state.rs, runtime.rs): settings, managed
      constraints, the shared state and its operations as critical sections.
      [NetworkRuntime]: the sections of several tasks interleaved.
      [NetworkPolicy] (network_policy.rs, responses.rs, connect_policy.rs,
      upstream.rs) and [NetworkHandlers] (http_proxy.rs, socks5.rs, mitm.rs): the
      handlers, in a monad over the state and a trace.  [NetworkSafety]: a program
      logic over traces and what it shows of the handlers.  [NetworkListen]
      (config.rs): the addresses of the listeners.
    - utils/stream-parser.  The markup of streamed assistant text.  [StreamTags]
      (stream_text.rs, inline_hidden_tag.rs, citation.rs): the interface of stream
      parsers with its law, hidden tags, citations.  [StreamPlan]
      (tagged_line_parser.rs, proposed_plan.rs, assistant_text.rs): blocks between
      tag lines, plans, and the parser of assistant text over both.  [Utf8Stream]
      (utf8_stream.rs): any stream parser fed with bytes, over the decoder of std.
    - protocol/src/permissions.rs and models.rs.  What a sandboxed command may read and
      write.  [SandboxPaths]: canonicalisation (with utils/absolute-path).
      [Permissions]: policies of entries, their resolution for a path, writable roots,
      protected metadata, the older policies.  [PermissionSafety]: which entry decides,
      the roots against the policy, metadata.  [PermissionLegacy]: the two conversions.
    - sandboxing.  [PermissionProfiles], [PermissionGrants] (policy_transforms.rs):
      profiles, additional permissions, their intersection with what was granted.
    - linux-sandbox/src/bwrap.rs.  [BwrapMounts]: from a policy to the mounts and the
      command line of bubblewrap.  [BwrapSafety]: the view that mounts made in order
      leave of the host, and what the mounts of a policy contribute to it.
      [BwrapGlobs]: the scan for the matches of denied globs.  [BwrapPolicy]: the view
      against the policy, and the command line read back.
    - config.  [ConfigToml] (merge.rs, overrides.rs, key_aliases.rs, fingerprint.rs) and
      [ConfigLayers] (state.rs, constraint.rs): TOML values, the stack of layers, the
      effective configuration and where each value came from.  [ConfigRequirements]
      (config_requirements.rs, requirements_exec_policy.rs, hook_config.rs): what
      administrators allow, merged from several sources.  [RequirementsSafety]: what a
      session can be set to under it.
    - core/src/exec_policy.rs.  [ExecApproval]: the approval a command requires, from the
      rules, the heuristics and the settings.  [ExecApprovalSafety]: what it is decided
      by.  [ExecPolicyManager]: the rules of all layers and the policy in force.
      [ExecPolicyUpdates]: what accepting a proposed rule changes.
    - core/src/tools.  [ToolOrchestrator] (orchestrator.rs, sandboxing.rs, and
      sandboxing/src/manager.rs): a run of a tool with its approvals, attempts and
      sandbox, in a monad over a log.  [ToolSafety]: a program logic over the log, and
      rules and orchestrator together.  [NetworkApproval] (network_approval.rs, and
      core/src/network_policy_decision.rs): requests for hosts that the lists do not
      mention, which wait until someone has answered for their host.
      [NetworkApprovalSafety]: all of them interleaved.
    - core/src/agent.  [AgentRegistry] (registry.rs, mailbox.rs, and
      protocol/src/agent_path.rs): the slots of sub-agents and their mail.
    - utils/readiness.  [Readiness]: the flag, with the tasks that use it interleaved.
    - core/src/session.  [TurnItems] (event_mapping.rs, stream_events_utils.rs): what an
      item means in a turn.  [Compaction] (compact.rs, compact_remote.rs) and
      [CompactionSafety]: replacing the history by a summary.  [RolloutReplay]
      (rollout_reconstruction.rs, thread_rollout_truncation.rs, rollout/src/policy.rs) and
      [RolloutSafety]: rebuilding a session from its log.
    - [Prelude] and [RustStr] hold what all parts share: outcomes of Rust code,
      tactics, orders, and the operations of [str].

    ** Modelling

    A fallible function returns [result]: [Ok], [Err], [Panic] for an index out
    of range or a failed [expect], and [OutOfFuel] for a loop whose bound was too
    small.  Theorems about success or error therefore exclude panics and
    divergence ([settled], [yields]).  Loops over a list are structural; the
    others take fuel, and the fuel is enough: the line loops of the parser use
    the number of lines, the tree walks the number of nodes, the shell detection
    the length of the path, which each step shortens, the tag loop the length of
    the buffer, the UTF-8 decoder the number of bytes, and the proofs show that
    [OutOfFuel] does not occur.  Strings are lists of Unicode scalar values;
    [lines], [trim], [split] and the like are written out for all of Unicode.
    Sizes are natural numbers; counters and byte offsets are 64 bits wide and
    saturate where the source says so, [i64] sums panic or wrap by the kind of
    build.  File systems, the Starlark evaluator, tree-sitter, PowerShell, shlex,
    serde_json, an image decoder, globs, wildcards, the text of a diff, the URL and HTTP libraries, DNS, the home
    and the current directory are arguments; where a proof needs a promise of one of
    them, the promise is a named class or hypothesis ([FileSystemLaws],
    [PolicyStoreLaws], [to_json_one_line], [globs_match_themselves]) with an instance
    that satisfies it.  The model that streams, the compaction service, tools, hooks
    and reviewers are arguments too, and nothing is assumed of them.  The sandbox of
    Linux is modelled up to the command line of bubblewrap and what its mounts mean for
    a path of the host ([view], after setup_newroot of the vendored bubblewrap.c); its
    theorems are about hosts without symbolic links ([no_links], [host_ok]), the
    definitions about all.  The scan for globs descends no
    deeper than the longest path of Linux has bytes.  The loop of
    compaction takes as fuel the length of the history, plus one, times the retries,
    plus one: each removal shortens the history and between two of them the retries
    run out.  Concurrency is in the network proxy, the approval of network
    access, the agent registry and the readiness flag: tasks are state machines whose steps are critical sections or
    atomic accesses.  A handler of the proxy meets an arbitrary change of the state
    before each access, as long as the change keeps the invariant, which the
    interleaving theorem shows of the tasks.

    ** What the theorems show

    - Parsing: both parsers are total, agree with each other and invert the
      printer; the cutting of the stream does not matter; reported hunks stay.
    - Applying: the search finds the first occurrence from its start on under the
      strictest comparison that has one; an update is the original with disjoint slices
      replaced; a run never panics; an exact delta replays and undoes the run,
      also when the run failed half-way; a patch that is approved unasked touches only
      what the policy lets be written, and what was shown to the user is what happens,
      each but for the exceptions named; the diff shown for a turn is the net effect of
      its patches on the files, if none moves a file onto itself.
    - Policies: the strictest consulted rule decides, overlays only tighten,
      policy files that load have the examples they state, the builder stays
      well formed, hosts are normalised, appending a rule is idempotent.
    - Safety: approved commands are not flagged, a shell whose script is just
      [zsh] apart; approved scripts are plain
      throughout; git is approved for read-only use only.
    - The buffer holds the head and the tail of the stream; a truncated text is
      the longest prefix and suffix within the budget, with an exact marker.
    - Conversations: what is sent has every call answered and every output
      called for, exactly and idempotently; removal keeps calls and outputs
      matched; rollback drops turns and the context before them, nothing else;
      token totals are exact sums that stop at the bounds of their type.
    - Network: whatever the interleaving, the shared state stays within the managed
      constraints and its compiled lists are current, given that callers validate the
      states they install; a host is let through only
      by the lists and never to a local address by accident; requests, tunnels and
      datagrams leave only after the checks, HTTPS in limited mode is read-only, and
      the address dialled is checked again; one pattern allows another exactly when
      it covers it; printed addresses parse back.
    - Streams: what a stream parser gives in all does not depend on how text or
      bytes are cut; citations written into a text come back; the plan blocks are
      those of reading line by line, and what is in them or in citations is not shown;
      bytes that are not UTF-8 are reported and leave the parser as it was.
    - Permissions: the most specific entry decides; the roots given to the operating
      system agree with the policy but for the exceptions named; metadata stays
      protected; the older policies are embedded and projected exactly; a grant stays
      within the request, and additional permissions lift a denial only below the entry
      that makes it.
    - The sandbox of Linux: what its mounts let be written the policy lets be written,
      what they show it lets be read, and what it grants they keep, each but for the
      exceptions named; files that denied globs match are hidden; the command line is
      read back as the mounts, the namespaces and the command.
    - Approval: the requirement for a command follows from the verdicts on its parts; a
      dangerous part that no rule speaks of is not run unasked; a proposed rule is
      enough, takes effect when accepted, and changes nothing else; no attempt of a
      tool comes before the approval it needs; the environment of a command is exactly
      what its policy says; a host that the lists do not mention is reached only after
      someone approved it, one question is asked per host at a time, and every request
      gets its answer once the questions have theirs.
    - Configuration: stacks are in order, and the last enabled layer that speaks of a
      path decides it; the first source of requirements that speaks of a field decides
      it, and no attempt to set a value leaves what it allows.
    - Agents and readiness: the limit on agents holds under any interleaving, and the
      counter is exact while no registered id is registered again; the flag
      turns ready once, by a subscribed token or while no one is subscribed; in a fair execution a waiter that
      listens in time returns.
    - Sessions: compaction keeps the newest messages within the budget and logs its
      checkpoint just when it installs one, and else only events that replay ignores;
      replay follows the turns that survive the rollbacks; a resumed session has the
      history it was left with, but for failed compactions and checkpoints that are
      rolled back.
    - Theorems record where the code departs from its intent: the search with
      [eof] set, an addition inside a replaced region, a move onto itself, escaped
      words in scripts, blocked requests lost between a read and a write, a count
      that a forced reload resets, a second [Connection] header, allowed local
      addresses that are not dialled, patterns the constraint check confuses,
      openers that are prefixes of one another, metadata below a nested root, a
      narrower read entry that a grant widens, rules dropped with a broken file, a
      signal a waiter misses, a flag that is ready with no token marked, a slot lost
      when an agent is resumed, items of a failed compaction, a checkpoint that is
      rolled back, a rollback of a steered turn, missing metadata below the top of a
      writable root, a git directory shown inside a denied one, a move that a later
      hunk on the same file hides from the check, a destination that loses a carriage
      return between the check and the run, a profile that can write nearly everywhere
      and passes for one of a workspace.

    ** Not modelled

    The sandboxes of macOS and Windows, seccomp and Landlock, processes, network
    clients, user interfaces, storage and telemetry are input and output around the
    core and are left out, as are the branches compiled for Windows only, except the
    PowerShell checks that every build contains.  Of the sandbox of Linux the helper
    process around bubblewrap is left out; of the network proxy, TLS, certificates and
    the copying of streams; of configuration, the reading of files and the
    typed settings; of sessions, the loop around the model;
    of the approval of network access, the messages to the session and the writing of
    accepted rules.  The older policy checker execpolicy-legacy is
    not used by the agent. *)

From stdpp Require Export base list option numbers decidable.
From stdpp Require Export gmap sorting.
From Stdlib Require Export Lia ZifyBool ZifyN.

(** ** Outcomes of a Rust computation

    [Ok] and [Err] are the two constructors of [Result]; [Panic] is an abort
    of the thread (an out-of-range index, a failed [expect]); [OutOfFuel] marks
    a loop whose bound was too small.  A theorem that a function returns [Ok]
    or [Err] therefore also excludes panics and non-termination. *)
Inductive result (E A : Type) : Type :=
| Ok (a : A)
| Err (e : E)
| Panic
| OutOfFuel.
Arguments Ok {E A} a.
Arguments Err {E A} e.
Arguments Panic {E A}.
Arguments OutOfFuel {E A}.

Definition rbind {E A B} (r : result E A) (k : A -> result E B) : result E B :=
  match r with
  | Ok a => k a
  | Err e => Err e
  | Panic => Panic
  | OutOfFuel => OutOfFuel
  end.

Definition map_err {E F A} (f : E -> F) (r : result E A) : result F A :=
  match r with
  | Ok a => Ok a
  | Err e => Err (f e)
  | Panic => Panic
  | OutOfFuel => OutOfFuel
  end.

(** [option::ok_or] and an indexing operation that panics when out of range. *)
Definition ok_or {E A} (o : option A) (e : E) : result E A :=
  match o with Some a => Ok a | None => Err e end.

Definition index {E A} (l : list A) (i : nat) : result E A :=
  match l !! i with Some a => Ok a | None => Panic end.

(** The result satisfies [P] on success and [Q] on error; it is neither a panic
    nor out of fuel. *)
Definition yields {E A} (P : A -> Prop) (Q : E -> Prop) (r : result E A) : Prop :=
  match r with Ok a => P a | Err e => Q e | Panic | OutOfFuel => False end.

(** A computation has settled when it is neither a panic nor out of fuel. *)
Definition settled {E A} (r : result E A) : Prop := yields (fun _ => True) (fun _ => True) r.

(** It returns when it has a value. *)
Definition returns {E A} (r : result E A) : Prop := yields (fun _ => True) (fun _ => False) r.

(** [iter().map(f).collect::<Result<Vec<_>, _>>()]: stops at the first error. *)
Fixpoint traverse {E A B} (f : A -> result E B) (l : list A) : result E (list B) :=
  match l with
  | [] => Ok []
  | a :: l' => rbind (f a) (fun b => rbind (traverse f l') (fun bs => Ok (b :: bs)))
  end.

Declare Scope rust_scope.
Delimit Scope rust_scope with rust.
Open Scope rust_scope.

Notation "'let?' x ':=' e 'in' k" := (rbind e (fun x => k))
  (at level 10, x pattern, e at level 100, k at level 200,
   format "'[v' 'let?'  x  ':='  e  'in' '/' k ']'") : rust_scope.

(** [usize] and [u64] of a 64-bit target.  [saturating_sub] is the truncated
    subtraction of [N]. *)
Definition usize_max : N := 2 ^ 64 - 1.
Definition isize_max : N := 2 ^ 63 - 1.
Definition saturating_add (a b : N) : N := N.min (a + b) usize_max.
Definition saturating_mul (a b : N) : N := N.min (a * b) usize_max.

Lemma saturating_add_le a b : (saturating_add a b <= a + b)%N.
Proof. apply N.le_min_l. Qed.

Lemma saturating_mul_le a b : (saturating_mul a b <= a * b)%N.
Proof. apply N.le_min_l. Qed.

(** [is_some_and] on options. *)
Definition is_some_and {A} (o : option A) (p : A -> bool) : bool :=
  match o with Some a => p a | None => false end.

Definition is_none {A} (o : option A) : bool :=
  match o with Some _ => false | None => true end.

Definition is_nil {A} (l : list A) : bool :=
  match l with [] => true | _ :: _ => false end.

(** ** Tactics *)

(** Case on the head [match]/[if] of the goal or of a hypothesis. *)
Ltac case_goal :=
  match goal with
  | |- context [match ?x with _ => _ end] =>
      let E := fresh "E" in destruct x eqn:E
  end.

Ltac case_hyp H :=
  match type of H with
  | context [match ?x with _ => _ end] =>
      let E := fresh "E" in destruct x eqn:E
  end.

(** Split boolean connectives in the context into propositions. *)
Ltac split_bools :=
  repeat match goal with
  | H : _ && _ = true |- _ => apply andb_true_iff in H as [? ?]
  | H : _ || _ = false |- _ => apply orb_false_iff in H as [? ?]
  | H : negb _ = true |- _ => apply negb_true_iff in H
  | H : negb _ = false |- _ => apply negb_false_iff in H
  | H : bool_decide _ = true |- _ => apply bool_decide_eq_true in H
  | H : bool_decide _ = false |- _ => apply bool_decide_eq_false in H
  end.

(** Prove [x ∈ [a; b; ...] -> P x] element by element. *)
Ltac each_element tac :=
  repeat (intros [->|Hin]%elem_of_cons; [tac|revert Hin]);
  by intros ?%elem_of_nil.

(** Peel the binds of a successful computation. *)
Ltac run_ok H :=
  repeat match type of H with
  | rbind ?r _ = Ok _ =>
      let E := fresh "Hr" in destruct r eqn:E; simpl in H; try discriminate H
  end.

(** ** Orders and sorted vectors *)

(** The order derived for vectors and strings from that of their elements. *)
Fixpoint lex_compare {A} (cmp : A -> A -> comparison) (a b : list A) : comparison :=
  match a, b with
  | [], [] => Eq
  | [], _ :: _ => Lt
  | _ :: _, [] => Gt
  | x :: a', y :: b' => match cmp x y with Eq => lex_compare cmp a' b' | c => c end
  end.

(** [Vec::dedup]: drop an element equal to the one kept before it. *)
Fixpoint dedup {A} `{EqDecision A} (l : list A) : list A :=
  match l with
  | [] => []
  | x :: l' =>
      match dedup l' with
      | y :: r => if decide (x = y) then y :: r else x :: y :: r
      | [] => [x]
      end
  end.

Create HintDb rust discriminated.
Create Rewrite HintDb rust_len.
Create Rewrite HintDb rust_str.

(** ** Facts about outcomes *)
Section outcome_facts.
Context {E A B : Type}.
Implicit Types (r : result E A) (P : A -> Prop) (Q : E -> Prop).

Lemma yields_settled P Q r : yields P Q r -> settled r.
Proof. by destruct r. Qed.

Lemma yields_bind P Q (P' : B -> Prop) r (k : A -> result E B) :
  yields P Q r -> (forall a, P a -> yields P' Q (k a)) -> yields P' Q (rbind r k).
Proof. destruct r; simpl; auto. Qed.

Lemma yields_weaken P Q (P' : A -> Prop) (Q' : E -> Prop) r :
  yields P Q r -> (forall a, P a -> P' a) -> (forall e, Q e -> Q' e) -> yields P' Q' r.
Proof. destruct r; simpl; auto. Qed.

Lemma yields_Ok P Q r a : yields P Q r -> r = Ok a -> P a.
Proof. intros ? ->. done. Qed.

Lemma yields_Err P Q r e : yields P Q r -> r = Err e -> Q e.
Proof. intros ? ->. done. Qed.

Lemma settled_cases r : settled r -> (exists a, r = Ok a) \/ (exists e, r = Err e).
Proof. destruct r; naive_solver. Qed.
End outcome_facts.

Lemma rbind_assoc {E A B C} (r : result E A) (k : A -> result E B) (k' : B -> result E C) :
  rbind (rbind r k) k' = rbind r (fun a => rbind (k a) k').
Proof. by destruct r. Qed.

Lemma index_0 {E A} (x : A) l : index (E:=E) (x :: l) 0 = Ok x.
Proof. reflexivity. Qed.

Lemma traverse_yields {E A B} (P : B -> Prop) (Q : E -> Prop) (f : A -> result E B) l :
  (forall a, a ∈ l -> yields P Q (f a)) -> yields (Forall P) Q (traverse f l).
Proof.
  induction l as [|a l IH]; intros H; simpl; [constructor|].
  eapply yields_bind; [apply H; by left|]. intros b Hb.
  eapply yields_bind; [apply IH; intros x Hx; apply H; by right|].
  intros bs Hbs. by constructor.
Qed.

Lemma ok_or_settled {E A} (o : option A) (e : E) : settled (ok_or o e).
Proof. by destruct o. Qed.

(** Composition of computations that settle. *)
Lemma settled_bind {E A B} (r : result E A) (k : A -> result E B) :
  settled r -> (forall a, settled (k a)) -> settled (rbind r k).
Proof. destruct r; simpl; auto. Qed.

Lemma returns_bind {E A B} (r : result E A) (k : A -> result E B) :
  returns r -> (forall a, returns (k a)) -> returns (rbind r k).
Proof. destruct r; simpl; auto. Qed.

Lemma returns_Ok {E A} (r : result E A) : returns r -> exists a, r = Ok a.
Proof. destruct r; naive_solver. Qed.

Lemma settled_traverse {E A B} (f : A -> result E B) l :
  (forall a, settled (f a)) -> settled (traverse f l).
Proof.
  intros H. eapply yields_settled, (traverse_yields (fun _ => True) (fun _ => True)).
  intros a _. apply H.
Qed.

Lemma settled_yields {E A} (P : A -> Prop) (r : result E A) :
  settled r -> (forall a, r = Ok a -> P a) -> yields P (fun _ => True) r.
Proof. destruct r; simpl; auto. Qed.

#[export] Instance result_eq_dec {E A} `{EqDecision E, EqDecision A} :
  EqDecision (result E A).
Proof. solve_decision. Defined.

(** ** List facts shared by the components *)
Section list_facts.
Context {A : Type}.
Implicit Types (l : list A).

Lemma is_nil_true l : is_nil l = true <-> l = [].
Proof. destruct l; split; done. Qed.

Lemma is_nil_false l : is_nil l = false <-> l <> [].
Proof. destruct l; split; done. Qed.

Lemma drop_lt_length l n :
  0 < n -> l <> [] -> length (drop n l) < length l.
Proof. intros. rewrite length_drop. destruct l; simpl in *; [done|lia]. Qed.

Lemma take_app_drop_mid l i n :
  i + n <= length l ->
  l = take i l ++ take n (drop i l) ++ drop (i + n) l.
Proof.
  intros. rewrite <- (take_drop i l) at 1. f_equal.
  rewrite <- (take_drop n (drop i l)) at 1. by rewrite drop_drop.
Qed.

(** [flat_map]. *)
Lemma elem_of_concat_fmap {B} (f : A -> list B) l x :
  x ∈ concat (f <$> l) <-> exists y, y ∈ l /\ x ∈ f y.
Proof.
  induction l as [|y l IH]; csimpl; [set_solver|]. rewrite elem_of_app, IH. set_solver.
Qed.

Lemma last_Some_snoc l x : last l = Some x -> exists l', l = l' ++ [x].
Proof. apply last_Some. Qed.
End list_facts.

Lemma existsb_false_Forall {A} (f : A -> bool) l : existsb f l = false <-> Forall (fun x => f x = false) l.
Proof.
  induction l as [|x l IH]; simpl; [split; [constructor|done]|].
  rewrite orb_false_iff, IH, Forall_cons. done.
Qed.

Lemma forallb_Forall {A} (f : A -> bool) l : forallb f l = true <-> Forall (fun x => f x = true) l.
Proof.
  induction l as [|x l IH]; simpl; [split; [constructor|done]|].
  rewrite andb_true_iff, IH, Forall_cons. done.
Qed.

#[export] Hint Rewrite @length_app @length_take @length_drop @length_fmap
  @length_reverse @length_replicate : rust_len.

(** ** Total orders *)

(** What the derived [Ord] of a type promises. *)
Class TotalCompare {A} (cmp : A -> A -> comparison) : Prop := {
  compare_eq : forall x y, cmp x y = Eq <-> x = y;
  compare_flip : forall x y, cmp y x = CompOpp (cmp x y);
  compare_trans : forall x y z, cmp x y = Lt -> cmp y z = Lt -> cmp x z = Lt }.

#[export] Instance N_total_compare : TotalCompare N.compare.
Proof.
  split; [apply N.compare_eq_iff|intros; by rewrite N.compare_antisym|].
  intros x y z. rewrite !N.compare_lt_iff. lia.
Qed.

#[export] Instance lex_total_compare {A} (cmp : A -> A -> comparison) `{!TotalCompare cmp} :
  TotalCompare (lex_compare cmp).
Proof.
  assert (forall x, cmp x x = Eq) as Hrefl by (intros x; by apply compare_eq).
  split.
  - induction x as [|a x IH]; intros [|b y]; simpl; try done.
    destruct (cmp a b) eqn:E.
    + apply compare_eq in E as ->. rewrite IH. split; congruence.
    + split; [done|]. intros [= -> _]. by rewrite Hrefl in E.
    + split; [done|]. intros [= -> _]. by rewrite Hrefl in E.
  - induction x as [|a x IH]; intros [|b y]; simpl; try done.
    rewrite (compare_flip a b). destruct (cmp a b); simpl; auto.
  - induction x as [|a x IH]; intros [|b y] [|c z]; simpl; try done.
    destruct (cmp a b) eqn:E1; try done; intros H1.
    + apply compare_eq in E1 as ->. destruct (cmp b c); try done. by apply IH.
    + destruct (cmp b c) eqn:E2; try done; intros H2.
      * apply compare_eq in E2 as ->. by rewrite E1.
      * by rewrite (compare_trans a b c).
Qed.

Definition compare_le {A} (cmp : A -> A -> comparison) (x y : A) : Prop := cmp x y <> Gt.
Definition compare_lt {A} (cmp : A -> A -> comparison) (x y : A) : Prop := cmp x y = Lt.

#[export] Instance compare_le_dec {A} (cmp : A -> A -> comparison) : RelDecision (compare_le cmp).
Proof. intros x y. unfold compare_le. apply _. Defined.

Lemma elem_of_dedup {A} `{EqDecision A} (l : list A) x : x ∈ dedup l <-> x ∈ l.
Proof.
  induction l as [|y l IH]; simpl; [done|].
  destruct (dedup l) as [|z r]; [set_solver|]. case_decide; set_solver.
Qed.

Section ordered_lists.
Context {A : Type} `{EqDecision A} (cmp : A -> A -> comparison) `{!TotalCompare cmp}.
Local Abbreviation le := (compare_le cmp).
Local Abbreviation lt := (compare_lt cmp).

Lemma compare_le_cases x y : le x y <-> lt x y \/ x = y.
Proof.
  unfold compare_le, compare_lt. rewrite <- (compare_eq (cmp:=cmp) x y). destruct (cmp x y); naive_solver.
Qed.

Lemma compare_le_total : Total le.
Proof. intros x y. unfold compare_le. rewrite (compare_flip (cmp:=cmp) x y). destruct (cmp x y); naive_solver. Qed.

Lemma compare_le_trans : Transitive le.
Proof.
  intros x y z. rewrite !compare_le_cases. intros [H1| ->] [H2| ->]; auto.
  left. by apply compare_trans with y.
Qed.

(** Deduplicating a sorted vector leaves it strictly increasing. *)
Lemma dedup_increasing l : StronglySorted le l -> StronglySorted lt (dedup l).
Proof.
  induction 1 as [|x l Hs IH Hall]; simpl; [constructor|].
  assert (Forall (le x) (dedup l)) as Hd.
  { rewrite Forall_forall in *. intros y Hy. by apply Hall, elem_of_dedup. }
  destruct (dedup l) as [|y r]; [repeat constructor|]. case_decide as E; [done|].
  constructor; [done|]. inversion IH as [|?? Hr Hy]; inversion Hd as [|?? Hxy Hd']; subst.
  apply compare_le_cases in Hxy as [Hxy|?]; [|done]. constructor; [done|].
  eapply Forall_impl; [exact Hy|]. intros z Hz. by apply compare_trans with y.
Qed.

Lemma increasing_NoDup l : StronglySorted lt l -> NoDup l.
Proof.
  induction 1 as [|x l Hs IH Hall]; constructor; [|done].
  intros Hin. rewrite Forall_forall in Hall. specialize (Hall x Hin).
  unfold compare_lt in Hall. by rewrite (proj2 (compare_eq (cmp:=cmp) x x)) in Hall.
Qed.
End ordered_lists.
