(* ===== verification/RustStr.v ===== *)
(** * Rust strings

    A Rust [str] is a valid UTF-8 sequence; it is modelled as the list of its
    Unicode scalar values, so that [chars], [trim] and pattern matching on
    characters read as in the source for every input, not only for ASCII.  The
    operations of [std] the program uses are written out here, with the lemmas
    the components need. *)

From Stdlib Require Import Ascii String.
Export String.StringSyntax.
From S2P Require Import Prelude.

Abbreviation char := N.
Abbreviation str := (list N).

(** String literals of the source. *)
Definition lit (s : String.string) : str :=
  List.map N_of_ascii (list_ascii_of_string s).
Arguments lit s%_string.

Notation "'L' s" := (lit s%string) (at level 1, s at level 0, only parsing) : rust_scope.

Definition LF : char := 10%N.
Definition CR : char := 13%N.
Definition SP : char := 32%N.
Definition DQUOTE : char := 34%N.

(** [char::is_whitespace]: the Unicode [White_Space] property. *)
Definition is_whitespace (c : char) : bool :=
  ((9 <=? c) && (c <=? 13) || (c =? 32) || (c =? 133) || (c =? 160) || (c =? 5760)
   || (8192 <=? c) && (c <=? 8202) || (c =? 8232) || (c =? 8233) || (c =? 8239)
   || (c =? 8287) || (c =? 12288))%N.

Definition is_ascii_digit (c : char) : bool := ((48 <=? c) && (c <=? 57))%N.

Definition to_ascii_lowercase_char (c : char) : char :=
  if ((65 <=? c) && (c <=? 90))%N then (c + 32)%N else c.
Definition to_ascii_lowercase (s : str) : str := to_ascii_lowercase_char <$> s.

(** [trim_start_matches] / [trim_end_matches] for a character predicate. *)
Fixpoint trim_start_matches (p : char -> bool) (s : str) : str :=
  match s with
  | c :: s' => if p c then trim_start_matches p s' else s
  | [] => []
  end.
Definition trim_end_matches (p : char -> bool) (s : str) : str :=
  reverse (trim_start_matches p (reverse s)).

Definition trim_start (s : str) : str := trim_start_matches is_whitespace s.
Definition trim_end (s : str) : str := trim_end_matches is_whitespace s.
Definition trim (s : str) : str := trim_end (trim_start s).

Fixpoint strip_prefix (p s : str) : option str :=
  match p, s with
  | [], _ => Some s
  | a :: p', b :: s' => if (a =? b)%N then strip_prefix p' s' else None
  | _ :: _, [] => None
  end.
Definition starts_with (p s : str) : bool :=
  match strip_prefix p s with Some _ => true | None => false end.
Definition strip_suffix (p s : str) : option str :=
  match strip_prefix (reverse p) (reverse s) with
  | Some r => Some (reverse r)
  | None => None
  end.
Definition ends_with (p s : str) : bool :=
  match strip_suffix p s with Some _ => true | None => false end.

Fixpoint contains (p s : str) : bool :=
  starts_with p s || match s with [] => false | _ :: s' => contains p s' end.
Definition contains_char (c : char) (s : str) : bool := existsb (N.eqb c) s.

(** [split(c)], [split_once(c)] and [rsplit_once(c)] for a single character. *)
Fixpoint split_char (sep : char) (s : str) : list str :=
  match s with
  | [] => [[]]
  | c :: s' =>
      if (c =? sep)%N then [] :: split_char sep s'
      else match split_char sep s' with
           | h :: t => (c :: h) :: t
           | [] => [[c]]
           end
  end.

Fixpoint split_once (sep : char) (s : str) : option (str * str) :=
  match s with
  | [] => None
  | c :: s' =>
      if (c =? sep)%N then Some ([], s')
      else match split_once sep s' with
           | Some (a, b) => Some (c :: a, b)
           | None => None
           end
  end.
Definition rsplit_once (sep : char) (s : str) : option (str * str) :=
  match split_once sep (reverse s) with
  | Some (a, b) => Some (reverse b, reverse a)
  | None => None
  end.

(** [lines]: every line but the last is ended by LF and loses an optional CR
    before it; a last line without LF is kept as it is, and is dropped when
    empty. *)
Definition strip_cr (s : str) : str := default s (strip_suffix [CR] s).

Fixpoint finish_lines (parts : list str) : list str :=
  match parts with
  | [] => []
  | [p] => if is_nil p then [] else [p]
  | p :: rest => strip_cr p :: finish_lines rest
  end.
Definition lines (s : str) : list str := finish_lines (split_char LF s).

(** [slice::join]. *)
Fixpoint join (sep : str) (parts : list str) : str :=
  match parts with
  | [] => []
  | [p] => p
  | p :: rest => p ++ sep ++ join sep rest
  end.

(** [str::len] counts bytes of the UTF-8 encoding. *)
Definition len_utf8 (c : char) : nat :=
  if (c <? 128)%N then 1 else if (c <? 2048)%N then 2 else if (c <? 65536)%N then 3 else 4.
Definition byte_len (s : str) : nat := sum_list (len_utf8 <$> s).

Definition str_eqb (a b : str) : bool := bool_decide (a = b).
Definition eq_ignore_ascii_case (a b : str) : bool :=
  str_eqb (to_ascii_lowercase a) (to_ascii_lowercase b).

(** Decimal rendering of a [usize] ([format!("{n}")]). *)
Fixpoint digits_fuel (fuel : nat) (n : N) (acc : str) : str :=
  match fuel with
  | 0 => acc
  | S fuel' =>
      let acc' := (48 + n mod 10)%N :: acc in
      if (n <? 10)%N then acc' else digits_fuel fuel' (n / 10)%N acc'
  end.
Definition show_nat (n : nat) : str :=
  digits_fuel (S (N.to_nat (N.size (N.of_nat n)))) (N.of_nat n) [].

(** ** Trimming *)

Section trimming.
Context (p : char -> bool).

Lemma trim_start_matches_suffix s : exists w, s = w ++ trim_start_matches p s
  /\ Forall (fun c => p c = true) w.
Proof.
  induction s as [|c s (w & E & F)]; [exists []; done|]. simpl.
  destruct (p c) eqn:Hc; [|exists []; done].
  exists (c :: w). simpl. split; [by rewrite <- E|by constructor].
Qed.

Lemma trim_end_matches_prefix s : exists w, s = trim_end_matches p s ++ w
  /\ Forall (fun c => p c = true) w.
Proof.
  destruct (trim_start_matches_suffix (reverse s)) as (w & E & F).
  exists (reverse w). split; [|by apply Forall_reverse].
  unfold trim_end_matches.
  rewrite <- reverse_app, <- E. by rewrite reverse_involutive.
Qed.

Lemma trim_start_matches_id c s : p c = false -> trim_start_matches p (c :: s) = c :: s.
Proof. simpl. by intros ->. Qed.

Lemma trim_end_matches_snoc_id s c :
  p c = false -> trim_end_matches p (s ++ [c]) = s ++ [c].
Proof.
  intros Hc. unfold trim_end_matches. rewrite reverse_app. simpl.
  rewrite Hc. rewrite <- (reverse_involutive (s ++ [c])).
  by rewrite reverse_app.
Qed.

Lemma trim_start_matches_idemp s :
  trim_start_matches p (trim_start_matches p s) = trim_start_matches p s.
Proof.
  induction s as [|c s IH]; simpl; [done|].
  destruct (p c) eqn:Hc; [done|]. simpl. by rewrite Hc.
Qed.
End trimming.

(** A string with no white space at its ends. *)
Definition trimmed_end (s : str) : bool :=
  match last s with Some c => negb (is_whitespace c) | None => false end.

Lemma trim_end_id s : trimmed_end s = true -> trim_end s = s.
Proof.
  unfold trimmed_end. intros H. destruct (last s) as [c|] eqn:E; [|done].
  apply last_Some in E as [s' ->]. apply trim_end_matches_snoc_id.
  by apply negb_true_iff.
Qed.

Lemma trim_id c s :
  is_whitespace c = false -> trimmed_end (c :: s) = true -> trim (c :: s) = c :: s.
Proof.
  intros Hc Ht. unfold trim, trim_start. rewrite trim_start_matches_id by done.
  by apply trim_end_id.
Qed.

Lemma trim_solid s :
  is_some_and (head s) (fun c => negb (is_whitespace c)) = true -> trimmed_end s = true ->
  trim s = s.
Proof. destruct s as [|c s]; [done|]. intros Hc%negb_true_iff Ht. by apply trim_id. Qed.

Lemma trimmed_end_app a b : trimmed_end b = true -> trimmed_end (a ++ b) = true.
Proof.
  unfold trimmed_end. intros H. destruct (last b) as [c|] eqn:E; [|done].
  by rewrite last_app, E.
Qed.

Lemma trim_end_head c s :
  is_whitespace c = false -> exists s', trim_end (c :: s) = c :: s'.
Proof.
  intros Hc. destruct (trim_end_matches_prefix is_whitespace (c :: s)) as (w & E & F).
  change (trim_end_matches is_whitespace (c :: s)) with (trim_end (c :: s)) in E.
  destruct (trim_end (c :: s)) as [|d t] eqn:Et.
  - simpl in E. rewrite <- E in F. inversion F. congruence.
  - simpl in E. injection E as <- _. by exists t.
Qed.

Lemma trim_start_app_l w s :
  Forall (fun c => is_whitespace c = true) w -> trim_start (w ++ s) = trim_start s.
Proof. induction 1 as [|c w Hc _ IH]; [done|]. unfold trim_start in *. simpl. by rewrite Hc. Qed.

Lemma trim_end_app_r s w :
  Forall (fun c => is_whitespace c = true) w -> trim_end (s ++ w) = trim_end s.
Proof.
  intros F. unfold trim_end, trim_end_matches. rewrite reverse_app. f_equal.
  apply trim_start_app_l. by apply Forall_reverse.
Qed.

Lemma trim_surround w1 s w2 :
  Forall (fun c => is_whitespace c = true) w1 -> Forall (fun c => is_whitespace c = true) w2 ->
  trim s = s -> s <> [] -> trim (w1 ++ s ++ w2) = s.
Proof.
  intros H1 H2 Hs Hne. unfold trim in *. rewrite trim_start_app_l by done.
  destruct s as [|c s]; [done|]. destruct (is_whitespace c) eqn:Hc.
  - exfalso. unfold trim_start in Hs. simpl in Hs. rewrite Hc in Hs.
    destruct (trim_end_matches_prefix is_whitespace (trim_start_matches is_whitespace s))
      as (u & Eu & _).
    change (trim_end_matches is_whitespace) with trim_end in Eu. rewrite Hs in Eu.
    destruct (trim_start_matches_suffix is_whitespace s) as (v & Ev & _).
    rewrite Eu in Ev. apply (f_equal length) in Ev. rewrite !length_app in Ev. simpl in Ev. lia.
  - unfold trim_start in *. simpl in *. rewrite Hc in *.
    rewrite app_comm_cons, trim_end_app_r by done. done.
Qed.

Lemma trim_no_whitespace s : Forall (fun c => is_whitespace c = false) s -> trim s = s.
Proof.
  intros F. destruct s as [|c s]; [done|]. rewrite Forall_forall in F. apply trim_solid.
  - simpl. by rewrite (F c) by left.
  - unfold trimmed_end. destruct (last (c :: s)) as [d|] eqn:E; [|by apply last_None in E].
    by rewrite (F d) by (by apply last_Some_elem_of).
Qed.

Lemma trim_end_matches_last p s :
  trim_end_matches p s = [] \/ exists s' c, trim_end_matches p s = s' ++ [c] /\ p c = false.
Proof.
  induction s as [|c s IH] using rev_ind; [by left|].
  unfold trim_end_matches in *. rewrite reverse_snoc. cbn [trim_start_matches].
  destruct (p c) eqn:E; [done|]. right. exists s, c. by rewrite <- reverse_snoc, reverse_involutive.
Qed.

Lemma trim_idemp s : trim (trim s) = trim s.
Proof.
  unfold trim. destruct (trim_start s) as [|c t] eqn:Et; [done|].
  assert (is_whitespace c = false) as Hc.
  { pose proof (trim_start_matches_idemp is_whitespace s) as Hi. unfold trim_start in Et. rewrite Et in Hi.
    cbn in Hi. destruct (is_whitespace c) eqn:E; [|done].
    destruct (trim_start_matches_suffix is_whitespace t) as (w & Hw & _). rewrite Hi in Hw.
    apply (f_equal length) in Hw. rewrite length_app in Hw. cbn in Hw. lia. }
  destruct (trim_end_head c t Hc) as [t' Ht']. rewrite Ht'. unfold trim_start.
  rewrite trim_start_matches_id by done. rewrite <- Ht'. unfold trim_end.
  destruct (trim_end_matches_last is_whitespace (c :: t)) as [->|(u & d & -> & Hd)]; [done|].
  by apply trim_end_matches_snoc_id.
Qed.

Lemma trim_end_matches_app p s w :
  Forall (fun c => p c = true) w -> is_some_and (last s) (fun c => negb (p c)) = true ->
  trim_end_matches p (s ++ w) = s.
Proof.
  intros F Hl. destruct (last s) as [c|] eqn:E; [|done]. apply last_Some in E as [s' ->].
  apply negb_true_iff in Hl. rewrite <- (trim_end_matches_snoc_id p s' c Hl) at 2.
  unfold trim_end_matches. rewrite reverse_app. f_equal.
  apply Forall_reverse in F. induction F as [|d w' Hd _ IH]; [done|]. simpl. by rewrite Hd.
Qed.

(** What holds of all characters still does after trimming. *)
Lemma Forall_trim_end_matches (P : char -> Prop) p s : Forall P s -> Forall P (trim_end_matches p s).
Proof.
  intros F. destruct (trim_end_matches_prefix p s) as (w & E & _).
  rewrite E in F. by apply Forall_app in F as [? _].
Qed.

Lemma Forall_trim (P : char -> Prop) s : Forall P s -> Forall P (trim s).
Proof.
  intros F. apply Forall_trim_end_matches. unfold trim_start.
  destruct (trim_start_matches_suffix is_whitespace s) as (w & E & _).
  rewrite E in F. by apply Forall_app in F as [_ ?].
Qed.

(** ** Prefixes and suffixes *)

Lemma strip_prefix_Some p s r : strip_prefix p s = Some r <-> s = p ++ r.
Proof.
  revert s. induction p as [|a p IH]; intros s; simpl.
  - split; congruence.
  - destruct s as [|b s]; [done|]. destruct (a =? b)%N eqn:E.
    + apply N.eqb_eq in E as ->. rewrite IH. split; congruence.
    + split; [done|]. intros [= -> _]. by rewrite N.eqb_refl in E.
Qed.

Lemma strip_prefix_app p r : strip_prefix p (p ++ r) = Some r.
Proof. by apply strip_prefix_Some. Qed.

Lemma starts_with_true p s : starts_with p s = true <-> exists r, s = p ++ r.
Proof.
  unfold starts_with. destruct (strip_prefix p s) as [r|] eqn:E.
  - apply strip_prefix_Some in E. split; eauto.
  - split; [done|]. intros [r Hr]. apply strip_prefix_Some in Hr. congruence.
Qed.

Lemma strip_suffix_Some p s r : strip_suffix p s = Some r <-> s = r ++ p.
Proof.
  unfold strip_suffix. destruct (strip_prefix (reverse p) (reverse s)) as [t|] eqn:E.
  - apply strip_prefix_Some in E. apply (f_equal reverse) in E.
    rewrite reverse_app, !reverse_involutive in E. subst s. split.
    + by intros [= <-].
    + intros H. by apply app_inv_tail in H as ->.
  - split; [done|]. intros ->. rewrite reverse_app in E.
    by rewrite strip_prefix_app in E.
Qed.

Lemma ends_with_true p s : ends_with p s = true <-> exists r, s = r ++ p.
Proof.
  unfold ends_with. destruct (strip_suffix p s) as [r|] eqn:E.
  - apply strip_suffix_Some in E. split; eauto.
  - split; [done|]. intros [r Hr]. apply strip_suffix_Some in Hr. congruence.
Qed.

(** ** Splitting and joining *)

Lemma split_char_nonempty sep s : split_char sep s <> [].
Proof.
  induction s as [|c s IH]; simpl; [done|].
  destruct (c =? sep)%N; [done|]. by destruct (split_char sep s).
Qed.

Lemma split_char_none sep s : sep ∉ s -> split_char sep s = [s].
Proof.
  induction s as [|c s IH]; simpl; [done|]. intros H.
  apply not_elem_of_cons in H as [Hc Hs]. rewrite IH by done.
  destruct (c =? sep)%N eqn:E; [|done]. apply N.eqb_eq in E. by subst.
Qed.

Lemma split_char_app sep a s :
  sep ∉ a -> split_char sep (a ++ sep :: s) = a :: split_char sep s.
Proof.
  induction a as [|c a IH]; simpl; intros H.
  - by rewrite N.eqb_refl.
  - apply not_elem_of_cons in H as [Hc Ha]. rewrite IH by done.
    destruct (c =? sep)%N eqn:E; [|done]. apply N.eqb_eq in E. by subst.
Qed.

Lemma split_char_app_sep sep a b :
  split_char sep (a ++ sep :: b) = split_char sep a ++ split_char sep b.
Proof.
  induction a as [|c a IH]; simpl.
  - by rewrite N.eqb_refl.
  - rewrite IH. destruct (c =? sep)%N; [done|].
    destruct (split_char sep a) eqn:E; [by apply split_char_nonempty in E|done].
Qed.

Lemma split_char_join sep ls :
  ls <> [] -> Forall (fun l => sep ∉ l) ls -> split_char sep (join [sep] ls) = ls.
Proof.
  induction ls as [|l ls IH]; [done|]. intros _ F. inversion F as [|?? Hl Hls]; subst.
  destruct ls as [|l' ls].
  - simpl. by apply split_char_none.
  - change (join [sep] (l :: l' :: ls)) with (l ++ sep :: join [sep] (l' :: ls)).
    rewrite split_char_app by done. f_equal. by apply IH.
Qed.

Lemma join_split_char sep s : join [sep] (split_char sep s) = s.
Proof.
  induction s as [|c s IH]; simpl; [done|].
  destruct (c =? sep)%N eqn:E.
  - apply N.eqb_eq in E as ->. destruct (split_char sep s) as [|h t] eqn:Es.
    + by apply split_char_nonempty in Es.
    + simpl in *. by rewrite IH.
  - destruct (split_char sep s) as [|h t] eqn:Es.
    + by apply split_char_nonempty in Es.
    + destruct t; simpl in *; by rewrite <- IH.
Qed.

Lemma split_char_no_sep sep s : Forall (fun l => sep ∉ l) (split_char sep s).
Proof.
  induction s as [|c s IH]; simpl.
  - constructor; [set_solver|constructor].
  - destruct (c =? sep)%N eqn:E.
    + constructor; [set_solver|done].
    + apply N.eqb_neq in E. destruct (split_char sep s); [constructor; [set_solver|constructor]|].
      inversion IH; subst. constructor; [set_solver|done].
Qed.

(** Every piece of a split is a part of the text. *)
Lemma split_char_infix sep s p : p ∈ split_char sep s -> exists a b, s = a ++ p ++ b.
Proof.
  revert p. induction s as [|c s IH]; intros p; simpl.
  - intros ->%list_elem_of_singleton. by exists [], [].
  - destruct (c =? sep)%N.
    + intros [->|Hp]%elem_of_cons; [by exists [], (c :: s)|].
      destruct (IH p Hp) as (a & b & ->). by exists (c :: a), b.
    + destruct (split_char sep s) as [|h t] eqn:E; [by apply split_char_nonempty in E|].
      intros [->|Hp]%elem_of_cons.
      * pose proof (join_split_char sep s) as Hj. rewrite E in Hj.
        exists [], (match t with [] => [] | _ => sep :: join [sep] t end).
        simpl. f_equal. rewrite <- Hj. destruct t; [by rewrite app_nil_r|done].
      * destruct (IH p ltac:(by right)) as (a & b & ->). by exists (c :: a), b.
Qed.

Lemma split_once_Some sep s a b : split_once sep s = Some (a, b) -> s = a ++ sep :: b /\ sep ∉ a.
Proof.
  revert a. induction s as [|c s IH]; intros a; simpl; [done|].
  destruct (c =? sep)%N eqn:E.
  - apply N.eqb_eq in E as ->. intros [= <- <-]. set_solver.
  - apply N.eqb_neq in E. destruct (split_once sep s) as [[a' b']|]; [|done].
    intros [= <- <-]. destruct (IH a' eq_refl) as [-> ?]. split; [done|set_solver].
Qed.

Lemma split_once_app sep a b : sep ∉ a -> split_once sep (a ++ sep :: b) = Some (a, b).
Proof.
  induction a as [|c a IH]; simpl; intros H; [by rewrite N.eqb_refl|].
  apply not_elem_of_cons in H as [Hc Ha]. rewrite IH by done.
  by rewrite (proj2 (N.eqb_neq c sep)).
Qed.

Lemma rsplit_once_Some sep s a b : rsplit_once sep s = Some (a, b) -> s = a ++ sep :: b.
Proof.
  unfold rsplit_once. destruct (split_once sep (reverse s)) as [[x y]|] eqn:E; [|done].
  intros [= <- <-]. apply split_once_Some in E as [E _]. apply (f_equal reverse) in E.
  rewrite reverse_involutive, reverse_app, reverse_cons in E. rewrite E. by rewrite <- app_assoc.
Qed.

Lemma rsplit_once_app sep a b : sep ∉ b -> rsplit_once sep (a ++ sep :: b) = Some (a, b).
Proof.
  intros Hb. unfold rsplit_once. rewrite reverse_app, reverse_cons, <- app_assoc. simpl.
  rewrite split_once_app by (by rewrite elem_of_reverse). by rewrite !reverse_involutive.
Qed.

Lemma contains_char_false c s : contains_char c s = false <-> c ∉ s.
Proof.
  unfold contains_char. induction s as [|d s IH]; simpl; [set_solver|].
  rewrite orb_false_iff, N.eqb_neq, IH. set_solver.
Qed.

(** A pattern with a character that is absent cannot occur. *)
Lemma contains_absent c p s : c ∈ p -> c ∉ s -> contains p s = false.
Proof.
  intros Hp. assert (forall t, c ∉ t -> starts_with p t = false) as Hsw.
  { intros t Ht. destruct (starts_with p t) eqn:E; [|done].
    apply starts_with_true in E as [r ->]. set_solver. }
  induction s as [|d s IH]; intros Hs; simpl; rewrite Hsw by done; [done|].
  apply IH. set_solver.
Qed.

(** Lines that [lines] returns unchanged: no LF inside and no CR at the end. *)
Definition line_ok (l : str) : Prop := LF ∉ l /\ strip_suffix [CR] l = None.

#[export] Instance line_ok_dec l : Decision (line_ok l).
Proof. unfold line_ok. apply _. Defined.

Lemma strip_cr_ok l : strip_suffix [CR] l = None -> strip_cr l = l.
Proof. unfold strip_cr. by intros ->. Qed.

Lemma lines_join ls :
  Forall line_ok ls -> last ls <> Some [] -> lines (join [LF] ls) = ls.
Proof.
  intros F Hlast. destruct (decide (ls = [])) as [->|Hne]; [done|].
  unfold lines. rewrite split_char_join; [|done|].
  - clear Hne. induction ls as [|l ls IH]; [done|].
    inversion F as [|?? [_ Hcr] Hls]; subst. destruct ls as [|l' ls].
    + simpl. destruct l; done.
    + change (finish_lines (l :: l' :: ls))
        with (strip_cr l :: finish_lines (l' :: ls)).
      rewrite IH by done. by rewrite strip_cr_ok.
  - eapply Forall_impl; [done|]. by intros ? [].
Qed.

(** The text of a file whose lines are all ended by LF. *)
Definition unlines (ls : list str) : str := concat ((fun l => l ++ [LF]) <$> ls).

Lemma join_unlines ls x : join [LF] (ls ++ [x]) = unlines ls ++ x.
Proof.
  induction ls as [|l ls IH]; [done|].
  change (unlines (l :: ls)) with ((l ++ [LF]) ++ unlines ls).
  rewrite <- !app_assoc, <- IH. simpl. destruct (ls ++ [x]) eqn:E; [by destruct ls|done].
Qed.

Lemma unlines_ends ls : unlines ls = [] \/ ends_with [LF] (unlines ls) = true.
Proof.
  destruct (decide (ls = [])) as [->|Hne]; [by left|]. right.
  apply exists_last in Hne as (l & x & ->). apply ends_with_true.
  exists (unlines l ++ x). unfold unlines. rewrite fmap_app, concat_app. csimpl.
  by rewrite app_nil_r, <- app_assoc.
Qed.

#[export] Hint Rewrite strip_prefix_app : rust_str.

(** Proofs reason about these through the lemmas above. *)
#[global] Arguments strip_prefix p s : simpl never.
#[global] Arguments strip_suffix p s : simpl never.
#[global] Arguments starts_with p s : simpl never.
#[global] Arguments ends_with p s : simpl never.
#[global] Arguments trim s : simpl never.
#[global] Arguments trim_start s : simpl never.
#[global] Arguments trim_end s : simpl never.
#[global] Arguments str_eqb a b : simpl never.
#[global] Arguments lit s : simpl never.
#[global] Arguments N.eqb !_ !_ : simpl nomatch.
