(* ===== verification/SeekSequence.v ===== *)
(** * Locating the lines of a chunk (apply-patch/src/seek_sequence.rs)

    [seek_sequence] tries four comparisons of decreasing strictness; each pass
    scans the candidate start indices upwards and the first hit wins.  The
    indexing of the slices is modelled with its bounds check, so the theorems
    also say that the scan never panics. *)

From S2P Require Import Prelude RustStr.

Definition normalise_char (c : char) : char :=
  if bool_decide (c ∈ [0x2010; 0x2011; 0x2012; 0x2013; 0x2014; 0x2015; 0x2212]%N) then 45%N
  else if bool_decide (c ∈ [0x2018; 0x2019; 0x201A; 0x201B]%N) then 39%N
  else if bool_decide (c ∈ [0x201C; 0x201D; 0x201E; 0x201F]%N) then 34%N
  else if bool_decide (c ∈ [0x00A0; 0x2002; 0x2003; 0x2004; 0x2005; 0x2006; 0x2007;
                             0x2008; 0x2009; 0x200A; 0x202F; 0x205F; 0x3000]%N) then SP
  else c.

Definition normalise (s : str) : str := normalise_char <$> trim s.

(** [&l[i..j]], which panics unless [i <= j <= l.len()]. *)
Definition slice {E A} (l : list A) (i j : nat) : result E (list A) :=
  if (i <=? j) && (j <=? length l) then Ok (take (j - i) (drop i l)) else Panic.

(** [for i in idxs { if test(i) { return Some(i) } }]. *)
Fixpoint first_match {E} (test : nat -> result E bool) (idxs : list nat)
  : result E (option nat) :=
  match idxs with
  | [] => Ok None
  | i :: idxs' =>
      let? ok := test i in
      if ok then Ok (Some i) else first_match test idxs'
  end.

(** The inner loop over [pattern.iter().enumerate()] with its [break]. *)
Fixpoint lines_match {E} (norm : str -> str) (lines : list str) (i p_idx : nat)
  (pattern : list str) : result E bool :=
  match pattern with
  | [] => Ok true
  | pat :: rest =>
      let? line := index lines (i + p_idx) in
      if str_eqb (norm line) (norm pat)
      then lines_match norm lines i (S p_idx) rest
      else Ok false
  end.

(** [search_start..=last]. *)
Definition range_inclusive (a b : nat) : list nat := seq a (S b - a).

Definition seek_sequence {E} (lines pattern : list str) (start : nat) (eof : bool)
  : result E (option nat) :=
  if is_nil pattern then Ok (Some start)
  else if (length lines <? length pattern) then Ok None
  else
    let search_start :=
      if eof && (length pattern <=? length lines)
      then length lines - length pattern else start in
    let candidates := range_inclusive search_start (length lines - length pattern) in
    let? exact := first_match (fun i =>
      let? s := slice lines i (i + length pattern) in
      Ok (bool_decide (s = pattern))) candidates in
    match exact with
    | Some i => Ok (Some i)
    | None =>
    let? rstrip := first_match (fun i => lines_match trim_end lines i 0 pattern) candidates in
    match rstrip with
    | Some i => Ok (Some i)
    | None =>
    let? both := first_match (fun i => lines_match trim lines i 0 pattern) candidates in
    match both with
    | Some i => Ok (Some i)
    | None =>
    first_match (fun i => lines_match normalise lines i 0 pattern) candidates
    end end end.

(** ** Specification *)

(** [pattern] occurs at line [i] up to the comparison [norm]. *)
Definition occurs (norm : str -> str) (lines pattern : list str) (i : nat) : Prop :=
  i + length pattern <= length lines
  /\ norm <$> take (length pattern) (drop i lines) = norm <$> pattern.

#[export] Instance occurs_dec norm lines pattern i : Decision (occurs norm lines pattern i).
Proof. unfold occurs. apply _. Defined.

(** Where the scan begins. *)
Definition seek_from (lines pattern : list str) (start : nat) (eof : bool) : nat :=
  if eof then length lines - length pattern else start.

(** The comparisons in the order they are tried. *)
Definition passes : list (str -> str) := [id; trim_end; trim; normalise].

(** [i] is the first occurrence from [lo] on under pass [k], and no earlier pass
    has an occurrence from [lo] on. *)
Definition best_match (lines pattern : list str) (lo k i : nat) : Prop :=
  exists norm, passes !! k = Some norm
    /\ lo <= i /\ occurs norm lines pattern i
    /\ (forall j, lo <= j < i -> ~ occurs norm lines pattern j)
    /\ (forall k' norm' j, k' < k -> passes !! k' = Some norm' -> lo <= j ->
          ~ occurs norm' lines pattern j).

(** ** The scan *)

Lemma first_match_spec {E} (test : nat -> result E bool) (P : nat -> Prop) idxs :
  (forall i, i ∈ idxs -> exists b, test i = Ok b /\ (b = true <-> P i)) ->
  (exists i idxs1 idxs2, first_match test idxs = Ok (Some i) /\ idxs = idxs1 ++ i :: idxs2
     /\ P i /\ forall j, j ∈ idxs1 -> ~ P j)
  \/ (first_match test idxs = Ok None /\ forall j, j ∈ idxs -> ~ P j).
Proof.
  induction idxs as [|i idxs IH]; intros Ht.
  - right. split; [done|]. set_solver.
  - destruct (Ht i) as (b & Hb & HP); [set_solver|]. simpl. rewrite Hb. simpl.
    destruct b.
    + left. exists i, [], idxs. split_and!; [done..|by apply HP|set_solver].
    + assert (~ P i) by (intros ?%HP; done).
      destruct IH as [(k & idxs1 & idxs2 & -> & -> & HPk & Hne) | [-> Hne]].
      * intros j Hj. apply Ht. set_solver.
      * left. exists k, (i :: idxs1), idxs2. split_and!; try done.
        intros j. rewrite elem_of_cons. naive_solver.
      * right. split; [done|]. intros j. rewrite elem_of_cons. naive_solver.
Qed.

Lemma elem_of_range_inclusive a b i : i ∈ range_inclusive a b <-> a <= i <= b.
Proof. unfold range_inclusive. rewrite elem_of_seq. lia. Qed.

Lemma range_inclusive_before a b idxs1 i idxs2 j :
  range_inclusive a b = idxs1 ++ i :: idxs2 -> a <= j < i -> j ∈ idxs1.
Proof.
  unfold range_inclusive. intros E Hj.
  assert (Hi : seq a (S b - a) !! length idxs1 = Some i) by (rewrite E; apply list_lookup_middle; done).
  apply lookup_seq in Hi as [-> Hlt].
  apply list_elem_of_lookup. exists (j - a).
  assert (H : seq a (S b - a) !! (j - a) = Some j) by (apply lookup_seq; lia).
  rewrite E in H. by rewrite lookup_app_l in H by lia.
Qed.

(** A scan of the candidate range under any comparison that is decided by
    [occurs norm]. *)
Lemma scan_spec {E} (test : nat -> result E bool) norm lines pattern lo :
  length pattern <= length lines ->
  (forall i, i + length pattern <= length lines ->
     test i = Ok (bool_decide (occurs norm lines pattern i))) ->
  let r := first_match test (range_inclusive lo (length lines - length pattern)) in
  (exists i, r = Ok (Some i) /\ lo <= i /\ occurs norm lines pattern i
     /\ forall j, lo <= j < i -> ~ occurs norm lines pattern j)
  \/ (r = Ok None /\ forall j, lo <= j -> ~ occurs norm lines pattern j).
Proof.
  intros Hlen Ht.
  destruct (first_match_spec test (occurs norm lines pattern)
              (range_inclusive lo (length lines - length pattern)))
    as [(i & idxs1 & idxs2 & Hr & Hsplit & Hocc & Hne) | [Hr Hne]].
  - intros i Hi%elem_of_range_inclusive. eexists. split; [apply Ht; lia|].
    apply bool_decide_eq_true.
  - left. exists i. split_and!; [done| |done|].
    + assert (i ∈ range_inclusive lo (length lines - length pattern)) as Hi
        by (rewrite Hsplit; set_solver).
      apply elem_of_range_inclusive in Hi. lia.
    + intros j Hj. apply Hne. by eapply range_inclusive_before.
  - right. split; [done|]. intros j Hj Ho. apply (Hne j); [|done].
    apply elem_of_range_inclusive. destruct Ho as [Ho _]. lia.
Qed.

Lemma slice_test {E} lines pattern i :
  i + length pattern <= length lines ->
  (let? s := @slice E _ lines i (i + length pattern) in Ok (bool_decide (s = pattern)))
  = Ok (bool_decide (occurs id lines pattern i)).
Proof.
  intros Hi. unfold slice.
  rewrite (proj2 (Nat.leb_le _ _)) by lia. rewrite (proj2 (Nat.leb_le _ _)) by lia.
  simpl. f_equal. apply bool_decide_ext. unfold occurs.
  replace (i + length pattern - i) with (length pattern) by lia.
  rewrite !list_fmap_id. naive_solver.
Qed.

Lemma lines_match_occurs {E} norm lines pattern i k :
  i + k + length pattern <= length lines ->
  lines_match (E:=E) norm lines i k pattern
  = Ok (bool_decide (norm <$> take (length pattern) (drop (i + k) lines) = norm <$> pattern)).
Proof.
  revert k. induction pattern as [|pat pattern IH]; intros k Hk; simpl in *.
  - done.
  - unfold index. destruct (lines !! (i + k)) as [line|] eqn:El.
    2:{ apply lookup_ge_None in El. lia. }
    rewrite (drop_S _ _ _ El). simpl. unfold str_eqb.
    destruct (decide (norm line = norm pat)) as [Heq|Hne].
    + rewrite bool_decide_eq_true_2 by done. rewrite IH by lia.
      replace (i + S k) with (S (i + k)) by lia.
      f_equal. apply bool_decide_ext. rewrite Heq.
      split; [intros H; by f_equal|by intros [= ?]].
    + rewrite bool_decide_eq_false_2 by done. f_equal. symmetry.
      apply bool_decide_eq_false_2. by intros [= ? ?].
Qed.

Lemma lines_match_test {E} norm lines pattern i :
  i + length pattern <= length lines ->
  lines_match (E:=E) norm lines i 0 pattern = Ok (bool_decide (occurs norm lines pattern i)).
Proof.
  intros Hi. rewrite lines_match_occurs by lia. f_equal. apply bool_decide_ext.
  unfold occurs. rewrite Nat.add_0_r. naive_solver.
Qed.

(** Enumerate the passes strictly below the current one. *)
Ltac by_pass :=
  intros k' norm' j' Hlt Hk' Hj';
  destruct k' as [|[|[|[|]]]]; simpl in Hk'; try lia; injection Hk' as <-; eauto.

(** The outcome of the four passes, for a non-empty pattern. *)
Lemma seek_sequence_cases {E} lines pattern start eof :
  pattern <> [] ->
  (exists k i, seek_sequence (E:=E) lines pattern start eof = Ok (Some i)
     /\ best_match lines pattern (seek_from lines pattern start eof) k i)
  \/ (seek_sequence (E:=E) lines pattern start eof = Ok None
      /\ forall k norm j, passes !! k = Some norm ->
           seek_from lines pattern start eof <= j -> ~ occurs norm lines pattern j).
Proof.
  intros Hne. unfold seek_sequence.
  destruct (is_nil pattern) eqn:En; [by apply is_nil_true in En|].
  destruct (length lines <? length pattern) eqn:El.
  { right. split; [done|]. apply Nat.ltb_lt in El. intros ? ? ? _ _ [? _]. lia. }
  apply Nat.ltb_ge in El.
  replace (if eof && (length pattern <=? length lines)
           then length lines - length pattern else start)
    with (seek_from lines pattern start eof).
  2:{ unfold seek_from. rewrite (proj2 (Nat.leb_le _ _)) by done. by destruct eof. }
  set (lo := seek_from lines pattern start eof). cbv zeta.
  destruct (scan_spec (fun i => let? s := @slice E _ lines i (i + length pattern) in
               Ok (bool_decide (s = pattern))) id lines pattern lo El)
    as [(i & -> & ? & ? & ?) | [-> H0]]; [by apply slice_test| |].
  { left. exists 0, i. split; [done|]. exists id. split_and!; try done. lia. }
  destruct (scan_spec (fun i => lines_match (E:=E) trim_end lines i 0 pattern)
              trim_end lines pattern lo El)
    as [(i & -> & ? & ? & ?) | [-> H1]]; [by apply lines_match_test| |].
  { left. exists 1, i. split; [done|]. exists trim_end. split_and!; try done.
    by_pass. }
  destruct (scan_spec (fun i => lines_match (E:=E) trim lines i 0 pattern)
              trim lines pattern lo El)
    as [(i & -> & ? & ? & ?) | [-> H2]]; [by apply lines_match_test| |].
  { left. exists 2, i. split; [done|]. exists trim. split_and!; try done.
    by_pass. }
  simpl.
  destruct (scan_spec (fun i => lines_match (E:=E) normalise lines i 0 pattern)
              normalise lines pattern lo El)
    as [(i & -> & ? & ? & ?) | [-> H3]]; [by apply lines_match_test| |].
  { left. exists 3, i. split; [done|]. exists normalise. split_and!; try done.
    by_pass. }
  right. split; [done|].
  intros [|[|[|[|]]]] norm j Hk Hj; simpl in Hk; try discriminate; injection Hk as <-; eauto.
Qed.

(** ** The comparisons are nested *)

Lemma trim_trim_end s : trim (trim_end s) = trim s.
Proof.
  unfold trim.
  destruct (trim_end_matches_prefix is_whitespace s) as (w & E & F).
  change (trim_end_matches is_whitespace s) with (trim_end s) in E.
  rewrite E at 2. generalize (trim_end s) as t. intros t.
  destruct (trim_start_matches_suffix is_whitespace t) as (v & Et & Fv).
  change (trim_start_matches is_whitespace t) with (trim_start t) in Et.
  destruct (trim_start t) as [|c u] eqn:Eu.
  - rewrite app_nil_r in Et. subst t. symmetry.
    replace (trim_start (v ++ w)) with (@nil char); [done|].
    rewrite trim_start_app_l by done.
    rewrite <- (app_nil_r w). rewrite trim_start_app_l by done. done.
  - assert (Hc : is_whitespace c = false).
    { destruct (is_whitespace c) eqn:Hc; [|done].
      pose proof (trim_start_matches_idemp is_whitespace t) as Hi.
      change (trim_start_matches is_whitespace t) with (trim_start t) in Hi.
      rewrite Eu in Hi. simpl in Hi. rewrite Hc in Hi.
      destruct (trim_start_matches_suffix is_whitespace u) as (z & Ez & _).
      rewrite Hi in Ez. apply (f_equal length) in Ez. rewrite length_app in Ez.
      simpl in Ez. lia. }
    rewrite Et, <- app_assoc, trim_start_app_l by done.
    simpl. unfold trim_start. simpl. rewrite Hc.
    change (c :: (u ++ w)) with ((c :: u) ++ w). by rewrite trim_end_app_r.
Qed.

Lemma trim_of_trim_end a b : trim_end a = trim_end b -> trim a = trim b.
Proof. intros H. rewrite <- (trim_trim_end a), <- (trim_trim_end b). by rewrite H. Qed.

Lemma fmap_eq_impl {A B C} (f : A -> B) (g : A -> C) (l1 l2 : list A) :
  (forall x y, f x = f y -> g x = g y) -> f <$> l1 = f <$> l2 -> g <$> l1 = g <$> l2.
Proof.
  intros Hfg. revert l2. induction l1 as [|x l1 IH]; intros [|y l2]; simpl; try done.
  intros [= ? ?]. f_equal; auto.
Qed.

Lemma occurs_impl (f g : str -> str) lines pattern i :
  (forall x y, f x = f y -> g x = g y) ->
  occurs f lines pattern i -> occurs g lines pattern i.
Proof. intros Hfg [Hl He]. split; [done|]. by apply (fmap_eq_impl f g). Qed.

Lemma passes_nested k norm lines pattern i :
  passes !! k = Some norm -> occurs norm lines pattern i -> occurs normalise lines pattern i.
Proof.
  destruct k as [|[|[|[|]]]]; simpl; try discriminate;
    intros [=<-]; apply occurs_impl; intros x y H.
  - by cbv in H; subst.
  - unfold normalise. by rewrite (trim_of_trim_end x y).
  - unfold normalise. by rewrite H.
  - done.
Qed.

Lemma passes_exact k norm lines pattern i :
  passes !! k = Some norm -> occurs id lines pattern i -> occurs norm lines pattern i.
Proof. intros _. apply occurs_impl. by intros ? ? [=->]. Qed.

(** ** Bounds, used by the client *)

Lemma seek_sequence_bounds {E} lines pattern start eof i :
  seek_sequence (E:=E) lines pattern start eof = Ok (Some i) ->
  (pattern = [] /\ i = start)
  \/ (pattern <> [] /\ i + length pattern <= length lines
      /\ (eof = false -> start <= i)
      /\ occurs normalise lines pattern i).
Proof.
  intros H. destruct (decide (pattern = [])) as [->|Hne].
  { simpl in H. left. by injection H. }
  right. destruct (seek_sequence_cases (E:=E) lines pattern start eof Hne)
    as [(k & i' & Heq & norm & Hk & Hlo & Hocc & _)|[Heq _]]; [|congruence].
  rewrite H in Heq. injection Heq as <-. split_and!; [done|apply Hocc| |].
  - intros ->. exact Hlo.
  - by eapply passes_nested.
Qed.

(** ** Properties *)

(** C10: [seek_sequence] never panics and always returns; on a non-empty pattern
    it returns [Some i] exactly for an [i] that is the first occurrence under
    the strictest comparison that has any occurrence from the scan start on
    (exact, then ignoring trailing white space, then ignoring white space at
    both ends, then after normalising Unicode punctuation), and [None] exactly
    when even the most permissive comparison finds nothing from there on.  The scan
    starts at [start]; with [eof] set it starts, and so ends, at the one position where
    the pattern reaches the end of the lines, wherever [start] is: occurrences before
    it are not found. *)
Theorem seek_sequence_correct {E} (lines pattern : list str) (start : nat) (eof : bool) :
  pattern <> [] ->
  let lo := seek_from lines pattern start eof in
  (forall i, seek_sequence (E:=E) lines pattern start eof = Ok (Some i)
     <-> exists k, best_match lines pattern lo k i)
  /\ (seek_sequence (E:=E) lines pattern start eof = Ok None
      <-> forall j, lo <= j -> ~ occurs normalise lines pattern j).
Proof.
  intros Hne. cbv zeta.
  destruct (seek_sequence_cases (E:=E) lines pattern start eof Hne)
    as [(k & i & -> & Hbest)|[-> Hnone]].
  - split; [intros i'; split|split].
    + intros [= <-]. by exists k.
    + intros [k' (norm' & Hk' & Hlo' & Hocc' & Hfst' & Hstrict')]. do 2 f_equal.
      destruct Hbest as (norm & Hk & Hlo & Hocc & Hfst & Hstrict).
      destruct (Nat.lt_trichotomy k k') as [Hlt|[<-|Hlt]].
      * destruct (Hstrict' k norm i Hlt Hk Hlo Hocc).
      * assert (norm = norm') as <- by congruence.
        destruct (Nat.lt_trichotomy i i') as [Hi|[Hi|Hi]]; [|done|].
        -- by destruct (Hfst' i).
        -- by destruct (Hfst i').
      * destruct (Hstrict k' norm' i' Hlt Hk' Hlo' Hocc').
    + done.
    + intros Hn. destruct Hbest as (norm & Hk & Hlo & Hocc & _).
      destruct (Hn i Hlo). by eapply passes_nested.
  - split; [intros i'; split|split].
    + done.
    + intros [k' (norm' & Hk' & Hlo' & Hocc' & _)]. by destruct (Hnone k' norm' i').
    + intros _ j Hj. by apply (Hnone 3).
    + done.
Qed.

Lemma seek_sequence_correct_witness :
  seek_sequence (E:=unit) [L"a"; L"b "; L"b"] [L"b"] 0 false = Ok (Some 2)
  /\ exists k, best_match [L"a"; L"b "; L"b"] [L"b"] 0 k 2.
Proof.
  split; [vm_compute; reflexivity|].
  apply (seek_sequence_correct (E:=unit) [L"a"; L"b "; L"b"] [L"b"] 0 false); [discriminate|].
  vm_compute; reflexivity.
Defined.

(** With [eof] set, only the position that ends the file is ever tried: the
    result is that position or [None], whatever [start] is.  (The function's
    comment announces a fall back to a search from [start].) *)
Theorem seek_sequence_eof_only {E} (lines pattern : list str) (start : nat) :
  pattern <> [] ->
  seek_sequence (E:=E) lines pattern start true
  = Ok (if bool_decide (occurs normalise lines pattern (length lines - length pattern))
        then Some (length lines - length pattern) else None).
Proof.
  intros Hne.
  destruct (seek_sequence_cases (E:=E) lines pattern start true Hne)
    as [(k & i & -> & norm & Hk & Hlo & Hocc & _)|[-> Hnone]]; simpl in *.
  - assert (i = length lines - length pattern) as -> by (destruct Hocc; lia).
    rewrite bool_decide_eq_true_2; [done|]. by eapply passes_nested.
  - rewrite bool_decide_eq_false_2; [done|]. apply (Hnone 3 normalise); done.
Qed.

Lemma seek_sequence_eof_only_witness :
  seek_sequence (E:=unit) [L"a"; L"b"] [L"a"] 0 true = Ok None
  /\ occurs id [L"a"; L"b"] [L"a"] 0.
Proof.
  split.
  - rewrite (seek_sequence_eof_only [L"a"; L"b"] [L"a"] 0) by discriminate.
    vm_compute. reflexivity.
  - vm_compute. split; [lia|reflexivity].
Defined.
