(* ===== verification/PatchParser.v ===== *)
(** * The patch parser (apply-patch/src/parser.rs)

    The batch parser of the [apply_patch] format: boundary checks (with the
    lenient here-document form), one hunk at a time, and the chunks of an
    update hunk.  Slices are taken with their bounds checks and the two [while]
    loops carry fuel, one more than the number of remaining lines: every
    iteration consumes a line, and the theorems below show that neither a panic
    nor fuel exhaustion can be reached. *)

From S2P Require Import Prelude RustStr.

Definition BEGIN_PATCH_MARKER : str := L"*** Begin Patch".
Definition END_PATCH_MARKER : str := L"*** End Patch".
Definition ADD_FILE_MARKER : str := L"*** Add File: ".
Definition DELETE_FILE_MARKER : str := L"*** Delete File: ".
Definition UPDATE_FILE_MARKER : str := L"*** Update File: ".
Definition MOVE_TO_MARKER : str := L"*** Move to: ".
Definition EOF_MARKER : str := L"*** End of File".
Definition CHANGE_CONTEXT_MARKER : str := L"@@ ".
Definition EMPTY_CHANGE_CONTEXT_MARKER : str := L"@@".
Definition PARSE_IN_STRICT_MODE : bool := false.

Definition PLUS : char := 43%N.
Definition MINUS : char := 45%N.
Definition STAR : char := 42%N.

Inductive ParseError :=
| InvalidPatchError (message : str)
| InvalidHunkError (message : str) (line_number : nat).

#[export] Instance ParseError_eq_dec : EqDecision ParseError.
Proof. solve_decision. Defined.

(** A [PathBuf] made from patch text is that text. *)
Abbreviation PathBuf := str (only parsing).

Record UpdateFileChunk := mkChunk {
  change_context : option str;
  old_lines : list str;
  new_lines : list str;
  is_end_of_file : bool }.

#[export] Instance UpdateFileChunk_eq_dec : EqDecision UpdateFileChunk.
Proof. solve_decision. Defined.

Inductive Hunk :=
| AddFile (path : PathBuf) (contents : str)
| DeleteFile (path : PathBuf)
| UpdateFile (path : PathBuf) (move_path : option PathBuf) (chunks : list UpdateFileChunk).

#[export] Instance Hunk_eq_dec : EqDecision Hunk.
Proof. solve_decision. Defined.

(** [Hunk::path]: the affected path, the destination for a rename. *)
Definition hunk_path (h : Hunk) : PathBuf :=
  match h with
  | AddFile path _ => path
  | DeleteFile path => path
  | UpdateFile _ (Some path) _ => path
  | UpdateFile path None _ => path
  end.

Record ApplyPatchArgs := mkArgs {
  args_patch : str;
  args_hunks : list Hunk;
  args_workdir : option str }.

Inductive ParseMode := Strict | Lenient.

(** [&l[n..]]. *)
Definition slice_from {E A} (l : list A) (n : nat) : result E (list A) :=
  if n <=? length l then Ok (drop n l) else Panic.

(** [&l[1..l.len() - 1]]; the subtraction and the slice both check. *)
Definition strip_ends {E A} (l : list A) : result E (list A) :=
  if 2 <=? length l then Ok (take (length l - 2) (drop 1 l)) else Panic.

Definition check_start_and_end_lines_strict (first_line last_line : option str)
  : result ParseError unit :=
  let first_line := trim <$> first_line in
  let last_line := trim <$> last_line in
  let bad_last := Err (InvalidPatchError
    (L"The last line of the patch must be '*** End Patch'")) in
  match first_line with
  | Some first =>
      if is_some_and last_line (fun last =>
           str_eqb first BEGIN_PATCH_MARKER && str_eqb last END_PATCH_MARKER)
      then Ok tt
      else if negb (str_eqb first BEGIN_PATCH_MARKER)
      then Err (InvalidPatchError
        (L"The first line of the patch must be '*** Begin Patch'"))
      else bad_last
  | None => bad_last
  end.

Definition check_patch_boundaries_strict (lines : list str)
  : result ParseError (list str * list str) :=
  let '(first_line, last_line) :=
    match lines with
    | [] => (None, None)
    | first :: _ => (Some first, last lines)
    end in
  let? _ := check_start_and_end_lines_strict first_line last_line in
  let? inner := strip_ends lines in
  Ok (lines, inner).

Definition check_patch_boundaries_lenient (original_lines : list str)
  : result ParseError (list str * list str) :=
  match check_patch_boundaries_strict original_lines with
  | Err original_parse_error =>
      match original_lines with
      | first :: _ :: _ =>
          if (str_eqb first (L"<<EOF") || str_eqb first (L"<<'EOF'")
              || str_eqb first (L"<<" ++ DQUOTE :: L"EOF" ++ [DQUOTE]))
             && is_some_and (last original_lines) (ends_with (L"EOF"))
             && (4 <=? length original_lines)
          then
            let? inner_lines := strip_ends original_lines in
            check_patch_boundaries_strict inner_lines
          else Err original_parse_error
      | _ => Err original_parse_error
      end
  | r => r
  end.

(** ** One chunk of an update hunk *)

Definition no_lines_error (line_number : nat) : ParseError :=
  InvalidHunkError (L"Update hunk does not contain any lines") line_number.

Definition unexpected_line_message (line : str) : str :=
  L"Unexpected line found in update hunk: '" ++ line
  ++ L"'. Every line should start with ' ' (context line), '+' (added line), or '-' (removed line)".

Definition push_context (c : UpdateFileChunk) (l : str) : UpdateFileChunk :=
  mkChunk (change_context c) (old_lines c ++ [l]) (new_lines c ++ [l]) (is_end_of_file c).
Definition push_added (c : UpdateFileChunk) (l : str) : UpdateFileChunk :=
  mkChunk (change_context c) (old_lines c) (new_lines c ++ [l]) (is_end_of_file c).
Definition push_removed (c : UpdateFileChunk) (l : str) : UpdateFileChunk :=
  mkChunk (change_context c) (old_lines c ++ [l]) (new_lines c) (is_end_of_file c).
Definition set_end_of_file (c : UpdateFileChunk) : UpdateFileChunk :=
  mkChunk (change_context c) (old_lines c) (new_lines c) true.

(** The [for line in &lines[start_index..]] loop. *)
Fixpoint chunk_loop (lines : list str) (line_number : nat) (chunk : UpdateFileChunk)
  (parsed_lines : nat) : result ParseError (UpdateFileChunk * nat) :=
  match lines with
  | [] => Ok (chunk, parsed_lines)
  | line :: rest =>
      if str_eqb line EOF_MARKER then
        if parsed_lines =? 0 then Err (no_lines_error (line_number + 1))
        else Ok (set_end_of_file chunk, parsed_lines + 1)
      else
        match line with
        | [] => chunk_loop rest line_number (push_context chunk []) (parsed_lines + 1)
        | c :: tail =>
            if (c =? SP)%N then
              chunk_loop rest line_number (push_context chunk tail) (parsed_lines + 1)
            else if (c =? PLUS)%N then
              chunk_loop rest line_number (push_added chunk tail) (parsed_lines + 1)
            else if (c =? MINUS)%N then
              chunk_loop rest line_number (push_removed chunk tail) (parsed_lines + 1)
            else if parsed_lines =? 0 then
              Err (InvalidHunkError (unexpected_line_message line) (line_number + 1))
            else Ok (chunk, parsed_lines)
        end
  end.

Definition parse_update_file_chunk (lines : list str) (line_number : nat)
  (allow_missing_context : bool) : result ParseError (UpdateFileChunk * nat) :=
  match lines with
  | [] => Err (no_lines_error line_number)
  | first :: _ =>
      let? (context, start_index) :=
        if str_eqb first EMPTY_CHANGE_CONTEXT_MARKER then Ok (None, 1)
        else match strip_prefix CHANGE_CONTEXT_MARKER first with
             | Some context => Ok (Some context, 1)
             | None =>
                 if negb allow_missing_context then
                   Err (InvalidHunkError
                     (L"Expected update hunk to start with a @@ context marker, got: '"
                      ++ first ++ L"'") line_number)
                 else Ok (None, 0)
             end in
      if length lines <=? start_index then Err (no_lines_error (line_number + 1))
      else
        let? body := slice_from lines start_index in
        let? (chunk, parsed_lines) :=
          chunk_loop body line_number (mkChunk context [] [] false) 0 in
        Ok (chunk, parsed_lines + start_index)
  end.

(** ** One hunk *)

(** The [for add_line in &lines[1..]] loop of an add-file hunk. *)
Fixpoint add_file_loop (lines : list str) (contents : str) (parsed_lines : nat) : str * nat :=
  match lines with
  | [] => (contents, parsed_lines)
  | add_line :: rest =>
      match strip_prefix [PLUS] add_line with
      | Some line_to_add =>
          add_file_loop rest (contents ++ line_to_add ++ [LF]) (parsed_lines + 1)
      | None => (contents, parsed_lines)
      end
  end.

(** The [while !remaining_lines.is_empty()] loop of an update-file hunk. *)
Fixpoint update_loop (fuel : nat) (remaining_lines : list str) (line_number parsed_lines : nat)
  (chunks : list UpdateFileChunk) : result ParseError (list UpdateFileChunk * nat) :=
  match fuel with
  | 0 => OutOfFuel
  | S fuel' =>
      match remaining_lines with
      | [] => Ok (chunks, parsed_lines)
      | line :: rest =>
          if is_nil (trim line) then update_loop fuel' rest line_number (parsed_lines + 1) chunks
          else if starts_with [STAR] line then Ok (chunks, parsed_lines)
          else
            let? (chunk, chunk_lines) :=
              parse_update_file_chunk remaining_lines (line_number + parsed_lines)
                (is_nil chunks) in
            let? remaining' := slice_from remaining_lines chunk_lines in
            update_loop fuel' remaining' line_number (parsed_lines + chunk_lines)
              (chunks ++ [chunk])
      end
  end.

Definition invalid_header_message (first_line : str) : str :=
  L"'" ++ first_line
  ++ L"' is not a valid hunk header. Valid hunk headers: '*** Add File: {path}', '*** Delete File: {path}', '*** Update File: {path}'".

Definition empty_update_message (path : str) : str :=
  L"Update file hunk for path '" ++ path ++ L"' is empty".

Definition parse_one_hunk (lines : list str) (line_number : nat)
  : result ParseError (Hunk * nat) :=
  let? line0 := index lines 0 in
  let first_line := trim line0 in
  match strip_prefix ADD_FILE_MARKER first_line with
  | Some path =>
      let? rest := slice_from lines 1 in
      let '(contents, parsed_lines) := add_file_loop rest [] 1 in
      Ok (AddFile path contents, parsed_lines)
  | None =>
  match strip_prefix DELETE_FILE_MARKER first_line with
  | Some path => Ok (DeleteFile path, 1)
  | None =>
  match strip_prefix UPDATE_FILE_MARKER first_line with
  | Some path =>
      let? remaining_lines := slice_from lines 1 in
      let move_path := head remaining_lines ≫= strip_prefix MOVE_TO_MARKER in
      let? (remaining_lines, parsed_lines) :=
        if is_none move_path then Ok (remaining_lines, 1)
        else let? r := slice_from remaining_lines 1 in Ok (r, 2) in
      let? (chunks, parsed_lines) :=
        update_loop (S (length remaining_lines)) remaining_lines line_number parsed_lines [] in
      if is_nil chunks then
        Err (InvalidHunkError (empty_update_message path) line_number)
      else Ok (UpdateFile path move_path chunks, parsed_lines)
  | None => Err (InvalidHunkError (invalid_header_message first_line) line_number)
  end end end.

(** ** The whole patch *)

Fixpoint hunk_loop (fuel : nat) (remaining_lines : list str) (line_number : nat)
  (hunks : list Hunk) : result ParseError (list Hunk) :=
  match fuel with
  | 0 => OutOfFuel
  | S fuel' =>
      if is_nil remaining_lines then Ok hunks
      else
        let? (hunk, hunk_lines) := parse_one_hunk remaining_lines line_number in
        let? remaining' := slice_from remaining_lines hunk_lines in
        hunk_loop fuel' remaining' (line_number + hunk_lines) (hunks ++ [hunk])
  end.

Definition parse_patch_text (patch : str) (mode : ParseMode)
  : result ParseError ApplyPatchArgs :=
  let lines := lines (trim patch) in
  let? (patch_lines, hunk_lines) :=
    match mode with
    | Strict => check_patch_boundaries_strict lines
    | Lenient => check_patch_boundaries_lenient lines
    end in
  let? hunks := hunk_loop (S (length hunk_lines)) hunk_lines 2 [] in
  Ok (mkArgs (join [LF] patch_lines) hunks None).

Definition parse_patch (patch : str) : result ParseError ApplyPatchArgs :=
  parse_patch_text patch (if PARSE_IN_STRICT_MODE then Strict else Lenient).

(** ** Progress, bounds and well-formed results *)

(** A chunk that removes, adds or keeps at least one line. *)
Definition chunk_filled (c : UpdateFileChunk) : Prop := old_lines c <> [] \/ new_lines c <> [].

(** What a client of the parser may rely on. *)
Definition hunk_filled (h : Hunk) : Prop :=
  match h with
  | AddFile _ _ | DeleteFile _ => True
  | UpdateFile _ _ chunks => chunks <> [] /\ Forall chunk_filled chunks
  end.

(** A hunk error that names a line between [lo] and [hi]. *)
Definition error_within (lo hi : nat) (e : ParseError) : Prop :=
  match e with
  | InvalidPatchError _ => True
  | InvalidHunkError _ n => lo <= n <= hi
  end.

Lemma error_within_weaken lo hi lo' hi' e :
  error_within lo hi e -> lo' <= lo -> hi <= hi' -> error_within lo' hi' e.
Proof. destruct e; simpl; lia. Qed.

Lemma app_one_ne {A} (l : list A) x : l ++ [x] <> [].
Proof. by destruct l. Qed.
#[export] Hint Resolve app_one_ne : rust.

Lemma slice_from_yields {A} Q (l : list A) n :
  n <= length l -> yields (E:=ParseError) (fun r => r = drop n l) Q (slice_from l n).
Proof. intros H. unfold slice_from. by rewrite (proj2 (Nat.leb_le _ _)). Qed.

Lemma slice_from_1 {E A} (x : A) l : slice_from (E:=E) (x :: l) 1 = Ok l.
Proof. reflexivity. Qed.

Lemma strip_ends_yields {A} Q (l : list A) :
  2 <= length l ->
  yields (E:=ParseError) (fun r => length r + 2 = length l) Q (strip_ends l).
Proof.
  intros H. unfold strip_ends. rewrite (proj2 (Nat.leb_le _ _)) by done. simpl.
  autorewrite with rust_len. lia.
Qed.

Lemma chunk_loop_yields lines ln chunk parsed :
  parsed = 0 \/ chunk_filled chunk ->
  yields (fun '(c, n) => parsed <= n <= parsed + length lines
            /\ (0 < parsed + length lines -> chunk_filled c /\ 1 <= n))
    (error_within (ln + 1) (ln + 1)) (chunk_loop lines ln chunk parsed).
Proof.
  revert chunk parsed. induction lines as [|line rest IH]; intros chunk parsed Hinv.
  - simpl. split; [lia|]. intros. destruct Hinv; [lia|]. split; [done|lia].
  - assert (step : forall chunk', chunk_filled chunk' ->
      yields (fun '(c, n) => parsed <= n <= parsed + S (length rest)
            /\ (0 < parsed + S (length rest) -> chunk_filled c /\ 1 <= n))
        (error_within (ln + 1) (ln + 1)) (chunk_loop rest ln chunk' (parsed + 1))).
    { intros chunk' Hf. eapply yields_weaken; [apply IH; by right| |done].
      intros [c n] [? Hc]. split; [lia|]. intros. apply Hc. lia. }
    cbn [chunk_loop length]. destruct (str_eqb line EOF_MARKER).
    { destruct (Nat.eqb_spec parsed 0); simpl; [lia|]. split; [lia|]. intros _.
      destruct Hinv; [done|]. split; [done|lia]. }
    destruct line as [|c tail].
    { apply step. left. simpl. auto with rust. }
    destruct (c =? SP)%N; [apply step; left; simpl; auto with rust|].
    destruct (c =? PLUS)%N; [apply step; right; simpl; auto with rust|].
    destruct (c =? MINUS)%N; [apply step; left; simpl; auto with rust|].
    destruct (Nat.eqb_spec parsed 0); simpl; [lia|]. split; [lia|]. intros _.
    destruct Hinv; [done|]. split; [done|lia].
Qed.

Lemma parse_update_file_chunk_yields lines ln allow :
  lines <> [] ->
  yields (fun '(c, n) => 1 <= n <= length lines /\ chunk_filled c)
    (error_within ln (ln + 1)) (parse_update_file_chunk lines ln allow).
Proof.
  intros Hne. destruct lines as [|first rest]; [done|]. unfold parse_update_file_chunk.
  eapply (yields_bind (fun '(_, start) => start <= 1)).
  { repeat case_goal; simpl; lia. }
  intros [context start] Hs. destruct (_ <=? start) eqn:El; [simpl; lia|].
  apply Nat.leb_gt in El.
  eapply yields_bind; [apply slice_from_yields; lia|]. intros body ->.
  eapply yields_bind.
  { eapply yields_weaken; [apply chunk_loop_yields; by left|intros a H; exact H|].
    intros e He. eapply error_within_weaken; [done|lia..]. }
  intros [c n]. autorewrite with rust_len. cbn [length] in *. intros [? H].
  destruct H; [lia|]. split; [lia|done].
Qed.

Lemma update_loop_yields fuel remaining ln parsed chunks :
  length remaining < fuel -> Forall chunk_filled chunks ->
  yields (fun '(cs, n) => parsed <= n <= parsed + length remaining /\ Forall chunk_filled cs)
    (error_within (ln + parsed) (ln + parsed + length remaining))
    (update_loop fuel remaining ln parsed chunks).
Proof.
  revert remaining parsed chunks. induction fuel as [|fuel IH]; intros remaining parsed chunks Hf Hc.
  { lia. }
  simpl. destruct remaining as [|line rest]; [simpl; split; [lia|done]|].
  cbn [length] in *.
  destruct (is_nil (trim line)).
  { eapply yields_weaken; [apply IH; [lia|done]| |].
    - intros [cs n] [? ?]. split; [lia|done].
    - intros e He. eapply error_within_weaken; [done|lia..]. }
  destruct (starts_with [STAR] line); [simpl; split; [lia|done]|].
  eapply yields_bind.
  { eapply yields_weaken; [apply parse_update_file_chunk_yields; done|intros a H; exact H|].
    intros e He. eapply error_within_weaken; [done|lia..]. }
  intros [c n]. cbn [length]. intros [Hn Hfill].
  eapply yields_bind; [apply slice_from_yields; simpl; lia|]. intros r ->.
  eapply yields_weaken.
  - apply IH; [autorewrite with rust_len; cbn [length]; lia|].
    apply Forall_app. split; [done|]. by constructor.
  - intros [cs m]. autorewrite with rust_len. cbn [length]. intros [? ?]. split; [lia|done].
  - intros e He. eapply error_within_weaken; [done| |];
      autorewrite with rust_len; cbn [length]; lia.
Qed.

Lemma add_file_loop_bounds lines contents parsed :
  parsed <= snd (add_file_loop lines contents parsed) <= parsed + length lines.
Proof.
  revert contents parsed. induction lines as [|l rest IH]; intros contents parsed; simpl; [lia|].
  destruct (strip_prefix [PLUS] l); simpl; [|lia].
  specialize (IH (contents ++ l0 ++ [LF]) (parsed + 1)). lia.
Qed.

Lemma parse_one_hunk_yields lines ln :
  lines <> [] ->
  yields (fun '(h, n) => 1 <= n <= length lines /\ hunk_filled h)
    (error_within ln (ln + length lines)) (parse_one_hunk lines ln).
Proof.
  intros Hne. destruct lines as [|line0 rest]; [done|]. unfold parse_one_hunk.
  change (index (line0 :: rest) 0) with (@Ok ParseError _ line0). cbn [rbind].
  destruct (strip_prefix ADD_FILE_MARKER (trim line0)) as [path|].
  { rewrite slice_from_1. simpl. pose proof (add_file_loop_bounds rest [] 1).
    destruct (add_file_loop rest [] 1); simpl in *. split; [lia|done]. }
  destruct (strip_prefix DELETE_FILE_MARKER (trim line0)) as [path|]; [simpl; split; [lia|done]|].
  destruct (strip_prefix UPDATE_FILE_MARKER (trim line0)) as [path|]; [|simpl; lia].
  rewrite slice_from_1. cbn [rbind]. cbv zeta.
  set (mp := head rest ≫= strip_prefix MOVE_TO_MARKER).
  eapply (yields_bind (fun '(r, p) => p + length r = S (length rest) /\ 1 <= p)).
  { destruct mp eqn:Em; simpl; [|lia]. unfold mp in Em.
    destruct rest as [|l0 rest]; [done|]. rewrite slice_from_1. simpl. lia. }
  intros [r p] [Hp Hp1].
  eapply yields_bind.
  { eapply yields_weaken; [apply update_loop_yields; [lia|constructor]|intros a H; exact H|].
    intros e He. eapply error_within_weaken; [done|simpl; lia..]. }
  intros [cs n] [Hn Hcs]. destruct (is_nil cs) eqn:En; [simpl; lia|].
  apply is_nil_false in En. simpl. split; [lia|done].
Qed.

Lemma hunk_loop_yields fuel remaining ln hunks :
  length remaining < fuel -> Forall hunk_filled hunks ->
  yields (Forall hunk_filled) (error_within ln (ln + length remaining))
    (hunk_loop fuel remaining ln hunks).
Proof.
  revert remaining ln hunks. induction fuel as [|fuel IH]; intros remaining ln hunks Hf Hh; [lia|].
  simpl. destruct (is_nil remaining) eqn:En; [done|]. apply is_nil_false in En.
  eapply yields_bind; [by apply parse_one_hunk_yields|]. intros [h n] [Hn Hfill].
  eapply yields_bind; [apply slice_from_yields; lia|]. intros r ->.
  eapply yields_weaken; [apply IH|done|].
  - autorewrite with rust_len. lia.
  - apply Forall_app. split; [done|]. by constructor.
  - intros e He. eapply error_within_weaken; [done| |]; autorewrite with rust_len; lia.
Qed.

Lemma check_start_and_end_two (lines : list str) :
  check_start_and_end_lines_strict (head lines) (last lines) = Ok tt -> 2 <= length lines.
Proof.
  destruct lines as [|a [|b l]]; simpl; [done| |lia].
  unfold check_start_and_end_lines_strict. simpl. unfold str_eqb.
  assert (BEGIN_PATCH_MARKER <> END_PATCH_MARKER) by (vm_compute; discriminate).
  repeat case_bool_decide; simpl; try done. congruence.
Qed.

Lemma check_patch_boundaries_strict_eq lines :
  check_patch_boundaries_strict lines =
  (let? _ := check_start_and_end_lines_strict (head lines) (last lines) in
   let? inner := strip_ends lines in Ok (lines, inner)).
Proof. by destruct lines. Qed.

Lemma check_start_and_end_no_hunk_error a b :
  yields (fun _ => True) (error_within 2 0) (check_start_and_end_lines_strict a b).
Proof. unfold check_start_and_end_lines_strict. repeat case_goal; done. Qed.

Lemma check_patch_boundaries_strict_yields lines :
  yields (fun '(pl, hl) => pl = lines /\ length hl + 2 = length lines)
    (error_within 2 0) (check_patch_boundaries_strict lines).
Proof.
  rewrite check_patch_boundaries_strict_eq.
  pose proof (check_start_and_end_no_hunk_error (head lines) (last lines)) as Hy.
  destruct (check_start_and_end_lines_strict (head lines) (last lines)) as [[]|e| |] eqn:E;
    try done.
  simpl. eapply yields_bind; [apply strip_ends_yields, check_start_and_end_two, E|].
  intros r Hr. done.
Qed.

Lemma check_patch_boundaries_lenient_yields lines :
  yields (fun '(pl, hl) => length hl + 2 = length pl /\ length pl <= length lines)
    (error_within 2 0) (check_patch_boundaries_lenient lines).
Proof.
  unfold check_patch_boundaries_lenient.
  pose proof (check_patch_boundaries_strict_yields lines) as Hs.
  destruct (check_patch_boundaries_strict lines) as [[pl hl]|e| |]; simpl in Hs; try done.
  { destruct Hs as [-> ?]. simpl. lia. }
  destruct lines as [|first [|second rest]]; try done.
  destruct (_ && _) eqn:Ec; [|done].
  eapply yields_bind; [apply strip_ends_yields; simpl; lia|]. intros inner Hi.
  eapply yields_weaken; [apply check_patch_boundaries_strict_yields| |done].
  intros [pl hl] [-> ?]. simpl in *. lia.
Qed.

Lemma parse_patch_text_yields patch mode :
  yields (fun a => Forall hunk_filled (args_hunks a))
    (error_within 2 (length (lines (trim patch)))) (parse_patch_text patch mode).
Proof.
  unfold parse_patch_text. cbv zeta. set (ls := lines (trim patch)).
  eapply (yields_bind (fun '(pl, hl) => length hl + 2 = length pl /\ length pl <= length ls)).
  { destruct mode; (eapply yields_weaken;
      [first [apply check_patch_boundaries_strict_yields|apply check_patch_boundaries_lenient_yields]
      | |intros [] He; simpl in *; [done|lia]]); [|done].
    intros [pl hl] [-> ?]. lia. }
  intros [pl hl] [Hl1 Hl2]. eapply yields_bind.
  - eapply yields_weaken; [apply hunk_loop_yields; [lia|constructor]|intros a H; exact H|].
    intros e He. eapply error_within_weaken; [done|lia..].
  - intros hs Hhs. done.
Qed.

Lemma parse_patch_settled patch : settled (parse_patch patch).
Proof. eapply yields_settled, parse_patch_text_yields. Qed.

(** C40: Parsing is total on every text: neither an index panic nor an endless
    loop is possible, every update hunk that comes out has at least one chunk
    and every chunk touches at least one line, and a hunk error always names a
    line of the trimmed patch text. *)
Theorem parse_patch_total (patch : str) :
  yields (fun a => Forall hunk_filled (args_hunks a) /\ args_workdir a = None)
    (error_within 2 (length (lines (trim patch)))) (parse_patch patch).
Proof.
  unfold parse_patch. pose proof (parse_patch_text_yields patch
    (if PARSE_IN_STRICT_MODE then Strict else Lenient)) as H.
  destruct (parse_patch_text patch _) as [a|e| |] eqn:E; try done.
  split; [done|]. unfold parse_patch_text in E. run_ok E. destruct a0.
  run_ok E. by injection E as <-.
Qed.
