(* ===== verification/StreamingParser.v ===== *)
(** * The streaming patch parser (apply-patch/src/streaming_parser.rs)

    The incremental parser fed with the deltas of a model response: a state
    machine over the lines seen so far, driven one character at a time by
    [push_delta] and closed by [finish].  [process_line] assigns no field before
    it returns an error, so it is modelled as a function to a new parser or an
    error; [push_delta] and [finish], which do mutate before they fail, return
    the parser they leave behind together with their result. *)

From S2P Require Import Prelude RustStr PatchParser.

Inductive StreamingParserMode :=
| NotStarted
| StartedPatch
| InAddFile
| InDeleteFile
| InUpdateFile (hunk_line_number : nat)
| EndedPatch.

Record StreamingParserState := mkState {
  mode : StreamingParserMode;
  hunks : list Hunk }.

Record StreamingPatchParser := mkParser {
  line_buffer : str;
  state : StreamingParserState;
  line_number : nat }.

Definition parser_default : StreamingPatchParser := mkParser [] (mkState NotStarted []) 0.

Definition with_state (p : StreamingPatchParser) (s : StreamingParserState) :=
  mkParser (line_buffer p) s (line_number p).
Definition set_mode (p : StreamingPatchParser) (m : StreamingParserMode) :=
  with_state p (mkState m (hunks (state p))).
Definition push_hunk (p : StreamingPatchParser) (h : Hunk) (m : StreamingParserMode) :=
  with_state p (mkState m (hunks (state p) ++ [h])).

(** [if let Some(x) = l.last_mut() { *x = f(x) }]. *)
Fixpoint update_last {A} (f : A -> A) (l : list A) : list A :=
  match l with
  | [] => []
  | [x] => [f x]
  | x :: l' => x :: update_last f l'
  end.

Definition chunk_blank (c : UpdateFileChunk) : bool :=
  is_nil (old_lines c) && is_nil (new_lines c).

Definition ensure_update_hunk_is_not_empty (p : StreamingPatchParser) (line : str)
  : result ParseError unit :=
  match last (hunks (state p)) with
  | Some (UpdateFile path _ chunks) =>
      match is_nil chunks, mode (state p) with
      | true, InUpdateFile hunk_line_number =>
          Err (InvalidHunkError (empty_update_message path) hunk_line_number)
      | _, _ =>
          if is_some_and (last chunks) chunk_blank then
            if str_eqb line END_PATCH_MARKER
            then Err (no_lines_error (line_number p))
            else Err (InvalidHunkError (unexpected_line_message line) (line_number p))
          else Ok tt
      end
  | _ => Ok tt
  end.

(** [None] stands for [Ok(false)]: the line is neither a header nor the end. *)
Definition handle_hunk_headers_and_end_patch (p : StreamingPatchParser) (trimmed : str)
  : result ParseError (option StreamingPatchParser) :=
  if str_eqb trimmed END_PATCH_MARKER then
    let? _ := ensure_update_hunk_is_not_empty p trimmed in
    Ok (Some (set_mode p EndedPatch))
  else match strip_prefix ADD_FILE_MARKER trimmed with
  | Some path =>
      let? _ := ensure_update_hunk_is_not_empty p trimmed in
      Ok (Some (push_hunk p (AddFile path []) InAddFile))
  | None =>
  match strip_prefix DELETE_FILE_MARKER trimmed with
  | Some path =>
      let? _ := ensure_update_hunk_is_not_empty p trimmed in
      Ok (Some (push_hunk p (DeleteFile path) InDeleteFile))
  | None =>
  match strip_prefix UPDATE_FILE_MARKER trimmed with
  | Some path =>
      let? _ := ensure_update_hunk_is_not_empty p trimmed in
      Ok (Some (push_hunk p (UpdateFile path None []) (InUpdateFile (line_number p))))
  | None => Ok None
  end end end.

Definition blank_chunk (context : option str) : UpdateFileChunk := mkChunk context [] [] false.

(** Replace the last hunk, which the caller matched as an update hunk. *)
Definition set_last_update (p : StreamingPatchParser) (hunk_line_number : nat)
  (move_path : option PathBuf) (chunks : list UpdateFileChunk) : StreamingPatchParser :=
  with_state p (mkState (InUpdateFile hunk_line_number)
    (update_last (fun h => match h with
       | UpdateFile path _ _ => UpdateFile path move_path chunks
       | h => h end) (hunks (state p)))).

(** The first body line of a hunk without context marker opens a chunk. *)
Definition ensure_chunk (chunks : list UpdateFileChunk) : list UpdateFileChunk :=
  if is_nil chunks then [blank_chunk None] else chunks.

(** The [UpdateFile] arm of [process_line], past the header check. *)
Definition process_update_line (p : StreamingPatchParser) (hunk_line_number : nat)
  (line update_line : str) : result ParseError StreamingPatchParser :=
  match last (hunks (state p)) with
  | Some (UpdateFile _ move_path chunks) =>
      match (if is_nil chunks && is_none move_path
             then strip_prefix MOVE_TO_MARKER update_line else None) with
      | Some move_to_path =>
          Ok (set_last_update p hunk_line_number (Some move_to_path) chunks)
      | None =>
      if (str_eqb update_line EMPTY_CHANGE_CONTEXT_MARKER
          || starts_with CHANGE_CONTEXT_MARKER update_line)
         && is_some_and (last chunks) chunk_blank
      then Err (InvalidHunkError (unexpected_line_message line) (line_number p))
      else if str_eqb update_line EMPTY_CHANGE_CONTEXT_MARKER
      then Ok (set_last_update p hunk_line_number move_path (chunks ++ [blank_chunk None]))
      else match strip_prefix CHANGE_CONTEXT_MARKER update_line with
      | Some change_context =>
          Ok (set_last_update p hunk_line_number move_path
                (chunks ++ [blank_chunk (Some change_context)]))
      | None =>
      if str_eqb update_line EOF_MARKER then
        if is_some_and (last chunks) chunk_blank
        then Err (no_lines_error (line_number p))
        else Ok (set_last_update p hunk_line_number move_path
                   (update_last set_end_of_file chunks))
      else if is_nil line then
        Ok (set_last_update p hunk_line_number move_path
              (update_last (fun c => push_context c []) (ensure_chunk chunks)))
      else match strip_prefix [SP] line with
      | Some line_to_add =>
          Ok (set_last_update p hunk_line_number move_path
                (update_last (fun c => push_context c line_to_add) (ensure_chunk chunks)))
      | None =>
      match strip_prefix [PLUS] line with
      | Some line_to_add =>
          Ok (set_last_update p hunk_line_number move_path
                (update_last (fun c => push_added c line_to_add) (ensure_chunk chunks)))
      | None =>
      match strip_prefix [MINUS] line with
      | Some line_to_remove =>
          Ok (set_last_update p hunk_line_number move_path
                (update_last (fun c => push_removed c line_to_remove) (ensure_chunk chunks)))
      | None =>
      if is_some_and (last chunks) (fun c => negb (chunk_blank c))
      then Err (InvalidHunkError
             (L"Expected update hunk to start with a @@ context marker, got: '"
              ++ line ++ L"'") (line_number p))
      else Err (InvalidHunkError (unexpected_line_message line) (line_number p))
      end end end end end
  | _ => Err (InvalidHunkError (unexpected_line_message line) (line_number p))
  end.

Definition invalid_header (p : StreamingPatchParser) (trimmed : str) : ParseError :=
  InvalidHunkError (invalid_header_message trimmed) (line_number p).

Definition process_line (p : StreamingPatchParser) (line : str)
  : result ParseError StreamingPatchParser :=
  let trimmed := trim line in
  match mode (state p) with
  | NotStarted =>
      if str_eqb trimmed BEGIN_PATCH_MARKER then Ok (set_mode p StartedPatch)
      else Err (InvalidPatchError (L"The first line of the patch must be '*** Begin Patch'"))
  | StartedPatch =>
      let? handled := handle_hunk_headers_and_end_patch p trimmed in
      match handled with
      | Some p' => Ok p'
      | None => Err (invalid_header p trimmed)
      end
  | InAddFile =>
      let? handled := handle_hunk_headers_and_end_patch p trimmed in
      match handled with
      | Some p' => Ok p'
      | None =>
          match strip_prefix [PLUS] line, last (hunks (state p)) with
          | Some line_to_add, Some (AddFile path contents) =>
              Ok (with_state p (mkState InAddFile
                (update_last (fun _ => AddFile path (contents ++ line_to_add ++ [LF]))
                   (hunks (state p)))))
          | _, _ => Err (invalid_header p trimmed)
          end
      end
  | InDeleteFile =>
      let? handled := handle_hunk_headers_and_end_patch p trimmed in
      match handled with
      | Some p' => Ok p'
      | None => Err (invalid_header p trimmed)
      end
  | InUpdateFile hunk_line_number =>
      let update_line := trim_end line in
      let? handled := handle_hunk_headers_and_end_patch p update_line in
      match handled with
      | Some p' => Ok p'
      | None => process_update_line p hunk_line_number line update_line
      end
  | EndedPatch => Ok p
  end.

(** One line handed to [process_line]: buffer taken, line counter advanced. *)
Definition take_line (p : StreamingPatchParser) : StreamingPatchParser :=
  mkParser [] (state p) (line_number p + 1).

Definition push_buffer (p : StreamingPatchParser) (ch : char) : StreamingPatchParser :=
  mkParser (line_buffer p ++ [ch]) (state p) (line_number p).

Fixpoint push_delta (p : StreamingPatchParser) (delta : str)
  : StreamingPatchParser * result ParseError (list Hunk) :=
  match delta with
  | [] => (p, Ok (hunks (state p)))
  | ch :: rest =>
      if (ch =? LF)%N then
        let line := strip_cr (line_buffer p) in
        let p1 := take_line p in
        match process_line p1 line with
        | Ok p2 => push_delta p2 rest
        | Err e => (p1, Err e)
        | Panic => (p1, Panic)
        | OutOfFuel => (p1, OutOfFuel)
        end
      else push_delta (push_buffer p ch) rest
  end.

Definition finish (p : StreamingPatchParser)
  : StreamingPatchParser * result ParseError (list Hunk) :=
  let '(p1, flushed) :=
    if is_nil (line_buffer p) then (p, Ok p)
    else
      let line := line_buffer p in
      let p1 := take_line p in
      (p1, if str_eqb (trim line) END_PATCH_MARKER then
             let? _ := ensure_update_hunk_is_not_empty p1 (trim line) in
             Ok (set_mode p1 EndedPatch)
           else process_line p1 line) in
  match flushed with
  | Ok p2 =>
      (p2, match mode (state p2) with
           | EndedPatch => Ok (hunks (state p2))
           | _ => Err (InvalidPatchError
                    (L"The last line of the patch must be '*** End Patch'"))
           end)
  | Err e => (p1, Err e)
  | Panic => (p1, Panic)
  | OutOfFuel => (p1, OutOfFuel)
  end.

(** ** The invariant of the state machine *)

(** Every chunk but the one being filled touches a line. *)
Definition open_chunks (cs : list UpdateFileChunk) : Prop :=
  forall init c, cs = init ++ [c] -> Forall chunk_filled init.

Definition streaming_inv (p : StreamingPatchParser) : Prop :=
  match mode (state p) with
  | NotStarted | StartedPatch => hunks (state p) = []
  | InAddFile =>
      Forall hunk_filled (hunks (state p))
      /\ exists path contents, last (hunks (state p)) = Some (AddFile path contents)
  | InDeleteFile =>
      Forall hunk_filled (hunks (state p))
      /\ exists path, last (hunks (state p)) = Some (DeleteFile path)
  | InUpdateFile n =>
      1 <= n <= line_number p
      /\ exists init path move_path chunks,
           hunks (state p) = init ++ [UpdateFile path move_path chunks]
           /\ Forall hunk_filled init /\ open_chunks chunks
  | EndedPatch => Forall hunk_filled (hunks (state p))
  end.

Section update_last_facts.
Context {A : Type}.
Implicit Types (f : A -> A) (l : list A).

Lemma update_last_snoc f l x : update_last f (l ++ [x]) = l ++ [f x].
Proof.
  induction l as [|y l IH]; simpl; [done|]. rewrite IH.
  destruct (l ++ [x]) eqn:E; [by destruct l|done].
Qed.

Lemma update_last_nil_iff f l : update_last f l = [] <-> l = [].
Proof. destruct l as [|x [|y l]]; simpl; split; done. Qed.

Lemma length_update_last f l : length (update_last f l) = length l.
Proof.
  destruct (decide (l = [])) as [->|Hne]; [done|].
  apply exists_last in Hne as (l' & x & ->). rewrite update_last_snoc.
  by rewrite !length_app.
Qed.

Lemma last_update_last f l x : last l = Some x -> last (update_last f l) = Some (f x).
Proof. intros [l' ->]%last_Some. by rewrite update_last_snoc, last_snoc. Qed.

Lemma lookup_update_last_lt f l i : S i < length l -> update_last f l !! i = l !! i.
Proof.
  intros Hi. destruct (decide (l = [])) as [->|Hne]; [done|].
  apply exists_last in Hne as (l' & x & ->). rewrite update_last_snoc.
  rewrite length_app in Hi. simpl in Hi. by rewrite !lookup_app_l by lia.
Qed.
End update_last_facts.

Lemma chunk_blank_false c : chunk_blank c = false <-> chunk_filled c.
Proof.
  unfold chunk_blank, chunk_filled. rewrite andb_false_iff, !is_nil_false. done.
Qed.

Lemma open_chunks_nil : open_chunks [].
Proof. intros [] c; done. Qed.

Lemma open_chunks_snoc cs c : Forall chunk_filled cs -> open_chunks (cs ++ [c]).
Proof. intros Hcs init c' [-> _]%app_inj_tail. done. Qed.

Lemma open_chunks_update_last f cs : open_chunks cs -> open_chunks (update_last f cs).
Proof.
  intros Ho init c E. destruct (decide (cs = [])) as [->|Hne].
  - by destruct init.
  - apply exists_last in Hne as (l & x & ->). rewrite update_last_snoc in E.
    apply app_inj_tail in E as [<- _]. by eapply Ho.
Qed.

Lemma open_chunks_closed cs :
  open_chunks cs -> is_some_and (last cs) chunk_blank = false -> Forall chunk_filled cs.
Proof.
  intros Ho Hb. destruct (decide (cs = [])) as [->|Hne]; [done|].
  apply exists_last in Hne as (l & x & ->). rewrite last_snoc in Hb. simpl in Hb.
  apply Forall_app. split; [by eapply Ho|]. constructor; [by apply chunk_blank_false|done].
Qed.

Lemma open_ensure_chunk cs : open_chunks cs -> open_chunks (ensure_chunk cs).
Proof.
  unfold ensure_chunk. destruct (is_nil cs); [|done]. intros _.
  by apply (open_chunks_snoc []).
Qed.

#[export] Hint Resolve open_chunks_nil open_chunks_snoc open_chunks_update_last
  open_chunks_closed open_ensure_chunk : rust.

(** Closing the current hunk leaves only complete hunks. *)
Lemma ensure_yields p line :
  streaming_inv p -> 1 <= line_number p ->
  yields (fun _ => Forall hunk_filled (hunks (state p)))
    (error_within 1 (line_number p)) (ensure_update_hunk_is_not_empty p line).
Proof.
  intros Hinv Hln. unfold ensure_update_hunk_is_not_empty, streaming_inv in *.
  destruct (mode (state p)) as [| | | |n|] eqn:Em.
  1,2: rewrite Hinv; simpl; done.
  - destruct Hinv as [? (? & ? & ->)]. done.
  - destruct Hinv as [? (? & ->)]. done.
  - destruct Hinv as [? (init & path & mp & chunks & -> & Hi & Ho)]. rewrite last_snoc.
    destruct (is_nil chunks) eqn:En; [simpl; lia|].
    destruct (is_some_and (last chunks) chunk_blank) eqn:Eb.
    + destruct (str_eqb line END_PATCH_MARKER); simpl; lia.
    + simpl. apply Forall_app. split; [done|]. constructor; [|done].
      apply is_nil_false in En. split; [done|]. by apply open_chunks_closed.
  - repeat case_goal; simpl; try done; lia.
Qed.

Lemma handle_yields p trimmed :
  streaming_inv p -> 1 <= line_number p ->
  yields (fun o => forall p', o = Some p' -> streaming_inv p' /\ line_number p' = line_number p)
    (error_within 1 (line_number p)) (handle_hunk_headers_and_end_patch p trimmed).
Proof.
  intros Hinv Hln. unfold handle_hunk_headers_and_end_patch.
  repeat case_goal; try done; (eapply yields_bind; [by apply ensure_yields|]);
    intros ? Hfill p' [= <-]; (split; [|done]); unfold streaming_inv; simpl.
  - done.
  - split; [apply Forall_app; split; [done|by repeat constructor]|].
    rewrite last_snoc. eauto.
  - split; [apply Forall_app; split; [done|by repeat constructor]|].
    rewrite last_snoc. eauto.
  - split; [lia|]. eexists _, _, _, _. split_and!; [done..|]. apply open_chunks_nil.
Qed.

Lemma set_last_update_inv p n mp chunks init path mp0 chunks0 :
  1 <= n <= line_number p ->
  hunks (state p) = init ++ [UpdateFile path mp0 chunks0] -> Forall hunk_filled init ->
  open_chunks chunks ->
  streaming_inv (set_last_update p n mp chunks)
  /\ line_number (set_last_update p n mp chunks) = line_number p.
Proof.
  intros Hn Hh Hi Ho. split; [|done]. unfold streaming_inv, set_last_update. simpl.
  split; [done|]. rewrite Hh, update_last_snoc. eexists _, _, _, _. eauto.
Qed.

Lemma process_update_line_yields p n line update_line :
  streaming_inv p -> 1 <= line_number p -> mode (state p) = InUpdateFile n ->
  yields (fun p' => streaming_inv p' /\ line_number p' = line_number p)
    (error_within 1 (line_number p)) (process_update_line p n line update_line).
Proof.
  intros Hinv Hln Hm. unfold streaming_inv in Hinv. rewrite Hm in Hinv.
  destruct Hinv as [Hn (init & path & mp & chunks & Hh & Hi & Ho)].
  unfold process_update_line. rewrite Hh, last_snoc.
  destruct (if is_nil chunks && is_none mp then _ else _) as [mv|].
  { by eapply set_last_update_inv. }
  destruct (is_some_and (last chunks) chunk_blank) eqn:Eb.
  - rewrite andb_true_r.
    destruct (str_eqb update_line EMPTY_CHANGE_CONTEXT_MARKER); [simpl; lia|]. simpl.
    unfold starts_with.
    repeat case_goal; simpl; try lia; eapply set_last_update_inv; eauto with rust.
  - rewrite andb_false_r.
    repeat case_goal; simpl; try lia; eapply set_last_update_inv; eauto with rust.
Qed.

(** Every line keeps the invariant, and its errors name a line seen so far. *)
Lemma process_line_yields p line :
  streaming_inv p -> 1 <= line_number p ->
  yields (fun p' => streaming_inv p' /\ line_number p' = line_number p)
    (error_within 1 (line_number p)) (process_line p line).
Proof.
  intros Hinv Hln. unfold process_line. cbv zeta.
  assert (handled : forall t (k : result ParseError StreamingPatchParser),
    yields (fun p' => streaming_inv p' /\ line_number p' = line_number p)
      (error_within 1 (line_number p)) k ->
    yields (fun p' => streaming_inv p' /\ line_number p' = line_number p)
      (error_within 1 (line_number p))
      (let? h := handle_hunk_headers_and_end_patch p t in
       match h with Some p' => Ok p' | None => k end)).
  { intros t k Hk. eapply yields_bind; [by apply handle_yields|].
    intros [p'|] Ho; [by apply Ho|done]. }
  destruct (mode (state p)) as [| | | |n|] eqn:Em.
  - case_goal; [|done]. split; [|done]. unfold streaming_inv in *. by rewrite Em in Hinv.
  - apply handled. simpl. lia.
  - apply handled. pose proof Hinv as Hinv'. unfold streaming_inv in Hinv'. rewrite Em in Hinv'.
    destruct Hinv' as [Hf (path & contents & Hl)]. rewrite Hl.
    destruct (strip_prefix [PLUS] line); [|simpl; lia].
    split; [|done]. unfold streaming_inv. simpl.
    split; [|by erewrite last_update_last; eauto].
    apply last_Some in Hl as [l' Hl']. rewrite Hl' in *. rewrite update_last_snoc.
    apply Forall_app in Hf as [? ?]. apply Forall_app. split; [done|by repeat constructor].
  - apply handled. simpl. lia.
  - apply handled. by apply process_update_line_yields.
  - done.
Qed.

Lemma take_line_inv p : streaming_inv p -> streaming_inv (take_line p).
Proof.
  unfold streaming_inv, take_line. simpl. destruct (mode (state p)); try done.
  intros [? ?]. split; [lia|done].
Qed.

Lemma push_delta_yields p delta :
  streaming_inv p ->
  streaming_inv (push_delta p delta).1
  /\ line_number p <= line_number (push_delta p delta).1
  /\ yields (fun hs => hs = hunks (state (push_delta p delta).1))
       (error_within 1 (line_number (push_delta p delta).1)) (push_delta p delta).2.
Proof.
  revert p. induction delta as [|ch rest IH]; intros p Hinv; simpl; [done|].
  destruct (ch =? LF)%N.
  - pose proof (process_line_yields (take_line p) (strip_cr (line_buffer p))) as Hy.
    specialize (Hy (take_line_inv _ Hinv) ltac:(simpl; lia)).
    destruct (process_line _ _) as [p2|e| |]; simpl in *; try done.
    + destruct Hy as [Hi2 Hln2]. destruct (IH p2 Hi2) as (? & ? & ?).
      split_and!; [done|lia|done].
    + split_and!; [by apply take_line_inv|lia|done].
  - destruct (IH (push_buffer p ch)) as (? & ? & ?); [by destruct p|]. done.
Qed.

Lemma finish_yields p :
  streaming_inv p ->
  yields (Forall hunk_filled) (error_within 1 (line_number (finish p).1)) (finish p).2.
Proof.
  intros Hinv. unfold finish.
  assert (done_case : forall p2 hi, streaming_inv p2 ->
    yields (Forall hunk_filled) (error_within 1 hi)
      (match mode (state p2) with
       | EndedPatch => Ok (hunks (state p2))
       | _ => Err (InvalidPatchError (L"The last line of the patch must be '*** End Patch'"))
       end)).
  { intros p2 hi Hi2. unfold streaming_inv in Hi2. by destruct (mode (state p2)). }
  destruct (is_nil (line_buffer p)); [by apply done_case|].
  pose proof (take_line_inv p Hinv) as Hi1.
  assert (1 <= line_number (take_line p)) as Hln by (simpl; lia).
  destruct (str_eqb (trim (line_buffer p)) END_PATCH_MARKER).
  - pose proof (ensure_yields _ (trim (line_buffer p)) Hi1 Hln) as Hy.
    destruct (ensure_update_hunk_is_not_empty _ _); simpl in *; done.
  - pose proof (process_line_yields _ (line_buffer p) Hi1 Hln) as Hy.
    destruct (process_line _ _) as [p2| | |]; simpl in *; try done.
    apply done_case. apply Hy.
Qed.

(** ** Runs of the parser *)

(** A parser reached from the initial one by any sequence of deltas, failed
    ones included. *)
Inductive reachable : StreamingPatchParser -> Prop :=
| reachable_default : reachable parser_default
| reachable_push p delta : reachable p -> reachable (push_delta p delta).1.

Lemma reachable_inv p : reachable p -> streaming_inv p.
Proof. induction 1 as [|p delta _ IH]; [done|]. by apply push_delta_yields. Qed.

(** In every reachable parser the mode agrees with the hunk being built
    (so the [last_mut] patterns of the code never fail to match), all hunks but
    the current one are complete, and closing the stream yields only hunks that
    are complete in the sense of the batch parser, or an error that names a line
    already received; neither [push_delta] nor [finish] can panic. *)
Theorem streaming_parser_invariant (p : StreamingPatchParser) (delta : str) :
  reachable p ->
  streaming_inv p
  /\ settled (push_delta p delta).2
  /\ yields (Forall hunk_filled) (error_within 1 (line_number (finish p).1)) (finish p).2.
Proof.
  intros Hr. pose proof (reachable_inv p Hr) as Hinv. split_and!; [done| |].
  - eapply yields_settled. by apply push_delta_yields.
  - by apply finish_yields.
Qed.

Definition streaming_sample : str :=
  L"*** Begin Patch" ++ [LF] ++ L"*** Update File: a" ++ [LF] ++ L"@@ f" ++ [LF] ++ L"-x" ++ [LF]
  ++ L"+y" ++ [LF] ++ L"*** End Patch".

Lemma streaming_parser_invariant_witness :
  streaming_inv (push_delta parser_default streaming_sample).1
  /\ (finish (push_delta parser_default streaming_sample).1).2
     = Ok [UpdateFile (L"a") None [mkChunk (Some (L"f")) [L"x"] [L"y"] false]].
Proof.
  split.
  - apply (streaming_parser_invariant _ []). apply reachable_push, reachable_default.
  - vm_compute. reflexivity.
Defined.

(** ** Deltas compose *)

Lemma push_delta_app p a b :
  push_delta p (a ++ b) =
  match push_delta p a with
  | (p1, Ok _) => push_delta p1 b
  | r => r
  end.
Proof.
  revert p. induction a as [|ch a IH]; intros p; simpl; [done|].
  destruct (ch =? LF)%N; [|apply IH].
  destruct (process_line _ _); [apply IH|done..].
Qed.

(** A client that pushes deltas until one fails. *)
Fixpoint push_deltas (p : StreamingPatchParser) (deltas : list str)
  : StreamingPatchParser * result ParseError (list Hunk) :=
  match deltas with
  | [] => (p, Ok (hunks (state p)))
  | d :: rest =>
      match push_delta p d with
      | (p1, Ok _) => push_deltas p1 rest
      | r => r
      end
  end.

Lemma push_deltas_push_delta p deltas : push_deltas p deltas = push_delta p (concat deltas).
Proof.
  revert p. induction deltas as [|d deltas IH]; intros p; simpl; [done|].
  rewrite push_delta_app. destruct (push_delta p d) as [p1 []]; auto.
Qed.

(** How the text is cut into deltas does not matter: two ways of cutting the
    same text, each pushed piece by piece up to the first error, leave the same
    parser behind and return the same hunks or the same error. *)
Theorem push_deltas_cut_independent (p : StreamingPatchParser) (deltas deltas' : list str) :
  concat deltas = concat deltas' -> push_deltas p deltas = push_deltas p deltas'.
Proof. intros E. by rewrite !push_deltas_push_delta, E. Qed.

Lemma push_deltas_cut_independent_witness :
  push_deltas parser_default [L"*** Beg"; L"in Patch" ++ [LF]; L"bad" ++ [LF]; L"more"]
  = push_deltas parser_default [L"*** Begin Patch" ++ [LF] ++ L"ba"; L"d" ++ [LF] ++ L"more"].
Proof. apply push_deltas_cut_independent. reflexivity. Defined.

(** ** Emitted hunks are stable *)

(** The hunk a consumer has seen may gain lines or a move target, but it stays
    the same kind of change to the same file. *)
Definition same_target (h h' : Hunk) : Prop :=
  match h, h' with
  | AddFile p c, AddFile p' c' => p = p' /\ exists more, c' = c ++ more
  | DeleteFile p, DeleteFile p' => p = p'
  | UpdateFile p _ cs, UpdateFile p' _ cs' => p = p' /\ length cs <= length cs'
  | _, _ => False
  end.

(** All hunks but the last are final; the last one can only grow. *)
Definition grows (hs hs' : list Hunk) : Prop :=
  forall i h, hs !! i = Some h ->
    exists h', hs' !! i = Some h' /\ same_target h h' /\ (S i < length hs -> h' = h).

Lemma same_target_refl h : same_target h h.
Proof. destruct h; simpl; try done. split; [done|]. exists []. by rewrite app_nil_r. Qed.

Lemma same_target_trans h1 h2 h3 : same_target h1 h2 -> same_target h2 h3 -> same_target h1 h3.
Proof.
  destruct h1, h2, h3; simpl; try done; try congruence.
  - intros [-> [m1 ->]] [-> [m2 ->]]. split; [done|]. exists (m1 ++ m2). by rewrite app_assoc.
  - intros [-> ?] [-> ?]. split; [done|lia].
Qed.

Lemma grows_refl hs : grows hs hs.
Proof. intros i h Hi. exists h. auto using same_target_refl. Qed.

Lemma grows_length hs hs' : grows hs hs' -> length hs <= length hs'.
Proof.
  intros Hg. destruct (decide (hs = [])) as [->|Hne]; [simpl; lia|].
  apply exists_last in Hne as (l & x & ->).
  destruct (Hg (length l) x) as (h' & Hh' & _).
  { by apply list_lookup_middle. }
  apply lookup_lt_Some in Hh'. rewrite length_app. simpl. lia.
Qed.

Lemma grows_trans hs1 hs2 hs3 : grows hs1 hs2 -> grows hs2 hs3 -> grows hs1 hs3.
Proof.
  intros H12 H23 i h1 Hi. destruct (H12 i h1 Hi) as (h2 & Hi2 & Hs2 & Hf2).
  destruct (H23 i h2 Hi2) as (h3 & Hi3 & Hs3 & Hf3). exists h3.
  split_and!; [done|by eapply same_target_trans|].
  intros Hlt. rewrite Hf3; [auto|]. pose proof (grows_length _ _ H12). lia.
Qed.

#[export] Instance grows_preorder : PreOrder grows.
Proof. split; [exact grows_refl|exact grows_trans]. Qed.

Lemma grows_app hs new : grows hs (hs ++ new).
Proof.
  intros i h Hi. exists h. split_and!; [by apply lookup_app_l_Some|apply same_target_refl|done].
Qed.

Lemma grows_update_last f hs :
  (forall h, last hs = Some h -> same_target h (f h)) -> grows hs (update_last f hs).
Proof.
  intros Hf i h Hi. destruct (decide (S i < length hs)) as [Hlt|Hge].
  - exists h. rewrite lookup_update_last_lt by done. auto using same_target_refl.
  - destruct (decide (hs = [])) as [->|Hne]; [done|].
    apply exists_last in Hne as (l & x & ->). rewrite update_last_snoc.
    pose proof (lookup_lt_Some _ _ _ Hi) as Hlt. rewrite length_app in *. simpl in *.
    assert (i = length l) as -> by lia.
    rewrite list_lookup_middle in Hi by done. injection Hi as <-.
    exists (f x). rewrite list_lookup_middle by done. split_and!; [done| |lia].
    apply Hf. by rewrite last_snoc.
Qed.

Lemma handle_grows p t p' :
  handle_hunk_headers_and_end_patch p t = Ok (Some p') ->
  grows (hunks (state p)) (hunks (state p')).
Proof.
  unfold handle_hunk_headers_and_end_patch. intros H.
  repeat (case_hyp H; try done); run_ok H; injection H as <-; simpl;
    auto using grows_refl, grows_app.
Qed.

Lemma set_last_update_grows p n mp chunks path mp0 chunks0 :
  last (hunks (state p)) = Some (UpdateFile path mp0 chunks0) ->
  length chunks0 <= length chunks ->
  grows (hunks (state p)) (hunks (state (set_last_update p n mp chunks))).
Proof.
  intros Hl Hlen. apply grows_update_last. intros h Hh. rewrite Hl in Hh.
  by injection Hh as <-.
Qed.

Lemma process_update_line_grows p n line ul p' :
  process_update_line p n line ul = Ok p' -> grows (hunks (state p)) (hunks (state p')).
Proof.
  unfold process_update_line. intros H.
  destruct (last (hunks (state p))) as [[| |path mp chunks]|] eqn:El; try done.
  assert (Hen : length chunks <= length (ensure_chunk chunks)) by (destruct chunks; simpl; lia).
  repeat (case_hyp H; try done); injection H as <-;
    (eapply set_last_update_grows; [exact El|]);
    rewrite ?length_update_last, ?length_app; lia.
Qed.

Lemma process_line_grows p line p' :
  process_line p line = Ok p' -> grows (hunks (state p)) (hunks (state p')).
Proof.
  unfold process_line. intros H. cbv zeta in H.
  destruct (mode (state p)) eqn:Em.
  - case_hyp H; [|done]. injection H as <-. apply grows_refl.
  - run_ok H. destruct a; [injection H as <-|done]. by eapply handle_grows.
  - run_ok H. destruct a; [injection H as <-; by eapply handle_grows|].
    destruct (strip_prefix [PLUS] line); [|done].
    destruct (last (hunks (state p))) as [[path contents| |]|] eqn:El; try done.
    injection H as <-. apply grows_update_last. intros h' Hh'. rewrite El in Hh'.
    injection Hh' as <-. simpl. eauto.
  - run_ok H. destruct a; [injection H as <-|done]. by eapply handle_grows.
  - run_ok H. destruct a; [injection H as <-; by eapply handle_grows|].
    by eapply process_update_line_grows.
  - injection H as <-. apply grows_refl.
Qed.

(** What has been reported stays: after any further delta, successful or
    not, every hunk reported before is still there at the same position, all
    but the last one unchanged, and the last one is the same operation on the
    same file with at least the same added text or as many chunks. *)
Theorem push_delta_stable (p : StreamingPatchParser) (delta : str) :
  grows (hunks (state p)) (hunks (state (push_delta p delta).1)).
Proof.
  revert p. induction delta as [|ch rest IH]; intros p; simpl; [apply grows_refl|].
  destruct (ch =? LF)%N; [|apply (IH (push_buffer p ch))].
  destruct (process_line (take_line p) (strip_cr (line_buffer p))) as [p2| | |] eqn:E;
    try apply grows_refl.
  etrans; [|apply IH]. by apply process_line_grows in E.
Qed.
