(* ===== verification/PatchRoundtrip.v ===== *)
(** * Printing and reading back patches

    A printer for the patch grammar, and the proof that both parsers, the batch
    one and the streaming one, read a printed list of hunks back exactly.  As a
    consequence the two implementations agree on every text the printer can
    produce, however the stream is cut. *)

From S2P Require Import Prelude RustStr PatchParser StreamingParser.

(** ** The printer *)

Definition print_context (c : option str) : str :=
  match c with
  | None => EMPTY_CHANGE_CONTEXT_MARKER
  | Some ctx => CHANGE_CONTEXT_MARKER ++ ctx
  end.

Definition print_chunk_body (c : UpdateFileChunk) : list str :=
  (cons MINUS <$> old_lines c) ++ (cons PLUS <$> new_lines c)
  ++ (if is_end_of_file c then [EOF_MARKER] else []).

Definition print_chunk (c : UpdateFileChunk) : list str :=
  print_context (change_context c) :: print_chunk_body c.

Definition print_chunks (cs : list UpdateFileChunk) : list str := concat (print_chunk <$> cs).

Definition print_move (m : option PathBuf) : list str :=
  match m with None => [] | Some path => [MOVE_TO_MARKER ++ path] end.

Definition print_hunk (h : Hunk) : list str :=
  match h with
  | AddFile path contents => (ADD_FILE_MARKER ++ path) :: (cons PLUS <$> lines contents)
  | DeleteFile path => [DELETE_FILE_MARKER ++ path]
  | UpdateFile path move_path chunks =>
      (UPDATE_FILE_MARKER ++ path) :: print_move move_path ++ print_chunks chunks
  end.

Definition print_hunks (hs : list Hunk) : list str := concat (print_hunk <$> hs).

Definition print_patch (hs : list Hunk) : str :=
  join [LF] (BEGIN_PATCH_MARKER :: print_hunks hs ++ [END_PATCH_MARKER]).

(** ** What can be printed

    A name ends in a character that trimming keeps; lines hold no line break. *)
Definition wf_name (s : str) : Prop := line_ok s /\ trimmed_end s = true.

Definition wf_chunk (c : UpdateFileChunk) : Prop :=
  chunk_filled c /\ Forall line_ok (old_lines c) /\ Forall line_ok (new_lines c)
  /\ match change_context c with Some ctx => wf_name ctx | None => True end.

Definition wf_hunk (h : Hunk) : Prop :=
  match h with
  | AddFile path contents =>
      wf_name path /\ Forall line_ok (lines contents) /\ contents = unlines (lines contents)
  | DeleteFile path => wf_name path
  | UpdateFile path move_path chunks =>
      wf_name path /\ match move_path with Some m => wf_name m | None => True end
      /\ chunks <> [] /\ Forall wf_chunk chunks
  end.

#[export] Instance wf_name_dec s : Decision (wf_name s).
Proof. unfold wf_name. apply _. Defined.
#[export] Instance chunk_filled_dec c : Decision (chunk_filled c).
Proof. unfold chunk_filled. apply _. Defined.
#[export] Instance wf_chunk_dec c : Decision (wf_chunk c).
Proof. unfold wf_chunk. destruct (change_context c); apply _. Defined.
#[export] Instance wf_hunk_dec h : Decision (wf_hunk h).
Proof. destruct h as [| |path mv cs]; [..|destruct mv]; simpl; apply _. Defined.

(** ** Characters and markers *)

Lemma line_ok_cons c l : c <> LF -> c <> CR -> line_ok l -> line_ok (c :: l).
Proof.
  intros H1 H2 [Hlf Hcr]. split; [by apply not_elem_of_cons|].
  destruct (strip_suffix [CR] (c :: l)) as [r|] eqn:E; [|done].
  apply strip_suffix_Some in E. destruct r as [|d r]; simpl in E; [congruence|].
  injection E as _ ->. by rewrite (proj2 (strip_suffix_Some [CR] (r ++ [CR]) r)) in Hcr.
Qed.

Lemma line_ok_app a b :
  LF ∉ a -> trimmed_end b = true -> line_ok b -> line_ok (a ++ b).
Proof.
  intros Ha Ht [Hlf Hcr]. split; [by rewrite not_elem_of_app|].
  destruct (strip_suffix [CR] (a ++ b)) as [r|] eqn:E; [|done].
  apply strip_suffix_Some in E. unfold trimmed_end in Ht.
  destruct (last b) as [c|] eqn:El; [|done]. apply last_Some in El as [b' ->].
  rewrite app_assoc in E. by apply app_inj_tail in E as [_ ->].
Qed.

Lemma trim_marker m p :
  is_some_and (head m) (fun c => negb (is_whitespace c)) = true -> wf_name p ->
  trim (m ++ p) = m ++ p.
Proof.
  intros Hm [_ Ht]. apply trim_solid; [by destruct m|by apply trimmed_end_app].
Qed.

Lemma trim_end_marker m p : wf_name p -> trim_end (m ++ p) = m ++ p.
Proof. intros [_ Ht]. by apply trim_end_id, trimmed_end_app. Qed.

Lemma strip_prefix_head_ne p s : p <> [] -> head p <> head s -> strip_prefix p s = None.
Proof.
  intros Hp Hh. destruct (strip_prefix p s) as [r|] eqn:E; [|done].
  apply strip_prefix_Some in E. subst. by destruct p.
Qed.

Lemma str_eqb_head_ne a b : head a <> head b -> str_eqb a b = false.
Proof. intros H. apply bool_decide_eq_false_2. by intros ->. Qed.

(** Side conditions on the first characters of marker lines. *)
Ltac heads := vm_compute; discriminate.

Lemma trim_head c s : is_whitespace c = false -> exists s', trim (c :: s) = c :: s'.
Proof.
  intros Hc. unfold trim, trim_start. rewrite trim_start_matches_id by done.
  by apply trim_end_head.
Qed.

(** ** The batch parser reads what was printed *)

(** Lines that end a chunk: nothing, or a line that is not part of a body. *)
Definition stops (rest : list str) : Prop :=
  match rest with
  | [] => True
  | l :: _ => exists c l', l = c :: l' /\ c <> SP /\ c <> PLUS /\ c <> MINUS /\ l <> EOF_MARKER
  end.

Lemma chunk_loop_removed ls rest ln ctx o n e k :
  chunk_loop ((cons MINUS <$> ls) ++ rest) ln (mkChunk ctx o n e) k
  = chunk_loop rest ln (mkChunk ctx (o ++ ls) n e) (k + length ls).
Proof.
  revert o k. induction ls as [|l ls IH]; intros o k.
  - by rewrite app_nil_r, Nat.add_0_r.
  - rewrite fmap_cons. cbn [app chunk_loop]. rewrite str_eqb_head_ne by heads.
    change (MINUS =? SP)%N with false. change (MINUS =? PLUS)%N with false.
    change (MINUS =? MINUS)%N with true. cbv iota. unfold push_removed.
    cbn [change_context old_lines new_lines is_end_of_file]. rewrite IH.
    rewrite <- app_assoc. cbn [length app]. f_equal. lia.
Qed.

Lemma chunk_loop_added ls rest ln ctx o n e k :
  chunk_loop ((cons PLUS <$> ls) ++ rest) ln (mkChunk ctx o n e) k
  = chunk_loop rest ln (mkChunk ctx o (n ++ ls) e) (k + length ls).
Proof.
  revert n k. induction ls as [|l ls IH]; intros n k.
  - by rewrite app_nil_r, Nat.add_0_r.
  - rewrite fmap_cons. cbn [app chunk_loop]. rewrite str_eqb_head_ne by heads.
    change (PLUS =? SP)%N with false. change (PLUS =? PLUS)%N with true. cbv iota.
    unfold push_added. cbn [change_context old_lines new_lines is_end_of_file]. rewrite IH.
    rewrite <- app_assoc. cbn [length app]. f_equal. lia.
Qed.

Lemma chunk_loop_stops rest ln c k : stops rest -> 0 < k -> chunk_loop rest ln c k = Ok (c, k).
Proof.
  intros Hs Hk. destruct rest as [|l rest]; [done|].
  destruct Hs as (d & l' & -> & H1 & H2 & H3 & H4). cbn [chunk_loop].
  unfold str_eqb. rewrite bool_decide_eq_false_2 by done.
  rewrite !(proj2 (N.eqb_neq _ _)) by done.
  destruct (Nat.eqb_spec k 0); [lia|done].
Qed.

Lemma print_chunk_body_filled c : chunk_filled c -> 0 < length (old_lines c) + length (new_lines c).
Proof. intros [H|H]; [destruct (old_lines c)|destruct (new_lines c)]; simpl; try done; lia. Qed.

Lemma chunk_loop_body c rest ln :
  chunk_filled c -> stops rest ->
  chunk_loop (print_chunk_body c ++ rest) ln (blank_chunk (change_context c)) 0
  = Ok (c, length (print_chunk_body c)).
Proof.
  intros Hf Hs. pose proof (print_chunk_body_filled c Hf) as Hlen.
  unfold print_chunk_body, blank_chunk. rewrite <- !app_assoc.
  rewrite chunk_loop_removed, chunk_loop_added. rewrite !length_app, !length_fmap.
  destruct c as [ctx o n [|]]; simpl in *.
  - destruct (Nat.eqb_spec (length o + length n) 0); [lia|].
    change (str_eqb EOF_MARKER EOF_MARKER) with true. cbv iota. unfold set_end_of_file.
    simpl. by rewrite Nat.add_assoc.
  - rewrite chunk_loop_stops by (done || lia). by rewrite Nat.add_0_r.
Qed.

Lemma print_chunk_length_pos c : 0 < length (print_chunk c).
Proof. simpl. lia. Qed.

Lemma parse_chunk_header c rest :
  exists tail, print_context c = 64%N :: tail
  /\ (if str_eqb (print_context c) EMPTY_CHANGE_CONTEXT_MARKER then Ok (None, 1)
      else match strip_prefix CHANGE_CONTEXT_MARKER (print_context c) with
           | Some context => Ok (Some context, 1)
           | None => rest
           end) = @Ok ParseError _ (c, 1).
Proof.
  destruct c as [ctx|]; simpl; eexists; split; reflexivity.
Qed.

Lemma parse_print_chunk c rest ln allow :
  wf_chunk c -> stops rest ->
  parse_update_file_chunk (print_chunk c ++ rest) ln allow = Ok (c, length (print_chunk c)).
Proof.
  intros (Hf & _) Hs. unfold parse_update_file_chunk, print_chunk. cbn [app].
  destruct (parse_chunk_header (change_context c)
    (if negb allow then Err (InvalidHunkError
       (L"Expected update hunk to start with a @@ context marker, got: '"
        ++ print_context (change_context c) ++ L"'") ln) else Ok (None, 0)))
    as (tail & _ & ->).
  cbn [rbind]. rewrite slice_from_1. cbn [rbind].
  destruct (_ <=? 1) eqn:El.
  - apply Nat.leb_le in El. simpl in El. pose proof (print_chunk_body_filled c Hf).
    unfold print_chunk_body in El. autorewrite with rust_len in El. lia.
  - change (mkChunk (change_context c) [] [] false) with (blank_chunk (change_context c)).
    rewrite chunk_loop_body by done. simpl. by rewrite Nat.add_1_r.
Qed.

(** What may follow a hunk: the end, or a line that starts with a star and is
    not the end-of-file marker. *)
Definition hunk_start (rest : list str) : Prop :=
  match rest with
  | [] => True
  | l :: _ => exists l', l = STAR :: l' /\ l <> EOF_MARKER
  end.

Lemma hunk_start_stops rest : hunk_start rest -> stops rest.
Proof. destruct rest; simpl; [done|]. intros (l' & -> & ?). by eexists _, _. Qed.

Lemma print_chunks_stops cs rest : hunk_start rest -> stops (print_chunks cs ++ rest).
Proof.
  intros Hr. destruct cs as [|c cs]; [by apply hunk_start_stops|].
  simpl. destruct (parse_chunk_header (change_context c) Panic) as (tail & -> & _).
  eexists _, _. split_and!; [reflexivity|done..].
Qed.

Lemma update_loop_print fuel cs rest ln parsed acc :
  length (print_chunks cs ++ rest) < fuel -> Forall wf_chunk cs -> hunk_start rest ->
  update_loop fuel (print_chunks cs ++ rest) ln parsed acc
  = Ok (acc ++ cs, parsed + length (print_chunks cs)).
Proof.
  revert fuel parsed acc. induction cs as [|c cs IH]; intros fuel parsed acc Hf Hwf Hr.
  - destruct fuel as [|fuel]; [lia|]. change (print_chunks [] ++ rest) with rest.
    rewrite app_nil_r, Nat.add_0_r. destruct rest as [|l rest]; [done|].
    destruct Hr as (l' & -> & _). cbn [update_loop].
    destruct (trim_head STAR l') as [s' ->]; [done|]. cbn [is_nil].
    change (STAR :: l') with ([STAR] ++ l'). unfold starts_with.
    by rewrite strip_prefix_app.
  - inversion Hwf as [|?? Hc Hcs]; subst.
    change (print_chunks (c :: cs)) with (print_chunk c ++ print_chunks cs) in *.
    rewrite <- app_assoc in *. destruct fuel as [|fuel]; [lia|].
    destruct (parse_chunk_header (change_context c) Panic) as (tail & Htail & _).
    pose proof (parse_print_chunk c (print_chunks cs ++ rest) (ln + parsed) (is_nil acc) Hc
      (print_chunks_stops cs rest Hr)) as Hparse.
    rewrite length_app in Hf. simpl in Hf.
    unfold print_chunk in *. rewrite Htail in *. cbn [app] in *. cbn [update_loop].
    destruct (trim_head 64%N tail) as [s' ->]; [done|]. cbn [is_nil].
    unfold starts_with. rewrite strip_prefix_head_ne by heads. rewrite Hparse. cbn [rbind].
    unfold slice_from. rewrite (proj2 (Nat.leb_le _ _)).
    2:{ simpl. rewrite length_app. lia. }
    cbn [rbind length drop]. rewrite drop_app_length. rewrite IH by (done || lia).
    rewrite <- app_assoc. rewrite !length_app. simpl. f_equal. f_equal. lia.
Qed.

Lemma add_file_loop_print ls rest acc k :
  hunk_start rest ->
  add_file_loop ((cons PLUS <$> ls) ++ rest) acc k = (acc ++ unlines ls, k + length ls).
Proof.
  intros Hr. revert acc k. induction ls as [|l ls IH]; intros acc k.
  - rewrite app_nil_r, Nat.add_0_r. simpl. destruct rest as [|r rest]; [done|].
    by destruct Hr as (l' & -> & _).
  - rewrite fmap_cons. cbn [app add_file_loop].
    change (PLUS :: l) with ([PLUS] ++ l). rewrite strip_prefix_app, IH.
    unfold unlines. simpl. rewrite <- !app_assoc. f_equal. lia.
Qed.

Lemma print_hunks_start hs : hunk_start (print_hunks hs).
Proof.
  destruct hs as [|[path contents|path|path mv cs] hs]; simpl; [done|..];
    (eexists; split; [reflexivity|vm_compute; discriminate]).
Qed.

Lemma parse_print_hunk h rest ln :
  wf_hunk h -> hunk_start rest ->
  parse_one_hunk (print_hunk h ++ rest) ln = Ok (h, length (print_hunk h)).
Proof.
  intros Hwf Hr. unfold parse_one_hunk. destruct h as [path contents|path|path mv cs]; simpl in Hwf.
  - destruct Hwf as (Hp & _ & Hc). cbn [print_hunk app]. rewrite index_0. cbn [rbind].
    rewrite trim_marker by done. rewrite strip_prefix_app, slice_from_1. cbn [rbind].
    rewrite add_file_loop_print by done. cbn [app length]. by rewrite length_fmap, <- Hc.
  - cbn [print_hunk app]. rewrite index_0. cbn [rbind].
    rewrite trim_marker by done. rewrite strip_prefix_app.
    by change (strip_prefix ADD_FILE_MARKER (DELETE_FILE_MARKER ++ path)) with (@None str).
  - destruct Hwf as (Hp & Hm & Hne & Hcs). cbn [print_hunk app]. rewrite index_0.
    cbn [rbind]. rewrite trim_marker by done. rewrite strip_prefix_app.
    change (strip_prefix ADD_FILE_MARKER (UPDATE_FILE_MARKER ++ path)) with (@None str).
    change (strip_prefix DELETE_FILE_MARKER (UPDATE_FILE_MARKER ++ path)) with (@None str).
    cbv iota zeta. rewrite slice_from_1. cbn [rbind]. destruct mv as [m|].
    + cbn [print_move app head mbind option_bind]. rewrite strip_prefix_app. cbn [is_none].
      rewrite slice_from_1. cbn [rbind]. rewrite update_loop_print by (done || lia). simpl.
      by destruct cs.
    + cbn [print_move app]. destruct cs as [|c cs]; [done|].
      assert (E : head (print_chunks (c :: cs) ++ rest) ≫= strip_prefix MOVE_TO_MARKER = None).
      { simpl. destruct (parse_chunk_header (change_context c) Panic) as (tail & -> & _).
        apply strip_prefix_head_ne; heads. }
      rewrite E. cbn [is_none rbind]. by rewrite update_loop_print by (done || lia).
Qed.

Lemma hunk_loop_print fuel hs ln acc :
  length (print_hunks hs) < fuel -> Forall wf_hunk hs ->
  hunk_loop fuel (print_hunks hs) ln acc = Ok (acc ++ hs).
Proof.
  revert fuel ln acc. induction hs as [|h hs IH]; intros fuel ln acc Hf Hwf.
  - destruct fuel; [lia|]. simpl. by rewrite app_nil_r.
  - inversion Hwf as [|?? Hh Hhs]; subst.
    change (print_hunks (h :: hs)) with (print_hunk h ++ print_hunks hs) in *.
    destruct fuel as [|fuel]; [lia|]. cbn [hunk_loop].
    rewrite parse_print_hunk by (done || apply print_hunks_start).
    assert (0 < length (print_hunk h)) by (destruct h; simpl; lia).
    rewrite length_app in Hf.
    destruct (is_nil (print_hunk h ++ print_hunks hs)) eqn:En.
    { apply is_nil_true in En. by destruct h. }
    cbn [rbind]. unfold slice_from. rewrite (proj2 (Nat.leb_le _ _)) by (rewrite length_app; lia).
    cbn [rbind]. rewrite drop_app_length, IH by (done || lia). by rewrite <- app_assoc.
Qed.

(** ** The printed text, line by line *)

Lemma join_snoc_suffix sep ls x : exists a, join sep (ls ++ [x]) = a ++ x.
Proof.
  induction ls as [|l ls [a IH]]; [by exists []|].
  exists (l ++ sep ++ a). simpl. destruct (ls ++ [x]) eqn:E; [by destruct ls|].
  rewrite IH. by rewrite <- !app_assoc.
Qed.

Lemma wf_name_ok m p : LF ∉ m -> wf_name p -> line_ok (m ++ p).
Proof. intros Hm [Hl Ht]. by apply line_ok_app. Qed.

Lemma print_chunk_ok c : wf_chunk c -> Forall line_ok (print_chunk c).
Proof.
  intros (_ & Ho & Hn & Hctx). unfold print_chunk, print_chunk_body. constructor.
  - destruct (change_context c) as [ctx|].
    + apply wf_name_ok; [|done]. apply (bool_decide_unpack _). by vm_compute.
    + apply (bool_decide_unpack _). by vm_compute.
  - rewrite !Forall_app, !Forall_fmap. split_and!.
    + eapply Forall_impl; [exact Ho|]. intros l Hl. by apply line_ok_cons.
    + eapply Forall_impl; [exact Hn|]. intros l Hl. by apply line_ok_cons.
    + destruct (is_end_of_file c); [|done].
      constructor; [|done]. apply (bool_decide_unpack _). by vm_compute.
Qed.

Lemma print_hunk_ok h : wf_hunk h -> Forall line_ok (print_hunk h).
Proof.
  assert (marker : forall m p, bool_decide (LF ∉ m) = true -> wf_name p -> line_ok (m ++ p)).
  { intros m p Hm%bool_decide_eq_true. by apply wf_name_ok. }
  destruct h as [path contents|path|path mv cs]; cbn [print_hunk wf_hunk].
  - intros (Hp & Hls & _). constructor; [by apply marker|]. rewrite Forall_fmap. eapply Forall_impl; [exact Hls|].
    intros l Hl. by apply line_ok_cons.
  - intros Hp. constructor; [by apply marker|done].
  - intros (Hp & Hm & _ & Hcs). constructor; [by apply marker|]. apply Forall_app. split.
    + destruct mv as [m|]; [|done]. constructor; [|done]. by apply marker.
    + unfold print_chunks. apply Forall_concat, Forall_fmap.
      eapply Forall_impl; [exact Hcs|]. intros c. apply print_chunk_ok.
Qed.

Lemma print_hunks_ok hs : Forall wf_hunk hs -> Forall line_ok (print_hunks hs).
Proof.
  intros Hhs. unfold print_hunks. apply Forall_concat, Forall_fmap.
  eapply Forall_impl; [exact Hhs|]. intros h. apply print_hunk_ok.
Qed.

Lemma print_patch_trim hs : trim (print_patch hs) = print_patch hs.
Proof.
  unfold print_patch.
  destruct (join_snoc_suffix [LF] (BEGIN_PATCH_MARKER :: print_hunks hs) END_PATCH_MARKER)
    as [a Ha].
  assert (Hh : exists t, join [LF] (BEGIN_PATCH_MARKER :: print_hunks hs ++ [END_PATCH_MARKER])
                 = STAR :: t).
  { simpl. destruct (print_hunks hs ++ [END_PATCH_MARKER]); eexists; reflexivity. }
  destruct Hh as [t Ht]. rewrite Ht. apply trim_id; [done|].
  rewrite <- Ht. cbn [app] in Ha. rewrite Ha. by apply trimmed_end_app.
Qed.

Lemma print_patch_lines hs :
  Forall wf_hunk hs ->
  lines (trim (print_patch hs)) = BEGIN_PATCH_MARKER :: print_hunks hs ++ [END_PATCH_MARKER].
Proof.
  intros Hhs. rewrite print_patch_trim. unfold print_patch. apply lines_join.
  - constructor; [apply (bool_decide_unpack _); by vm_compute|].
    apply Forall_app. split; [by apply print_hunks_ok|].
    constructor; [apply (bool_decide_unpack _); by vm_compute|done].
  - rewrite app_comm_cons, last_snoc. heads.
Qed.

Lemma strip_ends_wrap {E A} (a b : A) l : strip_ends (E:=E) (a :: l ++ [b]) = Ok l.
Proof.
  unfold strip_ends. rewrite (proj2 (Nat.leb_le _ _)).
  2:{ simpl. rewrite length_app. simpl. lia. }
  f_equal. simpl. rewrite length_app. simpl.
  replace (length l + 1 - 1) with (length l) by lia. apply take_app_length.
Qed.

Lemma boundaries_print ls :
  check_patch_boundaries_lenient (BEGIN_PATCH_MARKER :: ls ++ [END_PATCH_MARKER])
  = Ok (BEGIN_PATCH_MARKER :: ls ++ [END_PATCH_MARKER], ls).
Proof.
  unfold check_patch_boundaries_lenient. rewrite check_patch_boundaries_strict_eq.
  rewrite app_comm_cons, last_snoc.
  change (check_start_and_end_lines_strict _ _) with (@Ok ParseError unit tt).
  cbn [rbind app]. by rewrite strip_ends_wrap.
Qed.

Lemma parse_of_print text hs :
  trim text = print_patch hs -> Forall wf_hunk hs ->
  parse_patch text = Ok (mkArgs (print_patch hs) hs None).
Proof.
  intros Ht Hhs. unfold parse_patch, parse_patch_text. cbv zeta.
  change (if PARSE_IN_STRICT_MODE then Strict else Lenient) with Lenient. cbv iota.
  rewrite Ht, <- (print_patch_trim hs), print_patch_lines, boundaries_print by done. cbn [rbind].
  rewrite hunk_loop_print by (done || lia). cbn [rbind app].
  by rewrite print_patch_trim.
Qed.

(** The here-document form [<<'EOF' ... EOF] that the lenient mode unwraps. *)
Definition heredoc_openers : list str :=
  [L"<<EOF"; L"<<'EOF'"; L"<<" ++ DQUOTE :: L"EOF" ++ [DQUOTE]].
Definition heredoc (opener : str) (hs : list Hunk) : str :=
  join [LF] (opener :: (BEGIN_PATCH_MARKER :: print_hunks hs ++ [END_PATCH_MARKER]) ++ [L"EOF"]).

Lemma heredoc_boundaries opener ls :
  opener ∈ heredoc_openers ->
  check_patch_boundaries_lenient
    (opener :: (BEGIN_PATCH_MARKER :: ls ++ [END_PATCH_MARKER]) ++ [L"EOF"])
  = Ok (BEGIN_PATCH_MARKER :: ls ++ [END_PATCH_MARKER], ls).
Proof.
  intros Ho. unfold check_patch_boundaries_lenient.
  rewrite check_patch_boundaries_strict_eq.
  assert (Hf : exists e, check_start_and_end_lines_strict (Some opener) (Some (L"EOF")) = Err e).
  { unfold heredoc_openers in Ho. set_unfold in Ho.
    destruct Ho as [->|[->|[->|[]]]]; by eexists. }
  destruct Hf as [e He].
  rewrite (app_comm_cons _ [L"EOF"] opener), last_snoc. cbn [app head]. rewrite He. cbn [rbind].
  assert (Hc : (str_eqb opener (L"<<EOF") || str_eqb opener (L"<<'EOF'")
              || str_eqb opener (L"<<" ++ DQUOTE :: L"EOF" ++ [DQUOTE])) = true).
  { unfold heredoc_openers in Ho. set_unfold in Ho.
    by destruct Ho as [->|[->|[->|[]]]]. }
  rewrite Hc. change (ends_with (L"EOF")) with (ends_with (L"EOF")). cbn [is_some_and].
  change (ends_with (L"EOF") (L"EOF")) with true. cbn [andb].
  rewrite (proj2 (Nat.leb_le _ _)).
  2:{ simpl. rewrite !length_app. simpl. lia. }
  change (opener :: BEGIN_PATCH_MARKER :: (ls ++ [END_PATCH_MARKER]) ++ [L"EOF"])
    with (opener :: (BEGIN_PATCH_MARKER :: ls ++ [END_PATCH_MARKER]) ++ [L"EOF"]).
  rewrite strip_ends_wrap. cbn [rbind].
  pose proof (boundaries_print ls) as Hb. unfold check_patch_boundaries_lenient in Hb.
  rewrite check_patch_boundaries_strict_eq in *.
  rewrite app_comm_cons, last_snoc in *. cbn [app head] in *.
  by rewrite strip_ends_wrap.
Qed.

Lemma heredoc_text opener hs :
  Forall wf_hunk hs -> opener ∈ heredoc_openers ->
  trim (heredoc opener hs) = heredoc opener hs /\ heredoc opener hs <> []
  /\ lines (trim (heredoc opener hs))
     = opener :: (BEGIN_PATCH_MARKER :: print_hunks hs ++ [END_PATCH_MARKER]) ++ [L"EOF"].
Proof.
  intros Hhs Ho.
  assert (Hop : line_ok opener /\ exists t, opener = 60%N :: t).
  { unfold heredoc_openers in Ho. set_unfold in Ho. destruct Ho as [->|[->|[->|[]]]];
      (split; [apply (bool_decide_unpack _); by vm_compute|by eexists]). }
  destruct Hop as [Hok [t Ht]].
  assert (Htrim : trim (heredoc opener hs) = heredoc opener hs).
  { unfold heredoc. rewrite app_comm_cons, join_unlines.
    change (unlines (opener :: BEGIN_PATCH_MARKER :: print_hunks hs ++ [END_PATCH_MARKER]))
      with ((opener ++ [LF]) ++ unlines (BEGIN_PATCH_MARKER :: print_hunks hs ++ [END_PATCH_MARKER])).
    apply trim_solid; [by rewrite Ht|]. by apply trimmed_end_app. }
  split_and!; [done| |].
  - unfold heredoc. rewrite Ht. by simpl.
  - rewrite Htrim. apply lines_join.
    + constructor; [done|]. rewrite Forall_app. split.
      * constructor; [apply (bool_decide_unpack _); by vm_compute|].
        apply Forall_app. split; [by apply print_hunks_ok|].
        constructor; [apply (bool_decide_unpack _); by vm_compute|done].
      * constructor; [apply (bool_decide_unpack _); by vm_compute|done].
    + rewrite app_comm_cons, last_snoc. heads.
Qed.

(** C15: Printing then parsing is the identity: every list of well-formed hunks,
    printed in the patch grammar and surrounded by any white space, is read back
    by [parse_patch] exactly, with the bare text as the recorded patch; wrapping
    the text in any of the three here-document forms changes nothing. *)
Theorem parse_patch_print (hs : list Hunk) (before after opener : str) :
  Forall wf_hunk hs ->
  Forall (fun c => is_whitespace c = true) before ->
  Forall (fun c => is_whitespace c = true) after ->
  opener ∈ heredoc_openers ->
  parse_patch (before ++ print_patch hs ++ after) = Ok (mkArgs (print_patch hs) hs None)
  /\ parse_patch (before ++ heredoc opener hs ++ after) = Ok (mkArgs (print_patch hs) hs None).
Proof.
  intros Hhs Hb Ha Ho. split.
  - apply parse_of_print; [|done]. apply trim_surround; [done..|apply print_patch_trim|].
    unfold print_patch. simpl. by destruct (print_hunks hs ++ [END_PATCH_MARKER]).
  - destruct (heredoc_text opener hs Hhs Ho) as (Htrim & Hne & Hlines).
    unfold parse_patch, parse_patch_text. cbv zeta.
    change (if PARSE_IN_STRICT_MODE then Strict else Lenient) with Lenient. cbv iota.
    rewrite trim_surround, <- Htrim, Hlines, heredoc_boundaries by done. cbn [rbind].
    by rewrite hunk_loop_print by (done || lia).
Qed.

Definition sample_hunks : list Hunk :=
  [ AddFile (L"src/a.rs") (unlines [L"fn a() {}"; []]);
    UpdateFile (L"b") (Some (L"c d")) [mkChunk None [L"x"] [L"y"; L"z"] false;
                                        mkChunk (Some (L"fn f")) [] [L"w"] true];
    DeleteFile (L"gone") ].

Lemma sample_hunks_wf : Forall wf_hunk sample_hunks.
Proof. apply (bool_decide_unpack _). vm_compute. exact I. Qed.

Lemma parse_patch_print_witness :
  parse_patch ([SP] ++ print_patch sample_hunks ++ [LF])
    = Ok (mkArgs (print_patch sample_hunks) sample_hunks None)
  /\ parse_patch ([SP] ++ heredoc (L"<<EOF") sample_hunks ++ [LF])
    = Ok (mkArgs (print_patch sample_hunks) sample_hunks None).
Proof.
  apply parse_patch_print; [exact sample_hunks_wf|by repeat constructor..|].
  apply (bool_decide_unpack _). vm_compute. exact I.
Defined.

(** ** The streaming parser reads what was printed *)

(** Complete lines fed one after the other. *)
Fixpoint run_lines (p : StreamingPatchParser) (ls : list str)
  : result ParseError StreamingPatchParser :=
  match ls with
  | [] => Ok p
  | l :: rest => let? p' := process_line (take_line p) l in run_lines p' rest
  end.

Lemma run_lines_app p ls1 ls2 :
  run_lines p (ls1 ++ ls2) = (let? p' := run_lines p ls1 in run_lines p' ls2).
Proof.
  revert p. induction ls1 as [|l ls1 IH]; intros p; simpl; [done|].
  destruct (process_line _ _); simpl; auto.
Qed.

Lemma handle_buffer p t p' :
  handle_hunk_headers_and_end_patch p t = Ok (Some p') -> line_buffer p' = line_buffer p.
Proof.
  unfold handle_hunk_headers_and_end_patch. intros H.
  repeat (case_hyp H; try done); run_ok H; by injection H as <-.
Qed.

Lemma process_line_buffer p l p' : process_line p l = Ok p' -> line_buffer p' = line_buffer p.
Proof.
  unfold process_line. intros H. cbv zeta in H. destruct (mode (state p)).
  - case_hyp H; [by injection H as <-|done].
  - run_ok H. destruct a; [injection H as <-; by eapply handle_buffer|done].
  - run_ok H. destruct a; [injection H as <-; by eapply handle_buffer|].
    repeat (case_hyp H; try done); by injection H as <-.
  - run_ok H. destruct a; [injection H as <-; by eapply handle_buffer|done].
  - run_ok H. destruct a; [injection H as <-; by eapply handle_buffer|].
    unfold process_update_line in H. repeat (case_hyp H; try done); by injection H as <-.
  - by injection H as <-.
Qed.

Lemma push_delta_no_break p d :
  LF ∉ d -> push_delta p d
  = (mkParser (line_buffer p ++ d) (state p) (line_number p), Ok (hunks (state p))).
Proof.
  revert p. induction d as [|c d IH]; intros p Hd; simpl.
  - rewrite app_nil_r. by destruct p.
  - apply not_elem_of_cons in Hd as [Hc Hd].
    rewrite (proj2 (N.eqb_neq c LF)) by done. rewrite IH by done. simpl.
    by rewrite <- app_assoc.
Qed.

Lemma push_delta_lines p ls p' rest :
  Forall line_ok ls -> line_buffer p = [] -> run_lines p ls = Ok p' ->
  line_buffer p' = [] /\ push_delta p (unlines ls ++ rest) = push_delta p' rest.
Proof.
  intros Hls. revert p. induction Hls as [|l ls [Hl Hcr] _ IH]; intros p Hb Hrun; simpl in Hrun.
  - injection Hrun as <-. done.
  - run_ok Hrun. pose proof (process_line_buffer _ _ _ Hr) as Hb'.
    change (unlines (l :: ls)) with ((l ++ [LF]) ++ unlines ls).
    rewrite <- !app_assoc, push_delta_app, push_delta_no_break by done. simpl.
    rewrite Hb. simpl. rewrite strip_cr_ok by done.
    change (take_line {| line_buffer := l; state := state p; line_number := line_number p |})
      with (take_line p).
    rewrite Hr. by apply IH.
Qed.

Definition at_mode (m : StreamingParserMode) (hs : list Hunk) (n : nat) : StreamingPatchParser :=
  mkParser [] (mkState m hs) n.

(** A state in which a header line is accepted. *)
Definition ready (m : StreamingParserMode) (hs : list Hunk) : Prop :=
  m <> NotStarted /\ m <> EndedPatch /\
  match last hs with
  | Some (UpdateFile _ _ cs) => cs <> [] /\ is_some_and (last cs) chunk_blank = false
  | _ => True
  end.

Lemma ensure_ready m hs n line :
  ready m hs -> ensure_update_hunk_is_not_empty (at_mode m hs n) line = Ok tt.
Proof.
  intros (_ & _ & Hr). unfold ensure_update_hunk_is_not_empty. simpl.
  destruct (last hs) as [[| |path mv cs]|]; try done. destruct Hr as [Hne Hb].
  apply is_nil_false in Hne. rewrite Hne. cbv iota. by rewrite Hb.
Qed.

Lemma process_header m hs n line p' :
  ready m hs -> trim line = line -> trim_end line = line ->
  handle_hunk_headers_and_end_patch (at_mode m hs n) line = Ok (Some p') ->
  process_line (at_mode m hs n) line = Ok p'.
Proof.
  intros (Hm1 & Hm2 & _) Ht Hte Hh. unfold process_line. cbv zeta. rewrite Ht, Hte, Hh.
  by destruct m.
Qed.

Lemma marker_ne_end m p : head (drop 4 m) <> head (drop 4 END_PATCH_MARKER) -> 4 < length m ->
  str_eqb (m ++ p) END_PATCH_MARKER = false.
Proof.
  intros Hh Hl. apply bool_decide_eq_false_2. intros E. apply Hh. rewrite <- E.
  rewrite drop_app_le by lia. destruct (drop 4 m) eqn:Ed; [|done].
  apply (f_equal length) in Ed. rewrite length_drop in Ed. simpl in Ed. lia.
Qed.

(** The three header lines. *)
Definition header_line (h : Hunk) : str :=
  match h with
  | AddFile path _ => ADD_FILE_MARKER ++ path
  | DeleteFile path => DELETE_FILE_MARKER ++ path
  | UpdateFile path _ _ => UPDATE_FILE_MARKER ++ path
  end.
Definition header_hunk (h : Hunk) : Hunk :=
  match h with
  | AddFile path _ => AddFile path []
  | DeleteFile path => DeleteFile path
  | UpdateFile path _ _ => UpdateFile path None []
  end.
Definition header_mode (h : Hunk) (n : nat) : StreamingParserMode :=
  match h with
  | AddFile _ _ => InAddFile
  | DeleteFile _ => InDeleteFile
  | UpdateFile _ _ _ => InUpdateFile n
  end.

Lemma wf_hunk_name h : wf_hunk h -> exists m path, header_line h = m ++ path /\ wf_name path
  /\ is_some_and (head m) (fun c => negb (is_whitespace c)) = true
  /\ str_eqb (m ++ path) END_PATCH_MARKER = false.
Proof.
  destruct h as [path contents|path|path mv cs]; cbn [wf_hunk header_line].
  - intros [Hp _]. exists ADD_FILE_MARKER, path. split_and!; [done..|].
    apply marker_ne_end; vm_compute; [discriminate|lia].
  - intros Hp. exists DELETE_FILE_MARKER, path. split_and!; [done..|].
    apply marker_ne_end; vm_compute; [discriminate|lia].
  - intros [Hp _]. exists UPDATE_FILE_MARKER, path. split_and!; [done..|].
    apply marker_ne_end; vm_compute; [discriminate|lia].
Qed.

Lemma process_hunk_header m hs n h :
  ready m hs -> wf_hunk h ->
  process_line (at_mode m hs n) (header_line h)
  = Ok (at_mode (header_mode h n) (hs ++ [header_hunk h]) n).
Proof.
  intros Hr Hwf. destruct (wf_hunk_name h Hwf) as (mk & path & Hl & Hp & Hh & Hend).
  apply process_header; [done|..]; rewrite Hl.
  - by apply trim_marker.
  - by apply trim_end_marker.
  - unfold handle_hunk_headers_and_end_patch. rewrite Hend. rewrite <- Hl.
    rewrite !ensure_ready by done. cbn [rbind].
    destruct h as [path' c|path'|path' mv cs]; cbn [header_line]; rewrite strip_prefix_app.
    + done.
    + by change (strip_prefix ADD_FILE_MARKER (DELETE_FILE_MARKER ++ path')) with (@None str).
    + change (strip_prefix ADD_FILE_MARKER (UPDATE_FILE_MARKER ++ path')) with (@None str).
      by change (strip_prefix DELETE_FILE_MARKER (UPDATE_FILE_MARKER ++ path')) with (@None str).
Qed.

Lemma handle_plain p t : head t <> Some STAR -> handle_hunk_headers_and_end_patch p t = Ok None.
Proof.
  intros Hh. unfold handle_hunk_headers_and_end_patch.
  rewrite str_eqb_head_ne by (intros E; rewrite E in Hh; by apply Hh).
  by rewrite !strip_prefix_head_ne by
    (first [heads | (intros E; rewrite <- E in Hh; by apply Hh)]).
Qed.

Lemma run_add_body hs path c ls n :
  run_lines (at_mode InAddFile (hs ++ [AddFile path c]) n) (cons PLUS <$> ls)
  = Ok (at_mode InAddFile (hs ++ [AddFile path (c ++ unlines ls)]) (n + length ls)).
Proof.
  revert c n. induction ls as [|l ls IH]; intros c n.
  - by rewrite app_nil_r, Nat.add_0_r.
  - rewrite fmap_cons. cbn [run_lines]. unfold process_line at 1. cbv zeta.
    destruct (trim_head PLUS l) as [s' Hs']; [done|]. rewrite Hs'. cbn.
    rewrite handle_plain by done. cbn [rbind].
    change (PLUS :: l) with ([PLUS] ++ l). rewrite strip_prefix_app, last_snoc.
    rewrite update_last_snoc. cbn [rbind].
    etrans; [exact (IH (c ++ l ++ [LF]) (n + 1))|]. unfold unlines. csimpl. rewrite <- !app_assoc. do 2 f_equal. lia.
Qed.

(** Inside an update hunk. *)
Definition in_update (k : nat) (hs : list Hunk) (path : PathBuf) (mv : option PathBuf)
  (cs : list UpdateFileChunk) (n : nat) : StreamingPatchParser :=
  at_mode (InUpdateFile k) (hs ++ [UpdateFile path mv cs]) n.

Lemma take_line_in_update k hs path mv cs n :
  take_line (in_update k hs path mv cs n) = in_update k hs path mv cs (n + 1).
Proof. done. Qed.

Lemma set_last_in_update k hs path mv cs n mv' cs' :
  set_last_update (in_update k hs path mv cs n) k mv' cs' = in_update k hs path mv' cs' n.
Proof. unfold set_last_update, in_update, with_state. simpl. by rewrite update_last_snoc. Qed.

Lemma process_update_plain k hs path mv cs n line :
  head (trim_end line) <> Some STAR ->
  process_line (in_update k hs path mv cs n) line
  = process_update_line (in_update k hs path mv cs n) k line (trim_end line).
Proof. intros Hh. unfold process_line. simpl. by rewrite handle_plain. Qed.

(** Unfold the last hunk of an update state. *)
Ltac open_update :=
  unfold process_update_line; cbn [in_update at_mode state hunks]; rewrite last_snoc;
  cbv iota beta.

Lemma process_context k hs path mv cs n ctx :
  match ctx with Some c => wf_name c | None => True end ->
  is_some_and (last cs) chunk_blank = false ->
  process_line (in_update k hs path mv cs n) (print_context ctx)
  = Ok (in_update k hs path mv (cs ++ [blank_chunk ctx]) n).
Proof.
  intros Hctx Hb.
  assert (Hte : trim_end (print_context ctx) = print_context ctx).
  { destruct ctx; [by apply trim_end_marker|reflexivity]. }
  destruct (parse_chunk_header ctx Panic) as (tail & Htail & Hhead).
  rewrite process_update_plain, Hte by (rewrite Hte, Htail; heads). open_update.
  replace (if is_nil cs && is_none mv then strip_prefix MOVE_TO_MARKER (print_context ctx) else None)
    with (@None str).
  2:{ destruct (_ && _); [|done]. symmetry. apply strip_prefix_head_ne; rewrite ?Htail; heads. }
  rewrite Hb, andb_false_r.
  destruct (str_eqb (print_context ctx) EMPTY_CHANGE_CONTEXT_MARKER).
  - injection Hhead as <-. by rewrite set_last_in_update.
  - destruct (strip_prefix CHANGE_CONTEXT_MARKER (print_context ctx)); [|done].
    injection Hhead as <-. by rewrite set_last_in_update.
Qed.

(** A body line is dispatched on its first character. *)
Lemma process_body_line k hs path mv cs c n ch l f :
  (ch = PLUS /\ f = fun k => push_added k l) \/ (ch = MINUS /\ f = fun k => push_removed k l) ->
  process_line (in_update k hs path mv (cs ++ [c]) n) (ch :: l)
  = Ok (in_update k hs path mv (cs ++ [f c]) n).
Proof.
  intros Hch.
  assert (Hws : is_whitespace ch = false) by (by destruct Hch as [[-> _]|[-> _]]).
  destruct (trim_end_head ch l Hws) as [t Ht].
  assert (Hst : head (ch :: t) <> Some STAR) by (by destruct Hch as [[-> _]|[-> _]]).
  rewrite process_update_plain, Ht by (by rewrite Ht). open_update.
  replace (is_nil (cs ++ [c])) with false by (by destruct cs). cbn [andb].
  unfold starts_with.
  destruct Hch as [[-> ->]|[-> ->]]; rewrite !str_eqb_head_ne by heads;
    rewrite (strip_prefix_head_ne CHANGE_CONTEXT_MARKER) by heads;
    rewrite (strip_prefix_head_ne [SP]) by heads; cbn [orb andb is_nil];
    unfold ensure_chunk; replace (is_nil (cs ++ [c])) with false by (by destruct cs).
  - change (PLUS :: l) with ([PLUS] ++ l). rewrite strip_prefix_app.
    by rewrite set_last_in_update, update_last_snoc.
  - rewrite (strip_prefix_head_ne [PLUS]) by heads.
    change (MINUS :: l) with ([MINUS] ++ l). rewrite strip_prefix_app.
    by rewrite set_last_in_update, update_last_snoc.
Qed.

Lemma run_removed k hs path mv cs ctx o nw n ls :
  run_lines (in_update k hs path mv (cs ++ [mkChunk ctx o nw false]) n) (cons MINUS <$> ls)
  = Ok (in_update k hs path mv (cs ++ [mkChunk ctx (o ++ ls) nw false]) (n + length ls)).
Proof.
  revert o n. induction ls as [|l ls IH]; intros o n; [by rewrite app_nil_r, Nat.add_0_r|].
  rewrite fmap_cons. cbn [run_lines].
  rewrite take_line_in_update, (process_body_line k hs path mv cs _ (n + 1) MINUS l (fun k => push_removed k l)) by auto.
  cbn [rbind]. etrans; [apply IH|]. rewrite <- app_assoc. do 2 f_equal. simpl. lia.
Qed.

Lemma run_added k hs path mv cs ctx o nw n ls :
  run_lines (in_update k hs path mv (cs ++ [mkChunk ctx o nw false]) n) (cons PLUS <$> ls)
  = Ok (in_update k hs path mv (cs ++ [mkChunk ctx o (nw ++ ls) false]) (n + length ls)).
Proof.
  revert nw n. induction ls as [|l ls IH]; intros nw n; [by rewrite app_nil_r, Nat.add_0_r|].
  rewrite fmap_cons. cbn [run_lines].
  rewrite take_line_in_update, (process_body_line k hs path mv cs _ (n + 1) PLUS l (fun k => push_added k l)) by auto.
  cbn [rbind]. etrans; [apply IH|]. rewrite <- app_assoc. do 2 f_equal. simpl. lia.
Qed.

Lemma process_eof k hs path mv cs c n :
  chunk_filled c ->
  process_line (in_update k hs path mv (cs ++ [c]) n) EOF_MARKER
  = Ok (in_update k hs path mv (cs ++ [set_end_of_file c]) n).
Proof.
  intros Hf%chunk_blank_false. unfold process_line. cbn [in_update at_mode state mode]. cbv zeta.
  change (trim_end EOF_MARKER) with EOF_MARKER.
  change (handle_hunk_headers_and_end_patch _ EOF_MARKER)
    with (@Ok ParseError (option StreamingPatchParser) None). cbn [rbind]. open_update.
  replace (is_nil (cs ++ [c])) with false by (by destruct cs). cbn [andb].
  change (str_eqb EOF_MARKER EMPTY_CHANGE_CONTEXT_MARKER) with false.
  change (starts_with CHANGE_CONTEXT_MARKER EOF_MARKER) with false.
  change (strip_prefix CHANGE_CONTEXT_MARKER EOF_MARKER) with (@None str).
  change (str_eqb EOF_MARKER EOF_MARKER) with true. cbn [orb andb].
  rewrite last_snoc. cbn [is_some_and]. rewrite Hf.
  rewrite update_last_snoc. by rewrite set_last_in_update.
Qed.

Lemma run_chunk k hs path mv cs n c :
  wf_chunk c -> is_some_and (last cs) chunk_blank = false ->
  run_lines (in_update k hs path mv cs n) (print_chunk c)
  = Ok (in_update k hs path mv (cs ++ [c]) (n + length (print_chunk c))).
Proof.
  intros (Hf & _ & _ & Hctx) Hb. unfold print_chunk, print_chunk_body. cbn [run_lines].
  rewrite take_line_in_update, process_context by done. cbn [rbind].
  rewrite run_lines_app. unfold blank_chunk. rewrite run_removed. cbn [rbind].
  rewrite run_lines_app, run_added. cbn [rbind app].
  destruct c as [ctx o nw [|]]; cbn [is_end_of_file change_context old_lines new_lines run_lines].
  - rewrite take_line_in_update, process_eof by done.
    cbn [rbind]. do 2 f_equal. simpl. rewrite !length_app, !length_fmap. simpl. lia.
  - do 2 f_equal. simpl. rewrite !length_app, !length_fmap. simpl. lia.
Qed.

Lemma wf_chunk_closed cs c : wf_chunk c -> is_some_and (last (cs ++ [c])) chunk_blank = false.
Proof. intros [Hf _]. rewrite last_snoc. by apply chunk_blank_false. Qed.

Lemma run_chunks k hs path mv cs0 cs n :
  Forall wf_chunk cs -> is_some_and (last cs0) chunk_blank = false ->
  run_lines (in_update k hs path mv cs0 n) (print_chunks cs)
  = Ok (in_update k hs path mv (cs0 ++ cs) (n + length (print_chunks cs))).
Proof.
  intros Hwf. revert cs0 n. induction Hwf as [|c cs Hc _ IH]; intros cs0 n Hb.
  - simpl. by rewrite app_nil_r, Nat.add_0_r.
  - change (print_chunks (c :: cs)) with (print_chunk c ++ print_chunks cs).
    rewrite run_lines_app, run_chunk by done. cbn [rbind].
    rewrite IH by (by apply wf_chunk_closed). rewrite <- app_assoc, length_app.
    do 2 f_equal. lia.
Qed.

Lemma process_move k hs path n m :
  wf_name m ->
  process_line (in_update k hs path None [] n) (MOVE_TO_MARKER ++ m)
  = Ok (in_update k hs path (Some m) [] n).
Proof.
  intros Hm. unfold process_line. cbn [in_update at_mode state mode]. cbv zeta.
  rewrite trim_end_marker by done.
  replace (handle_hunk_headers_and_end_patch _ (MOVE_TO_MARKER ++ m))
    with (@Ok ParseError (option StreamingPatchParser) None).
  2:{ unfold handle_hunk_headers_and_end_patch.
      rewrite marker_ne_end by (vm_compute; (discriminate || lia)). done. }
  cbn [rbind]. open_update. cbn [is_nil is_none andb]. rewrite strip_prefix_app.
  by rewrite set_last_in_update.
Qed.

(** A printed hunk is appended to the hunks, and the next header is accepted. *)
Lemma run_hunk m hs n h :
  ready m hs -> wf_hunk h ->
  exists m' n', run_lines (at_mode m hs n) (print_hunk h) = Ok (at_mode m' (hs ++ [h]) n')
    /\ ready m' (hs ++ [h]).
Proof.
  intros Hr Hwf.
  assert (Hhd : exists body, print_hunk h = header_line h :: body) by (destruct h; by eexists).
  pose proof (process_hunk_header m hs (n + 1) h Hr Hwf) as Hstep.
  destruct h as [path contents|path|path mv cs].
  - destruct Hwf as (_ & _ & Hc). exists InAddFile, (n + 1 + length (lines contents)).
    split; [|unfold ready; by rewrite last_snoc].
    cbn [print_hunk run_lines]. change (take_line (at_mode m hs n)) with (at_mode m hs (n + 1)).
    cbn [header_line] in Hstep. rewrite Hstep. cbn [rbind header_hunk header_mode].
    rewrite run_add_body. cbn [app]. by rewrite <- Hc.
  - exists InDeleteFile, (n + 1). split; [|unfold ready; by rewrite last_snoc].
    cbn [print_hunk run_lines]. change (take_line (at_mode m hs n)) with (at_mode m hs (n + 1)).
    cbn [header_line] in Hstep. by rewrite Hstep.
  - destruct Hwf as (_ & Hm & Hne & Hcs).
    cbn [print_hunk run_lines]. change (take_line (at_mode m hs n)) with (at_mode m hs (n + 1)).
    cbn [header_line] in Hstep. rewrite Hstep. cbn [rbind header_hunk header_mode].
    change (at_mode (InUpdateFile (n + 1)) (hs ++ [UpdateFile path None []]) (n + 1))
      with (in_update (n + 1) hs path None [] (n + 1)).
    assert (Hready : forall k, ready (InUpdateFile k) (hs ++ [UpdateFile path mv cs])).
    { intros k. unfold ready. rewrite last_snoc. split_and!; try done.
      apply exists_last in Hne as (cs' & c & ->). apply Forall_app in Hcs as [_ Hc].
      inversion Hc. by apply wf_chunk_closed. }
    rewrite run_lines_app. destruct mv as [mv|]; cbn [print_move run_lines rbind].
    + rewrite take_line_in_update, process_move by done. cbn [rbind].
      rewrite run_chunks by done. eexists _, _. split; [reflexivity|apply Hready].
    + rewrite run_chunks by done. eexists _, _. split; [reflexivity|apply Hready].
Qed.

Lemma run_hunks m hs0 n hs :
  ready m hs0 -> Forall wf_hunk hs ->
  exists m' n', run_lines (at_mode m hs0 n) (print_hunks hs) = Ok (at_mode m' (hs0 ++ hs) n')
    /\ ready m' (hs0 ++ hs).
Proof.
  intros Hr Hwf. revert m hs0 n Hr. induction Hwf as [|h hs Hh _ IH]; intros m hs0 n Hr.
  - exists m, n. rewrite app_nil_r. done.
  - change (print_hunks (h :: hs)) with (print_hunk h ++ print_hunks hs).
    destruct (run_hunk m hs0 n h Hr Hh) as (m1 & n1 & Hrun & Hr1).
    destruct (IH m1 (hs0 ++ [h]) n1 Hr1) as (m2 & n2 & Hrun2 & Hr2).
    exists m2, n2. rewrite run_lines_app, Hrun. cbn [rbind]. rewrite Hrun2.
    by rewrite <- app_assoc in *.
Qed.

(** The whole printed patch, pushed at once and closed. *)
Lemma stream_print hs :
  Forall wf_hunk hs ->
  (finish (push_delta parser_default (print_patch hs)).1).2 = Ok hs
  /\ exists hs', (push_delta parser_default (print_patch hs)).2 = Ok hs'.
Proof.
  intros Hwf.
  destruct (run_hunks StartedPatch [] 1 hs) as (m & n & Hrun & Hr); [done..|].
  unfold print_patch. rewrite app_comm_cons, join_unlines.
  destruct (push_delta_lines parser_default (BEGIN_PATCH_MARKER :: print_hunks hs)
              (at_mode m hs n) END_PATCH_MARKER) as [Hb Hpush].
  { constructor; [apply (bool_decide_unpack _); by vm_compute|by apply print_hunks_ok]. }
  { done. }
  { cbn [run_lines]. exact Hrun. }
  rewrite Hpush, push_delta_no_break by (apply (bool_decide_unpack _); by vm_compute).
  cbn [fst snd]. split; [|by eexists]. unfold finish.
  cbn [line_buffer at_mode app state line_number]. change (is_nil END_PATCH_MARKER) with false.
  change (trim END_PATCH_MARKER) with END_PATCH_MARKER.
  change (str_eqb END_PATCH_MARKER END_PATCH_MARKER) with true. cbv iota beta zeta.
  change (take_line _) with (at_mode m hs (n + 1)). rewrite ensure_ready by done. done.
Qed.

(** C18: The two parsers agree on the printed grammar, whatever the chunking: a
    printed patch, cut into deltas anywhere, is accepted by the streaming parser
    delta by delta and [finish] returns exactly the hunks that [parse_patch]
    returns on the whole text. *)
Theorem streaming_agrees_with_batch (hs : list Hunk) (deltas : list str) :
  Forall wf_hunk hs -> concat deltas = print_patch hs ->
  (finish (push_deltas parser_default deltas).1).2 = Ok hs
  /\ (exists seen, (push_deltas parser_default deltas).2 = Ok seen)
  /\ (let? args := parse_patch (concat deltas) in Ok (args_hunks args)) = Ok hs.
Proof.
  intros Hwf E. rewrite push_deltas_push_delta, E. destruct (stream_print hs Hwf) as [? ?].
  split_and!; [done..|]. by rewrite (parse_of_print _ hs) by (done || apply print_patch_trim).
Qed.

Lemma streaming_agrees_with_batch_witness :
  (finish (push_deltas parser_default
     [take 30 (print_patch sample_hunks); drop 30 (print_patch sample_hunks)]).1).2
  = Ok sample_hunks.
Proof.
  apply streaming_agrees_with_batch; [exact sample_hunks_wf|].
  vm_compute. reflexivity.
Defined.
