(* ===== verification/PatchApply.v ===== *)
(** * From chunks to new file contents (apply-patch/src/lib.rs)

    [compute_replacements] locates every chunk in the file, [apply_replacements]
    performs the edits in place, last one first, and
    [derive_new_contents_from_chunks] turns text into text.  [Vec::insert] panics
    past the end and is modelled so.  The declarative reading of a sorted list of
    disjoint replacements is [splice]. *)

From stdpp Require Import sorting.
From S2P Require Import Prelude RustStr SeekSequence PatchParser.

(** The part of [std::io::Error] the program looks at. *)
Inductive ErrorKind := NotFound | InvalidInput | InvalidData | AlreadyExists | OtherKind.
Record io_error := mkIo { io_kind : ErrorKind; io_text : str }.

#[export] Instance ErrorKind_eq_dec : EqDecision ErrorKind.
Proof. solve_decision. Defined.
#[export] Instance io_error_eq_dec : EqDecision io_error.
Proof. solve_decision. Defined.

Inductive ApplyPatchError :=
| PatchParseError (e : ParseError)
| IoError (context : str) (source : io_error)
| ComputeReplacements (message : str)
| ImplicitInvocation.

(** [(start_index, old_len, new_lines)]. *)
Abbreviation replacement := (nat * nat * list str)%type.
Definition r_start (r : replacement) : nat := r.1.1.
Definition r_len (r : replacement) : nat := r.1.2.
Definition r_new (r : replacement) : list str := r.2.

Definition last_is_empty (l : list str) : bool := is_some_and (last l) is_nil.

(** [&l[..l.len() - 1]] of a list whose last element was just inspected. *)
Definition but_last {A} (l : list A) : list A := take (length l - 1) l.

(** [sort_by] on the start index: a stable sort. *)
Fixpoint insert_by_start (x : replacement) (l : list replacement) : list replacement :=
  match l with
  | [] => [x]
  | y :: l' => if r_start x <=? r_start y then x :: l else y :: insert_by_start x l'
  end.
Fixpoint sort_by_start (l : list replacement) : list replacement :=
  match l with
  | [] => []
  | x :: l' => insert_by_start x (sort_by_start l')
  end.

(** Where a chunk without old lines goes. *)
Definition insertion_idx (original_lines : list str) : nat :=
  if last_is_empty original_lines then length original_lines - 1 else length original_lines.

(** The retry without the trailing empty line. *)
Definition shorten (pattern new_slice : list str) : list str * list str :=
  (but_last pattern, if last_is_empty new_slice then but_last new_slice else new_slice).

(** The new [line_index] once the chunk's context line is found. *)
Definition find_context (original_lines : list str) (path : str) (chunk : UpdateFileChunk)
  (line_index : nat) : result ApplyPatchError nat :=
  match change_context chunk with
  | Some ctx_line =>
      let? found := seek_sequence original_lines [ctx_line] line_index false in
      match found with
      | Some idx => Ok (idx + 1)
      | None => Err (ComputeReplacements
          (L"Failed to find context '" ++ ctx_line ++ L"' in " ++ path))
      end
  | None => Ok line_index
  end.

(** The pattern, the new lines and the position tried for a chunk with old
    lines, the retry included. *)
Definition locate (original_lines : list str) (chunk : UpdateFileChunk) (line_index : nat)
  : result ApplyPatchError (list str * list str * option nat) :=
  let? found := seek_sequence original_lines (old_lines chunk) line_index
                  (is_end_of_file chunk) in
  if is_none found && last_is_empty (old_lines chunk) then
    let '(pattern, new_slice) := shorten (old_lines chunk) (new_lines chunk) in
    let? found := seek_sequence original_lines pattern line_index (is_end_of_file chunk) in
    Ok (pattern, new_slice, found)
  else Ok (old_lines chunk, new_lines chunk, found).

Fixpoint replacements_loop (original_lines : list str) (path : str)
  (chunks : list UpdateFileChunk) (line_index : nat) (replacements : list replacement)
  : result ApplyPatchError (list replacement) :=
  match chunks with
  | [] => Ok replacements
  | chunk :: rest =>
      let? line_index := find_context original_lines path chunk line_index in
      if is_nil (old_lines chunk) then
        replacements_loop original_lines path rest line_index
          (replacements ++ [(insertion_idx original_lines, 0, new_lines chunk)])
      else
        let? (pattern, new_slice, found) := locate original_lines chunk line_index in
        match found with
        | Some start_idx =>
            replacements_loop original_lines path rest (start_idx + length pattern)
              (replacements ++ [(start_idx, length pattern, new_slice)])
        | None => Err (ComputeReplacements
            (L"Failed to find expected lines in " ++ path ++ L":" ++ [LF]
             ++ join [LF] (old_lines chunk)))
        end
  end.

Definition compute_replacements (original_lines : list str) (path : str)
  (chunks : list UpdateFileChunk) : result ApplyPatchError (list replacement) :=
  let? replacements := replacements_loop original_lines path chunks 0 [] in
  Ok (sort_by_start replacements).

(** [Vec::remove] (its index was checked) and [Vec::insert]. *)
Definition vec_remove {A} (l : list A) (i : nat) : list A := take i l ++ drop (S i) l.
Definition vec_insert {E A} (l : list A) (i : nat) (x : A) : result E (list A) :=
  if i <=? length l then Ok (take i l ++ x :: drop i l) else Panic.

Fixpoint remove_loop {A} (count start_idx : nat) (lines : list A) : list A :=
  match count with
  | 0 => lines
  | S count' =>
      remove_loop count' start_idx
        (if start_idx <? length lines then vec_remove lines start_idx else lines)
  end.

Fixpoint insert_loop {E A} (new_segment : list A) (index : nat) (lines : list A)
  : result E (list A) :=
  match new_segment with
  | [] => Ok lines
  | new_line :: rest =>
      let? lines := vec_insert lines index new_line in
      insert_loop rest (S index) lines
  end.

Fixpoint apply_rev {E} (lines : list str) (rev_replacements : list replacement)
  : result E (list str) :=
  match rev_replacements with
  | [] => Ok lines
  | (start_idx, old_len, new_segment) :: rest =>
      let? lines := insert_loop new_segment start_idx (remove_loop old_len start_idx lines) in
      apply_rev lines rest
  end.

Definition apply_replacements {E} (lines : list str) (replacements : list replacement)
  : result E (list str) := apply_rev lines (reverse replacements).

(** The lines of the file: [split('\n')] without the empty piece after a final
    newline. *)
Definition original_lines_of (contents : str) : list str :=
  let ls := split_char LF contents in
  if last_is_empty ls then but_last ls else ls.

(** [derive_new_contents_from_chunks], past the reading of the file. *)
Definition new_contents_from_chunks (path original_contents : str)
  (chunks : list UpdateFileChunk) : result ApplyPatchError str :=
  let original_lines := original_lines_of original_contents in
  let? replacements := compute_replacements original_lines path chunks in
  let? new_lines := apply_replacements original_lines replacements in
  let new_lines := if last_is_empty new_lines then new_lines else new_lines ++ [[]] in
  Ok (join [LF] new_lines).

(** ** Specification *)

(** Replace, in one pass from position [pos], each designated slice. *)
Fixpoint splice (pos : nat) (lines : list str) (rs : list replacement) : list str :=
  match rs with
  | [] => drop pos lines
  | (start, len, new) :: rs' =>
      take (start - pos) (drop pos lines) ++ new ++ splice (start + len) lines rs'
  end.

(** [x] ends before [y] begins. *)
Definition before (x y : replacement) : Prop := r_start x + r_len x <= r_start y.

(** What [compute_replacements] may choose for a chunk: its new lines at the
    insertion point, or its new lines in place of an occurrence of its old
    lines, where both may have lost a trailing empty line. *)
Definition realises (lines : list str) (c : UpdateFileChunk) (r : replacement) : Prop :=
  r_start r + r_len r <= length lines
  /\ ((old_lines c = [] /\ r = (insertion_idx lines, 0, new_lines c))
      \/ (old_lines c <> [] /\ exists pattern,
            ((pattern = old_lines c /\ r_new r = new_lines c)
             \/ (old_lines c = pattern ++ [[]]
                 /\ r_new r = (shorten (old_lines c) (new_lines c)).2))
            /\ r_len r = length pattern
            /\ (pattern <> [] -> occurs normalise lines pattern (r_start r)))).

(** ** The in-place edits *)

Lemma take_add {A} (l : list A) a b : take (a + b) l = take a l ++ take b (drop a l).
Proof.
  revert l. induction a as [|a IH]; intros l; [done|]. destruct l as [|x l]; simpl.
  - by rewrite take_nil.
  - by rewrite IH.
Qed.

Lemma remove_loop_eq {A} n s (l : list A) :
  s <= length l -> remove_loop n s l = take s l ++ drop (s + n) l.
Proof.
  revert l. induction n as [|n IH]; intros l Hs; simpl.
  - by rewrite Nat.add_0_r, take_drop.
  - destruct (Nat.ltb_spec s (length l)).
    + unfold vec_remove. rewrite IH.
      2:{ rewrite length_app, length_take, length_drop. lia. }
      rewrite take_app_le by (rewrite length_take; lia). rewrite take_take, Nat.min_id.
      f_equal. rewrite drop_app_ge by (rewrite length_take; lia).
      rewrite length_take, drop_drop. f_equal. lia.
    + rewrite IH by done. rewrite !drop_ge by lia. done.
Qed.

Lemma insert_loop_eq {E A} (seg : list A) i l :
  i <= length l -> insert_loop (E:=E) seg i l = Ok (take i l ++ seg ++ drop i l).
Proof.
  revert i l. induction seg as [|x seg IH]; intros i l Hi; simpl.
  - by rewrite take_drop.
  - unfold vec_insert. rewrite (proj2 (Nat.leb_le _ _)) by done. simpl.
    assert (Hlen : length (take i l) = i) by (rewrite length_take; lia).
    rewrite IH by (rewrite length_app; simpl; lia). f_equal.
    rewrite take_app_ge, drop_app_ge by lia. rewrite Hlen.
    replace (S i - i) with 1 by lia. simpl. by rewrite <- app_assoc.
Qed.

Lemma apply_step {E} s n (seg l : list str) :
  s <= length l ->
  insert_loop (E:=E) seg s (remove_loop n s l) = Ok (take s l ++ seg ++ drop (s + n) l).
Proof.
  intros Hs. rewrite remove_loop_eq by done.
  assert (Hlen : length (take s l) = s) by (rewrite length_take; lia).
  rewrite insert_loop_eq by (rewrite length_app; lia).
  rewrite take_app_le by lia. rewrite take_take, Nat.min_id.
  rewrite drop_app_ge by lia. rewrite Hlen, Nat.sub_diag. done.
Qed.

Lemma apply_rev_app {E} l rs1 rs2 :
  apply_rev (E:=E) l (rs1 ++ rs2) = (let? l' := apply_rev l rs1 in apply_rev l' rs2).
Proof.
  revert l. induction rs1 as [|[[s n] seg] rs1 IH]; intros l; [done|].
  cbn [app apply_rev]. destruct (insert_loop _ _ _); simpl; auto.
Qed.

(** Descending start indices within the file never panic. *)
Lemma apply_rev_no_panic {E} l rs :
  StronglySorted (fun x y => r_start y <= r_start x) rs ->
  Forall (fun r => r_start r <= length l) rs ->
  exists l', apply_rev (E:=E) l rs = Ok l'.
Proof.
  intros Hs. revert l. induction Hs as [|[[s n] seg] rs _ IH Hhd]; intros l Hb; [by eexists|].
  inversion Hb as [|?? Hr Hrs]; subst. unfold r_start in *. simpl in *.
  rewrite apply_step by done. simpl. apply IH.
  eapply Forall_impl; [exact Hhd|]. simpl. intros r Hle.
  rewrite !length_app, length_take. lia.
Qed.

Lemma splice_from lines rs pos k :
  pos <= k <= length lines -> Forall (fun r => k <= r_start r) rs ->
  splice pos lines rs = take (k - pos) (drop pos lines) ++ splice k lines rs.
Proof.
  intros Hk Hrs. destruct rs as [|[[s n] seg] rs]; simpl.
  - replace (drop k lines) with (drop (k - pos) (drop pos lines)).
    + by rewrite take_drop.
    + rewrite drop_drop. f_equal. lia.
  - inversion Hrs as [|?? Hs _]; subst. unfold r_start in Hs. simpl in Hs.
    replace (s - pos) with ((k - pos) + (s - k)) by lia. rewrite take_add.
    rewrite drop_drop. replace (pos + (k - pos)) with k by lia.
    by rewrite <- app_assoc.
Qed.

(** Applying sorted disjoint replacements from the back is the one-pass splice. *)
Lemma apply_replacements_splice {E} lines rs :
  StronglySorted before rs -> Forall (fun r => r_start r + r_len r <= length lines) rs ->
  apply_replacements (E:=E) lines rs = Ok (splice 0 lines rs).
Proof.
  unfold apply_replacements. intros Hs Hb.
  induction Hs as [|[[s n] seg] rs _ IH Hhd]; [done|].
  inversion Hb as [|?? Hr Hrs]; subst. unfold before, r_start, r_len in *. simpl in *.
  rewrite reverse_cons, apply_rev_app, IH by done. cbn [rbind apply_rev].
  rewrite (splice_from lines rs 0 (s + n)) by (done || lia).
  rewrite Nat.sub_0_r, drop_0.
  assert (Hlen : length (take (s + n) lines) = s + n) by (rewrite length_take; lia).
  rewrite apply_step by (rewrite length_app; lia). simpl.
  rewrite Nat.sub_0_r. rewrite take_app_le by lia. rewrite take_take, Nat.min_l by lia.
  rewrite drop_app_ge by lia. by rewrite Hlen, Nat.sub_diag.
Qed.

(** ** Sorting *)

Lemma insert_by_start_perm x l : insert_by_start x l ≡ₚ x :: l.
Proof.
  induction l as [|y l IH]; simpl; [done|]. destruct (r_start x <=? r_start y); [done|].
  rewrite IH. apply Permutation_swap.
Qed.

Lemma sort_by_start_perm l : sort_by_start l ≡ₚ l.
Proof. induction l as [|x l IH]; simpl; [done|]. by rewrite insert_by_start_perm, IH. Qed.

Lemma sort_by_start_sorted l :
  StronglySorted (fun x y => r_start x <= r_start y) (sort_by_start l).
Proof.
  assert (Hins : forall x l, StronglySorted (fun x y => r_start x <= r_start y) l ->
    StronglySorted (fun x y => r_start x <= r_start y) (insert_by_start x l)).
  { clear l. intros x l. induction 1 as [|y l Hl IH Hhd]; simpl; [by repeat constructor|].
    destruct (Nat.leb_spec (r_start x) (r_start y)).
    - constructor; [by constructor|]. constructor; [done|].
      eapply Forall_impl; [exact Hhd|]. simpl. lia.
    - constructor; [done|]. rewrite insert_by_start_perm. constructor; [lia|done]. }
  induction l as [|x l IH]; simpl; [constructor|auto].
Qed.

(** Of two entries, the earlier one lies before the later one, or it is an
    insertion that lies after it. *)
Definition compat (x y : replacement) : Prop := before x y \/ (r_len x = 0 /\ before y x).

Lemma sort_by_start_before l : ForallOrdPairs compat l -> StronglySorted before (sort_by_start l).
Proof.
  induction 1 as [|x l Hx Hl IH]; simpl; [constructor|].
  assert (Hx' : Forall (compat x) (sort_by_start l)) by (by rewrite sort_by_start_perm).
  clear Hx Hl. induction IH as [|y k Hk IHk Hhd]; simpl; [by repeat constructor|].
  inversion Hx' as [|?? Hxy Hxk]; subst. unfold compat, before in *.
  destruct (Nat.leb_spec (r_start x) (r_start y)).
  - constructor; [by constructor|]. constructor; [lia|].
    rewrite Forall_forall in *. intros z Hz. specialize (Hhd z Hz). specialize (Hxk z Hz). lia.
  - constructor; [by apply IHk|]. rewrite insert_by_start_perm. constructor; [lia|done].
Qed.

Lemma ForallOrdPairs_snoc {A} (R : A -> A -> Prop) l y :
  ForallOrdPairs R l -> Forall (fun x => R x y) l -> ForallOrdPairs R (l ++ [y]).
Proof.
  induction 1 as [|x l Hx _ IH]; simpl; intros Hy; [by repeat constructor|].
  inversion Hy; subst. constructor; [|by apply IH].
  apply Forall_app. split; [done|]. by repeat constructor.
Qed.

Lemma StronglySorted_reverse {A} (R : A -> A -> Prop) (l : list A) :
  StronglySorted R l -> StronglySorted (fun x y => R y x) (reverse l).
Proof.
  induction 1 as [|x l Hl IH Hx]; [constructor|]. rewrite reverse_cons.
  clear Hl. revert IH. apply Forall_reverse in Hx. generalize dependent (reverse l).
  intros k Hk. induction 1 as [|y k Hk' IH Hy]; simpl; [by repeat constructor|].
  inversion Hk; subst. constructor; [by apply IH|].
  apply Forall_app. split; [done|]. by repeat constructor.
Qed.

(** ** Locating the chunks *)

(** Chunks for which the positions advance: not anchored at the end of the file,
    and a pure addition only when the file does not end in an empty line. *)
Definition in_order (lines : list str) (c : UpdateFileChunk) : Prop :=
  is_end_of_file c = false /\ (old_lines c = [] -> last_is_empty lines = false).

#[export] Instance in_order_dec lines c : Decision (in_order lines c).
Proof. unfold in_order. apply _. Defined.

(** The replacements so far lie before the current index or insert at the end. *)
Definition ordered (lines : list str) (line_index : nat) (acc : list replacement) : Prop :=
  ForallOrdPairs compat acc
  /\ Forall (fun x => r_start x + r_len x <= line_index
                      \/ (r_len x = 0 /\ r_start x = length lines)) acc.

Lemma ordered_mono lines i j acc : ordered lines i acc -> i <= j -> ordered lines j acc.
Proof.
  intros [H1 H2] Hij. split; [done|]. eapply Forall_impl; [exact H2|]. simpl. lia.
Qed.

Lemma ordered_match lines i acc r :
  ordered lines i acc -> i <= r_start r -> r_start r + r_len r <= length lines ->
  ordered lines (r_start r + r_len r) (acc ++ [r]).
Proof.
  intros [H1 H2] Hi Hr. split.
  - apply ForallOrdPairs_snoc; [done|]. eapply Forall_impl; [exact H2|].
    unfold compat, before. simpl. lia.
  - apply Forall_app. split; [eapply Forall_impl; [exact H2|]; simpl; lia|].
    constructor; [lia|done].
Qed.

Lemma ordered_insert lines i acc new :
  ordered lines i acc -> i <= length lines ->
  ordered lines i (acc ++ [(length lines, 0, new)]).
Proof.
  intros [H1 H2] Hi. split.
  - apply ForallOrdPairs_snoc; [done|]. eapply Forall_impl; [exact H2|].
    unfold compat, before, r_start, r_len. simpl. lia.
  - apply Forall_app. split; [done|]. constructor; [by right|done].
Qed.

Lemma last_is_empty_snoc l : last_is_empty l = true -> exists l', l = l' ++ [[]].
Proof.
  unfold last_is_empty. destruct (last l) as [[|]|] eqn:E; try done. intros _.
  by apply last_Some in E.
Qed.

Lemma but_last_snoc {A} (l : list A) x : but_last (l ++ [x]) = l.
Proof.
  unfold but_last. rewrite length_app. simpl.
  replace (length l + 1 - 1) with (length l) by lia. apply take_app_length.
Qed.

Lemma insertion_idx_le lines : insertion_idx lines <= length lines.
Proof. unfold insertion_idx. destruct (last_is_empty lines); lia. Qed.

Lemma seek_total {E} lines pattern i eof :
  exists o, seek_sequence (E:=E) lines pattern i eof = Ok o.
Proof.
  destruct (decide (pattern = [])) as [->|Hne]; [by eexists|].
  destruct (seek_sequence_cases (E:=E) lines pattern i eof Hne) as [(? & ? & ? & _)|[? _]]; eauto.
Qed.

Lemma locate_spec lines chunk i :
  i <= length lines -> old_lines chunk <> [] ->
  exists pattern new_slice found, locate lines chunk i = Ok (pattern, new_slice, found)
    /\ forall s, found = Some s ->
         realises lines chunk (s, length pattern, new_slice)
         /\ s + length pattern <= length lines
         /\ (is_end_of_file chunk = false -> i <= s).
Proof.
  intros Hi Hne. unfold locate.
  assert (Hb : forall pattern s, seek_sequence (E:=ApplyPatchError) lines pattern i
            (is_end_of_file chunk) = Ok (Some s) ->
          s + length pattern <= length lines /\ (is_end_of_file chunk = false -> i <= s)
          /\ (pattern <> [] -> occurs normalise lines pattern s)).
  { intros pattern s Hs. apply seek_sequence_bounds in Hs as [[-> ->]|(? & ? & ? & ?)].
    - simpl. split_and!; [lia|lia|done].
    - done. }
  destruct (seek_total (E:=ApplyPatchError) lines (old_lines chunk) i (is_end_of_file chunk))
    as [found Hf]. rewrite Hf. cbn [rbind].
  destruct (is_none found && last_is_empty (old_lines chunk)) eqn:Eretry.
  - apply andb_true_iff in Eretry as [_ Hlast].
    apply last_is_empty_snoc in Hlast as [pattern Hp].
    assert (Hsh : (shorten (old_lines chunk) (new_lines chunk)).1 = pattern).
    { simpl. rewrite Hp. apply but_last_snoc. }
    destruct (shorten (old_lines chunk) (new_lines chunk)) as [pat new_slice] eqn:Es.
    simpl in Hsh. subst pat.
    destruct (seek_total (E:=ApplyPatchError) lines pattern i (is_end_of_file chunk))
      as [found' Hf']. rewrite Hf'. cbn [rbind]. eexists _, _, _. split; [done|].
    intros s ->. destruct (Hb _ _ Hf') as (? & ? & ?). split_and!; [|done..].
    split; [done|]. right. split; [done|]. exists pattern. split_and!; [right|done..].
    split; [done|]. by rewrite Es.
  - eexists _, _, _. split; [done|]. intros s ->. destruct (Hb _ _ Hf) as (? & ? & ?).
    split_and!; [|done..]. split; [done|]. right. split; [done|]. eexists. split_and!; [by left|done..].
Qed.

Lemma find_context_yields lines path chunk i :
  i <= length lines ->
  yields (fun j => i <= j <= length lines) (fun e => exists m, e = ComputeReplacements m)
    (find_context lines path chunk i).
Proof.
  intros Hi. unfold find_context. destruct (change_context chunk) as [ctx|]; [|simpl; lia].
  destruct (seek_total (E:=ApplyPatchError) lines [ctx] i false) as [[idx|] Hf];
    rewrite Hf; cbn [rbind]; [|by eexists].
  apply seek_sequence_bounds in Hf as [[? _]|(_ & ? & ? & _)]; [done|].
  simpl in *. lia.
Qed.

Lemma replacements_loop_yields lines path chunks i done_chunks acc :
  i <= length lines -> Forall2 (realises lines) done_chunks acc ->
  yields (fun rs => Forall2 (realises lines) (done_chunks ++ chunks) rs
            /\ (Forall (in_order lines) chunks -> ordered lines i acc ->
                exists j, ordered lines j rs))
    (fun e => exists m, e = ComputeReplacements m) (replacements_loop lines path chunks i acc).
Proof.
  revert i done_chunks acc. induction chunks as [|c chunks IH]; intros i ds acc Hi Hacc.
  - simpl. rewrite app_nil_r. eauto.
  - cbn [replacements_loop].
    eapply yields_bind; [by apply find_context_yields|]. intros j Hj. simpl in Hj.
    rewrite (cons_middle c ds chunks), app_assoc.
    destruct (is_nil (old_lines c)) eqn:En.
    + apply is_nil_true in En. eapply yields_weaken; [eapply IH with (done_chunks := ds ++ [c])| |done].
      * lia.
      * apply Forall2_app; [done|]. constructor; [|done]. split; [|by left].
        unfold r_start, r_len. simpl. pose proof (insertion_idx_le lines). lia.
      * intros rs [Hrs Hord]. split; [done|]. intros Hio Ho.
        inversion Hio as [|?? [_ Hc] Hcs]; subst. apply Hord; [done|].
        unfold insertion_idx. rewrite Hc by done.
        apply ordered_insert; [by eapply ordered_mono; [|apply Hj]|lia].
    + apply is_nil_false in En.
      destruct (locate_spec lines c j ltac:(lia) En) as (pat & new & found & -> & Hf).
      cbn [rbind]. destruct found as [s|]; [|by eexists].
      destruct (Hf s eq_refl) as (Hreal & Hb & Hle).
      eapply yields_weaken; [eapply IH with (done_chunks := ds ++ [c])| |done]; [done|..].
      * apply Forall2_app; [done|]. by constructor.
      * intros rs [Hrs Hord]. split; [done|]. intros Hio Ho.
        inversion Hio as [|?? [Heof _] Hcs]; subst. apply Hord; [done|].
        apply (ordered_match lines j acc (s, length pat, new)).
        -- by eapply ordered_mono; [|apply Hj].
        -- by apply Hle.
        -- done.
Qed.

Lemma realises_bound lines chunks rs :
  Forall2 (realises lines) chunks rs -> Forall (fun r => r_start r + r_len r <= length lines) rs.
Proof. induction 1 as [|c r cs rs [Hr _] _ IH]; by constructor. Qed.

(** Everything [compute_replacements] guarantees. *)
Lemma compute_replacements_yields lines path chunks :
  yields (fun rs => exists rs0, Forall2 (realises lines) chunks rs0 /\ rs ≡ₚ rs0
            /\ Forall (fun r => r_start r + r_len r <= length lines) rs
            /\ StronglySorted (fun x y => r_start x <= r_start y) rs
            /\ (Forall (in_order lines) chunks -> StronglySorted before rs))
    (fun e => exists m, e = ComputeReplacements m) (compute_replacements lines path chunks).
Proof.
  unfold compute_replacements. eapply yields_bind.
  { apply (replacements_loop_yields lines path chunks 0 []); [lia|constructor]. }
  intros rs0 [Hrs Hord]. simpl in Hrs |- *. exists rs0. split_and!.
  - done.
  - apply sort_by_start_perm.
  - rewrite sort_by_start_perm. by eapply realises_bound.
  - apply sort_by_start_sorted.
  - intros Hio. apply sort_by_start_before.
    destruct (Hord Hio) as [j [H _]]; [by repeat constructor|done].
Qed.

Lemma apply_replacements_settles {E} lines rs :
  StronglySorted (fun x y => r_start x <= r_start y) rs ->
  Forall (fun r => r_start r + r_len r <= length lines) rs ->
  exists l', apply_replacements (E:=E) lines rs = Ok l'.
Proof.
  intros Hs Hb. apply apply_rev_no_panic.
  - apply (StronglySorted_reverse _ _ Hs).
  - apply Forall_reverse. eapply Forall_impl; [exact Hb|]. simpl. lia.
Qed.

(** ** Properties *)

Lemma new_contents_yields (path original : str) (chunks : list UpdateFileChunk) :
  yields (fun text => text = [] \/ ends_with [LF] text = true)
    (fun e => exists message, e = ComputeReplacements message)
    (new_contents_from_chunks path original chunks).
Proof.
  unfold new_contents_from_chunks. cbv zeta.
  eapply yields_bind; [apply compute_replacements_yields|].
  intros rs (rs0 & _ & _ & Hb & Hs & _).
  destruct (apply_replacements_settles (E:=ApplyPatchError) _ rs Hs Hb) as [l' ->]. cbn [rbind].
  unfold yields. destruct (last_is_empty l') eqn:El.
  - apply last_is_empty_snoc in El as [k ->]. rewrite join_unlines, app_nil_r. apply unlines_ends.
  - rewrite join_unlines, app_nil_r. apply unlines_ends.
Qed.

(** Updating a file never panics, on any text and any chunks (overlapping
    ones included): it fails only with a [ComputeReplacements] error, and the
    text it produces is empty or ends with a newline. *)
Theorem new_contents_total (path original : str) (chunks : list UpdateFileChunk) :
  yields (fun text => text = [] \/ ends_with [LF] text = true)
    (fun e => exists message, e = ComputeReplacements message)
    (new_contents_from_chunks path original chunks).
Proof. apply new_contents_yields. Qed.

(** The final newline is restored. *)
Definition with_final_newline (ls : list str) : list str :=
  if last_is_empty ls then ls else ls ++ [[]].

(** C5: Refinement of the in-place edits: when the chunks advance through the
    file ([in_order]), a successful update gives exactly the original lines with
    one disjoint slice per chunk replaced, in file order: each slice is an
    occurrence of the chunk's old lines (up to the four comparisons and a
    trailing empty line) or the insertion point, and every other line is kept. *)
Theorem update_refines_splice (path original text : str) (chunks : list UpdateFileChunk) :
  Forall (in_order (original_lines_of original)) chunks ->
  new_contents_from_chunks path original chunks = Ok text ->
  exists rs0 rs, Forall2 (realises (original_lines_of original)) chunks rs0 /\ rs ≡ₚ rs0
    /\ StronglySorted before rs
    /\ text = join [LF] (with_final_newline (splice 0 (original_lines_of original) rs)).
Proof.
  intros Hio H. unfold new_contents_from_chunks in H. cbv zeta in H.
  pose proof (compute_replacements_yields (original_lines_of original) path chunks) as Hy.
  destruct (compute_replacements _ _ _) as [rs| | |]; try done. cbn [rbind] in H.
  destruct Hy as (rs0 & Hreal & Hperm & Hb & _ & Hsort). specialize (Hsort Hio).
  rewrite apply_replacements_splice in H by done. injection H as <-. by exists rs0, rs.
Qed.

Definition sample_file : str := unlines [L"one"; L"two"; L"three"; L"four"].
Definition sample_chunks : list UpdateFileChunk :=
  [ mkChunk (Some (L"one")) [L"two "] [L"2"; L"2b"] false;
    mkChunk None [] [L"five"] false;
    mkChunk None [L"four"] [] false ].

Lemma update_refines_splice_witness :
  exists rs0 rs, Forall2 (realises (original_lines_of sample_file)) sample_chunks rs0 /\ rs ≡ₚ rs0
    /\ StronglySorted before rs
    /\ unlines [L"one"; L"2"; L"2b"; L"three"; L"five"]
       = join [LF] (with_final_newline (splice 0 (original_lines_of sample_file) rs)).
Proof.
  apply (update_refines_splice (L"f") sample_file).
  - apply (bool_decide_unpack _). vm_compute. exact I.
  - vm_compute. reflexivity.
Defined.

(** Outside that condition lines can get lost: when the file ends in an
    empty line, a chunk that rewrites the end of the file followed by a pure
    addition drops the added line [x], since the addition is applied first, at an
    index inside the region that is removed afterwards. *)
Theorem addition_inside_replaced_region_is_lost (path a b x : str) :
  LF ∉ a ->
  new_contents_from_chunks path (a ++ [LF; LF])
    [mkChunk None [a; []] [b] false; mkChunk None [] [x] false] = Ok (b ++ [LF]).
Proof.
  intros Ha. unfold new_contents_from_chunks.
  assert (E : original_lines_of (a ++ [LF; LF]) = [a; []]).
  { unfold original_lines_of. rewrite split_char_app by done. reflexivity. }
  rewrite E. unfold compute_replacements. cbn [replacements_loop find_context change_context rbind
    old_lines is_nil]. unfold locate. cbn [old_lines is_end_of_file new_lines].
  assert (Hseek : seek_sequence (E:=ApplyPatchError) [a; []] [a; []] 0 false = Ok (Some 0)).
  { unfold seek_sequence. cbn. by rewrite bool_decide_eq_true_2. }
  rewrite Hseek. reflexivity.
Qed.

Lemma addition_lost_witness :
  new_contents_from_chunks (L"f") (L"a" ++ [LF; LF])
    [mkChunk None [L"a"; []] [L"b"] false; mkChunk None [] [L"x"] false] = Ok (L"b" ++ [LF]).
Proof.
  apply addition_inside_replaced_region_is_lost.
  apply (bool_decide_unpack _). vm_compute. exact I.
Defined.
