(* ===== verification/AbsolutePath.v ===== *)
(** * Absolute paths (utils/absolute-path/src)

    [std::path] on Unix and the lexical normalisation of [AbsolutePathBuf].  Two
    paths are equal when their components are, so a [PathBuf] built by pushing
    components is modelled by the list of its components.  The home directory
    comes from the [dirs] crate and the current directory from the operating
    system: both are arguments. *)

From S2P Require Import Prelude RustStr.

Definition SLASH : char := 47%N.
Definition TILDE : char := 126%N.
Definition DOT : str := [46%N].
Definition DOTDOT : str := [46%N; 46%N].

Inductive Component :=
| RootDir
| CurDir
| ParentDir
| Normal (name : str).

#[export] Instance Component_eq_dec : EqDecision Component.
Proof. solve_decision. Defined.
#[export] Instance Component_countable : Countable Component.
Proof.
  refine (inj_countable'
    (fun c => match c with RootDir => inl 0 | CurDir => inl 1 | ParentDir => inl 2
                         | Normal s => inr s end : nat + str)
    (fun x => match x with inl 0 => RootDir | inl 1 => CurDir | inl _ => ParentDir
                         | inr s => Normal s end) _).
  by intros [].
Defined.

(** [Path::has_root], which on Unix is [Path::is_absolute]. *)
Definition is_absolute (p : str) : bool := starts_with [SLASH] p.

Definition component_of (piece : str) : Component :=
  if bool_decide (piece = DOT) then CurDir
  else if bool_decide (piece = DOTDOT) then ParentDir
  else Normal piece.

(** [Path::components]: repeated separators and inner dots disappear; a leading
    dot of a relative path is kept. *)
Definition drop_dots (cs : list Component) : list Component :=
  filter (fun c => c <> CurDir) cs.
Definition components (p : str) : list Component :=
  let cs := component_of <$> filter (fun s => s <> []) (split_char SLASH p) in
  if is_absolute p then RootDir :: drop_dots cs
  else match cs with
       | [] => []
       | c :: cs' => c :: drop_dots cs'
       end.

(** [Path::join] on the text of the paths. *)
Definition path_join (base path : str) : str :=
  if is_absolute path then path
  else if is_nil base || ends_with [SLASH] base then base ++ path
  else base ++ [SLASH] ++ path.

Definition path_with_base (path base_path : str) : str :=
  if is_absolute path then path else path_join base_path path.

(** [PathBuf::push] of one component and [PathBuf::pop]. *)
Definition path_push (buf : list Component) (c : Component) : list Component :=
  match c with RootDir => [RootDir] | _ => buf ++ [c] end.
Definition path_pop (buf : list Component) : list Component :=
  match last buf with
  | None | Some RootDir => buf
  | Some _ => take (length buf - 1) buf
  end.

Definition normalize_step (normalized : list Component) (c : Component) : list Component :=
  match c with
  | CurDir => normalized
  | ParentDir => path_pop normalized
  | RootDir | Normal _ => path_push normalized c
  end.

Definition normalize_path (path : str) : list Component :=
  let normalized := foldl normalize_step [] (components path) in
  if is_nil normalized then [CurDir] else normalized.

Definition absolutize_from (path base_path : str) : list Component :=
  normalize_path (path_with_base path base_path).

(** [maybe_expand_home_directory] with the result of [home_dir()]. *)
Definition maybe_expand_home_directory (home : option str) (path : str) : str :=
  match home, strip_prefix [TILDE] path with
  | Some home, Some rest =>
      if is_nil rest then home
      else match strip_prefix [SLASH] rest with
           | Some rest => path_join home (trim_start_matches (N.eqb SLASH) rest)
           | None => path
           end
  | _, _ => path
  end.

(** The components of an [AbsolutePathBuf]. *)
Abbreviation AbsolutePathBuf := (list Component) (only parsing).

Definition resolve_path_against_base (home : option str) (path base_path : str) : AbsolutePathBuf :=
  absolutize_from (maybe_expand_home_directory home path) base_path.

(** [from_absolute_path] with the result of [current_dir()]; [None] is the error
    of [current_dir]. *)
Definition from_absolute_path (home cwd : option str) (path : str) : option AbsolutePathBuf :=
  let expanded := maybe_expand_home_directory home path in
  if is_absolute expanded then Some (normalize_path expanded)
  else match cwd with
       | Some cwd => Some (absolutize_from expanded cwd)
       | None => None
       end.

(** [Path::parent] and [Path::file_name]. *)
Definition path_parent (p : list Component) : option (list Component) :=
  match last p with
  | None | Some RootDir => None
  | Some _ => Some (take (length p - 1) p)
  end.
Definition file_name (p : list Component) : option str :=
  match last p with Some (Normal s) => Some s | _ => None end.

(** Text of a path built from components ([Path::display]). *)
Definition component_text (c : Component) : str :=
  match c with RootDir => [] | CurDir => DOT | ParentDir => DOTDOT | Normal s => s end.
Definition display (p : list Component) : str :=
  match p with
  | [RootDir] => [SLASH]
  | _ => join [SLASH] (component_text <$> p)
  end.

(** ** Normal forms *)

Definition is_normal (c : Component) : Prop := match c with Normal _ => True | _ => False end.

(** An absolute, normalised path: the root followed by names only. *)
Definition absolute_normal (p : list Component) : Prop :=
  exists names, p = RootDir :: (Normal <$> names).

#[export] Instance is_normal_dec c : Decision (is_normal c).
Proof. destruct c; simpl; apply _. Defined.

Lemma path_pop_absolute names :
  path_pop (RootDir :: (Normal <$> names))
  = RootDir :: (Normal <$> take (length names - 1) names).
Proof.
  destruct (decide (names = [])) as [->|Hne]; [done|].
  apply exists_last in Hne as (l & x & ->). unfold path_pop.
  rewrite fmap_app. csimpl. rewrite app_comm_cons, last_snoc. cbn [app].
  cbn [length]. rewrite !length_app, length_fmap. simpl length.
  replace (length l + 1 - 1) with (length l) by lia. rewrite take_app_length.
  change (RootDir :: (Normal <$> l) ++ [Normal x]) with ((RootDir :: (Normal <$> l)) ++ [Normal x]).
  apply take_app_length'. simpl. rewrite length_fmap. lia.
Qed.

Lemma normalize_step_absolute p c : absolute_normal p -> absolute_normal (normalize_step p c).
Proof.
  intros [names ->]. destruct c as [| | |s]; simpl.
  - by exists [].
  - by exists names.
  - rewrite path_pop_absolute. by eexists.
  - exists (names ++ [s]). by rewrite fmap_app.
Qed.

Lemma foldl_normalize_absolute p cs :
  absolute_normal p -> absolute_normal (foldl normalize_step p cs).
Proof. revert p. induction cs as [|c cs IH]; intros p Hp; simpl; [done|]. by apply IH, normalize_step_absolute. Qed.

Lemma components_absolute p : is_absolute p = true -> exists cs, components p = RootDir :: cs.
Proof. unfold components. intros ->. by eexists. Qed.

Lemma normalize_path_absolute p : is_absolute p = true -> absolute_normal (normalize_path p).
Proof.
  intros Hp. unfold normalize_path. destruct (components_absolute p Hp) as [cs ->]. simpl.
  destruct (foldl_normalize_absolute [RootDir] cs) as [names ->]; [by exists []|].
  simpl. by exists names.
Qed.

Lemma is_absolute_head p : is_absolute p = true <-> head p = Some SLASH.
Proof.
  unfold is_absolute. rewrite starts_with_true. split.
  - by intros [r ->].
  - destruct p as [|c p]; [done|]. intros [= ->]. by exists p.
Qed.

Lemma path_join_absolute base path : is_absolute base = true -> is_absolute (path_join base path) = true.
Proof.
  intros Hb. unfold path_join. destruct (is_absolute path) eqn:Hp; [done|].
  apply is_absolute_head in Hb. destruct base as [|c base]; [done|]. injection Hb as ->.
  destruct (_ || _); by apply is_absolute_head.
Qed.

Lemma absolutize_from_absolute path base :
  is_absolute base = true -> absolute_normal (absolutize_from path base).
Proof.
  intros Hb. apply normalize_path_absolute. unfold path_with_base.
  destruct (is_absolute path) eqn:Hp; [done|]. by apply path_join_absolute.
Qed.

(** ** Names and round trips *)

Definition valid_name (s : str) : Prop :=
  s <> [] /\ SLASH ∉ s /\ s <> DOT /\ s <> DOTDOT.

#[export] Instance valid_name_dec s : Decision (valid_name s).
Proof. unfold valid_name. apply _. Defined.

Definition valid_component (c : Component) : Prop :=
  match c with Normal s => valid_name s | _ => True end.

Definition pieces (p : str) : list str := filter (fun s => s <> []) (split_char SLASH p).

Lemma component_of_valid s : s <> [] -> SLASH ∉ s -> valid_component (component_of s).
Proof. intros H1 H2. unfold component_of. repeat case_bool_decide; done. Qed.

Lemma pieces_valid p : Forall valid_component (component_of <$> pieces p).
Proof.
  apply Forall_fmap, Forall_forall. intros s [Hs Hin]%list_elem_of_filter.
  apply component_of_valid; [done|].
  pose proof (split_char_no_sep SLASH p) as HF. rewrite Forall_forall in HF. by apply HF.
Qed.

Lemma drop_dots_valid cs : Forall valid_component cs -> Forall valid_component (drop_dots cs).
Proof.
  rewrite !Forall_forall. intros H c [_ Hc]%list_elem_of_filter. by apply H.
Qed.

Lemma components_valid p : Forall valid_component (components p).
Proof.
  unfold components. pose proof (pieces_valid p) as H. unfold pieces in H.
  destruct (is_absolute p).
  - constructor; [done|]. by apply drop_dots_valid.
  - destruct (component_of <$> _) as [|c cs]; [done|].
    inversion H; subst. constructor; [done|]. by apply drop_dots_valid.
Qed.

Lemma normalize_step_valid buf c :
  Forall valid_component buf -> valid_component c -> Forall valid_component (normalize_step buf c).
Proof.
  intros Hb Hc. destruct c; simpl; try done.
  - by repeat constructor.
  - unfold path_pop. destruct (last buf) as [[]|]; try done; by apply Forall_take.
  - apply Forall_app. split; [done|by apply Forall_singleton].
Qed.

Lemma foldl_normalize_valid buf cs :
  Forall valid_component buf -> Forall valid_component cs ->
  Forall valid_component (foldl normalize_step buf cs).
Proof.
  intros Hb Hcs. revert buf Hb. induction Hcs as [|c cs Hc _ IH]; intros buf Hb; simpl; [done|].
  by apply IH, normalize_step_valid.
Qed.

Lemma normalize_path_valid p : Forall valid_component (normalize_path p).
Proof.
  unfold normalize_path. destruct (is_nil _); [by repeat constructor|].
  apply foldl_normalize_valid; [constructor|apply components_valid].
Qed.

Lemma component_of_name s : valid_name s -> component_of s = Normal s.
Proof.
  intros (_ & _ & H1 & H2). unfold component_of. by rewrite !bool_decide_eq_false_2.
Qed.

Lemma fold_names buf names :
  foldl normalize_step buf (Normal <$> names) = buf ++ (Normal <$> names).
Proof.
  revert buf. induction names as [|s names IH]; intros buf; csimpl; [by rewrite app_nil_r|].
  by rewrite IH, <- app_assoc.
Qed.

Lemma component_of_names names :
  Forall valid_name names -> component_of <$> names = Normal <$> names.
Proof.
  induction 1 as [|s names Hs _ IH]; [done|]. csimpl. rewrite IH. by rewrite component_of_name.
Qed.

Lemma drop_dots_names names : drop_dots (Normal <$> names) = Normal <$> names.
Proof.
  unfold drop_dots. induction names as [|s names IH]; [done|]. csimpl.
  rewrite filter_cons_True by done. by rewrite IH.
Qed.

Lemma filter_names names : Forall valid_name names -> filter (fun s => s <> []) names = names.
Proof.
  induction 1 as [|s names [Hs _] _ IH]; [done|]. rewrite filter_cons_True by done. by rewrite IH.
Qed.

Lemma display_components names :
  Forall valid_name names ->
  is_absolute (display (RootDir :: (Normal <$> names))) = true
  /\ components (display (RootDir :: (Normal <$> names))) = RootDir :: (Normal <$> names).
Proof.
  intros Hv. destruct names as [|s names]; [done|].
  assert (E : display (RootDir :: (Normal <$> s :: names)) = SLASH :: join [SLASH] (s :: names)).
  { unfold display. csimpl. f_equal. f_equal.
    assert (Hct : component_text <$> (Normal <$> names) = names).
    { rewrite <- list_fmap_compose. apply list_fmap_id. }
    by rewrite Hct. }
  rewrite E. assert (Ha : is_absolute (SLASH :: join [SLASH] (s :: names)) = true) by (by apply is_absolute_head).
  split; [done|]. unfold components. rewrite Ha.
  change (SLASH :: join [SLASH] (s :: names)) with ([] ++ SLASH :: join [SLASH] (s :: names)).
  rewrite split_char_app by set_solver. rewrite split_char_join; [|done|].
  - rewrite filter_cons_False by naive_solver. rewrite filter_names by done.
    rewrite component_of_names by done. by rewrite drop_dots_names.
  - eapply Forall_impl; [exact Hv|]. by intros ? (_ & ? & _).
Qed.

Lemma normalize_display p :
  absolute_normal p -> Forall valid_component p ->
  is_absolute (display p) = true /\ normalize_path (display p) = p.
Proof.
  intros [names ->] Hv. inversion Hv as [|?? _ Hn]; subst. rewrite Forall_fmap in Hn.
  destruct (display_components names Hn) as [Ha Hc]. split; [done|].
  unfold normalize_path. rewrite Hc. csimpl. by rewrite fold_names.
Qed.

(** Resolving a path against an absolute base gives an absolute path without
    [.] or [..] components, and resolving its text again, from any home and
    current directory, gives the same path: normalisation is idempotent. *)
Theorem resolve_normal_form (home home' cwd : option str) (path base : str) :
  is_absolute base = true ->
  absolute_normal (resolve_path_against_base home path base)
  /\ from_absolute_path home' cwd (display (resolve_path_against_base home path base))
     = Some (resolve_path_against_base home path base).
Proof.
  intros Hb. unfold resolve_path_against_base.
  set (expanded := maybe_expand_home_directory home path).
  pose proof (absolutize_from_absolute expanded base Hb) as Ha. split; [done|].
  destruct (normalize_display (absolutize_from expanded base) Ha (normalize_path_valid _))
    as [Habs Hnorm].
  unfold from_absolute_path.
  assert (E : maybe_expand_home_directory home' (display (absolutize_from expanded base))
              = display (absolutize_from expanded base)).
  { apply is_absolute_head in Habs. destruct (display _) as [|c d]; [done|].
    injection Habs as ->. unfold maybe_expand_home_directory. by destruct home'. }
  by rewrite E, Habs, Hnorm.
Qed.

Lemma resolve_normal_form_witness :
  absolute_normal (resolve_path_against_base None (L"../b/./c") (L"/work/a"))
  /\ from_absolute_path None None (display (resolve_path_against_base None (L"../b/./c") (L"/work/a")))
     = Some [RootDir; Normal (L"work"); Normal (L"b"); Normal (L"c")].
Proof.
  destruct (resolve_normal_form None None None (L"../b/./c") (L"/work/a")) as [H1 H2]; [reflexivity|].
  split; [exact H1|]. rewrite H2. vm_compute. reflexivity.
Defined.

(** ** Staying below the base *)

Lemma drop_dots_app a b : drop_dots (a ++ b) = drop_dots a ++ drop_dots b.
Proof. apply filter_app. Qed.

Lemma pieces_join base path :
  is_absolute path = false -> pieces (path_join base path) = pieces base ++ pieces path.
Proof.
  intros Hp. unfold path_join, pieces. rewrite Hp.
  destruct (is_nil base) eqn:En; cbn [orb].
  { apply is_nil_true in En as ->. done. }
  destruct (ends_with [SLASH] base) eqn:Es.
  - apply ends_with_true in Es as [b ->]. rewrite <- app_assoc. cbn [app].
    rewrite !split_char_app_sep, !filter_app. f_equal.
    change (split_char SLASH []) with [@nil char].
    rewrite filter_cons_False by naive_solver. by rewrite app_nil_r.
  - cbn [app]. by rewrite split_char_app_sep, filter_app.
Qed.

Lemma fold_drop_dots buf cs : foldl normalize_step buf (drop_dots cs) = foldl normalize_step buf cs.
Proof.
  revert buf. unfold drop_dots. induction cs as [|c cs IH]; intros buf; [done|].
  destruct (decide (c = CurDir)) as [->|Hc].
  - rewrite filter_cons_False by naive_solver. apply IH.
  - rewrite filter_cons_True by done. apply IH.
Qed.

Lemma fold_components buf p :
  is_absolute p = false ->
  foldl normalize_step buf (components p) = foldl normalize_step buf (component_of <$> pieces p).
Proof.
  intros Hp. unfold components. rewrite Hp. fold (pieces p).
  destruct (component_of <$> pieces p) as [|c cs]; [done|]. simpl. apply fold_drop_dots.
Qed.

Lemma normalize_path_fold p :
  is_absolute p = true -> normalize_path p = foldl normalize_step [] (components p).
Proof.
  intros Hp. unfold normalize_path. destruct (components_absolute p Hp) as [cs ->]. simpl.
  destruct (foldl_normalize_absolute [RootDir] cs) as [names ->]; [by exists []|done].
Qed.

(** Normalising a join is normalising the base, then walking the path. *)
Lemma normalize_join base path :
  is_absolute base = true -> is_absolute path = false ->
  normalize_path (path_join base path) = foldl normalize_step (normalize_path base) (components path).
Proof.
  intros Hb Hp. rewrite !normalize_path_fold by (done || by apply path_join_absolute).
  unfold components at 1 2. rewrite path_join_absolute, Hb by done.
  fold (pieces (path_join base path)) (pieces base).
  rewrite pieces_join, fmap_app, drop_dots_app by done. rewrite (fold_components _ path Hp).
  cbn [foldl]. by rewrite foldl_app, (fold_drop_dots _ (component_of <$> pieces path)).
Qed.

Lemma fold_no_parent buf cs :
  ParentDir ∉ cs -> RootDir ∉ cs -> exists names, foldl normalize_step buf cs = buf ++ (Normal <$> names).
Proof.
  revert buf. induction cs as [|c cs IH]; intros buf H1 H2; simpl.
  - exists []. by rewrite app_nil_r.
  - apply not_elem_of_cons in H1 as [Hc1 H1]. apply not_elem_of_cons in H2 as [Hc2 H2].
    destruct (IH (normalize_step buf c) H1 H2) as [names ->].
    destruct c as [| | |s]; try done; simpl.
    + by exists names.
    + exists (s :: names). by rewrite <- app_assoc.
Qed.

Lemma components_relative_no_root p : is_absolute p = false -> RootDir ∉ components p.
Proof.
  intros Hp. unfold components. rewrite Hp. fold (pieces p).
  assert (H : RootDir ∉ component_of <$> pieces p).
  { intros (s & Hs & _)%list_elem_of_fmap. unfold component_of in Hs.
    repeat case_bool_decide; discriminate. }
  destruct (component_of <$> pieces p) as [|c cs]; [set_solver|].
  apply not_elem_of_cons in H as [Hc Hcs]. apply not_elem_of_cons. split; [done|].
  intros [_ ?]%list_elem_of_filter. by apply Hcs.
Qed.

(** A relative path without [..] (and without home expansion) resolves to a
    path below the normalised base: the base's components followed by names. *)
Theorem resolve_stays_below_base (home : option str) (path base : str) :
  is_absolute base = true -> is_absolute path = false ->
  strip_prefix [TILDE] path = None -> ParentDir ∉ components path ->
  exists names, resolve_path_against_base home path base = normalize_path base ++ (Normal <$> names).
Proof.
  intros Hb Hp Ht Hdd. unfold resolve_path_against_base.
  assert (E : maybe_expand_home_directory home path = path).
  { unfold maybe_expand_home_directory. rewrite Ht. by destruct home. }
  rewrite E. unfold absolutize_from, path_with_base. rewrite Hp, normalize_join by done.
  apply fold_no_parent; [done|by apply components_relative_no_root].
Qed.

Lemma resolve_stays_below_base_witness :
  exists names, resolve_path_against_base None (L"src/./main.rs") (L"/work/a")
    = [RootDir; Normal (L"work"); Normal (L"a")] ++ (Normal <$> names).
Proof.
  apply (resolve_stays_below_base None (L"src/./main.rs") (L"/work/a")); [reflexivity..|].
  apply (bool_decide_unpack _). vm_compute. exact I.
Defined.
