(* ===== verification/PatchFs.v ===== *)
(** * Applying hunks to a file system (apply-patch/src/lib.rs)

    [apply_hunks_to_files] runs against the trait [ExecutorFileSystem]; the trait
    is a class of operations here, and what the theorems need of an
    implementation is the class [FileSystemLaws].  The code threads the file
    system and the [AppliedPatchDelta] through a chain of fallible calls; the
    same is done by a small state-and-error monad.  The sandbox context is the
    same for all calls of a run, so it belongs to the instance. *)

From S2P Require Import Prelude RustStr SeekSequence PatchParser PatchApply AbsolutePath.

(** ** The file system interface *)

Record FileMetadata := mkMetadata {
  is_directory : bool;
  is_file : bool;
  is_symlink : bool;
  created_at_ms : Z;
  modified_at_ms : Z }.

Abbreviation io_result A := (A + io_error)%type (only parsing).

Class ExecutorFileSystem (FS : Type) := {
  read_file_text : FS -> AbsolutePathBuf -> io_result str;
  write_file : FS -> AbsolutePathBuf -> str -> FS * io_result unit;
  create_directory : FS -> AbsolutePathBuf -> bool -> FS * io_result unit;
  get_metadata : FS -> AbsolutePathBuf -> io_result FileMetadata;
  remove : FS -> AbsolutePathBuf -> bool -> bool -> FS * io_result unit }.

(** ** Deltas *)

Inductive AppliedPatchFileChange :=
| ChangeAdd (content : str) (overwritten_content : option str)
| ChangeDelete (content : str)
| ChangeUpdate (move_path : option AbsolutePathBuf) (old_content : str)
    (overwritten_move_content : option str) (new_content : str).

Record AppliedPatchChange := mkChange {
  change_path : AbsolutePathBuf;
  change_kind : AppliedPatchFileChange }.

Record AppliedPatchDelta := mkDelta {
  changes : list AppliedPatchChange;
  exact : bool }.

Definition delta_empty : AppliedPatchDelta := mkDelta [] true.

(** [AppliedPatchDelta::append]. *)
Definition delta_append (d other : AppliedPatchDelta) : AppliedPatchDelta :=
  mkDelta (changes d ++ changes other) (exact d && exact other).

Record AffectedPaths := mkAffected {
  added : list PathBuf;
  modified : list PathBuf;
  deleted : list PathBuf }.

(** An [anyhow::Error]: a message, an I/O error under an optional context, or an
    [ApplyPatchError]. *)
Inductive any_error :=
| AnyMessage (message : str)
| AnyIo (context : option str) (source : io_error)
| AnyPatch (source : ApplyPatchError).

Section apply.
Context {FS : Type} `{ExecutorFileSystem FS}.
Context (home : option str).

Definition M (A : Type) : Type :=
  FS * AppliedPatchDelta -> (FS * AppliedPatchDelta) * result any_error A.

Definition ret {A} (a : A) : M A := fun s => (s, Ok a).
Definition fail {A} (e : any_error) : M A := fun s => (s, Err e).
Definition bind {A B} (m : M A) (k : A -> M B) : M B := fun s =>
  match m s with
  | (s', Ok a) => k a s'
  | (s', Err e) => (s', Err e)
  | (s', Panic) => (s', Panic)
  | (s', OutOfFuel) => (s', OutOfFuel)
  end.

Local Notation "'do' x '<-' m ';' k" := (bind m (fun x => k))
  (at level 10, x pattern, m at level 100, k at level 200).

(** Reading and changing the two parts of the state. *)
Definition ask {A} (f : FS -> A) : M A := fun s => (s, Ok (f s.1)).
Definition mutate {A} (f : FS -> FS * A) : M A := fun s =>
  let '(fs, a) := f s.1 in ((fs, s.2), Ok a).
Definition set_exact (f : bool -> bool) : M unit := fun s =>
  ((s.1, mkDelta (changes s.2) (f (exact s.2))), Ok tt).
Definition push_change (c : AppliedPatchChange) : M unit := fun s =>
  ((s.1, mkDelta (changes s.2 ++ [c]) (exact s.2)), Ok tt).
Definition change_count : M nat := fun s => (s, Ok (length (changes s.2))).
(** [delta.changes[i] = c]. *)
Definition set_change (i : nat) (c : AppliedPatchChange) : M unit := fun s =>
  if i <? length (changes s.2)
  then ((s.1, mkDelta (<[i := c]> (changes s.2)) (exact s.2)), Ok tt)
  else (s, Panic).

(** [result.with_context(context)?] on an I/O result. *)
Definition lift_io {A} (context : option str) (r : io_result A) : M A :=
  match r with inl a => ret a | inr e => fail (AnyIo context e) end.
Definition lift_patch {A} (r : result ApplyPatchError A) : M A := fun s =>
  (s, map_err AnyPatch r).

(** [try_write!]: a failed write makes the delta inexact. *)
Definition try_write {A} (m : M A) : M A := fun s =>
  match m s with
  | ((fs, d), Err e) => ((fs, mkDelta (changes d) false), Err e)
  | r => r
  end.

Definition note_existing_path_delta_support (path : AbsolutePathBuf) : M unit :=
  do m <- ask (fun fs => get_metadata fs path);
  match m with
  | inl metadata =>
      if is_file metadata && negb (is_symlink metadata) then ret tt
      else set_exact (fun _ => false)
  | inr source =>
      if bool_decide (io_kind source = NotFound) then ret tt
      else set_exact (fun _ => false)
  end.

Definition read_optional_file_text_for_delta (path : AbsolutePathBuf) : M (option str) :=
  do _ <- note_existing_path_delta_support path;
  do r <- ask (fun fs => read_file_text fs path);
  match r with
  | inl content => ret (Some content)
  | inr source =>
      if bool_decide (io_kind source = NotFound) then ret None
      else do _ <- set_exact (fun _ => false); ret None
  end.

Definition write_file_with_missing_parent_retry (path : AbsolutePathBuf) (contents : str)
  : M unit :=
  do r <- mutate (fun fs => write_file fs path contents);
  match r with
  | inl _ => ret tt
  | inr err =>
      if bool_decide (io_kind err = NotFound) then
        do _ <- match path_parent path with
                | Some parent =>
                    do r <- mutate (fun fs => create_directory fs parent true);
                    lift_io (Some (L"Failed to create parent directories for " ++ display path)) r
                | None => ret tt
                end;
        do r <- mutate (fun fs => write_file fs path contents);
        lift_io (Some (L"Failed to write file " ++ display path)) r
      else fail (AnyIo (Some (L"Failed to write file " ++ display path)) err)
  end.

Definition ensure_not_directory (path : AbsolutePathBuf) (context : str) : M unit :=
  do r <- ask (fun fs => get_metadata fs path);
  do metadata <- lift_io (Some context) r;
  if is_directory metadata
  then fail (AnyIo (Some context) (mkIo InvalidInput (L"path is a directory")))
  else ret tt.

Definition remove_failure_was_side_effect_free (path : AbsolutePathBuf)
  (expected_content : option str) : M bool :=
  match expected_content with
  | Some expected =>
      do r <- ask (fun fs => read_file_text fs path);
      ret (match r with inl content => str_eqb content expected | inr _ => false end)
  | None => ret false
  end.

(** The removal shared by the delete and the move branch. *)
Definition remove_or_note (path : AbsolutePathBuf) (expected : option str) (context : str)
  : M unit :=
  do r <- mutate (fun fs => remove fs path false false);
  match r with
  | inl _ => ret tt
  | inr error =>
      do free <- remove_failure_was_side_effect_free path expected;
      do _ <- set_exact (fun e => e && free);
      fail (AnyIo (Some context) error)
  end.

Definition derive_new_contents_from_chunks (path : AbsolutePathBuf)
  (chunks : list UpdateFileChunk) : M (str * str) :=
  do r <- ask (fun fs => read_file_text fs path);
  match r with
  | inr err => fail (AnyPatch (IoError (L"Failed to read file to update " ++ display path) err))
  | inl original_contents =>
      do new_contents <- lift_patch (new_contents_from_chunks (display path) original_contents chunks);
      ret (original_contents, new_contents)
  end.

(** [Hunk::resolve_path]: the source of the change, not its destination. *)
Definition hunk_source (h : Hunk) : PathBuf :=
  match h with UpdateFile path _ _ => path | AddFile _ _ | DeleteFile _ => hunk_path h end.
Definition resolve_path (h : Hunk) (cwd : str) : AbsolutePathBuf :=
  resolve_path_against_base home (hunk_source h) cwd.

(** The body of the loop for one hunk. *)
Definition apply_hunk (cwd : str) (h : Hunk) (a : AffectedPaths) : M AffectedPaths :=
  let affected_path := hunk_path h in
  let path_abs := resolve_path h cwd in
  match h with
  | AddFile _ contents =>
      do overwritten_content <- read_optional_file_text_for_delta path_abs;
      do _ <- try_write (write_file_with_missing_parent_retry path_abs contents);
      do _ <- push_change (mkChange path_abs (ChangeAdd contents overwritten_content));
      ret (mkAffected (added a ++ [affected_path]) (modified a) (deleted a))
  | DeleteFile _ =>
      do _ <- note_existing_path_delta_support path_abs;
      do r <- ask (fun fs => read_file_text fs path_abs);
      let deleted_content := match r with inl c => Some c | inr _ => None end in
      do _ <- (if is_none deleted_content then set_exact (fun _ => false) else ret tt);
      let context := L"Failed to delete file " ++ display path_abs in
      do _ <- ensure_not_directory path_abs context;
      do _ <- remove_or_note path_abs deleted_content context;
      do _ <- match deleted_content with
              | Some content => push_change (mkChange path_abs (ChangeDelete content))
              | None => ret tt
              end;
      ret (mkAffected (added a) (modified a) (deleted a ++ [affected_path]))
  | UpdateFile _ move_path chunks =>
      do _ <- note_existing_path_delta_support path_abs;
      do (original_contents, new_contents) <- derive_new_contents_from_chunks path_abs chunks;
      match move_path with
      | Some dest =>
          let dest_abs := resolve_path_against_base home dest cwd in
          do overwritten_move_content <- read_optional_file_text_for_delta dest_abs;
          do _ <- try_write (write_file_with_missing_parent_retry dest_abs new_contents);
          do dest_write_change_index <- change_count;
          do _ <- push_change (mkChange dest_abs (ChangeAdd new_contents overwritten_move_content));
          let context := L"Failed to remove original " ++ display path_abs in
          do _ <- ensure_not_directory path_abs context;
          do _ <- remove_or_note path_abs (Some original_contents) context;
          do _ <- set_change dest_write_change_index
                    (mkChange path_abs (ChangeUpdate (Some dest_abs) original_contents
                       overwritten_move_content new_contents));
          ret (mkAffected (added a) (modified a ++ [affected_path]) (deleted a))
      | None =>
          do _ <- try_write (
            do r <- mutate (fun fs => write_file fs path_abs new_contents);
            lift_io (Some (L"Failed to write file " ++ display path_abs)) r);
          do _ <- push_change (mkChange path_abs
                    (ChangeUpdate None original_contents None new_contents));
          ret (mkAffected (added a) (modified a ++ [affected_path]) (deleted a))
      end
  end.

Fixpoint apply_hunk_loop (cwd : str) (hunks : list Hunk) (a : AffectedPaths) : M AffectedPaths :=
  match hunks with
  | [] => ret a
  | h :: rest => do a' <- apply_hunk cwd h a; apply_hunk_loop cwd rest a'
  end.

Definition apply_hunks_to_files (cwd : str) (hunks : list Hunk) : M AffectedPaths :=
  if is_nil hunks then fail (AnyMessage (L"No files were modified."))
  else apply_hunk_loop cwd hunks (mkAffected [] [] []).
End apply.

(** ** Reporting: [apply_hunks] and [apply_patch] *)

Record ApplyPatchFailure := mkFailure {
  failure_error : ApplyPatchError;
  failure_delta : AppliedPatchDelta }.

Definition without_delta (e : ApplyPatchError) : ApplyPatchFailure := mkFailure e delta_empty.

(** The [Display] texts. *)
Definition display_parse_error (e : ParseError) : str :=
  match e with
  | InvalidPatchError m => L"invalid patch: " ++ m
  | InvalidHunkError m n => L"invalid hunk at line " ++ show_nat n ++ L", " ++ m
  end.
Definition display_apply_error (e : ApplyPatchError) : str :=
  match e with
  | PatchParseError e => display_parse_error e
  | IoError context source => context ++ L": " ++ io_text source
  | ComputeReplacements m => m
  | ImplicitInvocation =>
      L"patch detected without explicit call to apply_patch. Rerun as [" ++ DQUOTE
      :: L"apply_patch" ++ DQUOTE :: L", " ++ DQUOTE :: L"<patch>" ++ [DQUOTE] ++ L"]"
  end.
Definition display_any_error (e : any_error) : str :=
  match e with
  | AnyMessage m => m
  | AnyIo (Some context) _ => context
  | AnyIo None source => io_text source
  | AnyPatch e => display_apply_error e
  end.

(** [From<io::Error>]: any I/O error gets the same context. *)
Definition from_io (e : io_error) : ApplyPatchError := IoError (L"I/O error") e.

(** The error [apply_hunks] reports: an I/O error below the context is found by
    [downcast_ref]; anything else is rendered. *)
Definition report_error (e : any_error) : ApplyPatchError :=
  match e with
  | AnyIo _ io => from_io io
  | _ => IoError (display_any_error e) (mkIo OtherKind (display_any_error e))
  end.

Section report.
Context {FS : Type} `{ExecutorFileSystem FS}.
Context (home : option str).
(** An [io::Write] sink. *)
Context {W : Type} (writeln : W -> str -> W * io_result unit).

(** Write lines until one fails. *)
Fixpoint write_all_lines (w : W) (ls : list str) : W * io_result unit :=
  match ls with
  | [] => (w, inl tt)
  | l :: rest =>
      match writeln w l with
      | (w', inl _) => write_all_lines w' rest
      | r => r
      end
  end.

Definition print_summary (affected : AffectedPaths) (out : W) : W * io_result unit :=
  write_all_lines out (L"Success. Updated the following files:"
    :: ((fun p => L"A " ++ p) <$> added affected)
    ++ ((fun p => L"M " ++ p) <$> modified affected)
    ++ ((fun p => L"D " ++ p) <$> deleted affected)).

Definition apply_hunks (hunks : list Hunk) (cwd : str) (stdout stderr : W) (fs : FS)
  : FS * W * W * result ApplyPatchFailure AppliedPatchDelta :=
  let '((fs', delta), r) := apply_hunks_to_files home cwd hunks (fs, delta_empty) in
  match r with
  | Ok affected =>
      let '(stdout', printed) := print_summary affected stdout in
      (fs', stdout', stderr,
       match printed with
       | inl _ => Ok delta
       | inr e => Err (mkFailure (from_io e) delta)
       end)
  | Err error =>
      let '(stderr', printed) := writeln stderr (display_any_error error) in
      (fs', stdout, stderr',
       match printed with
       | inl _ => Err (mkFailure (report_error error) delta)
       | inr e => Err (mkFailure (from_io e) delta)
       end)
  | Panic => (fs', stdout, stderr, Panic)
  | OutOfFuel => (fs', stdout, stderr, OutOfFuel)
  end.

Definition apply_patch (patch cwd : str) (stdout stderr : W) (fs : FS)
  : FS * W * W * result ApplyPatchFailure AppliedPatchDelta :=
  match parse_patch patch with
  | Ok source => apply_hunks (args_hunks source) cwd stdout stderr fs
  | Err e =>
      let line := match e with
        | InvalidPatchError message => L"Invalid patch: " ++ message
        | InvalidHunkError message n =>
            L"Invalid patch hunk on line " ++ show_nat n ++ L": " ++ message
        end in
      let '(stderr', printed) := writeln stderr line in
      (fs, stdout, stderr',
       match printed with
       | inl _ => Err (without_delta (PatchParseError e))
       | inr e => Err (without_delta (from_io e))
       end)
  | Panic => (fs, stdout, stderr, Panic)
  | OutOfFuel => (fs, stdout, stderr, OutOfFuel)
  end.
End report.

(** ** What an implementation promises *)

Section laws.
Context {FS : Type} `{ExecutorFileSystem FS}.

(** The text readable at a path. *)
Definition view (fs : FS) (p : AbsolutePathBuf) : option str :=
  match read_file_text fs p with inl t => Some t | inr _ => None end.

(** Nothing there, or a regular file that is not reached through a link. *)
Definition plain (fs : FS) (p : AbsolutePathBuf) : Prop :=
  match get_metadata fs p with
  | inl m => is_file m = true /\ is_symlink m = false
  | inr e => io_kind e = NotFound
  end.
End laws.

(** Operations on plain paths have no effect on the texts of other paths, and leave
    readable regular files what they are; a write that fails
    because a parent is missing, and the creation of directories, do not change
    any file; a failed removal touches nothing but its target, which it leaves as
    it was or removes.  Files reached by two different normalised paths (hard
    links, linked directories, a link to a missing file, whose metadata are reported as
    not found and through which a write creates that file) are outside these laws. *)
Class FileSystemLaws (FS : Type) `{ExecutorFileSystem FS} : Prop := {
  write_file_ok : forall (fs fs' : FS) p c,
    write_file fs p c = (fs', inl tt) -> plain fs p ->
    view fs' p = Some c /\ (forall q, q <> p -> view fs' q = view fs q)
    /\ (forall q, view fs q <> None -> plain fs q -> plain fs' q);
  write_file_missing : forall (fs fs' : FS) p c e,
    write_file fs p c = (fs', inr e) -> io_kind e = NotFound ->
    (forall q, view fs' q = view fs q) /\ (forall q, plain fs q -> plain fs' q);
  create_directory_ok : forall (fs fs' : FS) d r,
    create_directory fs d r = (fs', inl tt) ->
    (forall q, view fs' q = view fs q)
    /\ (forall q, path_parent q = Some d \/ view fs q <> None -> plain fs q -> plain fs' q);
  remove_ok : forall (fs fs' : FS) p r f,
    remove fs p r f = (fs', inl tt) -> plain fs p ->
    view fs' p = None /\ (forall q, q <> p -> view fs' q = view fs q);
  remove_failed : forall (fs fs' : FS) p f e,
    remove fs p false f = (fs', inr e) ->
    (view fs' p = view fs p \/ view fs' p = None)
    /\ (forall q, q <> p -> view fs' q = view fs q) }.
