(* ===== verification/PatchDelta.v ===== *)
(** * The applied delta is exact (apply-patch/src/lib.rs)

    [AppliedPatchDelta] records what a run changed, and its [exact] flag says
    whether the record is complete.  Here the record gets a meaning: [replay]
    performs it on the texts of the files and [undo] reverts it.  The theorems
    hold for every implementation of [ExecutorFileSystem] that satisfies
    [FileSystemLaws]; an in-memory file system shows that the laws can hold. *)

From S2P Require Import Prelude RustStr SeekSequence PatchParser PatchApply AbsolutePath PatchFs.

(** ** The meaning of a delta *)

(** The texts of all files. *)
Abbreviation texts := (list Component -> option str) (only parsing).

(** Two text maps are equal when they agree at every path. *)
Definition veq : relation texts := pointwise_relation _ eq.

#[export] Instance veq_equivalence : Equivalence veq.
Proof. unfold veq. apply _. Qed.

Definition upd (v : texts) (p : AbsolutePathBuf) (o : option str) : texts :=
  fun q => if decide (q = p) then o else v q.

Definition do_change (c : AppliedPatchChange) (v : texts) : texts :=
  match change_kind c with
  | ChangeAdd content _ => upd v (change_path c) (Some content)
  | ChangeDelete _ => upd v (change_path c) None
  | ChangeUpdate None _ _ new => upd v (change_path c) (Some new)
  | ChangeUpdate (Some dest) _ _ new => upd (upd v dest (Some new)) (change_path c) None
  end.

Definition undo_change (c : AppliedPatchChange) (v : texts) : texts :=
  match change_kind c with
  | ChangeAdd _ overwritten => upd v (change_path c) overwritten
  | ChangeDelete content => upd v (change_path c) (Some content)
  | ChangeUpdate None old _ _ => upd v (change_path c) (Some old)
  | ChangeUpdate (Some dest) old overwritten _ =>
      upd (upd v dest overwritten) (change_path c) (Some old)
  end.

(** Perform the changes first to last; revert them last to first. *)
Definition replay (cs : list AppliedPatchChange) (v : texts) : texts :=
  foldl (fun v c => do_change c v) v cs.
Definition undo (cs : list AppliedPatchChange) (v : texts) : texts := foldr undo_change v cs.

#[export] Instance upd_proper : Proper (veq ==> eq ==> eq ==> veq) upd.
Proof. intros v v' Hv p ? <- o ? <- q. unfold upd. case_decide; [done|apply Hv]. Qed.

#[export] Instance do_change_proper c : Proper (veq ==> veq) (do_change c).
Proof.
  intros v v' Hv. unfold do_change.
  destruct (change_kind c) as [| |[]]; by repeat apply upd_proper.
Qed.

#[export] Instance undo_change_proper c : Proper (veq ==> veq) (undo_change c).
Proof.
  intros v v' Hv. unfold undo_change.
  destruct (change_kind c) as [| |[]]; by repeat apply upd_proper.
Qed.

#[export] Instance replay_proper cs : Proper (veq ==> veq) (replay cs).
Proof.
  unfold replay. induction cs as [|c cs IH]; intros v v' Hv; simpl; [done|].
  apply IH. by rewrite Hv.
Qed.

#[export] Instance undo_proper cs : Proper (veq ==> veq) (undo cs).
Proof.
  unfold undo. induction cs as [|c cs IH]; intros v v' Hv; simpl; [done|].
  by apply undo_change_proper, IH.
Qed.

Lemma replay_app cs1 cs2 v : replay (cs1 ++ cs2) v = replay cs2 (replay cs1 v).
Proof. apply foldl_app. Qed.

Lemma undo_app cs1 cs2 v : undo (cs1 ++ cs2) v = undo cs1 (undo cs2 v).
Proof. apply foldr_app. Qed.

(** Each change in turn records the texts it replaces. *)
Fixpoint reversible (cs : list AppliedPatchChange) (v : texts) : Prop :=
  match cs with
  | [] => True
  | c :: cs => veq (undo_change c (do_change c v)) v /\ reversible cs (do_change c v)
  end.

Lemma reversible_proper cs : forall v v', veq v v' -> reversible cs v -> reversible cs v'.
Proof.
  induction cs as [|c cs IH]; intros v v' Hv; [done|]. cbn [reversible].
  intros [Hc Hcs]. split; [by rewrite <- Hv|]. eapply IH; [|exact Hcs]. by rewrite Hv.
Qed.

Lemma reversible_app cs1 cs2 v : reversible cs1 v -> reversible cs2 (replay cs1 v) -> reversible (cs1 ++ cs2) v.
Proof.
  revert v. induction cs1 as [|c cs1 IH]; intros v; [done|]. cbn [reversible app].
  intros [Hc Hcs] H2. split; [done|]. by apply IH.
Qed.

(** ** What a hunk is meant to record

    The abstract specification: a hunk, read against the texts of the files,
    prescribes one change, or none when its source is missing or its chunks do
    not fit. *)
Definition hunk_change (home : option str) (cwd : str) (h : Hunk) (v : texts)
  : option AppliedPatchChange :=
  let p := resolve_path home h cwd in
  match h with
  | AddFile _ contents => Some (mkChange p (ChangeAdd contents (v p)))
  | DeleteFile _ => (fun t => mkChange p (ChangeDelete t)) <$> v p
  | UpdateFile _ move_path chunks =>
      old ← v p;
      match new_contents_from_chunks (display p) old chunks with
      | Ok new =>
          let dest := (fun d => resolve_path_against_base home d cwd) <$> move_path in
          Some (mkChange p (ChangeUpdate dest old (dest ≫= v) new))
      | _ => None
      end
  end.

(** Running the hunks in order on the texts alone. *)
Fixpoint hunks_changes (home : option str) (cwd : str) (hs : list Hunk) (v : texts)
  : option (list AppliedPatchChange) :=
  match hs with
  | [] => Some []
  | h :: rest =>
      c ← hunk_change home cwd h v;
      cs ← hunks_changes home cwd rest (do_change c v);
      Some (c :: cs)
  end.

(** The lists a hunk is reported in. *)
Definition affect (h : Hunk) (a : AffectedPaths) : AffectedPaths :=
  match h with
  | AddFile _ _ => mkAffected (added a ++ [hunk_path h]) (modified a) (deleted a)
  | DeleteFile _ => mkAffected (added a) (modified a) (deleted a ++ [hunk_path h])
  | UpdateFile _ _ _ => mkAffected (added a) (modified a ++ [hunk_path h]) (deleted a)
  end.

Lemma hunk_change_proper home cwd h v v' :
  veq v v' -> hunk_change home cwd h v = hunk_change home cwd h v'.
Proof.
  intros Hv. unfold hunk_change.
  rewrite (Hv (resolve_path home h cwd)). destruct h as [| |path [dest|] chunks]; try done.
  cbn [fmap option_fmap option_map mbind option_bind].
  by rewrite (Hv (resolve_path_against_base home dest cwd)).
Qed.

Lemma hunks_changes_proper home cwd hs v v' :
  veq v v' -> hunks_changes home cwd hs v = hunks_changes home cwd hs v'.
Proof.
  revert v v'. induction hs as [|h hs IH]; intros v v' Hv; simpl; [done|].
  rewrite (hunk_change_proper _ _ _ _ _ Hv).
  destruct (hunk_change home cwd h v') as [c|]; simpl; [|done].
  by rewrite (IH (do_change c v) (do_change c v')) by by apply do_change_proper.
Qed.

(** ** Specifications of the steps *)

Section exactness.
Context {FS : Type} `{FileSystemLaws FS}.
Context (home : option str).
Implicit Types (s : FS * AppliedPatchDelta) (p : list Component).

(** [cs] takes the texts of [fs] to those of [fs'] and back, each change of it
    recording the texts it replaces. *)
Definition tracks (fs : FS) (cs : list AppliedPatchChange) (fs' : FS) : Prop :=
  veq (replay cs (view fs)) (view fs') /\ veq (undo cs (view fs')) (view fs) /\ reversible cs (view fs).

Lemma tracks_app fs1 fs2 fs3 cs1 cs2 : tracks fs1 cs1 fs2 -> tracks fs2 cs2 fs3 -> tracks fs1 (cs1 ++ cs2) fs3.
Proof.
  intros (Hr1 & Hu1 & Hv1) (Hr2 & Hu2 & Hv2). split_and!.
  - by rewrite replay_app, Hr1.
  - by rewrite undo_app, Hu2.
  - apply reversible_app; [done|]. by eapply reversible_proper; [symmetry; exact Hr1|].
Qed.

Lemma tracks_same fs fs' : veq (view fs) (view fs') -> tracks fs [] fs'.
Proof. intros Hv. split_and!; [done|by symmetry|done]. Qed.

(** An exact end state comes from an exact start state, and the changes added
    in between track the file system. *)
Definition advances s s' : Prop :=
  exact s'.2 = true ->
  exact s.2 = true /\ exists cs, changes s'.2 = changes s.2 ++ cs /\ tracks s.1 cs s'.1.

Lemma advances_trans s1 s2 s3 : advances s1 s2 -> advances s2 s3 -> advances s1 s3.
Proof.
  intros H12 H23 Hex. destruct (H23 Hex) as (Hex2 & cs2 & Hc2 & Ht2).
  destruct (H12 Hex2) as (Hex1 & cs1 & Hc1 & Ht1). split; [done|].
  exists (cs1 ++ cs2). split; [by rewrite Hc2, Hc1, app_assoc|]. by apply tracks_app with s2.1.
Qed.

Lemma advances_same fs d d' :
  changes d' = changes d -> (exact d' = true -> exact d = true) -> advances (fs, d) (fs, d').
Proof.
  intros Hc He Hex. split; [by apply He|]. exists []. simpl. by rewrite app_nil_r.
Qed.

(** No text changed, although the file system may have. *)
Lemma advances_unchanged fs fs' d d' :
  changes d' = changes d ->
  (exact d' = true -> exact d = true /\ forall q, view fs' q = view fs q) ->
  advances (fs, d) (fs', d').
Proof.
  intros Hc He Hex. destruct (He Hex) as [Hd Hv]. split; [done|]. exists [].
  simpl. rewrite app_nil_r. split; [done|]. apply tracks_same. intros q. by rewrite Hv.
Qed.

Lemma advances_change fs fs' d d' c :
  changes d' = changes d ++ [c] ->
  (exact d' = true -> exact d = true /\ veq (do_change c (view fs)) (view fs')
                      /\ veq (undo_change c (view fs')) (view fs)) ->
  advances (fs, d) (fs', d').
Proof.
  intros Hc He Hex. destruct (He Hex) as (Hd & Hr & Hu). split; [done|]. exists [c].
  split; [done|]. split_and!; [done|done|]. cbn [reversible]. split; [by rewrite Hr|done].
Qed.

Lemma bind_ok {A B} (m : M A) (k : A -> M B) s s' a :
  m s = (s', Ok a) -> bind m k s = k a s'.
Proof. unfold bind. by intros ->. Qed.

Lemma bind_err {A B} (m : M A) (k : A -> M B) s s' e :
  m s = (s', Err e) -> bind m k s = (s', Err e).
Proof. unfold bind. by intros ->. Qed.

Lemma note_spec p s :
  exists d', note_existing_path_delta_support p s = ((s.1, d'), Ok tt)
    /\ changes d' = changes s.2 /\ (exact d' = true -> exact s.2 = true /\ plain s.1 p).
Proof.
  destruct s as [fs d]. unfold note_existing_path_delta_support, bind, ask, plain. simpl.
  destruct (get_metadata fs p) as [m|e].
  - destruct (is_file m && negb (is_symlink m)) eqn:E; eexists; (split; [reflexivity|]); simpl.
    + split; [done|]. intros ?. by apply andb_true_iff in E as [? ?%negb_true_iff].
    + done.
  - case_bool_decide; eexists; (split; [reflexivity|]); simpl; done.
Qed.

Lemma read_optional_spec p s :
  exists d' o, read_optional_file_text_for_delta p s = ((s.1, d'), Ok o)
    /\ changes d' = changes s.2
    /\ (exact d' = true -> exact s.2 = true /\ plain s.1 p /\ view s.1 p = o).
Proof.
  destruct (note_spec p s) as (d1 & Hn & Hc & He). destruct s as [fs d].
  unfold read_optional_file_text_for_delta. rewrite (bind_ok _ _ _ _ _ Hn).
  unfold bind, ask, view. simpl in *. destruct (read_file_text fs p) as [t|e].
  - eexists _, _. split; [reflexivity|]. split; [done|]. naive_solver.
  - case_bool_decide; eexists _, _; (split; [reflexivity|]); simpl; naive_solver.
Qed.

(** The effect of a successful write on a plain path. *)
Definition wrote (fs fs' : FS) p (c : str) : Prop :=
  view fs' p = Some c /\ (forall q, q <> p -> view fs' q = view fs q)
  /\ (forall q, view fs q <> None -> plain fs q -> plain fs' q).

Lemma write_retry_spec p c s :
  exists fs' r, write_file_with_missing_parent_retry p c s = ((fs', s.2), r)
    /\ ((r = Ok tt /\ (plain s.1 p -> wrote s.1 fs' p c)) \/ exists e, r = Err e).
Proof.
  destruct s as [fs d]. unfold write_file_with_missing_parent_retry, bind, mutate. simpl.
  destruct (write_file fs p c) as [fs1 [[]|e]] eqn:E1; simpl.
  { eexists _, _. split; [reflexivity|]. left. split; [done|]. intros Hp.
    destruct (write_file_ok _ _ _ _ E1 Hp) as (? & ? & ?). split_and!; auto. }
  case_bool_decide as Hk; [|eexists _, _; split; [reflexivity|]; right; by eexists].
  destruct (write_file_missing _ _ _ _ _ E1 Hk) as [Hv1 Hp1].
  assert (last_write : forall fs2 : FS, (forall q, view fs2 q = view fs q) ->
    (forall q, q = p \/ view fs q <> None -> plain fs q -> plain fs2 q) ->
    exists fs' r, (let '(fs3, a) := write_file fs2 p c in
        lift_io (Some (L"Failed to write file " ++ display p)) a (fs3, d)) = ((fs', d), r)
      /\ ((r = Ok tt /\ (plain fs p -> wrote fs fs' p c)) \/ exists e, r = Err e)).
  { intros fs2 Hv2 Hp2. destruct (write_file fs2 p c) as [fs3 [[]|e2]] eqn:E3; simpl.
    - eexists _, _. split; [reflexivity|]. left. split; [done|]. intros Hp.
      destruct (write_file_ok _ _ _ _ E3) as (H1 & H2 & H3); [by apply Hp2; [left|]|].
      split_and!; [done| |]; intros q Hq; [by rewrite H2, Hv2|]. intros Hpl. apply H3; [by rewrite Hv2|auto].
    - eexists _, _. split; [reflexivity|]. right. by eexists. }
  destruct (path_parent p) as [parent|] eqn:Epar; simpl.
  - destruct (create_directory fs1 parent true) as [fs2 [[]|e2]] eqn:E2; simpl.
    + destruct (create_directory_ok _ _ _ _ E2) as [Hv2 Hp2].
      destruct (last_write fs2) as (fs' & r & Heq & Hr).
      { intros q. by rewrite Hv2. }
      { intros q Hq Hpl. apply Hp2; [|by apply Hp1]. rewrite Hv1. naive_solver. }
      eexists _, _. split; [|exact Hr]. rewrite <- Heq. by destruct (write_file fs2 p c).
    + eexists _, _. split; [reflexivity|]. right. by eexists.
  - destruct (last_write fs1) as (fs' & r & Heq & Hr); [done|auto|].
    eexists _, _. split; [|exact Hr]. rewrite <- Heq. by destruct (write_file fs1 p c).
Qed.

Lemma remove_or_note_spec p expected context s :
  exists fs' d' r, remove_or_note p expected context s = ((fs', d'), r)
    /\ changes d' = changes s.2
    /\ ((r = Ok tt /\ d' = s.2
         /\ (plain s.1 p -> view fs' p = None /\ forall q, q <> p -> view fs' q = view s.1 q))
        \/ (exists e, r = Err e /\ (exact d' = true -> exact s.2 = true
              /\ expected = view fs' p /\ forall q, view fs' q = view s.1 q))).
Proof.
  destruct s as [fs d]. unfold remove_or_note, bind, mutate. simpl.
  destruct (remove fs p false false) as [fs1 [[]|e]] eqn:E; simpl.
  - eexists _, _, _. split; [reflexivity|]. split; [done|]. left. split_and!; [done..|].
    by apply (remove_ok _ _ _ _ _ E).
  - unfold remove_failure_was_side_effect_free, bind, ask, ret, set_exact, fail.
    destruct expected as [c|]; simpl.
    + eexists _, _, _. split; [reflexivity|]. split; [done|]. right. eexists. split; [done|].
      simpl. intros [Hd Hf]%andb_true_iff. split; [done|].
      destruct (remove_failed _ _ _ _ _ E) as [Hp Hq].
      assert (view fs1 p = Some c) as Hc.
      { unfold view. destruct (read_file_text fs1 p) as [t|]; [|done].
        by apply bool_decide_eq_true in Hf as ->. }
      split; [done|]. intros q. destruct (decide (q = p)) as [->|]; [|by apply Hq].
      rewrite Hc in Hp. destruct Hp; congruence.
    + eexists _, _, _. split; [reflexivity|]. split; [done|]. right. eexists. split; [done|].
      simpl. by rewrite andb_false_r.
Qed.

Lemma ensure_not_directory_spec p context s :
  exists r, ensure_not_directory p context s = (s, r) /\ (r = Ok tt \/ exists e, r = Err e).
Proof.
  destruct s as [fs d]. unfold ensure_not_directory, bind, ask, lift_io, ret, fail. simpl.
  destruct (get_metadata fs p) as [m|e]; [destruct (is_directory m)|]; eauto.
Qed.

Lemma derive_spec p chunks s :
  exists r, derive_new_contents_from_chunks p chunks s = (s, r)
    /\ ((exists old new, r = Ok (old, new) /\ view s.1 p = Some old
           /\ new_contents_from_chunks (display p) old chunks = Ok new)
        \/ exists e, r = Err e).
Proof.
  destruct s as [fs d]. unfold derive_new_contents_from_chunks, bind, ask, view. simpl.
  destruct (read_file_text fs p) as [old|e]; [|eauto].
  unfold lift_patch. pose proof (new_contents_yields (display p) old chunks) as Hy.
  destruct (new_contents_from_chunks (display p) old chunks) as [new|e| |] eqn:E;
    simpl in *; try done.
  - eexists. split; [reflexivity|]. left. by eexists _, _.
  - eauto.
Qed.

(** ** One hunk *)

Lemma wrote_upd fs fs' p c : wrote fs fs' p c -> veq (upd (view fs) p (Some c)) (view fs').
Proof. intros (Hp & Hq & _) q. unfold upd. case_decide as E; [by subst|by rewrite Hq]. Qed.

Lemma wrote_revert fs fs' p c : wrote fs fs' p c -> veq (upd (view fs') p (view fs p)) (view fs).
Proof. intros (Hp & Hq & _) q. unfold upd. case_decide as E; [by subst|by rewrite Hq]. Qed.

Lemma removed_upd fs fs' p :
  (view fs' p = None /\ forall q, q <> p -> view fs' q = view fs q) ->
  veq (upd (view fs) p None) (view fs').
Proof. intros (Hp & Hq) q. unfold upd. case_decide as E; [by subst|by rewrite Hq]. Qed.

Lemma removed_revert fs fs' p :
  (view fs' p = None /\ forall q, q <> p -> view fs' q = view fs q) ->
  veq (upd (view fs') p (view fs p)) (view fs).
Proof. intros (Hp & Hq) q. unfold upd. case_decide as E; [by subst|by rewrite Hq]. Qed.

(** The end state of a hunk; that the hunk neither panics nor diverges; and that
    an exact success records the prescribed change. *)
Definition sound cwd h a s (out : (FS * AppliedPatchDelta) * result any_error AffectedPaths)
  : Prop :=
  advances s out.1 /\ settled out.2 /\
  (forall a', out.2 = Ok a' -> exact out.1.2 = true ->
    exists c, hunk_change home cwd h (view s.1) = Some c
      /\ changes out.1.2 = changes s.2 ++ [c] /\ a' = affect h a).

Lemma sound_err cwd h a s s' e : advances s s' -> sound cwd h a s (s', Err e).
Proof. intros. by split_and!. Qed.

(** A successful hunk that recorded [c]. *)
Lemma sound_ok cwd h a (fs fs' : FS) d d' c a' :
  changes d' = changes d ++ [c] -> a' = affect h a ->
  (exact d' = true -> exact d = true /\ hunk_change home cwd h (view fs) = Some c
     /\ veq (do_change c (view fs)) (view fs') /\ veq (undo_change c (view fs')) (view fs)) ->
  sound cwd h a (fs, d) ((fs', d'), Ok a').
Proof.
  intros Hc Ha Hex. split_and!; [|done|].
  - apply advances_change with c; [done|]. naive_solver.
  - simpl. intros ? [= <-] (? & ? & ?)%Hex. by exists c.
Qed.

Lemma add_sound cwd path contents a s : 
  sound cwd (AddFile path contents) a s (apply_hunk home cwd (AddFile path contents) a s).
Proof.
  cbn [apply_hunk]. set (p := resolve_path _ _ _).
  destruct (read_optional_spec p s) as (d1 & o & Hr & Hc & He).
  rewrite (bind_ok _ _ _ _ _ Hr). clear Hr. destruct s as [fs d]. simpl in *.
  unfold bind at 1, try_write.
  destruct (write_retry_spec p contents (fs, d1)) as (fs' & r & Hw & Hcase). rewrite Hw. simpl in *.
  destruct Hcase as [[-> Hok]|[e ->]]; [|by apply sound_err].
  apply sound_ok with (mkChange p (ChangeAdd contents o)); simpl; [by rewrite Hc|done|].
  intros Hex. destruct (He Hex) as (? & Hpl & <-). split_and!; [done|done| |].
  - by apply wrote_upd, Hok.
  - unfold undo_change. simpl. by apply wrote_revert with contents, Hok.
Qed.

Lemma delete_sound cwd path a s : 
  sound cwd (DeleteFile path) a s (apply_hunk home cwd (DeleteFile path) a s).
Proof.
  cbn [apply_hunk]. set (p := resolve_path _ _ _).
  generalize (L"Failed to delete file " ++ display p) as ctx. intros ctx.
  destruct (note_spec p s) as (d1 & Hn & Hc & He).
  rewrite (bind_ok _ _ _ _ _ Hn). clear Hn. destruct s as [fs d]. simpl in *.
  unfold bind at 1, ask at 1. cbn [fst].
  set (dc := match read_file_text fs p with inl c => Some c | inr _ => None end).
  assert (dc = view fs p) as Hdc by done. clearbody dc.
  assert (exists d2, (if is_none dc then set_exact (fun _ => false) else ret tt) (fs, d1)
            = ((fs, d2), Ok tt) /\ changes d2 = changes d1
            /\ (exact d2 = true -> exact d1 = true /\ is_Some dc)) as (d2 & H2 & Hc2 & He2).
  { destruct dc; eexists; (split; [reflexivity|]); simpl; naive_solver. }
  rewrite (bind_ok _ _ _ _ _ H2).
  destruct (ensure_not_directory_spec p ctx (fs, d2))
    as (r & Hd & [->|[e ->]]); unfold bind at 1; rewrite Hd;
    [|apply sound_err, advances_same; simpl; [congruence|naive_solver]].
  destruct (remove_or_note_spec p dc ctx (fs, d2))
    as (fs' & d3 & r & Hrm & Hc3 & [(-> & -> & Hok)|(e & -> & Hbad)]);
    unfold bind at 1; rewrite Hrm; simpl in *.
  - destruct dc as [c|]; simpl.
    + apply sound_ok with (mkChange p (ChangeDelete c)); simpl; [congruence|done|].
      intros Hex. destruct (He2 Hex) as [Hex1 _]. destruct (He Hex1) as [? Hpl].
      split_and!; [done|by fold p; rewrite <- Hdc| |]; unfold do_change, undo_change; simpl.
      * by apply removed_upd, Hok.
      * rewrite Hdc. by apply removed_revert, Hok.
    + assert (exact d2 <> true) by (intros Hex; by destruct (He2 Hex) as [_ [? ?]]).
      split; [by intros ?|]. split; [done|]. by intros ? _ ?.
  - apply sound_err, advances_unchanged; simpl; [congruence|]. naive_solver.
Qed.

(** A move: the destination was written, the source removed. *)
Lemma moved_do fs fs1 fs2 p q c :
  wrote fs fs1 q c -> (view fs2 p = None /\ forall r, r <> p -> view fs2 r = view fs1 r) ->
  veq (upd (upd (view fs) q (Some c)) p None) (view fs2).
Proof. intros Hw Hr. rewrite (wrote_upd _ _ _ _ Hw). by apply removed_upd. Qed.

Lemma moved_undo fs fs1 fs2 p q c :
  wrote fs fs1 q c -> (view fs2 p = None /\ forall r, r <> p -> view fs2 r = view fs1 r) ->
  veq (upd (upd (view fs2) q (view fs q)) p (view fs p)) (view fs).
Proof.
  intros (Hq & Ho & _) (Hp & Hr) x. unfold upd.
  case_decide as E1; [by subst|]. case_decide as E2; [by subst|]. by rewrite Hr, Ho.
Qed.

(** The move branch, after the new contents are known. *)
Lemma move_sound cwd path dest chunks old new a ctx (fs : FS) d0 d1 :
  let h := UpdateFile path (Some dest) chunks in
  let p := resolve_path home h cwd in
  let q := resolve_path_against_base home dest cwd in
  changes d1 = changes d0 ->
  (exact d1 = true -> exact d0 = true /\ plain fs p) -> view fs p = Some old ->
  new_contents_from_chunks (display p) old chunks = Ok new ->
  sound cwd h a (fs, d0)
    ((bind (read_optional_file_text_for_delta q) (fun o =>
      bind (try_write (write_file_with_missing_parent_retry q new)) (fun _ =>
      bind change_count (fun i =>
      bind (push_change (mkChange q (ChangeAdd new o))) (fun _ =>
      bind (ensure_not_directory p ctx) (fun _ =>
      bind (remove_or_note p (Some old) ctx) (fun _ =>
      bind (set_change i (mkChange p (ChangeUpdate (Some q) old o new))) (fun _ =>
      ret (mkAffected (added a) (modified a ++ [hunk_path h]) (deleted a)))))))))) (fs, d1)).
Proof.
  intros h p q Hc1 He1 Hold Hnew.
  assert (hunk_change home cwd h (view fs)
    = Some (mkChange p (ChangeUpdate (Some q) old (view fs q) new))) as Hspec.
  { subst h p q. unfold hunk_change. rewrite Hold. cbn [mbind option_bind]. by rewrite Hnew. }
  clearbody p q. destruct (read_optional_spec q (fs, d1)) as (d2 & o & Hr & Hc2 & He2).
  rewrite (bind_ok _ _ _ _ _ Hr). clear Hr. simpl in *.
  unfold bind at 1, try_write.
  destruct (write_retry_spec q new (fs, d2)) as (fs1 & r & Hw & [[-> Hok]|[e ->]]);
    rewrite Hw; [|by apply sound_err].
  cbn [snd fst] in *. rewrite (bind_ok change_count _ _ _ _ eq_refl).
  set (d3 := mkDelta (changes d2 ++ [mkChange q (ChangeAdd new o)]) (exact d2)).
  rewrite (bind_ok (push_change _) _ _ (fs1, d3) tt) by reflexivity.
  assert (exact d2 = true -> exact d0 = true /\ plain fs p /\ wrote fs fs1 q new /\ o = view fs q)
    as Hgood by naive_solver.
  assert (advances (fs, d0) (fs1, d3)) as Hadd.
  { apply advances_change with (mkChange q (ChangeAdd new o)); simpl; [congruence|].
    intros (? & ? & ? & ->)%Hgood. split_and!; [done|by apply wrote_upd|].
    by apply wrote_revert with new. }
  destruct (ensure_not_directory_spec p ctx (fs1, d3)) as (r & Hd & [->|[e ->]]);
    unfold bind at 1; rewrite Hd; [|by apply sound_err].
  destruct (remove_or_note_spec p (Some old) ctx (fs1, d3))
    as (fs2 & d4 & r & Hrm & Hc4 & [(-> & -> & Hdel)|(e & -> & Hbad)]);
    unfold bind at 1; rewrite Hrm; cbn [fst snd] in *.
  - unfold bind, set_change. cbn [fst snd changes d3]. rewrite length_app. simpl.
    rewrite (proj2 (Nat.ltb_lt _ _)) by lia.
    apply sound_ok with (mkChange p (ChangeUpdate (Some q) old o new)); simpl; [|done|].
    { rewrite insert_app_r_alt by lia. rewrite Nat.sub_diag. simpl. congruence. }
    intros (? & ? & Hwr & ->)%Hgood.
    assert (plain fs1 p) by (apply Hwr; by rewrite ?Hold).
    split_and!; [done|done| |]; unfold do_change, undo_change; simpl.
    + apply moved_do with fs1; auto.
    + rewrite <- Hold. apply moved_undo with fs1 new; auto.
  - apply sound_err, advances_trans with (fs1, d3); [done|]. apply advances_unchanged; naive_solver.
Qed.

Lemma update_sound cwd path move_path chunks a s :
  sound cwd (UpdateFile path move_path chunks) a s
    (apply_hunk home cwd (UpdateFile path move_path chunks) a s).
Proof.
  cbn [apply_hunk]. set (p := resolve_path _ _ _).
  destruct (note_spec p s) as (d1 & Hn & Hc & He).
  rewrite (bind_ok _ _ _ _ _ Hn). clear Hn. destruct s as [fs d]. cbn [fst snd] in *.
  destruct (derive_spec p chunks (fs, d1))
    as (r & Hr & [(old & new & -> & Hold & Hnew)|[e ->]]); unfold bind at 1; rewrite Hr;
    [|apply sound_err, advances_same; [congruence|naive_solver]].
  destruct move_path as [dest|]; [by apply move_sound|].
  unfold bind, try_write, mutate. cbn [fst snd] in *.
  destruct (write_file fs p new) as [fs' [[]|e]] eqn:Ew; simpl; [|by apply sound_err].
  apply sound_ok with (mkChange p (ChangeUpdate None old None new)); simpl; [congruence|done|].
  intros Hex. destruct (He Hex) as [Hd Hpl].
  destruct (write_file_ok _ _ _ _ Ew Hpl) as (? & ? & ?).
  assert (wrote fs fs' p new) by (split_and!; auto).
  split_and!; [done| |by apply wrote_upd|].
  { fold p. rewrite Hold. cbn [mbind option_bind]. by rewrite Hnew. }
  unfold undo_change. simpl. rewrite <- Hold. by apply wrote_revert with new.
Qed.

Lemma hunk_sound cwd h a s : sound cwd h a s (apply_hunk home cwd h a s).
Proof. destruct h; [apply add_sound|apply delete_sound|apply update_sound]. Qed.

(** ** The loop *)

Lemma loop_sound cwd hunks a s :
  let out := apply_hunk_loop home cwd hunks a s in
  advances s out.1 /\ settled out.2 /\
  (forall a', out.2 = Ok a' -> exact out.1.2 = true ->
    exists cs, hunks_changes home cwd hunks (view s.1) = Some cs
      /\ changes out.1.2 = changes s.2 ++ cs /\ a' = foldl (flip affect) a hunks).
Proof.
  revert a s. induction hunks as [|h hunks IH]; intros a s; simpl.
  { destruct s. split_and!; [by apply advances_same|done|]. simpl. intros ? [= <-] _.
    exists []. by rewrite app_nil_r. }
  destruct (hunk_sound cwd h a s) as (Ha & Hs & Hok). unfold bind.
  destruct (apply_hunk home cwd h a s) as [s' [a'|e| |]]; try done.
  destruct (IH a' s') as (Ha' & Hs' & Hok'). clear IH.
  split_and!; [by apply advances_trans with s'|done|]. intros a2 E2 Hex.
  destruct (Ha' Hex) as [Hex' _]. destruct (Ha Hex') as (_ & cs' & Hcs' & Ht).
  destruct (Hok a' eq_refl Hex') as (c & Hc & Hcc & ->). simpl in *.
  rewrite Hcs' in Hcc. apply app_inv_head in Hcc as ->.
  destruct (Hok' a2 E2 Hex) as (cs & Hrun & Hcs & ->).
  exists (c :: cs). rewrite Hc. cbn [mbind option_bind].
  rewrite (hunks_changes_proper _ _ _ _ _ (proj1 Ht : veq (do_change c (view s.1)) (view s'.1))).
  rewrite Hrun. split_and!; [done| |done]. by rewrite Hcs, Hcs', <- app_assoc.
Qed.
End exactness.

(** ** An in-memory file system

    Files and directories of a tree without links.  It shows that the laws can
    hold, and runs the examples. *)
Module MemFs.
Record t := mk { files : gmap (list Component) str; dirs : gset (list Component) }.

Definition err {A} (k : ErrorKind) : io_result A := inr (mkIo k []).

Definition read (fs : t) (p : AbsolutePathBuf) : io_result str :=
  if decide (p ∈ dirs fs) then err OtherKind
  else match files fs !! p with Some c => inl c | None => err NotFound end.

Definition write (fs : t) (p : AbsolutePathBuf) (c : str) : t * io_result unit :=
  if decide (p ∈ dirs fs) then (fs, err OtherKind)
  else match path_parent p with
       | Some d =>
           if decide (d ∈ dirs fs) then (mk (<[p := c]> (files fs)) (dirs fs), inl tt)
           else (fs, err NotFound)
       | None => (fs, err OtherKind)
       end.

(** The directory and all above it. *)
Definition ancestors (d : AbsolutePathBuf) : list AbsolutePathBuf :=
  (fun n => take (S n) d) <$> seq 0 (length d).

Definition mkdir (fs : t) (d : AbsolutePathBuf) (recursive : bool) : t * io_result unit :=
  if decide (Forall (fun a => files fs !! a = None) (ancestors d))
  then (mk (files fs) (list_to_set (ancestors d) ∪ dirs fs), inl tt)
  else (fs, err OtherKind).

Definition stat (fs : t) (p : AbsolutePathBuf) : io_result FileMetadata :=
  if decide (p ∈ dirs fs) then inl (mkMetadata true false false 0 0)
  else match files fs !! p with
       | Some _ => inl (mkMetadata false true false 0 0)
       | None => err NotFound
       end.

Definition rm (fs : t) (p : AbsolutePathBuf) (recursive force : bool) : t * io_result unit :=
  if decide (p ∈ dirs fs) then (fs, err OtherKind)
  else match files fs !! p with
       | Some _ => (mk (delete p (files fs)) (dirs fs), inl tt)
       | None => (fs, if force then inl tt else err NotFound)
       end.

#[global] Instance memory : ExecutorFileSystem t := {
  read_file_text := read; write_file := write; create_directory := mkdir;
  get_metadata := stat; remove := rm }.

Lemma view_eq fs p : view fs p = if decide (p ∈ dirs fs) then None else files fs !! p.
Proof. unfold view. simpl. unfold read, err. case_decide; [done|]. by destruct (files fs !! p). Qed.

Lemma plain_iff fs p : plain fs p <-> p ∉ dirs fs.
Proof.
  unfold plain. simpl. unfold stat, err. case_decide; [naive_solver|].
  destruct (files fs !! p); naive_solver.
Qed.

Lemma ancestors_short d a : a ∈ ancestors d -> length a <= length d.
Proof.
  unfold ancestors. intros (n & -> & _)%list_elem_of_fmap. rewrite length_take. lia.
Qed.

Lemma parent_length q d : path_parent q = Some d -> length d < length q.
Proof.
  unfold path_parent. destruct q as [|c q _] using rev_ind; [done|].
  rewrite last_snoc. destruct c; intros [= <-]; rewrite length_take, !length_app; simpl; lia.
Qed.

#[global] Instance memory_laws : FileSystemLaws t.
Proof.
  split; simpl.
  - intros fs fs' p c. unfold write. case_decide; [by intros [= <-]|].
    destruct (path_parent p) as [d|]; [|by intros [= <-]].
    case_decide; intros [= <-] _. split_and!.
    + rewrite view_eq. simpl. rewrite decide_False by done. by rewrite lookup_insert_eq.
    + intros q Hq. rewrite !view_eq. simpl. by rewrite lookup_insert_ne.
    + intros q _. by rewrite !plain_iff.
  - intros fs fs' p c e. unfold write. case_decide; [by intros [= <- <-]|].
    destruct (path_parent p) as [d|]; [|by intros [= <- <-]]. by case_decide; intros [= <- <-].
  - intros fs fs' d r. unfold mkdir. case_decide as Hf; intros [= <-].
    assert (forall q, files fs !! q <> None -> q ∉ ancestors d) as Hanc.
    { intros q Hq Hin. rewrite Forall_forall in Hf. by apply Hq, Hf. }
    split.
    + intros q. rewrite !view_eq. simpl. destruct (decide (q ∈ dirs fs)) as [Hd|Hd].
      { by rewrite decide_True by set_solver. }
      case_decide as Hd'; [|done]. destruct (files fs !! q) eqn:E; [|done].
      exfalso. apply (Hanc q); [by rewrite E|set_solver].
    + intros q Hq. rewrite !plain_iff. simpl. intros Hd.
      rewrite elem_of_union, elem_of_list_to_set. intros [Ha|?]; [|done].
      destruct Hq as [Hq|Hq].
      * apply parent_length in Hq. apply ancestors_short in Ha. lia.
      * rewrite view_eq, decide_False in Hq by done. by apply (Hanc q).
  - intros fs fs' p r f. unfold rm. rewrite plain_iff. case_decide; [by intros [= <-]|].
    destruct (files fs !! p) as [c|] eqn:E; intros [=] _; subst.
    + split; [rewrite view_eq; simpl; by rewrite lookup_delete_eq, decide_False|].
      intros q Hq. rewrite !view_eq. simpl. by rewrite lookup_delete_ne.
    + split; [|done]. by rewrite view_eq, decide_False.
  - intros fs fs' p f e. unfold rm. case_decide; [intros [= <- _]; auto|].
    destruct (files fs !! p) as [c|] eqn:E; intros [=]; subst; auto.
Qed.
End MemFs.

(** ** Theorems *)

(** The delta a caller gets, on success or inside the failure. *)
Definition delta_of (r : result ApplyPatchFailure AppliedPatchDelta) : AppliedPatchDelta :=
  match r with
  | Ok d => d
  | Err f => failure_delta f
  | Panic | OutOfFuel => delta_empty
  end.

Lemma apply_patch_tracks {FS : Type} `{FileSystemLaws FS} {W : Type}
  (home : option str) (writeln : W -> str -> W * io_result unit)
  (patch cwd : str) (stdout stderr : W) (fs : FS) :
  let out := apply_patch home writeln patch cwd stdout stderr fs in
  settled out.2 /\
  (exact (delta_of out.2) = true -> tracks fs (changes (delta_of out.2)) out.1.1.1).
Proof.
  unfold apply_patch. pose proof (parse_patch_settled patch) as Hp.
  destruct (parse_patch patch) as [args|e| |]; try done.
  - unfold apply_hunks.
    assert (let o := apply_hunks_to_files home cwd (args_hunks args) (fs, delta_empty) in
      advances (fs, delta_empty) o.1 /\ settled o.2) as Hs.
    { unfold apply_hunks_to_files. case_goal; [by split; [apply advances_same|]|].
      destruct (loop_sound home cwd (args_hunks args) (mkAffected [] [] []) (fs, delta_empty))
        as (? & ? & _). done. }
    destruct (apply_hunks_to_files _ _ _ _) as [[fs' d] [a|e| |]];
      destruct Hs as [Ha Hs]; try done; simpl in *.
    + destruct (print_summary writeln a stdout) as [w []]; (split; [done|]);
        intros (_ & cs & Hc & Ht)%Ha; simpl in *; by rewrite Hc.
    + destruct (writeln stderr _) as [w []]; (split; [done|]);
        intros (_ & cs & Hc & Ht)%Ha; simpl in *; by rewrite Hc.
  - simpl. by destruct (writeln stderr _) as [w []].
Qed.

(** C1: on a file system with the laws of [FileSystemLaws] (no hard links, linked
    directories or links to missing files on the way), a run of [apply_patch] ends in
    success or in a failure, never in a panic; and whenever the delta it returns, with
    the result or inside the failure, is marked exact, replaying the delta on the texts
    the run started from gives the texts the run left, undoing it on those gives the
    texts back, and each change in it records the texts that it replaces.  This covers
    parse errors, partial runs that failed at a later hunk, overwritten destinations,
    moves, and failed removals. *)
Theorem applied_delta_exact {FS : Type} `{FileSystemLaws FS} {W : Type}
  (home : option str) (writeln : W -> str -> W * io_result unit)
  (patch cwd : str) (stdout stderr : W) (fs : FS) :
  let out := apply_patch home writeln patch cwd stdout stderr fs in
  settled out.2 /\
  (exact (delta_of out.2) = true -> tracks fs (changes (delta_of out.2)) out.1.1.1).
Proof. apply apply_patch_tracks. Qed.

(** A small tree: the root directory and one file. *)
Definition small_tree : MemFs.t :=
  MemFs.mk {[ components (L"/w/a") := L"one" ++ [LF] ]}
           (list_to_set (components <$> [L"/"; L"/w"])).
Definition sink (w : list str) (l : str) : list str * io_result unit := (w ++ [l], inl tt).

Definition move_patch : str :=
  unlines [L"*** Begin Patch"; L"*** Update File: a"; L"*** Move to: d/b"; L"@@";
           L"-one"; L"+two"; L"*** Update File: gone"; L"@@"; L"-x"; L"+y"; L"*** End Patch"].

(** A move into a new directory succeeds, the update of a missing file after it fails,
    and the delta of the failure is exact and holds the move. *)
Lemma applied_delta_exact_witness :
  let out := apply_patch None sink move_patch (L"/w") [] [] small_tree in
  (exists f, out.2 = Err f)
  /\ length (changes (delta_of out.2)) = 1
  /\ exact (delta_of out.2) = true
  /\ view out.1.1.1 (components (L"/w/a")) = None
  /\ view out.1.1.1 (components (L"/w/d/b")) = Some (L"two" ++ [LF])
  /\ tracks small_tree (changes (delta_of out.2)) out.1.1.1.
Proof.
  split; [eexists; vm_compute; reflexivity|].
  split; [vm_compute; reflexivity|]. split; [vm_compute; reflexivity|].
  split; [vm_compute; reflexivity|]. split; [vm_compute; reflexivity|].
  apply (applied_delta_exact None sink move_patch (L"/w") [] [] small_tree). vm_compute. reflexivity.
Defined.

(** A successful exact run performs the prescribed changes. *)
Lemma exact_success {FS : Type} `{FileSystemLaws FS} home cwd hunks (fs fs' : FS) d a :
  apply_hunks_to_files home cwd hunks (fs, delta_empty) = ((fs', d), Ok a) ->
  exact d = true ->
  hunks_changes home cwd hunks (view fs) = Some (changes d)
  /\ veq (replay (changes d) (view fs)) (view fs')
  /\ a = foldl (flip affect) (mkAffected [] [] []) hunks.
Proof.
  unfold apply_hunks_to_files. case_goal; [done|].
  pose proof (loop_sound home cwd hunks (mkAffected [] [] []) (fs, delta_empty)) as Hl.
  intros Hrun Hex. rewrite Hrun in Hl. simpl in Hl. destruct Hl as (Ha & _ & Hok).
  destruct (Hok a eq_refl Hex) as (cs & Hcs & Hd & ->).
  destruct (Ha Hex) as (_ & cs' & Hd' & Ht). simpl in *. rewrite Hd' in Hd. subst cs'.
  rewrite Hd'. split_and!; [done|apply Ht|done].
Qed.

(** A run over the hunks that succeeds with an exact delta implements the
    abstract reading of the patch: the hunks in order prescribe, on the texts
    alone, exactly the list of changes the delta holds; performing that list on
    the texts at the start gives the texts at the end; and the three lists of
    affected paths name every hunk under its kind, in order. *)
Theorem apply_hunks_refines_changes {FS : Type} `{FileSystemLaws FS}
  (home : option str) (cwd : str) (hunks : list Hunk) (fs fs' : FS)
  (d : AppliedPatchDelta) (a : AffectedPaths) :
  apply_hunks_to_files home cwd hunks (fs, delta_empty) = ((fs', d), Ok a) ->
  exact d = true ->
  hunks_changes home cwd hunks (view fs) = Some (changes d)
  /\ veq (replay (changes d) (view fs)) (view fs')
  /\ a = foldl (flip affect) (mkAffected [] [] []) hunks.
Proof. apply exact_success. Qed.

Definition two_hunks : list Hunk :=
  [AddFile (L"n/c") (L"x" ++ [LF]);
   UpdateFile (L"a") None [mkChunk None [L"one"] [L"1"; L"2"] false]].

Lemma apply_hunks_refines_changes_witness :
  exists fs' d a,
    apply_hunks_to_files None (L"/w") two_hunks (small_tree, delta_empty) = ((fs', d), Ok a)
    /\ view fs' (components (L"/w/a")) = Some (L"1" ++ [LF] ++ L"2" ++ [LF])
    /\ hunks_changes None (L"/w") two_hunks (view small_tree) = Some (changes d)
    /\ veq (replay (changes d) (view small_tree)) (view fs')
    /\ a = foldl (flip affect) (mkAffected [] [] []) two_hunks.
Proof.
  eexists _, _, _. split; [vm_compute; reflexivity|]. split; [vm_compute; reflexivity|].
  apply (apply_hunks_refines_changes None (L"/w") two_hunks small_tree);
    vm_compute; reflexivity.
Defined.

(** An update whose move destination resolves to its own source removes
    the file: the run succeeds, the file is listed as modified and the delta is
    exact, and the new contents are gone. *)
Theorem move_onto_itself_deletes {FS : Type} `{FileSystemLaws FS}
  (home : option str) (cwd path dest : str) (chunks : list UpdateFileChunk)
  (fs fs' : FS) (d : AppliedPatchDelta) (a : AffectedPaths) :
  let h := UpdateFile path (Some dest) chunks in
  resolve_path_against_base home dest cwd = resolve_path home h cwd ->
  apply_hunks_to_files home cwd [h] (fs, delta_empty) = ((fs', d), Ok a) ->
  exact d = true ->
  modified a = [dest] /\ view fs' (resolve_path_against_base home dest cwd) = None.
Proof.
  intros h Hsame Hrun Hex. destruct (exact_success _ _ _ _ _ _ _ Hrun Hex) as (Hcs & Ht & ->).
  split; [done|]. rewrite Hsame. unfold h in Hcs at 1. cbn [hunks_changes hunk_change] in Hcs. fold h in Hcs.
  destruct (view fs (resolve_path home h cwd)) as [old|]; cbn [mbind option_bind] in Hcs; [|done].
  destruct (new_contents_from_chunks _ old chunks); try done.
  injection Hcs as Hcs. rewrite <- Hcs in Ht. rewrite <- (Ht (resolve_path home h cwd)).
  unfold replay. simpl. unfold do_change, upd. simpl. by rewrite decide_True.
Qed.

Lemma move_onto_itself_witness :
  let h := UpdateFile (L"a") (Some (L"./a")) [mkChunk None [L"one"] [L"two"] false] in
  exists fs' d a,
    view small_tree (components (L"/w/a")) = Some (L"one" ++ [LF])
    /\ apply_hunks_to_files None (L"/w") [h] (small_tree, delta_empty) = ((fs', d), Ok a)
    /\ exact d = true
    /\ modified a = [L"./a"] /\ view fs' (resolve_path_against_base None (L"./a") (L"/w")) = None.
Proof.
  eexists _, _, _. split; [vm_compute; reflexivity|]. split; [vm_compute; reflexivity|].
  split; [vm_compute; reflexivity|].
  eapply (move_onto_itself_deletes None (L"/w") (L"a") (L"./a")
    [mkChunk None [L"one"] [L"two"] false] small_tree); vm_compute; reflexivity.
Defined.
