(* ===== verification/ExecPolicy.v ===== *)
(** * Exec policies (execpolicy/src: decision.rs, rule.rs, policy.rs)

    A policy keeps prefix rules by program, network rules in order, and the
    absolute paths a bare program name may stand for.  [Arc<dyn Rule>] has one
    implementation, [PrefixRule].  A [MultiMap] is a map to the list of its
    values in insertion order. *)

From S2P Require Import Prelude RustStr AbsolutePath.

(** ** Decisions (decision.rs) and errors (error.rs) *)

Inductive Decision := Allow | Prompt | Forbidden.

#[export] Instance Decision_eq_dec : EqDecision Decision.
Proof. solve_decision. Defined.

(** The derived order: [Allow < Prompt < Forbidden]. *)
Definition severity (d : Decision) : nat :=
  match d with Allow => 0 | Prompt => 1 | Forbidden => 2 end.
Definition decision_max (a b : Decision) : Decision :=
  if severity a <=? severity b then b else a.

Record TextPosition := mkPos { line : nat; column : nat }.
Record TextRange := mkRange { range_start : TextPosition; range_end : TextPosition }.
Record ErrorLocation := mkLocation { loc_path : str; loc_range : TextRange }.

(** What the code reads of a Starlark span (0-based) and of a Starlark error. *)
Record FileSpan := mkSpan { span_filename : str; span_begin : TextPosition; span_end : TextPosition }.
Record StarlarkError := mkStarlark { starlark_text : str; starlark_span : option FileSpan }.

Inductive Error :=
| InvalidDecision (s : str)
| InvalidPattern (s : str)
| InvalidExample (s : str)
| InvalidRule (s : str)
| ExampleDidNotMatch (rules examples : list str) (location : option ErrorLocation)
| ExampleDidMatch (rule example : str) (location : option ErrorLocation)
| Starlark (e : StarlarkError).

Definition with_location (e : Error) (location : ErrorLocation) : Error :=
  match e with
  | ExampleDidNotMatch rules examples None => ExampleDidNotMatch rules examples (Some location)
  | ExampleDidMatch rule example None => ExampleDidMatch rule example (Some location)
  | other => other
  end.

(** 1-based positions from a span. *)
Definition error_location_from_file_span (span : FileSpan) : ErrorLocation :=
  let one p := mkPos (line p + 1) (column p + 1) in
  mkLocation (span_filename span) (mkRange (one (span_begin span)) (one (span_end span))).

Definition error_location (e : Error) : option ErrorLocation :=
  match e with
  | ExampleDidNotMatch _ _ location | ExampleDidMatch _ _ location => location
  | Starlark err => error_location_from_file_span <$> starlark_span err
  | _ => None
  end.

Definition decision_parse (raw : str) : result Error Decision :=
  if str_eqb raw (L"allow") then Ok Allow
  else if str_eqb raw (L"prompt") then Ok Prompt
  else if str_eqb raw (L"forbidden") then Ok Forbidden
  else Err (InvalidDecision raw).

(** ** Rules (rule.rs) *)

Inductive PatternToken :=
| Single (s : str)
| Alts (l : list str).

Definition token_matches (p : PatternToken) (token : str) : bool :=
  match p with
  | Single expected => str_eqb expected token
  | Alts alternatives => existsb (fun alt => str_eqb alt token) alternatives
  end.

Definition alternatives (p : PatternToken) : list str :=
  match p with Single expected => [expected] | Alts alternatives => alternatives end.

Record PrefixPattern := mkPattern { first : str; rest : list PatternToken }.

Definition matches_prefix (p : PrefixPattern) (cmd : list str) : option (list str) :=
  let pattern_length := length (rest p) + 1 in
  if (length cmd <? pattern_length) || negb (bool_decide (head cmd = Some (first p))) then None
  else if forallb (fun '(pattern_token, cmd_token) => token_matches pattern_token cmd_token)
            (zip (rest p) (take (pattern_length - 1) (drop 1 cmd)))
  then Some (take pattern_length cmd)
  else None.

Inductive RuleMatch :=
| PrefixRuleMatch (matched_prefix : list str) (decision : Decision)
    (resolved_program : option (list Component)) (justification : option str)
| HeuristicsRuleMatch (command : list str) (decision : Decision).

Definition match_decision (m : RuleMatch) : Decision :=
  match m with PrefixRuleMatch _ d _ _ | HeuristicsRuleMatch _ d => d end.

Definition with_resolved_program (m : RuleMatch) (program : list Component) : RuleMatch :=
  match m with
  | PrefixRuleMatch matched_prefix decision _ justification =>
      PrefixRuleMatch matched_prefix decision (Some program) justification
  | other => other
  end.

Record PrefixRule := mkRule {
  pattern : PrefixPattern;
  rule_decision : Decision;
  rule_justification : option str }.

Definition rule_program (r : PrefixRule) : str := first (pattern r).

Definition rule_matches (r : PrefixRule) (cmd : list str) : option RuleMatch :=
  (fun matched_prefix =>
     PrefixRuleMatch matched_prefix (rule_decision r) None (rule_justification r))
  <$> matches_prefix (pattern r) cmd.

Inductive NetworkRuleProtocol := Http | Https | Socks5Tcp | Socks5Udp.

Definition protocol_parse (raw : str) : result Error NetworkRuleProtocol :=
  if str_eqb raw (L"http") then Ok Http
  else if str_eqb raw (L"https") || str_eqb raw (L"https_connect") || str_eqb raw (L"http-connect")
  then Ok Https
  else if str_eqb raw (L"socks5_tcp") then Ok Socks5Tcp
  else if str_eqb raw (L"socks5_udp") then Ok Socks5Udp
  else Err (InvalidRule
    (L"network_rule protocol must be one of http, https, socks5_tcp, socks5_udp (got "
     ++ raw ++ L")")).

Definition as_policy_string (p : NetworkRuleProtocol) : str :=
  match p with
  | Http => L"http"
  | Https => L"https"
  | Socks5Tcp => L"socks5_tcp"
  | Socks5Udp => L"socks5_udp"
  end.

Record NetworkRule := mkNetworkRule {
  host : str;
  protocol : NetworkRuleProtocol;
  net_decision : Decision;
  net_justification : option str }.

Definition COLON : char := 58%N.
Definition LBRACKET : char := 91%N.
Definition RBRACKET : char := 93%N.
Definition STAR : char := 42%N.
Definition QUESTION : char := 63%N.
Definition HASH : char := 35%N.

(** A non-empty run of digits. *)
Definition is_port (port : str) : bool := negb (is_nil port) && forallb is_ascii_digit port.

(** The host part of [host], [host:port], [[v6]] or [[v6]:port]. *)
Definition strip_port (raw host : str) : result Error str :=
  match strip_prefix [LBRACKET] host with
  | Some stripped =>
      match split_once RBRACKET stripped with
      | None => Err (InvalidRule (L"network_rule host has an invalid bracketed IPv6 literal"))
      | Some (inside, rest) =>
          let port_ok := is_some_and (strip_prefix [COLON] rest) is_port in
          if negb (is_nil rest) && negb port_ok
          then Err (InvalidRule (L"network_rule host contains an unsupported suffix: " ++ raw))
          else Ok inside
      end
  | None =>
      Ok (match rsplit_once COLON host with
          | Some (candidate, port) =>
              if (length (filter (fun c => c = COLON) host) =? 1)
                 && negb (is_nil candidate) && is_port port
              then candidate else host
          | None => host
          end)
  end.

Definition normalize_network_rule_host (raw : str) : result Error str :=
  let host := trim raw in
  if is_nil host then Err (InvalidRule (L"network_rule host cannot be empty"))
  else if contains (L"://") host || contains_char SLASH host || contains_char QUESTION host
          || contains_char HASH host
  then Err (InvalidRule
         (L"network_rule host must be a hostname or IP literal (without scheme or path)"))
  else
    let? host := strip_port raw host in
    let normalized := to_ascii_lowercase (trim (trim_end_matches (N.eqb 46) host)) in
    if is_nil normalized then Err (InvalidRule (L"network_rule host cannot be empty"))
    else if contains_char STAR normalized
    then Err (InvalidRule
           (L"network_rule host must be a specific host; wildcards are not allowed"))
    else if existsb is_whitespace normalized
    then Err (InvalidRule (L"network_rule host cannot contain whitespace"))
    else Ok normalized.

(** ** Executable names (executable_name.rs), outside Windows *)
Definition executable_lookup_key (raw : str) : str := raw.
Definition executable_path_lookup_key (path : list Component) : option str :=
  executable_lookup_key <$> file_name path.

(** ** Policies (policy.rs) *)

Record Policy := mkPolicy {
  rules_by_program : gmap str (list PrefixRule);
  network_rules : list NetworkRule;
  host_executables_by_name : gmap str (list (list Component)) }.

(** [MultiMap::insert]. *)
Definition multimap_insert (m : gmap str (list PrefixRule)) (key : str) (rule : PrefixRule)
  : gmap str (list PrefixRule) :=
  <[key := default [] (m !! key) ++ [rule]]> m.

Definition policy_new (rules : gmap str (list PrefixRule)) : Policy := mkPolicy rules [] ∅.
Definition policy_empty : Policy := policy_new ∅.

Definition render_pattern_token (t : PatternToken) : str :=
  match t with
  | Single value => value
  | Alts alternatives => LBRACKET :: join (L"|") alternatives ++ [RBRACKET]
  end.

(** The derived order on [Vec<String>]: lexicographic, the strings by their
    bytes, which for UTF-8 is the order of the characters. *)
Abbreviation prefix_cmp := (lex_compare (lex_compare N.compare)) (only parsing).

Definition allowed_prefix (r : PrefixRule) : option (list str) :=
  if bool_decide (rule_decision r = Allow)
  then Some (first (pattern r) :: (render_pattern_token <$> rest (pattern r)))
  else None.

Definition get_allowed_prefixes (p : Policy) : list (list str) :=
  dedup (merge_sort (compare_le prefix_cmp)
    (concat ((fun entry : str * list PrefixRule => omap allowed_prefix entry.2)
             <$> map_to_list (rules_by_program p)))).

Definition add_prefix_rule (p : Policy) (prefix : list str) (decision : Decision)
  : result Error Policy :=
  match prefix with
  | [] => Err (InvalidPattern (L"prefix cannot be empty"))
  | first_token :: rest =>
      let rule := mkRule (mkPattern first_token (Single <$> rest)) decision None in
      Ok (mkPolicy (multimap_insert (rules_by_program p) first_token rule)
            (network_rules p) (host_executables_by_name p))
  end.

Definition blank_justification (j : option str) : bool :=
  is_some_and j (fun raw => is_nil (trim raw)).

Definition add_network_rule (p : Policy) (host : str) (protocol : NetworkRuleProtocol)
  (decision : Decision) (justification : option str) : result Error Policy :=
  let? host := normalize_network_rule_host host in
  if blank_justification justification
  then Err (InvalidRule (L"justification cannot be empty"))
  else Ok (mkPolicy (rules_by_program p)
             (network_rules p ++ [mkNetworkRule host protocol decision justification])
             (host_executables_by_name p)).

Definition set_host_executable_paths (p : Policy) (name : str) (paths : list (list Component))
  : Policy :=
  mkPolicy (rules_by_program p) (network_rules p)
    (<[name := paths]> (host_executables_by_name p)).

Definition merge_overlay (p overlay : Policy) : Policy :=
  mkPolicy
    (foldl (fun m '(program, rules) => foldl (fun m rule => multimap_insert m program rule) m rules)
       (rules_by_program p) (map_to_list (rules_by_program overlay)))
    (network_rules p ++ network_rules overlay)
    (host_executables_by_name overlay ∪ host_executables_by_name p).

Definition upsert_domain (entries : list str) (host : str) : list str :=
  filter (fun entry => entry <> host) entries ++ [host].

Definition compile_step (acc : list str * list str) (rule : NetworkRule) : list str * list str :=
  let '(allowed, denied) := acc in
  match net_decision rule with
  | Allow => (upsert_domain allowed (host rule), filter (fun entry => entry <> host rule) denied)
  | Forbidden => (filter (fun entry => entry <> host rule) allowed, upsert_domain denied (host rule))
  | Prompt => (allowed, denied)
  end.
Definition compiled_network_domains (p : Policy) : list str * list str :=
  foldl compile_step ([], []) (network_rules p).

Record MatchOptions := mkOptions { resolve_host_executables : bool }.
Definition default_options : MatchOptions := mkOptions false.

Record Evaluation := mkEvaluation { decision : Decision; matched_rules : list RuleMatch }.

(** [max()] and the [expect] on it. *)
Definition from_matches (ms : list RuleMatch) : result Error Evaluation :=
  match match_decision <$> ms with
  | [] => Panic
  | d :: ds => Ok (mkEvaluation (foldl decision_max d ds) ms)
  end.

Definition is_match (e : Evaluation) : bool :=
  existsb (fun m => match m with HeuristicsRuleMatch _ _ => false | _ => true end)
    (matched_rules e).

(** [rules.iter().filter_map(|rule| rule.matches(cmd))]. *)
Definition match_rules (rules : list PrefixRule) (cmd : list str) : list RuleMatch :=
  omap (fun rule => rule_matches rule cmd) rules.

Section matching.
(** The home and current directories, for [AbsolutePathBuf::try_from]. *)
Context (home cwd : option str).

Definition match_exact_rules (p : Policy) (cmd : list str) : option (list RuleMatch) :=
  first ← head cmd;
  Some (match rules_by_program p !! first with
        | Some rules => match_rules rules cmd
        | None => []
        end).

Definition match_host_executable_rules (p : Policy) (cmd : list str) : list RuleMatch :=
  default [] (
    first ← head cmd;
    program ← from_absolute_path home cwd first;
    basename ← executable_path_lookup_key program;
    rules ← rules_by_program p !! basename;
    if is_some_and (host_executables_by_name p !! basename)
         (fun paths => negb (existsb (fun path => bool_decide (path = program)) paths))
    then None
    else
      let basename_command := basename :: drop 1 cmd in
      Some ((fun m => with_resolved_program m program)
              <$> match_rules rules basename_command)).

Definition non_empty {A} (o : option (list A)) : option (list A) :=
  l ← o; if is_nil l then None else Some l.

Definition matches_for_command_with_options (p : Policy) (cmd : list str)
  (heuristics_fallback : option (list str -> Decision)) (options : MatchOptions)
  : list RuleMatch :=
  let matched_rules :=
    match non_empty (match_exact_rules p cmd) with
    | Some ms => ms
    | None =>
        default [] (non_empty
          (if resolve_host_executables options
           then Some (match_host_executable_rules p cmd) else None))
    end in
  match heuristics_fallback with
  | Some fallback =>
      if is_nil matched_rules then [HeuristicsRuleMatch cmd (fallback cmd)] else matched_rules
  | None => matched_rules
  end.

Definition check_with_options (p : Policy) (cmd : list str) (fallback : list str -> Decision)
  (options : MatchOptions) : result Error Evaluation :=
  from_matches (matches_for_command_with_options p cmd (Some fallback) options).
Definition check (p : Policy) (cmd : list str) (fallback : list str -> Decision) :=
  check_with_options p cmd fallback default_options.

Definition check_multiple_with_options (p : Policy) (commands : list (list str))
  (fallback : list str -> Decision) (options : MatchOptions) : result Error Evaluation :=
  from_matches (concat ((fun command =>
    matches_for_command_with_options p command (Some fallback) options) <$> commands)).
Definition check_multiple (p : Policy) (commands : list (list str))
  (fallback : list str -> Decision) :=
  check_multiple_with_options p commands fallback default_options.
End matching.

(** ** Which rules are consulted *)

Definition policy_rule (p : Policy) (r : PrefixRule) : Prop :=
  exists program rules, rules_by_program p !! program = Some rules /\ r ∈ rules.

(** Every rule is stored under its own program. *)
Definition policy_wf (p : Policy) : Prop :=
  forall program rules, rules_by_program p !! program = Some rules ->
  Forall (fun r => rule_program r = program) rules.

(** A pattern matches a command when it matches the words of a prefix. *)
Definition pattern_matches (p : PrefixPattern) (cmd : list str) : Prop :=
  exists prefix args, cmd = prefix ++ args
    /\ Forall2 (fun t w => token_matches t w = true) (Single (first p) :: rest p) prefix.

Lemma zip_forallb {A B} (f : A -> B -> bool) (l : list A) (k : list B) :
  length l = length k ->
  forallb (fun '(a, b) => f a b) (zip l k) = true <-> Forall2 (fun a b => f a b = true) l k.
Proof.
  revert k. induction l as [|a l IH]; intros [|b k] Hl; simpl in *; [|done|done|].
  - split; [constructor|done].
  - rewrite andb_true_iff, IH by lia. rewrite Forall2_cons. done.
Qed.

Lemma matches_prefix_spec p cmd prefix :
  matches_prefix p cmd = Some prefix <->
  exists args, cmd = prefix ++ args
    /\ Forall2 (fun t w => token_matches t w = true) (Single (first p) :: rest p) prefix.
Proof.
  unfold matches_prefix. set (n := length (rest p)). split.
  - case_goal; [done|]. split_bools. rename select (_ <? _ = false) into Hl.
    apply Nat.ltb_ge in Hl. destruct cmd as [|w cmd]; [done|].
    rename select (head _ = Some _) into Hh. injection Hh as ->. simpl in Hl.
    replace (n + 1 - 1) with n by lia. replace (n + 1) with (S n) by lia.
    change (drop 1 (first p :: cmd)) with cmd.
    case_goal; [|done]. intros [= <-]. exists (drop n cmd). split; [simpl; by rewrite take_drop|].
    constructor; [by apply bool_decide_eq_true|].
    apply zip_forallb; [|done]. rewrite length_take. lia.
  - intros (args & -> & F). inversion F as [|?? w prefix' Hw F']; subst.
    apply bool_decide_eq_true in Hw as <-. pose proof (Forall2_length _ _ _ F') as Hl.
    fold n in Hl. rewrite (proj2 (Nat.ltb_ge _ _)) by (simpl; rewrite length_app; lia).
    rewrite bool_decide_true by done. simpl orb. cbv iota.
    replace (n + 1 - 1) with n by lia. replace (n + 1) with (S n) by lia. simpl.
    rewrite drop_0, take_app_length' by done. by rewrite (proj2 (zip_forallb token_matches _ _ Hl)).
Qed.

Lemma matches_prefix_is_Some p cmd :
  is_Some (matches_prefix p cmd) <-> pattern_matches p cmd.
Proof.
  split; [intros [pre H]; by exists pre; apply matches_prefix_spec|].
  intros (pre & H). exists pre. by apply matches_prefix_spec.
Qed.

Lemma pattern_matches_head p cmd : pattern_matches p cmd -> head cmd = Some (first p).
Proof.
  intros (pre & args & -> & F). inversion F as [|?? w ? Hw]; subst.
  by apply bool_decide_eq_true in Hw as <-.
Qed.

Lemma elem_of_match_rules rules cmd d :
  (exists m, m ∈ match_rules rules cmd /\ match_decision m = d) <->
  exists r, r ∈ rules /\ pattern_matches (pattern r) cmd /\ rule_decision r = d.
Proof.
  unfold match_rules. split.
  - intros (m & Hm & <-). apply list_elem_of_omap in Hm as (r & Hr & Hm).
    unfold rule_matches in Hm. apply fmap_Some in Hm as (pre & Hp & ->).
    exists r. split_and!; [done| |done]. apply matches_prefix_is_Some. by eexists.
  - intros (r & Hr & [pre Hp]%matches_prefix_is_Some & <-).
    eexists. split; [apply list_elem_of_omap; exists r; split; [done|]; unfold rule_matches;
      by rewrite Hp|done].
Qed.

Section consulted.
Context (home cwd : option str).

(** A rule that matches the command as it is written. *)
Definition exact_rule (p : Policy) (cmd : list str) (r : PrefixRule) : Prop :=
  policy_rule p r /\ pattern_matches (pattern r) cmd.

(** A rule for the base name of the absolute path the command names, when the
    policy does not restrict that name to other paths. *)
Definition host_rule (p : Policy) (cmd : list str) (r : PrefixRule) : Prop :=
  exists word args program basename,
    cmd = word :: args /\ from_absolute_path home cwd word = Some program
    /\ file_name program = Some basename
    /\ (forall paths, host_executables_by_name p !! basename = Some paths -> program ∈ paths)
    /\ policy_rule p r /\ pattern_matches (pattern r) (basename :: args).

Definition consulted (p : Policy) (options : MatchOptions) (cmd : list str) (r : PrefixRule)
  : Prop :=
  exact_rule p cmd r
  \/ resolve_host_executables options = true
     /\ ~ (exists r', exact_rule p cmd r') /\ host_rule p cmd r.

Lemma policy_rule_lookup p r cmd :
  policy_wf p -> pattern_matches (pattern r) cmd ->
  policy_rule p r <-> exists w rules, head cmd = Some w
    /\ rules_by_program p !! w = Some rules /\ r ∈ rules.
Proof.
  intros Hwf Hm. split; [|intros (w & rules & _ & ? & ?); by exists w, rules].
  intros (w & rules & Hl & Hr). exists w, rules. split_and!; [|done..].
  specialize (Hwf _ _ Hl). rewrite Forall_forall in Hwf. rewrite <- (Hwf r Hr).
  by apply pattern_matches_head.
Qed.

Lemma exact_decisions p cmd d :
  policy_wf p ->
  (exists m, m ∈ default [] (match_exact_rules p cmd) /\ match_decision m = d) <->
  exists r, exact_rule p cmd r /\ rule_decision r = d.
Proof.
  intros Hwf. unfold match_exact_rules. destruct cmd as [|w args]; simpl.
  { split; [set_solver|]. intros (r & [_ H] & _). by apply pattern_matches_head in H. }
  split.
  - destruct (rules_by_program p !! w) as [rules|] eqn:E; [|set_solver].
    rewrite elem_of_match_rules. intros (r & Hr & Hm & <-). exists r.
    split; [|done]. split; [by exists w, rules|done].
  - intros (r & [Hr Hm] & <-). apply (policy_rule_lookup _ _ (w :: args)) in Hr; [|done..].
    destruct Hr as (w' & rules & [= <-] & -> & Hr). apply elem_of_match_rules. eauto.
Qed.

Lemma with_resolved_decision m program :
  match_decision (with_resolved_program m program) = match_decision m.
Proof. by destruct m. Qed.

Lemma host_decisions p cmd d :
  policy_wf p ->
  (exists m, m ∈ match_host_executable_rules home cwd p cmd /\ match_decision m = d) <->
  exists r, host_rule p cmd r /\ rule_decision r = d.
Proof.
  intros Hwf. unfold match_host_executable_rules, executable_path_lookup_key, executable_lookup_key.
  split.
  - destruct cmd as [|w args]; simpl; [set_solver|].
    destruct (from_absolute_path home cwd w) as [program|] eqn:Ea; simpl; [|set_solver].
    destruct (file_name program) as [base|] eqn:Eb; simpl; [|set_solver].
    destruct (rules_by_program p !! base) as [rules|] eqn:Er; simpl; [|set_solver].
    case_goal; simpl; [set_solver|]. intros (m & Hm & <-).
    apply list_elem_of_fmap in Hm as (m' & -> & Hm'). rewrite with_resolved_decision.
    destruct (proj1 (elem_of_match_rules rules (base :: args) (match_decision m'))) as (r & Hr & Hp & Hd);
      [eauto|].
    exists r. split; [|done]. exists w, args, program, base. split_and!; try done.
    + intros paths Hpaths. rewrite Hpaths in E. simpl in E. apply negb_false_iff in E.
      apply existsb_exists in E as (q & Hq & ->%bool_decide_eq_true).
      by apply list_elem_of_In.
    + by exists base, rules.
  - intros (r & (w & args & program & base & -> & Ha & Hb & Hh & Hr & Hp) & <-). simpl.
    rewrite Ha. simpl. rewrite Hb. simpl. apply (policy_rule_lookup _ _ (base :: args)) in Hr; [|done..].
    destruct Hr as (w' & rules & [= <-] & -> & Hr). simpl.
    assert (is_some_and (host_executables_by_name p !! base)
      (fun paths => negb (existsb (fun path => bool_decide (path = program)) paths)) = false) as ->.
    { destruct (host_executables_by_name p !! base) as [paths|]; [|done]. simpl.
      apply negb_false_iff, existsb_exists. exists program. split; [|by apply bool_decide_eq_true].
      by apply list_elem_of_In, Hh. }
    simpl. destruct (proj2 (elem_of_match_rules rules (base :: args) (rule_decision r)))
      as (m & Hm & Hd); [eauto|].
    exists (with_resolved_program m program). rewrite with_resolved_decision.
    split; [by apply list_elem_of_fmap; eauto|done].
Qed.

(** No match at all means no consulted rule. *)
Lemma decisions_nil {A} (ms : list RuleMatch) (Q : A -> Decision -> Prop) :
  (forall d, (exists m, m ∈ ms /\ match_decision m = d) <-> exists a, Q a d) ->
  ms = [] <-> ~ exists a d, Q a d.
Proof.
  intros H. split.
  - intros -> (a & d & HQ). destruct (proj2 (H d)) as (m & Hm & _); [eauto|]. set_solver.
  - intros Hn. destruct ms as [|m ms]; [done|]. exfalso. apply Hn.
    destruct (proj1 (H (match_decision m))) as (a & Ha); [exists m; set_solver|eauto].
Qed.

Lemma no_exact_rule p cmd :
  policy_wf p -> default [] (match_exact_rules p cmd) = [] <-> ~ exists r, exact_rule p cmd r.
Proof.
  intros Hwf. rewrite (decisions_nil _ (fun r d => exact_rule p cmd r /\ rule_decision r = d)).
  - naive_solver.
  - intros d. by apply exact_decisions.
Qed.

(** The rule matches without a fallback. *)
Lemma rule_decisions p cmd options d :
  policy_wf p ->
  (exists m, m ∈ matches_for_command_with_options home cwd p cmd None options
             /\ match_decision m = d) <->
  exists r, consulted p options cmd r /\ rule_decision r = d.
Proof.
  intros Hwf. pose proof (no_exact_rule p cmd Hwf) as Hnone.
  pose proof (exact_decisions p cmd d Hwf) as Hexact.
  unfold matches_for_command_with_options, consulted.
  destruct (match_exact_rules p cmd) as [[|m ms]|] eqn:E; simpl in *;
    try (destruct (proj1 Hnone eq_refl); fail).
  2: { rewrite Hexact. split; [naive_solver|].
       intros (r & [?|(_ & Hno & _)] & ?); [eauto|]. exfalso.
       apply Hnone in Hno. done. }
  all: assert (~ exists r', exact_rule p cmd r') as Hno by (by apply Hnone).
  all: destruct (resolve_host_executables options); simpl.
  all: try (split; [intros (m & Hm & _); by apply not_elem_of_nil in Hm|];
            intros (r & [?|(? & _)] & _); [by destruct Hno; exists r|done]).
  all: assert (forall l : list RuleMatch, default [] (if is_nil l then None else Some l) = l)
         as -> by (by intros []).
  all: rewrite host_decisions by done; split; [intros (r & ? & ?); exists r; tauto|].
  all: intros (r & [?|(_ & _ & ?)] & ?); naive_solver.
Qed.

Lemma no_consulted_rule p cmd options :
  policy_wf p ->
  matches_for_command_with_options home cwd p cmd None options = [] <->
  ~ exists r, consulted p options cmd r.
Proof.
  intros Hwf. rewrite (decisions_nil _ (fun r d => consulted p options cmd r /\ rule_decision r = d)).
  - naive_solver.
  - intros d. by apply rule_decisions.
Qed.

(** A command's verdicts: those of the consulted rules, or the fallback's. *)
Definition verdict (p : Policy) (options : MatchOptions) (fallback : list str -> Decision)
  (cmd : list str) (d : Decision) : Prop :=
  (exists r, consulted p options cmd r /\ rule_decision r = d)
  \/ ~ (exists r, consulted p options cmd r) /\ fallback cmd = d.

Lemma matches_verdicts p cmd fallback options d :
  policy_wf p ->
  d ∈ match_decision <$> matches_for_command_with_options home cwd p cmd (Some fallback) options
  <-> verdict p options fallback cmd d.
Proof.
  intros Hwf. pose proof (no_consulted_rule p cmd options Hwf) as Hno.
  pose proof (rule_decisions p cmd options d Hwf) as Hd. unfold verdict. rewrite <- Hd, <- Hno.
  change (matches_for_command_with_options home cwd p cmd (Some fallback) options) with
    (let ms := matches_for_command_with_options home cwd p cmd None options in
     if is_nil ms then [HeuristicsRuleMatch cmd (fallback cmd)] else ms).
  rewrite list_elem_of_fmap.
  destruct (matches_for_command_with_options home cwd p cmd None options) as [|m ms]; simpl.
  - split; [intros (m & -> & ->%list_elem_of_singleton); by right|].
    intros [(m & Hm & _)|[_ <-]]; [set_solver|]. by exists (HeuristicsRuleMatch cmd (fallback cmd)); set_solver.
  - naive_solver.
Qed.

Lemma matches_nonempty p cmd fallback options :
  matches_for_command_with_options home cwd p cmd (Some fallback) options <> [].
Proof.
  unfold matches_for_command_with_options. destruct (is_nil _) eqn:E; [done|].
  by apply is_nil_false.
Qed.
End consulted.

Lemma decision_max_spec ds d :
  let m := foldl decision_max d ds in
  (m = d \/ m ∈ ds) /\ severity d <= severity m /\ forall x, x ∈ ds -> severity x <= severity m.
Proof.
  revert d. induction ds as [|y ds IH]; intros d; simpl.
  { split_and!; [by left|done|set_solver]. }
  destruct (IH (decision_max d y)) as (Hm & Hle & Hall).
  assert ((decision_max d y = d \/ decision_max d y = y)
    /\ severity d <= severity (decision_max d y) /\ severity y <= severity (decision_max d y))
    as (Hc & Hd & Hy).
  { unfold decision_max. case_goal; [apply Nat.leb_le in E|apply Nat.leb_gt in E]; split_and!; auto; lia. }
  split_and!; [|lia|].
  - destruct Hm as [->|?]; [destruct Hc as [->| ->]|]; set_solver.
  - intros x [->|Hx]%elem_of_cons; [lia|]. by apply Hall.
Qed.

Lemma from_matches_spec ms :
  ms <> [] -> exists ev, from_matches ms = Ok ev /\ matched_rules ev = ms
    /\ decision ev ∈ match_decision <$> ms
    /\ forall d, d ∈ match_decision <$> ms -> severity d <= severity (decision ev).
Proof.
  destruct ms as [|m ms]; [done|]. intros _. unfold from_matches. simpl.
  eexists. split; [reflexivity|]. split; [done|]. simpl.
  destruct (decision_max_spec (match_decision <$> ms) (match_decision m)) as (Hm & Hle & Hall).
  split.
  - apply elem_of_cons. destruct Hm; auto.
  - intros d [->|Hd]%elem_of_cons; [done|]. by apply Hall.
Qed.

(** ** Merging policies *)

Lemma multimap_insert_default m k r k' :
  default [] (multimap_insert m k r !! k')
  = default [] (m !! k') ++ (if decide (k' = k) then [r] else []).
Proof.
  unfold multimap_insert. case_decide as E; [subst k'; by rewrite lookup_insert_eq|].
  rewrite lookup_insert_ne by done. by rewrite app_nil_r.
Qed.

Lemma insert_rules_default m k rules k' :
  default [] (foldl (fun m rule => multimap_insert m k rule) m rules !! k')
  = default [] (m !! k') ++ (if decide (k' = k) then rules else []).
Proof.
  revert m. induction rules as [|r rules IH]; intros m; simpl.
  { case_decide; by rewrite app_nil_r. }
  rewrite IH, multimap_insert_default. case_decide; [by rewrite <- app_assoc|by rewrite !app_nil_r].
Qed.

(** All rules a list of entries holds for a program. *)
Definition entries_for (k : str) (l : list (str * list PrefixRule)) : list PrefixRule :=
  concat ((fun e : str * list PrefixRule => if decide (k = e.1) then e.2 else []) <$> l).

Lemma insert_entries_default m l k :
  default [] (foldl (fun m '(program, rules) =>
     foldl (fun m rule => multimap_insert m program rule) m rules) m l !! k)
  = default [] (m !! k) ++ entries_for k l.
Proof.
  revert m. induction l as [|[k' rules] l IH]; intros m; simpl.
  { by rewrite app_nil_r. }
  rewrite IH, insert_rules_default. unfold entries_for. csimpl. by rewrite <- app_assoc.
Qed.

Lemma entries_for_absent k l : k ∉ l.*1 -> entries_for k l = [].
Proof.
  unfold entries_for. induction l as [|[k' rules] l IH]; csimpl; [done|].
  intros [Hk Hl]%not_elem_of_cons. rewrite decide_False by done. by apply IH.
Qed.

Lemma entries_for_present k rules l :
  NoDup l.*1 -> (k, rules) ∈ l -> entries_for k l = rules.
Proof.
  induction l as [|[k' rules'] l IH]; [set_solver|]. csimpl.
  intros [Hk Hnd]%NoDup_cons [[= <- <-]|Hin]%elem_of_cons; unfold entries_for in *; csimpl.
  - rewrite decide_True by done. pose proof (entries_for_absent k l Hk) as Hn.
    unfold entries_for in Hn. by rewrite Hn, app_nil_r.
  - rewrite decide_False; [by apply IH|]. intros <-. apply Hk. by apply (list_elem_of_fmap_2 fst) in Hin.
Qed.

Lemma entries_for_lookup (k : str) (m : gmap str (list PrefixRule)) :
  entries_for k (map_to_list m) = default [] (m !! k).
Proof.
  destruct (m !! k) as [rules|] eqn:E; simpl.
  - apply entries_for_present; [apply NoDup_fst_map_to_list|by apply elem_of_map_to_list].
  - apply entries_for_absent. intros ([k' rules] & -> & Hin)%list_elem_of_fmap.
    apply elem_of_map_to_list in Hin. simpl in *. congruence.
Qed.

Lemma merge_overlay_rules p overlay k :
  default [] (rules_by_program (merge_overlay p overlay) !! k)
  = default [] (rules_by_program p !! k) ++ default [] (rules_by_program overlay !! k).
Proof.
  unfold merge_overlay. cbn [rules_by_program].
  by rewrite insert_entries_default, entries_for_lookup.
Qed.

Lemma policy_rule_default p r :
  policy_rule p r <-> exists k, r ∈ default [] (rules_by_program p !! k).
Proof.
  split; [intros (k & rules & E & Hr); exists k; by rewrite E|].
  intros [k Hr]. destruct (rules_by_program p !! k) as [rules|] eqn:E; [|set_solver].
  by exists k, rules.
Qed.

Lemma policy_wf_default p :
  policy_wf p <-> forall k r, r ∈ default [] (rules_by_program p !! k) -> rule_program r = k.
Proof.
  split.
  - intros H k r Hr. destruct (rules_by_program p !! k) as [rules|] eqn:E; [|set_solver].
    specialize (H _ _ E). rewrite Forall_forall in H. by apply H.
  - intros H k rules E. apply Forall_forall. intros r Hr. apply H. by rewrite E.
Qed.

Lemma merge_overlay_policy_rule p overlay r :
  policy_rule (merge_overlay p overlay) r <-> policy_rule p r \/ policy_rule overlay r.
Proof.
  rewrite !policy_rule_default. setoid_rewrite merge_overlay_rules.
  setoid_rewrite elem_of_app. naive_solver.
Qed.

Lemma merge_overlay_wf p overlay : policy_wf p -> policy_wf overlay -> policy_wf (merge_overlay p overlay).
Proof.
  rewrite !policy_wf_default. intros Hp Ho k r. rewrite merge_overlay_rules, elem_of_app.
  intros [?|?]; auto.
Qed.

Lemma add_prefix_rule_wf p prefix d p' :
  policy_wf p -> add_prefix_rule p prefix d = Ok p' -> policy_wf p'.
Proof.
  rewrite !policy_wf_default. intros Hp. destruct prefix as [|w ws]; simpl; [done|].
  intros [= <-] k r. cbn [rules_by_program]. rewrite multimap_insert_default, elem_of_app.
  intros [?|Hr]; [auto|]. case_decide; set_solver.
Qed.

(** The rule [add_prefix_rule] adds, and which commands it matches. *)
Definition prefix_rule_of (prefix : list str) (d : Decision) : PrefixRule :=
  mkRule (mkPattern (default [] (head prefix)) (Single <$> tail prefix)) d None.

Lemma add_prefix_rule_policy_rule p prefix d p' r :
  add_prefix_rule p prefix d = Ok p' ->
  policy_rule p' r <-> policy_rule p r \/ r = prefix_rule_of prefix d.
Proof.
  destruct prefix as [|w ws]; simpl; [done|]. intros [= <-].
  rewrite !policy_rule_default. cbn [rules_by_program]. setoid_rewrite multimap_insert_default.
  setoid_rewrite elem_of_app. split.
  - intros [k [?|Hr]]; [eauto|]. right. case_decide; [by apply list_elem_of_singleton in Hr|].
    by apply not_elem_of_nil in Hr.
  - intros [[k ?]| ->]; [eauto|]. exists w. right. rewrite decide_True by done.
    by apply list_elem_of_singleton.
Qed.

Lemma prefix_rule_of_matches prefix d cmd :
  prefix <> [] ->
  pattern_matches (pattern (prefix_rule_of prefix d)) cmd <-> exists args, cmd = prefix ++ args.
Proof.
  intros Hne. destruct prefix as [|w ws]; [done|].
  assert (forall pre, Forall2 (fun t x => token_matches t x = true) (Single <$> ws) pre <-> pre = ws)
    as Hws.
  { clear. induction ws as [|x ws IH]; intros pre; csimpl.
    { split; [apply Forall2_nil_inv_l|]. by intros ->. }
    split; [|intros ->; constructor; [by apply bool_decide_eq_true|by apply IH]].
    intros (y & pre' & Hy%bool_decide_eq_true & F%IH & ->)%Forall2_cons_inv_l. by subst. }
  unfold pattern_matches. cbn [prefix_rule_of pattern first rest head tail default from_option].
  split.
  - intros (pre & args & -> & F).
    apply Forall2_cons_inv_l in F as (x & pre' & Hx%bool_decide_eq_true & F%Hws & ->). subst.
    by exists args.
  - intros [args ->]. exists (w :: ws), args. split; [done|]. constructor; [|by apply Hws].
    by apply bool_decide_eq_true.
Qed.

(** One command. *)
Section one_command.
Context (home cwd : option str).

Definition is_prefix_match (m : RuleMatch) : bool :=
  match m with HeuristicsRuleMatch _ _ => false | _ => true end.

Lemma match_rules_prefix rules cmd m : m ∈ match_rules rules cmd -> is_prefix_match m = true.
Proof.
  unfold match_rules, rule_matches. intros (r & _ & Hm)%list_elem_of_omap.
  by apply fmap_Some in Hm as (pre & _ & ->).
Qed.

Lemma exact_prefix p cmd m : m ∈ default [] (match_exact_rules p cmd) -> is_prefix_match m = true.
Proof.
  unfold match_exact_rules. destruct cmd as [|w args]; simpl; [set_solver|].
  destruct (rules_by_program p !! w); [apply match_rules_prefix|set_solver].
Qed.

Lemma host_prefix p cmd m :
  m ∈ match_host_executable_rules home cwd p cmd -> is_prefix_match m = true.
Proof.
  unfold match_host_executable_rules. destruct cmd as [|w args]; simpl; [set_solver|].
  destruct (from_absolute_path home cwd w) as [program|]; simpl; [|set_solver].
  destruct (executable_path_lookup_key program) as [base|]; simpl; [|set_solver].
  destruct (rules_by_program p !! base) as [rules|]; simpl; [|set_solver].
  case_goal; simpl; [set_solver|].
  intros (m' & -> & Hm%match_rules_prefix)%list_elem_of_fmap. by destruct m'.
Qed.

Lemma rule_matches_prefix p cmd options m :
  m ∈ matches_for_command_with_options home cwd p cmd None options -> is_prefix_match m = true.
Proof.
  unfold matches_for_command_with_options, non_empty. intros Hm.
  destruct (match_exact_rules p cmd) as [[|m1 ms]|] eqn:E; simpl in Hm.
  2: { apply (exact_prefix p cmd). by rewrite E. }
  all: destruct (resolve_host_executables options); simpl in Hm; [|set_solver].
  all: apply (host_prefix p cmd); by destruct (match_host_executable_rules _ _ _ _).
Qed.

Lemma check_with_options_spec p cmd fallback options :
  policy_wf p -> exists ev, check_with_options home cwd p cmd fallback options = Ok ev
    /\ verdict home cwd p options fallback cmd (decision ev)
    /\ (forall d, verdict home cwd p options fallback cmd d -> severity d <= severity (decision ev))
    /\ (is_match ev = true <-> exists r, consulted home cwd p options cmd r).
Proof.
  intros Hwf. unfold check_with_options.
  destruct (from_matches_spec (matches_for_command_with_options home cwd p cmd (Some fallback) options))
    as (ev & -> & Hms & Hd & Hmax); [apply matches_nonempty|].
  exists ev. split_and!; [done|by apply matches_verdicts| |].
  { intros d Hv. apply Hmax. by apply matches_verdicts. }
  unfold is_match. rewrite Hms.
  pose proof (no_consulted_rule home cwd p cmd options Hwf) as Hno.
  pose proof (rule_matches_prefix p cmd options) as Hpre.
  change (matches_for_command_with_options home cwd p cmd (Some fallback) options) with
    (let ms := matches_for_command_with_options home cwd p cmd None options in
     if is_nil ms then [HeuristicsRuleMatch cmd (fallback cmd)] else ms).
  destruct (matches_for_command_with_options home cwd p cmd None options) as [|m ms] eqn:E; simpl.
  - split; [done|]. intros Hr. by destruct (proj1 Hno eq_refl).
  - specialize (Hpre m ltac:(set_solver)). destruct m as [mp d rp j|]; [|done].
    split; [intros _|done].
    destruct (proj1 (rule_decisions home cwd p cmd options d Hwf)) as (r & Hr & _); [|eauto].
    rewrite E. eexists. split; [by left|done].
Qed.
End one_command.

(** ** Compiled network domains *)

(** The last decision on a host that is not [Prompt]. *)
Definition last_decisive (h : str) (rules : list NetworkRule) : option Decision :=
  foldl (fun acc r =>
    if bool_decide (host r = h) && negb (bool_decide (net_decision r = Prompt))
    then Some (net_decision r) else acc) None rules.

Definition domains_ok (rules : list NetworkRule) (acc : list str * list str) : Prop :=
  NoDup acc.1 /\ NoDup acc.2
  /\ (forall h, h ∈ acc.1 <-> last_decisive h rules = Some Allow)
  /\ (forall h, h ∈ acc.2 <-> last_decisive h rules = Some Forbidden).

Lemma upsert_NoDup l h : NoDup l -> NoDup (upsert_domain l h).
Proof.
  intros Hl. unfold upsert_domain. apply NoDup_app. split_and!.
  - by apply NoDup_filter.
  - intros x [Hx _]%list_elem_of_filter. set_solver.
  - apply NoDup_singleton.
Qed.

Lemma elem_of_upsert l h x : x ∈ upsert_domain l h <-> x ∈ l \/ x = h.
Proof.
  unfold upsert_domain. rewrite elem_of_app, list_elem_of_filter, list_elem_of_singleton.
  destruct (decide (x = h)); naive_solver.
Qed.

Lemma compile_step_ok rules acc r :
  domains_ok rules acc -> domains_ok (rules ++ [r]) (compile_step acc r).
Proof.
  destruct acc as [a d]. intros (Na & Nd & Ha & Hd). simpl in *.
  assert (forall h, last_decisive h (rules ++ [r])
    = if bool_decide (host r = h) && negb (bool_decide (net_decision r = Prompt))
      then Some (net_decision r) else last_decisive h rules) as Hl.
  { intros h. unfold last_decisive. by rewrite foldl_app. }
  unfold domains_ok. setoid_rewrite Hl. clear Hl. unfold compile_step.
  destruct (net_decision r); simpl; split_and!; try done;
    try (by apply upsert_NoDup); try (by apply NoDup_filter);
    intros h; rewrite ?elem_of_upsert, ?list_elem_of_filter, ?Ha, ?Hd;
    rewrite ?andb_false_r, ?andb_true_r; try case_bool_decide; naive_solver.
Qed.

Lemma compiled_domains_ok p : domains_ok (network_rules p) (compiled_network_domains p).
Proof.
  unfold compiled_network_domains.
  induction (network_rules p) as [|r rules IH] using rev_ind.
  - unfold domains_ok. simpl. split_and!; [constructor|constructor|set_solver|set_solver].
  - rewrite foldl_app. simpl. by apply compile_step_ok.
Qed.

(** ** Host names *)

(** Characters a normalised host may have. *)
Definition host_char (c : char) : bool :=
  negb (is_whitespace c) && negb (c =? STAR)%N && negb (c =? SLASH)%N
  && negb (c =? QUESTION)%N && negb (c =? HASH)%N && negb ((65 <=? c) && (c <=? 90))%N.

Definition not_url_char (c : char) : Prop := c <> SLASH /\ c <> QUESTION /\ c <> HASH.

Lemma strip_port_chars (P : char -> Prop) raw h h' :
  Forall P h -> strip_port raw h = Ok h' -> Forall P h'.
Proof.
  intros F. unfold strip_port. destruct (strip_prefix [LBRACKET] h) as [s|] eqn:E.
  - apply strip_prefix_Some in E as ->. inversion F as [|? ? _ Fs]; subst.
    destruct (split_once RBRACKET s) as [[a b]|] eqn:Es; [|done].
    apply split_once_Some in Es as [-> _]. apply Forall_app in Fs as [Fa _].
    case_goal; [done|]. by intros [= <-].
  - destruct (rsplit_once COLON h) as [[a b]|] eqn:Es; [|by intros [= <-]].
    case_goal; intros [= <-]; [|done]. apply rsplit_once_Some in Es as ->.
    by apply Forall_app in F as [? _].
Qed.

Lemma lowercase_not_url c : not_url_char c -> not_url_char (to_ascii_lowercase_char c).
Proof.
  unfold not_url_char, to_ascii_lowercase_char, SLASH, QUESTION, HASH.
  case_goal; [|done]. split_bools. apply N.leb_le in H. lia.
Qed.

Lemma lowercase_not_upper c :
  ((65 <=? to_ascii_lowercase_char c) && (to_ascii_lowercase_char c <=? 90))%N = false.
Proof.
  unfold to_ascii_lowercase_char. destruct ((65 <=? c) && (c <=? 90))%N eqn:E; [|done].
  apply andb_true_iff in E as [H1 H2]. apply N.leb_le in H1. apply andb_false_iff. right.
  apply N.leb_gt. lia.
Qed.

Lemma normalize_host_chars raw h :
  normalize_network_rule_host raw = Ok h -> h <> [] /\ forallb host_char h = true.
Proof.
  unfold normalize_network_rule_host. case_goal; [done|]. case_goal; [done|]. intros Hr.
  run_ok Hr. repeat case_hyp Hr; try done. injection Hr as <-. split_bools.
  split; [by apply is_nil_false|].
  repeat match goal with H : contains_char _ _ = false |- _ => apply contains_char_false in H end.
  assert (Forall not_url_char (trim raw)) as F.
  { apply Forall_forall. intros c Hc. split_and!; intros ->; done. }
  apply (strip_port_chars _ _ _ _ F) in Hr0.
  apply (Forall_trim_end_matches _ (N.eqb 46)), Forall_trim in Hr0.
  apply forallb_forall. intros c Hc%list_elem_of_In. pose proof Hc as Hc'.
  unfold to_ascii_lowercase in Hc'. apply list_elem_of_fmap in Hc' as (x & -> & Hx).
  rewrite Forall_forall in Hr0. apply Hr0, lowercase_not_url in Hx as (Hsl & Hqu & Hha).
  unfold host_char. rewrite lowercase_not_upper.
  assert (is_whitespace (to_ascii_lowercase_char x) = false) as ->.
  { destruct (is_whitespace _) eqn:W; [|done]. rename select (existsb _ _ = false) into He.
    rewrite <- not_true_iff_false in He. destruct He. apply existsb_exists.
    eexists. split; [by apply list_elem_of_In|done]. }
  assert (to_ascii_lowercase_char x <> STAR) as Hst by (intros Heq; by rewrite Heq in Hc).
  apply N.eqb_neq in Hsl, Hqu, Hha, Hst. by rewrite Hsl, Hqu, Hha, Hst.
Qed.

(** A name in any letter case: no bracket, no port, no final dot. *)
Definition host_name (up : str) : bool :=
  negb (is_nil up) && forallb (fun c => host_char (to_ascii_lowercase_char c)) up
  && negb (contains_char LBRACKET up) && negb (contains_char COLON up)
  && is_some_and (last up) (fun c => negb (46 =? c)%N).

Definition port_suffix (port : str) : bool :=
  match port with [] => true | c :: digits => (c =? COLON)%N && is_port digits end.

(** Characters that neither trimming nor the checks of the host touch. *)
Definition plain_char (c : char) : Prop :=
  is_whitespace c = false /\ not_url_char c /\ c <> LBRACKET.

Lemma lower_host_char c : host_char (to_ascii_lowercase_char c) = true ->
  is_whitespace c = false /\ not_url_char c.
Proof.
  unfold host_char, not_url_char, to_ascii_lowercase_char. intros H. split_bools.
  destruct ((65 <=? c) && (c <=? 90))%N eqn:E.
  - apply andb_true_iff in E as [E1%N.leb_le E2%N.leb_le].
    split; [unfold is_whitespace; lia|unfold SLASH, QUESTION, HASH; lia].
  - split; [done|]. by repeat match goal with H : (_ =? _)%N = false |- _ =>
      apply N.eqb_neq in H end.
Qed.

Lemma host_name_parts up : host_name up = true ->
  up <> [] /\ Forall plain_char up /\ COLON ∉ up
  /\ is_some_and (last up) (fun c => negb (46 =? c)%N) = true
  /\ forallb host_char (to_ascii_lowercase up) = true.
Proof.
  unfold host_name. intros H. split_bools.
  rename select (is_nil _ = false) into Hn. apply is_nil_false in Hn.
  repeat match goal with H : contains_char _ _ = false |- _ => apply contains_char_false in H end.
  rename select (forallb _ _ = true) into Hf. rewrite forallb_forall in Hf.
  split_and!; try done.
  - apply Forall_forall. intros c Hc. destruct (lower_host_char c) as [Hw Hu].
    + by apply Hf, list_elem_of_In.
    + split_and!; [done|apply Hu..|]. intros ->. done.
  - apply forallb_forall. intros c Hc%list_elem_of_In. unfold to_ascii_lowercase in Hc.
    apply list_elem_of_fmap in Hc as (x & -> & Hx). by apply Hf, list_elem_of_In.
Qed.

Lemma port_parts port : port_suffix port = true ->
  port = [] \/ exists digits, port = COLON :: digits /\ is_port digits = true
    /\ COLON ∉ digits /\ Forall plain_char port.
Proof.
  destruct port as [|c digits]; simpl; [by left|]. intros [->%N.eqb_eq Hp]%andb_true_iff.
  right. exists digits.
  assert (forall x, x ∈ digits -> (48 <= x <= 57)%N) as Hd.
  { intros x Hx. unfold is_port in Hp. apply andb_true_iff in Hp as [_ Hp].
    rewrite forallb_forall in Hp. apply list_elem_of_In, Hp in Hx. unfold is_ascii_digit in Hx. lia. }
  split_and!; try done.
  - intros Hx%Hd. unfold COLON in Hx. lia.
  - constructor; [done|]. apply Forall_forall. intros x Hx%Hd.
    unfold plain_char, not_url_char, is_whitespace, SLASH, QUESTION, HASH, LBRACKET. lia.
Qed.

Lemma strip_port_plain raw core port :
  core <> [] -> LBRACKET ∉ core -> COLON ∉ core -> port_suffix port = true ->
  strip_port raw (core ++ port) = Ok core.
Proof.
  intros Hne Hb Hc Hport. unfold strip_port.
  destruct (strip_prefix [LBRACKET] (core ++ port)) as [s|] eqn:E.
  { apply strip_prefix_Some in E. destruct core as [|c core]; [done|].
    injection E as -> _. set_solver. }
  assert (filter (fun c => c = COLON) core = []) as Hf.
  { destruct (filter _ core) as [|x l] eqn:Ef; [done|].
    assert (x ∈ filter (fun c => c = COLON) core) as [-> ?]%list_elem_of_filter by (rewrite Ef; by left).
    done. }
  apply port_parts in Hport as [->|(digits & -> & Hp & Hd & _)].
  - rewrite app_nil_r. destruct (rsplit_once COLON core) as [[a b]|] eqn:Er; [|done].
    apply rsplit_once_Some in Er. set_solver.
  - rewrite rsplit_once_app by done. rewrite filter_app, Hf, filter_cons_True by done.
    assert (filter (fun c => c = COLON) digits = []) as ->.
    { destruct (filter _ digits) as [|x l] eqn:Ef; [done|].
      assert (x ∈ filter (fun c => c = COLON) digits) as [-> ?]%list_elem_of_filter
        by (rewrite Ef; by left). done. }
    rewrite Hp, (proj2 (is_nil_false core)) by done. done.
Qed.

Lemma Forall_plain_trim s : Forall plain_char s -> trim s = s.
Proof. intros F. apply trim_no_whitespace. eapply Forall_impl; [exact F|]. by intros c []. Qed.

(** ** Theorems: evaluation *)

(** The matches of a list of commands and their decision. *)
Lemma check_multiple_spec (home cwd : option str) p commands fallback options :
  policy_wf p -> commands <> [] ->
  exists ev, check_multiple_with_options home cwd p commands fallback options = Ok ev
    /\ matched_rules ev = concat ((fun command =>
         matches_for_command_with_options home cwd p command (Some fallback) options) <$> commands)
    /\ (exists cmd, cmd ∈ commands /\ verdict home cwd p options fallback cmd (decision ev))
    /\ (forall cmd d, cmd ∈ commands -> verdict home cwd p options fallback cmd d ->
          severity d <= severity (decision ev)).
Proof.
  intros Hwf Hne. unfold check_multiple_with_options.
  set (ms := concat _).
  assert (forall d, d ∈ match_decision <$> ms <->
    exists cmd, cmd ∈ commands /\ verdict home cwd p options fallback cmd d) as Hms.
  { intros d. unfold ms. rewrite list_elem_of_fmap. setoid_rewrite elem_of_concat_fmap.
    setoid_rewrite <- matches_verdicts; [|done..].
    setoid_rewrite list_elem_of_fmap. naive_solver. }
  destruct (from_matches_spec ms) as (ev & -> & Hev & Hd & Hmax).
  { destruct commands as [|c cs]; [done|]. unfold ms. simpl.
    intros [H _]%app_eq_nil. by apply matches_nonempty in H. }
  exists ev. split_and!; [done|done|by apply Hms|]. intros cmd d Hc Hv. apply Hmax, Hms. eauto.
Qed.

(** C11: the verdict of a policy on a list of commands is the strictest of the
    verdicts of its commands.  A command's verdicts are those of the rules that
    match it as written; only when there are none, and resolution is on, those
    of the rules for the base name of a permitted absolute path; and only when
    no rule applies, the fallback's.  So a matching rule can neither be skipped
    nor outvoted.  With no command at all the evaluation panics. *)
Theorem check_multiple_strictest (home cwd : option str) (p : Policy)
  (commands : list (list str)) (fallback : list str -> Decision) (options : MatchOptions) :
  policy_wf p ->
  (commands = [] ->
     check_multiple_with_options home cwd p commands fallback options = Panic) /\
  (commands <> [] -> exists ev,
     check_multiple_with_options home cwd p commands fallback options = Ok ev
     /\ (exists cmd, cmd ∈ commands /\ verdict home cwd p options fallback cmd (decision ev))
     /\ (forall cmd d, cmd ∈ commands -> verdict home cwd p options fallback cmd d ->
           severity d <= severity (decision ev))).
Proof.
  intros Hwf. split; [by intros ->|]. intros Hne.
  destruct (check_multiple_spec home cwd p commands fallback options Hwf Hne)
    as (ev & -> & _ & Hin & Hmax). by exists ev.
Qed.

(** [git] is allowed, [git push] is forbidden. *)
Definition git_policy : result Error Policy :=
  let? p := add_prefix_rule policy_empty [L"git"] Allow in
  add_prefix_rule p [L"git"; L"push"] Forbidden.
Definition prompt_all (cmd : list str) : Decision := Prompt.

Lemma policy_empty_wf : policy_wf policy_empty.
Proof. intros k rules. simpl. by rewrite lookup_empty. Qed.

Lemma git_policy_wf p : git_policy = Ok p -> policy_wf p.
Proof.
  unfold git_policy. destruct (add_prefix_rule policy_empty [L"git"] Allow) as [q| | |] eqn:E;
    [|done..].
  apply add_prefix_rule_wf. by apply (add_prefix_rule_wf _ _ _ _ policy_empty_wf E).
Qed.

Lemma check_multiple_strictest_witness :
  exists p ev, git_policy = Ok p
    /\ check_multiple_with_options None None p
         [[L"git"; L"status"]; [L"git"; L"push"; L"-f"]; [L"ls"]] prompt_all default_options = Ok ev
    /\ decision ev = Forbidden /\ length (matched_rules ev) = 4
    /\ (exists cmd, cmd ∈ [[L"git"; L"status"]; [L"git"; L"push"; L"-f"]; [L"ls"]]
         /\ verdict None None p default_options prompt_all cmd (decision ev)).
Proof.
  assert (exists p, git_policy = Ok p) as [p Hp] by (eexists; vm_compute; reflexivity).
  destruct (check_multiple_strictest None None p
    [[L"git"; L"status"]; [L"git"; L"push"; L"-f"]; [L"ls"]] prompt_all default_options
    (git_policy_wf p Hp)) as [_ H].
  destruct H as (ev & He & Hv & _); [done|]. exists p, ev. split; [done|]. split; [done|].
  vm_compute in Hp. injection Hp as <-.
  vm_compute in He. injection He as <-. split; [reflexivity|]. split; [reflexivity|]. exact Hv.
Defined.

(** Merging an overlay adds to the rules of every program, in order, and
    takes nothing away.  So when some rule matches a command as written, the
    merged policy also decides by rules, and no more leniently. *)
Theorem merge_overlay_only_tightens (home cwd : option str) (p overlay : Policy)
  (cmd : list str) (fallback : list str -> Decision) (ev : Evaluation) :
  policy_wf p -> policy_wf overlay ->
  check home cwd p cmd fallback = Ok ev -> is_match ev = true ->
  (forall program, default [] (rules_by_program (merge_overlay p overlay) !! program)
     = default [] (rules_by_program p !! program)
       ++ default [] (rules_by_program overlay !! program)) /\
  exists ev', check home cwd (merge_overlay p overlay) cmd fallback = Ok ev'
    /\ (exists r, exact_rule (merge_overlay p overlay) cmd r /\ rule_decision r = decision ev')
    /\ severity (decision ev) <= severity (decision ev').
Proof.
  intros Hp Ho He Hm. split; [apply merge_overlay_rules|].
  pose proof (merge_overlay_wf p overlay Hp Ho) as Hw. unfold check in *.
  destruct (check_with_options_spec home cwd p cmd fallback default_options Hp)
    as (ev1 & E1 & Hv1 & _ & Hm1). rewrite E1 in He. injection He as ->.
  destruct (proj1 Hm1 Hm) as [r0 Hr0].
  destruct Hv1 as [(r & [Hr|[? _]] & Hd)|[Hno _]]; [|done|by destruct Hno; exists r0].
  assert (exact_rule (merge_overlay p overlay) cmd r) as Hr'.
  { destruct Hr. split; [|done]. apply merge_overlay_policy_rule. by left. }
  destruct (check_with_options_spec home cwd (merge_overlay p overlay) cmd fallback default_options Hw)
    as (ev' & -> & Hv' & Hmax & _).
  exists ev'. split_and!; [done| |].
  - destruct Hv' as [(r' & [?|[? _]] & ?)|[Hno _]]; [by exists r'|done|].
    destruct Hno. exists r. by left.
  - rewrite <- Hd. apply Hmax. left. exists r. split; [by left|done].
Qed.

Lemma merge_overlay_only_tightens_witness :
  exists p ev ev', git_policy = Ok p
    /\ check None None (policy_new {[ L"git" := [mkRule (mkPattern (L"git") []) Prompt None] ]})
         [L"git"; L"push"] prompt_all = Ok ev /\ decision ev = Prompt
    /\ check None None (merge_overlay
         (policy_new {[ L"git" := [mkRule (mkPattern (L"git") []) Prompt None] ]}) p)
         [L"git"; L"push"] prompt_all = Ok ev'
    /\ severity (decision ev) <= severity (decision ev').
Proof.
  assert (exists p, git_policy = Ok p) as [p Hp] by (eexists; vm_compute; reflexivity).
  set (base := policy_new _).
  assert (policy_wf base) as Hb.
  { intros k rules. simpl. intros [<- <-]%lookup_singleton_Some. by constructor. }
  assert (exists ev, check None None base [L"git"; L"push"] prompt_all = Ok ev
    /\ decision ev = Prompt /\ is_match ev = true) as (ev & He & Hd & Hm)
    by (eexists; split; [vm_compute; reflexivity|split; reflexivity]).
  destruct (merge_overlay_only_tightens None None base p [L"git"; L"push"] prompt_all ev Hb
    (git_policy_wf p Hp) He Hm) as (_ & ev' & He' & _ & Hs).
  by exists p, ev, ev'.
Defined.

(** The compiled domain lists have no duplicates and no common host, and a
    host is in the allowed (denied) list exactly when the last of its rules that
    is not a prompt allows (forbids) it. *)
Theorem compiled_domains_last_rule_wins (p : Policy) :
  let '(allowed, denied) := compiled_network_domains p in
  NoDup allowed /\ NoDup denied /\ (forall h, h ∈ allowed -> h ∉ denied)
  /\ (forall h, h ∈ allowed <-> last_decisive h (network_rules p) = Some Allow)
  /\ (forall h, h ∈ denied <-> last_decisive h (network_rules p) = Some Forbidden).
Proof.
  pose proof (compiled_domains_ok p) as (Na & Nd & Ha & Hd).
  destruct (compiled_network_domains p) as [allowed denied]. simpl in *.
  split_and!; try done. intros h. rewrite Ha, Hd. congruence.
Qed.

(** The allowed prefixes are listed in strictly increasing order, hence
    without duplicates and independently of the order of the map, and they are
    exactly the rendered patterns of the allowing rules. *)
Theorem allowed_prefixes_canonical (p : Policy) :
  StronglySorted (compare_lt prefix_cmp) (get_allowed_prefixes p)
  /\ NoDup (get_allowed_prefixes p)
  /\ (forall prefix, prefix ∈ get_allowed_prefixes p <->
       exists r, policy_rule p r /\ rule_decision r = Allow
         /\ prefix = first (pattern r) :: (render_pattern_token <$> rest (pattern r))).
Proof.
  assert (StronglySorted (compare_lt prefix_cmp) (get_allowed_prefixes p)) as Hs.
  { apply dedup_increasing; [apply _|]. apply StronglySorted_merge_sort;
      [apply compare_le_trans|apply compare_le_total]; apply _. }
  split_and!; [done|by apply increasing_NoDup with prefix_cmp; [apply _|]|]. intros prefix.
  unfold get_allowed_prefixes. rewrite elem_of_dedup, merge_sort_Permutation, elem_of_concat_fmap.
  split.
  - intros ([k rules] & Hk%elem_of_map_to_list & (r & Hr & Ha)%list_elem_of_omap).
    unfold allowed_prefix in Ha. case_bool_decide; [|done]. injection Ha as <-.
    exists r. split_and!; [by exists k, rules|done|done].
  - intros (r & (k & rules & Hk & Hr) & Ha & ->). exists (k, rules).
    split; [by apply elem_of_map_to_list|]. apply list_elem_of_omap. exists r.
    unfold allowed_prefix. by rewrite bool_decide_true.
Qed.

(** An accepted network host is not empty and has neither white space nor
    upper-case ASCII letters, wildcards, or the characters of a path, query or
    fragment. *)
Theorem normalize_host_safe (raw h : str) :
  normalize_network_rule_host raw = Ok h -> h <> [] /\ forallb host_char h = true.
Proof. apply normalize_host_chars. Qed.

Lemma normalize_host_safe_witness :
  normalize_network_rule_host (L" [2001:DB8::1]:443 ") = Ok (L"2001:db8::1")
  /\ forallb host_char (L"2001:db8::1") = true.
Proof.
  split; [vm_compute; reflexivity|].
  apply (normalize_host_safe (L" [2001:DB8::1]:443 ")). vm_compute. reflexivity.
Defined.

(** Every spelling of a host name normalises to the name in lower case:
    surrounding white space, letter case, trailing dots and a port make no
    difference. *)
Theorem normalize_host_spellings (up w1 w2 port : str) (dots : nat) :
  host_name up = true -> port_suffix port = true ->
  Forall (fun c => is_whitespace c = true) w1 -> Forall (fun c => is_whitespace c = true) w2 ->
  normalize_network_rule_host (w1 ++ (up ++ replicate dots 46%N ++ port) ++ w2)
  = Ok (to_ascii_lowercase up).
Proof.
  intros Hup Hport H1 H2. destruct (host_name_parts up Hup) as (Hne & Fup & Hcol & Hlast & Hlow).
  set (core := up ++ replicate dots 46%N). rewrite (app_assoc up). fold core.
  assert (Forall plain_char core) as Fcore.
  { apply Forall_app. split; [done|]. apply Forall_replicate. by repeat split. }
  assert (Forall plain_char (core ++ port)) as F.
  { apply Forall_app. split; [done|]. apply port_parts in Hport as [->|(? & ? & ? & ? & ?)]; done. }
  assert (core <> []) as Hcore by (unfold core; by destruct up).
  unfold normalize_network_rule_host.
  rewrite trim_surround; [|done|done|by apply Forall_plain_trim|by destruct core].
  assert (forall c, ~ plain_char c -> c ∉ core ++ port) as Habs.
  { intros c Hc Hin. rewrite Forall_forall in F. by apply Hc, F. }
  rewrite (proj2 (is_nil_false _)) by (by destruct core).
  rewrite (contains_absent SLASH); [|by right; left|apply Habs; unfold plain_char, not_url_char; naive_solver].
  rewrite !(proj2 (contains_char_false _ _))
    by (apply Habs; unfold plain_char, not_url_char; naive_solver).
  simpl orb. cbv iota. rewrite strip_port_plain; try done; cycle 1.
  { intros Hb. rewrite Forall_forall in Fcore. by apply Fcore in Hb as (_ & _ & ?). }
  { unfold core. rewrite elem_of_app. intros [?|[? _]%elem_of_replicate]; done. }
  simpl rbind. unfold core. rewrite trim_end_matches_app; [|by apply Forall_replicate|done].
  rewrite Forall_plain_trim by done.
  rewrite forallb_forall in Hlow.
  rewrite (proj2 (is_nil_false _)) by (unfold to_ascii_lowercase; by destruct up).
  rewrite (proj2 (contains_char_false _ _)).
  2: { intros Hs%list_elem_of_In%Hlow. done. }
  destruct (existsb is_whitespace _) eqn:Ew; [|done].
  apply existsb_exists in Ew as (c & Hc%Hlow & Hw). unfold host_char in Hc. by rewrite Hw in Hc.
Qed.

Lemma normalize_host_spellings_witness :
  normalize_network_rule_host (L"  API.GitHub.com..:8443") = Ok (L"api.github.com").
Proof.
  apply (normalize_host_spellings (L"API.GitHub.com") (L"  ") [] (L":8443") 2);
    [vm_compute; reflexivity|vm_compute; reflexivity|repeat constructor|constructor].
Defined.
