(* ===== verification/ExecPolicyParser.v ===== *)
(** * Reading and amending policy files (execpolicy/src: parser.rs, amend.rs)

    A policy file is a Starlark program that calls three built-in functions.
    The Starlark evaluator is third-party code and is an argument: it turns a
    file into the calls the file makes, in order, and how evaluation ends.  The
    built-ins return [None], so what a file calls does not depend on them, and a
    call that fails ends the evaluation.  The [shlex] functions and the [Debug]
    renderings used in error texts are arguments too. *)

From S2P Require Import Prelude RustStr AbsolutePath PatchApply ExecPolicy.

(** ** Starlark values *)

Inductive Value :=
| VString (s : str)
| VList (items : list Value)
| VOther (type_name : str).

Definition get_type (v : Value) : str :=
  match v with VString _ => L"string" | VList _ => L"list" | VOther t => t end.

Definition unpack_str (v : Value) : option str :=
  match v with VString s => Some s | _ => None end.

Definition parse_pattern_token (value : Value) : result Error PatternToken :=
  match value with
  | VString s => Ok (Single s)
  | VList content =>
      let? tokens := traverse (fun value =>
        ok_or (unpack_str value)
          (InvalidPattern (L"pattern alternative must be a string (got " ++ get_type value ++ L")")))
        content in
      match tokens with
      | [] => Err (InvalidPattern (L"pattern alternatives cannot be empty"))
      | [single] => Ok (Single single)
      | _ => Ok (Alts tokens)
      end
  | VOther t =>
      Err (InvalidPattern
        (L"pattern element must be a string or list of strings (got " ++ t ++ L")"))
  end.

Definition parse_pattern (pattern : list Value) : result Error (list PatternToken) :=
  let? tokens := traverse parse_pattern_token pattern in
  if is_nil tokens then Err (InvalidPattern (L"pattern cannot be empty")) else Ok tokens.

Definition parse_list_example (items : list Value) : result Error (list str) :=
  let? tokens := traverse (fun value =>
    ok_or (unpack_str value)
      (InvalidExample (L"example tokens must be strings (got " ++ get_type value ++ L")"))) items in
  if is_nil tokens then Err (InvalidExample (L"example cannot be an empty list")) else Ok tokens.

Definition validate_host_executable_name (name : str) : result Error unit :=
  if is_nil name then Err (InvalidRule (L"host_executable name cannot be empty"))
  else if negb (length (components name) =? 1)
          || negb (bool_decide (file_name (components name) = Some name))
  then Err (InvalidRule
         (L"host_executable name must be a bare executable name (got " ++ name ++ L")"))
  else Ok tt.

Definition parse_network_rule_decision (raw : str) : result Error Decision :=
  if str_eqb raw (L"deny") then Ok Forbidden else decision_parse raw.

Definition attach_validation_location (error : Error) (location : option ErrorLocation) : Error :=
  match location with Some location => with_location error location | None => error end.

(** ** The builder *)

Record PendingExampleValidation := mkPending {
  pending_rules : list PrefixRule;
  pending_matches : list (list str);
  pending_not_matches : list (list str);
  pending_location : option ErrorLocation }.

Record PolicyBuilder := mkBuilder {
  b_rules_by_program : gmap str (list PrefixRule);
  b_network_rules : list NetworkRule;
  b_host_executables_by_name : gmap str (list (list Component));
  pending_example_validations : list PendingExampleValidation }.

Definition builder_new : PolicyBuilder := mkBuilder ∅ [] ∅ [].

Definition add_rule (b : PolicyBuilder) (rule : PrefixRule) : PolicyBuilder :=
  mkBuilder (multimap_insert (b_rules_by_program b) (rule_program rule) rule)
    (b_network_rules b) (b_host_executables_by_name b) (pending_example_validations b).
Definition builder_add_network_rule (b : PolicyBuilder) (rule : NetworkRule) : PolicyBuilder :=
  mkBuilder (b_rules_by_program b) (b_network_rules b ++ [rule])
    (b_host_executables_by_name b) (pending_example_validations b).
Definition add_host_executable (b : PolicyBuilder) (name : str) (paths : list (list Component))
  : PolicyBuilder :=
  mkBuilder (b_rules_by_program b) (b_network_rules b)
    (<[name := paths]> (b_host_executables_by_name b)) (pending_example_validations b).
Definition add_pending_example_validation (b : PolicyBuilder) (rules : list PrefixRule)
  (matches not_matches : list (list str)) (location : option ErrorLocation) : PolicyBuilder :=
  mkBuilder (b_rules_by_program b) (b_network_rules b) (b_host_executables_by_name b)
    (pending_example_validations b ++ [mkPending rules matches not_matches location]).

Definition build (b : PolicyBuilder) : Policy :=
  mkPolicy (b_rules_by_program b) (b_network_rules b) (b_host_executables_by_name b).

(** The calls a policy file can make. *)
Inductive Call :=
| CallPrefixRule (pattern : list Value) (decision : option str)
    (match_ not_match : option (list Value)) (justification : option str)
    (location : option FileSpan)
| CallNetworkRule (host protocol decision : str) (justification : option str)
| CallHostExecutable (name : str) (paths : list Value).

Section parser.
Context (home cwd : option str) (cwd_error : str).
Context (shlex_split : str -> option (list str)) (shlex_join : list str -> option str).
Context (debug_rule : PrefixRule -> str) (debug_match : RuleMatch -> str).

Definition parse_string_example (raw : str) : result Error (list str) :=
  let? tokens := ok_or (shlex_split raw)
    (InvalidExample (L"example string has invalid shell syntax")) in
  if is_nil tokens then Err (InvalidExample (L"example cannot be an empty string")) else Ok tokens.

Definition parse_example (value : Value) : result Error (list str) :=
  match value with
  | VString raw => parse_string_example raw
  | VList items => parse_list_example items
  | VOther t =>
      Err (InvalidExample (L"example must be a string or list of strings (got " ++ t ++ L")"))
  end.

Definition parse_examples (examples : list Value) : result Error (list (list str)) :=
  traverse parse_example examples.

Definition render_example (example : list str) : str :=
  default (L"unable to render example") (shlex_join example).

Definition example_matches (policy : Policy) (example : list str) : list RuleMatch :=
  matches_for_command_with_options home cwd policy example None (mkOptions true).

Definition validate_match_examples (policy : Policy) (rules : list PrefixRule)
  (matches : list (list str)) : result Error unit :=
  let unmatched_examples :=
    render_example <$> filter (fun example => example_matches policy example = []) matches in
  if is_nil unmatched_examples then Ok tt
  else Err (ExampleDidNotMatch (debug_rule <$> rules) unmatched_examples None).

Fixpoint validate_not_match_examples (policy : Policy) (rules : list PrefixRule)
  (not_matches : list (list str)) : result Error unit :=
  match not_matches with
  | [] => Ok tt
  | example :: others =>
      match example_matches policy example with
      | rule :: _ => Err (ExampleDidMatch (debug_match rule) (render_example example) None)
      | [] => validate_not_match_examples policy rules others
      end
  end.

(** The policy an example is checked against: the rules of its own call. *)
Definition validation_policy (b : PolicyBuilder) (v : PendingExampleValidation) : Policy :=
  mkPolicy
    (foldl (fun m rule => multimap_insert m (rule_program rule) rule) ∅ (pending_rules v))
    [] (b_host_executables_by_name b).

Definition validate_pending (b : PolicyBuilder) (v : PendingExampleValidation)
  : result Error unit :=
  let policy := validation_policy b v in
  let located r := map_err (fun e => attach_validation_location e (pending_location v)) r in
  let? _ := located (validate_not_match_examples policy (pending_rules v) (pending_not_matches v)) in
  located (validate_match_examples policy (pending_rules v) (pending_matches v)).

Definition validate_pending_examples_from (b : PolicyBuilder) (start : nat) : result Error unit :=
  if start <=? length (pending_example_validations b) then
    let? _ := traverse (validate_pending b) (drop start (pending_example_validations b)) in Ok tt
  else Panic.

(** A justification must not be blank. *)
Definition check_justification (justification : option str) : result Error (option str) :=
  if blank_justification justification
  then Err (InvalidRule (L"justification cannot be empty")) else Ok justification.

Definition optional_examples (examples : option (list Value)) : result Error (list (list str)) :=
  match examples with Some examples => parse_examples examples | None => Ok [] end.

Definition prefix_rule (b : PolicyBuilder) (pattern : list Value) (decision : option str)
  (match_ not_match : option (list Value)) (justification : option str)
  (location : option FileSpan) : result Error PolicyBuilder :=
  let? decision := match decision with Some raw => decision_parse raw | None => Ok Allow end in
  let? justification := check_justification justification in
  let? pattern_tokens := parse_pattern pattern in
  let? matches := optional_examples match_ in
  let? not_matches := optional_examples not_match in
  let location := error_location_from_file_span <$> location in
  match pattern_tokens with
  | [] => Err (InvalidPattern (L"pattern cannot be empty"))
  | first_token :: rest =>
      let rules :=
        (fun head => mkRule (mkPattern head rest) decision justification)
          <$> alternatives first_token in
      let b := add_pending_example_validation b rules matches not_matches location in
      Ok (foldl add_rule b rules)
  end.

Definition network_rule (b : PolicyBuilder) (host protocol decision : str)
  (justification : option str) : result Error PolicyBuilder :=
  let? protocol := protocol_parse protocol in
  let? decision := parse_network_rule_decision decision in
  let? justification := check_justification justification in
  let? host := normalize_network_rule_host host in
  Ok (builder_add_network_rule b (mkNetworkRule host protocol decision justification)).

Definition parse_literal_absolute_path (raw : str) : result Error (list Component) :=
  if negb (is_absolute raw)
  then Err (InvalidRule (L"host_executable paths must be absolute (got " ++ raw ++ L")"))
  else ok_or (from_absolute_path home cwd raw)
         (InvalidRule (L"invalid absolute path `" ++ raw ++ L"`: " ++ cwd_error)).

(** The loop over the paths, with the paths parsed so far. *)
Fixpoint parse_paths (name : str) (paths : list Value) (parsed_paths : list (list Component))
  : result Error (list (list Component)) :=
  match paths with
  | [] => Ok parsed_paths
  | value :: paths =>
      let? raw := ok_or (unpack_str value)
        (InvalidRule (L"host_executable paths must be strings (got " ++ get_type value ++ L")")) in
      let? path := parse_literal_absolute_path raw in
      let bad := Err (InvalidRule
        (L"host_executable path `" ++ raw ++ L"` must have basename `" ++ name ++ L"`")) in
      match executable_path_lookup_key path with
      | None => bad
      | Some path_name =>
          if negb (str_eqb path_name (executable_lookup_key name)) then bad
          else parse_paths name paths
                 (if existsb (fun existing => bool_decide (existing = path)) parsed_paths
                  then parsed_paths else parsed_paths ++ [path])
      end
  end.

Definition host_executable (b : PolicyBuilder) (name : str) (paths : list Value)
  : result Error PolicyBuilder :=
  let? _ := validate_host_executable_name name in
  let? parsed_paths := parse_paths name paths [] in
  Ok (add_host_executable b (executable_lookup_key name) parsed_paths).

Definition run_call (b : PolicyBuilder) (c : Call) : result Error PolicyBuilder :=
  match c with
  | CallPrefixRule pattern decision match_ not_match justification location =>
      prefix_rule b pattern decision match_ not_match justification location
  | CallNetworkRule host protocol decision justification =>
      network_rule b host protocol decision justification
  | CallHostExecutable name paths => host_executable b name paths
  end.

(** How the evaluator reports an error of a built-in. *)
Context (wrap : Error -> StarlarkError).
(** Parsing and evaluating a file: a syntax error, or the calls it makes and the
    error evaluation ends with, if any. *)
Context (starlark : str -> str -> StarlarkError + (list Call * option StarlarkError)).

Fixpoint eval_calls (b : PolicyBuilder) (calls : list Call) (ending : option StarlarkError)
  : PolicyBuilder * result Error unit :=
  match calls with
  | [] => (b, match ending with Some e => Err (Starlark e) | None => Ok tt end)
  | c :: calls =>
      match run_call b c with
      | Ok b' => eval_calls b' calls ending
      | Err e => (b, Err (Starlark (wrap e)))
      | Panic => (b, Panic)
      | OutOfFuel => (b, OutOfFuel)
      end
  end.

Definition parse (b : PolicyBuilder) (policy_identifier policy_file_contents : str)
  : PolicyBuilder * result Error unit :=
  let pending_validation_count := length (pending_example_validations b) in
  match starlark policy_identifier policy_file_contents with
  | inl e => (b, Err (Starlark e))
  | inr (calls, ending) =>
      let '(b', r) := eval_calls b calls ending in
      (b', let? _ := r in validate_pending_examples_from b' pending_validation_count)
  end.
End parser.

(** ** Rules filed under their programs *)

Lemma file_rules_default m rules k :
  default [] (foldl (fun m rule => multimap_insert m (rule_program rule) rule) m rules !! k)
  = default [] (m !! k) ++ filter (fun r => rule_program r = k) rules.
Proof.
  revert m. induction rules as [|r rules IH]; intros m; simpl; [by rewrite app_nil_r|].
  rewrite IH, multimap_insert_default, filter_cons, <- app_assoc. f_equal.
  destruct (decide (k = rule_program r)); destruct (decide (rule_program r = k)); done || congruence.
Qed.

Lemma validation_policy_rules b v k :
  default [] (rules_by_program (validation_policy b v) !! k)
  = filter (fun r => rule_program r = k) (pending_rules v).
Proof. unfold validation_policy. cbn [rules_by_program]. by rewrite file_rules_default, lookup_empty. Qed.

Lemma validation_policy_wf b v : policy_wf (validation_policy b v).
Proof.
  apply policy_wf_default. intros k r. rewrite validation_policy_rules.
  by intros [? _]%list_elem_of_filter.
Qed.

Lemma validation_policy_rule b v r : policy_rule (validation_policy b v) r <-> r ∈ pending_rules v.
Proof.
  rewrite policy_rule_default. setoid_rewrite validation_policy_rules.
  setoid_rewrite list_elem_of_filter. naive_solver.
Qed.

Lemma add_rules_build b rules :
  rules_by_program (build (foldl add_rule b rules))
  = foldl (fun m rule => multimap_insert m (rule_program rule) rule) (b_rules_by_program b) rules
  /\ b_network_rules (foldl add_rule b rules) = b_network_rules b
  /\ b_host_executables_by_name (foldl add_rule b rules) = b_host_executables_by_name b
  /\ pending_example_validations (foldl add_rule b rules) = pending_example_validations b.
Proof. revert b. induction rules as [|r rules IH]; intros b; [done|]. apply IH. Qed.

(** ** The builder's invariant *)

Definition host_paths_ok (name : str) (paths : list (list Component)) : Prop :=
  NoDup paths /\ Forall (fun p => file_name p = Some name /\ absolute_normal p) paths.

Definition network_rule_ok (r : NetworkRule) : Prop :=
  host r <> [] /\ forallb host_char (host r) = true.

Definition pending_ok (b : PolicyBuilder) (v : PendingExampleValidation) : Prop :=
  pending_rules v <> [] /\ forall r, r ∈ pending_rules v -> policy_rule (build b) r.

Record builder_ok (b : PolicyBuilder) : Prop := {
  ok_rules : policy_wf (build b);
  ok_hosts : forall name paths, b_host_executables_by_name b !! name = Some paths ->
    host_paths_ok name paths;
  ok_network : Forall network_rule_ok (b_network_rules b);
  ok_pending : Forall (pending_ok b) (pending_example_validations b) }.

(** [b'] has all that [b] has. *)
Definition extends (b b' : PolicyBuilder) : Prop :=
  (forall r, policy_rule (build b) r -> policy_rule (build b') r)
  /\ (exists vs, pending_example_validations b' = pending_example_validations b ++ vs).

#[export] Instance extends_preorder : PreOrder extends.
Proof.
  split.
  - intros b. split; [done|]. exists []. by rewrite app_nil_r.
  - intros b1 b2 b3 [H12 [v1 E1]] [H23 [v2 E2]]. split; [auto|].
    exists (v1 ++ v2). by rewrite E2, E1, app_assoc.
Qed.

Lemma builder_new_ok : builder_ok builder_new.
Proof.
  split; [| |constructor|constructor]; intros k l; simpl; by rewrite lookup_empty.
Qed.

Section builtins.
Context (shlex_split : str -> option (list str)).

Lemma parse_pattern_token_settled v :
  yields (fun t => alternatives t <> []) (fun _ => True) (parse_pattern_token v).
Proof.
  destruct v as [s|content|t]; simpl; [done| |done].
  eapply yields_bind; [apply settled_traverse; intros; apply ok_or_settled|].
  intros [|x [|y tokens]] _; done.
Qed.

Lemma parse_pattern_yields pat :
  yields (fun ts => ts <> [] /\ Forall (fun t => alternatives t <> []) ts) (fun _ => True)
    (parse_pattern pat).
Proof.
  unfold parse_pattern. eapply yields_bind.
  { apply (traverse_yields (fun t => alternatives t <> [])).
    intros v _. apply parse_pattern_token_settled. }
  intros ts Hts. case_goal; [done|]. split; [by apply is_nil_false|done].
Qed.

Lemma parse_examples_settled l : settled (parse_examples shlex_split l).
Proof.
  apply settled_traverse. intros [s|items|t]; simpl; [| |done].
  - unfold parse_string_example. apply settled_bind; [apply ok_or_settled|]. intros. by case_goal.
  - unfold parse_list_example. apply settled_bind; [|intros; by case_goal].
    apply settled_traverse. intros. apply ok_or_settled.
Qed.

Lemma optional_examples_settled o : settled (optional_examples shlex_split o).
Proof. destruct o; [apply parse_examples_settled|done]. Qed.

Lemma check_justification_settled j : settled (check_justification j).
Proof. unfold check_justification. by case_goal. Qed.

Lemma decision_parse_settled raw : settled (decision_parse raw).
Proof. unfold decision_parse. by repeat case_goal. Qed.

Lemma file_rules_ok b rules :
  builder_ok b -> rules <> [] ->
  builder_ok (foldl add_rule b rules) /\ extends b (foldl add_rule b rules)
  /\ (forall r, r ∈ rules -> policy_rule (build (foldl add_rule b rules)) r).
Proof.
  intros [Hr Hh Hn Hp] Hne. destruct (add_rules_build b rules) as (Er & En & Eh & Ep).
  assert (forall r, policy_rule (build (foldl add_rule b rules)) r
    <-> policy_rule (build b) r \/ r ∈ rules) as Hpr.
  { intros r. rewrite !policy_rule_default, Er. setoid_rewrite file_rules_default.
    setoid_rewrite elem_of_app. setoid_rewrite list_elem_of_filter. simpl. naive_solver. }
  split_and!.
  - split; [|by rewrite Eh|by rewrite En|].
    + rewrite policy_wf_default in Hr |- *. rewrite Er. intros k r. rewrite file_rules_default.
      rewrite elem_of_app, list_elem_of_filter. naive_solver.
    + rewrite Ep. eapply Forall_impl; [exact Hp|]. intros v [Hv1 Hv2]. split; [done|].
      intros r Hr'. apply Hpr. left. by apply Hv2.
  - split; [intros r ?; apply Hpr; by left|]. exists []. by rewrite Ep, app_nil_r.
  - intros r ?. apply Hpr. by right.
Qed.

Lemma add_pending_commutes b rules rules' ms nms loc :
  foldl add_rule (add_pending_example_validation b rules' ms nms loc) rules
  = add_pending_example_validation (foldl add_rule b rules) rules' ms nms loc.
Proof. revert b. induction rules as [|r rules IH]; intros b; [done|]. apply (IH (add_rule b r)). Qed.

(** The rules a [prefix_rule] call stands for: one for each alternative of the
    first element of its pattern. *)
Definition call_rules (pat : list Value) (dec : option str) (j : option str)
  (rules : list PrefixRule) : Prop :=
  exists t ts d, parse_pattern pat = Ok (t :: ts)
    /\ match dec with Some raw => decision_parse raw = Ok d | None => d = Allow end
    /\ rules = (fun head => mkRule (mkPattern head ts) d j) <$> alternatives t.

(** What a successful [prefix_rule] leaves behind. *)
Lemma prefix_rule_yields b pat dec m nm j loc :
  builder_ok b ->
  yields (fun b' => builder_ok b' /\ extends b b'
      /\ exists v, pending_example_validations b' = pending_example_validations b ++ [v]
          /\ call_rules pat dec j (pending_rules v)
          /\ optional_examples shlex_split m = Ok (pending_matches v)
          /\ optional_examples shlex_split nm = Ok (pending_not_matches v))
    (fun _ => True) (prefix_rule shlex_split b pat dec m nm j loc).
Proof.
  intros Hb. unfold prefix_rule.
  eapply yields_bind; [apply settled_yields with (P := fun d =>
      match dec with Some raw => decision_parse raw = Ok d | None => d = Allow end);
    destruct dec; [apply decision_parse_settled|done|done|by intros ? [= <-]]|]. intros d Hd.
  eapply yields_bind; [apply settled_yields with (P := fun just => just = j);
    [apply check_justification_settled|]|].
  { unfold check_justification. intros ?. case_goal; by intros [= <-]. }
  intros just ->.
  eapply yields_bind; [apply settled_yields with (P := fun ts => parse_pattern pat = Ok ts);
    [eapply yields_settled, parse_pattern_yields|done]|]. intros ts Hts.
  destruct (yields_Ok _ _ _ _ (parse_pattern_yields pat) Hts) as [Hne Halt].
  eapply yields_bind; [apply settled_yields with (P := fun ms => optional_examples shlex_split m = Ok ms);
    [apply optional_examples_settled|done]|]. intros ms Hms.
  eapply yields_bind; [apply settled_yields with (P := fun ms => optional_examples shlex_split nm = Ok ms);
    [apply optional_examples_settled|done]|]. intros nms Hnms.
  destruct ts as [|t ts]; [done|]. simpl. inversion Halt as [|?? Ht _]; subst.
  set (rules := _ <$> _). assert (rules <> []) as Hr by (unfold rules; by destruct (alternatives t)).
  rewrite add_pending_commutes. destruct (file_rules_ok b rules Hb Hr) as (Hb' & [He1 [vs He2]] & Hin).
  set (b' := foldl add_rule b rules) in *. split_and!.
  - destruct Hb' as [? ? ? Hp]. split; [done..|]. simpl. apply Forall_app. split; [done|].
    by repeat constructor.
  - split; [done|]. exists (vs ++ [mkPending rules ms nms (error_location_from_file_span <$> loc)]).
    simpl. by rewrite He2, app_assoc.
  - eexists. simpl. unfold b'. rewrite (proj2 (proj2 (proj2 (add_rules_build b rules)))).
    split_and!; [done| |done|done]. by exists t, ts, d.
Qed.

Lemma network_rule_yields b h proto dec j :
  builder_ok b ->
  yields (fun b' => builder_ok b' /\ extends b b') (fun _ => True) (network_rule b h proto dec j).
Proof.
  intros Hb. unfold network_rule.
  eapply yields_bind; [instantiate (1 := fun _ => True); unfold protocol_parse; by repeat case_goal|].
  intros p _. eapply yields_bind; [instantiate (1 := fun _ => True);
    unfold parse_network_rule_decision; case_goal; [done|apply decision_parse_settled]|].
  intros d _. eapply yields_bind; [apply check_justification_settled|]. intros just _.
  eapply yields_bind; [apply settled_yields with (P := fun h' => h' <> [] /\ forallb host_char h' = true)|].
  - unfold normalize_network_rule_host, strip_port. repeat (case_goal; simpl; try done).
  - apply normalize_host_chars.
  - intros h' Hh. destruct Hb as [? ? Hn ?]. split.
    + split; try done. simpl. apply Forall_app. split; [done|]. by constructor.
    + split; [done|]. exists []. by rewrite app_nil_r.
Qed.

Context (home cwd : option str) (cwd_error : str).

Lemma maybe_expand_absolute raw : is_absolute raw = true -> maybe_expand_home_directory home raw = raw.
Proof.
  intros Ha. unfold maybe_expand_home_directory. destruct home; [|done].
  destruct (strip_prefix [TILDE] raw) as [r|] eqn:E; [|done].
  apply strip_prefix_Some in E as ->. by apply is_absolute_head in Ha.
Qed.

Lemma parse_literal_yields raw :
  yields absolute_normal (fun _ => True) (parse_literal_absolute_path home cwd cwd_error raw).
Proof.
  unfold parse_literal_absolute_path. destruct (is_absolute raw) eqn:Ha; [|done]. simpl.
  unfold from_absolute_path. rewrite maybe_expand_absolute, Ha by done. simpl.
  by apply normalize_path_absolute.
Qed.

Lemma parse_paths_yields name paths acc :
  host_paths_ok name acc ->
  yields (host_paths_ok name) (fun _ => True) (parse_paths home cwd cwd_error name paths acc).
Proof.
  revert acc. induction paths as [|v paths IH]; intros acc Hacc; simpl; [done|].
  eapply yields_bind; [apply ok_or_settled|]. intros raw _.
  eapply yields_bind; [apply parse_literal_yields|]. intros path Hp.
  unfold executable_path_lookup_key. destruct (file_name path) as [base|] eqn:Eb; simpl; [|done].
  case_goal; [done|]. apply negb_false_iff, bool_decide_eq_true in E. unfold executable_lookup_key in E.
  subst base. apply IH. destruct (existsb _ acc) eqn:Ex; [done|]. destruct Hacc as [Hnd Hall]. split.
  - apply NoDup_app. split_and!; [done| |apply NoDup_singleton].
    intros x Hx ->%list_elem_of_singleton. rewrite <- not_true_iff_false in Ex. apply Ex.
    apply existsb_exists. exists path. split; [by apply list_elem_of_In|by apply bool_decide_eq_true].
  - apply Forall_app. split; [done|]. by constructor.
Qed.

Lemma host_executable_yields b name paths :
  builder_ok b ->
  yields (fun b' => builder_ok b' /\ extends b b') (fun _ => True)
    (host_executable home cwd cwd_error b name paths).
Proof.
  intros Hb. unfold host_executable.
  eapply yields_bind; [instantiate (1 := fun _ => True);
    unfold validate_host_executable_name; by repeat case_goal|]. intros _ _.
  eapply yields_bind; [apply parse_paths_yields; split; constructor|]. intros parsed Hp.
  destruct Hb as [? Hh ? ?]. split.
  - split; try done. simpl. intros n ps. unfold executable_lookup_key.
    destruct (decide (n = name)) as [->|]; [rewrite lookup_insert_eq; by intros [= <-]|].
    rewrite lookup_insert_ne by done. apply Hh.
  - split; [done|]. exists []. by rewrite app_nil_r.
Qed.

Lemma run_call_yields b c :
  builder_ok b ->
  yields (fun b' => builder_ok b' /\ extends b b') (fun _ => True)
    (run_call home cwd cwd_error shlex_split b c).
Proof.
  intros Hb. destruct c; simpl.
  - eapply yields_weaken; [by apply prefix_rule_yields| |done]. by intros b' (? & ? & _).
  - by apply network_rule_yields.
  - by apply host_executable_yields.
Qed.
End builtins.

(** ** Evaluation and validation *)

Section parsing.
Context (home cwd : option str) (cwd_error : str).
Context (shlex_split : str -> option (list str)) (shlex_join : list str -> option str).
Context (debug_rule : PrefixRule -> str) (debug_match : RuleMatch -> str).
Context (wrap : Error -> StarlarkError).
Context (starlark : str -> str -> StarlarkError + (list Call * option StarlarkError)).

Local Abbreviation run b c := (run_call home cwd cwd_error shlex_split b c).
Local Abbreviation eval b cs e := (eval_calls home cwd cwd_error shlex_split wrap b cs e).
Local Abbreviation parse_file b i t :=
  (parse home cwd cwd_error shlex_split shlex_join debug_rule debug_match wrap starlark b i t).

Lemma eval_calls_ok b calls ending :
  builder_ok b ->
  builder_ok (eval b calls ending).1 /\ extends b (eval b calls ending).1
  /\ settled (eval b calls ending).2.
Proof.
  revert b. induction calls as [|c calls IH]; intros b Hb; simpl.
  { split_and!; [done|done|by destruct ending]. }
  pose proof (run_call_yields shlex_split home cwd cwd_error b c Hb) as Hc.
  destruct (run b c) as [b'|e| |]; try done. destruct Hc as [Hb' He].
  destruct (IH b' Hb') as (? & ? & ?). split_and!; [done|by transitivity b'|done].
Qed.

(** A call of a completed evaluation left its examples behind. *)
Lemma eval_calls_pending b calls ending pat dec m nm j loc :
  builder_ok b -> (eval b calls ending).2 = Ok tt ->
  CallPrefixRule pat dec m nm j loc ∈ calls ->
  exists v, v ∈ drop (length (pending_example_validations b))
                  (pending_example_validations (eval b calls ending).1)
    /\ call_rules pat dec j (pending_rules v)
    /\ optional_examples shlex_split m = Ok (pending_matches v)
    /\ optional_examples shlex_split nm = Ok (pending_not_matches v).
Proof.
  revert b. induction calls as [|c calls IH]; intros b Hb Hok Hin; [set_solver|]. simpl in *.
  pose proof (run_call_yields shlex_split home cwd cwd_error b c Hb) as Hc.
  destruct (run b c) as [b'|e| |] eqn:Erun; try done. destruct Hc as [Hb' [_ [vs Hvs]]].
  destruct (eval_calls_ok b' calls ending Hb') as (_ & [_ [vs' Hvs']] & _).
  apply elem_of_cons in Hin as [<-|Hin].
  - pose proof (prefix_rule_yields shlex_split b pat dec m nm j loc Hb) as Hy.
    simpl in Erun. rewrite Erun in Hy. destruct Hy as (_ & _ & v & Hlast & Hm).
    exists v. split; [|done]. rewrite Hvs', Hlast, <- app_assoc, drop_app_length. by left.
  - destruct (IH b' Hb' Hok Hin) as (v & Hv & Hm). exists v. split; [|done].
    rewrite Hvs', Hvs, drop_app_length in Hv.
    rewrite Hvs', Hvs, <- app_assoc, drop_app_length. apply elem_of_app. by right.
Qed.

Lemma validate_not_match_spec policy rules exs :
  yields (fun _ => forall ex, ex ∈ exs -> example_matches home cwd policy ex = [])
    (fun _ => True) (validate_not_match_examples home cwd shlex_join debug_match policy rules exs).
Proof.
  induction exs as [|ex exs IH]; simpl; [set_solver|].
  destruct (example_matches home cwd policy ex) eqn:E; [|done].
  eapply yields_weaken; [exact IH| |done]. intros u H x [Hx|Hx]%elem_of_cons; [by rewrite Hx|auto].
Qed.

Lemma validate_match_spec policy rules exs :
  yields (fun _ => forall ex, ex ∈ exs -> example_matches home cwd policy ex <> [])
    (fun _ => True) (validate_match_examples home cwd shlex_join debug_rule policy rules exs).
Proof.
  unfold validate_match_examples. case_goal; [|done]. simpl. intros ex Hex Hn.
  apply is_nil_true, fmap_nil_inv in E.
  assert (ex ∈ filter (fun example => example_matches home cwd policy example = []) exs) as H
    by (by apply list_elem_of_filter).
  rewrite E in H. set_solver.
Qed.

Lemma yields_map_err {E F A} (P : A -> Prop) (f : E -> F) (r : result E A) :
  yields P (fun _ => True) r -> yields P (fun _ => True) (map_err f r).
Proof. by destruct r. Qed.

Definition validated (b : PolicyBuilder) (v : PendingExampleValidation) : Prop :=
  (forall ex, ex ∈ pending_matches v -> example_matches home cwd (validation_policy b v) ex <> [])
  /\ (forall ex, ex ∈ pending_not_matches v ->
       example_matches home cwd (validation_policy b v) ex = []).

Lemma validate_from_spec b start :
  start <= length (pending_example_validations b) ->
  yields (fun _ => Forall (validated b) (drop start (pending_example_validations b)))
    (fun _ => True)
    (validate_pending_examples_from home cwd shlex_join debug_rule debug_match b start).
Proof.
  intros Hs. unfold validate_pending_examples_from. rewrite (proj2 (Nat.leb_le _ _)) by done.
  induction (drop start (pending_example_validations b)) as [|v vs IH]; simpl; [constructor|].
  rewrite rbind_assoc. eapply yields_bind.
  - unfold validate_pending. eapply yields_bind; [apply yields_map_err, validate_not_match_spec|].
    intros u Hn. eapply yields_weaken; [apply yields_map_err, validate_match_spec| |done].
    intros u2 Hm. exact (conj Hm Hn : validated b v).
  - intros u Hv. rewrite rbind_assoc. simpl.
    destruct (traverse _ vs); simpl in *; try done. by constructor.
Qed.

Lemma parse_ok b id text :
  builder_ok b -> builder_ok (parse_file b id text).1 /\ settled (parse_file b id text).2.
Proof.
  intros Hb. unfold parse. destruct (starlark id text) as [e|[calls ending]]; [done|].
  destruct (eval_calls_ok b calls ending Hb) as (Hb' & [_ [vs Hvs]] & Hs).
  destruct (eval b calls ending) as [b' r]. simpl in *. split; [done|].
  destruct r; try done. simpl. eapply yields_settled, validate_from_spec.
  rewrite Hvs, length_app. lia.
Qed.

(** All files in turn, starting from a new parser. *)
Definition parse_all (files : list (str * str)) : PolicyBuilder :=
  foldl (fun b '(id, text) => (parse_file b id text).1) builder_new files.

Lemma parse_all_ok files : builder_ok (parse_all files).
Proof.
  unfold parse_all. assert (forall b, builder_ok b ->
    builder_ok (foldl (fun b '(id, text) => (parse_file b id text).1) b files)) as H.
  { induction files as [|[id text] files IH]; intros b Hb; simpl; [done|]. by apply IH, parse_ok. }
  apply H, builder_new_ok.
Qed.

(** The rules of a call, seen from the policy that is being built. *)
Lemma validated_positive b v ex :
  pending_ok b v -> validated b v -> ex ∈ pending_matches v ->
  exists r, r ∈ pending_rules v
    /\ (exact_rule (build b) ex r \/ host_rule home cwd (build b) ex r).
Proof.
  intros [_ Hin] [Hm _] Hex. specialize (Hm ex Hex). unfold example_matches in Hm.
  destruct (matches_for_command_with_options _ _ _ ex None _) as [|m ms] eqn:E; [done|].
  destruct (proj1 (rule_decisions home cwd (validation_policy b v) ex (mkOptions true)
    (match_decision m) (validation_policy_wf b v))) as (r & Hc & _).
  { rewrite E. exists m. split; [by left|done]. }
  destruct Hc as [[Hr Hp]|(_ & _ & w & args & prog & base & Hcmd & Ha & Hb & Hh & Hr & Hp)];
    apply validation_policy_rule in Hr; exists r; (split; [done|]).
  - left. split; [by apply Hin|done].
  - right. exists w, args, prog, base. split_and!; try done. by apply Hin.
Qed.

Lemma validated_negative b v ex r :
  validated b v -> ex ∈ pending_not_matches v -> r ∈ pending_rules v ->
  ~ exact_rule (build b) ex r /\ ~ host_rule home cwd (build b) ex r.
Proof.
  intros [_ Hn] Hex Hr. specialize (Hn ex Hex). unfold example_matches in Hn.
  apply (no_consulted_rule home cwd _ _ _ (validation_policy_wf b v)) in Hn.
  apply (validation_policy_rule b) in Hr. split.
  - intros [_ Hp]. apply Hn. exists r. by left.
  - intros (w & args & prog & base & Hcmd & Ha & Hb & Hh & _ & Hp). apply Hn. exists r. right.
    split; [done|]. split.
    + intros (r' & Hr'). apply Hn. exists r'. by left.
    + exists w, args, prog, base. by split_and!.
Qed.
End parsing.

(** ** Theorems *)

Section policy_files.
Context (home cwd : option str) (cwd_error : str).
Context (shlex_split : str -> option (list str)) (shlex_join : list str -> option str).
Context (debug_rule : PrefixRule -> str) (debug_match : RuleMatch -> str).
Context (wrap : Error -> StarlarkError).
Context (starlark : str -> str -> StarlarkError + (list Call * option StarlarkError)).
Local Abbreviation parse_file b i t :=
  (parse home cwd cwd_error shlex_split shlex_join debug_rule debug_match wrap starlark b i t).
Local Abbreviation load files :=
  (parse_all home cwd cwd_error shlex_split shlex_join debug_rule debug_match wrap starlark files).

(** Whatever policy files are read, and whichever of them fail half-way,
    the builder stays well formed: every rule is filed under its program, every
    path of a host executable is an absolute normal path with that base name and
    is listed once, every network host is in normal form, and every pending
    example belongs to rules that are in the policy.  Reading one more file
    never panics. *)
Theorem policy_files_well_formed (files : list (str * str)) (id text : str) :
  builder_ok (load files) /\ policy_wf (build (load files))
  /\ settled (parse_file (load files) id text).2.
Proof.
  pose proof (parse_all_ok home cwd cwd_error shlex_split shlex_join debug_rule debug_match
    wrap starlark files) as H.
  split_and!; [done|apply H|by apply parse_ok].
Qed.

(** When a policy file is read without error, the examples of each of its
    [prefix_rule] calls describe the rules of that call as they are in the
    policy: each positive example is matched by one of them, as written or
    through the base name of a permitted absolute path, and no negative example
    is matched by any of them in either way. *)
Theorem policy_file_examples_hold (b b' : PolicyBuilder) (id text : str)
  (calls : list Call) (ending : option StarlarkError)
  pat dec (m nm : option (list Value)) j loc :
  builder_ok b -> starlark id text = inr (calls, ending) ->
  parse_file b id text = (b', Ok tt) -> CallPrefixRule pat dec m nm j loc ∈ calls ->
  exists (rules : list PrefixRule) (matches not_matches : list (list str)),
    call_rules pat dec j rules
    /\ optional_examples shlex_split m = Ok matches
    /\ optional_examples shlex_split nm = Ok not_matches
    /\ (forall r, r ∈ rules -> policy_rule (build b') r)
    /\ (forall ex, ex ∈ matches -> exists r, r ∈ rules
          /\ (exact_rule (build b') ex r \/ host_rule home cwd (build b') ex r))
    /\ (forall ex r, ex ∈ not_matches -> r ∈ rules ->
          ~ exact_rule (build b') ex r /\ ~ host_rule home cwd (build b') ex r).
Proof.
  intros Hb Hs. unfold parse. rewrite Hs. intros Hp Hin.
  destruct (eval_calls_ok home cwd cwd_error shlex_split wrap b calls ending Hb)
    as (Hb' & [_ [vs Hvs]] & _).
  pose proof (eval_calls_pending home cwd cwd_error shlex_split wrap b calls ending
    pat dec m nm j loc Hb) as Hpend.
  destruct (eval_calls _ _ _ _ _ _ _ _) as [b1 r]. simpl in *.
  destruct r as [[]|e| |]; simpl in Hp; try done. injection Hp as -> Hval.
  destruct (Hpend eq_refl Hin) as (v & Hv & Hrules & Hm & Hnm).
  pose proof (validate_from_spec home cwd shlex_join debug_rule debug_match b'
    (length (pending_example_validations b))) as Hspec.
  rewrite Hval in Hspec. simpl in Hspec.
  assert (Forall (validated home cwd b') (drop (length (pending_example_validations b))
    (pending_example_validations b'))) as Hall.
  { apply Hspec. rewrite Hvs, length_app. lia. }
  rewrite Forall_forall in Hall. pose proof (Hall v Hv) as Hvalid.
  assert (pending_ok b' v) as Hok.
  { destruct Hb' as [_ _ _ Hpo]. rewrite Forall_forall in Hpo. apply Hpo.
    eapply (subseteq_drop _ _ v), Hv. }
  exists (pending_rules v), (pending_matches v), (pending_not_matches v).
  split_and!; [done|done|done|apply Hok| |].
  - intros ex Hex. by apply validated_positive.
  - intros ex r Hex Hr. by apply (validated_negative home cwd b' v).
Qed.
End policy_files.

(** A file that allows [git status] and [git log], with examples. *)
Definition git_call : Call :=
  CallPrefixRule [VString (L"git"); VList [VString (L"status"); VString (L"log")]] None
    (Some [VList [VString (L"git"); VString (L"log"); VString (L"-1")]])
    (Some [VList [VString (L"git"); VString (L"push")]]) (Some (L"read only")) None.
Definition git_file (id text : str) : StarlarkError + (list Call * option StarlarkError) :=
  inr ([CallHostExecutable (L"git") [VString (L"/usr/bin/git")]; git_call], None).
Definition split_words (raw : str) : option (list str) := Some (split_char SP raw).
Definition join_words (ws : list str) : option str := Some (join [SP] ws).
Definition wrap_error (e : Error) : StarlarkError := mkStarlark [] None.

Lemma policy_file_examples_hold_witness :
  exists b' rules, parse None None [] split_words join_words (fun _ => []) (fun _ => [])
      wrap_error git_file builder_new [] [] = (b', Ok tt)
    /\ call_rules [VString (L"git"); VList [VString (L"status"); VString (L"log")]] None
         (Some (L"read only")) rules
    /\ forall r, r ∈ rules -> ~ exact_rule (build b') [L"git"; L"push"] r
                 /\ ~ host_rule None None (build b') [L"git"; L"push"] r.
Proof.
  assert (exists b', parse None None [] split_words join_words (fun _ => []) (fun _ => [])
    wrap_error git_file builder_new [] [] = (b', Ok tt)) as [b' Hp]
    by (eexists; vm_compute; reflexivity).
  destruct (policy_file_examples_hold None None [] split_words join_words (fun _ => []) (fun _ => [])
    wrap_error git_file builder_new b' [] [] [CallHostExecutable (L"git") [VString (L"/usr/bin/git")];
      git_call] None _ _ _ _ _ _ builder_new_ok eq_refl Hp ltac:(right; left))
    as (rules & ms & nms & Hr & _ & Hn & _ & _ & Hneg).
  exists b', rules. split; [done|]. split; [done|]. intros r Hin. apply Hneg; [|done].
  vm_compute in Hn. injection Hn as <-. left.
Defined.
