(* ===== verification/ExecPolicyAmend.v ===== *)
(** * Amending a policy file (execpolicy/src/amend.rs)

    A rule is appended as one line under an advisory lock, unless the line is
    there already.  The file operations are a class; [serde_json::to_string] on a
    string is an argument. *)

From S2P Require Import Prelude RustStr AbsolutePath PatchApply PatchFs ExecPolicy.

Inductive AmendError :=
| EmptyPrefix
| InvalidNetworkRule (message : str)
| MissingParent (path : list Component)
| CreatePolicyDir (dir : list Component) (source : io_error)
| SerializePrefix (source : str)
| SerializeNetworkRule (source : str)
| OpenPolicyFile (path : list Component) (source : io_error)
| WritePolicyFile (path : list Component) (source : io_error)
| LockPolicyFile (path : list Component) (source : io_error)
| SeekPolicyFile (path : list Component) (source : io_error)
| ReadPolicyFile (path : list Component) (source : io_error).

(** The operations on the policy file, by its path. *)
Class PolicyStore (S : Type) := {
  create_dir : S -> list Component -> S * io_result unit;
  open_append : S -> list Component -> S * io_result unit;
  lock : S -> list Component -> S * io_result unit;
  seek_start : S -> list Component -> S * io_result unit;
  read_to_string : S -> list Component -> S * io_result str;
  write_all : S -> list Component -> str -> S * io_result unit }.

Definition quoted (s : str) : str := DQUOTE :: s ++ [DQUOTE].

Definition decision_word (d : Decision) : str :=
  match d with Allow => L"allow" | Prompt => L"prompt" | Forbidden => L"deny" end.

Section amend.
Context {S : Type} `{PolicyStore S}.
Context (to_json : str -> str + str).
(** The derived [Display] of the errors that carry debug renderings. *)
Context (display_other : Error -> str).

Definition display_error (e : Error) : str :=
  match e with
  | InvalidDecision s => L"invalid decision: " ++ s
  | InvalidPattern s => L"invalid pattern element: " ++ s
  | InvalidExample s => L"invalid example: " ++ s
  | InvalidRule s => L"invalid rule: " ++ s
  | other => display_other other
  end.

(** One fallible file operation. *)
Definition step {A B} (r : S * io_result A) (err : io_error -> AmendError)
  (k : A -> S -> S * result AmendError B) : S * result AmendError B :=
  match r with
  | (s, inl a) => k a s
  | (s, inr e) => (s, Err (err e))
  end.

Definition append_locked_line (policy_path : list Component) (line : str) (s : S)
  : S * result AmendError unit :=
  step (open_append s policy_path) (OpenPolicyFile policy_path) (fun _ s =>
  step (lock s policy_path) (LockPolicyFile policy_path) (fun _ s =>
  step (seek_start s policy_path) (SeekPolicyFile policy_path) (fun _ s =>
  step (read_to_string s policy_path) (ReadPolicyFile policy_path) (fun contents s =>
  if existsb (fun existing => str_eqb existing line) (lines contents) then (s, Ok tt)
  else
    let finish s :=
      step (write_all s policy_path (line ++ [LF])) (WritePolicyFile policy_path)
        (fun _ s => (s, Ok tt)) in
    if negb (is_nil contents) && negb (ends_with [LF] contents)
    then step (write_all s policy_path [LF]) (WritePolicyFile policy_path) (fun _ s => finish s)
    else finish s)))).

Definition append_rule_line (policy_path : list Component) (rule : str) (s : S)
  : S * result AmendError unit :=
  match path_parent policy_path with
  | None => (s, Err (MissingParent policy_path))
  | Some dir =>
      match create_dir s dir with
      | (s, inl _) => append_locked_line policy_path rule s
      | (s, inr source) =>
          if bool_decide (io_kind source = AlreadyExists)
          then append_locked_line policy_path rule s
          else (s, Err (CreatePolicyDir dir source))
      end
  end.

Definition json (err : str -> AmendError) (s : str) : result AmendError str :=
  match to_json s with inl text => Ok text | inr e => Err (err e) end.

(** The texts of the two kinds of lines. *)
Definition prefix_rule_text (tokens : list str) : str :=
  let pattern := L"[" ++ join (L", ") tokens ++ L"]" in
  L"prefix_rule(pattern=" ++ pattern ++ L", decision=" ++ quoted (L"allow") ++ L")".
Definition network_rule_text (args : list str) : str :=
  L"network_rule(" ++ join (L", ") args ++ L")".
Definition keyword (name value : str) : str := name ++ L"=" ++ value.

(** The line for a prefix rule. *)
Definition prefix_rule_line (prefix : list str) : result AmendError str :=
  if is_nil prefix then Err EmptyPrefix
  else
    let? tokens := traverse (json SerializePrefix) prefix in
    Ok (prefix_rule_text tokens).

(** The line for a network rule. *)
Definition network_rule_line (host : str) (protocol : NetworkRuleProtocol) (decision : Decision)
  (justification : option str) : result AmendError str :=
  let? host := map_err (fun e => InvalidNetworkRule (display_error e))
                 (normalize_network_rule_host host) in
  if blank_justification justification
  then Err (InvalidNetworkRule (L"justification cannot be empty"))
  else
    let? host := json SerializeNetworkRule host in
    let? protocol := json SerializeNetworkRule (as_policy_string protocol) in
    let? decision := json SerializeNetworkRule (decision_word decision) in
    let args := [keyword (L"host") host; keyword (L"protocol") protocol;
                 keyword (L"decision") decision] in
    let? args := match justification with
      | Some justification =>
          let? justification := json SerializeNetworkRule justification in
          Ok (args ++ [keyword (L"justification") justification])
      | None => Ok args
      end in
    Ok (network_rule_text args).

Definition append_line (line : result AmendError str) (policy_path : list Component) (s : S)
  : S * result AmendError unit :=
  match line with
  | Ok rule => append_rule_line policy_path rule s
  | Err e => (s, Err e)
  | Panic => (s, Panic)
  | OutOfFuel => (s, OutOfFuel)
  end.

Definition blocking_append_allow_prefix_rule (policy_path : list Component) (prefix : list str) :=
  append_line (prefix_rule_line prefix) policy_path.
Definition blocking_append_network_rule (policy_path : list Component) (host : str)
  (protocol : NetworkRuleProtocol) (decision : Decision) (justification : option str) :=
  append_line (network_rule_line host protocol decision justification) policy_path.
End amend.

(** ** The effect on the text *)

(** The file after a line was asked for. *)
Definition amended (t line : str) : str :=
  if existsb (fun existing => str_eqb existing line) (lines t) then t
  else t ++ (if negb (is_nil t) && negb (ends_with [LF] t) then [LF] else []) ++ line ++ [LF].

Lemma finish_lines_app a b : b <> [] -> finish_lines (a ++ b) = (strip_cr <$> a) ++ finish_lines b.
Proof.
  intros Hb. induction a as [|x a IH]; [done|]. csimpl.
  destruct (a ++ b) as [|y l] eqn:E; [by apply app_eq_nil in E as [_ ?]|].
  change (finish_lines (x :: y :: l)) with (strip_cr x :: finish_lines (y :: l)). by rewrite IH.
Qed.

(** A complete line at the end of a text of complete lines. *)
Lemma lines_snoc_line t line :
  LF ∉ line -> strip_suffix [CR] line = None -> lines (t ++ LF :: line ++ [LF])
  = (strip_cr <$> split_char LF t) ++ [line].
Proof.
  intros Hl Hc. unfold lines. rewrite split_char_app_sep, split_char_app by done.
  rewrite finish_lines_app by done. simpl. by rewrite strip_cr_ok.
Qed.

Lemma lines_complete u : lines (u ++ [LF]) = strip_cr <$> split_char LF u.
Proof.
  unfold lines. rewrite split_char_app_sep. simpl. rewrite finish_lines_app by done.
  simpl. by rewrite app_nil_r.
Qed.

Lemma lines_incomplete t :
  t <> [] -> ends_with [LF] t = false -> ends_with [CR] t = false ->
  lines t = strip_cr <$> split_char LF t.
Proof.
  intros Hne Hlf Hcr. unfold lines.
  destruct (split_char LF t) as [|x parts _] eqn:E using rev_ind; [by apply split_char_nonempty in E|].
  pose proof (join_split_char LF t) as Hj. rewrite E, join_unlines in Hj.
  assert (x <> []) as Hx.
  { intros ->. rewrite app_nil_r in Hj. destruct (unlines_ends parts) as [H|H]; congruence. }
  rewrite finish_lines_app, fmap_app by done. simpl. rewrite (proj2 (is_nil_false x)) by done.
  rewrite strip_cr_ok; [done|]. destruct (strip_suffix [CR] x) as [y|] eqn:Ey; [|done].
  apply strip_suffix_Some in Ey as ->. rewrite <- not_true_iff_false in Hcr. destruct Hcr.
  apply ends_with_true. exists (unlines parts ++ y). by rewrite <- app_assoc.
Qed.

Lemma amended_lines t line :
  line_ok line -> ends_with [CR] t = false -> line ∉ lines t ->
  lines (amended t line) = lines t ++ [line].
Proof.
  intros [Hl Hc] Hcr Hnot. unfold amended.
  assert (existsb (fun existing => str_eqb existing line) (lines t) = false) as ->.
  { apply not_true_iff_false. intros (x & Hx & ->%bool_decide_eq_true)%existsb_exists.
    by apply Hnot, list_elem_of_In. }
  destruct t as [|c t].
  { simpl. rewrite <- (strip_cr_ok line Hc) at 2. rewrite lines_complete.
    by rewrite split_char_none. }
  destruct (ends_with [LF] (c :: t)) eqn:E; simpl negb; simpl andb; cbv iota; rewrite ?app_nil_l.
  - apply ends_with_true in E as [u ->]. rewrite lines_complete, <- app_assoc. simpl.
    by apply lines_snoc_line.
  - rewrite (lines_incomplete (c :: t)) by done. simpl ([LF] ++ _). by apply lines_snoc_line.
Qed.

Lemma amended_has_line t line :
  line_ok line -> ends_with [CR] t = false -> line ∈ lines (amended t line).
Proof.
  intros Hl Hcr. destruct (decide (line ∈ lines t)) as [Hin|Hout].
  - unfold amended. assert (existsb (fun existing => str_eqb existing line) (lines t) = true) as ->;
      [|done]. apply existsb_exists. exists line.
    split; [by apply list_elem_of_In|by apply bool_decide_eq_true].
  - rewrite amended_lines by done. set_solver.
Qed.

Lemma amended_present t line : line ∈ lines t -> amended t line = t.
Proof.
  intros Hin. unfold amended.
  assert (existsb (fun existing => str_eqb existing line) (lines t) = true) as ->; [|done].
  apply existsb_exists. exists line. split; [by apply list_elem_of_In|by apply bool_decide_eq_true].
Qed.

(** ** Theorems *)

(** What a store promises: reading after a seek gives the whole text and changes
    nothing; writing appends. *)
Class PolicyStoreLaws (S : Type) `{PolicyStore S} := {
  text : S -> list Component -> str;
  seek_ok : forall s p s', seek_start s p = (s', inl tt) ->
    text s' p = text s p /\ forall s'' c, read_to_string s' p = (s'', inl c) ->
      c = text s p /\ text s'' p = text s p;
  write_ok : forall s p c s', write_all s p c = (s', inl tt) -> text s' p = text s p ++ c }.

Section append.
Context {S : Type} `{PolicyStoreLaws S}.

(** The state in which the lock is held. *)
Definition locked_state (path : list Component) (s : S) : S :=
  let s := match path_parent path with Some dir => (create_dir s dir).1 | None => s end in
  (lock (open_append s path).1 path).1.

Lemma append_locked_line_text path line s s' :
  append_locked_line path line s = (s', Ok tt) ->
  text s' path = amended (text (lock (open_append s path).1 path).1 path) line.
Proof.
  unfold append_locked_line, step.
  destruct (open_append s path) as [s1 []]; [|done].
  destruct (lock s1 path) as [s2 []] eqn:El; [|done]. simpl. rewrite El. simpl.
  destruct (seek_start s2 path) as [s3 [[]|]] eqn:Es; [|done].
  destruct (read_to_string s3 path) as [s4 [c|]] eqn:Er; [|done].
  destruct (seek_ok _ _ _ Es) as [_ Hread]. destruct (Hread _ _ Er) as [-> Ht].
  unfold amended. case_goal; [by intros [= <-]|]. case_goal.
  - destruct (write_all s4 path [LF]) as [s5 [[]|]] eqn:E5; [|done].
    destruct (write_all s5 path (line ++ [LF])) as [s6 [[]|]] eqn:E6; [|done]. intros [= <-].
    by rewrite (write_ok _ _ _ _ E6), (write_ok _ _ _ _ E5), Ht, <- app_assoc.
  - destruct (write_all s4 path (line ++ [LF])) as [s6 [[]|]] eqn:E6; [|done]. intros [= <-].
    by rewrite (write_ok _ _ _ _ E6), Ht.
Qed.

Lemma append_rule_line_text path line s s' :
  append_rule_line path line s = (s', Ok tt) ->
  text s' path = amended (text (locked_state path s) path) line.
Proof.
  unfold append_rule_line, locked_state. destruct (path_parent path) as [dir|]; [|done].
  destruct (create_dir s dir) as [s1 []]; simpl; [apply append_locked_line_text|].
  case_bool_decide; [apply append_locked_line_text|done].
Qed.
End append.

Section json_lines.
Context (to_json : str -> str + str) (display_other : Error -> str).
(** JSON strings escape control characters. *)
Hypothesis to_json_one_line : forall s t, to_json s = inl t -> LF ∉ t.

Lemma LF_absent c : c <> LF -> LF ∉ [c].
Proof. set_solver. Qed.

Lemma LF_join sep parts : LF ∉ sep -> Forall (fun p => LF ∉ p) parts -> LF ∉ join sep parts.
Proof.
  intros Hs. induction 1 as [|p parts Hp Hf IH]; [set_solver|]. destruct parts; [done|].
  change (join sep (p :: l :: parts)) with (p ++ sep ++ join sep (l :: parts)). set_solver.
Qed.

Lemma json_no_LF err s : yields (fun t => LF ∉ t) (fun _ => True) (json to_json err s).
Proof.
  unfold json. destruct (to_json s) eqn:E; [|done]. by apply to_json_one_line in E.
Qed.

(** A rule text ends with its closing parenthesis. *)
Lemma rule_text_ok a : LF ∉ a -> line_ok (a ++ L")").
Proof.
  intros Ha. split.
  - rewrite not_elem_of_app. split; [done|]. by apply LF_absent.
  - destruct (strip_suffix [CR] (a ++ L")")) as [b|] eqn:E; [|done].
    apply strip_suffix_Some in E. by apply app_inj_tail in E as [_ ?].
Qed.

Lemma contains_char_absent c s : contains_char c s = false -> c ∉ s.
Proof. apply contains_char_false. Qed.

Lemma prefix_rule_text_ok tokens :
  Forall (fun t => LF ∉ t) tokens -> line_ok (prefix_rule_text tokens).
Proof.
  intros Ht. unfold prefix_rule_text. rewrite !app_assoc. apply rule_text_ok.
  rewrite !not_elem_of_app. split_and!; try (apply contains_char_absent; reflexivity).
  apply LF_join; [apply contains_char_absent; reflexivity|done].
Qed.

Lemma network_rule_text_ok args :
  Forall (fun t => LF ∉ t) args -> line_ok (network_rule_text args).
Proof.
  intros Ht. unfold network_rule_text. rewrite app_assoc. apply rule_text_ok.
  rewrite not_elem_of_app. split; [apply contains_char_absent; reflexivity|].
  apply LF_join; [apply contains_char_absent; reflexivity|done].
Qed.

Lemma keyword_no_LF name value :
  contains_char LF name = false -> LF ∉ value -> LF ∉ keyword name value.
Proof.
  intros Hn%contains_char_absent Hv. unfold keyword. rewrite !not_elem_of_app.
  split_and!; [done|apply contains_char_absent; reflexivity|done].
Qed.

Lemma prefix_rule_line_ok prefix line :
  prefix_rule_line to_json prefix = Ok line -> line_ok line.
Proof.
  unfold prefix_rule_line. case_goal; [done|]. intros Hl. run_ok Hl. injection Hl as <-.
  pose proof (traverse_yields (fun t => LF ∉ t) (fun _ => True) (json to_json SerializePrefix)
    prefix (fun a _ => json_no_LF _ a)) as Ht. rewrite Hr in Ht.
  by apply prefix_rule_text_ok.
Qed.

Lemma network_rule_line_ok h proto d j line :
  network_rule_line to_json display_other h proto d j = Ok line -> line_ok line.
Proof.
  unfold network_rule_line. intros Hl. run_ok Hl. case_hyp Hl; [done|]. run_ok Hl.
  injection Hl as <-. apply network_rule_text_ok.
  apply (yields_Ok _ _ _ _ (json_no_LF _ _)) in Hr0, Hr1, Hr2.
  destruct j as [j|]; run_ok Hr3; injection Hr3 as <-.
  - apply (yields_Ok _ _ _ _ (json_no_LF _ _)) in Hr4.
    repeat constructor; apply keyword_no_LF; done.
  - repeat constructor; apply keyword_no_LF; done.
Qed.
End json_lines.

(** The rule lines the two entry points ask for. *)
Definition requested (to_json : str -> str + str) (display_other : Error -> str)
  (request : result AmendError str) : Prop :=
  (exists prefix, request = prefix_rule_line to_json prefix)
  \/ (exists h proto d j, request = network_rule_line to_json display_other h proto d j).

(** When an append of a prefix or network rule succeeds, the rule is one
    line of the file: if the text found under the lock had the line, the file is
    as it was found; otherwise its lines are those found, all of them, and the
    new one at the end.  Asking for the same rule again changes nothing. *)
Theorem append_rule_exactly_once {S : Type} `{PolicyStoreLaws S}
  (to_json : str -> str + str) (display_other : Error -> str)
  (to_json_one_line : forall s t, to_json s = inl t -> LF ∉ t)
  (request : result AmendError str) (path : list Component) (s s' s2 s3 : S) :
  let found := text (locked_state path s) path in
  requested to_json display_other request ->
  append_line request path s = (s', Ok tt) -> ends_with [CR] found = false ->
  exists line, request = Ok line /\ line ∈ lines (text s' path)
    /\ (line ∈ lines found -> text s' path = found)
    /\ (line ∉ lines found -> lines (text s' path) = lines found ++ [line])
    /\ (text (locked_state path s2) path = text s' path ->
        append_line request path s2 = (s3, Ok tt) -> text s3 path = text s' path).
Proof.
  intros found Hreq Happ Hcr. unfold append_line in *.
  destruct request as [line|e| |]; try done.
  assert (line_ok line) as Hline.
  { destruct Hreq as [[prefix Hp]|(h & proto & d & j & Hn)]; symmetry in Hp || symmetry in Hn.
    - by apply (prefix_rule_line_ok to_json to_json_one_line prefix).
    - by apply (network_rule_line_ok to_json display_other to_json_one_line h proto d j). }
  apply append_rule_line_text in Happ. fold found in Happ.
  exists line. rewrite Happ. split_and!; [done|by apply amended_has_line|by apply amended_present| |].
  - by apply amended_lines.
  - intros H2 H3%append_rule_line_text. rewrite H3, H2. apply amended_present.
    by apply amended_has_line.
Qed.

(** Texts by path; the directory is there and all operations succeed. *)
Module MemPolicy.
Definition t : Type := list Component -> str.

#[global] Instance store : PolicyStore t := {
  create_dir s _ := (s, inr (mkIo AlreadyExists []));
  open_append s _ := (s, inl tt);
  lock s _ := (s, inl tt);
  seek_start s _ := (s, inl tt);
  read_to_string s p := (s, inl (s p));
  write_all s p c := (fun q => if decide (q = p) then s p ++ c else s q, inl tt) }.

#[global] Instance laws : PolicyStoreLaws t.
Proof.
  refine {| text (s : t) p := s p |}; simpl.
  - intros s p s' [= <-]. split; [done|]. by intros ?? [= <- <-].
  - intros s p c s' E. injection E as <-. by rewrite decide_True.
Defined.
End MemPolicy.

Definition plain_json (s : str) : str + str :=
  if contains_char LF s then inr [] else inl (quoted s).

Lemma plain_json_one_line s t : plain_json s = inl t -> LF ∉ t.
Proof.
  unfold plain_json. destruct (contains_char LF s) eqn:E; [done|]. intros [= <-].
  apply contains_char_false in E. unfold quoted, DQUOTE, LF in *. set_solver.
Qed.

Lemma append_rule_exactly_once_witness :
  let path := components (L"/p/default.rules") in
  let s : MemPolicy.t := fun _ => L"x = 1" in
  let request := prefix_rule_line plain_json [L"git"; L"log"] in
  exists s' line, append_line request path s = (s', Ok tt) /\ request = Ok line
    /\ lines (text s' path) = [L"x = 1"] ++ [line].
Proof.
  intros path s request.
  assert (exists s', append_line request path s = (s', Ok tt)) as [s' Hs]
    by (eexists; vm_compute; reflexivity).
  destruct (append_rule_exactly_once plain_json (fun _ => []) plain_json_one_line request path s s' s s')
    as (line & Hl & _ & _ & Hnew & _); [by left; exists [L"git"; L"log"]|done|vm_compute; reflexivity|].
  exists s', line. split; [done|]. split; [done|]. rewrite Hnew; [vm_compute; reflexivity|].
  vm_compute in Hl. injection Hl as <-. intros Hin. vm_compute in Hin. apply list_elem_of_In in Hin. by destruct Hin.
Defined.
