(* ===== verification/HeadTailBuffer.v ===== *)
(** * The capped output buffer (core/src/unified_exec/head_tail_buffer.rs)

    Output of a running command is kept as a prefix and a suffix of the stream.
    Counters are [usize] and use saturating arithmetic, which is written out.
    The specification is on the whole stream: its first [head_budget] bytes and
    the last [tail_budget] bytes of the rest. *)

From S2P Require Import Prelude.

Abbreviation byte := N (only parsing).

(** [len] of a vector, as a [usize]. *)
Definition len {A} (l : list A) : N := N.of_nat (length l).

Record HeadTailBuffer := mkBuffer {
  max_bytes : N;
  head_budget : N;
  tail_budget : N;
  head : list (list byte);
  tail : list (list byte);
  head_bytes : N;
  tail_bytes : N;
  omitted_bytes : N }.

Definition new (max_bytes : N) : HeadTailBuffer :=
  let head_budget := (max_bytes / 2)%N in
  mkBuffer max_bytes head_budget (max_bytes - head_budget) [] [] 0 0 0.

Definition retained_bytes (b : HeadTailBuffer) : N := saturating_add (head_bytes b) (tail_bytes b).

Definition with_tail (b : HeadTailBuffer) (tail : list (list byte)) (tail_bytes omitted : N)
  : HeadTailBuffer :=
  mkBuffer (max_bytes b) (head_budget b) (tail_budget b) (head b) tail (head_bytes b)
    tail_bytes omitted.

(** The loop of [trim_tail_to_budget]: every iteration drops a chunk or ends. *)
Fixpoint trim_loop (excess : N) (tail : list (list byte)) (tail_bytes omitted : N)
  : list (list byte) * N * N :=
  if (0 <? excess)%N then
    match tail with
    | front :: rest =>
        if (len front <=? excess)%N
        then trim_loop (excess - len front) rest (tail_bytes - len front)
               (saturating_add omitted (len front))
        else (drop (N.to_nat excess) front :: rest, (tail_bytes - excess)%N,
              saturating_add omitted excess)
    | [] => ([], tail_bytes, omitted)
    end
  else (tail, tail_bytes, omitted).

Definition trim_tail_to_budget (b : HeadTailBuffer) : HeadTailBuffer :=
  let '(tail, tail_bytes, omitted) :=
    trim_loop (tail_bytes b - tail_budget b) (tail b) (tail_bytes b) (omitted_bytes b) in
  with_tail b tail tail_bytes omitted.

Definition push_to_tail (b : HeadTailBuffer) (chunk : list byte) : HeadTailBuffer :=
  if (tail_budget b =? 0)%N
  then with_tail b (tail b) (tail_bytes b) (saturating_add (omitted_bytes b) (len chunk))
  else if (tail_budget b <=? len chunk)%N then
    let start := (len chunk - tail_budget b)%N in
    let kept := drop (N.to_nat start) chunk in
    let dropped := (len chunk - len kept)%N in
    with_tail b [kept] (len kept)
      (saturating_add (saturating_add (omitted_bytes b) (tail_bytes b)) dropped)
  else
    trim_tail_to_budget (with_tail b (tail b ++ [chunk])
      (saturating_add (tail_bytes b) (len chunk)) (omitted_bytes b)).

Definition with_head (b : HeadTailBuffer) (chunk : list byte) : HeadTailBuffer :=
  mkBuffer (max_bytes b) (head_budget b) (tail_budget b) (head b ++ [chunk]) (tail b)
    (saturating_add (head_bytes b) (len chunk)) (tail_bytes b) (omitted_bytes b).

Definition push_chunk (b : HeadTailBuffer) (chunk : list byte) : HeadTailBuffer :=
  if (max_bytes b =? 0)%N
  then with_tail b (tail b) (tail_bytes b) (saturating_add (omitted_bytes b) (len chunk))
  else if (head_bytes b <? head_budget b)%N then
    let remaining_head := (head_budget b - head_bytes b)%N in
    if (len chunk <=? remaining_head)%N then with_head b chunk
    else
      let head_part := take (N.to_nat remaining_head) chunk in
      let tail_part := drop (N.to_nat remaining_head) chunk in
      push_to_tail (if is_nil head_part then b else with_head b head_part) tail_part
  else push_to_tail b chunk.

Definition snapshot_chunks (b : HeadTailBuffer) : list (list byte) := head b ++ tail b.
Definition to_bytes (b : HeadTailBuffer) : list byte := concat (head b) ++ concat (tail b).

Definition drain_chunks (b : HeadTailBuffer) : HeadTailBuffer * list (list byte) :=
  (mkBuffer (max_bytes b) (head_budget b) (tail_budget b) [] [] 0 0 0, head b ++ tail b).

(** ** Specification *)

(** The last [n] elements. *)
Definition lastn {A} (n : nat) (l : list A) : list A := drop (length l - n) l.

Lemma lastn_app_l {A} n (l k : list A) : n <= length k -> lastn n (l ++ k) = lastn n k.
Proof.
  intros Hn. unfold lastn. rewrite length_app, drop_app, drop_ge by lia. simpl. f_equal. lia.
Qed.

Lemma lastn_all {A} n (l : list A) : length l <= n -> lastn n l = l.
Proof. intros Hn. unfold lastn. by replace (length l - n) with 0 by lia. Qed.

Lemma length_lastn {A} n (l : list A) : length (lastn n l) = min n (length l).
Proof. unfold lastn. rewrite length_drop. lia. Qed.

(** Pushing onto a suffix. *)
Lemma lastn_lastn_app {A} n (l k : list A) : lastn n (lastn n l ++ k) = lastn n (l ++ k).
Proof.
  destruct (decide (length l <= n)) as [H|H]; [by rewrite (lastn_all n l)|].
  set (x := take (length l - n) l).
  assert (l = x ++ lastn n l) as E by (unfold x, lastn; by rewrite take_drop).
  assert (lastn n (l ++ k) = lastn n (x ++ lastn n l ++ k)) as ->.
  { f_equal. rewrite app_assoc. by rewrite <- E. }
  symmetry. apply lastn_app_l. rewrite length_app, length_lastn. lia.
Qed.

Lemma trim_loop_spec excess tail tb om :
  tb = len (concat tail) -> (excess <= tb)%N -> (om <= usize_max)%N ->
  let '(tail', tb', om') := trim_loop excess tail tb om in
  concat tail' = drop (N.to_nat excess) (concat tail)
  /\ tb' = len (concat tail') /\ om' = N.min (om + excess) usize_max.
Proof.
  revert excess tb om. induction tail as [|front rest IH]; intros excess tb om -> He Ho; simpl.
  - unfold len in *. simpl in He. assert (excess = 0%N) as -> by lia. simpl.
    split_and!; [done|done|lia].
  - destruct (0 <? excess)%N eqn:E0; [|].
    2: { apply N.ltb_ge in E0. assert (excess = 0%N) as -> by lia. simpl. split_and!; [done|done|lia]. }
    unfold len in *. simpl in He. rewrite length_app in *.
    destruct (N.of_nat (length front) <=? excess)%N eqn:E.
    + apply N.leb_le in E.
      specialize (IH (excess - N.of_nat (length front))%N (N.of_nat (length (concat rest)))
        (saturating_add om (N.of_nat (length front))) eq_refl ltac:(lia)
        ltac:(unfold saturating_add; lia)).
      replace (N.of_nat (length front + length (concat rest)) - N.of_nat (length front))%N
        with (N.of_nat (length (concat rest))) by lia.
      destruct (trim_loop _ _ _ _) as [[tail' tb'] om']. destruct IH as (H1 & H2 & H3).
      split_and!; [|done|].
      * rewrite H1. rewrite drop_app. rewrite (drop_ge front) by lia. simpl. f_equal. lia.
      * rewrite H3. unfold saturating_add. lia.
    + apply N.leb_gt in E. simpl. split_and!.
      * rewrite drop_app. replace (N.to_nat excess - length front) with 0 by lia. by rewrite drop_0.
      * rewrite length_app, length_drop. lia.
      * unfold saturating_add. lia.
Qed.

(** A buffer whose tail is [t], the rest of the stream after the head. *)
Definition tail_ok (t : list byte) (b : HeadTailBuffer) : Prop :=
  concat (tail b) = lastn (N.to_nat (tail_budget b)) t
  /\ tail_bytes b = len (concat (tail b))
  /\ omitted_bytes b = N.min (len t - len (concat (tail b))) usize_max.

Lemma push_to_tail_spec t b chunk :
  (tail_budget b <= 2 ^ 63)%N -> tail_ok t b -> tail_ok (t ++ chunk) (push_to_tail b chunk).
Proof.
  intros Hb (Ht & Hn & Ho). unfold tail_ok, push_to_tail.
  assert (length (concat (tail b)) = min (N.to_nat (tail_budget b)) (length t)) as Hl
    by (rewrite Ht; apply length_lastn).
  unfold len, usize_max in *. destruct (tail_budget b =? 0)%N eqn:E0.
  { apply N.eqb_eq in E0. cbn [with_tail tail tail_bytes omitted_bytes tail_budget].
    rewrite E0 in *. simpl in Ht. assert (concat (tail b) = []) as Hc.
    { rewrite Ht. unfold lastn. apply drop_ge. lia. }
    split_and!; [|done|].
    - rewrite Hc. symmetry. unfold lastn. apply drop_ge. lia.
    - rewrite Ho, length_app. unfold saturating_add, usize_max. lia. }
  apply N.eqb_neq in E0. destruct (tail_budget b <=? _)%N eqn:E1.
  - apply N.leb_le in E1. cbn [with_tail tail tail_bytes omitted_bytes tail_budget]. simpl concat.
    rewrite app_nil_r. set (kept := drop _ chunk).
    assert (kept = lastn (N.to_nat (tail_budget b)) chunk) as Hk
      by (unfold kept, lastn; f_equal; lia).
    assert (length kept = N.to_nat (tail_budget b)) as Hkl by (rewrite Hk, length_lastn; lia).
    split_and!; [|done|].
    + rewrite Hk. symmetry. apply lastn_app_l. lia.
    + rewrite Hn, Ho, Hkl, length_app. unfold saturating_add, usize_max. lia.
  - apply N.leb_gt in E1. unfold trim_tail_to_budget.
    cbn [with_tail tail tail_bytes omitted_bytes tail_budget].
    pose proof (trim_loop_spec
      (saturating_add (tail_bytes b) (N.of_nat (length chunk)) - tail_budget b)
      (tail b ++ [chunk]) (saturating_add (tail_bytes b) (N.of_nat (length chunk)))
      (omitted_bytes b)) as Hspec.
    rewrite concat_app in Hspec. simpl in Hspec. rewrite app_nil_r in Hspec.
    destruct (trim_loop _ _ _ _) as [[tail' tb'] om'].
    cbn [tail tail_bytes omitted_bytes tail_budget with_tail].
    assert (saturating_add (tail_bytes b) (N.of_nat (length chunk))
      = N.of_nat (length (concat (tail b) ++ chunk))) as Hsum.
    { rewrite length_app, Hn. unfold saturating_add, usize_max. lia. }
    rewrite Hsum in Hspec. destruct Hspec as (H1 & H2 & H3); [done|lia|unfold usize_max; lia|].
    split_and!; [|done|].
    + rewrite H1, <- lastn_lastn_app, <- Ht. unfold lastn. f_equal. rewrite length_app. lia.
    + assert (length (concat tail') = min (N.to_nat (tail_budget b)) (length t + length chunk)) as Hl'.
      { rewrite H1, length_drop, !length_app, Hl. lia. }
      rewrite H3, Ho, Hl', !length_app, Hl. unfold usize_max. lia.
Qed.

(** [b] holds the head and the tail of the stream [s]. *)
Record holds (s : list byte) (b : HeadTailBuffer) : Prop := {
  h_max : (max_bytes b <= usize_max)%N;
  h_head_budget : head_budget b = (max_bytes b / 2)%N;
  h_tail_budget : tail_budget b = (max_bytes b - head_budget b)%N;
  h_head : concat (head b) = take (N.to_nat (head_budget b)) s;
  h_head_bytes : head_bytes b = len (concat (head b));
  h_tail : tail_ok (drop (N.to_nat (head_budget b)) s) b }.

Lemma new_holds m : (m <= usize_max)%N -> holds [] (new m).
Proof.
  intros Hm. split; try done; simpl; [by rewrite take_nil|]. rewrite drop_nil. by repeat split.
Qed.

Lemma tail_budget_bound s b : holds s b -> (tail_budget b <= 2 ^ 63)%N.
Proof.
  intros [Hm Hh Ht _ _ _]. rewrite Ht, Hh. unfold usize_max in Hm.
  pose proof (N.div_mod' (max_bytes b) 2). pose proof (N.mod_lt (max_bytes b) 2). lia.
Qed.

Lemma push_to_tail_fixed b chunk :
  max_bytes (push_to_tail b chunk) = max_bytes b
  /\ head_budget (push_to_tail b chunk) = head_budget b
  /\ tail_budget (push_to_tail b chunk) = tail_budget b
  /\ head (push_to_tail b chunk) = head b
  /\ head_bytes (push_to_tail b chunk) = head_bytes b.
Proof.
  unfold push_to_tail, trim_tail_to_budget. case_goal; [done|]. case_goal; [done|].
  by destruct (trim_loop _ _ _ _) as [[? ?] ?].
Qed.

Lemma push_chunk_max b chunk : max_bytes (push_chunk b chunk) = max_bytes b.
Proof.
  unfold push_chunk. case_goal; [done|]. case_goal; [|apply push_to_tail_fixed].
  case_goal; [done|]. rewrite (proj1 (push_to_tail_fixed _ _)). by case_goal.
Qed.

(** Once the head is full, everything goes to the tail. *)
Lemma push_full s b chunk :
  holds s b -> N.to_nat (head_budget b) <= length s -> holds (s ++ chunk) (push_to_tail b chunk).
Proof.
  intros Hh Hfull. pose proof (tail_budget_bound s b Hh) as Hb. destruct Hh as [Hm Hhb Htb Hh Hhn Ht].
  pose proof (push_to_tail_spec _ _ chunk Hb Ht) as Ht'.
  destruct (push_to_tail_fixed b chunk) as (E1 & E2 & E3 & E4 & E5).
  split; rewrite ?E1, ?E2, ?E3, ?E4, ?E5; try done.
  - rewrite Hh, take_app_le by lia. done.
  - rewrite drop_app_le by lia. done.
Qed.

(** Bytes that still fit into the head. *)
Lemma push_head s b chunk :
  holds s b -> length s + length chunk <= N.to_nat (head_budget b) ->
  holds (s ++ chunk) (with_head b chunk).
Proof.
  intros [Hm Hhb Htb Hh Hhn (Ht & Htn & Ho)] Hfit. split; simpl; try done.
  - rewrite concat_app, Hh. simpl. rewrite app_nil_r, !take_ge by (rewrite ?length_app; lia). done.
  - rewrite Hhn, concat_app. unfold len, saturating_add in *. simpl. rewrite app_nil_r, length_app.
    rewrite Hh, take_ge by lia. assert (head_budget b <= max_bytes b)%N.
    { rewrite Hhb. apply N.div_le_upper_bound; lia. }
    lia.
  - rewrite drop_ge in * by (rewrite ?length_app; lia). split_and!; done.
Qed.

Lemma push_chunk_holds s b chunk :
  holds s b -> holds (s ++ chunk) (push_chunk b chunk).
Proof.
  intros Hh. unfold push_chunk. destruct (max_bytes b =? 0)%N eqn:E0.
  { apply N.eqb_eq in E0.
    assert (push_to_tail b chunk = with_tail b (tail b) (tail_bytes b)
      (saturating_add (omitted_bytes b) (len chunk))) as <-.
    { unfold push_to_tail. destruct Hh as [_ ? -> _ _ _]. by rewrite E0. }
    apply push_full; [done|]. destruct Hh as [_ -> _ _ _ _]. rewrite E0. simpl. lia. }
  assert (head_bytes b = N.of_nat (min (N.to_nat (head_budget b)) (length s))) as Hn.
  { destruct Hh as [_ _ _ Hh -> _]. unfold len. by rewrite Hh, length_take. }
  destruct (head_bytes b <? head_budget b)%N eqn:E1.
  2: { apply N.ltb_ge in E1. apply push_full; [done|]. lia. }
  apply N.ltb_lt in E1. set (n := (head_budget b - head_bytes b)%N).
  destruct (len chunk <=? n)%N eqn:E2.
  { apply N.leb_le in E2. apply push_head; [done|]. unfold len in E2. lia. }
  apply N.leb_gt in E2. unfold len in E2. rewrite <- (take_drop (N.to_nat n) chunk) at 1.
  rewrite app_assoc.
  assert (length (take (N.to_nat n) chunk) = N.to_nat n) as Hl by (rewrite length_take; lia).
  rewrite (proj2 (is_nil_false _)) by (intros Hnil; rewrite Hnil in Hl; simpl in Hl; lia).
  apply push_full; [apply push_head; [done|lia]|]. simpl. rewrite length_app. lia.
Qed.

Lemma push_chunks_hold chunks m :
  (m <= usize_max)%N -> holds (concat chunks) (foldl push_chunk (new m) chunks).
Proof.
  intros Hm. induction chunks as [|c chunks IH] using rev_ind; [by apply new_holds|].
  rewrite foldl_app, concat_app. simpl. rewrite app_nil_r. by apply push_chunk_holds.
Qed.

(** ** Theorems *)

(** C24: however a stream is cut into chunks, the buffer returns its first
    [max/2] bytes followed by the last [max - max/2] bytes of what is left; the
    byte counters are those of the retained text, which never exceeds the
    capacity, and the omitted count is the number of bytes not returned (capped
    at the largest [usize]). *)
Theorem buffer_keeps_head_and_tail (max : N) (chunks : list (list byte)) :
  (max <= usize_max)%N ->
  let b := foldl push_chunk (new max) chunks in
  let s := concat chunks in
  let h := N.to_nat (max / 2) in
  to_bytes b = take h s ++ lastn (N.to_nat max - h) (drop h s)
  /\ concat (snapshot_chunks b) = to_bytes b
  /\ retained_bytes b = len (to_bytes b) /\ (len (to_bytes b) <= max)%N
  /\ omitted_bytes b = N.min (len s - len (to_bytes b)) usize_max.
Proof.
  intros Hm b s h. pose proof (push_chunks_hold chunks max Hm) as Hh. fold b s in Hh.
  assert (max_bytes b = max) as Emax.
  { unfold b. clear. induction chunks as [|c chunks IH] using rev_ind; [done|].
    rewrite foldl_app. simpl. by rewrite push_chunk_max. }
  destruct Hh as [_ Hhb Htb Hh Hhn (Ht & Htn & Ho)]. rewrite Emax in *.
  assert (N.to_nat (head_budget b) = h) as Ehb by (rewrite Hhb; done).
  assert (N.to_nat (tail_budget b) = N.to_nat max - h) as Etb by (rewrite Htb, Hhb; unfold h; lia).
  rewrite Ehb, Etb in *.
  assert (h <= N.to_nat max) as Hle.
  { unfold h. pose proof (N.div_le_upper_bound max 2 max). lia. }
  assert (to_bytes b = take h s ++ lastn (N.to_nat max - h) (drop h s)) as Hb
    by (unfold to_bytes; by rewrite Hh, Ht).
  assert (length (to_bytes b) <= N.to_nat max) as Hlen.
  { rewrite Hb, length_app, length_take, length_lastn. lia. }
  split_and!; [done|unfold snapshot_chunks; by rewrite concat_app| |unfold len; lia|].
  - unfold retained_bytes, saturating_add. rewrite Hhn, Htn. unfold len, to_bytes in *.
    rewrite length_app in *. lia.
  - rewrite Ho. unfold len, to_bytes. rewrite length_app, length_drop, Hh, length_take. lia.
Qed.

Lemma buffer_keeps_head_and_tail_witness :
  let b := foldl push_chunk (new 6) [[1; 2]; [3; 4; 5]; []; [6; 7; 8; 9]]%N in
  to_bytes b = [1; 2; 3; 7; 8; 9]%N /\ (len (to_bytes b) <= 6)%N.
Proof.
  split; [vm_compute; reflexivity|].
  apply (buffer_keeps_head_and_tail 6 [[1; 2]; [3; 4; 5]; []; [6; 7; 8; 9]]%N).
  vm_compute. done.
Defined.
