(* ===== verification/ShellParse.v ===== *)
(** * Plain shell scripts (shell-command/src: bash.rs, shell_detect.rs)

    A script given to [bash -lc] is parsed by tree-sitter-bash, which is
    third-party code: the parser is an argument that returns a syntax tree.  The
    tree walk, the whitelist of node kinds and the extraction of words are the
    program's. *)

From S2P Require Import Prelude RustStr AbsolutePath.

(** What the code reads of a [tree_sitter::Node]; [utf8_text] may fail. *)
Inductive Node := mkNode {
  kind : str;
  is_named : bool;
  has_error : bool;
  start_byte : N;
  utf8_text : option str;
  children : list Node }.

Definition named_children (n : Node) : list Node := filter (fun c => is_named c = true) (children n).

Definition one_of (words : list str) (s : str) : bool := existsb (str_eqb s) words.

#[global] Arguments one_of words s : simpl never.

(** ** Shell detection (shell_detect.rs) *)

Inductive ShellType := Zsh | Bash | PowerShell | Sh | Cmd.

Definition shell_by_name (name : str) : option ShellType :=
  if str_eqb name (L"zsh") then Some Zsh
  else if str_eqb name (L"sh") then Some Sh
  else if str_eqb name (L"cmd") then Some Cmd
  else if str_eqb name (L"bash") then Some Bash
  else if str_eqb name (L"pwsh") then Some PowerShell
  else if str_eqb name (L"powershell") then Some PowerShell
  else None.

(** [Path::file_stem]: the file name up to its last dot, unless that dot starts it. *)
Definition file_stem (path : str) : option str :=
  name ← file_name (components path);
  Some (match rsplit_once 46 name with
        | Some (stem, _) => if is_nil stem then name else stem
        | None => name
        end).

(** The recursion goes from a path to the stem of its file name, which is
    another path unless it is the path itself; [fuel] bounds it. *)
Fixpoint detect_shell_type_fuel (fuel : nat) (shell_path : str) : result unit (option ShellType) :=
  match fuel with
  | 0 => OutOfFuel
  | S fuel =>
      match shell_by_name shell_path with
      | Some t => Ok (Some t)
      | None =>
          match file_stem shell_path with
          | Some shell_name =>
              if bool_decide (components shell_name = components shell_path) then Ok None
              else detect_shell_type_fuel fuel shell_name
          | None => Ok None
          end
      end
  end.

(** A stem is shorter than the path it comes from, unless both have the same components. *)
Definition detect_shell_type (shell_path : str) : result unit (option ShellType) :=
  detect_shell_type_fuel (S (length shell_path)) shell_path.

Definition is_posix_shell (t : option ShellType) : bool :=
  match t with Some Zsh | Some Bash | Some Sh => true | _ => false end.

(** ** Scripts of plain commands (bash.rs) *)

Definition ALLOWED_KINDS : list str :=
  [L"program"; L"list"; L"pipeline"; L"command"; L"command_name"; L"word"; L"string";
   L"string_content"; L"raw_string"; L"number"; L"concatenation"].
Definition SQUOTE : char := 39%N.
Definition ALLOWED_PUNCT_TOKENS : list str :=
  [L"&&"; L"||"; L";"; L"|"; [DQUOTE]; [SQUOTE]].

(** The checks on one node of the walk; [true] lets the walk go on. *)
Definition node_allowed (n : Node) : bool :=
  if is_named n then one_of ALLOWED_KINDS (kind n)
  else if existsb (fun c => contains_char c (L"&;|")) (kind n)
          && negb (one_of ALLOWED_PUNCT_TOKENS (kind n)) then false
  else one_of ALLOWED_PUNCT_TOKENS (kind n) || is_nil (trim (kind n)).

Definition is_command (n : Node) : bool := is_named n && str_eqb (kind n) (L"command").

(** The loop over the stack (its top first), with the command nodes found so
    far; [None] is a rejection. *)
Fixpoint walk (fuel : nat) (stack : list Node) (command_nodes : list Node)
  : result unit (option (list Node)) :=
  match stack with
  | [] => Ok (Some command_nodes)
  | node :: stack =>
      match fuel with
      | 0 => OutOfFuel
      | S fuel =>
          if node_allowed node
          then walk fuel (reverse (children node) ++ stack)
                 (if is_command node then command_nodes ++ [node] else command_nodes)
          else Ok None
      end
  end.

(** The nodes of a tree, and their number. *)
Fixpoint nodes (n : Node) : list Node := n :: concat (map nodes (children n)).
Definition node_count (n : Node) : nat := length (nodes n).

(** [sort_by_key(Node::start_byte)]: a stable sort. *)
Fixpoint insert_by_byte (n : Node) (l : list Node) : list Node :=
  match l with
  | [] => [n]
  | m :: l' => if (start_byte n <=? start_byte m)%N then n :: m :: l' else m :: insert_by_byte n l'
  end.
Definition sort_by_byte (l : list Node) : list Node := foldr insert_by_byte [] l.

Definition unquote (q : char) (raw : str) : option str :=
  text ← strip_prefix [q] raw; strip_suffix [q] text.

Definition parse_double_quoted_string (node : Node) : option str :=
  if negb (str_eqb (kind node) (L"string")) then None
  else if existsb (fun part => negb (str_eqb (kind part) (L"string_content"))) (named_children node)
  then None
  else raw ← utf8_text node; unquote DQUOTE raw.

Definition parse_raw_string (node : Node) : option str :=
  if negb (str_eqb (kind node) (L"raw_string")) then None
  else raw ← utf8_text node; unquote SQUOTE raw.

(** One part of a concatenation. *)
Definition concat_part (part : Node) : option str :=
  if one_of [L"word"; L"number"] (kind part) then utf8_text part
  else if str_eqb (kind part) (L"string") then parse_double_quoted_string part
  else if str_eqb (kind part) (L"raw_string") then parse_raw_string part
  else None.

(** One named child of a command. *)
Definition command_word (child : Node) : option str :=
  if str_eqb (kind child) (L"command_name") then
    word_node ← head (named_children child);
    if negb (str_eqb (kind word_node) (L"word")) then None else utf8_text word_node
  else if one_of [L"word"; L"number"] (kind child) then utf8_text child
  else if str_eqb (kind child) (L"string") then parse_double_quoted_string child
  else if str_eqb (kind child) (L"raw_string") then parse_raw_string child
  else if str_eqb (kind child) (L"concatenation") then
    parts ← mapM concat_part (named_children child);
    if is_nil (concat parts) then None else Some (concat parts)
  else None.

Definition parse_plain_command_from_node (cmd : Node) : option (list str) :=
  if negb (str_eqb (kind cmd) (L"command")) then None
  else mapM command_word (named_children cmd).

Definition try_parse_word_only_commands_sequence (root : Node)
  : result unit (option (list (list str))) :=
  if has_error root then Ok None
  else
    let? found := walk (node_count root) [root] [] in
    Ok (command_nodes ← found; mapM parse_plain_command_from_node (sort_by_byte command_nodes)).

(** [extract_bash_command]: shell, flag and script. *)
Definition extract_bash_command (command : list str) : result unit (option (str * str)) :=
  match command with
  | [shell; flag; script] =>
      if negb (one_of [L"-lc"; L"-c"] flag) then Ok None
      else
        let? t := detect_shell_type shell in
        Ok (if is_posix_shell t then Some (shell, script) else None)
  | _ => Ok None
  end.

(** The search loops of the here-document variant, over named children. *)
Fixpoint has_named_descendant_loop (fuel : nat) (wanted : str) (stack : list Node)
  : result unit bool :=
  match stack with
  | [] => Ok false
  | current :: stack =>
      match fuel with
      | 0 => OutOfFuel
      | S fuel =>
          if str_eqb (kind current) wanted then Ok true
          else has_named_descendant_loop fuel wanted (reverse (named_children current) ++ stack)
      end
  end.
Definition has_named_descendant_kind (node : Node) (wanted : str) : result unit bool :=
  has_named_descendant_loop (node_count node) wanted [node].

Fixpoint find_single_loop (fuel : nat) (stack : list Node) (single_command : option Node)
  : result unit (option Node) :=
  match stack with
  | [] => Ok single_command
  | node :: stack =>
      match fuel with
      | 0 => OutOfFuel
      | S fuel =>
          let stack := reverse (named_children node) ++ stack in
          if str_eqb (kind node) (L"command") then
            match single_command with
            | Some _ => Ok None
            | None => find_single_loop fuel stack (Some node)
            end
          else find_single_loop fuel stack single_command
      end
  end.
Definition find_single_command_node (root : Node) : result unit (option Node) :=
  find_single_loop (node_count root) [root] None.

Definition is_literal_word_or_number (node : Node) : bool :=
  one_of [L"word"; L"number"] (kind node) && is_nil (named_children node).

Definition is_allowed_heredoc_attachment_kind (k : str) : bool :=
  one_of [L"heredoc_body"; L"simple_heredoc_body"; L"heredoc_redirect"; L"herestring_redirect";
          L"redirected_statement"] k.

(** One named child of a command with a here-document: a word, nothing, or a rejection. *)
Definition heredoc_word (child : Node) : option (option str) :=
  if str_eqb (kind child) (L"command_name") then
    word_node ← head (named_children child);
    if negb (one_of [L"word"; L"number"] (kind word_node))
       || negb (is_literal_word_or_number word_node) then None
    else Some <$> utf8_text word_node
  else if one_of [L"word"; L"number"] (kind child) then
    if negb (is_literal_word_or_number child) then None else Some <$> utf8_text child
  else if str_eqb (kind child) (L"comment") then Some None
  else if is_allowed_heredoc_attachment_kind (kind child) then Some None
  else None.

Definition parse_heredoc_command_words (cmd : Node) : option (list str) :=
  if negb (str_eqb (kind cmd) (L"command")) then None
  else
    found ← mapM heredoc_word (named_children cmd);
    let words := omap id found in
    if is_nil words then None else Some words.

Section bash.
(** [try_parse_shell]. *)
Context (try_parse_shell : str -> option Node).

Definition parse_shell_lc_plain_commands (command : list str)
  : result unit (option (list (list str))) :=
  let? found := extract_bash_command command in
  match found with
  | None => Ok None
  | Some (_, script) =>
      match try_parse_shell script with
      | None => Ok None
      | Some tree => try_parse_word_only_commands_sequence tree
      end
  end.

Definition parse_shell_lc_single_command_prefix (command : list str)
  : result unit (option (list str)) :=
  let? found := extract_bash_command command in
  match found with
  | None => Ok None
  | Some (_, script) =>
      match try_parse_shell script with
      | None => Ok None
      | Some root =>
          if has_error root then Ok None
          else
            let? heredoc := has_named_descendant_kind root (L"heredoc_redirect") in
            if negb heredoc then Ok None
            else
              let? redirect := has_named_descendant_kind root (L"file_redirect") in
              if redirect then Ok None
              else
                let? command_node := find_single_command_node root in
                Ok (cmd ← command_node; parse_heredoc_command_words cmd)
      end
  end.
End bash.

(** ** The walk *)

(** All nodes of the trees of a stack. *)
Definition forest (ts : list Node) : list Node := concat (map nodes ts).

#[local] Arguments forest ts : simpl never.

Lemma nodes_unfold n : nodes n = n :: forest (children n).
Proof. by destruct n. Qed.

Lemma forest_app a b : forest (a ++ b) = forest a ++ forest b.
Proof. unfold forest. by rewrite map_app, concat_app. Qed.

Lemma forest_reverse ts : forest (reverse ts) ≡ₚ forest ts.
Proof.
  induction ts as [|t ts IH]; [done|]. rewrite reverse_cons, forest_app, IH.
  unfold forest. simpl. rewrite app_nil_r. apply Permutation_app_comm.
Qed.

(** A pushed node's children take its place. *)
Lemma forest_push node stack :
  length (forest (node :: stack)) = S (length (forest (reverse (children node) ++ stack))).
Proof.
  rewrite forest_app, length_app, (Permutation_length (forest_reverse _)).
  change (forest (node :: stack)) with (nodes node ++ forest stack).
  rewrite length_app, nodes_unfold. simpl. lia.
Qed.

Lemma walk_spec fuel stack acc :
  length (forest stack) <= fuel ->
  exists r, walk fuel stack acc = Ok r /\
  match r with
  | Some found => Forall (fun n => node_allowed n = true) (forest stack)
      /\ exists more, found = acc ++ more
           /\ more ≡ₚ filter (fun n => is_command n = true) (forest stack)
  | None => ~ Forall (fun n => node_allowed n = true) (forest stack)
  end.
Proof.
  revert stack acc. induction fuel as [|fuel IH]; intros [|node stack] acc Hf.
  - eexists. split; [reflexivity|]. split; [constructor|]. exists []. by rewrite app_nil_r.
  - rewrite forest_push in Hf. lia.
  - eexists. split; [reflexivity|]. split; [constructor|]. exists []. by rewrite app_nil_r.
  - rewrite forest_push in Hf. simpl.
    assert (forest (node :: stack) ≡ₚ node :: forest (reverse (children node) ++ stack)) as Hp.
    { change (forest (node :: stack)) with (nodes node ++ forest stack).
      rewrite nodes_unfold, forest_app.
      simpl. by rewrite forest_reverse. }
    destruct (node_allowed node) eqn:Ha.
    2: { exists None. split; [done|]. rewrite Hp. intros F. inversion F. congruence. }
    destruct (IH (reverse (children node) ++ stack)
      (if is_command node then acc ++ [node] else acc)) as (r & Hr & Hspec); [lia|].
    exists r. split; [done|]. destruct r as [found|].
    + destruct Hspec as (F & more & -> & Hmore). rewrite Hp. split; [by constructor|].
      destruct (is_command node) eqn:Hc.
      * exists (node :: more). rewrite <- app_assoc. split; [done|].
        rewrite Hp, filter_cons_True by done. by rewrite Hmore.
      * exists more. split; [done|]. rewrite Hp, filter_cons_False by (by rewrite Hc). done.
    + rewrite Hp. intros F. inversion F; subst. done.
Qed.

(** ** Termination *)

Lemma file_name_infix path name :
  file_name (components path) = Some name -> exists a b, path = a ++ name ++ b.
Proof.
  intros H. unfold file_name in H. destruct (last (components path)) as [[]|] eqn:E; try done.
  injection H as ->. apply last_Some_elem_of in E.
  assert (Normal name ∈ component_of <$> filter (fun s => s <> []) (split_char SLASH path)) as Hin.
  { unfold components in E. destruct (is_absolute path).
    - apply elem_of_cons in E as [?|E]; [done|]. by apply list_elem_of_filter in E as [_ ?].
    - destruct (component_of <$> _) as [|c cs]; [done|].
      apply elem_of_cons in E as [->|E]; [by left|]. right. by apply list_elem_of_filter in E as [_ ?]. }
  apply list_elem_of_fmap in Hin as (piece & Hc & [_ Hp]%list_elem_of_filter).
  unfold component_of in Hc. do 2 (case_bool_decide; [done|]). injection Hc as ->.
  by apply split_char_infix with SLASH.
Qed.

Lemma file_stem_shorter path stem :
  file_stem path = Some stem -> stem = path \/ length stem < length path.
Proof.
  unfold file_stem. destruct (file_name (components path)) as [name|] eqn:E; [|done].
  intros [= <-]. apply file_name_infix in E as (a & b & ->).
  assert (name = a ++ name ++ b \/ length name < length (a ++ name ++ b)) as Hn.
  { rewrite !length_app. destruct a; [destruct b|]; simpl; [left; by rewrite app_nil_r|right; lia..]. }
  destruct (rsplit_once 46 name) as [[s e]|] eqn:Er; [|done]. case_goal; [done|].
  apply rsplit_once_Some in Er. right. rewrite Er, !length_app. simpl. lia.
Qed.

Lemma detect_shell_type_returns path : returns (detect_shell_type path).
Proof.
  unfold detect_shell_type.
  assert (forall fuel p, length p < fuel -> returns (detect_shell_type_fuel fuel p)) as H.
  { induction fuel as [|fuel IH]; intros p Hp; [lia|]. simpl.
    destruct (shell_by_name p); [done|]. destruct (file_stem p) as [stem|] eqn:E; [|done].
    case_bool_decide as Hc; [done|]. apply IH.
    apply file_stem_shorter in E as [->|?]; [done|lia]. }
  apply H. lia.
Qed.

Lemma extract_bash_command_returns cmd : returns (extract_bash_command cmd).
Proof.
  destruct cmd as [|shell [|flag [|script [|]]]]; try done. simpl. case_goal; [done|].
  apply returns_bind; [apply detect_shell_type_returns|done].
Qed.

Lemma forest_named_push node stack :
  length (forest (reverse (named_children node) ++ stack)) < length (forest (node :: stack)).
Proof.
  rewrite forest_push, !forest_app, !length_app, !(Permutation_length (forest_reverse _)).
  assert (length (forest (named_children node)) <= length (forest (children node))); [|lia].
  unfold named_children. induction (children node) as [|c cs IH]; [done|].
  rewrite filter_cons. case_decide; unfold forest in *; simpl; rewrite ?length_app; lia.
Qed.

Lemma has_named_returns fuel wanted stack :
  length (forest stack) <= fuel -> returns (has_named_descendant_loop fuel wanted stack).
Proof.
  revert stack. induction fuel as [|fuel IH]; intros [|n stack] Hf; try done.
  - rewrite forest_push in Hf. lia.
  - simpl. case_goal; [done|]. apply IH. pose proof (forest_named_push n stack). lia.
Qed.

Lemma find_single_returns fuel stack acc :
  length (forest stack) <= fuel -> returns (find_single_loop fuel stack acc).
Proof.
  revert stack acc. induction fuel as [|fuel IH]; intros [|n stack] acc Hf; try done.
  - rewrite forest_push in Hf. lia.
  - simpl. pose proof (forest_named_push n stack).
    case_goal; [destruct acc; [done|]|]; apply IH; lia.
Qed.

Lemma node_count_forest n : length (forest [n]) = node_count n.
Proof. unfold forest, node_count. simpl. by rewrite app_nil_r. Qed.

Lemma word_only_returns root : returns (try_parse_word_only_commands_sequence root).
Proof.
  unfold try_parse_word_only_commands_sequence. case_goal; [done|].
  destruct (walk_spec (node_count root) [root] []) as (r & -> & _); [by rewrite node_count_forest|done].
Qed.

(** ** Which names are shells *)

Definition POSIX_SHELLS : list str := [L"zsh"; L"bash"; L"sh"].

Lemma shell_by_name_posix name :
  is_posix_shell (shell_by_name name) = true -> name ∈ POSIX_SHELLS.
Proof.
  unfold shell_by_name, POSIX_SHELLS.
  repeat (case_goal; [apply bool_decide_eq_true in E as ->; simpl; try done; intros _; set_solver|clear E]).
  done.
Qed.

Lemma file_name_no_slash path name : file_name (components path) = Some name -> SLASH ∉ name.
Proof.
  intros H. unfold file_name in H. destruct (last (components path)) as [[]|] eqn:E; try done.
  injection H as ->. apply last_Some_elem_of in E.
  pose proof (components_valid path) as F. rewrite Forall_forall in F. specialize (F _ E).
  by destruct F as (_ & ? & _).
Qed.

Lemma file_name_bare s name : SLASH ∉ s -> file_name (components s) = Some name -> name = s.
Proof.
  intros Hs H. apply file_name_infix in H as Hi. revert H. unfold file_name, components.
  rewrite split_char_none by done. assert (is_absolute s = false) as ->.
  { destruct (is_absolute s) eqn:E; [|done]. apply is_absolute_head in E. destruct s; [done|].
    injection E as ->. set_solver. }
  rewrite filter_cons. case_decide; simpl; [|done]. unfold component_of.
  do 2 (case_bool_decide; [done|]). by intros [= ->].
Qed.

(** A path that is taken for a POSIX shell is one by name, or its file name
    starts with one. *)
Lemma detect_posix fuel path t :
  detect_shell_type_fuel fuel path = Ok t -> is_posix_shell t = true ->
  exists p, p ∈ POSIX_SHELLS /\ (path = p \/ exists name ext,
    file_name (components path) = Some name /\ name = p ++ ext).
Proof.
  revert path. induction fuel as [|fuel IH]; intros path; [done|]. simpl.
  destruct (shell_by_name path) as [t'|] eqn:Es.
  { intros [= <-] Hp. exists path. split; [|by left]. apply shell_by_name_posix. by rewrite Es. }
  unfold file_stem. destruct (file_name (components path)) as [name|] eqn:En; simpl.
  2: { by intros [= <-]. }
  set (stem := match rsplit_once 46 name with Some _ => _ | None => _ end).
  assert (exists ext, name = stem ++ ext) as [ext Hext].
  { unfold stem. destruct (rsplit_once 46 name) as [[s e]|] eqn:Er; [|exists []; by rewrite app_nil_r].
    case_goal; [exists []; by rewrite app_nil_r|]. apply rsplit_once_Some in Er. by eexists. }
  case_bool_decide; [by intros [= <-]|]. intros Ht Hp.
  destruct (IH stem Ht Hp) as (p & Hin & Hcase). exists p. split; [done|]. right.
  destruct Hcase as [->|(name' & ext' & Hn & ->)]; [by exists name, ext|].
  apply file_name_bare in Hn.
  - exists name, (ext' ++ ext). split; [done|]. by rewrite Hext, <- Hn, app_assoc.
  - apply file_name_no_slash in En. rewrite Hext in En. set_solver.
Qed.

(** ** Source order *)

Definition byte_le (a b : Node) : Prop := (start_byte a <= start_byte b)%N.

Lemma insert_by_byte_perm n l : insert_by_byte n l ≡ₚ n :: l.
Proof.
  induction l as [|m l IH]; simpl; [done|]. case_goal; [done|]. rewrite IH. apply Permutation_swap.
Qed.

Lemma sort_by_byte_perm l : sort_by_byte l ≡ₚ l.
Proof. induction l as [|n l IH]; simpl; [done|]. by rewrite insert_by_byte_perm, IH. Qed.

Lemma insert_by_byte_sorted n l :
  StronglySorted byte_le l -> StronglySorted byte_le (insert_by_byte n l).
Proof.
  induction 1 as [|m l Hs IH Hall]; simpl; [repeat constructor|]. case_goal.
  - apply N.leb_le in E. constructor; [by constructor|]. constructor; [done|].
    eapply Forall_impl; [exact Hall|]. intros x Hx. unfold byte_le in *. lia.
  - apply N.leb_gt in E. constructor; [done|]. rewrite insert_by_byte_perm.
    constructor; [unfold byte_le; lia|done].
Qed.

Lemma sort_by_byte_sorted l : StronglySorted byte_le (sort_by_byte l).
Proof. induction l as [|n l IH]; simpl; [constructor|]. by apply insert_by_byte_sorted. Qed.

Lemma word_only_spec root cmds :
  try_parse_word_only_commands_sequence root = Ok (Some cmds) ->
  has_error root = false /\ Forall (fun n => node_allowed n = true) (nodes root)
  /\ exists ns, ns ≡ₚ filter (fun n => is_command n = true) (nodes root)
       /\ StronglySorted byte_le ns /\ mapM parse_plain_command_from_node ns = Some cmds.
Proof.
  unfold try_parse_word_only_commands_sequence. case_goal; [done|].
  destruct (walk_spec (node_count root) [root] []) as (r & -> & Hr); [by rewrite node_count_forest|].
  simpl. destruct r as [found|]; [|done]. simpl. intros [= Hcmds].
  assert (forest [root] = nodes root) as Hf by (unfold forest; simpl; by rewrite app_nil_r).
  rewrite Hf in Hr. destruct Hr as (F & more & -> & Hp). simpl in Hcmds.
  split_and!; [done|done|]. exists (sort_by_byte more). split_and!; [|apply sort_by_byte_sorted|done].
  by rewrite sort_by_byte_perm.
Qed.

Lemma word_only_rejects root n :
  n ∈ nodes root -> node_allowed n = false ->
  try_parse_word_only_commands_sequence root = Ok None.
Proof.
  intros Hn Ha. unfold try_parse_word_only_commands_sequence. case_goal; [done|].
  destruct (walk_spec (node_count root) [root] []) as (r & -> & Hr); [by rewrite node_count_forest|].
  destruct r as [found|]; [|done]. exfalso. destruct Hr as [F _].
  assert (forest [root] = nodes root) as Hf by (unfold forest; simpl; by rewrite app_nil_r).
  rewrite Hf, Forall_forall in F. specialize (F n Hn). congruence.
Qed.

(** ** Theorems *)

Section theorems.
Context (try_parse_shell : str -> option Node).

(** Finding the commands of a shell invocation always returns: the shell
    detection, the tree walk and the searches of the here-document variant
    terminate on every path and on every tree. *)
Theorem shell_parsing_terminates (command : list str) :
  returns (parse_shell_lc_plain_commands try_parse_shell command)
  /\ returns (parse_shell_lc_single_command_prefix try_parse_shell command).
Proof.
  split.
  - apply returns_bind; [apply extract_bash_command_returns|]. intros [[shell script]|]; [|done].
    destruct (try_parse_shell script); [apply word_only_returns|done].
  - apply returns_bind; [apply extract_bash_command_returns|]. intros [[shell script]|]; [|done].
    destruct (try_parse_shell script) as [root|]; [|done]. case_goal; [done|].
    apply returns_bind; [apply has_named_returns; by rewrite node_count_forest|]. intros [|]; [|done].
    simpl. apply returns_bind; [apply has_named_returns; by rewrite node_count_forest|].
    intros [|]; [done|].
    apply returns_bind; [apply find_single_returns; by rewrite node_count_forest|done].
Qed.

(** A script is taken apart only when its whole tree is plain.  A result
    means that the parse had no error, that every node of the tree is of an
    allowed kind, and that the result is the words of all command nodes, each
    once, in source order; one node of another kind anywhere, such as a
    redirection or a substitution, and the script is rejected. *)
Theorem plain_commands_whitelisted (root : Node) :
  (forall cmds, try_parse_word_only_commands_sequence root = Ok (Some cmds) ->
     has_error root = false /\ Forall (fun n => node_allowed n = true) (nodes root)
     /\ exists ns, ns ≡ₚ filter (fun n => is_command n = true) (nodes root)
          /\ StronglySorted byte_le ns /\ mapM parse_plain_command_from_node ns = Some cmds)
  /\ (forall n, n ∈ nodes root -> node_allowed n = false ->
       try_parse_word_only_commands_sequence root = Ok None).
Proof. split; [apply word_only_spec|intros n; apply word_only_rejects]. Qed.
End theorems.
