(* ===== verification/CommandSafety.v ===== *)
(** * Which commands run without asking (shell-command/src/command_safety)

    [is_known_safe_command] approves a command automatically and
    [command_might_be_dangerous] flags one.  The build is the one for Linux.
    Parsing a PowerShell script is done by a PowerShell process, which is an
    argument, as the bash parser is. *)

From S2P Require Import Prelude RustStr AbsolutePath ShellParse.

(** ** Names and git subcommands (is_dangerous_command.rs) *)

Definition executable_name_lookup_key (raw : str) : option str := file_name (components raw).

Definition GIT_OPTIONS_WITH_VALUE : list str :=
  [L"-C"; L"-c"; L"--config-env"; L"--exec-path"; L"--git-dir"; L"--namespace";
   L"--super-prefix"; L"--work-tree"].
Definition is_git_global_option_with_value (arg : str) : bool := one_of GIT_OPTIONS_WITH_VALUE arg.

Definition starts_with_any (prefixes : list str) (arg : str) : bool :=
  existsb (fun p => starts_with p arg) prefixes.

Definition is_git_global_option_with_inline_value (arg : str) : bool :=
  starts_with_any [L"--config-env="; L"--exec-path="; L"--git-dir="; L"--namespace=";
                   L"--super-prefix="; L"--work-tree="] arg
  || (starts_with (L"-C") arg || starts_with (L"-c") arg) && (2 <? byte_len arg).

(** The loop over the arguments from index [idx] on. *)
Fixpoint find_git_loop (subcommands : list str) (idx : nat) (skip_next : bool) (args : list str)
  : option (nat * str) :=
  match args with
  | [] => None
  | arg :: args =>
      let next skip := find_git_loop subcommands (S idx) skip args in
      if skip_next then next false
      else if is_git_global_option_with_inline_value arg then next false
      else if is_git_global_option_with_value arg then next true
      else if str_eqb arg (L"--") || starts_with (L"-") arg then next false
      else if one_of subcommands arg then Some (idx, arg)
      else None
  end.

Definition find_git_subcommand (command subcommands : list str) : option (nat * str) :=
  cmd0 ← head command;
  if negb (bool_decide (executable_name_lookup_key cmd0 = Some (L"git"))) then None
  else find_git_loop subcommands 1 false (drop 1 command).

Fixpoint is_dangerous_to_call_with_exec (command : list str) : bool :=
  match command with
  | [] => false
  | cmd0 :: rest =>
      if str_eqb cmd0 (L"rm")
      then is_some_and (head rest) (one_of [L"-f"; L"-rf"])
      else if str_eqb cmd0 (L"sudo") then is_dangerous_to_call_with_exec rest
      else false
  end.

(** ** Safe commands (is_safe_command.rs) *)

Inductive GitOptionPattern :=
| Exact (option : str)
| ShortWithInlineValue (option : str)
| Prefix (prefix : str).

Definition git_option_matches (p : GitOptionPattern) (arg : str) : bool :=
  match p with
  | Exact option => str_eqb arg option
  | ShortWithInlineValue option =>
      starts_with option arg && (byte_len option <? byte_len arg)
  | Prefix prefix => starts_with prefix arg
  end.

Definition UNSAFE_GIT_GLOBAL_OPTIONS : list GitOptionPattern :=
  [Exact (L"-C"); ShortWithInlineValue (L"-C"); Exact (L"-c"); ShortWithInlineValue (L"-c");
   Exact (L"-p"); Exact (L"--config-env"); Prefix (L"--config-env="); Exact (L"--exec-path");
   Prefix (L"--exec-path="); Exact (L"--git-dir"); Prefix (L"--git-dir="); Exact (L"--namespace");
   Prefix (L"--namespace="); Exact (L"--paginate"); Exact (L"--super-prefix");
   Prefix (L"--super-prefix="); Exact (L"--work-tree"); Prefix (L"--work-tree=")].

Definition UNSAFE_GIT_SUBCOMMAND_OPTIONS : list GitOptionPattern :=
  [Exact (L"--output"); Prefix (L"--output="); Exact (L"--ext-diff"); Exact (L"--textconv");
   Exact (L"--exec"); Prefix (L"--exec=")].

Definition git_matches_option_pattern (arg : str) (patterns : list GitOptionPattern) : bool :=
  existsb (fun p => git_option_matches p arg) patterns.
Definition git_has_unsafe_global_option (global_args : list str) : bool :=
  existsb (fun arg => git_matches_option_pattern arg UNSAFE_GIT_GLOBAL_OPTIONS) global_args.
Definition git_subcommand_args_are_read_only (args : list str) : bool :=
  negb (existsb (fun arg => git_matches_option_pattern arg UNSAFE_GIT_SUBCOMMAND_OPTIONS) args).

Definition READ_ONLY_BRANCH_FLAGS : list str :=
  [L"--list"; L"-l"; L"--show-current"; L"-a"; L"--all"; L"-r"; L"--remotes"; L"-v"; L"-vv";
   L"--verbose"].

Fixpoint git_branch_loop (args : list str) (saw_read_only_flag : bool) : bool :=
  match args with
  | [] => saw_read_only_flag
  | arg :: args =>
      if one_of READ_ONLY_BRANCH_FLAGS arg then git_branch_loop args true
      else if starts_with (L"--format=") arg then git_branch_loop args true
      else false
  end.
Definition git_branch_is_read_only (branch_args : list str) : bool :=
  if is_nil branch_args then true else git_branch_loop branch_args false.

Definition SAFE_GIT_SUBCOMMANDS : list str :=
  [L"status"; L"log"; L"diff"; L"show"; L"branch"].

Definition is_safe_git_command (command : list str) : bool :=
  match find_git_subcommand command SAFE_GIT_SUBCOMMANDS with
  | None => false
  | Some (subcommand_idx, subcommand) =>
      let global_args := take (subcommand_idx - 1) (drop 1 command) in
      if git_has_unsafe_global_option global_args then false
      else
        let subcommand_args := drop (subcommand_idx + 1) command in
        if one_of [L"status"; L"log"; L"diff"; L"show"] subcommand
        then git_subcommand_args_are_read_only subcommand_args
        else if str_eqb subcommand (L"branch")
        then git_subcommand_args_are_read_only subcommand_args
             && git_branch_is_read_only subcommand_args
        else false
  end.

Definition is_number (s : str) : bool := negb (is_nil s) && forallb is_ascii_digit s.

Definition is_valid_sed_n_arg (arg : option str) : bool :=
  match arg with
  | None => false
  | Some s =>
      match strip_suffix (L"p") s with
      | None => false
      | Some core =>
          match split_char 44 core with
          | [num] => is_number num
          | [a; b] => is_number a && is_number b
          | _ => false
          end
      end
  end.

Definition ALWAYS_SAFE_PROGRAMS : list str :=
  [L"cat"; L"cd"; L"cut"; L"echo"; L"expr"; L"false"; L"grep"; L"head"; L"id"; L"ls"; L"nl";
   L"paste"; L"pwd"; L"rev"; L"seq"; L"stat"; L"tail"; L"tr"; L"true"; L"uname"; L"uniq"; L"wc";
   L"which"; L"whoami"].
Definition UNSAFE_FIND_OPTIONS : list str :=
  [L"-exec"; L"-execdir"; L"-ok"; L"-okdir"; L"-delete"; L"-fls"; L"-fprint"; L"-fprint0";
   L"-fprintf"].
Definition UNSAFE_RIPGREP_OPTIONS_WITH_ARGS : list str := [L"--pre"; L"--hostname-bin"].
Definition UNSAFE_RIPGREP_OPTIONS_WITHOUT_ARGS : list str := [L"--search-zip"; L"-z"].

Definition base64_unsafe (arg : str) : bool :=
  one_of [L"-o"; L"--output"] arg || starts_with (L"--output=") arg
  || starts_with (L"-o") arg && negb (str_eqb arg (L"-o")).
Definition ripgrep_unsafe (arg : str) : bool :=
  one_of UNSAFE_RIPGREP_OPTIONS_WITHOUT_ARGS arg
  || existsb (fun opt => str_eqb arg opt || starts_with (opt ++ L"=") arg)
       UNSAFE_RIPGREP_OPTIONS_WITH_ARGS.

Definition is_safe_to_call_with_exec (command : list str) : bool :=
  match command with
  | [] => false
  | cmd0 :: args =>
      match executable_name_lookup_key cmd0 with
      | None => false
      | Some cmd =>
          if one_of [L"numfmt"; L"tac"] cmd then true
          else if one_of ALWAYS_SAFE_PROGRAMS cmd then true
          else if str_eqb cmd (L"base64") then negb (existsb base64_unsafe args)
          else if str_eqb cmd (L"find") then negb (existsb (one_of UNSAFE_FIND_OPTIONS) command)
          else if str_eqb cmd (L"rg") then negb (existsb ripgrep_unsafe command)
          else if str_eqb cmd (L"git") then is_safe_git_command command
          else if str_eqb cmd (L"sed")
          then (length command <=? 4) && bool_decide (command !! 1 = Some (L"-n"))
               && is_valid_sed_n_arg (command !! 2)
          else false
      end
  end.

(** ** PowerShell (windows_safe_commands.rs) *)

Definition is_powershell_executable (exe : str) : bool :=
  one_of [L"powershell"; L"powershell.exe"; L"pwsh"; L"pwsh.exe"]
    (to_ascii_lowercase (default exe (file_name (components exe)))).

(** [str::replace] of a character by a string. *)
Definition replace_char (c : char) (by_ : str) (s : str) : str :=
  concat ((fun d => if (d =? c)%N then by_ else [d]) <$> s).

Definition quote_argument (arg : str) : str :=
  if is_nil arg then [SQUOTE; SQUOTE]
  else if forallb (fun ch => negb (is_whitespace ch)) arg then arg
  else SQUOTE :: replace_char SQUOTE [SQUOTE; SQUOTE] arg ++ [SQUOTE].

Definition join_arguments_as_script (args : list str) : str :=
  match args with
  | [] => []
  | first :: rest => join [SP] (first :: (quote_argument <$> rest))
  end.

(** [trim_matches] and [trim_start_matches] of a word. *)
Definition bare_word (w : str) : str :=
  let paren c := (c =? 40)%N || (c =? 41)%N in
  to_ascii_lowercase
    (trim_start_matches (N.eqb 45) (trim_end_matches paren (trim_start_matches paren w))).

Definition SIDE_EFFECT_CMDLETS : list str :=
  [L"set-content"; L"add-content"; L"out-file"; L"new-item"; L"remove-item"; L"move-item";
   L"copy-item"; L"rename-item"; L"start-process"; L"stop-process"].
Definition READ_ONLY_CMDLETS : list str :=
  [L"echo"; L"write-output"; L"write-host"; L"dir"; L"ls"; L"get-childitem"; L"gci"; L"cat";
   L"type"; L"gc"; L"get-content"; L"select-string"; L"sls"; L"findstr"; L"measure-object";
   L"measure"; L"get-location"; L"gl"; L"pwd"; L"test-path"; L"tp"; L"resolve-path"; L"rvpa";
   L"select-object"; L"select"; L"get-item"].

Definition is_safe_ripgrep (words : list str) : bool :=
  negb (existsb (fun arg => ripgrep_unsafe (to_ascii_lowercase arg)) (drop 1 words)).

Definition is_safe_powershell_words (words : list str) : bool :=
  match words with
  | [] => false
  | first :: _ =>
      if existsb (fun w => one_of SIDE_EFFECT_CMDLETS (bare_word w)) words then false
      else
        let command := bare_word first in
        if one_of READ_ONLY_CMDLETS command then true
        else if str_eqb command (L"git") then is_safe_git_command words
        else if str_eqb command (L"rg") then is_safe_ripgrep words
        else false
  end.

Section safety.
(** [try_parse_shell] of bash.rs, and the commands [parse_with_powershell_ast]
    finds in a script, if it finds any. *)
Context (try_parse_shell : str -> option Node).
Context (powershell_ast : str -> str -> option (list (list str))).

(** The loop over the arguments of a PowerShell executable. *)
Fixpoint parse_powershell_loop (executable : str) (args : list str) : option (list (list str)) :=
  match args with
  | [] => None
  | arg :: rest =>
      let lower := to_ascii_lowercase arg in
      if one_of [L"-command"; L"/command"; L"-c"] lower then
        match rest with
        | [script] => powershell_ast executable script
        | _ => None
        end
      else if starts_with (L"-command:") lower || starts_with (L"/command:") lower then
        match rest with
        | [] => script ← snd <$> split_once 58 arg; powershell_ast executable script
        | _ => None
        end
      else if one_of [L"-nologo"; L"-noprofile"; L"-noninteractive"; L"-mta"; L"-sta"] lower
      then parse_powershell_loop executable rest
      else if one_of [L"-encodedcommand"; L"-ec"; L"-file"; L"/file"; L"-windowstyle";
                      L"-executionpolicy"; L"-workingdirectory"] lower then None
      else if starts_with (L"-") lower then None
      else powershell_ast executable (join_arguments_as_script args)
  end.

Definition try_parse_powershell_command_sequence (command : list str)
  : option (list (list str)) :=
  match command with
  | [] => None
  | exe :: rest => if is_powershell_executable exe then parse_powershell_loop exe rest else None
  end.

Definition is_safe_command_windows (command : list str) : bool :=
  is_some_and (try_parse_powershell_command_sequence command) (forallb is_safe_powershell_words).

(** [zsh] is treated as [bash]. *)
Definition zsh_as_bash (s : str) : str := if str_eqb s (L"zsh") then L"bash" else s.

Definition is_known_safe_command (command : list str) : result unit bool :=
  let command := zsh_as_bash <$> command in
  if is_safe_command_windows command then Ok true
  else if is_safe_to_call_with_exec command then Ok true
  else
    let? all_commands := parse_shell_lc_plain_commands try_parse_shell command in
    Ok (is_some_and all_commands (fun all_commands =>
      negb (is_nil all_commands) && forallb is_safe_to_call_with_exec all_commands)).

Definition command_might_be_dangerous (command : list str) : result unit bool :=
  if is_dangerous_to_call_with_exec command then Ok true
  else
    let? all_commands := parse_shell_lc_plain_commands try_parse_shell command in
    Ok (is_some_and all_commands (existsb is_dangerous_to_call_with_exec)).
End safety.

(** ** Git invocations *)

Lemma one_of_true words s : one_of words s = true <-> s ∈ words.
Proof.
  unfold one_of. rewrite existsb_exists. setoid_rewrite bool_decide_eq_true.
  setoid_rewrite <- list_elem_of_In. naive_solver.
Qed.

Definition unsafe_global (arg : str) : bool := git_matches_option_pattern arg UNSAFE_GIT_GLOBAL_OPTIONS.

(** The options that take a value, in either form, are all unsafe. *)
Lemma value_option_unsafe arg : is_git_global_option_with_value arg = true -> unsafe_global arg = true.
Proof.
  unfold is_git_global_option_with_value, GIT_OPTIONS_WITH_VALUE. rewrite one_of_true.
  each_element ltac:(reflexivity).
Qed.

Lemma pattern_unsafe p arg :
  In p UNSAFE_GIT_GLOBAL_OPTIONS -> git_option_matches p arg = true -> unsafe_global arg = true.
Proof. intros Hp Hm. apply existsb_exists. by exists p. Qed.

Lemma inline_option_unsafe arg :
  is_git_global_option_with_inline_value arg = true -> unsafe_global arg = true.
Proof.
  unfold is_git_global_option_with_inline_value. intros [H|H]%orb_true_iff.
  - apply existsb_exists in H as (p & Hp & Hs). apply (pattern_unsafe (Prefix p)); [|done].
    simpl in Hp. unfold UNSAFE_GIT_GLOBAL_OPTIONS. simpl. naive_solver.
  - apply andb_true_iff in H as [[H|H]%orb_true_iff Hl].
    + apply (pattern_unsafe (ShortWithInlineValue (L"-C"))); [unfold UNSAFE_GIT_GLOBAL_OPTIONS; simpl; tauto|].
      simpl. by rewrite H.
    + apply (pattern_unsafe (ShortWithInlineValue (L"-c"))); [unfold UNSAFE_GIT_GLOBAL_OPTIONS; simpl; tauto|].
      simpl. by rewrite H.
Qed.

(** A plain option before the subcommand. *)
Definition plain_global (arg : str) : Prop := starts_with (L"-") arg = true /\ unsafe_global arg = false.

Lemma find_git_loop_index subs idx skip args k sub :
  find_git_loop subs idx skip args = Some (k, sub) -> idx <= k.
Proof.
  revert idx skip. induction args as [|a args IH]; intros idx skip; [done|].
  cbn [find_git_loop]. repeat case_goal; try done; try (intros H%IH; lia). intros [= <- <-]. lia.
Qed.

Lemma find_git_loop_safe subs idx args k sub :
  find_git_loop subs idx false args = Some (k, sub) ->
  git_has_unsafe_global_option (take (k - idx) args) = false ->
  exists pre post, args = pre ++ sub :: post /\ k = idx + length pre
    /\ Forall plain_global pre /\ one_of subs sub = true.
Proof.
  revert idx. induction args as [|a args IH]; intros idx; [done|]. intros Hf Hu.
  pose proof (find_git_loop_index _ _ _ _ _ _ Hf) as Hk. cbn [find_git_loop] in Hf.
  assert (forall skip, find_git_loop subs (S idx) skip args = Some (k, sub) ->
    unsafe_global a = false /\ git_has_unsafe_global_option (take (k - S idx) args) = false) as Hstep.
  { intros skip Hs%find_git_loop_index. replace (k - idx) with (S (k - S idx)) in Hu by lia.
    simpl in Hu. by apply orb_false_iff in Hu. }
  assert (starts_with (L"-") a = true -> unsafe_global a = false ->
    find_git_loop subs (S idx) false args = Some (k, sub) ->
    git_has_unsafe_global_option (take (k - S idx) args) = false ->
    exists pre post, a :: args = pre ++ sub :: post /\ k = idx + length pre
      /\ Forall plain_global pre /\ one_of subs sub = true) as Hcons.
  { intros Hd Hs Hr Hrest. destruct (IH (S idx) Hr Hrest) as (pre & post & -> & -> & F & Hsub).
    exists (a :: pre), post. simpl. split_and!; [done|lia|by constructor|done]. }
  destruct (is_git_global_option_with_inline_value a) eqn:E1.
  { destruct (Hstep _ Hf) as [Hs _]. apply inline_option_unsafe in E1. congruence. }
  destruct (is_git_global_option_with_value a) eqn:E2.
  { destruct (Hstep _ Hf) as [Hs _]. apply value_option_unsafe in E2. congruence. }
  destruct (str_eqb a (L"--") || starts_with (L"-") a) eqn:E3.
  - destruct (Hstep _ Hf). apply Hcons; try done.
    apply orb_true_iff in E3 as [E3%bool_decide_eq_true|?]; [by rewrite E3|done].
  - destruct (one_of subs a) eqn:E4; [|done]. injection Hf as <- <-.
    exists [], args. split_and!; [done|simpl; lia|constructor|done].
Qed.

Lemma find_git_loop_plain subs idx pre sub post :
  Forall plain_global pre -> one_of subs sub = true ->
  is_git_global_option_with_inline_value sub = false ->
  is_git_global_option_with_value sub = false -> starts_with (L"-") sub = false ->
  find_git_loop subs idx false (pre ++ sub :: post) = Some (idx + length pre, sub).
Proof.
  intros F Hsub Hi Hv Hd. revert idx. induction F as [|a pre [Ha Hu] F IH]; intros idx.
  - cbn [find_git_loop app]. rewrite Hi, Hv, Hd, Hsub. simpl. rewrite Nat.add_0_r.
    destruct (str_eqb sub (L"--")) eqn:E; [|done]. apply bool_decide_eq_true in E as ->. done.
  - cbn [find_git_loop app].
    destruct (is_git_global_option_with_inline_value a) eqn:E1;
      [apply inline_option_unsafe in E1; congruence|].
    destruct (is_git_global_option_with_value a) eqn:E2;
      [apply value_option_unsafe in E2; congruence|].
    rewrite Ha, orb_true_r, IH. simpl. f_equal. f_equal. lia.
Qed.

Definition read_only_branch_arg (arg : str) : bool :=
  one_of READ_ONLY_BRANCH_FLAGS arg || starts_with (L"--format=") arg.

Lemma git_branch_spec args : git_branch_is_read_only args = forallb read_only_branch_arg args.
Proof.
  assert (forall l saw, git_branch_loop l saw
    = forallb read_only_branch_arg l && (saw || negb (is_nil l))) as H.
  { induction l as [|a l IH]; intros saw; simpl; [by rewrite orb_false_r|].
    unfold read_only_branch_arg at 1. rewrite !IH.
    destruct (one_of READ_ONLY_BRANCH_FLAGS a); [by destruct (forallb _ l), saw|].
    destruct (starts_with (L"--format=") a); by destruct (forallb _ l), saw. }
  unfold git_branch_is_read_only. destruct args as [|a args]; [done|].
  rewrite (proj2 (is_nil_false _)) by done. rewrite H. simpl. by rewrite andb_true_r.
Qed.

(** The invocations of git that may run without asking. *)
Definition read_only_git (command : list str) : Prop :=
  exists prog pre sub post, command = prog :: pre ++ sub :: post
    /\ executable_name_lookup_key prog = Some (L"git")
    /\ Forall plain_global pre /\ sub ∈ SAFE_GIT_SUBCOMMANDS
    /\ Forall (fun a => git_matches_option_pattern a UNSAFE_GIT_SUBCOMMAND_OPTIONS = false) post
    /\ (sub = L"branch" -> Forall (fun a => read_only_branch_arg a = true) post).

Lemma safe_subcommand_word sub :
  sub ∈ SAFE_GIT_SUBCOMMANDS ->
  is_git_global_option_with_inline_value sub = false
  /\ is_git_global_option_with_value sub = false /\ starts_with (L"-") sub = false
  /\ (one_of [L"status"; L"log"; L"diff"; L"show"] sub = negb (str_eqb sub (L"branch"))).
Proof.
  unfold SAFE_GIT_SUBCOMMANDS.
  each_element ltac:(by split_and!; vm_compute).
Qed.

Lemma take_pre {A} (pre : list A) x post : take (length pre) (pre ++ x :: post) = pre.
Proof. apply take_app_length. Qed.

Lemma read_only_args post :
  git_subcommand_args_are_read_only post = true <->
  Forall (fun a => git_matches_option_pattern a UNSAFE_GIT_SUBCOMMAND_OPTIONS = false) post.
Proof. unfold git_subcommand_args_are_read_only. by rewrite negb_true_iff, existsb_false_Forall. Qed.

Lemma plain_global_safe pre :
  Forall plain_global pre -> git_has_unsafe_global_option pre = false.
Proof. intros F. apply existsb_false_Forall. eapply Forall_impl; [exact F|]. by intros a []. Qed.

Lemma is_safe_git_command_spec command : is_safe_git_command command = true <-> read_only_git command.
Proof.
  unfold is_safe_git_command, find_git_subcommand. split.
  - destruct command as [|prog args]; [done|]. cbn [head mbind option_bind].
    case_bool_decide as Hg; [|done]. cbn [negb].
    change (drop 1 (prog :: args)) with args.
    destruct (find_git_loop SAFE_GIT_SUBCOMMANDS 1 false args) as [[k sub]|] eqn:Ef; [|done].
    destruct (git_has_unsafe_global_option (take (k - 1) args)) eqn:Eu; [done|].
    destruct (find_git_loop_safe _ _ _ _ _ Ef Eu) as (pre & post & -> & -> & F & Hsub).
    apply one_of_true in Hsub. destruct (safe_subcommand_word sub Hsub) as (_ & _ & _ & ->).
    assert (drop (1 + length pre + 1) (prog :: pre ++ sub :: post) = post) as ->.
    { replace (1 + length pre + 1) with (S (length pre + 1)) by lia. simpl.
      rewrite <- drop_drop, drop_app_length. done. }
    intros H. exists prog, pre, sub, post.
    destruct (str_eqb sub (L"branch")) eqn:Eb; cbn [negb] in H.
    + apply andb_true_iff in H as [H1%read_only_args H2]. rewrite git_branch_spec, forallb_Forall in H2.
      by split_and!.
    + apply read_only_args in H. split_and!; try done. intros ->. done.
  - intros (prog & pre & sub & post & -> & Hg & F & Hsub & Fp & Hb).
    cbn [head mbind option_bind]. rewrite bool_decide_true by done. cbn [negb].
    change (drop 1 (prog :: pre ++ sub :: post)) with (pre ++ sub :: post).
    destruct (safe_subcommand_word sub Hsub) as (H1 & H2 & H3 & H4).
    rewrite find_git_loop_plain by (done || by apply one_of_true).
    replace (1 + length pre - 1) with (length pre) by lia. rewrite take_pre, plain_global_safe by done.
    replace (1 + length pre + 1) with (S (length pre + 1)) by lia. cbn [drop].
    rewrite <- drop_drop, drop_app_length. cbn [drop]. rewrite drop_0, H4.
    destruct (str_eqb sub (L"branch")) eqn:Eb; cbn [negb].
    + apply bool_decide_eq_true in Eb. rewrite (proj2 (read_only_args post) Fp), git_branch_spec.
      by apply forallb_Forall, Hb.
    + by apply read_only_args.
Qed.

(** ** Safe against dangerous *)

Definition SAFE_PROGRAMS : list str :=
  [L"numfmt"; L"tac"] ++ ALWAYS_SAFE_PROGRAMS ++ [L"base64"; L"find"; L"rg"; L"git"; L"sed"].

Lemma safe_exec_program w args :
  is_safe_to_call_with_exec (w :: args) = true ->
  exists name, file_name (components w) = Some name /\ name ∈ SAFE_PROGRAMS.
Proof.
  unfold is_safe_to_call_with_exec, executable_name_lookup_key.
  destruct (file_name (components w)) as [name|]; [|done]. intros H. exists name. split; [done|].
  unfold SAFE_PROGRAMS. rewrite !elem_of_app.
  destruct (one_of [L"numfmt"; L"tac"] name) eqn:E1; [left; by apply one_of_true|].
  destruct (one_of ALWAYS_SAFE_PROGRAMS name) eqn:E2; [right; left; by apply one_of_true|].
  right. right. apply one_of_true. unfold one_of. simpl.
  repeat match type of H with (if ?b then _ else _) = true => destruct b eqn:?; simpl; [done|] end.
  done.
Qed.

(** No program on the safe list starts like a POSIX shell. *)
Lemma safe_program_not_shell name p ext :
  name ∈ SAFE_PROGRAMS -> p ∈ POSIX_SHELLS -> name <> p ++ ext.
Proof.
  intros Hn Hp Heq.
  assert (existsb (fun n => existsb (fun p => starts_with p n) POSIX_SHELLS) SAFE_PROGRAMS = false)
    as Hno by (vm_compute; reflexivity).
  apply not_true_iff_false in Hno. apply Hno. apply existsb_exists. exists name.
  split; [by apply list_elem_of_In|]. apply existsb_exists. exists p.
  split; [by apply list_elem_of_In|]. apply starts_with_true. eauto.
Qed.

Lemma powershell_not_shell name p ext :
  to_ascii_lowercase name ∈ [L"powershell"; L"powershell.exe"; L"pwsh"; L"pwsh.exe"] ->
  p ∈ POSIX_SHELLS -> name <> p ++ ext.
Proof.
  intros Hn Hp ->. unfold to_ascii_lowercase in Hn. rewrite fmap_app in Hn.
  assert (existsb (fun n => existsb (fun p => starts_with (to_ascii_lowercase_char <$> p) n) POSIX_SHELLS)
    [L"powershell"; L"powershell.exe"; L"pwsh"; L"pwsh.exe"] = false)
    as Hno by (vm_compute; reflexivity).
  apply not_true_iff_false in Hno. apply Hno. apply existsb_exists. eexists.
  split; [by apply list_elem_of_In|]. apply existsb_exists. exists p.
  split; [by apply list_elem_of_In|]. apply starts_with_true. eauto.
Qed.

Lemma posix_file_name p : p ∈ POSIX_SHELLS -> file_name (components p) = Some p.
Proof.
  unfold POSIX_SHELLS.
  each_element ltac:(vm_compute; reflexivity).
Qed.

(** A program whose file name does not start like a shell starts no script. *)
Lemma not_shell_no_script w args :
  (forall name p ext, file_name (components w) = Some name -> p ∈ POSIX_SHELLS -> name <> p ++ ext) ->
  extract_bash_command (w :: args) = Ok None.
Proof.
  intros H. destruct args as [|flag [|script [|]]]; try done. cbn [extract_bash_command].
  case_goal; [done|]. pose proof (detect_shell_type_returns w) as Hs.
  destruct (detect_shell_type w) as [t|[]| |] eqn:Ed; try done; simpl.
  destruct (is_posix_shell t) eqn:Ep; [|done]. exfalso.
  destruct (detect_posix _ _ _ Ed Ep) as (p & Hp & [->|(name & ext & Hn & Hne)]).
  - apply (H p p []); [by apply posix_file_name|done|by rewrite app_nil_r].
  - by apply (H name p ext).
Qed.

Lemma zsh_as_bash_other s : s <> L"zsh" -> zsh_as_bash s = s.
Proof. intros H. unfold zsh_as_bash, str_eqb. by rewrite bool_decide_false. Qed.

(** A call of a shell with a given script, such as [bash -c script]. *)
Definition runs_script (script : str) (command : list str) : bool :=
  match extract_bash_command command with Ok (Some (_, s)) => str_eqb s script | _ => false end.

(** Approved programs are not flagged. *)
Lemma safe_exec_not_dangerous cmd :
  is_safe_to_call_with_exec cmd = true -> is_dangerous_to_call_with_exec cmd = false.
Proof.
  destruct cmd as [|w args]; [done|]. intros H. simpl.
  destruct (str_eqb w (L"rm")) eqn:E1; [apply bool_decide_eq_true in E1 as ->; by vm_compute in H|].
  destruct (str_eqb w (L"sudo")) eqn:E2; [apply bool_decide_eq_true in E2 as ->; by vm_compute in H|].
  done.
Qed.

(** The head of an approved command, before [zsh] was replaced. *)
Lemma head_not_dangerous w args :
  w <> L"rm" -> w <> L"sudo" -> is_dangerous_to_call_with_exec (w :: args) = false.
Proof.
  intros H1 H2. simpl. unfold str_eqb. by rewrite !bool_decide_false.
Qed.

(** ** Theorems *)

(** Git is approved exactly for [status], [log], [diff], [show] and
    [branch] with harmless options: what precedes the subcommand are options
    without a value that are not on the unsafe list, so an option that consumes
    the next word cannot hide another subcommand, and what follows it is on
    neither the unsafe list nor, for [branch], outside the listing flags. *)
Theorem safe_git_is_read_only (command : list str) :
  is_safe_git_command command = true <-> read_only_git command.
Proof. apply is_safe_git_command_spec. Qed.

Section approval.
Context (try_parse_shell : str -> option Node).
Context (powershell_ast : str -> str -> option (list (list str))).

Lemma zsh_parse_same command :
  runs_script (L"zsh") command = false ->
  parse_shell_lc_plain_commands try_parse_shell (zsh_as_bash <$> command)
  = parse_shell_lc_plain_commands try_parse_shell command.
Proof.
  intros Hz. unfold parse_shell_lc_plain_commands.
  destruct command as [|shell [|flag [|script [|]]]]; try done. csimpl.
  destruct (decide (flag = L"zsh")) as [->|Hflag]; [done|]. rewrite (zsh_as_bash_other flag) by done.
  destruct (decide (script = L"zsh")) as [->|Hscript].
  - unfold runs_script, extract_bash_command in *. destruct (one_of _ flag); [|done]. cbn [negb] in *.
    destruct (decide (shell = L"zsh")) as [->|Hshell]; [by vm_compute in Hz|]. rewrite (zsh_as_bash_other shell) by done.
    destruct (detect_shell_type shell) as [ty|[]| |]; try done. cbn in *. by destruct (is_posix_shell ty).
  - rewrite (zsh_as_bash_other script) by done.
    destruct (decide (shell = L"zsh")) as [->|Hshell]; [|by rewrite zsh_as_bash_other].
    unfold extract_bash_command. by destruct (one_of _ flag).
Qed.

Lemma head_zsh_as_bash w x : x <> L"bash" -> zsh_as_bash w = x -> w = x \/ w = L"zsh".
Proof.
  unfold zsh_as_bash. case_goal; [|auto]. apply bool_decide_eq_true in E. auto.
Qed.

(** The three ways to be approved. *)
Lemma known_safe_cases command :
  is_known_safe_command try_parse_shell powershell_ast command = Ok true ->
  is_safe_command_windows powershell_ast (zsh_as_bash <$> command) = true
  \/ is_safe_to_call_with_exec (zsh_as_bash <$> command) = true
  \/ exists all, parse_shell_lc_plain_commands try_parse_shell (zsh_as_bash <$> command)
       = Ok (Some all) /\ all <> [] /\ Forall (fun c => is_safe_to_call_with_exec c = true) all.
Proof.
  unfold is_known_safe_command. case_goal; [by left|]. case_goal; [by right; left|].
  intros H. right. right. run_ok H. injection H as H.
  destruct a as [all|]; [|done]. simpl in H. split_bools. exists all.
  split_and!; [done|by apply is_nil_false|by apply forallb_Forall].
Qed.

(** A command whose program neither is [rm] or [sudo] nor starts like a shell. *)
Lemma not_dangerous_program w args :
  w <> L"rm" -> w <> L"sudo" ->
  (forall name p ext, file_name (components w) = Some name -> p ∈ POSIX_SHELLS -> name <> p ++ ext) ->
  command_might_be_dangerous try_parse_shell (w :: args) = Ok false.
Proof.
  intros H1 H2 H3. unfold command_might_be_dangerous. rewrite head_not_dangerous by done.
  unfold parse_shell_lc_plain_commands. by rewrite not_shell_no_script.
Qed.

(** The three ways to be approved exclude the danger check. *)
Lemma known_safe_not_dangerous (command : list str) :
  is_known_safe_command try_parse_shell powershell_ast command = Ok true ->
  runs_script (L"zsh") command = false ->
  command_might_be_dangerous try_parse_shell command = Ok false.
Proof.
  intros Hsafe Hz. apply known_safe_cases in Hsafe as [Hw|[He|(all & Hp & _ & F)]].
  - destruct command as [|w args]; [done|]. unfold is_safe_command_windows in Hw. simpl in Hw.
    destruct (is_powershell_executable (zsh_as_bash w)) eqn:Ep; [|done].
    destruct (decide (w = L"zsh")) as [->|Hne]; [done|]. rewrite zsh_as_bash_other in Ep by done.
    apply not_dangerous_program; [by intros ->|by intros ->|].
    intros name p ext Hn Hpx. unfold is_powershell_executable in Ep. rewrite Hn in Ep.
    apply one_of_true in Ep. by apply powershell_not_shell.
  - destruct command as [|w args]; [done|]. csimpl in He.
    destruct (decide (w = L"zsh")) as [->|Hne]; [by apply safe_exec_program in He as (n & [= <-] & Hn);
      apply one_of_true in Hn; vm_compute in Hn|].
    rewrite zsh_as_bash_other in He by done.
    apply not_dangerous_program; [by intros ->|by intros ->|].
    intros name p ext Hn Hpx. apply safe_exec_program in He as (name' & Hn' & Hin).
    rewrite Hn in Hn'. injection Hn' as <-. by apply safe_program_not_shell.
  - rewrite zsh_parse_same in Hp by done. unfold command_might_be_dangerous. rewrite Hp.
    assert (is_dangerous_to_call_with_exec command = false) as ->.
    { unfold parse_shell_lc_plain_commands, extract_bash_command in Hp.
      destruct command as [|shell [|flag [|script [|]]]]; try done.
      destruct (one_of [L"-lc"; L"-c"] flag) eqn:Ef; [|done]. apply one_of_true in Ef.
      simpl. assert (one_of [L"-f"; L"-rf"] flag = false /\ str_eqb flag (L"rm") = false
        /\ str_eqb flag (L"sudo") = false) as (-> & -> & ->).
      { revert Ef. each_element ltac:(done). }
      by repeat case_goal. }
    simpl. f_equal. apply existsb_false_Forall. eapply Forall_impl; [exact F|].
    intros c. apply safe_exec_not_dangerous.
Qed.

(** C16: nothing is approved automatically and flagged as dangerous: the three
    ways to approve a command, the safe program list, read-only PowerShell and
    scripts of safe commands, exclude the commands the danger check looks for,
    under [sudo] and inside scripts too.  (The command is not a shell that is
    given the one word [zsh] as its script, as in [bash -c zsh]: the first check
    reads that script as [bash] and the second as it is.) *)
Theorem approved_is_not_dangerous (command : list str) :
  is_known_safe_command try_parse_shell powershell_ast command = Ok true ->
  runs_script (L"zsh") command = false ->
  command_might_be_dangerous try_parse_shell command = Ok false.
Proof. apply known_safe_not_dangerous. Qed.

(** A script that is approved is plain and safe throughout: its tree has no
    node outside the whitelist, and the words of every command in it, each
    pipeline stage and each side of an operator included, are approved on their
    own. *)
Theorem approved_script_is_plain (shell flag script : str) (root : Node) (n : Node) :
  is_known_safe_command try_parse_shell powershell_ast [shell; flag; script] = Ok true ->
  shell ∈ POSIX_SHELLS -> script <> L"zsh" -> try_parse_shell script = Some root ->
  n ∈ nodes root ->
  node_allowed n = true
  /\ (is_command n = true -> exists words, parse_plain_command_from_node n = Some words
        /\ is_safe_to_call_with_exec words = true).
Proof.
  intros Hsafe Hshell Hs Hroot Hn. apply known_safe_cases in Hsafe.
  assert (zsh_as_bash shell ∈ [L"bash"; L"sh"]) as Hsh.
  { revert Hshell. unfold POSIX_SHELLS.
    each_element ltac:(apply one_of_true; vm_compute; reflexivity). }
  change (zsh_as_bash <$> [shell; flag; script])
    with [zsh_as_bash shell; zsh_as_bash flag; zsh_as_bash script] in Hsafe.
  rewrite (zsh_as_bash_other script) in Hsafe by done.
  destruct Hsafe as [Hw|[He|(all & Hp & _ & F)]].
  - exfalso. unfold is_safe_command_windows in Hw. simpl in Hw.
    assert (is_powershell_executable (zsh_as_bash shell) = false) as Hno; [|by rewrite Hno in Hw].
    revert Hsh. each_element ltac:(done).
  - exfalso. apply safe_exec_program in He as (name & Hname & Hin). revert Hsh.
    repeat (intros [Heq|Hin']%elem_of_cons; [rewrite Heq in Hname; vm_compute in Hname;
      injection Hname as <-; apply one_of_true in Hin; by vm_compute in Hin|revert Hin']). set_solver.
  - unfold parse_shell_lc_plain_commands in Hp. run_ok Hp. destruct a as [[sh sc]|]; [|done].
    assert (sc = script) as ->.
    { unfold extract_bash_command in Hr. case_hyp Hr; [done|]. run_ok Hr.
      destruct (is_posix_shell a) in Hr; [|done]. by injection Hr as _ ->. }
    rewrite Hroot in Hp. destruct (word_only_spec root all Hp) as (_ & Fn & ns & Hperm & _ & Hm).
    rewrite Forall_forall in Fn. split; [by apply Fn|]. intros Hc.
    assert (n ∈ ns) as Hin by (rewrite Hperm; by apply list_elem_of_filter).
    apply mapM_Some_1 in Hm. apply list_elem_of_lookup in Hin as [i Hi].
    destruct (Forall2_lookup_l _ _ _ _ _ Hm Hi) as (words & Hi' & Hw).
    exists words. split; [done|]. rewrite Forall_forall in F. apply F.
    by apply list_elem_of_lookup_2 in Hi'.
Qed.

(** [bash] removes a backslash and keeps the character after it. *)
Fixpoint remove_escapes (w : str) : str :=
  match w with
  | 92%N :: c :: w' => c :: remove_escapes w'
  | c :: w' => c :: remove_escapes w'
  | [] => []
  end.

(** The tree of a command of words. *)
Definition leaf (k text : str) (at_ : N) : Node := mkNode k true false at_ (Some text) [].
Definition command_tree (prog : str) (args : list str) (at_ : N) : Node :=
  mkNode (L"command") true false at_ None
    (mkNode (L"command_name") true false at_ (Some prog) [leaf (L"word") prog at_]
     :: ((fun a => leaf (L"word") a (at_ + 1)) <$> args)).
Definition program_tree (cmds : list Node) : Node :=
  mkNode (L"program") true false 0 None cmds.

(** The words that are checked are the source text of the word nodes, in
    which a backslash is still there.  So the script [git diff --outp\ut=x], once
    parsed into its one command of three words, is approved, although the shell
    removes the backslash and the words it runs are not approved. *)
Theorem escaped_option_is_approved :
  let script := L"git diff --outp\ut=x" in
  let words := [L"git"; L"diff"; L"--outp\ut=x"] in
  try_parse_shell script
    = Some (program_tree [command_tree (L"git") [L"diff"; L"--outp\ut=x"] 0]) ->
  is_known_safe_command try_parse_shell powershell_ast [L"bash"; L"-lc"; script] = Ok true
  /\ remove_escapes <$> words = [L"git"; L"diff"; L"--output=x"]
  /\ is_safe_to_call_with_exec (remove_escapes <$> words) = false.
Proof.
  intros script words Htree. split_and!; [|vm_compute; reflexivity..].
  unfold is_known_safe_command, parse_shell_lc_plain_commands.
  set (command := zsh_as_bash <$> _).
  assert (extract_bash_command command = Ok (Some (L"bash", script))) as -> by (vm_compute; reflexivity).
  cbn [rbind]. rewrite Htree.
  assert (is_safe_command_windows powershell_ast command = false) as -> by (vm_compute; reflexivity).
  vm_compute. reflexivity.
Qed.
End approval.

(** Witnesses. *)
Definition sample_parser (script : str) : option Node :=
  if str_eqb script (L"git log | head -3")
  then Some (program_tree [mkNode (L"pipeline") true false 0 None
         [command_tree (L"git") [L"log"] 0; mkNode (L"|") false false 8 (Some (L"|")) [];
          command_tree (L"head") [L"-3"] 10]])
  else if str_eqb script (L"git diff --outp\ut=x")
  then Some (program_tree [command_tree (L"git") [L"diff"; L"--outp\ut=x"] 0])
  else None.
Definition no_powershell (exe script : str) : option (list (list str)) := None.

Lemma approved_is_not_dangerous_witness :
  is_known_safe_command sample_parser no_powershell [L"zsh"; L"-lc"; L"git log | head -3"] = Ok true
  /\ command_might_be_dangerous sample_parser [L"zsh"; L"-lc"; L"git log | head -3"] = Ok false.
Proof.
  split; [vm_compute; reflexivity|].
  apply (approved_is_not_dangerous sample_parser no_powershell
    [L"zsh"; L"-lc"; L"git log | head -3"]); [vm_compute; reflexivity|by vm_compute].
Defined.

Lemma approved_script_is_plain_witness :
  exists words, parse_plain_command_from_node (command_tree (L"head") [L"-3"] 10) = Some words
    /\ is_safe_to_call_with_exec words = true.
Proof.
  destruct (approved_script_is_plain sample_parser no_powershell (L"bash") (L"-lc")
    (L"git log | head -3") (program_tree [mkNode (L"pipeline") true false 0 None
         [command_tree (L"git") [L"log"] 0; mkNode (L"|") false false 8 (Some (L"|")) [];
          command_tree (L"head") [L"-3"] 10]]) (command_tree (L"head") [L"-3"] 10))
    as [_ H]; [vm_compute; reflexivity|right; left|by vm_compute|vm_compute; reflexivity| |].
  - apply list_elem_of_In. vm_compute. tauto.
  - apply H. vm_compute. reflexivity.
Defined.

Lemma escaped_option_is_approved_witness :
  is_known_safe_command sample_parser no_powershell
    [L"bash"; L"-lc"; L"git diff --outp\ut=x"] = Ok true.
Proof.
  apply (escaped_option_is_approved sample_parser no_powershell). vm_compute. reflexivity.
Defined.
