(* ===== verification/OutputTruncation.v ===== *)
(** * Truncation of tool output (utils/string/src/truncate.rs,
    utils/output-truncation/src/lib.rs)

    A long output is cut in its middle: a prefix and a suffix survive around a
    marker that says how much went away.  Lengths and offsets are bytes of the
    UTF-8 encoding, as [usize]; slicing at an offset that is not a character
    boundary panics, so [split_string] has a [Panic] outcome that its
    specification excludes.  The policy's budget is scaled by an [f64]; that
    multiplication is carried out on the IEEE 754 binary64 of the Standard
    Library's [SpecFloat]. *)

From Stdlib Require Import SpecFloat.
From S2P Require Import Prelude RustStr.

Definition APPROX_BYTES_PER_TOKEN : N := 4.

(** [str::len], as a [usize]. *)
Definition str_len (s : str) : N := N.of_nat (byte_len s).
Definition char_len (c : char) : N := N.of_nat (len_utf8 c).

(** [(&s[..n], &s[n..])]; [None] where slicing panics. *)
Fixpoint split_at_byte (n : N) (s : str) : option (str * str) :=
  if (n =? 0)%N then Some ([], s)
  else match s with
       | [] => None
       | c :: s' =>
           if (char_len c <=? n)%N
           then '(a, b) ← split_at_byte (n - char_len c) s'; Some (c :: a, b)
           else None
       end.

Definition approx_token_count (text : str) : N :=
  saturating_add (str_len text) (APPROX_BYTES_PER_TOKEN - 1) / APPROX_BYTES_PER_TOKEN.

Definition approx_bytes_for_tokens (tokens : N) : N := saturating_mul tokens APPROX_BYTES_PER_TOKEN.

Definition approx_tokens_from_byte_count (bytes : N) : N :=
  saturating_add bytes (APPROX_BYTES_PER_TOKEN - 1) / APPROX_BYTES_PER_TOKEN.

(** The four variables of the loop of [split_string]. *)
Record SplitState := mkSplit {
  prefix_end : N;
  suffix_start : N;
  removed_chars : N;
  suffix_started : bool }.

Definition split_step (beginning_bytes tail_start_target idx : N) (ch : char) (st : SplitState)
  : SplitState :=
  let char_end := (idx + char_len ch)%N in
  if (char_end <=? beginning_bytes)%N
  then mkSplit char_end (suffix_start st) (removed_chars st) (suffix_started st)
  else if (tail_start_target <=? idx)%N
  then if suffix_started st then st
       else mkSplit (prefix_end st) idx (removed_chars st) true
  else mkSplit (prefix_end st) (suffix_start st) (saturating_add (removed_chars st) 1)
         (suffix_started st).

(** [for (idx, ch) in s.char_indices()] *)
Fixpoint split_loop (beginning_bytes tail_start_target idx : N) (s : str) (st : SplitState)
  : SplitState :=
  match s with
  | [] => st
  | ch :: rest =>
      split_loop beginning_bytes tail_start_target (idx + char_len ch) rest
        (split_step beginning_bytes tail_start_target idx ch st)
  end.

Definition split_string (s : str) (beginning_bytes end_bytes : N) : result unit (N * str * str) :=
  if is_nil s then Ok (0%N, [], [])
  else
    let len := str_len s in
    let tail_start_target := (len - end_bytes)%N in
    let st := split_loop beginning_bytes tail_start_target 0 s (mkSplit 0 len 0 false) in
    let suffix_start :=
      if (suffix_start st <? prefix_end st)%N then prefix_end st else suffix_start st in
    match split_at_byte (prefix_end st) s, split_at_byte suffix_start s with
    | Some (before, _), Some (_, after) => Ok (removed_chars st, before, after)
    | _, _ => Panic
    end.

Definition split_budget (budget : N) : N * N :=
  let left := (budget / 2)%N in (left, (budget - left)%N).

Definition ELLIPSIS : char := 8230%N.

Definition format_truncation_marker (use_tokens : bool) (removed_count : N) : str :=
  ELLIPSIS :: show_nat (N.to_nat removed_count)
    ++ (if use_tokens then L" tokens truncated" else L" chars truncated") ++ [ELLIPSIS].

Definition removed_units (use_tokens : bool) (removed_bytes removed_chars : N) : N :=
  if use_tokens then approx_tokens_from_byte_count removed_bytes else removed_chars.

Definition assemble_truncated_output (prefix suffix marker : str) : str :=
  prefix ++ marker ++ suffix.

Definition truncate_with_byte_estimate (s : str) (max_bytes : N) (use_tokens : bool)
  : result unit str :=
  if is_nil s then Ok []
  else
    let total_chars := N.of_nat (length s) in
    if (max_bytes =? 0)%N
    then Ok (format_truncation_marker use_tokens
               (removed_units use_tokens (str_len s) total_chars))
    else if (str_len s <=? max_bytes)%N then Ok s
    else
      let total_bytes := str_len s in
      let '(left_budget, right_budget) := split_budget max_bytes in
      let? (removed_chars, left_part, right_part) := split_string s left_budget right_budget in
      let marker := format_truncation_marker use_tokens
                      (removed_units use_tokens (total_bytes - max_bytes) removed_chars) in
      Ok (assemble_truncated_output left_part right_part marker).

Definition truncate_middle_chars (s : str) (max_bytes : N) : result unit str :=
  truncate_with_byte_estimate s max_bytes false.

Definition truncate_middle_with_token_budget (s : str) (max_tokens : N)
  : result unit (str * option N) :=
  if is_nil s then Ok ([], None)
  else if (0 <? max_tokens)%N && (str_len s <=? approx_bytes_for_tokens max_tokens)%N
  then Ok (s, None)
  else
    let? truncated := truncate_with_byte_estimate s (approx_bytes_for_tokens max_tokens) true in
    let total_tokens := approx_token_count s in
    Ok (if str_eqb truncated s then (truncated, None) else (truncated, Some total_tokens)).

(** ** Truncation policies *)

Inductive TruncationPolicy :=
  | Bytes (bytes : N)
  | Tokens (tokens : N).

Definition token_budget (policy : TruncationPolicy) : N :=
  match policy with
  | Bytes bytes => approx_tokens_from_byte_count bytes
  | Tokens tokens => tokens
  end.

Definition byte_budget (policy : TruncationPolicy) : N :=
  match policy with
  | Bytes bytes => bytes
  | Tokens tokens => approx_bytes_for_tokens tokens
  end.

(** [n as f64] rounds to nearest; [x.ceil() as usize] saturates, and sends
    negative numbers and NaN to zero. *)
Definition usize_as_f64 (n : N) : spec_float := binary_normalize 53 1024 (Z.of_N n) 0 false.

Definition ceil_as_usize (x : spec_float) : N :=
  match x with
  | S754_finite false m e =>
      let integer := if (0 <=? e)%Z then (Z.pos m * 2 ^ e)%Z
                     else (- ((- Z.pos m) / 2 ^ (- e)))%Z in
      N.min (Z.to_N integer) usize_max
  | S754_infinity false => usize_max
  | _ => 0%N
  end.

Definition mul_usize (n : N) (multiplier : spec_float) : N :=
  ceil_as_usize (SFmul 53 1024 (usize_as_f64 n) multiplier).

Definition mul (policy : TruncationPolicy) (multiplier : spec_float) : TruncationPolicy :=
  match policy with
  | Bytes bytes => Bytes (mul_usize bytes multiplier)
  | Tokens tokens => Tokens (mul_usize tokens multiplier)
  end.

(** The literal [1.2]. *)
Definition f64_1_2 : spec_float := S754_finite false 5404319552844595 (-52).

Definition truncate_text (content : str) (policy : TruncationPolicy) : result unit str :=
  match policy with
  | Bytes bytes => truncate_middle_chars content bytes
  | Tokens tokens =>
      let? (text, _) := truncate_middle_with_token_budget content tokens in Ok text
  end.

Definition formatted_truncate_text (content : str) (policy : TruncationPolicy) : result unit str :=
  if (str_len content <=? byte_budget policy)%N then Ok content
  else
    let total_lines := length (lines content) in
    let? result := truncate_text content policy in
    Ok (L"Total output lines: " ++ show_nat total_lines ++ [LF; LF] ++ result).

(** ** Structured output *)

Inductive ImageDetail := Auto | Low | High | Original.

Inductive FunctionCallOutputContentItem :=
  | OutInputText (text : str)
  | OutInputImage (image_url : str) (detail : option ImageDetail).

Definition text_of (item : FunctionCallOutputContentItem) : option str :=
  match item with OutInputText text => Some text | OutInputImage _ _ => None end.

Definition image_of (item : FunctionCallOutputContentItem)
  : option FunctionCallOutputContentItem :=
  match item with
  | OutInputImage image_url detail => Some (OutInputImage image_url detail)
  | OutInputText _ => None
  end.

Definition combine_texts (text_segments : list str) : str :=
  fold_left (fun combined text => (if is_nil combined then combined else combined ++ [LF]) ++ text)
    text_segments [].

Definition formatted_truncate_text_content_items_with_policy
  (items : list FunctionCallOutputContentItem) (policy : TruncationPolicy)
  : result unit (list FunctionCallOutputContentItem * option N) :=
  let text_segments := omap text_of items in
  if is_nil text_segments then Ok (items, None)
  else
    let combined := combine_texts text_segments in
    if (str_len combined <=? byte_budget policy)%N then Ok (items, None)
    else
      let? text := formatted_truncate_text combined policy in
      Ok (OutInputText text :: omap image_of items, Some (approx_token_count combined)).

(** The budget of a policy in the policy's own unit, the cost of a text in that
    unit, and the policy with another limit. *)
Definition own_budget (policy : TruncationPolicy) : N :=
  match policy with Bytes _ => byte_budget policy | Tokens _ => token_budget policy end.
Definition text_cost (policy : TruncationPolicy) (text : str) : N :=
  match policy with Bytes _ => str_len text | Tokens _ => approx_token_count text end.
Definition with_limit (policy : TruncationPolicy) (limit : N) : TruncationPolicy :=
  match policy with Bytes _ => Bytes limit | Tokens _ => Tokens limit end.

Fixpoint truncate_items_loop (policy : TruncationPolicy)
  (items : list FunctionCallOutputContentItem) (remaining_budget : N) (omitted_text_items : nat)
  (out : list FunctionCallOutputContentItem)
  : result unit (list FunctionCallOutputContentItem * nat) :=
  match items with
  | [] => Ok (out, omitted_text_items)
  | OutInputText text :: rest =>
      if (remaining_budget =? 0)%N
      then truncate_items_loop policy rest remaining_budget (S omitted_text_items) out
      else
        let cost := text_cost policy text in
        if (cost <=? remaining_budget)%N
        then truncate_items_loop policy rest (remaining_budget - cost) omitted_text_items
               (out ++ [OutInputText text])
        else
          let? snippet := truncate_text text (with_limit policy remaining_budget) in
          if is_nil snippet
          then truncate_items_loop policy rest 0 (S omitted_text_items) out
          else truncate_items_loop policy rest 0 omitted_text_items
                 (out ++ [OutInputText snippet])
  | OutInputImage image_url detail :: rest =>
      truncate_items_loop policy rest remaining_budget omitted_text_items
        (out ++ [OutInputImage image_url detail])
  end.

Definition omitted_notice (omitted_text_items : nat) : list FunctionCallOutputContentItem :=
  if 0 <? omitted_text_items
  then [OutInputText (L"[omitted " ++ show_nat omitted_text_items ++ L" text items ...]")]
  else [].

Definition truncate_function_output_items_with_policy
  (items : list FunctionCallOutputContentItem) (policy : TruncationPolicy)
  : result unit (list FunctionCallOutputContentItem) :=
  let? (out, omitted_text_items) := truncate_items_loop policy items (own_budget policy) 0 [] in
  Ok (out ++ omitted_notice omitted_text_items).

(** [approx_tokens_from_byte_count_i64], on [i64] as [Z]. *)
Definition approx_tokens_from_byte_count_i64 (bytes : Z) : Z :=
  if (bytes <=? 0)%Z then 0%Z
  else Z.min (Z.of_N (approx_tokens_from_byte_count (Z.to_N bytes))) (2 ^ 63 - 1).

(** The cases of the source's tests. *)
Example truncate_text_bytes :
  formatted_truncate_text (L"this is an example of a long output that should be truncated") (Bytes 30)
  = Ok (L"Total output lines: 1" ++ [LF; LF] ++ L"this is an exam" ++ [ELLIPSIS]
          ++ L"30 chars truncated" ++ [ELLIPSIS] ++ L"ld be truncated").
Proof. vm_compute. reflexivity. Qed.

Example truncate_text_tokens :
  formatted_truncate_text (L"this is an example of a long output that should be truncated") (Tokens 5)
  = Ok (L"Total output lines: 1" ++ [LF; LF] ++ L"this is an" ++ [ELLIPSIS]
          ++ L"10 tokens truncated" ++ [ELLIPSIS] ++ L" truncated").
Proof. vm_compute. reflexivity. Qed.

Example split_string_utf8 :
  split_string [128512; 97; 98; 99; 128512]%N 5 5 = Ok (1, [128512; 97], [99; 128512])%N
  /\ split_string (L"abcdef") 4 4 = Ok (0%N, L"abcd", L"ef").
Proof. split; vm_compute; reflexivity. Qed.

Example scaled_policies :
  mul (Bytes 10000) f64_1_2 = Bytes 12000 /\ mul (Tokens 7) f64_1_2 = Tokens 9
  /\ mul (Bytes usize_max) f64_1_2 = Bytes usize_max.
Proof. split_and!; vm_compute; reflexivity. Qed.

(** ** The cut *)

Lemma char_len_pos c : (1 <= char_len c <= 4)%N.
Proof. unfold char_len, len_utf8. repeat case_match; lia. Qed.

Lemma str_len_cons c s : str_len (c :: s) = (char_len c + str_len s)%N.
Proof. unfold str_len, char_len, byte_len. cbn. lia. Qed.

Lemma str_len_app a b : str_len (a ++ b) = (str_len a + str_len b)%N.
Proof. unfold str_len, byte_len. induction a; cbn in *; lia. Qed.

Lemma str_len_nil : str_len [] = 0%N.
Proof. done. Qed.

Lemma length_le_str_len s : (N.of_nat (length s) <= str_len s)%N.
Proof. induction s as [|c s IH]; [done|]. rewrite str_len_cons. pose proof (char_len_pos c). simpl length. lia. Qed.

Lemma str_len_pos s : s <> [] -> (0 < str_len s)%N.
Proof. pose proof (length_le_str_len s). destruct s; [done|]. simpl in *. lia. Qed.

Create Rewrite HintDb bytes.
#[local] Hint Rewrite str_len_cons str_len_app str_len_nil : bytes.

Ltac bytes := autorewrite with bytes in *; lia.

Lemma split_at_byte_app a b : split_at_byte (str_len a) (a ++ b) = Some (a, b).
Proof.
  induction a as [|c a IH]; [by destruct b|].
  pose proof (char_len_pos c). rewrite str_len_cons. cbn [split_at_byte app].
  case_match eqn:E1; [lia|]. case_match eqn:E2; [|lia].
  replace (char_len c + str_len a - char_len c)%N with (str_len a) by lia. by rewrite IH.
Qed.

(** What [split_string] promises: the longest prefix of at most [beginning_bytes]
    bytes, the longest suffix of at most [end_bytes] bytes of what follows it, and
    what lies between them. *)
Definition cut_of (beginning_bytes end_bytes : N) (s pre mid suf : str) : Prop :=
  s = pre ++ mid ++ suf
  /\ (str_len pre <= beginning_bytes)%N
  /\ (forall c rest, mid ++ suf = c :: rest -> beginning_bytes < str_len pre + char_len c)%N
  /\ (str_len suf <= end_bytes)%N
  /\ (forall m c, mid = m ++ [c] -> end_bytes < char_len c + str_len suf)%N.

(** The character at [idx] ends past the prefix, and so do the ones after it. *)
Definition past_prefix (B idx : N) (s : str) : Prop :=
  forall c rest, s = c :: rest -> (B < idx + char_len c)%N.

Lemma past_prefix_tail B idx c s :
  past_prefix B idx (c :: s) -> past_prefix B (idx + char_len c) s.
Proof. intros H c' s' ->. specialize (H c _ eq_refl). pose proof (char_len_pos c'). lia. Qed.

Lemma split_loop_suffix B T s : forall idx st,
  (T <= idx)%N -> suffix_started st = true -> past_prefix B idx s -> split_loop B T idx s st = st.
Proof.
  induction s as [|c s IH]; intros idx st HT Hst HB; [done|]. cbn [split_loop].
  assert (split_step B T idx c st = st) as ->.
  { unfold split_step. specialize (HB c s eq_refl). rewrite Hst.
    repeat (case_match; try lia); done. }
  apply IH; [pose proof (char_len_pos c); lia|done|by eapply past_prefix_tail].
Qed.

Lemma split_loop_middle B T s : forall idx pe rc,
  past_prefix B idx s -> (rc + N.of_nat (length s) <= usize_max)%N ->
  exists mid suf b,
    s = mid ++ suf
    /\ split_loop B T idx s (mkSplit pe (idx + str_len s) rc false)
       = mkSplit pe (idx + str_len mid) (rc + N.of_nat (length mid)) b
    /\ (suf <> [] -> T <= idx + str_len mid)%N
    /\ (forall m c, mid = m ++ [c] -> idx + str_len m < T)%N.
Proof.
  induction s as [|c s IH]; intros idx pe rc HB Hrc.
  { exists [], [], false. split_and!; try done; [cbn; f_equal; bytes|].
    intros m c E. by destruct m. }
  pose proof (HB c s eq_refl). cbn [split_loop]. unfold split_step at 1.
  cbn [suffix_started prefix_end removed_chars suffix_start].
  case_match eqn:E1; [lia|]. case_match eqn:E2.
  - exists [], (c :: s), true. pose proof (char_len_pos c). split_and!; [done| |bytes|].
    + rewrite split_loop_suffix; [cbn [length]; f_equal; bytes|lia|done|by apply past_prefix_tail].
    + intros m c' E. by destruct m.
  - assert (saturating_add rc 1 = rc + 1)%N as -> by (unfold saturating_add; simpl in Hrc; lia).
    destruct (IH (idx + char_len c)%N pe (rc + 1)%N) as (mid & suf & b & -> & Hloop & Hsuf & Hmid);
      [by apply past_prefix_tail|simpl in Hrc; lia|].
    exists (c :: mid), suf, b. split_and!; [done| | |].
    + rewrite str_len_cons, N.add_assoc, Hloop. f_equal; [bytes|simpl length; lia].
    + intros Hne. specialize (Hsuf Hne). bytes.
    + intros [|c' m] c'' E; simplify_eq/=; [bytes|].
      specialize (Hmid m c'' eq_refl). bytes.
Qed.

Lemma split_loop_prefix B T s : forall idx ss rc pe,
  exists pre rest,
    s = pre ++ rest /\ past_prefix B (idx + str_len pre) rest
    /\ (pre <> [] -> idx + str_len pre <= B)%N
    /\ split_loop B T idx s (mkSplit pe ss rc false)
       = split_loop B T (idx + str_len pre) rest
           (mkSplit (if is_nil pre then pe else idx + str_len pre) ss rc false).
Proof.
  induction s as [|c s IH]; intros idx ss rc pe.
  { exists [], []. split_and!; [done|by intros ?|done|done]. }
  cbn [split_loop]. destruct (idx + char_len c <=? B)%N eqn:E.
  - unfold split_step at 1. cbn [suffix_started removed_chars suffix_start]. rewrite E.
    destruct (IH (idx + char_len c)%N ss rc (idx + char_len c)%N)
      as (pre & rest & -> & Hpast & Hpre & ->).
    exists (c :: pre), rest. rewrite str_len_cons, N.add_assoc. split_and!; try done.
    + intros _. destruct pre as [|c' pre]; [bytes|by apply Hpre].
    + f_equal. f_equal. destruct pre; cbn [is_nil]; [bytes|done].
  - exists [], (c :: s). cbn [is_nil app]. replace (idx + str_len [])%N with idx by bytes.
    split_and!; try done. intros c' r E'. simplify_eq. lia.
Qed.

(** [split_string] never panics and makes the cut it promises. *)
Lemma split_string_cut s B E :
  (str_len s <= isize_max)%N ->
  exists pre mid suf,
    split_string s B E = Ok (N.of_nat (length mid), pre, suf) /\ cut_of B E s pre mid suf.
Proof.
  intros Hlen. unfold split_string. destruct (is_nil s) eqn:Hs.
  { apply is_nil_true in Hs as ->. exists [], [], []. split; [done|].
    split_and!; [done|bytes|done|bytes|by intros [] ?]. }
  destruct (split_loop_prefix B (str_len s - E) s 0 (str_len s) 0 0)
    as (pre & rest & -> & Hpast & Hpre & ->).
  rewrite N.add_0_l in *. pose proof (length_le_str_len (pre ++ rest)) as Hchars.
  rewrite length_app in Hchars. unfold isize_max in Hlen.
  destruct (split_loop_middle B (str_len (pre ++ rest) - E) rest (str_len pre)
              (if is_nil pre then 0 else str_len pre) 0 Hpast)
    as (mid & suf & b & -> & Hloop & Hsuf & Hmid); [unfold usize_max; lia|].
  rewrite (str_len_app pre (mid ++ suf)) in *. rewrite Hloop. cbn [prefix_end suffix_start removed_chars].
  replace (if is_nil pre then 0%N else str_len pre) with (str_len pre) by by destruct pre.
  rewrite (proj2 (N.ltb_ge _ _)) by lia. rewrite split_at_byte_app, <- str_len_app.
  rewrite app_assoc, split_at_byte_app.
  exists pre, mid, suf. split; [done|]. rewrite <- app_assoc. split_and!; [done| |done| |].
  - destruct pre; [bytes|by apply Hpre].
  - destruct suf; [bytes|]. specialize (Hsuf ltac:(done)). bytes.
  - intros m c ->. specialize (Hmid m c eq_refl). bytes.
Qed.

(** The text a cut leaves, with the marker between its ends. *)
Definition cut_text (use_tokens : bool) (max_bytes : N) (s pre mid suf : str) : str :=
  pre ++ format_truncation_marker use_tokens
           (if use_tokens then (str_len s - max_bytes + 3) / 4 else N.of_nat (length mid)) ++ suf.

Lemma cut_nonempty B E s pre mid suf :
  cut_of B E s pre mid suf -> (B + E < str_len s)%N -> mid <> [].
Proof. intros (-> & Hpre & _ & Hsuf & _) Hlen ->. bytes. Qed.

Lemma cut_zero s : cut_of 0 0 s [] s [].
Proof.
  split_and!; [by simplify_list_eq|bytes| |bytes|].
  - intros c rest _. pose proof (char_len_pos c). bytes.
  - intros m c _. pose proof (char_len_pos c). bytes.
Qed.

Lemma removed_units_exact use_tokens removed_bytes chars :
  (removed_bytes <= isize_max)%N ->
  removed_units use_tokens removed_bytes chars
  = if use_tokens then ((removed_bytes + 3) / 4)%N else chars.
Proof.
  intros Hb. unfold removed_units, approx_tokens_from_byte_count, saturating_add,
    APPROX_BYTES_PER_TOKEN, usize_max, isize_max in *.
  destruct use_tokens; [|done]. f_equal. lia.
Qed.

Lemma truncate_fits s max_bytes use_tokens :
  (str_len s <= max_bytes)%N -> truncate_with_byte_estimate s max_bytes use_tokens = Ok s.
Proof.
  intros Hlen. unfold truncate_with_byte_estimate. destruct (is_nil s) eqn:Hs.
  { by apply is_nil_true in Hs as ->. }
  apply is_nil_false, str_len_pos in Hs. repeat (case_match; try lia). done.
Qed.

Lemma truncate_cuts s max_bytes use_tokens :
  (str_len s <= isize_max)%N -> (max_bytes < str_len s)%N ->
  exists pre mid suf,
    cut_of (max_bytes / 2) (max_bytes - max_bytes / 2) s pre mid suf /\ mid <> []
    /\ truncate_with_byte_estimate s max_bytes use_tokens
       = Ok (cut_text use_tokens max_bytes s pre mid suf).
Proof.
  intros Hlen Hmax. unfold truncate_with_byte_estimate.
  destruct s as [|c s]; [bytes|]. cbn [is_nil]. set (t := c :: s) in *.
  destruct (max_bytes =? 0)%N eqn:E0.
  { apply N.eqb_eq in E0 as ->. exists [], t, []. split_and!; [apply cut_zero|done|].
    rewrite removed_units_exact by done. unfold cut_text.
    by rewrite N.sub_0_r, app_nil_r. }
  case_match; [lia|]. cbn [split_budget].
  destruct (split_string_cut t (max_bytes / 2) (max_bytes - max_bytes / 2) Hlen)
    as (pre & mid & suf & -> & Hcut).
  exists pre, mid, suf. split_and!; [done| |].
  - eapply cut_nonempty; [done|]. lia.
  - cbn [rbind]. rewrite removed_units_exact by lia. done.
Qed.

(** Slicing happens between characters whatever the length of the text. *)
Definition is_boundary (s : str) (n : N) : Prop := exists a b, s = a ++ b /\ str_len a = n.

Lemma split_loop_boundaries B T s : forall read st,
  is_boundary (read ++ s) (prefix_end st) -> is_boundary (read ++ s) (suffix_start st) ->
  let st' := split_loop B T (str_len read) s st in
  is_boundary (read ++ s) (prefix_end st') /\ is_boundary (read ++ s) (suffix_start st').
Proof.
  induction s as [|c s IH]; intros read st Hp Hs; [done|]. cbn [split_loop].
  assert (is_boundary (read ++ c :: s) (str_len read)) as Hr by (by exists read, (c :: s)).
  assert (is_boundary (read ++ c :: s) (str_len read + char_len c)) as Hc.
  { exists (read ++ [c]), s. split; [by rewrite <- app_assoc|]. bytes. }
  replace (str_len read + char_len c)%N with (str_len (read ++ [c])) in * by bytes.
  rewrite (cons_middle c read s), app_assoc in *. apply IH; unfold split_step; repeat case_match; try done.
  all: cbn [prefix_end suffix_start]; by replace (str_len read + char_len c)%N with (str_len (read ++ [c])) by bytes.
Qed.

Lemma split_string_total s B E : exists r, split_string s B E = Ok r.
Proof.
  unfold split_string. destruct (is_nil s); [eauto|].
  destruct (split_loop_boundaries B (str_len s - E) s [] (mkSplit 0 (str_len s) 0 false)) as [Hp Hs].
  { by exists [], s. }
  { exists s, []. by rewrite app_nil_r. }
  change (str_len []) with 0%N in *. cbn [app] in *. set (st := split_loop _ _ _ _ _) in *.
  assert (forall n, is_boundary s n -> exists r, split_at_byte n s = Some r) as Hb.
  { intros n (a & b & -> & <-). rewrite split_at_byte_app. eauto. }
  destruct (Hb _ Hp) as [[? ?] ->].
  destruct (Hb (if (suffix_start st <? prefix_end st)%N then prefix_end st else suffix_start st)) as [[? ?] ->];
    [by case_match|eauto].
Qed.

Lemma truncate_text_total content policy : exists t, truncate_text content policy = Ok t.
Proof.
  assert (forall max_bytes ut, exists t, truncate_with_byte_estimate content max_bytes ut = Ok t) as Hb.
  { intros max_bytes ut. unfold truncate_with_byte_estimate. repeat case_match; eauto; [].
    destruct (split_string_total content n n0) as [[[? ?] ?] ->]. cbn. eauto. }
  destruct policy as [b|t]; cbn [truncate_text]; [apply Hb|].
  unfold truncate_middle_with_token_budget. repeat case_match; cbn; eauto; [].
  destruct (Hb (approx_bytes_for_tokens t) true) as [r ->]. cbn. case_match; cbn; eauto.
Qed.

(** ** Texts under a policy *)

Definition counts_tokens (policy : TruncationPolicy) : bool :=
  match policy with Bytes _ => false | Tokens _ => true end.

Lemma truncate_text_fits content policy :
  (str_len content <= byte_budget policy)%N -> truncate_text content policy = Ok content.
Proof.
  intros Hlen. destruct policy as [b|t]; cbn [truncate_text byte_budget] in *.
  - by apply truncate_fits.
  - unfold truncate_middle_with_token_budget. destruct (is_nil content) eqn:Hs.
    { by apply is_nil_true in Hs as ->. }
    case_match; [done|]. rewrite truncate_fits by done. cbn [rbind]. by destruct (str_eqb _ _).
Qed.

Lemma truncate_text_cuts content policy :
  (str_len content <= isize_max)%N -> (byte_budget policy < str_len content)%N ->
  exists pre mid suf,
    cut_of (byte_budget policy / 2) (byte_budget policy - byte_budget policy / 2) content pre mid suf
    /\ mid <> []
    /\ truncate_text content policy
       = Ok (cut_text (counts_tokens policy) (byte_budget policy) content pre mid suf).
Proof.
  intros Hlen Hmax. destruct (truncate_cuts content (byte_budget policy) (counts_tokens policy))
    as (pre & mid & suf & Hcut & Hmid & Htrunc); [done|done|].
  exists pre, mid, suf. split_and!; [done|done|].
  destruct policy as [b|t]; cbn [truncate_text counts_tokens byte_budget] in *; [done|].
  unfold truncate_middle_with_token_budget. destruct content as [|c content]; [bytes|].
  cbn [is_nil]. rewrite (proj2 (N.leb_gt _ _)), andb_false_r by done.
  rewrite Htrunc. cbn [rbind]. by destruct (str_eqb _ _).
Qed.

(** A cut text is never empty: it holds the marker. *)
Lemma cut_text_nonempty ut m s pre mid suf : is_nil (cut_text ut m s pre mid suf) = false.
Proof. unfold cut_text, format_truncation_marker. by destruct pre. Qed.

(** Truncation of a text.  Whatever the policy, a text within the policy's
    byte budget is returned unchanged.  A longer one becomes a prefix and a suffix
    of itself around a marker: the longest prefix that fits half of the budget and
    the longest suffix that fits the rest, cut between characters, with something
    really removed between them, and the marker counts exactly what was removed
    (characters, or the excess over the budget in four-byte tokens rounded up).
    The formatted variant puts the number of lines of the original in front. *)
Theorem truncate_text_keeps_ends content policy :
  (str_len content <= isize_max)%N ->
  ((str_len content <= byte_budget policy)%N ->
    truncate_text content policy = Ok content
    /\ formatted_truncate_text content policy = Ok content)
  /\ ((byte_budget policy < str_len content)%N ->
    exists pre mid suf,
      cut_of (byte_budget policy / 2) (byte_budget policy - byte_budget policy / 2)
        content pre mid suf
      /\ mid <> []
      /\ let out := cut_text (counts_tokens policy) (byte_budget policy) content pre mid suf in
         truncate_text content policy = Ok out
         /\ formatted_truncate_text content policy
            = Ok (L"Total output lines: " ++ show_nat (length (lines content)) ++ [LF; LF] ++ out)).
Proof.
  intros Hlen. split.
  - intros Hfits. split; [by apply truncate_text_fits|]. unfold formatted_truncate_text.
    by rewrite (proj2 (N.leb_le _ _)).
  - intros Hmax. destruct (truncate_text_cuts content policy Hlen Hmax)
      as (pre & mid & suf & Hcut & Hmid & Htrunc).
    exists pre, mid, suf. split_and!; [done|done|]. split; [done|]. unfold formatted_truncate_text.
    rewrite (proj2 (N.leb_gt _ _)) by done. by rewrite Htrunc.
Qed.

Lemma truncate_text_keeps_ends_witness :
  exists pre mid suf,
    cut_of 15 15 (L"this is an example of a long output that should be truncated") pre mid suf
    /\ mid <> [].
Proof.
  destruct (truncate_text_keeps_ends
              (L"this is an example of a long output that should be truncated") (Bytes 30)
              ltac:(vm_compute; discriminate)) as [_ H].
  destruct (H ltac:(vm_compute; reflexivity)) as (pre & mid & suf & Hcut & Hmid & _).
  by exists pre, mid, suf.
Defined.

(** ** Structured output under a policy *)

Lemma images_of_images (l : list FunctionCallOutputContentItem) :
  omap image_of (omap image_of l) = omap image_of l.
Proof. induction l as [|[] l IH]; cbn; [done|done|by f_equal]. Qed.

Lemma images_of_notice n : omap image_of (omitted_notice n) = [].
Proof. unfold omitted_notice. by case_match. Qed.

Section items.
Context (policy : TruncationPolicy).

Definition item_cost (item : FunctionCallOutputContentItem) : N :=
  match item with OutInputText text => text_cost policy text | OutInputImage _ _ => 0 end.
Definition items_cost (items : list FunctionCallOutputContentItem) : N :=
  foldr (fun item total => item_cost item + total)%N 0%N items.

(** Every text of the list is a Rust [String]. *)
Definition texts_bounded (items : list FunctionCallOutputContentItem) : Prop :=
  Forall (fun text => str_len text <= isize_max)%N (omap text_of items).

(** What becomes of the items from the first text on that does not fit. *)
Inductive overflow_of (budget : N) : list FunctionCallOutputContentItem ->
    list FunctionCallOutputContentItem -> Prop :=
  | nothing_left : overflow_of budget [] []
  | budget_spent rest :
      budget = 0%N -> omap text_of rest <> [] ->
      overflow_of budget rest (omap image_of rest ++ omitted_notice (length (omap text_of rest)))
  | text_cut text snippet rest :
      (0 < budget < text_cost policy text)%N ->
      truncate_text text (with_limit policy budget) = Ok snippet -> snippet <> [] ->
      overflow_of budget (OutInputText text :: rest)
        (OutInputText snippet :: omap image_of rest
           ++ omitted_notice (length (omap text_of rest))).

Lemma loop_spent items : forall omitted out,
  truncate_items_loop policy items 0 omitted out
  = Ok (out ++ omap image_of items, omitted + length (omap text_of items)).
Proof.
  induction items as [|[t|u d] items IH]; intros omitted out; cbn.
  - by rewrite app_nil_r, Nat.add_0_r.
  - rewrite IH. do 2 f_equal. lia.
  - by rewrite IH, <- app_assoc.
Qed.

Lemma text_cost_over text budget :
  (budget < text_cost policy text)%N ->
  (byte_budget (with_limit policy budget) < str_len text)%N.
Proof.
  intros Hb. destruct policy as [b|t]; cbn [with_limit byte_budget text_cost] in *; [lia|].
  unfold approx_token_count, approx_bytes_for_tokens in *.
  pose proof (saturating_add_le (str_len text) (APPROX_BYTES_PER_TOKEN - 1)) as Hadd.
  pose proof (saturating_mul_le budget APPROX_BYTES_PER_TOKEN) as Hmul.
  change (APPROX_BYTES_PER_TOKEN - 1)%N with 3%N in *. change APPROX_BYTES_PER_TOKEN with 4%N in *.
  pose proof (N.Div0.mul_div_le (saturating_add (str_len text) 3) 4). lia.
Qed.

Lemma loop_spec items : forall budget out,
  texts_bounded items ->
  exists kept rest tail omitted out',
    items = kept ++ rest
    /\ truncate_items_loop policy items budget 0 out = Ok (out', omitted)
    /\ out' ++ omitted_notice omitted = out ++ kept ++ tail
    /\ (items_cost kept <= budget)%N
    /\ overflow_of (budget - items_cost kept) rest tail.
Proof.
  induction items as [|item items IH]; intros budget out Hb.
  { exists [], [], [], 0, out. split_and!; [done|done|by rewrite !app_nil_r|cbn; lia|constructor]. }
  destruct item as [t|u d]; cbn [truncate_items_loop].
  - inversion Hb as [|? ? Hitem Hitems]; subst. destruct (budget =? 0)%N eqn:E0.
    { apply N.eqb_eq in E0 as ->. rewrite loop_spent.
      eexists [], (OutInputText t :: items), _, _, _.
      split_and!; [done|done| |cbn; lia|by apply budget_spent]. by rewrite <- app_assoc. }
    case_match eqn:Ec.
    + destruct (IH (budget - text_cost policy t)%N (out ++ [OutInputText t]) Hitems)
        as (kept & rest & tail & omitted & out' & -> & Hloop & Hout & Hcost & Hover).
      exists (OutInputText t :: kept), rest, tail, omitted, out'. cbn [items_cost foldr item_cost].
      split_and!; [done|done| |unfold items_cost in *; lia|].
      * by rewrite Hout, <- app_assoc.
      * by replace (budget - _)%N with (budget - text_cost policy t - items_cost kept)%N
          by (unfold items_cost; lia).
    + assert (0 < budget < text_cost policy t)%N as Hcut by lia.
      destruct (truncate_text_cuts t (with_limit policy budget)) as (pre & mid & suf & _ & _ & Htr);
        [lia|apply text_cost_over; lia|].
      rewrite Htr. cbn [rbind]. rewrite cut_text_nonempty, loop_spent.
      eexists [], (OutInputText t :: items), _, _, _.
      split_and!; [done|done| |cbn; lia|].
      2: { cbn [items_cost foldr]. rewrite N.sub_0_r. eapply text_cut; [done|done|].
           by apply is_nil_false, cut_text_nonempty. }
      by rewrite <- !app_assoc.
  - destruct (IH budget (out ++ [OutInputImage u d]) Hb)
      as (kept & rest & tail & omitted & out' & -> & Hloop & Hout & Hcost & Hover).
    exists (OutInputImage u d :: kept), rest, tail, omitted, out'.
    split_and!; [done|done|by rewrite Hout, <- app_assoc|done|done].
Qed.
End items.

Lemma truncate_items_total items policy :
  exists out, truncate_function_output_items_with_policy items policy = Ok out.
Proof.
  unfold truncate_function_output_items_with_policy.
  assert (forall budget n out, exists r, truncate_items_loop policy items budget n out = Ok r) as Hl.
  { induction items as [|[text|url detail] items IH]; intros budget n out; cbn [truncate_items_loop]; [eauto| |eauto].
    destruct (truncate_text_total text (with_limit policy budget)) as [snippet ->]. cbn [rbind].
    repeat case_match; eauto. }
  destruct (Hl (own_budget policy) 0 []) as [[out n] ->]. cbn. eauto.
Qed.

(** Truncation of structured output.  The output keeps a prefix of the items
    as it was, of cost at most the budget in the policy's unit; if that is not
    all of them, either the budget is spent exactly, or the next item is a text
    that exceeds what is left of it and is replaced by its truncation to that
    rest; after this point every image survives, in order, and the number of
    the texts left out is stated at the end.  In particular no image is lost. *)
Theorem truncate_items_keeps_prefix_and_images items policy :
  texts_bounded items ->
  exists kept rest tail,
    items = kept ++ rest
    /\ truncate_function_output_items_with_policy items policy = Ok (kept ++ tail)
    /\ (items_cost policy kept <= own_budget policy)%N
    /\ overflow_of policy (own_budget policy - items_cost policy kept) rest tail
    /\ omap image_of (kept ++ tail) = omap image_of items.
Proof.
  intros Hb. destruct (loop_spec policy items (own_budget policy) [] Hb)
    as (kept & rest & tail & omitted & out' & -> & Hloop & Hout & Hcost & Hover).
  exists kept, rest, tail. split_and!; [done| |done|done|].
  - unfold truncate_function_output_items_with_policy. rewrite Hloop. cbn [rbind].
    by rewrite Hout.
  - rewrite !omap_app. f_equal.
    inversion Hover; subst; cbn [omap list_omap image_of]; [done| |];
      by rewrite omap_app, images_of_images, images_of_notice, app_nil_r.
Qed.

Lemma truncate_items_keeps_prefix_and_images_witness :
  exists kept rest tail,
    [OutInputText (L"abcdef"); OutInputImage (L"u") None; OutInputText (L"ghijkl"); OutInputText (L"m")]
      = kept ++ rest
    /\ truncate_function_output_items_with_policy
         [OutInputText (L"abcdef"); OutInputImage (L"u") None; OutInputText (L"ghijkl"); OutInputText (L"m")]
         (Bytes 8) = Ok (kept ++ tail).
Proof.
  destruct (truncate_items_keeps_prefix_and_images
    [OutInputText (L"abcdef"); OutInputImage (L"u") None; OutInputText (L"ghijkl"); OutInputText (L"m")]
    (Bytes 8)) as (kept & rest & tail & Hitems & Hout & _); [by repeat constructor|].
  by exists kept, rest, tail.
Defined.
