(* ===== verification/ConversationItems.v ===== *)
(** * Conversation items (protocol/src/models.rs, core/src/event_mapping.rs,
    core/src/context)

    The items a conversation is made of, with every field of the source's
    [ResponseItem], and the recognition of messages the client itself injected
    as context.  [Json] stands for [serde_json::Value]; the XML and JSON
    deserialisers are arguments. *)

From S2P Require Import Prelude RustStr OutputTruncation.

Inductive ContentItem :=
  | InputText (text : str)
  | InputImage (image_url : str) (detail : option ImageDetail)
  | OutputText (text : str).

Inductive MessagePhase := Commentary | FinalAnswer.

Inductive ReasoningItemReasoningSummary := SummaryText (text : str).

Inductive ReasoningItemContent :=
  | ReasoningText (text : str)
  | ReasoningPlainText (text : str).

Inductive LocalShellStatus := Completed | InProgress | Incomplete.

Record LocalShellExecAction := mkExecAction {
  command : list str;
  timeout_ms : option N;
  working_directory : option str;
  env : option (gmap str str);
  user : option str }.

Inductive LocalShellAction := Exec (action : LocalShellExecAction).

Inductive WebSearchAction :=
  | WebSearch (query : option str) (queries : option (list str))
  | OpenPage (url : option str)
  | FindInPage (url : option str) (pattern : option str)
  | WebSearchOther.

Inductive FunctionCallOutputBody :=
  | Text (content : str)
  | ContentItems (items : list FunctionCallOutputContentItem).

Record FunctionCallOutputPayload := mkPayload {
  body : FunctionCallOutputBody;
  success : option bool }.

Definition from_text (content : str) : FunctionCallOutputPayload := mkPayload (Text content) None.

Definition from_content_items (items : list FunctionCallOutputContentItem)
  : FunctionCallOutputPayload := mkPayload (ContentItems items) None.

Definition content_items (payload : FunctionCallOutputPayload)
  : option (list FunctionCallOutputContentItem) :=
  match body payload with Text _ => None | ContentItems items => Some items end.

Definition text_content (payload : FunctionCallOutputPayload) : option str :=
  match body payload with Text content => Some content | ContentItems _ => None end.

(** [*content_items_mut() = items], where it is [Some]. *)
Definition set_content_items (payload : FunctionCallOutputPayload)
  (items : list FunctionCallOutputContentItem) : FunctionCallOutputPayload :=
  match body payload with
  | Text _ => payload
  | ContentItems _ => mkPayload (ContentItems items) (success payload)
  end.

Inductive ResponseItem {Json : Type} :=
  | Message (id : option str) (role : str) (content : list ContentItem)
      (phase : option MessagePhase)
  | Reasoning (id : str) (summary : list ReasoningItemReasoningSummary)
      (content : option (list ReasoningItemContent)) (encrypted_content : option str)
  | LocalShellCall (id call_id : option str) (status : LocalShellStatus)
      (action : LocalShellAction)
  | FunctionCall (id : option str) (name : str) (namespace : option str) (arguments call_id : str)
  | ToolSearchCall (id call_id status : option str) (execution : str) (arguments : Json)
  | FunctionCallOutput (call_id : str) (output : FunctionCallOutputPayload)
  | CustomToolCall (id status : option str) (call_id name input : str)
  | CustomToolCallOutput (call_id : str) (name : option str) (output : FunctionCallOutputPayload)
  | ToolSearchOutput (call_id : option str) (status execution : str) (tools : list Json)
  | WebSearchCall (id status : option str) (action : option WebSearchAction)
  | ImageGenerationCall (id status : str) (revised_prompt : option str) (result : str)
  | Compaction (encrypted_content : str)
  | ContextCompaction (encrypted_content : option str)
  | Other.
Arguments ResponseItem Json : clear implicits.

(** ** Contextual fragments *)

(** [s.get(..n)] and [s.get(n..)]. *)
Definition get_to (n : N) (s : str) : option str := fst <$> split_at_byte n s.
Definition get_from (n : N) (s : str) : option str := snd <$> split_at_byte n s.

Definition CONTEXTUAL_DEVELOPER_PREFIXES : list str :=
  [L"<permissions instructions>"; L"<model_switch>"; L"<collaboration_mode>";
   L"<realtime_conversation>"; L"<personality_spec>"].

Definition is_contextual_dev_fragment (content_item : ContentItem) : bool :=
  match content_item with
  | InputText text =>
      let trimmed := trim_start text in
      existsb (fun prefix =>
        is_some_and (get_to (str_len prefix) trimmed)
          (fun candidate => eq_ignore_ascii_case candidate prefix))
        CONTEXTUAL_DEVELOPER_PREFIXES
  | _ => false
  end.

Definition is_contextual_dev_message_content (message : list ContentItem) : bool :=
  existsb is_contextual_dev_fragment message.

Definition has_non_contextual_dev_message_content (message : list ContentItem) : bool :=
  existsb (fun content_item => negb (is_contextual_dev_fragment content_item)) message.

(** [ContextualUserFragment::matches_text], for the markers of an implementation. *)
Definition matches_text (START_MARKER END_MARKER text : str) : bool :=
  if is_nil START_MARKER || is_nil END_MARKER then false
  else
    let trimmed := trim_start text in
    let starts_with_marker :=
      is_some_and (get_to (str_len START_MARKER) trimmed)
        (fun candidate => eq_ignore_ascii_case candidate START_MARKER) in
    let trimmed := trim_end trimmed in
    let ends_with_marker :=
      is_some_and (get_from (str_len trimmed - str_len END_MARKER) trimmed)
        (fun candidate => eq_ignore_ascii_case candidate END_MARKER) in
    starts_with_marker && ends_with_marker.

(** The markers of the registered fragments, in order. *)
Definition CONTEXTUAL_USER_FRAGMENTS : list (str * str) :=
  [(L"# AGENTS.md instructions for ", L"</INSTRUCTIONS>");
   (L"<environment_context>", L"</environment_context>");
   (L"<skill>", L"</skill>");
   (L"<user_shell_command>", L"</user_shell_command>");
   (L"<turn_aborted>", L"</turn_aborted>");
   (L"<subagent_notification>", L"</subagent_notification>")].

Definition is_standard_contextual_user_text (text : str) : bool :=
  existsb (fun '(start_marker, end_marker) => matches_text start_marker end_marker text)
    CONTEXTUAL_USER_FRAGMENTS.

(** The deserialisers of the [quick_xml] and [serde_json] crates: the text and
    the run id of a [hook_prompt] element, and, where a text is an inter-agent
    message, its [trigger_turn]. *)
Class Deserializers := {
  from_xml_str : str -> option (str * str);
  from_inter_agent_json : str -> option bool }.

Section deserialized.
Context `{Deserializers}.

Definition parse_hook_prompt_fragment (text : str) : option (str * str) :=
  match from_xml_str (trim text) with
  | Some (text, hook_run_id) => if is_nil (trim hook_run_id) then None else Some (text, hook_run_id)
  | None => None
  end.

Definition is_contextual_user_fragment (content_item : ContentItem) : bool :=
  match content_item with
  | InputText text =>
      negb (is_none (parse_hook_prompt_fragment text)) || is_standard_contextual_user_text text
  | _ => false
  end.

Definition is_contextual_user_message_content (message : list ContentItem) : bool :=
  existsb is_contextual_user_fragment message.

(** [InterAgentCommunication::from_message_content]: the [trigger_turn] of it. *)
Definition from_message_content (content : list ContentItem) : option bool :=
  match content with
  | [InputText text] | [OutputText text] => from_inter_agent_json text
  | _ => None
  end.

Definition is_message_content (content : list ContentItem) : bool :=
  negb (is_none (from_message_content content)).

Definition is_inter_agent_instruction_content (content : list ContentItem) : bool :=
  is_message_content content.

Definition is_user_turn_boundary {Json} (item : ResponseItem Json) : bool :=
  match item with
  | Message _ role content _ =>
      (str_eqb role (L"user") && negb (is_contextual_user_message_content content))
      || (str_eqb role (L"assistant") && is_inter_agent_instruction_content content)
  | _ => false
  end.
End deserialized.

(** ** Classification of items *)

Section classification.
Context {Json : Type}.

Definition is_api_message (message : ResponseItem Json) : bool :=
  match message with
  | Message _ role _ _ => negb (str_eqb role (L"system"))
  | FunctionCallOutput _ _ | FunctionCall _ _ _ _ _ | ToolSearchCall _ _ _ _ _
  | ToolSearchOutput _ _ _ _ | CustomToolCall _ _ _ _ _ | CustomToolCallOutput _ _ _
  | LocalShellCall _ _ _ _ | Reasoning _ _ _ _ | WebSearchCall _ _ _
  | ImageGenerationCall _ _ _ _ | Compaction _ | ContextCompaction _ => true
  | Other => false
  end.

Definition is_model_generated_item (item : ResponseItem Json) : bool :=
  match item with
  | Message _ role _ _ => str_eqb role (L"assistant")
  | Reasoning _ _ _ _ | FunctionCall _ _ _ _ _ | ToolSearchCall _ _ _ _ _ | WebSearchCall _ _ _
  | ImageGenerationCall _ _ _ _ | CustomToolCall _ _ _ _ _ | LocalShellCall _ _ _ _
  | Compaction _ | ContextCompaction _ => true
  | FunctionCallOutput _ _ | ToolSearchOutput _ _ _ _ | CustomToolCallOutput _ _ _ | Other => false
  end.

Definition is_codex_generated_item (item : ResponseItem Json) : bool :=
  match item with
  | FunctionCallOutput _ _ | ToolSearchOutput _ _ _ _ | CustomToolCallOutput _ _ _ => true
  | Message _ role _ _ => str_eqb role (L"developer")
  | _ => false
  end.
End classification.

(** The markers are recognised with surrounding blanks and in any case. *)
Example contextual_fragments :
  matches_text (L"<skill>") (L"</skill>") (L"  <SKILL>x</skill> ") = true
  /\ matches_text (L"<skill>") (L"</skill>") (L"<skill>x") = false
  /\ is_contextual_dev_fragment (InputText (L" <Model_Switch> y")) = true.
Proof. split_and!; vm_compute; reflexivity. Qed.
