(* ===== verification/HistoryNormalize.v ===== *)
(** * Normalising a conversation (core/src/context_manager/normalize.rs)

    Before a conversation is sent to the model every tool call gets an output,
    every output without a call goes, images go when the model cannot read them.
    Calls and outputs are matched by [call_id]; the specification works on the
    pair of the id and the kind of tool.  [debug_assertions] says whether the
    build has debug assertions, in which [error_or_panic] panics; a release
    build only logs. *)

From S2P Require Import Prelude RustStr OutputTruncation ConversationItems.

Section normalize.
Context {Json : Type} (debug_assertions : bool).
Abbreviation item := (ResponseItem Json).

Definition error_or_panic : result unit unit := if debug_assertions then Panic else Ok tt.

(** ** ensure_call_outputs_present *)

Definition is_function_call_output (id : str) (i : item) : bool :=
  match i with FunctionCallOutput existing _ => str_eqb existing id | _ => false end.
Definition is_tool_search_output (id : str) (i : item) : bool :=
  match i with ToolSearchOutput (Some existing) _ _ _ => str_eqb existing id | _ => false end.
Definition is_custom_tool_call_output (id : str) (i : item) : bool :=
  match i with CustomToolCallOutput existing _ _ => str_eqb existing id | _ => false end.
Definition is_function_call (id : str) (i : item) : bool :=
  match i with FunctionCall _ _ _ _ existing => str_eqb existing id | _ => false end.
Definition is_local_shell_call (id : str) (i : item) : bool :=
  match i with LocalShellCall _ (Some existing) _ _ => str_eqb existing id | _ => false end.
Definition is_tool_search_call (id : str) (i : item) : bool :=
  match i with ToolSearchCall _ (Some existing) _ _ _ => str_eqb existing id | _ => false end.
Definition is_custom_tool_call (id : str) (i : item) : bool :=
  match i with CustomToolCall _ _ existing _ _ => str_eqb existing id | _ => false end.

Definition aborted : FunctionCallOutputPayload := from_text (L"aborted").

(** The body of the first loop: the output to insert after an item, if any. *)
Definition missing_output (items : list item) (i : item) : result unit (option item) :=
  match i with
  | FunctionCall _ _ _ _ call_id =>
      let has_output := existsb (is_function_call_output call_id) items in
      Ok (if has_output then None else Some (FunctionCallOutput call_id aborted))
  | ToolSearchCall _ (Some call_id) _ _ _ =>
      let has_output := existsb (is_tool_search_output call_id) items in
      Ok (if has_output then None
          else Some (ToolSearchOutput (Some call_id) (L"completed") (L"client") []))
  | CustomToolCall _ _ call_id _ _ =>
      let has_output := existsb (is_custom_tool_call_output call_id) items in
      if has_output then Ok None
      else let? _ := error_or_panic in Ok (Some (CustomToolCallOutput call_id None aborted))
  | LocalShellCall _ (Some call_id) _ _ =>
      let has_output := existsb (is_function_call_output call_id) items in
      if has_output then Ok None
      else let? _ := error_or_panic in Ok (Some (FunctionCallOutput call_id aborted))
  | _ => Ok None
  end.

(** [for (idx, item) in items.iter().enumerate()] *)
Fixpoint collect_missing (items : list item) (idx : nat) (rest : list item)
  (missing_outputs_to_insert : list (nat * item)) : result unit (list (nat * item)) :=
  match rest with
  | [] => Ok missing_outputs_to_insert
  | i :: rest' =>
      let? missing := missing_output items i in
      collect_missing items (S idx) rest'
        (match missing with
         | Some output => missing_outputs_to_insert ++ [(idx, output)]
         | None => missing_outputs_to_insert
         end)
  end.

(** [Vec::insert] panics past the end. *)
Definition vec_insert {A} (index : nat) (element : A) (v : list A) : result unit (list A) :=
  if index <=? length v then Ok (take index v ++ element :: drop index v) else Panic.

Fixpoint insert_all (items : list item) (missing : list (nat * item)) : result unit (list item) :=
  match missing with
  | [] => Ok items
  | (idx, output_item) :: missing' =>
      let? items' := vec_insert (idx + 1) output_item items in insert_all items' missing'
  end.

Definition ensure_call_outputs_present (items : list item) : result unit (list item) :=
  let? missing_outputs_to_insert := collect_missing items 0 items [] in
  insert_all items (reverse missing_outputs_to_insert).

(** ** remove_orphan_outputs *)

Definition function_call_ids (items : list item) : gset str :=
  list_to_set (omap (fun i => match i with FunctionCall _ _ _ _ call_id => Some call_id
                              | _ => None end) items).
Definition tool_search_call_ids (items : list item) : gset str :=
  list_to_set (omap (fun i => match i with ToolSearchCall _ (Some call_id) _ _ _ => Some call_id
                              | _ => None end) items).
Definition local_shell_call_ids (items : list item) : gset str :=
  list_to_set (omap (fun i => match i with LocalShellCall _ (Some call_id) _ _ => Some call_id
                              | _ => None end) items).
Definition custom_tool_call_ids (items : list item) : gset str :=
  list_to_set (omap (fun i => match i with CustomToolCall _ _ call_id _ _ => Some call_id
                              | _ => None end) items).

Definition checked_match (has_match : bool) : result unit bool :=
  if has_match then Ok true else let? _ := error_or_panic in Ok false.

(** The closure of [retain]. *)
Definition has_call (items : list item) (i : item) : result unit bool :=
  match i with
  | FunctionCallOutput call_id _ =>
      checked_match (bool_decide (call_id ∈ function_call_ids items)
                     || bool_decide (call_id ∈ local_shell_call_ids items))
  | CustomToolCallOutput call_id _ _ =>
      checked_match (bool_decide (call_id ∈ custom_tool_call_ids items))
  | ToolSearchOutput call_id _ execution _ =>
      if str_eqb execution (L"server") then Ok true
      else match call_id with
           | Some call_id => checked_match (bool_decide (call_id ∈ tool_search_call_ids items))
           | None => Ok true
           end
  | _ => Ok true
  end.

Fixpoint retain (f : item -> result unit bool) (items : list item) : result unit (list item) :=
  match items with
  | [] => Ok []
  | i :: rest =>
      let? keep := f i in
      let? rest' := retain f rest in
      Ok (if (keep : bool) then i :: rest' else rest')
  end.

Definition remove_orphan_outputs (items : list item) : result unit (list item) :=
  retain (has_call items) items.

(** ** remove_corresponding_for *)

(** [items.iter().position(p)] followed by [items.remove(pos)]. *)
Fixpoint remove_first_matching (predicate : item -> bool) (items : list item) : list item :=
  match items with
  | [] => []
  | i :: rest => if predicate i then rest else i :: remove_first_matching predicate rest
  end.

Definition remove_corresponding_for (items : list item) (i : item) : list item :=
  match i with
  | FunctionCall _ _ _ _ call_id => remove_first_matching (is_function_call_output call_id) items
  | FunctionCallOutput call_id _ =>
      if existsb (is_function_call call_id) items
      then remove_first_matching (is_function_call call_id) items
      else if existsb (is_local_shell_call call_id) items
      then remove_first_matching (is_local_shell_call call_id) items
      else items
  | ToolSearchCall _ (Some call_id) _ _ _ =>
      remove_first_matching (is_tool_search_output call_id) items
  | ToolSearchOutput (Some call_id) _ _ _ =>
      remove_first_matching (is_tool_search_call call_id) items
  | CustomToolCall _ _ call_id _ _ =>
      remove_first_matching (is_custom_tool_call_output call_id) items
  | CustomToolCallOutput call_id _ _ => remove_first_matching (is_custom_tool_call call_id) items
  | LocalShellCall _ (Some call_id) _ _ =>
      remove_first_matching (is_function_call_output call_id) items
  | _ => items
  end.

(** ** strip_images_when_unsupported *)

Inductive InputModality := ModalityText | ModalityImage.

Definition is_image_modality (m : InputModality) : bool :=
  match m with ModalityImage => true | ModalityText => false end.

Definition IMAGE_CONTENT_OMITTED_PLACEHOLDER : str :=
  L"image content omitted because you do not support image input".

Definition strip_content (c : ContentItem) : ContentItem :=
  match c with
  | InputImage _ _ => InputText IMAGE_CONTENT_OMITTED_PLACEHOLDER
  | _ => c
  end.

Definition strip_output_content (c : FunctionCallOutputContentItem)
  : FunctionCallOutputContentItem :=
  match c with
  | OutInputImage _ _ => OutInputText IMAGE_CONTENT_OMITTED_PLACEHOLDER
  | _ => c
  end.

Definition strip_payload (output : FunctionCallOutputPayload) : FunctionCallOutputPayload :=
  match content_items output with
  | Some items => set_content_items output (strip_output_content <$> items)
  | None => output
  end.

Definition strip_item (i : item) : item :=
  match i with
  | Message id role content phase => Message id role (strip_content <$> content) phase
  | FunctionCallOutput call_id output => FunctionCallOutput call_id (strip_payload output)
  | CustomToolCallOutput call_id name output =>
      CustomToolCallOutput call_id name (strip_payload output)
  | ImageGenerationCall id status revised_prompt _ => ImageGenerationCall id status revised_prompt []
  | _ => i
  end.

Definition strip_images_when_unsupported (input_modalities : list InputModality)
  (items : list item) : list item :=
  if existsb is_image_modality input_modalities then items else strip_item <$> items.

(** [ContextManager::normalize_history] *)
Definition normalize_history (input_modalities : list InputModality) (items : list item)
  : result unit (list item) :=
  let? items := ensure_call_outputs_present items in
  let? items := remove_orphan_outputs items in
  Ok (strip_images_when_unsupported input_modalities items).
End normalize.

(** ** Calls and outputs *)

Inductive ToolKind := FunctionTool | CustomTool | SearchTool.

#[global] Instance ToolKind_eq_dec : EqDecision ToolKind.
Proof. solve_decision. Defined.

Section pairing.
Context {Json : Type}.
Abbreviation item := (ResponseItem Json).
Abbreviation key := (ToolKind * str)%type.

(** The call an item makes, the call it answers, and the call it cannot do
    without: the server's own tool searches need none. *)
Definition call_key (i : item) : option key :=
  match i with
  | FunctionCall _ _ _ _ id | LocalShellCall _ (Some id) _ _ => Some (FunctionTool, id)
  | CustomToolCall _ _ id _ _ => Some (CustomTool, id)
  | ToolSearchCall _ (Some id) _ _ _ => Some (SearchTool, id)
  | _ => None
  end.

Definition output_key (i : item) : option key :=
  match i with
  | FunctionCallOutput id _ => Some (FunctionTool, id)
  | CustomToolCallOutput id _ _ => Some (CustomTool, id)
  | ToolSearchOutput (Some id) _ _ _ => Some (SearchTool, id)
  | _ => None
  end.

Definition requires_call (i : item) : option key :=
  match i with
  | ToolSearchOutput _ _ execution _ => if str_eqb execution (L"server") then None else output_key i
  | _ => output_key i
  end.

Definition calls (items : list item) : list key := omap call_key items.
Definition outputs (items : list item) : list key := omap output_key items.

Definition paired (items : list item) : Prop :=
  (forall k, k ∈ calls items -> k ∈ outputs items)
  /\ (forall k, k ∈ omap requires_call items -> k ∈ calls items).

(** The output the client makes up for a call. *)
Definition synthetic_output (k : key) : item :=
  match k with
  | (FunctionTool, id) => FunctionCallOutput id aborted
  | (CustomTool, id) => CustomToolCallOutput id None aborted
  | (SearchTool, id) => ToolSearchOutput (Some id) (L"completed") (L"client") []
  end.

Definition answered (items : list item) (k : key) : bool := bool_decide (k ∈ outputs items).
Definition made (items : list item) (k : key) : bool := bool_decide (k ∈ calls items).

Definition missing_of (items : list item) (i : item) : option item :=
  match call_key i with
  | Some k => if answered items k then None else Some (synthetic_output k)
  | None => None
  end.

Definition retained (items : list item) (i : item) : bool :=
  match requires_call i with Some k => made items k | None => true end.

(** The normalised items: orphan outputs dropped, missing outputs added right
    after their calls. *)
Definition with_missing (f : item -> option item) (items : list item) : list item :=
  items ≫= fun i => i :: option_list (f i).
Definition normalized (items : list item) : list item :=
  with_missing (missing_of items) (List.filter (retained items) items).

(** What a build with debug assertions refuses: a custom or local shell call
    without an output, an output without a call. *)
Definition loud (i : item) : bool :=
  match i with CustomToolCall _ _ _ _ _ | LocalShellCall _ _ _ _ => true | _ => false end.
Definition loud_missing (items : list item) (i : item) : bool :=
  loud i && negb (is_none (missing_of items i)).
Definition alarming (items : list item) : bool :=
  existsb (loud_missing items) items || existsb (fun i => negb (retained items i)) items.

(** *** The predicates of the source decide the keys *)

Lemma existsb_key (f : item -> option key) (p : item -> bool) k items :
  (forall i, p i = bool_decide (f i = Some k)) ->
  existsb p items = bool_decide (k ∈ omap f items).
Proof.
  intros Hp. apply eq_true_iff_eq. rewrite existsb_exists, bool_decide_eq_true, list_elem_of_omap.
  split; intros (i & Hi & Hk); exists i.
  - rewrite Hp, bool_decide_eq_true in Hk. by rewrite list_elem_of_In.
  - rewrite Hp, bool_decide_eq_true. by rewrite <- list_elem_of_In.
Qed.

Lemma str_eqb_key (kind : ToolKind) (a b : str) :
  str_eqb a b = bool_decide (Some (kind, a) = Some (kind, b)).
Proof. unfold str_eqb. apply bool_decide_ext. split; [by intros ->|by intros [= ->]]. Qed.
End pairing.

(** One equation per predicate: unfold it on each constructor. *)
Ltac decide_key :=
  intros []; cbn; repeat case_match; subst;
  first [ apply str_eqb_key | by rewrite bool_decide_eq_false_2 ].

Section pairing_facts.
Context {Json : Type}.
Abbreviation item := (ResponseItem Json).

Lemma is_function_call_output_key id (i : item) :
  is_function_call_output id i = bool_decide (output_key i = Some (FunctionTool, id)).
Proof. revert i. decide_key. Qed.

Lemma is_custom_tool_call_output_key id (i : item) :
  is_custom_tool_call_output id i = bool_decide (output_key i = Some (CustomTool, id)).
Proof. revert i. decide_key. Qed.

Lemma is_tool_search_output_key id (i : item) :
  is_tool_search_output id i = bool_decide (output_key i = Some (SearchTool, id)).
Proof. revert i. decide_key. Qed.

Lemma is_custom_tool_call_key id (i : item) :
  is_custom_tool_call id i = bool_decide (call_key i = Some (CustomTool, id)).
Proof. revert i. decide_key. Qed.

Lemma is_tool_search_call_key id (i : item) :
  is_tool_search_call id i = bool_decide (call_key i = Some (SearchTool, id)).
Proof. revert i. decide_key. Qed.

(** *** The first loop and its insertions *)

Definition panic_if {A} (alarm : bool) (r : result unit A) : result unit A :=
  if alarm then Panic else r.

Lemma missing_output_exact d (items : list item) i :
  missing_output d items i = panic_if (d && loud_missing items i) (Ok (missing_of items i)).
Proof.
  unfold loud_missing, missing_of, answered, outputs, panic_if.
  destruct i; cbn; try by rewrite andb_false_r.
  - destruct call_id; cbn; [|by rewrite andb_false_r].
    rewrite (existsb_key output_key _ _ _ (is_function_call_output_key _)).
    by destruct d, (bool_decide _).
  - rewrite (existsb_key output_key _ _ _ (is_function_call_output_key _)), andb_false_r.
    by case_match.
  - destruct call_id; cbn; rewrite andb_false_r; [|done].
    rewrite (existsb_key output_key _ _ _ (is_tool_search_output_key _)). by case_match.
  - rewrite (existsb_key output_key _ _ _ (is_custom_tool_call_output_key _)).
    by destruct d, (bool_decide _).
Qed.

(** The positions [collect_missing] records. *)
Fixpoint missing_list (f : item -> option item) (idx : nat) (rest : list item) : list (nat * item) :=
  match rest with
  | [] => []
  | i :: rest' => (pair idx <$> option_list (f i)) ++ missing_list f (S idx) rest'
  end.

Lemma collect_missing_exact d (items rest : list item) : forall idx acc,
  collect_missing d items idx rest acc
  = panic_if (d && existsb (loud_missing items) rest)
      (Ok (acc ++ missing_list (missing_of items) idx rest)).
Proof.
  induction rest as [|i rest IH]; intros idx acc; cbn [collect_missing existsb missing_list].
  { by rewrite andb_false_r, app_nil_r. }
  rewrite missing_output_exact. destruct d; cbn [andb panic_if].
  - destruct (loud_missing items i); cbn [orb panic_if rbind]; [done|].
    rewrite IH. cbn [andb]. unfold panic_if. case_match; [done|].
    destruct (missing_of items i); cbn; [by rewrite <- app_assoc|done].
  - cbn [rbind]. rewrite IH. cbn.
    destruct (missing_of items i); cbn; [by rewrite <- app_assoc|done].
Qed.

Lemma insert_all_app (items : list item) m1 m2 :
  insert_all items (m1 ++ m2) = let? items' := insert_all items m1 in insert_all items' m2.
Proof.
  revert items. induction m1 as [|[idx o] m1 IH]; intros items; [done|].
  cbn [insert_all app]. destruct (vec_insert _ _ _); cbn; [apply IH|done..].
Qed.

Lemma vec_insert_app {A} (pre suf : list A) x :
  vec_insert (length pre) x (pre ++ suf) = Ok (pre ++ x :: suf).
Proof.
  unfold vec_insert. rewrite length_app. case_match eqn:E; [|apply Nat.leb_gt in E; lia].
  by rewrite take_app_length, drop_app_length.
Qed.

(** Inserting from the last position to the first needs no index adjustment. *)
Lemma insert_all_reverse (f : item -> option item) rest : forall pre,
  insert_all (pre ++ rest) (reverse (missing_list f (length pre) rest))
  = Ok (pre ++ with_missing f rest).
Proof.
  induction rest as [|i rest IH]; intros pre; [done|].
  cbn [missing_list]. rewrite reverse_app, insert_all_app, cons_middle, app_assoc.
  specialize (IH (pre ++ [i])). rewrite length_app, Nat.add_1_r in IH. rewrite IH. cbn [rbind].
  unfold with_missing. cbn [mbind list_bind]. destruct (f i) as [o|]; cbn.
  - replace (length pre + 1) with (length (pre ++ [i])) by (rewrite length_app; cbn; lia).
    rewrite vec_insert_app. cbn. by rewrite <- app_assoc.
  - by rewrite <- app_assoc.
Qed.

Lemma ensure_call_outputs_present_exact d (items : list item) :
  ensure_call_outputs_present d items
  = panic_if (d && existsb (loud_missing items) items)
      (Ok (with_missing (missing_of items) items)).
Proof.
  unfold ensure_call_outputs_present. rewrite collect_missing_exact.
  unfold panic_if. case_match; [done|]. cbn [rbind app].
  apply (insert_all_reverse (missing_of items) items []).
Qed.

(** *** The retained outputs *)

Lemma call_ids_spec (items : list item) id :
  (id ∈ function_call_ids items \/ id ∈ local_shell_call_ids items
     <-> (FunctionTool, id) ∈ calls items)
  /\ (id ∈ custom_tool_call_ids items <-> (CustomTool, id) ∈ calls items)
  /\ (id ∈ tool_search_call_ids items <-> (SearchTool, id) ∈ calls items).
Proof.
  unfold function_call_ids, local_shell_call_ids, custom_tool_call_ids, tool_search_call_ids, calls.
  rewrite !elem_of_list_to_set, !list_elem_of_omap. split_and!; split.
  - intros [(i & Hi & Hid)|(i & Hi & Hid)]; exists i; (split; [done|]);
      destruct i; cbn in *; repeat case_match; by simplify_eq.
  - intros (i & Hi & Hid). destruct i; cbn in *; repeat case_match; simplify_eq; eauto.
  - intros (i & Hi & Hid); exists i; (split; [done|]); destruct i; cbn in *; by simplify_eq.
  - intros (i & Hi & Hid). destruct i; cbn in *; repeat case_match; simplify_eq; eauto.
  - intros (i & Hi & Hid); exists i; (split; [done|]);
      destruct i; cbn in *; repeat case_match; by simplify_eq.
  - intros (i & Hi & Hid). destruct i; cbn in *; repeat case_match; simplify_eq; eauto.
Qed.

Lemma checked_match_exact d b : checked_match d b = panic_if (d && negb b) (Ok b).
Proof. by destruct d, b. Qed.

Lemma has_call_exact d (items : list item) i :
  has_call d items i = panic_if (d && negb (retained items i)) (Ok (retained items i)).
Proof.
  unfold retained, made. destruct i; cbn; rewrite ?andb_false_r; try done.
  - rewrite checked_match_exact. destruct (call_ids_spec items call_id) as [H _].
    rewrite <- bool_decide_or. by rewrite (bool_decide_ext _ _ H).
  - rewrite checked_match_exact. destruct (call_ids_spec items call_id) as (_ & H & _).
    by rewrite (bool_decide_ext _ _ H).
  - destruct (str_eqb _ _); [by rewrite andb_false_r|].
    destruct call_id as [id|]; cbn; [|by rewrite andb_false_r].
    rewrite checked_match_exact. destruct (call_ids_spec items id) as (_ & _ & H).
    by rewrite (bool_decide_ext _ _ H).
Qed.

Lemma retain_exact d (p : item -> bool) (f : item -> result unit bool) items :
  (forall i, f i = panic_if (d && negb (p i)) (Ok (p i))) ->
  retain f items = panic_if (d && existsb (fun i => negb (p i)) items) (Ok (List.filter p items)).
Proof.
  intros Hf. induction items as [|i items IH]; cbn; [by rewrite andb_false_r|].
  rewrite Hf, IH. destruct d, (p i); cbn; try done; by destruct (existsb _ _).
Qed.

(** *** The composed passes *)

Lemma output_makes_no_call (i : item) k : output_key i = Some k -> call_key i = None.
Proof. by destruct i. Qed.

Lemma requires_call_output (i : item) k : requires_call i = Some k -> output_key i = Some k.
Proof. destruct i; cbn; try done. by repeat case_match. Qed.

Lemma call_requires_none (i : item) k : call_key i = Some k -> requires_call i = None.
Proof. by destruct i. Qed.

Lemma synthetic_output_key k : output_key (Json:=Json) (synthetic_output k) = Some k.
Proof. by destruct k as [[] ?]. Qed.

Lemma synthetic_requires_call k : requires_call (Json:=Json) (synthetic_output k) = Some k.
Proof. by destruct k as [[] ?]. Qed.

Lemma missing_of_Some (items : list item) i o :
  missing_of items i = Some o <->
  exists k, call_key i = Some k /\ k ∉ outputs items /\ o = synthetic_output k.
Proof.
  unfold missing_of, answered. split.
  - intros H. destruct (call_key i) as [k|]; [|done]. case_bool_decide; [done|].
    exists k. by simplify_eq.
  - intros (k & -> & Hk & ->). by rewrite bool_decide_eq_false_2.
Qed.

Lemma elem_of_with_missing (f : item -> option item) items j :
  j ∈ with_missing f items <-> j ∈ items \/ exists i, i ∈ items /\ f i = Some j.
Proof.
  unfold with_missing. rewrite list_elem_of_bind. setoid_rewrite elem_of_cons.
  assert (forall o : option item, j ∈ option_list o <-> o = Some j) as Ho
    by (intros [?|]; cbn; set_solver).
  setoid_rewrite Ho. naive_solver.
Qed.

(** A key function that ignores the made-up outputs does not see them. *)
Lemma omap_with_missing {K} (key : item -> option K) (f : item -> option item) items :
  (forall i o, f i = Some o -> key o = None) ->
  omap key (with_missing f items) = omap key items.
Proof.
  intros Hf. induction items as [|i items IH]; [done|]. unfold with_missing in *.
  cbn [mbind list_bind app omap list_omap]. rewrite omap_app, IH.
  destruct (f i) eqn:E; cbn; [by rewrite (Hf _ _ E)|done].
Qed.

Lemma calls_with_missing (items items' : list item) :
  calls (with_missing (missing_of items) items') = calls items'.
Proof.
  apply omap_with_missing. intros i o (k & _ & _ & ->)%missing_of_Some.
  eapply output_makes_no_call, synthetic_output_key.
Qed.

Lemma calls_filter_retained (items items' : list item) :
  calls (List.filter (retained items) items') = calls items'.
Proof.
  unfold calls. induction items' as [|i items' IH]; [done|]. cbn.
  destruct (retained items i) eqn:Er; cbn; rewrite IH; [done|].
  unfold retained in Er. destruct (call_key i) eqn:Ek; [|done].
  by rewrite (call_requires_none _ _ Ek) in Er.
Qed.

Lemma retained_ext (items items' : list item) :
  calls items = calls items' -> forall i, retained items i = retained items' i.
Proof. intros H i. unfold retained, made. by rewrite H. Qed.

Lemma missing_retained (items : list item) i o :
  i ∈ items -> missing_of items i = Some o -> retained items i = true /\ retained items o = true.
Proof.
  intros Hi (k & Hk & _ & ->)%missing_of_Some. unfold retained.
  rewrite synthetic_requires_call, (call_requires_none _ _ Hk). split; [done|].
  apply bool_decide_eq_true, list_elem_of_omap. eauto.
Qed.

(** Dropping the orphans commutes with adding the missing outputs. *)
Lemma filter_with_missing (p : item -> bool) (f : item -> option item) items :
  (forall i o, i ∈ items -> f i = Some o -> p i = true /\ p o = true) ->
  List.filter p (with_missing f items) = with_missing f (List.filter p items)
  /\ existsb (fun i => negb (p i)) (with_missing f items)
     = existsb (fun i => negb (p i)) items.
Proof.
  induction items as [|i items IH]; [done|]. intros Hf. unfold with_missing in *.
  destruct IH as [IH1 IH2]; [intros j o Hj; apply Hf; by right|].
  cbn [mbind list_bind]. rewrite List.filter_app, existsb_app, IH1, IH2.
  destruct (f i) as [o|] eqn:E; cbn.
  - destruct (Hf i o) as [-> ->]; [by left|done|]. cbn. by rewrite E.
  - destruct (p i); cbn; by rewrite ?E.
Qed.

(** Normalisation, in either kind of build, exactly. *)
Lemma normalize_history_exact d mods (items : list item) :
  normalize_history d mods items
  = panic_if (d && alarming items) (Ok (strip_images_when_unsupported mods (normalized items))).
Proof.
  unfold normalize_history, alarming, normalized. rewrite ensure_call_outputs_present_exact.
  destruct (d && existsb (loud_missing items) items) eqn:E1; cbn [panic_if rbind].
  { apply andb_true_iff in E1 as [-> ->]. done. }
  set (items' := with_missing (missing_of items) items).
  assert (forall i, retained items' i = retained items i) as Hret
    by (apply retained_ext, calls_with_missing).
  unfold remove_orphan_outputs. rewrite (retain_exact d (retained items)).
  2: { intros i. by rewrite has_call_exact, Hret. }
  unfold items'.
  destruct (filter_with_missing (retained items) (missing_of items) items) as [-> ->];
    [intros i o; apply missing_retained|].
  destruct d; [|done]. cbn [andb] in *. rewrite E1. cbn [orb]. unfold panic_if. by case_match.
Qed.

(** *** The normalised items are paired *)

Lemma calls_normalized (items : list item) : calls (normalized items) = calls items.
Proof. unfold normalized. by rewrite calls_with_missing, calls_filter_retained. Qed.

Lemma elem_of_filter (p : item -> bool) items i :
  i ∈ List.filter p items <-> i ∈ items /\ p i = true.
Proof. by rewrite !list_elem_of_In, List.filter_In. Qed.

Lemma retained_made (items : list item) i k :
  requires_call i = Some k -> retained items i = true <-> k ∈ calls items.
Proof. intros H. unfold retained, made. by rewrite H, bool_decide_eq_true. Qed.

Lemma elem_of_normalized (items : list item) j :
  j ∈ normalized items <->
  (j ∈ items /\ retained items j = true)
  \/ exists k, k ∈ calls items /\ k ∉ outputs items /\ j = synthetic_output k.
Proof.
  unfold normalized. rewrite elem_of_with_missing, elem_of_filter. split.
  - intros [H|(i & [Hi _]%elem_of_filter & (k & Hk & Hout & ->)%missing_of_Some)]; [by left|].
    right. exists k. split_and!; try done. apply list_elem_of_omap. eauto.
  - intros [H|(k & (i & Hi & Hk)%list_elem_of_omap & Hout & ->)]; [by left|].
    right. exists i. split; [|apply missing_of_Some; eauto].
    apply elem_of_filter. split; [done|]. unfold retained. by rewrite (call_requires_none _ _ Hk).
Qed.

Lemma normalized_paired (items : list item) : paired (normalized items).
Proof.
  split; intros k Hk.
  - rewrite calls_normalized in Hk. apply list_elem_of_omap.
    destruct (decide (k ∈ outputs items)) as [(o & Ho & Hok)%list_elem_of_omap|Hno].
    + exists o. split; [|done]. apply elem_of_normalized. left. split; [done|].
      destruct (requires_call o) as [k'|] eqn:E; [|by unfold retained; rewrite E].
      rewrite (retained_made _ _ _ E). apply requires_call_output in E. by simplify_eq.
    + exists (synthetic_output k). split; [|apply synthetic_output_key].
      apply elem_of_normalized. right. by exists k.
  - rewrite calls_normalized. apply list_elem_of_omap in Hk as (o & Ho & Hk).
    apply elem_of_normalized in Ho as [[_ Hr]|(k' & Hk' & _ & ->)].
    + by apply (retained_made _ _ _ Hk).
    + rewrite synthetic_requires_call in Hk. by simplify_eq.
Qed.

(** A paired list has nothing to normalise, and alarms nobody. *)
Lemma paired_settled (items : list item) :
  paired items -> (forall i, i ∈ items -> missing_of items i = None)
                  /\ (forall i, i ∈ items -> retained items i = true).
Proof.
  intros [Hcalls Houts]. split; intros i Hi.
  - destruct (missing_of items i) eqn:E; [|done].
    apply missing_of_Some in E as (k & Hk & Hno & _). destruct Hno. apply Hcalls.
    apply list_elem_of_omap. eauto.
  - destruct (requires_call i) as [k|] eqn:E; [|by unfold retained; rewrite E].
    apply (retained_made _ _ _ E), Houts, list_elem_of_omap. eauto.
Qed.

Lemma filter_all (p : item -> bool) items :
  (forall i, i ∈ items -> p i = true) -> List.filter p items = items.
Proof. induction items as [|i l IH]; intros H; cbn; [done|]. rewrite H, IH; set_solver. Qed.

Lemma with_missing_none (f : item -> option item) items :
  (forall i, i ∈ items -> f i = None) -> with_missing f items = items.
Proof.
  unfold with_missing. induction items as [|i l IH]; intros H; cbn; [done|].
  rewrite H, IH; set_solver.
Qed.

Lemma normalized_id (items : list item) : paired items -> normalized items = items.
Proof.
  intros [Hm Hr]%paired_settled. unfold normalized.
  by rewrite filter_all, with_missing_none.
Qed.

Lemma paired_not_alarming (items : list item) : paired items -> alarming items = false.
Proof.
  intros [Hm Hr]%paired_settled. unfold alarming. apply orb_false_iff.
  rewrite !existsb_false_Forall, !Forall_forall. split; intros i Hi.
  - unfold loud_missing. rewrite Hm by done. by rewrite andb_false_r.
  - by rewrite Hr.
Qed.

(** *** Images *)

Definition is_content_image (c : ContentItem) : bool :=
  match c with InputImage _ _ => true | _ => false end.
Definition is_output_content_image (c : FunctionCallOutputContentItem) : bool :=
  match c with OutInputImage _ _ => true | _ => false end.
Definition payload_has_image (output : FunctionCallOutputPayload) : bool :=
  match content_items output with Some l => existsb is_output_content_image l | None => false end.

Definition has_image (i : item) : bool :=
  match i with
  | Message _ _ content _ => existsb is_content_image content
  | FunctionCallOutput _ output | CustomToolCallOutput _ _ output => payload_has_image output
  | ImageGenerationCall _ _ _ result => negb (is_nil result)
  | _ => false
  end.

Lemma existsb_fmap_false {A B} (p : B -> bool) (f : A -> B) l :
  (forall a, p (f a) = false) -> existsb p (f <$> l) = false.
Proof. intros H. induction l; cbn; [done|]. by rewrite H. Qed.

Lemma strip_payload_no_image output : payload_has_image (strip_payload output) = false.
Proof.
  unfold payload_has_image, strip_payload. destruct output as [[t|l] s]; [done|]. cbn.
  apply existsb_fmap_false. by intros [].
Qed.

Lemma strip_item_no_image (i : item) : has_image (strip_item i) = false.
Proof.
  destruct i; cbn; try done; [|apply strip_payload_no_image..].
  apply existsb_fmap_false. by intros [].
Qed.

Lemma strip_payload_id output : payload_has_image output = false -> strip_payload output = output.
Proof.
  destruct output as [[t|l] s]; [done|]. cbn. unfold payload_has_image; cbn.
  intros Hl%existsb_false_Forall. unfold strip_payload, set_content_items. cbn. do 2 f_equal.
  induction Hl as [|[] l Hc _ IH]; cbn; [done|by f_equal|done].
Qed.

Lemma strip_item_id (i : item) : has_image i = false -> strip_item i = i.
Proof.
  destruct i; cbn; try done.
  - intros Hl%existsb_false_Forall. f_equal. induction Hl as [|[] l Hc _ IH]; cbn; by f_equal.
  - intros H. by rewrite strip_payload_id.
  - intros H. by rewrite strip_payload_id.
  - by destruct result.
Qed.

Lemma strip_keys (i : item) :
  call_key (strip_item i) = call_key i /\ output_key (strip_item i) = output_key i
  /\ requires_call (strip_item i) = requires_call i.
Proof. by destruct i. Qed.

Lemma omap_fmap_ext {K} (f : item -> option K) (g : item -> item) (items : list item) :
  (forall i, f (g i) = f i) -> omap f (g <$> items) = omap f items.
Proof. intros H. induction items; cbn; [done|]. by rewrite H, IHitems. Qed.

Lemma strip_paired mods (items : list item) :
  paired items -> paired (strip_images_when_unsupported mods items).
Proof.
  unfold strip_images_when_unsupported. case_match; [done|]. unfold paired, calls, outputs.
  rewrite !omap_fmap_ext; [done|intros i; apply strip_keys..].
Qed.

Lemma strip_idemp mods (items : list item) :
  strip_images_when_unsupported mods (strip_images_when_unsupported mods items)
  = strip_images_when_unsupported mods items.
Proof.
  unfold strip_images_when_unsupported. case_match; [done|]. rewrite <- list_fmap_compose.
  apply list_fmap_ext. intros _ i _. cbn. apply strip_item_id, strip_item_no_image.
Qed.

Lemma strip_no_image mods (items : list item) :
  existsb is_image_modality mods = false ->
  Forall (fun i => has_image i = false) (strip_images_when_unsupported mods items).
Proof.
  intros H. unfold strip_images_when_unsupported. rewrite H.
  apply Forall_fmap, Forall_true. apply strip_item_no_image.
Qed.

(** *** Removing an item together with its counterpart *)

(** No two calls and no two outputs share a key. *)
Definition well_paired (items : list item) : Prop :=
  NoDup (calls items) /\ NoDup (outputs items) /\ paired items.

Lemma remove_first_matching_cases (p : item -> bool) items :
  (existsb p items = false /\ remove_first_matching p items = items)
  \/ exists a y b, items = a ++ y :: b /\ p y = true /\ remove_first_matching p items = a ++ b.
Proof.
  induction items as [|i l IH]; [by left|]. cbn. destruct (p i) eqn:E.
  - right. by exists [], i, l.
  - destruct IH as [[H1 H2]|(a & y & b & -> & Hy & ->)]; [left; by rewrite H2|].
    right. by exists (i :: a), y, b.
Qed.

#[global] Instance well_paired_perm : Proper ((≡ₚ) ==> iff) well_paired.
Proof.
  assert (forall l l', l ≡ₚ l' -> well_paired l -> well_paired l') as Himp.
  { intros l l' Hl (Hc & Ho & Hpc & Hpo). unfold well_paired, paired, calls, outputs in *.
    split_and!; try (by rewrite <- Hl); intros k; rewrite <- !Hl; auto. }
  intros l l' Hl. split; by apply Himp.
Qed.

Lemma call_gives_no_output (i : item) k : call_key i = Some k -> output_key i = None.
Proof. by destruct i. Qed.

Lemma well_paired_drop_pair (x y : item) l k :
  call_key x = Some k -> output_key y = Some k -> well_paired (x :: y :: l) -> well_paired l.
Proof.
  intros Hx Hy (Hc & Ho & Hpc & Hpo). unfold well_paired, paired, calls, outputs in *.
  cbn [omap list_omap] in *. rewrite (output_makes_no_call _ _ Hy), Hx in *.
  rewrite (call_gives_no_output _ _ Hx), Hy, (call_requires_none _ _ Hx) in *.
  apply NoDup_cons in Hc as [Hkc Hc]. apply NoDup_cons in Ho as [Hko Ho].
  split_and!; [done|done|..]; intros k' Hk'.
  - assert (k' ∈ k :: omap output_key l) as [->|?]%elem_of_cons by (apply Hpc; by right); done.
  - assert (k' ∈ omap output_key l) as Hk''.
    { apply list_elem_of_omap in Hk' as (i & Hi & Hk'). apply list_elem_of_omap.
      exists i. split; [done|]. by apply requires_call_output. }
    assert (k' ∈ k :: omap call_key l) as [->|?]%elem_of_cons
      by (apply Hpo; destruct (requires_call y); [by right|done]); done.
Qed.

(** Removing an item no other item is matched with. *)
Lemma well_paired_drop_single (x : item) l :
  (forall k, call_key x = Some k -> False) ->
  (forall k, output_key x = Some k -> k ∉ calls l) -> well_paired (x :: l) -> well_paired l.
Proof.
  intros Hx Hy (Hc & Ho & Hpc & Hpo). unfold well_paired, paired, calls, outputs in *.
  cbn [omap list_omap] in *. destruct (call_key x) as [k|]; [by destruct (Hx k)|].
  split_and!; [done|by destruct (output_key x); [apply NoDup_cons in Ho as []|]|..]; intros k' Hk'.
  - specialize (Hpc k' Hk'). destruct (output_key x) as [k|] eqn:E; [|done].
    apply elem_of_cons in Hpc as [->|?]; [by destruct (Hy k)|done].
  - apply Hpo. destruct (requires_call x); [by right|done].
Qed.

Lemma remove_first_key (f : item -> option (ToolKind * str)) p k items :
  (forall i, p i = bool_decide (f i = Some k)) ->
  (k ∉ omap f items /\ remove_first_matching p items = items)
  \/ exists a y b, items = a ++ y :: b /\ f y = Some k /\ remove_first_matching p items = a ++ b.
Proof.
  intros Hp. destruct (remove_first_matching_cases p items) as [[H1 H2]|(a & y & b & -> & Hy & H)].
  - left. split; [|done]. by rewrite (existsb_key f p k), bool_decide_eq_false in H1.
  - right. exists a, y, b. rewrite Hp, bool_decide_eq_true in Hy. done.
Qed.

Lemma is_call_key id (i : item) :
  is_function_call id i || is_local_shell_call id i
  = bool_decide (call_key i = Some (FunctionTool, id)).
Proof.
  revert i. intros []; cbn; repeat case_match; subst; rewrite ?orb_false_r;
    first [ apply str_eqb_key | by rewrite bool_decide_eq_false_2 ].
Qed.

(** The counterpart of a call is an output, that of an output is a call. *)
Lemma remove_corresponding_call (x : item) l k :
  call_key x = Some k ->
  (k ∉ outputs l /\ remove_corresponding_for l x = l)
  \/ exists a y b, l = a ++ y :: b /\ output_key y = Some k
       /\ remove_corresponding_for l x = a ++ b.
Proof.
  intros Hx. destruct x; cbn in *; repeat case_match; simplify_eq; apply remove_first_key; intros i;
    auto using is_function_call_output_key, is_custom_tool_call_output_key, is_tool_search_output_key.
Qed.

Lemma remove_corresponding_output (x : item) l k :
  output_key x = Some k ->
  (k ∉ calls l /\ remove_corresponding_for l x = l)
  \/ exists a y b, l = a ++ y :: b /\ call_key y = Some k
       /\ remove_corresponding_for l x = a ++ b.
Proof.
  intros Hx. destruct x; cbn in *; repeat case_match; simplify_eq;
    try (apply remove_first_key; intros i; by auto using is_custom_tool_call_key, is_tool_search_call_key).
  - destruct (remove_first_matching_cases (is_function_call call_id) l)
      as [[? _]|(a & y & b & -> & Hy & ->)]; [congruence|]. right. exists a, y, b.
    split_and!; [done| |done]. apply (bool_decide_eq_true (call_key y = _)).
    by rewrite <- is_call_key, Hy.
  - destruct (remove_first_matching_cases (is_local_shell_call call_id) l)
      as [[? _]|(a & y & b & -> & Hy & ->)]; [congruence|]. right. exists a, y, b.
    split_and!; [done| |done]. apply (bool_decide_eq_true (call_key y = _)).
    by rewrite <- is_call_key, Hy, orb_true_r.
  - left. split; [|done]. unfold calls.
    rewrite <- (bool_decide_eq_false (_ ∈ _)), <- (existsb_key call_key _ _ _ (is_call_key _)).
    rewrite existsb_false_Forall in *. rewrite Forall_forall in *. intros i Hi.
    apply orb_false_iff. auto.
Qed.

Lemma remove_corresponding_none (x : item) l :
  call_key x = None -> output_key x = None -> remove_corresponding_for l x = l.
Proof. destruct x; cbn; try done; by repeat case_match. Qed.

(** Nothing of the removed item's key stays, and nothing else goes. *)
Lemma well_paired_remove (x : item) l :
  well_paired (x :: l) -> well_paired (remove_corresponding_for l x).
Proof.
  intros Hwp. destruct (call_key x) as [k|] eqn:Ek.
  - destruct (remove_corresponding_call x l k Ek) as [[Hno _]|(a & y & b & -> & Hy & ->)].
    { destruct Hwp as (_ & _ & Hpc & _). destruct Hno. specialize (Hpc k).
      unfold calls, outputs in Hpc. cbn in Hpc. rewrite Ek, (call_gives_no_output _ _ Ek) in Hpc.
      apply Hpc. by left. }
    rewrite <- Permutation_middle in Hwp. by eapply well_paired_drop_pair.
  - destruct (output_key x) as [k|] eqn:Eo.
    + destruct (remove_corresponding_output x l k Eo) as [[Hno ->]|(a & y & b & -> & Hy & ->)].
      * eapply well_paired_drop_single; [..|done]; [by rewrite Ek|]. intros k' Hk'. by simplify_eq.
      * rewrite <- Permutation_middle, Permutation_swap in Hwp. by eapply well_paired_drop_pair.
    + rewrite remove_corresponding_none by done.
      eapply well_paired_drop_single; [..|done]; by rewrite ?Ek, ?Eo.
Qed.
End pairing_facts.
