(* ===== verification/ContextManager.v ===== *)
(** * The conversation history (core/src/context_manager/history.rs)

    [ContextManager] keeps the items of a conversation, the token usage the
    server reported and the baseline for context updates.  Recording truncates
    tool outputs, [for_prompt] normalises, rollback drops the last turns.
    [TurnContextItem] is only stored and cleared, so its type is a variable.
    Integers are [i64], saturating where the source says so; plain [+] and [-]
    panic on overflow in a build with debug assertions and wrap in a release
    build. *)

From S2P Require Import Prelude RustStr OutputTruncation ConversationItems HistoryNormalize.

(** ** i64 *)

Definition i64_max : Z := 2 ^ 63 - 1.
Definition i64_min : Z := - 2 ^ 63.
Definition in_i64 (z : Z) : Prop := (i64_min <= z <= i64_max)%Z.
Definition clamp_i64 (z : Z) : Z := Z.max i64_min (Z.min i64_max z).
Definition i64_saturating_add (a b : Z) : Z := clamp_i64 (a + b).
Definition i64_saturating_sub (a b : Z) : Z := clamp_i64 (a - b).
Definition i64_saturating_mul (a b : Z) : Z := clamp_i64 (a * b).
Definition wrap_i64 (z : Z) : Z := ((z + 2 ^ 63) mod 2 ^ 64 - 2 ^ 63)%Z.
(** [i64::try_from(n).unwrap_or(i64::MAX)] of a [usize]. *)
Definition i64_of_usize (n : N) : Z := Z.min (Z.of_N n) i64_max.

(** The value of [a + b] or [a - b] in a build. *)
Definition i64_result (debug_assertions : bool) (z : Z) : result unit Z :=
  if (i64_min <=? z)%Z && (z <=? i64_max)%Z then Ok z
  else if debug_assertions then Panic else Ok (wrap_i64 z).

(** ** Token usage (protocol/src/protocol.rs) *)

Record TokenUsage := mkUsage {
  input_tokens : Z;
  cached_input_tokens : Z;
  output_tokens : Z;
  reasoning_output_tokens : Z;
  total_tokens : Z }.

Definition default_usage : TokenUsage := mkUsage 0 0 0 0 0.

Record TokenUsageInfo := mkUsageInfo {
  total_token_usage : TokenUsage;
  last_token_usage : TokenUsage;
  model_context_window : option Z }.

Section token_usage.
Context (debug_assertions : bool).

Definition add_assign (self other : TokenUsage) : result unit TokenUsage :=
  let? input := i64_result debug_assertions (input_tokens self + input_tokens other) in
  let? cached :=
    i64_result debug_assertions (cached_input_tokens self + cached_input_tokens other) in
  let? output := i64_result debug_assertions (output_tokens self + output_tokens other) in
  let? reasoning :=
    i64_result debug_assertions (reasoning_output_tokens self + reasoning_output_tokens other) in
  let? total := i64_result debug_assertions (total_tokens self + total_tokens other) in
  Ok (mkUsage input cached output reasoning total).

Definition append_last_usage (info : TokenUsageInfo) (last : TokenUsage)
  : result unit TokenUsageInfo :=
  let? total := add_assign (total_token_usage info) last in
  Ok (mkUsageInfo total last (model_context_window info)).

Definition new_or_append (info : option TokenUsageInfo) (last : option TokenUsage)
  (model_context_window : option Z) : result unit (option TokenUsageInfo) :=
  if is_none info && is_none last then Ok None
  else
    let info :=
      default (mkUsageInfo default_usage default_usage model_context_window) info in
    let? info := match last with Some last => append_last_usage info last | None => Ok info end in
    Ok (Some (match model_context_window with
              | Some w => mkUsageInfo (total_token_usage info) (last_token_usage info) (Some w)
              | None => info
              end)).

Definition fill_to_context_window (info : TokenUsageInfo) (context_window : Z)
  : result unit TokenUsageInfo :=
  let previous_total := total_tokens (total_token_usage info) in
  let? difference := i64_result debug_assertions (context_window - previous_total) in
  let delta := Z.max difference 0 in
  Ok (mkUsageInfo (mkUsage 0 0 0 0 context_window) (mkUsage 0 0 0 0 delta) (Some context_window)).

Definition full_context_window (context_window : Z) : result unit TokenUsageInfo :=
  fill_to_context_window (mkUsageInfo default_usage default_usage (Some context_window))
    context_window.
End token_usage.

(** ** The history *)

Record ContextManager {Json TurnContextItem : Type} := mkManager {
  items : list (ResponseItem Json);
  history_version : N;
  token_info : option TokenUsageInfo;
  reference_context_item : option TurnContextItem }.
Arguments ContextManager Json TurnContextItem : clear implicits.

Section manager.
Context {Json TurnContextItem : Type} (debug_assertions : bool) `{Deserializers}.
Abbreviation item := (ResponseItem Json).
Abbreviation manager := (ContextManager Json TurnContextItem).

Definition with_items (h : manager) (items : list item) : manager :=
  mkManager _ _ items (history_version h) (token_info h) (reference_context_item h).

Definition new : result unit manager :=
  let? info := new_or_append debug_assertions None None None in Ok (mkManager _ _ [] 0 info None).

Definition set_token_info (h : manager) (info : option TokenUsageInfo) : manager :=
  mkManager _ _ (items h) (history_version h) info (reference_context_item h).

Definition set_reference_context_item (h : manager) (i : option TurnContextItem) : manager :=
  mkManager _ _ (items h) (history_version h) (token_info h) i.

Definition set_token_usage_full (h : manager) (context_window : Z) : result unit manager :=
  let? info := match token_info h with
               | Some info => fill_to_context_window debug_assertions info context_window
               | None => full_context_window debug_assertions context_window
               end in
  Ok (set_token_info h (Some info)).

Definition update_token_info (h : manager) (usage : TokenUsage) (model_context_window : option Z)
  : result unit manager :=
  let? info := new_or_append debug_assertions (token_info h) (Some usage) model_context_window in
  Ok (set_token_info h info).

Definition truncate_function_output_payload (output : FunctionCallOutputPayload)
  (policy : TruncationPolicy) : result unit FunctionCallOutputPayload :=
  let? body :=
    match body output with
    | Text content => let? t := truncate_text content policy in Ok (Text t)
    | ContentItems items =>
        let? l := truncate_function_output_items_with_policy items policy in Ok (ContentItems l)
    end in
  Ok (mkPayload body (success output)).

Definition process_item (i : item) (policy : TruncationPolicy) : result unit item :=
  let policy_with_serialization_budget := mul policy f64_1_2 in
  match i with
  | FunctionCallOutput call_id output =>
      let? output := truncate_function_output_payload output policy_with_serialization_budget in
      Ok (FunctionCallOutput call_id output)
  | CustomToolCallOutput call_id name output =>
      let? output := truncate_function_output_payload output policy_with_serialization_budget in
      Ok (CustomToolCallOutput call_id name output)
  | _ => Ok i
  end.

Fixpoint record_items (h : manager) (new_items : list item) (policy : TruncationPolicy)
  : result unit manager :=
  match new_items with
  | [] => Ok h
  | i :: rest =>
      if is_api_message i
      then let? processed := process_item i policy in
           record_items (with_items h (items h ++ [processed])) rest policy
      else record_items h rest policy
  end.

Definition for_prompt (h : manager) (input_modalities : list InputModality)
  : result unit (list item) :=
  normalize_history debug_assertions input_modalities (items h).

Definition bump (h : manager) : manager :=
  mkManager _ _ (items h) (saturating_add (history_version h) 1) (token_info h)
    (reference_context_item h).

Definition replace (h : manager) (new_items : list item) : manager := bump (with_items h new_items).

Definition remove_first_item (h : manager) : manager :=
  match items h with
  | removed :: rest => with_items h (remove_corresponding_for rest removed)
  | [] => h
  end.

(** [Vec::pop] *)
Definition pop (l : list item) : option (list item * item) :=
  match reverse l with x :: r => Some (reverse r, x) | [] => None end.

Definition remove_last_item (h : manager) : manager * bool :=
  match pop (items h) with
  | Some (rest, removed) => (bump (with_items h (remove_corresponding_for rest removed)), true)
  | None => (h, false)
  end.

(** [Iterator::rposition] *)
Fixpoint rposition (p : item -> bool) (l : list item) : option nat :=
  match l with
  | [] => None
  | i :: rest => match rposition p rest with
                 | Some n => Some (S n)
                 | None => if p i then Some 0 else None
                 end
  end.

Definition is_function_output_item (i : item) : bool :=
  match i with FunctionCallOutput _ _ => true | _ => false end.

Definition is_output_image (c : FunctionCallOutputContentItem) : bool :=
  match c with OutInputImage _ _ => true | OutInputText _ => false end.

Definition replace_last_turn_images (h : manager) (placeholder : str) : result unit (manager * bool) :=
  match rposition (fun i => is_function_output_item i || is_user_turn_boundary i) (items h) with
  | None => Ok (h, false)
  | Some n =>
      let? i := index (items h) n in
      match i with
      | FunctionCallOutput call_id output =>
          match content_items output with
          | None => Ok (h, false)
          | Some l =>
              let l' := (fun c => if is_output_image c then OutInputText placeholder else c) <$> l in
              let h' := with_items h
                (<[n := FunctionCallOutput call_id (set_content_items output l')]> (items h)) in
              if existsb is_output_image l then Ok (bump h', true) else Ok (h', false)
          end
      | _ => Ok (h, false)
      end
  end.

(** *** Rollback *)

Fixpoint positions_from (idx : nat) (l : list item) : list nat :=
  match l with
  | [] => []
  | i :: rest =>
      if is_user_turn_boundary i then idx :: positions_from (S idx) rest
      else positions_from (S idx) rest
  end.
Definition user_message_positions (l : list item) : list nat := positions_from 0 l.

(** The walk of [trim_pre_turn_context_updates]; the second component is the
    baseline. *)
Fixpoint trim_pre_turn_context_updates (reference : option TurnContextItem) (snapshot : list item)
  (first_instruction_turn_idx cut_idx : nat) : result unit (nat * option TurnContextItem) :=
  match cut_idx with
  | 0 => Ok (0, reference)
  | S prev =>
      if first_instruction_turn_idx <? cut_idx then
        let? i := index snapshot prev in
        match i with
        | Message _ role content _ =>
            if str_eqb role (L"developer") && is_contextual_dev_message_content content then
              trim_pre_turn_context_updates
                (if has_non_contextual_dev_message_content content then None else reference)
                snapshot first_instruction_turn_idx prev
            else if str_eqb role (L"user") && is_contextual_user_message_content content then
              trim_pre_turn_context_updates reference snapshot first_instruction_turn_idx prev
            else Ok (cut_idx, reference)
        | _ => Ok (cut_idx, reference)
        end
      else Ok (cut_idx, reference)
  end.

Definition drop_last_n_user_turns (h : manager) (num_turns : N) : result unit manager :=
  if (num_turns =? 0)%N then Ok h
  else
    let snapshot := items h in
    let user_positions := user_message_positions snapshot in
    match user_positions with
    | [] => Ok (replace h snapshot)
    | first_instruction_turn_idx :: _ =>
        let n_from_end := N.to_nat num_turns in
        let? cut_idx :=
          (if length user_positions <=? n_from_end then Ok first_instruction_turn_idx
           else index user_positions (length user_positions - n_from_end)) in
        let? (cut_idx, reference) :=
          trim_pre_turn_context_updates (reference_context_item h) snapshot
            first_instruction_turn_idx cut_idx in
        let h := set_reference_context_item h reference in
        if cut_idx <=? length snapshot then Ok (replace h (take cut_idx snapshot)) else Panic
    end.
End manager.

(** ** Prompts *)

Section prompts.
Context {Json TurnContextItem : Type}.
Abbreviation manager := (ContextManager Json TurnContextItem).

(** C38: normalisation.  In a release build [for_prompt] always returns, and
    what it returns is exactly this: the outputs whose call is nowhere in the
    history are gone, an output is added right after each call that had none, every other
    item is where it was, and images are gone if the model takes none.  Every
    call in it has an output, every output that needs a call has one, and without image
    support no item carries an image.  A build with debug assertions returns the
    same, or panics, and it panics just when an output had no call or
    a custom or local shell call had no output. *)
Theorem for_prompt_normalizes (h : manager) mods :
  let out := strip_images_when_unsupported mods (normalized (items h)) in
  for_prompt false h mods = Ok out
  /\ paired out
  /\ (existsb is_image_modality mods = false -> Forall (fun i => has_image i = false) out)
  /\ for_prompt true h mods = (if alarming (items h) then Panic else Ok out).
Proof.
  intros out. unfold for_prompt. rewrite !normalize_history_exact. split_and!; [done|..].
  - apply strip_paired, normalized_paired.
  - apply strip_no_image.
  - unfold panic_if. cbn [andb]. by destruct (alarming (items h)).
Qed.

(** A history that is already in order is left alone: whatever the build, a
    history in which calls and outputs are paired is sent as it is, up to the images;
    and so a prompt that is recorded as a history gives the same prompt again. *)
Theorem for_prompt_idempotent (h : manager) mods debug_assertions :
  (paired (items h) ->
    for_prompt debug_assertions h mods = Ok (strip_images_when_unsupported mods (items h)))
  /\ (forall (h' : manager) out, for_prompt false h' mods = Ok out -> items h = out ->
       for_prompt debug_assertions h mods = Ok out).
Proof.
  assert (paired (items h) ->
    for_prompt debug_assertions h mods = Ok (strip_images_when_unsupported mods (items h))) as Hpaired.
  { intros Hp. unfold for_prompt. rewrite normalize_history_exact, paired_not_alarming by done.
    by rewrite andb_false_r, normalized_id. }
  split; [done|]. intros h' out Hout Hitems. unfold for_prompt in Hout.
  rewrite normalize_history_exact in Hout. cbn in Hout. injection Hout as <-.
  rewrite Hpaired; rewrite Hitems; [by rewrite strip_idemp|]. apply strip_paired, normalized_paired.
Qed.

(** Removing the oldest or the newest item of a history in which calls and
    outputs match one to one takes its counterpart along, so that they still match one
    to one, as the comment in [remove_first_item] promises. *)
Theorem removal_keeps_pairing (h : manager) :
  well_paired (items h) ->
  well_paired (items (remove_first_item h)) /\ well_paired (items (fst (remove_last_item h))).
Proof.
  intros Hwp. unfold remove_first_item, remove_last_item, pop. split.
  - destruct (items h) as [|x l] eqn:E; cbn; [by rewrite E|]. by apply well_paired_remove.
  - destruct (reverse (items h)) as [|x l] eqn:E; cbn; [done|]. apply well_paired_remove.
    by rewrite (reverse_Permutation l), <- E, reverse_Permutation.
Qed.
End prompts.

(** A call and its output, for the witnesses. *)
Definition one_pair : list (ResponseItem unit) :=
  [FunctionCall None (L"f") None (L"{}") (L"1"); FunctionCallOutput (L"1") (from_text (L"ok"))].

Lemma for_prompt_idempotent_witness :
  for_prompt true (mkManager unit unit one_pair 0 None None) [ModalityText] = Ok one_pair.
Proof.
  refine (proj2 (for_prompt_idempotent _ [ModalityText] true)
    (mkManager unit unit one_pair 0 None None) _ _ eq_refl).
  vm_compute. reflexivity.
Defined.

Lemma for_prompt_normalizes_witness :
  exists out, for_prompt false (mkManager unit unit (drop 1 one_pair ++ take 1 one_pair) 0 None None)
                [ModalityText] = Ok out
    /\ paired out /\ Forall (fun i => has_image i = false) out.
Proof.
  destruct (for_prompt_normalizes
    (mkManager unit unit (drop 1 one_pair ++ take 1 one_pair) 0 None None) [ModalityText])
    as (Hok & Hp & Hi & _).
  eexists. split; [exact Hok|]. split; [exact Hp|]. apply Hi. vm_compute. reflexivity.
Defined.

Lemma removal_keeps_pairing_witness :
  well_paired (items (remove_first_item (mkManager unit unit one_pair 0 None None)))
  /\ items (remove_first_item (mkManager unit unit one_pair 0 None None)) = [].
Proof.
  split; [|vm_compute; reflexivity].
  apply (removal_keeps_pairing (mkManager unit unit one_pair 0 None None)).
  split_and!; [apply (bool_decide_eq_true_1 (NoDup _)); vm_compute; reflexivity..|].
  split; intros k Hk; vm_compute in Hk |- *; exact Hk.
Defined.

(** ** Rollback *)

Section rollback.
Context {Json TurnContextItem : Type} `{Deserializers}.
Abbreviation item := (ResponseItem Json).
Abbreviation manager := (ContextManager Json TurnContextItem).

Definition turns (l : list item) : nat := length (List.filter is_user_turn_boundary l).

(** The injected messages rollback removes with the turn they precede, and the
    ones among them that carry more than context. *)
Definition is_context_update (i : item) : bool :=
  match i with
  | Message _ role content _ =>
      (str_eqb role (L"developer") && is_contextual_dev_message_content content)
      || (str_eqb role (L"user") && is_contextual_user_message_content content)
  | _ => false
  end.
Definition is_mixed_bundle (i : item) : bool :=
  match i with
  | Message _ role content _ =>
      str_eqb role (L"developer") && is_contextual_dev_message_content content
      && has_non_contextual_dev_message_content content
  | _ => false
  end.

Lemma turns_app l l' : turns (l ++ l') = turns l + turns l'.
Proof. unfold turns. by rewrite List.filter_app, length_app. Qed.

Lemma turns_cons i l : turns (i :: l) = (if is_user_turn_boundary i then 1 else 0) + turns l.
Proof. unfold turns. cbn. by case_match. Qed.

Lemma context_update_no_boundary (i : item) :
  is_context_update i = true -> is_user_turn_boundary i = false.
Proof.
  destruct i; cbn; try done. unfold str_eqb.
  intros [[Hr _]%andb_true_iff|[Hr Hc]%andb_true_iff]%orb_true_iff;
    apply bool_decide_eq_true in Hr as ->; [done|]. rewrite Hc. done.
Qed.

Lemma context_updates_no_turn (l : list item) :
  Forall (fun i => is_context_update i = true) l -> turns l = 0.
Proof.
  induction 1 as [|i l Hi _ IH]; [done|]. by rewrite turns_cons, (context_update_no_boundary _ Hi).
Qed.

Lemma length_positions idx l : length (positions_from idx l) = turns l.
Proof.
  revert idx. induction l as [|i l IH]; intros idx; [done|].
  cbn [positions_from]. rewrite turns_cons. case_match; cbn [length]; by rewrite IH.
Qed.

(** A position of the list of positions is the boundary between two parts. *)
Lemma positions_lookup l : forall idx n p,
  positions_from idx l !! n = Some p ->
  exists before i after, l = before ++ i :: after /\ p = idx + length before
    /\ is_user_turn_boundary i = true /\ turns before = n.
Proof.
  induction l as [|i l IH]; intros idx n p Hp; [done|].
  cbn [positions_from] in Hp.
  destruct (is_user_turn_boundary i) eqn:E.
  - destruct n as [|n]; cbn in Hp.
    { simplify_eq. exists [], i, l. split_and!; [done|cbn; lia|done|done]. }
    destruct (IH _ _ _ Hp) as (before & j & after & -> & -> & Hj & <-).
    exists (i :: before), j, after. rewrite turns_cons, E. split_and!; [done|cbn; lia|done|done].
  - destruct (IH _ _ _ Hp) as (before & j & after & -> & -> & Hj & <-).
    exists (i :: before), j, after. rewrite turns_cons, E. split_and!; [done|cbn; lia|done|done].
Qed.

(** One step of the walk. *)
Lemma trim_step snapshot first prev i (reference : option TurnContextItem) :
  snapshot !! prev = Some i -> first < S prev ->
  trim_pre_turn_context_updates reference snapshot first (S prev)
  = if is_context_update i
    then trim_pre_turn_context_updates (if is_mixed_bundle i then None else reference)
           snapshot first prev
    else Ok (S prev, reference).
Proof.
  intros Hi Hf. cbn [trim_pre_turn_context_updates]. apply Nat.ltb_lt in Hf as ->.
  unfold index. rewrite Hi. cbn [rbind]. destruct i; try done. cbn.
  destruct (str_eqb role (L"developer") && is_contextual_dev_message_content content); done.
Qed.

(** The walk stops at the first position or at an item it does not trim. *)
Lemma trim_walk snapshot first : forall before after (reference : option TurnContextItem),
  snapshot = before ++ after -> first <= length before ->
  exists kept trimmed,
    before = kept ++ trimmed /\ first <= length kept
    /\ Forall (fun i => is_context_update i = true) trimmed
    /\ (first < length kept -> forall k i, kept = k ++ [i] -> is_context_update i = false)
    /\ trim_pre_turn_context_updates reference snapshot first (length before)
       = Ok (length kept, if existsb is_mixed_bundle trimmed then None else reference).
Proof.
  intros before. induction before as [|i before IH] using rev_ind; intros after reference Hs Hf.
  { exists [], []. split_and!; [done|done|done|by intros ? []|done]. }
  destruct (decide (first <= length before)) as [Hle|Hgt].
  2: { exists (before ++ [i]), []. rewrite app_nil_r. split_and!; [done|done|done| |].
       - rewrite length_app in *. cbn in *. lia.
       - rewrite length_app in *. cbn in *. rewrite Nat.add_1_r. cbn [trim_pre_turn_context_updates].
         by rewrite (proj2 (Nat.ltb_ge _ _)) by lia. }
  assert (snapshot !! length before = Some i) as Hi.
  { rewrite Hs, <- app_assoc. by apply list_lookup_middle. }
  assert (length (before ++ [i]) = S (length before)) as Hlen by (rewrite length_app; cbn; lia).
  rewrite Hlen, (trim_step _ _ _ _ _ Hi) by lia. destruct (is_context_update i) eqn:Eu.
  - rewrite <- app_assoc in Hs.
    destruct (IH _ (if is_mixed_bundle i then None else reference) Hs Hle)
      as (kept & trimmed & -> & Hk & Ht & Hmax & ->).
    exists kept, (trimmed ++ [i]). rewrite app_assoc. split_and!; [done|done| |done|].
    + apply Forall_app_2; [done|]. by constructor.
    + rewrite existsb_app. cbn. by destruct (existsb _ trimmed), (is_mixed_bundle i).
  - exists (before ++ [i]), []. rewrite app_nil_r, Hlen. split_and!; [done|lia|done| |done].
    intros _ k j [_ ->]%app_inj_tail. done.
Qed.

Lemma no_turn_no_boundary l i : turns l = 0 -> i ∈ l -> is_user_turn_boundary i = false.
Proof.
  intros Ht Hi. apply list_elem_of_split in Hi as (l1 & l2 & ->).
  rewrite turns_app, turns_cons in Ht. destruct (is_user_turn_boundary i); [lia|done].
Qed.

(** The first boundary is not after another one. *)
Lemma first_boundary_le (b0 a0 before after : list item) i :
  b0 ++ a0 = before ++ i :: after -> turns b0 = 0 -> is_user_turn_boundary i = true ->
  length b0 <= length before.
Proof.
  intros Heq Ht Hi. destruct (decide (length b0 <= length before)) as [|Hlt]; [done|].
  assert (b0 !! length before = Some i) as Hb.
  { rewrite <- (lookup_app_l b0 a0), Heq by lia. by apply list_lookup_middle. }
  apply list_elem_of_lookup_2, (no_turn_no_boundary _ _ Ht) in Hb. congruence.
Qed.

Lemma drop_last_n_spec (h : manager) num_turns :
  num_turns <> 0%N -> exists kept trimmed dropped,
      items h = kept ++ trimmed ++ dropped
      /\ turns dropped = min (N.to_nat num_turns) (turns (items h))
      /\ (forall i rest, dropped = i :: rest -> is_user_turn_boundary i = true)
      /\ Forall (fun i => is_context_update i = true) trimmed
      /\ (turns kept = 0 -> trimmed = [])
      /\ (turns kept <> 0 -> forall k i, dropped <> [] -> kept = k ++ [i] -> is_context_update i = false)
      /\ drop_last_n_user_turns h num_turns
         = Ok (mkManager _ _ kept (saturating_add (history_version h) 1) (token_info h)
                 (if existsb is_mixed_bundle trimmed then None else reference_context_item h)).
Proof.
  intros Hn. unfold drop_last_n_user_turns.
  rewrite (proj2 (N.eqb_neq _ _)) by done.
  pose proof (length_positions 0 (items h)) as Hlen. unfold user_message_positions in *.
  destruct (positions_from 0 (items h)) as [|first rest] eqn:Epos.
  { exists (items h), [], []. rewrite <- Hlen. cbn in *. split_and!; try done; [by rewrite app_nil_r|lia]. }
  destruct (positions_lookup (items h) 0 0 first) as (b0 & i0 & a0 & E0 & Hfirst & _ & Ht0);
    [by rewrite Epos|]. cbn [Nat.add] in Hfirst.
  rewrite <- Epos, length_positions. set (j := turns (items h) - N.to_nat num_turns).
  destruct (positions_from 0 (items h) !! j) as [cut|] eqn:Ecut.
  2: { apply lookup_ge_None in Ecut. rewrite Epos in Ecut. cbn in *. lia. }
  assert ((if turns (items h) <=? N.to_nat num_turns then Ok first
           else index (positions_from 0 (items h)) j) = Ok (E:=unit) cut) as ->.
  { unfold index. rewrite Ecut. case_match eqn:El; [|done]. apply Nat.leb_le in El.
    assert (j = 0) as Hj by lia. rewrite Hj, Epos in Ecut. by simplify_eq/=. }
  destruct (positions_lookup _ _ _ _ Ecut) as (before & i & after & Eitems & -> & Hi & Htb).
  cbn [rbind Nat.add].
  assert (first <= length before) as Hle
    by (rewrite Hfirst; eapply first_boundary_le; [by rewrite <- E0|done|done]).
  destruct (trim_walk _ first before (i :: after) (reference_context_item h) Eitems Hle)
    as (kept & trimmed & -> & Hk & Htrim & Hmax & ->).
  pose proof (context_updates_no_turn _ Htrim) as Ht. rewrite turns_app, Ht, Nat.add_0_r in Htb.
  exists kept, trimmed, (i :: after). rewrite app_assoc. split_and!; [done| |by intros ? ? [= <-]|done|..].
  - pose proof (f_equal turns Eitems) as Hsum. rewrite !turns_app, Ht in Hsum. lia.
  - intros Hzero. rewrite Htb in Hzero. rewrite Hzero, Epos in Ecut. cbn in Ecut.
    injection Ecut as Hcut. rewrite length_app in Hcut. apply length_zero_iff_nil. lia.
  - intros Hne k x _ Hkx. refine (Hmax _ k x Hkx).
    destruct (decide (length b0 = length kept)) as [Hb|]; [|lia]. destruct Hne.
    rewrite E0, <- app_assoc in Eitems. by apply app_inj_1 in Eitems as [<- _].
  - assert (length kept <= length (items h)) as Hkl by (rewrite Eitems, !length_app; lia).
    cbn [rbind]. rewrite (proj2 (Nat.leb_le _ _) Hkl). unfold replace, bump, with_items, set_reference_context_item.
    cbn. do 2 f_equal. by rewrite Eitems, <- app_assoc, take_app_length.
Qed.

(** Rollback.  Dropping zero turns does nothing.  Otherwise the history loses
    a suffix and nothing else: as many turns as asked for, or all of
    them, from the message that opened the earliest of them; and the injected context messages right
    before that message, all of them, but never one that precedes the first turn of
    the conversation.  The baseline for context updates is cleared just when one of those messages
    held more than context, and the version of the history moves. *)
Theorem rollback_drops_turns (h : manager) num_turns :
  (num_turns = 0%N -> drop_last_n_user_turns h num_turns = Ok h)
  /\ (num_turns <> 0%N -> exists kept trimmed dropped,
      items h = kept ++ trimmed ++ dropped
      /\ turns dropped = min (N.to_nat num_turns) (turns (items h))
      /\ (forall i rest, dropped = i :: rest -> is_user_turn_boundary i = true)
      /\ Forall (fun i => is_context_update i = true) trimmed
      /\ (turns kept = 0 -> trimmed = [])
      /\ (turns kept <> 0 -> forall k i, dropped <> [] -> kept = k ++ [i] -> is_context_update i = false)
      /\ drop_last_n_user_turns h num_turns
         = Ok (mkManager _ _ kept (saturating_add (history_version h) 1) (token_info h)
                 (if existsb is_mixed_bundle trimmed then None else reference_context_item h))).
Proof. split; [by intros ->|apply drop_last_n_spec]. Qed.
End rollback.

(** A conversation of two turns, the second preceded by a context update. *)
#[local] Instance plain_texts : Deserializers :=
  {| from_xml_str := fun _ => None; from_inter_agent_json := fun _ => None |}.

Definition says (role text : str) : ResponseItem unit := Message None role [InputText text] None.
Definition two_turns : list (ResponseItem unit) :=
  [says (L"developer") (L"<personality_spec>"); says (L"user") (L"hi"); says (L"assistant") (L"hello");
   says (L"developer") (L"<model_switch> b"); says (L"user") (L"bye"); says (L"assistant") (L"ok")].

Example rollback_examples :
  drop_last_n_user_turns (mkManager unit unit two_turns 0 None (Some tt)) 1
  = Ok (mkManager unit unit (take 3 two_turns) 1 None (Some tt))
  /\ drop_last_n_user_turns (mkManager unit unit two_turns 0 None (Some tt)) 7
     = Ok (mkManager unit unit (take 1 two_turns) 1 None (Some tt)).
Proof. split; vm_compute; reflexivity. Qed.

Lemma rollback_drops_turns_witness :
  exists kept trimmed dropped, two_turns = kept ++ trimmed ++ dropped /\ turns dropped = 1.
Proof.
  destruct (proj2 (rollback_drops_turns (mkManager unit unit two_turns 0 None (Some tt)) 1))
    as (kept & trimmed & dropped & Hitems & Hturns & _); [discriminate|].
  exists kept, trimmed, dropped. split; [exact Hitems|]. rewrite Hturns. vm_compute. reflexivity.
Defined.

(** ** Recording *)

Section recording.
Context {Json TurnContextItem : Type}.
Abbreviation item := (ResponseItem Json).
Abbreviation manager := (ContextManager Json TurnContextItem).

(** What recording may change of an item: the body of a tool output. *)
Definition recorded_as (policy : TruncationPolicy) (i processed : item) : Prop :=
  match i with
  | FunctionCallOutput call_id output =>
      exists output', processed = FunctionCallOutput call_id output'
        /\ success output' = success output
        /\ truncate_function_output_payload output (mul policy f64_1_2) = Ok output'
  | CustomToolCallOutput call_id name output =>
      exists output', processed = CustomToolCallOutput call_id name output'
        /\ success output' = success output
        /\ truncate_function_output_payload output (mul policy f64_1_2) = Ok output'
  | _ => processed = i
  end.

Lemma recorded_as_keys policy i processed :
  recorded_as policy i processed ->
  call_key processed = call_key i /\ output_key processed = output_key i.
Proof. destruct i; cbn; try (by intros ->); by intros (? & -> & _). Qed.

Lemma not_api_message_keys (i : item) :
  is_api_message i = false -> call_key i = None /\ output_key i = None.
Proof. by destruct i. Qed.

Lemma truncate_payload_total output policy :
  exists output', truncate_function_output_payload output policy = Ok output'
    /\ success output' = success output.
Proof.
  destruct output as [[content|l] s]; unfold truncate_function_output_payload; cbn [body].
  - destruct (truncate_text_total content policy) as [t ->]. cbn. eauto.
  - destruct (truncate_items_total l policy) as [l' ->]. cbn. eauto.
Qed.

Lemma process_item_total (i : item) policy :
  exists processed, process_item i policy = Ok processed /\ recorded_as policy i processed.
Proof.
  destruct i; cbn in *; eauto;
    destruct (truncate_payload_total output (mul policy f64_1_2)) as (output' & E & Hs);
    rewrite E; cbn; eauto 6.
Qed.

(** Recording.  [record_items] never fails; it appends, in order, the items
    the API knows (no system message, no unknown item) and touches nothing else of the
    history.  What it appends is what it was given, except that the body of a tool
    output is truncated to 1.2 times the policy; so the pairing of calls and outputs
    is that of the items given. *)
Theorem record_items_appends (h : manager) new_items policy :
  exists recorded,
    record_items h new_items policy = Ok (with_items h (items h ++ recorded))
    /\ Forall2 (recorded_as policy) (List.filter is_api_message new_items) recorded
    /\ calls recorded = calls new_items /\ outputs recorded = outputs new_items.
Proof.
  revert h. induction new_items as [|i new_items IH]; intros h.
  { exists []. split_and!; [|constructor|done|done]. cbn. unfold with_items. by rewrite app_nil_r; destruct h. }
  cbn [record_items List.filter]. destruct (is_api_message i) eqn:Ei.
  - destruct (process_item_total i policy) as (processed & -> & Hp). cbn [rbind].
    destruct (IH (with_items h (items h ++ [processed]))) as (recorded & -> & Hrec & Hc & Ho).
    exists (processed :: recorded). unfold with_items; cbn [items history_version token_info reference_context_item].
    destruct (recorded_as_keys _ _ _ Hp) as [Hck Hok].
    rewrite <- app_assoc. unfold calls, outputs in *. cbn [omap list_omap].
    rewrite Hck, Hok, Hc, Ho. split_and!; [done|by constructor|done|done].
  - destruct (IH h) as (recorded & -> & Hrec & Hc & Ho). exists recorded.
    destruct (not_api_message_keys _ Ei) as [Hck Hok]. unfold calls, outputs in *.
    cbn [omap list_omap]. by rewrite Hck, Hok.
Qed.
End recording.
