(* ===== verification/TokenEstimate.v ===== *)
(** * Token estimates (core/src/context_manager/history.rs)

    The client estimates how much of the model's context window the items
    recorded since the last response take.  Estimates are [i64] with saturating
    arithmetic.  The length of an item's JSON and the dimensions of an encoded
    image come from crates outside the repository and are arguments; the cache
    in front of the image decoder returns what the decoder returned and is left
    out. *)

From S2P Require Import Prelude RustStr OutputTruncation ConversationItems HistoryNormalize ContextManager.

(** [serde_json::to_string(item)], its length; base64 decoding followed by
    [image::load_from_memory], the width and height ([u32]). *)
Class Estimators (Json : Type) := {
  serialized_len : ResponseItem Json -> option N;
  image_dimensions : str -> option (N * N) }.

Definition RESIZED_IMAGE_BYTES_ESTIMATE : Z := 7373.
Definition ORIGINAL_IMAGE_PATCH_SIZE : Z := 32.
Definition ORIGINAL_IMAGE_MAX_PATCHES : N := 10000.

Definition COMMA : char := 44%N.
Definition SEMICOLON : char := 59%N.

Definition estimate_reasoning_length (encoded_len : N) : N :=
  (saturating_mul encoded_len 3 / 4 - 650)%N.

(** Slicing [metadata] past [data:] panics off a boundary. *)
Definition parse_base64_image_data_url (url : str) : result unit (option str) :=
  if negb (is_some_and (get_to 5 url) (fun prefix => eq_ignore_ascii_case prefix (L"data:")))
  then Ok None
  else
    match split_once COMMA url with
    | None => Ok None
    | Some (metadata, payload) =>
        match get_from 5 metadata with
        | None => Panic
        | Some metadata_without_scheme =>
            match split_char SEMICOLON metadata_without_scheme with
            | [] => Ok None
            | mime_type :: metadata_parts =>
                let has_base64_marker :=
                  existsb (fun part => eq_ignore_ascii_case part (L"base64")) metadata_parts in
                if negb (is_some_and (get_to 6 mime_type)
                           (fun prefix => eq_ignore_ascii_case prefix (L"image/")))
                then Ok None
                else if negb has_base64_marker then Ok None
                else Ok (Some payload)
            end
        end
    end.

Section estimates.
Context {Json TurnContextItem : Type} `{Estimators Json} `{Deserializers}.
Abbreviation item := (ResponseItem Json).
Abbreviation manager := (ContextManager Json TurnContextItem).

Definition estimate_original_image_bytes (image_url : str) : result unit (option Z) :=
  let? parsed := parse_base64_image_data_url image_url in
  match parsed with
  | None => Ok None
  | Some payload =>
      match image_dimensions payload with
      | None => Ok None
      | Some (w, h) =>
          let width := Z.of_N w in
          let height := Z.of_N h in
          let patch_size := ORIGINAL_IMAGE_PATCH_SIZE in
          let patches_wide :=
            (i64_saturating_add width (i64_saturating_sub patch_size 1) / patch_size)%Z in
          let patches_high :=
            (i64_saturating_add height (i64_saturating_sub patch_size 1) / patch_size)%Z in
          let patch_count := i64_saturating_mul patches_wide patches_high in
          let patch_count := if (patch_count <? 0)%Z then usize_max else Z.to_N patch_count in
          let patch_count := N.min patch_count ORIGINAL_IMAGE_MAX_PATCHES in
          Ok (Some (i64_of_usize (approx_bytes_for_tokens patch_count)))
      end
  end.

(** The closure [accumulate]; its two accumulators are the pair. *)
Definition accumulate (acc : Z * Z) (image_url : str) (detail : option ImageDetail)
  : result unit (Z * Z) :=
  let '(payload_bytes, replacement_bytes) := acc in
  let? parsed := parse_base64_image_data_url image_url in
  match parsed with
  | None => Ok acc
  | Some payload =>
      let? estimate :=
        match detail with
        | Some Original =>
            let? e := estimate_original_image_bytes image_url in
            Ok (default RESIZED_IMAGE_BYTES_ESTIMATE e)
        | _ => Ok RESIZED_IMAGE_BYTES_ESTIMATE
        end in
      Ok (i64_saturating_add payload_bytes (i64_of_usize (str_len payload)),
          i64_saturating_add replacement_bytes estimate)
  end.

Fixpoint accumulate_content (acc : Z * Z) (content : list ContentItem) : result unit (Z * Z) :=
  match content with
  | [] => Ok acc
  | InputImage image_url detail :: rest =>
      let? acc := accumulate acc image_url detail in accumulate_content acc rest
  | _ :: rest => accumulate_content acc rest
  end.

Fixpoint accumulate_output (acc : Z * Z) (l : list FunctionCallOutputContentItem)
  : result unit (Z * Z) :=
  match l with
  | [] => Ok acc
  | OutInputImage image_url detail :: rest =>
      let? acc := accumulate acc image_url detail in accumulate_output acc rest
  | OutInputText _ :: rest => accumulate_output acc rest
  end.

Definition image_data_url_estimate_adjustment (i : item) : result unit (Z * Z) :=
  match i with
  | Message _ _ content _ => accumulate_content (0, 0)%Z content
  | FunctionCallOutput _ output | CustomToolCallOutput _ _ output =>
      match body output with
      | ContentItems l => accumulate_output (0, 0)%Z l
      | Text _ => Ok (0, 0)%Z
      end
  | _ => Ok (0, 0)%Z
  end.

Definition estimate_response_item_model_visible_bytes (i : item) : result unit Z :=
  match i with
  | Reasoning _ _ _ (Some content) | Compaction content | ContextCompaction (Some content) =>
      Ok (i64_of_usize (estimate_reasoning_length (str_len content)))
  | _ =>
      let raw := match serialized_len i with Some n => i64_of_usize n | None => 0%Z end in
      let? (payload_bytes, replacement_bytes) := image_data_url_estimate_adjustment i in
      Ok (if (payload_bytes =? 0)%Z || (replacement_bytes =? 0)%Z then raw
          else i64_saturating_add (i64_saturating_sub raw payload_bytes) replacement_bytes)
  end.

Definition estimate_item_token_count (i : item) : result unit Z :=
  let? model_visible_bytes := estimate_response_item_model_visible_bytes i in
  Ok (approx_tokens_from_byte_count_i64 model_visible_bytes).

(** [.map(f).fold(0i64, i64::saturating_add)] *)
Fixpoint sum_from (acc : Z) (f : item -> result unit Z) (l : list item) : result unit Z :=
  match l with
  | [] => Ok acc
  | i :: rest => let? n := f i in sum_from (i64_saturating_add acc n) f rest
  end.

Definition estimate_token_count_with_base_instructions (h : manager) (base_instructions : str)
  : result unit (option Z) :=
  let base_tokens := i64_of_usize (approx_token_count base_instructions) in
  let? items_tokens := sum_from 0 estimate_item_token_count (items h) in
  Ok (Some (i64_saturating_add base_tokens items_tokens)).

Definition has_encrypted_content (i : item) : bool :=
  match i with Reasoning _ _ _ (Some _) => true | _ => false end.

Definition get_non_last_reasoning_items_tokens (h : manager) : result unit Z :=
  match rposition is_user_turn_boundary (items h) with
  | None => Ok 0%Z
  | Some last_user_index =>
      sum_from 0 estimate_item_token_count
        (List.filter has_encrypted_content (take last_user_index (items h)))
  end.

Definition items_after_last_model_generated_item (h : manager) : list item :=
  let start := match rposition is_model_generated_item (items h) with
               | Some n => S n
               | None => length (items h)
               end in
  drop start (items h).

Definition get_total_token_usage (h : manager) (server_reasoning_included : bool)
  : result unit Z :=
  let last_tokens :=
    match token_info h with Some info => total_tokens (last_token_usage info) | None => 0%Z end in
  let? items_after := sum_from 0 estimate_item_token_count (items_after_last_model_generated_item h) in
  if server_reasoning_included then Ok (i64_saturating_add last_tokens items_after)
  else
    let? reasoning := get_non_last_reasoning_items_tokens h in
    Ok (i64_saturating_add (i64_saturating_add last_tokens reasoning) items_after).

Record TotalTokenUsageBreakdown := mkBreakdown {
  last_api_response_total_tokens : Z;
  all_history_items_model_visible_bytes : Z;
  estimated_tokens_of_items_added : Z;
  estimated_bytes_of_items_added : Z }.

Definition get_total_token_usage_breakdown (h : manager) : result unit TotalTokenUsageBreakdown :=
  let last_usage :=
    match token_info h with Some info => last_token_usage info | None => default_usage end in
  let added := items_after_last_model_generated_item h in
  let? all_bytes := sum_from 0 estimate_response_item_model_visible_bytes (items h) in
  let? added_tokens := sum_from 0 estimate_item_token_count added in
  let? added_bytes := sum_from 0 estimate_response_item_model_visible_bytes added in
  Ok (mkBreakdown (total_tokens last_usage) all_bytes added_tokens added_bytes).
End estimates.

(** ** Data URLs *)

Lemma split_at_byte_Some s : forall n a b,
  split_at_byte n s = Some (a, b) <-> s = a ++ b /\ str_len a = n.
Proof.
  induction s as [|c s IH]; intros n a b; cbn [split_at_byte].
  - case_match eqn:E; split; intros Hab.
    + injection Hab as <- <-. split; [done|]. by apply N.eqb_eq in E as ->.
    + destruct Hab as [[-> ->]%eq_sym%app_eq_nil _]. done.
    + done.
    + destruct Hab as [[-> ->]%eq_sym%app_eq_nil Hn]. apply N.eqb_neq in E. by destruct E.
  - pose proof (char_len_pos c) as Hc. destruct (n =? 0)%N eqn:E.
    + apply N.eqb_eq in E as ->. split.
      * intros [= <- <-]. done.
      * intros [Hs Ha]. destruct a as [|c' a]; [by simplify_list_eq|].
        pose proof (char_len_pos c'). rewrite str_len_cons in Ha. lia.
    + apply N.eqb_neq in E. destruct (char_len c <=? n)%N eqn:El.
      * split.
        -- intros Hab. destruct (split_at_byte (n - char_len c) s) as [[a' b']|] eqn:Er; [|done].
           cbn in Hab. simplify_eq. apply IH in Er as [-> Hl]. split; [done|].
           rewrite str_len_cons. lia.
        -- intros [Hs Ha]. destruct a as [|c' a]; [by rewrite str_len_nil in Ha|].
           cbn in Hs. injection Hs as -> ->. rewrite str_len_cons in Ha.
           rewrite (proj2 (IH _ a b)); [done|]. split; [done|lia].
      * split; [done|]. intros [Hs Ha]. destruct a as [|c' a]; [by rewrite str_len_nil in Ha|].
        cbn in Hs. injection Hs as -> ->. rewrite str_len_cons in Ha. lia.
Qed.

Lemma get_to_Some n s a : get_to n s = Some a <-> exists b, s = a ++ b /\ str_len a = n.
Proof.
  unfold get_to. rewrite fmap_Some. split.
  - intros ([a' b] & E & ->). exists b. by apply split_at_byte_Some.
  - intros (b & E). exists (a, b). by rewrite split_at_byte_Some.
Qed.

(** A prefix recognised in any case holds the letters of the marker. *)
Lemma eq_ignore_ascii_case_no_char (c : char) a b :
  eq_ignore_ascii_case a b = true -> to_ascii_lowercase_char c = c ->
  c ∉ to_ascii_lowercase b -> c ∉ a.
Proof.
  unfold eq_ignore_ascii_case, str_eqb. intros Heq%bool_decide_eq_true Hc Hb Ha.
  apply Hb. rewrite <- Heq. apply list_elem_of_fmap. by exists c.
Qed.

Lemma prefix_before_sep (sep : char) p r a b :
  p ++ r = a ++ sep :: b -> sep ∉ p -> exists m, a = p ++ m.
Proof.
  intros Heq Hp. destruct (prefix_weak_total p a (p ++ r)) as [[m ->]|[m ->]]; [by exists r|by exists (sep :: b)| |].
  - by exists m.
  - rewrite <- app_assoc in Heq. apply app_inv_head in Heq. destruct m as [|c m].
    + exists []. by rewrite !app_nil_r.
    + cbn in Heq. injection Heq as -> _. destruct Hp. set_solver.
Qed.

(** The shape of the URLs whose payload is discounted. *)
Definition image_data_url (url payload : str) : Prop :=
  exists scheme mime parts,
    url = scheme ++ join [SEMICOLON] (mime :: parts) ++ COMMA :: payload
    /\ eq_ignore_ascii_case scheme (L"data:") = true
    /\ is_some_and (get_to 6 mime) (fun p => eq_ignore_ascii_case p (L"image/")) = true
    /\ existsb (fun part => eq_ignore_ascii_case part (L"base64")) parts = true
    /\ COMMA ∉ scheme ++ join [SEMICOLON] (mime :: parts).

Lemma parse_base64_total url :
  exists o, parse_base64_image_data_url url = Ok o
            /\ forall payload, o = Some payload -> image_data_url url payload.
Proof.
  unfold parse_base64_image_data_url.
  destruct (get_to 5 url) as [scheme|] eqn:Es; cbn [is_some_and]; [|by eexists].
  destruct (eq_ignore_ascii_case scheme (L"data:")) eqn:Ed; [|by eexists]. cbn [negb].
  destruct (split_once COMMA url) as [[metadata payload]|] eqn:Eo; [|by eexists].
  apply split_once_Some in Eo as [Hurl Hcomma].
  apply get_to_Some in Es as (rest & Hurl' & Hlen).
  destruct (prefix_before_sep COMMA scheme rest metadata payload) as [m ->]; [congruence| |].
  { eapply eq_ignore_ascii_case_no_char; [done|done|]. vm_compute. set_solver. }
  assert (get_from 5 (scheme ++ m) = Some m) as ->.
  { unfold get_from. by rewrite (proj2 (split_at_byte_Some _ 5 scheme m)). }
  pose proof (join_split_char SEMICOLON m) as Hjoin.
  destruct (split_char SEMICOLON m) as [|mime parts]; [by eexists|].
  repeat (case_match; [by eexists|]). eexists. split; [done|]. intros p [= <-].
  exists scheme, mime, parts. rewrite Hjoin. rewrite negb_false_iff in *.
  rewrite app_assoc. done.
Qed.

(** ** Bounds of the estimates *)

Lemma clamp_in_i64 z : in_i64 (clamp_i64 z).
Proof. unfold in_i64, clamp_i64, i64_min, i64_max. lia. Qed.

Lemma i64_of_usize_bounds n : (0 <= i64_of_usize n <= i64_max)%Z.
Proof. unfold i64_of_usize, i64_max. lia. Qed.

Lemma saturating_add_nonneg a b :
  (0 <= a)%Z -> (0 <= b)%Z -> i64_saturating_add a b = Z.min i64_max (a + b).
Proof. intros Ha Hb. unfold i64_saturating_add, clamp_i64, i64_min, i64_max. lia. Qed.

Lemma approx_tokens_bounds bytes : (0 <= approx_tokens_from_byte_count_i64 bytes <= i64_max)%Z.
Proof. unfold approx_tokens_from_byte_count_i64, i64_max. case_match; lia. Qed.

Section bounds.
Context {Json TurnContextItem : Type} `{Estimators Json} `{Deserializers}.
Abbreviation item := (ResponseItem Json).
Abbreviation manager := (ContextManager Json TurnContextItem).

Lemma accumulate_total acc url detail : exists acc', accumulate acc url detail = Ok acc'.
Proof.
  destruct acc as [p r]. unfold accumulate, estimate_original_image_bytes.
  destruct (parse_base64_total url) as ([payload|] & -> & _); cbn [rbind]; [|eauto].
  destruct detail as [[]|]; cbn; eauto. destruct (image_dimensions payload) as [[]|]; cbn; eauto.
Qed.

Lemma adjustment_total (i : item) : exists acc, image_data_url_estimate_adjustment i = Ok acc.
Proof.
  assert (forall l acc, exists acc', accumulate_content acc l = Ok acc') as Hc.
  { induction l as [|[] l IH]; intros acc; cbn; eauto.
    destruct (accumulate_total acc image_url detail) as [acc' ->]. cbn. apply IH. }
  assert (forall l acc, exists acc', accumulate_output acc l = Ok acc') as Ho.
  { induction l as [|[] l IH]; intros acc; cbn; eauto.
    destruct (accumulate_total acc image_url detail) as [acc' ->]. cbn. apply IH. }
  destruct i; cbn; eauto; destruct (body output); eauto.
Qed.

Lemma visible_bytes_total (i : item) :
  exists z, estimate_response_item_model_visible_bytes i = Ok z /\ in_i64 z.
Proof.
  assert (forall n, in_i64 (i64_of_usize n)) as Hn
    by (intros n; pose proof (i64_of_usize_bounds n); unfold in_i64, i64_min, i64_max in *; lia).
  assert (exists z, (let raw := match serialized_len i with Some n => i64_of_usize n | None => 0%Z end in
      let? (payload_bytes, replacement_bytes) := image_data_url_estimate_adjustment i in
      Ok (E:=unit) (if (payload_bytes =? 0)%Z || (replacement_bytes =? 0)%Z then raw
          else i64_saturating_add (i64_saturating_sub raw payload_bytes) replacement_bytes)) = Ok z
      /\ in_i64 z) as Hgeneral.
  { destruct (adjustment_total i) as [[p r] ->]. cbn [rbind]. eexists. split; [done|].
    case_match; [|apply clamp_in_i64]. case_match; [apply Hn|]. unfold in_i64, i64_min, i64_max. lia. }
  destruct i; try exact Hgeneral; try (destruct encrypted_content; [|exact Hgeneral]); cbn; eauto.
Qed.

(** The cost of an item, as [estimate_item_token_count] finds it. *)
Definition item_tokens (i : item) : Z :=
  match estimate_item_token_count i with Ok z => z | _ => 0%Z end.

Lemma item_tokens_spec i :
  estimate_item_token_count i = Ok (item_tokens i) /\ (0 <= item_tokens i <= i64_max)%Z.
Proof.
  unfold item_tokens, estimate_item_token_count.
  destruct (visible_bytes_total i) as (z & -> & _). cbn [rbind].
  split; [done|apply approx_tokens_bounds].
Qed.

Definition tokens_of (l : list item) : Z := foldr (fun i total => item_tokens i + total)%Z 0%Z l.

Lemma tokens_of_nonneg l : (0 <= tokens_of l)%Z.
Proof.
  unfold tokens_of. induction l as [|i l IH]; cbn [foldr]; [lia|].
  pose proof (item_tokens_spec i). lia.
Qed.

Lemma sum_from_exact l : forall acc,
  (0 <= acc)%Z ->
  sum_from acc estimate_item_token_count l = Ok (if is_nil l then acc else Z.min i64_max (acc + tokens_of l)).
Proof.
  induction l as [|i l IH]; intros acc Hacc; [done|]. cbn [sum_from is_nil tokens_of foldr].
  destruct (item_tokens_spec i) as [-> Hi]. cbn [rbind].
  rewrite saturating_add_nonneg, IH by (unfold i64_max in *; lia).
  pose proof (tokens_of_nonneg l). unfold tokens_of in *.
  destruct l; cbn [is_nil foldr] in *; f_equal; lia.
Qed.

Lemma sum_items_exact l : sum_from 0 estimate_item_token_count l = Ok (Z.min i64_max (tokens_of l)).
Proof. rewrite sum_from_exact by lia. by destruct l. Qed.

Lemma rposition_spec (p : item -> bool) l :
  match rposition p l with
  | Some n => exists before i after, l = before ++ i :: after /\ n = length before /\ p i = true
                /\ Forall (fun j => p j = false) after
  | None => Forall (fun j => p j = false) l
  end.
Proof.
  induction l as [|i l IH]; [constructor|]. cbn [rposition].
  destruct (rposition p l) as [n|].
  - destruct IH as (before & j & after & -> & -> & Hj & Hafter). by exists (i :: before), j, after.
  - destruct (p i) eqn:E; [|by constructor]. by exists [], i, l.
Qed.

(** What is counted: the items after the last one the model emitted; the encrypted
    reasoning before the last turn boundary. *)
Definition added_items (h : manager) (added : list item) : Prop :=
  (exists before i, items h = before ++ i :: added /\ is_model_generated_item i = true
     /\ Forall (fun j => is_model_generated_item j = false) added)
  \/ (added = [] /\ Forall (fun j => is_model_generated_item j = false) (items h)).
Definition past_reasoning (h : manager) (reasoning : list item) : Prop :=
  (exists before i after, items h = before ++ i :: after /\ is_user_turn_boundary i = true
     /\ Forall (fun j => is_user_turn_boundary j = false) after
     /\ reasoning = List.filter has_encrypted_content before)
  \/ (reasoning = [] /\ Forall (fun j => is_user_turn_boundary j = false) (items h)).

Lemma added_items_spec h : added_items h (items_after_last_model_generated_item h).
Proof.
  unfold items_after_last_model_generated_item.
  pose proof (rposition_spec is_model_generated_item (items h)) as Hp.
  destruct (rposition is_model_generated_item (items h)) as [n|].
  - destruct Hp as (before & i & after & E & -> & Hi & Hafter). left. exists before, i.
    rewrite E, cons_middle, app_assoc. rewrite drop_app_length' by (rewrite length_app; cbn; lia).
    by rewrite <- app_assoc.
  - right. by rewrite drop_ge.
Qed.

Lemma past_reasoning_spec h :
  exists reasoning, past_reasoning h reasoning
    /\ get_non_last_reasoning_items_tokens h = Ok (Z.min i64_max (tokens_of reasoning)).
Proof.
  unfold get_non_last_reasoning_items_tokens.
  pose proof (rposition_spec is_user_turn_boundary (items h)) as Hp.
  destruct (rposition is_user_turn_boundary (items h)) as [n|].
  - destruct Hp as (before & i & after & E & -> & Hi & Hafter).
    exists (List.filter has_encrypted_content before). split; [left; by exists before, i, after|].
    rewrite sum_items_exact, E. by rewrite take_app_length.
  - exists []. split; [by right|]. done.
Qed.

(** The tokens the server reported for the last response. *)
Definition reported (h : manager) : Z :=
  match token_info h with Some info => total_tokens (last_token_usage info) | None => 0%Z end.

(** Token accounting.  The estimate of every item exists and is an [i64] that is not
    negative, whatever the item holds.  The total of a conversation is what the
    server reported for the last response plus the estimates of the items recorded
    after the last item the model emitted, plus, unless the server counted them,
    those of the encrypted reasoning before the last turn; it stops at [i64::MAX]
    instead of overflowing. *)
Theorem total_token_usage_exact (h : manager) :
  (0 <= reported h <= i64_max)%Z ->
  (forall i, estimate_item_token_count i = Ok (item_tokens i) /\ 0 <= item_tokens i <= i64_max)%Z
  /\ exists added reasoning,
      added_items h added /\ past_reasoning h reasoning
      /\ get_total_token_usage h true = Ok (Z.min i64_max (reported h + tokens_of added))
      /\ get_total_token_usage h false
         = Ok (Z.min i64_max (reported h + tokens_of reasoning + tokens_of added)).
Proof.
  intros Hrep. split; [intros i; apply item_tokens_spec|].
  destruct (past_reasoning_spec h) as (reasoning & Hr & Htok).
  exists (items_after_last_model_generated_item h), reasoning.
  pose proof (tokens_of_nonneg reasoning). pose proof (added_items_spec h).
  pose proof (tokens_of_nonneg (items_after_last_model_generated_item h)).
  split_and!; [done|done|..]; unfold get_total_token_usage; rewrite sum_items_exact; cbn [rbind].
  - change (match token_info h with Some _ => _ | None => _ end) with (reported h).
    rewrite saturating_add_nonneg by (unfold i64_max in *; lia). f_equal. lia.
  - rewrite Htok. cbn [rbind].
    change (match token_info h with Some _ => _ | None => _ end) with (reported h).
    rewrite (saturating_add_nonneg (reported h)), saturating_add_nonneg by (unfold i64_max in *; lia). f_equal. lia.
Qed.
End bounds.

#[local] Instance text_estimators : Estimators unit :=
  {| serialized_len := fun _ => Some 100%N; image_dimensions := fun _ => None |}.

Lemma total_token_usage_exact_witness :
  exists added reasoning,
    added_items (mkManager unit unit one_pair 0 None None) added
    /\ get_total_token_usage (H0 := plain_texts) (mkManager unit unit one_pair 0 None None) false
       = Ok (Z.min i64_max (0 + tokens_of reasoning + tokens_of added)).
Proof.
  destruct (total_token_usage_exact (H0 := plain_texts) (mkManager unit unit one_pair 0 None None))
    as (_ & added & reasoning & Hadded & _ & _ & Htotal).
  - vm_compute. split; discriminate.
  - exists added, reasoning. split; [exact Hadded|exact Htotal].
Defined.
