(* ===== verification/NetworkHosts.v ===== *)
(** * Hosts and domain patterns of the network proxy (network-proxy/src/policy.rs)

    Addresses are the integers of their bits, a [u32] or a [u128]; the
    classification methods and the address parser of [std::net] are written
    out.  The globs of the [globset] crate and the host parser of the [url] crate are
    arguments. *)

From S2P Require Import Prelude RustStr.

(** ** std::net *)

Inductive IpAddr :=
  | V4 (bits : N)
  | V6 (bits : N).

(** Byte [i] of an IPv4 address, group [i] of an IPv6 address, from the left. *)
Definition octet (i : N) (ip : N) : N := N.land (N.shiftr ip (8 * (3 - i))) 255.
Definition segment (i : N) (ip : N) : N := N.land (N.shiftr ip (16 * (7 - i))) 65535.

Definition from_octets (a b c d : N) : N := (((a * 256 + b) * 256 + c) * 256 + d)%N.

Definition v4_is_loopback (ip : N) : bool := (octet 0 ip =? 127)%N.
Definition v4_is_private (ip : N) : bool :=
  (octet 0 ip =? 10)%N
  || (octet 0 ip =? 172)%N && (16 <=? octet 1 ip)%N && (octet 1 ip <=? 31)%N
  || (octet 0 ip =? 192)%N && (octet 1 ip =? 168)%N.
Definition v4_is_link_local (ip : N) : bool := (octet 0 ip =? 169)%N && (octet 1 ip =? 254)%N.
Definition v4_is_unspecified (ip : N) : bool := (ip =? 0)%N.
Definition v4_is_multicast (ip : N) : bool := (224 <=? octet 0 ip)%N && (octet 0 ip <=? 239)%N.
Definition v4_is_broadcast (ip : N) : bool := (ip =? 2 ^ 32 - 1)%N.

Definition v6_is_loopback (ip : N) : bool := (ip =? 1)%N.
Definition v6_is_unspecified (ip : N) : bool := (ip =? 0)%N.
Definition v6_is_multicast (ip : N) : bool := (N.land (segment 0 ip) 65280 =? 65280)%N.
Definition v6_is_unique_local (ip : N) : bool := (N.land (segment 0 ip) 65024 =? 64512)%N.
Definition v6_is_unicast_link_local (ip : N) : bool := (N.land (segment 0 ip) 65472 =? 65152)%N.

(** [Ipv6Addr::to_ipv4]: the addresses [::a.b.c.d] and [::ffff:a.b.c.d]. *)
Definition to_ipv4 (ip : N) : option N :=
  if (segment 0 ip =? 0)%N && (segment 1 ip =? 0)%N && (segment 2 ip =? 0)%N
     && (segment 3 ip =? 0)%N && (segment 4 ip =? 0)%N
     && ((segment 5 ip =? 0)%N || (segment 5 ip =? 65535)%N)
  then Some (segment 6 ip * 65536 + segment 7 ip)%N
  else None.

Definition ip_is_loopback (ip : IpAddr) : bool :=
  match ip with V4 b => v4_is_loopback b | V6 b => v6_is_loopback b end.

(** *** Parsing of addresses: a reader takes a text to a value and the rest *)

Definition DOT : char := 46%N.
Definition COLON : char := 58%N.

Definition to_digit (radix : N) (c : char) : option N :=
  let d := if is_ascii_digit c then Some (c - 48)%N
           else if ((97 <=? c) && (c <=? 102))%N then Some (c - 87)%N
           else if ((65 <=? c) && (c <=? 70))%N then Some (c - 55)%N
           else None in
  match d with Some d => if (d <? radix)%N then Some d else None | None => None end.

Fixpoint read_digits (radix : N) (max_digits count : nat) (acc : N) (s : str)
  : option (N * nat * str) :=
  match s with
  | c :: rest =>
      match to_digit radix c with
      | Some d =>
          if max_digits <? S count then None
          else read_digits radix max_digits (S count) (acc * radix + d) rest
      | None => Some (acc, count, s)
      end
  | [] => Some (acc, count, [])
  end.

Definition starts_with_zero (s : str) : bool :=
  match s with c :: _ => (c =? 48)%N | [] => false end.

Definition read_number (radix : N) (max_digits : nat) (allow_zero_prefix : bool) (limit : N) (s : str)
  : option (N * str) :=
  match read_digits radix max_digits 0 0 s with
  | None => None
  | Some (value, count, rest) =>
      if count =? 0 then None
      else if negb allow_zero_prefix && starts_with_zero s && (1 <? count) then None
      else if (value <=? limit)%N then Some (value, rest)
      else None
  end.

Definition read_given_char (c : char) (s : str) : option str :=
  match s with c' :: rest => if (c =? c')%N then Some rest else None | [] => None end.

(** [read_separator]: the separator comes before every element but the first. *)
Definition read_separator {A} (sep : char) (index : nat) (inner : str -> option (A * str)) (s : str)
  : option (A * str) :=
  if 0 <? index then match read_given_char sep s with Some rest => inner rest | None => None end
  else inner s.

Definition read_octet (i : nat) (s : str) : option (N * str) :=
  read_separator DOT i (read_number 10 3 false 255) s.

Definition read_ipv4_addr (s : str) : option (N * str) :=
  match read_octet 0 s with
  | None => None
  | Some (a, s) =>
      match read_octet 1 s with
      | None => None
      | Some (b, s) =>
          match read_octet 2 s with
          | None => None
          | Some (c, s) =>
              match read_octet 3 s with
              | None => None
              | Some (d, s) => Some (from_octets a b c d, s)
              end
          end
      end
  end.

(** [read_groups] with [left] slots to go: the groups, whether an IPv4 address
    ended them, and the rest. *)
Fixpoint read_groups (left i : nat) (s : str) : list N * bool * str :=
  match left with
  | 0 => ([], false, s)
  | S left' =>
      let ipv4 := if 0 <? left' then read_separator COLON i read_ipv4_addr s else None in
      match ipv4 with
      | Some (v4, rest) => ([N.shiftr v4 16; N.land v4 65535], true, rest)
      | None =>
          match read_separator COLON i (read_number 16 4 true 65535) s with
          | Some (group, rest) =>
              let '(groups, v4, rest) := read_groups left' (S i) rest in (group :: groups, v4, rest)
          | None => ([], false, s)
          end
      end
  end.

Definition from_segments (groups : list N) : N := foldl (fun acc g => acc * 65536 + g)%N 0%N groups.

Definition read_ipv6_addr (s : str) : option (N * str) :=
  let '(head, head_ipv4, rest) := read_groups 8 0 s in
  if length head =? 8 then Some (from_segments head, rest)
  else if head_ipv4 then None
  else
    match read_given_char COLON rest with
    | None => None
    | Some rest =>
        match read_given_char COLON rest with
        | None => None
        | Some rest =>
            let '(tail, _, rest) := read_groups (8 - (length head + 1)) 0 rest in
            Some (from_segments (head ++ replicate (8 - length head - length tail) 0%N ++ tail), rest)
        end
    end.

(** [str::parse::<IpAddr>] *)
Definition parse_ip (s : str) : option IpAddr :=
  match read_ipv4_addr s with
  | Some (v4, rest) => if is_nil rest then Some (V4 v4) else None
  | None =>
      match read_ipv6_addr s with
      | Some (v6, rest) => if is_nil rest then Some (V6 v6) else None
      | None => None
      end
  end.

Example parsed_addresses :
  parse_ip (L"127.0.0.1") = Some (V4 2130706433) /\ parse_ip (L"127.0.0.01") = None
  /\ parse_ip (L"1.2.3.256") = None /\ parse_ip (L"::1") = Some (V6 1)
  /\ parse_ip (L"::ffff:10.0.0.1") = Some (V6 (65535 * 2 ^ 32 + 167772161))
  /\ parse_ip (L"fe80::1:2") = Some (V6 (65152 * 2 ^ 112 + 65538))
  /\ parse_ip (L"1:2:3:4:5:6:7:8") = Some (V6 (from_segments [1;2;3;4;5;6;7;8]%N))
  /\ parse_ip (L"1::2::3") = None /\ parse_ip (L"example.com") = None /\ parse_ip (L"1:2") = None
  /\ parse_ip (L"::") = Some (V6 0) /\ parse_ip (L"12345::") = None.
Proof. split_and!; vm_compute; reflexivity. Qed.

(** ** Addresses that are not public *)

Definition ipv4_in_cidr (ip base prefix : N) : bool :=
  let mask := if (prefix =? 0)%N then 0%N
              else (N.shiftl (2 ^ 32 - 1) (32 - prefix) mod 2 ^ 32)%N in
  (N.land ip mask =? N.land base mask)%N.

Definition is_non_public_ipv4 (ip : N) : bool :=
  v4_is_loopback ip || v4_is_private ip || v4_is_link_local ip || v4_is_unspecified ip
  || v4_is_multicast ip || v4_is_broadcast ip
  || ipv4_in_cidr ip (from_octets 0 0 0 0) 8
  || ipv4_in_cidr ip (from_octets 100 64 0 0) 10
  || ipv4_in_cidr ip (from_octets 192 0 0 0) 24
  || ipv4_in_cidr ip (from_octets 192 0 2 0) 24
  || ipv4_in_cidr ip (from_octets 198 18 0 0) 15
  || ipv4_in_cidr ip (from_octets 198 51 100 0) 24
  || ipv4_in_cidr ip (from_octets 203 0 113 0) 24
  || ipv4_in_cidr ip (from_octets 240 0 0 0) 4.

Definition is_non_public_ipv6 (ip : N) : bool :=
  match to_ipv4 ip with
  | Some v4 => is_non_public_ipv4 v4 || v6_is_loopback ip
  | None =>
      v6_is_loopback ip || v6_is_unspecified ip || v6_is_multicast ip || v6_is_unique_local ip
      || v6_is_unicast_link_local ip
  end.

Definition is_non_public_ip (ip : IpAddr) : bool :=
  match ip with V4 ip => is_non_public_ipv4 ip | V6 ip => is_non_public_ipv6 ip end.

(** ** Hosts *)

Definition PERCENT : char := 37%N.
Definition LBRACKET : char := 91%N.
Definition RBRACKET : char := 93%N.

(** [str::split_once] with a string. *)
Fixpoint split_once_str (sep s : str) : option (str * str) :=
  match strip_prefix sep s with
  | Some rest => Some ([], rest)
  | None =>
      match s with
      | [] => None
      | c :: s' => match split_once_str sep s' with
                   | Some (a, b) => Some (c :: a, b)
                   | None => None
                   end
      end
  end.

Definition unscoped_ip_literal (host : str) : option str :=
  match split_once PERCENT host with
  | Some (ip, _) => if is_none (parse_ip ip) then None else Some ip
  | None => None
  end.

Fixpoint normalize_scoped (host : str) (delimiters : list str) : option str :=
  match delimiters with
  | [] => None
  | delimiter :: rest =>
      match split_once_str delimiter host with
      | Some (ip, scope) =>
          if is_none (parse_ip ip) then normalize_scoped host rest else Some (ip ++ L"%" ++ scope)
      | None => normalize_scoped host rest
      end
  end.

Definition normalize_ip_literal (host : str) : option str :=
  if is_none (parse_ip host) then normalize_scoped host [L"%25"; L"%"] else Some host.

Definition normalize_dns_host_or_ip_literal (host : str) : str :=
  let host := trim_end_matches (N.eqb DOT) (to_ascii_lowercase host) in
  match normalize_ip_literal host with Some ip => ip | None => host end.

Definition count_char (c : char) (s : str) : nat := length (List.filter (N.eqb c) s).

Definition normalize_unbracketed (host : str) : str :=
  if count_char COLON host =? 1
  then normalize_dns_host_or_ip_literal (match split_char COLON host with h :: _ => h | [] => [] end)
  else normalize_dns_host_or_ip_literal host.

Definition normalize_host (host : str) : str :=
  let host := trim host in
  match host with
  | c :: rest =>
      if (c =? LBRACKET)%N then
        match split_once RBRACKET rest with
        | Some (inner, _) => normalize_dns_host_or_ip_literal inner
        | None => normalize_unbracketed host
        end
      else normalize_unbracketed host
  | [] => normalize_unbracketed host
  end.

(** [Host::parse]; the wrapped string is kept as it is. *)
Definition host_parse (input : str) : option str :=
  let normalized := normalize_host input in
  if is_nil normalized then None else Some normalized.

Definition is_loopback_host (host : str) : bool :=
  let host := default host (unscoped_ip_literal host) in
  if str_eqb host (L"localhost") then true
  else match parse_ip host with Some ip => ip_is_loopback ip | None => false end.

Example normalized_hosts :
  normalize_host (L"  ExAmPlE.CoM  ") = L"example.com"
  /\ normalize_host (L"example.com.:443") = L"example.com"
  /\ normalize_host (L"[::1]:8080") = L"::1" /\ normalize_host (L"2001:db8::1") = L"2001:db8::1"
  /\ normalize_host (L"[fe80::1%25lo0]") = L"fe80::1%lo0".
Proof. split_and!; vm_compute; reflexivity. Qed.

(** ** Domain patterns *)

Inductive DomainPattern :=
  | ApexAndSubdomains (domain : str)
  | SubdomainsOnly (domain : str)
  | Exact (domain : str).

Definition pattern_parse_domain (domain : str) (build : str -> DomainPattern) : DomainPattern :=
  let domain := trim domain in if is_nil domain then Exact [] else build domain.

Definition pattern_parse (input : str) : DomainPattern :=
  let input := trim input in
  if is_nil input then Exact []
  else match strip_prefix (L"**.") input with
       | Some domain => pattern_parse_domain domain ApexAndSubdomains
       | None =>
           match strip_prefix (L"*.") input with
           | Some domain => pattern_parse_domain domain SubdomainsOnly
           | None => Exact input
           end
       end.

Definition normalize_pattern (pattern : str) : str :=
  let pattern := trim pattern in
  if str_eqb pattern (L"*") then L"*"
  else
    let '(prefix, remainder) :=
      match strip_prefix (L"**.") pattern with
      | Some domain => (L"**.", domain)
      | None => match strip_prefix (L"*.") pattern with
                | Some domain => (L"*.", domain)
                | None => ([], pattern)
                end
      end in
    let remainder := normalize_host remainder in
    if is_nil prefix then remainder else prefix ++ remainder.

Definition expand_domain_pattern (pattern : str) : list str :=
  match pattern_parse pattern with
  | Exact domain => [domain]
  | SubdomainsOnly domain => [L"?*." ++ domain]
  | ApexAndSubdomains domain => [domain; L"?*." ++ domain]
  end.

Definition is_global_wildcard_domain_pattern (pattern : str) : bool :=
  existsb (fun candidate => str_eqb candidate (L"*"))
    (expand_domain_pattern (normalize_pattern pattern)).

Definition normalize_domain (domain : str) : str :=
  to_ascii_lowercase (trim_end_matches (N.eqb DOT) domain).

Definition domain_eq (left right : str) : bool :=
  str_eqb (normalize_domain left) (normalize_domain right).

Definition is_subdomain_or_equal (child parent : str) : bool :=
  let child := normalize_domain child in
  let parent := normalize_domain parent in
  if str_eqb child parent then true else ends_with (DOT :: parent) child.

Definition is_strict_subdomain (child parent : str) : bool :=
  let child := normalize_domain child in
  let parent := normalize_domain parent in
  negb (str_eqb child parent) && ends_with (DOT :: parent) child.

Definition allows (self candidate : DomainPattern) : bool :=
  match self with
  | Exact domain =>
      match candidate with Exact candidate => domain_eq candidate domain | _ => false end
  | SubdomainsOnly domain =>
      match candidate with
      | Exact candidate => is_strict_subdomain candidate domain
      | SubdomainsOnly candidate => is_subdomain_or_equal candidate domain
      | ApexAndSubdomains candidate => is_strict_subdomain candidate domain
      end
  | ApexAndSubdomains domain =>
      match candidate with
      | Exact candidate | SubdomainsOnly candidate | ApexAndSubdomains candidate =>
          is_subdomain_or_equal candidate domain
      end
  end.

(** The crates [globset] (a case-insensitive glob: whether it builds, alone and
    in a set, what it matches) and [url] ([Host::parse], printed again). *)
Class HostLibraries := {
  glob_builds : str -> bool;
  globset_builds : list str -> bool;
  glob_is_match : str -> str -> bool;
  url_host_parse : str -> option str }.

Section libraries.
Context `{HostLibraries}.

Definition parse_domain_for_constraints (domain : str) : str :=
  let domain := trim_end_matches (N.eqb DOT) (trim domain) in
  if is_nil domain then []
  else
    let host := if starts_with [LBRACKET] domain && ends_with [RBRACKET] domain
                then take (length domain - 2) (drop 1 domain) else domain in
    if contains_char 42 host || contains_char 63 host || contains_char PERCENT host then domain
    else default [] (url_host_parse host).

Definition parse_for_constraints (input : str) : DomainPattern :=
  let input := trim input in
  if is_nil input then Exact []
  else match strip_prefix (L"**.") input with
       | Some domain => ApexAndSubdomains (parse_domain_for_constraints domain)
       | None =>
           match strip_prefix (L"*.") input with
           | Some domain => SubdomainsOnly (parse_domain_for_constraints domain)
           | None => Exact (parse_domain_for_constraints input)
           end
       end.

(** A built [GlobSet] is the list of its globs. *)
Definition GlobSet : Type := list str.
Definition globset_is_match (set : GlobSet) (host : str) : bool :=
  existsb (fun glob => glob_is_match glob host) set.

Inductive GlobalWildcard := AllowGlobal | RejectGlobal.
Inductive CompileError :=
  | UnsupportedGlobalWildcard
  | InvalidGlob (candidate : str)
  | GlobSetFailed.

Fixpoint add_candidates (candidates seen : list str) : result CompileError (list str) :=
  match candidates with
  | [] => Ok seen
  | candidate :: rest =>
      if bool_decide (candidate ∈ seen) then add_candidates rest seen
      else if glob_builds candidate then add_candidates rest (seen ++ [candidate])
      else Err (InvalidGlob candidate)
  end.

Fixpoint compile_loop (global_wildcard : GlobalWildcard) (patterns seen : list str)
  : result CompileError (list str) :=
  match patterns with
  | [] => Ok seen
  | pattern :: rest =>
      if match global_wildcard with RejectGlobal => is_global_wildcard_domain_pattern pattern
         | AllowGlobal => false end
      then Err UnsupportedGlobalWildcard
      else
        let? seen := add_candidates (expand_domain_pattern (normalize_pattern pattern)) seen in
        compile_loop global_wildcard rest seen
  end.

Definition compile_globset_with_policy (patterns : list str) (global_wildcard : GlobalWildcard)
  : result CompileError GlobSet :=
  let? globs := compile_loop global_wildcard patterns [] in
  if globset_builds globs then Ok globs else Err GlobSetFailed.
Definition compile_allowlist_globset (patterns : list str) : result CompileError GlobSet :=
  compile_globset_with_policy patterns AllowGlobal.
Definition compile_denylist_globset (patterns : list str) : result CompileError GlobSet :=
  compile_globset_with_policy patterns RejectGlobal.

Definition globset_matches_host_or_unscoped (set : GlobSet) (host : str) : bool :=
  globset_is_match set host
  || is_some_and (unscoped_ip_literal host) (fun ip => globset_is_match set ip).
End libraries.

(** ** The ranges that are not public *)

(** The blocks the classification means, as first and last address. *)
Definition non_public_ranges : list (N * N) :=
  [(from_octets 0 0 0 0, from_octets 0 255 255 255);
   (from_octets 10 0 0 0, from_octets 10 255 255 255);
   (from_octets 100 64 0 0, from_octets 100 127 255 255);
   (from_octets 127 0 0 0, from_octets 127 255 255 255);
   (from_octets 169 254 0 0, from_octets 169 254 255 255);
   (from_octets 172 16 0 0, from_octets 172 31 255 255);
   (from_octets 192 0 0 0, from_octets 192 0 0 255);
   (from_octets 192 0 2 0, from_octets 192 0 2 255);
   (from_octets 192 168 0 0, from_octets 192 168 255 255);
   (from_octets 198 18 0 0, from_octets 198 19 255 255);
   (from_octets 198 51 100 0, from_octets 198 51 100 255);
   (from_octets 203 0 113 0, from_octets 203 0 113 255);
   (from_octets 224 0 0 0, from_octets 255 255 255 255)].

Definition in_range (ip : N) (range : N * N) : bool := (fst range <=? ip)%N && (ip <=? snd range)%N.

(** Evaluate the constants an address is compared with. *)
Ltac fold_constants ip :=
  repeat match goal with
  | |- context [N.leb ?c ip] =>
      let v := eval vm_compute in c in progress change (N.leb c ip) with (N.leb v ip)
  | |- context [N.leb ip ?c] =>
      let v := eval vm_compute in c in progress change (N.leb ip c) with (N.leb ip v)
  | |- context [N.eqb ip ?c] =>
      let v := eval vm_compute in c in progress change (N.eqb ip c) with (N.eqb ip v)
  end.

Lemma octet_div i ip :
  (ip < 2 ^ 32)%N -> (i <= 3)%N -> octet i ip = ((ip / 2 ^ (8 * (3 - i))) mod 256)%N.
Proof.
  intros _ _. unfold octet. change 255%N with (N.ones 8). by rewrite N.land_ones, N.shiftr_div_pow2.
Qed.

(** Masking the low [k] bits away. *)
Lemma land_high_mask ip k :
  (ip < 2 ^ 32)%N -> (k <= 32)%N ->
  N.land ip (N.shiftl (2 ^ 32 - 1) k mod 2 ^ 32) = (ip / 2 ^ k * 2 ^ k)%N.
Proof.
  intros Hip Hk. apply N.bits_inj. intros n.
  rewrite N.land_spec, <- N.land_ones, N.land_spec.
  rewrite <- N.shiftl_mul_pow2, <- N.shiftr_div_pow2.
  change (2 ^ 32 - 1)%N with (N.ones 32).
  destruct (N.ltb_spec n k) as [Hn|Hn].
  - rewrite !N.shiftl_spec_low by done. by rewrite andb_false_r.
  - rewrite !N.shiftl_spec_high' by done. rewrite N.shiftr_spec' .
    replace (n - k + k)%N with n by lia.
    destruct (N.ltb_spec n 32) as [H32|H32].
    + by rewrite !N.ones_spec_low, !andb_true_r by lia.
    + assert (N.testbit ip n = false) as ->; [|done].
      apply N.testbit_false. rewrite N.div_small; [done|].
      eapply N.lt_le_trans; [exact Hip|]. by apply N.pow_le_mono_r.
Qed.

Lemma ipv4_in_cidr_range ip base prefix :
  (ip < 2 ^ 32)%N -> (base < 2 ^ 32)%N -> (0 < prefix <= 32)%N ->
  ipv4_in_cidr ip base prefix = (ip / 2 ^ (32 - prefix) =? base / 2 ^ (32 - prefix))%N.
Proof.
  intros Hip Hbase Hp. unfold ipv4_in_cidr. rewrite (proj2 (N.eqb_neq prefix 0)) by lia.
  rewrite !land_high_mask by lia. apply eq_true_iff_eq. rewrite !N.eqb_eq.
  assert (2 ^ (32 - prefix) <> 0)%N by (apply N.pow_nonzero; lia). split; [|congruence].
  intros Heq. by apply N.mul_cancel_r in Heq.
Qed.

(** A block by its leading bits, and the tests on octets as such blocks. *)
Lemma block_range ip k q :
  (ip / 2 ^ k =? q)%N = in_range ip (q * 2 ^ k, q * 2 ^ k + (2 ^ k - 1))%N.
Proof.
  unfold in_range. cbn [fst snd]. assert (0 < 2 ^ k)%N as Hk by (apply N.neq_0_lt_0, N.pow_nonzero; lia).
  pose proof (N.Div0.div_mod ip (2 ^ k)). pose proof (N.mod_upper_bound ip (2 ^ k) ltac:(lia)).
  apply eq_true_iff_eq. rewrite andb_true_iff, N.eqb_eq, !N.leb_le. split; [intros <-; nia|nia].
Qed.

Lemma first_octet ip : (ip < 2 ^ 32)%N -> octet 0 ip = (ip / 2 ^ 24)%N.
Proof. intros Hip. rewrite octet_div by (done || lia). change (2 ^ (8 * (3 - 0)))%N with 16777216%N. lia. Qed.

Lemma second_octet ip : (ip < 2 ^ 32)%N -> octet 1 ip = ((ip / 2 ^ 16) mod 256)%N.
Proof. intros Hip. by rewrite octet_div by (done || lia). Qed.

Lemma two_octets ip a b :
  (ip < 2 ^ 32)%N -> (b < 256)%N ->
  (octet 0 ip =? a)%N && (octet 1 ip =? b)%N = (ip / 2 ^ 16 =? a * 256 + b)%N.
Proof. intros Hip Hb. rewrite first_octet, second_octet by done. change (2 ^ 24)%N with 16777216%N. change (2 ^ 16)%N with 65536%N. lia. Qed.

Lemma private_block ip :
  (ip < 2 ^ 32)%N ->
  (octet 0 ip =? 172)%N && (16 <=? octet 1 ip)%N && (octet 1 ip <=? 31)%N = (ip / 2 ^ 20 =? 2753)%N.
Proof.
  intros Hip. rewrite first_octet, second_octet by done.
  change (2 ^ 24)%N with 16777216%N. change (2 ^ 20)%N with 1048576%N. change (2 ^ 16)%N with 65536%N. lia.
Qed.

Lemma multicast_block ip :
  (ip < 2 ^ 32)%N -> (224 <=? octet 0 ip)%N && (octet 0 ip <=? 239)%N = (ip / 2 ^ 28 =? 14)%N.
Proof.
  intros Hip. rewrite first_octet by done.
  change (2 ^ 24)%N with 16777216%N. change (2 ^ 28)%N with 268435456%N. lia.
Qed.

Lemma segment_div i ip : segment i ip = ((ip / 2 ^ (16 * (7 - i))) mod 65536)%N.
Proof.
  unfold segment. change 65535%N with (N.ones 16). by rewrite N.land_ones, N.shiftr_div_pow2.
Qed.

Lemma high_segment i ip : (ip < 2 ^ 48)%N -> (i <= 4)%N -> segment i ip = 0%N.
Proof.
  intros Hip Hi. rewrite segment_div, N.div_small; [done|].
  eapply N.lt_le_trans; [exact Hip|]. apply N.pow_le_mono_r; lia.
Qed.

Lemma to_ipv4_embedded ip high :
  (ip < 2 ^ 32)%N -> high = 0%N \/ high = 65535%N -> to_ipv4 (high * 2 ^ 32 + ip) = Some ip.
Proof.
  intros Hip Hhigh. unfold to_ipv4.
  rewrite !(high_segment _ (high * 2 ^ 32 + ip)) by (change (2 ^ 48)%N with 281474976710656%N; lia).
  assert (segment 5 (high * 2 ^ 32 + ip) = high) as ->.
  { rewrite segment_div. change (2 ^ (16 * (7 - 5)))%N with 4294967296%N. lia. }
  rewrite (segment_div 6), (segment_div 7). change (2 ^ (16 * (7 - 6)))%N with 65536%N.
  change (2 ^ (16 * (7 - 7)))%N with 1%N.
  destruct Hhigh as [-> | ->]; cbn [N.eqb Pos.eqb andb orb]; f_equal; lia.
Qed.

Lemma loopback_non_public ip :
  (ip < 2 ^ 32)%N -> is_non_public_ipv4 ip || (ip =? 1)%N = is_non_public_ipv4 ip.
Proof.
  intros Hip. destruct (N.eqb_spec ip 1) as [->|]; [done|apply orb_false_r].
Qed.

(** The classification of addresses.  An IPv4 address is taken for local or
    internal just when it lies in one of thirteen blocks, whether the block is
    tested with a mask or by the standard library; an IPv6 address that embeds an IPv4
    address is judged like that address. *)
Theorem non_public_addresses ip :
  (ip < 2 ^ 32)%N ->
  is_non_public_ip (V4 ip) = existsb (in_range ip) non_public_ranges
  /\ is_non_public_ip (V6 ip) = is_non_public_ip (V4 ip)
  /\ is_non_public_ip (V6 (65535 * 2 ^ 32 + ip)) = is_non_public_ip (V4 ip).
Proof.
  intros Hip. split_and!.
  - cbn [is_non_public_ip]. unfold is_non_public_ipv4, v4_is_loopback, v4_is_private, v4_is_link_local,
      v4_is_unspecified, v4_is_multicast, v4_is_broadcast.
    rewrite !ipv4_in_cidr_range by (done || (unfold from_octets; lia) || lia).
    rewrite private_block, multicast_block, !two_octets, !first_octet by (done || lia).
    rewrite !block_range. unfold in_range, from_octets. cbn [existsb non_public_ranges fst snd].
    unfold in_range, from_octets. cbn [fst snd]. fold_constants ip. lia.
  - cbn [is_non_public_ip]. unfold is_non_public_ipv6.
    pose proof (to_ipv4_embedded ip 0 Hip (or_introl eq_refl)) as E. rewrite N.mul_0_l, N.add_0_l in E. rewrite E.
    by apply loopback_non_public.
  - cbn [is_non_public_ip]. unfold is_non_public_ipv6. rewrite to_ipv4_embedded by auto.
    unfold v6_is_loopback. rewrite (proj2 (N.eqb_neq _ 1)) by lia. apply orb_false_r.
Qed.

Lemma non_public_addresses_witness :
  is_non_public_ip (V6 (65535 * 2 ^ 32 + from_octets 192 168 1 1)) = true
  /\ is_non_public_ip (V4 (from_octets 8 8 8 8)) = false.
Proof.
  destruct (non_public_addresses (from_octets 192 168 1 1)) as (H1 & _ & H3);
    [vm_compute; reflexivity|].
  split; [rewrite H3, H1; vm_compute; reflexivity|vm_compute; reflexivity].
Defined.

(** ** What a domain pattern stands for *)

(** The hosts a pattern covers: the name itself, the names below it. *)
Definition below (h d : str) : Prop := exists pre, h = pre ++ DOT :: d.

Definition pattern_covers (p : DomainPattern) (h : str) : Prop :=
  match p with
  | Exact d => normalize_domain h = normalize_domain d
  | SubdomainsOnly d => below (normalize_domain h) (normalize_domain d)
  | ApexAndSubdomains d =>
      normalize_domain h = normalize_domain d \/ below (normalize_domain h) (normalize_domain d)
  end.

Definition pattern_domain (p : DomainPattern) : str :=
  match p with Exact d | SubdomainsOnly d | ApexAndSubdomains d => d end.

Lemma below_length h d : below h d -> length d < length h.
Proof. intros [pre ->]. rewrite length_app. cbn. lia. Qed.

Lemma below_trans a b c : below a b -> below b c -> below a c.
Proof. intros [p ->] [q ->]. exists (p ++ DOT :: q). by rewrite <- app_assoc. Qed.

Lemma is_subdomain_or_equal_spec c d :
  is_subdomain_or_equal c d = true
  <-> normalize_domain c = normalize_domain d \/ below (normalize_domain c) (normalize_domain d).
Proof.
  unfold is_subdomain_or_equal, str_eqb, below. case_bool_decide as E; [by split; [left|]|].
  rewrite ends_with_true. naive_solver.
Qed.

Lemma is_strict_subdomain_spec c d :
  is_strict_subdomain c d = true <-> below (normalize_domain c) (normalize_domain d).
Proof.
  unfold is_strict_subdomain, str_eqb. rewrite andb_true_iff, negb_true_iff, bool_decide_eq_false.
  rewrite ends_with_true. split; [by intros [_ H]|]. intros Hb. split; [|done].
  intros E. apply below_length in Hb. rewrite E in Hb. lia.
Qed.

(** *** Normal names: in lower case, without a trailing dot *)

Lemma lowercase_idemp c : to_ascii_lowercase_char (to_ascii_lowercase_char c) = to_ascii_lowercase_char c.
Proof. unfold to_ascii_lowercase_char. repeat case_match; lia. Qed.

Lemma lowercase_dot c : N.eqb DOT (to_ascii_lowercase_char c) = N.eqb DOT c.
Proof. unfold to_ascii_lowercase_char, DOT. repeat case_match; lia. Qed.

Lemma normalize_domain_cases d :
  normalize_domain d = [] \/ exists n c, normalize_domain d = n ++ [c] /\ N.eqb DOT c = false.
Proof.
  unfold normalize_domain, to_ascii_lowercase.
  destruct (trim_end_matches_last (N.eqb DOT) d) as [->|(s & c & -> & Hc)]; [by left|].
  right. exists (to_ascii_lowercase_char <$> s), (to_ascii_lowercase_char c).
  by rewrite fmap_app, lowercase_dot.
Qed.

Lemma normalize_domain_lower d : to_ascii_lowercase (normalize_domain d) = normalize_domain d.
Proof.
  unfold normalize_domain, to_ascii_lowercase. rewrite <- list_fmap_compose.
  apply list_fmap_ext. intros _ c _. apply lowercase_idemp.
Qed.

(** A label in front of a normal name is normal. *)
Lemma normalize_domain_label x d :
  normalize_domain d <> [] ->
  normalize_domain (x ++ DOT :: normalize_domain d) = to_ascii_lowercase x ++ DOT :: normalize_domain d.
Proof.
  intros Hne. destruct (normalize_domain_cases d) as [|(n & c & E & Hc)]; [done|].
  pose proof (normalize_domain_lower d) as Hlow. rewrite E in *.
  unfold normalize_domain at 1. rewrite app_comm_cons, app_assoc, trim_end_matches_snoc_id by done.
  unfold to_ascii_lowercase in *. rewrite !fmap_app in *. cbn [fmap list_fmap] in *.
  rewrite <- app_assoc. cbn [app]. f_equal. by rewrite Hlow.
Qed.

Lemma below_label x n m : x <> DOT -> below (x :: DOT :: n) m -> n = m \/ below n m.
Proof.
  intros Hx [[|y [|z pre]] Hpre]; cbn in Hpre; [naive_solver| |].
  - left. by simplify_eq.
  - right. exists pre. by simplify_eq.
Qed.

Definition LETTER_A : char := 97%N.
Definition LETTER_B : char := 98%N.

Lemma covers_label x d :
  to_ascii_lowercase [x] = [x] -> normalize_domain d <> [] ->
  normalize_domain (x :: DOT :: normalize_domain d) = x :: DOT :: normalize_domain d.
Proof. intros Hx Hd. pose proof (normalize_domain_label [x] d Hd) as E. by rewrite Hx in E. Qed.

(** If a pattern covers all names below [d], its own name is [d] or above it. *)
Lemma covers_all_below p d :
  normalize_domain d <> [] -> (forall h, below (normalize_domain h) (normalize_domain d) -> pattern_covers p h) ->
  match p with
  | Exact _ => False
  | SubdomainsOnly e | ApexAndSubdomains e => is_subdomain_or_equal d e = true
  end.
Proof.
  intros Hne Hall.
  assert (forall x, to_ascii_lowercase [x] = [x] -> pattern_covers p (x :: DOT :: normalize_domain d)) as Hx.
  { intros x Hx. apply Hall. rewrite covers_label by done. by exists [x]. }
  pose proof (Hx LETTER_A eq_refl) as Ha. pose proof (Hx LETTER_B eq_refl) as Hb.
  destruct p as [e|e|e]; cbn [pattern_covers] in Ha, Hb; rewrite ?covers_label in Ha, Hb by done;
    unfold LETTER_A, LETTER_B in *.
  - apply is_subdomain_or_equal_spec. destruct Ha as [Ha|Ha]; [|by apply below_label in Ha].
    destruct Hb as [Hb|Hb]; [congruence|]. apply below_length in Hb. rewrite <- Ha in Hb. cbn in Hb. lia.
  - apply is_subdomain_or_equal_spec. by apply below_label in Ha.
  - congruence.
Qed.

Lemma allows_sound managed candidate h :
  allows managed candidate = true -> pattern_covers candidate h -> pattern_covers managed h.
Proof.
  intros Hallow Hh. destruct managed as [d|d|d], candidate as [c|c|c];
    cbn [allows pattern_covers] in *; try done;
    rewrite ?is_subdomain_or_equal_spec, ?is_strict_subdomain_spec in Hallow;
    unfold domain_eq, str_eqb in *; rewrite ?bool_decide_eq_true in Hallow;
    naive_solver eauto using below_trans with congruence.
Qed.

(** Comparing domain patterns.  One pattern [allows] another just when every
    host the other covers is covered by it, for the names [example.com], [*.example.com]
    and [**.example.com], in any letter case and with or without a trailing dot.  So
    a user entry that passes the managed constraints never reaches a further host. *)
Theorem domain_pattern_allows_exact managed candidate :
  normalize_domain (pattern_domain candidate) <> [] ->
  allows managed candidate = true
  <-> (forall h, pattern_covers candidate h -> pattern_covers managed h).
Proof.
  intros Hne. split; [intros Hallow h; by apply allows_sound|].
  intros Hall. destruct candidate as [c|c|c]; cbn [pattern_covers pattern_domain] in *.
  - pose proof (covers_all_below managed c Hne (fun h Hh => Hall h (or_intror Hh))) as Hsub.
    pose proof (Hall c (or_introl eq_refl)) as Hc.
    destruct managed; cbn in *; [done|by apply is_strict_subdomain_spec|done].
  - pose proof (covers_all_below managed c Hne Hall) as Hsub. by destruct managed.
  - pose proof (Hall c eq_refl) as Hc. destruct managed; cbn [allows pattern_covers] in *.
    + by apply is_subdomain_or_equal_spec.
    + by apply is_strict_subdomain_spec.
    + unfold domain_eq, str_eqb. by rewrite Hc, bool_decide_eq_true_2.
Qed.

Lemma domain_pattern_allows_exact_witness :
  pattern_covers (ApexAndSubdomains (L"Example.com.")) (L"v1.API.example.com").
Proof.
  assert (pattern_covers (SubdomainsOnly (L"api.example.com")) (L"v1.API.example.com")) as Hc
    by (exists (L"v1"); vm_compute; reflexivity).
  revert Hc. apply domain_pattern_allows_exact; [vm_compute; discriminate|vm_compute; reflexivity].
Defined.

(** ** Compiled sets *)

Section compiled.
Context `{HostLibraries}.

Lemma add_candidates_spec candidates : forall seen set,
  add_candidates candidates seen = Ok set -> forall g, g ∈ set <-> g ∈ seen \/ g ∈ candidates.
Proof.
  induction candidates as [|c candidates IH]; intros seen set Hc g; cbn in Hc.
  - simplify_eq. set_solver.
  - case_bool_decide as Hin; [rewrite (IH _ _ Hc); set_solver|].
    case_match; [|done]. rewrite (IH _ _ Hc). set_solver.
Qed.

Lemma compile_loop_spec w patterns : forall seen set,
  compile_loop w patterns seen = Ok set ->
  forall g, g ∈ set <-> g ∈ seen
    \/ exists pattern, pattern ∈ patterns /\ g ∈ expand_domain_pattern (normalize_pattern pattern).
Proof.
  induction patterns as [|p patterns IH]; intros seen set Hc g; cbn in Hc.
  - simplify_eq. set_solver.
  - case_match; [done|].
    destruct (add_candidates _ seen) as [seen'| | |] eqn:Ea; cbn in Hc; try done.
    rewrite (IH _ _ Hc), (add_candidates_spec _ _ _ Ea). set_solver.
Qed.

Lemma compile_spec w patterns set :
  compile_globset_with_policy patterns w = Ok set ->
  forall g, g ∈ set <->
    exists pattern, pattern ∈ patterns /\ g ∈ expand_domain_pattern (normalize_pattern pattern).
Proof.
  unfold compile_globset_with_policy. intros Hc g.
  destruct (compile_loop w patterns []) eqn:E; cbn in Hc; try done. case_match; [|done].
  injection Hc as <-. rewrite (compile_loop_spec _ _ _ _ E). set_solver.
Qed.
End compiled.

(** ** Plain host names *)

(** Host names of lower-case letters, digits, dashes, underscores and dots. *)
Definition plain_char (c : char) : bool :=
  is_ascii_digit c || ((97 <=? c) && (c <=? 122))%N || (c =? 45)%N || (c =? 95)%N || (c =? DOT)%N.

Record plain_host (h : str) : Prop := {
  plain_chars : Forall (fun c => plain_char c = true) h;
  plain_last : is_some_and (last h) (fun c => negb (N.eqb DOT c)) = true }.

#[export] Instance plain_host_dec h : Decision (plain_host h).
Proof.
  destruct (decide (Forall (fun c => plain_char c = true) h
    /\ is_some_and (last h) (fun c => negb (N.eqb DOT c)) = true)) as [[H1 H2]|Hn]; [by left|].
  right. intros [H1 H2]. by apply Hn.
Defined.

Lemma plain_avoids h c : plain_host h -> plain_char c = false -> c ∉ h.
Proof. intros [Hh _] Hc Hin. rewrite Forall_forall in Hh. rewrite (Hh _ Hin) in Hc. done. Qed.

Lemma plain_char_lower c : plain_char c = true -> to_ascii_lowercase_char c = c.
Proof. unfold plain_char, is_ascii_digit, to_ascii_lowercase_char, DOT. case_match; lia. Qed.

Lemma plain_char_solid c : plain_char c = true -> is_whitespace c = false.
Proof. unfold plain_char, is_ascii_digit, is_whitespace, DOT. lia. Qed.

Lemma split_once_str_absent c sep s : c ∈ sep -> c ∉ s -> split_once_str sep s = None.
Proof.
  intros Hc. induction s as [|d s IH]; intros Hs; cbn [split_once_str].
  - destruct sep; [set_solver|done].
  - destruct (strip_prefix sep (d :: s)) as [r|] eqn:E.
    + apply strip_prefix_Some in E. exfalso. apply Hs. rewrite E. set_solver.
    + rewrite IH by set_solver. done.
Qed.

Lemma normalize_ip_literal_unscoped h : PERCENT ∉ h -> default h (normalize_ip_literal h) = h.
Proof.
  intros Hp. unfold normalize_ip_literal. destruct (is_none (parse_ip h)); [|done].
  cbn [normalize_scoped]. rewrite !(split_once_str_absent PERCENT) by (done || (unfold lit; set_solver)).
  done.
Qed.

Lemma count_char_absent c s : c ∉ s -> count_char c s = 0.
Proof.
  unfold count_char. induction s as [|d s IH]; [done|]. intros Hd. cbn.
  rewrite (proj2 (N.eqb_neq c d)) by set_solver. apply IH. set_solver.
Qed.

Lemma normalize_dns_plain h : plain_host h -> normalize_dns_host_or_ip_literal h = h.
Proof.
  intros Hh. unfold normalize_dns_host_or_ip_literal, to_ascii_lowercase.
  assert (to_ascii_lowercase_char <$> h = h) as ->.
  { rewrite <- (list_fmap_id h) at 2. apply Forall_fmap_ext, (Forall_impl _ _ _ (plain_chars _ Hh)).
    intros c. apply plain_char_lower. }
  pose proof (trim_end_matches_app (N.eqb DOT) h [] (Forall_nil_2 _) (plain_last _ Hh)) as E.
  rewrite app_nil_r in E. rewrite E.
  pose proof (normalize_ip_literal_unscoped h) as Hn. destruct (normalize_ip_literal h); [|done].
  apply Hn. by apply plain_avoids.
Qed.

Lemma normalize_host_plain h : plain_host h -> normalize_host h = h.
Proof.
  intros Hh. unfold normalize_host. rewrite trim_no_whitespace
    by (eapply Forall_impl; [apply Hh|]; intros c; apply plain_char_solid).
  assert (normalize_unbracketed h = h) as Hu.
  { unfold normalize_unbracketed. rewrite count_char_absent by (by apply plain_avoids).
    by apply normalize_dns_plain. }
  destruct h as [|c h]; [done|]. rewrite (proj2 (N.eqb_neq c LBRACKET)); [done|].
  intros ->. pose proof (plain_avoids _ LBRACKET Hh eq_refl). set_solver.
Qed.

(** *** A name that starts with a star keeps it *)

Definition STAR : char := 42%N.

Lemma trim_end_matches_star p s :
  p STAR = false -> exists s', trim_end_matches p (STAR :: s) = STAR :: s'.
Proof.
  intros Hp. destruct (trim_end_matches_prefix p (STAR :: s)) as (w & E & F).
  destruct (trim_end_matches p (STAR :: s)) as [|d t]; cbn in E.
  - subst w. apply Forall_inv in F. congruence.
  - injection E as <- _. eauto.
Qed.

Lemma parse_ip_star s : parse_ip (STAR :: s) = None.
Proof. reflexivity. Qed.

Lemma normalize_scoped_star s : normalize_scoped (STAR :: s) [L"%25"; L"%"] = None.
Proof.
  assert (forall sep a b, split_once_str (PERCENT :: sep) (STAR :: s) = Some (a, b) ->
    exists a', a = STAR :: a') as Hsplit.
  { intros sep a b. cbn [split_once_str strip_prefix]. unfold PERCENT, STAR. cbn [N.eqb Pos.eqb].
    destruct (split_once_str _ s) as [[]|]; [|done]. naive_solver. }
  cbn [normalize_scoped]. change (L"%25") with (PERCENT :: L"25"). change (L"%") with (PERCENT :: []).
  destruct (split_once_str (PERCENT :: L"25") (STAR :: s)) as [[a b]|] eqn:E1;
    [destruct (Hsplit _ _ _ E1) as [a' ->]; rewrite parse_ip_star|];
    (destruct (split_once_str (PERCENT :: []) (STAR :: s)) as [[a2 b2]|] eqn:E2;
      [destruct (Hsplit _ _ _ E2) as [a2' ->]; rewrite parse_ip_star|]); done.
Qed.

Lemma normalize_dns_star s : exists s', normalize_dns_host_or_ip_literal (STAR :: s) = STAR :: s'.
Proof.
  unfold normalize_dns_host_or_ip_literal, to_ascii_lowercase. rewrite fmap_cons.
  change (to_ascii_lowercase_char STAR) with STAR.
  destruct (trim_end_matches_star (N.eqb DOT) (to_ascii_lowercase_char <$> s) eq_refl) as [t ->].
  unfold normalize_ip_literal. rewrite parse_ip_star. cbn [is_none]. rewrite normalize_scoped_star. eauto.
Qed.

Lemma normalize_host_star e s : trim e = STAR :: s -> exists s', normalize_host e = STAR :: s'.
Proof.
  intros He. unfold normalize_host. rewrite He. change (STAR =? LBRACKET)%N with false. cbn iota.
  unfold normalize_unbracketed. case_match; [|apply normalize_dns_star].
  cbn [split_char]. change (STAR =? COLON)%N with false. cbn iota.
  destruct (split_char COLON s); apply normalize_dns_star.
Qed.

(** An entry that normalises to a plain host compiles to the glob of that name. *)
Lemma plain_entry_glob e h :
  plain_host h -> normalize_host e = h -> expand_domain_pattern (normalize_pattern e) = [h].
Proof.
  intros Hh He.
  assert (forall s, trim e <> STAR :: s) as Hstar.
  { intros s Hs. destruct (normalize_host_star e s Hs) as [s' Hs']. rewrite He in Hs'.
    apply (plain_avoids _ STAR Hh); [done|]. rewrite Hs'. by left. }
  assert (forall p s, head p = Some STAR -> strip_prefix p (trim e) = Some s -> False) as Hstrip.
  { intros [|c p] s Hp Hs; [done|]. apply strip_prefix_Some in Hs. cbn in Hp. injection Hp as ->.
    by apply (Hstar (p ++ s)). }
  assert (normalize_pattern e = h) as ->.
  { unfold normalize_pattern, str_eqb. case_bool_decide as E; [by apply Hstar in E|].
    destruct (strip_prefix (L"**.") (trim e)) eqn:E1; [by apply Hstrip in E1|].
    destruct (strip_prefix (L"*.") (trim e)) eqn:E2; [by apply Hstrip in E2|].
    cbn [is_nil]. rewrite <- He. unfold normalize_host. by rewrite trim_idemp. }
  unfold expand_domain_pattern, pattern_parse. rewrite trim_no_whitespace
    by (eapply Forall_impl; [apply Hh|]; intros c; apply plain_char_solid).
  pose proof (plain_avoids _ STAR Hh eq_refl) as Hno.
  destruct (is_nil h) eqn:En; [apply is_nil_true in En; by rewrite En|].
  destruct (strip_prefix (L"**.") h) as [r|] eqn:E1.
  { apply strip_prefix_Some in E1. exfalso. apply Hno. rewrite E1. by left. }
  destruct (strip_prefix (L"*.") h) as [r|] eqn:E2; [|done].
  apply strip_prefix_Some in E2. exfalso. apply Hno. rewrite E2. by left.
Qed.
