(* ===== verification/NetworkState.v ===== *)
(** * The state of the network proxy (network-proxy/src/config.rs, state.rs,
    runtime.rs)

    The proxy keeps a configuration under managed constraints, the two compiled
    lists of hosts and a window of blocked requests.  The state is behind a
    lock; an operation is a sequence of critical sections, and operations of
    several tasks interleave between them.  Hash sets are [gset]; a [BTreeMap]
    is the list of its entries in key order.  DNS, the canonical form of a path,
    the MITM state and the reloader are arguments. *)

From S2P Require Import Prelude RustStr AbsolutePath NetworkHosts.

(** ** Configuration (config.rs) *)

Inductive NetworkDomainPermission := PermNone | PermAllow | PermDeny.

#[global] Instance NetworkDomainPermission_eq_dec : EqDecision NetworkDomainPermission.
Proof. solve_decision. Defined.

(** The derived order: [None < Allow < Deny]. *)
Definition permission_rank (p : NetworkDomainPermission) : nat :=
  match p with PermNone => 0 | PermAllow => 1 | PermDeny => 2 end.

Record NetworkDomainPermissionEntry := mkEntry {
  pattern : str;
  permission : NetworkDomainPermission }.

#[global] Instance NetworkDomainPermissionEntry_eq_dec : EqDecision NetworkDomainPermissionEntry.
Proof. solve_decision. Defined.

Inductive NetworkUnixSocketPermission := SocketAllow | SocketNone.

#[global] Instance NetworkUnixSocketPermission_eq_dec : EqDecision NetworkUnixSocketPermission.
Proof. solve_decision. Defined.

Inductive NetworkMode := Limited | Full.

#[global] Instance NetworkMode_eq_dec : EqDecision NetworkMode.
Proof. solve_decision. Defined.

Record NetworkProxySettings := mkSettings {
  enabled : bool;
  proxy_url : str;
  enable_socks5 : bool;
  socks_url : str;
  enable_socks5_udp : bool;
  allow_upstream_proxy : bool;
  dangerously_allow_non_loopback_proxy : bool;
  dangerously_allow_all_unix_sockets : bool;
  mode : NetworkMode;
  domains : option (list NetworkDomainPermissionEntry);
  unix_sockets : option (list (str * NetworkUnixSocketPermission));
  allow_local_binding : bool;
  mitm_enabled : bool }.

#[global] Instance NetworkProxySettings_eq_dec : EqDecision NetworkProxySettings.
Proof. solve_decision. Defined.

Definition default_settings : NetworkProxySettings :=
  mkSettings false (L"http://127.0.0.1:3128") true (L"http://127.0.0.1:8081") true true false false
    Full None None false false.

Definition allows_method (m : NetworkMode) (method : str) : bool :=
  match m with
  | Full => true
  | Limited => str_eqb method (L"GET") || str_eqb method (L"HEAD") || str_eqb method (L"OPTIONS")
  end.

(** One step of the loop of [effective_entries]: the order of first
    occurrences and the strongest permission so far. *)
Definition effective_step (acc : list str * gmap str NetworkDomainPermission)
  (entry : NetworkDomainPermissionEntry) : list str * gmap str NetworkDomainPermission :=
  let '(order, effective_permissions) := acc in
  match effective_permissions !! (pattern entry : str) with
  | None => (order ++ [pattern entry], <[pattern entry := permission entry]> effective_permissions)
  | Some p =>
      (order, if permission_rank p <? permission_rank (permission entry)
              then <[pattern entry := permission entry]> effective_permissions
              else effective_permissions)
  end.

Definition effective_entries (entries : list NetworkDomainPermissionEntry)
  : list NetworkDomainPermissionEntry :=
  let '(order, effective_permissions) := foldl effective_step ([], ∅) entries in
  omap (fun p : str => mkEntry p <$> effective_permissions !! p) order.

Definition domain_entries (s : NetworkProxySettings) (perm : NetworkDomainPermission)
  : option (list str) :=
  match domains s with
  | None => None
  | Some entries =>
      let l := pattern <$> List.filter (fun e => bool_decide (permission e = perm))
                             (effective_entries entries) in
      if is_nil l then None else Some l
  end.

Definition allowed_domains (s : NetworkProxySettings) : option (list str) :=
  domain_entries s PermAllow.
Definition denied_domains (s : NetworkProxySettings) : option (list str) :=
  domain_entries s PermDeny.

Definition allow_unix_sockets (s : NetworkProxySettings) : list str :=
  match unix_sockets s with
  | Some entries => fst <$> List.filter (fun e => bool_decide (snd e = SocketAllow)) entries
  | None => []
  end.

Definition with_domains (s : NetworkProxySettings) (d : option (list NetworkDomainPermissionEntry))
  : NetworkProxySettings :=
  mkSettings (enabled s) (proxy_url s) (enable_socks5 s) (socks_url s) (enable_socks5_udp s)
    (allow_upstream_proxy s) (dangerously_allow_non_loopback_proxy s)
    (dangerously_allow_all_unix_sockets s) (mode s) d (unix_sockets s) (allow_local_binding s)
    (mitm_enabled s).

Definition with_mode (s : NetworkProxySettings) (m : NetworkMode) : NetworkProxySettings :=
  mkSettings (enabled s) (proxy_url s) (enable_socks5 s) (socks_url s) (enable_socks5_udp s)
    (allow_upstream_proxy s) (dangerously_allow_non_loopback_proxy s)
    (dangerously_allow_all_unix_sockets s) m (domains s) (unix_sockets s) (allow_local_binding s)
    (mitm_enabled s).

Definition upsert_domain_permission (s : NetworkProxySettings) (host : str)
  (perm : NetworkDomainPermission) (normalize : str -> str) : NetworkProxySettings :=
  let entries := default [] (domains s) in
  let normalized_host := normalize host in
  let entries :=
    List.filter (fun e => negb (str_eqb (normalize (pattern e)) normalized_host)) entries
    ++ [mkEntry host perm] in
  with_domains s (if is_nil entries then None else Some entries).

Fixpoint add_entries (entries : list str) (perm : NetworkDomainPermission)
  (existing : list NetworkDomainPermissionEntry) : list NetworkDomainPermissionEntry :=
  match entries with
  | [] => existing
  | entry :: rest =>
      if existsb (fun e => str_eqb (pattern e) entry && bool_decide (permission e = perm)) existing
      then add_entries rest perm existing
      else add_entries rest perm (existing ++ [mkEntry entry perm])
  end.

Definition set_domain_entries (s : NetworkProxySettings) (entries : list str)
  (perm : NetworkDomainPermission) : NetworkProxySettings :=
  let existing := List.filter (fun e => negb (bool_decide (permission e = perm)))
                    (default [] (domains s)) in
  let result := add_entries entries perm existing in
  with_domains s (if is_nil result then None else Some result).

Definition set_allowed_domains (s : NetworkProxySettings) (l : list str) : NetworkProxySettings :=
  set_domain_entries s l PermAllow.
Definition set_denied_domains (s : NetworkProxySettings) (l : list str) : NetworkProxySettings :=
  set_domain_entries s l PermDeny.

Definition with_unix_sockets (s : NetworkProxySettings)
  (u : option (list (str * NetworkUnixSocketPermission))) : NetworkProxySettings :=
  mkSettings (enabled s) (proxy_url s) (enable_socks5 s) (socks_url s) (enable_socks5_udp s)
    (allow_upstream_proxy s) (dangerously_allow_non_loopback_proxy s)
    (dangerously_allow_all_unix_sockets s) (mode s) (domains s) u (allow_local_binding s)
    (mitm_enabled s).

(** [BTreeMap::insert] on the entries in key order. *)
Fixpoint btree_insert {V} (k : str) (v : V) (entries : list (str * V)) : list (str * V) :=
  match entries with
  | [] => [(k, v)]
  | (k', v') :: rest =>
      match lex_compare N.compare k k' with
      | Lt => (k, v) :: entries
      | Eq => (k, v) :: rest
      | Gt => (k', v') :: btree_insert k v rest
      end
  end.

Definition set_unix_socket_entries (s : NetworkProxySettings) (entries : list str)
  (perm : NetworkUnixSocketPermission) : NetworkProxySettings :=
  let existing := List.filter (fun e => negb (bool_decide (snd e = perm))) (default [] (unix_sockets s)) in
  let result := foldl (fun acc entry => btree_insert entry perm acc) existing entries in
  with_unix_sockets s (if is_nil result then None else Some result).

Definition set_allow_unix_sockets (s : NetworkProxySettings) (l : list str) : NetworkProxySettings :=
  set_unix_socket_entries s l SocketAllow.

(** [ValidatedUnixSocketPath::parse], outside Windows. *)
Definition validated_unix_socket_path (home cwd : option str) (socket_path : str)
  : option AbsolutePathBuf :=
  if is_absolute socket_path then from_absolute_path home cwd socket_path else None.

(** ** Constraints (state.rs) *)

Record NetworkProxyConstraints := mkConstraints {
  max_enabled : option bool;
  max_mode : option NetworkMode;
  max_upstream_proxy : option bool;
  max_non_loopback_proxy : option bool;
  max_all_unix_sockets : option bool;
  managed_allowed_domains : option (list str);
  allowlist_expansion_enabled : option bool;
  managed_denied_domains : option (list str);
  denylist_expansion_enabled : option bool;
  managed_unix_sockets : option (list str);
  max_local_binding : option bool }.

#[global] Instance NetworkProxyConstraints_eq_dec : EqDecision NetworkProxyConstraints.
Proof. solve_decision. Defined.

(** The candidate values an error names. *)
Inductive Offending :=
  | OffendingFlag
  | OffendingMode (m : NetworkMode)
  | OffendingPattern (p : str)
  | OffendingEntries (l : list str)
  | MissingEntries (l : list str).

Inductive NetworkProxyError :=
  | InvalidValue (field_name : str) (candidate : Offending)
  | InvalidSocketPath (path : str)
  | CompileFailed (e : CompileError)
  | MitmFailed
  | InvalidHost
  | ReloadFailed.

Definition network_mode_rank (m : NetworkMode) : nat := match m with Limited => 0 | Full => 1 end.

Definition require (ok : bool) (field_name : str) (candidate : Offending) : result NetworkProxyError unit :=
  if ok then Ok tt else Err (InvalidValue field_name candidate).

Definition lowercase_set (l : list str) : gset str := list_to_set (to_ascii_lowercase <$> l).

Definition validate_non_global_wildcard_domain_patterns (field_name : str) (patterns : list str)
  : result NetworkProxyError unit :=
  match List.find is_global_wildcard_domain_pattern patterns with
  | Some p => Err (InvalidValue field_name (OffendingPattern (trim p)))
  | None => Ok tt
  end.

(** A flag that managed configuration can forbid. *)
Definition forbidden_flag (maximum : option bool) (candidate : bool) : bool :=
  match maximum with Some false => candidate | _ => false end.

Section validation.
Context `{HostLibraries}.

Definition validate_allowed_domains (config_allowed config_denied managed : list str)
  (expansion : option bool) : result NetworkProxyError unit :=
  let field := L"network.allowed_domains" in
  let denied_domain_overrides := lowercase_set config_denied in
  match expansion with
  | Some true =>
      let candidate_set := lowercase_set config_allowed in
      let missing := elements (lowercase_set managed ∖ candidate_set ∖ denied_domain_overrides) in
      require (is_nil missing) field (MissingEntries missing)
  | Some false =>
      let expected_set := lowercase_set managed ∖ denied_domain_overrides in
      require (bool_decide (lowercase_set config_allowed = expected_set)) field
        (OffendingEntries config_allowed)
  | None =>
      let managed_patterns := parse_for_constraints <$> managed in
      let invalid :=
        List.filter (fun entry =>
          negb (existsb (fun m => allows m (parse_for_constraints entry)) managed_patterns))
          config_allowed in
      require (is_nil invalid) field (OffendingEntries invalid)
  end.

Definition validate_denied_domains (config_denied managed : list str) (expansion : option bool)
  : result NetworkProxyError unit :=
  let field := L"network.denied_domains" in
  let required_set := lowercase_set managed in
  match expansion with
  | Some false =>
      require (bool_decide (lowercase_set config_denied = required_set)) field
        (OffendingEntries config_denied)
  | _ =>
      let missing := elements (required_set ∖ lowercase_set config_denied) in
      require (is_nil missing) field (MissingEntries missing)
  end.

Definition validate_unix_sockets (config_sockets managed : list str) : result NetworkProxyError unit :=
  let allowed_set := lowercase_set managed in
  let invalid := List.filter (fun e => negb (bool_decide (to_ascii_lowercase e ∈ allowed_set)))
                   config_sockets in
  require (is_nil invalid) (L"network.allow_unix_sockets") (OffendingEntries invalid).

Definition validate_policy_against_constraints (config : NetworkProxySettings)
  (c : NetworkProxyConstraints) : result NetworkProxyError unit :=
  let config_allowed_domains := default [] (allowed_domains config) in
  let config_denied_domains := default [] (denied_domains config) in
  let? _ := validate_non_global_wildcard_domain_patterns (L"network.denied_domains")
              config_denied_domains in
  let? _ := require (negb (forbidden_flag (max_enabled c) (enabled config)))
              (L"network.enabled") OffendingFlag in
  let? _ := match max_mode c with
            | Some max_mode =>
                require (network_mode_rank (mode config) <=? network_mode_rank max_mode)
                  (L"network.mode") (OffendingMode (mode config))
            | None => Ok tt
            end in
  let? _ := require (negb (forbidden_flag (max_upstream_proxy c) (allow_upstream_proxy config)))
              (L"network.allow_upstream_proxy") OffendingFlag in
  let? _ := require (negb (forbidden_flag (max_non_loopback_proxy c)
                             (dangerously_allow_non_loopback_proxy config)))
              (L"network.dangerously_allow_non_loopback_proxy") OffendingFlag in
  let allow_all_unix_sockets :=
    default (is_none (managed_unix_sockets c)) (max_all_unix_sockets c) in
  let? _ := require (negb (dangerously_allow_all_unix_sockets config && negb allow_all_unix_sockets))
              (L"network.dangerously_allow_all_unix_sockets") OffendingFlag in
  let? _ := require (negb (forbidden_flag (max_local_binding c) (allow_local_binding config)))
              (L"network.allow_local_binding") OffendingFlag in
  let? _ := match managed_allowed_domains c with
            | Some managed =>
                let? _ := validate_non_global_wildcard_domain_patterns (L"network.allowed_domains")
                            managed in
                validate_allowed_domains config_allowed_domains config_denied_domains managed
                  (allowlist_expansion_enabled c)
            | None => Ok tt
            end in
  let? _ := match managed_denied_domains c with
            | Some managed =>
                let? _ := validate_non_global_wildcard_domain_patterns (L"network.denied_domains")
                            managed in
                validate_denied_domains config_denied_domains managed (denylist_expansion_enabled c)
            | None => Ok tt
            end in
  match managed_unix_sockets c with
  | Some managed => validate_unix_sockets (allow_unix_sockets config) managed
  | None => Ok tt
  end.
End validation.

(** ** State (runtime.rs) *)

Record BlockedRequest := mkBlocked {
  blocked_host : str;
  blocked_reason : str;
  client : option str;
  method : option str;
  blocked_mode : option NetworkMode;
  protocol : str;
  decision : option str;
  source : option str;
  port : option N;
  timestamp : Z }.

Inductive HostBlockReason := Denied | NotAllowed | NotAllowedLocal.
Inductive HostBlockDecision := Allowed | Blocked (reason : HostBlockReason).

Definition MAX_BLOCKED_EVENTS : nat := 200.

Record ConfigState {Mitm : Type} := mkState {
  config : NetworkProxySettings;
  allow_set : GlobSet;
  deny_set : GlobSet;
  mitm : option Mitm;
  constraints : NetworkProxyConstraints;
  blocked : list BlockedRequest;
  blocked_total : N }.
Arguments ConfigState Mitm : clear implicits.

(** What the proxy asks of its surroundings: the directories for paths, the
    MITM state for a configuration, canonical paths, DNS within the timeout. *)
Inductive Lookup := Addresses (l : list IpAddr) | LookupFailed | LookupTimedOut.

Class ProxyEnvironment (Mitm : Type) := {
  home : option str;
  cwd : option str;
  mitm_new : bool -> bool -> option Mitm;
  target_macos : bool;
  canonicalize : AbsolutePathBuf -> option str;
  lookup_host : str -> N -> Lookup }.

Section state.
Context {Mitm : Type} `{HostLibraries} `{ProxyEnvironment Mitm}.
Abbreviation state := (ConfigState Mitm).

Definition validate_unix_socket_allowlist_paths (s : NetworkProxySettings)
  : result NetworkProxyError unit :=
  match List.find (fun p => is_none (validated_unix_socket_path home cwd p)) (allow_unix_sockets s) with
  | Some p => Err (InvalidSocketPath p)
  | None => Ok tt
  end.

Definition build_config_state (cfg : NetworkProxySettings) (c : NetworkProxyConstraints)
  : result NetworkProxyError state :=
  let? _ := validate_unix_socket_allowlist_paths cfg in
  let allowed := default [] (allowed_domains cfg) in
  let denied := default [] (denied_domains cfg) in
  let? _ := validate_non_global_wildcard_domain_patterns (L"network.denied_domains") denied in
  let? deny_set := map_err CompileFailed (compile_denylist_globset denied) in
  let? allow_set := map_err CompileFailed (compile_allowlist_globset allowed) in
  let? mitm :=
    if mitm_enabled cfg
    then match mitm_new (allow_upstream_proxy cfg) (allow_local_binding cfg) with
         | Some m => Ok (Some m)
         | None => Err MitmFailed
         end
    else Ok None in
  Ok (mkState _ cfg allow_set deny_set mitm c [] 0).

(** *** Deciding about a host *)

Definition host_resolves_to_non_public_ip (host : str) (port : N) : bool :=
  match parse_ip host with
  | Some ip => is_non_public_ip ip
  | None =>
      match lookup_host host port with
      | Addresses addrs => existsb is_non_public_ip addrs
      | LookupFailed | LookupTimedOut => true
      end
  end.

Definition explicit_local_pattern (host p : str) : bool :=
  let p := trim p in
  if str_eqb p (L"*") || starts_with (L"*.") p || starts_with (L"**.") p then false
  else if contains_char 42 p || contains_char 63 p then false
  else
    let normalized_pattern := normalize_host p in
    str_eqb normalized_pattern host
    || is_some_and (unscoped_ip_literal host) (fun ip => str_eqb normalized_pattern ip).

Definition is_explicit_local_allowlisted (allowed : list str) (host : str) : bool :=
  existsb (explicit_local_pattern host) allowed.

Definition local_literal (host : str) : bool :=
  let host_no_scope := default host (unscoped_ip_literal host) in
  if is_loopback_host host then true
  else match parse_ip host_no_scope with Some ip => is_non_public_ip ip | None => false end.

(** [host_blocked] after [reload_if_needed]. *)
Definition host_blocked (st : state) (host : str) (port : N) : HostBlockDecision :=
  match host_parse host with
  | None => Blocked NotAllowed
  | Some host =>
      let allowed := allowed_domains (config st) in
      if globset_matches_host_or_unscoped (deny_set st) host then Blocked Denied
      else
        let is_allowlisted := globset_matches_host_or_unscoped (allow_set st) host in
        if negb (allow_local_binding (config st))
           && (if local_literal host
               then negb (is_explicit_local_allowlisted (default [] allowed) host)
               else host_resolves_to_non_public_ip host port)
        then Blocked NotAllowedLocal
        else if is_none allowed || negb is_allowlisted then Blocked NotAllowed
        else Allowed
  end.

Definition is_unix_socket_allowed (st : state) (path : str) : bool :=
  if negb target_macos then false
  else if negb (is_absolute path) then false
  else if dangerously_allow_all_unix_sockets (config st) then true
  else
    match from_absolute_path home cwd path with
    | None => false
    | Some requested_abs =>
        let requested_canonical := canonicalize requested_abs in
        existsb (fun allowed =>
          match validated_unix_socket_path home cwd allowed with
          | None => false
          | Some allowed_path =>
              bool_decide (allowed_path = requested_abs)
              || is_some_and requested_canonical (fun r =>
                   is_some_and (canonicalize allowed_path) (str_eqb r))
          end) (allow_unix_sockets (config st))
    end.

Definition method_allowed (st : state) (m : str) : bool := allows_method (mode (config st)) m.

(** *** Critical sections *)

Definition with_blocked (st : state) (b : list BlockedRequest) (total : N) : state :=
  mkState _ (config st) (allow_set st) (deny_set st) (mitm st) (constraints st) b total.

(** [while len > MAX { pop_front }] *)
Definition drop_oldest (b : list BlockedRequest) : list BlockedRequest :=
  drop (length b - MAX_BLOCKED_EVENTS) b.

Definition record_blocked_section (st : state) (entry : BlockedRequest) : state :=
  with_blocked st (drop_oldest (blocked st ++ [entry])) (saturating_add (blocked_total st) 1).

Definition drain_blocked_section (st : state) : state * list BlockedRequest :=
  (with_blocked st [] (blocked_total st), blocked st).

(** [reload_if_needed]: the window is read in one section, and written with the
    new state in another. *)
Definition reload_write (new_state : state) (b : list BlockedRequest) (total : N) : state :=
  with_blocked new_state b total.

Definition force_reload_section (st new_state : state) : state :=
  with_blocked new_state (blocked st) (blocked_total new_state).

Definition replace_config_state_section (st new_state : state) : state :=
  with_blocked new_state (blocked st) (blocked_total st).

(** [set_network_mode]: what is validated on the state read, and the write,
    refused when the constraints changed meanwhile. *)
Definition set_mode_validate (snapshot : state) (m : NetworkMode) : result NetworkProxyError unit :=
  validate_policy_against_constraints (with_mode (config snapshot) m) (constraints snapshot).

Definition set_mode_write (st snapshot : state) (m : NetworkMode) : option state :=
  if bool_decide (constraints st = constraints snapshot)
  then Some (mkState _ (with_mode (config st) m) (allow_set st) (deny_set st) (mitm st)
               (constraints st) (blocked st) (blocked_total st))
  else None.

Inductive DomainListKind := AllowList | DenyList.

Definition kind_permission (k : DomainListKind) : NetworkDomainPermission :=
  match k with AllowList => PermAllow | DenyList => PermDeny end.
Definition kind_entries (k : DomainListKind) (s : NetworkProxySettings) : list str :=
  default [] (match k with AllowList => allowed_domains s | DenyList => denied_domains s end).
Definition opposite_entries (k : DomainListKind) (s : NetworkProxySettings) : list str :=
  default [] (match k with AllowList => denied_domains s | DenyList => allowed_domains s end).

(** [update_domain_list] on the state read: nothing to do, or the state to write. *)
Definition update_domain_prepare (snapshot : state) (normalized_host : str) (k : DomainListKind)
  : result NetworkProxyError (option state) :=
  let previous_cfg := config snapshot in
  let mentions l := existsb (fun entry => str_eqb (normalize_host entry) normalized_host) l in
  if mentions (kind_entries k previous_cfg) && negb (mentions (opposite_entries k previous_cfg))
  then Ok None
  else
    let candidate :=
      upsert_domain_permission previous_cfg normalized_host (kind_permission k) normalize_host in
    let? _ := validate_policy_against_constraints candidate (constraints snapshot) in
    let? new_state := build_config_state candidate (constraints snapshot) in
    Ok (Some (with_blocked new_state (blocked snapshot) (blocked_total snapshot))).

Definition update_domain_write (st snapshot new_state : state) : option state :=
  if bool_decide (constraints st = constraints snapshot) && bool_decide (config st = config snapshot)
  then Some new_state else None.

(** [update_domain_list] when no other task runs in between. *)
Definition update_domain_list (st : state) (host : str) (k : DomainListKind)
  : result NetworkProxyError state :=
  match host_parse host with
  | None => Err InvalidHost
  | Some normalized_host =>
      let? prepared := update_domain_prepare st normalized_host k in
      Ok (default st prepared)
  end.

Definition add_allowed_domain (st : state) (host : str) : result NetworkProxyError state :=
  update_domain_list st host AllowList.
Definition add_denied_domain (st : state) (host : str) : result NetworkProxyError state :=
  update_domain_list st host DenyList.
End state.

(** ** What validation promises *)

Lemma rbind_ok {E A B} (r : result E A) (k : A -> result E B) b :
  rbind r k = Ok b <-> exists a, r = Ok a /\ k a = Ok b.
Proof. split; [destruct r; cbn; eauto; done|by intros (a & -> & ?)]. Qed.

Lemma require_ok b f c : require b f c = Ok tt <-> b = true.
Proof. unfold require. by destruct b. Qed.

Lemma unit_ok {E B} (r : result E unit) (k : unit -> result E B) b :
  rbind r k = Ok b <-> r = Ok tt /\ k tt = Ok b.
Proof. rewrite rbind_ok. split; [by intros ([] & ? & ?)|eauto]. Qed.

Section promises.
Context `{HostLibraries}.

Definition mode_within (m : NetworkMode) (c : NetworkProxyConstraints) : Prop :=
  forall maximum, max_mode c = Some maximum -> network_mode_rank m <= network_mode_rank maximum.

Lemma validate_with_mode cfg c m :
  validate_policy_against_constraints cfg c = Ok tt ->
  validate_policy_against_constraints (with_mode cfg m) c = Ok tt <-> mode_within m c.
Proof.
  unfold validate_policy_against_constraints, mode_within, allowed_domains, denied_domains,
    domain_entries, allow_unix_sockets.
  cbn [with_mode domains enabled mode allow_upstream_proxy dangerously_allow_non_loopback_proxy
       dangerously_allow_all_unix_sockets allow_local_binding unix_sockets].
  rewrite !unit_ok. intros (H1 & H2 & _ & Hrest). split.
  - intros (_ & _ & Hm & _) maximum Hmax. rewrite Hmax, require_ok in Hm. by apply Nat.leb_le.
  - intros Hm. split_and!; try done; try apply Hrest. destruct (max_mode c) as [maximum|]; [|done].
    apply require_ok, Nat.leb_le, Hm. done.
Qed.

(** The configuration stays inside the managed one: no forbidden switch is on,
    every allowed entry covers only hosts a managed entry covers (unless the list
    is fixed, or may be extended), every managed denial is there, every socket is
    a managed one. *)
Record within (cfg : NetworkProxySettings) (c : NetworkProxyConstraints) : Prop := {
  within_enabled : max_enabled c = Some false -> enabled cfg = false;
  within_mode : mode_within (mode cfg) c;
  within_upstream : max_upstream_proxy c = Some false -> allow_upstream_proxy cfg = false;
  within_loopback :
    max_non_loopback_proxy c = Some false -> dangerously_allow_non_loopback_proxy cfg = false;
  within_all_sockets :
    dangerously_allow_all_unix_sockets cfg = true ->
    default (is_none (managed_unix_sockets c)) (max_all_unix_sockets c) = true;
  within_local : max_local_binding c = Some false -> allow_local_binding cfg = false;
  within_allowed : forall managed entry,
    managed_allowed_domains c = Some managed -> allowlist_expansion_enabled c = None ->
    entry ∈ default [] (allowed_domains cfg) ->
    exists m, m ∈ managed
      /\ forall h, pattern_covers (parse_for_constraints entry) h ->
           pattern_covers (parse_for_constraints m) h;
  within_fixed : forall managed,
    managed_allowed_domains c = Some managed -> allowlist_expansion_enabled c = Some false ->
    lowercase_set (default [] (allowed_domains cfg))
    = lowercase_set managed ∖ lowercase_set (default [] (denied_domains cfg));
  within_denied : forall managed,
    managed_denied_domains c = Some managed ->
    lowercase_set managed ⊆ lowercase_set (default [] (denied_domains cfg));
  within_sockets : forall managed socket,
    managed_unix_sockets c = Some managed -> socket ∈ allow_unix_sockets cfg ->
    to_ascii_lowercase socket ∈ lowercase_set managed }.

Lemma forbidden_flag_ok maximum candidate :
  negb (forbidden_flag maximum candidate) = true -> maximum = Some false -> candidate = false.
Proof. intros Hf ->. cbn in Hf. by apply negb_true_iff in Hf. Qed.

Lemma filter_nil_all {A} (f : A -> bool) l x : List.filter f l = [] -> x ∈ l -> f x = false.
Proof.
  intros Hl Hx. destruct (f x) eqn:E; [|done].
  assert (x ∈ List.filter f l) as Hin by (by rewrite list_elem_of_In, List.filter_In, <- list_elem_of_In).
  rewrite Hl in Hin. set_solver.
Qed.

Lemma elements_nil_subseteq (X Y : gset str) : is_nil (elements (X ∖ Y)) = true -> X ⊆ Y.
Proof. intros He%is_nil_true%elements_empty_inv. set_solver. Qed.

Lemma validate_within cfg c :
  validate_policy_against_constraints cfg c = Ok tt -> within cfg c.
Proof.
  unfold validate_policy_against_constraints. rewrite !unit_ok, !require_ok.
  intros (_ & Hen & Hmode & Hup & Hloop & Hall & Hlocal & Hallowed & Hdenied & Hsock).
  split.
  - by apply forbidden_flag_ok.
  - intros maximum Hmax. rewrite Hmax, require_ok in Hmode. by apply Nat.leb_le.
  - by apply forbidden_flag_ok.
  - by apply forbidden_flag_ok.
  - intros Hd. rewrite Hd in Hall. cbn in Hall. by rewrite negb_involutive in Hall.
  - by apply forbidden_flag_ok.
  - intros managed entry Hm He Hin. rewrite Hm, He, unit_ok in Hallowed. destruct Hallowed as [_ Ha].
    cbn in Ha. rewrite require_ok, is_nil_true in Ha. eapply filter_nil_all in Ha; [|done].
    apply negb_false_iff, existsb_exists in Ha as (p & Hp & Hallow).
    apply list_elem_of_In, list_elem_of_fmap in Hp as (m & -> & Hmin).
    exists m. split; [done|]. intros h. by apply allows_sound.
  - intros managed Hm He. rewrite Hm, He, unit_ok in Hallowed. destruct Hallowed as [_ Ha].
    cbn in Ha. by rewrite require_ok, bool_decide_eq_true in Ha.
  - intros managed Hm. rewrite Hm, unit_ok in Hdenied. destruct Hdenied as [_ Hd].
    unfold validate_denied_domains in Hd. destruct (denylist_expansion_enabled c) as [[]|];
      rewrite require_ok in Hd; try (by apply elements_nil_subseteq).
    apply bool_decide_eq_true in Hd. by rewrite Hd.
  - intros managed socket Hm Hin. rewrite Hm in Hsock. unfold validate_unix_sockets in Hsock.
    rewrite require_ok, is_nil_true in Hsock. eapply filter_nil_all in Hsock; [|done].
    by rewrite negb_false_iff, bool_decide_eq_true in Hsock.
Qed.
End promises.

(** ** The effective permission of a pattern *)

(** [q] is the strongest permission an entry gives to [p]. *)
Definition strongest (entries : list NetworkDomainPermissionEntry) (p : str)
  (q : NetworkDomainPermission) : Prop :=
  mkEntry p q ∈ entries
  /\ forall q', mkEntry p q' ∈ entries -> permission_rank q' <= permission_rank q.

Lemma permission_rank_inj p q : permission_rank p = permission_rank q -> p = q.
Proof. by destruct p, q. Qed.

Lemma strongest_snoc entries e p q :
  strongest (entries ++ [e]) p q <->
  if decide (pattern e = p)
  then (permission e = q /\ forall q', mkEntry p q' ∈ entries -> permission_rank q' <= permission_rank q)
       \/ (strongest entries p q /\ permission_rank (permission e) <= permission_rank q)
  else strongest entries p q.
Proof.
  unfold strongest. destruct e as [p' q0]. cbn [pattern permission].
  setoid_rewrite elem_of_app. setoid_rewrite list_elem_of_singleton. case_decide; naive_solver.
Qed.

Lemma strongest_exists entries p q : mkEntry p q ∈ entries -> exists q', strongest entries p q'.
Proof.
  intros Hin. destruct (decide (mkEntry p PermDeny ∈ entries)) as [Hd|Hd];
    [exists PermDeny; split; [done|by intros []; cbn; lia]|].
  destruct (decide (mkEntry p PermAllow ∈ entries)) as [Ha|Ha];
    [exists PermAllow; split; [done|intros []; cbn; (lia || done)]|].
  exists PermNone. destruct q; [|done..]. split; [done|]. intros []; cbn; (lia || done).
Qed.

Record effective_inv (entries : list NetworkDomainPermissionEntry)
  (acc : list str * gmap str NetworkDomainPermission) : Prop := {
  inv_order : forall p, p ∈ fst acc <-> is_Some (snd acc !! p);
  inv_nodup : NoDup (fst acc);
  inv_strongest : forall p q, snd acc !! p = Some q <-> strongest entries p q }.

Lemma effective_step_inv entries acc e :
  effective_inv entries acc -> effective_inv (entries ++ [e]) (effective_step acc e).
Proof.
  destruct acc as [order m], e as [p0 q0]. intros [Ho Hn Hs]. cbn [fst snd] in *.
  unfold effective_step. cbn [pattern permission].
  destruct (m !! p0) as [p|] eqn:E.
  - pose proof (proj1 (Hs _ _) E) as [Hin Hmax]. split; cbn [fst snd].
    + intros p'. rewrite Ho. case_match; [|done]. destruct (decide (p' = p0)) as [->|].
      * rewrite lookup_insert_eq, E. by split; eauto.
      * by rewrite lookup_insert_ne.
    + done.
    + intros p' q. rewrite strongest_snoc. cbn [pattern permission]. case_decide as Hp.
      * subst p'. destruct (permission_rank p <? permission_rank q0) eqn:Er.
        -- apply Nat.ltb_lt in Er. rewrite lookup_insert_eq. split.
           ++ intros [= <-]. left. split; [done|]. intros q' Hq'. specialize (Hmax q' Hq'). lia.
           ++ intros [[-> _]|[[Hq _] Hle]]; [done|]. specialize (Hmax _ Hq). lia.
        -- apply Nat.ltb_ge in Er. rewrite E. split.
           ++ intros [= <-]. right. done.
           ++ intros [[<- Hq]|[Hq _]]; [|by rewrite <- E; apply Hs].
              f_equal. apply permission_rank_inj. specialize (Hq _ Hin). lia.
      * rewrite <- Hs. case_match; [|done]. by rewrite lookup_insert_ne.
  - assert (forall q', mkEntry p0 q' ∉ entries) as Hnone.
    { intros q' Hq'. destruct (strongest_exists _ _ _ Hq') as [q Hq].
      apply Hs in Hq. congruence. }
    assert (p0 ∉ order) as Hno by (rewrite Ho, E; by intros []). split; cbn [fst snd].
    + intros p'. rewrite elem_of_app, list_elem_of_singleton, Ho. destruct (decide (p' = p0)) as [->|].
      * rewrite lookup_insert_eq. split; eauto.
      * rewrite lookup_insert_ne by done. naive_solver.
    + apply NoDup_app. split_and!; [done|set_solver|apply NoDup_singleton].
    + intros p' q. rewrite strongest_snoc. cbn [pattern permission]. case_decide as Hp.
      * subst p'. rewrite lookup_insert_eq. split.
        -- intros [= <-]. left. split; [done|]. intros q' Hq'. by apply Hnone in Hq'.
        -- intros [[-> _]|[[Hq _] _]]; [done|]. by apply Hnone in Hq.
      * by rewrite lookup_insert_ne.
Qed.

Lemma effective_fold_inv entries : effective_inv entries (foldl effective_step ([], ∅) entries).
Proof.
  induction entries as [|e entries IH] using rev_ind.
  - split; cbn; [|constructor|].
    + intros p. rewrite lookup_empty. split; [set_solver|by intros []].
    + intros p q. rewrite lookup_empty. unfold strongest. set_solver.
  - rewrite foldl_snoc. by apply effective_step_inv.
Qed.

Lemma effective_entries_spec entries p q :
  mkEntry p q ∈ effective_entries entries <-> strongest entries p q.
Proof.
  unfold effective_entries. pose proof (effective_fold_inv entries) as [Ho _ Hs].
  destruct (foldl effective_step ([], ∅) entries) as [order m]. cbn [fst snd] in *.
  rewrite <- Hs. split.
  - intros (p' & _ & Hp)%list_elem_of_omap. by destruct (m !! p') eqn:E; cbn in Hp; simplify_eq.
  - intros Hm. apply list_elem_of_omap. exists p. rewrite Hm. split; [|done]. apply Ho. eauto.
Qed.

Lemma domain_entries_spec s perm p :
  p ∈ default [] (domain_entries s perm) <-> strongest (default [] (domains s)) p perm.
Proof.
  unfold domain_entries. destruct (domains s) as [entries|]; cbn [default from_option id].
  2: { unfold strongest. set_solver. }
  rewrite <- effective_entries_spec.
  assert (p ∈ pattern <$> List.filter (fun e => bool_decide (permission e = perm)) (effective_entries entries)
    <-> mkEntry p perm ∈ effective_entries entries) as Hin.
  { rewrite list_elem_of_fmap. setoid_rewrite list_elem_of_In. setoid_rewrite List.filter_In.
    setoid_rewrite bool_decide_eq_true. split.
    - intros ([p' q'] & -> & Hm & <-). done.
    - intros Hm. by exists (mkEntry p perm). }
  case_match eqn:E; [|done]. apply is_nil_true in E. rewrite E in Hin. cbn. set_solver.
Qed.

Lemma denied_domains_spec s p :
  p ∈ default [] (denied_domains s) <-> mkEntry p PermDeny ∈ default [] (domains s).
Proof.
  unfold denied_domains. rewrite domain_entries_spec. unfold strongest. split; [by intros []|].
  intros Hin. split; [done|]. intros []; cbn; lia.
Qed.

Lemma allowed_domains_spec s p :
  p ∈ default [] (allowed_domains s) <->
  mkEntry p PermAllow ∈ default [] (domains s) /\ mkEntry p PermDeny ∉ default [] (domains s).
Proof.
  unfold allowed_domains. rewrite domain_entries_spec. unfold strongest. split; intros [Hin Hq]; split; try done.
  - intros Hd. specialize (Hq _ Hd). cbn in Hq. lia.
  - intros []; cbn; (lia || done).
Qed.
