(* ===== verification/NetworkRuntime.v ===== *)
(** * The network proxy at work (network-proxy/src/runtime.rs)

    Tasks share the state of [NetworkState]; each runs critical sections, and
    the sections of different tasks interleave.  The file shows what holds of
    the state whatever the interleaving, what a decision about a host means in
    such a state, and where an interleaving loses data. *)

From S2P Require Import Prelude RustStr AbsolutePath NetworkHosts NetworkState.

Section runtime.
Context {Mitm : Type} `{HostLibraries} `{ProxyEnvironment Mitm}.
Abbreviation state := (ConfigState Mitm).

(** ** Tasks *)

(** A task is where it stands between two sections: about to read, or with what
    it read and prepared.  [Reload], [ForceReload] and [Replace] carry the state
    they were given. *)
Inductive Task :=
  | SetMode (m : NetworkMode)
  | SetModeRead (m : NetworkMode) (snapshot : state)
  | Update (host : str) (k : DomainListKind)
  | UpdateRead (host : str) (k : DomainListKind) (snapshot new_state : state)
  | Reload (new_state : state)
  | ReloadRead (new_state : state) (b : list BlockedRequest) (total : N)
  | ForceReload (new_state : state)
  | Replace (new_state : state)
  | Record_ (entry : BlockedRequest)
  | Drain
  | Finished.

(** One section of a task. *)
Inductive section : state -> Task -> state -> Task -> Prop :=
  | set_mode_reads st m :
      set_mode_validate st m = Ok tt -> section st (SetMode m) st (SetModeRead m st)
  | set_mode_refused st m e :
      set_mode_validate st m = Err e -> section st (SetMode m) st Finished
  | set_mode_writes st m snapshot st' :
      set_mode_write st snapshot m = Some st' -> section st (SetModeRead m snapshot) st' Finished
  | set_mode_retries st m snapshot :
      set_mode_write st snapshot m = None -> section st (SetModeRead m snapshot) st (SetMode m)
  | update_nothing st host k :
      update_domain_prepare st host k = Ok None -> section st (Update host k) st Finished
  | update_reads st host k new_state :
      update_domain_prepare st host k = Ok (Some new_state) ->
      section st (Update host k) st (UpdateRead host k st new_state)
  | update_refused st host k e :
      update_domain_prepare st host k = Err e -> section st (Update host k) st Finished
  | update_writes st host k snapshot new_state st' :
      update_domain_write st snapshot new_state = Some st' ->
      section st (UpdateRead host k snapshot new_state) st' Finished
  | update_retries st host k snapshot new_state :
      update_domain_write st snapshot new_state = None ->
      section st (UpdateRead host k snapshot new_state) st (Update host k)
  | reload_reads st new_state :
      section st (Reload new_state) st (ReloadRead new_state (blocked st) (blocked_total st))
  | reload_writes st new_state b total :
      section st (ReloadRead new_state b total) (reload_write new_state b total) Finished
  | force_reloads st new_state :
      section st (ForceReload new_state) (force_reload_section st new_state) Finished
  | replaces st new_state :
      section st (Replace new_state) (replace_config_state_section st new_state) Finished
  | records st entry : section st (Record_ entry) (record_blocked_section st entry) Finished
  | drains st : section st Drain (fst (drain_blocked_section st)) Finished.

Record System := mkSystem { shared : state; tasks : list Task }.

Inductive step : System -> System -> Prop :=
  | task_runs st ts i t st' t' :
      ts !! i = Some t -> section st t st' t' ->
      step (mkSystem st ts) (mkSystem st' (<[i := t']> ts)).

(** ** The invariant *)

(** The configuration passes validation, the sets are compiled from it, the
    window is bounded. *)
Record state_ok (st : state) : Prop := {
  ok_valid : validate_policy_against_constraints (config st) (constraints st) = Ok tt;
  ok_deny : compile_denylist_globset (default [] (denied_domains (config st))) = Ok (deny_set st);
  ok_allow : compile_allowlist_globset (default [] (allowed_domains (config st))) = Ok (allow_set st);
  ok_window : length (blocked st) <= MAX_BLOCKED_EVENTS }.

(** How the callers make a state to start, reload or replace with: the configuration is
    validated and then built (network_proxy_loader.rs, build_config_state_with_mtimes;
    network_proxy_spec.rs, from_config_and_constraints, with_exec_policy_network_rules
    and build_config_state_for_spec).  The operations of the proxy that install the state
    do not check it again. *)
Definition validated_config_state (cfg : NetworkProxySettings) (c : NetworkProxyConstraints)
  : result NetworkProxyError state :=
  let? _ := validate_policy_against_constraints cfg c in
  build_config_state cfg c.

(** A task that has not begun; the state it installs, if any, was made by its caller. *)
Definition task_starts (t : Task) : Prop :=
  match t with
  | SetMode _ | Update _ _ | Record_ _ | Drain | Finished => True
  | Reload new_state | ForceReload new_state | Replace new_state =>
      exists cfg c, validated_config_state cfg c = Ok new_state
  | SetModeRead _ _ | UpdateRead _ _ _ _ | ReloadRead _ _ _ => False
  end.

(** What holds of a task at any time. *)
Definition task_ok (t : Task) : Prop :=
  match t with
  | SetModeRead m snapshot => mode_within m (constraints snapshot)
  | UpdateRead _ _ _ new_state | Reload new_state | ForceReload new_state | Replace new_state =>
      state_ok new_state
  | ReloadRead new_state b _ => state_ok new_state /\ length b <= MAX_BLOCKED_EVENTS
  | _ => True
  end.

Definition system_ok (sys : System) : Prop := state_ok (shared sys) /\ Forall task_ok (tasks sys).

Lemma with_blocked_ok (st : state) b total :
  state_ok st -> length b <= MAX_BLOCKED_EVENTS -> state_ok (with_blocked st b total).
Proof. intros [] Hb. by split. Qed.

Lemma drop_oldest_length b : length (drop_oldest b) <= MAX_BLOCKED_EVENTS.
Proof. unfold drop_oldest. rewrite length_drop. lia. Qed.

Lemma build_config_state_ok cfg c st :
  validate_policy_against_constraints cfg c = Ok tt -> build_config_state cfg c = Ok st ->
  state_ok st /\ config st = cfg /\ constraints st = c.
Proof.
  intros Hv. unfold build_config_state. rewrite !unit_ok. intros (_ & _ & Hbuild).
  apply rbind_ok in Hbuild as (d & Hd & Hbuild). apply rbind_ok in Hbuild as (a & Ha & Hbuild).
  apply rbind_ok in Hbuild as (m & Hm & Hst). injection Hst as <-. split; [|done].
  assert (forall r (x : GlobSet), map_err CompileFailed r = Ok x -> r = Ok x) as Hmap
    by (intros [] x Hx; cbn in Hx; by simplify_eq).
  split; [done|by apply Hmap|by apply Hmap|cbn; lia].
Qed.

Lemma validated_config_state_ok cfg c st : validated_config_state cfg c = Ok st -> state_ok st.
Proof.
  unfold validated_config_state. rewrite unit_ok. intros [Hv Hb]. by apply (build_config_state_ok cfg c).
Qed.

Lemma task_starts_ok t : task_starts t -> task_ok t.
Proof. destruct t; cbn; try done; intros (cfg & c & Hb); by eapply validated_config_state_ok. Qed.

Lemma update_prepare_ok (st : state) host k new_state :
  state_ok st -> update_domain_prepare st host k = Ok (Some new_state) ->
  state_ok new_state /\ constraints new_state = constraints st
  /\ config new_state
     = upsert_domain_permission (config st) host (kind_permission k) normalize_host.
Proof.
  intros Hst. unfold update_domain_prepare. case_match; [done|]. rewrite unit_ok.
  intros (Hv & Hb). apply rbind_ok in Hb as (new & Hnew & Hn). injection Hn as <-.
  destruct (build_config_state_ok _ _ _ Hv Hnew) as (Hok & Hcfg & Hc).
  split_and!; [|done|done]. apply with_blocked_ok; [done|apply Hst].
Qed.

Lemma set_mode_write_ok (st snapshot st' : state) m :
  state_ok st -> mode_within m (constraints snapshot) ->
  set_mode_write st snapshot m = Some st' -> state_ok st'.
Proof.
  intros [Hv Hd Ha Hw] Hm. unfold set_mode_write. case_bool_decide as Hc; [|done].
  intros [= <-]. split; cbn; [|done..]. apply validate_with_mode; [done|]. by rewrite Hc.
Qed.

Lemma section_ok (st st' : state) t t' :
  section st t st' t' -> state_ok st -> task_ok t -> state_ok st' /\ task_ok t'.
Proof.
  destruct 1; intros Hst Ht; cbn in *; try done.
  - split; [done|]. eapply validate_with_mode; [apply Hst|done].
  - split; [|done]. by eapply set_mode_write_ok.
  - split; [done|]. by eapply update_prepare_ok.
  - split; [|done]. unfold update_domain_write in *. case_match; [|done]. by simplify_eq.
  - split; [done|]. split; [done|apply Hst].
  - split; [|done]. destruct Ht. by apply with_blocked_ok.
  - split; [|done]. apply with_blocked_ok; [done|apply Hst].
  - split; [|done]. apply with_blocked_ok; [done|apply Hst].
  - split; [|done]. apply with_blocked_ok; [done|apply drop_oldest_length].
  - split; [|done]. apply with_blocked_ok; [done|cbn; lia].
Qed.

Lemma step_ok sys sys' : step sys sys' -> system_ok sys -> system_ok sys'.
Proof.
  destruct 1 as [st ts i t st' t' Hi Hsec]. intros [Hst Hts]. cbn in *.
  assert (task_ok t) as Ht by (eapply Forall_lookup_1; eauto).
  destruct (section_ok _ _ _ _ Hsec Hst Ht) as [Hst' Ht']. split; [done|].
  cbn. by apply Forall_insert.
Qed.

Lemma steps_ok sys sys' : rtc step sys sys' -> system_ok sys -> system_ok sys'.
Proof. induction 1 as [|x y z Hxy _ IH]; [done|]. intros Hx. by eapply IH, step_ok. Qed.

(** C37: however the tasks that use the proxy interleave (changes of the
    mode, additions to either list, reloads, replacements, recorded and drained events),
    the state they share stays within the managed constraints and its compiled
    lists are those of its configuration: a mode that was validated on an earlier
    configuration, or a list that was built from one, is written only where it is still
    valid.  The window of events never exceeds its bound.  The state at the start and those
    that reloads and replacements install are made as the callers make them, validated
    and then built; the proxy installs them unchecked. *)
Theorem proxy_state_invariant cfg c (st : state) ts st' ts' :
  validated_config_state cfg c = Ok st -> Forall task_starts ts -> rtc step (mkSystem st ts) (mkSystem st' ts') ->
  within (config st') (constraints st')
  /\ compile_denylist_globset (default [] (denied_domains (config st'))) = Ok (deny_set st')
  /\ compile_allowlist_globset (default [] (allowed_domains (config st'))) = Ok (allow_set st')
  /\ length (blocked st') <= MAX_BLOCKED_EVENTS.
Proof.
  intros Hst Hts Hsteps. destruct (steps_ok _ _ Hsteps) as [[Hv Hd Ha Hw] _].
  - split; [by eapply validated_config_state_ok|]. by eapply Forall_impl, task_starts_ok.
  - split_and!; [by apply validate_within|done|done|done].
Qed.

(** ** What it means that a host is allowed *)

(** A glob of an entry matches the host, or the address without its scope. *)
Definition entry_matches (entry h : str) : Prop :=
  exists glob, glob ∈ expand_domain_pattern (normalize_pattern entry)
    /\ (glob_is_match glob h = true
        \/ exists ip, unscoped_ip_literal h = Some ip /\ glob_is_match glob ip = true).

(** The entry names the host itself: it has no wildcard. *)
Definition names_literally (entry h : str) : Prop :=
  42%N ∉ trim entry /\ 63%N ∉ trim entry
  /\ (normalize_host (trim entry) = h \/ unscoped_ip_literal h = Some (normalize_host (trim entry))).

(** Where a host that is no local literal can lead. *)
Definition resolves_publicly (h : str) (port : N) : Prop :=
  match parse_ip h with
  | Some ip => is_non_public_ip ip = false
  | None => exists l, lookup_host h port = Addresses l /\ Forall (fun ip => is_non_public_ip ip = false) l
  end.

Lemma globset_matches_spec set h :
  globset_matches_host_or_unscoped set h = true <->
  exists glob, glob ∈ set
    /\ (glob_is_match glob h = true
        \/ exists ip, unscoped_ip_literal h = Some ip /\ glob_is_match glob ip = true).
Proof.
  unfold globset_matches_host_or_unscoped, globset_is_match. rewrite orb_true_iff, existsb_exists.
  setoid_rewrite <- list_elem_of_In. split.
  - intros [(g & Hg & Hm)|Hm]; [by eauto 6|].
    destruct (unscoped_ip_literal h) as [ip|]; [|done]. cbn in Hm.
    apply existsb_exists in Hm as (g & Hg & Hm). rewrite <- list_elem_of_In in Hg. eauto 7.
  - intros (g & Hg & [Hm|(ip & -> & Hm)]); [by eauto|]. right. cbn.
    apply existsb_exists. exists g. by rewrite <- list_elem_of_In.
Qed.

(** A compiled list matches just what its entries match. *)
Lemma compiled_matches w entries set h :
  compile_globset_with_policy entries w = Ok set ->
  globset_matches_host_or_unscoped set h = true <-> exists e, e ∈ entries /\ entry_matches e h.
Proof.
  intros Hc. rewrite globset_matches_spec. setoid_rewrite (compile_spec _ _ _ Hc).
  unfold entry_matches. naive_solver.
Qed.

Lemma explicit_local_spec h e : explicit_local_pattern h e = true -> names_literally e h.
Proof.
  unfold explicit_local_pattern, names_literally. case_match; [done|].
  destruct (contains_char 42 (trim e)) eqn:E1; [done|]. destruct (contains_char 63 (trim e)) eqn:E2; [done|].
  apply contains_char_false in E1, E2. cbn [orb]. unfold str_eqb.
  rewrite orb_true_iff, bool_decide_eq_true. intros [Hn|Hn]; [by auto|].
  destruct (unscoped_ip_literal h) as [ip|]; [|done]. cbn in Hn. rewrite bool_decide_eq_true in Hn.
  subst. auto.
Qed.

Lemma resolves_publicly_spec h port :
  host_resolves_to_non_public_ip h port = false -> resolves_publicly h port.
Proof.
  unfold host_resolves_to_non_public_ip, resolves_publicly. destruct (parse_ip h); [done|].
  destruct (lookup_host h port) as [l| |]; [|done..]. rewrite existsb_false_Forall. eauto.
Qed.

(** A state in which the lists are the compiled ones decides by the entries. *)
Lemma host_allowed_spec (st : state) raw port :
  state_ok st -> host_blocked st raw port = Allowed ->
  exists h, host_parse raw = Some h
    /\ (forall e, e ∈ default [] (denied_domains (config st)) -> ~ entry_matches e h)
    /\ (exists e, e ∈ default [] (allowed_domains (config st)) /\ entry_matches e h)
    /\ (allow_local_binding (config st) = false ->
         if local_literal h
         then exists e, e ∈ default [] (allowed_domains (config st)) /\ names_literally e h
         else resolves_publicly h port).
Proof.
  intros [_ Hdeny Hallow _]. unfold host_blocked. destruct (host_parse raw) as [h|]; [|done].
  destruct (globset_matches_host_or_unscoped (deny_set st) h) eqn:Ed; [done|].
  match goal with |- context [if ?b then Blocked NotAllowedLocal else _] => destruct b eqn:El end; [done|].
  destruct (is_none _ || _) eqn:Ea; [done|]. intros _. exists h.
  apply orb_false_iff in Ea as [_ Ea]. apply negb_false_iff in Ea. split_and!; [done| | |].
  - intros e He Hm. assert (true = false) as [=]. rewrite <- Ed. symmetry.
    eapply compiled_matches; eauto.
  - eapply compiled_matches; eauto.
  - intros Hlocal. rewrite Hlocal in El. cbn in El. destruct (local_literal h).
    + apply negb_false_iff, existsb_exists in El as (e & He & Hx). exists e.
      split; [by apply list_elem_of_In|by apply explicit_local_spec].
    + by apply resolves_publicly_spec.
Qed.

(** [localhost], or the literal of an address that is not public, scope or not. *)
Definition names_local (h : str) : Prop :=
  let name := default h (unscoped_ip_literal h) in
  name = L"localhost" \/ exists ip, parse_ip name = Some ip /\ is_non_public_ip ip = true.

Lemma loopback_is_non_public ip : ip_is_loopback ip = true -> is_non_public_ip ip = true.
Proof.
  destruct ip as [b|b]; cbn; [by unfold is_non_public_ipv4; intros ->|].
  unfold is_non_public_ipv6. intros ->. case_match; [apply orb_true_r|done].
Qed.

Lemma local_literal_spec h : local_literal h = true <-> names_local h.
Proof.
  unfold local_literal, is_loopback_host, names_local, str_eqb.
  generalize (default h (unscoped_ip_literal h)). intros name. case_bool_decide; [by split; [left|]|].
  destruct (parse_ip name) as [ip|]; [|naive_solver]. destruct (ip_is_loopback ip) eqn:E.
  - split; [|done]. intros _. right. exists ip. by rewrite loopback_is_non_public.
  - naive_solver.
Qed.

(** C21: whatever the other tasks have done before, a host is let through only
    if it parses, no entry of the list of denied domains matches it, an entry of
    the list of allowed ones does, and, while local binding is off, it leads outside:
    a local name or address must be written out in the allowed list (a wildcard
    does not do), any other name must resolve, in time, to public addresses only. *)
Theorem allowed_host_is_policed (st : state) ts st' ts' raw port :
  system_ok (mkSystem st ts) -> rtc step (mkSystem st ts) (mkSystem st' ts') ->
  host_blocked st' raw port = Allowed ->
  exists h, host_parse raw = Some h
    /\ (forall e, e ∈ default [] (denied_domains (config st')) -> ~ entry_matches e h)
    /\ (exists e, e ∈ default [] (allowed_domains (config st')) /\ entry_matches e h)
    /\ (allow_local_binding (config st') = false ->
         (names_local h -> exists e, e ∈ default [] (allowed_domains (config st')) /\ names_literally e h)
         /\ (~ names_local h -> resolves_publicly h port)).
Proof.
  intros Hsys Hsteps Hall. destruct (steps_ok _ _ Hsteps Hsys) as [Hok _].
  destruct (host_allowed_spec _ _ _ Hok Hall) as (h & Hh & Hd & Ha & Hl).
  exists h. split_and!; [done..|]. intros Hb. specialize (Hl Hb). rewrite <- local_literal_spec.
  by destruct (local_literal h).
Qed.

(** ** Adding a host to a list *)

Lemma str_mentions_spec (l : list str) h :
  existsb (fun entry => str_eqb (normalize_host entry) h) l = true
  <-> exists e, e ∈ l /\ normalize_host e = h.
Proof.
  rewrite existsb_exists. setoid_rewrite <- list_elem_of_In. unfold str_eqb.
  by setoid_rewrite bool_decide_eq_true.
Qed.

(** The entry is put last; no other entry has its normal form. *)
Lemma upsert_spec s host perm normalize e :
  e ∈ default [] (domains (upsert_domain_permission s host perm normalize)) <->
  e = mkEntry host perm
  \/ (e ∈ default [] (domains s) /\ normalize (pattern e) <> normalize host).
Proof.
  unfold upsert_domain_permission. cbn [with_domains domains].
  destruct (is_nil (_ ++ _)) eqn:E.
  { apply is_nil_true, app_eq_nil in E as [_ E]. done. }
  cbn [default from_option id]. rewrite elem_of_app, list_elem_of_singleton, !list_elem_of_In, List.filter_In.
  unfold str_eqb. rewrite negb_true_iff, bool_decide_eq_false. naive_solver.
Qed.

(** What an addition leaves: an entry of the wanted kind for the host. *)
Lemma update_leaves_entry (st st' : state) raw k :
  state_ok st -> update_domain_list st raw k = Ok st' ->
  exists h, host_parse raw = Some h /\ state_ok st' /\ constraints st' = constraints st
    /\ (normalize_host h = h ->
         (exists e, e ∈ kind_entries k (config st') /\ normalize_host e = h)
         /\ forall e, e ∈ opposite_entries k (config st') -> normalize_host e <> h).
Proof.
  intros Hst. unfold update_domain_list. destruct (host_parse raw) as [h|]; [|done]. intros Hup.
  exists h. split; [done|]. apply rbind_ok in Hup as ([new|] & Hprep & Hst'); injection Hst' as <-; cbn.
  - destruct (update_prepare_ok _ _ _ _ Hst Hprep) as (Hok & Hc & Hcfg).
    split_and!; [done..|]. intros Hh. rewrite Hcfg.
    assert (forall p q, mkEntry p q ∈ default [] (domains (upsert_domain_permission (config st) h
      (kind_permission k) normalize_host)) -> normalize_host p = h -> p = h /\ q = kind_permission k) as Hone.
    { intros p q Hin Hp. apply upsert_spec in Hin as [[= -> ->]|[_ Hne]]; [done|]. cbn in Hne. congruence. }
    assert (mkEntry h (kind_permission k) ∈ default [] (domains (upsert_domain_permission (config st) h
      (kind_permission k) normalize_host))) as Hself by (apply upsert_spec; by left).
    destruct k; cbn [kind_entries opposite_entries kind_permission] in *.
    + split; [exists h; split; [|done]|].
      * apply allowed_domains_spec. split; [done|]. intros Hd. by destruct (Hone _ _ Hd Hh).
      * intros e He Hn. apply denied_domains_spec in He. by destruct (Hone _ _ He Hn).
    + split; [exists h; split; [|done]|].
      * by apply denied_domains_spec.
      * intros e He Hn. apply allowed_domains_spec in He as [He _]. by destruct (Hone _ _ He Hn).
  - split_and!; [done..|]. intros _. unfold update_domain_prepare in Hprep.
    destruct (_ && _) eqn:E; [|rewrite unit_ok in Hprep; destruct Hprep as [_ Hp];
      apply rbind_ok in Hp as (? & _ & [=])].
    apply andb_true_iff in E as [E1 E2]. apply str_mentions_spec in E1. split; [done|].
    intros e He Hn. apply negb_true_iff in E2. assert (true = false) as [=]. rewrite <- E2. symmetry.
    apply str_mentions_spec. eauto.
Qed.

(** A glob without special characters matches itself. *)
Definition globs_match_themselves : Prop := forall g, plain_host g -> glob_is_match g g = true.

(** Adding a host to the denied domains takes effect at once and for
    every spelling of it: after a successful addition, a request for any text that
    stands for the host (other letter case, a port, a trailing dot, white space) is
    refused as denied, whatever the allowed domains say, and no entry of the allowed
    domains stands for it any more. *)
Theorem added_denied_host_is_blocked (st st' : state) raw h raw' port :
  globs_match_themselves -> state_ok st ->
  host_parse raw = Some h -> plain_host h -> add_denied_domain st raw = Ok st' ->
  host_parse raw' = Some h ->
  host_blocked st' raw' port = Blocked Denied
  /\ forall e, e ∈ default [] (allowed_domains (config st')) -> normalize_host e <> h.
Proof.
  intros Hglob Hst Hraw Hh Hadd Hraw'.
  destruct (update_leaves_entry _ _ _ _ Hst Hadd) as (h' & Hh' & Hok & _ & Hentry).
  rewrite Hraw in Hh'. injection Hh' as <-.
  destruct (Hentry (normalize_host_plain _ Hh)) as [(e & He & Hn) Hopp]. split; [|done].
  unfold host_blocked. rewrite Hraw'.
  rewrite (proj2 (compiled_matches _ _ _ _ (ok_deny _ Hok))); [done|].
  exists e. split; [done|]. exists h. rewrite (plain_entry_glob e h Hh Hn).
  split; [by left|]. left. by apply Hglob.
Qed.

(** ** The window of blocked requests *)

Lemma drop_oldest_app a b : drop_oldest (drop_oldest a ++ b) = drop_oldest (a ++ b).
Proof.
  unfold drop_oldest. rewrite length_app, length_drop.
  destruct (decide (length a <= MAX_BLOCKED_EVENTS)) as [Hle|Hgt].
  - replace (length a - MAX_BLOCKED_EVENTS) with 0 by lia. by rewrite drop_0, length_app, Nat.sub_0_r.
  - rewrite <- (drop_app_le a b) by lia. rewrite drop_drop, length_app. f_equal. lia.
Qed.

(** Recording one after another keeps the latest events, in order, and counts them all. *)
Lemma record_all (entries : list BlockedRequest) : forall st : state,
  (blocked_total st <= usize_max)%N -> length (blocked st) <= MAX_BLOCKED_EVENTS ->
  foldl record_blocked_section st entries
  = with_blocked st (drop_oldest (blocked st ++ entries))
      (N.min (blocked_total st + N.of_nat (length entries)) usize_max).
Proof.
  induction entries as [|e entries IH]; intros st Ht Hb; cbn [foldl].
  - rewrite app_nil_r, N.add_0_r, N.min_l by done. unfold drop_oldest.
    replace (length (blocked st) - MAX_BLOCKED_EVENTS) with 0 by lia. by destruct st.
  - rewrite IH; unfold record_blocked_section, with_blocked; cbn [blocked blocked_total config
      allow_set deny_set mitm constraints length]; [|unfold saturating_add; lia|apply drop_oldest_length].
    f_equal; [by rewrite drop_oldest_app, <- app_assoc|]. unfold saturating_add. lia.
Qed.

Lemma step_to i (st st' : state) ts ts' t t' :
  ts !! i = Some t -> section st t st' t' -> <[i := t']> ts = ts' ->
  step (mkSystem st ts) (mkSystem st' ts').
Proof. intros Hi Hsec <-. by eapply task_runs. Qed.

(** An event can be lost.  An addition to a list, or a reload, copies the
    window and the count when it reads the state and writes them back later; it
    checks only that the configuration is still the one it read.  So an event that
    another task records in between disappears from the window, and the count goes back. *)
Theorem recorded_event_can_be_lost (st new_state : state) host k entry other :
  update_domain_prepare st host k = Ok (Some new_state) ->
  (exists st', rtc step (mkSystem st [Update host k; Record_ entry]) (mkSystem st' [Finished; Finished])
     /\ blocked st' = blocked st /\ blocked_total st' = blocked_total st)
  /\ (exists st', rtc step (mkSystem st [Reload other; Record_ entry]) (mkSystem st' [Finished; Finished])
        /\ blocked st' = blocked st /\ blocked_total st' = blocked_total st).
Proof.
  intros Hprep. split.
  - exists new_state. split.
    + eapply rtc_l; [by eapply (step_to 0); [|apply update_reads|]|].
      eapply rtc_l; [by eapply (step_to 1); [|apply records|]|].
      eapply rtc_once, (step_to 0); [done| |done]. apply update_writes.
      unfold update_domain_write. by rewrite !bool_decide_eq_true_2.
    + unfold update_domain_prepare in Hprep. case_match; [done|]. rewrite unit_ok in Hprep.
      destruct Hprep as [_ Hp]. apply rbind_ok in Hp as (new & _ & [= <-]). done.
  - exists (reload_write other (blocked st) (blocked_total st)). split; [|done].
    eapply rtc_l; [by eapply (step_to 0); [|apply reload_reads|]|].
    eapply rtc_l; [by eapply (step_to 1); [|apply records|]|].
    eapply rtc_once, (step_to 0); [done| |done]. apply reload_writes.
Qed.

(** A forced reload keeps the window but takes the count from the new state. *)
Lemma force_reload_resets_total (st new_state : state) cfg c :
  build_config_state cfg c = Ok new_state ->
  blocked (force_reload_section st new_state) = blocked st
  /\ blocked_total (force_reload_section st new_state) = 0%N.
Proof.
  unfold build_config_state. rewrite !unit_ok. intros (_ & _ & Hb). apply rbind_ok in Hb as (d & _ & Hb).
  apply rbind_ok in Hb as (a & _ & Hb). apply rbind_ok in Hb as (m & _ & [= <-]). done.
Qed.

(** Patterns with a class of characters: the host parser of [url] rejects their
    text, so both become the same exact pattern of the constraints, and the user entry
    passes although its glob matches other hosts. *)
Lemma rejected_patterns_are_interchangeable :
  url_host_parse (L"[ab].example.com") = None -> url_host_parse (L"evi[l].com") = None ->
  validate_policy_against_constraints
    (with_domains default_settings (Some [mkEntry (L"evi[l].com") PermAllow]))
    (mkConstraints None None None None None (Some [L"[ab].example.com"]) None None None None None)
  = Ok tt.
Proof. intros Hm He. vm_compute in Hm, He. vm_compute. by rewrite Hm, He. Qed.
End runtime.

(** ** The theorems at work *)

(** Globs with [*] and [?] only, a host parser that refuses brackets and spaces. *)
Fixpoint glob_match (fuel : nat) (g s : str) : bool :=
  match fuel with
  | 0 => false
  | S fuel =>
      match g, s with
      | [], [] => true
      | c :: g', _ =>
          if (c =? 42)%N
          then glob_match fuel g' s || match s with _ :: s' => glob_match fuel g s' | [] => false end
          else match s with
               | d :: s' => ((c =? 63)%N || (c =? d)%N) && glob_match fuel g' s'
               | [] => false
               end
      | [], _ :: _ => false
      end
  end.

Definition sample_libraries : HostLibraries := {|
  glob_builds := fun _ => true;
  globset_builds := fun _ => true;
  glob_is_match := fun g s => glob_match (S (length g + length s)) g s;
  url_host_parse := fun s =>
    if existsb (fun c => (c =? 91)%N || (c =? 93)%N || (c =? 32)%N) s then None
    else Some (to_ascii_lowercase s) |}.

(** Names resolve to 8.8.8.8; no MITM. *)
Definition sample_environment : ProxyEnvironment unit := {|
  home := None;
  cwd := Some (L"/work");
  mitm_new := fun _ _ => Some tt;
  target_macos := false;
  canonicalize := fun _ => None;
  lookup_host := fun _ _ => Addresses [V4 (from_octets 8 8 8 8)] |}.

#[local] Existing Instance sample_libraries.
#[local] Existing Instance sample_environment.

Definition no_constraints : NetworkProxyConstraints :=
  mkConstraints None None None None None None None None None None None.

Definition sample_settings : NetworkProxySettings :=
  with_domains default_settings
    (Some [mkEntry (L"*.example.com") PermAllow; mkEntry (L"127.0.0.1") PermAllow;
           mkEntry (L"bad.example.com") PermDeny]).

Definition built (r : result NetworkProxyError (ConfigState unit)) : ConfigState unit :=
  match r with Ok st => st | _ => mkState _ default_settings [] [] None no_constraints [] 0 end.

Definition sample_state : ConfigState unit := built (build_config_state sample_settings no_constraints).

Lemma sample_state_ok : state_ok sample_state.
Proof. split; [vm_compute; reflexivity..|apply Nat.leb_le; vm_compute; reflexivity]. Qed.

Lemma glob_match_self g : forall fuel, Forall (fun c => c <> 42%N) g -> length g < fuel ->
  glob_match fuel g g = true.
Proof.
  induction g as [|c g IH]; intros [|fuel] Hg Hf; cbn in *; try lia.
  apply Forall_cons in Hg as [Hc Hg]. rewrite (proj2 (N.eqb_neq _ _) Hc), N.eqb_refl, orb_true_r.
  apply IH; [done|lia].
Qed.

Lemma sample_globs : globs_match_themselves.
Proof.
  intros g Hg. cbn [glob_is_match sample_libraries]. apply glob_match_self; [|cbn; lia].
  apply Forall_forall. intros c Hc ->. by apply (plain_avoids _ 42%N Hg).
Qed.

Definition sample_entry : BlockedRequest :=
  mkBlocked (L"bad.example.com") (L"denied") None None None (L"http") None None (Some 80%N) 0.

Definition other_settings : NetworkProxySettings :=
  with_domains default_settings (Some [mkEntry (L"*.example.org") PermAllow]).
Definition other_state : ConfigState unit := built (validated_config_state other_settings no_constraints).

(** The mode is set, an event recorded, the state replaced and then reloaded. *)
Lemma proxy_state_invariant_witness :
  exists st' ts', rtc step (mkSystem sample_state [SetMode Limited; Record_ sample_entry; Replace other_state; Reload sample_state])
                    (mkSystem st' ts')
    /\ config st' = sample_settings /\ compile_allowlist_globset (default [] (allowed_domains (config st'))) = Ok (allow_set st')
    /\ length (blocked st') <= MAX_BLOCKED_EVENTS.
Proof.
  set (ts := [SetMode Limited; Record_ sample_entry; Replace other_state; Reload sample_state]).
  set (st1 := record_blocked_section sample_state sample_entry).
  set (st2 := default st1 (set_mode_write st1 sample_state Limited)).
  set (st3 := replace_config_state_section st2 other_state).
  set (st4 := reload_write sample_state (blocked st3) (blocked_total st3)).
  assert (rtc step (mkSystem sample_state ts) (mkSystem st4 [Finished; Finished; Finished; Finished])) as Hsteps.
  { eapply rtc_l; [by eapply (step_to 0); [|apply set_mode_reads; vm_compute; reflexivity|]|].
    eapply rtc_l; [by eapply (step_to 1); [|apply records|]|].
    eapply rtc_l; [eapply (step_to 0); [done| |done]; apply (set_mode_writes _ _ _ st2); vm_compute; reflexivity|].
    eapply rtc_l; [by eapply (step_to 2); [|apply replaces|]|].
    eapply rtc_l; [by eapply (step_to 3); [|apply reload_reads|]|].
    apply rtc_once. by eapply (step_to 3); [|apply reload_writes|]. }
  exists st4, [Finished; Finished; Finished; Finished].
  split; [exact Hsteps|]. split; [vm_compute; reflexivity|].
  assert (Forall task_starts ts) as Hts.
  { repeat apply Forall_cons_2; try apply Forall_nil_2; try exact I;
      [exists other_settings, no_constraints|exists sample_settings, no_constraints]; vm_compute; reflexivity. }
  assert (validated_config_state sample_settings no_constraints = Ok sample_state) as Hst by (vm_compute; reflexivity).
  destruct (proxy_state_invariant sample_settings no_constraints sample_state ts _ _ Hst Hts Hsteps)
    as (_ & _ & Ha & Hw).
  split; [exact Ha|exact Hw].
Defined.

Lemma allowed_host_is_policed_witness :
  exists h, host_parse (L"API.Example.com:443") = Some h
    /\ exists e, e ∈ default [] (allowed_domains (config sample_state)) /\ entry_matches e h.
Proof.
  destruct (allowed_host_is_policed sample_state [] sample_state [] (L"API.Example.com:443") 443)
    as (h & Hh & _ & Ha & _).
  - split; [apply sample_state_ok|constructor].
  - apply rtc_refl.
  - vm_compute. reflexivity.
  - by exists h.
Defined.

Lemma added_denied_host_is_blocked_witness :
  host_blocked (built (add_denied_domain sample_state (L"API.example.com."))) (L"api.example.com:80") 80
  = Blocked Denied.
Proof.
  apply (added_denied_host_is_blocked sample_state _ (L"API.example.com.") (L"api.example.com")).
  - exact sample_globs.
  - apply sample_state_ok.
  - vm_compute. reflexivity.
  - apply (bool_decide_unpack _). vm_compute. exact I.
  - vm_compute. reflexivity.
  - vm_compute. reflexivity.
Defined.

Lemma recorded_event_can_be_lost_witness :
  exists st', rtc step (mkSystem sample_state [Update (L"new.example.org") AllowList; Record_ sample_entry])
                (mkSystem st' [Finished; Finished])
    /\ blocked st' = [] /\ blocked_total st' = 0%N.
Proof.
  destruct (recorded_event_can_be_lost sample_state
    (built (update_domain_list sample_state (L"new.example.org") AllowList)) (L"new.example.org") AllowList
    sample_entry sample_state) as [(st' & Hsteps & Hb & Ht) _]; [vm_compute; reflexivity|].
  exists st'. rewrite Hb, Ht. done.
Defined.
