(* ===== verification/NetworkPolicy.v ===== *)
(** * Decisions about requests (network-proxy/src/network_policy.rs, responses.rs,
    connect_policy.rs, upstream.rs)

    A handler of the proxy runs against the shared state: each access first lets
    the reloader and the other tasks change it ([interfere]).  The handlers are
    written in a monad that threads the state and a trace: the states seen, the audit
    events, what was sent and where. *)

From S2P Require Import Prelude RustStr AbsolutePath NetworkHosts NetworkState.

(** ** Reasons, protocols, decisions *)

Definition REASON_DENIED : str := L"denied".
Definition REASON_METHOD_NOT_ALLOWED : str := L"method_not_allowed".
Definition REASON_MITM_REQUIRED : str := L"mitm_required".
Definition REASON_NOT_ALLOWED : str := L"not_allowed".
Definition REASON_NOT_ALLOWED_LOCAL : str := L"not_allowed_local".
Definition REASON_POLICY_DENIED : str := L"policy_denied".
Definition REASON_PROXY_DISABLED : str := L"proxy_disabled".
Definition REASON_UNIX_SOCKET_UNSUPPORTED : str := L"unix_socket_unsupported".

Definition reason_str (r : HostBlockReason) : str :=
  match r with
  | Denied => REASON_DENIED
  | NotAllowed => REASON_NOT_ALLOWED
  | NotAllowedLocal => REASON_NOT_ALLOWED_LOCAL
  end.

Inductive NetworkProtocol := Http | HttpsConnect | Socks5Tcp | Socks5Udp.

Definition as_policy_protocol (p : NetworkProtocol) : str :=
  match p with
  | Http => L"http"
  | HttpsConnect => L"https_connect"
  | Socks5Tcp => L"socks5_tcp"
  | Socks5Udp => L"socks5_udp"
  end.

Inductive NetworkPolicyDecision := PolicyDeny | PolicyAsk.

Definition decision_str (d : NetworkPolicyDecision) : str :=
  match d with PolicyDeny => L"deny" | PolicyAsk => L"ask" end.

Inductive NetworkDecisionSource := BaselinePolicy | ModeGuard | ProxyState | Decider.

Definition source_str (s : NetworkDecisionSource) : str :=
  match s with
  | BaselinePolicy => L"baseline_policy"
  | ModeGuard => L"mode_guard"
  | ProxyState => L"proxy_state"
  | Decider => L"decider"
  end.

Record NetworkPolicyRequest := mkPolicyRequest {
  req_protocol : NetworkProtocol;
  req_host : str;
  req_port : N;
  req_client_addr : option str;
  req_method : option str;
  req_command : option str;
  req_exec_policy_hint : option str }.

Inductive NetworkDecision :=
  | DecisionAllow
  | DecisionDeny (reason : str) (source : NetworkDecisionSource) (decision : NetworkPolicyDecision).

Definition or_policy_denied (reason : str) : str :=
  if is_nil reason then REASON_POLICY_DENIED else reason.

Definition deny_with_source (reason : str) (source : NetworkDecisionSource) : NetworkDecision :=
  DecisionDeny (or_policy_denied reason) source PolicyDeny.
Definition ask_with_source (reason : str) (source : NetworkDecisionSource) : NetworkDecision :=
  DecisionDeny (or_policy_denied reason) source PolicyAsk.
Definition deny (reason : str) : NetworkDecision := deny_with_source reason Decider.
Definition ask (reason : str) : NetworkDecision := ask_with_source reason Decider.

Definition map_decider_decision (d : NetworkDecision) : NetworkDecision :=
  match d with
  | DecisionAllow => DecisionAllow
  | DecisionDeny reason _ decision => DecisionDeny reason Decider decision
  end.

(** ** Audit events *)

Record AuditEvent := mkAudit {
  scope : str;
  audit_decision : str;
  audit_source : str;
  audit_reason : str;
  audit_protocol : NetworkProtocol;
  server_address : str;
  server_port : N;
  audit_method : str;
  audit_client : str;
  policy_override : bool }.

Definition POLICY_SCOPE_DOMAIN : str := L"domain".
Definition POLICY_SCOPE_NON_DOMAIN : str := L"non_domain".
Definition POLICY_DECISION_ALLOW : str := L"allow".
Definition POLICY_DECISION_DENY : str := L"deny".
Definition POLICY_REASON_ALLOW : str := L"allow".
Definition DEFAULT_METHOD : str := L"none".
Definition DEFAULT_CLIENT_ADDRESS : str := L"unknown".

(** ** Responses *)

Record PolicyDecisionDetails := mkDetails {
  details_decision : NetworkPolicyDecision;
  details_reason : str;
  details_source : NetworkDecisionSource;
  details_protocol : NetworkProtocol;
  details_host : str;
  details_port : N }.

Definition blocked_header_value (reason : str) : str :=
  if str_eqb reason REASON_NOT_ALLOWED || str_eqb reason REASON_NOT_ALLOWED_LOCAL
  then L"blocked-by-allowlist"
  else if str_eqb reason REASON_DENIED then L"blocked-by-denylist"
  else if str_eqb reason REASON_METHOD_NOT_ALLOWED then L"blocked-by-method-policy"
  else if str_eqb reason REASON_MITM_REQUIRED then L"blocked-by-mitm-required"
  else L"blocked-by-policy".

Definition blocked_message (reason : str) : str :=
  if str_eqb reason REASON_NOT_ALLOWED then L"Domain not in allowlist."
  else if str_eqb reason REASON_NOT_ALLOWED_LOCAL
  then L"Sandbox policy blocks local/private network addresses."
  else if str_eqb reason REASON_DENIED then L"Domain denied by the sandbox policy."
  else if str_eqb reason REASON_METHOD_NOT_ALLOWED then L"Method not allowed in limited mode."
  else if str_eqb reason REASON_MITM_REQUIRED then L"MITM required for limited HTTPS."
  else if str_eqb reason REASON_PROXY_DISABLED then L"network proxy is disabled"
  else L"Request blocked by network policy.".

Definition blocked_message_with_policy (reason : str) (details : PolicyDecisionDetails) : str :=
  blocked_message reason.

(** What the JSON of a refusal holds. *)
Record BlockedResponse := mkBlockedResponse {
  resp_status : str;
  resp_host : str;
  resp_reason : str;
  resp_decision : option str;
  resp_source : option str;
  resp_protocol : option str;
  resp_port : option N;
  resp_message : option str }.

(** A response the proxy makes: a status, the header [x-proxy-error], a body.
    [Upstream] is the response of the server asked. *)
Inductive Response :=
  | TextResponse (status : N) (x_proxy_error : option str) (body : str)
  | JsonResponse (status : N) (x_proxy_error : str) (body : BlockedResponse)
  | EmptyResponse (status : N)
  | Upstream (id : N).

Definition text_response (status : N) (body : str) : Response := TextResponse status None body.
Definition blocked_text_response (reason : str) : Response :=
  TextResponse 403 (Some (blocked_header_value reason)) (blocked_message reason).
Definition blocked_text_response_with_policy (reason : str) (details : PolicyDecisionDetails) : Response :=
  TextResponse 403 (Some (blocked_header_value reason)) (blocked_message_with_policy reason details).

Definition json_blocked (host reason : str) (details : option PolicyDecisionDetails) : Response :=
  JsonResponse 403 (blocked_header_value reason)
    (match details with
     | Some d =>
         mkBlockedResponse (L"blocked") host reason (Some (decision_str (details_decision d)))
           (Some (source_str (details_source d))) (Some (as_policy_protocol (details_protocol d)))
           (Some (details_port d)) (Some (blocked_message_with_policy reason d))
     | None => mkBlockedResponse (L"blocked") host reason None None None None None
     end).

(** ** Upstream routes (upstream.rs) *)

(** [rama]'s address of a proxy; [None] when it names no protocol. *)
Record ProxyAddress := mkProxy {
  proxy_is_http : option bool;
  proxy_address : str }.

Record ProxyConfig := mkProxyConfig {
  http : option ProxyAddress;
  https : option ProxyAddress;
  all : option ProxyAddress }.

Definition or_else {A} (a b : option A) : option A := match a with Some _ => a | None => b end.

Definition proxy_for_protocol (c : ProxyConfig) (is_secure : bool) : option ProxyAddress :=
  if is_secure then or_else (https c) (or_else (http c) (all c)) else or_else (http c) (all c).

(** Whose [allow_local_binding] a connector asks for: its own, or the state's. *)
Inductive TargetPolicy := PolicyConfig (allow_local_binding : bool) | PolicyState.

Record UpstreamClient := mkUpstream {
  proxy_config : ProxyConfig;
  transport : TargetPolicy }.

Record MitmState := mkMitm { mitm_upstream : UpstreamClient }.

(** What a request is handed to: the upstream proxy, if any, and the check on
    the address dialled. *)
Record Connector := mkConnector {
  via : option ProxyAddress;
  check : TargetPolicy }.

Definition direct_config : ProxyConfig := mkProxyConfig None None None.

(** ** Requests, as [rama] parses them *)

(** A header map: the names in lower case, every line a pair; a value is [None]
    when it is not visible ASCII. *)
Definition HeaderMap : Type := list (str * option str).

Inductive HostHeader :=
  | HostAbsent
  | HostInvalid
  | HostIs (host : str) (port : option N).

(** [RequestContext]: the authority, the port with the protocol's default, whether
    it is the default, whether the protocol is secure. *)
Record RequestContext := mkContext {
  ctx_host : str;
  ctx_port : option N;
  ctx_effective_port : N;
  ctx_has_default_port : bool;
  ctx_secure : bool }.

Record Request := mkRequest {
  state_attached : bool;
  req_http_method : str;
  uri_has_scheme : bool;
  uri_authority : option str;
  path_and_query : option str;
  context : option RequestContext;
  headers : HeaderMap;
  peer_addr : option str }.

Definition header_get (name : str) (h : HeaderMap) : option (option str) :=
  snd <$> List.find (fun line => str_eqb (fst line) name) h.
(** [HeaderMap::remove] drops all values of the name. *)
Definition header_remove (name : str) (h : HeaderMap) : HeaderMap :=
  List.filter (fun line => negb (str_eqb (fst line) name)) h.

(** ** The world of a handler *)

Inductive Effect :=
  | Saw (st : ConfigState MitmState)
  | Audited (e : AuditEvent)
  | Recorded (e : BlockedRequest)
  | Sent (c : Connector) (r : Request)
  | SentUnix (path : str) (r : Request)
  | Tunnelled (c : Connector) (host : str) (port : N)
  | Relayed (host : str) (port : N).

Record World := mkWorld {
  current : ConfigState MitmState;
  trace : list Effect;
  ticks : nat }.

Definition M (A : Type) : Type := World -> A * World.

(** Before access [n] the reloader and other tasks run; [false]: the reload failed. *)
Class ProxyServices := {
  interfere : nat -> ConfigState MitmState -> ConfigState MitmState * bool;
  clock : nat -> Z;
  env_var : str -> option str;
  parse_proxy_address : str -> option ProxyAddress;
  header_name_from_bytes : str -> option str;
  typed_host : HeaderMap -> HostHeader;
  host_eq : str -> str -> bool;
  upstream_responds : Connector -> Request -> option Response;
  unix_socket_responds : str -> Request -> option Response;
  parse_uri : str -> option (option RequestContext);
  is_header_value : str -> bool }.

Definition mret_ {A} (a : A) : M A := fun w => (a, w).
Definition mbind_ {A B} (m : M A) (k : A -> M B) : M B := fun w => let '(a, w') := m w in k a w'.
Notation "'do' x <- m ; k" := (mbind_ m (fun x => k))
  (at level 200, x pattern, m at level 100, k at level 200, only parsing).

Definition emit (e : Effect) : M unit := fun w => (tt, mkWorld (current w) (trace w ++ [e]) (ticks w)).

Section world.
Context `{HostLibraries} `{ProxyEnvironment MitmState} `{ProxyServices}.

(** An access that reads: [reload_if_needed], then the lock. *)
Definition access : M (option (ConfigState MitmState)) :=
  fun w =>
    let '(st, reloaded) := interfere (ticks w) (current w) in
    if reloaded then (Some st, mkWorld st (trace w ++ [Saw st]) (S (ticks w)))
    else (None, mkWorld st (trace w) (S (ticks w))).

Definition read {A} (f : ConfigState MitmState -> A) : M (option A) :=
  do st <- access; mret_ (f <$> st).

(** [let _ = state.record_blocked(...)]; the time is taken when the entry is made. *)
Definition record_blocked (entry : Z -> BlockedRequest) : M unit :=
  fun w =>
    let e := entry (clock (ticks w)) in
    let '(st, reloaded) := interfere (ticks w) (current w) in
    if reloaded
    then (tt, mkWorld (record_blocked_section st e) (trace w ++ [Saw st; Recorded e]) (S (ticks w)))
    else (tt, mkWorld st (trace w) (S (ticks w))).

Fixpoint read_proxy_env (keys : list str) : option ProxyAddress :=
  match keys with
  | [] => None
  | key :: rest =>
      match env_var key with
      | None => read_proxy_env rest
      | Some value =>
          let value := trim value in
          if is_nil value then read_proxy_env rest
          else match parse_proxy_address value with
               | Some proxy => if default true (proxy_is_http proxy) then Some proxy else read_proxy_env rest
               | None => read_proxy_env rest
               end
      end
  end.

Definition from_env : ProxyConfig :=
  mkProxyConfig (read_proxy_env [L"HTTP_PROXY"; L"http_proxy"])
    (read_proxy_env [L"HTTPS_PROXY"; L"https_proxy"]) (read_proxy_env [L"ALL_PROXY"; L"all_proxy"]).

Definition proxy_for_connect : option ProxyAddress := proxy_for_protocol from_env true.

Definition upstream_direct : UpstreamClient := mkUpstream direct_config PolicyState.
Definition upstream_from_env_proxy : UpstreamClient := mkUpstream from_env PolicyState.

(** [MitmState::new] once the certificate authority is there. *)
Definition mitm_state_new (allow_upstream_proxy allow_local_binding : bool) : MitmState :=
  mkMitm (mkUpstream (if allow_upstream_proxy then from_env else direct_config)
            (PolicyConfig allow_local_binding)).

(** [UpstreamClient::serve]: the proxy for the protocol of the request. *)
Definition upstream_serve (c : UpstreamClient) (r : Request) : M (option Response) :=
  let proxy := proxy_for_protocol (proxy_config c)
                 (match context r with Some ctx => ctx_secure ctx | None => false end) in
  let connector := mkConnector proxy (transport c) in
  do _ <- emit (Sent connector r); mret_ (upstream_responds connector r).

(** ** The check on the address dialled (connect_policy.rs) *)

Inductive ConnectError := RejectedByPolicy | StateUnreadable.

Definition policy_allow_local_binding (p : TargetPolicy) : M (result ConnectError bool) :=
  match p with
  | PolicyConfig b => mret_ (Ok b)
  | PolicyState => do b <- read (fun st => allow_local_binding (config st)); mret_ (ok_or b StateUnreadable)
  end.

(** [serve] of [TargetCheckedTcpConnector] up to the socket: with an upstream proxy
    the address is the proxy's and is not checked. *)
Definition connect (c : Connector) (addr : IpAddr) : M (result ConnectError unit) :=
  match via c with
  | Some _ => mret_ (Ok tt)
  | None =>
      do allowed <- policy_allow_local_binding (check c);
      mret_ (let? b := allowed in
             if negb b && is_non_public_ip addr then Err RejectedByPolicy else Ok tt)
  end.

(** ** Deciding about a request (network_policy.rs) *)

Definition emit_policy_audit_event (scope decision source reason : str) (p : NetworkProtocol)
  (address : str) (port : N) (method client : option str) (override : bool) : M unit :=
  emit (Audited (mkAudit scope decision source reason p address port (default DEFAULT_METHOD method)
                   (default DEFAULT_CLIENT_ADDRESS client) override)).

Definition emit_block_decision_audit_event (source : NetworkDecisionSource) (reason : str)
  (p : NetworkProtocol) (address : str) (port : N) (method client : option str) : M unit :=
  emit_policy_audit_event POLICY_SCOPE_NON_DOMAIN POLICY_DECISION_DENY (source_str source) reason p
    address port method client false.

Definition emit_allow_decision_audit_event (source : NetworkDecisionSource) (reason : str)
  (p : NetworkProtocol) (address : str) (port : N) (method client : option str) : M unit :=
  emit_policy_audit_event POLICY_SCOPE_NON_DOMAIN POLICY_DECISION_ALLOW (source_str source) reason p
    address port method client false.

Definition PolicyDecider : Type := NetworkPolicyRequest -> NetworkDecision.

(** The decision and whether it overrides the lists. *)
Definition decide_host (decider : option PolicyDecider) (request : NetworkPolicyRequest)
  (d : HostBlockDecision) : NetworkDecision * bool :=
  match d with
  | Allowed => (DecisionAllow, false)
  | Blocked NotAllowed =>
      match decider with
      | Some decide =>
          let decider_decision := map_decider_decision (decide request) in
          (decider_decision, match decider_decision with DecisionAllow => true | _ => false end)
      | None => (deny_with_source (reason_str NotAllowed) BaselinePolicy, false)
      end
  | Blocked reason => (deny_with_source (reason_str reason) BaselinePolicy, false)
  end.

Definition evaluate_host_policy (decider : option PolicyDecider) (request : NetworkPolicyRequest)
  : M (option NetworkDecision) :=
  do host_decision <- read (fun st => host_blocked st (req_host request) (req_port request));
  match host_decision with
  | None => mret_ None
  | Some host_decision =>
      let '(decision, policy_override) := decide_host decider request host_decision in
      let '(policy_decision, source, reason) :=
        match decision with
        | DecisionAllow =>
            (POLICY_DECISION_ALLOW, if policy_override then Decider else BaselinePolicy,
             if policy_override then reason_str NotAllowed else POLICY_REASON_ALLOW)
        | DecisionDeny reason source decision => (decision_str decision, source, reason)
        end in
      do _ <- emit_policy_audit_event POLICY_SCOPE_DOMAIN policy_decision (source_str source) reason
                (req_protocol request) (req_host request) (req_port request) (req_method request)
                (req_client_addr request) policy_override;
      mret_ (Some decision)
  end.
End world.
