(* ===== verification/NetworkHandlers.v ===== *)
(** * The handlers of the proxy (network-proxy/src/http_proxy.rs, socks5.rs, mitm.rs)

    The HTTP handlers for CONNECT and for plain requests, the SOCKS5 handlers and
    the requests inside an intercepted tunnel, written over the monad of
    [NetworkPolicy], and what they guarantee while other tasks change the state. *)

From S2P Require Import Prelude RustStr AbsolutePath NetworkHosts NetworkState NetworkRuntime NetworkPolicy.

Section handlers.
Context `{HostLibraries} `{ProxyEnvironment MitmState} `{ProxyServices}.

(** ** Shared pieces *)

Definition internal_error : Response := text_response 500 (L"error").

Definition blocked_entry (host reason : str) (client method : option str) (m : option NetworkMode)
  (protocol : str) (decision source : option str) (port : N) : Z -> BlockedRequest :=
  mkBlocked host reason client method m protocol decision source (Some port).

Definition proxy_disabled_response (host : str) (port : N) (client method : option str)
  (p : NetworkProtocol) (audit_endpoint_override : option (str * N)) : M Response :=
  let '(address, audit_port) := default (host, port) audit_endpoint_override in
  do _ <- emit_block_decision_audit_event ProxyState REASON_PROXY_DISABLED p address audit_port method client;
  do _ <- record_blocked (blocked_entry host REASON_PROXY_DISABLED client method None
            (as_policy_protocol p) (Some (L"deny")) (Some (L"proxy_state")) port);
  let details := mkDetails PolicyDeny REASON_PROXY_DISABLED ProxyState p host port in
  mret_ (text_response 503 (blocked_message_with_policy REASON_PROXY_DISABLED details)).

(** What every handler does with a refusal of [evaluate_host_policy]. *)
Definition record_denial (details : PolicyDecisionDetails) (client method : option str)
  (m : option NetworkMode) (protocol : str) : M unit :=
  record_blocked (blocked_entry (details_host details) (details_reason details) client method m protocol
    (Some (decision_str (details_decision details))) (Some (source_str (details_source details)))
    (details_port details)).

(** ** CONNECT (http_proxy.rs) *)

(** An accepted CONNECT: the target, the mode and the MITM state it will run under. *)
Record Accepted := mkAccepted {
  target_host : str;
  target_port : N;
  accepted_mode : NetworkMode;
  accepted_mitm : option MitmState }.

Definition http_connect_accept (policy_decider : option PolicyDecider) (req : Request)
  : M (result Response Accepted) :=
  if negb (state_attached req) then mret_ (Err (text_response 500 (L"missing state")))
  else
    match context req with
    | None => mret_ (Err (text_response 400 (L"missing authority")))
    | Some ctx =>
        let host := normalize_host (ctx_host ctx) in
        let port := ctx_effective_port ctx in
        let method := Some (L"CONNECT") in
        if is_nil host then mret_ (Err (text_response 400 (L"invalid host")))
        else
          let client := peer_addr req in
          do is_enabled <- read (fun st => enabled (config st));
          match is_enabled with
          | None => mret_ (Err internal_error)
          | Some false =>
              do resp <- proxy_disabled_response host port client method HttpsConnect None;
              mret_ (Err resp)
          | Some true =>
              do decision <- evaluate_host_policy policy_decider
                               (mkPolicyRequest HttpsConnect host port client method None None);
              match decision with
              | None => mret_ (Err (text_response 500 (L"error")))
              | Some (DecisionDeny reason source decision) =>
                  let details := mkDetails decision reason source HttpsConnect host port in
                  do _ <- record_denial details client method None (L"http-connect");
                  mret_ (Err (blocked_text_response_with_policy reason details))
              | Some DecisionAllow =>
                  do m <- read (fun st => mode (config st));
                  match m with
                  | None => mret_ (Err internal_error)
                  | Some m =>
                      do mitm_state <- read mitm;
                      match mitm_state with
                      | None => mret_ (Err (text_response 500 (L"error")))
                      | Some mitm_state =>
                          if bool_decide (m = Limited) && is_none mitm_state then
                            do _ <- emit_block_decision_audit_event ModeGuard REASON_MITM_REQUIRED
                                      HttpsConnect host port method client;
                            let details :=
                              mkDetails PolicyDeny REASON_MITM_REQUIRED ModeGuard HttpsConnect host port in
                            do _ <- record_denial details client method (Some Limited) (L"http-connect");
                            mret_ (Err (blocked_text_response_with_policy REASON_MITM_REQUIRED details))
                          else mret_ (Ok (mkAccepted (ctx_host ctx) port m mitm_state))
                      end
                  end
              end
          end
    end.

(** [http_connect_proxy] on the upgraded stream: intercept, or dial. *)
Inductive Tunnel := Intercepted (m : MitmState) | Dialled (c : Connector).

Definition http_connect_proxy (a : Accepted) : M Tunnel :=
  match accepted_mode a, accepted_mitm a with
  | Limited, Some m => mret_ (Intercepted m)
  | _, _ =>
      do allow <- read (fun st => allow_upstream_proxy (config st));
      let proxy := if default false allow then proxy_for_connect else None in
      let connector := mkConnector proxy PolicyState in
      do _ <- emit (Tunnelled connector (target_host a) (target_port a));
      mret_ (Dialled connector)
  end.

(** ** Requests inside an intercepted tunnel (mitm.rs) *)

Record MitmPolicyContext := mkMitmContext {
  mitm_target_host : str;
  mitm_target_port : N;
  mitm_mode : NetworkMode }.

Definition mitm_context (a : Accepted) : MitmPolicyContext :=
  mkMitmContext (normalize_host (target_host a)) (target_port a) (accepted_mode a).

Definition extract_request_host (req : Request) : option str :=
  match header_get (L"host") (headers req) with
  | Some (Some v) => Some v
  | _ => uri_authority req
  end.

(** [Ok None]: nothing blocks the request; [Err tt]: the state could not be read. *)
Definition mitm_blocking_response (req : Request) (policy : MitmPolicyContext)
  : M (result unit (option Response)) :=
  let method := req_http_method req in
  if str_eqb method (L"CONNECT")
  then mret_ (Ok (Some (text_response 405 (L"CONNECT not supported inside MITM"))))
  else
    let client := peer_addr req in
    let mismatch :=
      match extract_request_host req with
      | Some request_host =>
          let normalized := normalize_host request_host in
          negb (is_nil normalized) && negb (str_eqb normalized (mitm_target_host policy))
      | None => false
      end in
    if mismatch then mret_ (Ok (Some (text_response 400 (L"host mismatch"))))
    else
      let record reason :=
        record_blocked (blocked_entry (mitm_target_host policy) reason client (Some method)
          (Some (mitm_mode policy)) (L"https") None None (mitm_target_port policy)) in
      do decision <- read (fun st => host_blocked st (mitm_target_host policy) (mitm_target_port policy));
      match decision with
      | None => mret_ (Err tt)
      | Some (Blocked NotAllowedLocal) =>
          do _ <- record REASON_NOT_ALLOWED_LOCAL;
          mret_ (Ok (Some (blocked_text_response REASON_NOT_ALLOWED_LOCAL)))
      | Some _ =>
          if negb (allows_method (mitm_mode policy) method) then
            do _ <- record REASON_METHOD_NOT_ALLOWED;
            mret_ (Ok (Some (blocked_text_response REASON_METHOD_NOT_ALLOWED)))
          else mret_ (Ok None)
      end.

Definition authority_header_value (host : str) (port : N) : str :=
  if contains_char COLON host
  then if (port =? 443)%N then L"[" ++ host ++ L"]"
       else L"[" ++ host ++ L"]:" ++ show_nat (N.to_nat port)
  else if (port =? 443)%N then host
  else host ++ L":" ++ show_nat (N.to_nat port).

Definition mitm_upstream_error : Response := text_response 502 (L"mitm upstream error").

(** [HeaderMap::insert] replaces all values of the name. *)
Definition header_insert (name value : str) (h : HeaderMap) : HeaderMap :=
  header_remove name h ++ [(name, Some value)].

Definition handle_mitm_request (m : MitmState) (policy : MitmPolicyContext) (req : Request) : M Response :=
  do blocking <- mitm_blocking_response req policy;
  match blocking with
  | Ok (Some response) => mret_ response
  | Ok None =>
      let authority := authority_header_value (mitm_target_host policy) (mitm_target_port policy) in
      let uri := L"https://" ++ authority ++ default (L"/") (path_and_query req) in
      match parse_uri uri with
      | None => mret_ mitm_upstream_error
      | Some ctx =>
          if negb (is_header_value authority) then mret_ mitm_upstream_error
          else
            let upstream_req :=
              mkRequest (state_attached req) (req_http_method req) true (Some authority)
                (path_and_query req) ctx (header_insert (L"host") authority (headers req)) (peer_addr req) in
            do resp <- upstream_serve (mitm_upstream m) upstream_req;
            mret_ (default mitm_upstream_error resp)
      end
  | _ => mret_ mitm_upstream_error
  end.

(** ** Plain requests (http_proxy.rs) *)

Definition mismatch : str := L"Host header does not match request target".

Definition validate_absolute_form_host_header (req : Request) (ctx : RequestContext) : result str unit :=
  if negb (uri_has_scheme req) then Ok tt
  else
    match typed_host (headers req) with
    | HostInvalid => Err (L"invalid Host header")
    | HostAbsent => Ok tt
    | HostIs host port =>
        if negb (host_eq host (ctx_host ctx)) then Err mismatch
        else
          match port with
          | Some p => if bool_decide (Some p = ctx_port ctx) then Ok tt else Err mismatch
          | None => if ctx_has_default_port ctx then Ok tt else Err mismatch
          end
    end.

(** One pass of the loop over the [Connection] header: the first value names
    headers to drop, [remove] drops all lines of a name. *)
Definition connection_tokens (raw : option str) : list str :=
  match raw with
  | Some text => List.filter (fun t => negb (is_nil t)) (trim <$> split_char 44 text)
  | None => []
  end.

Fixpoint remove_tokens (tokens : list str) (h : HeaderMap) : HeaderMap :=
  match tokens with
  | [] => h
  | t :: rest =>
      remove_tokens rest (match header_name_from_bytes t with Some n => header_remove n h | None => h end)
  end.

Fixpoint remove_connection (fuel : nat) (h : HeaderMap) : HeaderMap :=
  match fuel with
  | 0 => h
  | S fuel =>
      match header_get (L"connection") h with
      | None => h
      | Some raw => remove_connection fuel (remove_tokens (connection_tokens raw)
                                              (header_remove (L"connection") h))
      end
  end.

Definition hop_by_hop : list str :=
  [L"keep-alive"; L"proxy-connection"; L"proxy-authorization"; L"trailer"; L"transfer-encoding"; L"upgrade"].

Definition remove_hop_by_hop_request_headers (h : HeaderMap) : HeaderMap :=
  let h := foldl (fun h name => header_remove name h) (remove_connection (S (length h)) h) hop_by_hop in
  match header_name_from_bytes [116; 101]%N with Some n => header_remove n h | None => h end.

Definition with_headers (req : Request) (h : HeaderMap) : Request :=
  mkRequest (state_attached req) (req_http_method req) (uri_has_scheme req) (uri_authority req)
    (path_and_query req) (context req) h (peer_addr req).

(** [proxy_via_unix_socket]; elsewhere than on macOS it fails. *)
Definition proxy_via_unix_socket (req : Request) (path : str) : M (option Response) :=
  if negb target_macos then mret_ None
  else
    match parse_uri (default (L"/") (path_and_query req)) with
    | None => mret_ None
    | Some ctx =>
        let h := remove_hop_by_hop_request_headers (header_remove (L"x-unix-socket") (headers req)) in
        let req := mkRequest (state_attached req) (req_http_method req) false None (path_and_query req)
                     ctx h (peer_addr req) in
        do _ <- emit (SentUnix path req); mret_ (unix_socket_responds path req)
    end.

Definition UNIX_SOCKET : str := L"unix-socket".

Definition unix_socket_request (req : Request) (method_ok : bool) (path : str) : M Response :=
  let client := peer_addr req in
  let method := Some (req_http_method req) in
  do is_enabled <- read (fun st => enabled (config st));
  match is_enabled with
  | None => mret_ internal_error
  | Some false => proxy_disabled_response path 0 client method Http (Some (UNIX_SOCKET, 0%N))
  | Some true =>
      if negb method_ok then
        do _ <- emit_block_decision_audit_event ModeGuard REASON_METHOD_NOT_ALLOWED Http UNIX_SOCKET 0
                  method client;
        mret_ (json_blocked UNIX_SOCKET REASON_METHOD_NOT_ALLOWED None)
      else if negb target_macos then
        do _ <- emit_block_decision_audit_event ProxyState REASON_UNIX_SOCKET_UNSUPPORTED Http UNIX_SOCKET 0
                  method client;
        mret_ (text_response 501 (L"unix sockets unsupported"))
      else
        do allowed <- read (fun st => is_unix_socket_allowed st path);
        match allowed with
        | Some true =>
            do _ <- emit_allow_decision_audit_event ProxyState (L"allow") Http UNIX_SOCKET 0 method client;
            do resp <- proxy_via_unix_socket req path;
            mret_ (default (text_response 502 (L"unix socket proxy failed")) resp)
        | Some false =>
            do _ <- emit_block_decision_audit_event ProxyState REASON_NOT_ALLOWED Http UNIX_SOCKET 0
                      method client;
            mret_ (json_blocked UNIX_SOCKET REASON_NOT_ALLOWED None)
        | None => mret_ (text_response 500 (L"error"))
        end
  end.

(** The rest of [http_plain_proxy], for a request with a host. *)
Definition plain_request (policy_decider : option PolicyDecider) (req : Request) (method_ok : bool)
  : M Response :=
  let client := peer_addr req in
  let method := Some (req_http_method req) in
  match context req with
  | None => mret_ (text_response 400 (L"missing host"))
  | Some ctx =>
      let host := normalize_host (ctx_host ctx) in
      let port := ctx_effective_port ctx in
      match validate_absolute_form_host_header req ctx with
      | Err reason => mret_ (text_response 400 reason)
      | _ =>
          do is_enabled <- read (fun st => enabled (config st));
          match is_enabled with
          | None => mret_ internal_error
          | Some false => proxy_disabled_response host port client method Http None
          | Some true =>
              do decision <- evaluate_host_policy policy_decider
                               (mkPolicyRequest Http host port client method None None);
              match decision with
              | None => mret_ (text_response 500 (L"error"))
              | Some (DecisionDeny reason source decision) =>
                  let details := mkDetails decision reason source Http host port in
                  do _ <- record_denial details client method None (L"http");
                  mret_ (json_blocked host reason (Some details))
              | Some DecisionAllow =>
                  if negb method_ok then
                    do _ <- emit_block_decision_audit_event ModeGuard REASON_METHOD_NOT_ALLOWED Http host
                              port method client;
                    let details := mkDetails PolicyDeny REASON_METHOD_NOT_ALLOWED ModeGuard Http host port in
                    do _ <- record_denial details client method (Some Limited) (L"http");
                    mret_ (json_blocked host REASON_METHOD_NOT_ALLOWED (Some details))
                  else
                    do allow <- read (fun st => allow_upstream_proxy (config st));
                    match allow with
                    | None => mret_ internal_error
                    | Some allow =>
                        let upstream := if allow then upstream_from_env_proxy else upstream_direct in
                        do resp <- upstream_serve upstream
                                     (with_headers req (remove_hop_by_hop_request_headers (headers req)));
                        mret_ (default (text_response 502 (L"upstream failure")) resp)
                    end
              end
          end
      end
  end.

Definition http_plain_proxy (policy_decider : option PolicyDecider) (req : Request) : M Response :=
  if negb (state_attached req) then mret_ (text_response 500 (L"error"))
  else
    do method_ok <- read (fun st => method_allowed st (req_http_method req));
    match method_ok with
    | None => mret_ internal_error
    | Some method_ok =>
        match header_get (L"x-unix-socket") (headers req) with
        | Some (Some path) => unix_socket_request req method_ok path
        | Some None => mret_ (text_response 400 (L"invalid x-unix-socket header"))
        | None => plain_request policy_decider req method_ok
        end
    end.

(** ** SOCKS5 (socks5.rs) *)

Inductive SocksError :=
  | MissingState
  | InvalidSocksHost
  | PolicyDenied (message : str)
  | ProxyFailure.

Definition policy_denied_error (reason : str) (details : PolicyDecisionDetails) : SocksError :=
  PolicyDenied (blocked_message_with_policy reason details).

(** The checks both SOCKS5 handlers make, for protocol [p], recorded as [label]. *)
Definition socks5_checks (policy_decider : option PolicyDecider) (p : NetworkProtocol) (label : str)
  (raw_host : str) (port : N) (client : option str) : M (result SocksError str) :=
  let host := normalize_host raw_host in
  if is_nil host then mret_ (Err InvalidSocksHost)
  else
    let refuse reason source m :=
      do _ <- emit_block_decision_audit_event source reason p host port None client;
      let details := mkDetails PolicyDeny reason source p host port in
      do _ <- record_denial details client None m label;
      mret_ (Err (policy_denied_error reason details)) in
    do is_enabled <- read (fun st => enabled (config st));
    match is_enabled with
    | None => mret_ (Err ProxyFailure)
    | Some false => refuse REASON_PROXY_DISABLED ProxyState None
    | Some true =>
        do m <- read (fun st => mode (config st));
        match m with
        | None => mret_ (Err ProxyFailure)
        | Some Limited => refuse REASON_METHOD_NOT_ALLOWED ModeGuard (Some Limited)
        | Some Full =>
            do decision <- evaluate_host_policy policy_decider
                             (mkPolicyRequest p host port client None None None);
            match decision with
            | None => mret_ (Err ProxyFailure)
            | Some (DecisionDeny reason source decision) =>
                let details := mkDetails decision reason source p host port in
                do _ <- record_denial details client None None label;
                mret_ (Err (policy_denied_error reason details))
            | Some DecisionAllow => mret_ (Ok host)
            end
        end
    end.

Definition handle_socks5_tcp (policy_decider : option PolicyDecider) (attached : bool) (raw_host : str)
  (port : N) (client : option str) : M (result SocksError Connector) :=
  if negb attached then mret_ (Err MissingState)
  else
    do checked <- socks5_checks policy_decider Socks5Tcp (L"socks5") raw_host port client;
    match checked with
    | Ok host =>
        let connector := mkConnector None PolicyState in
        do _ <- emit (Tunnelled connector raw_host port);
        mret_ (Ok connector)
    | Err e => mret_ (Err e)
    | _ => mret_ (Err ProxyFailure)
    end.

Definition inspect_socks5_udp (policy_decider : option PolicyDecider) (raw_ip : str) (port : N)
  (client : option str) : M (result SocksError unit) :=
  do checked <- socks5_checks policy_decider Socks5Udp (L"socks5-udp") raw_ip port client;
  match checked with
  | Ok host => do _ <- emit (Relayed raw_ip port); mret_ (Ok tt)
  | Err e => mret_ (Err e)
  | _ => mret_ (Err ProxyFailure)
  end.
End handlers.
