(* ===== verification/NetworkSafety.v ===== *)
(** * What the handlers guarantee (http_proxy.rs, socks5.rs, mitm.rs, connect_policy.rs)

    A small program logic over traces: [wpt m post] says that [m], run while other
    tasks keep the state valid, adds to the trace a part that satisfies [post].  The
    theorems follow each handler with it. *)

From S2P Require Import Prelude RustStr AbsolutePath NetworkHosts NetworkState NetworkRuntime NetworkPolicy NetworkHandlers.

(** ** Traces *)

Section logic.
Context `{HostLibraries} `{ProxyEnvironment MitmState} `{ProxyServices}.

(** The other tasks keep the invariant of [NetworkRuntime]. *)
Definition others_keep_invariant : Prop :=
  forall n st, state_ok st -> state_ok (fst (interfere n st)).

(** Whatever interleaving of other tasks runs before an access, it does. *)
Lemma interleavings_keep_invariant :
  (forall n st, exists ts ts',
     Forall task_ok ts /\ rtc step (mkSystem st ts) (mkSystem (fst (interfere n st)) ts')) ->
  others_keep_invariant.
Proof.
  intros Hint n st Hst. destruct (Hint n st) as (ts & ts' & Hts & Hsteps).
  by destruct (steps_ok _ _ Hsteps (conj Hst Hts)).
Qed.

Definition wpt {A} (m : M A) (post : A -> list Effect -> Prop) : Prop :=
  forall w, state_ok (current w) ->
    let '(a, w') := m w in
    state_ok (current w') /\ exists t, trace w' = trace w ++ t /\ post a t.

Lemma wpt_ret {A} (a : A) (post : A -> list Effect -> Prop) : post a [] -> wpt (mret_ a) post.
Proof. intros Hp w Hw. split; [done|]. exists []. by rewrite app_nil_r. Qed.

Lemma wpt_bind {A B} (m : M A) (k : A -> M B) post :
  wpt m (fun a t1 => wpt (k a) (fun b t2 => post b (t1 ++ t2))) -> wpt (mbind_ m k) post.
Proof.
  intros Hm w Hw. specialize (Hm w Hw). unfold mbind_. destruct (m w) as [a w1].
  destruct Hm as (Hw1 & t1 & Ht1 & Hk). specialize (Hk w1 Hw1). destruct (k a w1) as [b w2].
  destruct Hk as (Hw2 & t2 & Ht2 & Hp). split; [done|]. exists (t1 ++ t2).
  by rewrite Ht2, Ht1, app_assoc.
Qed.

Lemma wpt_mono {A} (m : M A) (post post' : A -> list Effect -> Prop) :
  wpt m post -> (forall a t, post a t -> post' a t) -> wpt m post'.
Proof.
  intros Hm Himp w Hw. specialize (Hm w Hw). destruct (m w) as [a w'].
  destruct Hm as (Hw' & t & Ht & Hp). eauto 6.
Qed.

Lemma wpt_emit e (post : unit -> list Effect -> Prop) : post tt [e] -> wpt (emit e) post.
Proof. intros Hp w Hw. split; [done|]. by exists [e]. Qed.

Context (rely : others_keep_invariant).

Lemma wpt_read {A} (f : ConfigState MitmState -> A) post :
  (forall st, state_ok st -> post (Some (f st)) [Saw st]) -> post None [] -> wpt (read f) post.
Proof.
  intros Hsome Hnone w Hw. unfold read, mbind_, access, mret_.
  pose proof (rely (ticks w) _ Hw) as Hst. destruct (interfere (ticks w) (current w)) as [st []]; cbn in *.
  - split; [done|]. exists [Saw st]. auto.
  - split; [done|]. exists []. by rewrite app_nil_r.
Qed.

Lemma record_section_ok (st : ConfigState MitmState) e :
  state_ok st -> state_ok (record_blocked_section st e).
Proof. intros Hst. apply with_blocked_ok; [done|apply drop_oldest_length]. Qed.

Lemma wpt_record entry (post : unit -> list Effect -> Prop) :
  (forall st z, post tt [Saw st; Recorded (entry z)]) -> post tt [] -> wpt (record_blocked entry) post.
Proof.
  intros Hsome Hnone w Hw. unfold record_blocked.
  pose proof (rely (ticks w) _ Hw) as Hst. destruct (interfere (ticks w) (current w)) as [st []]; cbn in *.
  - split; [by apply record_section_ok|]. by exists [Saw st; Recorded (entry (clock (ticks w)))].
  - split; [done|]. exists []. by rewrite app_nil_r.
Qed.

(** ** Deciding about the host *)

(** The lists let the host through, or they merely miss it and the decider
    allows the request. *)
Definition host_cleared (decider : option PolicyDecider) (request : NetworkPolicyRequest)
  (st : ConfigState MitmState) : Prop :=
  host_blocked st (req_host request) (req_port request) = Allowed
  \/ (host_blocked st (req_host request) (req_port request) = Blocked NotAllowed
      /\ exists decide, decider = Some decide /\ decide request = DecisionAllow).

(** The audit event tells the decision. *)
Definition audits (request : NetworkPolicyRequest) (e : AuditEvent) (decision : str) : Prop :=
  scope e = POLICY_SCOPE_DOMAIN /\ server_address e = req_host request
  /\ server_port e = req_port request /\ audit_decision e = decision.

Lemma decide_host_spec decider request d :
  match decide_host decider request d with
  | (DecisionAllow, _) =>
      d = Allowed \/ (d = Blocked NotAllowed /\ exists decide, decider = Some decide /\ decide request = DecisionAllow)
  | _ => True
  end.
Proof.
  destruct d as [|[]]; cbn; [auto|done| |done].
  destruct decider as [decide|]; [|done]. cbn. destruct (decide request) eqn:E; cbn; [|done]. eauto.
Qed.

Lemma wpt_evaluate decider request (post : option NetworkDecision -> list Effect -> Prop) :
  (forall st e, state_ok st -> host_cleared decider request st -> audits request e POLICY_DECISION_ALLOW ->
     post (Some DecisionAllow) [Saw st; Audited e]) ->
  (forall st e reason source decision, audits request e (decision_str decision) ->
     post (Some (DecisionDeny reason source decision)) [Saw st; Audited e]) ->
  post None [] -> wpt (evaluate_host_policy decider request) post.
Proof.
  intros Hallow Hdeny Hnone. apply wpt_bind, wpt_read; [|by apply wpt_ret].
  intros st Hst. pose proof (decide_host_spec decider request (host_blocked st (req_host request) (req_port request))) as Hd.
  destruct (decide_host decider request _) as [[|reason source decision] override].
  - apply wpt_bind, wpt_emit, wpt_ret. cbn. by apply Hallow.
  - apply wpt_bind, wpt_emit, wpt_ret. cbn. by apply Hdeny.
Qed.
End logic.

(** Follow a handler: each command's rule, then the cases of its result. *)
Ltac wpt_step :=
  lazymatch goal with
  | |- wpt (mbind_ _ _) _ => apply wpt_bind
  | |- wpt (mret_ _) _ => apply wpt_ret
  | |- wpt (emit _) _ => apply wpt_emit
  | |- wpt (read _) _ => apply wpt_read; [eassumption|intros ? ?|]
  | |- wpt (record_blocked _) _ => apply wpt_record; [eassumption|intros ? ?|]
  | |- wpt (evaluate_host_policy _ _) _ => apply wpt_evaluate; [eassumption|intros ? ? ? ? ?|intros ? ? ? ? ? ?|]
  | |- wpt (match ?x with _ => _ end) _ => destruct x eqn:?
  | |- wpt (if ?x then _ else _) _ => destruct x eqn:?
  end; cbn beta iota.

Ltac wpt_run := repeat wpt_step.

(** The one element of a trace an effect of this kind can be. *)
Ltac find_effect Hin :=
  cbn [app] in Hin;
  repeat (apply elem_of_cons in Hin as [Hin|Hin];
          [first [discriminate Hin | injection Hin; intros; subst; clear Hin]|]);
  try (by apply not_elem_of_nil in Hin).

Section safety.
Context `{HostLibraries} `{ProxyEnvironment MitmState} `{ProxyServices}.
Context (rely : others_keep_invariant).

Lemma wpt_elim {A} (m : M A) post w a w' :
  wpt m post -> state_ok (current w) -> m w = (a, w') ->
  exists t, trace w' = trace w ++ t /\ post a t.
Proof. intros Hm Hw Hrun. specialize (Hm w Hw). rewrite Hrun in Hm. by destruct Hm. Qed.

(** ** Plain requests *)

(** A state with property [P] was seen in the trace. *)
Definition saw (t : list Effect) (P : ConfigState MitmState -> Prop) : Prop :=
  exists st, Saw st ∈ t /\ P st.

Definition plain_policy_request (req : Request) (ctx : RequestContext) : NetworkPolicyRequest :=
  mkPolicyRequest Http (normalize_host (ctx_host ctx)) (ctx_effective_port ctx) (peer_addr req)
    (Some (req_http_method req)) None None.

(** What must have been seen before a plain request leaves. *)
Record sent_properly (decider : option PolicyDecider) (req : Request) (t : list Effect) (c : Connector)
  (r : Request) : Prop := {
  sent_method : saw t (fun st => allows_method (mode (config st)) (req_http_method req) = true);
  sent_enabled : saw t (fun st => enabled (config st) = true);
  sent_host : exists ctx, context req = Some ctx
    /\ validate_absolute_form_host_header req ctx = Ok tt
    /\ saw t (fun st => state_ok st /\ host_cleared decider (plain_policy_request req ctx) st);
  sent_route : via c = None
    \/ (saw t (fun st => allow_upstream_proxy (config st) = true)
        /\ exists secure, via c = proxy_for_protocol from_env secure);
  sent_checked : check c = PolicyState;
  sent_request : r = with_headers req (remove_hop_by_hop_request_headers (headers req)) }.

Record sent_unix_properly (req : Request) (t : list Effect) (path : str) : Prop := {
  unix_header : header_get (L"x-unix-socket") (headers req) = Some (Some path);
  unix_method : saw t (fun st => allows_method (mode (config st)) (req_http_method req) = true);
  unix_enabled : saw t (fun st => enabled (config st) = true);
  unix_allowed : saw t (fun st => is_unix_socket_allowed st path = true) }.

Definition plain_post (decider : option PolicyDecider) (req : Request) (t : list Effect) : Prop :=
  (forall c r, Sent c r ∈ t -> sent_properly decider req t c r)
  /\ (forall path r, SentUnix path r ∈ t -> sent_unix_properly req t path)
  /\ (forall c h p, Tunnelled c h p ∉ t).

Lemma saw_here t (P : ConfigState MitmState -> Prop) st : Saw st ∈ t -> P st -> saw t P.
Proof. by exists st. Qed.

Lemma validate_host_header_cases req ctx :
  validate_absolute_form_host_header req ctx = Ok tt
  \/ exists reason, validate_absolute_form_host_header req ctx = Err reason.
Proof. unfold validate_absolute_form_host_header. repeat case_match; eauto. Qed.

(** The route of a plain request. *)
Lemma upstream_route (allow : bool) secure :
  let c := if allow then upstream_from_env_proxy else upstream_direct in
  transport c = PolicyState
  /\ (proxy_for_protocol (proxy_config c) secure = None
      \/ (allow = true /\ proxy_for_protocol (proxy_config c) secure = proxy_for_protocol from_env secure)).
Proof. destruct allow; cbn; [by auto|]. split; [done|]. left. by destruct secure. Qed.

(** After the read of the method, in [st0]. *)
Lemma plain_request_safe decider req st0 :
  wpt (plain_request decider req (allows_method (mode (config st0)) (req_http_method req)))
    (fun _ t => plain_post decider req (Saw st0 :: t)).
Proof.
  unfold plain_request, proxy_disabled_response, record_denial, emit_block_decision_audit_event,
    emit_policy_audit_event, upstream_serve.
  destruct (context req) as [ctx|] eqn:Ectx; [|apply wpt_ret; unfold plain_post; set_solver].
  destruct (validate_host_header_cases req ctx) as [Ev|[reason Ev]]; rewrite Ev;
    [|apply wpt_ret; unfold plain_post; set_solver].
  wpt_run; unfold plain_post; split_and!; try set_solver.
  intros c r Hin. find_effect Hin.
  destruct (upstream_route (allow_upstream_proxy (config st2))
    (match context (with_headers req (remove_hop_by_hop_request_headers (headers req))) with
     | Some ctx => ctx_secure ctx | None => false end)) as [Hcheck Hroute].
  split.
  - apply (saw_here _ _ st0); [set_solver|]. by apply negb_false_iff.
  - by apply (saw_here _ _ st); [set_solver|].
  - exists ctx. split_and!; [done..|]. by apply (saw_here _ _ st1); [set_solver|].
  - cbn [via]. destruct Hroute as [Hr|[Hallow Hr]]; [by left|]. right. split; [|by eexists].
    by apply (saw_here _ _ st2); [set_solver|].
  - exact Hcheck.
  - done.
Qed.

Lemma unix_request_safe decider req st0 path :
  header_get (L"x-unix-socket") (headers req) = Some (Some path) ->
  wpt (unix_socket_request req (allows_method (mode (config st0)) (req_http_method req)) path)
    (fun _ t => plain_post decider req (Saw st0 :: t)).
Proof.
  intros Hheader. unfold unix_socket_request, proxy_disabled_response, proxy_via_unix_socket,
    emit_block_decision_audit_event, emit_allow_decision_audit_event, emit_policy_audit_event.
  wpt_run; unfold plain_post; split_and!; try set_solver.
  intros path' r' Hin. find_effect Hin. split.
  - done.
  - apply (saw_here _ _ st0); [set_solver|]. by apply negb_false_iff.
  - by apply (saw_here _ _ st); [set_solver|].
  - by apply (saw_here _ _ st1); [set_solver|].
Qed.

(** What a plain request went through.  Whatever other tasks do to the
    state meanwhile, a request leaves the proxy only after states were seen in which
    the method is allowed by the mode, the proxy is enabled, and the host is let
    through by the lists of a valid state (or merely missing from them and allowed by
    the decider); the Host header agrees with the target, the hop-by-hop headers are
    gone, an upstream proxy is used only where a state allowed it, and else the address
    dialled is checked against the state.  A Unix socket is used only
    if allowed. *)
Theorem plain_request_is_policed decider req w resp w' :
  state_ok (current w) -> http_plain_proxy decider req w = (resp, w') ->
  exists t, trace w' = trace w ++ t
    /\ (forall c r, Sent c r ∈ t -> sent_properly decider req t c r)
    /\ (forall path r, SentUnix path r ∈ t -> sent_unix_properly req t path)
    /\ (forall c h p, Tunnelled c h p ∉ t).
Proof.
  intros Hw Hrun. eapply wpt_elim in Hrun; [exact Hrun| |done].
  change (wpt (http_plain_proxy decider req) (fun _ t => plain_post decider req t)).
  unfold http_plain_proxy. wpt_step; [apply wpt_ret; unfold plain_post; set_solver|].
  wpt_step. apply wpt_read; [done| |].
  2: { apply wpt_ret. unfold plain_post. set_solver. }
  intros st0 _. unfold method_allowed.
  destruct (header_get (L"x-unix-socket") (headers req)) as [[path|]|] eqn:E.
  - by apply unix_request_safe.
  - apply wpt_ret. unfold plain_post. set_solver.
  - apply plain_request_safe.
Qed.

(** ** CONNECT *)

Definition connect_policy_request (req : Request) (ctx : RequestContext) : NetworkPolicyRequest :=
  mkPolicyRequest HttpsConnect (normalize_host (ctx_host ctx)) (ctx_effective_port ctx) (peer_addr req)
    (Some (L"CONNECT")) None None.

Record accepted_properly (decider : option PolicyDecider) (req : Request) (t : list Effect)
  (a : Accepted) : Prop := {
  accepted_enabled : saw t (fun st => enabled (config st) = true);
  accepted_host : exists ctx, context req = Some ctx
    /\ target_host a = ctx_host ctx /\ target_port a = ctx_effective_port ctx
    /\ saw t (fun st => state_ok st /\ host_cleared decider (connect_policy_request req ctx) st);
  accepted_mode_seen : saw t (fun st => mode (config st) = accepted_mode a);
  accepted_mitm_seen : saw t (fun st => mitm st = accepted_mitm a);
  accepted_limited : accepted_mode a = Limited -> is_Some (accepted_mitm a) }.

(** A refused CONNECT is told in the audit log. *)
Definition refusal_audited (t : list Effect) : Prop :=
  exists e, Audited e ∈ t /\ audit_decision e <> POLICY_DECISION_ALLOW.

Definition accept_post (decider : option PolicyDecider) (req : Request) (r : result Response Accepted)
  (t : list Effect) : Prop :=
  (forall c q, Sent c q ∉ t) /\ (forall c h p, Tunnelled c h p ∉ t)
  /\ match r with
     | Ok a => accepted_properly decider req t a
     | Err (TextResponse status _ _) =>
         status = 400%N \/ status = 500%N \/ ((status = 403%N \/ status = 503%N) /\ refusal_audited t)
     | _ => False
     end.

Lemma decision_str_not_allow d : decision_str d <> POLICY_DECISION_ALLOW.
Proof. by destruct d. Qed.

Lemma refusal_here t e : audit_decision e <> POLICY_DECISION_ALLOW -> Audited e ∈ t -> refusal_audited t.
Proof. by exists e. Qed.

Ltac not_allow :=
  first [ done
        | match goal with
          | Ha : audits _ ?e (decision_str _) |- audit_decision ?e <> _ =>
              destruct Ha as (_ & _ & _ & ->); apply decision_str_not_allow
          end ].
Ltac audited :=
  match goal with
  | |- refusal_audited ?t =>
      match t with context [Audited ?e] => apply (refusal_here _ e); [not_allow|set_solver] end
  end.

Lemma connect_accept_safe decider req :
  wpt (http_connect_accept decider req) (accept_post decider req).
Proof.
  unfold http_connect_accept, proxy_disabled_response, record_denial, emit_block_decision_audit_event,
    emit_policy_audit_event. wpt_run; unfold accept_post; (split; [set_solver|]); (split; [set_solver|]).
  all: try (by left); try (by right; left); try (right; right; split; [by auto|]; audited).
  split; cbn.
  - by apply (saw_here _ _ st); [set_solver|].
  - exists r. split_and!; [done..|]. by apply (saw_here _ _ st0); [set_solver|].
  - by apply (saw_here _ _ st1); [set_solver|].
  - by apply (saw_here _ _ st2); [set_solver|].
  - intros Hm. rewrite Hm in *. rewrite bool_decide_eq_true_2 in * by done. cbn in *.
    destruct (mitm st2); [done|]. done.
Qed.

(** What an accepted CONNECT went through, and that a refused one is
    audited: acceptance needs states seen with the proxy enabled and the host
    cleared, and in limited mode the means to intercept; nothing is sent yet.  A refusal
    by policy (403, 503) leaves an audit event whose decision is not to allow. *)
Theorem connect_is_policed decider req w r w' :
  state_ok (current w) -> http_connect_accept decider req w = (r, w') ->
  exists t, trace w' = trace w ++ t
    /\ (forall c q, Sent c q ∉ t) /\ (forall c h p, Tunnelled c h p ∉ t)
    /\ match r with
       | Ok a => accepted_properly decider req t a
       | Err (TextResponse status _ _) =>
           status = 400%N \/ status = 500%N \/ ((status = 403%N \/ status = 503%N) /\ refusal_audited t)
       | _ => False
       end.
Proof. intros Hw Hrun. eapply wpt_elim in Hrun; [exact Hrun|apply connect_accept_safe|done]. Qed.

(** The tunnel of an accepted CONNECT. *)
Lemma connect_proxy_safe a :
  wpt (http_connect_proxy a) (fun tun t =>
    (forall c q, Sent c q ∉ t)
    /\ (forall c h p, Tunnelled c h p ∈ t ->
          (accepted_mode a = Full \/ accepted_mitm a = None) /\ h = target_host a /\ p = target_port a
          /\ check c = PolicyState
          /\ (via c = None \/ saw t (fun st => allow_upstream_proxy (config st) = true)))
    /\ match tun with
       | Intercepted m => accepted_mitm a = Some m
       | Dialled _ => accepted_mode a = Full \/ accepted_mitm a = None
       end).
Proof.
  unfold http_connect_proxy. destruct (accepted_mode a) eqn:Em, (accepted_mitm a) as [m|] eqn:Emi; wpt_run;
    (split; [set_solver|split; [|by auto]]); intros c h p Hin; find_effect Hin; split_and!; auto; cbn [via].
  all: try (destruct (allow_upstream_proxy (config st)) eqn:E; cbn; [|by left]; right;
    by apply (saw_here _ _ st); [set_solver|]).
  all: by left.
Qed.

(** *** Inside an intercepted tunnel *)

Lemma mitm_blocking_safe req policy :
  wpt (mitm_blocking_response req policy) (fun r t =>
    (forall c q, Sent c q ∉ t)
    /\ (r = Ok None ->
        allows_method (mitm_mode policy) (req_http_method req) = true
        /\ req_http_method req <> L"CONNECT"
        /\ (forall h, extract_request_host req = Some h ->
              normalize_host h = [] \/ normalize_host h = mitm_target_host policy)
        /\ saw t (fun st => state_ok st
             /\ host_blocked st (mitm_target_host policy) (mitm_target_port policy)
                <> Blocked NotAllowedLocal))).
Proof.
  unfold mitm_blocking_response. cbn zeta. wpt_step; [apply wpt_ret; split; [set_solver|done]|].
  wpt_step; [apply wpt_ret; split; [set_solver|done]|].
  unfold str_eqb in *. rewrite bool_decide_eq_false in Heqb.
  assert (forall h, extract_request_host req = Some h ->
    normalize_host h = [] \/ normalize_host h = mitm_target_host policy) as Hhost.
  { intros h Hh. rewrite Hh in Heqb0. apply andb_false_iff in Heqb0 as [Hn|Hn].
    - left. by apply is_nil_true, negb_false_iff.
    - right. by apply negb_false_iff, bool_decide_eq_true in Hn. }
  apply wpt_bind, wpt_read; [done| |apply wpt_ret; split; [set_solver|done]].
  intros st Hst. destruct (host_blocked st _ _) as [|[]] eqn:Eb; wpt_run; (split; [set_solver|]); try done;
    intros _; (split_and!; [by apply negb_false_iff|done|done|]);
    apply (saw_here _ _ st); (set_solver || (by rewrite Eb)).
Qed.

Lemma header_get_insert name v h : header_get name (header_insert name v h) = Some (Some v).
Proof.
  unfold header_get, header_insert, header_remove, str_eqb.
  induction h as [|[n x] h IH]; cbn; [by rewrite bool_decide_eq_true_2|].
  case_bool_decide as E; cbn; [done|]. by rewrite bool_decide_eq_false_2.
Qed.

Lemma mitm_request_safe m policy req :
  wpt (handle_mitm_request m policy req) (fun _ t =>
    forall c r, Sent c r ∈ t ->
      req_http_method r = req_http_method req
      /\ allows_method (mitm_mode policy) (req_http_method req) = true
      /\ req_http_method req <> L"CONNECT"
      /\ (forall h, extract_request_host req = Some h ->
            normalize_host h = [] \/ normalize_host h = mitm_target_host policy)
      /\ extract_request_host r
         = Some (authority_header_value (mitm_target_host policy) (mitm_target_port policy))
      /\ saw t (fun st => state_ok st
           /\ host_blocked st (mitm_target_host policy) (mitm_target_port policy) <> Blocked NotAllowedLocal)
      /\ check c = transport (mitm_upstream m)).
Proof.
  unfold handle_mitm_request, upstream_serve. apply wpt_bind.
  eapply wpt_mono; [apply mitm_blocking_safe|]. intros r t [Hno Hok].
  destruct r as [[resp|]| | |]; wpt_run; try (intros c q Hin; rewrite app_nil_r in Hin; by apply Hno in Hin).
  intros c r Hin. apply elem_of_app in Hin as [Hin|Hin]; [by apply Hno in Hin|]. find_effect Hin.
  destruct (Hok eq_refl) as (Hm & Hc & Hh & st & Hst & Hp).
  split_and!; [done..| | |done].
  - unfold extract_request_host. cbn [headers]. by rewrite header_get_insert.
  - exists st. split; [set_solver|done].
Qed.

(** C28: HTTPS in limited mode is read-only.  When a CONNECT was accepted in limited
    mode, its tunnel is intercepted, never dialled, and whatever happens to the state
    afterwards an inner request is forwarded only with the method GET, HEAD or OPTIONS,
    to the host of the CONNECT, after a check that the host does not
    lead to a local address. *)
Theorem limited_https_is_read_only decider req w a w1 tun w2 inner w3 resp w4 :
  state_ok (current w) -> state_ok (current w3) ->
  http_connect_accept decider req w = (Ok a, w1) -> accepted_mode a = Limited ->
  http_connect_proxy a w1 = (tun, w2) ->
  exists m, tun = Intercepted m /\ trace w2 = trace w1
    /\ (handle_mitm_request m (mitm_context a) inner w3 = (resp, w4) ->
        exists t, trace w4 = trace w3 ++ t
          /\ forall c r, Sent c r ∈ t ->
               req_http_method r ∈ [L"GET"; L"HEAD"; L"OPTIONS"]
               /\ extract_request_host r
                  = Some (authority_header_value (normalize_host (target_host a)) (target_port a))
               /\ saw t (fun st => state_ok st
                    /\ host_blocked st (normalize_host (target_host a)) (target_port a)
                       <> Blocked NotAllowedLocal)).
Proof.
  intros Hw Hw3 Hacc Hmode Hproxy.
  destruct (wpt_elim _ _ _ _ _ (connect_accept_safe decider req) Hw Hacc) as (t & _ & _ & _ & Ha).
  destruct (accepted_limited _ _ _ _ Ha Hmode) as [m Hm].
  unfold http_connect_proxy in Hproxy. rewrite Hmode, Hm in Hproxy. injection Hproxy as <- <-.
  exists m. split_and!; [done..|]. intros Hrun.
  destruct (wpt_elim _ _ _ _ _ (mitm_request_safe m (mitm_context a) inner) Hw3 Hrun) as (t' & Ht' & Hsent).
  exists t'. split; [done|]. intros c r Hin.
  destruct (Hsent c r Hin) as (Hr & Hallow & _ & _ & Hhost & Hsaw & _). split_and!; [|done|done].
  rewrite Hr. cbn [mitm_mode mitm_context] in Hallow. rewrite Hmode in Hallow. cbn [allows_method] in Hallow.
  unfold str_eqb in Hallow. rewrite !orb_true_iff, !bool_decide_eq_true in Hallow. set_solver.
Qed.

(** ** SOCKS5 *)

Record socks_properly (decider : option PolicyDecider) (request : NetworkPolicyRequest)
  (t : list Effect) : Prop := {
  socks_enabled : saw t (fun st => enabled (config st) = true);
  socks_full : saw t (fun st => mode (config st) = Full);
  socks_host : saw t (fun st => state_ok st /\ host_cleared decider request st) }.

Lemma socks_checks_safe decider p label raw port client :
  wpt (socks5_checks decider p label raw port client) (fun r t =>
    (forall c h q, Tunnelled c h q ∉ t) /\ (forall h q, Relayed h q ∉ t)
    /\ match r with
       | Ok host =>
           host = normalize_host raw
           /\ socks_properly decider (mkPolicyRequest p host port client None None None) t
       | Err (PolicyDenied _) => refusal_audited t
       | Err (InvalidSocksHost | ProxyFailure) => True
       | _ => False
       end).
Proof.
  unfold socks5_checks, record_denial, emit_block_decision_audit_event, emit_policy_audit_event. cbn zeta.
  wpt_run; (split; [set_solver|]); (split; [set_solver|]); try done;
    try (cbn beta iota delta [policy_denied_error]; audited).
  split; [done|]. split.
  - by apply (saw_here _ _ st); [set_solver|].
  - by apply (saw_here _ _ st0); [set_solver|].
  - by apply (saw_here _ _ st1); [set_solver|].
Qed.

Definition socks_request (p : NetworkProtocol) (raw : str) (port : N) (client : option str) :=
  mkPolicyRequest p (normalize_host raw) port client None None None.

Definition tcp_post decider raw port client (r : result SocksError Connector) (t : list Effect) : Prop :=
  (forall c h q, Tunnelled c h q ∈ t ->
     r = Ok c /\ c = mkConnector None PolicyState /\ h = raw /\ q = port
     /\ socks_properly decider (socks_request Socks5Tcp raw port client) t)
  /\ (forall m, r = Err (PolicyDenied m) -> refusal_audited t).

Definition udp_post decider raw port client (r : result SocksError unit) (t : list Effect) : Prop :=
  (forall h q, Relayed h q ∈ t ->
     r = Ok tt /\ h = raw /\ q = port
     /\ socks_properly decider (socks_request Socks5Udp raw port client) t)
  /\ (forall m, r = Err (PolicyDenied m) -> refusal_audited t).

Lemma saw_app t t' P : saw t P -> saw (t ++ t') P.
Proof. intros (st & Hst & HP). exists st. split; [set_solver|done]. Qed.

Lemma socks_properly_app decider request t t' :
  socks_properly decider request t -> socks_properly decider request (t ++ t').
Proof. intros [H1' H2' H3']. split; by apply saw_app. Qed.

Lemma socks_tcp_safe decider raw port client :
  wpt (handle_socks5_tcp decider true raw port client) (tcp_post decider raw port client).
Proof.
  unfold handle_socks5_tcp. cbn [negb]. apply wpt_bind. eapply wpt_mono; [apply socks_checks_safe|].
  intros r t (Hno & _ & Hr). destruct r as [host|e| |]; [| |done|done]; wpt_run; unfold tcp_post.
  - destruct Hr as [-> Hr]. split; [|done]. intros c h q Hin. apply elem_of_app in Hin as [Hin|Hin];
      [by apply Hno in Hin|]. find_effect Hin. split_and!; [done..|]. by apply socks_properly_app.
  - rewrite app_nil_r. split; [intros c h q Hin; by apply Hno in Hin|]. by intros m [= ->].
Qed.

Lemma socks_udp_safe decider raw port client :
  wpt (inspect_socks5_udp decider raw port client) (udp_post decider raw port client).
Proof.
  unfold inspect_socks5_udp. apply wpt_bind. eapply wpt_mono; [apply socks_checks_safe|].
  intros r t (_ & Hno & Hr). destruct r as [host|e| |]; [| |done|done]; wpt_run; unfold udp_post.
  - destruct Hr as [-> Hr]. split; [|done]. intros h q Hin. apply elem_of_app in Hin as [Hin|Hin];
      [by apply Hno in Hin|]. find_effect Hin. split_and!; [done..|]. by apply socks_properly_app.
  - rewrite app_nil_r. split; [intros h q Hin; by apply Hno in Hin|]. by intros m [= ->].
Qed.

(** SOCKS5 traffic is dialled or relayed only after states were seen in which
    the proxy is enabled, the mode is full and the host is cleared; a TCP connection
    goes straight to the address, checked when dialled.  A refusal by policy
    leaves an audit event whose decision is not to allow. *)
Theorem socks_is_policed decider raw port client w rt wt ru wu :
  state_ok (current w) ->
  handle_socks5_tcp decider true raw port client w = (rt, wt) ->
  inspect_socks5_udp decider raw port client w = (ru, wu) ->
  (exists t, trace wt = trace w ++ t
     /\ (forall c h q, Tunnelled c h q ∈ t ->
          rt = Ok c /\ c = mkConnector None PolicyState /\ h = raw /\ q = port
          /\ socks_properly decider (socks_request Socks5Tcp raw port client) t)
     /\ (forall m, rt = Err (PolicyDenied m) -> refusal_audited t))
  /\ (exists t, trace wu = trace w ++ t
     /\ (forall h q, Relayed h q ∈ t ->
          ru = Ok tt /\ h = raw /\ q = port
          /\ socks_properly decider (socks_request Socks5Udp raw port client) t)
     /\ (forall m, ru = Err (PolicyDenied m) -> refusal_audited t)).
Proof.
  intros Hw Ht Hu. split.
  - exact (wpt_elim _ _ _ _ _ (socks_tcp_safe decider raw port client) Hw Ht).
  - exact (wpt_elim _ _ _ _ _ (socks_udp_safe decider raw port client) Hw Hu).
Qed.

(** ** The address dialled *)

Lemma connect_safe c addr :
  wpt (connect c addr) (fun r t =>
    r = Ok tt ->
    match via c, check c with
    | Some _, _ => True
    | None, PolicyConfig allow => allow = true \/ is_non_public_ip addr = false
    | None, PolicyState =>
        is_non_public_ip addr = false \/ saw t (fun st => allow_local_binding (config st) = true)
    end).
Proof.
  unfold connect, policy_allow_local_binding. destruct (via c); [by apply wpt_ret|].
  destruct (check c) as [allow|].
  - wpt_run. cbn. intros Hok. destruct allow, (is_non_public_ip addr); auto; done.
  - wpt_run; cbn; [|done]. intros Hok. destruct (allow_local_binding (config st)) eqn:E.
    + right. by apply (saw_here _ _ st); [set_solver|].
    + destruct (is_non_public_ip addr); [done|by left].
Qed.

(** The last check, on the address itself: whatever the name resolved to when
    the connection is made, a direct connection to a local or private address is
    opened only if the state read at that moment (for intercepted requests, the
    configuration the interceptor was built with) allows local binding; so a name that
    resolved to a public address for the policy check cannot be rebound afterwards. *)
Theorem dialled_address_is_checked c addr w r w' :
  state_ok (current w) -> via c = None -> connect c addr w = (r, w') -> r = Ok tt ->
  match check c with
  | PolicyConfig allow => allow = true \/ is_non_public_ip addr = false
  | PolicyState =>
      is_non_public_ip addr = false
      \/ exists t, trace w' = trace w ++ t /\ saw t (fun st => allow_local_binding (config st) = true)
  end.
Proof.
  intros Hw Hvia Hrun Hr. destruct (wpt_elim _ _ _ _ _ (connect_safe c addr) Hw Hrun) as (t & Ht & Hpost).
  specialize (Hpost Hr). rewrite Hvia in Hpost. destruct (check c); [done|].
  destruct Hpost as [|Hs]; [by left|]. right. by exists t.
Qed.
End safety.

(** ** Hop-by-hop headers *)

Section hop_by_hop.
Context `{ProxyServices}.

(** The headers the first [Connection] line names. *)
Definition connection_named (h : HeaderMap) : list str :=
  omap header_name_from_bytes (connection_tokens (default None (header_get (L"connection") h))).

Lemma elem_of_header_remove line name h : line ∈ header_remove name h <-> line ∈ h /\ fst line <> name.
Proof.
  unfold header_remove, str_eqb. rewrite !list_elem_of_In, List.filter_In, negb_true_iff, bool_decide_eq_false.
  done.
Qed.

Lemma elem_of_remove_all line names h :
  line ∈ foldl (fun h name => header_remove name h) h names <-> line ∈ h /\ fst line ∉ names.
Proof.
  revert h. induction names as [|n names IH]; intros h; cbn; [set_solver|].
  rewrite IH, elem_of_header_remove. set_solver.
Qed.

Lemma elem_of_remove_tokens line tokens h :
  line ∈ remove_tokens tokens h <-> line ∈ h /\ fst line ∉ (omap header_name_from_bytes tokens : list str).
Proof.
  revert h. induction tokens as [|t tokens IH]; intros h; cbn [remove_tokens]; [set_solver|].
  rewrite IH. cbn. destruct (header_name_from_bytes t) as [n|]; [rewrite elem_of_header_remove; set_solver|].
  done.
Qed.

Lemma header_get_None name h : header_get name h = None <-> forall line, line ∈ h -> fst line <> name.
Proof.
  unfold header_get, str_eqb. rewrite fmap_None. split.
  - intros Hf line Hin Heq. apply list_elem_of_In in Hin. pose proof (List.find_none _ _ Hf _ Hin) as Hb. cbn in Hb.
    by rewrite bool_decide_eq_true_2 in Hb.
  - intros Hall. destruct (List.find _ h) as [line|] eqn:E; [|done].
    apply List.find_some in E as [Hin Hb]. rewrite <- list_elem_of_In in Hin.
    apply bool_decide_eq_true in Hb. by apply Hall in Hin.
Qed.

(** The loop ends after one pass: the name is gone, and nothing puts it back. *)
Lemma remove_connection_spec n line h :
  line ∈ remove_connection (S n) h
  <-> line ∈ h /\ fst line <> L"connection" /\ fst line ∉ connection_named h.
Proof.
  cbn [remove_connection]. unfold connection_named.
  destruct (header_get (L"connection") h) as [raw|] eqn:E; cbn [default from_option id].
  - set (h1 := remove_tokens (connection_tokens raw) (header_remove (L"connection") h)).
    assert (header_get (L"connection") h1 = None) as Hnone.
    { apply header_get_None. intros l Hl. apply elem_of_remove_tokens in Hl as [Hl _].
      by apply elem_of_header_remove in Hl as [_ Hl]. }
    assert (remove_connection n h1 = h1) as -> by (destruct n; cbn [remove_connection]; [done|by rewrite Hnone]).
    unfold h1. rewrite elem_of_remove_tokens, elem_of_header_remove. naive_solver.
  - split; [|by intros []]. intros Hin. split; [done|]. split; [by apply (proj1 (header_get_None _ _) E)|set_solver].
Qed.

(** The headers forwarded.  The loop over the [Connection] header ends,
    and a header line stays just when its name is none of the hop-by-hop headers and is
    not named by the first [Connection] line.  A second [Connection] line is removed
    without being read, so the headers it names are forwarded. *)
Theorem forwarded_headers_exact h line :
  header_name_from_bytes (L"te") = Some (L"te") ->
  line ∈ remove_hop_by_hop_request_headers h
  <-> line ∈ h
      /\ fst line ∉ [L"connection"; L"keep-alive"; L"proxy-connection"; L"proxy-authorization";
                     L"trailer"; L"transfer-encoding"; L"upgrade"; L"te"]
      /\ fst line ∉ connection_named h.
Proof.
  intros Hte. unfold remove_hop_by_hop_request_headers. change [116; 101]%N with (L"te"). rewrite Hte.
  rewrite elem_of_header_remove, elem_of_remove_all, remove_connection_spec. unfold hop_by_hop.
  rewrite !not_elem_of_cons. naive_solver.
Qed.
End hop_by_hop.

(** ** Local addresses in the allowed list *)

Section local_literals.
Context `{HostLibraries} `{ProxyEnvironment MitmState} `{ProxyServices}.

(** A local address that the allowed list names is let through by the
    policy but not by the connector: with local binding off, the direct
    connection for the very host that was just allowed is refused. *)
Theorem allowed_local_address_is_not_dialled (st : ConfigState MitmState) raw h ip port w :
  host_parse raw = Some h -> parse_ip h = Some ip -> is_non_public_ip ip = true ->
  allow_local_binding (config st) = false ->
  host_blocked st raw port = Allowed ->
  interfere (ticks w) (current w) = (st, true) ->
  (exists e, e ∈ default [] (allowed_domains (config st)) /\ names_literally e h)
  /\ fst (connect (mkConnector None PolicyState) ip w) = Err RejectedByPolicy.
Proof.
  intros Hraw Hip Hnon Hbind Hall Hint. split.
  - unfold host_blocked in Hall. rewrite Hraw in Hall.
    destruct (globset_matches_host_or_unscoped (deny_set st) h); [done|]. rewrite Hbind in Hall. cbn in Hall.
    destruct (local_literal h) eqn:El.
    + destruct (is_explicit_local_allowlisted _ h) eqn:Ee; [|done].
      apply existsb_exists in Ee as (e & He & Hx). exists e.
      split; [by apply list_elem_of_In|by apply explicit_local_spec].
    + unfold host_resolves_to_non_public_ip in Hall. rewrite Hip, Hnon in Hall. done.
  - unfold connect, policy_allow_local_binding, read, mbind_, access. cbn. rewrite Hint. cbn.
    by rewrite Hbind, Hnon.
Qed.
End local_literals.

(** ** The theorems at work *)

Definition quiet_services : ProxyServices := {|
  interfere := fun _ st => (st, true);
  clock := Z.of_nat;
  env_var := fun _ => None;
  parse_proxy_address := fun _ => None;
  header_name_from_bytes := fun s =>
    if is_nil s || existsb is_whitespace s then None else Some (to_ascii_lowercase s);
  typed_host := fun _ => HostAbsent;
  host_eq := str_eqb;
  upstream_responds := fun _ _ => Some (Upstream 200);
  unix_socket_responds := fun _ _ => None;
  parse_uri := fun _ => Some None;
  is_header_value := fun _ => true |}.

Definition mitm_environment : ProxyEnvironment MitmState := {|
  home := None;
  cwd := Some (L"/work");
  mitm_new := fun _ allow_local => Some (mkMitm (mkUpstream direct_config (PolicyConfig allow_local)));
  target_macos := false;
  canonicalize := fun _ => None;
  lookup_host := fun _ _ => Addresses [V4 (from_octets 8 8 8 8)] |}.

#[local] Existing Instance sample_libraries.
#[local] Existing Instance mitm_environment.
#[local] Existing Instance quiet_services.

Definition proxy_settings (m : NetworkMode) : NetworkProxySettings :=
  mkSettings true (L"http://127.0.0.1:3128") true (L"http://127.0.0.1:8081") true true false false m
    (Some [mkEntry (L"*.example.com") PermAllow; mkEntry (L"127.0.0.1") PermAllow]) None false true.

Definition proxy_state (m : NetworkMode) : ConfigState MitmState :=
  match build_config_state (proxy_settings m) no_constraints with
  | Ok st => st
  | _ => mkState _ default_settings [] [] None no_constraints [] 0
  end.

Lemma proxy_state_ok m : state_ok (proxy_state m).
Proof.
  destruct m; (split; [vm_compute; reflexivity..|apply Nat.leb_le; vm_compute; reflexivity]).
Qed.

Lemma quiet_keeps_invariant : others_keep_invariant.
Proof. by intros n st Hst. Qed.

Definition proxy_world (m : NetworkMode) : World := mkWorld (proxy_state m) [] 0.

Definition sample_request (method : str) : Request :=
  mkRequest true method true None (Some (L"/")) (Some (mkContext (L"api.example.com") None 443 true true))
    [(L"connection", Some (L"close, X-Trace")); (L"x-trace", Some (L"1")); (L"accept", Some (L"*/*"))] None.

Lemma plain_request_is_policed_witness :
  exists t, trace (snd (http_plain_proxy None (sample_request (L"GET")) (proxy_world Full))) = t
    /\ exists c r, Sent c r ∈ t /\ sent_properly None (sample_request (L"GET")) t c r.
Proof.
  destruct (plain_request_is_policed quiet_keeps_invariant None (sample_request (L"GET")) (proxy_world Full)
    _ _ (proxy_state_ok Full) (surjective_pairing _)) as (t & Ht & Hsent & _).
  exists t. split; [exact Ht|]. assert (exists c r, Sent c r ∈ t) as (c & r & Hin).
  { vm_compute in Ht. rewrite <- Ht. eexists _, _. do 5 right. left. }
  exists c, r. split; [exact Hin|]. by apply Hsent.
Defined.

Definition connected (m : NetworkMode) : result Response Accepted * World :=
  http_connect_accept None (sample_request (L"CONNECT")) (proxy_world m).

Lemma connect_is_policed_witness :
  exists t, trace (snd (connected Limited)) = t
    /\ exists a, fst (connected Limited) = Ok a
       /\ accepted_properly None (sample_request (L"CONNECT")) t a.
Proof.
  destruct (connect_is_policed quiet_keeps_invariant None (sample_request (L"CONNECT")) (proxy_world Limited)
    _ _ (proxy_state_ok Limited) (surjective_pairing _)) as (t & Ht & _ & _ & Ha).
  exists t. split; [exact Ht|]. eexists. split; [vm_compute; reflexivity|].
  vm_compute in Ha. vm_compute. exact Ha.
Defined.

Definition accepted_target (r : result Response Accepted) : Accepted :=
  match r with Ok a => a | _ => mkAccepted [] 0 Full None end.

Definition tunnel : Tunnel * World :=
  http_connect_proxy (accepted_target (fst (connected Limited))) (snd (connected Limited)).

Lemma limited_https_is_read_only_witness : exists m, fst tunnel = Intercepted m.
Proof.
  destruct (limited_https_is_read_only quiet_keeps_invariant None (sample_request (L"CONNECT"))
    (proxy_world Limited) (accepted_target (fst (connected Limited))) (snd (connected Limited))
    (fst tunnel) (snd tunnel) (sample_request (L"GET")) (proxy_world Full) (Upstream 0) (proxy_world Full)
    (proxy_state_ok Limited) (proxy_state_ok Full)) as (m & Hm & _).
  - vm_compute. reflexivity.
  - vm_compute. reflexivity.
  - apply surjective_pairing.
  - by exists m.
Defined.

Lemma socks_is_policed_witness :
  exists t, trace (snd (handle_socks5_tcp None true (L"10.0.0.1") 22 None (proxy_world Full))) = t
    /\ refusal_audited t.
Proof.
  destruct (socks_is_policed quiet_keeps_invariant None (L"10.0.0.1") 22 None (proxy_world Full) _ _ _ _
    (proxy_state_ok Full) (surjective_pairing _) (surjective_pairing _)) as ((t & Ht & _ & Hr) & _).
  exists t. split; [exact Ht|]. eapply Hr. vm_compute. reflexivity.
Defined.

Lemma dialled_address_is_checked_witness :
  is_non_public_ip (V4 (from_octets 8 8 8 8)) = false.
Proof.
  destruct (dialled_address_is_checked quiet_keeps_invariant (mkConnector None (PolicyConfig false))
    (V4 (from_octets 8 8 8 8)) (proxy_world Full) (Ok tt) (proxy_world Full) (proxy_state_ok Full)
    eq_refl) as [Hc|Hc]; [vm_compute; reflexivity|reflexivity|discriminate|exact Hc].
Defined.

Lemma forwarded_headers_exact_witness :
  (L"accept", Some (L"*/*")) ∈ remove_hop_by_hop_request_headers (headers (sample_request (L"GET")))
  /\ remove_hop_by_hop_request_headers
       [(L"connection", Some (L"close")); (L"connection", Some (L"x-secret")); (L"x-secret", Some (L"1"))]
     = [(L"x-secret", Some (L"1"))].
Proof.
  split; [|vm_compute; reflexivity]. apply forwarded_headers_exact; [vm_compute; reflexivity|].
  split_and!; apply (bool_decide_unpack _); vm_compute; exact I.
Defined.

Lemma allowed_local_address_is_not_dialled_witness :
  fst (connect (mkConnector None PolicyState) (V4 (from_octets 127 0 0 1)) (proxy_world Full))
  = Err RejectedByPolicy.
Proof.
  apply (allowed_local_address_is_not_dialled (proxy_state Full) (L"127.0.0.1:8080") (L"127.0.0.1")
    (V4 (from_octets 127 0 0 1)) 8080 (proxy_world Full)); vm_compute; reflexivity.
Defined.
