(* ===== verification/NetworkListen.v ===== *)
(** * Where the proxy listens (network-proxy/src/config.rs)

    The addresses of the listeners: read from the configuration, then clamped to
    loopback unless the configuration insists.  [Url::parse] of the [url] crate
    is an argument. *)

From S2P Require Import Prelude RustStr AbsolutePath NetworkHosts NetworkState.

(** ** Addresses of the form host:port *)

Record SocketAddressParts := mkParts {
  part_host : str;
  part_port : N }.

(** [SocketAddr] *)
Record SocketAddr := mkAddr {
  addr_ip : IpAddr;
  addr_port : N }.

Inductive AddressError :=
  | MissingHost (url : str)
  | BadSocketPath.

Definition AT : char := 64%N.
Definition SLASH : char := 47%N.

Fixpoint parse_digits (acc : N) (s : str) : option N :=
  match s with
  | [] => Some acc
  | c :: rest => if is_ascii_digit c then parse_digits (acc * 10 + (c - 48)) rest else None
  end.

(** [str::parse::<u16>]: an optional plus sign, digits, no overflow. *)
Definition parse_u16 (s : str) : option N :=
  let digits := match s with c :: rest => if (c =? 43)%N then rest else s | [] => s end in
  if is_nil digits then None
  else match parse_digits 0 digits with
       | Some n => if (n <? 65536)%N then Some n else None
       | None => None
       end.

Definition show_port (port : N) : str := show_nat (N.to_nat port).

Definition format_host_and_port (host : str) (port : N) : str :=
  if contains_char COLON host then L"[" ++ host ++ L"]:" ++ show_port port
  else host ++ L":" ++ show_port port.

Definition parse_host_port_fallback (input : str) (default_port : N)
  : result AddressError SocketAddressParts :=
  let without_scheme := match split_once_str (L"://") input with Some (_, rest) => rest | None => input end in
  let host_port := match split_char SLASH without_scheme with h :: _ => h | [] => without_scheme end in
  let host_port := match rsplit_once AT host_port with Some (_, rest) => rest | None => host_port end in
  let bracketed :=
    match host_port with
    | c :: rest => if (c =? LBRACKET)%N then split_once RBRACKET rest else None
    | [] => None
    end in
  match bracketed with
  | Some (host, after) =>
      let port := match strip_prefix (L":") after with
                  | Some port => default default_port (parse_u16 port)
                  | None => default_port
                  end in
      if is_nil host then Err (MissingHost input) else Ok (mkParts host port)
  | None =>
      match (if count_char COLON host_port =? 1 then rsplit_once COLON host_port else None) with
      | Some (host, port) =>
          if is_nil host then Err (MissingHost input)
          else Ok (mkParts host (default default_port (parse_u16 port)))
      | None => if is_nil host_port then Err (MissingHost input) else Ok (mkParts host_port default_port)
      end
  end.

(** [trim_matches] of brackets. *)
Definition is_bracket (c : char) : bool := (c =? LBRACKET)%N || (c =? RBRACKET)%N.
Definition trim_brackets (s : str) : str := trim_end_matches is_bracket (trim_start_matches is_bracket s).

Section listen.
(** [Url::parse]: the host as printed and the port of the URL, if any. *)
Context (url_parse : str -> option (option str * option N)).

Definition parse_host_port (url : str) (default_port : N) : result AddressError SocketAddressParts :=
  let trimmed := trim url in
  if is_nil trimmed then Err (MissingHost url)
  else if match parse_ip trimmed with Some (V6 _) => true | _ => false end
          && negb (starts_with (L"[") trimmed)
  then Ok (mkParts trimmed default_port)
  else
    let candidate := if contains (L"://") trimmed then trimmed else L"http://" ++ trimmed in
    match url_parse candidate with
    | Some (Some host, port) =>
        let host := trim_brackets host in
        if is_nil host then Err (MissingHost url)
        else Ok (mkParts host (default default_port port))
    | _ => parse_host_port_fallback trimmed default_port
    end.

Definition host_and_port_from_network_addr (value : str) (default_port : N) : str :=
  let trimmed := trim value in
  if is_nil trimmed then L"<missing>"
  else match parse_host_port trimmed default_port with
       | Ok parts => format_host_and_port (part_host parts) (part_port parts)
       | _ => format_host_and_port trimmed default_port
       end.

Definition LOOPBACK : IpAddr := V4 (from_octets 127 0 0 1).

Definition resolve_addr (url : str) (default_port : N) : result AddressError SocketAddr :=
  let? parts := parse_host_port url default_port in
  let host := if str_eqb (to_ascii_lowercase (part_host parts)) (L"localhost")
              then L"127.0.0.1" else part_host parts in
  match parse_ip host with
  | Some ip => Ok (mkAddr ip (part_port parts))
  | None => Ok (mkAddr LOOPBACK (part_port parts))
  end.

Definition clamp_non_loopback (addr : SocketAddr) (allow_non_loopback : bool) : SocketAddr :=
  if ip_is_loopback (addr_ip addr) then addr
  else if allow_non_loopback then addr
  else mkAddr LOOPBACK (addr_port addr).

Definition clamp_bind_addrs (http_addr socks_addr : SocketAddr) (cfg : NetworkProxySettings)
  : SocketAddr * SocketAddr :=
  let http_addr := clamp_non_loopback http_addr (dangerously_allow_non_loopback_proxy cfg) in
  let socks_addr := clamp_non_loopback socks_addr (dangerously_allow_non_loopback_proxy cfg) in
  if is_nil (allow_unix_sockets cfg) && negb (dangerously_allow_all_unix_sockets cfg)
  then (http_addr, socks_addr)
  else (mkAddr LOOPBACK (addr_port http_addr), mkAddr LOOPBACK (addr_port socks_addr)).

Definition resolve_runtime (home cwd : option str) (cfg : NetworkProxySettings)
  : result AddressError (SocketAddr * SocketAddr) :=
  if existsb (fun p => is_none (validated_unix_socket_path home cwd p)) (allow_unix_sockets cfg)
  then Err BadSocketPath
  else
    let? http_addr := resolve_addr (proxy_url cfg) 3128 in
    let? socks_addr := resolve_addr (socks_url cfg) 8081 in
    Ok (clamp_bind_addrs http_addr socks_addr cfg).

Lemma clamp_loopback addr : ip_is_loopback (addr_ip (clamp_non_loopback addr false)) = true.
Proof. unfold clamp_non_loopback. destruct (ip_is_loopback (addr_ip addr)) eqn:E; [done|reflexivity]. Qed.

Lemma clamp_port addr b : addr_port (clamp_non_loopback addr b) = addr_port addr.
Proof. unfold clamp_non_loopback. by repeat case_match. Qed.

(** The listeners stay on loopback: both addresses are loopback addresses
    unless the configuration asks for others, and then still if any Unix socket
    may be reached through the proxy; the ports are those of the configuration. *)
Theorem listeners_stay_on_loopback home cwd cfg http socks :
  resolve_runtime home cwd cfg = Ok (http, socks) ->
  (exists h s, resolve_addr (proxy_url cfg) 3128 = Ok h /\ resolve_addr (socks_url cfg) 8081 = Ok s
     /\ addr_port http = addr_port h /\ addr_port socks = addr_port s)
  /\ (dangerously_allow_non_loopback_proxy cfg = false
      \/ allow_unix_sockets cfg <> [] \/ dangerously_allow_all_unix_sockets cfg = true ->
      ip_is_loopback (addr_ip http) = true /\ ip_is_loopback (addr_ip socks) = true).
Proof.
  unfold resolve_runtime. case_match; [done|]. intros Hr. apply rbind_ok in Hr as (h & Hh & Hr).
  apply rbind_ok in Hr as (s & Hs & Hc). injection Hc as Hc. unfold clamp_bind_addrs in Hc.
  destruct (is_nil (allow_unix_sockets cfg) && negb (dangerously_allow_all_unix_sockets cfg)) eqn:E;
    injection Hc as <- <-.
  - split; [exists h, s; by rewrite !clamp_port|]. apply andb_true_iff in E as [E1 E2].
    apply is_nil_true in E1. apply negb_true_iff in E2.
    intros [-> | [Hn|Ha]]; [split; apply clamp_loopback|done|congruence].
  - split; [exists h, s; cbn; by rewrite !clamp_port|]. by split.
Qed.

End listen.

Lemma listeners_stay_on_loopback_witness :
  resolve_runtime (fun _ => None) None (Some (L"/")) default_settings
  = Ok (mkAddr LOOPBACK 3128, mkAddr LOOPBACK 8081)
  /\ ip_is_loopback LOOPBACK = true.
Proof.
  assert (resolve_runtime (fun _ => None) None (Some (L"/")) default_settings
    = Ok (mkAddr LOOPBACK 3128, mkAddr LOOPBACK 8081)) as Hr by (vm_compute; reflexivity).
  split; [exact Hr|]. apply listeners_stay_on_loopback in Hr as [_ Hl].
  apply Hl. left. reflexivity.
Defined.

(** ** Printing and parsing *)

Lemma parse_digits_app acc a b :
  parse_digits acc (a ++ b) = match parse_digits acc a with Some n => parse_digits n b | None => None end.
Proof. revert acc. induction a as [|c a IH]; intros acc; cbn; [done|]. case_match; [apply IH|done]. Qed.

(** The digits of [n] in front of [acc] read as [n], then [acc]. *)
Lemma digits_fuel_spec fuel n acc :
  (n < 10 ^ N.of_nat fuel)%N ->
  exists ds, digits_fuel fuel n acc = ds ++ acc /\ Forall (fun c => is_ascii_digit c = true) ds
    /\ (0 < fuel -> ds <> []) /\ parse_digits 0 ds = Some n.
Proof.
  revert n acc. induction fuel as [|fuel IH]; intros n acc Hn.
  - exists []. cbn in *. split_and!; [done|constructor|lia|f_equal; lia].
  - cbn [digits_fuel]. assert (is_ascii_digit (48 + n mod 10) = true) as Hd
      by (unfold is_ascii_digit; lia). assert (48 + n mod 10 - 48 = n mod 10)%N as Hsub by lia.
    destruct (N.ltb_spec n 10) as [Hlt|Hge].
    + exists [(48 + n mod 10)%N]. split_and!; [done|by repeat constructor|done|].
      cbn [parse_digits]. rewrite Hd, Hsub, N.mod_small by done. done.
    + destruct (IH (n / 10)%N ((48 + n mod 10)%N :: acc)) as (ds & -> & Hds & _ & Hp).
      { rewrite Nat2N.inj_succ, N.pow_succ_r' in Hn. apply N.Div0.div_lt_upper_bound. done. }
      exists (ds ++ [(48 + n mod 10)%N]). split_and!.
      * by rewrite <- app_assoc.
      * apply Forall_app. by repeat constructor.
      * intros _ Hnil. by apply app_eq_nil in Hnil as [_ ?].
      * rewrite parse_digits_app, Hp. cbn [parse_digits]. rewrite Hd, Hsub. f_equal.
        pose proof (N.div_mod n 10 ltac:(done)). lia.
Qed.

Lemma size_pow10 n : (n < 10 ^ N.of_nat (S (N.to_nat (N.size n))))%N.
Proof.
  rewrite Nat2N.inj_succ, N2Nat.id. pose proof (N.size_gt n) as Hs.
  eapply N.lt_le_trans; [exact Hs|]. etransitivity; [apply N.pow_le_mono_l with (b := 10%N); lia|].
  apply N.pow_le_mono_r; lia.
Qed.

Lemma show_port_spec port :
  exists ds, show_port port = ds /\ ds <> [] /\ Forall (fun c => is_ascii_digit c = true) ds
    /\ parse_digits 0 ds = Some port.
Proof.
  unfold show_port, show_nat. rewrite N2Nat.id.
  destruct (digits_fuel_spec (S (N.to_nat (N.size port))) port [] (size_pow10 port))
    as (ds & -> & Hd & Hne & Hp). exists ds. rewrite app_nil_r. split_and!; [done|apply Hne; lia|done..].
Qed.

Lemma parse_show_port port : (port < 65536)%N -> parse_u16 (show_port port) = Some port.
Proof.
  intros Hp. destruct (show_port_spec port) as (ds & -> & Hne & Hd & Hparse). unfold parse_u16.
  destruct ds as [|c ds]; [done|]. apply Forall_cons in Hd as [Hc Hd].
  rewrite (proj2 (N.eqb_neq c 43)) by (unfold is_ascii_digit in Hc; lia). cbn [is_nil].
  by rewrite Hparse, (proj2 (N.ltb_lt _ _) Hp).
Qed.

Lemma show_port_avoids port c : is_ascii_digit c = false -> c ∉ show_port port.
Proof.
  destruct (show_port_spec port) as (ds & -> & _ & Hd & _). intros Hc Hin.
  rewrite Forall_forall in Hd. by rewrite (Hd _ Hin) in Hc.
Qed.

Lemma rsplit_once_absent sep s : sep ∉ s -> rsplit_once sep s = None.
Proof.
  intros Hs. destruct (rsplit_once sep s) as [[a b]|] eqn:E; [|done].
  apply rsplit_once_Some in E. subst. set_solver.
Qed.

(** Without slash and at sign nothing is cut off. *)
Lemma fallback_plain input port :
  SLASH ∉ input -> AT ∉ input ->
  parse_host_port_fallback input port =
    match (match input with
           | c :: rest => if (c =? LBRACKET)%N then split_once RBRACKET rest else None
           | [] => None
           end) with
    | Some (host, after) =>
        let port := match strip_prefix (L":") after with
                    | Some p => default port (parse_u16 p)
                    | None => port
                    end in
        if is_nil host then Err (MissingHost input) else Ok (mkParts host port)
    | None =>
        match (if count_char COLON input =? 1 then rsplit_once COLON input else None) with
        | Some (host, p) =>
            if is_nil host then Err (MissingHost input)
            else Ok (mkParts host (default port (parse_u16 p)))
        | None => if is_nil input then Err (MissingHost input) else Ok (mkParts input port)
        end
    end.
Proof.
  intros Hs Ha. unfold parse_host_port_fallback.
  rewrite (split_once_str_absent SLASH) by (done || (unfold lit; set_solver)).
  rewrite split_char_none by done. cbn iota. by rewrite rsplit_once_absent.
Qed.

(** A host as it stands in an address: a name, or the text of an IPv6 address. *)
Definition address_host (h : str) : Prop :=
  h <> [] /\ SLASH ∉ h /\ AT ∉ h /\ LBRACKET ∉ h /\ RBRACKET ∉ h.

(** Printing an address and reading it back.  [format_host_and_port] puts
    brackets around an IPv6 host; the parser that does without the URL library
    gives back the host and the port, whatever default it is given. *)
Theorem host_and_port_roundtrip h port default_port :
  address_host h -> (port < 65536)%N ->
  parse_host_port_fallback (format_host_and_port h port) default_port = Ok (mkParts h port).
Proof.
  intros (Hne & Hs & Ha & Hl & Hr) Hport. unfold format_host_and_port.
  destruct (contains_char COLON h) eqn:Ec.
  - rewrite fallback_plain; cycle 1.
    { rewrite !elem_of_app. pose proof (show_port_avoids port SLASH eq_refl). set_solver. }
    { rewrite !elem_of_app. pose proof (show_port_avoids port AT eq_refl). set_solver. }
    change (L"[" ++ h ++ L"]:" ++ show_port port) with (LBRACKET :: h ++ RBRACKET :: COLON :: show_port port).
    cbn [N.eqb]. rewrite N.eqb_refl, split_once_app by done.
    change (COLON :: show_port port) with (L":" ++ show_port port). rewrite strip_prefix_app, parse_show_port by done.
    cbn. destruct h; [done|reflexivity].
  - apply contains_char_false in Ec. rewrite fallback_plain; cycle 1.
    { rewrite !elem_of_app. pose proof (show_port_avoids port SLASH eq_refl). set_solver. }
    { rewrite !elem_of_app. pose proof (show_port_avoids port AT eq_refl). set_solver. }
    change (L":" ++ show_port port) with (COLON :: show_port port).
    pose proof (show_port_avoids port COLON eq_refl) as Hp.
    assert (count_char COLON (h ++ COLON :: show_port port) = 1) as ->.
    { unfold count_char. rewrite List.filter_app, length_app.
      pose proof (count_char_absent COLON h Ec) as E1. pose proof (count_char_absent COLON _ Hp) as E2.
      unfold count_char in E1, E2. cbn [List.filter]. rewrite N.eqb_refl. cbn [length]. lia. }
    rewrite Nat.eqb_refl, rsplit_once_app by done. cbn iota. rewrite parse_show_port by done.
    destruct h as [|c h]; [done|]. cbn [app]. rewrite (proj2 (N.eqb_neq c LBRACKET)) by set_solver. done.
Qed.

Lemma host_and_port_roundtrip_witness :
  parse_host_port_fallback (L"[::1]:8081") 3128 = Ok (mkParts (L"::1") 8081).
Proof.
  apply (host_and_port_roundtrip (L"::1") 8081 3128); [|lia].
  unfold address_host. split_and!; apply (bool_decide_unpack _); vm_compute; exact I.
Defined.
