(* ===== verification/StreamTags.v ===== *)
(** * Streamed text with hidden tags (utils/stream-parser/src: stream_text.rs,
    inline_hidden_tag.rs, citation.rs)

    A parser takes text in pieces, shows what is certain to be visible and
    holds back what may be the start of a tag.  Positions are counted in characters:
    the source counts bytes, which order positions in one string the same way, and
    only cuts at matches. *)

From S2P Require Import Prelude RustStr.

(** ** The interface of stream parsers *)

Record StreamTextChunk (T : Type) := mkChunk {
  visible_text : str;
  extracted : list T }.
Arguments mkChunk {T} visible_text extracted.
Arguments visible_text {T} s.
Arguments extracted {T} s.

Definition empty_chunk {T} : StreamTextChunk T := mkChunk [] [].
Definition chunk_app {T} (a b : StreamTextChunk T) : StreamTextChunk T :=
  mkChunk (visible_text a ++ visible_text b) (extracted a ++ extracted b).
Definition chunk_is_empty {T} (c : StreamTextChunk T) : bool :=
  is_nil (visible_text c) && is_nil (extracted c).

#[export] Instance chunk_app_assoc {T} : Assoc (=) (@chunk_app T).
Proof. intros [] [] []. unfold chunk_app. cbn. by rewrite !app_assoc. Qed.
#[export] Instance chunk_app_left_id {T} : LeftId (=) empty_chunk (@chunk_app T).
Proof. by intros []. Qed.
#[export] Instance chunk_app_right_id {T} : RightId (=) empty_chunk (@chunk_app T).
Proof. intros []. unfold chunk_app. cbn. by rewrite !app_nil_r. Qed.

(** The trait [StreamTextParser]. *)
Class StreamTextParser (P T : Type) := {
  push_str : P -> str -> P * StreamTextChunk T;
  finish : P -> P * StreamTextChunk T }.

(** Feeding pieces, and what comes out in all. *)
Fixpoint push_all {P T} `{StreamTextParser P T} (p : P) (pieces : list str) : P * StreamTextChunk T :=
  match pieces with
  | [] => (p, empty_chunk)
  | piece :: rest =>
      let '(p1, o1) := push_str p piece in
      let '(p2, o2) := push_all p1 rest in
      (p2, chunk_app o1 o2)
  end.

Definition collect {P T} `{StreamTextParser P T} (p : P) (pieces : list str) : StreamTextChunk T :=
  let '(p1, o1) := push_all p pieces in chunk_app o1 (snd (finish p1)).

(** What a client may rely on: in the states [ok], cutting a piece in two changes
    nothing. *)
Class CutIndependent (P T : Type) `{StreamTextParser P T} (ok : P -> Prop) := {
  push_str_ok : forall p a, ok p -> ok (fst (push_str p a));
  push_str_nil : forall p, ok p -> push_str p [] = (p, empty_chunk);
  push_str_app : forall p a b, ok p ->
    push_str p (a ++ b) =
      let '(p1, o1) := push_str p a in
      let '(p2, o2) := push_str p1 b in
      (p2, chunk_app o1 o2) }.

Lemma push_all_concat {P T} `{CutIndependent P T ok} p pieces :
  ok p -> push_all p pieces = push_str p (concat pieces).
Proof.
  revert p. induction pieces as [|piece rest IH]; intros p Hp; cbn.
  - by rewrite push_str_nil.
  - rewrite push_str_app by done. pose proof (push_str_ok p piece Hp) as Hp1.
    destruct (push_str p piece) as [p1 o1]. by rewrite IH.
Qed.

(** ** Searching *)

(** [str::find]: the first position. *)
Fixpoint find_str (needle s : str) : option nat :=
  if starts_with needle s then Some 0
  else match s with [] => None | _ :: s' => S <$> find_str needle s' end.

(** The longest suffix of [s] that is a proper prefix of [needle], by trying the
    lengths from the greatest down. *)
Fixpoint longest_from (k : nat) (s needle : str) : nat :=
  match k with
  | 0 => 0
  | S k' => if ends_with (take k needle) s then k else longest_from k' s needle
  end.

Definition longest_suffix_prefix_len (s needle : str) : nat :=
  longest_from (Nat.min (length s) (length needle - 1)) s needle.

(** ** Inline tags (inline_hidden_tag.rs) *)

Record InlineTagSpec (T : Type) := mkSpec {
  spec_tag : T;
  spec_open : str;
  spec_close : str }.
Arguments mkSpec {T} spec_tag spec_open spec_close.
Arguments spec_tag {T} i.
Arguments spec_open {T} i.
Arguments spec_close {T} i.

Record ExtractedInlineTag (T : Type) := mkExtracted {
  extracted_tag : T;
  content : str }.
Arguments mkExtracted {T} extracted_tag content.
Arguments content {T} e.

Record ActiveTag (T : Type) := mkActive {
  active_tag : T;
  active_close : str;
  active_content : str }.
Arguments mkActive {T} active_tag active_close active_content.
Arguments active_tag {T} a.
Arguments active_close {T} a.
Arguments active_content {T} a.

Record InlineHiddenTagParser (T : Type) := mkInline {
  specs : list (InlineTagSpec T);
  pending : str;
  active : option (ActiveTag T) }.
Arguments mkInline {T} specs pending active.
Arguments specs {T} i.
Arguments pending {T} i.
Arguments active {T} i.

Section inline.
Context {T : Type}.
Abbreviation parser := (InlineHiddenTagParser T).

(** [new] asserts that there is a tag and that no delimiter is empty. *)
Definition inline_new (specs : list (InlineTagSpec T)) : result unit parser :=
  if is_nil specs then Panic
  else if existsb (fun s => is_nil (spec_open s) || is_nil (spec_close s)) specs then Panic
  else Ok (mkInline specs [] None).

(** A candidate: position, length of the delimiter, index of the tag; and the
    order of [min_by]. *)
Definition Candidate : Type := nat * nat * nat.
Definition candidate_less (a b : Candidate) : bool :=
  let '(pos_a, len_a, idx_a) := a in
  let '(pos_b, len_b, idx_b) := b in
  (pos_a <? pos_b)
  || (pos_a =? pos_b) && ((len_b <? len_a) || (len_a =? len_b) && (idx_a <? idx_b)).

Fixpoint min_candidate (l : list Candidate) : option Candidate :=
  match l with
  | [] => None
  | c :: rest =>
      match min_candidate rest with
      | Some d => Some (if candidate_less d c then d else c)
      | None => Some c
      end
  end.

(** The candidates among the delimiters [opens], numbered from [idx]. *)
Fixpoint candidates (idx : nat) (opens : list str) (s : str) : list Candidate :=
  match opens with
  | [] => []
  | o :: rest =>
      match find_str o s with
      | Some pos => (pos, length o, idx) :: candidates (S idx) rest s
      | None => candidates (S idx) rest s
      end
  end.

Definition find_first (opens : list str) (s : str) : option (nat * nat) :=
  match min_candidate (candidates 0 opens s) with Some (pos, _, idx) => Some (pos, idx) | None => None end.

Definition find_next_open (p : parser) : option (nat * nat) :=
  find_first (spec_open <$> specs p) (pending p).

(** The most that must be held back for one of the delimiters. *)
Definition held_back (opens : list str) (s : str) : nat :=
  max_list (longest_suffix_prefix_len s <$> opens).

Definition max_open_prefix_suffix_len (p : parser) : nat := held_back (spec_open <$> specs p) (pending p).

(** One turn of the loop of [push_str]: whether it goes on, the parser, the output. *)
Definition loop_turn (p : parser) : bool * parser * StreamTextChunk (ExtractedInlineTag T) :=
  match active p with
  | Some a =>
      match find_str (active_close a) (pending p) with
      | Some close_idx =>
          (true, mkInline (specs p) (drop (close_idx + length (active_close a)) (pending p)) None,
           mkChunk [] [mkExtracted (active_tag a) (active_content a ++ take close_idx (pending p))])
      | None =>
          let keep := longest_suffix_prefix_len (pending p) (active_close a) in
          let n := length (pending p) - keep in
          (false, mkInline (specs p) (drop n (pending p))
             (Some (mkActive (active_tag a) (active_close a) (active_content a ++ take n (pending p)))),
           empty_chunk)
      end
  | None =>
      match find_next_open p with
      | Some (open_idx, spec_idx) =>
          match specs p !! spec_idx with
          | Some spec =>
              (true, mkInline (specs p) (drop (open_idx + length (spec_open spec)) (pending p))
                 (Some (mkActive (spec_tag spec) (spec_close spec) [])),
               mkChunk (take open_idx (pending p)) [])
          | None => (false, p, empty_chunk)
          end
      | None =>
          let n := length (pending p) - max_open_prefix_suffix_len p in
          (false, mkInline (specs p) (drop n (pending p)) None, mkChunk (take n (pending p)) [])
      end
  end.

Fixpoint inline_loop (fuel : nat) (p : parser) : parser * StreamTextChunk (ExtractedInlineTag T) :=
  match fuel with
  | 0 => (p, empty_chunk)
  | S fuel =>
      let '(again, p1, o1) := loop_turn p in
      if again then let '(p2, o2) := inline_loop fuel p1 in (p2, chunk_app o1 o2) else (p1, o1)
  end.

(** Every turn that goes on removes a delimiter, so this fuel is enough. *)
Definition inline_push_str (p : parser) (chunk : str) : parser * StreamTextChunk (ExtractedInlineTag T) :=
  let p := mkInline (specs p) (pending p ++ chunk) (active p) in
  inline_loop (S (length (pending p))) p.

Definition inline_finish (p : parser) : parser * StreamTextChunk (ExtractedInlineTag T) :=
  match active p with
  | Some a =>
      (mkInline (specs p) [] None, mkChunk [] [mkExtracted (active_tag a) (active_content a ++ pending p)])
  | None => (mkInline (specs p) [] None, mkChunk (pending p) [])
  end.

#[export] Instance inline_parser : StreamTextParser parser (ExtractedInlineTag T) :=
  {| push_str := inline_push_str; finish := inline_finish |}.
End inline.

(** ** Citations (citation.rs) *)

Definition CITATION_OPEN : str := L"<oai-mem-citation>".
Definition CITATION_CLOSE : str := L"</oai-mem-citation>".

Definition CitationStreamParser : Type := InlineHiddenTagParser unit.

Definition citation_new : CitationStreamParser :=
  mkInline [mkSpec tt CITATION_OPEN CITATION_CLOSE] [] None.

Definition contents {T} (c : StreamTextChunk (ExtractedInlineTag T)) : StreamTextChunk str :=
  mkChunk (visible_text c) (content <$> extracted c).

Definition citation_push_str (p : CitationStreamParser) (chunk : str)
  : CitationStreamParser * StreamTextChunk str :=
  let '(p, o) := inline_push_str p chunk in (p, contents o).
Definition citation_finish (p : CitationStreamParser) : CitationStreamParser * StreamTextChunk str :=
  let '(p, o) := inline_finish p in (p, contents o).

#[export] Instance citation_parser : StreamTextParser CitationStreamParser str :=
  {| push_str := citation_push_str; finish := citation_finish |}.

Definition strip_citations (text : str) : str * list str :=
  let '(p, o) := citation_push_str citation_new text in
  let '(_, tail) := citation_finish p in
  let out := chunk_app o tail in (visible_text out, extracted out).

Example citations_stripped :
  strip_citations (L"Hello <oai-mem-citation>source A</oai-mem-citation> world")
  = (L"Hello  world", [L"source A"])
  /\ strip_citations (L"x<oai-mem-citation>a") = (L"x", [L"a"]).
Proof. split; vm_compute; reflexivity. Qed.

(** ** Occurrences *)

(** [needle] stands in [s] at [i]. *)
Definition stands (needle s : str) (i : nat) : Prop := exists r, drop i s = needle ++ r.

Lemma stands_bound needle s i : needle <> [] -> stands needle s i -> i + length needle <= length s.
Proof.
  intros Hne [r Hr]. apply (f_equal length) in Hr. rewrite length_drop, length_app in Hr.
  destruct needle; [done|]. cbn in *. lia.
Qed.

Lemma find_str_Some needle s i :
  find_str needle s = Some i <-> stands needle s i /\ forall j, stands needle s j -> i <= j.
Proof.
  revert i. induction s as [|c s IH]; intros i; cbn [find_str].
  - destruct (starts_with needle []) eqn:E.
    + apply starts_with_true in E as [r Er]. split.
      * intros [= <-]. split; [by exists r|lia].
      * intros [_ Hmin]. f_equal. specialize (Hmin 0). assert (stands needle [] 0) as H0 by (by exists r).
        specialize (Hmin H0). lia.
    + split; [done|]. intros [[r Hr] _]. rewrite drop_nil in Hr. symmetry in Hr.
      assert (starts_with needle [] = true); [|congruence]. apply starts_with_true. by exists r.
  - destruct (starts_with needle (c :: s)) eqn:E.
    + apply starts_with_true in E as [r Er]. split.
      * intros [= <-]. split; [by exists r|lia].
      * intros [_ Hmin]. f_equal. assert (stands needle (c :: s) 0) as H0 by (by exists r).
        specialize (Hmin 0 H0). lia.
    + assert (~ stands needle (c :: s) 0) as H0.
      { intros [r Hr]. cbn in Hr. assert (starts_with needle (c :: s) = true); [|congruence].
        apply starts_with_true. by exists r. }
      assert (forall j, stands needle (c :: s) (S j) <-> stands needle s j) as HS by done.
      rewrite fmap_Some. setoid_rewrite IH. split.
      * intros (j & [Hj Hmin] & ->). split; [by apply HS|]. intros [|k] Hk; [done|].
        apply le_n_S, Hmin. by apply HS.
      * intros [Hi Hmin]. destruct i as [|i]; [done|]. exists i. split_and!; [by apply HS| |done].
        intros k Hk. specialize (Hmin (S k) Hk). lia.
Qed.

Lemma find_str_None needle s : find_str needle s = None <-> forall i, ~ stands needle s i.
Proof.
  split.
  - induction s as [|c s IH]; cbn [find_str]; intros Hf i [r Hr].
    + case_match eqn:E; [done|]. rewrite drop_nil in Hr. assert (starts_with needle [] = true); [|congruence].
      apply starts_with_true. by exists r.
    + case_match eqn:E; [done|]. apply fmap_None in Hf. destruct i as [|i]; cbn in Hr.
      * assert (starts_with needle (c :: s) = true); [|congruence]. apply starts_with_true. by exists r.
      * apply (IH Hf i). by exists r.
  - intros Hno. destruct (find_str needle s) as [i|] eqn:E; [|done].
    apply find_str_Some in E as [Hi _]. by apply Hno in Hi.
Qed.

Lemma stands_app needle s b i : stands needle s i -> needle <> [] -> stands needle (s ++ b) i.
Proof.
  intros Hs Hne. pose proof (stands_bound _ _ _ Hne Hs). destruct Hs as [r Hr]. exists (r ++ b).
  rewrite drop_app_le by lia. by rewrite Hr, app_assoc.
Qed.

Lemma stands_app_inv needle s b i :
  stands needle (s ++ b) i -> i + length needle <= length s -> stands needle s i.
Proof.
  intros [r Hr] Hlen. exists (drop (i + length needle) s). rewrite drop_app_le in Hr by lia.
  rewrite <- drop_drop. apply (f_equal (take (length needle))) in Hr as Ht.
  rewrite take_app_le in Ht by (rewrite length_drop; lia). rewrite take_app_length in Ht.
  rewrite <- Ht at 1. by rewrite take_drop.
Qed.

Lemma stands_shift needle t s i : stands needle (t ++ s) (length t + i) <-> stands needle s i.
Proof. unfold stands. by rewrite drop_app_add. Qed.

(** A delimiter that ends inside another one cuts it short. *)
Lemma stands_inside a b s i j :
  a <> [] -> stands a s i -> stands b s j -> j <= i -> i + length a < j + length b ->
  exists u v, b = u ++ a ++ v /\ v <> [].
Proof.
  intros Hne [ra Ha] [rb Hb] Hle Hlt. exists (take (i - j) b), (drop (i - j + length a) b).
  assert (drop (i - j) b ++ rb = a ++ ra) as Hab.
  { assert (drop i s = drop (i - j) (drop j s)) as E by (rewrite drop_drop; f_equal; lia).
    rewrite <- Ha, E, Hb. rewrite drop_app_le by lia. done. }
  split.
  - rewrite <- (take_drop (i - j) b) at 1. f_equal. rewrite <- drop_drop.
    apply (f_equal (take (length a))) in Hab as Ht. rewrite take_app_length in Ht.
    rewrite take_app_le in Ht by (rewrite length_drop; lia). rewrite <- Ht at 1. by rewrite take_drop.
  - intros Hv. apply (f_equal length) in Hv. rewrite length_drop in Hv. cbn in Hv. lia.
Qed.

(** *** What is held back *)

(** The last [k] characters of [s] are a proper beginning of [needle]. *)
Definition begins (needle s : str) (k : nat) : Prop :=
  k < length needle /\ k <= length s /\ drop (length s - k) s = take k needle.

Lemma ends_with_take needle s k :
  k <= length needle -> k <= length s ->
  ends_with (take k needle) s = true <-> drop (length s - k) s = take k needle.
Proof.
  intros Hn Hs. rewrite ends_with_true. split.
  - intros [r ->]. rewrite length_app, length_take. replace (length r + k `min` length needle - k) with (length r) by lia.
    by rewrite drop_app_length.
  - intros Hd. exists (take (length s - k) s). by rewrite <- Hd, take_drop.
Qed.

Lemma longest_from_spec k s needle :
  k <= length s -> k < length needle \/ k = 0 ->
  (longest_from k s needle = 0 \/ begins needle s (longest_from k s needle))
  /\ longest_from k s needle <= k
  /\ forall j, begins needle s j -> j <= k -> j <= longest_from k s needle.
Proof.
  induction k as [|k IH]; intros Hs Hn; cbn [longest_from].
  - split_and!; [by left|lia|lia].
  - destruct (ends_with (take (S k) needle) s) eqn:E.
    + apply ends_with_take in E; [|lia..]. split_and!; [right; split_and!; [lia|lia|done]|lia|lia].
    + destruct IH as (H1 & H2 & H3); [lia|lia|]. split_and!; [done|lia|].
      intros j Hj Hjk. destruct (decide (j = S k)) as [->|]; [|apply H3; [done|lia]].
      destruct Hj as (? & ? & Hj). apply ends_with_take in Hj; [congruence|lia..].
Qed.

Lemma longest_spec s needle :
  needle <> [] ->
  begins needle s (longest_suffix_prefix_len s needle)
  /\ forall j, begins needle s j -> j <= longest_suffix_prefix_len s needle.
Proof.
  intros Hne. unfold longest_suffix_prefix_len. assert (0 < length needle) by (destruct needle; cbn; [done|lia]).
  destruct (longest_from_spec (length s `min` (length needle - 1)) s needle) as (H1 & H2 & H3); [lia|lia|].
  split.
  - destruct H1 as [->|]; [|done]. split_and!; [lia|lia|]. rewrite Nat.sub_0_r, drop_all. done.
  - intros j Hj. apply H3; [done|]. destruct Hj as (? & ? & _). lia.
Qed.

(** What begins in [t ++ s] before [s] ends begins in [t ++ s ++ b] too far out. *)
Lemma begins_prefix needle x b k :
  begins needle (x ++ b) k -> length b < k -> begins needle x (k - length b).
Proof.
  intros (Hn & Hl & Hd) Hk. rewrite length_app in *. split_and!; [lia|lia|].
  apply (f_equal (take (k - length b))) in Hd. rewrite take_take in Hd.
  replace ((k - length b) `min` k) with (k - length b) in Hd by lia. rewrite <- Hd.
  rewrite drop_app_le by lia. rewrite take_app_le by (rewrite length_drop; lia).
  replace (length x - (k - length b)) with (length x + length b - k) by lia.
  rewrite take_ge; [done|]. rewrite length_drop. lia.
Qed.

Lemma begins_shift needle t s k : k <= length s -> begins needle (t ++ s) k <-> begins needle s k.
Proof.
  intros Hk. unfold begins. rewrite length_app, drop_app_ge by lia.
  replace (length t + length s - k - length t) with (length s - k) by lia. split; intros (?&?&?); split_and!; lia || done.
Qed.

(** An occurrence that runs past the end of [x] begins in it. *)
Lemma stands_over needle x b i :
  stands needle (x ++ b) i -> i <= length x -> length x < i + length needle ->
  begins needle x (length x - i).
Proof.
  intros [r Hr] Hi Hlen. split_and!; [lia|lia|]. replace (length x - (length x - i)) with i by lia.
  rewrite drop_app_le in Hr by lia. apply (f_equal (take (length x - i))) in Hr.
  rewrite take_app_le in Hr by (rewrite length_drop; lia).
  rewrite take_app_le in Hr by lia. rewrite <- Hr. rewrite take_ge; [done|]. rewrite length_drop. lia.
Qed.

(** *** The first delimiter *)

Section first.
Context (opens : list str) (nonempty : Forall (fun o : str => o <> []) opens).

Lemma open_nonempty idx o : opens !! idx = Some o -> o <> [].
Proof. intros Ho. by apply (Forall_lookup_1 _ _ _ _ nonempty Ho). Qed.

(** The delimiter that comes first; of those at one position the longest, then
    the first listed. *)
Record best (s : str) (pos idx : nat) (o : str) : Prop := {
  best_open : opens !! idx = Some o;
  best_stands : stands o s pos;
  best_first : forall i' idx' o', opens !! idx' = Some o' -> stands o' s i' ->
    pos < i' \/ pos = i' /\ (length o' < length o \/ length o' = length o /\ idx <= idx') }.

Lemma best_unique s pos idx o pos' idx' o' :
  best s pos idx o -> best s pos' idx' o' -> pos = pos' /\ idx = idx' /\ o = o'.
Proof.
  intros [Ho Hs Hf] [Ho' Hs' Hf']. specialize (Hf _ _ _ Ho' Hs'). specialize (Hf' _ _ _ Ho Hs).
  assert (idx = idx') as <- by lia. rewrite Ho in Ho'. injection Ho' as <-. split_and!; [lia|done|done].
Qed.

Lemma candidates_spec os k s pos len idx :
  (pos, len, idx) ∈ candidates k os s <->
  exists o, k <= idx /\ os !! (idx - k) = Some o /\ len = length o /\ find_str o s = Some pos.
Proof.
  revert k. induction os as [|o os IH]; intros k; cbn [candidates].
  - split; [set_solver|]. intros (o & _ & Ho & _). by rewrite lookup_nil in Ho.
  - assert (forall idx', k <= idx' -> idx' <> k -> (o :: os) !! (idx' - k) = os !! (idx' - S k)) as Hsucc.
    { intros idx' Hle Hne. by replace (idx' - k) with (S (idx' - S k)) by lia. }
    assert ((exists o0, k <= idx /\ (o :: os) !! (idx - k) = Some o0 /\ len = length o0 /\ find_str o0 s = Some pos)
      <-> (idx = k /\ len = length o /\ find_str o s = Some pos) \/ (pos, len, idx) ∈ candidates (S k) os s) as Hex.
    { rewrite IH. split.
      - intros (o' & Hle & Ho' & -> & Hf). destruct (decide (idx = k)) as [->|Hne].
        + rewrite Nat.sub_diag in Ho'. injection Ho' as <-. by left.
        + right. exists o'. rewrite <- Hsucc by done. split_and!; [lia|done..].
      - intros [(-> & -> & Hf)|(o' & Hle & Ho' & -> & Hf)].
        + exists o. rewrite Nat.sub_diag. split_and!; [lia|done..].
        + exists o'. rewrite Hsucc by lia. split_and!; [lia|done..]. }
    rewrite Hex. destruct (find_str o s) as [p|]; [|split; [by right|by intros [(_ & _ & [=])|]]].
    rewrite elem_of_cons. split; [intros [[= -> -> ->]|]; auto|].
    intros [(-> & -> & [= ->])|]; auto.
Qed.

Lemma min_candidate_spec l c :
  min_candidate l = Some c -> c ∈ l /\ forall d, d ∈ l -> candidate_less d c = false.
Proof.
  revert c. induction l as [|x l IH]; intros c; cbn; [done|].
  destruct (min_candidate l) as [d|] eqn:E.
  - destruct (IH d eq_refl) as [Hd Hmin]. intros [= <-]. destruct (candidate_less d x) eqn:Ex.
    + split; [by right|]. intros e [->|He]%elem_of_cons; [|by apply Hmin].
      destruct x as [[]], d as [[]]. unfold candidate_less in *. lia.
    + split; [by left|]. intros e [->|He]%elem_of_cons.
      * destruct x as [[]]. unfold candidate_less. lia.
      * specialize (Hmin e He). destruct x as [[]], d as [[]], e as [[]]. unfold candidate_less in *. lia.
  - destruct l as [|y l]; [|cbn in E; by destruct (min_candidate l)]. intros [= <-]. split; [by left|].
    intros e ->%list_elem_of_singleton. destruct x as [[]]. unfold candidate_less. lia.
Qed.

Lemma min_candidate_None l : min_candidate l = None -> l = [].
Proof. destruct l as [|x l]; [done|]. cbn. by destruct (min_candidate l). Qed.

Lemma find_first_best s pos idx :
  find_first opens s = Some (pos, idx) -> exists o, best s pos idx o.
Proof.
  unfold find_first. destruct (min_candidate (candidates 0 opens s)) as [[[p l] i]|] eqn:E; [|done].
  intros [= -> ->]. apply min_candidate_spec in E as [Hin Hmin].
  apply candidates_spec in Hin as (o & _ & Ho & -> & Hf). rewrite Nat.sub_0_r in Ho. exists o.
  apply find_str_Some in Hf as [Hs _]. split; [done..|]. intros i' idx' o' Ho' Hs'.
  destruct (find_str o' s) as [i''|] eqn:Ef.
  - pose proof (proj1 (find_str_Some _ _ _) Ef) as [_ Hm]. specialize (Hm _ Hs').
    assert ((i'', length o', idx') ∈ candidates 0 opens s) as Hc.
    { apply candidates_spec. exists o'. rewrite Nat.sub_0_r. split_and!; [lia|done..]. }
    specialize (Hmin _ Hc). unfold candidate_less in Hmin. lia.
  - exfalso. by apply (proj1 (find_str_None _ _) Ef i').
Qed.

Lemma find_first_None s :
  find_first opens s = None <-> forall idx o i, opens !! idx = Some o -> ~ stands o s i.
Proof.
  unfold find_first. split.
  - intros Hnone idx o i Ho Hs. destruct (min_candidate (candidates 0 opens s)) as [[[p l] j]|] eqn:E; [done|].
    apply min_candidate_None in E. destruct (find_str o s) as [i'|] eqn:Ef.
    + assert ((i', length o, idx) ∈ candidates 0 opens s) as Hc.
      { apply candidates_spec. exists o. rewrite Nat.sub_0_r. split_and!; [lia|done..]. }
      rewrite E in Hc. set_solver.
    + by apply (proj1 (find_str_None _ _) Ef i).
  - intros Hno. destruct (min_candidate (candidates 0 opens s)) as [[[p l] j]|] eqn:E; [|done].
    apply min_candidate_spec in E as [Hin _]. apply candidates_spec in Hin as (o & _ & Ho & _ & Hf).
    apply find_str_Some in Hf as [Hs _]. by destruct (Hno _ _ _ Ho Hs).
Qed.

Lemma find_first_Some s pos idx :
  find_first opens s = Some (pos, idx) <-> exists o, best s pos idx o.
Proof.
  split; [apply find_first_best|]. intros [o Hb]. destruct (find_first opens s) as [[pos' idx']|] eqn:E.
  - apply find_first_best in E as [o' Hb']. by destruct (best_unique _ _ _ _ _ _ _ Hb Hb') as (-> & -> & _).
  - exfalso. eapply (proj1 (find_first_None s) E); apply Hb.
Qed.

(** *** More text behind *)

(** No delimiter ends strictly inside another. *)
Definition separated : Prop :=
  forall i j a b u v, opens !! i = Some a -> opens !! j = Some b -> b = u ++ a ++ v -> v = [].

Lemma find_first_found s b pos idx :
  separated -> find_first opens s = Some (pos, idx) -> find_first opens (s ++ b) = Some (pos, idx).
Proof.
  intros Hsep Hf. apply find_first_best in Hf as [o Hb]. apply find_first_Some. exists o.
  destruct Hb as [Ho Hs Hfirst]. pose proof (open_nonempty _ _ Ho) as Hne.
  pose proof (stands_bound _ _ _ Hne Hs) as Hbound.
  split; [done|by apply stands_app|]. intros i' idx' o' Ho' Hs'.
  pose proof (open_nonempty _ _ Ho') as Hne'.
  destruct (decide (i' + length o' <= length s)) as [Hin|Hout].
  - apply (Hfirst i' idx' o' Ho'). by eapply stands_app_inv.
  - destruct (decide (pos < i')) as [|Hle]; [by left|]. exfalso.
    destruct (stands_inside o o' (s ++ b) pos i') as (u & v & Huv & Hv); [done|by apply stands_app|done|lia|lia|].
    by apply Hv, (Hsep _ _ _ _ _ _ Ho Ho' Huv).
Qed.

Lemma held_back_spec s :
  (held_back opens s = 0 \/ exists idx o, opens !! idx = Some o /\ begins o s (held_back opens s))
  /\ held_back opens s <= length s
  /\ forall idx o k, opens !! idx = Some o -> begins o s k -> k <= held_back opens s.
Proof.
  unfold held_back. induction opens as [|o os IH]; cbn.
  - split_and!; [by left|lia|]. intros idx o k Ho. by rewrite lookup_nil in Ho.
  - apply Forall_cons in nonempty as [Hne Hnes]. destruct (IH Hnes) as (H1 & H2 & H3).
    destruct (longest_spec s o Hne) as [Hb Hmax]. set (m := max_list _) in *.
    set (l := longest_suffix_prefix_len s o) in *. assert (l <= length s) by (by destruct Hb as (_ & ? & _)).
    split_and!; [|lia|].
    + destruct (decide (m <= l)).
      * right. exists 0, o. replace (l `max` m) with l by lia. done.
      * replace (l `max` m) with m by lia. destruct H1 as [->|(idx & o' & Ho' & Hb')]; [lia|].
        right. by exists (S idx), o'.
    + intros [|idx] o' k Ho' Hk; cbn in Ho'.
      * injection Ho' as <-. specialize (Hmax k Hk). lia.
      * specialize (H3 idx o' k Ho' Hk). lia.
Qed.

(** When nothing was found and all but [s] was let go, what comes later is found
    in [s ++ b] as in the whole. *)
Lemma not_before t s b :
  find_first opens (t ++ s) = None -> held_back opens (t ++ s) = length s ->
  forall idx o i, opens !! idx = Some o -> stands o ((t ++ s) ++ b) i -> length t <= i.
Proof.
  intros Hnone Hheld idx o i Ho Hs. destruct (decide (length t <= i)) as [|Hlt]; [done|]. exfalso.
  destruct (decide (i + length o <= length (t ++ s))) as [Hin|Hout].
  - eapply (proj1 (find_first_None _) Hnone); [done|]. by eapply stands_app_inv.
  - rewrite length_app in *. destruct (held_back_spec (t ++ s)) as (_ & _ & Hmax).
    assert (begins o (t ++ s) (length (t ++ s) - i)) as Hb
      by (eapply stands_over; rewrite ?length_app; [done|lia|lia]).
    specialize (Hmax _ _ _ Ho Hb). rewrite length_app in Hmax. lia.
Qed.

Lemma find_first_later t s b :
  find_first opens (t ++ s) = None -> held_back opens (t ++ s) = length s ->
  find_first opens ((t ++ s) ++ b)
  = match find_first opens (s ++ b) with
    | Some (pos, idx) => Some (length t + pos, idx)
    | None => None
    end.
Proof.
  intros Hnone Hheld. pose proof (not_before t s b Hnone Hheld) as Hb.
  destruct (find_first opens (s ++ b)) as [[pos idx]|] eqn:E.
  - apply find_first_best in E as [o [Ho Hs Hfirst]]. apply find_first_Some. exists o.
    rewrite <- app_assoc in *. split; [done|by apply stands_shift|].
    intros i' idx' o' Ho' Hs'. specialize (Hb _ _ _ Ho' Hs').
    replace i' with (length t + (i' - length t)) in Hs' by lia. apply stands_shift in Hs'.
    specialize (Hfirst _ _ _ Ho' Hs'). lia.
  - apply find_first_None. intros idx o i Ho Hs. specialize (Hb _ _ _ Ho Hs). rewrite <- app_assoc in Hs.
    replace i with (length t + (i - length t)) in Hs by lia. apply stands_shift in Hs.
    by apply (proj1 (find_first_None _) E _ _ _ Ho Hs).
Qed.

Lemma held_back_later t s b :
  held_back opens (t ++ s) = length s -> held_back opens ((t ++ s) ++ b) = held_back opens (s ++ b).
Proof.
  intros Hheld. destruct (held_back_spec (t ++ s)) as (_ & _ & Hmax).
  destruct (held_back_spec ((t ++ s) ++ b)) as (H1 & H2 & H3).
  destruct (held_back_spec (s ++ b)) as (H1' & H2' & H3'). rewrite !length_app in *.
  set (k := held_back opens ((t ++ s) ++ b)) in *. clearbody k. rewrite <- app_assoc in *.
  apply Nat.le_antisymm.
  - destruct H1 as [->|(idx & o & Ho & Hb)]; [lia|].
    assert (k <= length (s ++ b)) as Hk.
    { rewrite length_app. destruct (decide (length b < k)) as [Hlt|]; [|lia].
      rewrite app_assoc in Hb. pose proof (begins_prefix _ _ _ _ Hb Hlt) as Hx.
      specialize (Hmax _ _ _ Ho Hx). lia. }
    apply (H3' _ _ _ Ho). exact (proj1 (begins_shift _ _ _ _ Hk) Hb).
  - destruct H1' as [->|(idx & o & Ho & Hb)]; [lia|]. apply (H3 _ _ _ Ho).
    apply begins_shift; [rewrite length_app; lia|done].
Qed.
End first.

(** ** Cutting the stream *)

Lemma find_first_one needle s : find_first [needle] s = (fun i => (i, 0)) <$> find_str needle s.
Proof. unfold find_first. cbn. by destruct (find_str needle s). Qed.

Lemma held_back_one needle s : held_back [needle] s = longest_suffix_prefix_len s needle.
Proof. unfold held_back. cbn. lia. Qed.

Lemma separated_one needle : separated [needle].
Proof.
  intros i j a b u v [_ <-]%list_lookup_singleton_Some [_ <-]%list_lookup_singleton_Some Huv.
  apply (f_equal length) in Huv. rewrite !length_app in Huv.
  destruct v; [done|]. cbn in Huv. lia.
Qed.

Section cutting.
Context {T : Type}.
Abbreviation parser := (InlineHiddenTagParser T).

Record well_formed (p : parser) : Prop := {
  wf_opens : Forall (fun o : str => o <> []) (spec_open <$> specs p);
  wf_closes : Forall (fun s => spec_close s <> []) (specs p);
  wf_separated : separated (spec_open <$> specs p);
  wf_active : forall a, active p = Some a -> active_close a <> [] }.

Definition more (p : parser) (b : str) : parser := mkInline (specs p) (pending p ++ b) (active p).

Lemma more_wf p b : well_formed p -> well_formed (more p b).
Proof. by intros []. Qed.

Lemma find_str_found needle s b i :
  needle <> [] -> find_str needle s = Some i -> find_str needle (s ++ b) = Some i.
Proof.
  intros Hne Hf. pose proof (find_first_found [needle] ltac:(by repeat constructor) s b i 0 (separated_one _)) as E.
  rewrite !find_first_one, Hf in E. specialize (E eq_refl). by destruct (find_str needle (s ++ b)); cbn in E; simplify_eq.
Qed.

Lemma take_drop_eq (s : str) n : s = take n s ++ drop n s.
Proof. by rewrite take_drop. Qed.

(** The pieces of text at hand: what is let go, what is kept. *)
Lemma split_held opens s :
  Forall (fun o : str => o <> []) opens ->
  let n := length s - held_back opens s in
  held_back opens (take n s ++ drop n s) = length (drop n s).
Proof.
  intros Hne n. rewrite take_drop, length_drop. destruct (held_back_spec opens Hne s) as (_ & Hle & _).
  unfold n. lia.
Qed.

Lemma drop_later (t s b : str) k : drop (length t + k) ((t ++ s) ++ b) = drop k (s ++ b).
Proof. by rewrite <- app_assoc, drop_app_add. Qed.

Lemma take_later (t s b : str) k : take (length t + k) ((t ++ s) ++ b) = t ++ take k (s ++ b).
Proof. by rewrite <- app_assoc, take_app_add. Qed.

Lemma turn_wf p g p1 o : well_formed p -> loop_turn p = (g, p1, o) -> well_formed p1 /\ specs p1 = specs p.
Proof.
  intros [H1 H2 H3 H4]. unfold loop_turn. destruct (active p) as [a|] eqn:Ea.
  - case_match; intros [= <- <- <-]; (split; [|done]); split; try done; cbn.
    intros a' [= <-]. cbn. by apply H4.
  - destruct (find_next_open p) as [[i idx]|]; [destruct (specs p !! idx) as [spec|] eqn:Es|];
      intros [= <- <- <-]; (split; [|done]); split; try done; cbn.
    + intros a' [= <-]. cbn. by apply (Forall_lookup_1 _ _ _ _ H2 Es).
    + by rewrite Ea.
Qed.

Lemma turn_shrinks p p1 o :
  well_formed p -> loop_turn p = (true, p1, o) -> length (pending p1) < length (pending p).
Proof.
  intros [H1 H2 H3 H4]. unfold loop_turn. destruct (active p) as [a|] eqn:Ea.
  - destruct (find_str _ _) as [i|] eqn:Ef; [|done]. intros [= <- <-]. cbn. rewrite length_drop.
    apply find_str_Some in Ef as [Hs _]. pose proof (H4 a eq_refl) as Hne.
    pose proof (stands_bound _ _ _ Hne Hs). destruct (active_close a); [done|]. cbn in *. lia.
  - destruct (find_next_open p) as [[i idx]|] eqn:Ef; [|done]. destruct (specs p !! idx) as [spec|] eqn:Es; [|done].
    intros [= <- <-]. cbn. rewrite length_drop. apply find_first_best in Ef as [oo [Ho Hs _]]; [|done].
    rewrite list_lookup_fmap, Es in Ho. injection Ho as <-.
    assert (spec_open spec <> []) as Hne by (eapply (open_nonempty _ H1 idx); by rewrite list_lookup_fmap, Es).
    pose proof (stands_bound _ _ _ Hne Hs). destruct (spec_open spec); [done|]. cbn in *. lia.
Qed.

Lemma turn_more p b p1 o :
  well_formed p -> loop_turn p = (true, p1, o) -> loop_turn (more p b) = (true, more p1 b, o).
Proof.
  intros [H1 H2 H3 H4]. unfold loop_turn, more. cbn [active specs pending].
  destruct (active p) as [a|] eqn:Ea.
  - destruct (find_str _ (pending p)) as [i|] eqn:Ef; [|done]. intros [= <- <-].
    pose proof (H4 a eq_refl) as Hne. rewrite (find_str_found _ _ b i) by done.
    apply find_str_Some in Ef as [Hs _]. pose proof (stands_bound _ _ _ Hne Hs).
    cbn [specs pending active]. by rewrite drop_app_le, take_app_le by lia.
  - unfold find_next_open. cbn [specs pending].
    destruct (find_first _ (pending p)) as [[i idx]|] eqn:Ef; [|done].
    rewrite (find_first_found _ H1 _ b _ _ H3 Ef). destruct (specs p !! idx) as [spec|] eqn:Es; [|done].
    intros [= <- <-]. apply find_first_best in Ef as [oo [Ho Hs _]]; [|done].
    rewrite list_lookup_fmap, Es in Ho. injection Ho as <-.
    assert (spec_open spec <> []) as Hne by (eapply (open_nonempty _ H1 idx); by rewrite list_lookup_fmap, Es).
    pose proof (stands_bound _ _ _ Hne Hs). cbn [specs pending active]. by rewrite drop_app_le, take_app_le by lia.
Qed.

Lemma find_next_spec p i idx :
  well_formed p -> find_next_open p = Some (i, idx) -> is_Some (specs p !! idx).
Proof.
  intros [H1 _ _ _] Hf. apply find_first_best in Hf as [o [Ho _ _]]; [|done].
  rewrite list_lookup_fmap in Ho. by destruct (specs p !! idx).
Qed.

(** [find] and the part held back, for one delimiter. *)
Lemma find_str_later c t s b :
  c <> [] -> find_str c (t ++ s) = None -> longest_suffix_prefix_len (t ++ s) c = length s ->
  find_str c ((t ++ s) ++ b) = (fun j => length t + j) <$> find_str c (s ++ b)
  /\ longest_suffix_prefix_len ((t ++ s) ++ b) c = longest_suffix_prefix_len (s ++ b) c.
Proof.
  intros Hne Hnone Hheld. assert (Forall (fun o : str => o <> []) [c]) as Hnes by (by repeat constructor).
  rewrite <- !held_back_one in *. split; [|by apply held_back_later].
  assert (find_first [c] (t ++ s) = None) as Hn by (by rewrite find_first_one, Hnone).
  pose proof (find_first_later [c] Hnes t s b Hn Hheld) as Hl. rewrite !find_first_one in Hl.
  destruct (find_str c (s ++ b)), (find_str c ((t ++ s) ++ b)); cbn in *; by simplify_eq.
Qed.

(** Text behind a turn that stopped: as if the turn saw what it kept. *)
Lemma turn_done_active p a b p1 o :
  well_formed p -> active p = Some a -> loop_turn p = (false, p1, o) ->
  loop_turn (more p b) = let '(g, q, o2) := loop_turn (more p1 b) in (g, q, chunk_app o o2).
Proof.
  intros [_ _ _ H4] Ea. unfold loop_turn at 1. rewrite Ea.
  destruct (find_str _ (pending p)) as [i|] eqn:Ef; [done|]. intros [= <- <-].
  pose proof (H4 a Ea) as Hne. set (c := active_close a) in *.
  pose proof (longest_spec (pending p) c Hne) as [(_ & Hle & _) _].
  set (n := length (pending p) - longest_suffix_prefix_len (pending p) c).
  set (t := take n (pending p)). set (s := drop n (pending p)).
  assert (pending p = t ++ s) as Hp by apply take_drop_eq.
  assert (longest_suffix_prefix_len (t ++ s) c = length s) as Hheld
    by (rewrite <- Hp; unfold s, n; rewrite length_drop; lia).
  clearbody t s n. rewrite Hp in Ef. destruct (find_str_later c t s b Hne Ef Hheld) as [Hlater Hback].
  unfold loop_turn, more. cbn [active specs pending active_close active_content active_tag].
  rewrite Ea. fold c. rewrite Hp, Hlater, Hback.
  destruct (find_str c (s ++ b)) as [j|] eqn:Ej; cbn [fmap option_fmap option_map].
  - rewrite <- Nat.add_assoc, drop_later, take_later. cbn. by rewrite app_assoc.
  - pose proof (longest_spec (s ++ b) c Hne) as [(_ & Hle' & _) _].
    replace (length ((t ++ s) ++ b) - longest_suffix_prefix_len (s ++ b) c)
      with (length t + (length (s ++ b) - longest_suffix_prefix_len (s ++ b) c))
      by (rewrite <- app_assoc, (length_app t); lia).
    rewrite drop_later, take_later. by rewrite app_assoc.
Qed.

Lemma turn_done_idle p b p1 o :
  well_formed p -> active p = None -> loop_turn p = (false, p1, o) ->
  loop_turn (more p b) = let '(g, q, o2) := loop_turn (more p1 b) in (g, q, chunk_app o o2).
Proof.
  intros Hwf Ea. pose proof Hwf as [H1 _ _ _]. unfold loop_turn at 1. rewrite Ea.
  destruct (find_next_open p) as [[i idx]|] eqn:Ef.
  { destruct (find_next_spec p i idx Hwf Ef) as [spec Es]. by rewrite Es. }
  intros [= <- <-]. unfold find_next_open, max_open_prefix_suffix_len in *. set (opens := spec_open <$> specs p) in *.
  pose proof (split_held opens (pending p) H1) as Hheld. cbn zeta in Hheld.
  set (n := length (pending p) - held_back opens (pending p)) in *.
  set (t := take n (pending p)) in *. set (s := drop n (pending p)) in *.
  assert (pending p = t ++ s) as Hp by apply take_drop_eq. rewrite Hp in Ef. clearbody t s n.
  pose proof (find_first_later opens H1 t s b Ef Hheld) as Hlater.
  pose proof (held_back_later opens H1 t s b Hheld) as Hback.
  unfold loop_turn, find_next_open, max_open_prefix_suffix_len, more. cbn [active specs pending].
  rewrite Ea, Hp. fold opens. rewrite Hlater, Hback.
  destruct (find_first opens (s ++ b)) as [[j idx]|] eqn:Ej.
  - apply find_first_best in Ej as [oo [Ho _ _]]; [|done]. unfold opens in Ho. rewrite list_lookup_fmap in Ho.
    destruct (specs p !! idx) as [spec|]; [|done]. rewrite <- Nat.add_assoc, drop_later, take_later. done.
  - destruct (held_back_spec opens H1 (s ++ b)) as (_ & Hle & _).
    replace (length ((t ++ s) ++ b) - held_back opens (s ++ b))
      with (length t + (length (s ++ b) - held_back opens (s ++ b)))
      by (rewrite <- app_assoc, (length_app t); lia).
    rewrite drop_later, take_later. done.
Qed.

Lemma turn_done p b p1 o :
  well_formed p -> loop_turn p = (false, p1, o) ->
  loop_turn (more p b) = let '(g, q, o2) := loop_turn (more p1 b) in (g, q, chunk_app o o2).
Proof. intros Hwf Ht. destruct (active p) eqn:Ea; [by eapply turn_done_active|by apply turn_done_idle]. Qed.

Lemma loop_enough n m p :
  well_formed p -> length (pending p) < n -> length (pending p) < m -> inline_loop n p = inline_loop m p.
Proof.
  revert m p. induction n as [|n IH]; intros [|m] p Hwf Hn Hm; try lia. cbn [inline_loop].
  destruct (loop_turn p) as [[[] p1] o] eqn:E; [|done].
  pose proof (turn_shrinks _ _ _ Hwf E). destruct (turn_wf _ _ _ _ Hwf E) as [Hwf1 _].
  by rewrite (IH m p1) by (done || lia).
Qed.

Lemma loop_more n m k p b :
  well_formed p -> length (pending p) < n -> length (pending p ++ b) < m ->
  forall p1 o1, inline_loop n p = (p1, o1) -> length (pending p1 ++ b) < k ->
  inline_loop m (more p b) = let '(q, o2) := inline_loop k (more p1 b) in (q, chunk_app o1 o2).
Proof.
  revert m p. induction n as [|n IH]; intros [|m] p Hwf Hn Hm p1 o1 Hrun Hk; try lia.
  cbn [inline_loop] in Hrun. destruct (loop_turn p) as [[[] p2] o] eqn:E.
  - pose proof (turn_shrinks _ _ _ Hwf E) as Hlt. destruct (turn_wf _ _ _ _ Hwf E) as [Hwf2 _].
    destruct (inline_loop n p2) as [p3 o3] eqn:E3. injection Hrun as <- <-.
    cbn [inline_loop]. rewrite (turn_more _ b _ _ Hwf E).
    rewrite length_app in Hm. rewrite (IH m p2 Hwf2 ltac:(lia) ltac:(rewrite length_app; lia) p3 o3 E3 Hk).
    destruct (inline_loop k (more p3 b)). by rewrite (assoc chunk_app).
  - injection Hrun as <- <-. destruct (turn_wf _ _ _ _ Hwf E) as [Hwf2 _]. destruct k as [|k]; [lia|].
    cbn [inline_loop]. rewrite (turn_done _ b _ _ Hwf E).
    destruct (loop_turn (more p2 b)) as [[[] p3] o3] eqn:E3; [|done].
    pose proof (turn_shrinks _ _ _ (more_wf _ b Hwf2) E3) as Hlt. destruct (turn_wf _ _ _ _ (more_wf _ b Hwf2) E3) as [Hwf3 _].
    cbn [more pending] in Hlt.
    assert (length (pending p2) <= length (pending p)).
    { revert E. unfold loop_turn. repeat case_match; intros [=]; subst; cbn; rewrite ?length_drop; lia. }
    rewrite length_app in Hm, Hk, Hlt. rewrite (loop_enough m k p3 Hwf3) by lia.
    destruct (inline_loop k p3). by rewrite (assoc chunk_app).
Qed.

Lemma more_nil p : more p [] = p.
Proof. destruct p. unfold more. cbn. by rewrite app_nil_r. Qed.

(** A parser between two pieces: one more turn would do nothing. *)
Definition resting (p : parser) : Prop := loop_turn p = (false, p, empty_chunk).

Lemma turn_rests p p1 o : well_formed p -> loop_turn p = (false, p1, o) -> resting p1.
Proof.
  intros Hwf Ht. pose proof (turn_done p [] p1 o Hwf Ht) as E. rewrite !more_nil, Ht in E.
  unfold resting. destruct (loop_turn p1) as [[g q] o2]. injection E as <- <- Ho. f_equal.
  destruct o as [v x], o2 as [v2 x2]. unfold chunk_app in Ho. cbn in Ho. injection Ho as Hv Hx.
  assert (v2 = []) as -> by (apply (app_inv_head v); by rewrite app_nil_r).
  assert (x2 = []) as -> by (apply (app_inv_head x); by rewrite app_nil_r). done.
Qed.

Lemma loop_rests n p p1 o :
  well_formed p -> length (pending p) < n -> inline_loop n p = (p1, o) -> well_formed p1 /\ resting p1.
Proof.
  revert p o. induction n as [|n IH]; intros p o Hwf Hn Hrun; [lia|]. cbn [inline_loop] in Hrun.
  destruct (loop_turn p) as [[[] p2] o2] eqn:E.
  - pose proof (turn_shrinks _ _ _ Hwf E). destruct (turn_wf _ _ _ _ Hwf E) as [Hwf2 _].
    destruct (inline_loop n p2) as [p3 o3] eqn:E3. injection Hrun as <- <-. eapply IH; [done|lia|done].
  - injection Hrun as <- <-. split; [by eapply turn_wf|by eapply turn_rests].
Qed.

Definition ready (p : parser) : Prop := well_formed p /\ resting p.

Lemma push_more p a : inline_push_str p a = inline_loop (S (length (pending (more p a)))) (more p a).
Proof. reflexivity. Qed.

#[export] Instance inline_cut_independent :
  CutIndependent (InlineHiddenTagParser T) (ExtractedInlineTag T) ready.
Proof.
  split.
  - intros p a [Hwf _]. cbn [push_str inline_parser]. rewrite push_more.
    destruct (inline_loop _ _) as [p1 o1] eqn:E. cbn [fst].
    exact (loop_rests _ _ _ _ (more_wf _ a Hwf) (Nat.lt_succ_diag_r _) E).
  - intros p [Hwf Hrest]. cbn [push_str inline_parser]. rewrite push_more, more_nil. cbn [inline_loop].
    by rewrite Hrest.
  - intros p a b [Hwf _]. cbn [push_str inline_parser]. rewrite !push_more.
    assert (more p (a ++ b) = more (more p a) b) as -> by (unfold more; cbn; by rewrite app_assoc).
    destruct (inline_loop _ (more p a)) as [p1 o1] eqn:E. rewrite push_more.
    apply (loop_more _ _ _ _ _ (more_wf _ a Hwf) (Nat.lt_succ_diag_r _)) with (o1 := o1); [cbn; lia|done|cbn; lia].
Qed.

Lemma inline_new_ready tags p :
  inline_new tags = Ok p -> separated (spec_open <$> tags) -> ready p.
Proof.
  unfold inline_new. case_match; [done|]. destruct (existsb _ tags) eqn:E; [done|]. intros [= <-] Hsep.
  apply existsb_false_Forall in E.
  assert (Forall (fun o : str => o <> []) (spec_open <$> tags)) as Hne.
  { apply Forall_fmap. eapply Forall_impl; [exact E|]. cbn. intros s [Hs _]%orb_false_iff. by apply is_nil_false. }
  split.
  - split; [done| |done|done]. eapply Forall_impl; [exact E|]. cbn.
    intros s [_ Hs]%orb_false_iff. by apply is_nil_false.
  - unfold resting, loop_turn, find_next_open, max_open_prefix_suffix_len. cbn [active specs pending].
    assert (find_first (spec_open <$> tags) [] = None) as ->; [|by rewrite drop_nil, take_nil].
    apply find_first_None; [done|]. intros idx o i Ho Hs. pose proof (open_nonempty _ Hne _ _ Ho) as Hn.
    pose proof (stands_bound _ _ _ Hn Hs). destruct o; [done|]. cbn in *. lia.
Qed.
End cutting.

(** Hidden tags do not depend on how the stream is cut.  For tags whose opening
    delimiters do not end strictly inside one another, feeding the parser any pieces
    of a text gives, in all, the same visible text and the same extracted contents:
    nothing of a tag is shown early, nothing else is held back for good. *)
Theorem hidden_tags_cut_independent {T} (specs : list (InlineTagSpec T)) p pieces pieces' :
  inline_new specs = Ok p -> separated (spec_open <$> specs) -> concat pieces = concat pieces' ->
  push_all p pieces = push_all p pieces' /\ collect p pieces = collect p pieces'.
Proof.
  intros Hnew Hsep Hcat. pose proof (inline_new_ready _ _ Hnew Hsep) as Hp.
  assert (push_all p pieces = push_all p pieces') as E by (by rewrite !push_all_concat, Hcat).
  split; [done|]. unfold collect. by rewrite E.
Qed.

Lemma hidden_tags_cut_independent_witness :
  collect citation_new [L"a <oai-m"; L"em-citation>x</"; L"oai-mem-citation>b"]
  = mkChunk (L"a b") [mkExtracted tt (L"x")].
Proof.
  assert (separated [CITATION_OPEN]) as Hsep by apply separated_one.
  destruct (hidden_tags_cut_independent [mkSpec tt CITATION_OPEN CITATION_CLOSE] citation_new
    [L"a <oai-m"; L"em-citation>x</"; L"oai-mem-citation>b"]
    [L"a <oai-mem-citation>x</oai-mem-citation>b"] eq_refl Hsep) as [_ E]; [vm_compute; reflexivity|].
  etransitivity; [exact E|]. vm_compute. reflexivity.
Defined.

(** Delimiters that do end inside one another: the parser takes the longer one when it
    sees the whole text, the shorter one when the piece ends there. *)
Example nested_delimiters_depend_on_cuts :
  let p := mkInline [mkSpec 1 (L"<a") (L"</a>"); mkSpec 2 (L"<ab>") (L"</ab>")] [] None in
  collect p [L"x<ab>y</ab>z"] = mkChunk (L"xz") [mkExtracted 2 (L"y")]
  /\ collect p [L"x<a"; L"b>y</ab>z"] = mkChunk (L"x") [mkExtracted 1 (L"b>y</ab>z")].
Proof. split; vm_compute; reflexivity. Qed.

(** ** Citations *)

Lemma contents_app {T} (a b : StreamTextChunk (ExtractedInlineTag T)) :
  contents (chunk_app a b) = chunk_app (contents a) (contents b).
Proof. destruct a, b. unfold contents, chunk_app. cbn. by rewrite fmap_app. Qed.

#[export] Instance citation_cut_independent : CutIndependent CitationStreamParser str ready.
Proof.
  split; cbn [push_str citation_parser]; unfold citation_push_str; intros p.
  - intros a Hp. pose proof (push_str_ok (T := ExtractedInlineTag unit) p a Hp) as Hq.
    cbn [push_str inline_parser] in Hq. by destruct (inline_push_str p a).
  - intros Hp. pose proof (push_str_nil (T := ExtractedInlineTag unit) p Hp) as Hq.
    cbn [push_str inline_parser] in Hq. by rewrite Hq.
  - intros a b Hp. pose proof (push_str_app (T := ExtractedInlineTag unit) p a b Hp) as Hq.
    cbn [push_str inline_parser] in Hq. rewrite Hq. destruct (inline_push_str p a) as [p1 o1].
    destruct (inline_push_str p1 b) as [p2 o2]. by rewrite contents_app.
Qed.

Lemma citation_new_ready : ready citation_new.
Proof. apply (inline_new_ready [mkSpec tt CITATION_OPEN CITATION_CLOSE]); [done|apply separated_one]. Qed.

(** A text with citations, written out. *)
Fixpoint render_citations (segments : list (str * str)) (last : str) : str :=
  match segments with
  | [] => last
  | (text, citation) :: rest =>
      text ++ CITATION_OPEN ++ citation ++ CITATION_CLOSE ++ render_citations rest last
  end.

(** No [needle] begins in [s] before the one put behind it. *)
Definition clean (needle s : str) : Prop := find_str needle (s ++ needle) = Some (length s).

Definition in_citation (body : str) : CitationStreamParser :=
  mkInline [mkSpec tt CITATION_OPEN CITATION_CLOSE] [] (Some (mkActive tt CITATION_CLOSE body)).

Lemma push_open text :
  clean CITATION_OPEN text ->
  citation_push_str citation_new (text ++ CITATION_OPEN) = (in_citation [], mkChunk text []).
Proof.
  intros Hc. unfold citation_push_str, inline_push_str. cbn [specs pending active citation_new app].
  cbn [inline_loop]. unfold loop_turn at 1, find_next_open. cbn [active specs pending fmap list_fmap spec_open].
  rewrite find_first_one, Hc. cbn [fmap option_fmap option_map lookup list_lookup spec_open spec_tag spec_close].
  rewrite drop_ge by (rewrite length_app; done). rewrite take_app_length.
  rewrite length_app. destruct (length text + length CITATION_OPEN) as [|n] eqn:En;
    [|transitivity (in_citation [], mkChunk (text ++ []) ([] : list str)); [reflexivity|by rewrite app_nil_r]].
  assert (length CITATION_OPEN = 18) by reflexivity. lia.
Qed.

Lemma push_close body :
  clean CITATION_CLOSE body ->
  citation_push_str (in_citation []) (body ++ CITATION_CLOSE) = (citation_new, mkChunk [] [body]).
Proof.
  intros Hc. unfold citation_push_str, inline_push_str. cbn [specs pending active in_citation app].
  cbn [inline_loop]. unfold loop_turn at 1. cbn [active pending active_close active_tag active_content].
  rewrite Hc. cbn [specs]. rewrite drop_ge by (rewrite length_app; done). rewrite take_app_length.
  rewrite length_app. destruct (length body + length CITATION_CLOSE) as [|n] eqn:En; [|reflexivity].
  assert (length CITATION_CLOSE = 19) by reflexivity. lia.
Qed.

(** A last text without a citation comes out whole. *)
Lemma push_last text :
  find_str CITATION_OPEN text = None ->
  let '(p, o) := citation_push_str citation_new text in
  chunk_app o (snd (citation_finish p)) = mkChunk text [].
Proof.
  intros Hf. unfold citation_push_str, inline_push_str. cbn [specs pending active citation_new app].
  cbn [inline_loop]. unfold loop_turn at 1, find_next_open. cbn [active specs pending fmap list_fmap spec_open].
  rewrite find_first_one, Hf. cbn [fmap option_fmap option_map]. cbn. unfold chunk_app. cbn.
  by rewrite take_drop.
Qed.

Lemma render_split segments last :
  Forall (fun '(text, citation) => clean CITATION_OPEN text /\ clean CITATION_CLOSE citation) segments ->
  find_str CITATION_OPEN last = None ->
  let '(p, o) := citation_push_str citation_new (render_citations segments last) in
  chunk_app o (snd (citation_finish p)) = mkChunk (concat (fst <$> segments) ++ last) (snd <$> segments).
Proof.
  induction segments as [|[text body] rest IH]; intros Hs Hlast; cbn [render_citations].
  - by apply push_last.
  - apply Forall_cons in Hs as [[Ht Hb] Hs]. specialize (IH Hs Hlast).
    pose proof (push_str_app citation_new (text ++ CITATION_OPEN)
      ((body ++ CITATION_CLOSE) ++ render_citations rest last) citation_new_ready) as E.
    cbn [push_str citation_parser] in E. rewrite push_open in E by done.
    assert (ready (in_citation [])) as Hready.
    { pose proof (push_str_ok citation_new (text ++ CITATION_OPEN) citation_new_ready) as Hr.
      cbn [push_str citation_parser] in Hr. by rewrite push_open in Hr. }
    pose proof (push_str_app (in_citation []) (body ++ CITATION_CLOSE) (render_citations rest last) Hready) as E2.
    cbn [push_str citation_parser] in E2. rewrite push_close in E2 by done. rewrite E2 in E.
    rewrite <- !app_assoc in E. rewrite E.
    destruct (citation_push_str citation_new (render_citations rest last)) as [p o].
    rewrite <- !(assoc chunk_app), IH. unfold chunk_app. cbn. by rewrite app_assoc.
Qed.

(** Citations are taken out and given back.  A text written with citations
    between its parts, fed in any pieces, yields the parts joined as the visible text
    and the bodies of the citations in order, as long as no part contains the
    start of a delimiter that the delimiter behind it would complete. *)
Theorem citations_roundtrip segments last pieces :
  Forall (fun '(text, citation) => clean CITATION_OPEN text /\ clean CITATION_CLOSE citation) segments ->
  find_str CITATION_OPEN last = None ->
  concat pieces = render_citations segments last ->
  collect (P := CitationStreamParser) (T := str) citation_new pieces
  = mkChunk (concat (fst <$> segments) ++ last) (snd <$> segments)
  /\ strip_citations (render_citations segments last)
     = (concat (fst <$> segments) ++ last, snd <$> segments).
Proof.
  intros Hs Hlast Hcat. pose proof (render_split segments last Hs Hlast) as E. split.
  - unfold collect. rewrite (push_all_concat (T := str)) by apply citation_new_ready. rewrite Hcat.
    cbn [push_str finish citation_parser]. by destruct (citation_push_str _ _).
  - unfold strip_citations. destruct (citation_push_str _ _) as [p o].
    destruct (citation_finish p) as [p' tail]. cbn [snd] in E. by rewrite E.
Qed.

Lemma citations_roundtrip_witness :
  strip_citations (L"see <oai-mem-citation>doc 1</oai-mem-citation>, < done") = (L"see , < done", [L"doc 1"]).
Proof.
  apply (citations_roundtrip [(L"see ", L"doc 1")] (L", < done")
    [L"see <oai-mem-citation>doc 1</oai-mem-citation>, < done"]); [|vm_compute; reflexivity..].
  constructor; [split; vm_compute; reflexivity|constructor].
Defined.
