(* ===== verification/StreamPlan.v ===== *)
(** * Streamed text with tagged blocks (utils/stream-parser/src:
    tagged_line_parser.rs, proposed_plan.rs, assistant_text.rs)

    A tag stands alone on a line.  The parser holds a line back until it can no
    longer be a tag, and joins neighbouring text of one call into one segment, so
    streams are compared by their [atoms]. *)

From S2P Require Import Prelude RustStr StreamTags.

(** ** The parser of tagged lines *)

Record TagSpec (T : Type) := mkTagSpec {
  tag_open : str;
  tag_close : str;
  tag_of : T }.
Arguments mkTagSpec {T} tag_open tag_close tag_of.
Arguments tag_open {T} t.
Arguments tag_close {T} t.
Arguments tag_of {T} t.

Inductive TaggedLineSegment (T : Type) :=
  | Normal (text : str)
  | TagStart (tag : T)
  | TagDelta (tag : T) (text : str)
  | TagEnd (tag : T).
Arguments Normal {T} text.
Arguments TagStart {T} tag.
Arguments TagDelta {T} tag text.
Arguments TagEnd {T} tag.

Record TaggedLineParser (T : Type) := mkTagged {
  tag_specs : list (TagSpec T);
  current_tag : option T;
  detect_tag : bool;
  line_buffer : str }.
Arguments mkTagged {T} tag_specs current_tag detect_tag line_buffer.
Arguments tag_specs {T} t.
Arguments current_tag {T} t.
Arguments detect_tag {T} t.
Arguments line_buffer {T} t.

Section tagged.
Context {T : Type} `{EqDecision T}.
Abbreviation parser := (TaggedLineParser T).
Abbreviation segments := (list (TaggedLineSegment T)).

Definition tagged_new (specs : list (TagSpec T)) : parser := mkTagged specs None true [].

Definition push_segment (segs : segments) (seg : TaggedLineSegment T) : segments :=
  match seg with
  | Normal delta =>
      if is_nil delta then segs
      else match last segs with
           | Some (Normal existing) => take (length segs - 1) segs ++ [Normal (existing ++ delta)]
           | _ => segs ++ [Normal delta]
           end
  | TagDelta tag delta =>
      if is_nil delta then segs
      else match last segs with
           | Some (TagDelta existing_tag existing) =>
               if decide (existing_tag = tag)
               then take (length segs - 1) segs ++ [TagDelta existing_tag (existing ++ delta)]
               else segs ++ [TagDelta tag delta]
           | _ => segs ++ [TagDelta tag delta]
           end
  | TagStart tag => segs ++ [TagStart tag]
  | TagEnd tag => segs ++ [TagEnd tag]
  end.

Definition push_text (p : parser) (text : str) (segs : segments) : segments :=
  push_segment segs (match current_tag p with Some tag => TagDelta tag text | None => Normal text end).

Definition is_tag_prefix (p : parser) (slug : str) : bool :=
  let slug := trim_end slug in
  existsb (fun s => starts_with slug (tag_open s) || starts_with slug (tag_close s)) (tag_specs p).

Definition match_open (p : parser) (slug : str) : option T :=
  tag_of <$> List.find (fun s => str_eqb (tag_open s) slug) (tag_specs p).
Definition match_close (p : parser) (slug : str) : option T :=
  tag_of <$> List.find (fun s => str_eqb (tag_close s) slug) (tag_specs p).

Definition line_slug (line : str) : str := trim_end (trim_start (default line (strip_suffix [LF] line))).

(** What a finished line is: the start of a block, its end, or text. *)
Definition finish_line (p : parser) (segs : segments) : parser * segments :=
  let line := line_buffer p in
  let slug := line_slug line in
  let p := mkTagged (tag_specs p) (current_tag p) true [] in
  match match_open p slug, current_tag p with
  | Some tag, None => (mkTagged (tag_specs p) (Some tag) true [], push_segment segs (TagStart tag))
  | _, _ =>
      match match_close p slug with
      | Some tag =>
          if bool_decide (current_tag p = Some tag)
          then (mkTagged (tag_specs p) None true [], push_segment segs (TagEnd tag))
          else (p, push_text p line segs)
      | None => (p, push_text p line segs)
      end
  end.

(** One character of [parse]: the parser, the run of plain text, the segments. *)
Definition parse_char (acc : parser * str * segments) (ch : char) : parser * str * segments :=
  let '(p, run, segs) := acc in
  if detect_tag p then
    let segs := if is_nil run then segs else push_text p run segs in
    let p := mkTagged (tag_specs p) (current_tag p) true (line_buffer p ++ [ch]) in
    if (ch =? LF)%N then let '(p, segs) := finish_line p segs in (p, [], segs)
    else
      let slug := trim_start (line_buffer p) in
      if is_nil slug || is_tag_prefix p slug then (p, [], segs)
      else
        let buffered := line_buffer p in
        let p := mkTagged (tag_specs p) (current_tag p) false [] in
        (p, [], push_text p buffered segs)
  else
    let run := run ++ [ch] in
    if (ch =? LF)%N
    then (mkTagged (tag_specs p) (current_tag p) true (line_buffer p), [], push_text p run segs)
    else (p, run, segs).

Definition parse (p : parser) (delta : str) : parser * segments :=
  let '(p, run, segs) := foldl parse_char (p, [], []) delta in
  (p, if is_nil run then segs else push_text p run segs).

Definition tagged_finish (p : parser) : parser * segments :=
  let '(p, segs) :=
    if is_nil (line_buffer p) then (p, [])
    else
      let buffered := line_buffer p in
      let slug := line_slug buffered in
      let p := mkTagged (tag_specs p) (current_tag p) (detect_tag p) [] in
      match match_open p slug, current_tag p with
      | Some tag, None =>
          (mkTagged (tag_specs p) (Some tag) (detect_tag p) [], push_segment [] (TagStart tag))
      | _, _ =>
          match match_close p slug with
          | Some tag =>
              if bool_decide (current_tag p = Some tag)
              then (mkTagged (tag_specs p) None (detect_tag p) [], push_segment [] (TagEnd tag))
              else (p, push_text p buffered [])
          | None => (p, push_text p buffered [])
          end
      end in
  let segs := match current_tag p with Some tag => push_segment segs (TagEnd tag) | None => segs end in
  (mkTagged (tag_specs p) None true (line_buffer p), segs).
End tagged.

(** ** Plans (proposed_plan.rs) *)

Definition OPEN_TAG : str := L"<proposed_plan>".
Definition CLOSE_TAG : str := L"</proposed_plan>".

Inductive PlanTag := ProposedPlan.

#[export] Instance PlanTag_eq_dec : EqDecision PlanTag.
Proof. solve_decision. Defined.

Inductive ProposedPlanSegment :=
  | PlanNormal (text : str)
  | ProposedPlanStart
  | ProposedPlanDelta (text : str)
  | ProposedPlanEnd.

Definition ProposedPlanParser : Type := TaggedLineParser PlanTag.

Definition plan_new : ProposedPlanParser := tagged_new [mkTagSpec OPEN_TAG CLOSE_TAG ProposedPlan].

Definition map_segment (s : TaggedLineSegment PlanTag) : ProposedPlanSegment :=
  match s with
  | Normal text => PlanNormal text
  | TagStart _ => ProposedPlanStart
  | TagDelta _ text => ProposedPlanDelta text
  | TagEnd _ => ProposedPlanEnd
  end.

Definition normal_text (s : ProposedPlanSegment) : str :=
  match s with PlanNormal text => text | _ => [] end.

Definition map_segments (segs : list (TaggedLineSegment PlanTag)) : StreamTextChunk ProposedPlanSegment :=
  let mapped := map_segment <$> segs in mkChunk (concat (normal_text <$> mapped)) mapped.

#[export] Instance plan_parser : StreamTextParser ProposedPlanParser ProposedPlanSegment :=
  {| push_str p chunk := let '(p, segs) := parse p chunk in (p, map_segments segs);
     finish p := let '(p, segs) := tagged_finish p in (p, map_segments segs) |}.

Definition strip_proposed_plan_blocks (text : str) : str := visible_text (collect plan_new [text]).

(** The loop of [extract_proposed_plan_text]. *)
Definition plan_text_step (acc : bool * str) (s : ProposedPlanSegment) : bool * str :=
  match s with
  | ProposedPlanStart => (true, [])
  | ProposedPlanDelta delta => (fst acc, snd acc ++ delta)
  | _ => acc
  end.

Definition extract_proposed_plan_text (text : str) : option str :=
  let '(saw_plan_block, plan_text) := foldl plan_text_step (false, []) (extracted (collect plan_new [text])) in
  if saw_plan_block then Some plan_text else None.

(** ** Assistant text (assistant_text.rs) *)

Record AssistantTextChunk := mkAssistantChunk {
  assistant_visible : str;
  citations : list str;
  plan_segments : list ProposedPlanSegment }.

Record AssistantTextStreamParser := mkAssistant {
  plan_mode : bool;
  citation_state : CitationStreamParser;
  plan_state : ProposedPlanParser }.

Definition assistant_new (plan_mode : bool) : AssistantTextStreamParser :=
  mkAssistant plan_mode citation_new plan_new.

Definition parse_visible_text (p : AssistantTextStreamParser) (text : str)
  : AssistantTextStreamParser * AssistantTextChunk :=
  if negb (plan_mode p) then (p, mkAssistantChunk text [] [])
  else
    let '(plan, chunk) := push_str (plan_state p) text in
    (mkAssistant (plan_mode p) (citation_state p) plan,
     mkAssistantChunk (visible_text chunk) [] (extracted chunk)).

Definition assistant_push_str (p : AssistantTextStreamParser) (chunk : str)
  : AssistantTextStreamParser * AssistantTextChunk :=
  let '(cs, citation_chunk) := citation_push_str (citation_state p) chunk in
  let '(p, out) := parse_visible_text (mkAssistant (plan_mode p) cs (plan_state p))
                     (visible_text citation_chunk) in
  (p, mkAssistantChunk (assistant_visible out) (extracted citation_chunk) (plan_segments out)).

Definition assistant_finish (p : AssistantTextStreamParser) : AssistantTextStreamParser * AssistantTextChunk :=
  let '(cs, citation_chunk) := citation_finish (citation_state p) in
  let '(p, out) := parse_visible_text (mkAssistant (plan_mode p) cs (plan_state p))
                     (visible_text citation_chunk) in
  let '(p, out) :=
    if plan_mode p then
      let '(plan, tail) := finish (plan_state p) in
      (mkAssistant (plan_mode p) (citation_state p) plan,
       if chunk_is_empty tail then out
       else mkAssistantChunk (assistant_visible out ++ visible_text tail) (citations out)
              (plan_segments out ++ extracted tail))
    else (p, out) in
  (p, mkAssistantChunk (assistant_visible out) (extracted citation_chunk) (plan_segments out)).

Fixpoint assistant_push_all (p : AssistantTextStreamParser) (pieces : list str)
  : AssistantTextStreamParser * list AssistantTextChunk :=
  match pieces with
  | [] => (p, [])
  | piece :: rest =>
      let '(p, o) := assistant_push_str p piece in
      let '(p, os) := assistant_push_all p rest in (p, o :: os)
  end.

Example plan_is_extracted :
  extract_proposed_plan_text (L"before
<proposed_plan>
- step
</proposed_plan>
after") = Some (L"- step
") /\ strip_proposed_plan_blocks (L"before
<proposed_plan>
- step
</proposed_plan>
after") = L"before
after".
Proof. split; vm_compute; reflexivity. Qed.

(** ** Atoms *)

(** A stream of segments, character by character. *)
Inductive Atom (T : Type) :=
  | TextChar (tag : option T) (c : char)
  | BlockStart (tag : T)
  | BlockEnd (tag : T).
Arguments TextChar {T} tag c.
Arguments BlockStart {T} tag.
Arguments BlockEnd {T} tag.

Definition segment_atoms {T} (s : TaggedLineSegment T) : list (Atom T) :=
  match s with
  | Normal text => TextChar None <$> text
  | TagDelta tag text => TextChar (Some tag) <$> text
  | TagStart tag => [BlockStart tag]
  | TagEnd tag => [BlockEnd tag]
  end.

Definition atoms {T} (segs : list (TaggedLineSegment T)) : list (Atom T) := concat (segment_atoms <$> segs).

Lemma atoms_app {T} (a b : list (TaggedLineSegment T)) : atoms (a ++ b) = atoms a ++ atoms b.
Proof. unfold atoms. by rewrite fmap_app, concat_app. Qed.

(** What a text says, line by line: the block after each line, and the atoms. *)
Section meaning.
Context {T : Type} `{EqDecision T} (specs : list (TagSpec T)).

Definition opens_block (slug : str) : option T := match_open (tagged_new specs) slug.
Definition closes_block (slug : str) : option T := match_close (tagged_new specs) slug.

Definition line_meaning (block : option T) (line : str) : option T * list (Atom T) :=
  match opens_block (line_slug line), block with
  | Some tag, None => (Some tag, [BlockStart tag])
  | _, _ =>
      match closes_block (line_slug line) with
      | Some tag => if bool_decide (block = Some tag) then (None, [BlockEnd tag])
                    else (block, TextChar block <$> line)
      | None => (block, TextChar block <$> line)
      end
  end.

(** [line] is what was read of the current line. *)
Fixpoint text_meaning (block : option T) (line text : str) : list (Atom T) :=
  match text with
  | [] =>
      let '(block, a) := if is_nil line then (block, []) else line_meaning block line in
      a ++ match block with Some tag => [BlockEnd tag] | None => [] end
  | c :: text =>
      if (c =? LF)%N
      then let '(block, a) := line_meaning block (line ++ [c]) in a ++ text_meaning block [] text
      else text_meaning block (line ++ [c]) text
  end.
End meaning.

Section tagged_proofs.
Context {T : Type} `{EqDecision T}.
Abbreviation parser := (TaggedLineParser T).

Lemma push_segment_atoms (segs : list (TaggedLineSegment T)) seg :
  atoms (push_segment segs seg) = atoms segs ++ segment_atoms seg.
Proof.
  assert (forall x, atoms (segs ++ [x]) = atoms segs ++ segment_atoms x) as Hsnoc.
  { intros x. rewrite atoms_app. unfold atoms. cbn. by rewrite app_nil_r. }
  assert (forall x y, last segs = Some x -> segment_atoms y = segment_atoms x ++ segment_atoms seg ->
    atoms (take (length segs - 1) segs ++ [y]) = atoms segs ++ segment_atoms seg) as Hmerge.
  { intros x y Hl Hy. apply last_Some_snoc in Hl as [l ->]. rewrite length_app. cbn [length].
    replace (length l + 1 - 1) with (length l) by lia. rewrite take_app_length, !atoms_app.
    unfold atoms at 2 4. cbn. by rewrite !app_nil_r, Hy, app_assoc. }
  destruct seg as [text|tag|tag text|tag]; cbn [push_segment]; [|apply Hsnoc| |apply Hsnoc].
  - destruct (is_nil text) eqn:En; [apply is_nil_true in En as ->; cbn; by rewrite app_nil_r|].
    destruct (last segs) as [[existing| | |]|] eqn:El; try apply Hsnoc.
    apply (Hmerge _ _ eq_refl). cbn. by rewrite fmap_app.
  - destruct (is_nil text) eqn:En; [apply is_nil_true in En as ->; cbn; by rewrite app_nil_r|].
    destruct (last segs) as [[| |t existing|]|] eqn:El; try apply Hsnoc.
    case_decide; [subst t|apply Hsnoc]. apply (Hmerge _ _ eq_refl). cbn. by rewrite fmap_app.
Qed.

Lemma push_text_atoms (p : parser) text segs :
  atoms (push_text p text segs) = atoms segs ++ (TextChar (current_tag p) <$> text).
Proof. unfold push_text. rewrite push_segment_atoms. by destruct (current_tag p). Qed.

Lemma flush_atoms (p : parser) run segs :
  atoms (if is_nil run then segs else push_text p run segs)
  = atoms segs ++ (TextChar (current_tag p) <$> run).
Proof.
  destruct (is_nil run) eqn:E; [apply is_nil_true in E as ->; cbn; by rewrite app_nil_r|apply push_text_atoms].
Qed.

(** The parser without runs and segments: a state and the atoms of one character. *)
Definition char_step (p : parser) (ch : char) : parser * list (Atom T) :=
  let '(q, run, segs) := parse_char (p, [], []) ch in
  (q, atoms segs ++ (TextChar (current_tag q) <$> run)).

Fixpoint char_steps (p : parser) (text : str) : parser * list (Atom T) :=
  match text with
  | [] => (p, [])
  | c :: text =>
      let '(p, a) := char_step p c in
      let '(p, b) := char_steps p text in (p, a ++ b)
  end.

Lemma finish_line_atoms (p : parser) segs :
  let '(q, a) := finish_line p [] in
  fst (finish_line p segs) = q /\ atoms (snd (finish_line p segs)) = atoms segs ++ atoms a.
Proof.
  unfold finish_line. repeat case_match; cbn [fst snd]; simplify_eq; (split; [done|]);
    rewrite ?push_text_atoms, ?push_segment_atoms; done.
Qed.

Lemma parse_char_step (p : parser) run segs ch :
  let '(q, a) := char_step p ch in
  let '(q', run', segs') := parse_char (p, run, segs) ch in
  q' = q /\ atoms segs' ++ (TextChar (current_tag q') <$> run')
            = (atoms segs ++ (TextChar (current_tag p) <$> run)) ++ a.
Proof.
  unfold char_step, parse_char. destruct (detect_tag p); cbn [is_nil].
  - set (p1 := mkTagged _ _ true _). pose proof (flush_atoms p run segs) as Hf.
    set (segs1 := if is_nil run then _ else _) in *. destruct (ch =? LF)%N.
    + pose proof (finish_line_atoms p1 segs1) as H1. destruct (finish_line p1 []) as [q a].
      destruct (finish_line p1 segs1) as [q' segs']. cbn [fst snd] in H1. destruct H1 as [-> H1].
      split; [done|]. cbn. rewrite !app_nil_r. by rewrite H1, Hf.
    + destruct (is_nil (trim_start (line_buffer p1)) || _); cbn beta iota zeta; (split; [done|]);
        rewrite ?push_text_atoms; cbn [fmap list_fmap]; rewrite ?app_nil_r; [by rewrite Hf|by rewrite Hf].
  - destruct (ch =? LF)%N; (split; [done|]); cbn [app fmap list_fmap]; rewrite ?push_text_atoms, ?app_nil_r;
      cbn; by rewrite fmap_app, app_assoc.
Qed.

Lemma parse_steps (p : parser) delta :
  fst (parse p delta) = fst (char_steps p delta) /\ atoms (snd (parse p delta)) = snd (char_steps p delta).
Proof.
  unfold parse.
  assert (forall text (p : parser) run segs,
    let '(q, run', segs') := foldl parse_char (p, run, segs) text in
    q = fst (char_steps p text)
    /\ atoms segs' ++ (TextChar (current_tag q) <$> run')
       = (atoms segs ++ (TextChar (current_tag p) <$> run)) ++ snd (char_steps p text)) as Hfold.
  { induction text as [|c text IH]; intros p0 run segs; cbn [foldl char_steps]; [by rewrite app_nil_r|].
    pose proof (parse_char_step p0 run segs c) as Hs. destruct (char_step p0 c) as [q a].
    destruct (parse_char (p0, run, segs) c) as [[q' run'] segs']. destruct Hs as [-> Hs].
    specialize (IH q run' segs'). destruct (foldl parse_char (q, run', segs') text) as [[q2 run2] segs2].
    destruct (char_steps q text) as [q3 b]. cbn [fst snd] in *. destruct IH as [-> IH].
    split; [done|]. by rewrite IH, Hs, app_assoc. }
  specialize (Hfold delta p [] []). destruct (foldl parse_char (p, [], []) delta) as [[q run] segs].
  destruct Hfold as [-> Hf]. cbn [fst snd]. split; [done|]. by rewrite flush_atoms.
Qed.

Lemma char_steps_app (p : parser) a b :
  char_steps p (a ++ b) =
    let '(p1, x) := char_steps p a in let '(p2, y) := char_steps p1 b in (p2, x ++ y).
Proof.
  revert p. induction a as [|c a IH]; intros p; cbn [app char_steps].
  - by destruct (char_steps p b).
  - destruct (char_step p c) as [q x]. rewrite IH. destruct (char_steps q a) as [q1 y].
    destruct (char_steps q1 b) as [q2 z]. by rewrite app_assoc.
Qed.
End tagged_proofs.

(** ** The parser and the meaning of the text *)

Lemma trim_start_app_r a b : trim_start a <> [] -> trim_start (a ++ b) = trim_start a ++ b.
Proof.
  unfold trim_start. induction a as [|c a IH]; cbn; [done|]. destruct (is_whitespace c); [exact IH|done].
Qed.

(** Text behind keeps what trimming left. *)
Lemma trim_end_app_prefix a b :
  trim_end a <> [] -> exists x, trim_end (a ++ b) = trim_end a ++ x.
Proof.
  intros Hne. destruct (trim_end_matches_last is_whitespace a) as [|(e & c & He & Hc)]; [done|].
  change (trim_end_matches is_whitespace a) with (trim_end a) in He.
  destruct (trim_end_matches_prefix is_whitespace a) as (w & Ha & _).
  destruct (trim_end_matches_prefix is_whitespace (a ++ b)) as (z & Hz & Fz).
  change (trim_end_matches is_whitespace (a ++ b)) with (trim_end (a ++ b)) in Hz.
  change (trim_end_matches is_whitespace a) with (trim_end a) in Ha.
  rewrite Ha, <- app_assoc in Hz at 1. apply app_eq_inv in Hz as [(k & Hk & Hz)|(k & Hk & Hz)]; [|by exists k].
  destruct k as [|d k _] using rev_ind; [exists []; by rewrite app_nil_r in *|].
  rewrite He, app_assoc in Hk. apply app_inj_tail in Hk as [_ <-].
  rewrite Hz, !Forall_app in Fz. destruct Fz as [[_ Fz] _]. apply Forall_inv in Fz. congruence.
Qed.

Section exact.
Context {T : Type} `{EqDecision T} (specs : list (TagSpec T)).
Abbreviation parser := (TaggedLineParser T).

(** Whatever follows, a line that starts so is no tag. *)
Definition never_tag (line : str) : Prop :=
  forall r, opens_block specs (line_slug (line ++ r)) = None
    /\ closes_block specs (line_slug (line ++ r)) = None.

Lemma line_slug_app line r :
  LF ∉ line -> exists r', line_slug (line ++ r) = trim_end (trim_start (line ++ r')).
Proof.
  intros Hn. unfold line_slug. destruct (strip_suffix [LF] (line ++ r)) as [l|] eqn:E; [|by exists r].
  apply strip_suffix_Some in E. destruct r as [|c r' _] using rev_ind.
  - exfalso. apply Hn. rewrite app_nil_r in E. rewrite E. set_solver.
  - rewrite app_assoc in E. apply app_inj_tail in E as [<- _]. by exists r'.
Qed.

Lemma trim_end_nonempty c s : is_whitespace c = false -> trim_end (c :: s) <> [].
Proof. intros Hc. by destruct (trim_end_head c s Hc) as [s' ->]. Qed.

Lemma trim_start_nonempty s : trim_start s <> [] -> trim_end (trim_start s) <> [].
Proof.
  unfold trim_start. induction s as [|c s IH]; cbn; [done|].
  destruct (is_whitespace c) eqn:E; [exact IH|]. intros _. by apply trim_end_nonempty.
Qed.

Lemma disproved_line (p : parser) line :
  tag_specs p = specs -> LF ∉ line -> trim_start line <> [] -> is_tag_prefix p (trim_start line) = false ->
  never_tag line.
Proof.
  intros Hp Hn Hne Hpre r. destruct (line_slug_app line r Hn) as [r' ->].
  rewrite trim_start_app_r by done.
  destruct (trim_end_app_prefix (trim_start line) r' (trim_start_nonempty _ Hne)) as [x ->].
  unfold is_tag_prefix in Hpre. rewrite Hp in Hpre. apply existsb_false_Forall in Hpre.
  rewrite Forall_forall in Hpre. unfold opens_block, closes_block, match_open, match_close. cbn [tag_specs tagged_new].
  split; apply fmap_None; (destruct (List.find _ specs) as [s|] eqn:E; [|done]);
    apply List.find_some in E as [Hin Heq]; apply bool_decide_eq_true in Heq;
    rewrite <- list_elem_of_In in Hin; specialize (Hpre s Hin); apply orb_false_iff in Hpre as [H1 H2].
  - assert (starts_with (trim_end (trim_start line)) (tag_open s) = true); [|congruence].
    apply starts_with_true. by exists x.
  - assert (starts_with (trim_end (trim_start line)) (tag_close s) = true); [|congruence].
    apply starts_with_true. by exists x.
Qed.

Lemma never_tag_meaning block line r :
  never_tag line -> line_meaning specs block (line ++ r) = (block, TextChar block <$> (line ++ r)).
Proof. intros Hn. destruct (Hn r) as [Ho Hc]. unfold line_meaning. by rewrite Ho, Hc. Qed.

Lemma never_tag_app line r : never_tag line -> never_tag (line ++ r).
Proof. intros Hn r'. rewrite <- app_assoc. apply Hn. Qed.

(** Where the parser stands inside a line: holding it back, or showing it. *)
Inductive reads (p : parser) (block : option T) (line : str) : Prop :=
  | holds : tag_specs p = specs -> current_tag p = block -> detect_tag p = true -> line_buffer p = line ->
            reads p block line
  | shows : tag_specs p = specs -> current_tag p = block -> detect_tag p = false -> line_buffer p = [] ->
            never_tag line -> reads p block line.

(** The atoms of the line already out. *)
Definition shown (p : parser) (block : option T) (line : str) : list (Atom T) :=
  if detect_tag p then [] else TextChar block <$> line.

Lemma finish_line_meaning (p : parser) :
  tag_specs p = specs ->
  let '(block, a) := line_meaning specs (current_tag p) (line_buffer p) in
  let '(q, segs) := finish_line p [] in
  q = mkTagged specs block true [] /\ atoms segs = a.
Proof.
  intros Hp. unfold line_meaning, finish_line, opens_block, closes_block, match_open, match_close.
  cbn [tag_specs current_tag tagged_new]. rewrite Hp.
  repeat case_match; simplify_eq; (split; [done|]);
    rewrite ?push_text_atoms, ?push_segment_atoms; done.
Qed.

Lemma step_meaning (p : parser) block line c :
  reads p block line -> LF ∉ line ->
  let '(q, a) := char_step p c in
  if (c =? LF)%N
  then let '(block', m) := line_meaning specs block (line ++ [c]) in
       reads q block' [] /\ detect_tag q = true /\ shown p block line ++ a = m
  else reads q block (line ++ [c]) /\ shown p block line ++ a = shown q block (line ++ [c]).
Proof.
  intros Hr Hn. unfold char_step, parse_char, shown.
  destruct Hr as [Hs Hb Hd Hl|Hs Hb Hd Hl Hnever]; rewrite Hd.
  - cbn [is_nil app]. rewrite Hl, Hs, Hb. destruct (N.eqb_spec c LF) as [->|Hc].
    + pose proof (finish_line_meaning (mkTagged specs block true (line ++ [LF])) eq_refl) as Hf.
      cbn [current_tag line_buffer] in Hf. destruct (line_meaning specs block (line ++ [LF])) as [block' m].
      destruct (finish_line _ []) as [q segs]. destruct Hf as [-> <-]. cbn. rewrite app_nil_r.
      split; [by constructor|done].
    + cbn [line_buffer]. destruct (is_nil (trim_start (line ++ [c])) || _) eqn:E.
      * split; [by constructor|done].
      * apply orb_false_iff in E as [E1 E2]. apply is_nil_false in E1. cbn [tag_specs current_tag] in *.
        split; [|rewrite push_text_atoms; cbn; by rewrite app_nil_r].
        apply shows; try done. eapply disproved_line; [|set_solver|done|exact E2]. done.
  - cbn [app]. destruct (N.eqb_spec c LF) as [->|Hc].
    + rewrite never_tag_meaning by done. cbn. rewrite app_nil_r, push_text_atoms, Hb. cbn.
      split; [by constructor|]. split; [done|]. by rewrite fmap_app.
    + split; [apply shows; try done; by apply never_tag_app|]. cbn. rewrite Hd, Hb. cbn. by rewrite fmap_app.
Qed.

Lemma finish_meaning (p : parser) block line :
  reads p block line -> LF ∉ line ->
  text_meaning specs block line [] = shown p block line ++ atoms (snd (tagged_finish p)).
Proof.
  intros Hr Hn. unfold shown. cbn [text_meaning].
  destruct Hr as [Hs Hb Hd Hl|Hs Hb Hd Hl Hnever]; rewrite Hd.
  - unfold tagged_finish. rewrite Hl. destruct (is_nil line) eqn:En.
    + rewrite Hb. by destruct block.
    + unfold line_meaning, opens_block, closes_block, match_open, match_close.
      cbn [tag_specs current_tag tagged_new]. rewrite Hs, Hb.
      destruct block; repeat case_match; simplify_eq; cbn [current_tag snd] in *; simplify_eq;
        rewrite ?push_segment_atoms, ?push_text_atoms; cbn; rewrite ?app_nil_r; done.
  - unfold tagged_finish. rewrite Hl. cbn [is_nil].
    assert ((if is_nil line then (block, []) else line_meaning specs block line)
      = (block, TextChar block <$> line)) as ->.
    { destruct (is_nil line) eqn:En; [by apply is_nil_true in En as ->|].
      rewrite <- (app_nil_r line). by apply never_tag_meaning. }
    rewrite Hb. cbn. by destruct block.
Qed.

(** Reading the rest of a text says what the text means. *)
Lemma steps_meaning text : forall (p : parser) block line,
  reads p block line -> LF ∉ line ->
  text_meaning specs block line text =
    shown p block line ++ snd (char_steps p text)
    ++ atoms (snd (tagged_finish (fst (char_steps p text)))).
Proof.
  induction text as [|c text IH]; intros p block line Hr Hn; cbn [char_steps].
  - by apply finish_meaning.
  - cbn [text_meaning]. pose proof (step_meaning p block line c Hr Hn) as Hs.
    destruct (char_step p c) as [q a]. destruct (N.eqb_spec c LF) as [->|Hc].
    + destruct (line_meaning specs block (line ++ [LF])) as [block' m]. destruct Hs as (Hq & Hd & <-).
      rewrite (IH q block' []) by (done || set_solver). unfold shown at 2. rewrite Hd. cbn [app].
      destruct (char_steps q text). cbn. by rewrite <- !app_assoc.
    + destruct Hs as [Hq Ha]. rewrite (IH q block (line ++ [c])) by (done || set_solver). rewrite <- Ha.
      destruct (char_steps q text). cbn. by rewrite <- !app_assoc.
Qed.
End exact.

(** ** Plans *)

Definition plan_specs : list (TagSpec PlanTag) := [mkTagSpec OPEN_TAG CLOSE_TAG ProposedPlan].

(** What a text says with plans marked, and its visible part. *)
Definition plan_meaning (text : str) : list (Atom PlanTag) := text_meaning plan_specs None [] text.

Definition visible_atom (a : Atom PlanTag) : str :=
  match a with TextChar None c => [c] | _ => [] end.
Definition visible_atoms (l : list (Atom PlanTag)) : str := concat (visible_atom <$> l).

Definition plan_segment_atoms (s : ProposedPlanSegment) : list (Atom PlanTag) :=
  match s with
  | PlanNormal text => TextChar None <$> text
  | ProposedPlanStart => [BlockStart ProposedPlan]
  | ProposedPlanDelta text => TextChar (Some ProposedPlan) <$> text
  | ProposedPlanEnd => [BlockEnd ProposedPlan]
  end.
Definition plan_atoms (l : list ProposedPlanSegment) : list (Atom PlanTag) := concat (plan_segment_atoms <$> l).

Lemma plan_atoms_app a b : plan_atoms (a ++ b) = plan_atoms a ++ plan_atoms b.
Proof. unfold plan_atoms. by rewrite fmap_app, concat_app. Qed.

Lemma visible_atoms_app a b : visible_atoms (a ++ b) = visible_atoms a ++ visible_atoms b.
Proof. unfold visible_atoms. by rewrite fmap_app, concat_app. Qed.

Lemma map_segments_spec segs :
  plan_atoms (extracted (map_segments segs)) = atoms segs
  /\ visible_text (map_segments segs) = visible_atoms (atoms segs).
Proof.
  induction segs as [|s segs [IH1 IH2]]; [done|]. cbn [map_segments extracted visible_text fmap list_fmap] in *.
  split.
  - unfold plan_atoms, atoms in *. cbn. rewrite IH1. f_equal. by destruct s as [|[]|[] ?|[]].
  - change (atoms (s :: segs)) with (segment_atoms s ++ atoms segs). rewrite visible_atoms_app, <- IH2. cbn. f_equal.
    assert (forall text, concat (visible_atom <$> (TextChar None <$> text)) = text) as Hn
      by (induction text as [|c text IHt]; cbn; [done|by rewrite IHt]).
    assert (forall tag text, concat (visible_atom <$> (TextChar (Some tag) <$> text)) = []) as Hs
      by (induction text as [|c text IHt]; cbn; [done|by rewrite IHt]).
    destruct s; cbn; unfold visible_atoms; [by rewrite Hn|done|by rewrite Hs|done].
Qed.

(** A plan parser and its output, as atoms. *)
Lemma plan_push_spec (p : ProposedPlanParser) chunk :
  fst (push_str p chunk) = fst (char_steps p chunk)
  /\ plan_atoms (extracted (snd (push_str p chunk))) = snd (char_steps p chunk)
  /\ visible_text (snd (push_str p chunk)) = visible_atoms (snd (char_steps p chunk)).
Proof.
  cbn [push_str plan_parser]. destruct (parse_steps p chunk) as [H1 H2].
  destruct (parse p chunk) as [q segs]. destruct (map_segments_spec segs) as [H3 H4]. cbn [fst snd] in *.
  by rewrite H3, H4, H2.
Qed.

Lemma plan_finish_spec (p : ProposedPlanParser) :
  plan_atoms (extracted (snd (finish p))) = atoms (snd (tagged_finish p))
  /\ visible_text (snd (finish p)) = visible_atoms (atoms (snd (tagged_finish p))).
Proof.
  cbn [finish plan_parser]. destruct (tagged_finish p) as [q segs].
  exact (map_segments_spec segs).
Qed.

Lemma plan_push_all_spec pieces : forall p : ProposedPlanParser,
  fst (push_all p pieces) = fst (char_steps p (concat pieces))
  /\ plan_atoms (extracted (snd (push_all p pieces))) = snd (char_steps p (concat pieces))
  /\ visible_text (snd (push_all p pieces)) = visible_atoms (snd (char_steps p (concat pieces))).
Proof.
  induction pieces as [|piece pieces IH]; intros p; cbn [push_all concat]; [done|].
  destruct (plan_push_spec p piece) as (H1 & H2 & H3). destruct (push_str p piece) as [p1 o1].
  specialize (IH p1). destruct (push_all p1 pieces) as [p2 o2]. cbn [fst snd] in *. rewrite char_steps_app.
  subst p1. destruct (char_steps p piece) as [q1 x]. cbn [fst snd] in *.
  destruct IH as (IH1 & IH2 & IH3). destruct (char_steps q1 (concat pieces)) as [q2 y]. cbn [fst snd] in *.
  unfold chunk_app. cbn [extracted visible_text].
  by rewrite plan_atoms_app, visible_atoms_app, H2, H3, IH2, IH3.
Qed.

Lemma plan_new_reads : reads plan_specs plan_new None [].
Proof. by constructor. Qed.

Lemma plan_text_meaning text :
  plan_meaning text = snd (char_steps plan_new text)
    ++ atoms (snd (tagged_finish (fst (char_steps plan_new text)))).
Proof. unfold plan_meaning. rewrite (steps_meaning plan_specs text plan_new None [] plan_new_reads); [done|set_solver]. Qed.

(** Plan blocks are found exactly, however the text arrives.  The segments
    a plan parser gives for any pieces of a text say what the text says line by
    line: a line that is the opening tag (white space apart) outside a block starts
    one, the closing tag inside one ends it, any other line is text of where it
    stands; an open block is closed at the end.  The visible text is the text
    outside blocks. *)
Theorem plan_blocks_exact pieces :
  let out := collect plan_new pieces in
  plan_atoms (extracted out) = plan_meaning (concat pieces)
  /\ visible_text out = visible_atoms (plan_meaning (concat pieces)).
Proof.
  cbn zeta. unfold collect. destruct (plan_push_all_spec pieces plan_new) as (H1 & H2 & H3).
  destruct (push_all plan_new pieces) as [p o]. cbn [fst snd] in *. subst p.
  destruct (plan_finish_spec (fst (char_steps plan_new (concat pieces)))) as [H4 H5].
  rewrite plan_text_meaning. unfold chunk_app. cbn [extracted visible_text].
  by rewrite plan_atoms_app, visible_atoms_app, H2, H3, H4, H5.
Qed.

(** ** Assistant text *)

Definition assistant_stream (plan_mode : bool) (pieces : list str) : list AssistantTextChunk :=
  let '(p, os) := assistant_push_all (assistant_new plan_mode) pieces in
  os ++ [snd (assistant_finish p)].

(** What the pieces leave in the two parsers and in the output. *)
Lemma assistant_push_all_spec pieces : forall p,
  ready (citation_state p) ->
  let '(q, os) := assistant_push_all p pieces in
  let '(cs, c) := citation_push_str (citation_state p) (concat pieces) in
  plan_mode q = plan_mode p /\ citation_state q = cs
  /\ concat (citations <$> os) = extracted c
  /\ if plan_mode p
     then plan_state q = fst (char_steps (plan_state p) (visible_text c))
          /\ plan_atoms (concat (plan_segments <$> os)) = snd (char_steps (plan_state p) (visible_text c))
          /\ concat (assistant_visible <$> os) = visible_atoms (snd (char_steps (plan_state p) (visible_text c)))
     else plan_state q = plan_state p /\ concat (plan_segments <$> os) = []
          /\ concat (assistant_visible <$> os) = visible_text c.
Proof.
  induction pieces as [|piece pieces IH]; intros p Hp; cbn [assistant_push_all concat].
  - pose proof (push_str_nil (T := str) (citation_state p) Hp) as E. cbn [push_str citation_parser] in E.
    rewrite E. cbn. split_and!; [done..|]. by destruct (plan_mode p).
  - pose proof (push_str_app (T := str) (citation_state p) piece (concat pieces) Hp) as E.
    pose proof (push_str_ok (T := str) (citation_state p) piece Hp) as Hok.
    cbn [push_str citation_parser] in E, Hok. rewrite E. unfold assistant_push_str, parse_visible_text.
    destruct (citation_push_str (citation_state p) piece) as [cs1 c1]. cbn [fst] in Hok.
    cbn [plan_mode plan_state citation_state]. destruct (plan_mode p) eqn:Em; cbn [negb].
    + destruct (plan_push_spec (plan_state p) (visible_text c1)) as (H1 & H2 & H3).
      destruct (push_str (plan_state p) (visible_text c1)) as [plan1 o1]. cbn [fst snd] in *. cbn zeta beta iota.
      specialize (IH (mkAssistant true cs1 plan1) Hok). cbn [citation_state plan_mode plan_state] in IH.
      destruct (assistant_push_all (mkAssistant true cs1 plan1) pieces) as [q os].
      destruct (citation_push_str cs1 (concat pieces)) as [cs2 c2].
      destruct IH as (I1 & I2 & I3 & I4 & I5 & I6). cbn [chunk_app extracted visible_text fmap list_fmap concat citations plan_segments assistant_visible].
      rewrite char_steps_app. subst plan1. destruct (char_steps (plan_state p) (visible_text c1)) as [q1 x].
      cbn [fst snd] in *. destruct (char_steps q1 (visible_text c2)) as [q2 y]. cbn [fst snd] in *.
      rewrite plan_atoms_app, visible_atoms_app, I3, I5, I6, H2, H3. done.
    + specialize (IH (mkAssistant false cs1 (plan_state p)) Hok). cbn [citation_state plan_mode plan_state] in IH.
      cbn zeta beta iota. destruct (assistant_push_all (mkAssistant false cs1 (plan_state p)) pieces) as [q os].
      destruct (citation_push_str cs1 (concat pieces)) as [cs2 c2].
      destruct IH as (I1 & I2 & I3 & I4 & I5 & I6). cbn. by rewrite I3, I5, I6.
Qed.

(** The end of the stream. *)
Lemma assistant_finish_spec p :
  let out := snd (assistant_finish p) in
  let c := snd (citation_finish (citation_state p)) in
  citations out = extracted c
  /\ if plan_mode p
     then let '(q, a) := char_steps (plan_state p) (visible_text c) in
          plan_atoms (plan_segments out) = a ++ atoms (snd (tagged_finish q))
          /\ assistant_visible out = visible_atoms (a ++ atoms (snd (tagged_finish q)))
     else plan_segments out = [] /\ assistant_visible out = visible_text c.
Proof.
  cbn zeta. unfold assistant_finish, parse_visible_text. destruct (citation_finish (citation_state p)) as [cs c].
  cbn [plan_mode plan_state citation_state snd]. destruct (plan_mode p) eqn:Em; cbn [negb plan_mode]; [|done].
  destruct (plan_push_spec (plan_state p) (visible_text c)) as (H1 & H2 & H3).
  destruct (push_str (plan_state p) (visible_text c)) as [plan o]. cbn [fst snd plan_mode plan_state] in *.
  destruct (char_steps (plan_state p) (visible_text c)) as [q a]. cbn [fst snd] in *. subst plan.
  destruct (plan_finish_spec q) as [H4 H5]. destruct (finish (P := ProposedPlanParser) q) as [plan' tail].
  cbn [snd] in *.
  destruct (chunk_is_empty tail) eqn:Et; cbn [snd citations plan_segments assistant_visible]; (split; [done|]).
  - apply andb_true_iff in Et as [Ev Ex]. apply is_nil_true in Ev, Ex. rewrite Ev in H5. rewrite Ex in H4.
    rewrite <- H4, app_nil_r. done.
  - by rewrite plan_atoms_app, visible_atoms_app, H2, H3, H4, H5.
Qed.

(** C39: the markup of assistant text, end to end.  Whatever the pieces, the stream
    parser gives the citations of the whole text, and the rest as visible text;
    in plan mode the plan blocks are those of the text without its citations, and
    are not visible. *)
Theorem assistant_stream_exact planning pieces :
  let out := assistant_stream planning pieces in
  let '(text, cited) := strip_citations (concat pieces) in
  concat (citations <$> out) = cited
  /\ plan_atoms (concat (plan_segments <$> out)) = (if planning then plan_meaning text else [])
  /\ concat (assistant_visible <$> out) = if planning then visible_atoms (plan_meaning text) else text.
Proof.
  cbn zeta. unfold assistant_stream, strip_citations.
  pose proof (assistant_push_all_spec pieces (assistant_new planning) citation_new_ready) as Hs.
  destruct (assistant_push_all (assistant_new planning) pieces) as [q os].
  cbn [citation_state assistant_new plan_mode plan_state] in Hs.
  destruct (citation_push_str citation_new (concat pieces)) as [cs c].
  destruct Hs as (Hm & Hc & H1 & H2). pose proof (assistant_finish_spec q) as Hf. cbn zeta in Hf.
  rewrite Hm, Hc in Hf. destruct (citation_finish cs) as [cs' tail]. cbn [snd] in Hf.
  destruct (assistant_finish q) as [q' out]. cbn [snd] in Hf. destruct Hf as [F1 F2].
  rewrite !fmap_app, !concat_app. cbn. rewrite !app_nil_r, H1, F1. split; [done|].
  destruct planning.
  - destruct H2 as (P1 & P2 & P3). rewrite P1 in F2. rewrite plan_text_meaning, char_steps_app, plan_atoms_app, P2, P3.
    destruct (char_steps plan_new (visible_text c)) as [q1 x]. cbn [fst snd] in *.
    destruct (char_steps q1 (visible_text tail)) as [q2 y]. cbn [fst snd] in *. destruct F2 as [F2 F3].
    rewrite F2, F3, <- !app_assoc. split; [done|]. fold (visible_atoms (x ++ y ++ atoms (snd (tagged_finish q2)))).
    by rewrite !visible_atoms_app.
  - destruct H2 as (P1 & P2 & P3). destruct F2 as [F2 F3]. by rewrite P2, P3, F2, F3.
Qed.
