(* ===== verification/Utf8Stream.v ===== *)
(** * Streamed bytes (utils/stream-parser/src/utf8_stream.rs)

    [Utf8StreamParser] decodes bytes that arrive in chunks and feeds the text to a
    stream parser; a character cut between two chunks waits in [pending_utf8].  The
    decoder of [std] is written out, so that the errors it reports are those the
    source forwards. *)

From S2P Require Import Prelude RustStr StreamTags.

Abbreviation bytes := (list N).

(** ** [std::str::from_utf8] *)

(** [Utf8Error]: the length of the valid prefix, and that of the sequence that cannot be continued to a
    character, [None] when the input ends too early. *)
Record Utf8Error := mkUtf8Error {
  valid_up_to : nat;
  error_len : option nat }.

Definition within (lo hi b : N) : bool := ((lo <=? b) && (b <=? hi))%N.
Definition is_continuation (b : N) : bool := within 128 191 b.

(** The number of bytes a first byte announces; 0 for a byte that starts nothing. *)
Definition char_width (b : N) : nat :=
  if within 0 127 b then 1 else if within 194 223 b then 2 else if within 224 239 b then 3
  else if within 240 244 b then 4 else 0.

(** The second bytes that exclude overlong forms, surrogates and values past the
    last scalar value. *)
Definition second_of_three (b1 b2 : N) : bool :=
  if (b1 =? 224)%N then within 160 191 b2
  else if (b1 =? 237)%N then within 128 159 b2 else is_continuation b2.
Definition second_of_four (b1 b2 : N) : bool :=
  if (b1 =? 240)%N then within 144 191 b2
  else if (b1 =? 244)%N then within 128 143 b2 else is_continuation b2.

(** One character at the front of a non-empty input. *)
Inductive Decoded :=
| Whole (c : char) (rest : bytes)
| Invalid (len : nat)
| Partial.

Definition decode_char (b1 : N) (r : bytes) : Decoded :=
  match char_width b1 with
  | 1 => Whole b1 r
  | 2 =>
      match r with
      | [] => Partial
      | b2 :: r =>
          if is_continuation b2 then Whole ((b1 - 192) * 64 + (b2 - 128))%N r else Invalid 1
      end
  | 3 =>
      match r with
      | [] => Partial
      | b2 :: r =>
          if negb (second_of_three b1 b2) then Invalid 1 else
          match r with
          | [] => Partial
          | b3 :: r =>
              if is_continuation b3 then Whole ((b1 - 224) * 4096 + (b2 - 128) * 64 + (b3 - 128))%N r
              else Invalid 2
          end
      end
  | 4 =>
      match r with
      | [] => Partial
      | b2 :: r =>
          if negb (second_of_four b1 b2) then Invalid 1 else
          match r with
          | [] => Partial
          | b3 :: r =>
              if negb (is_continuation b3) then Invalid 2 else
              match r with
              | [] => Partial
              | b4 :: r =>
                  if is_continuation b4
                  then Whole ((b1 - 240) * 262144 + (b2 - 128) * 4096 + (b3 - 128) * 64 + (b4 - 128))%N r
                  else Invalid 3
              end
          end
      end
  | _ => Invalid 1
  end.

(** What precedes a decoded input. *)
Definition after (t : str) (r : result Utf8Error str) : result Utf8Error str :=
  match r with
  | Ok s => Ok (t ++ s)
  | Err e => Err (mkUtf8Error (byte_len t + valid_up_to e) (error_len e))
  | Panic => Panic
  | OutOfFuel => OutOfFuel
  end.

(** One turn for each character: as many turns as bytes are enough. *)
Fixpoint decode_loop (fuel : nat) (bs : bytes) : result Utf8Error str :=
  match bs with
  | [] => Ok []
  | b1 :: r =>
      match fuel with
      | 0 => OutOfFuel
      | S fuel =>
          match decode_char b1 r with
          | Whole c rest => after [c] (decode_loop fuel rest)
          | Invalid len => Err (mkUtf8Error 0 (Some len))
          | Partial => Err (mkUtf8Error 0 None)
          end
      end
  end.
Definition from_utf8 (bs : bytes) : result Utf8Error str := decode_loop (length bs) bs.

(** ** The parser *)

Inductive Utf8StreamParserError :=
| InvalidUtf8 (valid_up_to error_len : nat)
| IncompleteUtf8AtEof.

#[export] Instance Utf8StreamParserError_eq_dec : EqDecision Utf8StreamParserError.
Proof. solve_decision. Defined.

Record Utf8StreamParser (P : Type) := mkUtf8 {
  inner : P;
  pending_utf8 : bytes }.
Arguments mkUtf8 {P} inner pending_utf8.
Arguments inner {P} u.
Arguments pending_utf8 {P} u.

Section Parser.
Context {P T : Type} `{StreamTextParser P T}.

Abbreviation parser := (Utf8StreamParser P).
Abbreviation outcome := (result Utf8StreamParserError (StreamTextChunk T)).

Definition utf8_new (inner : P) : parser := mkUtf8 inner [].

Definition push_bytes (p : parser) (chunk : bytes) : parser * outcome :=
  let old_len := length (pending_utf8 p) in
  let pending := pending_utf8 p ++ chunk in
  match from_utf8 pending with
  | Ok text => let '(i, out) := push_str (inner p) text in (mkUtf8 i [], Ok out)
  | Err err =>
      match error_len err with
      | Some len => (mkUtf8 (inner p) (take old_len pending), Err (InvalidUtf8 (valid_up_to err) len))
      | None =>
          if valid_up_to err =? 0 then (mkUtf8 (inner p) pending, Ok empty_chunk) else
          match from_utf8 (take (valid_up_to err) pending) with
          | Ok text =>
              let '(i, out) := push_str (inner p) text in
              (mkUtf8 i (drop (valid_up_to err) pending), Ok out)
          | Err prefix_err =>
              (mkUtf8 (inner p) (take old_len pending),
               Err (InvalidUtf8 (valid_up_to prefix_err) (default 0 (error_len prefix_err))))
          | Panic => (p, Panic)
          | OutOfFuel => (p, OutOfFuel)
          end
      end
  | Panic => (p, Panic)
  | OutOfFuel => (p, OutOfFuel)
  end.

(** The error for bytes that do not decode, as [finish] and [into_inner] report it. *)
Definition undecoded (err : Utf8Error) : Utf8StreamParserError :=
  match error_len err with
  | Some len => InvalidUtf8 (valid_up_to err) len
  | None => IncompleteUtf8AtEof
  end.

Definition utf8_finish (p : parser) : parser * outcome :=
  let flush i out := let '(i, tail) := finish i in (mkUtf8 i [], Ok (chunk_app out tail)) in
  if is_nil (pending_utf8 p) then flush (inner p) empty_chunk else
  match from_utf8 (pending_utf8 p) with
  | Err err => (p, Err (undecoded err))
  | Ok text => let '(i, out) := push_str (inner p) text in flush i out
  | Panic => (p, Panic)
  | OutOfFuel => (p, OutOfFuel)
  end.

Definition into_inner (p : parser) : result Utf8StreamParserError P :=
  if is_nil (pending_utf8 p) then Ok (inner p) else
  match from_utf8 (pending_utf8 p) with
  | Ok _ => Ok (inner p)
  | Err err => Err (undecoded err)
  | Panic => Panic
  | OutOfFuel => OutOfFuel
  end.

Definition into_inner_lossy (p : parser) : P := inner p.

(** Feeding a stream up to the first error, and finishing it. *)
Fixpoint push_stream (p : parser) (chunks : list bytes) : parser * outcome :=
  match chunks with
  | [] => (p, Ok empty_chunk)
  | chunk :: rest =>
      let '(p1, r1) := push_bytes p chunk in
      match r1 with
      | Ok o1 => let '(p2, r2) := push_stream p1 rest in (p2, let? o2 := r2 in Ok (chunk_app o1 o2))
      | _ => (p1, r1)
      end
  end.
Definition collect_bytes (p : parser) (chunks : list bytes) : outcome :=
  let '(p1, r) := push_stream p chunks in
  let? o := r in let? tail := snd (utf8_finish p1) in Ok (chunk_app o tail).

End Parser.

Example split_code_points :
  collect_bytes (utf8_new citation_new)
    [[65; 195]%N; [169%N] ++ CITATION_OPEN ++ [228%N]; [184; 173]%N ++ CITATION_CLOSE ++ L"Z"]
  = Ok (mkChunk [65; 233; 90]%N [[20013%N]]).
Proof. vm_compute. reflexivity. Qed.

Example rolls_back :
  let '(p, r1) := push_bytes (utf8_new citation_new) [195%N] in
  let '(p, r2) := push_bytes p [40%N] in
  let '(p, r3) := push_bytes p [169; 120]%N in
  r1 = Ok empty_chunk /\ r2 = Err (InvalidUtf8 0 1) /\ r3 = Ok (mkChunk [233; 120]%N [])
  /\ snd (push_bytes p [111; 107; 255]%N) = Err (InvalidUtf8 2 1)
  /\ snd (utf8_finish (fst (push_bytes p [226; 130]%N))) = Err IncompleteUtf8AtEof
  /\ into_inner (fst (push_bytes p [195%N])) = Err IncompleteUtf8AtEof.
Proof. vm_compute. done. Qed.

(** ** Decoding and encoding *)

(** The Unicode scalar values, and their encoding. *)
Definition is_scalar (c : char) : Prop := (c < 55296 \/ 57344 <= c < 1114112)%N.

Definition encode_char (c : char) : bytes :=
  (if c <? 128 then [c]
   else if c <? 2048 then [192 + c / 64; 128 + c mod 64]
   else if c <? 65536 then [224 + c / 4096; 128 + (c / 64) mod 64; 128 + c mod 64]
   else [240 + c / 262144; 128 + (c / 4096) mod 64; 128 + (c / 64) mod 64; 128 + c mod 64])%N.
Definition encode (s : str) : bytes := concat (encode_char <$> s).

Lemma encode_app a b : encode (a ++ b) = encode a ++ encode b.
Proof. unfold encode. by rewrite fmap_app, concat_app. Qed.

Lemma length_encode_char c : length (encode_char c) = len_utf8 c.
Proof. unfold encode_char, len_utf8. by repeat case_match. Qed.

Lemma length_encode s : length (encode s) = byte_len s.
Proof.
  induction s as [|c s IH]; [done|]. unfold encode, byte_len in *. cbn. by rewrite length_app, length_encode_char, IH.
Qed.

Lemma byte_len_app a b : byte_len (a ++ b) = byte_len a + byte_len b.
Proof. by rewrite <- !length_encode, encode_app, length_app. Qed.

Lemma byte_len_zero s : byte_len s = 0 -> s = [].
Proof.
  destruct s as [|c s]; [done|]. unfold byte_len. cbn. unfold len_utf8. repeat case_match; lia.
Qed.

Lemma within_spec lo hi b : within lo hi b = true <-> (lo <= b <= hi)%N.
Proof. unfold within. rewrite andb_true_iff, !N.leb_le. lia. Qed.

(** A first byte, as the width it announces bounds it. *)
Inductive width_bounds (b : N) : nat -> Prop :=
| Width0 : width_bounds b 0
| Width1 : (b < 128)%N -> width_bounds b 1
| Width2 : (194 <= b < 224)%N -> width_bounds b 2
| Width3 : (224 <= b < 240)%N -> width_bounds b 3
| Width4 : (240 <= b < 245)%N -> width_bounds b 4.

Lemma width_spec b : width_bounds b (char_width b).
Proof.
  unfold char_width. repeat case_match; constructor; rewrite ?within_spec in *; lia.
Qed.

Lemma three_spec b1 b2 : (224 <= b1 < 240)%N ->
  second_of_three b1 b2 = true <->
  (128 <= b2 < 192 /\ (b1 = 224 -> 160 <= b2) /\ (b1 = 237 -> b2 < 160))%N.
Proof.
  intros Hb. unfold second_of_three, is_continuation. repeat case_match; rewrite ?N.eqb_eq, ?N.eqb_neq in *;
    rewrite within_spec; lia.
Qed.

Lemma four_spec b1 b2 : (240 <= b1 < 245)%N ->
  second_of_four b1 b2 = true <->
  (128 <= b2 < 192 /\ (b1 = 240 -> 144 <= b2) /\ (b1 = 244 -> b2 < 144))%N.
Proof.
  intros Hb. unfold second_of_four, is_continuation. repeat case_match; rewrite ?N.eqb_eq, ?N.eqb_neq in *;
    rewrite within_spec; lia.
Qed.

Lemma continuation_spec b : is_continuation b = true <-> (128 <= b < 192)%N.
Proof. unfold is_continuation. rewrite within_spec. lia. Qed.

(** Six bits at a time. *)
Lemma low_bits x y : (y < 64)%N -> ((x * 64 + y) / 64 = x /\ (x * 64 + y) mod 64 = y)%N.
Proof.
  intros Hy. rewrite (N.add_comm (x * 64)), N.div_add, N.Div0.mod_add, N.div_small, N.mod_small by lia. lia.
Qed.

Lemma split_bits c : exists x y, (c = x * 64 + y /\ y < 64)%N.
Proof.
  exists (c / 64)%N, (c mod 64)%N. pose proof (N.div_mod c 64). pose proof (N.mod_lt c 64). lia.
Qed.

Lemma high_bits (c k : N) : (c / (64 * k) = c / 64 / k)%N.
Proof. by rewrite N.Div0.div_div. Qed.

Ltac six_bits :=
  repeat match goal with
    | |- context [((?x * 64 + ?y) / 64)%N] => rewrite (proj1 (low_bits x y ltac:(lia)))
    | |- context [((?x * 64 + ?y) mod 64)%N] => rewrite (proj2 (low_bits x y ltac:(lia)))
    end.

Ltac compare_const :=
  repeat match goal with
    | |- context [(?a <? ?b)%N] =>
        first [rewrite (proj2 (N.ltb_lt a b)) by lia | rewrite (proj2 (N.ltb_ge a b)) by lia]
    end.

Lemma encode2 x y :
  (2 <= x < 32 -> y < 64 -> encode_char (x * 64 + y) = [192 + x; 128 + y])%N.
Proof. intros Hx Hy. unfold encode_char. compare_const. six_bits. done. Qed.

Lemma encode3 x y z :
  (y < 64 -> z < 64 -> 32 <= x * 64 + y < 1024 ->
   encode_char ((x * 64 + y) * 64 + z) = [224 + x; 128 + y; 128 + z])%N.
Proof.
  intros Hy Hz Hc. unfold encode_char. compare_const.
  change 4096%N with (64 * 64)%N. rewrite high_bits. six_bits. done.
Qed.

Lemma encode4 w x y z :
  (x < 64 -> y < 64 -> z < 64 -> 1024 <= (w * 64 + x) * 64 + y ->
   encode_char (((w * 64 + x) * 64 + y) * 64 + z) = [240 + w; 128 + x; 128 + y; 128 + z])%N.
Proof.
  intros Hx Hy Hz Hc. unfold encode_char. compare_const.
  change 262144%N with (64 * (64 * 64))%N. change 4096%N with (64 * 64)%N. rewrite !high_bits. six_bits. done.
Qed.

(** A character that decodes is the encoding of a scalar value. *)
Lemma decode_whole b r c rest :
  decode_char b r = Whole c rest -> b :: r = encode_char c ++ rest /\ is_scalar c.
Proof.
  unfold decode_char, is_scalar. destruct (width_spec b) as [|Hb|Hb|Hb|Hb]; intros E; [done| | | |].
  - injection E as <- <-. unfold encode_char. compare_const. split; [done|lia].
  - repeat case_match; simplify_eq. rewrite continuation_spec in *. rewrite encode2 by lia.
    split; [cbn; repeat f_equal; lia|lia].
  - repeat case_match; simplify_eq. rewrite negb_false_iff, three_spec, continuation_spec in * by done.
    match goal with |- context [encode_char ?c] =>
      replace c with (((b - 224) * 64 + (n - 128)) * 64 + (n0 - 128))%N by lia end.
    rewrite encode3 by lia. split; [cbn; repeat f_equal; lia|lia].
  - repeat case_match; simplify_eq. rewrite negb_false_iff, four_spec, continuation_spec in * by done.
    match goal with |- context [encode_char ?c] =>
      replace c with ((((b - 240) * 64 + (n - 128)) * 64 + (n0 - 128)) * 64 + (n1 - 128))%N by lia end.
    rewrite encode4 by lia. split; [cbn; repeat f_equal; lia|lia].
Qed.

Lemma char_width_of b k : width_bounds b k -> k <> 0 -> char_width b = k.
Proof.
  intros [] Hk; unfold char_width; repeat case_match; try done;
    repeat match goal with H : within _ _ _ = false |- _ => apply not_true_iff_false in H end;
    rewrite ?within_spec in *; lia.
Qed.

(** A scalar value is what its encoding decodes to. *)
Lemma decode_encode c rest :
  is_scalar c -> exists b r, encode_char c ++ rest = b :: r /\ decode_char b r = Whole c rest.
Proof.
  intros Hc. unfold is_scalar in Hc. destruct (decide (c < 128)%N) as [H1|H1].
  { exists c, rest. unfold encode_char, decode_char. rewrite (char_width_of c 1) by (try constructor; lia).
    split; [by compare_const|done]. }
  destruct (split_bits c) as (x & z & -> & Hz). destruct (decide (x < 32)%N) as [H2|H2].
  { rewrite encode2 by lia. eexists _, _. split; [reflexivity|]. unfold decode_char.
    rewrite (char_width_of _ 2) by (try constructor; lia).
    rewrite (proj2 (continuation_spec _)) by lia. f_equal. lia. }
  destruct (split_bits x) as (w & y & -> & Hy). destruct (decide (w < 16)%N) as [H3|H3].
  { rewrite encode3 by lia. eexists _, _. split; [reflexivity|]. unfold decode_char. cbn [app].
    rewrite (char_width_of _ 3) by (try constructor; lia).
    rewrite (proj2 (three_spec (224 + w) (128 + y) ltac:(lia))), (proj2 (continuation_spec _)) by lia. cbn [negb]. f_equal. lia. }
  destruct (split_bits w) as (v & u & -> & Hu).
  rewrite encode4 by lia. eexists _, _. split; [reflexivity|]. unfold decode_char. cbn [app].
  rewrite (char_width_of _ 4) by (try constructor; lia).
  rewrite (proj2 (four_spec (240 + v) (128 + u) ltac:(lia))), !(proj2 (continuation_spec _)) by lia. cbn [negb]. f_equal. lia.
Qed.

(** More input does not change what is settled. *)
Lemma decode_char_app b r x :
  match decode_char b r with
  | Whole c rest => decode_char b (r ++ x) = Whole c (rest ++ x)
  | Invalid n => decode_char b (r ++ x) = Invalid n
  | Partial => True
  end.
Proof.
  unfold decode_char. destruct (width_spec b); [done|done|..];
    destruct r as [|b2 r]; try done; cbn [app]; [by destruct (is_continuation b2)|..];
    (destruct (negb _); [done|]); destruct r as [|b3 r]; try done; cbn [app]; [by destruct (is_continuation b3)|].
  destruct (negb _); [done|]. destruct r as [|b4 r]; [done|]. cbn [app]. by destruct (is_continuation b4).
Qed.

Lemma encode_char_length c : 0 < length (encode_char c).
Proof. rewrite length_encode_char. unfold len_utf8. repeat case_match; lia. Qed.

Lemma whole_shorter b r c rest : decode_char b r = Whole c rest -> length rest < length (b :: r).
Proof. intros [-> _]%decode_whole. rewrite length_app. pose proof (encode_char_length c). lia. Qed.

Lemma decode_loop_enough n m bs : length bs <= n -> length bs <= m -> decode_loop n bs = decode_loop m bs.
Proof.
  revert m bs. induction n as [|n IH]; intros m [|b r] Hn Hm; cbn [length] in *; try lia;
    [by destruct m|by destruct m|]. destruct m as [|m]; [lia|]. cbn.
  destruct (decode_char b r) eqn:E; try done. apply whole_shorter in E. cbn [length] in E. by rewrite (IH m) by lia.
Qed.

(** The loop of [from_utf8], without fuel. *)
Lemma from_utf8_cons b r :
  from_utf8 (b :: r) =
    match decode_char b r with
    | Whole c rest => after [c] (from_utf8 rest)
    | Invalid len => Err (mkUtf8Error 0 (Some len))
    | Partial => Err (mkUtf8Error 0 None)
    end.
Proof.
  unfold from_utf8 at 1. cbn. destruct (decode_char b r) eqn:E; try done. apply whole_shorter in E. cbn [length] in E.
  unfold from_utf8. by rewrite (decode_loop_enough _ (length rest)) by lia.
Qed.

Lemma after_nil r : after [] r = r.
Proof. by destruct r as [|[]| |]. Qed.
Lemma after_after a b r : after a (after b r) = after (a ++ b) r.
Proof. destruct r as [|e| |]; cbn; try done; [by rewrite app_assoc|]. rewrite byte_len_app. do 2 f_equal. lia. Qed.

(** Encoded text in front is decoded. *)
Lemma from_utf8_encode t bs : Forall is_scalar t -> from_utf8 (encode t ++ bs) = after t (from_utf8 bs).
Proof.
  induction 1 as [|c t Hc _ IH]; cbn [encode].
  - by rewrite after_nil.
  - change (encode (c :: t)) with (encode_char c ++ encode t). rewrite <- app_assoc.
    destruct (decode_encode c (encode t ++ bs) Hc) as (b & r & -> & E). rewrite from_utf8_cons, E, IH.
    by rewrite after_after.
Qed.

(** Bytes split into the text they hold, and what is not text. *)
Lemma from_utf8_spec bs :
  match from_utf8 bs with
  | Ok t => bs = encode t /\ Forall is_scalar t
  | Err e => exists t part, bs = encode t ++ part /\ Forall is_scalar t /\ valid_up_to e = byte_len t
      /\ from_utf8 part = Err (mkUtf8Error 0 (error_len e))
  | _ => False
  end.
Proof.
  induction bs as [[|b r] IH] using (induction_ltof1 _ (@length N)); [done|]. rewrite from_utf8_cons.
  destruct (decode_char b r) as [c rest| |] eqn:E; cbn.
  - pose proof (IH rest (whole_shorter _ _ _ _ E)) as Hr. apply decode_whole in E as [-> Hc].
    destruct (from_utf8 rest) as [t|e| |]; cbn; try done.
    + destruct Hr as [-> Ht]. split; [done|by constructor].
    + destruct Hr as (t & part & -> & Ht & Hv & Hp). exists (c :: t), part. cbn.
      split; [by rewrite app_assoc|]. split; [by constructor|]. split; [|done].
      rewrite Hv. unfold byte_len. cbn. lia.
  - exists [], (b :: r). by rewrite from_utf8_cons, E.
  - exists [], (b :: r). by rewrite from_utf8_cons, E.
Qed.

(** A sequence that cannot be continued to a character is not mended by more bytes. *)
Lemma invalid_app a n x :
  from_utf8 a = Err (mkUtf8Error 0 (Some n)) -> from_utf8 (a ++ x) = Err (mkUtf8Error 0 (Some n)).
Proof.
  destruct a as [|b r]; [done|]. cbn [app]. rewrite !from_utf8_cons. pose proof (decode_char_app b r x) as Ha.
  destruct (decode_char b r) as [c rest| |]; [|by rewrite Ha|done].
  destruct (from_utf8 rest) as [|e| |]; cbn; try done. intros [= Hlen _]. exfalso.
  pose proof (encode_char_length c). rewrite length_encode_char in *. unfold byte_len in *. cbn in *. lia.
Qed.

(** ** The stream *)

(** Bytes that wait: none, or a character cut short. *)
Definition waiting (bs : bytes) : Prop := bs = [] \/ from_utf8 bs = Err (mkUtf8Error 0 None).

Section Stream.
Context {P T : Type} {ok : P -> Prop} `{CutIndependent P T ok}.
Implicit Types (p : Utf8StreamParser P) (i : P).

(** What a push does: either the chunk completes some text, which the inner parser
    sees at once, or it is rejected and nothing has changed. *)
Inductive pushed p (chunk : bytes) : Utf8StreamParser P * result Utf8StreamParserError (StreamTextChunk T) -> Prop :=
| PushedText t part i o :
    pending_utf8 p ++ chunk = encode t ++ part -> Forall is_scalar t -> waiting part ->
    push_str (inner p) t = (i, o) -> pushed p chunk (mkUtf8 i part, Ok o)
| PushedNothing v n :
    from_utf8 (pending_utf8 p ++ chunk) = Err (mkUtf8Error v (Some n)) ->
    pushed p chunk (p, Err (InvalidUtf8 v n)).

Lemma push_bytes_spec p chunk : ok (inner p) -> pushed p chunk (push_bytes p chunk).
Proof.
  intros Hok. unfold push_bytes. pose proof (from_utf8_spec (pending_utf8 p ++ chunk)) as Hs.
  destruct (from_utf8 (pending_utf8 p ++ chunk)) as [t|[v [n|]]| |] eqn:E; try done; cbn [valid_up_to error_len] in *.
  - destruct Hs as [Hbs Ht]. destruct (push_str (inner p) t) as [i o] eqn:Ei.
    apply (PushedText _ _ t); [by rewrite app_nil_r|done|by left|done].
  - rewrite take_app_length. destruct p. by constructor.
  - destruct Hs as (t & part & Hbs & Ht & -> & Hp). case_match eqn:Ez.
    + apply Nat.eqb_eq, byte_len_zero in Ez as ->. rewrite Hbs. cbn [encode fmap list_fmap concat app].
      apply (PushedText _ _ []); [done|done|by right|by apply push_str_nil].
    + rewrite Hbs, <- length_encode, take_app_length, drop_app_length.
      rewrite <- (app_nil_r (encode t)), from_utf8_encode by done. cbn. rewrite app_nil_r.
      destruct (push_str (inner p) t) as [i o] eqn:Ei. by apply (PushedText _ _ t); [|done|right|].
Qed.

(** The outcome that bytes promise, to a parser whose inner state is [i]. *)
Definition promised i (bs : bytes) (r : result Utf8StreamParserError (StreamTextChunk T)) : Prop :=
  match from_utf8 bs with
  | Ok text => let '(i', o) := push_str i text in r = Ok (chunk_app o (snd (finish i')))
  | Err e =>
      match error_len e with
      | Some n => exists v, v <= valid_up_to e /\ r = Err (InvalidUtf8 v n)
      | None => r = Err IncompleteUtf8AtEof
      end
  | _ => False
  end.

Lemma promised_after i t i' o bs r :
  ok i -> Forall is_scalar t -> push_str i t = (i', o) -> promised i' bs r ->
  promised i (encode t ++ bs) (let? x := r in Ok (chunk_app o x)).
Proof.
  intros Hok Ht Ei. unfold promised. rewrite from_utf8_encode by done.
  destruct (from_utf8 bs) as [s|[v [n|]]| |]; cbn; try done.
  - rewrite push_str_app, Ei by done. destruct (push_str i' s) as [i2 o2]. intros ->. cbn. by rewrite (assoc chunk_app).
  - intros (w & Hw & ->). exists w. split; [lia|done].
  - by intros ->.
Qed.

Lemma finish_promised p : ok (inner p) -> waiting (pending_utf8 p) -> promised (inner p) (pending_utf8 p) (snd (utf8_finish p)).
Proof.
  intros Hok Hw. unfold promised, utf8_finish. destruct Hw as [Hw|Hw]; rewrite Hw.
  - cbn. rewrite push_str_nil by done. destruct (finish (inner p)) as [i tail]. done.
  - destruct (pending_utf8 p); done.
Qed.

Lemma stream_promised chunks : forall p,
  ok (inner p) -> waiting (pending_utf8 p) ->
  promised (inner p) (pending_utf8 p ++ concat chunks) (collect_bytes p chunks).
Proof.
  induction chunks as [|chunk chunks IH]; intros p Hok Hw; unfold collect_bytes; cbn [push_stream concat].
  - rewrite app_nil_r. pose proof (finish_promised p Hok Hw) as Hf. cbn.
    destruct (snd (utf8_finish p)) as [c| | |]; [|done..]. cbn. by rewrite (left_id empty_chunk chunk_app).
  - destruct (push_bytes_spec p chunk Hok) as [t part i o Hbs Ht Hp Ei|v n He].
    + rewrite app_assoc, Hbs, <- app_assoc. pose proof (push_str_ok (inner p) t Hok) as Hi. rewrite Ei in Hi.
      pose proof (promised_after _ _ _ _ _ _ Hok Ht Ei (IH (mkUtf8 i part) Hi Hp)) as Hn.
      unfold collect_bytes in Hn. destruct (push_stream (mkUtf8 i part) chunks) as [p2 [o2| | |]]; cbn in *; try done.
      destruct (snd (utf8_finish p2)) as [c| | |]; cbn in *; try done. by rewrite <- (assoc chunk_app).
    + pose proof (from_utf8_spec (pending_utf8 p ++ chunk)) as Hs. rewrite He in Hs.
      destruct Hs as (t & part & Hbs & Ht & Hv & Hp). cbn in Hv, Hp |- *. unfold promised.
      rewrite app_assoc, Hbs, <- app_assoc, from_utf8_encode by done.
      rewrite (invalid_app _ _ _ Hp). cbn. exists v. split; [lia|done].
Qed.

End Stream.

(** [from_utf8] accepts exactly the encodings of texts. *)
Lemma from_utf8_exact bs t : from_utf8 bs = Ok t <-> bs = encode t /\ Forall is_scalar t.
Proof.
  split.
  - intros E. pose proof (from_utf8_spec bs) as Hs. by rewrite E in Hs.
  - intros [-> Ht]. rewrite <- (app_nil_r (encode t)), from_utf8_encode by done. cbn. by rewrite app_nil_r.
Qed.

(** A rejected chunk leaves no trace: the next one meets the parser as it was. *)
Lemma rejected_chunk_rolled_back {P T} `{CutIndependent P T ok} (p q : Utf8StreamParser P) chunk e :
  ok (inner p) -> push_bytes p chunk = (q, Err e) -> q = p.
Proof.
  intros Hok E. pose proof (push_bytes_spec p chunk Hok) as Hs. rewrite E in Hs. by inversion Hs.
Qed.

(** However bytes are cut into chunks, also inside characters, the stream gives
    what the inner parser gives on the text they encode, when they encode one; else
    it fails, with the length of the first sequence that is no character, or as
    incomplete when the bytes end inside a character. *)
Theorem byte_stream_exact {P T} `{CutIndependent P T ok} i chunks :
  ok i ->
  (forall text, from_utf8 (concat chunks) = Ok text <-> concat chunks = encode text /\ Forall is_scalar text)
  /\ match from_utf8 (concat chunks) with
     | Ok text => collect_bytes (utf8_new i) chunks = Ok (collect i [text])
     | Err e =>
         match error_len e with
         | Some n => exists v, v <= valid_up_to e /\ collect_bytes (utf8_new i) chunks = Err (InvalidUtf8 v n)
         | None => collect_bytes (utf8_new i) chunks = Err IncompleteUtf8AtEof
         end
     | _ => False
     end.
Proof.
  intros Hok. split; [intros text; apply from_utf8_exact|].
  pose proof (stream_promised chunks (utf8_new i) Hok (or_introl eq_refl)) as Hs.
  unfold promised in Hs. cbn [utf8_new inner pending_utf8 app] in Hs.
  destruct (from_utf8 (concat chunks)) as [text|e| |]; [|done..].
  unfold collect. cbn [push_all]. destruct (push_str i text) as [i' o]. by rewrite (right_id empty_chunk chunk_app).
Qed.

Lemma byte_stream_exact_witness :
  let chunks := [[65; 195]%N; [169%N] ++ CITATION_OPEN ++ [228%N]; [184; 173]%N ++ CITATION_CLOSE ++ L"Z"] in
  ready citation_new /\ collect_bytes (utf8_new citation_new) chunks = Ok (mkChunk [65; 233; 90]%N [[20013%N]]).
Proof.
  intros chunks. split; [apply citation_new_ready|].
  destruct (byte_stream_exact (P := CitationStreamParser) citation_new chunks citation_new_ready) as [_ Hm].
  exact Hm.
Defined.
