(* ===== verification/SandboxPaths.v ===== *)
(** * The file system as permissions see it (utils/absolute-path/src/lib.rs)

    Paths are lists of components, and what the code asks the operating system
    about them is an argument: the home, current and temporary directories, the
    kind of a file, canonical paths, the text of a file, and the compiler of
    globs.  On top, the canonicalisation that keeps symbolic links. *)

From S2P Require Import Prelude RustStr AbsolutePath.

Abbreviation Path := (list Component) (only parsing).

Record Env := mkEnv {
  home_dir : option str;
  current_dir : option str;
  tmpdir_var : option str;
  is_dir : list Component -> bool;
  is_file : list Component -> bool;
  path_exists : list Component -> bool;
  is_symlink : list Component -> option bool;
  canonicalize : list Component -> option (list Component);
  read_to_string : list Component -> option str;
  build_glob_matcher : str -> option (list Component -> bool) }.

(** [Path::starts_with], [strip_prefix] and [ancestors]. *)
Definition path_starts_with (p base : Path) : bool := bool_decide (base `prefix_of` p).
Definition path_strip_prefix (p base : Path) : option (list Component) :=
  if path_starts_with p base then Some (drop (length base) p) else None.
Definition path_is_absolute (p : Path) : bool := bool_decide (head p = Some RootDir).
Definition ancestors (p : Path) : list (list Component) :=
  (fun n => take n p) <$>
    reverse (if path_is_absolute p then seq 1 (length p) else seq 0 (S (length p))).

(** The order of paths: by components. *)
Definition component_rank (c : Component) : nat * str :=
  match c with RootDir => (0, []) | CurDir => (1, []) | ParentDir => (2, []) | Normal s => (3, s) end.
Definition component_compare (a b : Component) : comparison :=
  match Nat.compare (fst (component_rank a)) (fst (component_rank b)) with
  | Eq => lex_compare N.compare (snd (component_rank a)) (snd (component_rank b))
  | c => c
  end.
Definition path_compare : Path -> Path -> comparison := lex_compare component_compare.
Definition str_compare : str -> str -> comparison := lex_compare N.compare.

#[export] Instance component_compare_total : TotalCompare component_compare.
Proof.
  assert (forall a b, component_compare a b
    = lex_compare N.compare (N.of_nat (component_rank a).1 :: (component_rank a).2)
        (N.of_nat (component_rank b).1 :: (component_rank b).2)) as H.
  { intros a b. unfold component_compare. cbn [lex_compare]. by destruct a, b. }
  split.
  - intros a b. rewrite H, compare_eq. by destruct a, b; naive_solver.
  - intros a b. rewrite !H. apply compare_flip.
  - intros a b c. rewrite !H. apply compare_trans.
Qed.
#[export] Instance path_compare_total : TotalCompare path_compare.
Proof. unfold path_compare. apply _. Qed.

Section Paths.
Context (env : Env).

(** [AbsolutePathBuf::from_absolute_path] and [join]. *)
Definition absolute (p : Path) : option AbsolutePathBuf :=
  from_absolute_path (home_dir env) (current_dir env) (display p).
Definition resolve_against (text : str) (base : Path) : AbsolutePathBuf :=
  resolve_path_against_base (home_dir env) text (display base).
Definition abs_join (base : AbsolutePathBuf) (p : Path) : AbsolutePathBuf :=
  resolve_against (display p) base.

(** [Path::join] of a relative suffix. *)
Definition path_append (base suffix : Path) : list Component :=
  if path_is_absolute suffix then suffix else base ++ suffix.

Definition should_preserve_logical_path (logical : Path) : bool :=
  existsb (fun ancestor =>
    match is_symlink env ancestor with
    | None => false
    | Some symlink =>
        symlink && match path_parent ancestor with
                   | Some parent => negb (is_none (path_parent parent))
                   | None => false
                   end
    end) (ancestors logical).

Definition canonicalize_preserving_symlinks (path : Path) : option (list Component) :=
  logical ← absolute path;
  let preserve_logical_path := should_preserve_logical_path logical in
  Some (match canonicalize env path with
        | Some canonical =>
            if preserve_logical_path && negb (bool_decide (canonical = logical)) then logical else canonical
        | None => logical
        end).

Definition canonicalize_existing_preserving_symlinks (path : Path) : option (list Component) :=
  logical ← absolute path;
  canonical ← canonicalize env path;
  Some (if should_preserve_logical_path logical && negb (bool_decide (canonical = logical))
        then logical else canonical).

(** The path with its longest existing ancestor made canonical. *)
Fixpoint normalize_ancestors (path : Path) (ancestors : list (list Component)) : list Component :=
  match ancestors with
  | [] => path
  | ancestor :: rest =>
      match is_symlink env ancestor, canonicalize_preserving_symlinks ancestor,
            path_strip_prefix path ancestor with
      | Some _, Some normalized_ancestor, Some suffix =>
          match absolute (path_append normalized_ancestor suffix) with
          | Some normalized_path => normalized_path
          | None => normalize_ancestors path rest
          end
      | _, _, _ => normalize_ancestors path rest
      end
  end.
Definition normalize_effective_absolute_path (path : AbsolutePathBuf) : AbsolutePathBuf :=
  normalize_ancestors path (ancestors path).

(** Keep the first of equal paths. *)
Fixpoint dedup_from (seen : list (list Component)) (paths : list (list Component)) : list (list Component) :=
  match paths with
  | [] => []
  | path :: rest =>
      if bool_decide (path ∈ seen) then dedup_from seen rest
      else path :: dedup_from (path :: seen) rest
  end.
Definition dedup_absolute_paths (paths : list AbsolutePathBuf) (normalize_effective_paths : bool)
  : list AbsolutePathBuf :=
  dedup_from [] (if normalize_effective_paths then normalize_effective_absolute_path <$> paths else paths).

Definition push_unique (candidates : list (list Component)) (candidate : Path) : list (list Component) :=
  if bool_decide (candidate ∈ candidates) then candidates else candidates ++ [candidate].

Definition normalized_and_canonical_candidates (path : Path) : list (list Component) :=
  let candidates := push_unique [] (default path (absolute path)) in
  match canonical ← canonicalize env path; absolute canonical with
  | Some canonical_absolute => push_unique candidates canonical_absolute
  | None => candidates
  end.

Definition absolute_root_path_for_cwd (cwd : AbsolutePathBuf) : option AbsolutePathBuf :=
  root ← last (ancestors cwd); absolute root.

End Paths.
