(* ===== verification/Permissions.v ===== *)
(** * File system permissions (protocol/src/permissions.rs, protocol.rs)

    A sandbox policy is a list of entries, each a path with an access mode.  The
    file models how a policy decides on a path, the roots handed to the sandbox of
    the operating system, the older [SandboxPolicy] and the translations between
    the two. *)

From S2P Require Import Prelude RustStr AbsolutePath SandboxPaths.

(** ** Data *)

Inductive NetworkSandboxPolicy := NetRestricted | NetEnabled.
Definition net_is_enabled (n : NetworkSandboxPolicy) : bool :=
  match n with NetEnabled => true | NetRestricted => false end.

(** Ordered by the precedence of conflicts: [None] beats [Write] beats [Read]. *)
Inductive FileSystemAccessMode := AccessRead | AccessWrite | AccessNone.
Definition access_rank (a : FileSystemAccessMode) : nat :=
  match a with AccessRead => 0 | AccessWrite => 1 | AccessNone => 2 end.
Definition can_read (a : FileSystemAccessMode) : bool :=
  match a with AccessNone => false | _ => true end.
Definition can_write (a : FileSystemAccessMode) : bool :=
  match a with AccessWrite => true | _ => false end.

Inductive FileSystemSpecialPath :=
| Root
| Minimal
| ProjectRoots (subpath : option (list Component))
| Tmpdir
| SlashTmp
| Unknown (path : str) (subpath : option (list Component)).

Inductive FileSystemPath :=
| PathEntry (path : AbsolutePathBuf)
| GlobPattern (pattern : str)
| Special (value : FileSystemSpecialPath).

Record FileSystemSandboxEntry := mkEntry { entry_path : FileSystemPath; access : FileSystemAccessMode }.

Inductive FileSystemSandboxKind := KindRestricted | KindUnrestricted | KindExternalSandbox.

Record FileSystemSandboxPolicy := mkFsPolicy {
  fs_kind : FileSystemSandboxKind;
  glob_scan_max_depth : option nat;
  entries : list FileSystemSandboxEntry }.

Record ResolvedFileSystemEntry := mkResolved {
  resolved_path : AbsolutePathBuf;
  resolved_access : FileSystemAccessMode }.

#[export] Instance NetworkSandboxPolicy_eq_dec : EqDecision NetworkSandboxPolicy.
Proof. solve_decision. Defined.
#[export] Instance FileSystemAccessMode_eq_dec : EqDecision FileSystemAccessMode.
Proof. solve_decision. Defined.
#[export] Instance FileSystemSpecialPath_eq_dec : EqDecision FileSystemSpecialPath.
Proof. solve_decision. Defined.
#[export] Instance FileSystemPath_eq_dec : EqDecision FileSystemPath.
Proof. solve_decision. Defined.
#[export] Instance FileSystemSandboxEntry_eq_dec : EqDecision FileSystemSandboxEntry.
Proof. solve_decision. Defined.
#[export] Instance FileSystemSandboxKind_eq_dec : EqDecision FileSystemSandboxKind.
Proof. solve_decision. Defined.
#[export] Instance ResolvedFileSystemEntry_eq_dec : EqDecision ResolvedFileSystemEntry.
Proof. solve_decision. Defined.
#[export] Instance FileSystemSandboxPolicy_eq_dec : EqDecision FileSystemSandboxPolicy.
Proof. solve_decision. Defined.

Definition is_restricted (p : FileSystemSandboxPolicy) : bool :=
  bool_decide (fs_kind p = KindRestricted).

(** The older policies (protocol.rs). *)
Inductive NetworkAccess := NetworkAccessRestricted | NetworkAccessEnabled.
Inductive SandboxPolicy :=
| DangerFullAccess
| ReadOnly (network_access : bool)
| ExternalSandbox (network_access : NetworkAccess)
| WorkspaceWrite (writable_roots : list AbsolutePathBuf) (network_access : bool)
    (exclude_tmpdir_env_var exclude_slash_tmp : bool).

Record WritableRoot := mkWritableRoot {
  root : AbsolutePathBuf;
  read_only_subpaths : list AbsolutePathBuf;
  protected_metadata_names : list str }.

#[export] Instance NetworkAccess_eq_dec : EqDecision NetworkAccess.
Proof. solve_decision. Defined.
#[export] Instance SandboxPolicy_eq_dec : EqDecision SandboxPolicy.
Proof. solve_decision. Defined.
#[export] Instance WritableRoot_eq_dec : EqDecision WritableRoot.
Proof. solve_decision. Defined.

(** ** Writable roots (protocol.rs) *)

Definition path_contains_protected_metadata_name (r : WritableRoot) (path : Path) : bool :=
  match path_strip_prefix path (root r) with
  | Some (c :: _) => bool_decide (component_text c ∈ protected_metadata_names r)
  | _ => false
  end.

Definition is_path_writable (r : WritableRoot) (path : Path) : bool :=
  if negb (path_starts_with path (root r)) then false
  else if existsb (path_starts_with path) (read_only_subpaths r) then false
  else negb (path_contains_protected_metadata_name r path).

(** ** Names of protected metadata *)

Definition GIT : str := L".git".
Definition AGENTS : str := L".agents".
Definition CODEX : str := L".codex".
Definition PROTECTED_METADATA_PATH_NAMES : list str := [GIT; AGENTS; CODEX].

Definition is_protected_metadata_name (name : str) : bool :=
  bool_decide (name ∈ PROTECTED_METADATA_PATH_NAMES).
Definition is_protected_metadata_directory_name (name : str) : bool :=
  bool_decide (name = AGENTS) || bool_decide (name = CODEX).
Definition metadata_path_name (name : str) : option str :=
  if is_protected_metadata_name name then Some name else None.

(** ** Building policies *)

Definition unrestricted : FileSystemSandboxPolicy := mkFsPolicy KindUnrestricted None [].
Definition external_sandbox : FileSystemSandboxPolicy := mkFsPolicy KindExternalSandbox None [].
Definition restricted (entries : list FileSystemSandboxEntry) : FileSystemSandboxPolicy :=
  mkFsPolicy KindRestricted None entries.
Definition fs_default : FileSystemSandboxPolicy := restricted [mkEntry (Special Root) AccessRead].

Definition has_root_access (p : FileSystemSandboxPolicy) (predicate : FileSystemAccessMode -> bool) : bool :=
  is_restricted p && existsb (fun e => bool_decide (entry_path e = Special Root) && predicate (access e)) (entries p).

Definition has_denied_read_restrictions (p : FileSystemSandboxPolicy) : bool :=
  is_restricted p && existsb (fun e => bool_decide (access e = AccessNone)) (entries p).

(** Add the entries of [from] that deny reading and are not there yet. *)
Definition push_missing (es : list FileSystemSandboxEntry) (e : FileSystemSandboxEntry) : list FileSystemSandboxEntry :=
  if bool_decide (e ∈ es) then es else es ++ [e].
Definition add_deny_entries (es from : list FileSystemSandboxEntry) : list FileSystemSandboxEntry :=
  foldl push_missing es (filter (fun e => access e = AccessNone) from).

Definition preserve_deny_read_restrictions_from (p existing : FileSystemSandboxPolicy) : FileSystemSandboxPolicy :=
  let has_deny_read_entries := existsb (fun e => bool_decide (access e = AccessNone)) (entries existing) in
  let p := if bool_decide (fs_kind p = KindUnrestricted) && has_deny_read_entries
           then restricted [mkEntry (Special Root) AccessWrite] else p in
  if negb (is_restricted p) then p
  else mkFsPolicy (fs_kind p)
         (match glob_scan_max_depth p with None => glob_scan_max_depth existing | d => d end)
         (add_deny_entries (entries p) (entries existing)).

Definition special_paths_share_target (l r : FileSystemSpecialPath) : bool := bool_decide (l = r).

Definition special_path_matches_absolute_path (value : FileSystemSpecialPath) (path : AbsolutePathBuf) : bool :=
  match value with
  | Root => is_none (path_parent path)
  | SlashTmp => bool_decide (path = [RootDir; Normal (L"tmp")])
  | _ => false
  end.

Definition file_system_paths_share_target (l r : FileSystemPath) : bool :=
  match l, r with
  | PathEntry l, PathEntry r => bool_decide (l = r)
  | Special l, Special r => special_paths_share_target l r
  | PathEntry path, Special value | Special value, PathEntry path =>
      special_path_matches_absolute_path value path
  | GlobPattern l, GlobPattern r => bool_decide (l = r)
  | GlobPattern _, _ | _, GlobPattern _ => false
  end.

Definition has_same_target_write_override (p : FileSystemSandboxPolicy) (e : FileSystemSandboxEntry) : bool :=
  existsb (fun candidate =>
    can_write (access candidate)
    && (access_rank (access e) <? access_rank (access candidate))
    && file_system_paths_share_target (entry_path candidate) (entry_path e)) (entries p).

Definition narrows_write (p : FileSystemSandboxPolicy) (e : FileSystemSandboxEntry) : bool :=
  if can_write (access e) then false else
  match entry_path e with
  | PathEntry _ => negb (has_same_target_write_override p e)
  | GlobPattern _ => true
  | Special Root => bool_decide (access e = AccessNone)
  | Special Minimal | Special (Unknown _ _) => false
  | Special _ => negb (has_same_target_write_override p e)
  end.

Definition has_write_narrowing_entries (p : FileSystemSandboxPolicy) : bool :=
  is_restricted p && existsb (narrows_write p) (entries p).

Definition has_full_disk_read_access (p : FileSystemSandboxPolicy) : bool :=
  match fs_kind p with
  | KindUnrestricted | KindExternalSandbox => true
  | KindRestricted => has_root_access p can_read && negb (has_denied_read_restrictions p)
  end.

Definition has_full_disk_write_access (p : FileSystemSandboxPolicy) : bool :=
  match fs_kind p with
  | KindUnrestricted | KindExternalSandbox => true
  | KindRestricted => has_root_access p can_write && negb (has_write_narrowing_entries p)
  end.

Definition include_platform_defaults (p : FileSystemSandboxPolicy) : bool :=
  negb (has_full_disk_read_access p) && is_restricted p
  && existsb (fun e => bool_decide (entry_path e = Special Minimal) && can_read (access e)) (entries p).

Definition append_default_read_only_entry_if_no_explicit_rule (es : list FileSystemSandboxEntry)
    (path : FileSystemPath) : list FileSystemSandboxEntry :=
  if existsb (fun e => file_system_paths_share_target (entry_path e) path) es then es
  else es ++ [mkEntry path AccessRead].
Definition append_default_read_only_path_if_no_explicit_rule (es : list FileSystemSandboxEntry)
    (path : AbsolutePathBuf) : list FileSystemSandboxEntry :=
  append_default_read_only_entry_if_no_explicit_rule es (PathEntry path).
Definition append_default_read_only_project_root_subpath_if_no_explicit_rule
    (es : list FileSystemSandboxEntry) (subpath : str) : list FileSystemSandboxEntry :=
  append_default_read_only_entry_if_no_explicit_rule es (Special (ProjectRoots (Some [Normal subpath]))).

Definition network_access_is_enabled (n : NetworkAccess) : bool :=
  match n with NetworkAccessEnabled => true | NetworkAccessRestricted => false end.

Definition legacy_has_full_disk_write_access (p : SandboxPolicy) : bool :=
  match p with
  | DangerFullAccess | ExternalSandbox _ => true
  | ReadOnly _ | WorkspaceWrite _ _ _ _ => false
  end.

Definition has_full_network_access (p : SandboxPolicy) : bool :=
  match p with
  | DangerFullAccess => true
  | ExternalSandbox network_access => network_access_is_enabled network_access
  | ReadOnly network_access => network_access
  | WorkspaceWrite _ network_access _ _ => network_access
  end.

Definition network_policy_from (p : SandboxPolicy) : NetworkSandboxPolicy :=
  if has_full_network_access p then NetEnabled else NetRestricted.

(** [Iterator::max_by_key]: the last of the greatest. *)
Definition max_by_key {A} (le : A -> A -> bool) (l : list A) : option A :=
  foldl (fun best x => match best with
                       | None => Some x
                       | Some y => if le y x then Some x else best
                       end) None l.

Section Resolution.
Context (env : Env).

(** ** Resolving entries *)

Definition resolve_file_system_special_path (value : FileSystemSpecialPath) (cwd : option AbsolutePathBuf)
  : option AbsolutePathBuf :=
  match value with
  | Root | Minimal | Unknown _ _ => None
  | ProjectRoots subpath =>
      cwd ← cwd;
      Some (match subpath with Some subpath => abs_join env cwd subpath | None => cwd end)
  | Tmpdir =>
      tmpdir ← tmpdir_var env;
      if is_nil tmpdir then None else from_absolute_path (home_dir env) (current_dir env) tmpdir
  | SlashTmp =>
      slash_tmp ← absolute env [RootDir; Normal (L"tmp")];
      if is_dir env slash_tmp then Some slash_tmp else None
  end.

Definition resolve_file_system_path (path : FileSystemPath) (cwd : option AbsolutePathBuf)
  : option AbsolutePathBuf :=
  match path with
  | PathEntry path => Some path
  | GlobPattern _ => None
  | Special value => resolve_file_system_special_path value cwd
  end.

Definition resolve_entry_path (path : FileSystemPath) (cwd : option AbsolutePathBuf) : option AbsolutePathBuf :=
  match path with
  | Special Root => cwd ← cwd; absolute_root_path_for_cwd env cwd
  | _ => resolve_file_system_path path cwd
  end.

Definition resolve_candidate_path (path cwd : Path) : option AbsolutePathBuf :=
  if path_is_absolute path then absolute env path
  else cwd ← absolute env cwd; Some (abs_join env cwd path).

Definition resolved_entries_with_cwd (p : FileSystemSandboxPolicy) (cwd : Path) : list ResolvedFileSystemEntry :=
  let cwd_absolute := absolute env cwd in
  omap (fun e => (fun path => mkResolved path (access e)) <$> resolve_entry_path (entry_path e) cwd_absolute)
    (entries p).

(** ** Access to a path *)

Definition resolved_entry_precedence_le (a b : ResolvedFileSystemEntry) : bool :=
  let specificity e := length (resolved_path e) in
  (specificity a <? specificity b)
  || (specificity a =? specificity b) && (access_rank (resolved_access a) <=? access_rank (resolved_access b)).

Definition resolve_access_with_cwd (p : FileSystemSandboxPolicy) (path cwd : Path) : FileSystemAccessMode :=
  match fs_kind p with
  | KindUnrestricted | KindExternalSandbox => AccessWrite
  | KindRestricted =>
      match resolve_candidate_path path cwd with
      | None => AccessNone
      | Some path =>
          match max_by_key resolved_entry_precedence_le
                  (filter (fun e => path_starts_with path (resolved_path e) = true)
                     (resolved_entries_with_cwd p cwd)) with
          | Some e => resolved_access e
          | None => AccessNone
          end
      end
  end.

Definition can_read_path_with_cwd (p : FileSystemSandboxPolicy) (path cwd : Path) : bool :=
  can_read (resolve_access_with_cwd p path cwd).

Definition metadata_child (target : Path) (e : ResolvedFileSystemEntry) : option (AbsolutePathBuf * str) :=
  relative_path ← path_strip_prefix target (resolved_path e);
  first_component ← head relative_path;
  metadata_name ← metadata_path_name (component_text first_component);
  Some (abs_join env (resolved_path e) [Normal metadata_name], metadata_name).

Definition metadata_child_of_writable_root (p : FileSystemSandboxPolicy) (target cwd : Path)
  : option (AbsolutePathBuf * str) :=
  head (omap (metadata_child target)
    (filter (fun e => can_write (resolved_access e) = true) (resolved_entries_with_cwd p cwd))).

Definition has_explicit_write_entry_for_metadata_path (p : FileSystemSandboxPolicy)
    (protected_metadata_path : AbsolutePathBuf) (target cwd : Path) : bool :=
  existsb (fun e =>
    can_write (resolved_access e) && path_starts_with target (resolved_path e)
    && path_starts_with (resolved_path e) protected_metadata_path) (resolved_entries_with_cwd p cwd).

Definition is_metadata_write_denied (p : FileSystemSandboxPolicy) (path cwd : Path) : bool :=
  if negb (is_restricted p) then false else
  match resolve_candidate_path path cwd with
  | None => true
  | Some target =>
      match metadata_child_of_writable_root p target cwd with
      | None => false
      | Some (protected_metadata_path, _) =>
          negb (has_explicit_write_entry_for_metadata_path p protected_metadata_path target cwd)
      end
  end.

Definition can_write_path_with_cwd (p : FileSystemSandboxPolicy) (path cwd : Path) : bool :=
  if negb (can_write (resolve_access_with_cwd p path cwd)) then false
  else if has_full_disk_write_access p then true
  else negb (is_metadata_write_denied p path cwd).

Definition forbidden_agent_metadata_write (path cwd : Path) (p : FileSystemSandboxPolicy) : option str :=
  if negb (is_restricted p) then None else
  target ← resolve_candidate_path path cwd;
  '(protected_metadata_path, metadata_name) ← metadata_child_of_writable_root p target cwd;
  if has_explicit_write_entry_for_metadata_path p protected_metadata_path target cwd then None
  else if negb (can_write_path_with_cwd p target cwd) then Some metadata_name else None.

(** ** Default protection of a writable root *)

Definition is_git_pointer_file (path : AbsolutePathBuf) : bool :=
  is_file env path && bool_decide (file_name path = Some GIT).

Definition resolve_gitdir_from_file (dot_git : AbsolutePathBuf) : option AbsolutePathBuf :=
  contents ← read_to_string env dot_git;
  '(prefix, gitdir_raw) ← split_once 58%N (trim contents);
  if negb (bool_decide (trim prefix = L"gitdir")) then None else
  let gitdir_raw := trim gitdir_raw in
  if is_nil gitdir_raw then None else
  base ← path_parent dot_git;
  let gitdir_path := resolve_against env gitdir_raw base in
  if path_exists env gitdir_path then Some gitdir_path else None.

Definition default_read_only_subpaths_for_writable_root (writable_root : AbsolutePathBuf)
    (protect_missing_dot_codex : bool) : list AbsolutePathBuf :=
  let top_level_git := abs_join env writable_root [Normal GIT] in
  let top_level_git_is_file := is_file env top_level_git in
  let top_level_git_is_dir := is_dir env top_level_git in
  let gitdir := if top_level_git_is_file && is_git_pointer_file top_level_git
                then resolve_gitdir_from_file top_level_git else None in
  let git := if top_level_git_is_dir || top_level_git_is_file then option_list gitdir ++ [top_level_git] else [] in
  let top_level_agents := abs_join env writable_root [Normal AGENTS] in
  let agents := if is_dir env top_level_agents then [top_level_agents] else [] in
  let top_level_codex := abs_join env writable_root [Normal CODEX] in
  let codex := if protect_missing_dot_codex || is_dir env top_level_codex then [top_level_codex] else [] in
  dedup_absolute_paths env (git ++ agents ++ codex) false.

Definition protect_root (es : list FileSystemSandboxEntry) (writable_root : AbsolutePathBuf)
    (protect_missing_dot_codex : bool) : list FileSystemSandboxEntry :=
  foldl append_default_read_only_path_if_no_explicit_rule es
    (default_read_only_subpaths_for_writable_root writable_root protect_missing_dot_codex).

Definition protect_roots (es : list FileSystemSandboxEntry) (writable_roots : list AbsolutePathBuf)
  : list FileSystemSandboxEntry :=
  foldl (fun es writable_root => protect_root es writable_root false) es writable_roots.

(** The entries [workspace_write] and the legacy runtime start from. *)
Definition workspace_entries (writable_roots : list AbsolutePathBuf)
    (exclude_tmpdir_env_var exclude_slash_tmp : bool) : list FileSystemSandboxEntry :=
  [mkEntry (Special Root) AccessRead; mkEntry (Special (ProjectRoots None)) AccessWrite]
  ++ (if exclude_slash_tmp then [] else [mkEntry (Special SlashTmp) AccessWrite])
  ++ (if exclude_tmpdir_env_var then [] else [mkEntry (Special Tmpdir) AccessWrite])
  ++ ((fun path => mkEntry (PathEntry path) AccessWrite) <$> writable_roots).

Definition workspace_write (writable_roots : list AbsolutePathBuf)
    (exclude_tmpdir_env_var exclude_slash_tmp : bool) : FileSystemSandboxPolicy :=
  let es := workspace_entries writable_roots exclude_tmpdir_env_var exclude_slash_tmp in
  let es := append_default_read_only_project_root_subpath_if_no_explicit_rule es GIT in
  let es := append_default_read_only_project_root_subpath_if_no_explicit_rule es AGENTS in
  let es := append_default_read_only_project_root_subpath_if_no_explicit_rule es CODEX in
  restricted (protect_roots es writable_roots).

(** [impl From<&SandboxPolicy> for FileSystemSandboxPolicy] *)
Definition fs_policy_from (p : SandboxPolicy) : FileSystemSandboxPolicy :=
  match p with
  | DangerFullAccess => unrestricted
  | ExternalSandbox _ => external_sandbox
  | ReadOnly _ => restricted [mkEntry (Special Root) AccessRead]
  | WorkspaceWrite writable_roots _ exclude_tmpdir_env_var exclude_slash_tmp =>
      workspace_write writable_roots exclude_tmpdir_env_var exclude_slash_tmp
  end.

Definition from_legacy_sandbox_policy_for_cwd (sandbox_policy : SandboxPolicy) (cwd : Path)
  : FileSystemSandboxPolicy :=
  let p := fs_policy_from sandbox_policy in
  match sandbox_policy with
  | WorkspaceWrite writable_roots _ _ _ =>
      let es := match absolute env cwd with
                | Some cwd_root => protect_root (entries p) cwd_root true
                | None => entries p
                end in
      mkFsPolicy (fs_kind p) (glob_scan_max_depth p) (protect_roots es writable_roots)
  | _ => p
  end.

Definition from_legacy_sandbox_policy_preserving_deny_entries (sandbox_policy : SandboxPolicy) (cwd : Path)
    (existing : FileSystemSandboxPolicy) : FileSystemSandboxPolicy :=
  let rebuilt := from_legacy_sandbox_policy_for_cwd sandbox_policy cwd in
  if negb (is_restricted rebuilt) then rebuilt
  else mkFsPolicy (fs_kind rebuilt) (glob_scan_max_depth existing)
         (add_deny_entries (entries rebuilt) (entries existing)).

Definition legacy_runtime_file_system_policy_for_cwd (sandbox_policy : SandboxPolicy) (cwd : Path)
  : FileSystemSandboxPolicy :=
  match sandbox_policy with
  | WorkspaceWrite writable_roots _ exclude_tmpdir_env_var exclude_slash_tmp =>
      let es := workspace_entries writable_roots exclude_tmpdir_env_var exclude_slash_tmp in
      let es := match absolute env cwd with Some cwd_root => protect_root es cwd_root true | None => es end in
      restricted (protect_roots es writable_roots)
  | _ => fs_policy_from sandbox_policy
  end.

(** ** Changing a policy *)

Definition materialize_entry (cwd : option AbsolutePathBuf) (e : FileSystemSandboxEntry) : FileSystemSandboxEntry :=
  match entry_path e with
  | Special (ProjectRoots _) =>
      match resolve_file_system_path (entry_path e) cwd with
      | Some path => mkEntry (PathEntry path) (access e)
      | None => e
      end
  | _ => e
  end.
Definition materialize_project_roots_with_cwd (p : FileSystemSandboxPolicy) (cwd : Path) : FileSystemSandboxPolicy :=
  mkFsPolicy (fs_kind p) (glob_scan_max_depth p) (materialize_entry (absolute env cwd) <$> entries p).

Definition push_entry (p : FileSystemSandboxPolicy) (e : FileSystemSandboxEntry) : FileSystemSandboxPolicy :=
  mkFsPolicy (fs_kind p) (glob_scan_max_depth p) (entries p ++ [e]).

Definition with_additional_readable_roots (p : FileSystemSandboxPolicy) (cwd : Path)
    (additional_readable_roots : list AbsolutePathBuf) : FileSystemSandboxPolicy :=
  if has_full_disk_read_access p then p else
  foldl (fun p path =>
    if can_read_path_with_cwd p path cwd then p else push_entry p (mkEntry (PathEntry path) AccessRead))
    p additional_readable_roots.

Definition with_additional_writable_roots (p : FileSystemSandboxPolicy) (cwd : Path)
    (additional_writable_roots : list AbsolutePathBuf) : FileSystemSandboxPolicy :=
  foldl (fun p path =>
    if can_write_path_with_cwd p path cwd then p else push_entry p (mkEntry (PathEntry path) AccessWrite))
    p additional_writable_roots.

Definition with_additional_legacy_workspace_writable_roots (p : FileSystemSandboxPolicy)
    (additional_writable_roots : list AbsolutePathBuf) : FileSystemSandboxPolicy :=
  if negb (is_restricted p) then p else
  foldl (fun p path =>
    let p := if existsb (fun e => bool_decide (e = mkEntry (PathEntry path) AccessWrite)) (entries p) then p
             else push_entry p (mkEntry (PathEntry path) AccessWrite) in
    mkFsPolicy (fs_kind p) (glob_scan_max_depth p) (protect_root (entries p) path false))
    p additional_writable_roots.

(** ** Roots for the sandbox *)

Definition get_readable_roots_with_cwd (p : FileSystemSandboxPolicy) (cwd : Path) : list AbsolutePathBuf :=
  if has_full_disk_read_access p then [] else
  dedup_absolute_paths env
    (resolved_path <$>
      filter (fun e => can_read_path_with_cwd p (resolved_path e) cwd = true)
        (filter (fun e => can_read (resolved_access e) = true) (resolved_entries_with_cwd p cwd)))
    true.

Definition protected_metadata_names_for_writable_root (p : FileSystemSandboxPolicy) (root : AbsolutePathBuf)
    (raw_writable_roots : list AbsolutePathBuf) (cwd : Path) : list str :=
  filter (fun metadata_name =>
    forallb (fun metadata_path => negb (can_write_path_with_cwd p metadata_path cwd))
      ((fun r => abs_join env r [Normal metadata_name]) <$> root :: raw_writable_roots) = true)
    PROTECTED_METADATA_PATH_NAMES.

Definition has_explicit_resolved_path_entry (es : list ResolvedFileSystemEntry) (path : AbsolutePathBuf) : bool :=
  existsb (fun e => bool_decide (resolved_path e = path)) es.

(** The path of an entry that is not writable, as a carve-out of [root]. *)
Definition raw_carveout_path (root : AbsolutePathBuf) (raw_writable_roots : list AbsolutePathBuf)
    (path : AbsolutePathBuf) : option AbsolutePathBuf :=
  if is_none (path_parent root) then None
  else if bool_decide (path = root) then None
  else if path_starts_with path root then Some path
  else head (omap (fun raw_root =>
    suffix ← path_strip_prefix path raw_root;
    if is_nil suffix then None else Some (abs_join env root suffix)) raw_writable_roots).

Definition carveout (root : AbsolutePathBuf) (raw_writable_roots : list AbsolutePathBuf)
    (path : AbsolutePathBuf) : option AbsolutePathBuf :=
  match raw_carveout_path root raw_writable_roots path with
  | Some raw_carveout_path => Some raw_carveout_path
  | None =>
      let effective_path := normalize_effective_absolute_path env path in
      if bool_decide (effective_path = root) || negb (path_starts_with effective_path root) then None
      else Some effective_path
  end.

Definition writable_root_for (p : FileSystemSandboxPolicy) (cwd : Path)
    (resolved_entries : list ResolvedFileSystemEntry) (writable_entries : list AbsolutePathBuf)
    (root : AbsolutePathBuf) : WritableRoot :=
  let raw_writable_roots :=
    filter (fun path => normalize_effective_absolute_path env path = root) writable_entries in
  let protect_missing_dot_codex :=
    match absolute env cwd with
    | Some cwd => bool_decide (normalize_effective_absolute_path env cwd = root)
    | None => false
    end in
  let defaults :=
    filter (fun path => has_explicit_resolved_path_entry resolved_entries path = false)
      (default_read_only_subpaths_for_writable_root root protect_missing_dot_codex) in
  let carveouts :=
    omap (fun e => carveout root raw_writable_roots (resolved_path e))
      (filter (fun e => can_write_path_with_cwd p (resolved_path e) cwd = false)
        (filter (fun e => can_write (resolved_access e) = false) resolved_entries)) in
  mkWritableRoot root (dedup_absolute_paths env (defaults ++ carveouts) false)
    (protected_metadata_names_for_writable_root p root raw_writable_roots cwd).

Definition get_writable_roots_with_cwd (p : FileSystemSandboxPolicy) (cwd : Path) : list WritableRoot :=
  if has_full_disk_write_access p then [] else
  let resolved_entries := resolved_entries_with_cwd p cwd in
  let writable_entries :=
    resolved_path <$>
      filter (fun e => can_write_path_with_cwd p (resolved_path e) cwd = true)
        (filter (fun e => can_write (resolved_access e) = true) resolved_entries) in
  writable_root_for p cwd resolved_entries writable_entries
    <$> dedup_absolute_paths env writable_entries true.

Definition get_unreadable_roots_with_cwd (p : FileSystemSandboxPolicy) (cwd : Path) : list AbsolutePathBuf :=
  if negb (is_restricted p) then [] else
  let root := cwd ← absolute env cwd; absolute_root_path_for_cwd env cwd in
  dedup_absolute_paths env
    (resolved_path <$>
      filter (fun e => root <> Some (resolved_path e))
        (filter (fun e => can_read_path_with_cwd p (resolved_path e) cwd = false)
          (filter (fun e => resolved_access e = AccessNone) (resolved_entries_with_cwd p cwd))))
    true.

Definition get_unreadable_globs_with_cwd (p : FileSystemSandboxPolicy) (cwd : Path) : list str :=
  if negb (is_restricted p) then [] else
  dedup (merge_sort (compare_le str_compare)
    (omap (fun e => match entry_path e with
                    | GlobPattern pattern => Some (display (resolve_against env pattern cwd))
                    | _ => None
                    end)
      (filter (fun e => access e = AccessNone) (entries p)))).

(** ** The matcher of denied reads *)

Record ReadDenyMatcher := mkReadDeny {
  denied_candidates : list (list (list Component));
  deny_read_matchers : list (list Component -> bool);
  invalid_pattern : bool }.

Definition read_deny_matcher_new (p : FileSystemSandboxPolicy) (cwd : Path) : option ReadDenyMatcher :=
  if negb (has_denied_read_restrictions p) then None else
  let matchers := build_glob_matcher env <$> get_unreadable_globs_with_cwd p cwd in
  Some (mkReadDeny
    (normalized_and_canonical_candidates env <$> get_unreadable_roots_with_cwd p cwd)
    (omap id matchers)
    (existsb is_none matchers)).

Definition is_read_denied (m : ReadDenyMatcher) (path : Path) : bool :=
  if invalid_pattern m then true else
  let path_candidates := normalized_and_canonical_candidates env path in
  existsb (fun denied => existsb (fun candidate => existsb (path_starts_with candidate) denied) path_candidates)
    (denied_candidates m)
  || existsb (fun matcher => existsb matcher path_candidates) (deny_read_matchers m).

End Resolution.
