(* ===== verification/PermissionSafety.v ===== *)
(** * What sandbox policies grant

    The entry that decides, the protection of metadata directories, and the
    agreement of the roots given to the operating system with the policy. *)

From S2P Require Import Prelude RustStr AbsolutePath SandboxPaths Permissions.

(** ** Well-formed paths *)

Definition abs_ok (p : Path) : Prop := absolute_normal p /\ Forall valid_component p.

#[export] Instance path_is_prefix_dec (p q : Path) : Decision (p `prefix_of` q) := _.

Lemma path_starts_with_spec p base : path_starts_with p base = true <-> base `prefix_of` p.
Proof. apply bool_decide_eq_true. Qed.

Lemma path_strip_prefix_spec p base suffix :
  path_strip_prefix p base = Some suffix <-> p = base ++ suffix.
Proof.
  unfold path_strip_prefix, path_starts_with. case_bool_decide as Hp.
  - destruct Hp as [k ->]. rewrite drop_app_length. split; [congruence|].
    intros E%app_inv_head. by subst.
  - split; [done|]. intros ->. destruct Hp. by exists suffix.
Qed.

Lemma expand_absolute home p : is_absolute p = true -> maybe_expand_home_directory home p = p.
Proof.
  intros Ha. unfold maybe_expand_home_directory. apply is_absolute_head in Ha.
  destruct p as [|c p]; [done|]. cbn in Ha. simplify_eq. by destruct home.
Qed.

Lemma absolute_ok env p : abs_ok p -> absolute env p = Some p.
Proof.
  intros [Ha Hv]. destruct (normalize_display p Ha Hv) as [Hd Hn].
  unfold absolute, from_absolute_path. by rewrite expand_absolute, Hd, Hn.
Qed.

Lemma abs_ok_is_absolute p : abs_ok p -> path_is_absolute p = true.
Proof. intros [[names ->] _]. done. Qed.

Lemma candidate_ok env p cwd : abs_ok p -> resolve_candidate_path env p cwd = Some p.
Proof. intros Hp. unfold resolve_candidate_path. by rewrite abs_ok_is_absolute, absolute_ok. Qed.

(** The current directory, if there is one, is absolute. *)
Definition env_ok (env : Env) : Prop := forall d, current_dir env = Some d -> is_absolute d = true.

Lemma from_absolute_ok env text p :
  env_ok env -> from_absolute_path (home_dir env) (current_dir env) text = Some p -> abs_ok p.
Proof.
  intros He. unfold from_absolute_path. case_match eqn:Ha.
  - intros [= <-]. split; [by apply normalize_path_absolute|apply normalize_path_valid].
  - case_match eqn:Hc; [|done]. intros [= <-].
    split; [by apply absolutize_from_absolute, He|apply normalize_path_valid].
Qed.

Lemma display_absolute p : abs_ok p -> is_absolute (display p) = true.
Proof. intros [Ha Hv]. by destruct (normalize_display p Ha Hv). Qed.

Lemma abs_join_ok env base p : abs_ok base -> abs_ok (abs_join env base p).
Proof.
  intros Hb. split; [by apply absolutize_from_absolute, display_absolute|apply normalize_path_valid].
Qed.

(** Joining a plain name appends it. *)
Definition plain_name (s : str) : Prop := valid_name s /\ head s <> Some TILDE /\ head s <> Some SLASH.

Lemma expand_plain home s : plain_name s -> maybe_expand_home_directory home s = s.
Proof.
  intros (_ & Ht & _). unfold maybe_expand_home_directory. destruct s as [|c s]; [by destruct home|].
  destruct (strip_prefix [TILDE] (c :: s)) as [rest|] eqn:E; [|by destruct home].
  unfold strip_prefix in E. destruct (TILDE =? c)%N eqn:Hc; [|done].
  apply N.eqb_eq in Hc. by subst.
Qed.

Lemma plain_relative s : plain_name s -> is_absolute s = false.
Proof.
  intros (_ & _ & Hs). apply not_true_iff_false. rewrite is_absolute_head. done.
Qed.

Lemma components_plain s : plain_name s -> components s = [Normal s].
Proof.
  intros Hs. unfold components. rewrite plain_relative by done. destruct Hs as ((Hn & Hsl & Hd & Hdd) & _).
  rewrite split_char_none by done. rewrite filter_cons_True by done. cbn. by rewrite component_of_name.
Qed.

Lemma abs_join_name env base s : abs_ok base -> plain_name s -> abs_join env base [Normal s] = base ++ [Normal s].
Proof.
  intros [Ha Hv] Hs. destruct (normalize_display base Ha Hv) as [Hd Hn].
  unfold abs_join, resolve_against, resolve_path_against_base.
  change (display [Normal s]) with s. rewrite expand_plain by done.
  unfold absolutize_from, path_with_base. rewrite plain_relative, normalize_join by (done || by apply plain_relative).
  by rewrite Hn, components_plain.
Qed.

Lemma metadata_plain n : n ∈ PROTECTED_METADATA_PATH_NAMES -> plain_name n.
Proof. each_element ltac:(repeat split; vm_compute; set_solver). Qed.

(** Every path of a policy is absolute and normalised. *)
Definition policy_paths_ok (p : FileSystemSandboxPolicy) : Prop :=
  Forall (fun e => match entry_path e with PathEntry path => abs_ok path | _ => True end) (entries p).

Lemma root_ok : abs_ok [RootDir].
Proof. split; [by exists []|by repeat constructor]. Qed.

Lemma root_of env cwd : abs_ok cwd -> absolute_root_path_for_cwd env cwd = Some [RootDir].
Proof.
  intros [[names ->] Hv]. unfold absolute_root_path_for_cwd, ancestors.
  change (path_is_absolute (RootDir :: (Normal <$> names))) with true. cbn iota. cbn [length seq]. rewrite reverse_cons, fmap_app, last_app. cbn [fmap list_fmap last].
  change (take 1 (RootDir :: (Normal <$> names))) with [RootDir].
  change (absolute env [RootDir] = Some [RootDir]). by rewrite absolute_ok by apply root_ok.
Qed.

Lemma root_of_ok env cwd r : abs_ok cwd -> absolute_root_path_for_cwd env cwd = Some r -> r = [RootDir].
Proof. intros Hc. rewrite (root_of env cwd Hc). congruence. Qed.

Lemma resolve_entry_ok env path cwd p :
  env_ok env -> (forall a, path = PathEntry a -> abs_ok a) -> (forall c, cwd = Some c -> abs_ok c) ->
  resolve_entry_path env path cwd = Some p -> abs_ok p.
Proof.
  intros He Hp Hc. destruct path as [a|g|[]]; cbn; try done.
  - intros [= <-]. by apply Hp.
  - destruct cwd as [cwd|]; [|done]. cbn. intros Hr. apply root_of_ok in Hr as ->; [|by apply Hc].
    apply root_ok.
  - destruct cwd as [cwd|]; [|done]. cbn. intros [= <-]. case_match; [apply abs_join_ok|]; by apply Hc.
  - destruct (tmpdir_var env) as [t|]; [|done]. cbn. case_match; [done|]. by apply from_absolute_ok.
  - destruct (absolute env _) as [t|] eqn:E; [|done]. cbn. case_match; [|done]. intros [= <-].
    by eapply from_absolute_ok.
Qed.

Section Policy.
Context (env : Env) (p : FileSystemSandboxPolicy) (cwd : Path).
Context (Henv : env_ok env) (Hpaths : policy_paths_ok p).

Abbreviation es := (resolved_entries_with_cwd env p cwd).

Lemma resolved_ok : Forall (fun e => abs_ok (resolved_path e)) es.
Proof.
  apply Forall_forall. intros r (e & He & Hr)%list_elem_of_omap.
  apply fmap_Some in Hr as (path & Hr & ->). cbn.
  eapply resolve_entry_ok; [done| | |exact Hr].
  - intros a Ha. unfold policy_paths_ok in Hpaths. rewrite Forall_forall in Hpaths.
    specialize (Hpaths e He). by rewrite Ha in Hpaths.
  - intros c. apply from_absolute_ok. done.
Qed.

Lemma entry_ok e : e ∈ es -> abs_ok (resolved_path e).
Proof. pose proof resolved_ok as H. rewrite Forall_forall in H. apply H. Qed.

End Policy.

(** ** The deciding entry *)

Lemma max_by_key_spec {A} (le : A -> A -> bool) (l : list A) :
  (forall x, le x x = true) -> (forall x y, le x y = true \/ le y x = true) ->
  (forall x y z, le x y = true -> le y z = true -> le x z = true) ->
  match max_by_key le l with
  | None => l = []
  | Some m => m ∈ l /\ forall x, x ∈ l -> le x m = true
  end.
Proof.
  intros Hr Ht Htr. unfold max_by_key. induction l as [|x l IH] using rev_ind; [done|].
  rewrite foldl_app. cbn. destruct (foldl _ None l) as [m|].
  - destruct IH as [Hm Hle]. destruct (le m x) eqn:E.
    + split; [set_solver|]. intros y [Hy|Hy%list_elem_of_singleton]%elem_of_app; [|by subst].
      apply (Htr _ m); [by apply Hle|done].
    + split; [set_solver|]. intros y [Hy|Hy%list_elem_of_singleton]%elem_of_app; [by apply Hle|].
      subst. destruct (Ht m x); [congruence|done].
  - subst. split; [set_solver|]. intros y Hy%list_elem_of_singleton. by subst.
Qed.

Lemma precedence_spec a b :
  resolved_entry_precedence_le a b = true <->
  length (resolved_path a) < length (resolved_path b)
  \/ length (resolved_path a) = length (resolved_path b)
     /\ access_rank (resolved_access a) <= access_rank (resolved_access b).
Proof. unfold resolved_entry_precedence_le. cbv zeta. lia. Qed.

Definition covers (e : ResolvedFileSystemEntry) (target : Path) : Prop := resolved_path e `prefix_of` target.

(** The entry of [es] that decides on [target]. *)
Record deciding (es : list ResolvedFileSystemEntry) (target : Path) (e : ResolvedFileSystemEntry) : Prop := {
  deciding_in : e ∈ es;
  deciding_covers : covers e target;
  deciding_most : forall e', e' ∈ es -> covers e' target ->
    resolved_path e' `prefix_of` resolved_path e
    /\ (resolved_path e' = resolved_path e ->
        access_rank (resolved_access e') <= access_rank (resolved_access e)) }.

Lemma prefix_shorter {A} (a b c : list A) :
  a `prefix_of` c -> b `prefix_of` c -> length a <= length b -> a `prefix_of` b.
Proof.
  intros [x ->] [y Hy] Hl. exists (take (length b - length a) x).
  transitivity (take (length b) (b ++ y)); [by rewrite take_app_length|]. by rewrite <- Hy, take_app_ge.
Qed.

Lemma access_decided env p path cwd target :
  fs_kind p = KindRestricted -> resolve_candidate_path env path cwd = Some target ->
  (exists e, deciding (resolved_entries_with_cwd env p cwd) target e
     /\ resolve_access_with_cwd env p path cwd = resolved_access e)
  \/ (forall e, e ∈ resolved_entries_with_cwd env p cwd -> ~ covers e target)
     /\ resolve_access_with_cwd env p path cwd = AccessNone.
Proof.
  intros Hk Ht. unfold resolve_access_with_cwd. rewrite Hk, Ht.
  set (l := filter _ _).
  assert (forall e, e ∈ l <-> covers e target /\ e ∈ resolved_entries_with_cwd env p cwd) as Hl.
  { intros e. unfold l. rewrite list_elem_of_filter, path_starts_with_spec. done. }
  pose proof (max_by_key_spec resolved_entry_precedence_le l) as Hm.
  destruct (max_by_key _ l) as [e|].
  - left. exists e. split; [|done]. destruct Hm as [Hin Hle].
    1-3: intros; rewrite !precedence_spec in *; lia.
    apply Hl in Hin as [Hcov Hin]. split; [done|done|]. intros e' He' Hc'.
    assert (resolved_entry_precedence_le e' e = true) as Hp by (apply Hle, Hl; done).
    apply precedence_spec in Hp. split; [eapply prefix_shorter; [done|done|lia]|].
    intros E. rewrite E in Hp. lia.
  - right. split; [|done]. intros e He Hc. assert (e ∈ l) as H by (by apply Hl).
    rewrite Hm in H; [by apply elem_of_nil in H|..]; intros; rewrite !precedence_spec in *; lia.
Qed.

Lemma deciding_unique es target e e' :
  deciding es target e -> deciding es target e' -> resolved_access e = resolved_access e'.
Proof.
  intros [I1 C1 M1] [I2 C2 M2]. destruct (M1 _ I2 C2) as [P1 R1], (M2 _ I1 C1) as [P2 R2].
  assert (resolved_path e' = resolved_path e) as E by (by apply (anti_symm prefix)).
  specialize (R1 E). specialize (R2 (eq_sym E)).
  destruct (resolved_access e), (resolved_access e'); cbn in *; done || lia.
Qed.

Lemma deciding_Permutation es es' target e : es ≡ₚ es' -> deciding es target e -> deciding es' target e.
Proof.
  intros Hp [H1 H2 H3]. split; [by rewrite <- Hp|done|]. intros e' He'. apply H3. by rewrite Hp.
Qed.

(** C19: The most specific entry decides.  The access to a path under a restricted
    policy is that of the entry with the longest path that covers it, with [None]
    before [Write] before [Read] where one path has several entries; without such an
    entry there is none.  The order of the entries does not matter. *)
Theorem access_by_most_specific_entry env p path cwd target :
  fs_kind p = KindRestricted -> resolve_candidate_path env path cwd = Some target ->
  let es := resolved_entries_with_cwd env p cwd in
  let a := resolve_access_with_cwd env p path cwd in
  ((exists e, deciding es target e) \/ forall e, e ∈ es -> ~ covers e target)
  /\ (forall e, deciding es target e -> a = resolved_access e)
  /\ ((forall e, e ∈ es -> ~ covers e target) -> a = AccessNone)
  /\ forall q, fs_kind q = fs_kind p -> entries q ≡ₚ entries p -> resolve_access_with_cwd env q path cwd = a.
Proof.
  intros Hk Ht es a.
  assert (forall e, deciding es target e -> a = resolved_access e) as Hd.
  { intros e He. destruct (access_decided env p path cwd target Hk Ht) as [(e' & He' & E)|[Hn _]].
    - unfold a. rewrite E. by eapply deciding_unique.
    - destruct (Hn e); [apply He|apply He]. }
  assert ((forall e, e ∈ es -> ~ covers e target) -> a = AccessNone) as Hnone.
  { intros Hn. destruct (access_decided env p path cwd target Hk Ht) as [(e' & [H1 H2 _] & _)|[_ E]]; [|done].
    by destruct (Hn e'). }
  split_and!; [|done|done|].
  - destruct (access_decided env p path cwd target Hk Ht) as [(e & He & _)|[Hn _]]; [left; by exists e|by right].
  - intros q Hkq Hq. assert (resolved_entries_with_cwd env q cwd ≡ₚ es) as Hes.
    { unfold es, resolved_entries_with_cwd. by rewrite Hq. }
    rewrite Hk in Hkq. destruct (access_decided env q path cwd target Hkq Ht) as [(e & He & ->)|[Hn ->]].
    + symmetry. apply Hd. by eapply deciding_Permutation.
    + symmetry. apply Hnone. intros e He. apply Hn. by rewrite Hes.
Qed.

(** ** Metadata *)

Definition writable (e : ResolvedFileSystemEntry) : Prop := resolved_access e = AccessWrite.

Lemma can_write_spec a : can_write a = true <-> a = AccessWrite.
Proof. by destruct a. Qed.

Lemma component_text_plain c n : plain_name n -> component_text c = n -> c = Normal n.
Proof.
  intros ((Hn & _ & Hd & Hdd) & _). destruct c; cbn; intros E; subst; done.
Qed.

Lemma metadata_child_spec env target e path name :
  abs_ok (resolved_path e) ->
  metadata_child env target e = Some (path, name) <->
  name ∈ PROTECTED_METADATA_PATH_NAMES /\ path = resolved_path e ++ [Normal name] /\ path `prefix_of` target.
Proof.
  intros Hok. unfold metadata_child, metadata_path_name, is_protected_metadata_name. split.
  - destruct (path_strip_prefix target (resolved_path e)) as [[|c rel]|] eqn:Es; try done. cbn.
    case_bool_decide as Hn; [|done]. cbn. intros [= <- <-]. apply path_strip_prefix_spec in Es.
    rewrite abs_join_name by (done || by apply metadata_plain). split_and!; [done|done|].
    rewrite Es, (component_text_plain c (component_text c)); [|by apply metadata_plain|done].
    exists rel. cbn. by rewrite <- app_assoc.
  - intros (Hn & -> & [k ->]). rewrite <- app_assoc.
    rewrite (proj2 (path_strip_prefix_spec _ _ ([Normal name] ++ k))) by done. cbn.
    rewrite bool_decide_eq_true_2 by done. cbn. by rewrite abs_join_name by (done || by apply metadata_plain).
Qed.

Section Metadata.
Context (env : Env) (p : FileSystemSandboxPolicy) (cwd : Path).
Context (Henv : env_ok env) (Hpaths : policy_paths_ok p).

Abbreviation es := (resolved_entries_with_cwd env p cwd).

(** [target] lies in (or is) the metadata directory [path] of a writable entry. *)
Definition in_metadata (path target : Path) : Prop :=
  exists w name, w ∈ es /\ writable w /\ name ∈ PROTECTED_METADATA_PATH_NAMES
    /\ path = resolved_path w ++ [Normal name] /\ path `prefix_of` target.

(** A writable entry between [path] and [target]. *)
Definition opened (path target : Path) : Prop :=
  exists e, e ∈ es /\ writable e /\ covers e target /\ path `prefix_of` resolved_path e.

Lemma explicit_spec path target :
  has_explicit_write_entry_for_metadata_path env p path target cwd = true <-> opened path target.
Proof.
  unfold has_explicit_write_entry_for_metadata_path, opened, writable, covers. rewrite existsb_exists.
  setoid_rewrite andb_true_iff. setoid_rewrite andb_true_iff.
  setoid_rewrite can_write_spec. setoid_rewrite path_starts_with_spec. setoid_rewrite <- list_elem_of_In.
  naive_solver.
Qed.

Lemma metadata_child_of_spec target :
  match metadata_child_of_writable_root env p target cwd with
  | Some (path, name) => in_metadata path target
  | None => forall path, ~ in_metadata path target
  end.
Proof.
  unfold metadata_child_of_writable_root.
  set (l := filter _ es).
  assert (forall e, e ∈ l <-> writable e /\ e ∈ es) as Hl.
  { intros e. unfold l. by rewrite list_elem_of_filter, can_write_spec. }
  destruct (omap (metadata_child env target) l) as [|[path name] rest] eqn:E; cbn.
  - intros path (w & name & Hw & Hwr & Hn & -> & Hp).
    assert ((resolved_path w ++ [Normal name], name) ∈ omap (metadata_child env target) l) as Hin.
    { apply list_elem_of_omap. exists w. split; [by apply Hl|]. apply metadata_child_spec; [|done].
      by apply (entry_ok env p cwd). }
    rewrite E in Hin. by apply elem_of_nil in Hin.
  - assert ((path, name) ∈ omap (metadata_child env target) l) as Hin by (rewrite E; set_solver).
    apply list_elem_of_omap in Hin as (w & [Hwr Hw]%Hl & Hc).
    apply metadata_child_spec in Hc as (Hn & -> & Hp); [|by apply (entry_ok env p cwd)].
    by exists w, name.
Qed.

Lemma denied_intro target :
  fs_kind p = KindRestricted -> abs_ok target -> (exists path, in_metadata path target) ->
  (forall path, in_metadata path target -> ~ opened path target) ->
  is_metadata_write_denied env p target cwd = true.
Proof.
  intros Hk Ht [path Hin] Hno. unfold is_metadata_write_denied, is_restricted.
  rewrite bool_decide_eq_true_2, candidate_ok by done. cbn.
  pose proof (metadata_child_of_spec target) as Hm.
  destruct (metadata_child_of_writable_root env p target cwd) as [[path' name]|]; [|by destruct (Hm path)].
  apply negb_true_iff, not_true_iff_false. rewrite explicit_spec. by apply Hno.
Qed.

Lemma denied_elim target :
  fs_kind p = KindRestricted -> abs_ok target -> is_metadata_write_denied env p target cwd = true ->
  exists path name, metadata_child_of_writable_root env p target cwd = Some (path, name)
    /\ in_metadata path target /\ ~ opened path target.
Proof.
  intros Hk Ht. unfold is_metadata_write_denied, is_restricted.
  rewrite bool_decide_eq_true_2, candidate_ok by done. cbn.
  pose proof (metadata_child_of_spec target) as Hm.
  destruct (metadata_child_of_writable_root env p target cwd) as [[path' name]|]; [|done].
  intros Hd%negb_true_iff%not_true_iff_false. rewrite explicit_spec in Hd. by exists path', name.
Qed.

Lemma not_denied target path name :
  fs_kind p = KindRestricted -> abs_ok target -> is_metadata_write_denied env p target cwd = false ->
  metadata_child_of_writable_root env p target cwd = Some (path, name) -> opened path target.
Proof.
  intros Hk Ht. unfold is_metadata_write_denied, is_restricted.
  rewrite bool_decide_eq_true_2, candidate_ok by done. cbn. intros Hd E. rewrite E in Hd.
  by apply negb_false_iff, explicit_spec in Hd.
Qed.

End Metadata.

(** ** Writable roots *)

Lemma elem_of_dedup_from seen l x : x ∈ dedup_from seen l <-> x ∈ l /\ x ∉ seen.
Proof.
  revert seen. induction l as [|y l IH]; intros seen; cbn; [set_solver|].
  case_bool_decide as Hy; [rewrite IH; set_solver|].
  rewrite elem_of_cons, IH. destruct (decide (x = y)); set_solver.
Qed.

Lemma elem_of_dedup_plain env l x : x ∈ dedup_absolute_paths env l false <-> x ∈ l.
Proof. unfold dedup_absolute_paths. rewrite elem_of_dedup_from. set_solver. Qed.

(** An environment without symbolic links: an absolute path without dots that has a
    canonical form is that form. *)
Definition no_links (env : Env) : Prop := forall q c, abs_ok q -> canonicalize env q = Some c -> c = q.

Lemma canonical_no_links env q : no_links env -> abs_ok q -> canonicalize_preserving_symlinks env q = Some q.
Proof.
  intros Hl Hq. unfold canonicalize_preserving_symlinks. rewrite absolute_ok by done. cbn.
  destruct (canonicalize env q) as [c|] eqn:E; [|done]. apply Hl in E as ->; [|done]. by destruct (_ && _).
Qed.

Lemma abs_ok_prefix q p : abs_ok p -> q `prefix_of` p -> q <> [] -> abs_ok q.
Proof.
  intros [[names ->] Hv] [k Hk] Hq. destruct q as [|c q]; [done|]. injection Hk as <- Hk.
  split.
  - exists (take (length q) names). f_equal. rewrite fmap_take, Hk. by rewrite take_app_length.
  - rewrite Hk in Hv. inversion Hv as [|?? _ Hn]; subst. apply Forall_app in Hn as [Hn _].
    by constructor.
Qed.

Lemma abs_suffix_relative p q suffix : abs_ok p -> p = q ++ suffix -> q <> [] -> path_is_absolute suffix = false.
Proof.
  intros [[names ->] _] E Hq. destruct q as [|c q]; [done|]. injection E as _ E.
  unfold path_is_absolute. case_bool_decide as Hh; [|done]. destruct suffix as [|d suffix]; [done|].
  cbn in Hh. injection Hh as ->. exfalso.
  assert (RootDir ∈ Normal <$> names) as Hin by (rewrite E; set_solver).
  apply list_elem_of_fmap in Hin as (? & ? & _). done.
Qed.

Lemma ancestors_spec p q : abs_ok p -> q ∈ ancestors p -> q `prefix_of` p /\ q <> [].
Proof.
  intros Hp. unfold ancestors. rewrite abs_ok_is_absolute by done.
  intros (n & -> & Hn)%list_elem_of_fmap. rewrite elem_of_reverse, elem_of_seq in Hn.
  split; [apply prefix_take|]. destruct Hp as [[names ->] _]. destruct n; [lia|done].
Qed.

Lemma normalize_no_links env p : no_links env -> abs_ok p -> normalize_effective_absolute_path env p = p.
Proof.
  intros Hl Hp. unfold normalize_effective_absolute_path.
  assert (forall l, (forall q, q ∈ l -> q `prefix_of` p /\ q <> []) -> normalize_ancestors env p l = p) as H.
  { induction l as [|q l IH]; intros Hpre; [done|]. cbn.
    destruct (Hpre q) as [[suffix Hq] Hne]; [set_solver|].
    assert (normalize_ancestors env p l = p) as IH' by (apply IH; set_solver).
    assert (abs_ok q) as Hqo by (eapply abs_ok_prefix; [done|by exists suffix|done]).
    rewrite canonical_no_links by done.
    rewrite (proj2 (path_strip_prefix_spec p q suffix)) by done. destruct (is_symlink env q); [|done].
    unfold path_append. rewrite (abs_suffix_relative p q) by done. by rewrite <- Hq, absolute_ok. }
  apply H. intros q. by apply ancestors_spec.
Qed.

Lemma deciding_self es target e : deciding es target e -> deciding es (resolved_path e) e.
Proof.
  intros [H1 H2 H3]. split; [done|by unfold covers|]. intros e' He' Hc'. apply H3; [done|]. unfold covers in *. by transitivity (resolved_path e).
Qed.

Section Roots.
Context (env : Env) (p : FileSystemSandboxPolicy) (cwd : Path).
Context (Henv : env_ok env) (Hpaths : policy_paths_ok p).
Context (Hk : fs_kind p = KindRestricted) (Hfull : has_full_disk_write_access p = false).

Abbreviation es := (resolved_entries_with_cwd env p cwd).

Lemma roots_entry_ok e : e ∈ es -> abs_ok (resolved_path e).
Proof. by apply entry_ok. Qed.
Local Hint Resolve roots_entry_ok : core.

Lemma can_write_path_spec target :
  can_write_path_with_cwd env p target cwd = true <->
  resolve_access_with_cwd env p target cwd = AccessWrite /\ is_metadata_write_denied env p target cwd = false.
Proof.
  unfold can_write_path_with_cwd. rewrite Hfull.
  destruct (resolve_access_with_cwd env p target cwd), (is_metadata_write_denied env p target cwd); cbn; naive_solver.
Qed.

Lemma access_of_deciding target e :
  abs_ok target -> deciding es target e -> resolve_access_with_cwd env p target cwd = resolved_access e.
Proof.
  intros Ht He. destruct (access_decided env p target cwd target Hk (candidate_ok _ _ _ Ht)) as [(d & Hd & ->)|[Hn _]].
  - by eapply deciding_unique.
  - by destruct (Hn e); destruct He.
Qed.

(** A writable entry that decides on its own path can be written to. *)
Lemma deciding_can_write target d :
  deciding es target d -> writable d -> can_write_path_with_cwd env p (resolved_path d) cwd = true.
Proof.
  intros Hd Hw. assert (abs_ok (resolved_path d)) as Hok by (apply roots_entry_ok, Hd).
  apply can_write_path_spec. split.
  - rewrite (access_of_deciding _ d) by (done || by eapply deciding_self). done.
  - apply not_true_iff_false. intros (path & name & _ & Hin & Hno)%denied_elim; [|done..]. apply Hno.
    exists d. split_and!; [apply Hd|done|by unfold covers|]. by destruct Hin as (? & ? & ? & ? & ? & ? & ?).
Qed.

Abbreviation writable_entries :=
  (resolved_path <$> filter (fun e => can_write_path_with_cwd env p (resolved_path e) cwd = true)
     (filter (fun e => can_write (resolved_access e) = true) es)).

Lemma writable_entries_spec path :
  path ∈ writable_entries <->
  exists w, w ∈ es /\ writable w /\ path = resolved_path w /\ can_write_path_with_cwd env p path cwd = true.
Proof.
  rewrite list_elem_of_fmap. setoid_rewrite list_elem_of_filter. setoid_rewrite list_elem_of_filter.
  setoid_rewrite can_write_spec. unfold writable. naive_solver.
Qed.

Lemma roots_spec r (Hlinks : no_links env) :
  r ∈ get_writable_roots_with_cwd env p cwd <->
  exists w, w ∈ es /\ writable w /\ can_write_path_with_cwd env p (resolved_path w) cwd = true
    /\ r = writable_root_for env p cwd es writable_entries (resolved_path w).
Proof.
  unfold get_writable_roots_with_cwd. rewrite Hfull. cbv zeta. rewrite list_elem_of_fmap.
  unfold dedup_absolute_paths. setoid_rewrite elem_of_dedup_from. setoid_rewrite list_elem_of_fmap.
  split.
  - intros (path & -> & (q & -> & Hq) & _). apply writable_entries_spec in Hq as (w & Hw & Hwr & -> & Hc).
    exists w. rewrite normalize_no_links by auto. done.
  - intros (w & Hw & Hwr & Hc & ->). exists (resolved_path w). split; [done|]. split; [|set_solver].
    exists (resolved_path w). split; [by rewrite normalize_no_links by auto|]. apply writable_entries_spec. by exists w.
Qed.

Context (Hlinks : no_links env).

Lemma carveout_below root raw path :
  abs_ok path -> root `prefix_of` path -> path <> root -> carveout env root raw path = Some path.
Proof.
  intros Hp Hpre Hne. unfold carveout, raw_carveout_path.
  assert (path_starts_with path root = true) as E by (by apply path_starts_with_spec).
  rewrite (bool_decide_eq_false_2 (path = root)), E, (normalize_no_links env path) by done.
  destruct (is_none (path_parent root)); [|done]. by rewrite (bool_decide_eq_false_2 (path = root)), E.
Qed.

Lemma carveout_only root raw path q :
  abs_ok path -> (forall x, x ∈ raw -> x = root) -> carveout env root raw path = Some q ->
  q = path /\ root `prefix_of` path.
Proof.
  intros Hp Hraw. unfold carveout. destruct (raw_carveout_path env root raw path) as [c|] eqn:E.
  - intros [= <-]. unfold raw_carveout_path in E. destruct (is_none _); [done|].
    case_bool_decide; [done|]. destruct (path_starts_with path root) eqn:Es.
    { injection E as <-. by apply path_starts_with_spec in Es. }
    exfalso. apply head_Some_elem_of in E. apply list_elem_of_omap in E as (x & Hx & Hs).
    rewrite (Hraw x Hx) in Hs. unfold path_strip_prefix in Hs. by rewrite Es in Hs.
  - rewrite normalize_no_links by done. destruct (_ || _) eqn:Eb; [done|]. intros [= <-].
    apply orb_false_iff in Eb as [_ Eb%negb_false_iff]. by apply path_starts_with_spec in Eb.
Qed.

(** The first metadata directory is the same one for a path and for a metadata
    directory above it that no writable entry opens. *)
Lemma metadata_child_stable path target :
  in_metadata env p cwd path target -> ~ opened env p cwd path target ->
  metadata_child_of_writable_root env p target cwd = metadata_child_of_writable_root env p path cwd.
Proof.
  intros Hin Hno. assert (path `prefix_of` target) as Hpt by (by destruct Hin as (? & ? & ? & ? & ? & ? & ?)).
  unfold metadata_child_of_writable_root. f_equal. apply list_omap_ext, Forall_Forall2_diag, Forall_forall.
  intros e [Hw%can_write_spec He]%list_elem_of_filter. apply option_eq. intros [q n].
  rewrite !metadata_child_spec by auto. split; intros (Hn & -> & Hq); split_and!; try done; [|by transitivity path].
  destruct (decide (length (resolved_path e ++ [Normal n]) <= length path)) as [Hl|Hl];
    [by eapply prefix_shorter|].
  exfalso. apply Hno. exists e. rewrite length_app in Hl. cbn in Hl.
  assert (covers e target) as Hc by (unfold covers; transitivity (resolved_path e ++ [Normal n]); [by eexists|done]).
  split_and!; [done|done|done|]. eapply prefix_shorter; [done|exact Hc|lia].
Qed.

Abbreviation root_of w := (writable_root_for env p cwd es writable_entries (resolved_path w)).

Lemma raw_roots_spec w x :
  x ∈ filter (fun path => normalize_effective_absolute_path env path = resolved_path w) writable_entries ->
  x = resolved_path w.
Proof.
  intros [E Hx]%list_elem_of_filter. apply writable_entries_spec in Hx as (v & Hv & _ & -> & _).
  by rewrite normalize_no_links in E by auto.
Qed.

(** No carve-out of a root reaches into what the root lets through. *)
Lemma root_access w target d :
  w ∈ es -> writable w -> can_write_path_with_cwd env p (resolved_path w) cwd = true ->
  is_path_writable (root_of w) target = true -> deciding es target d -> covers w target -> writable d.
Proof.
  intros Hw Hwr Hcw Hr Hd Hc. destruct (decide (writable d)) as [|Hnw]; [done|exfalso].
  destruct (deciding_most _ _ _ Hd w Hw Hc) as [Hpre Hrank].
  assert (abs_ok (resolved_path d)) as Hok by (apply roots_entry_ok, Hd).
  assert (can_write_path_with_cwd env p (resolved_path d) cwd = false) as Hcd.
  { apply not_true_iff_false. intros [Ha _]%can_write_path_spec.
    rewrite (access_of_deciding _ d) in Ha by (done || by eapply deciding_self). done. }
  destruct (decide (resolved_path d = resolved_path w)) as [E|E]; [by rewrite E, Hcw in Hcd|].
  unfold is_path_writable in Hr. cbn [root writable_root_for read_only_subpaths] in Hr.
  destruct (negb _); [done|]. destruct (existsb _ _) eqn:Ex; [done|]. apply not_true_iff_false in Ex.
  apply Ex, existsb_exists. exists (resolved_path d). split; [|apply path_starts_with_spec, Hd].
  apply list_elem_of_In, elem_of_dedup_plain, elem_of_app. right. apply list_elem_of_omap. exists d.
  split; [|by apply carveout_below].
  apply list_elem_of_filter. split; [done|]. apply list_elem_of_filter. split; [|apply Hd].
  apply not_true_iff_false. by rewrite can_write_spec.
Qed.

(** A root lets a path through that lies in the metadata directory of a writable
    entry below the root. *)
Definition in_nested_metadata (root target : Path) : Prop :=
  exists v name, v ∈ es /\ writable v /\ name ∈ PROTECTED_METADATA_PATH_NAMES
    /\ resolved_path v ++ [Normal name] `prefix_of` target
    /\ root `prefix_of` resolved_path v /\ resolved_path v <> root.

Lemma is_path_writable_spec r path :
  is_path_writable r path = true <->
  root r `prefix_of` path /\ (forall s, s ∈ read_only_subpaths r -> ~ s `prefix_of` path)
  /\ path_contains_protected_metadata_name r path = false.
Proof.
  unfold is_path_writable. destruct (path_starts_with path (root r)) eqn:E; cbn.
  - apply path_starts_with_spec in E. destruct (existsb _ _) eqn:Ex.
    + split; [done|]. intros (_ & Hs & _). apply existsb_exists in Ex as (s & Hin%list_elem_of_In & Hp).
      destruct (Hs s Hin). by apply path_starts_with_spec.
    + rewrite negb_true_iff. split; [|naive_solver]. intros Hn. split_and!; [done| |done].
      intros s Hin Hp. apply not_true_iff_false in Ex. apply Ex, existsb_exists. exists s.
      split; [by apply list_elem_of_In|by apply path_starts_with_spec].
  - split; [done|]. intros [Hp _]. apply path_starts_with_spec in Hp. congruence.
Qed.

Lemma protected_name_spec w name :
  abs_ok (resolved_path w) -> name ∈ PROTECTED_METADATA_PATH_NAMES ->
  name ∈ protected_metadata_names (root_of w) <->
  can_write_path_with_cwd env p (resolved_path w ++ [Normal name]) cwd = false.
Proof.
  intros Hok Hn. cbn [writable_root_for protected_metadata_names]. unfold protected_metadata_names_for_writable_root.
  rewrite list_elem_of_filter, forallb_forall. split.
  - intros [Hall _]. apply negb_true_iff. rewrite <- (abs_join_name env) by (done || by apply metadata_plain).
    apply Hall. by left.
  - intros Hc. split; [|done]. intros q (x & -> & Hx)%list_elem_of_In%list_elem_of_fmap.
    assert (x = resolved_path w) as ->.
    { apply elem_of_cons in Hx as [->|Hx]; [done|]. by apply raw_roots_spec. }
    rewrite abs_join_name by (done || by apply metadata_plain). by rewrite Hc.
Qed.

Lemma root_contains_name w name target :
  resolved_path w ++ [Normal name] `prefix_of` target ->
  path_contains_protected_metadata_name (root_of w) target
  = bool_decide (name ∈ protected_metadata_names (root_of w)).
Proof.
  intros [k ->]. unfold path_contains_protected_metadata_name. cbn [root writable_root_for].
  rewrite <- app_assoc, (proj2 (path_strip_prefix_spec _ _ ([Normal name] ++ k))) by done. done.
Qed.

Lemma root_sound w target :
  w ∈ es -> writable w -> can_write_path_with_cwd env p (resolved_path w) cwd = true -> abs_ok target ->
  is_path_writable (root_of w) target = true ->
  resolve_access_with_cwd env p target cwd = AccessWrite
  /\ (can_write_path_with_cwd env p target cwd = true \/ in_nested_metadata (resolved_path w) target).
Proof.
  intros Hw Hwr Hcw Ht Hr. pose proof Hr as (Hc & _ & Hname)%is_path_writable_spec.
  cbn [root writable_root_for] in Hc.
  assert (resolve_access_with_cwd env p target cwd = AccessWrite) as Ha.
  { destruct (access_decided env p target cwd target Hk (candidate_ok _ _ _ Ht)) as [(d & Hd & ->)|[Hn _]];
      [by eapply root_access|by destruct (Hn w)]. }
  split; [done|]. destruct (is_metadata_write_denied env p target cwd) eqn:Hden; [|left; by apply can_write_path_spec].
  apply denied_elim in Hden as (path & name' & Hhead & Hin & Hno); [|done..].
  pose proof Hin as (v & name & Hv & Hvw & Hn & -> & Hp).
  set (path := resolved_path v ++ [Normal name]) in *.
  assert (~ path `prefix_of` resolved_path w) as Hnp by (intros Hpw; apply Hno; by exists w).
  assert (resolved_path w `prefix_of` resolved_path v) as Hwv.
  { assert (covers v target) as Hcv by (unfold covers; transitivity path; [by eexists|done]).
    eapply prefix_shorter; [exact Hc|exact Hcv|]. destruct (decide (length path <= length (resolved_path w))) as [Hl|Hl].
    - destruct Hnp. by eapply prefix_shorter.
    - unfold path in Hl. rewrite length_app in Hl. cbn in Hl. lia. }
  destruct (decide (resolved_path v = resolved_path w)) as [E|E]; [|right; by exists v, name].
  exfalso. unfold path in *. rewrite E in *.
  rewrite (root_contains_name w name) in Hname by done. apply bool_decide_eq_false in Hname.
  rewrite protected_name_spec in Hname by auto.
  apply not_false_iff_true, can_write_path_spec in Hname as [_ Hden].
  apply Hno. destruct (not_denied env p cwd (resolved_path w ++ [Normal name]) (resolved_path w ++ [Normal name]) name')
    as (e & He & Hew & Hce & Hpe); [done| |done| |].
  - by eapply abs_ok_prefix; [exact Ht| |destruct (resolved_path w)].
  - by rewrite <- (metadata_child_stable (resolved_path w ++ [Normal name]) target).
  - exists e. split_and!; [done|done| |done]. unfold covers in *. by etransitivity.
Qed.

(** What a path lets in: the metadata directory that a [.git] file of the root
    points to, or a root that itself lies in protected metadata. *)
Definition in_gitdir (root target : Path) : Prop :=
  exists g, resolve_gitdir_from_file env (root ++ [Normal GIT]) = Some g /\ g `prefix_of` target.
Definition root_in_metadata (root : Path) : Prop := exists path, in_metadata env p cwd path root.

#[local] Instance in_gitdir_dec root target : Decision (in_gitdir root target).
Proof.
  unfold in_gitdir. destruct (resolve_gitdir_from_file env (root ++ [Normal GIT])) as [g|];
    [|right; by intros (? & ? & _)].
  destruct (decide (g `prefix_of` target)); [left; by exists g|right; naive_solver].
Defined.

Lemma default_subpath_spec w b q :
  abs_ok w -> q ∈ default_read_only_subpaths_for_writable_root env w b ->
  resolve_gitdir_from_file env (w ++ [Normal GIT]) = Some q
  \/ exists name, name ∈ PROTECTED_METADATA_PATH_NAMES /\ q = w ++ [Normal name].
Proof.
  intros Hw. unfold default_read_only_subpaths_for_writable_root. cbv zeta. rewrite elem_of_dedup_plain.
  rewrite !(abs_join_name env w) by (done || by apply metadata_plain; set_solver).
  rewrite !elem_of_app. intros [Hq|[Hq|Hq]].
  - destruct (_ || _); [|by apply elem_of_nil in Hq]. apply elem_of_app in Hq as [Hq|Hq%list_elem_of_singleton].
    + left. destruct (_ && _); [|by apply elem_of_nil in Hq].
      destruct (resolve_gitdir_from_file _ _); cbn in Hq; [|by apply elem_of_nil in Hq].
      by apply list_elem_of_singleton in Hq as ->.
    + right. exists GIT. split; [set_solver|done].
  - right. exists AGENTS. destruct (is_dir _ _); [|by apply elem_of_nil in Hq].
    apply list_elem_of_singleton in Hq. split; [set_solver|done].
  - right. exists CODEX. destruct (_ || _); [|by apply elem_of_nil in Hq].
    apply list_elem_of_singleton in Hq. split; [set_solver|done].
Qed.

(** Writable although in the metadata directory of the deciding root: the root is in
    metadata itself. *)
Lemma metadata_of_deciding d name target :
  deciding es target d -> writable d -> abs_ok target -> is_metadata_write_denied env p target cwd = false ->
  name ∈ PROTECTED_METADATA_PATH_NAMES -> resolved_path d ++ [Normal name] `prefix_of` target ->
  root_in_metadata (resolved_path d).
Proof.
  intros Hd Hdw Ht Hden Hn Hp. pose proof (metadata_child_of_spec env p cwd Henv Hpaths target) as Hm.
  destruct (metadata_child_of_writable_root env p target cwd) as [[path name']|] eqn:E.
  - destruct (not_denied env p cwd target path name') as (e & He & Hew & Hce & Hpe); [done..|].
    exists path. destruct Hm as (v & n & Hv & Hvw & Hnn & -> & _). exists v, n. split_and!; try done.
    transitivity (resolved_path e); [done|]. by apply (deciding_most _ _ _ Hd).
  - destruct (Hm (resolved_path d ++ [Normal name])). exists d, name. split_and!; try done. apply Hd.
Qed.

Lemma root_complete target :
  abs_ok target -> can_write_path_with_cwd env p target cwd = true ->
  exists d, deciding es target d /\ writable d
    /\ can_write_path_with_cwd env p (resolved_path d) cwd = true
    /\ (is_path_writable (root_of d) target = true
        \/ in_gitdir (resolved_path d) target \/ root_in_metadata (resolved_path d)).
Proof.
  intros Ht [Ha Hden]%can_write_path_spec.
  destruct (access_decided env p target cwd target Hk (candidate_ok _ _ _ Ht)) as [(d & Hd & E)|[_ E]];
    [|congruence]. rewrite E in Ha. exists d.
  assert (abs_ok (resolved_path d)) as Hok by (apply roots_entry_ok, Hd).
  split; [done|]. split; [done|]. split; [by eapply deciding_can_write|].
  destruct (is_path_writable (root_of d) target) eqn:Hr; [by left|right].
  destruct (decide (Exists (fun name => resolved_path d ++ [Normal name] `prefix_of` target)
                      PROTECTED_METADATA_PATH_NAMES)) as [(name & Hn & Hp)%Exists_exists|Hno].
  { right. by eapply metadata_of_deciding. }
  rewrite Exists_exists in Hno. left. apply not_true_iff_false in Hr. rewrite is_path_writable_spec in Hr. apply dec_stable. intros Hg. apply Hr.
  cbn [root writable_root_for]. split_and!; [apply Hd| |].
  - intros s Hs Hst. cbn [read_only_subpaths writable_root_for] in Hs.
    apply elem_of_dedup_plain, elem_of_app in Hs as [[_ Hs]%list_elem_of_filter|Hs].
    + apply default_subpath_spec in Hs as [Hgit|(name & Hn & ->)]; [apply Hg; by exists s| |done].
      apply Hno. by exists name.
    + apply list_elem_of_omap in Hs as (e & [Hce [Hew He]%list_elem_of_filter]%list_elem_of_filter & Hs).
      apply carveout_only in Hs as [-> Hpre]; [|by auto|apply raw_roots_spec].
      destruct (deciding_most _ _ _ Hd e He Hst) as [Hpe _].
      assert (resolved_path e = resolved_path d) as Ee by (by apply (anti_symm prefix)).
      rewrite Ee in Hce. by rewrite (deciding_can_write target d) in Hce.
  - apply not_true_iff_false. intros Hc. unfold path_contains_protected_metadata_name in Hc.
    destruct (path_strip_prefix target _) as [[|c rest]|] eqn:Es; try done.
    apply bool_decide_eq_true in Hc. apply path_strip_prefix_spec in Es. cbn [root writable_root_for] in Es.
    cbn [protected_metadata_names writable_root_for] in Hc. apply list_elem_of_filter in Hc as [_ Hc].
    apply Hno. exists (component_text c). split; [done|]. rewrite Es.
    rewrite (component_text_plain c (component_text c)) at 2; [|by apply metadata_plain|done].
    exists rest. cbn. by rewrite <- app_assoc.
Qed.

End Roots.

(** ** Theorems *)

(** C12: The roots handed to the sandbox of the operating system agree with the
    policy, where there are no symbolic links.  What a root lets through the policy
    resolves to [Write], and lets through too, save for metadata directories of
    writable entries below the root; and what the policy lets through, the root of
    its deciding entry lets through, save for the directory a [.git] file points to
    and for roots inside protected metadata. *)
Theorem writable_roots_agree env p cwd target :
  env_ok env -> no_links env -> policy_paths_ok p -> fs_kind p = KindRestricted ->
  has_full_disk_write_access p = false -> abs_ok target ->
  let roots := get_writable_roots_with_cwd env p cwd in
  (forall r, r ∈ roots -> is_path_writable r target = true ->
     resolve_access_with_cwd env p target cwd = AccessWrite
     /\ (can_write_path_with_cwd env p target cwd = true \/ in_nested_metadata env p cwd (root r) target))
  /\ (can_write_path_with_cwd env p target cwd = true ->
      exists r, r ∈ roots /\ root r `prefix_of` target
        /\ (is_path_writable r target = true \/ in_gitdir env (root r) target
            \/ root_in_metadata env p cwd (root r))).
Proof.
  intros He Hl Hp Hk Hf Ht roots. split.
  - intros r Hr Hw. apply roots_spec in Hr as (w & H1 & H2 & H3 & ->); [|done..]. by apply root_sound.
  - intros Hc. destruct (root_complete env p cwd He Hp Hk Hf Hl target Ht Hc) as (d & [H1 H3 _] & H2 & H4 & H5).
    eexists. split; [apply roots_spec; [done..|]; by exists d|]. done.
Qed.

Definition plain_env : Env :=
  mkEnv None (Some (L"/")) None (fun _ => false) (fun _ => false) (fun _ => false) (fun _ => None)
    (fun _ => None) (fun _ => None) (fun _ => None).
Definition path_of (names : list str) : AbsolutePathBuf := RootDir :: (Normal <$> names).
Definition ws : AbsolutePathBuf := path_of [L"ws"].

Lemma abs_ok_path_of names : Forall valid_name names -> abs_ok (path_of names).
Proof. intros Hn. split; [by exists names|]. constructor; [done|]. by apply Forall_fmap. Qed.

Lemma plain_env_ok : env_ok plain_env.
Proof. by intros d [= <-]. Qed.
Lemma plain_env_no_links : no_links plain_env.
Proof. done. Qed.

Ltac solve_abs_ok := apply abs_ok_path_of; apply (bool_decide_unpack _); vm_compute; exact I.

(** A workspace with a nested writable root and a read-only directory. *)
Definition nested_policy : FileSystemSandboxPolicy :=
  restricted [mkEntry (Special Root) AccessRead; mkEntry (PathEntry ws) AccessWrite;
              mkEntry (PathEntry (path_of [L"ws"; L"docs"])) AccessRead;
              mkEntry (PathEntry (path_of [L"ws"; L"sub"])) AccessWrite].

Lemma nested_policy_ok : policy_paths_ok nested_policy.
Proof. repeat apply Forall_cons_2; try apply Forall_nil_2; try exact I; cbn [entry_path]; solve_abs_ok. Qed.

Lemma access_by_most_specific_entry_witness :
  let docs := path_of [L"ws"; L"docs"; L"a.md"] in
  resolve_candidate_path plain_env docs ws = Some docs
  /\ resolve_access_with_cwd plain_env
       (restricted (reverse (entries nested_policy))) docs ws
     = resolve_access_with_cwd plain_env nested_policy docs ws.
Proof.
  intros docs. split; [vm_compute; reflexivity|].
  destruct (access_by_most_specific_entry plain_env nested_policy docs ws docs eq_refl) as (_ & _ & _ & H);
    [vm_compute; reflexivity|].
  apply (H (restricted (reverse (entries nested_policy)))); [reflexivity|]. apply reverse_Permutation.
Defined.

Lemma writable_roots_agree_witness :
  let target := path_of [L"ws"; L"src"; L"a.rs"] in
  Exists (fun r => root r `prefix_of` target) (get_writable_roots_with_cwd plain_env nested_policy ws)
  /\ resolve_access_with_cwd plain_env nested_policy target ws = AccessWrite.
Proof.
  intros target.
  assert (abs_ok target) as Ht by solve_abs_ok.
  destruct (writable_roots_agree plain_env nested_policy ws target plain_env_ok plain_env_no_links
    nested_policy_ok eq_refl eq_refl Ht) as [Hs Hc].
  destruct Hc as (r & Hr & Hp & Hw); [vm_compute; reflexivity|]. split; [apply Exists_exists; by exists r|].
  destruct (Hs (mkWritableRoot ws [path_of [L"ws"; L".codex"]; path_of [L"ws"; L"docs"]] [GIT; AGENTS; CODEX]))
    as [Ha _]; [apply (bool_decide_unpack _); vm_compute; exact I|vm_compute; reflexivity|exact Ha].
Defined.

(** Where the two disagree: a root lets a write into the metadata of a writable entry
    below it through, which the policy denies. *)
Example nested_root_disagrees :
  let target := path_of [L"ws"; L"sub"; L".git"; L"config"] in
  existsb (fun r => is_path_writable r target) (get_writable_roots_with_cwd plain_env nested_policy ws) = true
  /\ can_write_path_with_cwd plain_env nested_policy target ws = false.
Proof. split; vm_compute; reflexivity. Qed.

(** The metadata check stops at the first writable entry it finds, so that the order
    of entries matters where one writable entry lies in the metadata of another. *)
Example metadata_check_depends_on_order :
  let outer := mkEntry (PathEntry ws) AccessWrite in
  let inner := mkEntry (PathEntry (path_of [L"ws"; L".git"; L"x"])) AccessWrite in
  let target := path_of [L"ws"; L".git"; L"x"; L".codex"; L"f"] in
  can_write_path_with_cwd plain_env (restricted [outer; inner]) target ws = true
  /\ can_write_path_with_cwd plain_env (restricted [inner; outer]) target ws = false.
Proof. split; vm_compute; reflexivity. Qed.

(** C25: Metadata stays protected.  Under a restricted policy that does not grant the
    whole disk, a path in the [.git], [.agents] or [.codex] directory of a writable
    entry is not writable, whatever the file system holds, unless a writable entry lies
    inside such a directory on the way to the path; and the name the agent is told is
    the name of a protected directory of a writable entry that the path lies in. *)
Theorem metadata_stays_protected env p cwd target :
  env_ok env -> policy_paths_ok p -> fs_kind p = KindRestricted -> has_full_disk_write_access p = false ->
  abs_ok target -> (exists path, in_metadata env p cwd path target) ->
  (forall path, in_metadata env p cwd path target -> ~ opened env p cwd path target) ->
  can_write_path_with_cwd env p target cwd = false
  /\ exists w name, w ∈ resolved_entries_with_cwd env p cwd /\ writable w
     /\ name ∈ PROTECTED_METADATA_PATH_NAMES /\ resolved_path w ++ [Normal name] `prefix_of` target
     /\ forbidden_agent_metadata_write env target cwd p = Some name.
Proof.
  intros He Hp Hk Hf Ht Hin Hno.
  assert (can_write_path_with_cwd env p target cwd = false) as Hc.
  { apply not_true_iff_false. rewrite can_write_path_spec by done. intros [_ Hd].
    by rewrite denied_intro in Hd. }
  split; [done|]. unfold forbidden_agent_metadata_write, is_restricted.
  rewrite bool_decide_eq_true_2, candidate_ok by done. cbn.
  pose proof (metadata_child_of_spec env p cwd He Hp target) as Hm. destruct Hin as [path Hin].
  destruct (metadata_child_of_writable_root env p target cwd) as [[path' name]|] eqn:E; [|by destruct (Hm path)].
  cbn. destruct (has_explicit_write_entry_for_metadata_path _ _ _ _ _) eqn:Ex.
  { apply explicit_spec in Ex. by destruct (Hno path'). }
  unfold metadata_child_of_writable_root in E. apply head_Some_elem_of, list_elem_of_omap in E as (e & [Hw He']%list_elem_of_filter & E).
  apply metadata_child_spec in E as (Hn & -> & Hpre); [|by apply (entry_ok env p cwd)].
  rewrite Hc. exists e, name. by rewrite can_write_spec in Hw.
Qed.

Lemma metadata_stays_protected_witness :
  let p := fs_policy_from plain_env (WorkspaceWrite [] false true true) in
  let target := path_of [L"ws"; L".git"; L"hooks"] in
  can_write_path_with_cwd plain_env p target ws = false
  /\ exists w name, w ∈ resolved_entries_with_cwd plain_env p ws /\ writable w
     /\ name ∈ PROTECTED_METADATA_PATH_NAMES /\ resolved_path w ++ [Normal name] `prefix_of` target
     /\ forbidden_agent_metadata_write plain_env target ws p = Some name.
Proof.
  intros p target. assert (abs_ok target) as Ht by solve_abs_ok.
  assert (policy_paths_ok p) as Hp by (repeat apply Forall_cons_2; try apply Forall_nil_2; exact I).
  assert (resolved_entries_with_cwd plain_env p ws =
    [mkResolved [RootDir] AccessRead; mkResolved ws AccessWrite;
     mkResolved (path_of [L"ws"; GIT]) AccessRead; mkResolved (path_of [L"ws"; AGENTS]) AccessRead;
     mkResolved (path_of [L"ws"; CODEX]) AccessRead]) as Hes by (vm_compute; reflexivity).
  apply (metadata_stays_protected plain_env p ws target plain_env_ok Hp eq_refl eq_refl Ht).
  - exists (path_of [L"ws"; GIT]), (mkResolved ws AccessWrite), GIT. rewrite Hes.
    split_and!; [set_solver|done|set_solver|done|]. by exists [Normal (L"hooks")].
  - intros path (w & name & Hw & Hwr & Hn & -> & _) (e & He & Hew & _ & Hpre). rewrite Hes in Hw, He.
    assert (w = mkResolved ws AccessWrite) as -> by (repeat (apply elem_of_cons in Hw as [->|Hw]; [done|]); set_solver).
    assert (e = mkResolved ws AccessWrite) as -> by (repeat (apply elem_of_cons in He as [->|He]; [done|]); set_solver).
    apply prefix_length in Hpre. cbn in Hpre. lia.
Defined.
