(* ===== verification/PermissionLegacy.v ===== *)
(** * The older sandbox policies (protocol/src/permissions.rs, protocol.rs)

    Projecting a policy to a [SandboxPolicy], and deciding whether the projection
    enforces the same. *)

From S2P Require Import Prelude RustStr AbsolutePath SandboxPaths Permissions PermissionSafety.

Section Legacy.
Context (env : Env).

(** ** Roots of an older policy *)

Definition legacy_get_writable_roots_with_cwd (p : SandboxPolicy) (cwd : Path) : list WritableRoot :=
  match p with
  | DangerFullAccess | ExternalSandbox _ | ReadOnly _ => []
  | WorkspaceWrite writable_roots _ exclude_tmpdir_env_var exclude_slash_tmp =>
      let cwd_absolute := absolute env cwd in
      let slash_tmp :=
        if exclude_slash_tmp then None else
        slash_tmp ← absolute env [RootDir; Normal (L"tmp")];
        if is_dir env slash_tmp then Some slash_tmp else None in
      let tmpdir :=
        if exclude_tmpdir_env_var then None else
        tmpdir ← tmpdir_var env;
        if is_nil tmpdir then None else from_absolute_path (home_dir env) (current_dir env) tmpdir in
      (fun writable_root =>
         mkWritableRoot writable_root
           (default_read_only_subpaths_for_writable_root env writable_root
              (bool_decide (cwd_absolute = Some writable_root))) [])
        <$> (writable_roots ++ option_list cwd_absolute ++ option_list slash_tmp ++ option_list tmpdir)
  end.

(** ** Projection *)

(** What the loop over the entries of [to_legacy_sandbox_policy] has seen. *)
Record LegacyScan := mkScan {
  workspace_root_writable : bool;
  scan_writable_roots : list AbsolutePathBuf;
  tmpdir_writable : bool;
  slash_tmp_writable : bool;
  unbridgeable_root_write : bool }.

Definition scan_entry (cwd_absolute : option AbsolutePathBuf) (s : LegacyScan) (e : FileSystemSandboxEntry) : LegacyScan :=
  let push path := mkScan (workspace_root_writable s) (scan_writable_roots s ++ [path]) (tmpdir_writable s)
                     (slash_tmp_writable s) (unbridgeable_root_write s) in
  let workspace := mkScan true (scan_writable_roots s) (tmpdir_writable s) (slash_tmp_writable s)
                     (unbridgeable_root_write s) in
  match entry_path e with
  | GlobPattern _ => s
  | PathEntry path =>
      if can_write (access e)
      then if bool_decide (cwd_absolute = Some path) then workspace else push path
      else s
  | Special Root =>
      match access e with
      | AccessNone | AccessRead => s
      | AccessWrite => mkScan (workspace_root_writable s) (scan_writable_roots s) (tmpdir_writable s)
                         (slash_tmp_writable s) true
      end
  | Special Minimal | Special (Unknown _ _) => s
  | Special (ProjectRoots subpath) =>
      if is_none subpath && can_write (access e) then workspace
      else match resolve_file_system_special_path env (ProjectRoots subpath) cwd_absolute with
           | Some path => if can_write (access e) then push path else s
           | None => s
           end
  | Special Tmpdir =>
      if can_write (access e)
      then mkScan (workspace_root_writable s) (scan_writable_roots s) true (slash_tmp_writable s)
             (unbridgeable_root_write s)
      else s
  | Special SlashTmp =>
      if can_write (access e)
      then mkScan (workspace_root_writable s) (scan_writable_roots s) (tmpdir_writable s) true
             (unbridgeable_root_write s)
      else s
  end.

Definition scan_entries (cwd_absolute : option AbsolutePathBuf) (l : list FileSystemSandboxEntry) : LegacyScan :=
  foldl (scan_entry cwd_absolute) (mkScan false [] false false false) l.

Definition UNSUPPORTED_WRITES : str :=
  L"permissions profile requests filesystem writes outside the workspace root, which is not supported until the runtime enforces FileSystemSandboxPolicy directly".

Definition network_access_of (n : NetworkSandboxPolicy) : NetworkAccess :=
  if net_is_enabled n then NetworkAccessEnabled else NetworkAccessRestricted.

Definition full_access_of (n : NetworkSandboxPolicy) : SandboxPolicy :=
  if net_is_enabled n then DangerFullAccess else ExternalSandbox NetworkAccessRestricted.

Definition to_legacy_sandbox_policy (p : FileSystemSandboxPolicy) (network_policy : NetworkSandboxPolicy)
    (cwd : Path) : result str SandboxPolicy :=
  match fs_kind p with
  | KindExternalSandbox => Ok (ExternalSandbox (network_access_of network_policy))
  | KindUnrestricted => Ok (full_access_of network_policy)
  | KindRestricted =>
      let s := scan_entries (absolute env cwd) (entries p) in
      if has_full_disk_write_access p then Ok (full_access_of network_policy)
      else if workspace_root_writable s then
        Ok (WorkspaceWrite (dedup_absolute_paths env (scan_writable_roots s) false)
              (net_is_enabled network_policy) (negb (tmpdir_writable s)) (negb (slash_tmp_writable s)))
      else if unbridgeable_root_write s || negb (is_nil (scan_writable_roots s)) || tmpdir_writable s
              || slash_tmp_writable s
      then Err UNSUPPORTED_WRITES
      else Ok (ReadOnly (net_is_enabled network_policy))
  end.

(** ** Semantic comparison *)

Definition sorted_absolute_paths (paths : list AbsolutePathBuf) : list AbsolutePathBuf :=
  merge_sort (compare_le path_compare) paths.

Definition sorted_writable_roots (roots : list WritableRoot) : list WritableRoot :=
  merge_sort (fun a b => compare_le path_compare (root a) (root b))
    ((fun r => mkWritableRoot (root r) (sorted_absolute_paths (read_only_subpaths r))
                 (dedup (merge_sort (compare_le str_compare) (protected_metadata_names r)))) <$> roots).

Record FileSystemSemanticSignature := mkSignature {
  sig_full_disk_read_access : bool;
  sig_full_disk_write_access : bool;
  sig_platform_defaults : bool;
  sig_readable_roots : list AbsolutePathBuf;
  sig_writable_roots : list WritableRoot;
  sig_unreadable_roots : list AbsolutePathBuf;
  sig_unreadable_globs : list str }.

#[export] Instance FileSystemSemanticSignature_eq_dec : EqDecision FileSystemSemanticSignature.
Proof. solve_decision. Defined.

Definition semantic_signature (p : FileSystemSandboxPolicy) (cwd : Path) : FileSystemSemanticSignature :=
  mkSignature (has_full_disk_read_access p) (has_full_disk_write_access p) (include_platform_defaults p)
    (sorted_absolute_paths (get_readable_roots_with_cwd env p cwd))
    (sorted_writable_roots (get_writable_roots_with_cwd env p cwd))
    (sorted_absolute_paths (get_unreadable_roots_with_cwd env p cwd))
    (get_unreadable_globs_with_cwd env p cwd).

Definition is_semantically_equivalent_to (p other : FileSystemSandboxPolicy) (cwd : Path) : bool :=
  bool_decide (semantic_signature p cwd = semantic_signature other cwd).

Definition protected_metadata_names_need_direct_runtime_enforcement (p : FileSystemSandboxPolicy)
    (legacy_policy : SandboxPolicy) (cwd : Path) : bool :=
  let legacy_roots := legacy_get_writable_roots_with_cwd legacy_policy cwd in
  existsb (fun writable_root =>
    match find (fun candidate => bool_decide (root candidate = root writable_root)) legacy_roots with
    | None => negb (is_nil (protected_metadata_names writable_root))
    | Some legacy_root =>
        existsb (fun metadata_name =>
          let metadata_path := abs_join env (root writable_root) [Normal metadata_name] in
          negb (bool_decide (metadata_path ∈ read_only_subpaths legacy_root)))
          (protected_metadata_names writable_root)
    end) (get_writable_roots_with_cwd env p cwd).

Definition needs_direct_runtime_enforcement (p : FileSystemSandboxPolicy) (network_policy : NetworkSandboxPolicy)
    (cwd : Path) : bool :=
  if negb (is_restricted p) then false else
  match to_legacy_sandbox_policy p network_policy cwd with
  | Ok legacy_policy =>
      protected_metadata_names_need_direct_runtime_enforcement p legacy_policy cwd
      || negb (bool_decide (semantic_signature p cwd
           = semantic_signature (legacy_runtime_file_system_policy_for_cwd env legacy_policy cwd) cwd))
  | _ => true
  end.

End Legacy.

(** ** What the scan sees *)

Section Scan.
Context (env : Env) (cwd : option (list Component)).

(** What one writable entry contributes. *)
Definition adds_root (e : FileSystemSandboxEntry) (path : AbsolutePathBuf) : Prop :=
  access e = AccessWrite /\
  match entry_path e with
  | PathEntry q => q = path /\ cwd <> Some q
  | Special (ProjectRoots (Some sub)) =>
      resolve_file_system_special_path env (ProjectRoots (Some sub)) cwd = Some path
  | _ => False
  end.
Definition adds_workspace (e : FileSystemSandboxEntry) : Prop :=
  access e = AccessWrite /\
  match entry_path e with PathEntry q => cwd = Some q | Special (ProjectRoots None) => True | _ => False end.
Definition adds_special (v : FileSystemSpecialPath) (e : FileSystemSandboxEntry) : Prop :=
  access e = AccessWrite /\ entry_path e = Special v.

Record scanned (l : list FileSystemSandboxEntry) (s : LegacyScan) : Prop := {
  scanned_roots : forall path, path ∈ scan_writable_roots s <-> exists e, e ∈ l /\ adds_root e path;
  scanned_workspace : workspace_root_writable s = true <-> exists e, e ∈ l /\ adds_workspace e;
  scanned_tmpdir : tmpdir_writable s = true <-> exists e, e ∈ l /\ adds_special Tmpdir e;
  scanned_slash_tmp : slash_tmp_writable s = true <-> exists e, e ∈ l /\ adds_special SlashTmp e;
  scanned_unbridgeable : unbridgeable_root_write s = true <-> exists e, e ∈ l /\ adds_special Root e }.

Lemma exists_snoc {A} (P : A -> Prop) l x : (exists y, y ∈ l ++ [x] /\ P y) <-> (exists y, y ∈ l /\ P y) \/ P x.
Proof.
  split.
  - intros (y & [Hy|Hy%list_elem_of_singleton]%elem_of_app & HP); [left; by exists y|right; by subst].
  - intros [(y & Hy & HP)|HP]; [exists y|exists x]; (split; [set_solver|done]).
Qed.

Lemma scan_entry_scanned l s e : scanned l s -> scanned (l ++ [e]) (scan_entry env cwd s e).
Proof.
  intros [H1 H2 H3 H4 H5]. destruct e as [path a].
  split; [intros q|..]; rewrite exists_snoc; rewrite <- ?H1, <- ?H2, <- ?H3, <- ?H4, <- ?H5;
    unfold scan_entry, adds_root, adds_workspace, adds_special; cbn [entry_path access];
    destruct path as [path|g|[| |[sub|]| | |]], a; cbn [can_write is_none andb];
    try case_bool_decide;
    try (match goal with |- context [resolve_file_system_special_path env ?v cwd] =>
           destruct (resolve_file_system_special_path env v cwd) end);
    cbn [scan_writable_roots workspace_root_writable tmpdir_writable slash_tmp_writable unbridgeable_root_write];
    rewrite ?elem_of_app, ?list_elem_of_singleton; naive_solver.
Qed.

Lemma scan_entries_scanned l : scanned l (scan_entries env cwd l).
Proof.
  unfold scan_entries. induction l as [|e l IH] using rev_ind.
  - split; [intros q|..]; cbn; split; try done; try (intros ?%elem_of_nil; done); intros (? & ?%elem_of_nil & _); done.
  - rewrite foldl_app. by apply scan_entry_scanned.
Qed.

Lemma scan_reads s l : Forall (fun e => access e = AccessRead) l -> foldl (scan_entry env cwd) s l = s.
Proof.
  induction 1 as [|[path a] l Ha _ IH]; [done|]. cbn in Ha. subst a. cbn [foldl].
  replace (scan_entry env cwd s (mkEntry path AccessRead)) with s; [done|].
  unfold scan_entry. cbn [entry_path access can_write]. destruct path as [|?|[| |[]| | |]]; cbn [is_none andb]; try done;
    by destruct (resolve_file_system_special_path _ _ _).
Qed.

Lemma scan_paths s roots :
  foldl (scan_entry env cwd) s ((fun path => mkEntry (PathEntry path) AccessWrite) <$> roots)
  = mkScan (workspace_root_writable s || bool_decide (Exists (fun r => cwd = Some r) roots))
      (scan_writable_roots s ++ filter (fun r => cwd <> Some r) roots)
      (tmpdir_writable s) (slash_tmp_writable s) (unbridgeable_root_write s).
Proof.
  revert s. induction roots as [|r roots IH]; intros s; cbn [fmap list_fmap foldl].
  - destruct s. cbn. by rewrite orb_false_r, app_nil_r.
  - rewrite IH. unfold scan_entry. cbn [entry_path access can_write]. destruct (decide (cwd = Some r)) as [Hr|Hr];
      [rewrite (bool_decide_eq_true_2 (cwd = _)) by done|rewrite (bool_decide_eq_false_2 (cwd = _)) by done];
      cbn [scan_writable_roots workspace_root_writable tmpdir_writable slash_tmp_writable unbridgeable_root_write].
    + rewrite filter_cons_False by (intros Hn; by apply Hn).
      rewrite (bool_decide_eq_true_2 (Exists _ (r :: roots))) by (by constructor). by rewrite orb_true_r.
    + rewrite filter_cons_True, <- app_assoc by done. do 2 f_equal.
      apply bool_decide_ext. rewrite Exists_cons. naive_solver.
Qed.

End Scan.

(** ** Round trips *)

(** The defaults only add entries that grant reading. *)
Definition adds_reads (l l' : list FileSystemSandboxEntry) : Prop :=
  exists reads, l' = l ++ reads /\ Forall (fun e => access e = AccessRead) reads.

#[export] Instance adds_reads_preorder : PreOrder adds_reads.
Proof.
  split.
  - intros l. exists []. by rewrite app_nil_r.
  - intros l1 l2 l3 (r1 & -> & H1) (r2 & -> & H2). exists (r1 ++ r2). rewrite app_assoc. split; [done|]. by apply Forall_app.
Qed.

Lemma append_default_reads l path : adds_reads l (append_default_read_only_entry_if_no_explicit_rule l path).
Proof.
  unfold append_default_read_only_entry_if_no_explicit_rule. destruct (existsb _ _); [done|].
  exists [mkEntry path AccessRead]. split; [done|by repeat constructor].
Qed.

Lemma foldl_adds_reads {A} (f : list FileSystemSandboxEntry -> A -> list FileSystemSandboxEntry) xs l :
  (forall l x, adds_reads l (f l x)) -> adds_reads l (foldl f l xs).
Proof.
  intros Hf. revert l. induction xs as [|x xs IH]; intros l; cbn; [done|]. by transitivity (f l x).
Qed.

Lemma protect_root_reads env l r b : adds_reads l (protect_root env l r b).
Proof. apply foldl_adds_reads. intros. apply append_default_reads. Qed.

Lemma protect_roots_reads env l roots : adds_reads l (protect_roots env l roots).
Proof. apply foldl_adds_reads. intros. apply protect_root_reads. Qed.

Lemma workspace_write_reads env roots x y :
  exists reads, workspace_write env roots x y = restricted (workspace_entries roots x y ++ reads)
    /\ Forall (fun e => access e = AccessRead) reads.
Proof.
  unfold workspace_write. cbv zeta.
  assert (adds_reads (workspace_entries roots x y)
    (protect_roots env (append_default_read_only_project_root_subpath_if_no_explicit_rule
       (append_default_read_only_project_root_subpath_if_no_explicit_rule
         (append_default_read_only_project_root_subpath_if_no_explicit_rule (workspace_entries roots x y) GIT)
         AGENTS) CODEX) roots)) as (reads & -> & Hr).
  { etransitivity; [|apply protect_roots_reads]. do 2 (etransitivity; [|apply append_default_reads]).
    apply append_default_reads. }
  by exists reads.
Qed.

(** An older policy as the round trip returns it: the working directory is not listed
    among the writable roots, and each root once. *)
Definition tidy (env : Env) (cwd : Path) (p : SandboxPolicy) : SandboxPolicy :=
  match p with
  | WorkspaceWrite roots network_access x y =>
      WorkspaceWrite (dedup_absolute_paths env (filter (fun r => absolute env cwd <> Some r) roots) false)
        network_access x y
  | p => p
  end.

Lemma net_of_bool (b : bool) : net_is_enabled (if b then NetEnabled else NetRestricted) = b.
Proof. by destruct b. Qed.

Lemma no_root_write l roots x y :
  Forall (fun e => access e = AccessRead) l ->
  has_full_disk_write_access (restricted (workspace_entries roots x y ++ l)) = false.
Proof.
  intros Hl. unfold has_full_disk_write_access. cbn [fs_kind restricted]. apply andb_false_iff. left.
  unfold has_root_access. cbn [is_restricted restricted fs_kind entries]. apply not_true_iff_false.
  intros [_ (e & He & [Hp%bool_decide_eq_true Hw]%andb_true_iff)%existsb_exists]%andb_true_iff.
  apply list_elem_of_In, elem_of_app in He as [He|He].
  - unfold workspace_entries in He. rewrite !elem_of_app in He. destruct e as [path a]. cbn in Hp, Hw. subst path.
    destruct He as [He|[He|[He|He]]].
    + apply elem_of_cons in He as [[= ->]|He]; [done|]. by apply list_elem_of_singleton in He.
    + destruct y; [by apply elem_of_nil in He|]. by apply list_elem_of_singleton in He.
    + destruct x; [by apply elem_of_nil in He|]. by apply list_elem_of_singleton in He.
    + by apply list_elem_of_fmap in He as (? & ? & _).
  - rewrite Forall_forall in Hl. rewrite (Hl e He) in Hw. done.
Qed.

Lemma to_legacy_workspace env cwd roots (network_access x y : bool) l :
  Forall (fun e => access e = AccessRead) l ->
  to_legacy_sandbox_policy env (restricted (workspace_entries roots x y ++ l))
    (if network_access then NetEnabled else NetRestricted) cwd
  = Ok (tidy env cwd (WorkspaceWrite roots network_access x y)).
Proof.
  intros Hl. unfold to_legacy_sandbox_policy. cbn [fs_kind restricted]. rewrite (no_root_write l) by done.
  cbn [entries restricted]. unfold scan_entries. rewrite foldl_app, scan_reads by done.
  unfold workspace_entries. rewrite !foldl_app, scan_paths.
  destruct x, y, network_access; reflexivity.
Qed.

(** The older policies are embedded faithfully.  Turning one into a policy of
    entries, with or without the protections of a working directory, and projecting
    it back gives the older policy, with the working directory left out of the roots
    and each root listed once. *)
Theorem legacy_policy_roundtrip env p cwd :
  to_legacy_sandbox_policy env (fs_policy_from env p) (network_policy_from p) cwd = Ok (tidy env cwd p)
  /\ to_legacy_sandbox_policy env (from_legacy_sandbox_policy_for_cwd env p cwd) (network_policy_from p) cwd
     = Ok (tidy env cwd p).
Proof.
  destruct p as [|b|[]|roots b x y]; try (by destruct b); try done.
  destruct (workspace_write_reads env roots x y) as (reads & E & Hr).
  unfold network_policy_from. cbn [has_full_network_access].
  split.
  - cbn [fs_policy_from]. rewrite E. by apply to_legacy_workspace.
  - unfold from_legacy_sandbox_policy_for_cwd. cbn [fs_policy_from]. rewrite E. cbn [fs_kind glob_scan_max_depth restricted entries].
    set (l := match absolute env cwd with Some _ => _ | None => _ end).
    assert (adds_reads (workspace_entries roots x y) (protect_roots env l roots)) as (l' & -> & Hl').
    { etransitivity; [|apply protect_roots_reads]. transitivity (workspace_entries roots x y ++ reads); [by exists reads|].
      unfold l. destruct (absolute env cwd); [apply protect_root_reads|done]. }
    by apply to_legacy_workspace.
Qed.

(** ** Exactness of the projection *)

(** The writable entries of a policy, other than a grant of the whole disk. *)
Definition writes_below_root (env : Env) (p : FileSystemSandboxPolicy) (cwd path : Path) : Prop :=
  exists e, e ∈ entries p /\ access e = AccessWrite /\ entry_path e <> Special Root
    /\ resolve_entry_path env (entry_path e) (absolute env cwd) = Some path.

Lemma elem_of_option_list {A} (o : option A) x : x ∈ option_list o <-> o = Some x.
Proof. destruct o; cbn; [rewrite list_elem_of_singleton; naive_solver|split; [by intros ?%elem_of_nil|done]]. Qed.

Lemma legacy_root_spec env cwd roots b x y path :
  (exists r, r ∈ legacy_get_writable_roots_with_cwd env (WorkspaceWrite roots b x y) cwd /\ root r = path) <->
  path ∈ roots \/ absolute env cwd = Some path
  \/ (y = false /\ resolve_file_system_special_path env SlashTmp (absolute env cwd) = Some path)
  \/ (x = false /\ resolve_file_system_special_path env Tmpdir (absolute env cwd) = Some path).
Proof.
  cbn [legacy_get_writable_roots_with_cwd]. cbv zeta. setoid_rewrite list_elem_of_fmap. split.
  - intros (r & (q & -> & Hq) & <-). cbn [root]. rewrite !elem_of_app, !elem_of_option_list in Hq.
    destruct Hq as [Hq|[Hq|[Hq|Hq]]]; [by left|by right; left| |].
    + destruct y; [done|]. by right; right; left.
    + destruct x; [done|]. by right; right; right.
  - intros Hq. eexists. split; [eexists; split; [reflexivity|]|reflexivity].
    rewrite !elem_of_app, !elem_of_option_list. destruct Hq as [Hq|[Hq|[[-> Hq]|[-> Hq]]]]; auto.
Qed.

Lemma workspace_roots_exact env p cwd b path :
  let s := scan_entries env (absolute env cwd) (entries p) in
  workspace_root_writable s = true ->
  (exists r, r ∈ legacy_get_writable_roots_with_cwd env
      (WorkspaceWrite (dedup_absolute_paths env (scan_writable_roots s) false) b
         (negb (tmpdir_writable s)) (negb (slash_tmp_writable s))) cwd /\ root r = path)
  <-> writes_below_root env p cwd path.
Proof.
  intros s Hws. rewrite legacy_root_spec, elem_of_dedup_plain, !negb_false_iff.
  destruct (scan_entries_scanned env (absolute env cwd) (entries p)) as [H1 H2 H3 H4 _]. fold s in H1, H2, H3, H4.
  rewrite H1, H3, H4. apply H2 in Hws. unfold adds_root, adds_special, adds_workspace, writes_below_root in *. split.
  - intros [(e & He & Ha & Hm)|[Hc|[[(e & He & Ha & Hm) Hr]|[(e & He & Ha & Hm) Hr]]]].
    + exists e. destruct (entry_path e) as [q|g|[| |[sub|]| | |]] eqn:Ep; try done. cbn. destruct Hm as [-> _]. done.
    + destruct Hws as (e & He & Ha & Hm). exists e. destruct (entry_path e) as [q|g|[| |[sub|]| | |]] eqn:Ep; try done; cbn.
      * split_and!; [done..|]. congruence.
      * by rewrite Hc.
    + exists e. by rewrite Hm.
    + exists e. by rewrite Hm.
  - intros (e & He & Ha & Hne & Hr). destruct (entry_path e) as [q|g|[| |[sub|]| | |]] eqn:Ep; cbn in Hr; try done.
    + injection Hr as ->. destruct (decide (absolute env cwd = Some path)) as [E|E]; [by right; left|].
      left. exists e. by rewrite Ep.
    + left. exists e. by rewrite Ep.
    + right. left. by destruct (absolute env cwd).
    + right. right. right. split; [|done]. by exists e.
    + right. right. left. split; [|done]. by exists e.
Qed.

Lemma full_access_spec n :
  has_full_network_access (full_access_of n) = net_is_enabled n
  /\ legacy_has_full_disk_write_access (full_access_of n) = true.
Proof. by destruct n. Qed.

(** The projection to an older policy is exact.  When it succeeds, the older policy
    has the same network access, full disk writes just when the policy has, and else
    its writable roots are exactly the writable entries of the policy (a narrowed
    grant of the whole disk aside).  It fails only for a policy that writes somewhere
    and does not make the working directory writable. *)
Theorem legacy_projection_exact env p network_policy cwd :
  match to_legacy_sandbox_policy env p network_policy cwd with
  | Ok legacy =>
      has_full_network_access legacy = net_is_enabled network_policy
      /\ legacy_has_full_disk_write_access legacy = has_full_disk_write_access p
      /\ (has_full_disk_write_access p = false -> forall path,
            (exists r, r ∈ legacy_get_writable_roots_with_cwd env legacy cwd /\ root r = path)
            <-> writes_below_root env p cwd path)
  | Err _ =>
      (exists e, e ∈ entries p /\ access e = AccessWrite)
      /\ forall e, e ∈ entries p -> ~ adds_workspace (absolute env cwd) e
  | _ => False
  end.
Proof.
  unfold to_legacy_sandbox_policy. destruct (fs_kind p) eqn:Hk.
  2-3: assert (has_full_disk_write_access p = true) as Hf by (unfold has_full_disk_write_access; by rewrite Hk);
    rewrite Hf; by destruct network_policy.
  destruct (has_full_disk_write_access p) eqn:Hf.
  { destruct (full_access_spec network_policy) as [-> ->]. done. }
  set (s := scan_entries env (absolute env cwd) (entries p)).
  destruct (workspace_root_writable s) eqn:Hws.
  { split_and!; [done|done|]. intros _ path. by apply workspace_roots_exact. }
  destruct (scan_entries_scanned env (absolute env cwd) (entries p)) as [H1 H2 H3 H4 H5]. fold s in H1, H2, H3, H4, H5.
  assert (forall e, e ∈ entries p -> ~ adds_workspace (absolute env cwd) e) as Hno.
  { intros e He Ha. assert (workspace_root_writable s = true) by (apply H2; by exists e). congruence. }
  destruct (_ || _) eqn:Eb.
  - split; [|done]. rewrite !orb_true_iff, negb_true_iff in Eb. destruct Eb as [[[Hu|Hr]|Ht]|Hs].
    + apply H5 in Hu as (e & He & Ha & _). by exists e.
    + destruct (scan_writable_roots s) as [|q l] eqn:El; [done|].
      destruct (proj1 (H1 q)) as (e & He & Ha & _); [set_solver|by exists e].
    + apply H3 in Ht as (e & He & Ha & _). by exists e.
    + apply H4 in Hs as (e & He & Ha & _). by exists e.
  - rewrite !orb_false_iff, negb_false_iff in Eb. destruct Eb as [[[Hu Hr] Ht] Hs].
    apply is_nil_true in Hr. split_and!; [done|done|]. intros _ path. split; [by intros (? & ?%elem_of_nil & _)|].
    intros (e & He & Ha & Hne & Hres). exfalso.
    destruct (entry_path e) as [q|g|[| |[sub|]| | |]] eqn:Ep; cbn in Hres; try done.
    + destruct (decide (absolute env cwd = Some q)) as [E|E]; [apply (Hno e He); split; by rewrite ?Ep|].
      assert (q ∈ scan_writable_roots s) as Hq by (apply H1; exists e; unfold adds_root; by rewrite Ep).
      rewrite Hr in Hq. by apply elem_of_nil in Hq.
    + assert (path ∈ scan_writable_roots s) as Hq by (apply H1; exists e; unfold adds_root; by rewrite Ep).
      rewrite Hr in Hq. by apply elem_of_nil in Hq.
    + apply (Hno e He). split; by rewrite ?Ep.
    + assert (tmpdir_writable s = true) by (apply H3; by exists e). congruence.
    + assert (slash_tmp_writable s = true) by (apply H4; by exists e). congruence.
Qed.
