(* ===== verification/PermissionProfiles.v ===== *)
(** * Permission profiles and grants (protocol/src/models.rs,
    sandboxing/src/policy_transforms.rs)

    A profile says who enforces the sandbox and what it allows; an additional
    profile is what a command asks for or a user grants.  The file models how
    requests are normalised, merged, intersected and applied. *)

From S2P Require Import Prelude RustStr AbsolutePath SandboxPaths Permissions PermissionLegacy.

(** ** Profiles *)

(** [NonZeroUsize::new]. *)
Definition non_zero (n : nat) : option nat := if n =? 0 then None else Some n.

Inductive SandboxPermissions := UseDefault | RequireEscalated | WithAdditionalPermissions.
Definition requires_escalated_permissions (s : SandboxPermissions) : bool :=
  match s with RequireEscalated => true | _ => false end.
Definition requests_sandbox_override (s : SandboxPermissions) : bool :=
  match s with UseDefault => false | _ => true end.
Definition uses_additional_permissions (s : SandboxPermissions) : bool :=
  match s with WithAdditionalPermissions => true | _ => false end.

Record FileSystemPermissions := mkFsPermissions {
  perm_entries : list FileSystemSandboxEntry;
  perm_glob_scan_max_depth : option nat }.
Definition fs_permissions_is_empty (f : FileSystemPermissions) : bool := is_nil (perm_entries f).

Definition from_read_write_roots (read write : option (list AbsolutePathBuf)) : FileSystemPermissions :=
  mkFsPermissions
    (((fun path => mkEntry (PathEntry path) AccessRead) <$> default [] read)
     ++ ((fun path => mkEntry (PathEntry path) AccessWrite) <$> default [] write)) None.

Definition explicit_path_entries (f : FileSystemPermissions) : list (AbsolutePathBuf * FileSystemAccessMode) :=
  omap (fun e => match entry_path e with PathEntry path => Some (path, access e) | _ => None end) (perm_entries f).

(** The loop of [as_legacy_permissions]. *)
Fixpoint legacy_roots_loop (l : list FileSystemSandboxEntry) (read write : list AbsolutePathBuf)
  : option (list AbsolutePathBuf * list AbsolutePathBuf) :=
  match l with
  | [] => Some (read, write)
  | e :: rest =>
      match entry_path e, access e with
      | PathEntry path, AccessRead => legacy_roots_loop rest (read ++ [path]) write
      | PathEntry path, AccessWrite => legacy_roots_loop rest read (write ++ [path])
      | _, _ => None
      end
  end.
Definition not_empty {A} (l : list A) : option (list A) := if is_nil l then None else Some l.
Definition legacy_read_write_roots (f : FileSystemPermissions)
  : option (option (list AbsolutePathBuf) * option (list AbsolutePathBuf)) :=
  match perm_glob_scan_max_depth f with
  | Some _ => None
  | None => '(read, write) ← legacy_roots_loop (perm_entries f) [] [];
            Some (not_empty read, not_empty write)
  end.

Record NetworkPermissions := mkNetPermissions { net_enabled : option bool }.
Definition network_permissions_is_empty (n : NetworkPermissions) : bool := is_none (net_enabled n).

Record AdditionalPermissionProfile := mkAdditional {
  add_network : option NetworkPermissions;
  add_file_system : option FileSystemPermissions }.
Definition additional_is_empty (a : AdditionalPermissionProfile) : bool :=
  is_none (add_network a) && is_none (add_file_system a).

Inductive SandboxEnforcement := EnforceManaged | EnforceDisabled | EnforceExternal.
#[export] Instance SandboxEnforcement_eq_dec : EqDecision SandboxEnforcement.
Proof. solve_decision. Defined.

Definition enforcement_from_legacy (p : SandboxPolicy) : SandboxEnforcement :=
  match p with
  | DangerFullAccess => EnforceDisabled
  | ExternalSandbox _ => EnforceExternal
  | ReadOnly _ | WorkspaceWrite _ _ _ _ => EnforceManaged
  end.

Inductive ManagedFileSystemPermissions :=
| ManagedRestricted (entries : list FileSystemSandboxEntry) (glob_scan_max_depth : option nat)
| ManagedUnrestricted.

(** [from_sandbox_policy] panics on an external policy. *)
Definition managed_from_sandbox_policy (p : FileSystemSandboxPolicy) : result unit ManagedFileSystemPermissions :=
  match fs_kind p with
  | KindRestricted => Ok (ManagedRestricted (entries p) (d ← glob_scan_max_depth p; non_zero d))
  | KindUnrestricted => Ok ManagedUnrestricted
  | KindExternalSandbox => Panic
  end.
Definition managed_to_sandbox_policy (m : ManagedFileSystemPermissions) : FileSystemSandboxPolicy :=
  match m with
  | ManagedRestricted entries depth => mkFsPolicy KindRestricted depth entries
  | ManagedUnrestricted => unrestricted
  end.

Inductive PermissionProfile :=
| Managed (file_system : ManagedFileSystemPermissions) (network : NetworkSandboxPolicy)
| Disabled
| External (network : NetworkSandboxPolicy).

Definition profile_default : PermissionProfile := Managed (ManagedRestricted [] None) NetRestricted.
Definition profile_read_only : PermissionProfile :=
  Managed (ManagedRestricted [mkEntry (Special Root) AccessRead] None) NetRestricted.

Definition from_runtime_permissions_with_enforcement (enforcement : SandboxEnforcement)
    (p : FileSystemSandboxPolicy) (network : NetworkSandboxPolicy) : result unit PermissionProfile :=
  match fs_kind p with
  | KindExternalSandbox => Ok (External network)
  | KindUnrestricted =>
      if bool_decide (enforcement = EnforceDisabled) then Ok Disabled
      else let? m := managed_from_sandbox_policy p in Ok (Managed m network)
  | KindRestricted => let? m := managed_from_sandbox_policy p in Ok (Managed m network)
  end.

Definition from_runtime_permissions (p : FileSystemSandboxPolicy) (network : NetworkSandboxPolicy)
  : result unit PermissionProfile :=
  let enforcement := match fs_kind p with
                     | KindRestricted | KindUnrestricted => EnforceManaged
                     | KindExternalSandbox => EnforceExternal
                     end in
  from_runtime_permissions_with_enforcement enforcement p network.

Definition enforcement (p : PermissionProfile) : SandboxEnforcement :=
  match p with Managed _ _ => EnforceManaged | Disabled => EnforceDisabled | External _ => EnforceExternal end.

Definition file_system_sandbox_policy (p : PermissionProfile) : FileSystemSandboxPolicy :=
  match p with
  | Managed file_system _ => managed_to_sandbox_policy file_system
  | Disabled => unrestricted
  | External _ => external_sandbox
  end.
Definition network_sandbox_policy (p : PermissionProfile) : NetworkSandboxPolicy :=
  match p with Managed _ network | External network => network | Disabled => NetEnabled end.

Definition to_runtime_permissions (p : PermissionProfile) : FileSystemSandboxPolicy * NetworkSandboxPolicy :=
  (file_system_sandbox_policy p, network_sandbox_policy p).

Definition fs_permissions_from_policy (p : FileSystemSandboxPolicy) : FileSystemPermissions :=
  mkFsPermissions
    (match fs_kind p with
     | KindRestricted => entries p
     | KindUnrestricted | KindExternalSandbox => [mkEntry (Special Root) AccessWrite]
     end)
    (d ← glob_scan_max_depth p; non_zero d).
Definition fs_policy_from_permissions (f : FileSystemPermissions) : FileSystemSandboxPolicy :=
  mkFsPolicy KindRestricted (perm_glob_scan_max_depth f) (perm_entries f).

(** [LegacyPermissionProfile] as read from old rollout files. *)
Definition profile_from_legacy_record (network : option NetworkPermissions)
    (file_system : option FileSystemPermissions) : result unit PermissionProfile :=
  let p := match file_system with Some f => fs_policy_from_permissions f | None => restricted [] end in
  let n := if default false (n ← network; net_enabled n) then NetEnabled else NetRestricted in
  from_runtime_permissions p n.

(** ** Requests (policy_transforms.rs) *)

Section Transforms.
Context (env : Env).

Definition from_legacy_sandbox_policy (p : SandboxPolicy) : result unit PermissionProfile :=
  from_runtime_permissions_with_enforcement (enforcement_from_legacy p) (fs_policy_from env p)
    (network_policy_from p).
Definition profile_from_legacy_for_cwd (p : SandboxPolicy) (cwd : Path) : result unit PermissionProfile :=
  from_runtime_permissions_with_enforcement (enforcement_from_legacy p)
    (from_legacy_sandbox_policy_for_cwd env p cwd) (network_policy_from p).
Definition profile_workspace_write_with (writable_roots : list AbsolutePathBuf) (network : NetworkSandboxPolicy)
    (exclude_tmpdir_env_var exclude_slash_tmp : bool) : result unit PermissionProfile :=
  let? m := managed_from_sandbox_policy
              (workspace_write env writable_roots exclude_tmpdir_env_var exclude_slash_tmp) in
  Ok (Managed m network).
Definition profile_to_legacy_sandbox_policy (p : PermissionProfile) (cwd : Path) : result str SandboxPolicy :=
  match p with
  | Managed file_system network => to_legacy_sandbox_policy env (managed_to_sandbox_policy file_system) network cwd
  | Disabled => Ok DangerFullAccess
  | External network => Ok (ExternalSandbox (network_access_of network))
  end.

Definition GLOB_READ_ONLY : str := L"glob file system permissions only support deny-read entries".

Definition normalize_entry (e : FileSystemSandboxEntry) : FileSystemSandboxEntry :=
  match entry_path e with
  | PathEntry path =>
      mkEntry (PathEntry (default path (q ← canonicalize_preserving_symlinks env path; absolute env q))) (access e)
  | _ => e
  end.
Fixpoint normalize_entries (l acc : list FileSystemSandboxEntry) : result str (list FileSystemSandboxEntry) :=
  match l with
  | [] => Ok acc
  | e :: rest =>
      match entry_path e with
      | GlobPattern _ =>
          if bool_decide (access e = AccessNone) then normalize_entries rest (push_missing acc (normalize_entry e))
          else Err GLOB_READ_ONLY
      | _ => normalize_entries rest (push_missing acc (normalize_entry e))
      end
  end.

Definition keep_unless {A} (is_empty : A -> bool) (o : option A) : option A :=
  a ← o; if is_empty a then None else Some a.

Definition normalize_additional_permissions (a : AdditionalPermissionProfile)
  : result str AdditionalPermissionProfile :=
  let network := keep_unless network_permissions_is_empty (add_network a) in
  match add_file_system a with
  | None => Ok (mkAdditional network None)
  | Some file_system =>
      let? es := normalize_entries (perm_entries file_system) [] in
      Ok (mkAdditional network
            (keep_unless fs_permissions_is_empty
              (Some (mkFsPermissions es (perm_glob_scan_max_depth file_system)))))
  end.

Inductive GlobScanDepth := Bounded (depth : nat) | Unbounded.

Definition effective_glob_scan_depth (l : list FileSystemSandboxEntry) (depth : option nat) : option GlobScanDepth :=
  if existsb (fun e => bool_decide (access e = AccessNone)
                       && match entry_path e with GlobPattern _ => true | _ => false end) l
  then Some (match depth with Some depth => Bounded depth | None => Unbounded end)
  else None.

Definition merge_glob_scan_max_depth (left_entries : list FileSystemSandboxEntry) (left_depth : option nat)
    (right_entries : list FileSystemSandboxEntry) (right_depth : option nat) : option nat :=
  match effective_glob_scan_depth left_entries left_depth, effective_glob_scan_depth right_entries right_depth with
  | Some Unbounded, _ | _, Some Unbounded => None
  | Some (Bounded l), Some (Bounded r) => Some (Nat.max l r)
  | Some (Bounded depth), None | None, Some (Bounded depth) => Some depth
  | None, None => None
  end.

Definition merge_permission_entries (base permissions : list FileSystemSandboxEntry) : list FileSystemSandboxEntry :=
  foldl push_missing [] (base ++ permissions).

Definition enables (n : option NetworkPermissions) : bool :=
  match n with Some (mkNetPermissions (Some true)) => true | _ => false end.
Definition network_on : option NetworkPermissions := Some (mkNetPermissions (Some true)).

Definition merge_permission_profiles (base permissions : option AdditionalPermissionProfile)
  : option AdditionalPermissionProfile :=
  match permissions with
  | None => base
  | Some permissions =>
      match base with
      | None => keep_unless additional_is_empty (Some permissions)
      | Some base =>
          let network := if enables (add_network base) || enables (add_network permissions)
                         then network_on else None in
          let file_system :=
            match add_file_system base, add_file_system permissions with
            | Some base, Some permissions =>
                keep_unless fs_permissions_is_empty
                  (Some (mkFsPermissions
                    (merge_permission_entries (perm_entries base) (perm_entries permissions))
                    (d ← merge_glob_scan_max_depth (perm_entries base) (perm_glob_scan_max_depth base)
                           (perm_entries permissions) (perm_glob_scan_max_depth permissions);
                     non_zero d)))
            | Some base, None => Some base
            | None, Some permissions => Some permissions
            | None, None => None
            end in
          keep_unless additional_is_empty (Some (mkAdditional network file_system))
      end
  end.

Definition access_covers (requested granted : FileSystemAccessMode) : bool :=
  match granted with
  | AccessRead => can_read requested
  | AccessWrite => can_write requested
  | AccessNone => false
  end.

Definition resolve_permission_path (path : FileSystemPath) (cwd : Path) : option AbsolutePathBuf :=
  match path with
  | PathEntry path => Some path
  | GlobPattern _ => None
  | Special Root => root ← last (ancestors cwd); absolute env root
  | Special (ProjectRoots subpath) =>
      cwd ← absolute env cwd;
      Some (match subpath with Some subpath => abs_join env cwd subpath | None => cwd end)
  | Special Tmpdir =>
      tmpdir ← tmpdir_var env;
      if is_nil tmpdir then None else from_absolute_path (home_dir env) (current_dir env) tmpdir
  | Special SlashTmp =>
      path ← absolute env [RootDir; Normal (L"tmp")];
      if is_dir env path then Some path else None
  | Special Minimal | Special (Unknown _ _) => None
  end.

Definition materialize_cwd_dependent_entry (e : FileSystemSandboxEntry) (cwd : Path) : FileSystemSandboxEntry :=
  match entry_path e with
  | Special (ProjectRoots _) =>
      match resolve_permission_path (entry_path e) cwd with
      | Some path => mkEntry (PathEntry path) (access e)
      | None => e
      end
  | GlobPattern pattern => mkEntry (GlobPattern (display (resolve_against env pattern cwd))) (access e)
  | _ => e
  end.

Definition paths_overlap (a b : Path) : bool := path_starts_with a b || path_starts_with b a.

Definition is_glob_char (c : char) : bool := bool_decide (c ∈ L"*?[]").

(** The text before the first glob character. *)
Fixpoint glob_free_prefix (s : str) : str :=
  match s with
  | [] => []
  | c :: s' => if is_glob_char c then [] else c :: glob_free_prefix s'
  end.

Definition glob_static_prefix_path (pattern : str) (cwd : Path) : option AbsolutePathBuf :=
  let resolved_pattern := display (resolve_against env pattern cwd) in
  let prefix := glob_free_prefix resolved_pattern in
  let absolute_text p := from_absolute_path (home_dir env) (current_dir env) p in
  if bool_decide (prefix = resolved_pattern) then absolute_text prefix
  else if is_nil prefix then None
  else if ends_with [SLASH] prefix || ends_with [92%N] prefix then absolute_text prefix
  else parent ← path_parent (components prefix); absolute env parent.

Definition deny_entry_constrains_accepted_grant (deny_entry : FileSystemSandboxEntry)
    (accepted_entries : list FileSystemSandboxEntry) (cwd : Path) : bool :=
  existsb (fun e =>
    can_read (access e) &&
    match resolve_permission_path (entry_path e) cwd with
    | None => false
    | Some grant_path =>
        match entry_path deny_entry with
        | GlobPattern pattern =>
            match glob_static_prefix_path pattern cwd with
            | Some prefix => paths_overlap prefix grant_path
            | None => false
            end
        | _ => match resolve_permission_path (entry_path deny_entry) cwd with
               | Some deny_path => paths_overlap deny_path grant_path
               | None => false
               end
        end
    end) accepted_entries.

(** The denials of [source] that cut into what is accepted. *)
Definition retained_deny_entries (source accepted : list FileSystemSandboxEntry) (cwd : Path)
  : list FileSystemSandboxEntry :=
  (fun e => materialize_cwd_dependent_entry e cwd) <$>
    filter (fun e => deny_entry_constrains_accepted_grant e accepted cwd = true)
      (filter (fun e => access e = AccessNone) source).
Definition retain_constraining_deny_entries (source accepted : list FileSystemSandboxEntry) (cwd : Path)
    (output : list FileSystemSandboxEntry) : list FileSystemSandboxEntry * list FileSystemSandboxEntry :=
  let retained := retained_deny_entries source accepted cwd in
  (foldl push_missing output retained, retained).

Definition granted_file_system_entry_within_request (requested : FileSystemPermissions)
    (requested_policy : FileSystemSandboxPolicy) (matcher : option ReadDenyMatcher)
    (granted_entry : FileSystemSandboxEntry) (cwd : Path) : bool :=
  if negb (can_read (access granted_entry)) then false else
  match resolve_permission_path (entry_path granted_entry) cwd with
  | Some path =>
      if match matcher with Some m => is_read_denied env m path | None => false end then false
      else access_covers (resolve_access_with_cwd env requested_policy path cwd) (access granted_entry)
  | None =>
      existsb (fun requested_entry =>
        access_covers (access requested_entry) (access granted_entry)
        && bool_decide (entry_path requested_entry = entry_path granted_entry)) (perm_entries requested)
  end.

(** The entries of [granted] within [requested], made independent of the directory. *)
Definition accepted_entries (requested granted : FileSystemPermissions) (cwd : Path) : list FileSystemSandboxEntry :=
  let requested_policy := restricted (perm_entries requested) in
  let matcher := read_deny_matcher_new env requested_policy cwd in
  foldl push_missing []
    ((fun e => materialize_cwd_dependent_entry e cwd) <$>
       filter (fun e => granted_file_system_entry_within_request requested requested_policy matcher e cwd = true)
         (perm_entries granted)).

Definition intersect_file_system (requested granted : FileSystemPermissions) (cwd : Path) : FileSystemPermissions :=
  let accepted := accepted_entries requested granted cwd in
  let '(es, requested_retained) := retain_constraining_deny_entries (perm_entries requested) accepted cwd accepted in
  let '(es, granted_retained) := retain_constraining_deny_entries (perm_entries granted) accepted cwd es in
  mkFsPermissions es
    (d ← merge_glob_scan_max_depth requested_retained (perm_glob_scan_max_depth requested)
           granted_retained (perm_glob_scan_max_depth granted); non_zero d).

Definition intersect_permission_profiles (requested granted : AdditionalPermissionProfile) (cwd : Path)
  : AdditionalPermissionProfile :=
  let file_system :=
    keep_unless fs_permissions_is_empty
      ((fun requested_file_system =>
          intersect_file_system requested_file_system
            (default (mkFsPermissions [] None) (add_file_system granted)) cwd) <$> add_file_system requested) in
  let network := if enables (add_network requested) && enables (add_network granted) then network_on else None in
  mkAdditional network file_system.

(** ** Effective permissions *)

Definition merge_file_system_policy_with_additional_permissions (p : FileSystemSandboxPolicy)
    (additional : FileSystemPermissions) : FileSystemSandboxPolicy :=
  match fs_kind p with
  | KindRestricted =>
      mkFsPolicy KindRestricted
        (merge_glob_scan_max_depth (entries p) (glob_scan_max_depth p) (perm_entries additional)
           (perm_glob_scan_max_depth additional))
        (foldl push_missing (entries p) (perm_entries additional))
  | KindUnrestricted | KindExternalSandbox => p
  end.

Definition effective_file_system_sandbox_policy (p : FileSystemSandboxPolicy)
    (additional : option AdditionalPermissionProfile) : FileSystemSandboxPolicy :=
  match (a ← additional; add_file_system a) with
  | None => p
  | Some file_system =>
      if fs_permissions_is_empty file_system then p
      else merge_file_system_policy_with_additional_permissions p file_system
  end.

Definition merge_network_access (base_network_access : bool) (a : AdditionalPermissionProfile) : bool :=
  base_network_access || default false (n ← add_network a; net_enabled n).

Definition effective_network_sandbox_policy (network_policy : NetworkSandboxPolicy)
    (additional : option AdditionalPermissionProfile) : NetworkSandboxPolicy :=
  match additional with
  | Some permissions =>
      if merge_network_access (net_is_enabled network_policy) permissions then NetEnabled else NetRestricted
  | None => network_policy
  end.

Definition effective_permission_profile (p : PermissionProfile) (additional : option AdditionalPermissionProfile)
  : result unit PermissionProfile :=
  let '(file_system_policy, network_policy) := to_runtime_permissions p in
  from_runtime_permissions_with_enforcement (enforcement p)
    (effective_file_system_sandbox_policy file_system_policy additional)
    (effective_network_sandbox_policy network_policy additional).

Definition should_require_platform_sandbox (p : FileSystemSandboxPolicy) (network_policy : NetworkSandboxPolicy)
    (has_managed_network_requirements : bool) : bool :=
  if has_managed_network_requirements then true
  else if negb (net_is_enabled network_policy) then negb (bool_decide (fs_kind p = KindExternalSandbox))
  else match fs_kind p with
       | KindRestricted => negb (has_full_disk_write_access p)
       | KindUnrestricted | KindExternalSandbox => false
       end.

End Transforms.
