(* ===== verification/PermissionGrants.v ===== *)
(** * What requests and grants can add

    Profiles survive the way to the runtime and back; what is granted never exceeds
    what was requested; denials survive additional permissions. *)

From S2P Require Import Prelude RustStr AbsolutePath SandboxPaths Permissions PermissionSafety PermissionLegacy PermissionProfiles.

(** ** Lists of entries *)

Lemma elem_of_push_missing l acc e : e ∈ foldl push_missing acc l <-> e ∈ acc \/ e ∈ l.
Proof.
  revert acc. induction l as [|x l IH]; intros acc; cbn; [set_solver|].
  rewrite IH. unfold push_missing. case_bool_decide; set_solver.
Qed.

Section Grants.
Context (env : Env) (cwd : Path).
Context (Henv : env_ok env) (Hcwd : abs_ok cwd).

Abbreviation resolves e path := (resolve_entry_path env (entry_path e) (Some cwd) = Some path) (only parsing).

Lemma elem_of_resolved p r :
  r ∈ resolved_entries_with_cwd env p cwd <->
  exists e, e ∈ entries p /\ resolves e (resolved_path r) /\ resolved_access r = access e.
Proof.
  unfold resolved_entries_with_cwd. rewrite absolute_ok by done. rewrite list_elem_of_omap. split.
  - intros (e & He & (path & Hp & ->)%fmap_Some). by exists e.
  - intros (e & He & Hp & Ha). exists e. split; [done|]. apply fmap_Some. exists (resolved_path r).
    split; [done|]. destruct r. cbn in *. by subst.
Qed.

Lemma permission_path path : resolve_permission_path env path cwd = resolve_entry_path env path (Some cwd).
Proof.
  destruct path as [|?|[]]; cbn; rewrite ?absolute_ok by done; done.
Qed.

Lemma materialize_access e : access (materialize_cwd_dependent_entry env e cwd) = access e.
Proof.
  destruct e as [path a]. unfold materialize_cwd_dependent_entry. destruct path as [|?|[]]; cbn; try done.
  by destruct (mbind _ _).
Qed.

Lemma materialize_resolves e :
  resolve_entry_path env (entry_path (materialize_cwd_dependent_entry env e cwd)) (Some cwd)
  = resolve_entry_path env (entry_path e) (Some cwd).
Proof.
  destruct e as [path a]. unfold materialize_cwd_dependent_entry. cbn [entry_path access].
  destruct path as [|?|[]]; try done. rewrite permission_path. by destruct (resolve_entry_path _ _ _) eqn:E.
Qed.

Section Intersect.
Context (requested granted : FileSystemPermissions).

Abbreviation Q := (restricted (perm_entries requested)).
Abbreviation R := (restricted (perm_entries (intersect_file_system env requested granted cwd))).
Abbreviation accepted := (accepted_entries env requested granted cwd).

Context (Hg : policy_paths_ok (restricted (perm_entries granted))).

Lemma elem_of_intersection e :
  e ∈ perm_entries (intersect_file_system env requested granted cwd) <->
  e ∈ accepted \/ e ∈ retained_deny_entries env (perm_entries requested) accepted cwd
  \/ e ∈ retained_deny_entries env (perm_entries granted) accepted cwd.
Proof. cbn. rewrite !elem_of_push_missing. set_solver. Qed.

Lemma elem_of_accepted e :
  e ∈ accepted <->
  exists g, e = materialize_cwd_dependent_entry env g cwd /\ g ∈ perm_entries granted
    /\ granted_file_system_entry_within_request env requested Q (read_deny_matcher_new env Q cwd) g cwd = true.
Proof.
  unfold accepted_entries. cbv zeta. rewrite elem_of_push_missing, list_elem_of_fmap.
  setoid_rewrite list_elem_of_filter. set_solver.
Qed.

Lemma elem_of_retained e source :
  e ∈ retained_deny_entries env source accepted cwd <->
  exists d, e = materialize_cwd_dependent_entry env d cwd /\ d ∈ source /\ access d = AccessNone
    /\ deny_entry_constrains_accepted_grant env d accepted cwd = true.
Proof.
  unfold retained_deny_entries. rewrite list_elem_of_fmap. do 2 setoid_rewrite list_elem_of_filter. naive_solver.
Qed.

(** An accepted entry that resolves was covered by the request. *)
Lemma accepted_covered e path :
  e ∈ accepted -> resolves e path ->
  access_covers (resolve_access_with_cwd env Q path cwd) (access e) = true.
Proof.
  intros (g & -> & _ & Hw)%elem_of_accepted Hr. rewrite materialize_access.
  rewrite materialize_resolves in Hr. unfold granted_file_system_entry_within_request in Hw.
  rewrite permission_path, Hr in Hw. destruct (negb _); [done|]. by destruct (match _ with Some _ => _ | None => _ end).
Qed.

Lemma accepted_reads e : e ∈ accepted -> can_read (access e) = true.
Proof.
  intros (g & -> & _ & Hw)%elem_of_accepted. rewrite materialize_access.
  unfold granted_file_system_entry_within_request in Hw. by destruct (can_read (access g)).
Qed.

Lemma accepted_ok e path : e ∈ accepted -> resolves e path -> abs_ok path.
Proof.
  intros (g & -> & Hin & _)%elem_of_accepted. rewrite materialize_resolves.
  apply resolve_entry_ok; [done| |by intros c [= <-]].
  intros a Ea. unfold policy_paths_ok in Hg. rewrite Forall_forall in Hg. specialize (Hg g Hin). by rewrite Ea in Hg.
Qed.

(** A denial of the request at or below an accepted entry is kept. *)
Lemma deny_kept e path d dpath :
  e ∈ accepted -> resolves e path -> d ∈ perm_entries requested -> access d = AccessNone ->
  resolves d dpath -> path `prefix_of` dpath ->
  mkResolved dpath AccessNone ∈ resolved_entries_with_cwd env R cwd.
Proof.
  intros He Hr Hd Ha Hdr Hpre. apply elem_of_resolved. exists (materialize_cwd_dependent_entry env d cwd).
  split; [|by rewrite materialize_resolves, materialize_access].
  apply elem_of_intersection. right. left. apply elem_of_retained. exists d. split_and!; [done..|].
  unfold deny_entry_constrains_accepted_grant. apply existsb_exists. exists e.
  split; [by apply list_elem_of_In|]. rewrite accepted_reads by done. cbn [andb]. rewrite permission_path, Hr.
  assert (paths_overlap dpath path = true) as Ho by (apply orb_true_iff; left; by apply path_starts_with_spec).
  destruct (entry_path d) eqn:Ed; [|done|]; rewrite permission_path; by rewrite Hdr.
Qed.

(** The request on a path the intersection grants: covered, or decided by an entry
    that only reads and lies below the accepted one. *)
Lemma intersection_covered target r :
  abs_ok target -> deciding (resolved_entries_with_cwd env R cwd) target r -> can_read (resolved_access r) = true ->
  exists q, deciding (resolved_entries_with_cwd env Q cwd) target q /\ can_read (resolved_access q) = true
    /\ (access_covers (resolved_access q) (resolved_access r) = true
        \/ resolved_path r `prefix_of` resolved_path q /\ resolved_path r <> resolved_path q).
Proof.
  intros Ht Hd Hread. destruct (proj1 (elem_of_resolved R r) (deciding_in _ _ _ Hd)) as (e & He & Hr & Ha).
  cbn [entries restricted] in He. apply elem_of_intersection in He as [He|He].
  2: { destruct He as [He|He]; apply elem_of_retained in He as (d & -> & _ & Hn & _);
         rewrite materialize_access, Hn in Ha; by rewrite Ha in Hread. }
  pose proof (accepted_covered e _ He Hr) as Hcov. rewrite <- Ha in Hcov.
  pose proof (deciding_covers _ _ _ Hd) as Hct. unfold covers in Hct.
  assert (abs_ok (resolved_path r)) as Hok by (by eapply accepted_ok).
  destruct (access_decided env Q (resolved_path r) cwd (resolved_path r) eq_refl (candidate_ok _ _ _ Hok))
    as [(q0 & Hq0 & E0)|[_ E0]]; rewrite E0 in Hcov; [|by destruct (resolved_access r)].
  assert (covers q0 target) as Hc0 by (unfold covers; transitivity (resolved_path r); [apply Hq0|done]).
  destruct (access_decided env Q target cwd target eq_refl (candidate_ok _ _ _ Ht)) as [(q & Hq & _)|[Hn _]];
    [|destruct (Hn q0); [apply Hq0|done]].
  exists q. split; [done|]. pose proof (deciding_covers _ _ _ Hq) as Hcq. unfold covers in Hcq.
  destruct (decide (length (resolved_path q) <= length (resolved_path r))) as [Hl|Hl].
  - assert (resolved_path q `prefix_of` resolved_path r) as Hqr by (by eapply prefix_shorter).
    assert (deciding (resolved_entries_with_cwd env Q cwd) (resolved_path r) q) as Hqd.
    { split; [apply Hq|done|]. intros e' He' Hce'. apply (deciding_most _ _ _ Hq); [done|].
      unfold covers in *. by transitivity (resolved_path r). }
    rewrite (deciding_unique _ _ _ _ Hq0 Hqd) in Hcov.
    split; [|by left]. destruct (resolved_access q), (resolved_access r); done.
  - assert (resolved_path r `prefix_of` resolved_path q) as Hrq by (eapply prefix_shorter; [done|done|lia]).
    split; [|right; split; [done|]; intros E; rewrite E in Hl; lia].
    destruct (resolved_access q) eqn:Eq; try done. exfalso.
    destruct (proj1 (elem_of_resolved Q q) (deciding_in _ _ _ Hq)) as (d & Hdin & Hdr & Hda).
    rewrite Eq in Hda. pose proof (deny_kept e _ d _ He Hr Hdin (eq_sym Hda) Hdr Hrq) as Hin.
    destruct (deciding_most _ _ _ Hd _ Hin Hcq) as [Hpre _]. cbn in Hpre. apply prefix_length in Hpre. lia.
Qed.

End Intersect.
End Grants.

(** ** Theorems *)

(** The policy a set of additional permissions amounts to by itself. *)
Definition grants_of (a : AdditionalPermissionProfile) : FileSystemSandboxPolicy :=
  restricted (default [] (perm_entries <$> add_file_system a)).

Lemma grants_of_intersection env requested granted cwd f :
  add_file_system requested = Some f ->
  grants_of (intersect_permission_profiles env requested granted cwd)
  = restricted (perm_entries (intersect_file_system env f (default (mkFsPermissions [] None) (add_file_system granted)) cwd)).
Proof.
  intros E. unfold grants_of, intersect_permission_profiles, keep_unless. rewrite E. cbn [add_file_system fmap option_fmap option_map].
  set (r := intersect_file_system _ _ _ _). destruct r as [l d]. cbn. by destruct l.
Qed.

Lemma no_grants_no_access env target cwd : abs_ok target -> resolve_access_with_cwd env (restricted []) target cwd = AccessNone.
Proof. intros Ht. unfold resolve_access_with_cwd. cbn. by rewrite candidate_ok. Qed.

(** A grant never exceeds the request.  Intersecting what was requested with what
    was granted gives read access only to paths the request could read, write access
    only to paths the request could write or to which a narrower entry of the request
    gave read access, and the network only if both had it. *)
Theorem intersection_within_request env requested granted cwd target :
  env_ok env -> abs_ok cwd -> policy_paths_ok (grants_of granted) -> abs_ok target ->
  let out := intersect_permission_profiles env requested granted cwd in
  let got := resolve_access_with_cwd env (grants_of out) target cwd in
  let asked := resolve_access_with_cwd env (grants_of requested) target cwd in
  (can_read got = true -> can_read asked = true)
  /\ (got = AccessWrite -> asked = AccessWrite
      \/ exists r q, deciding (resolved_entries_with_cwd env (grants_of out) cwd) target r
           /\ deciding (resolved_entries_with_cwd env (grants_of requested) cwd) target q
           /\ resolved_access q = AccessRead
           /\ resolved_path r `prefix_of` resolved_path q /\ resolved_path r <> resolved_path q)
  /\ (enables (add_network out) = true ->
      enables (add_network requested) = true /\ enables (add_network granted) = true).
Proof.
  intros He Hc Hg Ht out got asked.
  assert (enables (add_network out) = true ->
      enables (add_network requested) = true /\ enables (add_network granted) = true) as Hnet.
  { unfold out, intersect_permission_profiles. cbn [add_network]. destruct (_ && _) eqn:E; [|done].
    by apply andb_true_iff in E. }
  destruct (add_file_system requested) as [f|] eqn:Ef.
  2: { assert (got = AccessNone) as ->; [|done]. unfold got, out, grants_of, intersect_permission_profiles. rewrite Ef.
       by apply no_grants_no_access. }
  pose proof (grants_of_intersection env requested granted cwd f Ef) as Eout. fold out in Eout.
  assert (grants_of requested = restricted (perm_entries f)) as Ereq by (unfold grants_of; by rewrite Ef).
  assert (policy_paths_ok (restricted (perm_entries (default (mkFsPermissions [] None) (add_file_system granted))))) as Hg'.
  { unfold grants_of in Hg. by destruct (add_file_system granted). }
  assert (can_read got = true -> exists r q,
      deciding (resolved_entries_with_cwd env (grants_of out) cwd) target r /\ got = resolved_access r
      /\ deciding (resolved_entries_with_cwd env (grants_of requested) cwd) target q /\ asked = resolved_access q
      /\ can_read (resolved_access q) = true
      /\ (access_covers (resolved_access q) (resolved_access r) = true
          \/ resolved_path r `prefix_of` resolved_path q /\ resolved_path r <> resolved_path q)) as Hboth.
  { intros Hr. destruct (access_decided env (grants_of out) target cwd target eq_refl (candidate_ok _ _ _ Ht))
      as [(r & Hd & Ea)|[_ Ea]]; fold got in Ea; [|by rewrite Ea in Hr]. rewrite Ea in Hr.
    rewrite Eout in Hd. destruct (intersection_covered env cwd He Hc f _ Hg' target r Ht Hd Hr) as (q & Hq & Hqr & Hcov).
    exists r, q. rewrite Eout, Ereq. split_and!; try done.
    unfold asked. rewrite Ereq. by apply access_of_deciding. }
  split_and!; [| |done].
  - intros (r & q & _ & _ & _ & -> & H & _)%Hboth. done.
  - intros Hw. destruct Hboth as (r & q & Hr & Er & Hq & Eq & Hqr & Hcov); [by rewrite Hw|].
    rewrite Hw in Er. rewrite <- Er in Hcov. cbn in Hcov. destruct Hcov as [Hcov|[Hp Hn]].
    + left. rewrite Eq. by apply can_write_spec.
    + rewrite Eq. destruct (resolved_access q) eqn:Ea; [right|by left|done]. by exists r, q.
Qed.

Definition write_ws : AdditionalPermissionProfile :=
  mkAdditional network_on (Some (mkFsPermissions [mkEntry (PathEntry ws) AccessWrite] None)).

Lemma intersection_within_request_witness :
  let requested := mkAdditional network_on (Some (mkFsPermissions
    [mkEntry (Special (ProjectRoots None)) AccessWrite; mkEntry (PathEntry (path_of [L"ws"; L"key"])) AccessNone] None)) in
  let out := intersect_permission_profiles plain_env requested write_ws ws in
  perm_entries <$> add_file_system out
    = Some [mkEntry (PathEntry ws) AccessWrite; mkEntry (PathEntry (path_of [L"ws"; L"key"])) AccessNone]
  /\ can_read (resolve_access_with_cwd plain_env (grants_of requested) (path_of [L"ws"; L"a"]) ws) = true.
Proof.
  intros requested out. split; [vm_compute; reflexivity|].
  assert (abs_ok ws) as Hws by solve_abs_ok.
  assert (policy_paths_ok (grants_of write_ws)) as Hg by (apply Forall_cons_2; [exact Hws|apply Forall_nil_2]).
  assert (abs_ok (path_of [L"ws"; L"a"])) as Ht by solve_abs_ok.
  apply (intersection_within_request plain_env requested write_ws ws (path_of [L"ws"; L"a"]) plain_env_ok Hws Hg Ht).
  vm_compute. reflexivity.
Defined.

(** The exception is real: a narrower entry of the request that only reads is lost. *)
Example narrower_read_is_lost :
  let docs := path_of [L"ws"; L"docs"] in
  let requested := mkAdditional None (Some (mkFsPermissions
    [mkEntry (PathEntry ws) AccessWrite; mkEntry (PathEntry docs) AccessRead] None)) in
  let out := intersect_permission_profiles plain_env requested write_ws ws in
  resolve_access_with_cwd plain_env (grants_of requested) docs ws = AccessRead
  /\ resolve_access_with_cwd plain_env (grants_of out) docs ws = AccessWrite.
Proof. split; vm_compute; reflexivity. Qed.

Lemma denying_decides es e : e ∈ es -> resolved_access e = AccessNone -> deciding es (resolved_path e) e.
Proof.
  intros Hin Ha. split; [done|by unfold covers|]. intros e' _ Hc. split; [done|]. intros _. rewrite Ha.
  destruct (resolved_access e'); cbn; lia.
Qed.

(** Entries added to a restricted policy leave a denied path denied, unless one of them
    lies below the entry that denies it. *)
Lemma denial_kept env p p' cwd e target :
  env_ok env -> abs_ok cwd -> abs_ok target -> fs_kind p' = KindRestricted ->
  (forall x, x ∈ entries p -> x ∈ entries p') ->
  deciding (resolved_entries_with_cwd env p cwd) target e -> resolved_access e = AccessNone ->
  resolve_access_with_cwd env p' target cwd = AccessNone
  \/ exists a, a ∈ resolved_entries_with_cwd env p' cwd /\ a ∉ resolved_entries_with_cwd env p cwd
       /\ resolved_path e `prefix_of` resolved_path a /\ resolved_path e <> resolved_path a /\ covers a target.
Proof.
  intros He Hc Ht Hk Hsub [Hin Hcov Hmost] Ha.
  assert (e ∈ resolved_entries_with_cwd env p' cwd) as Hin'.
  { apply elem_of_resolved; [done|]. apply elem_of_resolved in Hin as (x & Hx & Hr); [|done]. exists x. auto. }
  destruct (access_decided env p' target cwd target Hk (candidate_ok _ _ _ Ht)) as [(d & Hd & ->)|[_ ->]]; [|by left].
  destruct (deciding_most _ _ _ Hd e Hin' Hcov) as [Hpre Hrank].
  destruct (decide (resolved_path e = resolved_path d)) as [E|E].
  - left. specialize (Hrank E). rewrite Ha in Hrank. destruct (resolved_access d); cbn in Hrank; done || lia.
  - right. exists d. split_and!; [apply Hd| |done|done|apply Hd]. intros Hdp.
    apply E, (anti_symm prefix); [done|]. by apply Hmost; [|apply Hd].
Qed.

(** The entries the additional permissions ask for. *)
Definition added_policy (additional : option AdditionalPermissionProfile) : FileSystemSandboxPolicy :=
  default (restricted []) (grants_of <$> additional).

Lemma effective_policy_spec p a :
  fs_kind (effective_file_system_sandbox_policy p a) = fs_kind p
  /\ (forall x, x ∈ entries p -> x ∈ entries (effective_file_system_sandbox_policy p a))
  /\ (forall x, x ∈ entries (effective_file_system_sandbox_policy p a) -> x ∈ entries p \/ x ∈ entries (added_policy a)).
Proof.
  unfold effective_file_system_sandbox_policy. destruct (mbind _ a) as [f|] eqn:Ef; [|by auto].
  destruct (fs_permissions_is_empty f); [by auto|]. unfold merge_file_system_policy_with_additional_permissions.
  destruct a as [a|]; [|done]. cbn in Ef. unfold added_policy, grants_of. cbn [fmap option_fmap option_map default from_option id].
  rewrite Ef. destruct (fs_kind p) eqn:Ek; [|by auto..].
  split_and!; [done|intros x Hx..]; cbn in *; rewrite elem_of_push_missing in *; tauto.
Qed.

Lemma effective_network_spec n a :
  net_is_enabled (effective_network_sandbox_policy n a) =
  net_is_enabled n || match a with Some a => default false (n ← add_network a; net_enabled n) | None => false end.
Proof.
  destruct a as [a|]; cbn; [unfold merge_network_access|by rewrite orb_false_r]. by destruct (_ || _).
Qed.

Definition opens_network (additional : option AdditionalPermissionProfile) : bool :=
  match additional with Some a => default false (n ← add_network a; net_enabled n) | None => false end.

(** The entry of a policy that decides about [target] denies it. *)
Definition denied_by env p cwd (target : Path) (e : ResolvedFileSystemEntry) : Prop :=
  deciding (resolved_entries_with_cwd env p cwd) target e /\ resolved_access e = AccessNone.

(** An entry of the additional permissions that lies strictly below [e] on the way to [target]. *)
Definition reopened env additional cwd (target : Path) (e : ResolvedFileSystemEntry) : Prop :=
  exists a, a ∈ resolved_entries_with_cwd env (added_policy additional) cwd
    /\ resolved_path e `prefix_of` resolved_path a /\ resolved_path e <> resolved_path a /\ covers a target.

Lemma effective_denials env p q additional cwd target e :
  env_ok env -> abs_ok cwd -> abs_ok target -> fs_kind q = KindRestricted ->
  entries q = entries (effective_file_system_sandbox_policy p additional) -> denied_by env p cwd target e ->
  resolve_access_with_cwd env q target cwd = AccessNone \/ reopened env additional cwd target e.
Proof.
  intros He Hc Ht Hk Hq [Hd Ha]. destruct (effective_policy_spec p additional) as (_ & Hsub & Hnew). rewrite <- Hq in Hsub, Hnew.
  destruct (denial_kept env p q cwd e target He Hc Ht Hk Hsub Hd Ha) as [?|(a & Hin & Hout & H)]; [by left|right].
  exists a. split; [|done]. apply elem_of_resolved in Hin as (x & Hx & Hr); [|done]. apply elem_of_resolved; [done|].
  exists x. split; [|done]. destruct (Hnew x Hx) as [Hold|?]; [|done]. destruct Hout. apply elem_of_resolved; [done|].
  by exists x.
Qed.

Lemma effective_denies_itself env p q additional cwd e :
  env_ok env -> abs_ok cwd -> policy_paths_ok p -> fs_kind q = KindRestricted ->
  entries q = entries (effective_file_system_sandbox_policy p additional) ->
  e ∈ resolved_entries_with_cwd env p cwd -> resolved_access e = AccessNone ->
  resolve_access_with_cwd env q (resolved_path e) cwd = AccessNone.
Proof.
  intros He Hc Hp Hk Hq Hin Ha. assert (abs_ok (resolved_path e)) as Hok by (by eapply entry_ok).
  destruct (effective_denials env p q additional cwd (resolved_path e) e He Hc Hok Hk Hq) as [?|(a & _ & H1 & H2 & H3)];
    [split; [by apply denying_decides|done]|done|]. by destruct H2; apply (anti_symm prefix).
Qed.

(** C31: Additional permissions lift a denial only below the entry that makes it.  The
    effective profile of a command always exists and is enforced by the same party.  A
    path that the deciding entry of the profile denies stays denied, unless the
    additional permissions have an entry that lies strictly below that entry and covers
    the path; so the path of a denying entry itself always stays denied.  The network is
    open just when the profile or the additional permissions open it. *)
Theorem effective_profile_keeps_denials env profile additional cwd :
  env_ok env -> abs_ok cwd -> policy_paths_ok (file_system_sandbox_policy profile) ->
  exists profile', effective_permission_profile profile additional = Ok profile'
    /\ enforcement profile' = enforcement profile
    /\ (forall target e, abs_ok target -> denied_by env (file_system_sandbox_policy profile) cwd target e ->
          resolve_access_with_cwd env (file_system_sandbox_policy profile') target cwd = AccessNone
          \/ reopened env additional cwd target e)
    /\ (forall e, e ∈ resolved_entries_with_cwd env (file_system_sandbox_policy profile) cwd ->
          resolved_access e = AccessNone ->
          resolve_access_with_cwd env (file_system_sandbox_policy profile') (resolved_path e) cwd = AccessNone)
    /\ net_is_enabled (network_sandbox_policy profile') =
       net_is_enabled (network_sandbox_policy profile)
       || opens_network additional.
Proof.
  intros He Hc Hp. unfold opens_network. unfold effective_permission_profile, to_runtime_permissions.
  set (p := file_system_sandbox_policy profile) in *. set (n := network_sandbox_policy profile).
  set (p' := effective_file_system_sandbox_policy p additional).
  destruct (effective_policy_spec p additional) as [Hk _]. fold p' in Hk.
  rewrite <- effective_network_spec. unfold from_runtime_permissions_with_enforcement. rewrite Hk.
  destruct profile as [[l d|] net| |net]; cbn [file_system_sandbox_policy managed_to_sandbox_policy] in p; subst p;
    cbn [fs_kind unrestricted external_sandbox enforcement].
  - unfold managed_from_sandbox_policy. rewrite Hk. cbn [fs_kind rbind]. eexists. split; [reflexivity|].
    split_and!; [done|intros target e Ht; by eapply effective_denials|intros e; by eapply effective_denies_itself|done].
  - rewrite bool_decide_eq_false_2 by done. unfold managed_from_sandbox_policy. rewrite Hk. cbn.
    eexists. split; [reflexivity|]. split_and!; [done|intros ? e _ [[Hin] _]|intros e Hin|done]; by apply elem_of_nil in Hin.
  - rewrite bool_decide_eq_true_2 by done. eexists. split; [reflexivity|].
    split_and!; [done|intros ? e _ [[Hin] _]|intros e Hin|by rewrite effective_network_spec]; by apply elem_of_nil in Hin.
  - eexists. split; [reflexivity|]. split_and!; [done|intros ? e _ [[Hin] _]|intros e Hin|done]; by apply elem_of_nil in Hin.
Qed.

(** The exception is real: an added entry below a denied directory opens what it covers. *)
Example narrower_grant_reopens :
  let secret := path_of [L"ws"; L"key"] in
  let sub := path_of [L"ws"; L"key"; L"sub"] in
  let p := restricted [mkEntry (PathEntry secret) AccessNone] in
  let additional := mkAdditional None (Some (mkFsPermissions [mkEntry (PathEntry sub) AccessWrite] None)) in
  resolve_access_with_cwd plain_env p sub ws = AccessNone
  /\ resolve_access_with_cwd plain_env (effective_file_system_sandbox_policy p (Some additional)) sub ws = AccessWrite.
Proof. split; vm_compute; reflexivity. Qed.

Lemma effective_profile_keeps_denials_witness :
  let secret := path_of [L"ws"; L"key"] in
  let below := path_of [L"ws"; L"key"; L"a"] in
  let profile := Managed (ManagedRestricted [mkEntry (PathEntry secret) AccessNone] None) NetRestricted in
  exists profile', effective_permission_profile profile (Some write_ws) = Ok profile'
    /\ (resolve_access_with_cwd plain_env (file_system_sandbox_policy profile') below ws = AccessNone
        \/ reopened plain_env (Some write_ws) ws below (mkResolved secret AccessNone))
    /\ resolve_access_with_cwd plain_env (file_system_sandbox_policy profile') secret ws = AccessNone
    /\ net_is_enabled (network_sandbox_policy profile') = true.
Proof.
  intros secret below profile. assert (abs_ok ws) as Hws by solve_abs_ok.
  assert (abs_ok secret) as Hs by solve_abs_ok. assert (abs_ok below) as Hb by solve_abs_ok.
  assert (policy_paths_ok (file_system_sandbox_policy profile)) as Hp by (apply Forall_cons_2; [exact Hs|apply Forall_nil_2]).
  destruct (effective_profile_keeps_denials plain_env profile (Some write_ws) ws plain_env_ok Hws Hp)
    as (profile' & E & _ & Ht & Hd & Hn).
  exists profile'. split; [exact E|]. split_and!; [| |exact Hn].
  - apply Ht; [exact Hb|]. split; [|reflexivity].
    assert (resolved_entries_with_cwd plain_env (file_system_sandbox_policy profile) ws = [mkResolved secret AccessNone]) as ->
      by (vm_compute; reflexivity).
    split; [by apply list_elem_of_singleton|by exists [Normal (L"a")]|]. intros e' ->%list_elem_of_singleton _. done.
  - apply (Hd (mkResolved secret AccessNone)); [|reflexivity]. apply (bool_decide_unpack _). vm_compute. exact I.
Defined.

(** A profile survives the way to the runtime and back. *)
Lemma profile_runtime_roundtrip profile :
  (forall l, profile <> Managed (ManagedRestricted l (Some 0)) (network_sandbox_policy profile)) ->
  let '(p, n) := to_runtime_permissions profile in
  from_runtime_permissions_with_enforcement (enforcement profile) p n = Ok profile.
Proof.
  intros H0. destruct profile as [[l [[|d]|]|] n| |n]; cbn; try done. by destruct (H0 l).
Qed.
