(* ===== verification/ExecApproval.v ===== *)
(** * Approval of commands (core/src/exec_policy.rs)

    What a command needs before it runs: the commands a shell invocation is taken
    apart into, the verdict of the rules on them, the fallback for commands no
    rule matches, and what becomes of the verdict under the approval settings.
    Also the default requirement and the sandbox override of
    core/src/tools/sandboxing.rs and the approval settings of
    protocol/src/protocol.rs.  The build is that for Unix, where
    [cfg!(windows)] is false and commands have one origin. *)

From S2P Require Import Prelude RustStr AbsolutePath ExecPolicy ShellParse CommandSafety SandboxPaths Permissions PermissionProfiles.

(** ** Approval settings (protocol.rs, approvals.rs) *)

Record GranularApprovalConfig := mkGranular {
  sandbox_approval : bool;
  rules_approval : bool;
  skill_approval : bool;
  request_permissions : bool;
  mcp_elicitations : bool }.

Inductive AskForApproval :=
| UnlessTrusted
| OnFailure
| OnRequest
| Granular (granular_config : GranularApprovalConfig)
| Never.

Record ExecPolicyAmendment := mkAmendment { amendment_command : list str }.

(** ** Requirements (tools/sandboxing.rs) *)

Inductive ExecApprovalRequirement :=
| Skip (bypass_sandbox : bool) (proposed_execpolicy_amendment : option ExecPolicyAmendment)
| NeedsApproval (reason : option str) (proposed_execpolicy_amendment : option ExecPolicyAmendment)
| RequirementForbidden (reason : str).

Definition proposed_execpolicy_amendment (r : ExecApprovalRequirement)
  : option ExecPolicyAmendment :=
  match r with
  | NeedsApproval _ (Some prefix) => Some prefix
  | Skip _ (Some prefix) => Some prefix
  | _ => None
  end.

Definition default_exec_approval_requirement (policy : AskForApproval)
  (file_system_sandbox_policy : FileSystemSandboxPolicy) : ExecApprovalRequirement :=
  let needs_approval :=
    match policy with
    | Never | OnFailure => false
    | OnRequest | Granular _ =>
        bool_decide (fs_kind file_system_sandbox_policy = KindRestricted)
    | UnlessTrusted => true
    end in
  if needs_approval
     && match policy with
        | Granular granular_config => negb (sandbox_approval granular_config)
        | _ => false
        end
  then RequirementForbidden (L"approval policy disallowed sandbox approval prompt")
  else if needs_approval then NeedsApproval None None
  else Skip false None.

Inductive SandboxOverride := NoOverride | BypassSandboxFirstAttempt.

Definition sandbox_override_for_first_attempt (sandbox_permissions : SandboxPermissions)
  (exec_approval_requirement : ExecApprovalRequirement) : SandboxOverride :=
  if requires_escalated_permissions sandbox_permissions
     || match exec_approval_requirement with Skip true _ => true | _ => false end
  then BypassSandboxFirstAttempt
  else NoOverride.

Definition managed_network_for_sandbox_permissions {N} (network : option N)
  (sandbox_permissions : SandboxPermissions) : option N :=
  if requires_escalated_permissions sandbox_permissions then None else network.

(** The defaults of the trait [Approvable]. *)
Definition should_bypass_approval (policy : AskForApproval) (already_approved : bool) : bool :=
  if already_approved then true
  else match policy with Never => true | _ => false end.

Definition wants_no_sandbox_approval (policy : AskForApproval) : bool :=
  match policy with
  | OnFailure => true
  | UnlessTrusted => true
  | Never => false
  | OnRequest => false
  | Granular granular_config => sandbox_approval granular_config
  end.

(** ** Prompts (exec_policy.rs) *)

Definition PROMPT_CONFLICT_REASON : str :=
  L"approval required by policy, but AskForApproval is set to Never".
Definition REJECT_SANDBOX_APPROVAL_REASON : str :=
  L"approval required by policy, but AskForApproval::Granular.sandbox_approval is false".
Definition REJECT_RULES_APPROVAL_REASON : str :=
  L"approval required by policy rule, but AskForApproval::Granular.rules is false".

Definition is_policy_match (rule_match : RuleMatch) : bool :=
  match rule_match with
  | PrefixRuleMatch _ _ _ _ => true
  | HeuristicsRuleMatch _ _ => false
  end.

(** A rule, not the fallback, gave this decision. *)
Definition is_rule_with (d : Decision) (rule_match : RuleMatch) : bool :=
  is_policy_match rule_match && bool_decide (match_decision rule_match = d).

Definition prompt_is_rejected_by_policy (approval_policy : AskForApproval) (prompt_is_rule : bool)
  : option str :=
  match approval_policy with
  | Never => Some PROMPT_CONFLICT_REASON
  | OnFailure => None
  | OnRequest => None
  | UnlessTrusted => None
  | Granular granular_config =>
      if prompt_is_rule then
        if negb (rules_approval granular_config) then Some REJECT_RULES_APPROVAL_REASON else None
      else if negb (sandbox_approval granular_config)
      then Some REJECT_SANDBOX_APPROVAL_REASON
      else None
  end.

(** ** Amendments *)

Definition BANNED_PREFIX_SUGGESTIONS : list (list str) :=
  [[L"python3"]; [L"python3"; L"-"]; [L"python3"; L"-c"];
   [L"python"]; [L"python"; L"-"]; [L"python"; L"-c"];
   [L"py"]; [L"py"; L"-3"]; [L"pythonw"]; [L"pyw"]; [L"pypy"]; [L"pypy3"];
   [L"git"];
   [L"bash"]; [L"bash"; L"-lc"]; [L"sh"]; [L"sh"; L"-c"]; [L"sh"; L"-lc"];
   [L"zsh"]; [L"zsh"; L"-lc"]; [L"/bin/zsh"]; [L"/bin/zsh"; L"-lc"];
   [L"/bin/bash"]; [L"/bin/bash"; L"-lc"];
   [L"pwsh"]; [L"pwsh"; L"-Command"]; [L"pwsh"; L"-c"];
   [L"powershell"]; [L"powershell"; L"-Command"]; [L"powershell"; L"-c"];
   [L"powershell.exe"]; [L"powershell.exe"; L"-Command"]; [L"powershell.exe"; L"-c"];
   [L"env"]; [L"sudo"];
   [L"node"]; [L"node"; L"-e"]; [L"perl"]; [L"perl"; L"-e"]; [L"ruby"]; [L"ruby"; L"-e"];
   [L"php"]; [L"php"; L"-r"]; [L"lua"]; [L"lua"; L"-e"];
   [L"osascript"]].

(** [find_map] over the matches: the first command the fallback gave [d] for. *)
Fixpoint first_heuristic (d : Decision) (matched_rules : list RuleMatch)
  : option ExecPolicyAmendment :=
  match matched_rules with
  | [] => None
  | HeuristicsRuleMatch command decision :: rest =>
      if bool_decide (decision = d) then Some (mkAmendment command) else first_heuristic d rest
  | _ :: rest => first_heuristic d rest
  end.

Definition try_derive_execpolicy_amendment_for_prompt_rules (matched_rules : list RuleMatch)
  : option ExecPolicyAmendment :=
  if existsb (is_rule_with Prompt) matched_rules then None
  else first_heuristic Prompt matched_rules.

Definition try_derive_execpolicy_amendment_for_allow_rules (matched_rules : list RuleMatch)
  : option ExecPolicyAmendment :=
  if existsb is_policy_match matched_rules then None
  else first_heuristic Allow matched_rules.

(** ** Commands *)

Inductive ExecPolicyCommandOrigin := Generic.

Record ExecPolicyCommands := mkCommands {
  commands : list (list str);
  used_complex_parsing : bool;
  command_origin : ExecPolicyCommandOrigin }.

Record UnmatchedCommandContext := mkContext {
  ctx_approval_policy : AskForApproval;
  ctx_permission_profile : PermissionProfile;
  ctx_file_system_sandbox_policy : FileSystemSandboxPolicy;
  ctx_sandbox_cwd : list Component;
  ctx_sandbox_permissions : SandboxPermissions;
  ctx_used_complex_parsing : bool;
  ctx_command_origin : ExecPolicyCommandOrigin }.

Record ExecApprovalRequest := mkRequest {
  req_command : list str;
  req_approval_policy : AskForApproval;
  req_permission_profile : PermissionProfile;
  req_file_system_sandbox_policy : FileSystemSandboxPolicy;
  req_sandbox_cwd : list Component;
  req_sandbox_permissions : SandboxPermissions;
  req_prefix_rule : option (list str) }.

Definition cfg_windows : bool := false.

Section approval.
(** The operating system, tree-sitter's bash parser, the PowerShell parser and
    the crate [shlex]. *)
Context (env : Env).
Context (try_parse_shell : str -> option Node).
Context (powershell_ast : str -> str -> option (list (list str))).
Context (shlex_join : list str -> option str).

Definition commands_for_exec_policy (command : list str) : result unit ExecPolicyCommands :=
  let? plain := parse_shell_lc_plain_commands try_parse_shell command in
  match plain with
  | Some (c :: cs) => Ok (mkCommands (c :: cs) false Generic)
  | _ =>
      let? single := parse_shell_lc_single_command_prefix try_parse_shell command in
      Ok (match single with
          | Some single_command => mkCommands [single_command] true Generic
          | None => mkCommands [command] false Generic
          end)
  end.

Definition profile_is_managed_read_only (permission_profile : PermissionProfile)
  (file_system_sandbox_policy : FileSystemSandboxPolicy) (sandbox_cwd : list Component) : bool :=
  match permission_profile with Managed _ _ => true | _ => false end
  && bool_decide (fs_kind file_system_sandbox_policy = KindRestricted)
  && negb (has_full_disk_write_access file_system_sandbox_policy)
  && is_nil (get_writable_roots_with_cwd env file_system_sandbox_policy sandbox_cwd).

Definition sandbox_is_explicitly_disabled (p : PermissionProfile) : bool :=
  match p with Disabled | External _ => true | Managed _ _ => false end.

(** What on-request and granular approval say of a command that is neither known
    to be safe nor flagged. *)
Definition on_request_decision (p : FileSystemSandboxPolicy) (s : SandboxPermissions) : Decision :=
  match fs_kind p with
  | KindUnrestricted | KindExternalSandbox => Allow
  | KindRestricted => if requests_sandbox_override s then Prompt else Allow
  end.

Definition render_decision_for_unmatched_command (command : list str)
  (context : UnmatchedCommandContext) : result unit Decision :=
  let? is_known_safe :=
    match ctx_command_origin context with
    | Generic => is_known_safe_command try_parse_shell powershell_ast command
    end in
  if is_known_safe && negb (ctx_used_complex_parsing context) then Ok Allow else
  let environment_lacks_sandbox_protections :=
    cfg_windows
    && profile_is_managed_read_only (ctx_permission_profile context)
         (ctx_file_system_sandbox_policy context) (ctx_sandbox_cwd context) in
  let? command_is_dangerous :=
    match ctx_command_origin context with
    | Generic => command_might_be_dangerous try_parse_shell command
    end in
  Ok (if command_is_dangerous || environment_lacks_sandbox_protections then
        match ctx_approval_policy context with
        | Never =>
            if sandbox_is_explicitly_disabled (ctx_permission_profile context)
            then Allow else Forbidden
        | OnFailure | OnRequest | UnlessTrusted | Granular _ => Prompt
        end
      else
        match ctx_approval_policy context with
        | Never | OnFailure => Allow
        | UnlessTrusted => Prompt
        | OnRequest | Granular _ =>
            on_request_decision (ctx_file_system_sandbox_policy context)
              (ctx_sandbox_permissions context)
        end).

(** The closure the rules are evaluated with; the evaluation always returns
    ([fallback_returns]). *)
Definition exec_policy_fallback (context : UnmatchedCommandContext) (cmd : list str) : Decision :=
  match render_decision_for_unmatched_command cmd context with Ok d => d | _ => Forbidden end.

Definition render_shlex_command (args : list str) : str :=
  default (join [SP] args) (shlex_join args).

(** The prefix and justification of the most specific rule with a decision: the
    last of the longest prefixes. *)
Definition most_specific (d : Decision) (ev : Evaluation) : option (list str * option str) :=
  max_by_key (fun a b => (length a.1 <=? length b.1)%nat)
    (omap (fun m => match m with
                    | PrefixRuleMatch matched_prefix decision _ justification =>
                        if bool_decide (decision = d) then Some (matched_prefix, justification)
                        else None
                    | _ => None
                    end) (matched_rules ev)).

Definition ticked (s : str) : str := L"`" ++ s ++ L"`".

Definition derive_prompt_reason (command_args : list str) (ev : Evaluation) : option str :=
  let command := render_shlex_command command_args in
  match most_specific Prompt ev with
  | Some (_, Some justification) =>
      Some (ticked command ++ L" requires approval: " ++ justification)
  | Some (_, None) => Some (ticked command ++ L" requires approval by policy")
  | None => None
  end.

Definition derive_forbidden_reason (command_args : list str) (ev : Evaluation) : str :=
  let command := render_shlex_command command_args in
  match most_specific Forbidden ev with
  | Some (_, Some justification) => ticked command ++ L" rejected: " ++ justification
  | Some (matched_prefix, None) =>
      ticked command ++ L" rejected: policy forbids commands starting with "
        ++ ticked (render_shlex_command matched_prefix)
  | None => ticked command ++ L" rejected: blocked by policy"
  end.

(** [p.check_with_options(command, ..).decision]. *)
Definition decides (p : Policy) (fallback : list str -> Decision) (options : MatchOptions)
  (command : list str) (d : Decision) : bool :=
  match check_with_options (home_dir env) (current_dir env) p command fallback options with
  | Ok ev => bool_decide (decision ev = d)
  | _ => false
  end.

Definition prefix_rule_would_approve_all_commands (exec_policy : Policy) (prefix_rule : list str)
  (commands : list (list str)) (fallback : list str -> Decision) (match_options : MatchOptions)
  : bool :=
  match add_prefix_rule exec_policy prefix_rule Allow with
  | Ok policy_with_prefix_rule =>
      forallb (fun command =>
        decides policy_with_prefix_rule fallback match_options command Allow) commands
  | _ => false
  end.

Definition derive_requested_execpolicy_amendment_from_prefix_rule (prefix_rule : option (list str))
  (matched_rules : list RuleMatch) (exec_policy : Policy) (commands : list (list str))
  (fallback : list str -> Decision) (match_options : MatchOptions)
  : option ExecPolicyAmendment :=
  prefix_rule ← prefix_rule;
  if is_nil prefix_rule then None
  else if existsb (fun banned => bool_decide (prefix_rule = banned)) BANNED_PREFIX_SUGGESTIONS
  then None
  else if existsb is_policy_match matched_rules then None
  else if prefix_rule_would_approve_all_commands exec_policy prefix_rule commands fallback
            match_options
  then Some (mkAmendment prefix_rule)
  else None.

Definition resolving : MatchOptions := mkOptions true.

(** Some rule allows the command. *)
Definition allowed_by_rule (exec_policy : Policy) (command : list str) : bool :=
  existsb (is_rule_with Allow)
    (matches_for_command_with_options (home_dir env) (current_dir env) exec_policy command None
       resolving).

Definition request_context (req : ExecApprovalRequest) (cs : ExecPolicyCommands)
  : UnmatchedCommandContext :=
  mkContext (req_approval_policy req) (req_permission_profile req)
    (req_file_system_sandbox_policy req) (req_sandbox_cwd req) (req_sandbox_permissions req)
    (used_complex_parsing cs) (command_origin cs).

Definition create_exec_approval_requirement_for_command (exec_policy : Policy)
  (req : ExecApprovalRequest) : result unit ExecApprovalRequirement :=
  let command := req_command req in
  let? cs := commands_for_exec_policy command in
  let commands := commands cs in
  let auto_amendment_allowed := negb (used_complex_parsing cs) in
  let fallback := exec_policy_fallback (request_context req cs) in
  let? evaluation := map_err (fun _ => tt)
    (check_multiple_with_options (home_dir env) (current_dir env) exec_policy commands fallback
       resolving) in
  let requested_amendment :=
    if auto_amendment_allowed then
      derive_requested_execpolicy_amendment_from_prefix_rule (req_prefix_rule req)
        (matched_rules evaluation) exec_policy commands fallback resolving
    else None in
  Ok (match decision evaluation with
      | Forbidden => RequirementForbidden (derive_forbidden_reason command evaluation)
      | Prompt =>
          let prompt_is_rule := existsb (is_rule_with Prompt) (matched_rules evaluation) in
          match prompt_is_rejected_by_policy (req_approval_policy req) prompt_is_rule with
          | Some reason => RequirementForbidden reason
          | None =>
              NeedsApproval (derive_prompt_reason command evaluation)
                (match requested_amendment with
                 | Some amendment => Some amendment
                 | None =>
                     if auto_amendment_allowed
                     then try_derive_execpolicy_amendment_for_prompt_rules
                            (matched_rules evaluation)
                     else None
                 end)
          end
      | Allow =>
          Skip (forallb (allowed_by_rule exec_policy) commands)
            (if auto_amendment_allowed
             then try_derive_execpolicy_amendment_for_allow_rules (matched_rules evaluation)
             else None)
      end).
End approval.
