(* ===== verification/ExecApprovalSafety.v ===== *)
(** * What approval guarantees

    The requirement computed for a command against the verdicts of the rules on
    its parts; commands flagged as dangerous; proposed amendments. *)

From S2P Require Import Prelude RustStr AbsolutePath ExecPolicy ShellParse CommandSafety SandboxPaths Permissions PermissionSafety PermissionProfiles ExecApproval.

(** ** The fallback and the commands *)

Section approval.
Context (env : Env).
Context (try_parse_shell : str -> option Node).
Context (powershell_ast : str -> str -> option (list (list str))).
Context (shlex_join : list str -> option str).

Local Abbreviation home := (home_dir env).
Local Abbreviation cwd := (current_dir env).
Local Abbreviation fallback := (exec_policy_fallback env try_parse_shell powershell_ast).
Local Abbreviation requirement :=
  (create_exec_approval_requirement_for_command env try_parse_shell powershell_ast shlex_join).

Lemma plain_commands_return command : returns (parse_shell_lc_plain_commands try_parse_shell command).
Proof. apply shell_parsing_terminates. Qed.

Lemma known_safe_returns command :
  returns (is_known_safe_command try_parse_shell powershell_ast command).
Proof.
  unfold is_known_safe_command. repeat case_goal; try done.
  apply returns_bind; [apply plain_commands_return|done].
Qed.

Lemma dangerous_returns command : returns (command_might_be_dangerous try_parse_shell command).
Proof.
  unfold command_might_be_dangerous. case_goal; [done|].
  apply returns_bind; [apply plain_commands_return|done].
Qed.

Lemma fallback_returns context command :
  render_decision_for_unmatched_command env try_parse_shell powershell_ast command context
  = Ok (fallback context command).
Proof.
  unfold exec_policy_fallback.
  assert (returns (render_decision_for_unmatched_command env try_parse_shell powershell_ast
    command context)) as H; [|by apply returns_Ok in H as [d ->]].
  unfold render_decision_for_unmatched_command. destruct (ctx_command_origin context).
  apply returns_bind; [apply known_safe_returns|]. intros safe. case_goal; [done|].
  apply returns_bind; [apply dangerous_returns|done].
Qed.

Lemma commands_return command :
  exists cs, commands_for_exec_policy try_parse_shell command = Ok cs /\ commands cs <> [].
Proof.
  unfold commands_for_exec_policy.
  destruct (returns_Ok _ (plain_commands_return command)) as [[[|c l]|] ->]; simpl; [|by eexists|].
  all: destruct (returns_Ok _ (proj2 (shell_parsing_terminates try_parse_shell command)))
    as [[s|] ->]; by eexists.
Qed.

(** ** The evaluation *)

Section request.
Context (p : Policy) (req : ExecApprovalRequest) (cs : ExecPolicyCommands).

(** A verdict on one of the commands of the request. *)
Definition segment_verdict (d : Decision) : Prop :=
  exists cmd, cmd ∈ commands cs
    /\ verdict home cwd p resolving (fallback (request_context req cs)) cmd d.

(** A rule gave it. *)
Definition segment_rule (d : Decision) : Prop :=
  exists cmd r, cmd ∈ commands cs /\ consulted home cwd p resolving cmd r /\ rule_decision r = d.
End request.

Lemma existsb_elem {A} (f : A -> bool) l : existsb f l = true <-> exists x, x ∈ l /\ f x = true.
Proof. rewrite existsb_exists. by setoid_rewrite list_elem_of_In. Qed.

Lemma is_rule_with_true d m : is_rule_with d m = true <-> is_policy_match m = true /\ match_decision m = d.
Proof. unfold is_rule_with. by rewrite andb_true_iff, bool_decide_eq_true. Qed.

(** The rule matches of a command are those of the consulted rules, with or
    without a fallback. *)
Lemma rule_matches_decisions p cmd fb d :
  policy_wf p ->
  (exists m, m ∈ matches_for_command_with_options home cwd p cmd fb resolving
     /\ is_policy_match m = true /\ match_decision m = d) <->
  exists r, consulted home cwd p resolving cmd r /\ rule_decision r = d.
Proof.
  intros Hwf. rewrite <- rule_decisions by done.
  pose proof (rule_matches_prefix home cwd p cmd resolving) as Hpre.
  assert (forall m, is_prefix_match m = true -> is_policy_match m = true) as Hpm by (by intros []).
  destruct fb as [fb|]; [|naive_solver].
  change (matches_for_command_with_options home cwd p cmd (Some fb) resolving) with
    (let ms := matches_for_command_with_options home cwd p cmd None resolving in
     if is_nil ms then [HeuristicsRuleMatch cmd (fb cmd)] else ms).
  destruct (matches_for_command_with_options home cwd p cmd None resolving) as [|m ms]; simpl.
  - split; [intros (m & ->%list_elem_of_singleton & ? & _); done|].
    intros (m & Hm & _). by apply not_elem_of_nil in Hm.
  - naive_solver.
Qed.

Lemma allowed_by_rule_spec p cmd :
  policy_wf p ->
  allowed_by_rule env p cmd = true <->
  exists r, consulted home cwd p resolving cmd r /\ rule_decision r = Allow.
Proof.
  intros Hwf. unfold allowed_by_rule. rewrite existsb_elem.
  setoid_rewrite is_rule_with_true. by apply rule_matches_decisions.
Qed.

(** The evaluation of a request. *)
Lemma request_evaluation p req cs :
  policy_wf p -> commands cs <> [] ->
  exists ev, check_multiple_with_options home cwd p (commands cs) (fallback (request_context req cs))
      resolving = Ok ev
    /\ segment_verdict p req cs (decision ev)
    /\ (forall d, segment_verdict p req cs d -> severity d <= severity (decision ev))
    /\ (forall d, existsb (is_rule_with d) (matched_rules ev) = true <-> segment_rule p cs d)
    /\ matched_rules ev = concat ((fun command =>
         matches_for_command_with_options home cwd p command
           (Some (fallback (request_context req cs))) resolving) <$> commands cs).
Proof.
  intros Hwf Hne.
  destruct (check_multiple_spec home cwd p (commands cs) (fallback (request_context req cs))
    resolving Hwf Hne) as (ev & He & Hm & Hd & Hmax).
  exists ev. split_and!; [done|done| | |done].
  - intros d (cmd & Hc & Hv). by apply (Hmax cmd).
  - intros d. rewrite existsb_elem, Hm. setoid_rewrite is_rule_with_true.
    setoid_rewrite elem_of_concat_fmap. unfold segment_rule.
    pose proof (fun cmd => rule_matches_decisions p cmd
      (Some (fallback (request_context req cs))) d Hwf) as H. split.
    + intros (m & (cmd & Hc & Hin) & ? & ?). destruct (proj1 (H cmd)) as (r & ? & ?); eauto 10.
    + intros (cmd & r & Hc & Hr & Hd'). destruct (proj2 (H cmd)) as (m & ? & ? & ?); eauto 10.
Qed.

(** ** Theorems: the requirement *)

(** The requirement a verdict calls for. *)
Definition requirement_spec (p : Policy) (req : ExecApprovalRequest) (cs : ExecPolicyCommands)
  (r : ExecApprovalRequirement) : Prop :=
  let rejected by_rule := prompt_is_rejected_by_policy (req_approval_policy req) by_rule in
  match r with
  | Skip bypass_sandbox _ =>
      (forall d, segment_verdict p req cs d -> d = Allow)
      /\ (bypass_sandbox = true <-> forall cmd, cmd ∈ commands cs ->
           exists r, consulted home cwd p resolving cmd r)
  | NeedsApproval _ _ =>
      segment_verdict p req cs Prompt /\ ~ segment_verdict p req cs Forbidden
      /\ (forall by_rule, (by_rule = true <-> segment_rule p cs Prompt) -> rejected by_rule = None)
  | RequirementForbidden reason =>
      segment_verdict p req cs Forbidden
      \/ segment_verdict p req cs Prompt
         /\ forall by_rule, (by_rule = true <-> segment_rule p cs Prompt) ->
              rejected by_rule = Some reason
  end.

Lemma bool_iff_eq (a b : bool) (P : Prop) : (a = true <-> P) -> (b = true <-> P) -> a = b.
Proof. destruct a, b; intuition congruence. Qed.

Lemma requirement_unfold p req cs ev :
  commands_for_exec_policy try_parse_shell (req_command req) = Ok cs ->
  check_multiple_with_options home cwd p (commands cs) (fallback (request_context req cs)) resolving
    = Ok ev ->
  exists r, requirement p req = Ok r
    /\ match r with
       | Skip bypass _ => decision ev = Allow /\ bypass = forallb (allowed_by_rule env p) (commands cs)
       | NeedsApproval _ _ => decision ev = Prompt
           /\ prompt_is_rejected_by_policy (req_approval_policy req)
                (existsb (is_rule_with Prompt) (matched_rules ev)) = None
       | RequirementForbidden reason =>
           decision ev = Forbidden
           \/ decision ev = Prompt
              /\ prompt_is_rejected_by_policy (req_approval_policy req)
                   (existsb (is_rule_with Prompt) (matched_rules ev)) = Some reason
       end.
Proof.
  intros Hcs Hev. unfold create_exec_approval_requirement_for_command. rewrite Hcs. simpl.
  rewrite Hev. simpl. eexists. split; [reflexivity|]. destruct (decision ev); [done| |by left].
  destruct (prompt_is_rejected_by_policy _ _) eqn:E; [by right|done].
Qed.

(** C23: The requirement for a command is decided by the verdicts on all the
    commands it is taken apart into.  It is always computed.  It is skipped only
    when every verdict on every part is to allow, and then the sandbox is
    bypassed exactly when every part is matched by a rule; the user is asked only
    when no verdict forbids, some verdict prompts and the approval settings let
    such a prompt through; it is refused only when a verdict forbids, or prompts
    and the settings reject the prompt, with the reason of that rejection. *)
Theorem requirement_follows_verdicts (p : Policy) (req : ExecApprovalRequest) :
  policy_wf p ->
  exists cs r, commands_for_exec_policy try_parse_shell (req_command req) = Ok cs
    /\ commands cs <> [] /\ requirement p req = Ok r /\ requirement_spec p req cs r.
Proof.
  intros Hwf. destruct (commands_return (req_command req)) as (cs & Hcs & Hne).
  destruct (request_evaluation p req cs Hwf Hne) as (ev & Hev & Hd & Hmax & Hrule & _).
  destruct (requirement_unfold p req cs ev Hcs Hev) as (r & Hr & Hcase).
  exists cs, r. split_and!; [done..|]. destruct r as [bypass am|reason am|reason]; simpl in *.
  - destruct Hcase as [Ha ->]. rewrite Ha in Hmax. split.
    { intros d Hv. apply Hmax in Hv. destruct d; simpl in Hv; [done|lia..]. }
    rewrite forallb_forall. setoid_rewrite <- list_elem_of_In.
    setoid_rewrite allowed_by_rule_spec; [|done]. split.
    + intros H cmd Hc. destruct (H cmd Hc) as (r & ? & _). eauto.
    + intros H cmd Hc. destruct (H cmd Hc) as (r & Hr'). exists r. split; [done|].
      assert (segment_verdict p req cs (rule_decision r)) as Hv by (exists cmd; split; [done|left; eauto]).
      apply Hmax in Hv. destruct (rule_decision r); simpl in Hv; [done|lia..].
  - destruct Hcase as [Ha Hrej]. rewrite Ha in *. split_and!; [done| |].
    { intros Hf%Hmax. simpl in Hf. lia. }
    intros b Hb. by rewrite (bool_iff_eq _ _ _ Hb (Hrule Prompt)).
  - destruct Hcase as [Ha|[Ha Hrej]]; rewrite Ha in *; [by left|right]. split; [done|].
    intros b Hb. by rewrite (bool_iff_eq _ _ _ Hb (Hrule Prompt)).
Qed.

(** ** Theorems: dangerous commands *)

Lemma dangerous_fallback context cmd :
  command_might_be_dangerous try_parse_shell cmd = Ok true -> runs_script (L"zsh") cmd = false ->
  ctx_approval_policy context <> Never
    \/ sandbox_is_explicitly_disabled (ctx_permission_profile context) = false ->
  fallback context cmd <> Allow.
Proof.
  intros Hd Hz Hp. pose proof (fallback_returns context cmd) as H.
  unfold render_decision_for_unmatched_command in H. destruct (ctx_command_origin context).
  destruct (returns_Ok _ (known_safe_returns cmd)) as [safe Hs]. rewrite Hs in H. simpl in H.
  destruct safe; [by rewrite (known_safe_not_dangerous _ _ _ Hs Hz) in Hd|].
  rewrite Hd in H. simpl in H. injection H as <-.
  destruct (ctx_approval_policy context), (sandbox_is_explicitly_disabled _); naive_solver.
Qed.

(** The two halves of the theorem below. *)
Lemma dangerous_part_requirement (p : Policy) (req : ExecApprovalRequest)
  (cs : ExecPolicyCommands) (cmd : list str) (r : ExecApprovalRequirement) :
  policy_wf p ->
  commands_for_exec_policy try_parse_shell (req_command req) = Ok cs -> cmd ∈ commands cs ->
  command_might_be_dangerous try_parse_shell cmd = Ok true -> runs_script (L"zsh") cmd = false ->
  ~ (exists rule, consulted home cwd p resolving cmd rule) ->
  requirement p req = Ok r ->
  (req_approval_policy req <> Never
     \/ sandbox_is_explicitly_disabled (req_permission_profile req) = false ->
   forall bypass am, r <> Skip bypass am)
  /\ (sandbox_override_for_first_attempt (req_sandbox_permissions req) r = BypassSandboxFirstAttempt ->
      requires_escalated_permissions (req_sandbox_permissions req) = true).
Proof.
  intros Hwf Hcs Hin Hd Hz Hno Hr.
  assert (commands cs <> []) as Hne by (destruct (commands cs); [set_solver|done]).
  destruct (request_evaluation p req cs Hwf Hne) as (ev & Hev & _ & Hmax & _).
  destruct (requirement_unfold p req cs ev Hcs Hev) as (r' & Hr' & Hcase).
  rewrite Hr in Hr'. injection Hr' as <-. split.
  - intros Hp bypass am ->. destruct Hcase as [Ha _].
    apply (dangerous_fallback (request_context req cs) cmd); [done..|].
    assert (segment_verdict p req cs (fallback (request_context req cs) cmd)) as Hv
      by (exists cmd; split; [done|by right]).
    apply Hmax in Hv. rewrite Ha in Hv. destruct (fallback _ _); simpl in Hv; [done|lia..].
  - unfold sandbox_override_for_first_attempt. destruct (requires_escalated_permissions _); [done|].
    destruct r as [[|] am|reason am|reason]; try done. destruct Hcase as [_ Hb]. intros _. exfalso.
    symmetry in Hb. rewrite forallb_forall in Hb. setoid_rewrite <- list_elem_of_In in Hb.
    apply Hb in Hin. apply allowed_by_rule_spec in Hin as (rule & ? & _); [|done]. apply Hno. eauto.
Qed.

Definition no_rule_for (p : Policy) (cmd : list str) : Prop :=
  ~ exists rule, consulted home cwd p resolving cmd rule.

(** A dangerous command never runs unasked because no rule spoke of it.  When
    a part of the command is flagged as dangerous and no rule matches that part,
    the requirement is an approval or a refusal, whatever the rules say of the
    other parts; only when prompts are off altogether and the sandbox was
    explicitly disabled or left to the caller may it be skipped.  And a first
    attempt leaves the sandbox only when that was asked for or every part is
    matched by a rule. *)
Theorem dangerous_part_needs_approval (p : Policy) (req : ExecApprovalRequest)
  (cs : ExecPolicyCommands) (cmd : list str) (r : ExecApprovalRequirement) :
  policy_wf p ->
  commands_for_exec_policy try_parse_shell (req_command req) = Ok cs -> cmd ∈ commands cs ->
  command_might_be_dangerous try_parse_shell cmd = Ok true -> runs_script (L"zsh") cmd = false ->
  no_rule_for p cmd ->
  requirement p req = Ok r ->
  (req_approval_policy req <> Never
     \/ sandbox_is_explicitly_disabled (req_permission_profile req) = false ->
   forall bypass am, r <> Skip bypass am)
  /\ (sandbox_override_for_first_attempt (req_sandbox_permissions req) r = BypassSandboxFirstAttempt ->
      requires_escalated_permissions (req_sandbox_permissions req) = true).
Proof. apply dangerous_part_requirement. Qed.

(** ** Theorems: proposed amendments *)

(** The commands a heuristic match names. *)
Lemma first_heuristic_spec d ms a :
  first_heuristic d ms = Some a -> HeuristicsRuleMatch (amendment_command a) d ∈ ms.
Proof.
  induction ms as [|[]]; simpl; [done|intros ?; right; auto|].
  case_bool_decide as E; [|intros ?; right; auto]. intros [= <-]. subst. by left.
Qed.

Lemma heuristic_match_spec p fb cmd c d :
  policy_wf p ->
  HeuristicsRuleMatch c d ∈ matches_for_command_with_options home cwd p cmd (Some fb) resolving ->
  c = cmd /\ d = fb cmd /\ ~ exists r, consulted home cwd p resolving cmd r.
Proof.
  intros Hwf. rewrite <- no_consulted_rule by done.
  pose proof (rule_matches_prefix home cwd p cmd resolving) as Hpre.
  change (matches_for_command_with_options home cwd p cmd (Some fb) resolving) with
    (let ms := matches_for_command_with_options home cwd p cmd None resolving in
     if is_nil ms then [HeuristicsRuleMatch cmd (fb cmd)] else ms).
  destruct (matches_for_command_with_options home cwd p cmd None resolving) as [|m ms]; simpl.
  - by intros [= -> ->]%list_elem_of_singleton.
  - by intros Hm%Hpre.
Qed.

(** With the prefix of a command allowed, no fallback is asked about the command. *)
Lemma amended_exact p p' prefix args :
  prefix <> [] -> add_prefix_rule p prefix Allow = Ok p' ->
  exact_rule p' (prefix ++ args) (prefix_rule_of prefix Allow).
Proof.
  intros Hne Hadd. split; [by apply (add_prefix_rule_policy_rule _ _ _ _ _ Hadd); right|].
  apply prefix_rule_of_matches; eauto.
Qed.

Lemma amended_verdicts p p' prefix args fb d :
  prefix <> [] -> add_prefix_rule p prefix Allow = Ok p' ->
  ~ (exists r, consulted home cwd p resolving (prefix ++ args) r) ->
  verdict home cwd p' resolving fb (prefix ++ args) d -> d = Allow.
Proof.
  intros Hne Hadd Hno. pose proof (amended_exact p p' prefix args Hne Hadd) as Hex.
  intros [(r & [[Hr Hm]|(_ & Hn & _)] & <-)|[Hn _]].
  - apply (add_prefix_rule_policy_rule _ _ _ _ _ Hadd) in Hr as [Hr| ->]; [|done].
    destruct Hno. exists r. by left.
  - destruct Hn. eauto.
  - destruct Hn. eexists. left. exact Hex.
Qed.

Lemma decides_all p fb cmd :
  policy_wf p -> decides env p fb resolving cmd Allow = true ->
  forall d, verdict home cwd p resolving fb cmd d -> d = Allow.
Proof.
  intros Hwf. unfold decides.
  destruct (check_with_options_spec home cwd p cmd fb resolving Hwf) as (ev & -> & _ & Hmax & _).
  rewrite bool_decide_eq_true. intros Ha d Hv%Hmax. rewrite Ha in Hv. destruct d; simpl in Hv; [done|lia..].
Qed.

(** When all verdicts allow, nothing is asked. *)
Lemma all_allowed_skips p req cs :
  policy_wf p -> commands_for_exec_policy try_parse_shell (req_command req) = Ok cs ->
  commands cs <> [] -> (forall d, segment_verdict p req cs d -> d = Allow) ->
  exists bypass am, requirement p req = Ok (Skip bypass am).
Proof.
  intros Hwf Hcs Hne Hall.
  destruct (request_evaluation p req cs Hwf Hne) as (ev & Hev & Hd%Hall & _).
  destruct (requirement_unfold p req cs ev Hcs Hev) as (r & Hr & Hcase). rewrite Hd in Hcase.
  destruct r as [b am|reason am|reason]; [by exists b, am|naive_solver..].
Qed.

(** What may be proposed: the requested prefix, or the first command that only
    the fallback asked about. *)
Definition proposal_spec (p : Policy) (req : ExecApprovalRequest) (cs : ExecPolicyCommands)
  (prefix : list str) : Prop :=
  (req_prefix_rule req = Some prefix /\ prefix <> [] /\ prefix ∉ BANNED_PREFIX_SUGGESTIONS
   /\ (forall d, ~ segment_rule p cs d)
   /\ forall p', add_prefix_rule p prefix Allow = Ok p' ->
        exists bypass am, requirement p' req = Ok (Skip bypass am))
  \/ (~ segment_rule p cs Prompt /\ prefix ∈ commands cs
      /\ fallback (request_context req cs) prefix = Prompt
      /\ forall p' fb d, add_prefix_rule p prefix Allow = Ok p' ->
           verdict home cwd p' resolving fb prefix d -> d = Allow).

Lemma requested_spec p req cs ev a :
  policy_wf p -> commands_for_exec_policy try_parse_shell (req_command req) = Ok cs ->
  commands cs <> [] ->
  (forall d, existsb (is_rule_with d) (matched_rules ev) = true <-> segment_rule p cs d) ->
  derive_requested_execpolicy_amendment_from_prefix_rule env (req_prefix_rule req)
    (matched_rules ev) p (commands cs) (fallback (request_context req cs)) resolving = Some a ->
  proposal_spec p req cs (amendment_command a).
Proof.
  intros Hwf Hcs Hne Hrule. unfold derive_requested_execpolicy_amendment_from_prefix_rule.
  destruct (req_prefix_rule req) as [prefix|] eqn:Ep; [|done]. cbn [mbind option_bind]. case_goal; [done|].
  apply is_nil_false in E. case_goal; [done|]. case_goal; [done|]. case_goal; [|done].
  intros [= <-]. left. split_and!; [done|done| | |].
  - intros Hin. apply not_true_iff_false in E0. apply E0, existsb_elem. exists prefix.
    by rewrite bool_decide_true.
  - intros d Hd%Hrule. apply existsb_elem in Hd as (m & Hm & [Hpm _]%is_rule_with_true).
    apply not_true_iff_false in E1. apply E1, existsb_elem. eauto.
  - intros p' Hadd. simpl in Hadd. unfold prefix_rule_would_approve_all_commands in E2.
    rewrite Hadd in E2. pose proof (add_prefix_rule_wf _ _ _ _ Hwf Hadd) as Hwf'.
    apply (all_allowed_skips p' req cs); [done..|]. intros d (cmd & Hc & Hv).
    rewrite forallb_forall in E2. setoid_rewrite <- list_elem_of_In in E2.
    by apply (decides_all p' (fallback (request_context req cs)) cmd Hwf' (E2 cmd Hc)).
Qed.

(** An amendment proposed with a prompt is worth accepting.  Either it is the
    prefix the caller asked for, which is then not empty, not one of the banned
    prefixes (interpreters, shells, [sudo], ..), proposed only when no rule
    matched any part, and enough: with the rule added the same request is let
    through.  Or no rule asked for the prompt, the amendment is one of the parts
    of the command, only the fallback asked about it, and with the rule added
    every verdict on that part is to allow. *)
Theorem proposed_amendment_suffices (p : Policy) (req : ExecApprovalRequest) (reason : option str)
  (a : ExecPolicyAmendment) :
  policy_wf p -> requirement p req = Ok (NeedsApproval reason (Some a)) ->
  exists cs, commands_for_exec_policy try_parse_shell (req_command req) = Ok cs
    /\ used_complex_parsing cs = false /\ proposal_spec p req cs (amendment_command a).
Proof.
  intros Hwf. destruct (commands_return (req_command req)) as (cs & Hcs & Hne).
  destruct (request_evaluation p req cs Hwf Hne) as (ev & Hev & _ & _ & Hrule & Hms).
  unfold create_exec_approval_requirement_for_command. rewrite Hcs. simpl. rewrite Hev. simpl.
  intros [= Hr]. exists cs. split; [done|].
  destruct (used_complex_parsing cs); simpl in Hr; [by repeat case_hyp Hr|]. split; [done|].
  destruct (derive_requested_execpolicy_amendment_from_prefix_rule _ _ _ _ _ _ _) eqn:Ereq.
  { apply (requested_spec p req cs ev); [done..|]. rewrite Ereq. f_equal. by repeat case_hyp Hr; naive_solver. }
  assert (try_derive_execpolicy_amendment_for_prompt_rules (matched_rules ev) = Some a) as Ha
    by (by repeat case_hyp Hr; naive_solver).
  unfold try_derive_execpolicy_amendment_for_prompt_rules in Ha.
  destruct (existsb _ _) eqn:Eb in Ha; [done|]. right. split; [by rewrite <- Hrule, Eb|].
  apply first_heuristic_spec in Ha. rewrite Hms in Ha.
  apply elem_of_concat_fmap in Ha as (cmd & Hc & Hin).
  apply heuristic_match_spec in Hin as (-> & Hf & Hno); [|done]. split_and!; [done|done|].
  intros p' fb d Hadd. rewrite <- (app_nil_r cmd).
  destruct cmd as [|w ws]; [done|]. apply (amended_verdicts p p' (w :: ws) []); [done|done|].
  by rewrite app_nil_r.
Qed.
End approval.

(** ** Instances *)

Definition ask (command : list str) (prefix : option (list str)) (policy : AskForApproval)
  : ExecApprovalRequest :=
  mkRequest command policy profile_read_only fs_default [RootDir] UseDefault prefix.

Definition join_with_spaces (args : list str) : option str := Some (join [SP] args).

Definition require_for (p : Policy) (req : ExecApprovalRequest) :=
  create_exec_approval_requirement_for_command plain_env sample_parser no_powershell join_with_spaces p req.

Lemma requirement_follows_verdicts_witness :
  exists p cs r, git_policy = Ok p
    /\ require_for p (ask [L"git"; L"push"] None OnRequest) = Ok (RequirementForbidden r)
    /\ requirement_spec plain_env sample_parser no_powershell p (ask [L"git"; L"push"] None OnRequest)
         cs (RequirementForbidden r).
Proof.
  assert (exists p, git_policy = Ok p) as [p Hp] by (eexists; vm_compute; reflexivity).
  destruct (requirement_follows_verdicts plain_env sample_parser no_powershell join_with_spaces p
    (ask [L"git"; L"push"] None OnRequest) (git_policy_wf p Hp)) as (cs & r & Hcs & _ & Hr & Hspec).
  assert (exists reason, r = RequirementForbidden reason) as [reason ->].
  { vm_compute in Hp. injection Hp as <-. vm_compute in Hr. injection Hr as <-. by eexists. }
  by exists p, cs, reason.
Defined.

Lemma dangerous_part_needs_approval_witness :
  let req := ask [L"rm"; L"-rf"; L"x"] None OnRequest in
  exists r, require_for policy_empty req = Ok r /\ forall bypass am, r <> Skip bypass am.
Proof.
  intros req.
  assert (exists r, require_for policy_empty req = Ok r) as [r Hr] by (eexists; vm_compute; reflexivity).
  assert (exists cs, commands_for_exec_policy sample_parser (req_command req) = Ok cs
    /\ commands cs = [[L"rm"; L"-rf"; L"x"]]) as (cs & Hcs & Hc)
    by (eexists; split; [vm_compute; reflexivity|vm_compute; reflexivity]).
  exists r. split; [done|].
  eapply (dangerous_part_needs_approval plain_env sample_parser no_powershell join_with_spaces policy_empty
    req cs [L"rm"; L"-rf"; L"x"] r); [apply policy_empty_wf|done|rewrite Hc; by left| |done| |done|by left].
  - vm_compute. reflexivity.
  - unfold no_rule_for. rewrite <- no_consulted_rule by apply policy_empty_wf. vm_compute. reflexivity.
Defined.

Lemma proposed_amendment_suffices_witness :
  let req := ask [L"cargo"; L"build"] (Some [L"cargo"]) UnlessTrusted in
  exists cs, require_for policy_empty req
      = Ok (NeedsApproval None (Some (mkAmendment [L"cargo"])))
    /\ proposal_spec plain_env sample_parser no_powershell join_with_spaces policy_empty req cs [L"cargo"].
Proof.
  intros req.
  assert (require_for policy_empty req = Ok (NeedsApproval None (Some (mkAmendment [L"cargo"])))) as Hr
    by (vm_compute; reflexivity).
  destruct (proposed_amendment_suffices plain_env sample_parser no_powershell join_with_spaces policy_empty
    req None (mkAmendment [L"cargo"]) policy_empty_wf Hr) as (cs & _ & _ & H).
  by exists cs.
Defined.
