(* ===== verification/ConfigToml.v ===== *)
(** * Configuration values (config/src: merge.rs, key_aliases.rs, overrides.rs,
      fingerprint.rs, project_root_markers.rs)

    TOML values, the merge of an overlay into a base, the renaming of legacy
    keys, command-line overrides by dotted path, and the origins of fields.
    Tables are finite maps: no operation depends on the order of keys. *)

From S2P Require Import Prelude RustStr AbsolutePath PatchApply.

(** [toml::Value]; a float by its bits, a date by its text. *)
Inductive TomlValue :=
| TString (s : str)
| TInteger (i : Z)
| TFloat (bits : N)
| TBoolean (b : bool)
| TDatetime (text : str)
| TArray (items : list TomlValue)
| TTable (table : gmap str TomlValue).

(** ** Legacy keys *)

Record ConfigKeyAlias := mkAlias {
  table_path : list str;
  legacy_key : str;
  canonical_key : str }.

Definition CONFIG_KEY_ALIASES : list ConfigKeyAlias :=
  [mkAlias [L"memories"] (L"no_memories_if_mcp_or_web_search") (L"disable_on_external_context")].

Definition apply_alias {V} (path : list str) (table : gmap str V) (alias : ConfigKeyAlias)
  : gmap str V :=
  if bool_decide (path = table_path alias) then
    match table !! legacy_key alias with
    | Some value =>
        let table := delete (legacy_key alias) table in
        match table !! canonical_key alias with
        | Some _ => table
        | None => <[canonical_key alias := value]> table
        end
    | None => table
    end
  else table.

Definition normalize_key_aliases {V} (path : list str) (table : gmap str V) : gmap str V :=
  foldl (apply_alias path) table CONFIG_KEY_ALIASES.

(** Each entry with the path of its key. *)
Definition at_keys {V} (path : list str) (table : gmap str (list str -> V)) : gmap str V :=
  map_imap (fun key f => Some (f (path ++ [key]))) table.

Fixpoint normalized_with_key_aliases (value : TomlValue) (path : list str) {struct value}
  : TomlValue :=
  match value with
  | TTable table =>
      TTable (normalize_key_aliases path (at_keys path (normalized_with_key_aliases <$> table)))
  | TArray items => TArray ((fun item => normalized_with_key_aliases item path) <$> items)
  | value => value
  end.

(** ** Merging *)

(** An overlay at a path, into the value that is there, if any.  The loop over the
    overlay's entries touches each key once. *)
Fixpoint merge_toml_values_at_path (overlay : TomlValue) (path : list str)
  (base : option TomlValue) {struct overlay} : TomlValue :=
  match base, overlay with
  | Some (TTable base_table), TTable overlay_table =>
      let base_table := normalize_key_aliases path base_table in
      let overlay_table :=
        at_keys path (normalize_key_aliases path (merge_toml_values_at_path <$> overlay_table)) in
      TTable (merge (fun existing overlaid =>
        match overlaid with Some into => Some (into existing) | None => existing end)
        base_table overlay_table)
  | _, _ => normalized_with_key_aliases overlay path
  end.

Definition merge_toml_values (base overlay : TomlValue) : TomlValue :=
  merge_toml_values_at_path overlay [] (Some base).

(** ** Overrides *)

Definition default_empty_table : TomlValue := TTable ∅.

Definition as_table (v : TomlValue) : gmap str TomlValue :=
  match v with TTable table => table | _ => ∅ end.

(** The loop over the segments: [current] is what the path so far leads to. *)
Fixpoint override_loop (segments : list str) (value current : TomlValue) : TomlValue :=
  match segments with
  | [] => current
  | [segment] => TTable (<[segment := value]> (as_table current))
  | segment :: rest =>
      let table := as_table current in
      TTable (<[segment :=
        override_loop rest value (default default_empty_table (table !! segment))]> table)
  end.

Definition apply_toml_override (root : TomlValue) (path : str) (value : TomlValue) : TomlValue :=
  override_loop (split_char 46 path) value root.

Definition build_cli_overrides_layer (cli_overrides : list (str * TomlValue)) : TomlValue :=
  foldl (fun root '(path, value) => apply_toml_override root path value)
    default_empty_table cli_overrides.

(** ** Origins *)

Fixpoint record_origins {M} (value : TomlValue) (meta : M) (path : list str) (origins : gmap str M)
  {struct value} : gmap str M :=
  match value with
  | TTable table =>
      map_fold (fun key val origins => record_origins val meta (path ++ [key]) origins) origins table
  | TArray items =>
      (fix go (idx : nat) (items : list TomlValue) (origins : gmap str M) :=
         match items with
         | [] => origins
         | item :: items =>
             go (S idx) items (record_origins item meta (path ++ [show_nat idx]) origins)
         end) 0 items origins
  | _ => if is_nil path then origins else <[join (L".") path := meta]> origins
  end.

(** ** Project root markers *)

Definition DEFAULT_PROJECT_ROOT_MARKERS : list str := [L".git"].

Definition as_str (v : TomlValue) : option str := match v with TString s => Some s | _ => None end.

Definition invalid_markers : io_error :=
  mkIo InvalidData (L"project_root_markers must be an array of strings").

Definition project_root_markers_from_config (config : TomlValue)
  : result io_error (option (list str)) :=
  match config with
  | TTable table =>
      match table !! L"project_root_markers" with
      | None => Ok None
      | Some (TArray entries) =>
          match mapM as_str entries with
          | Some markers => Ok (Some markers)
          | None => Err invalid_markers
          end
      | Some _ => Err invalid_markers
      end
  | _ => Ok None
  end.

(** ** Induction on values *)

Fixpoint toml_size (v : TomlValue) : nat :=
  match v with
  | TTable table => S (map_fold (fun _ v n => toml_size v + n) 0 table)
  | TArray items => S (sum_list (toml_size <$> items))
  | _ => 1
  end.

Lemma table_entry_smaller t k v : t !! k = Some v -> toml_size v < toml_size (TTable t).
Proof.
  intros H. simpl. rewrite (map_fold_delete_L _ _ k v t); [lia| |done]. intros. lia.
Qed.

Lemma array_item_smaller items v : v ∈ items -> toml_size v < toml_size (TArray items).
Proof. intros H. simpl. induction H; csimpl in *; lia. Qed.

Lemma toml_induction (P : TomlValue -> Prop) :
  (forall v, match v with TTable _ | TArray _ => False | _ => True end -> P v) ->
  (forall items, Forall P items -> P (TArray items)) ->
  (forall table, map_Forall (fun _ => P) table -> P (TTable table)) ->
  forall v, P v.
Proof.
  intros Hleaf Harr Htab v. induction v as [v IH] using (induction_ltof1 _ toml_size).
  unfold ltof in IH. destruct v as [| | | | |items|table]; try by apply Hleaf.
  - apply Harr, Forall_forall. intros x Hx. by apply IH, array_item_smaller.
  - apply Htab. intros k x Hx. eapply IH, table_entry_smaller, Hx.
Qed.

(** ** Legacy keys: facts *)

Definition MEMORIES : list str := [L"memories"].
Definition LEGACY : str := L"no_memories_if_mcp_or_web_search".
Definition CANONICAL : str := L"disable_on_external_context".

Lemma lookup_at_keys {V} (path : list str) (t : gmap str (list str -> V)) (k : str) :
  at_keys path t !! k = (fun f => f (path ++ [k])) <$> t !! k.
Proof. unfold at_keys. rewrite map_lookup_imap. by destruct (t !! k). Qed.

Lemma normalize_other {V} (path : list str) (t : gmap str V) :
  path <> MEMORIES -> normalize_key_aliases path t = t.
Proof. intros H. unfold normalize_key_aliases, apply_alias. simpl. by rewrite bool_decide_false. Qed.

Lemma lookup_normalize {V} (t : gmap str V) (k : str) :
  normalize_key_aliases MEMORIES t !! k
  = if decide (k = LEGACY) then None
    else if decide (k = CANONICAL)
    then match t !! CANONICAL with Some v => Some v | None => t !! LEGACY end
    else t !! k.
Proof.
  unfold normalize_key_aliases, apply_alias. cbn [foldl CONFIG_KEY_ALIASES table_path legacy_key canonical_key].
  fold MEMORIES LEGACY CANONICAL. rewrite bool_decide_true by done.
  assert (LEGACY <> CANONICAL) as Hne by (vm_compute; done).
  destruct (t !! LEGACY) as [v|] eqn:El.
  - rewrite lookup_delete_ne by done. destruct (t !! CANONICAL) as [c|] eqn:Ec.
    + rewrite lookup_delete. repeat case_decide; subst; congruence || done.
    + rewrite lookup_insert, lookup_delete. repeat case_decide; subst; congruence || done.
  - repeat case_decide; subst; [done| |done]. by destruct (t !! CANONICAL).
Qed.

Lemma normalize_natural {V W} (f : V -> W) (path : list str) (t : gmap str V) (k : str) :
  normalize_key_aliases path (f <$> t) !! k = f <$> normalize_key_aliases path t !! k.
Proof.
  destruct (decide (path = MEMORIES)) as [->|Hp]; [|by rewrite !normalize_other, lookup_fmap].
  rewrite !lookup_normalize, !lookup_fmap. repeat case_decide; try done. by destruct (t !! CANONICAL).
Qed.

Lemma normalize_from {V} (path : list str) (t : gmap str V) (k : str) (v : V) :
  normalize_key_aliases path t !! k = Some v -> exists k', t !! k' = Some v.
Proof.
  destruct (decide (path = MEMORIES)) as [->|Hp]; [|rewrite normalize_other; eauto].
  rewrite lookup_normalize. repeat case_decide; [done| |eauto].
  destruct (t !! CANONICAL) eqn:E; [intros [= <-]|]; eauto.
Qed.

Lemma normalize_idem {V} (path : list str) (t : gmap str V) :
  normalize_key_aliases path (normalize_key_aliases path t) = normalize_key_aliases path t.
Proof.
  destruct (decide (path = MEMORIES)) as [->|Hp]; [|by rewrite !normalize_other].
  apply map_eq. intros k. rewrite !(lookup_normalize _ k), !lookup_normalize.
  repeat case_decide; try done.
  destruct (t !! CANONICAL), (t !! LEGACY); done.
Qed.

(** Off the path to the aliases nothing is renamed. *)
Lemma norm_other v path :
  ~ path `prefix_of` MEMORIES -> normalized_with_key_aliases v path = v.
Proof.
  revert path. induction v as [v Hv|items IH|t IH] using toml_induction; intros path Hp.
  - by destruct v.
  - simpl. f_equal. rewrite <- (list_fmap_id items) at 2. apply list_fmap_ext.
    intros i x Hx. rewrite Forall_forall in IH. apply IH; [by eapply list_elem_of_lookup_2|done].
  - simpl. rewrite normalize_other by (by intros ->). f_equal. apply map_eq. intros k.
    rewrite lookup_at_keys, lookup_fmap. destruct (t !! k) as [x|] eqn:E; [|done]. simpl. f_equal.
    apply (IH k x E). intros Hpre. apply Hp. etrans; [|exact Hpre]. by eexists.
Qed.

Lemma below_memories k : ~ (MEMORIES ++ [k]) `prefix_of` MEMORIES.
Proof. intros H%prefix_length. rewrite length_app in H. simpl in H. lia. Qed.

(** Renaming before or after the entries. *)
Lemma norm_table path t k :
  normalize_key_aliases path (at_keys path (normalized_with_key_aliases <$> t)) !! k
  = (fun v => normalized_with_key_aliases v (path ++ [k])) <$> normalize_key_aliases path t !! k.
Proof.
  destruct (decide (path = MEMORIES)) as [->|Hp].
  - replace (at_keys MEMORIES (normalized_with_key_aliases <$> t)) with t.
    + destruct (normalize_key_aliases MEMORIES t !! k); [|done]. simpl.
      by rewrite norm_other by apply below_memories.
    + apply map_eq. intros k'. rewrite lookup_at_keys, lookup_fmap. destruct (t !! k'); [|done].
      simpl. by rewrite norm_other by apply below_memories.
  - by rewrite !normalize_other, lookup_at_keys, lookup_fmap, <- option_fmap_compose by done.
Qed.

Lemma norm_idem v path :
  normalized_with_key_aliases (normalized_with_key_aliases v path) path
  = normalized_with_key_aliases v path.
Proof.
  revert path. induction v as [v Hv|items IH|t IH] using toml_induction; intros path.
  - by destruct v.
  - simpl. f_equal. rewrite <- list_fmap_compose. apply list_fmap_ext. intros i x Hx. simpl.
    rewrite Forall_forall in IH. apply IH. by eapply list_elem_of_lookup_2.
  - simpl. f_equal. apply map_eq. intros k. rewrite norm_table.
    set (t' := normalize_key_aliases path (at_keys path _)).
    replace (normalize_key_aliases path t') with t' by (symmetry; apply normalize_idem).
    unfold t'. rewrite norm_table. destruct (normalize_key_aliases path t !! k) as [x|] eqn:E; [|done].
    simpl. f_equal. apply normalize_from in E as [k' E]. by apply (IH k' x E).
Qed.

(** A value with canonical names only. *)
Definition canonical (path : list str) (v : TomlValue) : Prop :=
  normalized_with_key_aliases v path = v.

Lemma canonical_table path t :
  canonical path (TTable t) <->
  normalize_key_aliases path t = t /\ forall k v, t !! k = Some v -> canonical (path ++ [k]) v.
Proof.
  unfold canonical. simpl. split.
  - intros [= H].
    assert (normalize_key_aliases path t = t) as Hn.
    { rewrite <- H. apply normalize_idem. }
    split; [done|]. intros k v Hk. pose proof (norm_table path t k) as Hl.
    rewrite H, Hn, Hk in Hl. by injection Hl.
  - intros [Hn Hc]. f_equal. apply map_eq. intros k. rewrite norm_table, Hn.
    destruct (t !! k) as [v|] eqn:E; [|done]. simpl. f_equal. by apply Hc.
Qed.

(** ** What a value says of a path

    [None] when it is silent, [Some None] when it has no plain value there,
    [Some (Some v)] when it has. *)
Fixpoint says (v : TomlValue) (path : list str) : option (option TomlValue) :=
  match v, path with
  | TTable t, k :: path => v ← t !! k; says v path
  | TTable _, [] => Some None
  | v, [] => Some (Some v)
  | _, _ :: _ => Some None
  end.

(** The plain value at a path. *)
Definition leaf (v : TomlValue) (path : list str) : option TomlValue := default None (says v path).

(** The table a merge of two tables gives. *)
Lemma lookup_merged path bt ot k :
  normalize_key_aliases path bt = bt ->
  merge_toml_values_at_path (TTable ot) path (Some (TTable bt)) =
    TTable (as_table (merge_toml_values_at_path (TTable ot) path (Some (TTable bt)))) /\
  as_table (merge_toml_values_at_path (TTable ot) path (Some (TTable bt))) !! k
  = match normalize_key_aliases path ot !! k with
    | Some v => Some (merge_toml_values_at_path v (path ++ [k]) (bt !! k))
    | None => bt !! k
    end.
Proof.
  intros Hb. split; [done|]. cbn [merge_toml_values_at_path as_table].
  rewrite lookup_merge, lookup_at_keys, normalize_natural, Hb.
  destruct (normalize_key_aliases path ot !! k); simpl; [by destruct (bt !! k)|by destruct (bt !! k)].
Qed.

Lemma leaf_table t k path : leaf (TTable t) (k :: path) = v ← t !! k; leaf v path.
Proof. unfold leaf. simpl. by destruct (t !! k). Qed.

Lemma merge_none o path : merge_toml_values_at_path o path None = normalized_with_key_aliases o path.
Proof. by destruct o. Qed.

Lemma merge_not_table o path b :
  match b, o with TTable _, TTable _ => False | _, _ => True end ->
  merge_toml_values_at_path o path (Some b) = normalized_with_key_aliases o path.
Proof. by destruct b, o. Qed.

Lemma says_silent v path : says v path = None -> exists t k rest, v = TTable t /\ path = k :: rest.
Proof. destruct v, path; try done. simpl. eauto. Qed.

Lemma leaf_not_table b k path : match b with TTable _ => False | _ => True end -> leaf b (k :: path) = None.
Proof. by destruct b. Qed.

(** Where the overlay is not merged into a table it replaces the base. *)
Lemma leaf_replaced o path b (p : list str) :
  match b, o with TTable _, TTable _ => False | _, _ => True end ->
  leaf (normalized_with_key_aliases o path) p
  = default (leaf b p) (says (normalized_with_key_aliases o path) p).
Proof.
  intros Hc. unfold leaf at 1. destruct (says _ p) eqn:E; [done|]. simpl. symmetry.
  apply says_silent in E as (t & k & rest & Ht & ->). destruct o; try done.
  apply leaf_not_table. by destruct b.
Qed.

Lemma merge_leaf_aux o path b :
  canonical path b ->
  (forall p, leaf (merge_toml_values_at_path o path (Some b)) p
             = default (leaf b p) (says (normalized_with_key_aliases o path) p))
  /\ canonical path (merge_toml_values_at_path o path (Some b)).
Proof.
  revert path b. induction o as [o IH] using (induction_ltof1 _ toml_size). unfold ltof in IH.
  intros path b Hb.
  destruct (match b, o with TTable _, TTable _ => true | _, _ => false end) eqn:Et.
  2: { assert (match b, o with TTable _, TTable _ => False | _, _ => True end) as H by (by destruct b, o).
       rewrite merge_not_table by done. split; [|apply norm_idem]. intros p. by apply leaf_replaced. }
  destruct b as [| | | | | |bt]; try done. destruct o as [| | | | | |ot]; try done. clear Et.
  apply canonical_table in Hb as [Hn Hc].
  assert (forall k v bv, normalize_key_aliases path ot !! k = Some v -> bt !! k = Some bv ->
    (forall p, leaf (merge_toml_values_at_path v (path ++ [k]) (Some bv)) p
       = default (leaf bv p) (says (normalized_with_key_aliases v (path ++ [k])) p))
    /\ canonical (path ++ [k]) (merge_toml_values_at_path v (path ++ [k]) (Some bv))) as IH'.
  { intros k v bv Hk Hbk. apply IH; [|by apply Hc]. apply normalize_from in Hk as [k' Hk].
    by eapply table_entry_smaller. }
  pose proof (fun k => lookup_merged path bt ot k Hn) as Hm. clear IH.
  destruct (Hm []) as [-> _]. set (m := as_table _) in *. split.
  - intros [|k p]; [done|]. rewrite !leaf_table. rewrite (proj2 (Hm k)).
    cbn [normalized_with_key_aliases says]. rewrite norm_table.
    destruct (normalize_key_aliases path ot !! k) as [v|] eqn:Ev; simpl; [|done].
    destruct (bt !! k) as [bv|] eqn:Eb; simpl; [by apply IH'|]. by rewrite merge_none.
  - apply canonical_table. split.
    + apply map_eq. intros k. destruct (decide (path = MEMORIES)) as [->|Hp]; [|by rewrite normalize_other].
      assert (m !! LEGACY = None) as Hl.
      { rewrite (proj2 (Hm LEGACY)), lookup_normalize, decide_True by done.
        rewrite <- Hn, lookup_normalize. by rewrite decide_True. }
      rewrite lookup_normalize. repeat case_decide; subst; [done| |done].
      by destruct (m !! CANONICAL).
    + intros k v. rewrite (proj2 (Hm k)).
      destruct (normalize_key_aliases path ot !! k) as [w|] eqn:Ew; [|by apply Hc].
      intros [= <-]. destruct (bt !! k) as [bv|] eqn:Eb; [by apply IH'|].
      rewrite merge_none. apply norm_idem.
Qed.

(** The merge of a list of values, first to last. *)
Definition merge_all (values : list TomlValue) : TomlValue :=
  foldl merge_toml_values default_empty_table values.

Lemma merge_all_snoc values v : merge_all (values ++ [v]) = merge_toml_values (merge_all values) v.
Proof. unfold merge_all. by rewrite foldl_app. Qed.

Lemma merge_all_leaf values p :
  canonical [] (merge_all values)
  /\ leaf (merge_all values) p
     = default None (last (omap (fun v => says (normalized_with_key_aliases v []) p) values)).
Proof.
  induction values as [|v values IH] using rev_ind.
  { split; [by vm_compute|]. by destruct p. }
  destruct IH as [Hc Hl]. rewrite merge_all_snoc, omap_app.
  destruct (merge_leaf_aux v [] (merge_all values) Hc) as [Hm Hc']. split; [done|].
  unfold merge_toml_values. rewrite Hm, Hl. simpl.
  destruct (says (normalized_with_key_aliases v []) p); simpl; [by rewrite last_snoc|].
  by rewrite app_nil_r.
Qed.

(** ** Overrides: facts *)

(** What is at a path after something was put at [segments]. *)
Definition overridden (segments : list str) (value current : TomlValue) (p : list str)
  : option TomlValue :=
  if bool_decide (segments `prefix_of` p) then leaf value (drop (length segments) p)
  else if bool_decide (p `prefix_of` segments) then None
  else leaf current p.

Lemma leaf_as_table v k p : leaf (TTable (as_table v)) (k :: p) = leaf v (k :: p).
Proof. destruct v; unfold leaf; simpl; try by rewrite lookup_empty. done. Qed.

Lemma prefix_cons_bool (a b : str) (l k : list str) :
  bool_decide (a :: l `prefix_of` b :: k) = bool_decide (a = b) && bool_decide (l `prefix_of` k).
Proof.
  rewrite <- bool_decide_and. apply bool_decide_ext. split.
  - intros H. split; [by apply prefix_cons_inv_1 in H|by apply prefix_cons_inv_2 in H].
  - intros [-> H]. by apply prefix_cons.
Qed.

Lemma override_leaf segments value current p :
  segments <> [] -> leaf (override_loop segments value current) p = overridden segments value current p.
Proof.
  revert current p. induction segments as [|s rest IH]; intros current p Hne; [done|].
  destruct p as [|k p].
  { unfold overridden. rewrite bool_decide_false by (by intros ?%prefix_nil_inv).
    rewrite bool_decide_true by apply prefix_nil. by destruct rest. }
  assert (exists v', override_loop (s :: rest) value current = TTable (<[s := v']> (as_table current))
    /\ forall p, leaf v' p = if is_nil rest then leaf value p
       else overridden rest value (default default_empty_table (as_table current !! s)) p)
    as (v' & -> & Hv').
  { destruct rest as [|s' rest]; [by exists value|]. eexists. split; [reflexivity|]. intros q. by apply IH. }
  rewrite leaf_table. unfold overridden. rewrite !prefix_cons_bool.
  destruct (decide (s = k)) as [->|Hk].
  - rewrite lookup_insert_eq, !bool_decide_true by done. simpl. rewrite Hv'.
    destruct rest as [|s' rest]; simpl; [by rewrite ?drop_0|].
    unfold overridden. case_bool_decide; [done|]. case_bool_decide; [done|].
    rewrite <- leaf_as_table, leaf_table. destruct (as_table current !! k); [done|]. simpl.
    destruct p; [|done]. by destruct H0; apply prefix_nil.
  - rewrite lookup_insert_ne, !(bool_decide_false (_ = _)) by done. simpl.
    by rewrite <- leaf_table, leaf_as_table.
Qed.

(** ** Origins: facts *)

(** The names under which a value is recorded. *)
Fixpoint names (value : TomlValue) (path : list str) {struct value} : gset str :=
  match value with
  | TTable table => map_fold (fun key val acc => names val (path ++ [key]) ∪ acc) ∅ table
  | TArray items =>
      (fix go (idx : nat) (items : list TomlValue) : gset str :=
         match items with
         | [] => ∅
         | item :: items => names item (path ++ [show_nat idx]) ∪ go (S idx) items
         end) 0 items
  | _ => if is_nil path then ∅ else {[ join (L".") path ]}
  end.

Lemma lookup_record_origins {M} (value : TomlValue) (meta : M) (path : list str)
  (origins : gmap str M) (name : str) :
  record_origins value meta path origins !! name
  = if decide (name ∈ names value path) then Some meta else origins !! name.
Proof.
  revert path origins. induction value as [v Hv|items IH|t IH] using toml_induction; intros path origins.
  - assert (record_origins v meta path origins
      = if is_nil path then origins else <[join (L".") path := meta]> origins) as -> by (by destruct v).
    assert (names v path = if is_nil path then ∅ else {[ join (L".") path ]}) as -> by (by destruct v).
    destruct (is_nil path); [rewrite decide_False by set_solver; done|].
    rewrite lookup_insert. repeat case_decide; set_solver.
  - cbn [record_origins names]. generalize 0. revert origins.
    induction IH as [|v items Hv F IHl]; intros origins n.
    { by rewrite decide_False by set_solver. }
    rewrite IHl, Hv. repeat case_decide; set_solver.
  - cbn [record_origins names]. revert IH.
    pose (ns (t : gmap str TomlValue) :=
      map_fold (fun key val (acc : gset str) => names val (path ++ [key]) ∪ acc) ∅ t).
    pose (P (r : gmap str M) (t : gmap str TomlValue) :=
      map_Forall (fun (_ : str) (v : TomlValue) => forall (path : list str) (origins : gmap str M),
        record_origins v meta path origins !! name
        = if decide (name ∈ names v path) then Some meta else origins !! name) t ->
      r !! name = if decide (name ∈ ns t) then Some meta else origins !! name).
    refine (map_fold_weak_ind P _ _ _ _ t).
    { intros _. unfold ns. by rewrite map_fold_empty, decide_False by set_solver. }
    clear t. intros k v t r Hk IHt [Hv Ht]%map_Forall_insert; [|done].
    unfold ns. rewrite map_fold_insert_L by (done || set_solver). fold (ns t). rewrite Hv, IHt by done.
    repeat case_decide; set_solver.
Qed.
