(* ===== verification/ConfigLayers.v ===== *)
(** * Configuration layers (config/src/state.rs, constraint.rs;
      app-server-protocol/src/protocol/v2/config.rs)

    The sources of configuration and their precedence, the stack of layers with
    its check of the order, the effective configuration and the origin of every
    field, and values under a constraint.  Of the requirements the stack carries,
    only the rules for commands are modelled; the hash that names a version of a
    layer is an argument. *)

From S2P Require Import Prelude RustStr AbsolutePath PatchApply ExecPolicy SandboxPaths ConfigToml.

(** ** Layers *)

Inductive ConfigLayerSource :=
| Mdm (domain key : str)
| System (file : AbsolutePathBuf)
| User (file : AbsolutePathBuf)
| Project (dot_codex_folder : AbsolutePathBuf)
| SessionFlags
| LegacyManagedConfigTomlFromFile (file : AbsolutePathBuf)
| LegacyManagedConfigTomlFromMdm.

Definition precedence (s : ConfigLayerSource) : Z :=
  match s with
  | Mdm _ _ => 0
  | System _ => 10
  | User _ => 20
  | Project _ => 25
  | SessionFlags => 30
  | LegacyManagedConfigTomlFromFile _ => 40
  | LegacyManagedConfigTomlFromMdm => 50
  end.

Definition is_user (s : ConfigLayerSource) : bool := match s with User _ => true | _ => false end.
Definition is_user_or_project (s : ConfigLayerSource) : bool :=
  match s with User _ | Project _ => true | _ => false end.

Record ConfigLayerEntry := mkLayer {
  name : ConfigLayerSource;
  config : TomlValue;
  raw_toml : option str;
  version : str;
  disabled_reason : option str }.

Record ConfigLayerMetadata := mkMetadata { meta_name : ConfigLayerSource; meta_version : str }.

Definition is_disabled (layer : ConfigLayerEntry) : bool :=
  match disabled_reason layer with Some _ => true | None => false end.
Definition metadata (layer : ConfigLayerEntry) : ConfigLayerMetadata :=
  mkMetadata (name layer) (version layer).

Definition config_folder (layer : ConfigLayerEntry) : option AbsolutePathBuf :=
  match name layer with
  | Mdm _ _ => None
  | System file => path_parent file
  | User file => path_parent file
  | Project dot_codex_folder => Some dot_codex_folder
  | SessionFlags => None
  | LegacyManagedConfigTomlFromFile _ => None
  | LegacyManagedConfigTomlFromMdm => None
  end.

(** ** The stack *)

Inductive ConfigLayerStackOrdering := LowestPrecedenceFirst | HighestPrecedenceFirst.

Record ConfigRequirements := mkRequirements { requirements_exec_policy : option Policy }.

Record ConfigLayerStack := mkStack {
  layers : list ConfigLayerEntry;
  user_layer_index : option nat;
  requirements : ConfigRequirements;
  ignore_user_and_project_exec_policy_rules : bool;
  startup_warnings : option (list str) }.

(** [is_sorted] by precedence. *)
Fixpoint is_sorted_by_precedence (sources : list ConfigLayerSource) : bool :=
  match sources with
  | a :: ((b :: _) as rest) => (precedence a <=? precedence b)%Z && is_sorted_by_precedence rest
  | _ => true
  end.

Definition invalid_data (text : str) : io_error := mkIo InvalidData text.

(** The loop that looks for the user layer and follows the project folders. *)
Fixpoint verify_loop (index : nat) (user_layer_index : option nat)
  (previous_project_dot_codex_folder : option AbsolutePathBuf) (layers : list ConfigLayerEntry)
  : result io_error (option nat) :=
  match layers with
  | [] => Ok user_layer_index
  | layer :: layers =>
      let? user_layer_index :=
        if is_user (name layer) then
          match user_layer_index with
          | Some _ => Err (invalid_data (L"multiple user config layers found"))
          | None => Ok (Some index)
          end
        else Ok user_layer_index in
      let? previous :=
        match name layer with
        | Project current =>
            let? _ :=
              match previous_project_dot_codex_folder with
              | Some previous =>
                  match path_parent previous with
                  | None => Err (invalid_data (L"project layer has no parent directory"))
                  | Some parent =>
                      if bool_decide (previous = current)
                         || negb (existsb (fun ancestor => bool_decide (ancestor = parent))
                                    (ancestors current))
                      then Err (invalid_data (L"project layers are not ordered from root to cwd"))
                      else Ok tt
                  end
              | None => Ok tt
              end in
            Ok (Some current)
        | _ => Ok previous_project_dot_codex_folder
        end in
      verify_loop (S index) user_layer_index previous layers
  end.

Definition verify_layer_ordering (layers : list ConfigLayerEntry) : result io_error (option nat) :=
  if negb (is_sorted_by_precedence (name <$> layers))
  then Err (invalid_data (L"config layers are not in correct precedence order"))
  else verify_loop 0 None None layers.

Definition stack_new (layers : list ConfigLayerEntry) (requirements : ConfigRequirements)
  : result io_error ConfigLayerStack :=
  let? user_layer_index := verify_layer_ordering layers in
  Ok (mkStack layers user_layer_index requirements false None).

Definition with_user_and_project_exec_policy_rules_ignored (s : ConfigLayerStack) (ignore : bool)
  : ConfigLayerStack :=
  mkStack (layers s) (user_layer_index s) (requirements s) ignore (startup_warnings s).
Definition with_startup_warnings (s : ConfigLayerStack) (warnings : list str) : ConfigLayerStack :=
  mkStack (layers s) (user_layer_index s) (requirements s)
    (ignore_user_and_project_exec_policy_rules s) (Some warnings).

Definition get_user_layer (s : ConfigLayerStack) : option ConfigLayerEntry :=
  index ← user_layer_index s; layers s !! index.

(** [Vec::remove] and [Vec::insert] at an index, and the first index with a property. *)
Definition vec_remove {A} (l : list A) (i : nat) : result io_error (list A) :=
  if (i <? length l)%nat then Ok (take i l ++ drop (S i) l) else Panic.
Definition vec_set {A} (l : list A) (i : nat) (x : A) : result io_error (list A) :=
  if (i <? length l)%nat then Ok (<[i := x]> l) else Panic.
Fixpoint position {A} (f : A -> bool) (l : list A) : option nat :=
  match l with
  | [] => None
  | x :: l => if f x then Some 0 else S <$> position f l
  end.

Definition with_user_layer (s : ConfigLayerStack) (user_layer : option ConfigLayerEntry)
  : result io_error ConfigLayerStack :=
  let? found :=
    match user_layer_index s, user_layer with
    | Some index, Some user_layer =>
        let? layers := vec_set (layers s) index user_layer in Ok (layers, Some index)
    | Some index, None => let? layers := vec_remove (layers s) index in Ok (layers, None)
    | None, Some user_layer =>
        match position (fun layer => precedence (name user_layer) <? precedence (name layer))%Z
                (layers s) with
        | Some index => Ok (take index (layers s) ++ user_layer :: drop index (layers s), Some index)
        | None => Ok (layers s ++ [user_layer], Some (length (layers s)))
        end
    | None, None => Ok (layers s, None)
    end in
  let '(layers, user_layer_index) := found in
  Ok (mkStack layers user_layer_index (requirements s)
        (ignore_user_and_project_exec_policy_rules s) (startup_warnings s)).

Definition get_layers (s : ConfigLayerStack) (ordering : ConfigLayerStackOrdering)
  (include_disabled : bool) : list ConfigLayerEntry :=
  let layers := filter (fun layer => include_disabled || negb (is_disabled layer) = true) (layers s) in
  match ordering with
  | HighestPrecedenceFirst => reverse layers
  | LowestPrecedenceFirst => layers
  end.

Definition layers_high_to_low (s : ConfigLayerStack) : list ConfigLayerEntry :=
  get_layers s HighestPrecedenceFirst false.

Definition effective_config (s : ConfigLayerStack) : TomlValue :=
  foldl (fun merged layer => merge_toml_values merged (config layer))
    (TTable ∅) (get_layers s LowestPrecedenceFirst false).

Definition origins (s : ConfigLayerStack) : gmap str ConfigLayerMetadata :=
  foldl (fun origins layer =>
      record_origins (normalized_with_key_aliases (config layer) []) (metadata layer) [] origins)
    ∅ (get_layers s LowestPrecedenceFirst false).

Section versions.
(** [version_for_toml] of fingerprint.rs. *)
Context (version_for_toml : TomlValue -> str).

Definition layer_new (name : ConfigLayerSource) (config : TomlValue) : ConfigLayerEntry :=
  mkLayer name config None (version_for_toml config) None.
Definition new_with_raw_toml (name : ConfigLayerSource) (config : TomlValue) (raw_toml : str) :=
  mkLayer name config (Some raw_toml) (version_for_toml config) None.
Definition new_disabled (name : ConfigLayerSource) (config : TomlValue) (disabled_reason : str) :=
  mkLayer name config None (version_for_toml config) (Some disabled_reason).

Definition with_user_config (s : ConfigLayerStack) (config_toml : AbsolutePathBuf)
  (user_config : TomlValue) : result io_error ConfigLayerStack :=
  with_user_layer s (Some (layer_new (User config_toml) user_config)).
End versions.

Definition with_user_layer_from (s other : ConfigLayerStack) : result io_error ConfigLayerStack :=
  with_user_layer s (get_user_layer other).

(** ** Constrained values (constraint.rs)

    A validator answers with the error it rejects a value with. *)

Section constrained.
Context {T E : Type}.

Record Constrained := mkConstrained {
  value : T;
  validator : T -> result E unit;
  normalizer : option (T -> T) }.

Definition constrained_new (initial_value : T) (validator : T -> result E unit)
  : result E Constrained :=
  let? _ := validator initial_value in
  Ok (mkConstrained initial_value validator None).

Definition normalized (initial_value : T) (normalizer : T -> T) : result E Constrained :=
  let validator := fun _ => Ok tt in
  let normalized := normalizer initial_value in
  let? _ := validator normalized in
  Ok (mkConstrained normalized validator (Some normalizer)).

Definition allow_any (initial_value : T) : Constrained :=
  mkConstrained initial_value (fun _ => Ok tt) None.

Definition allow_only `{EqDecision T} (invalid_value : T -> E) (only_value : T) : Constrained :=
  mkConstrained only_value
    (fun candidate => if bool_decide (candidate = only_value) then Ok tt
                      else Err (invalid_value candidate)) None.

Definition can_set (c : Constrained) (candidate : T) : result E unit := validator c candidate.

Definition add_validator (c : Constrained) (v : T -> result E unit) : Constrained * result E unit :=
  let combined_validator := fun candidate => let? _ := validator c candidate in v candidate in
  match combined_validator (value c) with
  | Ok _ => (mkConstrained (value c) combined_validator (normalizer c), Ok tt)
  | r => (c, r)
  end.

Definition set (c : Constrained) (new_value : T) : Constrained * result E unit :=
  let new_value := match normalizer c with Some f => f new_value | None => new_value end in
  match validator c new_value with
  | Ok _ => (mkConstrained new_value (validator c) (normalizer c), Ok tt)
  | r => (c, r)
  end.
End constrained.
Arguments Constrained T E : clear implicits.

(** ** The order of layers: facts *)

Definition project_of (layer : ConfigLayerEntry) : option AbsolutePathBuf :=
  match name layer with Project folder => Some folder | _ => None end.

(** The folder of a project layer comes after that of another when the parent of
    the one is above the other. *)
Definition follows (previous current : AbsolutePathBuf) : Prop :=
  previous <> current
  /\ exists parent, path_parent previous = Some parent /\ parent ∈ ancestors current.

Fixpoint chain (folders : list AbsolutePathBuf) : Prop :=
  match folders with
  | a :: ((b :: _) as rest) => follows a b /\ chain rest
  | _ => True
  end.

Fixpoint user_indices (n : nat) (layers : list ConfigLayerEntry) : list nat :=
  match layers with
  | [] => []
  | layer :: layers => (if is_user (name layer) then [n] else []) ++ user_indices (S n) layers
  end.

Definition rank (layer : ConfigLayerEntry) : Z := precedence (name layer).
Definition no_user (layers : list ConfigLayerEntry) : Prop :=
  Forall (fun layer => is_user (name layer) = false) layers.

(** Layers in order, with their user layer. *)
Record layers_ok (layers : list ConfigLayerEntry) (user : option nat) : Prop := {
  ok_sorted : StronglySorted Z.le (rank <$> layers);
  ok_projects : chain (omap project_of layers);
  ok_user : user_indices 0 layers = option_list user }.

Definition stack_ok (s : ConfigLayerStack) : Prop := layers_ok (layers s) (user_layer_index s).

Lemma is_sorted_spec ls :
  is_sorted_by_precedence (name <$> ls) = true <-> StronglySorted Z.le (rank <$> ls).
Proof.
  assert (StronglySorted Z.le (rank <$> ls) <-> Sorted Z.le (rank <$> ls)) as ->
    by (split; [apply StronglySorted_Sorted|apply (Sorted_StronglySorted Z.le _)]).
  induction ls as [|a [|b ls] IH]; csimpl in *; [by split; [constructor|]| |].
  - split; [|done]. intros _. repeat constructor.
  - rewrite andb_true_iff, Z.leb_le, IH. split.
    + intros [? ?]. constructor; [done|by constructor].
    + intros H. inversion H as [|?? Hs Hd]; subst. inversion Hd; subst. done.
Qed.

(** The loop checks the chain of folders and collects the user layer. *)
Lemma verify_loop_spec n u prev ls r :
  verify_loop n u prev ls = Ok r <->
  chain (option_list prev ++ omap project_of ls)
  /\ option_list u ++ user_indices n ls = option_list r.
Proof.
  revert n u prev. induction ls as [|layer ls IH]; intros n u prev; cbn [verify_loop].
  { simpl. rewrite !app_nil_r. split.
    - intros [= <-]. by destruct prev.
    - intros [_ H]. by destruct u, r; naive_solver. }
  csimpl. unfold project_of at 1.
  destruct (is_user (name layer)) eqn:Eu.
  { destruct (name layer); try done. destruct u; simpl; [|by rewrite IH].
    split; [done|]. intros [_ H]. by destruct r. }
  destruct (name layer) as [| | |folder| | |] eqn:En; try done; simpl; rewrite ?IH; try done.
  destruct prev as [previous|]; simpl; [|by rewrite IH].
  unfold follows. destruct (path_parent previous) as [parent|]; simpl.
  2: { split; [done|]. intros [[[_ (? & ? & _)] _] _]. done. }
  assert (existsb (fun ancestor => bool_decide (ancestor = parent)) (ancestors folder) = true
    <-> parent ∈ ancestors folder) as Hx.
  { rewrite existsb_exists. setoid_rewrite <- list_elem_of_In. setoid_rewrite bool_decide_eq_true.
    naive_solver. }
  case_bool_decide as Hp; simpl; [split; [done|by intros [[[? _] _] _]]|].
  destruct (existsb _ _); simpl.
  - rewrite IH. simpl. naive_solver.
  - split; [done|]. intros [[[_ (? & [= <-] & Hin)] _] _]. by apply Hx in Hin.
Qed.

Lemma verify_ordering_spec ls user :
  verify_layer_ordering ls = Ok user <-> layers_ok ls user.
Proof.
  unfold verify_layer_ordering. pose proof (is_sorted_spec ls) as Hs.
  destruct (is_sorted_by_precedence _); simpl.
  - rewrite verify_loop_spec. simpl. split; [intros [? ?]; constructor; tauto|].
    by intros [_ ? ?].
  - split; [done|]. intros [H _ _]. by apply Hs in H.
Qed.

(** Where the user layer is. *)
Lemma user_indices_app n a b :
  user_indices n (a ++ b) = user_indices n a ++ user_indices (n + length a) b.
Proof.
  revert n. induction a as [|x a IH]; intros n; simpl; [by rewrite Nat.add_0_r|].
  rewrite IH, <- app_assoc. do 3 f_equal. lia.
Qed.

Lemma user_indices_none n ls : user_indices n ls = [] <-> no_user ls.
Proof.
  unfold no_user. revert n. induction ls as [|x ls IH]; intros n; simpl; [by split; [constructor|]|].
  rewrite Forall_cons. destruct (is_user (name x)); simpl; [naive_solver|]. rewrite IH. naive_solver.
Qed.

Lemma user_indices_some n ls i :
  user_indices n ls = [i] <->
  exists pre l post, ls = pre ++ l :: post /\ i = n + length pre /\ is_user (name l) = true
    /\ no_user pre /\ no_user post.
Proof.
  split.
  - revert n. induction ls as [|x ls IH]; intros n; simpl; [done|].
    destruct (is_user (name x)) eqn:E; simpl.
    + intros [= <- H%user_indices_none]. exists [], x, ls. split_and!; [done|simpl; lia|done|constructor|done].
    + intros (pre & l & post & -> & -> & ? & ? & ?)%IH. exists (x :: pre), l, post.
      split_and!; [done|simpl; lia|done|by constructor|done].
  - intros (pre & l & post & -> & -> & Hl & Hpre & Hpost). rewrite user_indices_app. simpl. rewrite Hl.
    by rewrite (proj2 (user_indices_none _ _) Hpre), (proj2 (user_indices_none _ _) Hpost).
Qed.

Lemma user_rank l : is_user (name l) = true -> rank l = 20%Z /\ project_of l = None.
Proof. unfold rank, project_of. by destruct (name l). Qed.

(** Layers around a user layer. *)
Lemma layers_ok_user pre l post :
  is_user (name l) = true ->
  layers_ok (pre ++ l :: post) (Some (length pre)) <->
  StronglySorted Z.le (rank <$> pre ++ post) /\ Forall (fun x => rank x <= 20)%Z pre
  /\ Forall (fun x => 20 <= rank x)%Z post /\ chain (omap project_of (pre ++ post))
  /\ no_user pre /\ no_user post.
Proof.
  intros Hl. destruct (user_rank l Hl) as [Hr Hp].
  assert (omap project_of (pre ++ l :: post) = omap project_of (pre ++ post)) as Ho
    by (rewrite !omap_app; csimpl; by rewrite Hp).
  assert (StronglySorted Z.le (rank <$> pre ++ l :: post) <->
    StronglySorted Z.le (rank <$> pre ++ post) /\ Forall (fun x => rank x <= 20)%Z pre
    /\ Forall (fun x => 20 <= rank x)%Z post) as Hs.
  { rewrite !fmap_app, fmap_cons, Hr, !StronglySorted_app, !Forall_forall.
    setoid_rewrite elem_of_cons. setoid_rewrite list_elem_of_fmap. split.
    - intros (H1 & H2 & H3). inversion H3 as [|?? H4 H5]; subst. rewrite Forall_fmap, Forall_forall in H5.
      split_and!; [naive_solver..|]. intros x Hx. by apply H5.
    - intros ((H1 & H2 & H3) & H4 & H5). split_and!; [naive_solver|done|]. constructor; [done|].
      rewrite Forall_fmap, Forall_forall. apply H5. }
  split.
  - intros [H1 H2 H3]. rewrite Ho in H2. apply Hs in H1 as (? & ? & ?). simpl in H3.
    apply user_indices_some in H3 as (pre' & l' & post' & Heq & Hlen & _ & ? & ?). simpl in Hlen.
    apply app_inj_1 in Heq as [-> [= -> ->]]; [|done]. done.
  - intros (? & ? & ? & ? & ? & ?). constructor; [by apply Hs|by rewrite Ho|].
    apply user_indices_some. exists pre, l, post. by split_and!.
Qed.

Lemma position_spec {A} (f : A -> bool) l :
  match position f l with
  | Some i => exists pre x post, l = pre ++ x :: post /\ i = length pre
      /\ Forall (fun y => f y = false) pre /\ f x = true
  | None => Forall (fun y => f y = false) l
  end.
Proof.
  induction l as [|x l IH]; simpl; [constructor|]. destruct (f x) eqn:E.
  - exists [], x, l. by split_and!.
  - destruct (position f l) as [i|]; simpl; [|by constructor].
    destruct IH as (pre & y & post & -> & -> & ? & ?). exists (x :: pre), y, post.
    split_and!; [done|done|by constructor|done].
Qed.

Lemma layers_ok_none ls :
  layers_ok ls None <->
  StronglySorted Z.le (rank <$> ls) /\ chain (omap project_of ls) /\ no_user ls.
Proof. split; [intros [? ? ?%user_indices_none]; done|]. intros (? & ? & ?). constructor; [done..|].
  by apply user_indices_none. Qed.

(** The user layer of a well-formed stack, with the layers around it. *)
Lemma stack_user s i :
  stack_ok s -> user_layer_index s = Some i ->
  exists pre l post, layers s = pre ++ l :: post /\ i = length pre /\ is_user (name l) = true
    /\ layers_ok (pre ++ l :: post) (Some (length pre)).
Proof.
  intros Hok Hi. unfold stack_ok in Hok. rewrite Hi in Hok. pose proof (ok_user _ _ Hok) as Hu. simpl in Hu.
  apply user_indices_some in Hu as (pre & l & post & Heq & -> & Hl & _). rewrite Heq in Hok.
  by exists pre, l, post.
Qed.

(** The layers other than the user's. *)
Definition others (ls : list ConfigLayerEntry) : list ConfigLayerEntry :=
  filter (fun layer => is_user (name layer) = false) ls.

Lemma others_app a b : others (a ++ b) = others a ++ others b.
Proof. apply filter_app. Qed.

Lemma others_user l ls : is_user (name l) = true -> others (l :: ls) = others ls.
Proof. intros H. unfold others. by rewrite filter_cons, decide_False by (by rewrite H). Qed.

(** Inserting the user layer where the others leave off. *)
Lemma insert_user pre l post :
  is_user (name l) = true -> layers_ok (pre ++ post) None ->
  Forall (fun x => rank x <= 20)%Z pre -> Forall (fun x => 20 <= rank x)%Z post ->
  layers_ok (pre ++ l :: post) (Some (length pre)).
Proof.
  intros Hl (? & ? & [? ?]%Forall_app)%layers_ok_none ? ?. apply layers_ok_user; [done|].
  by split_and!.
Qed.

Lemma sorted_above pre x post :
  StronglySorted Z.le (rank <$> pre ++ x :: post) -> (20 < rank x)%Z ->
  Forall (fun y => 20 <= rank y)%Z (x :: post).
Proof.
  rewrite fmap_app, StronglySorted_app. intros (_ & _ & H) Hx. csimpl in H.
  inversion H as [|?? _ F]; subst. rewrite Forall_fmap in F. constructor; [lia|].
  eapply Forall_impl; [exact F|]. simpl. intros y Hy. lia.
Qed.

Lemma with_user_layer_spec s user :
  stack_ok s -> (forall l, user = Some l -> is_user (name l) = true) ->
  exists s', with_user_layer s user = Ok s' /\ stack_ok s' /\ get_user_layer s' = user
    /\ others (layers s') = others (layers s).
Proof.
  intros Hok Hu. unfold with_user_layer. destruct (user_layer_index s) as [i|] eqn:Ei.
  - destruct (stack_user s i Hok Ei) as (pre & l & post & Heq & -> & Hl & Hok').
    assert (length pre <? length (layers s) = true) as Hlt.
    { apply Nat.ltb_lt. rewrite Heq, length_app. simpl. lia. }
    pose proof (proj1 (layers_ok_user pre l post Hl) Hok') as (Hs & Hpre & Hpost & Hc & Hn1 & Hn2).
    destruct user as [u|]; unfold vec_set, vec_remove; rewrite Hlt, Heq; simpl.
    + specialize (Hu u eq_refl). rewrite insert_app_r_alt by done.
      rewrite Nat.sub_diag. simpl. eexists. split; [reflexivity|]. split_and!; simpl.
      * by apply layers_ok_user.
      * unfold get_user_layer. simpl. by rewrite list_lookup_middle.
      * by rewrite !others_app, !others_user by done.
    + rewrite take_app_length, drop_app_ge by lia. replace (S (length pre) - length pre) with 1 by lia.
      simpl. rewrite drop_0. eexists. split; [reflexivity|]. split_and!; simpl.
      * apply layers_ok_none. split_and!; [done|done|by apply Forall_app].
      * done.
      * by rewrite !others_app, others_user.
  - unfold stack_ok in Hok. rewrite Ei in Hok. destruct user as [u|]; [|by eexists; split_and!].
    specialize (Hu u eq_refl). destruct (user_rank u Hu) as [Hr _]. fold (rank u).
    pose proof (position_spec (fun layer => (rank u <? precedence (name layer))%Z) (layers s)) as Hpos.
    destruct (position _ _) as [i|].
    + destruct Hpos as (pre & x & post & Heq & -> & Hle & Hx). rewrite Heq in *. simpl.
      rewrite take_app_length, drop_app_length. eexists. split; [reflexivity|]. split_and!; simpl.
      * apply insert_user; [done..| |].
        { eapply Forall_impl; [exact Hle|]. simpl. intros y Hy. unfold rank in *. lia. }
        apply Z.ltb_lt in Hx. eapply sorted_above; [apply (ok_sorted _ _ Hok)|]. unfold rank in *. lia.
      * unfold get_user_layer. simpl. by rewrite list_lookup_middle.
      * by rewrite !others_app, others_user by done.
    + simpl. eexists. split; [reflexivity|]. split_and!; simpl.
      * apply insert_user; [done|by rewrite app_nil_r| |constructor].
        eapply Forall_impl; [exact Hpos|]. simpl. intros y Hy. unfold rank in *. lia.
      * unfold get_user_layer. simpl. by rewrite list_lookup_middle.
      * rewrite others_app, others_user by done. by rewrite app_nil_r.
Qed.

(** ** Theorems *)

(** C32: A stack of layers is always in order.  One is built from a list exactly
    when the list is sorted by precedence, has at most one user layer and its
    project folders descend; and replacing, removing or inserting the user layer,
    which never fails, keeps the order, keeps the other layers as they are, and
    leaves the new user layer, and no other, where the stack looks for it. *)
Theorem config_stack_in_order :
  (forall ls reqs, (exists user, layers_ok ls user) <-> exists s, stack_new ls reqs = Ok s)
  /\ (forall ls reqs s, stack_new ls reqs = Ok s -> layers s = ls /\ stack_ok s)
  /\ (forall s user, stack_ok s -> (forall l, user = Some l -> is_user (name l) = true) ->
       exists s', with_user_layer s user = Ok s' /\ stack_ok s' /\ get_user_layer s' = user
         /\ others (layers s') = others (layers s)).
Proof.
  split_and!; [| |apply with_user_layer_spec].
  - intros ls reqs. unfold stack_new. split.
    + intros [user H%verify_ordering_spec]. rewrite H. by eexists.
    + intros [s H]. run_ok H. exists a. by apply verify_ordering_spec.
  - unfold stack_new. intros ls reqs s H. run_ok H. injection H as <-. split; [done|].
    by apply verify_ordering_spec.
Qed.

(** The effective configuration at any path is what the last enabled layer
    that speaks of the path says of it, under its canonical name: a plain value
    there, or none when it has a table there or a plain value above; a layer
    that has the tables above the path and not the next key is silent and leaves
    the path to the layers below.  Disabled layers do not count.  And the origin
    recorded under a dotted name is the last enabled layer that has a value of
    that name. *)
Theorem effective_config_last_layer (s : ConfigLayerStack) (path : list str) (field : str) :
  let enabled := filter (fun l => is_disabled l = false) (layers s) in
  let canonical l := normalized_with_key_aliases (config l) [] in
  leaf (effective_config s) path
    = default None (last (omap (fun l => says (canonical l) path) enabled))
  /\ origins s !! field
    = metadata <$> last (filter (fun l => field ∈ names (canonical l) []) enabled).
Proof.
  intros enabled canonical.
  assert (get_layers s LowestPrecedenceFirst false = enabled) as Hen.
  { unfold get_layers, enabled. apply list_filter_iff. intros l. simpl. by destruct (is_disabled l). }
  unfold effective_config, origins. rewrite Hen. split.
  - destruct (merge_all_leaf (config <$> enabled) path) as [_ Hl].
    unfold merge_all in Hl. rewrite foldl_fmap in Hl. unfold default_empty_table in Hl.
    rewrite Hl. f_equal. f_equal. clear. induction enabled as [|l ls IH]; csimpl; [done|].
    unfold canonical. case_match; by rewrite IH.
  - clear Hen. induction enabled as [|l ls IH] using rev_ind; [done|].
    rewrite foldl_app. simpl. rewrite lookup_record_origins, IH, filter_app. simpl.
    unfold canonical. rewrite filter_cons, filter_nil. case_decide; [by rewrite last_snoc|].
    by rewrite app_nil_r.
Qed.

(** Command-line overrides, first to last: each puts its value at its dotted path,
    makes a table of everything above, and leaves every other path alone. *)
Theorem cli_overrides_in_order (overrides : list (str * TomlValue)) (path : str) (value : TomlValue)
  (p : list str) :
  leaf (build_cli_overrides_layer (overrides ++ [(path, value)])) p
  = overridden (split_char 46 path) value (build_cli_overrides_layer overrides) p.
Proof.
  unfold build_cli_overrides_layer at 1. rewrite foldl_app. simpl. apply override_leaf.
  destruct path; [done|]. simpl. by repeat case_match.
Qed.

(** A constrained value satisfies its validator whatever is done to it; what is
    rejected changes nothing. *)
Definition satisfied {T E} (c : Constrained T E) : Prop := validator c (value c) = Ok tt.

Theorem constrained_stays_satisfied {T E} (c : Constrained T E) (x : T) (v : T -> result E unit) :
  (forall c', constrained_new x v = Ok c' -> satisfied c') /\
  (forall f c', normalized (E:=E) x f = Ok c' -> satisfied c') /\
  satisfied (allow_any (E:=E) x) /\
  (satisfied c ->
   satisfied (set c x).1 /\ satisfied (add_validator c v).1
   /\ ((set c x).2 = Ok tt \/ (set c x).1 = c)
   /\ ((add_validator c v).2 = Ok tt \/ (add_validator c v).1 = c)
   /\ (forall y, validator (add_validator c v).1 y = Ok tt -> validator c y = Ok tt)).
Proof.
  unfold satisfied. split_and!; [|by intros f c' [= <-]|done|].
  - unfold constrained_new. intros c'. destruct (v x) as [[]| | |] eqn:E'; [|done..]. by intros [= <-].
  - intros Hc. unfold set, add_validator. split_and!.
    + set (y := match normalizer c with Some f => f x | None => x end).
      destruct (validator c y) as [[]| | |] eqn:E'; simpl; done.
    + rewrite Hc. simpl. destruct (v (value c)) as [[]| | |] eqn:E'; simpl; try done. by rewrite Hc.
    + destruct (validator c (match normalizer c with Some f => f x | None => x end)); simpl; auto.
    + rewrite Hc. simpl. destruct (v (value c)); simpl; auto.
    + intros y. rewrite Hc. simpl. destruct (v (value c)); simpl; try done.
      by destruct (validator c y) as [[]| | |].
Qed.
