(* ===== verification/ExecPolicyManager.v ===== *)
(** * The policy manager (core/src/exec_policy.rs)

    Loading the rules of the configuration layers, falling back when a file does
    not parse, the messages for such errors, and amending the policy in memory
    together with its file.  The directory listings and file texts are arguments;
    the file that is amended is behind the class of ExecPolicyAmend.  The
    semaphore makes the updates one after the other. *)

From S2P Require Import Prelude RustStr AbsolutePath PatchApply ExecPolicy ExecPolicyParser ExecPolicyAmend SandboxPaths ConfigToml ConfigLayers ExecApproval.

Definition RULES_DIR_NAME : str := L"rules".
Definition RULE_EXTENSION : str := L"rules".
Definition DEFAULT_POLICY_FILE : str := L"default.rules".

Inductive ExecPolicyError :=
| ReadDir (dir : list Component) (source : io_error)
| ReadFile (path : list Component) (source : io_error)
| ParsePolicy (path : str) (source : Error).

Inductive ExecPolicyUpdateError :=
| AppendRule (path : list Component) (source : AmendError)
| JoinBlockingTask
| AddRule (source : Error).

(** [Path::extension]: what follows the last dot of the file name, unless that dot
    starts it. *)
Definition extension (path : list Component) : option str :=
  file ← file_name path;
  '(stem, ext) ← rsplit_once 46 file;
  if is_nil stem then None else Some ext.

(** What reading a directory gives next: an error, or an entry with its type. *)
Inductive DirItem :=
| NextFailed (e : io_error)
| Entry (path : list Component) (is_file : io_error + bool).

Fixpoint collect_loop (dir : list Component) (items : list DirItem)
  : result ExecPolicyError (list (list Component)) :=
  match items with
  | [] => Ok []
  | NextFailed e :: _ => Err (ReadDir dir e)
  | Entry path file_type :: items =>
      match file_type with
      | inl e => Err (ReadDir dir e)
      | inr is_file =>
          let? rest := collect_loop dir items in
          Ok (if bool_decide (extension path = Some RULE_EXTENSION) && is_file
              then path :: rest else rest)
      end
  end.

Definition sort_paths (paths : list (list Component)) : list (list Component) :=
  merge_sort (compare_le path_compare) paths.

(** ** Error messages *)

(** [str::rsplit_once] on a longer pattern: at its last occurrence. *)
Fixpoint rsplit_once_str (pat s : str) : option (str * str) :=
  match s with
  | [] => if is_nil pat then Some ([], []) else None
  | c :: rest =>
      match rsplit_once_str pat rest with
      | Some (before, after) => Some (c :: before, after)
      | None => (fun after => ([], after)) <$> strip_prefix pat s
      end
  end.

(** [str::parse::<usize>]: an optional plus sign and digits, at most 64 bits. *)
Definition digits_value (s : str) : N := foldl (fun n c => 10 * n + (c - 48))%N 0%N s.
Definition parse_usize (s : str) : option N :=
  let digits := default s (strip_prefix (L"+") s) in
  if is_nil digits || negb (forallb is_ascii_digit digits) then None
  else if (digits_value digits <? 2 ^ 64)%N then Some (digits_value digits) else None.

(** The first three pieces of [rsplitn(3, ':')], the last one whole. *)
Definition rsplit3 (s : str) : option (str * str * str) :=
  '(rest, column) ← rsplit_once COLON s;
  '(path, line) ← rsplit_once COLON rest;
  Some (path, line, column).

Definition parse_starlark_line_from_message (message : str) : option (str * N) :=
  first_line ← trim <$> head (lines message);
  '(path_and_position, _) ← rsplit_once_str (L": starlark error:") first_line;
  '(path, line, column) ← rsplit3 path_and_position;
  _ ← parse_usize column;
  line ← parse_usize line;
  if (line =? 0)%N then None else Some (path, line).

Definition exec_policy_message_for_display (message : str) : str :=
  match find (fun line => starts_with (L"error: ") (trim_start line)) (lines message) with
  | Some line => line
  | None =>
      match (first_line ← head (lines message); rsplit_once_str (L": starlark error: ") first_line) with
      | Some (_, detail) => trim detail
      | None => trim (default [] (head (lines message)))
      end
  end.

Section messages.
(** [Display] of the errors of a policy and of files. *)
Context (error_to_string : Error -> str).
Context (io_to_string : io_error -> str).

Definition format_exec_policy_error_with_source (error : ExecPolicyError) : str :=
  match error with
  | ParsePolicy path source =>
      let rendered_source := error_to_string source in
      let structured_location :=
        (fun location => (loc_path location,
           N.of_nat (line (range_start (loc_range location))))) <$> error_location source in
      let parsed_location := parse_starlark_line_from_message rendered_source in
      let location :=
        match structured_location, parsed_location with
        | Some (structured_path, structured_line), Some (parsed_path, parsed_line) =>
            if (structured_line =? 1)%N && (1 <? parsed_line)%N
            then Some (parsed_path, parsed_line) else Some (structured_path, structured_line)
        | Some structured, None => Some structured
        | None, parsed => parsed
        end in
      let message := exec_policy_message_for_display rendered_source in
      match location with
      | Some (path, line) =>
          let line := show_nat (N.to_nat line) in
          path ++ L":" ++ line ++ L": " ++ message
            ++ L" (problem is on or around line " ++ line ++ L")"
      | None => path ++ L": " ++ message
      end
  | ReadDir dir source =>
      L"failed to read rules files from " ++ display dir ++ L": " ++ io_to_string source
  | ReadFile path source =>
      L"failed to read rules file " ++ display path ++ L": " ++ io_to_string source
  end.
End messages.

(** ** Loading *)

Section load.
Context (env : Env) (cwd_error : str).
Context (shlex_split : str -> option (list str)) (shlex_join : list str -> option str).
Context (debug_rule : PrefixRule -> str) (debug_match : RuleMatch -> str).
Context (wrap : Error -> StarlarkError).
Context (starlark : str -> str -> StarlarkError + (list Call * option StarlarkError)).
(** [fs::read_dir] with the items it gives, and [fs::read_to_string]. *)
Context (read_dir : list Component -> io_error + list DirItem).
Context (read_file : list Component -> io_error + str).

Definition parse_rules (b : PolicyBuilder) (identifier contents : str) :=
  ExecPolicyParser.parse (home_dir env) (current_dir env) cwd_error shlex_split shlex_join
    debug_rule debug_match wrap starlark b identifier contents.

Definition collect_policy_files (dir : list Component)
  : result ExecPolicyError (list (list Component)) :=
  match read_dir dir with
  | inl err => if bool_decide (io_kind err = NotFound) then Ok [] else Err (ReadDir dir err)
  | inr items => let? policy_paths := collect_loop dir items in Ok (sort_paths policy_paths)
  end.

Definition child_path (dir : list Component) (file : str) : list Component := dir ++ [Normal file].

Fixpoint policy_paths_loop (config_stack : ConfigLayerStack) (layers : list ConfigLayerEntry)
  (policy_paths : list (list Component)) : result ExecPolicyError (list (list Component)) :=
  match layers with
  | [] => Ok policy_paths
  | layer :: layers =>
      if ignore_user_and_project_exec_policy_rules config_stack && is_user_or_project (name layer)
      then policy_paths_loop config_stack layers policy_paths
      else
        match config_folder layer with
        | Some config_folder =>
            let? layer_policy_paths := collect_policy_files (child_path config_folder RULES_DIR_NAME) in
            policy_paths_loop config_stack layers (policy_paths ++ layer_policy_paths)
        | None => policy_paths_loop config_stack layers policy_paths
        end
  end.

Fixpoint parse_loop (b : PolicyBuilder) (policy_paths : list (list Component))
  : result ExecPolicyError PolicyBuilder :=
  match policy_paths with
  | [] => Ok b
  | policy_path :: policy_paths =>
      match read_file policy_path with
      | inl source => Err (ReadFile policy_path source)
      | inr contents =>
          let identifier := display policy_path in
          let '(b, r) := parse_rules b identifier contents in
          let? _ := map_err (ParsePolicy identifier) r in
          parse_loop b policy_paths
      end
  end.

Definition load_exec_policy (config_stack : ConfigLayerStack) : result ExecPolicyError Policy :=
  let? policy_paths :=
    policy_paths_loop config_stack (get_layers config_stack LowestPrecedenceFirst false) [] in
  let? parser := parse_loop builder_new policy_paths in
  let policy := build parser in
  match requirements_exec_policy (requirements config_stack) with
  | None => Ok policy
  | Some requirements_policy => Ok (merge_overlay policy requirements_policy)
  end.

Definition load_exec_policy_with_warning (config_stack : ConfigLayerStack)
  : result ExecPolicyError (Policy * option ExecPolicyError) :=
  match load_exec_policy config_stack with
  | Ok policy => Ok (policy, None)
  | Err (ParsePolicy path source) => Ok (policy_empty, Some (ParsePolicy path source))
  | Err err => Err err
  | Panic => Panic
  | OutOfFuel => OutOfFuel
  end.

(** [ExecPolicyManager::load] and [check_execpolicy_for_warnings]. *)
Definition manager_load (config_stack : ConfigLayerStack) : result ExecPolicyError Policy :=
  let? loaded := load_exec_policy_with_warning config_stack in
  Ok loaded.1.
Definition check_execpolicy_for_warnings (config_stack : ConfigLayerStack)
  : result ExecPolicyError (option ExecPolicyError) :=
  let? loaded := load_exec_policy_with_warning config_stack in
  Ok loaded.2.
End load.

Definition exec_policy_config_folders (config_stack : ConfigLayerStack) : list AbsolutePathBuf :=
  omap config_folder (get_layers config_stack LowestPrecedenceFirst false).

(** ** Updates *)

Section updates.
Context (env : Env).
Context {S : Type} `{PolicyStore S}.
Context (to_json : str -> str + str) (display_other : Error -> str).

(** The policy in memory and the files. *)
Record Manager := mkManager { policy : Policy; store : S }.

Definition default_policy_path (codex_home : list Component) : list Component :=
  child_path (child_path codex_home RULES_DIR_NAME) DEFAULT_POLICY_FILE.

(** A blocking task: what it panics with is an error of joining it. *)
Definition blocking (policy_path : list Component) (m : Manager)
  (task : S -> S * result AmendError unit) : Manager * result ExecPolicyUpdateError unit :=
  let '(s, r) := task (store m) in
  (mkManager (policy m) s,
   match r with
   | Ok _ => Ok tt
   | Err source => Err (AppendRule policy_path source)
   | Panic => Err JoinBlockingTask
   | OutOfFuel => OutOfFuel
   end).

(** Storing an updated policy, or the error of the update. *)
Definition store_updated (m : Manager) (updated_policy : result Error Policy)
  : Manager * result ExecPolicyUpdateError unit :=
  match updated_policy with
  | Ok p => (mkManager p (store m), Ok tt)
  | Err source => (m, Err (AddRule source))
  | Panic => (m, Panic)
  | OutOfFuel => (m, OutOfFuel)
  end.

Definition already_allowed (current_policy : Policy) (command : list str) : bool :=
  match check_multiple_with_options (home_dir env) (current_dir env) current_policy [command]
          (fun _ => Forbidden) resolving with
  | Ok existing_evaluation =>
      bool_decide (decision existing_evaluation = Allow)
      && existsb (is_rule_with Allow) (matched_rules existing_evaluation)
  | _ => false
  end.

Definition append_amendment_and_update (codex_home : list Component)
  (amendment : ExecPolicyAmendment) (m : Manager) : Manager * result ExecPolicyUpdateError unit :=
  let policy_path := default_policy_path codex_home in
  let prefix := amendment_command amendment in
  match blocking policy_path m (blocking_append_allow_prefix_rule to_json policy_path prefix) with
  | (m, Ok _) =>
      if already_allowed (policy m) prefix then (m, Ok tt)
      else store_updated m (add_prefix_rule (policy m) prefix Allow)
  | (m, r) => (m, r)
  end.

Definition append_network_rule_and_update (codex_home : list Component) (host : str)
  (protocol : NetworkRuleProtocol) (decision : Decision) (justification : option str) (m : Manager)
  : Manager * result ExecPolicyUpdateError unit :=
  let policy_path := default_policy_path codex_home in
  match blocking policy_path m
          (blocking_append_network_rule to_json display_other policy_path host protocol decision
             justification) with
  | (m, Ok _) => store_updated m (add_network_rule (policy m) host protocol decision justification)
  | (m, r) => (m, r)
  end.
End updates.
Arguments Manager S : clear implicits.
