(* ===== verification/ExecPolicyUpdates.v ===== *)
(** * What loading and amending guarantee

    Which files are read and in which order, what becomes of the rules that are
    imposed from outside, and what an accepted amendment changes. *)

From S2P Require Import Prelude RustStr AbsolutePath PatchApply ExecPolicy ExecPolicyParser ExecPolicyAmend SandboxPaths PermissionSafety ConfigToml ConfigLayers ExecApproval ExecPolicyManager.

(** ** Amendments *)

Section amendments.
Context (env : Env).
Local Abbreviation home := (home_dir env).
Local Abbreviation cwd := (current_dir env).

(** A pattern that matches a command matches every longer one. *)
Lemma pattern_matches_app pat cmd args : pattern_matches pat cmd -> pattern_matches pat (cmd ++ args).
Proof.
  intros (pre & rest & -> & F). exists pre, (rest ++ args). by rewrite <- app_assoc.
Qed.

Lemma exact_or_none p cmd :
  policy_wf p -> (exists r, exact_rule p cmd r) \/ ~ exists r, exact_rule p cmd r.
Proof.
  intros Hwf. pose proof (no_exact_rule p cmd Hwf) as Hno.
  pose proof (fun d => exact_decisions p cmd d Hwf) as Hd.
  destruct (default [] (match_exact_rules p cmd)) as [|m ms]; [by right; apply Hno|left].
  destruct (proj1 (Hd (match_decision m))) as (r & ? & _); [exists m; split; [by left|done]|eauto].
Qed.

(** When a rule is consulted on a command, one is consulted on every longer one. *)
Lemma consulted_longer p cmd args r :
  policy_wf p -> cmd <> [] -> consulted home cwd p resolving cmd r ->
  exists r', consulted home cwd p resolving (cmd ++ args) r'.
Proof.
  intros Hwf Hne [[Hr Hm]|(_ & Hno & w & rest & program & base & -> & Hp & Hb & Hpaths & Hr & Hm)].
  - exists r. left. split; [done|]. by apply pattern_matches_app.
  - destruct (exact_or_none p ((w :: rest) ++ args) Hwf) as [[r' ?]|Hno']; [by exists r'; left|].
    exists r. right. split_and!; [done|done|]. exists w, (rest ++ args), program, base.
    split_and!; [done..|]. by apply (pattern_matches_app _ (base :: rest)).
Qed.

Lemma already_allowed_consulted p cmd :
  policy_wf p -> already_allowed env p cmd = true ->
  exists r, consulted home cwd p resolving cmd r.
Proof.
  intros Hwf. unfold already_allowed.
  destruct (check_multiple_spec home cwd p [cmd] (fun _ => Forbidden) resolving Hwf)
    as (ev & -> & _ & (c & ->%list_elem_of_singleton & Hv) & _); [done|].
  intros [Ha%bool_decide_eq_true _]%andb_true_iff. rewrite Ha in Hv.
  destruct Hv as [(r & ? & _)|[_ [=]]]. eauto.
Qed.

(** Neither the command nor the base name it may be matched by starts with a prefix. *)
Definition unrelated (prefix cmd : list str) : Prop :=
  (forall args, cmd <> prefix ++ args)
  /\ forall w rest program base args, cmd = w :: rest -> from_absolute_path home cwd w = Some program ->
       file_name program = Some base -> base :: rest <> prefix ++ args.

Lemma add_prefix_rule_frame p p' prefix d cmd r :
  prefix <> [] -> add_prefix_rule p prefix d = Ok p' -> unrelated prefix cmd ->
  consulted home cwd p' resolving cmd r <-> consulted home cwd p resolving cmd r.
Proof.
  intros Hne Hadd [Hex Hhost].
  pose proof (fun r => add_prefix_rule_policy_rule p prefix d p' r Hadd) as Hr.
  assert (host_executables_by_name p' = host_executables_by_name p) as Hh
    by (destruct prefix; [done|]; by injection Hadd as <-).
  assert (forall r, exact_rule p' cmd r <-> exact_rule p cmd r) as He.
  { intros r'. unfold exact_rule. rewrite Hr. split; [|tauto]. intros [[?| ->] Hm]; [done|].
    apply prefix_rule_of_matches in Hm as [args ?]; [|done]. by destruct (Hex args). }
  assert (host_rule home cwd p' cmd r <-> host_rule home cwd p cmd r) as Hho.
  { unfold host_rule. rewrite Hh. setoid_rewrite Hr. split; [|naive_solver].
    intros (w & rest & program & base & Hc & Hp & Hb & Hpaths & [?| ->] & Hm).
    - exists w, rest, program, base. by split_and!.
    - apply prefix_rule_of_matches in Hm as [args Ha]; [|done].
      by destruct (Hhost w rest program base args Hc Hp Hb). }
  unfold consulted. setoid_rewrite He. by rewrite Hho.
Qed.

(** What accepting a prefix does to a policy. *)
Record accepted (prefix : list str) (p p' : Policy) : Prop := {
  acc_wf : policy_wf p';
  acc_kept : forall r, policy_rule p r -> policy_rule p' r;
  acc_network : network_rules p' = network_rules p
                /\ host_executables_by_name p' = host_executables_by_name p;
  acc_decided : forall args, exists r, consulted home cwd p' resolving (prefix ++ args) r;
  acc_verdicts : forall args fb d, verdict home cwd p' resolving fb (prefix ++ args) d ->
    d = Allow \/ exists r, consulted home cwd p resolving (prefix ++ args) r /\ rule_decision r = d;
  acc_frame : forall cmd r, unrelated prefix cmd ->
    consulted home cwd p' resolving cmd r <-> consulted home cwd p resolving cmd r }.

Lemma already_allowed_accepted p prefix :
  policy_wf p -> prefix <> [] -> already_allowed env p prefix = true -> accepted prefix p p.
Proof.
  intros Hwf Hne [r Hr]%already_allowed_consulted; [|done].
  assert (forall args, exists r', consulted home cwd p resolving (prefix ++ args) r') as Hall
    by (intros args; by apply (consulted_longer p prefix args r)).
  constructor; [done..| |done]. intros args fb d [?|[Hno _]]; [by right|]. destruct Hno. apply Hall.
Qed.

Lemma add_prefix_rule_accepted p p' prefix :
  policy_wf p -> add_prefix_rule p prefix Allow = Ok p' -> accepted prefix p p'.
Proof.
  intros Hwf Hadd. assert (prefix <> []) as Hne by (by destruct prefix).
  pose proof (fun r => add_prefix_rule_policy_rule p prefix Allow p' r Hadd) as Hr.
  assert (forall args, exact_rule p' (prefix ++ args) (prefix_rule_of prefix Allow)) as Hex.
  { intros args. split; [by apply Hr; right|]. apply prefix_rule_of_matches; eauto. }
  constructor.
  - by apply (add_prefix_rule_wf p prefix Allow).
  - intros r ?. apply Hr. by left.
  - destruct prefix; [done|]. by injection Hadd as <-.
  - intros args. eexists. left. apply Hex.
  - intros args fb d [(r & [[Hp Hm]|(_ & Hno & _)] & <-)|[Hno _]].
    + apply Hr in Hp as [?| ->]; [|by left]. right. exists r. split; [|done]. by left.
    + destruct Hno. eauto.
    + destruct Hno. eexists. left. apply Hex.
  - intros cmd r. by apply add_prefix_rule_frame with (d := Allow).
Qed.
End amendments.

(** ** Theorems: amendments *)

Section updates.
Context (env : Env).
Context {S : Type} `{PolicyStoreLaws S}.
Context (to_json : str -> str + str).
Context (to_json_one_line : forall s t, to_json s = inl t -> LF ∉ t).

(** Accepting an amendment takes effect in memory and on disk, and only there.
    When the update succeeds, the file has the rule as one of its lines; in the
    policy every command that starts with the prefix is decided by rules, never
    by the fallback, and no more strictly than by the rules that were there; no
    rule is lost; and commands that do not start with the prefix, themselves or
    by their base name, are decided by the same rules as before.  When it fails
    the policy is as it was. *)
Theorem amendment_takes_effect (codex_home : list Component) (a : ExecPolicyAmendment)
  (m m' : Manager S) (r : result ExecPolicyUpdateError unit) :
  let path := default_policy_path codex_home in
  let prefix := amendment_command a in
  policy_wf (policy m) -> ends_with [CR] (text (locked_state path (store m)) path) = false ->
  append_amendment_and_update env to_json codex_home a m = (m', r) ->
  match r with
  | Ok _ => accepted env prefix (policy m) (policy m')
      /\ exists line, prefix_rule_line to_json prefix = Ok line /\ line ∈ lines (text (store m') path)
  | _ => policy m' = policy m
  end.
Proof.
  intros path prefix Hwf Hcr. unfold append_amendment_and_update, blocking.
  unfold blocking_append_allow_prefix_rule, append_line. fold path prefix.
  destruct (prefix_rule_line to_json prefix) as [line|e| |] eqn:El; [|by intros [= <- <-]..].
  destruct (append_rule_line path line (store m)) as [s [[]|e| |]] eqn:Ea; [|by intros [= <- <-]..].
  assert (prefix <> []) as Hne by (by intros Hnil; rewrite Hnil in El).
  assert (line ∈ lines (text s path)) as Hline.
  { apply append_rule_line_text in Ea. rewrite Ea. apply amended_has_line; [|done].
    by apply (prefix_rule_line_ok to_json to_json_one_line prefix). }
  cbn [policy store]. destruct (already_allowed env (policy m) prefix) eqn:Eal.
  - intros [= <- <-]. split; [|by exists line]. by apply already_allowed_accepted.
  - unfold store_updated. cbn [policy store].
    destruct (add_prefix_rule (policy m) prefix Allow) as [p'|e| |] eqn:Eadd;
      intros [= <- <-]; [|done..].
    split; [|by exists line]. by apply add_prefix_rule_accepted.
Qed.
End updates.

Lemma amendment_takes_effect_witness :
  let m := mkManager policy_empty (fun _ => L"x = 1") : Manager MemPolicy.t in
  exists m', append_amendment_and_update plain_env plain_json (path_of [L"home"])
      (mkAmendment [L"cargo"; L"test"]) m = (m', Ok tt)
    /\ accepted plain_env [L"cargo"; L"test"] policy_empty (policy m').
Proof.
  intros m.
  assert (exists m', append_amendment_and_update plain_env plain_json (path_of [L"home"])
    (mkAmendment [L"cargo"; L"test"]) m = (m', Ok tt)) as [m' Hm]
    by (eexists; vm_compute; reflexivity).
  exists m'. split; [done|].
  apply (amendment_takes_effect plain_env plain_json plain_json_one_line (path_of [L"home"])
    (mkAmendment [L"cargo"; L"test"]) m m' (Ok tt)); [apply policy_empty_wf|vm_compute; reflexivity|done].
Defined.

(** ** Loading *)

Lemma sort_paths_spec paths :
  StronglySorted (compare_le path_compare) (sort_paths paths) /\ sort_paths paths ≡ₚ paths.
Proof.
  split; [|apply merge_sort_Permutation]. unfold sort_paths.
  apply @StronglySorted_merge_sort; [apply compare_le_trans|apply compare_le_total]; apply _.
Qed.

Lemma collect_loop_spec dir items paths path :
  collect_loop dir items = Ok paths ->
  path ∈ paths <-> Entry path (inr true) ∈ items /\ extension path = Some RULE_EXTENSION.
Proof.
  revert paths. induction items as [|[e|q [e|file]] items IH]; intros paths; simpl; [|done|done|].
  { intros [= <-]. split; [intros ?%not_elem_of_nil; done|]. by intros [?%not_elem_of_nil _]. }
  intros Hc. run_ok Hc. injection Hc as <-. specialize (IH _ eq_refl). rewrite elem_of_cons.
  destruct (bool_decide (extension q = Some RULE_EXTENSION)) eqn:E; simpl;
    [apply bool_decide_eq_true in E|apply bool_decide_eq_false in E].
  - destruct file; [rewrite elem_of_cons|]; rewrite IH; naive_solver.
  - rewrite IH. naive_solver.
Qed.

Section load.
Context (env : Env) (cwd_error : str).
Context (shlex_split : str -> option (list str)) (shlex_join : list str -> option str).
Context (debug_rule : PrefixRule -> str) (debug_match : RuleMatch -> str).
Context (wrap : Error -> StarlarkError).
Context (starlark : str -> str -> StarlarkError + (list Call * option StarlarkError)).
Context (read_dir : list Component -> io_error + list DirItem).
Context (read_file : list Component -> io_error + str).

Local Abbreviation parse_from := (parse_loop env cwd_error shlex_split shlex_join debug_rule
  debug_match wrap starlark read_file).
Local Abbreviation load := (load_exec_policy env cwd_error shlex_split shlex_join debug_rule
  debug_match wrap starlark read_dir read_file).

(** The layers whose rules count. *)
Definition rules_layers (stack : ConfigLayerStack) : list ConfigLayerEntry :=
  filter (fun l => is_disabled l = false
    /\ ignore_user_and_project_exec_policy_rules stack && is_user_or_project (name l) = false)
    (layers stack).

(** The rules files of a layer: sorted, and the regular files with the extension. *)
Definition layer_files (l : ConfigLayerEntry) (paths : list (list Component)) : Prop :=
  match config_folder l with
  | None => paths = []
  | Some folder =>
      match read_dir (child_path folder RULES_DIR_NAME) with
      | inl e => io_kind e = NotFound /\ paths = []
      | inr items =>
          StronglySorted (compare_le path_compare) paths
          /\ forall path, path ∈ paths <->
               Entry path (inr true) ∈ items /\ extension path = Some RULE_EXTENSION
      end
  end.

Lemma collect_files_spec l folder paths :
  config_folder l = Some folder ->
  collect_policy_files read_dir (child_path folder RULES_DIR_NAME) = Ok paths -> layer_files l paths.
Proof.
  intros Hf. unfold collect_policy_files, layer_files. rewrite Hf.
  destruct (read_dir _) as [e|items]; [case_bool_decide; [|done]; by intros [= <-]|].
  intros Hc. run_ok Hc. injection Hc as <-. destruct (sort_paths_spec a) as [Hs Hp].
  split; [done|]. intros path. rewrite Hp. by apply (collect_loop_spec _ _ _ _ Hr).
Qed.

Lemma policy_paths_spec stack ls acc paths :
  policy_paths_loop read_dir stack ls acc = Ok paths ->
  exists found, Forall2 layer_files
      (filter (fun l => ignore_user_and_project_exec_policy_rules stack
                        && is_user_or_project (name l) = false) ls) found
    /\ paths = acc ++ concat found.
Proof.
  revert acc. induction ls as [|l ls IH]; intros acc; simpl.
  { intros [= <-]. exists []. split; [constructor|by rewrite app_nil_r]. }
  destruct (_ && _) eqn:Ei; simpl.
  { intros (found & F & ->)%IH. exists found. split; [|done]. by rewrite filter_cons, decide_False by congruence. }
  rewrite filter_cons, decide_True by done. destruct (config_folder l) as [folder|] eqn:Ef.
  - intros Hp. run_ok Hp. apply IH in Hp as (found & F & ->). exists (a :: found).
    split; [constructor; [by eapply collect_files_spec|done]|]. simpl. by rewrite app_assoc.
  - intros (found & F & ->)%IH. exists ([] :: found). split; [|done]. constructor; [|done].
    unfold layer_files. by rewrite Ef.
Qed.

Lemma parse_loop_ok b paths b' : builder_ok b -> parse_from b paths = Ok b' -> builder_ok b'.
Proof.
  revert b. induction paths as [|path paths IH]; intros b Hb; simpl; [by intros [= <-]|].
  destruct (read_file path) as [e|contents]; [done|]. unfold parse_rules.
  destruct (parse_ok (home_dir env) (current_dir env) cwd_error shlex_split shlex_join debug_rule
    debug_match wrap starlark b (display path) contents Hb) as [Hb' _].
  destruct (parse _ _ _ _ _ _ _ _ _ _ _ _) as [b1 r]. simpl in *. destruct r; try done. simpl.
  by apply IH.
Qed.

(** The rules that are loaded are those of the enabled layers, lowest
    precedence first and, on request, without the user's and the project's; of
    each layer those of the regular files with the extension [rules], sorted by
    path; a missing directory has none.  The policy is well formed, and the rules
    imposed by the requirements are all in it, the network rules last. *)
Theorem loaded_policy_is_the_layers (stack : ConfigLayerStack) (p : Policy) :
  (forall q, requirements_exec_policy (requirements stack) = Some q -> policy_wf q) ->
  load stack = Ok p ->
  exists found b, Forall2 layer_files (rules_layers stack) found
    /\ parse_from builder_new (concat found) = Ok b
    /\ policy_wf p
    /\ (forall r, policy_rule (build b) r -> policy_rule p r)
    /\ (forall q, requirements_exec_policy (requirements stack) = Some q ->
          (forall r, policy_rule q r -> policy_rule p r)
          /\ network_rules p = network_rules (build b) ++ network_rules q).
Proof.
  intros Hq Hl. unfold load_exec_policy in Hl. run_ok Hl. run_ok Hl.
  apply policy_paths_spec in Hr as (found & F & ->). simpl in *. rename a0 into b.
  assert (policy_wf (build b)) as Hb
    by (apply ok_rules; eapply parse_loop_ok; [apply builder_new_ok|done]).
  exists found, b. split_and!; [|done|..].
  { replace (rules_layers stack) with (filter (fun l => ignore_user_and_project_exec_policy_rules stack
      && is_user_or_project (name l) = false) (get_layers stack LowestPrecedenceFirst false)); [done|].
    unfold rules_layers, get_layers. rewrite list_filter_filter. apply list_filter_iff. intros l.
    simpl. rewrite negb_true_iff. tauto. }
  all: destruct (requirements_exec_policy (requirements stack)) as [q|] eqn:Eq; injection Hl as <-; try done.
  - apply merge_overlay_wf; auto.
  - intros r ?. apply merge_overlay_policy_rule. by left.
  - intros q' [= <-]. split; [|done]. intros r ?. apply merge_overlay_policy_rule. by right.
Qed.
End load.

(** ** Instances *)

Module Sample.
Definition call (decision : str) : Call :=
  CallPrefixRule [VString (L"git")] (Some decision) None None None None.
Definition starlark (id text : str) : StarlarkError + (list Call * option StarlarkError) :=
  if str_eqb text (L"broken") then inl (mkStarlark [] None) else inr ([call text], None).
Definition folder (layer : str) : AbsolutePathBuf := path_of [layer; L"rules"].
Definition file (layer : str) : AbsolutePathBuf := path_of [layer; L"rules"; L"a.rules"].
Definition read_dir (dir : list Component) : io_error + list DirItem :=
  if bool_decide (dir = folder (L"etc")) then inr [Entry (file (L"etc")) (inr true)]
  else if bool_decide (dir = folder (L"home"))
  then inr [Entry (path_of [L"home"; L"rules"; L"notes.txt"]) (inr true); Entry (file (L"home")) (inr true)]
  else inl (mkIo NotFound []).
(** The system's rules forbid git; the user's are given. *)
Definition read_file (user : str) (path : list Component) : io_error + str :=
  if bool_decide (path = file (L"etc")) then inr (L"forbidden")
  else if bool_decide (path = file (L"home")) then inr user else inl (mkIo NotFound []).
Definition layer (source : ConfigLayerSource) : ConfigLayerEntry :=
  mkLayer source (TTable ∅) None [] None.
Definition stack (imposed : option Policy) : ConfigLayerStack :=
  mkStack [layer (System (path_of [L"etc"; L"config.toml"])); layer (User (path_of [L"home"; L"config.toml"]));
           layer SessionFlags]
    (Some 1) (mkRequirements imposed) false None.
Definition load (user : str) (imposed : option Policy) : result ExecPolicyError Policy :=
  load_exec_policy plain_env [] split_words join_words (fun _ => []) (fun _ => []) wrap_error starlark
    read_dir (read_file user) (stack imposed).
Definition manager (user : str) (imposed : option Policy) : result ExecPolicyError Policy :=
  manager_load plain_env [] split_words join_words (fun _ => []) (fun _ => []) wrap_error starlark
    read_dir (read_file user) (stack imposed).
Definition decision_of (p : result ExecPolicyError Policy) (cmd : list str) : option Decision :=
  match p with
  | Ok p => match check None None p cmd (fun _ => Allow) with Ok ev => Some (decision ev) | _ => None end
  | _ => None
  end.
End Sample.

Lemma loaded_policy_is_the_layers_witness :
  exists p found, Sample.load (L"allow") None = Ok p
    /\ Forall2 (layer_files Sample.read_dir) (rules_layers (Sample.stack None)) found.
Proof.
  assert (exists p, Sample.load (L"allow") None = Ok p) as [p Hp] by (eexists; vm_compute; reflexivity).
  destruct (loaded_policy_is_the_layers plain_env [] split_words join_words (fun _ => []) (fun _ => [])
    wrap_error Sample.starlark Sample.read_dir (Sample.read_file (L"allow")) (Sample.stack None) p)
    as (found & b & F & _); [done|done|]. by exists p, found.
Defined.

(** A rule of a layer of higher precedence does not override one of a lower layer:
    the strictest decides. *)
Example higher_layer_cannot_relax :
  Sample.decision_of (Sample.load (L"allow") None) [L"git"; L"log"] = Some Forbidden.
Proof. vm_compute. reflexivity. Qed.

(** When one file does not parse, the policy in force is the empty one: neither the
    rules of the other layers nor those imposed by the requirements are left. *)
Example broken_file_drops_imposed_rules :
  let imposed := policy_new {[ L"rm" := [mkRule (mkPattern (L"rm") []) Forbidden None] ]} in
  Sample.decision_of (Sample.manager (L"allow") (Some imposed)) [L"rm"; L"x"] = Some Forbidden
  /\ Sample.decision_of (Sample.manager (L"broken") (Some imposed)) [L"rm"; L"x"] = Some Allow.
Proof. vm_compute. split; reflexivity. Qed.
