(* ===== verification/Readiness.v ===== *)
(** * The readiness flag (utils/readiness/src/lib.rs)

    Tasks share a flag, a set of tokens behind a lock and a watch channel.  Each
    operation is a sequence of atomic steps, and tasks interleave: the state is
    the shared part with the position of every task.  A critical section is one
    step; that the lock is taken shows as a [try_lock] that fails and as a
    timeout.  Of [tokio::sync::watch] the documented behaviour is used: [send]
    without a receiver fails and leaves the value, [subscribe] starts from the
    current version, [changed] waits for a newer one. *)

From S2P Require Import Prelude.

(** ** Tokens: [i32], wrapping *)

Definition i32_wrap (z : Z) : Z := ((z + 2 ^ 31) mod 2 ^ 32 - 2 ^ 31)%Z.

(** [fetch_add(1)] until the token is not zero and new to the set; gives the token
    and the next id. *)
Fixpoint token_loop (fuel : nat) (tokens : gset Z) (next_id : Z) : result unit (Z * Z) :=
  match fuel with
  | 0 => OutOfFuel
  | S fuel =>
      let token := next_id in
      let next_id := i32_wrap (next_id + 1) in
      if bool_decide (token <> 0%Z) && bool_decide (token ∉ tokens) then Ok (token, next_id)
      else token_loop fuel tokens next_id
  end.

(** Zero and the tokens in use are all that can be skipped. *)
Definition next_token (tokens : gset Z) (next_id : Z) : result unit (Z * Z) :=
  token_loop (size tokens + 2) tokens next_id.

(** ** Tasks *)

Inductive ReadinessError := TokenLockFailed | FlagAlreadyReady.

Inductive Outcome :=
| OReady (b : bool)
| OToken (r : Z + ReadinessError)
| OMarked (r : bool + ReadinessError)
| OWaited.

(** Where a task is.  [waiting] tells [is_ready] on its own from the call at the
    start of [wait_ready]; the version is the last one a receiver has seen. *)
Inductive Pc :=
| Idle
| IsReadyLoad (waiting : bool)
| IsReadyTryLock (waiting : bool)
| IsReadySend (waiting : bool)
| IsReadyReload (waiting : bool)
| SubscribeLoad
| SubscribeLock
| MarkLoad (token : Z)
| MarkLock (token : Z)
| MarkSend
| WaitSubscribe
| WaitBorrow (version : nat)
| WaitChanged (version : nat)
| WaitReborrow (version : nat)
| Done (o : Outcome).

#[export] Instance Outcome_eq_dec : EqDecision Outcome.
Proof.
  assert (EqDecision ReadinessError) by solve_decision. solve_decision.
Defined.
#[export] Instance Pc_eq_dec : EqDecision Pc.
Proof. solve_decision. Defined.

Record Flag := mkFlag {
  ready : bool;
  next_id : Z;
  tokens : gset Z;
  tx_value : bool;
  tx_version : nat;
  receivers : nat }.

Definition flag_new : Flag := mkFlag false 1 ∅ false 0 0.

(** [watch::Sender::send(true)]. *)
Definition tx_send (f : Flag) : Flag :=
  if receivers f =? 0 then f
  else mkFlag (ready f) (next_id f) (tokens f) true (S (tx_version f)) (receivers f).

Definition set_ready (f : Flag) : Flag :=
  mkFlag true (next_id f) (tokens f) (tx_value f) (tx_version f) (receivers f).
Definition set_tokens (f : Flag) (tokens : gset Z) (next_id : Z) : Flag :=
  mkFlag (ready f) next_id tokens (tx_value f) (tx_version f) (receivers f).
Definition set_receivers (f : Flag) (n : nat) : Flag :=
  mkFlag (ready f) (next_id f) (tokens f) (tx_value f) (tx_version f) n.

(** The answer of [is_ready]; a waiter goes on when it is [false]. *)
Definition answer (waiting b : bool) : Pc :=
  if waiting then (if b then Done OWaited else WaitSubscribe) else Done (OReady b).

(** One step of a task from a position, with the choices it has: what [try_lock]
    and the timeout of the lock do, and which operation an idle task calls. *)
Inductive Choice := Proceed | LockBusy | Call (op : Pc).

Definition entry (op : Pc) : bool :=
  match op with
  | IsReadyLoad _ | SubscribeLoad | MarkLoad _ => true
  | _ => false
  end.

Definition task_step (f : Flag) (pc : Pc) (c : Choice) : option (Flag * Pc) :=
  match pc, c with
  | Idle, Call op => if entry op then Some (f, op) else None
  | Done _, Proceed => Some (f, Idle)
  (* is_ready *)
  | IsReadyLoad w, Proceed => Some (f, if ready f then answer w true else IsReadyTryLock w)
  | IsReadyTryLock w, LockBusy => Some (f, IsReadyReload w)
  | IsReadyTryLock w, Proceed =>
      if bool_decide (tokens f = ∅)
      then Some (set_ready f, if ready f then answer w true else IsReadySend w)
      else Some (f, IsReadyReload w)
  | IsReadySend w, Proceed => Some (tx_send f, answer w true)
  | IsReadyReload w, Proceed => Some (f, answer w (ready f))
  (* subscribe *)
  | SubscribeLoad, Proceed =>
      Some (f, if ready f then Done (OToken (inr FlagAlreadyReady)) else SubscribeLock)
  | SubscribeLock, LockBusy => Some (f, Done (OToken (inr TokenLockFailed)))
  | SubscribeLock, Proceed =>
      if ready f then Some (f, Done (OToken (inr FlagAlreadyReady)))
      else match next_token (tokens f) (next_id f) with
           | Ok (token, next_id) =>
               Some (set_tokens f ({[ token ]} ∪ tokens f) next_id, Done (OToken (inl token)))
           | _ => None
           end
  (* mark_ready *)
  | MarkLoad token, Proceed =>
      Some (f, if ready f then Done (OMarked (inl false))
               else if bool_decide (token = 0%Z) then Done (OMarked (inl false))
               else MarkLock token)
  | MarkLock token, LockBusy => Some (f, Done (OMarked (inr TokenLockFailed)))
  | MarkLock token, Proceed =>
      if bool_decide (token ∈ tokens f)
      then Some (set_ready (set_tokens f ∅ (next_id f)), MarkSend)
      else Some (f, Done (OMarked (inl false)))
  | MarkSend, Proceed => Some (tx_send f, Done (OMarked (inl true)))
  (* wait_ready, after is_ready *)
  | WaitSubscribe, Proceed => Some (set_receivers f (S (receivers f)), WaitBorrow (tx_version f))
  | WaitBorrow v, Proceed =>
      if tx_value f then Some (set_receivers f (pred (receivers f)), Done OWaited)
      else Some (f, WaitChanged v)
  | WaitChanged v, Proceed =>
      if bool_decide (tx_version f = v) then None else Some (f, WaitReborrow (tx_version f))
  | WaitReborrow v, Proceed =>
      if tx_value f then Some (set_receivers f (pred (receivers f)), Done OWaited)
      else Some (f, WaitChanged v)
  | _, _ => None
  end.

(** ** The system *)

Record State := mkState { flag : Flag; tasks : list Pc }.

Definition init (n : nat) : State := mkState flag_new (replicate n Idle).

(** Task [i] takes a step. *)
Inductive step (i : nat) : State -> State -> Prop :=
| step_task (s : State) (pc : Pc) (c : Choice) (f : Flag) (pc' : Pc) :
    tasks s !! i = Some pc -> task_step (flag s) pc c = Some (f, pc') ->
    step i s (mkState f (<[i := pc']> (tasks s))).

Definition any_step (s s' : State) : Prop := exists i, step i s s'.
Definition reachable (n : nat) (s : State) : Prop := rtc any_step (init n) s.
(** Inside an operation, and able to go on. *)
Definition enabled (i : nat) (s : State) : Prop :=
  tasks s !! i <> Some Idle /\ exists s', step i s s'.

(** ** Tokens: facts *)

Definition in_i32 (z : Z) : Prop := (- 2 ^ 31 <= z < 2 ^ 31)%Z.

Lemma i32_wrap_range z : in_i32 (i32_wrap z).
Proof. unfold in_i32, i32_wrap. pose proof (Z.mod_pos_bound (z + 2 ^ 31) (2 ^ 32)). lia. Qed.

Lemma i32_wrap_id z : in_i32 z -> i32_wrap z = z.
Proof. unfold in_i32, i32_wrap. intros H. rewrite Z.mod_small; lia. Qed.

Lemma i32_wrap_add a b : i32_wrap (i32_wrap a + b) = i32_wrap (a + b).
Proof.
  unfold i32_wrap. f_equal.
  replace ((a + 2 ^ 31) mod 2 ^ 32 - 2 ^ 31 + b + 2 ^ 31)%Z
    with ((a + 2 ^ 31) mod 2 ^ 32 + b)%Z by lia.
  rewrite Zplus_mod_idemp_l. f_equal. lia.
Qed.

Lemma i32_wrap_inj a b k :
  (0 <= k < 2 ^ 32)%Z -> i32_wrap a = i32_wrap b -> b = (a + k)%Z -> k = 0%Z.
Proof.
  intros Hk H ->. unfold i32_wrap in H.
  assert (((a + 2 ^ 31) mod 2 ^ 32 = (a + 2 ^ 31 + k) mod 2 ^ 32)%Z) as H'
    by (rewrite (Z.add_shuffle0 a (2 ^ 31) k); lia).
  apply (f_equal (fun z => (z - (a + 2 ^ 31)) mod 2 ^ 32)%Z) in H'.
  rewrite !Zminus_mod_idemp_l in H'. replace (a + 2 ^ 31 + k - (a + 2 ^ 31))%Z with k in H' by lia.
  rewrite Z.sub_diag, Z.mod_0_l, Z.mod_small in H' by lia. done.
Qed.

(** The ids the loop goes through. *)
Definition ids (n : nat) (id : Z) : list Z := (fun k => i32_wrap (id + Z.of_nat k)) <$> seq 0 n.

Lemma ids_NoDup n id : (Z.of_nat n <= 2 ^ 32)%Z -> NoDup (ids n id).
Proof.
  intros Hn. apply NoDup_alt. intros i j x Hi Hj. unfold ids in *.
  apply list_lookup_fmap_Some in Hi as (a & -> & [-> Ha]%lookup_seq).
  apply list_lookup_fmap_Some in Hj as (b & Hx & [-> Hb]%lookup_seq). simpl in *.
  destruct (decide (i <= j)).
  - assert (Z.of_nat j - Z.of_nat i = 0)%Z; [|lia].
    eapply (i32_wrap_inj (id + Z.of_nat i) (id + Z.of_nat j)); [lia|done|lia].
  - assert (Z.of_nat i - Z.of_nat j = 0)%Z; [|lia].
    eapply (i32_wrap_inj (id + Z.of_nat j) (id + Z.of_nat i)); [lia|done|lia].
Qed.

Lemma ids_S n id : in_i32 id -> ids (S n) id = id :: ids n (i32_wrap (id + 1)).
Proof.
  intros Hid. unfold ids. simpl. rewrite Z.add_0_r, i32_wrap_id by done. f_equal.
  rewrite <- fmap_S_seq, <- list_fmap_compose. apply list_fmap_ext. intros i k _. simpl.
  rewrite i32_wrap_add. f_equal. lia.
Qed.

Lemma token_loop_cases fuel toks id :
  in_i32 id ->
  (exists t id', token_loop fuel toks id = Ok (t, id') /\ t <> 0%Z /\ t ∉ toks /\ in_i32 t /\ in_i32 id')
  \/ Forall (fun x => x ∈ {[ 0%Z ]} ∪ toks) (ids fuel id).
Proof.
  revert id. induction fuel as [|fuel IH]; intros id Hid; [right; constructor|]. rewrite ids_S by done.
  simpl. destruct (bool_decide (id <> 0%Z) && bool_decide (id ∉ toks)) eqn:E.
  - apply andb_true_iff in E as [?%bool_decide_eq_true ?%bool_decide_eq_true]. left.
    exists id, (i32_wrap (id + 1)). split_and!; [done..|]. apply i32_wrap_range.
  - destruct (IH (i32_wrap (id + 1)) (i32_wrap_range _)) as [?|?]; [by left|right].
    constructor; [|done]. apply andb_false_iff in E as [E|E];
      apply bool_decide_eq_false, dec_stable in E; set_solver.
Qed.

(** A fresh token is found, unless nearly all of them are in use. *)
Lemma next_token_fresh toks id :
  in_i32 id -> (Z.of_nat (size toks) + 2 <= 2 ^ 32)%Z ->
  exists t id', next_token toks id = Ok (t, id') /\ t <> 0%Z /\ t ∉ toks /\ in_i32 t /\ in_i32 id'.
Proof.
  intros Hid Hsize. unfold next_token.
  destruct (token_loop_cases (size toks + 2) toks id Hid) as [?|F]; [done|exfalso].
  assert (size (list_to_set (C:=gset Z) (ids (size toks + 2) id)) <= size ({[ 0%Z ]} ∪ toks)) as Hle.
  { apply subseteq_size. intros x. rewrite elem_of_list_to_set. rewrite Forall_forall in F. apply F. }
  rewrite size_list_to_set in Hle by (apply ids_NoDup; lia).
  unfold ids in Hle. rewrite length_fmap, length_seq in Hle.
  pose proof (size_union_alt {[ 0%Z ]} toks). rewrite size_singleton in *.
  assert (size (toks ∖ {[ 0%Z ]}) <= size toks) by (apply subseteq_size; set_solver). lia.
Qed.

(** ** The invariant *)

Definition registered (pc : Pc) : bool :=
  match pc with WaitBorrow _ | WaitChanged _ | WaitReborrow _ => true | _ => false end.
Definition sender (pc : Pc) : bool :=
  match pc with IsReadySend _ | MarkSend => true | _ => false end.

Definition count (f : Pc -> bool) (l : list Pc) : nat := length (filter (fun pc => f pc = true) l).

Lemma count_insert f l i pc pc' :
  l !! i = Some pc ->
  count f (<[i := pc']> l) + Nat.b2n (f pc) = count f l + Nat.b2n (f pc').
Proof.
  unfold count. revert i. induction l as [|x l IH]; intros [|i] H; simpl in *; try done.
  - injection H as ->. rewrite !filter_cons. destruct (f pc), (f pc'); simpl; lia.
  - rewrite !filter_cons. specialize (IH i H). destruct (f x); simpl; lia.
Qed.

Lemma count_pos f l i pc : l !! i = Some pc -> f pc = true -> 0 < count f l.
Proof.
  intros Hi Hf. unfold count.
  assert (pc ∈ filter (fun pc => f pc = true) l) as H
    by (apply list_elem_of_filter; split; [done|by eapply list_elem_of_lookup_2]).
  destruct (filter _ l); [by apply not_elem_of_nil in H|simpl; lia].
Qed.

Definition pc_ok (f : Flag) (pc : Pc) : Prop :=
  match pc with
  | IsReadySend _ | MarkSend => ready f = true
  | WaitBorrow v => v <= tx_version f
  | WaitChanged v => v = 0
  | WaitReborrow _ => tx_value f = true
  | _ => True
  end.

Record flag_ok (f : Flag) : Prop := {
  ready_no_tokens : ready f = true -> tokens f = ∅;
  token_range : forall t, t ∈ tokens f -> t <> 0%Z /\ in_i32 t;
  id_range : in_i32 (next_id f);
  sent_ready : tx_value f = true -> ready f = true;
  sent_version : tx_version f = 0 <-> tx_value f = false }.

(** What a step can only do to the shared part. *)
Definition grows (f f' : Flag) : Prop :=
  (ready f = true -> ready f' = true) /\ tx_version f <= tx_version f'
  /\ (tx_value f = true -> tx_value f' = true).

Record inv (s : State) : Prop := {
  inv_flag : flag_ok (flag s);
  inv_pcs : Forall (pc_ok (flag s)) (tasks s);
  inv_receivers : receivers (flag s) = count registered (tasks s) }.

Lemma pc_ok_grows f f' pc : grows f f' -> pc_ok f pc -> pc_ok f' pc.
Proof. intros (H1 & H2 & H3). destruct pc; simpl; auto. lia. Qed.

Lemma tx_send_ok f : flag_ok f -> ready f = true -> flag_ok (tx_send f) /\ grows f (tx_send f).
Proof.
  intros [H1 H2 H3 H4 H5] Hr. unfold tx_send. destruct (receivers f =? 0); [by split|].
  split; [|split_and!; simpl; auto; lia]. constructor; simpl; auto. done.
Qed.

Lemma set_tokens_ok f t id :
  flag_ok f -> ready f = false -> t <> 0%Z -> in_i32 t -> in_i32 id ->
  flag_ok (set_tokens f ({[ t ]} ∪ tokens f) id).
Proof.
  intros [H1 H2 H3 H4 H5] Hr Ht Hti Hid. constructor; simpl; auto; [congruence|].
  intros x [->%elem_of_singleton|?]%elem_of_union; auto.
Qed.

Lemma set_ready_ok f toks id :
  flag_ok f -> toks = ∅ -> in_i32 id ->
  flag_ok (set_ready (set_tokens f toks id)) /\ grows f (set_ready (set_tokens f toks id)).
Proof.
  intros [H1 H2 H3 H4 H5] -> Hid. split; [|by split_and!]. constructor; simpl; auto.
  intros t ?%elem_of_empty. done.
Qed.

Ltac task_cases H :=
  repeat match type of H with
  | context [if ?b then _ else _] => destruct b eqn:?
  | context [match next_token ?t ?i with _ => _ end] => destruct (next_token t i) as [[??]| | |] eqn:?
  end; try done; injection H as <- <-.

Lemma token_loop_ok fuel toks id t id' :
  in_i32 id -> token_loop fuel toks id = Ok (t, id') ->
  t <> 0%Z /\ t ∉ toks /\ in_i32 t /\ in_i32 id'.
Proof.
  revert id. induction fuel as [|fuel IH]; intros id Hid; simpl; [done|].
  destruct (bool_decide (id <> 0%Z) && bool_decide (id ∉ toks)) eqn:E; [|apply IH, i32_wrap_range].
  apply andb_true_iff in E as [?%bool_decide_eq_true ?%bool_decide_eq_true].
  intros [= <- <-]. split_and!; [done..|]. apply i32_wrap_range.
Qed.

Lemma answer_ok f w b : pc_ok f (answer w b) /\ registered (answer w b) = false /\ sender (answer w b) = false.
Proof. by destruct w, b. Qed.

Lemma tx_send_receivers f : receivers (tx_send f) = receivers f.
Proof. unfold tx_send. by destruct (receivers f =? 0). Qed.

Lemma set_ready_ok' f : flag_ok f -> tokens f = ∅ -> flag_ok (set_ready f) /\ grows f (set_ready f).
Proof.
  intros Hf Ht. assert (set_ready f = set_ready (set_tokens f (tokens f) (next_id f))) as ->
    by (by destruct f).
  apply set_ready_ok; [done|done|]. apply (id_range f Hf).
Qed.

Lemma set_receivers_ok f n : flag_ok f -> flag_ok (set_receivers f n) /\ grows f (set_receivers f n).
Proof. intros [H1 H2 H3 H4 H5]. split; [by constructor|by split_and!]. Qed.

(** A step keeps the shared part well formed and puts the task where it belongs. *)
Lemma task_step_ok f pc c f' pc' :
  flag_ok f -> pc_ok f pc -> task_step f pc c = Some (f', pc') ->
  flag_ok f' /\ grows f f' /\ pc_ok f' pc'.
Proof.
  intros Hf Hpc H. assert (grows f f) as Hg by (by split_and!).
  assert (forall f'' w b, flag_ok f'' /\ grows f f'' ->
    flag_ok f'' /\ grows f f'' /\ pc_ok f'' (answer w b)) as Hans
    by (intros f'' w b [? ?]; split_and!; [done|done|apply answer_ok]).
  destruct pc, c; simpl in H; try done; task_cases H.
  all: try (by split_and!); try (by apply Hans).
  - by destruct op.
  - apply Hans, set_ready_ok'; [done|by eapply bool_decide_eq_true_1].
  - destruct (set_ready_ok' f) as [? ?]; [done|by eapply bool_decide_eq_true_1|done].
  - apply Hans. by apply tx_send_ok.
  - apply token_loop_ok in Heqr as (? & ? & ? & ?); [|apply (id_range f Hf)]. split; [|by split_and!].
    by apply set_tokens_ok.
  - destruct (set_ready_ok f ∅ (next_id f)) as [? ?]; [done|done|apply (id_range f Hf)|done].
  - by destruct (tx_send_ok f).
  - destruct (set_receivers_ok f (S (receivers f))); [done|]. split_and!; [done..|simpl; lia].
  - by destruct (set_receivers_ok f (pred (receivers f))).
  - split_and!; [done|done|]. simpl in *. apply sent_version in Heqb; [|done]. lia.
  - split_and!; [done|done|]. simpl in *. apply bool_decide_eq_false in Heqb.
    destruct (tx_value f) eqn:E; [done|]. apply sent_version in E; [|done]. lia.
  - by destruct (set_receivers_ok f (pred (receivers f))).
  - simpl in Hpc. congruence.
Qed.

(** The receivers follow the tasks. *)
Lemma task_step_receivers f pc c f' pc' :
  task_step f pc c = Some (f', pc') -> (registered pc = true -> 0 < receivers f) ->
  receivers f' + Nat.b2n (registered pc) = receivers f + Nat.b2n (registered pc').
Proof.
  intros H Hreg. destruct pc, c; simpl in H; try done; task_cases H; simpl; try lia.
  all: try (rewrite (proj1 (proj2 (answer_ok f _ _)))).
  all: rewrite ?tx_send_receivers; simpl; try lia.
  - by destruct op.
  - simpl in Hreg. specialize (Hreg eq_refl). lia.
  - simpl in Hreg. specialize (Hreg eq_refl). lia.
Qed.

Lemma step_inv i s s' : inv s -> step i s s' -> inv s' /\ grows (flag s) (flag s').
Proof.
  intros [Hf Hp Hr] H. inversion H as [? pc c f pc' Hi Ht]; subst. simpl.
  pose proof (Forall_lookup_1 _ _ _ _ Hp Hi) as Hpc.
  destruct (task_step_ok _ _ _ _ _ Hf Hpc Ht) as (Hf' & Hg & Hpc'). split; [|done].
  constructor; simpl; [done| |].
  - apply Forall_insert; [|done]. eapply Forall_impl; [exact Hp|]. intros x. by apply pc_ok_grows.
  - pose proof (count_insert registered (tasks s) i pc pc' Hi) as Hc.
    assert (registered pc = true -> 0 < receivers (flag s)) as Hpos
      by (intros ?; rewrite Hr; by eapply count_pos).
    pose proof (task_step_receivers _ _ _ _ _ Ht Hpos). lia.
Qed.

Lemma init_inv n : inv (init n).
Proof.
  constructor; simpl.
  - constructor; simpl; try done.
  - by apply Forall_replicate.
  - induction n as [|n IH]; [done|]. unfold count in *. simpl. rewrite filter_cons. done.
Qed.

Lemma rtc_inv s s' : rtc any_step s s' -> inv s -> inv s' /\ grows (flag s) (flag s').
Proof.
  induction 1 as [s|s1 s2 s3 [i Hs] _ IH]; intros Hi; [by split; [|split_and!]|].
  destruct (step_inv i _ _ Hi Hs) as [Hi2 (A1 & A2 & A3)]. destruct (IH Hi2) as [? (B1 & B2 & B3)].
  split; [done|]. split_and!; auto; lia.
Qed.

Lemma reachable_flag_inv n s : reachable n s -> inv s.
Proof. intros H. apply (rtc_inv _ _ H), init_inv. Qed.

(** ** Theorems: the flag *)

(** C34: The flag turns ready once, and only when it may.  In every reachable state
    tokens are distinct from zero and none is left once the flag is ready; a step
    turns the flag ready only in [is_ready] while no one is subscribed or in
    [mark_ready] with a subscribed token (so that a flag no one has subscribed to turns
    ready when it is asked, without any token being marked); after that it is ready for ever, no
    token is given out, and no [mark_ready] succeeds.  And while fewer than 2^32 - 2
    tokens are out, [subscribe] finds a new one, even when the ids wrap around. *)
Theorem readiness_is_authorized (n : nat) (s s' : State) (i : nat) :
  reachable n s -> step i s s' ->
  (ready (flag s) = true ->
     ready (flag s') = true /\ tokens (flag s') = ∅
     /\ (forall t, tasks s' !! i = Some (Done (OToken (inl t))) -> False)
     /\ (forall t, tasks s !! i = Some (MarkLock t) -> tasks s' !! i <> Some MarkSend))
  /\ (ready (flag s) = false -> ready (flag s') = true ->
       (exists w, tasks s !! i = Some (IsReadyTryLock w) /\ tokens (flag s) = ∅)
       \/ (exists t, tasks s !! i = Some (MarkLock t) /\ t <> 0%Z /\ t ∈ tokens (flag s)))
  /\ (ready (flag s) = false -> (Z.of_nat (size (tokens (flag s))) + 2 <= 2 ^ 32)%Z ->
       tasks s !! i = Some SubscribeLock ->
       exists t f, t <> 0%Z /\ t ∉ tokens (flag s) /\ tokens f = {[ t ]} ∪ tokens (flag s)
         /\ step i s (mkState f (<[i := Done (OToken (inl t))]> (tasks s)))).
Proof.
  intros Hr%reachable_flag_inv Hs. destruct (step_inv i s s' Hr Hs) as [Hi' [Hg _]].
  inversion Hs as [? pc c f pc' Hi Ht]; subst. simpl in *.
  pose proof (lookup_lt_Some _ _ _ Hi) as Hlt. rewrite list_lookup_insert_eq by done.
  pose proof (inv_flag _ Hr) as Hf. split_and!.
  - intros Hready. split_and!; [by apply Hg|by apply (ready_no_tokens _ (inv_flag _ Hi')), Hg| |].
    + intros t Hd. destruct pc, c; simpl in Ht; try done; rewrite ?Hready in Ht;
        task_cases Ht; try done; try (by destruct waiting). by destruct op.
    + intros t Hm. rewrite Hi in Hm. injection Hm as ->. destruct c; simpl in Ht; [|by injection Ht as <- <-|done].
      rewrite (ready_no_tokens _ Hf Hready) in Ht. rewrite bool_decide_false in Ht by set_solver.
      by injection Ht as <- <-.
  - intros Hnr Hready. rewrite Hi.
    destruct pc, c; simpl in Ht; try done; rewrite ?Hnr in Ht; task_cases Ht; simpl in *; try congruence.
    + left. eexists. split; [done|]. by eapply bool_decide_eq_true_1.
    + unfold tx_send in Hready. destruct (_ =? 0); simpl in Hready; congruence.
    + right. exists token. apply bool_decide_eq_true_1 in Heqb. split_and!; [done| |done].
      by apply (token_range _ Hf).
    + unfold tx_send in Hready. destruct (_ =? 0); simpl in Hready; congruence.
  - intros Hnr Hsize Hsub. destruct (next_token_fresh _ _ (id_range _ Hf) Hsize)
      as (t & id' & Hn & ? & ? & _). exists t. eexists. split_and!; [done..| |].
    2: { eapply (step_task i s SubscribeLock Proceed); [done|]. simpl. by rewrite Hnr, Hn. }
    done.
Qed.

(** ** Schedules *)

Fixpoint run (schedule : list (nat * Choice)) (s : State) : option State :=
  match schedule with
  | [] => Some s
  | (i, c) :: rest =>
      pc ← tasks s !! i;
      '(f, pc') ← task_step (flag s) pc c;
      run rest (mkState f (<[i := pc']> (tasks s)))
  end.

Lemma run_rtc schedule s s' : run schedule s = Some s' -> rtc any_step s s'.
Proof.
  revert s. induction schedule as [|[i c] rest IH]; intros s; simpl; [intros [= ->]; apply rtc_refl|].
  destruct (tasks s !! i) as [pc|] eqn:Ei; simpl; [|done].
  destruct (task_step (flag s) pc c) as [[f pc']|] eqn:Et; simpl; [|done].
  intros H. eapply rtc_l; [|by apply IH]. exists i. by econstructor.
Qed.

(** Task 0 subscribes; task 1 starts to wait and finds the flag not ready; task 0
    marks it ready and sends while no one listens; task 1 listens. *)
Definition lost_schedule : list (nat * Choice) :=
  [(0, Call SubscribeLoad); (0, Proceed); (0, Proceed); (0, Proceed);
   (1, Call (IsReadyLoad true)); (1, Proceed); (1, Proceed); (1, Proceed);
   (0, Call (MarkLoad 1)); (0, Proceed); (0, Proceed); (0, Proceed);
   (1, Proceed); (1, Proceed)].

(** The value was never sent and no one is going to send it. *)
Definition missed (i : nat) (s : State) : Prop :=
  inv s /\ ready (flag s) = true /\ tx_version (flag s) = 0
  /\ Forall (fun pc => sender pc = false) (tasks s) /\ tasks s !! i = Some (WaitChanged 0).

Lemma missed_stuck i s : missed i s -> ~ enabled i s.
Proof.
  intros (_ & _ & Hv & _ & Hi) [_ [s' H]]. inversion H as [? pc c f pc' Hi' Ht]; subst.
  rewrite Hi in Hi'. injection Hi' as <-. destruct c; simpl in Ht; try done.
  by rewrite bool_decide_true in Ht.
Qed.

Lemma missed_step i j s s' : missed i s -> step j s s' -> missed i s'.
Proof.
  intros Hm Hs. destruct (decide (i = j)) as [->|Hne].
  { exfalso. apply (missed_stuck j s Hm). destruct Hm as (_ & _ & _ & _ & Hi).
    split; [by rewrite Hi|by exists s']. }
  destruct Hm as (Hinv & Hr & Hv & Hns & Hi).
  destruct (step_inv j s s' Hinv Hs) as [Hinv' [Hg _]].
  inversion Hs as [? pc c f pc' Hj Ht]; subst. simpl in *.
  pose proof (Forall_lookup_1 _ _ _ _ Hns Hj) as Hpc. simpl in Hpc.
  assert (tx_version f = 0 /\ sender pc' = false) as [Hv' Hpc'].
  { pose proof (ready_no_tokens _ (inv_flag _ Hinv) Hr) as Htok.
    destruct pc, c; simpl in Ht; try done; rewrite ?Hr, ?Htok in Ht; task_cases Ht;
      try done; try (by rewrite (proj2 (proj2 (answer_ok (flag s) _ _)))). by destruct op. }
  split; [done|]. split; [by apply Hg|]. split; [done|]. split; [by apply Forall_insert|].
  simpl. by rewrite list_lookup_insert_ne.
Qed.

(** A task that calls [wait_ready] while another turns the flag ready can
    wait for ever: there is a run in which the flag is ready and the waiter, having
    found it not ready before and listened after the value was sent to no one, is
    stuck, and stays stuck whatever the other tasks do. *)
Theorem wait_ready_can_miss_the_signal :
  exists s, reachable 2 s /\ ready (flag s) = true /\ tasks s !! 1 = Some (WaitChanged 0)
    /\ forall s', rtc any_step s s' -> tasks s' !! 1 = Some (WaitChanged 0) /\ ~ enabled 1 s'.
Proof.
  assert (exists s, run lost_schedule (init 2) = Some s) as [s E] by (eexists; vm_compute; reflexivity).
  assert (reachable 2 s) as Hreach by (by apply run_rtc in E).
  assert (missed 1 s) as Hm.
  { split; [by apply reachable_flag_inv in Hreach|]. vm_compute in E. injection E as <-.
    split_and!; try done. repeat constructor. }
  exists s. split_and!; [done|apply Hm..|].
  intros s' Hs. assert (missed 1 s') as Hm'.
  { clear E Hreach. induction Hs as [|s1 s2 s3 [j Hj] _ IH]; [done|]. apply IH. by eapply missed_step. }
  split; [apply Hm'|by apply missed_stuck].
Qed.

(** ** Executions

    An infinite run, in which at each moment one task moves or none; fair to a
    task when the task is not left waiting for ever while it could move. *)

Definition execution (sigma : nat -> State) : Prop :=
  forall n, sigma (S n) = sigma n \/ any_step (sigma n) (sigma (S n)).
Definition fair (sigma : nat -> State) (i : nat) : Prop :=
  forall n, exists m, n <= m /\ (~ enabled i (sigma m) \/ step i (sigma m) (sigma (S m))).

(** A task that can move and whose move leads to a goal reaches the goal, when the
    others leave things as they are or reach it themselves. *)
Lemma fair_progress sigma i (P Q : State -> Prop) a :
  execution sigma -> fair sigma i ->
  (forall s, P s -> enabled i s) ->
  (forall s s', P s -> step i s s' -> Q s') ->
  (forall s s' j, P s -> step j s s' -> P s' \/ Q s') ->
  P (sigma a) -> exists k, a <= k /\ Q (sigma k).
Proof.
  intros He Hf Hen Hi Hj Ha. destruct (Hf a) as (m & Hm & Hstep).
  assert (forall d, P (sigma (a + d)) \/ exists k, a <= k /\ Q (sigma k)) as Hd.
  { induction d as [|d [Hp|?]]; [left; by rewrite Nat.add_0_r| |by right]. rewrite Nat.add_succ_r.
    destruct (He (a + d)) as [->|[j Hs]]; [by left|].
    destruct (Hj _ _ _ Hp Hs) as [?|?]; [by left|]. right. exists (S (a + d)). split; [lia|done]. }
  destruct (Hd (m - a)) as [Hp|?]; [|done]. replace (a + (m - a)) with m in Hp by lia.
  destruct Hstep as [Hno|Hs]; [by destruct (Hno (Hen _ Hp))|].
  exists (S m). split; [lia|]. by apply (Hi (sigma m)).
Qed.

Definition returned (i : nat) (s : State) : Prop := tasks s !! i = Some (Done OWaited).

(** The waiter listens, and if the flag is ready the value is there or will be sent. *)
Definition waits (i : nat) (s : State) : Prop :=
  inv s /\ (exists pc, tasks s !! i = Some pc /\ registered pc = true)
  /\ (ready (flag s) = true -> tx_value (flag s) = true
        \/ exists j pc, tasks s !! j = Some pc /\ sender pc = true).

Lemma registered_step f pc c f' pc' :
  registered pc = true -> task_step f pc c = Some (f', pc') ->
  ready f' = ready f /\ tx_value f' = tx_value f /\ (registered pc' = true \/ pc' = Done OWaited).
Proof.
  intros Hr Ht. destruct pc, c; simpl in *; try done; task_cases Ht; simpl; auto.
Qed.

(** Sending with someone listening sets the value. *)
Lemma sender_step f pc c f' pc' :
  sender pc = true -> 0 < receivers f -> task_step f pc c = Some (f', pc') -> tx_value f' = true.
Proof.
  intros Hs Hr Ht. destruct pc, c; simpl in *; try done; injection Ht as <- <-.
  all: unfold tx_send; by rewrite (proj2 (Nat.eqb_neq _ _)) by lia.
Qed.

(** A step that turns the flag ready leaves a sender. *)
Lemma ready_step f pc c f' pc' :
  ready f = false -> ready f' = true -> task_step f pc c = Some (f', pc') -> sender pc' = true.
Proof.
  intros H1 H2 Ht. destruct pc, c; simpl in Ht; try done; rewrite ?H1 in Ht; task_cases Ht;
    simpl in *; try congruence; try done.
  all: unfold tx_send in H2; destruct (_ =? 0); simpl in H2; congruence.
Qed.

Lemma waits_receivers i s : waits i s -> 0 < receivers (flag s).
Proof.
  intros (Hinv & (pc & Hi & Hr) & _). rewrite (inv_receivers _ Hinv). by eapply count_pos.
Qed.

Lemma waits_step i j s s' : waits i s -> step j s s' -> waits i s' \/ returned i s'.
Proof.
  intros Hw Hs. pose proof (waits_receivers i s Hw) as Hrec.
  destruct Hw as (Hinv & (pc & Hi & Hreg) & Hsend).
  destruct (step_inv j s s' Hinv Hs) as [Hinv' (Hg1 & _ & Hg3)].
  inversion Hs as [? pcj c f pc' Hj Ht]; subst. simpl in *.
  pose proof (lookup_lt_Some _ _ _ Hj) as Hlt.
  destruct (decide (i = j)) as [->|Hne].
  - rewrite Hi in Hj. injection Hj as <-.
    destruct (registered_step _ _ _ _ _ Hreg Ht) as (Hr & Hv & [Hreg'|Hret]).
    2: { right. unfold returned. simpl. rewrite list_lookup_insert_eq by done. by rewrite Hret. }
    left. split; [done|]. simpl. split; [exists pc'; by rewrite list_lookup_insert_eq|].
    rewrite Hr, Hv. intros Hready. destruct (Hsend Hready) as [?|(k & pck & Hk & Hks)]; [by left|right].
    exists k, pck. rewrite list_lookup_insert_ne; [done|]. intros <-. rewrite Hi in Hk.
    injection Hk as <-. by destruct pc.
  - left. split; [done|]. simpl. split; [exists pc; by rewrite list_lookup_insert_ne by done|].
    intros Hready'. destruct (ready (flag s)) eqn:Hready.
    + destruct (Hsend eq_refl) as [?|(k & pck & Hk & Hks)]; [left; auto|].
      destruct (decide (k = j)) as [->|Hkj].
      * rewrite Hj in Hk. injection Hk as <-. left. by eapply sender_step.
      * right. exists k, pck. by rewrite list_lookup_insert_ne.
    + right. exists j, pc'. rewrite list_lookup_insert_eq by done. split; [done|]. by eapply ready_step.
Qed.

Lemma task_enabled i s pc f pc' :
  tasks s !! i = Some pc -> task_step (flag s) pc Proceed = Some (f, pc') -> enabled i s.
Proof.
  intros Hi Ht. split; [rewrite Hi; by intros [= ->]|]. eexists. by eapply step_task.
Qed.

(** With the value sent, a listening task is on its way out. *)
Lemma signalled_waiter i s pc :
  waits i s -> tx_value (flag s) = true -> tasks s !! i = Some pc -> registered pc = true ->
  enabled i s /\ forall s', step i s s' ->
    returned i s' \/ (exists v, pc = WaitChanged v) /\ exists v, tasks s' !! i = Some (WaitReborrow v).
Proof.
  intros (Hinv & _) Hv Hi Hreg. pose proof (Forall_lookup_1 _ _ _ _ (inv_pcs _ Hinv) Hi) as Hpc.
  pose proof (lookup_lt_Some _ _ _ Hi) as Hlt.
  assert (tx_version (flag s) <> 0) as Hver
    by (intros H0; apply (sent_version _ (inv_flag _ Hinv)) in H0; congruence).
  split.
  - destruct pc; try done; eapply task_enabled; try exact Hi; simpl; try (by rewrite Hv).
    simpl in Hpc. subst. by rewrite bool_decide_false.
  - intros s' Hs. inversion Hs as [? pc0 c f pc' Hi0 Ht]; subst. rewrite Hi in Hi0. injection Hi0 as <-.
    unfold returned. simpl. rewrite list_lookup_insert_eq by done.
    destruct pc, c; simpl in Ht; try done; rewrite ?Hv in Ht; task_cases Ht; auto.
    right. eauto.
Qed.

Lemma sender_enabled f pc : sender pc = true -> exists f' pc', task_step f pc Proceed = Some (f', pc').
Proof. destruct pc; try done; simpl; eauto. Qed.

Section execution.
Context (sigma : nat -> State) (i : nat).
Context (Hexec : execution sigma) (Hfair : forall j, fair sigma j).

Definition signalled (s : State) : Prop := waits i s /\ tx_value (flag s) = true.

Lemma waits_until a d :
  waits i (sigma a) -> waits i (sigma (a + d)) \/ exists k, a <= k /\ returned i (sigma k).
Proof.
  intros Ha. induction d as [|d [Hw|?]]; [left; by rewrite Nat.add_0_r| |by right].
  rewrite Nat.add_succ_r. destruct (Hexec (a + d)) as [->|[j Hs]]; [by left|].
  destruct (waits_step i j _ _ Hw Hs) as [?|?]; [by left|right]. exists (S (a + d)). split; [lia|done].
Qed.

(** The pending sender sends. *)
Lemma sender_signals a j pc :
  waits i (sigma a) -> tasks (sigma a) !! j = Some pc -> sender pc = true ->
  exists k, a <= k /\ (signalled (sigma k) \/ returned i (sigma k)).
Proof.
  intros Hw Hj Hs.
  apply (fair_progress sigma j
    (fun s => waits i s /\ exists pc, tasks s !! j = Some pc /\ sender pc = true)
    (fun s => signalled s \/ returned i s)); [done|done| | | |by eauto].
  - intros s [_ (q & Hq & Hqs)]. destruct (sender_enabled (flag s) q Hqs) as (f & pc' & Ht).
    by eapply task_enabled.
  - intros s s' [Hws (q & Hq & Hqs)] Hstep. destruct (waits_step i j s s' Hws Hstep) as [?|?]; [left|by right].
    split; [done|]. pose proof (waits_receivers i s Hws).
    inversion Hstep as [? q' c f pc' Hq' Ht]; subst. rewrite Hq in Hq'. injection Hq' as <-.
    by eapply sender_step.
  - intros s s' k [Hws (q & Hq & Hqs)] Hstep. destruct (waits_step i k s s' Hws Hstep) as [Hws'|?]; [|by right; right].
    pose proof (waits_receivers i s Hws) as Hrec.
    inversion Hstep as [? q' c f pc' Hq' Ht]; subst. simpl in *. destruct (decide (j = k)) as [->|Hne].
    + right. left. split; [done|]. rewrite Hq in Hq'. injection Hq' as <-. by eapply sender_step.
    + left. split; [done|]. exists q. by rewrite list_lookup_insert_ne.
Qed.

Lemma signalled_step j s s' : signalled s -> step j s s' -> signalled s' \/ returned i s'.
Proof.
  intros [Hw Hv] Hs. destruct (waits_step i j s s' Hw Hs) as [?|?]; [left|by right]. split; [done|].
  destruct (step_inv j s s' (proj1 Hw) Hs) as [_ (_ & _ & Hg)]. by apply Hg.
Qed.

(** A signalled waiter returns, after one more look if it was waiting for a change. *)
Lemma signalled_returns a : signalled (sigma a) -> exists k, a <= k /\ returned i (sigma k).
Proof.
  intros Ha.
  assert (forall b v, signalled (sigma b) -> tasks (sigma b) !! i = Some (WaitReborrow v) ->
    exists k, b <= k /\ returned i (sigma k)) as Hlast.
  { intros b v Hb Hi.
    apply (fair_progress sigma i (fun s => signalled s /\ tasks s !! i = Some (WaitReborrow v))
      (returned i)); [done|done| | | |done].
    - intros s [[Hw Hv] Hs]. by eapply (signalled_waiter i s (WaitReborrow v)).
    - intros s s' [[Hw Hv] Hs] Hstep. by destruct (proj2 (signalled_waiter i s _ Hw Hv Hs eq_refl) s' Hstep)
        as [?|[[? [=]] _]].
    - intros s s' j [Hsig Hs] Hstep. destruct (signalled_step j s s' Hsig Hstep) as [?|?]; [|by right].
      destruct (decide (j = i)) as [->|Hne].
      + right. destruct Hsig as [Hw Hv]. by destruct (proj2 (signalled_waiter i s _ Hw Hv Hs eq_refl) s' Hstep)
          as [?|[[? [=]] _]].
      + left. split; [done|]. inversion Hstep; subst. simpl. by rewrite list_lookup_insert_ne. }
  destruct (fair_progress sigma i signalled
    (fun s => returned i s \/ signalled s /\ exists v, tasks s !! i = Some (WaitReborrow v)) a)
    as (b & Hb & [?|[Hs [v Hv]]]); [done|done| | | |done| |].
  - intros s [Hw Hv]. destruct (proj1 (proj2 Hw)) as (pc & Hi & Hreg).
    by eapply (signalled_waiter i s pc).
  - intros s s' Hs Hstep. destruct (signalled_step i s s' Hs Hstep) as [Hs'|?]; [|by left].
    destruct Hs as [Hw Hv]. destruct (proj1 (proj2 Hw)) as (pc & Hi & Hreg).
    destruct (proj2 (signalled_waiter i s pc Hw Hv Hi Hreg) s' Hstep) as [?|[_ ?]]; [by left|by right].
  - intros s s' j Hs Hstep. destruct (signalled_step j s s' Hs Hstep) as [?|?]; [by left|by right; left].
  - by exists b.
  - destruct (Hlast b v Hs Hv) as (k & ? & ?). exists k. split; [lia|done].
Qed.
End execution.

(** C35: A waiter that listens in time is woken.  In every fair execution, a task in
    [wait_ready] that is listening to the channel while the flag is not yet ready
    returns, if the flag ever turns ready: whoever turned it ready sends the value,
    no send is lost on a channel with a listener, and the waiter sees it whether it
    looks before or after the change.  (A task that has checked the flag and does
    not listen yet is not covered; see [wait_ready_can_miss_the_signal].) *)
Theorem listening_waiter_returns (n : nat) (sigma : nat -> State) (i a b : nat) (pc : Pc) :
  sigma 0 = init n -> execution sigma -> (forall j, fair sigma j) ->
  tasks (sigma a) !! i = Some pc -> registered pc = true -> ready (flag (sigma a)) = false ->
  a <= b -> ready (flag (sigma b)) = true ->
  exists k, a <= k /\ tasks (sigma k) !! i = Some (Done OWaited).
Proof.
  intros H0 Hexec Hfair Hi Hreg Hnr Hab Hready.
  assert (forall m, inv (sigma m)) as Hinv.
  { induction m as [|m IH]; [rewrite H0; apply init_inv|].
    destruct (Hexec m) as [->|[j Hs]]; [done|]. by apply (step_inv j (sigma m)). }
  assert (waits i (sigma a)) as Ha by (split; [done|split; [eauto|congruence]]).
  destruct (waits_until sigma i Hexec a (b - a) Ha) as [Hb|?]; [|done].
  replace (a + (b - a)) with b in Hb by lia.
  assert (exists k, b <= k /\ (signalled i (sigma k) \/ returned i (sigma k))) as (k & Hk & [Hs|?]).
  { destruct (proj2 (proj2 Hb) Hready) as [?|(j & q & Hj & Hq)]; [exists b; split; [lia|left; by split]|].
    by eapply sender_signals. }
  - destruct (signalled_returns sigma i Hexec Hfair k Hs) as (k' & ? & ?). exists k'. split; [lia|done].
  - exists k. split; [lia|done].
Qed.

(** ** Instances *)

Lemma run_app a b s : run (a ++ b) s = run a s ≫= run b.
Proof.
  revert s. induction a as [|[i c] a IH]; intros s; [done|]. simpl.
  destruct (tasks s !! i) as [pc|]; [|done]. simpl. destruct (task_step _ _ _) as [[f pc']|]; [|done].
  apply IH.
Qed.

Lemma run_step i c s s' : run [(i, c)] s = Some s' -> step i s s'.
Proof.
  simpl. destruct (tasks s !! i) as [pc|] eqn:Ei; simpl; [|done].
  destruct (task_step (flag s) pc c) as [[f pc']|] eqn:Et; simpl; [|done].
  intros [= <-]. by econstructor.
Qed.

(** The run of a schedule, idle at the end. *)
Definition scheduled (schedule : list (nat * Choice)) (s : State) (k : nat) : State :=
  default s (run (take k schedule) s).

Lemma scheduled_execution schedule s s' : run schedule s = Some s' -> execution (scheduled schedule s).
Proof.
  intros Hrun n. unfold scheduled. destruct (decide (n < length schedule)) as [Hn|Hn].
  2: { left. by rewrite !take_ge by lia. }
  right. destruct (lookup_lt_is_Some_2 _ _ Hn) as [[i c] Hic]. rewrite (take_S_r _ _ _ Hic), run_app.
  assert (exists t, run (take n schedule) s = Some t) as [t Ht].
  { rewrite <- (take_drop n schedule), run_app in Hrun.
    destruct (run (take n schedule) s) as [t|]; [by exists t|done]. }
  assert (exists t', run [(i, c)] t = Some t') as [t' Ht'].
  { rewrite <- (take_drop (S n) schedule), run_app, (take_S_r _ _ _ Hic), run_app, Ht in Hrun.
    cbn [mbind option_bind] in Hrun. destruct (run [(i, c)] t) as [t'|]; [by exists t'|done]. }
  rewrite Ht. cbn [mbind option_bind]. rewrite Ht'. simpl. exists i. by apply (run_step i c).
Qed.

Lemma scheduled_fair schedule s s' j :
  run schedule s = Some s' -> Forall (eq Idle) (tasks s') -> fair (scheduled schedule s) j.
Proof.
  intros Hrun Hidle n. exists (n + length schedule). split; [lia|]. left. unfold scheduled.
  rewrite take_ge, Hrun by lia. simpl. intros [Hne [t Ht]]. inversion Ht as [? pc c f pc' Hj _]; subst.
  apply (Forall_lookup_1 _ _ _ _ Hidle) in Hj as Hpc. by rewrite <- Hpc in Hj.
Qed.

(** Task 1 listens before task 0 sends. *)
Definition heard_schedule : list (nat * Choice) :=
  [(0, Call SubscribeLoad); (0, Proceed); (0, Proceed); (0, Proceed);
   (1, Call (IsReadyLoad true)); (1, Proceed); (1, Proceed); (1, Proceed); (1, Proceed); (1, Proceed);
   (0, Call (MarkLoad 1)); (0, Proceed); (0, Proceed); (0, Proceed); (0, Proceed);
   (1, Proceed); (1, Proceed); (1, Proceed)].

Lemma listening_waiter_returns_witness :
  exists k, 10 <= k /\ tasks (scheduled heard_schedule (init 2) k) !! 1 = Some (Done OWaited).
Proof.
  assert (exists s', run heard_schedule (init 2) = Some s') as [s' E] by (eexists; vm_compute; reflexivity).
  apply (listening_waiter_returns 2 (scheduled heard_schedule (init 2)) 1 10 20 (WaitChanged 0)).
  - reflexivity.
  - by eapply scheduled_execution.
  - intros j. eapply scheduled_fair; [exact E|]. vm_compute in E. injection E as <-. repeat constructor.
  - vm_compute. reflexivity.
  - reflexivity.
  - vm_compute. reflexivity.
  - lia.
  - vm_compute. reflexivity.
Defined.

Lemma readiness_is_authorized_witness :
  exists s s', reachable 2 s /\ step 0 s s' /\ ready (flag s) = false /\ ready (flag s') = true
    /\ exists t, tasks s !! 0 = Some (MarkLock t) /\ t ∈ tokens (flag s).
Proof.
  assert (exists s s', run (take 12 heard_schedule) (init 2) = Some s /\ run [(0, Proceed)] s = Some s'
    /\ ready (flag s) = false /\ ready (flag s') = true /\ tasks s !! 0 = Some (MarkLock 1))
    as (s & s' & Hb & Hs & Hn & Hr & Hm).
  { eexists _, _. split; [vm_compute; reflexivity|]. split; [vm_compute; reflexivity|].
    split; [reflexivity|]. split; reflexivity. }
  apply run_rtc in Hb. apply run_step in Hs. exists s, s'. split; [exact Hb|]. split; [exact Hs|].
  split; [exact Hn|]. split; [exact Hr|].
  destruct (proj1 (proj2 (readiness_is_authorized 2 s s' 0 Hb Hs)) Hn Hr)
    as [(w & Hw & _)|(t & Ht & _ & Hin)]; [|by exists t].
  rewrite Hm in Hw. discriminate.
Defined.

(** A flag on which no token was ever given out turns ready when it is asked. *)
Theorem ready_without_any_mark :
  exists s, reachable 1 s /\ ready (flag s) = true /\ tasks s !! 0 = Some (answer false true)
    /\ next_id (flag s) = next_id flag_new.
Proof.
  assert (exists s, run [(0, Call (IsReadyLoad false)); (0, Proceed); (0, Proceed); (0, Proceed)] (init 1) = Some s
    /\ ready (flag s) = true /\ tasks s !! 0 = Some (answer false true) /\ next_id (flag s) = next_id flag_new)
    as (s & Hrun & H) by (eexists; split; [vm_compute; reflexivity|split_and!; reflexivity]).
  exists s. split; [by apply run_rtc in Hrun|exact H].
Qed.
