(* ===== verification/AgentRegistry.v ===== *)
(** * Agents of a session (core/src/agent/registry.rs, mailbox.rs;
      protocol/src/agent_path.rs)

    The tree of agents with its limit on spawned threads, the reservations of
    slots, paths and nicknames, and the mailbox between agents.  A thread id is
    its text.  The random choice of a nickname is an argument.  Each operation
    that takes the lock is one step; the counter is updated in a step of its own,
    as in the code. *)

From S2P Require Import Prelude RustStr AbsolutePath.

(** ** Paths of agents *)

Module AgentPath.
Definition ROOT : str := L"/root".
Definition MORPHEUS : str := L"/morpheus".
Definition ROOT_SEGMENT : str := L"root".

Definition name_char (c : char) : bool :=
  ((97 <=? c) && (c <=? 122))%N || is_ascii_digit c || (c =? 95)%N.

Definition validate_agent_name (agent_name : str) : result str unit :=
  if is_nil agent_name then Err (L"agent_name must not be empty")
  else if str_eqb agent_name ROOT_SEGMENT then Err (L"agent_name `root` is reserved")
  else if str_eqb agent_name (L".") || str_eqb agent_name (L"..")
  then Err (L"agent_name `" ++ agent_name ++ L"` is reserved")
  else if contains_char SLASH agent_name then Err (L"agent_name must not contain `/`")
  else if negb (forallb name_char agent_name)
  then Err (L"agent_name must use only lowercase letters, digits, and underscores")
  else Ok tt.

Definition validate_names (segments : list str) : result str unit :=
  let? _ := traverse validate_agent_name segments in Ok tt.

Definition bad_start : str := L"absolute agent paths must start with `/root` or be `/morpheus`".

Definition validate_absolute_path (path : str) : result str unit :=
  if str_eqb path MORPHEUS then Ok tt
  else
    match strip_prefix [SLASH] path with
    | None => Err bad_start
    | Some stripped =>
        match split_char SLASH stripped with
        | [] => Err (L"absolute agent path must not be empty")
        | root :: segments =>
            if negb (str_eqb root ROOT_SEGMENT) then Err bad_start
            else if ends_with [SLASH] stripped
            then Err (L"absolute agent path must not end with `/`")
            else validate_names segments
        end
    end.

Definition validate_relative_reference (reference : str) : result str unit :=
  if ends_with [SLASH] reference then Err (L"relative agent path must not end with `/`")
  else validate_names (split_char SLASH reference).

Definition from_string (path : str) : result str str :=
  let? _ := validate_absolute_path path in Ok path.

Definition is_root (path : str) : bool := str_eqb path ROOT.

Definition name (path : str) : str :=
  if is_root path then ROOT_SEGMENT
  else match last (split_char SLASH path) with
       | Some segment => if is_nil segment then ROOT_SEGMENT else segment
       | None => ROOT_SEGMENT
       end.

Definition join (path agent_name : str) : result str str :=
  let? _ := validate_agent_name agent_name in
  from_string (path ++ SLASH :: agent_name).

Definition resolve (path reference : str) : result str str :=
  if is_nil reference then Err (L"agent path must not be empty")
  else if str_eqb reference ROOT then Ok ROOT
  else if starts_with [SLASH] reference then from_string reference
  else
    let? _ := validate_relative_reference reference in
    from_string (path ++ SLASH :: reference).
End AgentPath.

(** ** The registry *)

Record AgentMetadata := mkAgent {
  agent_id : option str;
  agent_path : option str;
  agent_nickname : option str;
  agent_role : option str;
  last_task_message : option str }.

Definition no_agent : AgentMetadata := mkAgent None None None None None.

Definition format_agent_nickname (name : str) (nickname_reset_count : nat) : str :=
  match nickname_reset_count with
  | 0 => name
  | reset_count =>
      let value := reset_count + 1 in
      let suffix :=
        if (11 <=? value mod 100) && (value mod 100 <=? 13) then L"th"
        else match value mod 10 with
             | 1 => L"st" | 2 => L"nd" | 3 => L"rd" | _ => L"th"
             end in
      name ++ L" the " ++ show_nat value ++ suffix
  end.

(** [i32::saturating_add(1)]. *)
Definition next_thread_spawn_depth (depth : Z) : Z := Z.min (depth + 1) (2 ^ 31 - 1).
Definition exceeds_thread_spawn_depth_limit (depth max_depth : Z) : bool := (max_depth <? depth)%Z.

Record Reservation := mkReservation {
  reserved_agent_nickname : option str;
  reserved_agent_path : option str }.

(** The registry with its active reservations; [owed] counts the decrements of the
    counter that are due. *)
Record Registry := mkRegistry {
  agent_tree : gmap str AgentMetadata;
  used_agent_nicknames : gset str;
  nickname_reset_count : nat;
  total_count : Z;
  reservations : gmap nat Reservation;
  owed : nat }.

Definition registry_new : Registry := mkRegistry ∅ ∅ 0 0 ∅ 0.

Definition usize_wrap (z : Z) : Z := z mod 2 ^ 64.

Definition with_tree (r : Registry) (tree : gmap str AgentMetadata) : Registry :=
  mkRegistry tree (used_agent_nicknames r) (nickname_reset_count r) (total_count r)
    (reservations r) (owed r).
Definition with_reservations (r : Registry) (rs : gmap nat Reservation) : Registry :=
  mkRegistry (agent_tree r) (used_agent_nicknames r) (nickname_reset_count r) (total_count r)
    rs (owed r).
Definition owe (r : Registry) : Registry :=
  mkRegistry (agent_tree r) (used_agent_nicknames r) (nickname_reset_count r) (total_count r)
    (reservations r) (S (owed r)).

(** [total_count.fetch_add(1)] and the loop of [try_increment_spawned], which
    succeeds exactly when the count it replaces is below the limit. *)
Definition increment (r : Registry) : Registry :=
  mkRegistry (agent_tree r) (used_agent_nicknames r) (nickname_reset_count r)
    (usize_wrap (total_count r + 1)) (reservations r) (owed r).
Definition try_increment_spawned (r : Registry) (max_threads : Z) : option Registry :=
  if (max_threads <=? total_count r)%Z then None else Some (increment r).

(** [total_count.fetch_sub(1)] of a release or of a dropped reservation. *)
Definition settle (r : Registry) : Registry :=
  mkRegistry (agent_tree r) (used_agent_nicknames r) (nickname_reset_count r)
    (usize_wrap (total_count r - 1)) (reservations r) (pred (owed r)).

(** A new reservation under an unused number; [None] is [AgentLimitReached]. *)
Definition reserve_spawn_slot (r : Registry) (max_threads : option Z) (id : nat) : option Registry :=
  r ← match max_threads with
      | Some max_threads => try_increment_spawned r max_threads
      | None => Some (increment r)
      end;
  Some (with_reservations r (<[id := mkReservation None None]> (reservations r))).

Definition is_root_agent (m : AgentMetadata) : bool :=
  match agent_path m with Some p => AgentPath.is_root p | None => false end.

Definition has_id (thread_id : str) (m : AgentMetadata) : bool :=
  bool_decide (agent_id m = Some thread_id).

Definition release_spawned_thread (r : Registry) (thread_id : str) : Registry :=
  match find (fun e : str * AgentMetadata => has_id thread_id e.2) (map_to_list (agent_tree r)) with
  | Some (key, metadata) =>
      let r := with_tree r (delete key (agent_tree r)) in
      if is_root_agent metadata then r else owe r
  | None => r
  end.

Definition register_root_thread (r : Registry) (thread_id : str) : Registry :=
  match agent_tree r !! AgentPath.ROOT with
  | Some _ => r
  | None =>
      with_tree r (<[AgentPath.ROOT :=
        mkAgent (Some thread_id) (Some AgentPath.ROOT) None None None]> (agent_tree r))
  end.

Definition agent_id_for_path (r : Registry) (path : str) : option str :=
  metadata ← agent_tree r !! path; agent_id metadata.

Definition live_agents (r : Registry) : list AgentMetadata :=
  filter (fun m => is_Some (agent_id m) /\ is_root_agent m = false)
    (snd <$> map_to_list (agent_tree r)).

Definition update_last_task_message (r : Registry) (thread_id message : str) : Registry :=
  match find (fun e : str * AgentMetadata => has_id thread_id e.2) (map_to_list (agent_tree r)) with
  | Some (key, m) =>
      with_tree r (<[key := mkAgent (agent_id m) (agent_path m) (agent_nickname m) (agent_role m)
                              (Some message)]> (agent_tree r))
  | None => r
  end.

Definition thread_key (thread_id : str) : str := L"thread:" ++ thread_id.
Definition agent_key (path : option str) (thread_id : str) : str := default (thread_key thread_id) path.

Definition insert_nickname (r : Registry) (nickname : option str) : Registry :=
  match nickname with
  | Some n => mkRegistry (agent_tree r) ({[ n ]} ∪ used_agent_nicknames r) (nickname_reset_count r)
                (total_count r) (reservations r) (owed r)
  | None => r
  end.

Definition register_spawned_thread (r : Registry) (m : AgentMetadata) : Registry :=
  match agent_id m with
  | None => r
  | Some thread_id =>
      let r := insert_nickname r (agent_nickname m) in
      with_tree r (<[agent_key (agent_path m) thread_id := m]> (agent_tree r))
  end.

Definition reserve_agent_path (r : Registry) (path : str) : option Registry :=
  match agent_tree r !! path with
  | Some _ => None
  | None => Some (with_tree r (<[path := mkAgent None (Some path) None None None]> (agent_tree r)))
  end.

Definition release_reserved_agent_path (r : Registry) (path : str) : Registry :=
  match agent_tree r !! path with
  | Some m => if bool_decide (agent_id m = None) then with_tree r (delete path (agent_tree r)) else r
  | None => r
  end.

Section nicknames.
(** [choose] on a slice: an element of it, if it has one. *)
Context (choose : list str -> option str).

Definition reserve_agent_nickname (r : Registry) (names : list str) (preferred : option str)
  : option (str * Registry) :=
  match preferred with
  | Some preferred => Some (preferred, insert_nickname r (Some preferred))
  | None =>
      if is_nil names then None
      else
        let available_names :=
          filter (fun n => n ∉ used_agent_nicknames r)
            ((fun n => format_agent_nickname n (nickname_reset_count r)) <$> names) in
        match choose available_names with
        | Some n => Some (n, insert_nickname r (Some n))
        | None =>
            let r := mkRegistry (agent_tree r) ∅ (S (nickname_reset_count r)) (total_count r)
                       (reservations r) (owed r) in
            picked ← choose names;
            let n := format_agent_nickname picked (nickname_reset_count r) in
            Some (n, insert_nickname r (Some n))
        end
  end.

(** The operations of a reservation. *)
Definition reservation_nickname (r : Registry) (id : nat) (names : list str) (preferred : option str)
  : option (str * Registry) :=
  res ← reservations r !! id;
  '(n, r) ← reserve_agent_nickname r names preferred;
  Some (n, with_reservations r
             (<[id := mkReservation (Some n) (reserved_agent_path res)]> (reservations r))).
End nicknames.

Definition reservation_path (r : Registry) (id : nat) (path : str) : option Registry :=
  res ← reservations r !! id;
  r ← reserve_agent_path r path;
  Some (with_reservations r
          (<[id := mkReservation (reserved_agent_nickname res) (Some path)]> (reservations r))).

Definition commit (r : Registry) (id : nat) (m : AgentMetadata) : Registry :=
  let r := register_spawned_thread r m in
  with_reservations r (delete id (reservations r)).

(** Dropping an active reservation. *)
Definition drop_reservation (r : Registry) (id : nat) : Registry :=
  match reservations r !! id with
  | Some res =>
      let r := match reserved_agent_path res with
               | Some path => release_reserved_agent_path r path
               | None => r
               end in
      owe (with_reservations r (delete id (reservations r)))
  | None => r
  end.

(** ** The mailbox *)

Section mailbox.
Context {Mail : Type} (trigger_turn : Mail -> bool).

Record Mailbox := mkMailbox {
  queue : list Mail;
  pending_mails : list Mail;
  next_seq : Z;
  seq : Z }.

Definition mailbox_new : Mailbox := mkMailbox [] [] 0 0.

Definition send (b : Mailbox) (mail : Mail) : Mailbox * Z :=
  let seq := usize_wrap (next_seq b + 1) in
  (mkMailbox (queue b ++ [mail]) (pending_mails b) (usize_wrap (next_seq b + 1)) seq, seq).

Definition sync_pending_mails (b : Mailbox) : Mailbox :=
  mkMailbox [] (pending_mails b ++ queue b) (next_seq b) (seq b).

Definition has_pending (b : Mailbox) : Mailbox * bool :=
  let b := sync_pending_mails b in (b, negb (is_nil (pending_mails b))).
Definition has_pending_trigger_turn (b : Mailbox) : Mailbox * bool :=
  let b := sync_pending_mails b in (b, existsb trigger_turn (pending_mails b)).
Definition drain (b : Mailbox) : Mailbox * list Mail :=
  let b := sync_pending_mails b in
  (mkMailbox [] [] (next_seq b) (seq b), pending_mails b).
End mailbox.

(** ** The life of a registry *)

(** No agent has the id. *)
Definition fresh_id (r : Registry) (thread_id : str) : Prop :=
  forall k m, agent_tree r !! k = Some m -> agent_id m <> Some thread_id.

(** What the control of agents does with a registry (control.rs): a reservation gets
    at most one path, which is the path of an agent below the root; it is committed
    with that path and the id of a thread, or dropped.  A spawned agent is a new thread,
    but a resumed one keeps its id, and nothing checks that the registry has no entry
    for it; [fresh] says whether only ids without an entry are registered. *)
Inductive act (fresh : bool) (limit : option Z) (choose : list str -> option str) : Registry -> Registry -> Prop :=
| act_reserve r r' id :
    reservations r !! id = None -> reserve_spawn_slot r limit id = Some r' -> act fresh limit choose r r'
| act_path r r' id res path :
    reservations r !! id = Some res -> reserved_agent_path res = None ->
    AgentPath.from_string path = Ok path -> path <> AgentPath.ROOT ->
    reservation_path r id path = Some r' -> act fresh limit choose r r'
| act_nickname r r' id names preferred n :
    reservation_nickname choose r id names preferred = Some (n, r') -> act fresh limit choose r r'
| act_commit r id res m thread_id :
    reservations r !! id = Some res -> agent_path m = reserved_agent_path res ->
    agent_id m = Some thread_id -> (fresh = true -> fresh_id r thread_id) ->
    act fresh limit choose r (commit r id m)
| act_drop r id : act fresh limit choose r (drop_reservation r id)
| act_release r thread_id : act fresh limit choose r (release_spawned_thread r thread_id)
| act_settle r : 0 < owed r -> act fresh limit choose r (settle r)
| act_root r thread_id :
    (fresh = true -> fresh_id r thread_id) -> act fresh limit choose r (register_root_thread r thread_id)
| act_message r thread_id message :
    act fresh limit choose r (update_last_task_message r thread_id message).

(** An agent that holds a slot. *)
Definition counted (m : AgentMetadata) : bool :=
  match agent_id m with Some _ => negb (is_root_agent m) | None => false end.
Definition count_tree (tree : gmap str AgentMetadata) : nat :=
  size (filter (fun e : str * AgentMetadata => counted e.2 = true) tree).

(** The slots in use. *)
Definition slots (r : Registry) : nat := size (reservations r) + count_tree (agent_tree r) + owed r.

Definition entry_ok (k : str) (m : AgentMetadata) : Prop :=
  (forall p, agent_path m = Some p -> exists rest, p = SLASH :: rest)
  /\ match agent_id m with
     | Some t => k = agent_key (agent_path m) t
     | None => agent_path m = Some k
     end.

Section steps.
Context (fresh : bool).

(** [lost] slots are counted that no entry, reservation or due decrement holds any more. *)
Record registry_ok (lost : nat) (r : Registry) : Prop := {
  count_exact : total_count r = usize_wrap (Z.of_nat (slots r + lost));
  entries_ok : forall k m, agent_tree r !! k = Some m -> entry_ok k m;
  ids_unique : fresh = true -> forall k1 k2 m1 m2 t, agent_tree r !! k1 = Some m1 -> agent_tree r !! k2 = Some m2 ->
    agent_id m1 = Some t -> agent_id m2 = Some t -> k1 = k2;
  reserved_ok : forall id res p, reservations r !! id = Some res -> reserved_agent_path res = Some p ->
    p <> AgentPath.ROOT /\ exists m, agent_tree r !! p = Some m /\ agent_id m = None;
  reserved_unique : forall i j ri rj p, reservations r !! i = Some ri -> reservations r !! j = Some rj ->
    reserved_agent_path ri = Some p -> reserved_agent_path rj = Some p -> i = j }.

(** ** Counting *)

Lemma count_tree_insert tree k m :
  count_tree (<[k := m]> tree)
    + match tree !! k with Some old => Nat.b2n (counted old) | None => 0 end
  = count_tree tree + Nat.b2n (counted m).
Proof.
  unfold count_tree. set (P := fun e : str * AgentMetadata => counted e.2 = true).
  assert (filter P (<[k := m]> tree) = if counted m then <[k := m]> (filter P tree)
    else filter P (delete k tree)) as ->.
  { unfold P. destruct (counted m) eqn:E.
    - by rewrite map_filter_insert_True.
    - by rewrite map_filter_insert_False by (simpl; congruence). }
  assert (filter P tree !! k = match tree !! k with Some old => if counted old then Some old else None
    | None => None end) as Hk.
  { rewrite map_lookup_filter. destruct (tree !! k) as [old|]; [|done]. simpl. unfold P. simpl.
    case_guard; destruct (counted old); simpl; congruence. }
  destruct (counted m); simpl.
  - destruct (tree !! k) as [old|]; [destruct (counted old)|]; simpl.
    + rewrite map_size_insert_Some by (rewrite Hk; eauto). lia.
    + rewrite map_size_insert_None by done. lia.
    + rewrite map_size_insert_None by done. lia.
  - rewrite map_filter_delete. destruct (tree !! k) as [old|]; [destruct (counted old)|]; simpl.
    + rewrite map_size_delete_Some by (rewrite Hk; eauto).
      assert (0 < size (filter P tree)); [|lia].
      apply Nat.neq_0_lt_0. intros H%map_size_empty_inv. by rewrite H, lookup_empty in Hk.
    + rewrite map_size_delete_None by done. lia.
    + rewrite map_size_delete_None by done. lia.
Qed.

Lemma count_tree_delete tree k m :
  tree !! k = Some m -> count_tree (delete k tree) + Nat.b2n (counted m) = count_tree tree.
Proof.
  intros Hk. pose proof (count_tree_insert (delete k tree) k m) as H.
  rewrite lookup_delete_eq, insert_delete_id in H by done. lia.
Qed.

Lemma usize_wrap_add a b : usize_wrap (usize_wrap a + b) = usize_wrap (a + b).
Proof. unfold usize_wrap. apply Zplus_mod_idemp_l. Qed.

(** ** Every step keeps the registry well formed *)

(** The tree and the reservations of a registry, without its counter. *)
Record shape_ok (tree : gmap str AgentMetadata) (rs : gmap nat Reservation) : Prop := {
  sh_entries : forall k m, tree !! k = Some m -> entry_ok k m;
  sh_ids : fresh = true -> forall k1 k2 m1 m2 t, tree !! k1 = Some m1 -> tree !! k2 = Some m2 ->
    agent_id m1 = Some t -> agent_id m2 = Some t -> k1 = k2;
  sh_reserved : forall id res p, rs !! id = Some res -> reserved_agent_path res = Some p ->
    p <> AgentPath.ROOT /\ exists m, tree !! p = Some m /\ agent_id m = None;
  sh_unique : forall i j ri rj p, rs !! i = Some ri -> rs !! j = Some rj ->
    reserved_agent_path ri = Some p -> reserved_agent_path rj = Some p -> i = j }.

Lemma registry_ok_shape lost r :
  registry_ok lost r <->
  total_count r = usize_wrap (Z.of_nat (slots r + lost)) /\ shape_ok (agent_tree r) (reservations r).
Proof. split; [intros []; split; [done|by constructor]|]. intros [? []]. by constructor. Qed.

(** Changing an entry that is no reserved path. *)
Lemma shape_insert tree rs k m :
  shape_ok tree rs -> entry_ok k m ->
  (fresh = true -> forall k' m' t, tree !! k' = Some m' -> agent_id m = Some t -> agent_id m' = Some t -> k' = k) ->
  (forall id res, rs !! id = Some res -> reserved_agent_path res <> Some k) ->
  shape_ok (<[k := m]> tree) rs.
Proof.
  intros [H1 H2 H3 H4] Hm Hfresh Hres. constructor; [| | |done].
  - intros k' m' [[<- <-]|[_ ?]]%lookup_insert_Some; auto.
  - intros Hf k1 k2 m1 m2 t [[<- <-]|[? ?]]%lookup_insert_Some [[<- <-]|[? ?]]%lookup_insert_Some ? ?; eauto.
    symmetry. eauto.
  - intros id res p Hid Hp. destruct (H3 id res p Hid Hp) as (Hne & m' & Hm' & ?). split; [done|].
    exists m'. rewrite lookup_insert_ne; [done|]. intros <-. by apply (Hres id res).
Qed.

Lemma shape_delete tree rs k :
  shape_ok tree rs -> (forall id res, rs !! id = Some res -> reserved_agent_path res <> Some k) ->
  shape_ok (delete k tree) rs.
Proof.
  intros [H1 H2 H3 H4] Hres. constructor; [| | |done].
  - intros k' m' [_ ?]%lookup_delete_Some. auto.
  - intros Hf k1 k2 m1 m2 t [_ ?]%lookup_delete_Some [_ ?]%lookup_delete_Some. eauto.
  - intros id res p Hid Hp. destruct (H3 id res p Hid Hp) as (Hne & m' & Hm' & ?). split; [done|].
    exists m'. rewrite lookup_delete_ne; [done|]. intros <-. by apply (Hres id res).
Qed.

Lemma shape_drop tree rs id : shape_ok tree rs -> shape_ok tree (delete id rs).
Proof.
  intros [H1 H2 H3 H4]. constructor; [done|done| |].
  - intros i res p [_ Hi]%lookup_delete_Some. eauto.
  - intros i j ri rj p [_ ?]%lookup_delete_Some [_ ?]%lookup_delete_Some. eauto.
Qed.

(** A new reservation, or the same with another nickname. *)
Lemma shape_reservation tree rs id res :
  shape_ok tree rs ->
  (forall p, reserved_agent_path res = Some p ->
     exists old, rs !! id = Some old /\ reserved_agent_path old = Some p) ->
  shape_ok tree (<[id := res]> rs).
Proof.
  intros [H1 H2 H3 H4] Hold. constructor; [done|done| |].
  - intros i ri p [[<- <-]|[_ ?]]%lookup_insert_Some Hp; [|eauto]. destruct (Hold p Hp) as (old & ? & ?). eauto.
  - intros i j ri rj p [[<- <-]|[? ?]]%lookup_insert_Some [[<- <-]|[? ?]]%lookup_insert_Some Hi Hj; eauto.
    + destruct (Hold p Hi) as (old & ? & ?). eauto.
    + destruct (Hold p Hj) as (old & ? & ?). eauto.
Qed.

Lemma thread_key_inj a b : thread_key a = thread_key b -> a = b.
Proof. unfold thread_key. apply app_inv_head. Qed.

Lemma find_elem {A} (f : A -> bool) l x : find f l = Some x -> x ∈ l /\ f x = true.
Proof. intros [H ?]%find_some. by apply list_elem_of_In in H. Qed.

Lemma find_agent tree t k m :
  find (fun e : str * AgentMetadata => has_id t e.2) (map_to_list tree) = Some (k, m) ->
  tree !! k = Some m /\ agent_id m = Some t.
Proof. intros [H ?%bool_decide_eq_true]%find_elem. by apply elem_of_map_to_list in H. Qed.

(** An entry with an id is not a reserved one. *)
Lemma live_not_reserved tree rs k m t :
  shape_ok tree rs -> tree !! k = Some m -> agent_id m = Some t ->
  forall id res, rs !! id = Some res -> reserved_agent_path res <> Some k.
Proof.
  intros Hs Hk Ht id res Hid Hp. destruct (sh_reserved _ _ Hs id res k Hid Hp) as (_ & m' & Hm' & Hn).
  congruence.
Qed.

Lemma from_string_slash path : AgentPath.from_string path = Ok path -> exists rest, path = SLASH :: rest.
Proof.
  unfold AgentPath.from_string, AgentPath.validate_absolute_path. case_goal.
  { apply bool_decide_eq_true_1 in E as ->. by eexists. }
  destruct (strip_prefix [SLASH] path) as [rest|] eqn:E0; [|done].
  intros _. exists rest. by apply strip_prefix_Some in E0.
Qed.

(** The path a reservation takes. *)
Lemma shape_path tree rs id res path :
  shape_ok tree rs -> rs !! id = Some res -> reserved_agent_path res = None ->
  AgentPath.from_string path = Ok path -> path <> AgentPath.ROOT -> tree !! path = None ->
  shape_ok (<[path := mkAgent None (Some path) None None None]> tree)
    (<[id := mkReservation (reserved_agent_nickname res) (Some path)]> rs).
Proof.
  intros Hs Hid Hres Hpath Hroot Hnone.
  assert (forall i ri, rs !! i = Some ri -> reserved_agent_path ri <> Some path) as Hno.
  { intros i ri Hi Hp. destruct (sh_reserved _ _ Hs i ri path Hi Hp) as (_ & m & Hm & _). congruence. }
  assert (shape_ok (<[path := mkAgent None (Some path) None None None]> tree) rs) as [H1 H2 H3 H4].
  { apply shape_insert; [done| |done|done]. split; [|done]. intros p [= <-]. by apply from_string_slash. }
  constructor; [done|done| |].
  - intros i ri p [[<- <-]|[_ ?]]%lookup_insert_Some Hp; [|eauto]. simpl in Hp. injection Hp as <-.
    split; [done|]. eexists. by rewrite lookup_insert_eq.
  - intros i j ri rj p [[<- <-]|[? ?]]%lookup_insert_Some [[<- <-]|[? ?]]%lookup_insert_Some Hi Hj; eauto;
      simpl in *; exfalso; [injection Hi as <-; by apply (Hno j rj)|injection Hj as <-; by apply (Hno i ri)].
Qed.

(** The key of a committed agent: its own reserved path, or a new one. *)
Lemma commit_key tree rs id res m t :
  shape_ok tree rs -> rs !! id = Some res -> agent_path m = reserved_agent_path res ->
  agent_id m = Some t ->
  let key := agent_key (agent_path m) t in
  counted m = true
  /\ ((forall k m', tree !! k = Some m' -> agent_id m' <> Some t) ->
      match tree !! key with Some old => counted old = false | None => True end)
  /\ entry_ok key m
  /\ forall i ri, delete id rs !! i = Some ri -> reserved_agent_path ri <> Some key.
Proof.
  intros Hs Hid Hpath Ht key. unfold counted, is_root_agent, entry_ok. rewrite Ht.
  destruct (agent_path m) as [p|] eqn:Ep; symmetry in Hpath; simpl in key.
  - destruct (sh_reserved _ _ Hs id res p Hid Hpath) as (Hroot & old & Hold & Hno).
    pose proof (sh_entries _ _ Hs p old Hold) as [Hslash Hkey]. rewrite Hno in Hkey.
    split_and!; [|intros _; unfold key; rewrite Hold; by rewrite Hno|by intros ? [= <-]; apply Hslash|done|].
    + unfold AgentPath.is_root, str_eqb. by rewrite bool_decide_false.
    + intros i ri [Hne Hi]%lookup_delete_Some Hp. apply Hne.
      by eapply (sh_unique _ _ Hs id i res ri p).
  - assert (forall p, Some p = Some key -> exists c, c <> SLASH /\ exists rest, p = c :: rest) as Hcol.
    { intros p [= ->]. exists 116%N. split; [done|]. by eexists. }
    split_and!; [done| |done|done|].
    + intros Hfresh. destruct (tree !! key) as [old|] eqn:E; [exfalso|done].
      destruct (sh_entries _ _ Hs key old E) as [Hslash Hkey].
      destruct (agent_path old) as [q|] eqn:Eq.
      * assert (q = key) as -> by (destruct (agent_id old); [done|by injection Hkey]).
        destruct (Hslash key eq_refl) as [rest Hr]. destruct (Hcol key eq_refl) as (c & Hc & rest' & Hr').
        congruence.
      * destruct (agent_id old) as [t'|] eqn:Et; [|done]. simpl in Hkey. apply thread_key_inj in Hkey as <-.
        by apply (Hfresh key old).
    + intros i ri [_ Hi]%lookup_delete_Some Hp.
      destruct (sh_reserved _ _ Hs i ri key Hi Hp) as (_ & old & Hold & Hno).
      destruct (sh_entries _ _ Hs key old Hold) as [Hslash Hkey]. rewrite Hno in Hkey.
      destruct (Hslash key Hkey) as [rest Hr]. destruct (Hcol key eq_refl) as (c & Hc & rest' & Hr'). congruence.
Qed.

Lemma insert_nickname_parts r n :
  agent_tree (insert_nickname r n) = agent_tree r /\ reservations (insert_nickname r n) = reservations r
  /\ owed (insert_nickname r n) = owed r /\ total_count (insert_nickname r n) = total_count r.
Proof. by destruct n. Qed.

(** Committing under a key that a live agent has loses the slot of that agent. *)
Lemma commit_ok lost r id res m t :
  registry_ok lost r -> reservations r !! id = Some res -> agent_path m = reserved_agent_path res ->
  agent_id m = Some t -> (fresh = true -> fresh_id r t) ->
  exists lost', registry_ok lost' (commit r id m) /\ slots (commit r id m) + lost' = slots r + lost
    /\ (fresh = true -> lost' = lost).
Proof.
  rewrite registry_ok_shape. intros [Hc Hs] Hid Hpath Ht Hfresh.
  destruct (commit_key _ _ id res m t Hs Hid Hpath Ht) as (Hcm & Hold & Hentry & Hres).
  unfold commit, register_spawned_thread. rewrite Ht.
  destruct (insert_nickname_parts r (agent_nickname m)) as (-> & E2 & E3 & E4).
  set (key := agent_key (agent_path m) t) in *. set (tree := <[key := m]> (agent_tree r)).
  set (r' := with_reservations _ _).
  set (lost' := lost + match agent_tree r !! key with Some old => Nat.b2n (counted old) | None => 0 end).
  assert (slots r' + lost' = slots r + lost) as Hsl.
  { unfold slots, r', lost'. simpl. rewrite E2, E3, map_size_delete_Some by eauto.
    pose proof (count_tree_insert (agent_tree r) key m) as H. rewrite Hcm in H. fold tree in H. simpl in H.
    assert (0 < size (reservations r)); [|lia].
    apply Nat.neq_0_lt_0. intros H0%map_size_empty_inv. by rewrite H0, lookup_empty in Hid. }
  exists lost'. rewrite registry_ok_shape. split_and!; [by rewrite Hsl; unfold r'; simpl; rewrite E4| |done|].
  - unfold r'. simpl. rewrite E2. apply shape_insert; [by apply shape_drop|done| |done].
    intros Hf k' m' t' Hk' Ht' Hm'. rewrite Ht in Ht'. injection Ht' as <-. by destruct (Hfresh Hf k' m').
  - intros Hf. specialize (Hold (Hfresh Hf)). unfold lost'. destruct (agent_tree r !! key); [rewrite Hold|]; simpl; lia.
Qed.

Lemma drop_ok lost r id :
  registry_ok lost r -> registry_ok lost (drop_reservation r id) /\ slots (drop_reservation r id) = slots r.
Proof.
  intros Hok. unfold drop_reservation. destruct (reservations r !! id) as [res|] eqn:Hid; [|done].
  revert Hok. rewrite !registry_ok_shape. intros [Hc Hs].
  assert (0 < size (reservations r)).
  { apply Nat.neq_0_lt_0. intros H0%map_size_empty_inv. by rewrite H0, lookup_empty in Hid. }
  destruct (reserved_agent_path res) as [p|] eqn:Ep.
  - destruct (sh_reserved _ _ Hs id res p Hid Ep) as (_ & m & Hm & Hno).
    unfold release_reserved_agent_path. rewrite Hm, bool_decide_true by done. unfold slots. simpl.
    pose proof (count_tree_delete _ _ _ Hm) as Hd. assert (counted m = false) as Hcm by (unfold counted; by rewrite Hno).
    rewrite Hcm in Hd. simpl in Hd. rewrite map_size_delete_Some by eauto.
    split; [|lia]. split; [rewrite Hc; f_equal; unfold slots; lia|].
    apply shape_delete; [by apply shape_drop|]. intros i ri [Hne Hi]%lookup_delete_Some Hp.
    apply Hne. by eapply (sh_unique _ _ Hs id i res ri p).
  - unfold slots. simpl. rewrite map_size_delete_Some by eauto. split; [|lia].
    split; [rewrite Hc; f_equal; unfold slots; lia|]. by apply shape_drop.
Qed.

Lemma release_ok lost r t :
  registry_ok lost r -> registry_ok lost (release_spawned_thread r t) /\ slots (release_spawned_thread r t) = slots r.
Proof.
  intros Hok. unfold release_spawned_thread. destruct (find _ _) as [[k m]|] eqn:E; [|done].
  apply find_agent in E as [Hk Ht]. revert Hok. rewrite !registry_ok_shape. intros [Hc Hs].
  pose proof (count_tree_delete _ _ _ Hk) as Hd. unfold counted in Hd. rewrite Ht in Hd.
  pose proof (shape_delete _ _ k Hs (live_not_reserved _ _ k m t Hs Hk Ht)) as Hsd.
  destruct (is_root_agent m); simpl in Hd; unfold slots; simpl; (split; [split; [|done]|lia]);
    rewrite Hc; f_equal; unfold slots; lia.
Qed.

Lemma message_ok lost r t message :
  registry_ok lost r -> registry_ok lost (update_last_task_message r t message)
  /\ slots (update_last_task_message r t message) = slots r.
Proof.
  intros Hok. unfold update_last_task_message. destruct (find _ _) as [[k m]|] eqn:E; [|done].
  apply find_agent in E as [Hk Ht]. revert Hok. rewrite !registry_ok_shape. intros [Hc Hs].
  set (m' := mkAgent _ _ _ _ _).
  pose proof (count_tree_insert (agent_tree r) k m') as Hi. rewrite Hk in Hi.
  assert (counted m' = counted m) as Hcm by done. rewrite Hcm in Hi. unfold slots. simpl.
  split; [split|lia]; [rewrite Hc; f_equal; unfold slots; lia|]. apply shape_insert; [done| | |].
  - by apply (sh_entries _ _ Hs) in Hk.
  - intros Hf k' m'' t' Hk' Ht' Hm''. simpl in Ht'. by eapply (sh_ids _ _ Hs Hf k' k m'' m t').
  - by apply (live_not_reserved _ _ k m t Hs Hk Ht).
Qed.

Lemma root_path_ok lost r t :
  registry_ok lost r -> (fresh = true -> fresh_id r t) ->
  registry_ok lost (register_root_thread r t) /\ slots (register_root_thread r t) = slots r.
Proof.
  intros Hok Hfresh. unfold register_root_thread.
  destruct (agent_tree r !! AgentPath.ROOT) eqn:E; [done|].
  revert Hok. rewrite !registry_ok_shape. intros [Hc Hs]. set (m := mkAgent _ _ _ _ _).
  pose proof (count_tree_insert (agent_tree r) AgentPath.ROOT m) as Hi. rewrite E in Hi.
  assert (counted m = false) as Hcm by (vm_compute; done). rewrite Hcm in Hi. simpl in Hi. unfold slots. simpl.
  split; [split|lia]; [rewrite Hc; f_equal; unfold slots; lia|]. apply shape_insert; [done| | |].
  - split; [|done]. intros p [= <-]. by eexists.
  - intros Hf k' m' t' Hk' [= <-] Hm'. by destruct (Hfresh Hf k' m').
  - intros i ri Hi' Hp. by destruct (sh_reserved _ _ Hs i ri _ Hi' Hp) as [? _].
Qed.

Lemma reservation_path_ok lost r r' id res path :
  registry_ok lost r -> reservations r !! id = Some res -> reserved_agent_path res = None ->
  AgentPath.from_string path = Ok path -> path <> AgentPath.ROOT ->
  reservation_path r id path = Some r' -> registry_ok lost r' /\ slots r' = slots r.
Proof.
  rewrite !registry_ok_shape. intros [Hc Hs] Hid Hres Hpath Hroot. unfold reservation_path, reserve_agent_path.
  rewrite Hid. simpl. destruct (agent_tree r !! path) eqn:E; [done|]. simpl. intros [= <-].
  set (m := mkAgent None (Some path) None None None).
  pose proof (count_tree_insert (agent_tree r) path m) as Hi. rewrite E in Hi. simpl in Hi.
  unfold slots. simpl. rewrite map_size_insert_Some by (by eexists).
  split; [split|lia]; [rewrite Hc; f_equal; unfold slots; lia|]. by apply (shape_path _ _ id res).
Qed.

Lemma reservation_nickname_ok lost choose r r' id names preferred n :
  registry_ok lost r -> reservation_nickname choose r id names preferred = Some (n, r') ->
  registry_ok lost r' /\ slots r' = slots r.
Proof.
  rewrite !registry_ok_shape. intros [Hc Hs]. unfold reservation_nickname.
  destruct (reservations r !! id) as [res|] eqn:Hid; simpl; [|done].
  destruct (reserve_agent_nickname choose r names preferred) as [[n' r1]|] eqn:E; simpl; [|done].
  intros [= <- <-].
  assert (agent_tree r1 = agent_tree r /\ reservations r1 = reservations r /\ owed r1 = owed r
    /\ total_count r1 = total_count r) as (E1 & E2 & E3 & E4).
  { unfold reserve_agent_nickname in E. repeat case_match; try done; simpl in *;
      try (by injection E as <- <-). destruct (choose names); [|done]. by injection E as <- <-. }
  unfold slots. simpl. rewrite E1, E2, E3, E4, map_size_insert_Some by eauto.
  split; [split; [done|]|done]. apply shape_reservation; [done|]. intros p Hp. eauto.
Qed.

Lemma reserve_ok lost r r' limit id :
  registry_ok lost r -> reservations r !! id = None -> reserve_spawn_slot r limit id = Some r' ->
  registry_ok lost r' /\ slots r' = S (slots r) /\ (forall M, limit = Some M -> (total_count r < M)%Z).
Proof.
  rewrite !registry_ok_shape. intros [Hc Hs] Hid. unfold reserve_spawn_slot.
  assert (forall r1, r1 = increment r -> Some (with_reservations r1
    (<[id := mkReservation None None]> (reservations r1))) = Some r' ->
    (total_count r' = usize_wrap (Z.of_nat (slots r' + lost)) /\ shape_ok (agent_tree r') (reservations r'))
    /\ slots r' = S (slots r)) as H.
  { intros r1 -> [= <-]. unfold slots. simpl. rewrite map_size_insert_None by done.
    split; [split|lia]; [|by apply shape_reservation].
    rewrite Hc, usize_wrap_add. f_equal. unfold slots. lia. }
  destruct limit as [M|]; simpl.
  - unfold try_increment_spawned. destruct (M <=? total_count r)%Z eqn:E; simpl; [done|].
    intros Hr. destruct (H (increment r)) as [? ?]; [done|done|]. split_and!; [apply H0..|done|].
    intros M' [= <-]. lia.
  - intros Hr. destruct (H (increment r)) as [? ?]; [done|done|]. split_and!; [apply H0..|done|done].
Qed.

Lemma settle_ok lost r : registry_ok lost r -> 0 < owed r -> registry_ok lost (settle r) /\ S (slots (settle r)) = slots r.
Proof.
  rewrite !registry_ok_shape. intros [Hc Hs] Ho. unfold slots. simpl. split; [split; [|done]|lia].
  replace (total_count r - 1)%Z with (total_count r + -1)%Z by lia. rewrite Hc, usize_wrap_add.
  f_equal. unfold slots. lia.
Qed.

(** One step: the registry stays well formed, the slots that are counted grow only by a
    reservation below the limit, and shrink when a decrement is made. *)
Lemma act_ok lost limit choose r r' :
  registry_ok lost r -> act fresh limit choose r r' ->
  exists lost', registry_ok lost' r' /\ (fresh = true -> lost' = lost)
    /\ (slots r' + lost' <= slots r + lost
        \/ slots r' + lost' = S (slots r + lost) /\ forall M, limit = Some M -> (total_count r < M)%Z).
Proof.
  intros Hok H. destruct H as [r r' id Hid Hr|r r' id res path H1 H2 H3 H4 H5|r r' id ns pre n H1
    |r id res m t H1 H2 H3 H4|r id|r t|r Ho|r t Hf|r t msg].
  4:{ destruct (commit_ok lost r id res m t Hok H1 H2 H3 H4) as (lost' & ? & ? & ?). exists lost'. split_and!; [done..|left; lia]. }
  all: exists lost.
  - destruct (reserve_ok lost r r' limit id Hok Hid Hr) as (? & -> & ?). auto.
  - destruct (reservation_path_ok lost r r' id res path Hok H1 H2 H3 H4 H5) as [? ->]. auto.
  - destruct (reservation_nickname_ok lost choose r r' id ns pre n Hok H1) as [? ->]. auto.
  - destruct (drop_ok lost r id Hok) as [? ->]. auto.
  - destruct (release_ok lost r t Hok) as [? ->]. auto.
  - destruct (settle_ok lost r Hok Ho) as [? <-]. split_and!; [done..|left; lia].
  - destruct (root_path_ok lost r t Hok Hf) as [? ->]. auto.
  - destruct (message_ok lost r t msg Hok) as [? ->]. auto.
Qed.

Lemma registry_new_ok : registry_ok 0 registry_new.
Proof.
  constructor; simpl.
  - vm_compute. done.
  - intros k m. by rewrite lookup_empty.
  - intros _ k1 k2 m1 m2 t. by rewrite lookup_empty.
  - intros id res p. by rewrite lookup_empty.
  - intros i j ri rj p. by rewrite lookup_empty.
Qed.

Lemma counted_within M choose r :
  (0 <= M < 2 ^ 64)%Z -> rtc (act fresh (Some M) choose) registry_new r ->
  exists lost, registry_ok lost r /\ (fresh = true -> lost = 0) /\ (Z.of_nat (slots r + lost) <= M)%Z.
Proof.
  intros HM Hrun. apply (rtc_ind_r (R := act fresh (Some M) choose)
    (fun r => exists lost, registry_ok lost r /\ (fresh = true -> lost = 0) /\ (Z.of_nat (slots r + lost) <= M)%Z) registry_new);
    [| |exact Hrun].
  - exists 0. split_and!; [apply registry_new_ok|done|]. unfold slots, registry_new. simpl. unfold count_tree.
    rewrite map_filter_empty, !map_size_empty. lia.
  - intros x y _ Hact (lost & Hx & Hl & Hs). destruct (act_ok _ _ _ _ _ Hx Hact) as (lost' & Hy & Hl' & H).
    exists lost'. split_and!; [done|intros Hf; rewrite Hl' by done; by apply Hl|]. destruct H as [?|[Hslots Hlt]]; [lia|].
    specialize (Hlt M eq_refl). rewrite (count_exact _ _ Hx) in Hlt. unfold usize_wrap in Hlt. rewrite Z.mod_small in Hlt; lia.
Qed.
End steps.

Lemma live_agents_count r : length (live_agents r) = count_tree (agent_tree r).
Proof.
  unfold live_agents, count_tree. generalize (agent_tree r). intros tree.
  rewrite <- length_map_to_list.
  assert (map_to_list (filter (fun e : str * AgentMetadata => counted e.2 = true) tree)
    ≡ₚ filter (fun e => counted e.2 = true) (map_to_list tree)) as ->.
  { apply NoDup_Permutation.
    - apply NoDup_map_to_list.
    - apply NoDup_filter, NoDup_map_to_list.
    - intros [k m]. rewrite elem_of_map_to_list, list_elem_of_filter, elem_of_map_to_list.
      rewrite map_lookup_filter_Some. simpl. tauto. }
  induction (map_to_list tree) as [|[k m] l IH]; [done|]. csimpl. rewrite !filter_cons. simpl.
  destruct (decide (is_Some (agent_id m) /\ is_root_agent m = false)) as [[[t Ht] Hr]|Hn].
  - rewrite decide_True by (unfold counted; by rewrite Ht, Hr). simpl. by rewrite IH.
  - rewrite decide_False; [done|]. unfold counted. intros Hc. apply Hn.
    destruct (agent_id m); [|done]. split; [eauto|]. by apply negb_true_iff.
Qed.

(** C36: The limit on agents holds whatever the interleaving.  As long as every slot
    is reserved under the limit, the agents that live, the reservations that are
    open and the decrements that are due are together never more than the counter, and
    the counter is never more than the limit, so it does not underflow.  As long
    as, besides, every agent is registered under an id that has no entry, the counter
    is exactly their number: it forgets no slot and is zero again when all is released;
    and no id has two entries.  The entry of an agent is under the key of its path or id. *)
Theorem agent_limit_respected (fresh : bool) (M : Z) (choose : list str -> option str) (r : Registry) :
  (0 <= M < 2 ^ 64)%Z -> rtc (act fresh (Some M) choose) registry_new r ->
  (Z.of_nat (length (live_agents r) + size (reservations r) + owed r) <= total_count r <= M)%Z
  /\ (fresh = true ->
       total_count r = Z.of_nat (length (live_agents r) + size (reservations r) + owed r)
       /\ forall k1 k2 m1 m2 t, agent_tree r !! k1 = Some m1 -> agent_tree r !! k2 = Some m2 ->
            agent_id m1 = Some t -> agent_id m2 = Some t -> k1 = k2)
  /\ (forall k m t, agent_tree r !! k = Some m -> agent_id m = Some t -> k = agent_key (agent_path m) t).
Proof.
  intros HM Hrun. rewrite live_agents_count.
  replace (count_tree (agent_tree r) + size (reservations r) + owed r) with (slots r) by (unfold slots; lia).
  destruct (counted_within fresh M choose r HM Hrun) as (lost & Hok & Hlost & Hle).
  assert (total_count r = Z.of_nat (slots r + lost)) as Ht.
  { rewrite (count_exact _ _ _ Hok). unfold usize_wrap. rewrite Z.mod_small; lia. }
  split_and!; [lia|lia| |].
  - intros Hf. rewrite Ht, (Hlost Hf). split; [f_equal; lia|apply (ids_unique _ _ _ Hok Hf)].
  - intros k m t Hk Hid. destruct (entries_ok _ _ _ Hok k m Hk) as [_ He]. by rewrite Hid in He.
Qed.

(** ** Paths: facts *)

Lemma valid_name_no_slash n :
  AgentPath.validate_agent_name n = Ok tt -> n <> [] /\ SLASH ∉ n /\ n <> AgentPath.ROOT_SEGMENT.
Proof.
  unfold AgentPath.validate_agent_name. repeat (case_goal; [done|]). intros _.
  split_and!; [by apply is_nil_false|by apply contains_char_false|by eapply bool_decide_eq_false_1].
Qed.

Lemma last_split_slash a n : SLASH ∉ n -> last (split_char SLASH (a ++ SLASH :: n)) = Some n.
Proof.
  intros Hn. rewrite split_char_app_sep. rewrite (split_char_none SLASH n) by done. by rewrite last_snoc.
Qed.

Lemma no_slash_ends n : SLASH ∉ n -> n <> [] -> ends_with [SLASH] n = false /\ starts_with [SLASH] n = false.
Proof.
  intros Hn Hne. unfold ends_with, starts_with. split.
  - destruct (strip_suffix [SLASH] n) as [r|] eqn:E; [|done]. apply strip_suffix_Some in E. set_solver.
  - destruct (strip_prefix [SLASH] n) as [r|] eqn:E; [|done]. apply strip_prefix_Some in E. set_solver.
Qed.

(** A path made by joining a name is a path whose name that is; resolving the
    name from the same agent, or the whole path from any agent, gives it back. *)
Theorem agent_path_join_roundtrip (path agent_name joined other : str) :
  AgentPath.join path agent_name = Ok joined ->
  AgentPath.name joined = agent_name /\ joined <> AgentPath.ROOT
  /\ AgentPath.from_string joined = Ok joined
  /\ AgentPath.resolve path agent_name = Ok joined /\ AgentPath.resolve other joined = Ok joined.
Proof.
  unfold AgentPath.join. intros H. run_ok H. destruct a.
  destruct (valid_name_no_slash _ Hr) as (Hne & Hslash & Hroot).
  assert (joined = path ++ SLASH :: agent_name) as Hj.
  { unfold AgentPath.from_string in H. run_ok H. by injection H as <-. }
  rewrite <- Hj in H. pose proof (last_split_slash path agent_name Hslash) as Hlast. rewrite <- Hj in Hlast.
  assert (joined <> AgentPath.ROOT) as Hnr.
  { intros ->. assert (last (split_char SLASH AgentPath.ROOT) = Some AgentPath.ROOT_SEGMENT) as Hl
      by (vm_compute; reflexivity). congruence. }
  destruct (from_string_slash _ H) as [rest Hrest].
  destruct (no_slash_ends agent_name Hslash Hne) as [He Hst].
  split_and!; [|done|done| |].
  - unfold AgentPath.name, AgentPath.is_root, str_eqb. rewrite bool_decide_false by done.
    rewrite Hlast. by rewrite (proj2 (is_nil_false _)).
  - unfold AgentPath.resolve, str_eqb. rewrite (proj2 (is_nil_false _)) by done.
    rewrite bool_decide_false by (intros ->; unfold AgentPath.ROOT in Hslash; set_solver).
    rewrite Hst. unfold AgentPath.validate_relative_reference, AgentPath.validate_names.
    rewrite He, (split_char_none SLASH agent_name) by done. simpl. rewrite Hr. simpl. by rewrite <- Hj.
  - unfold AgentPath.resolve, str_eqb. rewrite Hrest at 1. simpl. rewrite bool_decide_false by done.
    rewrite Hrest at 1. simpl. done.
Qed.

(** ** Nicknames and mail *)

(** A nickname that was not asked for is new: it was not in use, or all names of
    the round were, and a new round was begun in which it is the first. *)
Theorem nickname_is_new (choose : list str -> option str) (r r' : Registry) (names : list str) (n : str) :
  (forall l x, choose l = Some x -> x ∈ l) -> (forall l, choose l = None -> l = []) ->
  reserve_agent_nickname choose r names None = Some (n, r') ->
  n ∈ used_agent_nicknames r'
  /\ (n ∉ used_agent_nicknames r /\ used_agent_nicknames r' = {[ n ]} ∪ used_agent_nicknames r
      \/ used_agent_nicknames r' = {[ n ]} /\ nickname_reset_count r' = S (nickname_reset_count r)
         /\ forall name, name ∈ names ->
              format_agent_nickname name (nickname_reset_count r) ∈ used_agent_nicknames r).
Proof.
  intros Hin Hnone. unfold reserve_agent_nickname. case_goal; [done|].
  destruct (choose (filter _ _)) as [x|] eqn:Ec.
  - intros [= <- <-]. apply Hin, list_elem_of_filter in Ec as [Hx _]. simpl. split; [set_solver|by left].
  - destruct (choose names) as [x|] eqn:En; simpl; [|done]. intros [= <- <-]. simpl.
    split; [set_solver|]. right. split_and!; [set_solver|done|]. intros name Hname. apply Hnone in Ec.
    destruct (decide (format_agent_nickname name (nickname_reset_count r) ∈ used_agent_nicknames r))
      as [?|Hno]; [done|].
    assert (format_agent_nickname name (nickname_reset_count r)
      ∈ filter (fun n => n ∉ used_agent_nicknames r)
          ((fun n => format_agent_nickname n (nickname_reset_count r)) <$> names)) as Hf
      by (apply list_elem_of_filter; split; [done|]; apply list_elem_of_fmap; by exists name).
    rewrite Ec in Hf. by apply not_elem_of_nil in Hf.
Qed.

Section mail.
Context {Mail : Type}.

Inductive MailOp := Send (mail : Mail) | Peek | Drain.

(** What is drained by a sequence of operations, and the mailbox after it. *)
Fixpoint mail_run (ops : list MailOp) (b : Mailbox) : list Mail * @Mailbox Mail :=
  match ops with
  | [] => ([], b)
  | Send mail :: ops => mail_run ops (send b mail).1
  | Peek :: ops => mail_run ops (has_pending b).1
  | Drain :: ops =>
      let '(b, mails) := drain b in
      let '(later, b) := mail_run ops b in (mails ++ later, b)
  end.

Definition sent (ops : list MailOp) : list Mail :=
  omap (fun op => match op with Send mail => Some mail | _ => None end) ops.

(** Mail is delivered once and in the order it was sent, whatever is peeked at and
    drained in between. *)
Theorem mail_in_order (ops : list MailOp) (b b' : Mailbox) (drained : list Mail) :
  mail_run ops b = (drained, b') ->
  drained ++ pending_mails b' ++ queue b' = pending_mails b ++ queue b ++ sent ops.
Proof.
  revert b b' drained. induction ops as [|[mail| |] ops IH]; intros b b' drained; simpl.
  - intros [= <- <-]. by rewrite app_nil_r.
  - intros H%IH. simpl in H. by rewrite H, <- app_assoc.
  - intros H%IH. simpl in H. by rewrite H, <- app_assoc.
  - destruct (mail_run ops _) as [later b1] eqn:E. intros [= <- <-]. apply IH in E. simpl in E.
    by rewrite <- app_assoc, E, <- app_assoc.
Qed.
End mail.

(** ** Instances *)

Lemma agent_path_join_roundtrip_witness :
  AgentPath.join (L"/root/a") (L"b_1") = Ok (L"/root/a/b_1")
  /\ AgentPath.name (L"/root/a/b_1") = L"b_1".
Proof.
  assert (AgentPath.join (L"/root/a") (L"b_1") = Ok (L"/root/a/b_1")) as H by (vm_compute; reflexivity).
  split; [exact H|]. exact (proj1 (agent_path_join_roundtrip _ _ _ [] H)).
Defined.

(** One agent is spawned and committed under a limit of two. *)
Lemma agent_limit_respected_witness :
  exists r, rtc (act true (Some 2%Z) head) registry_new r
    /\ length (live_agents r) = 1 /\ total_count r = 1%Z
    /\ (Z.of_nat (length (live_agents r) + size (reservations r) + owed r) <= total_count r <= 2)%Z.
Proof.
  assert (exists r1, reserve_spawn_slot registry_new (Some 2%Z) 0 = Some r1
    /\ reservations r1 !! 0 = Some (mkReservation None None) /\ agent_tree r1 = ∅) as (r1 & H1 & Hres & Ht)
    by (eexists; split; [vm_compute; reflexivity|split; vm_compute; reflexivity]).
  pose (m := mkAgent (Some (L"t1")) None None None None).
  assert (rtc (act true (Some 2%Z) head) registry_new (commit r1 0 m)) as Hr.
  { eapply rtc_l; [by apply (act_reserve _ _ _ _ r1 0)|]. eapply rtc_l; [|apply rtc_refl].
    apply (act_commit _ _ _ r1 0 (mkReservation None None) m (L"t1")); [done|done|done|].
    intros _ k x. by rewrite Ht, lookup_empty. }
  exists (commit r1 0 m). split; [exact Hr|].
  destruct (agent_limit_respected true 2 head _ ltac:(lia) Hr) as (Hle & Hex & _).
  assert (length (live_agents (commit r1 0 m)) = 1 /\ size (reservations (commit r1 0 m)) = 0 /\ owed (commit r1 0 m) = 0)
    as (E1 & E2 & E3) by (vm_compute in H1; injection H1 as <-; vm_compute; split_and!; reflexivity).
  split; [exact E1|]. split; [|exact Hle]. destruct (Hex eq_refl) as [-> _]. by rewrite E1, E2, E3.
Defined.

(** A slot can be lost.  An agent that is resumed while the registry still has an entry
    for its thread (the thread was unloaded without being released) takes a second
    slot for the one entry: the counter stays at two with one agent alive, and at one
    when that agent is released, so a limit of one is then reached by no agent at all. *)
Theorem resumed_agent_loses_slot :
  let agent := mkAgent (Some (L"t1")) None None None None in
  let slot r id := default r (reserve_spawn_slot r (Some 2%Z) id) in
  let twice := commit (slot (commit (slot registry_new 0) 0 agent) 1) 1 agent in
  rtc (act false (Some 2%Z) head) registry_new twice
  /\ length (live_agents twice) = 1 /\ reservations twice = ∅ /\ owed twice = 0 /\ total_count twice = 2%Z
  /\ let released := settle (release_spawned_thread twice (L"t1")) in
     rtc (act false (Some 2%Z) head) registry_new released
     /\ live_agents released = [] /\ total_count released = 1%Z
     /\ reserve_spawn_slot released (Some 1%Z) 2 = None.
Proof.
  intros agent slot twice.
  assert (rtc (act false (Some 2%Z) head) registry_new twice) as Hr.
  { eapply rtc_l; [by apply (act_reserve _ _ _ _ (slot registry_new 0) 0); vm_compute|].
    eapply rtc_l; [by apply (act_commit _ _ _ (slot registry_new 0) 0 (mkReservation None None) agent (L"t1")); vm_compute|].
    eapply rtc_l; [by apply (act_reserve _ _ _ _ (slot (commit (slot registry_new 0) 0 agent) 1) 1); vm_compute|].
    by apply rtc_once, (act_commit _ _ _ _ 1 (mkReservation None None) agent (L"t1")); vm_compute. }
  split_and!; [exact Hr|vm_compute; reflexivity..|]. intros released.
  split_and!; [|vm_compute; reflexivity..]. eapply rtc_r; [|apply act_settle; vm_compute; lia].
  eapply rtc_r; [exact Hr|]. apply act_release.
Qed.
