(* ===== verification/ToolOrchestrator.v ===== *)
(** * Running tools (core/src/tools/orchestrator.rs, sandboxing.rs;
      sandboxing/src/manager.rs)

    Approval, choice of the sandbox, a first attempt, and a second one without a
    sandbox when the first was denied.  What a tool, the hooks, the reviewers and
    the network approvals do is behind a record of operations on a world that is
    not further described; the log keeps, in order, who was asked what, and what
    was run in which sandbox.  Telemetry is left out. *)

From S2P Require Import Prelude RustStr AbsolutePath ExecPolicy ShellParse CommandSafety SandboxPaths Permissions PermissionProfiles ExecApproval.

(** ** Data *)

(** [ReviewDecision] of protocol.rs; of a network amendment only its action matters. *)
Inductive ReviewDecision :=
| Approved
| ApprovedExecpolicyAmendment (amendment : ExecPolicyAmendment)
| ApprovedForSession
| NetworkPolicyAmendment (allow : bool)
| Denied
| TimedOut
| Abort.

#[export] Instance ExecPolicyAmendment_eq_dec : EqDecision ExecPolicyAmendment.
Proof. solve_decision. Defined.
#[export] Instance ReviewDecision_eq_dec : EqDecision ReviewDecision.
Proof. solve_decision. Defined.

Inductive PolicyVerdict := VerdictDeny | VerdictAsk.
Inductive VerdictSource := FromBaseline | FromModeGuard | FromProxyState | FromDecider.

Record NetworkPolicyDecisionPayload := mkPayload {
  payload_decision : PolicyVerdict;
  payload_source : VerdictSource;
  payload_protocol : option NetworkRuleProtocol;
  payload_host : option str }.

Definition is_ask_from_decider (p : NetworkPolicyDecisionPayload) : bool :=
  match payload_decision p, payload_source p with
  | VerdictAsk, FromDecider => true
  | _, _ => false
  end.

Record NetworkApprovalContext := mkNetworkContext {
  context_host : str;
  context_protocol : NetworkRuleProtocol }.

Definition network_approval_context_from_payload (p : NetworkPolicyDecisionPayload)
  : option NetworkApprovalContext :=
  if negb (is_ask_from_decider p) then None
  else
    protocol ← payload_protocol p;
    host ← trim <$> payload_host p;
    if is_nil host then None else Some (mkNetworkContext host protocol).

(** ** Sandboxes (manager.rs) *)

Inductive SandboxType := SandboxNone | MacosSeatbelt | LinuxSeccomp | WindowsRestrictedToken.
Inductive SandboxablePreference := Auto | Require_ | Forbid.
Inductive TargetOs := MacOs | Linux | Windows | OtherOs.

#[export] Instance SandboxType_eq_dec : EqDecision SandboxType.
Proof. solve_decision. Defined.

Definition get_platform_sandbox (os : TargetOs) (windows_sandbox_enabled : bool)
  : option SandboxType :=
  match os with
  | MacOs => Some MacosSeatbelt
  | Linux => Some LinuxSeccomp
  | Windows => if windows_sandbox_enabled then Some WindowsRestrictedToken else None
  | OtherOs => None
  end.

Definition select_initial (os : TargetOs) (file_system_policy : FileSystemSandboxPolicy)
  (network_policy : NetworkSandboxPolicy) (pref : SandboxablePreference)
  (windows_sandbox_enabled has_managed_network_requirements : bool) : SandboxType :=
  match pref with
  | Forbid => SandboxNone
  | Require_ => default SandboxNone (get_platform_sandbox os windows_sandbox_enabled)
  | Auto =>
      if should_require_platform_sandbox file_system_policy network_policy
           has_managed_network_requirements
      then default SandboxNone (get_platform_sandbox os windows_sandbox_enabled)
      else SandboxNone
  end.

(** ** The tool and its surroundings *)

Section tools.
Context {W Out Output E : Type}.

Inductive ToolError :=
| Rejected (reason : str)
| SandboxDenied (output : Output) (network_policy_decision : option NetworkPolicyDecisionPayload)
| OtherError (e : E).

Inductive NetworkApprovalMode := Immediate | Deferred.

Record Attempt := mkAttempt {
  sandbox : SandboxType;
  permissions : PermissionProfile;
  enforce_managed_network : bool;
  sandbox_cwd : AbsolutePathBuf;
  codex_linux_sandbox_exe : option str }.

Record ApprovalCtx := mkApprovalCtx {
  guardian : bool;
  retry_reason : option str;
  network_approval_context : option NetworkApprovalContext }.

Inductive HookDecision := HookAllow | HookDeny (message : str).

(** A tool with a request: [Approvable], [Sandboxable] and [ToolRuntime]. *)
Record ToolRuntime := mkTool {
  exec_approval_requirement : option ExecApprovalRequirement;
  has_permission_request_payload : bool;
  sandbox_mode_for_first_attempt : SandboxOverride;
  sandbox_preference : SandboxablePreference;
  escalate_on_failure : bool;
  tool_should_bypass_approval : AskForApproval -> bool -> bool;
  tool_wants_no_sandbox_approval : AskForApproval -> bool;
  tool_sandbox_cwd : option AbsolutePathBuf;
  (** [network_approval_spec] with a network: the mode. *)
  network_approval_mode : option NetworkApprovalMode;
  start_approval : ApprovalCtx -> W -> W * ReviewDecision;
  tool_run : Attempt -> W -> W * (ToolError + Out) }.

(** What the session does: permission-request hooks, by whether it is the retry;
    the message of a guardian's rejection; the end of a network approval. *)
Record Session := mkSession {
  run_permission_request_hooks : bool -> W -> W * option HookDecision;
  guardian_rejection_message : W -> W * str;
  guardian_timeout_message : str;
  finish_network_approval : W -> W * option ToolError }.

Record TurnContext := mkTurn {
  strict_auto_review : bool;
  routes_approval_to_guardian : bool;
  turn_permission_profile : PermissionProfile;
  turn_network : bool;
  turn_cwd : AbsolutePathBuf;
  turn_linux_sandbox_exe : option str;
  windows_sandbox_enabled : bool }.

(** ** The log *)

Inductive Asker := Hook | Reviewer.
Inductive Event :=
| Asked (who : Asker) (retry : bool) (d : ReviewDecision)
| Ran (s : SandboxType).

Definition M (A : Type) : Type := W * list Event -> (W * list Event) * (ToolError + A).
Definition mret {A} (a : A) : M A := fun s => (s, inr a).
Definition mfail {A} (e : ToolError) : M A := fun s => (s, inl e).
Definition bind {A B} (m : M A) (k : A -> M B) : M B := fun s =>
  match m s with
  | (s, inr a) => k a s
  | (s, inl e) => (s, inl e)
  end.
Definition world {A} (f : W -> W * A) : M A := fun '(w, log) =>
  let '(w, a) := f w in ((w, log), inr a).
Definition emit (e : Event) : M unit := fun '(w, log) => ((w, log ++ [e]), inr tt).

Local Notation "'do' x ← m ; k" := (bind m (fun x => k))
  (at level 200, x binder, m at level 100, k at level 200, right associativity).

Section run.
Context (os : TargetOs) (tool : ToolRuntime) (session : Session) (turn : TurnContext).

Definition request_approval (retry : bool) (approval_ctx : ApprovalCtx)
  (evaluate_permission_request_hooks : bool) : M ReviewDecision :=
  do hook ← (if evaluate_permission_request_hooks && has_permission_request_payload tool
             then world (run_permission_request_hooks session retry) else mret None);
  match hook with
  | Some HookAllow => do _ ← emit (Asked Hook retry Approved); mret Approved
  | Some (HookDeny message) => do _ ← emit (Asked Hook retry Denied); mfail (Rejected message)
  | None =>
      do decision ← world (start_approval tool approval_ctx);
      do _ ← emit (Asked Reviewer retry decision);
      mret decision
  end.

Definition reject_if_not_approved (guardian : bool) (decision : ReviewDecision) : M unit :=
  match decision with
  | Denied | Abort =>
      do reason ← (if guardian then world (guardian_rejection_message session)
                   else mret (L"rejected by user"));
      mfail (Rejected reason)
  | TimedOut => mfail (Rejected (guardian_timeout_message session))
  | Approved | ApprovedExecpolicyAmendment _ | ApprovedForSession => mret tt
  | NetworkPolicyAmendment allow =>
      if allow then mret tt else mfail (Rejected (L"rejected by user"))
  end.

(** The result, and whether a network approval is left for later. *)
Definition run_attempt (attempt : Attempt) (managed_network_active : bool)
  : M ((ToolError + Out) * bool) :=
  let network_approval := if managed_network_active then network_approval_mode tool else None in
  do _ ← emit (Ran (sandbox attempt));
  do run_result ← world (tool_run tool attempt);
  match network_approval with
  | None => mret (run_result, false)
  | Some Immediate =>
      do finalize_result ← world (finish_network_approval session);
      mret (match finalize_result with Some err => (inl err, false) | None => (run_result, false) end)
  | Some Deferred =>
      match run_result with
      | inl _ =>
          do finalize_result ← world (finish_network_approval session);
          mret (match finalize_result with Some err => (inl err, false) | None => (run_result, false) end)
      | inr _ => mret (run_result, true)
      end
  end.

Definition use_guardian : bool := routes_approval_to_guardian turn || strict_auto_review turn.

Definition fs_policy : FileSystemSandboxPolicy := file_system_sandbox_policy (turn_permission_profile turn).

(** 1) Approval: whether it was given. *)
Definition approve_first (approval_policy : AskForApproval) : M bool :=
  let requirement :=
    default (default_exec_approval_requirement approval_policy fs_policy)
      (exec_approval_requirement tool) in
  match requirement with
  | Skip _ _ =>
      if strict_auto_review turn then
        do decision ← request_approval false (mkApprovalCtx true None None) false;
        do _ ← reject_if_not_approved true decision;
        mret true
      else mret false
  | RequirementForbidden reason => mfail (Rejected reason)
  | NeedsApproval reason _ =>
      do decision ← request_approval false (mkApprovalCtx use_guardian reason None)
                      (negb (strict_auto_review turn));
      do _ ← reject_if_not_approved use_guardian decision;
      mret true
  end.

Definition initial_sandbox : SandboxType :=
  match sandbox_mode_for_first_attempt tool with
  | BypassSandboxFirstAttempt => SandboxNone
  | NoOverride =>
      select_initial os fs_policy (network_sandbox_policy (turn_permission_profile turn))
        (sandbox_preference tool) (windows_sandbox_enabled turn) (turn_network turn)
  end.

Definition attempt_in (sandbox : SandboxType) (exe : option str) : Attempt :=
  mkAttempt sandbox (turn_permission_profile turn) (turn_network turn)
    (default (turn_cwd turn) (tool_sandbox_cwd tool)) exe.

Definition build_denial_reason_from_output : str := L"command failed; retry without sandbox?".

(** The result with the flag, or the error. *)
Definition finish_run (r : (ToolError + Out) * bool) : M (Out * bool) :=
  match r with (inr out, deferred) => mret (out, deferred) | (inl e, _) => mfail e end.

(** After a denial: a second attempt, or the denial. *)
Definition retry_denied (approval_policy : AskForApproval) (already_approved : bool) (output : Output)
  (decision : option NetworkPolicyDecisionPayload) : M (Out * bool) :=
  let denied := mfail (SandboxDenied output decision) in
  let context :=
    if turn_network turn then payload ← decision; network_approval_context_from_payload payload
    else None in
  if match decision, context with Some _, None => true | _, _ => false end then denied
  else if negb (escalate_on_failure tool) then denied
  else
    let allow_on_request_network_prompt :=
      match approval_policy, context, default_exec_approval_requirement approval_policy fs_policy with
      | OnRequest, Some _, NeedsApproval _ _ => true
      | _, _, _ => false
      end in
    if negb (tool_wants_no_sandbox_approval tool approval_policy)
       && negb allow_on_request_network_prompt
    then denied
    else
      let retry_reason :=
        match context with
        | Some context =>
            L"Network access to " ++ [DQUOTE] ++ context_host context ++ [DQUOTE]
              ++ L" is blocked by policy."
        | None => build_denial_reason_from_output
        end in
      let bypass_retry_approval :=
        negb (strict_auto_review turn)
        && tool_should_bypass_approval tool approval_policy already_approved
        && match context with Some _ => false | None => true end in
      do _ ← (if bypass_retry_approval then mret tt
              else
                do decision ← request_approval true
                     (mkApprovalCtx use_guardian (Some retry_reason) context)
                     (negb (strict_auto_review turn));
                reject_if_not_approved use_guardian decision);
      do r ← run_attempt (attempt_in SandboxNone None) (turn_network turn);
      finish_run r.

Definition run (approval_policy : AskForApproval) : M (Out * bool) :=
  do already_approved ← approve_first approval_policy;
  do first ← run_attempt (attempt_in initial_sandbox (turn_linux_sandbox_exe turn)) (turn_network turn);
  match first with
  | (inl (SandboxDenied output decision), _) =>
      retry_denied approval_policy already_approved output decision
  | first => finish_run first
  end.
End run.
End tools.
Arguments ToolError Output E : clear implicits.
Arguments ToolRuntime W Out Output E : clear implicits.
Arguments Session W Output E : clear implicits.

(** ** The cache of approvals (sandboxing.rs) *)

Section cache.
Context {K : Type} (to_json : K -> option str).

Definition ApprovalStore : Type := gmap str ReviewDecision.

Definition store_get (s : ApprovalStore) (key : K) : option ReviewDecision :=
  text ← to_json key; s !! text.
Definition store_put (s : ApprovalStore) (key : K) (value : ReviewDecision) : ApprovalStore :=
  match to_json key with Some text => <[text := value]> s | None => s end.

(** [fetch] is the prompt; the second component tells whether it was shown. *)
Definition with_cached_approval {W} (keys : list K) (fetch : W -> W * ReviewDecision)
  (s : ApprovalStore) (w : W) : ApprovalStore * W * ReviewDecision * bool :=
  if is_nil keys then let '(w, d) := fetch w in (s, w, d, true)
  else
    let already_approved :=
      forallb (fun key => bool_decide (store_get s key = Some ApprovedForSession)) keys in
    if already_approved then (s, w, ApprovedForSession, false)
    else
      let '(w, decision) := fetch w in
      let s := match decision with
               | ApprovedForSession => foldl (fun s key => store_put s key ApprovedForSession) s keys
               | _ => s
               end in
      (s, w, decision, true).
End cache.
