(* ===== verification/ToolSafety.v ===== *)
(** * What the orchestrator of tools guarantees

    Every attempt, and in particular every attempt outside the sandbox, comes
    after the approval it needs; and, for commands, together with the rules. *)

From S2P Require Import Prelude RustStr AbsolutePath ExecPolicy ShellParse CommandSafety SandboxPaths Permissions PermissionSafety PermissionProfiles ExecApproval ExecApprovalSafety ToolOrchestrator.

Definition approved (d : ReviewDecision) : bool :=
  match d with
  | Approved | ApprovedExecpolicyAmendment _ | ApprovedForSession => true
  | NetworkPolicyAmendment allow => allow
  | Denied | TimedOut | Abort => false
  end.

(** ** What a computation logs *)

Section logs.
Context {W Out Output E : Type}.
Local Abbreviation ToolM := (@M W Output E).

Definition logs {A} (m : ToolM A) (P : list Event -> ToolError Output E + A -> Prop) : Prop :=
  forall w log, exists w' ev r, m (w, log) = ((w', log ++ ev), r) /\ P ev r.

Lemma logs_weaken {A} (m : ToolM A) (P Q : list Event -> ToolError Output E + A -> Prop) :
  logs m P -> (forall ev r, P ev r -> Q ev r) -> logs m Q.
Proof. intros H HPQ w log. destruct (H w log) as (w' & ev & r & ? & ?). eauto 10. Qed.

Lemma logs_ret {A} (a : A) : logs (mret a : ToolM A) (fun ev r => ev = [] /\ r = inr a).
Proof. intros w log. exists w, [], (inr a). by rewrite app_nil_r. Qed.

Lemma logs_fail {A} (e : ToolError Output E) : logs (mfail e : ToolM A) (fun ev r => ev = [] /\ r = inl e).
Proof. intros w log. exists w, [], (inl e). by rewrite app_nil_r. Qed.

Lemma logs_world {A} (f : W -> W * A) : logs (world f : ToolM A) (fun ev r => ev = [] /\ exists a, r = inr a).
Proof. intros w log. unfold world. destruct (f w) as [w' a]. exists w', [], (inr a). rewrite app_nil_r. eauto. Qed.

Lemma logs_emit (e : Event) : logs (emit e : ToolM unit) (fun ev r => ev = [e] /\ r = inr tt).
Proof. intros w log. by exists w, [e], (inr tt). Qed.

Lemma logs_bind {A B} (m : ToolM A) (k : A -> ToolM B) P Q :
  logs m P -> (forall a, logs (k a) (Q a)) ->
  logs (bind m k) (fun ev r =>
    (exists e, r = inl e /\ P ev (inl e))
    \/ exists ev1 ev2 a, ev = ev1 ++ ev2 /\ P ev1 (inr a) /\ Q a ev2 r).
Proof.
  intros Hm Hk w log. unfold bind. destruct (Hm w log) as (w1 & ev1 & [e|a] & -> & HP).
  - exists w1, ev1, (inl e). eauto 10.
  - destruct (Hk a w1 (log ++ ev1)) as (w2 & ev2 & r & -> & HQ). exists w2, (ev1 ++ ev2), r.
    rewrite <- app_assoc. eauto 10.
Qed.
End logs.

Section orchestrator.
Context {W Out Output E : Type}.
Context (os : TargetOs) (tool : ToolRuntime W Out Output E) (session : Session W Output E)
  (turn : TurnContext).

Local Abbreviation run := (run os tool session turn).
Local Abbreviation ask_approval := (request_approval tool session).

Lemma request_approval_logs retry ctx hooks :
  logs (ask_approval retry ctx hooks) (fun ev r => exists who d, ev = [Asked who retry d]
    /\ (hooks = false -> who = Reviewer)
    /\ match r with inr d' => d' = d | inl e => approved d = false /\ exists reason, e = Rejected reason end).
Proof.
  unfold request_approval.
  eapply logs_weaken; [eapply (logs_bind _ _ (fun ev r => ev = []
      /\ match r with inr (Some _) => hooks = true | inr None => True | inl _ => False end)
    (fun hook ev r => exists who d, ev = [Asked who retry d]
      /\ match hook with Some _ => who = Hook | None => who = Reviewer end
      /\ match r with inr d' => d' = d | inl e => approved d = false /\ exists reason, e = Rejected reason end))|].
  - destruct hooks; simpl; [destruct (has_permission_request_payload tool)|].
    1: eapply logs_weaken; [apply logs_world|]; intros ev r [-> [[h|] ->]]; done.
    all: eapply logs_weaken; [apply logs_ret|]; by intros ev r [-> ->].
  - intros [[|message]|].
    + eapply logs_weaken; [apply logs_bind; [apply logs_emit|intros; apply logs_ret]|].
      intros ev r [(e & -> & _ & [=])|(ev1 & ev2 & a & -> & [-> _] & -> & ->)]. by exists Hook, Approved.
    + eapply logs_weaken; [apply logs_bind; [apply logs_emit|intros; apply logs_fail]|].
      intros ev r [(e & -> & _ & [=])|(ev1 & ev2 & a & -> & [-> _] & -> & ->)].
      exists Hook, Denied. split_and!; eauto.
    + eapply logs_weaken; [apply logs_bind; [apply logs_world|intros d; apply logs_bind;
        [apply logs_emit|intros; apply logs_ret]]|].
      intros ev r [(e & -> & _ & a & [=])|(ev1 & ev2 & d & -> & [-> _] & [(e & -> & _ & [=])|H])].
      destruct H as (ev3 & ev4 & [] & -> & [-> _] & -> & ->). by exists Reviewer, d.
  - intros ev r [(e & -> & _ & [])|(ev1 & ev2 & hook & -> & [-> Hh] & who & d & -> & Hwho & Hr)].
    exists who, d. split_and!; [done| |done]. intros ->. by destruct hook.
Qed.

Lemma reject_logs guardian d :
  logs (reject_if_not_approved session guardian d) (fun ev r => ev = []
    /\ if approved d then r = inr tt else exists reason, r = inl (Rejected reason)).
Proof.
  assert (logs (mret tt : @M W Output E unit) (fun ev r => ev = [] /\ r = inr tt)) as Hok by apply logs_ret.
  assert (forall reason, logs (mfail (Rejected reason) : @M W Output E unit) (fun ev (r : ToolError Output E + unit) =>
    ev = [] /\ exists reason, r = inl (Rejected reason))) as Hno
    by (intros reason; eapply logs_weaken; [apply logs_fail|]; intros ev r [-> ->]; eauto).
  destruct d as [| | |[]| | |]; simpl; try done.
  all: eapply logs_weaken; [apply (logs_bind _ _ (fun ev r => ev = [] /\ exists a, r = inr a)); [|intros; apply Hno]|].
  all: try (destruct guardian; [apply logs_world|]; eapply logs_weaken; [apply logs_ret|];
            intros ev r [-> ->]; eauto).
  all: intros ev r [(e & -> & _ & a & [=])|(ev1 & ev2 & a & -> & [-> _] & -> & ?)]; done.
Qed.

(** Asking, and going on only when approved. *)
Lemma ask_logs retry ctx hooks guardian :
  logs (bind (ask_approval retry ctx hooks) (reject_if_not_approved session guardian)) (fun ev r =>
    exists who d, ev = [Asked who retry d] /\ (hooks = false -> who = Reviewer)
      /\ if approved d then r = inr tt else exists reason, r = inl (Rejected reason)).
Proof.
  eapply logs_weaken; [apply logs_bind; [apply request_approval_logs|intros d; apply reject_logs]|].
  intros ev r [(e & -> & who & d & -> & Hw & Hd & reason & ->)
    |(ev1 & ev2 & d' & -> & (who & d & -> & Hw & ->) & -> & Hr)]; exists who, d; split_and!; try done.
  rewrite Hd. eauto.
Qed.

Lemma run_attempt_logs attempt managed :
  logs (run_attempt tool session attempt managed) (fun ev r => ev = [Ran (sandbox attempt)] /\ exists x, r = inr x).
Proof.
  unfold run_attempt.
  eapply logs_weaken; [apply logs_bind; [apply logs_emit|intros u; apply (logs_bind _ _
    (fun ev r => ev = [] /\ exists a, r = inr a) (fun _ ev r => ev = [] /\ exists y, r = inr y)); [apply logs_world|]]|].
  - intros x. assert (forall y : (ToolError Output E + Out) * bool, logs (mret y : @M W Output E _)
      (fun ev r => ev = [] /\ exists y, r = inr y)) as Hret
      by (intros y; eapply logs_weaken; [apply logs_ret|]; intros ev r [-> ->]; eauto).
    assert (forall (f : option (ToolError Output E) -> (ToolError Output E + Out) * bool),
      logs (bind (world (finish_network_approval session)) (fun y => mret (f y)) : @M W Output E _)
        (fun ev r => ev = [] /\ exists y, r = inr y)) as Hfin.
    { intros f. eapply logs_weaken; [apply logs_bind; [apply logs_world|intros y; apply Hret]|].
      intros ev r [(e & -> & _ & a & [=])|(ev1 & ev2 & a & -> & [-> _] & -> & ?)]. done. }
    destruct (if managed then network_approval_mode tool else None) as [[]|]; [apply Hfin| |apply Hret].
    destruct x; [apply Hfin|apply Hret].
  - intros ev r [(e & -> & _ & [=])|(ev1 & ev2 & [] & -> & [-> _] & [(e & -> & _ & a & [=])|H])].
    destruct H as (ev3 & ev4 & a & -> & [-> _] & -> & ?). done.
Qed.

Definition requirement_of (policy : AskForApproval) : ExecApprovalRequirement :=
  default (default_exec_approval_requirement policy (fs_policy turn)) (exec_approval_requirement tool).

(** Whether someone has to be asked before the first attempt. *)
Definition asks_first (policy : AskForApproval) : bool :=
  match requirement_of policy with
  | Skip _ _ => strict_auto_review turn
  | NeedsApproval _ _ => true
  | RequirementForbidden _ => false
  end.

Lemma approve_first_logs policy :
  logs (approve_first tool session turn policy) (fun ev r =>
    match r with
    | inr already => already = asks_first policy
        /\ (forall reason, requirement_of policy <> RequirementForbidden reason)
        /\ (if asks_first policy
            then exists who d, ev = [Asked who false d] /\ approved d = true
                   /\ (strict_auto_review turn = true -> who = Reviewer)
            else ev = [])
    | inl e => exists reason, e = Rejected reason
        /\ (requirement_of policy = RequirementForbidden reason /\ ev = []
            \/ exists who d, ev = [Asked who false d] /\ approved d = false)
    end).
Proof.
  unfold approve_first, asks_first. fold (requirement_of policy).
  assert (forall ctx hooks guardian (b : bool), (strict_auto_review turn = true -> hooks = false) ->
    logs (bind (ask_approval false ctx hooks) (fun decision =>
      bind (reject_if_not_approved session guardian decision) (fun _ => mret true)) : @M W Output E bool)
      (fun ev r => match r with
        | inr already => already = true
            /\ exists who d, ev = [Asked who false d] /\ approved d = true
                /\ (strict_auto_review turn = true -> who = Reviewer)
        | inl e => exists reason, e = Rejected reason
            /\ exists who d, ev = [Asked who false d] /\ approved d = false
        end)) as Hask.
  { intros ctx hooks guardian b Hh.
    eapply logs_weaken; [apply logs_bind; [apply request_approval_logs|intros d; apply logs_bind;
      [apply reject_logs|intros; apply logs_ret]]|].
    intros ev r [(e & -> & who & d & -> & Hw & Hd & reason & ->)
      |(ev1 & ev2 & d' & -> & (who & d & -> & Hw & ->) & H)]; [eauto 10|].
    destruct H as [(e & -> & -> & H)|(ev3 & ev4 & [] & -> & [-> H] & -> & ->)].
    - destruct (approved d) eqn:Ed; [done|]. destruct H as [reason [= ->]]. exists reason. eauto 10.
    - destruct (approved d) eqn:Ed; [|by destruct H as [? [=]]]. split; [done|]. exists who, d. eauto. }
  destruct (requirement_of policy) as [bypass am|reason am|reason] eqn:Ereq.
  - destruct (strict_auto_review turn) eqn:Es.
    + eapply logs_weaken; [by apply (Hask _ _ _ true)|]. intros ev [e|already]; [|intros [-> ?]; eauto].
      intros (reason & -> & ?). exists reason. eauto.
    + eapply logs_weaken; [apply logs_ret|]. intros ev r [-> ->]. done.
  - eapply logs_weaken; [apply (Hask _ _ _ true); by intros ->|]. intros ev [e|already]; [|intros [-> ?]; eauto].
    intros (reason' & -> & ?). exists reason'. eauto.
  - eapply logs_weaken; [apply logs_fail|]. intros ev r [-> ->]. exists reason. eauto.
Qed.

(** The approval before a retry: asked for, or given already. *)
Definition retry_approved (policy : AskForApproval) (already : bool) (mid : list Event) : Prop :=
  (mid = [] /\ strict_auto_review turn = false
     /\ tool_should_bypass_approval tool policy already = true)
  \/ exists who d, mid = [Asked who true d] /\ approved d = true
       /\ (strict_auto_review turn = true -> who = Reviewer).

Lemma finish_logs (x : (ToolError Output E + Out) * bool) :
  logs (finish_run x : @M W Output E _) (fun ev _ => ev = []).
Proof.
  destruct x as [[e|out] b]; simpl; eapply logs_weaken; [apply logs_fail| |apply logs_ret|];
    by intros ev r [-> _].
Qed.

Lemma retry_denied_logs policy already output decision :
  logs (retry_denied tool session turn policy already output decision) (fun ev r =>
    ev = [] \/ escalate_on_failure tool = true
      /\ ((exists who d, ev = [Asked who true d])
          \/ exists mid, ev = mid ++ [Ran SandboxNone] /\ retry_approved policy already mid)).
Proof.
  unfold retry_denied. set (context := if turn_network turn then _ else None).
  assert (logs (mfail (SandboxDenied output decision) : @M W Output E (Out * bool))
    (fun ev r => ev = [])) as Hden by (eapply logs_weaken; [apply logs_fail|]; by intros ev r [-> _]).
  assert (forall P, logs (mfail (SandboxDenied output decision) : @M W Output E (Out * bool))
    (fun ev r => ev = [] \/ P ev)) as Hden'
    by (intros P; eapply logs_weaken; [apply Hden|]; by left).
  case_goal; [apply Hden'|]. case_goal; [apply Hden'|]. apply negb_false_iff in E1.
  case_goal; [apply Hden'|].
  set (reason := match context with Some _ => _ | None => _ end).
  set (bypass := negb (strict_auto_review turn) && _ && _).
  eapply logs_weaken; [apply (logs_bind _ _ (fun ev r => match r with
      | inr _ => retry_approved policy already ev
      | inl _ => exists who d, ev = [Asked who true d]
      end) (fun _ ev r => ev = [Ran SandboxNone]))|].
  - destruct bypass eqn:Eb.
    + eapply logs_weaken; [apply logs_ret|]. intros ev r [-> ->]. left. unfold bypass in Eb.
      apply andb_true_iff in Eb as [[Hs Hb]%andb_true_iff _]. apply negb_true_iff in Hs. done.
    + eapply logs_weaken; [apply ask_logs|]. intros ev r (who & d & -> & Hw & Hr).
      destruct (approved d) eqn:Ed; [|destruct Hr as [reason' ->]; eauto]. rewrite Hr. right.
      exists who, d. split_and!; [done|done|]. intros Hs. apply Hw. by rewrite Hs.
  - intros u. eapply logs_weaken; [apply logs_bind; [apply run_attempt_logs|intros x; apply finish_logs]|].
    intros ev r [(e & -> & _ & x & [=])|(ev1 & ev2 & x & -> & [-> _] & ->)]. done.
  - intros ev r [(e & -> & H)|(ev1 & ev2 & u & -> & H & ->)]; right; (split; [done|]); eauto.
Qed.

(** The log of a whole run. *)
Lemma run_logs policy :
  logs (run policy) (fun ev r =>
    (Forall (fun e => match e with Ran _ => False | _ => True end) ev)
    \/ exists pre post, ev = pre ++ Ran (initial_sandbox os tool turn) :: post
      /\ (forall reason, requirement_of policy <> RequirementForbidden reason)
      /\ (if asks_first policy
          then exists who d, pre = [Asked who false d] /\ approved d = true
                 /\ (strict_auto_review turn = true -> who = Reviewer)
          else pre = [])
      /\ (Forall (fun e => match e with Ran _ => False | _ => True end) post
          \/ escalate_on_failure tool = true
             /\ exists mid, post = mid ++ [Ran SandboxNone]
                  /\ retry_approved policy (asks_first policy) mid)).
Proof.
  unfold ToolOrchestrator.run.
  eapply logs_weaken; [apply logs_bind; [apply approve_first_logs|intros already; apply logs_bind;
    [apply run_attempt_logs|intros first; apply (logs_weaken _ (fun ev r => ev = []
      \/ escalate_on_failure tool = true
        /\ ((exists who d, ev = [Asked who true d])
            \/ exists mid, ev = mid ++ [Ran SandboxNone] /\ retry_approved policy already mid)) _)]]|].
  - destruct first as [[[reason|output decision|e]|out] b];
      try (eapply logs_weaken; [apply finish_logs|]; by left).
    apply retry_denied_logs.
  - intros ev r H. exact H.
  - intros ev r [(e & -> & reason & -> & [[_ ->]|(who & d & -> & _)])|H]; [left; constructor..|right].
    { done. } { constructor. }
    destruct H as (pre & ev2 & already & -> & (-> & Hreq & Hpre) & [(e & _ & _ & x & [=])|H]).
    destruct H as (ev3 & post & x & -> & [-> _] & Hpost). exists pre, post. split_and!; [done..|].
    destruct Hpost as [->|(Hesc & [(who & d & ->)|Hmid])]; [left; constructor|left; by repeat constructor|].
    right. eauto.
Qed.

Definition is_run (e : Event) : bool := match e with Ran _ => true | _ => false end.

Lemma no_run l1 s l2 ev :
  Forall (fun e => match e with Ran _ => False | _ => True end) ev -> ev <> l1 ++ Ran s :: l2.
Proof. intros F ->. apply Forall_app in F as [_ F]. by inversion F. Qed.

Lemma run_split pre i post l1 s l2 :
  Forall (fun e => is_run e = false) pre -> pre ++ Ran i :: post = l1 ++ Ran s :: l2 ->
  l1 = pre /\ s = i /\ l2 = post \/ exists l1', l1 = pre ++ Ran i :: l1' /\ post = l1' ++ Ran s :: l2.
Proof.
  intros F. revert l1. induction F as [|e pre He F IH]; intros [|e' l1] H; simpl in *.
  - injection H as -> ->. by left.
  - injection H as <- ->. right. by exists l1.
  - injection H as -> _. done.
  - injection H as <- H. apply IH in H as [(-> & -> & ->)|(l1' & -> & ->)]; [by left|right]. by exists l1'.
Qed.

(** The events before an attempt, the first or the second. *)
Definition before_attempt (policy : AskForApproval) (l1 : list Event) (s : SandboxType) : Prop :=
  let asked retry mid := exists who d, mid = [Asked who retry d] /\ approved d = true
    /\ (strict_auto_review turn = true -> who = Reviewer) in
  (s = initial_sandbox os tool turn /\ (if asks_first policy then asked false l1 else l1 = []))
  \/ (s = SandboxNone /\ escalate_on_failure tool = true
      /\ exists pre mid, l1 = pre ++ Ran (initial_sandbox os tool turn) :: mid
           /\ (if asks_first policy then asked false pre else pre = [])
           /\ retry_approved policy (asks_first policy) mid).

Lemma before_each_attempt policy w w' log r l1 s l2 :
  run policy (w, []) = ((w', log), r) -> log = l1 ++ Ran s :: l2 ->
  (forall reason, requirement_of policy <> RequirementForbidden reason)
  /\ before_attempt policy l1 s.
Proof.
  intros Hrun Hlog. destruct (run_logs policy w []) as (w2 & ev & r2 & Heq & H). rewrite Hrun in Heq.
  injection Heq as -> Hev ->. simpl in Hev. rewrite <- Hev in H. clear Hev.
  destruct H as [F|(pre & post & Hpp & Hreq & Hpre & Hpost)]; [by eapply no_run in F|].
  split; [done|]. rewrite Hlog in Hpp. symmetry in Hpp. apply run_split in Hpp.
  2: { destruct (asks_first policy); [destruct Hpre as (who & d & -> & _)|rewrite Hpre]; by repeat constructor. }
  destruct Hpp as [(-> & -> & _)|(l1' & -> & Hp)]; [by left|right].
  destruct Hpost as [F|(Hesc & mid & -> & Hmid)]; [by eapply no_run in F|].
  assert (Forall (fun e => is_run e = false) mid) as Fm.
  { destruct Hmid as [[-> _]|(who & d & -> & _)]; by repeat constructor. }
  change (mid ++ [Ran SandboxNone]) with (mid ++ Ran SandboxNone :: []) in Hp.
  apply run_split in Hp as [(-> & -> & _)|(l & _ & Hnil)]; [|by destruct l|done].
  split_and!; [done|done|]. exists pre, mid. done.
Qed.

(** C17: Nothing is run without the approval it needs.  In any run of a tool,
    whatever the tool, the hooks and the reviewers do: when the requirement forbids
    the call nothing is run; an attempt is either the first, in the sandbox that
    was selected and after an approval whenever one is required (by the reviewer
    under strict review), or the second and last, outside the sandbox, only for a
    tool that escalates, and only after an approval of its own, unless the call
    counts as approved already and strict review is off; and there are at most two. *)
Theorem attempts_come_after_approval (policy : AskForApproval) (w w' : W) (log l1 l2 : list Event)
  (s : SandboxType) (r : ToolError Output E + Out * bool) :
  run policy (w, []) = ((w', log), r) -> log = l1 ++ Ran s :: l2 ->
  (forall reason, requirement_of policy <> RequirementForbidden reason)
  /\ before_attempt policy l1 s.
Proof. apply before_each_attempt. Qed.
End orchestrator.

(** ** Commands *)

(** A tool that runs a command under the rules, as the shell does: its requirement is
    that of the rules, and its sandbox mode follows from it. *)
Definition runs_command {W Out Output E} (tool : ToolRuntime W Out Output E)
  (permissions : SandboxPermissions) (r : ExecApprovalRequirement) : Prop :=
  exec_approval_requirement tool = Some r
  /\ sandbox_mode_for_first_attempt tool = sandbox_override_for_first_attempt permissions r.

(** C2: Rules and orchestrator together.  A command with a part that is flagged as
    dangerous and that no rule matches is run only after someone approved it, in
    the same call and before the attempt, unless prompts are off altogether and
    the sandbox was given up; and its first attempt is outside the sandbox only if
    that was asked for or no sandbox is called for.  (The part is not a shell that is
    given the one word [zsh] as its script, as in [bash -c zsh], which the check for
    safe commands reads as [bash].) *)
Theorem dangerous_command_runs_after_approval {W Out Output E : Type} (env : Env)
  (try_parse_shell : str -> option Node) (powershell_ast : str -> str -> option (list (list str)))
  (shlex_join : list str -> option str) (os : TargetOs) (tool : ToolRuntime W Out Output E)
  (session : Session W Output E) (turn : TurnContext) (p : Policy) (req : ExecApprovalRequest)
  (cs : ExecPolicyCommands) (cmd : list str) (r : ExecApprovalRequirement)
  (w w' : W) (log l1 l2 : list Event) (s : SandboxType) (res : ToolError Output E + Out * bool) :
  policy_wf p ->
  commands_for_exec_policy try_parse_shell (req_command req) = Ok cs -> cmd ∈ commands cs ->
  command_might_be_dangerous try_parse_shell cmd = Ok true -> runs_script (L"zsh") cmd = false ->
  ~ (exists rule, consulted (home_dir env) (current_dir env) p resolving cmd rule) ->
  create_exec_approval_requirement_for_command env try_parse_shell powershell_ast shlex_join p req = Ok r ->
  req_approval_policy req <> Never
    \/ sandbox_is_explicitly_disabled (req_permission_profile req) = false ->
  runs_command tool (req_sandbox_permissions req) r ->
  run os tool session turn (req_approval_policy req) (w, []) = ((w', log), res) ->
  log = l1 ++ Ran s :: l2 ->
  (exists who d, Asked who false d ∈ l1 /\ approved d = true)
  /\ (requires_escalated_permissions (req_sandbox_permissions req) = false ->
      sandbox_mode_for_first_attempt tool = NoOverride).
Proof.
  intros Hwf Hcs Hin Hd Hz Hno Hr Hp [Hreq Hmode] Hrun Hlog.
  destruct (dangerous_part_requirement env try_parse_shell powershell_ast shlex_join p req cs cmd r
    Hwf Hcs Hin Hd Hz Hno Hr) as [Hskip Hover]. specialize (Hskip Hp). split.
  - destruct (before_each_attempt os tool session turn _ _ _ _ _ _ _ _ Hrun Hlog) as [Hnf Hb].
    assert (asks_first tool turn (req_approval_policy req) = true) as Hask.
    { unfold asks_first. unfold requirement_of in *. rewrite Hreq in *. simpl in *.
      destruct r as [b am|reason am|reason]; [by destruct (Hskip b am)|done|by destruct (Hnf reason)]. }
    unfold before_attempt in Hb. rewrite Hask in Hb.
    destruct Hb as [(_ & who & d & -> & Had & _)|(_ & _ & pre & mid & -> & (who & d & -> & Had & _) & _)];
      exists who, d; (split; [|done]); set_solver.
  - intros He. rewrite Hmode. destruct (sandbox_override_for_first_attempt _ r) eqn:Eo; [done|].
    by rewrite Hover in He.
Qed.

(** ** The cache of approvals *)

Lemma store_put_get {K} (to_json : K -> option str) s key key' d :
  store_get to_json (store_put to_json s key d) key'
  = if bool_decide (to_json key = to_json key' /\ is_Some (to_json key)) then Some d
    else store_get to_json s key'.
Proof.
  unfold store_get, store_put. destruct (to_json key) as [t|].
  - destruct (to_json key') as [t'|]; [|by rewrite bool_decide_false by naive_solver].
    destruct (decide (t = t')) as [->|H].
    + rewrite bool_decide_true by eauto. apply lookup_insert_eq.
    + rewrite bool_decide_false by naive_solver. by apply lookup_insert_ne.
  - rewrite bool_decide_false; [done|]. intros [_ [? [=]]].
Qed.

Lemma put_all_get {K} (to_json : K -> option str) keys s key :
  key ∈ keys -> is_Some (to_json key) ->
  store_get to_json (foldl (fun s key => store_put to_json s key ApprovedForSession) s keys) key
  = Some ApprovedForSession.
Proof.
  intros Hin Hj.
  assert (forall keys s, store_get to_json s key = Some ApprovedForSession ->
    store_get to_json (foldl (fun s key => store_put to_json s key ApprovedForSession) s keys) key
    = Some ApprovedForSession) as Hkeep.
  { clear. induction keys as [|k keys IH]; intros s Hs; [done|]. apply IH. rewrite store_put_get.
    by case_bool_decide. }
  revert s. induction Hin as [|k x keys Hin IH]; intros s; simpl; [|by apply IH].
  apply Hkeep. rewrite store_put_get. by rewrite bool_decide_true by eauto.
Qed.

(** The user is asked about keys exactly when they are none or one of them was not
    approved for the session; and once keys are approved for the session, no
    selection of them is asked about again, however many requests come between. *)
Theorem approved_keys_are_not_asked_again {K W} (to_json : K -> option str) (keys keys' : list K)
  (fetch fetch' : W -> W * ReviewDecision) (s s' : ApprovalStore) (w w' : W) (asked : bool) :
  (forall key, key ∈ keys -> is_Some (to_json key)) ->
  with_cached_approval to_json keys fetch s w = (s', w', ApprovedForSession, asked) ->
  keys <> [] -> keys' ⊆ keys -> keys' <> [] ->
  with_cached_approval to_json keys' fetch' s' w' = (s', w', ApprovedForSession, false).
Proof.
  intros Hj H Hne Hsub Hne'. unfold with_cached_approval in *.
  rewrite (proj2 (is_nil_false keys)) in H by done. rewrite (proj2 (is_nil_false keys')) by done.
  assert (forall key, key ∈ keys -> store_get to_json s' key = Some ApprovedForSession) as Hall.
  { destruct (forallb _ keys) eqn:Ef.
    - injection H as <- _ _. rewrite forallb_forall in Ef. intros key Hk.
      apply list_elem_of_In, Ef in Hk. by apply bool_decide_eq_true in Hk.
    - destruct (fetch w) as [w1 d]. injection H as <- _ -> _. intros key Hk. apply put_all_get; auto. }
  assert (forallb (fun key => bool_decide (store_get to_json s' key = Some ApprovedForSession)) keys' = true)
    as ->; [|done].
  apply forallb_forall. intros key Hk. apply list_elem_of_In in Hk. apply bool_decide_eq_true, Hall, Hsub, Hk.
Qed.

(** ** Instances *)

(** The world counts the attempts; a sandboxed attempt is denied, one outside works. *)
Definition sample_tool (r : ExecApprovalRequirement) (d : ReviewDecision) : ToolRuntime nat nat unit unit :=
  mkTool (Some r) false (sandbox_override_for_first_attempt UseDefault r) Auto true
    should_bypass_approval wants_no_sandbox_approval None None
    (fun _ w => (w, d))
    (fun a w => (S w, if bool_decide (sandbox a = SandboxNone) then inr w else inl (SandboxDenied tt None))).
Definition sample_session : Session nat unit unit :=
  mkSession (fun _ w => (w, None)) (fun w => (w, [])) [] (fun w => (w, None)).
Definition sample_turn : TurnContext := mkTurn false false profile_read_only false [RootDir] None false.

Lemma attempts_come_after_approval_witness :
  let tool := sample_tool (NeedsApproval None None) Approved in
  exists w' log, run Linux tool sample_session sample_turn OnFailure (0, []) = ((w', log), inr (1, false))
    /\ log = [Asked Reviewer false Approved; Ran LinuxSeccomp] ++ Ran SandboxNone :: []
    /\ before_attempt Linux tool sample_turn OnFailure
         [Asked Reviewer false Approved; Ran LinuxSeccomp] SandboxNone.
Proof.
  intros tool.
  assert (run Linux tool sample_session sample_turn OnFailure (0, [])
    = ((2, [Asked Reviewer false Approved; Ran LinuxSeccomp] ++ Ran SandboxNone :: []), inr (1, false))) as H
    by (vm_compute; reflexivity).
  exists 2, ([Asked Reviewer false Approved; Ran LinuxSeccomp] ++ Ran SandboxNone :: []).
  split; [exact H|]. split; [reflexivity|].
  eapply (attempts_come_after_approval Linux tool sample_session sample_turn OnFailure); [exact H|reflexivity].
Defined.

Lemma dangerous_command_runs_after_approval_witness :
  let req := ask [L"rm"; L"-rf"; L"x"] None OnRequest in
  exists r w' log, require_for policy_empty req = Ok r
    /\ run Linux (sample_tool r Approved) sample_session sample_turn OnRequest (0, [])
       = ((w', log), inl (SandboxDenied tt None))
    /\ exists who d, Asked who false d ∈ log /\ approved d = true.
Proof.
  intros req.
  assert (exists r, require_for policy_empty req = Ok r /\ exists w', run Linux (sample_tool r Approved)
    sample_session sample_turn OnRequest (0, [])
    = ((w', [Asked Reviewer false Approved] ++ Ran LinuxSeccomp :: []), inl (SandboxDenied tt None)))
    as (r & Hr & w' & Hrun) by (eexists; split; [vm_compute; reflexivity|eexists; vm_compute; reflexivity]).
  assert (exists cs, commands_for_exec_policy sample_parser (req_command req) = Ok cs
    /\ commands cs = [[L"rm"; L"-rf"; L"x"]]) as (cs & Hcs & Hc)
    by (eexists; split; [vm_compute; reflexivity|vm_compute; reflexivity]).
  exists r, w', ([Asked Reviewer false Approved] ++ Ran LinuxSeccomp :: []).
  split; [exact Hr|]. split; [exact Hrun|].
  destruct (dangerous_command_runs_after_approval plain_env sample_parser no_powershell join_with_spaces Linux
    (sample_tool r Approved) sample_session sample_turn policy_empty req cs [L"rm"; L"-rf"; L"x"] r
    0 w' ([Asked Reviewer false Approved] ++ Ran LinuxSeccomp :: [])
    [Asked Reviewer false Approved] [] LinuxSeccomp (inl (SandboxDenied tt None)))
    as [(who & d & Hin & Hd) _].
  - apply policy_empty_wf.
  - exact Hcs.
  - rewrite Hc. by left.
  - vm_compute. reflexivity.
  - done.
  - rewrite <- no_consulted_rule by apply policy_empty_wf. vm_compute. reflexivity.
  - exact Hr.
  - by left.
  - by split.
  - exact Hrun.
  - reflexivity.
  - exists who, d. split; [apply elem_of_app; by left|exact Hd].
Defined.
