(* ===== verification/TurnItems.v ===== *)
(** * What items mean in a conversation (core/src/event_mapping.rs,
      core/src/context/contextual_user_message.rs, core/src/web_search.rs,
      core/src/stream_events_utils.rs, protocol/src/items.rs)

    The reading of a response item as an item of a turn: a message of the user,
    a prompt of a hook, a message of the agent, reasoning, a search or an image.
    [uuid] is the identifier that is drawn when an item has none. *)

From S2P Require Import Prelude RustStr OutputTruncation ConversationItems StreamTags StreamPlan.

(** ** Inputs and items *)

Record TextElement := mkTextElement {
  byte_start : N;
  byte_end : N;
  placeholder : option str }.

Inductive UserInput :=
| UserText (text : str) (text_elements : list TextElement)
| UserImage (image_url : str)
| UserLocalImage (path : str)
| UserSkill (name path : str)
| UserMention (name path : str).

Record UserMessageItem := mkUserMessage {
  user_id : str;
  user_content : list UserInput }.

Definition user_message (user : UserMessageItem) : str :=
  concat ((fun c => match c with UserText text _ => text | _ => [] end) <$> user_content user).

Record HookPromptItem := mkHookPrompt {
  hook_id : str;
  (** text and [hook_run_id] *)
  fragments : list (str * str) }.

Record AgentMessageItem := mkAgentMessage {
  agent_id : str;
  agent_content : list str;
  agent_phase : option MessagePhase }.

Inductive TurnItem :=
| TurnUserMessage (item : UserMessageItem)
| TurnHookPrompt (item : HookPromptItem)
| TurnAgentMessage (item : AgentMessageItem)
| TurnReasoning (id : str) (summary_text raw_content : list str)
| TurnWebSearch (id query : str) (action : WebSearchAction)
| TurnImageGeneration (id status : str) (revised_prompt : option str) (result : str).

(** ** Markers of images (protocol/src/models.rs) *)

Definition IMAGE_OPEN_TAG : str := L"<image>".
Definition IMAGE_CLOSE_TAG : str := L"</image>".
Definition LOCAL_IMAGE_OPEN_TAG_PREFIX : str := L"<image name=".
Definition LOCAL_IMAGE_OPEN_TAG_SUFFIX : str := L">".

Definition is_local_image_open_tag_text (text : str) : bool :=
  match strip_prefix LOCAL_IMAGE_OPEN_TAG_PREFIX text with
  | Some rest => ends_with LOCAL_IMAGE_OPEN_TAG_SUFFIX rest
  | None => false
  end.
Definition is_image_open_tag_text (text : str) : bool := str_eqb text IMAGE_OPEN_TAG.
Definition is_image_close_tag_text (text : str) : bool := str_eqb text IMAGE_CLOSE_TAG.
Definition is_local_image_close_tag_text (text : str) : bool := is_image_close_tag_text text.

Definition is_input_image (c : option ContentItem) : bool :=
  match c with Some (InputImage _ _) => true | _ => false end.

(** ** Searches (web_search.rs) *)

Definition search_action_detail (query : option str) (queries : option (list str)) : str :=
  match query with
  | Some (c :: q) => c :: q
  | _ =>
      let first := default [] (items ← queries; head items) in
      let several := match queries with Some items => 1 <? length items | None => false end in
      if several && negb (is_nil first) then first ++ L" ..." else first
  end.

Definition web_search_action_detail (action : WebSearchAction) : str :=
  match action with
  | WebSearch query queries => search_action_detail query queries
  | OpenPage url => default [] url
  | FindInPage url pattern =>
      match pattern, url with
      | Some pattern, Some url => L"'" ++ pattern ++ L"' in " ++ url
      | Some pattern, None => L"'" ++ pattern ++ L"'"
      | None, Some url => url
      | None, None => []
      end
  | WebSearchOther => []
  end.

Section parsing.
Context `{Deserializers} (uuid : str).

(** ** Messages *)

(** The loop of [parse_visible_hook_prompt_message]. *)
Fixpoint hook_fragments (content : list ContentItem) (fragments : list (str * str))
  : option (list (str * str)) :=
  match content with
  | [] => Some fragments
  | InputText text :: rest =>
      match parse_hook_prompt_fragment text with
      | Some fragment => hook_fragments rest (fragments ++ [fragment])
      | None => if is_standard_contextual_user_text text then hook_fragments rest fragments else None
      end
  | _ :: _ => None
  end.

Definition parse_visible_hook_prompt_message (id : option str) (content : list ContentItem)
  : option HookPromptItem :=
  fragments ← hook_fragments content [];
  if is_nil fragments then None else Some (mkHookPrompt (default uuid id) fragments).

(** What one item of a message becomes; [previous] and [next] are its neighbours. *)
Definition user_input_of (previous next : option ContentItem) (c : ContentItem) : option UserInput :=
  match c with
  | InputText text =>
      if (is_local_image_open_tag_text text || is_image_open_tag_text text) && is_input_image next
         || (is_local_image_close_tag_text text || is_image_close_tag_text text)
            && is_input_image previous
      then None else Some (UserText text [])
  | InputImage image_url _ => Some (UserImage image_url)
  | OutputText _ => None
  end.

Fixpoint user_inputs (previous : option ContentItem) (message : list ContentItem) : list UserInput :=
  match message with
  | [] => []
  | c :: rest => option_list (user_input_of previous (head rest) c) ++ user_inputs (Some c) rest
  end.

Definition parse_user_message (message : list ContentItem) : option UserMessageItem :=
  if is_contextual_user_message_content message then None
  else Some (mkUserMessage uuid (user_inputs None message)).

Definition parse_agent_message (id : option str) (message : list ContentItem)
  (phase : option MessagePhase) : AgentMessageItem :=
  mkAgentMessage (default uuid id)
    (omap (fun c => match c with
                    | InputText text | OutputText text => Some text
                    | InputImage _ _ => None
                    end) message) phase.

Definition parse_turn_item {Json} (item : ResponseItem Json) : option TurnItem :=
  match item with
  | Message id role content phase =>
      if str_eqb role (L"user") then
        match parse_visible_hook_prompt_message id content with
        | Some hook => Some (TurnHookPrompt hook)
        | None => TurnUserMessage <$> parse_user_message content
        end
      else if str_eqb role (L"assistant") then
        Some (TurnAgentMessage (parse_agent_message id content phase))
      else None
  | Reasoning id summary content _ =>
      Some (TurnReasoning id
        ((fun entry => match entry with SummaryText text => text end) <$> summary)
        ((fun entry => match entry with ReasoningText text | ReasoningPlainText text => text end)
           <$> default [] content))
  | WebSearchCall id _ action =>
      let '(action, query) := match action with
                              | Some action => (action, web_search_action_detail action)
                              | None => (WebSearchOther, [])
                              end in
      Some (TurnWebSearch (default [] id) query action)
  | ImageGenerationCall id status revised_prompt result =>
      Some (TurnImageGeneration id status revised_prompt result)
  | _ => None
  end.

(** The text of a message that is read as one of the user. *)
Definition user_text {Json} (item : ResponseItem Json) : option str :=
  match parse_turn_item item with
  | Some (TurnUserMessage user) => Some (user_message user)
  | _ => None
  end.
End parsing.

(** ** Text of the agent (stream_events_utils.rs) *)

Definition strip_hidden_assistant_markup (text : str) (plan_mode : bool) : str :=
  let without_citations := fst (strip_citations text) in
  if plan_mode then strip_proposed_plan_blocks without_citations else without_citations.

Definition raw_assistant_output_text_from_item {Json} (item : ResponseItem Json) : option str :=
  match item with
  | Message _ role content _ =>
      if str_eqb role (L"assistant")
      then Some (concat (omap (fun c => match c with OutputText text => Some text | _ => None end)
                           content))
      else None
  | _ => None
  end.

Definition last_assistant_message_from_item {Json} (item : ResponseItem Json) (plan_mode : bool)
  : option str :=
  match raw_assistant_output_text_from_item item with
  | Some combined =>
      if is_nil combined then None
      else
        let stripped := strip_hidden_assistant_markup combined plan_mode in
        if is_nil (trim stripped) then None else Some stripped
  | None => None
  end.

(** core/src/session/turn.rs *)
Definition get_last_assistant_message_from_turn {Json} (responses : list (ResponseItem Json))
  : option str :=
  head (omap (fun item => last_assistant_message_from_item item false) (reverse responses)).
