(* ===== verification/Compaction.v ===== *)
(** * Compaction of the conversation (core/src/compact.rs, compact_remote.rs;
      core/src/session/mod.rs, core/src/state/session.rs; protocol/src/protocol.rs)

    The history is replaced by the newest messages of the user and a summary, and
    the replacement is logged in the rollout so that a later replay can start
    from it.  The model that writes the summary is an argument: for the number of
    the attempt and the input it gives the events it streamed and how the stream
    ended.  The events that the session sends are entries of its log; what they carry,
    telemetry and the delays between retries are left out. *)

From S2P Require Import Prelude RustStr OutputTruncation ConversationItems HistoryNormalize ContextManager TokenEstimate TurnItems.

(** ** What is logged *)

(** The fields of a turn context that replay reads; the rest is only stored. *)
Record TurnContextItem {Rest : Type} := mkTurnContext {
  ctx_turn_id : option str;
  ctx_model : str;
  ctx_realtime_active : option bool;
  ctx_rest : Rest }.
Arguments TurnContextItem Rest : clear implicits.

Record CompactedItem {Json : Type} := mkCompacted {
  compacted_message : str;
  replacement_history : option (list (ResponseItem Json)) }.
Arguments CompactedItem Json : clear implicits.

Inductive EventPersistenceMode := Limited | Extended.

(** The events that replay distinguishes; those that are sent here, [ItemStarted] and
    [ItemCompleted] for the item of a compaction; any other, with the mode that stores
    it if one does. *)
Inductive EventMsg :=
| TurnStarted (turn_id : str)
| TurnComplete (turn_id : str)
| TurnAborted (turn_id : option str)
| UserMessageEvent
| ThreadRolledBack (num_turns : N)
| TokenCount
| ContextCompacted
| ErrorEvent
| StreamError
| WarningEvent
| RawResponseItem
| ItemStarted
| ItemCompleted
| HookStarted
| HookCompleted
| OtherEvent (mode : option EventPersistenceMode).

Inductive RolloutItem {Json Rest : Type} :=
| SessionMeta
| RolloutResponse (item : ResponseItem Json)
| Compacted (item : CompactedItem Json)
| RolloutTurnContext (item : TurnContextItem Rest)
| RolloutEvent (msg : EventMsg).
Arguments RolloutItem Json Rest : clear implicits.

(** ** The compacted history *)

Definition SUMMARY_PREFIX : str :=
  L"Another language model started to solve this problem and produced a summary of its thinking process. You also have access to the state of the tools that were used by that language model. Use this to build on the work that has already been done and avoid duplicating work. Here is the summary produced by the other language model, use the information in this summary to assist with your own analysis:".
Definition COMPACT_USER_MESSAGE_MAX_TOKENS : N := 20000.

Inductive InitialContextInjection := BeforeLastUserMessage | DoNotInject.

Definition content_items_to_text (content : list ContentItem) : option str :=
  let pieces := omap (fun c => match c with
                               | InputText text | OutputText text =>
                                   if is_nil text then None else Some text
                               | InputImage _ _ => None
                               end) content in
  if is_nil pieces then None else Some (join [LF] pieces).

Definition is_summary_message (message : str) : bool := starts_with (SUMMARY_PREFIX ++ [LF]) message.

Section compaction.
Context {Json Rest : Type} `{Deserializers} (uuid : str).
Abbreviation item := (ResponseItem Json).
Abbreviation manager := (ContextManager Json (TurnContextItem Rest)).
Abbreviation rollout_item := (RolloutItem Json Rest).

Definition collect_user_messages (items : list item) : list str :=
  omap (fun i => match parse_turn_item uuid i with
                 | Some (TurnUserMessage user) =>
                     if is_summary_message (user_message user) then None
                     else Some (user_message user)
                 | _ => None
                 end) items.

(** The loop from the newest message on; the selection is in that order. *)
Fixpoint select_messages (messages : list str) (remaining : N) (selected : list str)
  : result unit (list str) :=
  match messages with
  | [] => Ok selected
  | message :: rest =>
      if (remaining =? 0)%N then Ok selected
      else
        let tokens := approx_token_count message in
        if (tokens <=? remaining)%N
        then select_messages rest (remaining - tokens) (selected ++ [message])
        else let? truncated := truncate_text message (Tokens remaining) in
             Ok (selected ++ [truncated])
  end.

Definition user_item (text : str) : item := Message None (L"user") [InputText text] None.

Definition build_compacted_history_with_limit (history : list item) (user_messages : list str)
  (summary_text : str) (max_tokens : N) : result unit (list item) :=
  let? selected :=
    (if (0 <? max_tokens)%N
     then let? selected := select_messages (reverse user_messages) max_tokens [] in
          Ok (reverse selected)
     else Ok []) in
  let summary_text := if is_nil summary_text then L"(no summary available)" else summary_text in
  Ok (history ++ (user_item <$> selected) ++ [user_item summary_text]).

Definition build_compacted_history (initial_context : list item) (user_messages : list str)
  (summary_text : str) : result unit (list item) :=
  build_compacted_history_with_limit initial_context user_messages summary_text
    COMPACT_USER_MESSAGE_MAX_TOKENS.

Definition is_compaction_item (i : item) : bool :=
  match i with Compaction _ | ContextCompaction _ => true | _ => false end.

(** A message of the user, a summary included, and one that is no summary. *)
Definition is_user_or_summary (i : item) : bool := negb (is_none (user_text uuid i)).
Definition is_real_user (i : item) : bool :=
  match user_text uuid i with Some text => negb (is_summary_message text) | None => false end.

Definition or_else {A} (a b : option A) : option A := match a with Some _ => a | None => b end.

Definition insertion_index (compacted_history : list item) : option nat :=
  or_else (rposition is_real_user compacted_history)
    (or_else (rposition is_user_or_summary compacted_history)
       (rposition is_compaction_item compacted_history)).

Definition insert_initial_context_before_last_real_user_or_summary
  (compacted_history initial_context : list item) : list item :=
  match insertion_index compacted_history with
  | Some n => take n compacted_history ++ initial_context ++ drop n compacted_history
  | None => compacted_history ++ initial_context
  end.

(** Remote compaction. *)
Definition should_keep_compacted_history_item (i : item) : bool :=
  match i with
  | Message _ role _ _ =>
      if str_eqb role (L"developer") then false
      else if str_eqb role (L"user") then
        match parse_turn_item uuid i with
        | Some (TurnUserMessage _) | Some (TurnHookPrompt _) => true
        | _ => false
        end
      else str_eqb role (L"assistant")
  | Compaction _ | ContextCompaction _ => true
  | _ => false
  end.

Definition process_compacted_history (session_context compacted_history : list item)
  (initial_context_injection : InitialContextInjection) : list item :=
  let initial_context := match initial_context_injection with
                         | BeforeLastUserMessage => session_context
                         | DoNotInject => []
                         end in
  insert_initial_context_before_last_real_user_or_summary
    (List.filter should_keep_compacted_history_item compacted_history) initial_context.

(** ** The session *)

Record Session := mkSession {
  history : manager;
  rollout : list rollout_item }.

Definition with_history (s : Session) (h : manager) : Session := mkSession h (rollout s).

Definition record_into_history (s : Session) (items : list item) (policy : TruncationPolicy)
  : result unit Session :=
  let? h := record_items (history s) items policy in Ok (with_history s h).

Definition persist_rollout_items (s : Session) (items : list rollout_item) : Session :=
  mkSession (history s) (rollout s ++ items).

(** [as_legacy_events], which are sent after the event. *)
Definition as_legacy_events (msg : EventMsg) : list EventMsg :=
  match msg with ItemCompleted => [ContextCompacted] | _ => [] end.
Definition send_event (s : Session) (msg : EventMsg) : Session :=
  persist_rollout_items s (RolloutEvent <$> msg :: as_legacy_events msg).

Definition send_raw_response_items (s : Session) (items : list item) : Session :=
  foldl (fun s _ => send_event s RawResponseItem) s items.

Definition record_conversation_items (s : Session) (items : list item) (policy : TruncationPolicy)
  : result unit Session :=
  let? s := record_into_history s items policy in
  Ok (send_raw_response_items (persist_rollout_items s (RolloutResponse <$> items)) items).

Definition replace_history (s : Session) (items : list item)
  (reference : option (TurnContextItem Rest)) : Session :=
  with_history s (set_reference_context_item (replace (history s) items) reference).

Definition replace_compacted_history (s : Session) (items : list item)
  (reference : option (TurnContextItem Rest)) (compacted_item : CompactedItem Json) : Session :=
  let s := replace_history s items reference in
  let s := persist_rollout_items s [Compacted compacted_item] in
  match reference with
  | Some turn_context_item => persist_rollout_items s [RolloutTurnContext turn_context_item]
  | None => s
  end.

(** ** The task *)

Context `{Estimators Json} (debug_assertions : bool).

(** What the task reads of the turn. *)
Record CompactTurn := mkCompactTurn {
  truncation_policy : TruncationPolicy;
  input_modalities : list InputModality;
  stream_max_retries : N;
  turn_context_window : option Z;
  base_instructions : str;
  turn_context_item : TurnContextItem Rest;
  initial_context : list item }.

Inductive CodexErr := Interrupted | ContextWindowExceeded | TurnAbortedErr | OtherErr (message : str).
(** An event of a stream: an item, new rate limits, or one that is passed over; and the
    end of a stream. *)
Inductive ResponseEvent := OutputItemDone (item : item) | RateLimits | OtherResponseEvent.
Inductive StreamEnd := StreamCompleted (token_usage : option TokenUsage) | StreamFailed (e : CodexErr).

Context (stream : nat -> list item -> list ResponseEvent * StreamEnd) (turn : CompactTurn).

Definition send_token_count_event (s : Session) : Session := send_event s TokenCount.

Definition recompute_token_usage (s : Session) : result unit Session :=
  let? estimated := estimate_token_count_with_base_instructions (history s) (base_instructions turn) in
  match estimated with
  | None => Ok s
  | Some estimated_total_tokens =>
      let info := default (mkUsageInfo default_usage default_usage None) (token_info (history s)) in
      let window := or_else (turn_context_window turn) (model_context_window info) in
      Ok (send_token_count_event (with_history s (set_token_info (history s)
        (Some (mkUsageInfo (total_token_usage info)
                 (mkUsage 0 0 0 0 (Z.max estimated_total_tokens 0)) window)))))
  end.

Definition set_total_tokens_full (s : Session) : result unit Session :=
  match turn_context_window turn with
  | Some context_window =>
      let? h := set_token_usage_full debug_assertions (history s) context_window in
      Ok (send_token_count_event (with_history s h))
  | None => Ok (send_token_count_event s)
  end.

Definition update_token_usage_info (s : Session) (token_usage : option TokenUsage) : result unit Session :=
  match token_usage with
  | Some usage =>
      let? h := update_token_info debug_assertions (history s) usage (turn_context_window turn) in
      Ok (send_token_count_event (with_history s h))
  | None => Ok (send_token_count_event s)
  end.

(** The items of the stream are recorded as they come; new rate limits are announced. *)
Fixpoint drain_events (s : Session) (events : list ResponseEvent) : result unit Session :=
  match events with
  | [] => Ok s
  | OutputItemDone item :: events =>
      let? s := record_into_history s [item] (truncation_policy turn) in drain_events s events
  | RateLimits :: events => drain_events (send_token_count_event s) events
  | OtherResponseEvent :: events => drain_events s events
  end.

Definition drain_to_completed (s : Session) (attempt : nat) (input : list item)
  : result unit (Session * option CodexErr) :=
  let '(events, stream_end) := stream attempt input in
  let? s := drain_events s events in
  match stream_end with
  | StreamCompleted token_usage =>
      let? s := update_token_usage_info s token_usage in Ok (s, None)
  | StreamFailed e => Ok (s, Some e)
  end.

(** The loop of [run_compact_task_inner_impl]: [h] is the history the prompt is
    made of, [s] the session. *)
Fixpoint compact_loop (fuel attempt : nat) (retries : N) (h : manager) (s : Session)
  : result unit (Session * option CodexErr) :=
  match fuel with
  | 0 => OutOfFuel
  | S fuel =>
      let? turn_input := for_prompt debug_assertions h (input_modalities turn) in
      let? (s, failed) := drain_to_completed s attempt turn_input in
      match failed with
      | None => Ok (s, None)
      | Some Interrupted => Ok (s, Some Interrupted)
      | Some ContextWindowExceeded =>
          if 1 <? length turn_input
          then compact_loop fuel (S attempt) 0 (remove_first_item h) s
          else let? s := set_total_tokens_full s in Ok (send_event s ErrorEvent, Some ContextWindowExceeded)
      | Some e =>
          if (retries <? stream_max_retries turn)%N
          then compact_loop fuel (S attempt) (retries + 1) h (send_event s StreamError)
          else Ok (send_event s ErrorEvent, Some e)
      end
  end.

(** Each removal makes the history shorter, and between two of them the retries
    run out. *)
Definition compact_fuel (h : manager) : nat :=
  (length (items h) + 1) * (N.to_nat (stream_max_retries turn) + 1).

Definition run_compact_task_inner_impl (s : Session) (input : item)
  (initial_context_injection : InitialContextInjection)
  : result unit (Session * (CodexErr + str)) :=
  let s := send_event s ItemStarted in
  let? h := record_items (history s) [input] (truncation_policy turn) in
  let? (s, failed) := compact_loop (compact_fuel h) 0 0 h s in
  match failed with
  | Some e => Ok (s, inl e)
  | None =>
      let history_items := items (history s) in
      let summary_suffix := default [] (get_last_assistant_message_from_turn history_items) in
      let summary_text := SUMMARY_PREFIX ++ [LF] ++ summary_suffix in
      let user_messages := collect_user_messages history_items in
      let? new_history := build_compacted_history [] user_messages summary_text in
      let new_history :=
        match initial_context_injection with
        | BeforeLastUserMessage =>
            insert_initial_context_before_last_real_user_or_summary new_history (initial_context turn)
        | DoNotInject => new_history
        end in
      let reference := match initial_context_injection with
                       | DoNotInject => None
                       | BeforeLastUserMessage => Some (turn_context_item turn)
                       end in
      let s := replace_compacted_history s new_history reference
                 (mkCompacted _ summary_text (Some new_history)) in
      let? s := recompute_token_usage s in
      Ok (send_event (send_event s ItemCompleted) WarningEvent, inr summary_suffix)
  end.

(** The hooks before, or after, a compaction: how many there are to start, how many
    report that they are done, and whether they stop the turn. *)
Record CompactHooks := mkCompactHooks { hooks_started : nat; hooks_completed : nat; hooks_stop : bool }.
Definition run_compact_hooks (s : Session) (hooks : CompactHooks) : Session :=
  let s := foldl send_event s (replicate (hooks_started hooks) HookStarted) in
  foldl send_event s (replicate (hooks_completed hooks) HookCompleted).

Definition run_compact_task_inner (pre post : CompactHooks) (s : Session)
  (input : item) (initial_context_injection : InitialContextInjection)
  : result unit (Session * (CodexErr + unit)) :=
  let s := run_compact_hooks s pre in
  if hooks_stop pre then Ok (s, inl TurnAbortedErr)
  else
    let? (s, r) := run_compact_task_inner_impl s input initial_context_injection in
    match r with
    | inl e => Ok (s, inl e)
    | inr _ => Ok (run_compact_hooks s post, if hooks_stop post then inl TurnAbortedErr else inr tt)
    end.

(** *** Remote *)

(** The loop of [trim_function_call_history_to_fit_context_window]. *)
Fixpoint trim_window_loop (fuel : nat) (h : manager) (context_window : Z) (deleted_items : nat)
  : result unit (manager * nat) :=
  match fuel with
  | 0 => OutOfFuel
  | S fuel =>
      let? estimated := estimate_token_count_with_base_instructions h (base_instructions turn) in
      if is_some_and estimated (fun tokens => (context_window <? tokens)%Z) then
        match last (items h) with
        | None => Ok (h, deleted_items)
        | Some last_item =>
            if negb (is_codex_generated_item last_item) then Ok (h, deleted_items)
            else
              let '(h, removed) := remove_last_item h in
              if removed then trim_window_loop fuel h context_window (S deleted_items)
              else Ok (h, deleted_items)
        end
      else Ok (h, deleted_items)
  end.

Definition trim_function_call_history_to_fit_context_window (h : manager)
  : result unit (manager * nat) :=
  match turn_context_window turn with
  | None => Ok (h, 0)
  | Some context_window => trim_window_loop (S (length (items h))) h context_window 0
  end.

(** [compact_endpoint] is the request to the service, with the tools it is made with. *)
Definition run_remote_compact_task_inner_impl (compact_endpoint : list item -> CodexErr + list item)
  (s : Session) (initial_context_injection : InitialContextInjection)
  : result unit (Session * (CodexErr + unit)) :=
  let s := send_event s ItemStarted in
  let? (h, _) := trim_function_call_history_to_fit_context_window (history s) in
  let? prompt_input := for_prompt debug_assertions h (input_modalities turn) in
  match compact_endpoint prompt_input with
  | inl e => Ok (s, inl e)
  | inr compacted_history =>
      let new_history :=
        process_compacted_history (initial_context turn) compacted_history initial_context_injection in
      let reference := match initial_context_injection with
                       | DoNotInject => None
                       | BeforeLastUserMessage => Some (turn_context_item turn)
                       end in
      let s := replace_compacted_history s new_history reference
                 (mkCompacted _ [] (Some new_history)) in
      let? s := recompute_token_usage s in
      Ok (send_event s ItemCompleted, inr tt)
  end.

Definition run_remote_compact_task_inner (pre post : CompactHooks) (compact_endpoint : list item -> CodexErr + list item)
  (s : Session) (initial_context_injection : InitialContextInjection)
  : result unit (Session * (CodexErr + unit)) :=
  let s := run_compact_hooks s pre in
  if hooks_stop pre then Ok (s, inl TurnAbortedErr)
  else
    let? (s, r) := run_remote_compact_task_inner_impl compact_endpoint s initial_context_injection in
    match r with
    | inl e => Ok (send_event s ErrorEvent, inl e)
    | inr _ => Ok (run_compact_hooks s post, if hooks_stop post then inl TurnAbortedErr else inr tt)
    end.
End compaction.
Arguments Session Json Rest : clear implicits.
