(* ===== verification/CompactionSafety.v ===== *)
(** * Compaction: what is kept, and what a failure leaves

    The selection of messages under the token budget, the place of the injected
    context, and the task as a whole: it ends after a bounded number of attempts,
    and it replaces the history and logs the replacement together or not at all. *)

From S2P Require Import Prelude RustStr OutputTruncation ConversationItems HistoryNormalize ContextManager TokenEstimate TurnItems Compaction.

(** ** Messages of the user *)

Section messages.
Context {Json : Type} `{Deserializers} (uuid : str).
Abbreviation item := (ResponseItem Json).

Lemma hook_fragments_contextual content acc fragments :
  hook_fragments content acc = Some fragments -> is_contextual_user_message_content content = false ->
  content = [] /\ fragments = acc.
Proof.
  destruct content as [|[text|url detail|text] rest]; cbn [hook_fragments is_contextual_user_message_content existsb];
    [by intros [= ->]| |done|done].
  intros E. unfold is_contextual_user_fragment. intros [Hc _]%orb_false_iff.
  apply orb_false_iff in Hc as [Hh Hs]. rewrite Hs in E. by destruct (parse_hook_prompt_fragment text).
Qed.

(** A message is read as one of the user exactly when it has that role and no
    part of it is context that was injected. *)
Lemma user_text_iff (i : item) :
  is_Some (user_text uuid i) <->
  exists id content phase, i = Message id (L"user") content phase
    /\ is_contextual_user_message_content content = false.
Proof.
  split.
  - intros [text E]. unfold user_text in E. destruct i; cbn [parse_turn_item] in E; try done;
      try (destruct action; done).
    unfold str_eqb in E. case_bool_decide as Hr; [subst role|by case_bool_decide].
    destruct (parse_visible_hook_prompt_message uuid id content) as [hook|]; [done|].
    unfold parse_user_message in E. destruct (is_contextual_user_message_content content) eqn:Ec; [done|].
    by exists id, content, phase.
  - intros (id & content & phase & -> & Hc). unfold user_text. cbn [parse_turn_item].
    unfold str_eqb. rewrite bool_decide_true by done.
    assert (parse_visible_hook_prompt_message uuid id content = None) as ->.
    { unfold parse_visible_hook_prompt_message. destruct (hook_fragments content []) as [f|] eqn:E; [|done].
      by destruct (hook_fragments_contextual _ _ _ E Hc) as [_ ->]. }
    unfold parse_user_message. rewrite Hc. by eexists.
Qed.

Lemma user_text_boundary (i : item) text : user_text uuid i = Some text -> is_user_turn_boundary i = true.
Proof.
  intros E. destruct (proj1 (user_text_iff i)) as (id & content & phase & -> & Hc); [by eexists|].
  cbn [is_user_turn_boundary]. by rewrite Hc.
Qed.

(** A message with one text is that text, and the identifier does not matter. *)
Lemma user_text_single id phase text :
  user_text uuid (Json:=Json) (Message id (L"user") [InputText text] phase)
  = if is_contextual_user_fragment (InputText text) then None else Some text.
Proof.
  destruct (is_contextual_user_fragment (InputText text)) eqn:Ec.
  - destruct (user_text uuid (Message id (L"user") [InputText text] phase)) eqn:E; [|done].
    destruct (proj1 (user_text_iff (Message id (L"user") [InputText text] phase)))
      as (? & ? & ? & [= <- <- <-] & Hc); [by eexists|].
    unfold is_contextual_user_message_content in Hc. cbn [existsb] in Hc. by rewrite Ec in Hc.
  - unfold user_text. cbn [parse_turn_item]. unfold str_eqb. rewrite bool_decide_true by done.
    assert (is_contextual_user_message_content [InputText text] = false) as Hc
      by (unfold is_contextual_user_message_content; cbn [existsb]; by rewrite Ec).
    assert (parse_visible_hook_prompt_message uuid id [InputText text] = None) as ->.
    { unfold parse_visible_hook_prompt_message.
      destruct (hook_fragments [InputText text] []) as [f|] eqn:E; [|done].
      by destruct (hook_fragments_contextual _ _ _ E Hc) as [[=] _]. }
    unfold parse_user_message. rewrite Hc. cbn [fmap option_fmap option_map user_inputs head].
    unfold user_input_of. cbn [is_input_image]. rewrite !andb_false_r. cbn.
    by rewrite !app_nil_r.
Qed.
End messages.

(** ** Selection under the budget *)

Fixpoint tokens_sum (messages : list str) : N :=
  match messages with
  | [] => 0
  | m :: rest => approx_token_count m + tokens_sum rest
  end.

Lemma tokens_sum_app l l' : tokens_sum (l ++ l') = (tokens_sum l + tokens_sum l')%N.
Proof. induction l as [|m l IH]; cbn [app tokens_sum]; [done|]. rewrite IH. lia. Qed.

(** The outcome of the loop over the newest messages [rest]: those kept whole, and
    perhaps the next one, cut to what was left. *)
Definition selection (messages : list str) (budget : N) (selected : list str) : Prop :=
  exists kept rest, messages = kept ++ rest /\ (tokens_sum kept <= budget)%N
    /\ ((selected = kept /\ (rest = [] \/ tokens_sum kept = budget))
        \/ exists m rest' cut, rest = m :: rest'
             /\ (tokens_sum kept < budget)%N
             /\ (budget < tokens_sum kept + approx_token_count m)%N
             /\ truncate_text m (Tokens (budget - tokens_sum kept)) = Ok cut
             /\ selected = kept ++ [cut]).

Lemma select_messages_spec messages : forall remaining acc,
  exists selected, select_messages messages remaining acc = Ok (acc ++ selected)
    /\ selection messages remaining selected.
Proof.
  induction messages as [|m messages IH]; intros remaining acc.
  { exists []. rewrite app_nil_r. split; [done|]. exists [], []. cbn. split_and!; [done|lia|by left; auto]. }
  cbn [select_messages].
  destruct (N.eqb_spec remaining 0) as [->|Hr].
  { exists []. rewrite app_nil_r. split; [done|]. exists [], (m :: messages). cbn.
    split_and!; [done|lia|left; by auto]. }
  destruct (N.leb_spec (approx_token_count m) remaining) as [Hle|Hgt].
  - destruct (IH (remaining - approx_token_count m)%N (acc ++ [m]))
      as (selected & -> & kept & rest & -> & Hsum & Hcase).
    exists (m :: selected). rewrite <- app_assoc. split; [done|].
    exists (m :: kept), rest. cbn [tokens_sum app]. split_and!; [done|lia|].
    destruct Hcase as [[-> [->|Heq]]|(m' & rest' & cut & -> & Hlt & Hover & Hcut & ->)].
    + left. by auto.
    + left. split; [done|]. right. lia.
    + right. exists m', rest', cut. split_and!; [done|lia|lia| |done].
      rewrite <- Hcut. do 2 f_equal. lia.
  - destruct (truncate_text_total m (Tokens remaining)) as [cut Hcut]. rewrite Hcut. cbn [rbind].
    exists [cut]. split; [done|]. exists [], (m :: messages). cbn [tokens_sum app].
    split_and!; [done|lia|]. right. exists m, messages, cut. rewrite N.sub_0_r.
    split_and!; [done|lia|lia|done|done].
Qed.

Lemma build_total {Json} (user_messages : list str) (summary_text : str) :
  exists out, build_compacted_history (Json:=Json) [] user_messages summary_text = Ok out.
Proof.
  unfold build_compacted_history, build_compacted_history_with_limit.
  destruct (select_messages_spec (reverse user_messages) COMPACT_USER_MESSAGE_MAX_TOKENS [])
    as (selected & -> & _). cbn. eauto.
Qed.

(** The compacted history.  What is given is followed by the newest messages of
    the user in their order, as many as fit the budget whole, perhaps preceded by the next
    older one cut to the tokens that were left, and by the summary, which is never
    empty.  No older message comes in while a newer one is left out. *)
Theorem compacted_history_keeps_newest {Json} (history : list (ResponseItem Json))
  (user_messages : list str) (summary_text : str) (max_tokens : N) :
  let summary := if is_nil summary_text then L"(no summary available)" else summary_text in
  exists dropped kept cut,
    user_messages = dropped ++ kept
    /\ (tokens_sum kept <= max_tokens)%N
    /\ build_compacted_history_with_limit history user_messages summary_text max_tokens
       = Ok (history ++ (user_item <$> cut ++ kept) ++ [user_item summary])
    /\ (cut = [] /\ (dropped = [] \/ tokens_sum kept = max_tokens)
        \/ exists older m text, dropped = older ++ [m] /\ cut = [text]
             /\ (tokens_sum kept < max_tokens < tokens_sum kept + approx_token_count m)%N
             /\ truncate_text m (Tokens (max_tokens - tokens_sum kept)) = Ok text).
Proof.
  intros summary. unfold build_compacted_history_with_limit. fold summary.
  destruct (N.ltb_spec 0 max_tokens) as [Hpos|Hzero].
  - destruct (select_messages_spec (reverse user_messages) max_tokens [])
      as (selected & -> & kept & rest & Hsplit & Hsum & Hcase).
    cbn [rbind app]. exists (reverse rest), (reverse kept).
    assert (forall l, tokens_sum (reverse l) = tokens_sum l) as Hrev.
    { intros l. induction l as [|m l IH]; [done|]. rewrite reverse_cons, tokens_sum_app, IH. cbn [tokens_sum]. lia. }
    assert (user_messages = reverse rest ++ reverse kept) as Hmsgs
      by (by rewrite <- reverse_app, <- Hsplit, reverse_involutive).
    rewrite !Hrev. destruct Hcase as [[-> Hend]|(m & rest' & cut & -> & Hlt & Hover & Hcut & ->)].
    + exists []. split_and!; [done|done|done|]. left. split; [done|].
      destruct Hend as [->|]; [by left|by right].
    + exists [cut]. rewrite reverse_snoc. split_and!; [done|done|done|]. right.
      exists (reverse rest'), m, cut. rewrite reverse_cons. split_and!; [done|done|lia|lia|done].
  - exists user_messages, [], []. rewrite app_nil_r. cbn. split_and!; [done|lia|done|]. left. split; [done|]. right. lia.
Qed.

(** ** The place of the injected context *)

Section placement.
Context {Json : Type} `{Deserializers} (uuid : str).
Abbreviation item := (ResponseItem Json).

Definition last_such (p : item -> bool) (i : item) (rest : list item) : Prop :=
  p i = true /\ Forall (fun j => p j = false) rest.
Definition none_such (p : item -> bool) (l : list item) : Prop := Forall (fun j => p j = false) l.

(** The context goes in at one place: before the last message of the user that is no
    summary; without one, before the last summary; without any, before the last
    compaction item; and else at the end. *)
Theorem context_placement (l ctx : list item) :
  exists before after,
    l = before ++ after
    /\ insert_initial_context_before_last_real_user_or_summary uuid l ctx = before ++ ctx ++ after
    /\ match after with
       | i :: rest =>
           last_such (is_real_user uuid) i rest
           \/ (none_such (is_real_user uuid) l /\ last_such (is_user_or_summary uuid) i rest)
           \/ (none_such (is_user_or_summary uuid) l /\ last_such is_compaction_item i rest)
       | [] => none_such (is_user_or_summary uuid) l /\ none_such is_compaction_item l
       end.
Proof.
  unfold insert_initial_context_before_last_real_user_or_summary, insertion_index.
  assert (forall before i after, take (length before) (before ++ i :: after) ++ ctx
      ++ drop (length before) (before ++ i :: after) = before ++ ctx ++ i :: after) as Hcut.
  { intros before i after. by rewrite take_app_length, drop_app_length. }
  pose proof (rposition_spec (is_real_user uuid) l) as Hreal.
  pose proof (rposition_spec (is_user_or_summary uuid) l) as Huser.
  pose proof (rposition_spec is_compaction_item l) as Hcomp.
  destruct (rposition (is_real_user uuid) l) as [n|]; cbn [or_else].
  { destruct Hreal as (before & i & after & -> & -> & Hi & Ha). exists before, (i :: after).
    split_and!; [done|apply Hcut|by left]. }
  destruct (rposition (is_user_or_summary uuid) l) as [n|]; cbn [or_else].
  { destruct Huser as (before & i & after & -> & -> & Hi & Ha). exists before, (i :: after).
    split_and!; [done|apply Hcut|by right; left]. }
  destruct (rposition is_compaction_item l) as [n|]; cbn [or_else].
  - destruct Hcomp as (before & i & after & -> & -> & Hi & Ha). exists before, (i :: after).
    split_and!; [done|apply Hcut|by right; right].
  - exists l, []. rewrite !app_nil_r. split_and!; done.
Qed.
End placement.

(** ** The task *)

Lemma remove_corresponding_length {Json} (l : list (ResponseItem Json)) i : length (remove_corresponding_for l i) <= length l.
Proof.
  assert (forall p, length (remove_first_matching p l) <= length l) as Hp.
  { intros p. destruct (remove_first_matching_cases p l) as [[_ ->]|(a & y & b & -> & _ & ->)];
      rewrite ?length_app; cbn; lia. }
  destruct i; cbn; repeat case_match; auto.
Qed.

Section task.
Context {Json Rest : Type} `{Deserializers} (uuid : str) `{Estimators Json}.
Context (stream : nat -> list (ResponseItem Json) -> list (ResponseEvent (Json:=Json)) * StreamEnd).
Context (turn : CompactTurn (Json:=Json) (Rest:=Rest)).
Abbreviation item := (ResponseItem Json).
Abbreviation manager := (ContextManager Json (TurnContextItem Rest)).

Lemma record_grows (h : manager) new_items policy :
  exists recorded, record_items h new_items policy = Ok (with_items h (items h ++ recorded)).
Proof. destruct (record_items_appends h new_items policy) as (recorded & E & _). eauto. Qed.

Lemma i64_release z : exists n, i64_result false z = Ok n.
Proof. unfold i64_result. repeat case_match; eauto; done. Qed.

Lemma add_release a b : exists u, add_assign false a b = Ok u.
Proof.
  unfold add_assign.
  do 5 (match goal with |- context [i64_result false ?z] => destruct (i64_release z) as [? ->] end;
        cbn [rbind]). eauto.
Qed.

(** Events that tell replay nothing. *)
Definition is_note (i : RolloutItem Json Rest) : Prop :=
  match i with
  | RolloutEvent (TurnStarted _ | TurnComplete _ | TurnAborted _ | UserMessageEvent | ThreadRolledBack _) => False
  | RolloutEvent _ => True
  | _ => False
  end.

(** Counting tokens changes nothing else of the session, and is announced. *)
Definition same_but_tokens (s s' : Session Json Rest) : Prop :=
  rollout s' = rollout s ++ [RolloutEvent TokenCount] /\ items (history s') = items (history s)
  /\ reference_context_item (history s') = reference_context_item (history s).

Lemma update_tokens_release s usage :
  exists s', update_token_usage_info false turn s usage = Ok s' /\ same_but_tokens s s'.
Proof.
  unfold update_token_usage_info, update_token_info, new_or_append.
  destruct usage as [usage|]; [|by eexists]. rewrite andb_false_r. cbn [is_none].
  unfold append_last_usage.
  match goal with |- context [add_assign false ?a ?b] => destruct (add_release a b) as [u ->] end.
  cbn. by eexists.
Qed.

Lemma tokens_full_release s :
  exists s', set_total_tokens_full false turn s = Ok s' /\ same_but_tokens s s'.
Proof.
  unfold set_total_tokens_full, set_token_usage_full, full_context_window, fill_to_context_window.
  destruct (turn_context_window turn) as [w|]; [|by eexists].
  destruct (token_info (history s)) as [info|];
    (match goal with |- context [i64_result false ?z] => destruct (i64_release z) as [? ->] end);
    cbn; by eexists.
Qed.

Lemma recompute_release s :
  exists s', recompute_token_usage turn s = Ok s' /\ same_but_tokens s s'.
Proof.
  unfold recompute_token_usage, estimate_token_count_with_base_instructions.
  rewrite sum_items_exact. cbn. by eexists.
Qed.

(** What an attempt, or several, leave of the session: more items, and notes in the log. *)
Definition grown (s s' : Session Json Rest) : Prop :=
  (exists notes, rollout s' = rollout s ++ notes /\ Forall is_note notes)
  /\ reference_context_item (history s') = reference_context_item (history s)
  /\ exists recorded, items (history s') = items (history s) ++ recorded.

Lemma grown_trans s1 s2 s3 : grown s1 s2 -> grown s2 s3 -> grown s1 s3.
Proof.
  intros ((n & Hr & Hn) & Hc & l & Hi) ((n' & Hr' & Hn') & Hc' & l' & Hi'). split_and!; [|congruence|].
  - exists (n ++ n'). rewrite Hr', Hr, app_assoc. split; [done|by apply Forall_app].
  - exists (l ++ l'). by rewrite Hi', Hi, app_assoc.
Qed.

Lemma grown_refl s : grown s s.
Proof. split_and!; [exists []; by rewrite app_nil_r|done|exists []; by rewrite app_nil_r]. Qed.

Lemma grown_send s msg : is_note (RolloutEvent msg) -> grown s (send_event s msg).
Proof.
  intros Hn. split_and!; [|done|exists []; by rewrite app_nil_r].
  eexists. split; [reflexivity|]. constructor; [done|]. destruct msg; repeat constructor.
Qed.

Lemma grown_send_all s msgs : Forall (fun m => is_note (RolloutEvent m)) msgs -> grown s (foldl send_event s msgs).
Proof.
  intros Hm. revert s. induction Hm as [|m msgs Hn _ IH]; intros s; [apply grown_refl|].
  eapply grown_trans; [by apply grown_send|apply IH].
Qed.

Lemma grown_hooks s hooks : grown s (run_compact_hooks s hooks).
Proof. eapply grown_trans; apply grown_send_all, Forall_replicate; exact I. Qed.

Lemma same_grown s s' : same_but_tokens s s' -> grown s s'.
Proof.
  intros (Hr & Hi & ?). split_and!; [|done|exists []; by rewrite app_nil_r].
  exists [RolloutEvent TokenCount]. split; [done|by repeat constructor].
Qed.

Lemma grown_record s new_items policy :
  exists s', record_into_history s new_items policy = Ok s' /\ grown s s'.
Proof.
  unfold record_into_history. destruct (record_grows (history s) new_items policy) as [recorded ->].
  eexists. split; [reflexivity|]. split_and!; [exists []; by rewrite app_nil_r|done|by exists recorded].
Qed.

Lemma drain_events_spec events : forall s, exists s', drain_events turn s events = Ok s' /\ grown s s'.
Proof.
  induction events as [|[i| |] events IH]; intros s; cbn [drain_events].
  - exists s. split; [done|apply grown_refl].
  - destruct (grown_record s [i] (truncation_policy turn)) as (s1 & -> & Hg). cbn [rbind].
    destruct (IH s1) as (s' & -> & Hg'). exists s'. split; [done|by eapply grown_trans].
  - destruct (IH (send_token_count_event s)) as (s' & -> & Hg'). exists s'. split; [done|].
    eapply grown_trans; [|exact Hg']. by apply grown_send.
  - apply IH.
Qed.

Lemma drain_spec s attempt input :
  exists s' failed, drain_to_completed false stream turn s attempt input = Ok (s', failed) /\ grown s s'.
Proof.
  unfold drain_to_completed.
  destruct (stream attempt input) as [events stream_end].
  destruct (drain_events_spec events s) as (s1 & -> & Hg). cbn [rbind].
  destruct stream_end as [usage|e]; [|by eexists _, _].
  destruct (update_tokens_release s1 usage) as (s' & -> & Hs). cbn. eexists _, _. split; [done|].
  eapply grown_trans; [exact Hg|by apply same_grown].
Qed.

(** Each turn of the loop costs one unit: removals are bounded by the length of the
    history, retries between them by their limit. *)
Lemma compact_loop_spec fuel : forall attempt retries h s,
  (retries <= stream_max_retries turn)%N ->
  length (items h) * (N.to_nat (stream_max_retries turn) + 1)
    + (N.to_nat (stream_max_retries turn) - N.to_nat retries) < fuel ->
  exists s' failed, compact_loop false stream turn fuel attempt retries h s = Ok (s', failed) /\ grown s s'.
Proof.
  induction fuel as [|fuel IH]; intros attempt retries h s Hr Hf; [lia|].
  cbn [compact_loop]. unfold for_prompt. rewrite normalize_history_exact. cbn [andb panic_if rbind].
  set (turn_input := strip_images_when_unsupported _ _).
  destruct (drain_spec s attempt turn_input) as (s1 & failed & -> & Hg). cbn [rbind].
  destruct failed as [e|]; [|by eexists _, _].
  assert (forall message, exists s' failed,
    (if (retries <? stream_max_retries turn)%N
     then compact_loop false stream turn fuel (S attempt) (retries + 1) h (send_event s1 StreamError)
     else Ok (send_event s1 ErrorEvent, Some message)) = Ok (s', failed) /\ grown s s') as Hretry.
  { intros message. destruct (N.ltb_spec retries (stream_max_retries turn)) as [Hlt|Hge].
    2: { eexists _, _. split; [done|]. eapply grown_trans; [exact Hg|by apply grown_send]. }
    destruct (IH (S attempt) (retries + 1)%N h (send_event s1 StreamError)) as (s' & f & -> & Hg'); [lia|lia|].
    eexists _, _. split; [done|]. eapply grown_trans; [exact Hg|]. eapply grown_trans; [|exact Hg']. by apply grown_send. }
  destruct e as [| |  |message]; [by eexists _, _| |apply Hretry|apply Hretry].
  destruct (1 <? length turn_input) eqn:Elen.
  - apply Nat.ltb_lt in Elen. unfold remove_first_item. destruct (items h) as [|x rest] eqn:Eh.
    { subst turn_input. cbn in Elen. unfold strip_images_when_unsupported in Elen. case_match; cbn in Elen; lia. }
    destruct (IH (S attempt) 0%N (with_items h (remove_corresponding_for rest x)) s1)
      as (s' & f & -> & Hg'); [lia| |].
    + cbn [items with_items length] in *. pose proof (remove_corresponding_length rest x). nia.
    + eexists _, _. split; [done|]. by eapply grown_trans.
  - destruct (tokens_full_release s1) as (s' & -> & Hs). cbn [rbind]. eexists _, _. split; [done|].
    eapply grown_trans; [exact Hg|]. eapply grown_trans; [by apply same_grown|by apply grown_send].
Qed.
(** What the task installs, for the items the session then has. *)
Definition installed (history_items : list item) (summary : str)
  (injection : InitialContextInjection) (new_history : list item) : Prop :=
  exists base,
    build_compacted_history [] (collect_user_messages uuid history_items)
      (SUMMARY_PREFIX ++ [LF] ++ summary) = Ok base
    /\ new_history = match injection with
                     | BeforeLastUserMessage =>
                         insert_initial_context_before_last_real_user_or_summary uuid base
                           (initial_context turn)
                     | DoNotInject => base
                     end.

Definition logged (injection : InitialContextInjection) (summary : str) (new_history : list item)
  : list (RolloutItem Json Rest) :=
  Compacted (mkCompacted _ (SUMMARY_PREFIX ++ [LF] ++ summary) (Some new_history))
  :: match injection with
     | BeforeLastUserMessage => [RolloutTurnContext (turn_context_item turn)]
     | DoNotInject => []
     end.

(** What is announced after the replacement. *)
Definition announced : list (RolloutItem Json Rest) :=
  RolloutEvent <$> [TokenCount; ItemCompleted; ContextCompacted; WarningEvent].

Lemma compact_task_spec (s : Session Json Rest) (input : item) (injection : InitialContextInjection) :
  exists s' r recorded notes,
    run_compact_task_inner_impl uuid false stream turn s input injection = Ok (s', r) /\ Forall is_note notes
    /\ match r with
       | inl _ =>
           items (history s') = items (history s) ++ recorded
           /\ rollout s' = rollout s ++ notes
           /\ reference_context_item (history s') = reference_context_item (history s)
       | inr summary =>
           installed (items (history s) ++ recorded) summary injection (items (history s'))
           /\ summary = default [] (get_last_assistant_message_from_turn (items (history s) ++ recorded))
           /\ rollout s' = rollout s ++ notes ++ logged injection summary (items (history s')) ++ announced
           /\ reference_context_item (history s')
              = match injection with
                | BeforeLastUserMessage => Some (turn_context_item turn)
                | DoNotInject => None
                end
       end.
Proof.
  unfold run_compact_task_inner_impl. set (s0 := send_event s ItemStarted).
  destruct (record_grows (history s0) [input] (truncation_policy turn)) as [recorded ->]. cbn [rbind].
  set (h := with_items _ _).
  destruct (compact_loop_spec (compact_fuel turn h) 0 0 h s0) as (s1 & failed & -> & Hg);
    [lia|unfold compact_fuel; nia|]. cbn [rbind].
  destruct (grown_trans s s0 s1) as ((notes & Hr & Hn) & Hc & l & Hi); [by apply grown_send|done|].
  destruct failed as [e|]; [by exists s1, (inl e), l, notes|].
  set (summary := default [] _).
  destruct (build_total (Json:=Json) (collect_user_messages uuid (items (history s1)))
    (SUMMARY_PREFIX ++ [LF] ++ summary)) as [base E].
  rewrite E. cbn [rbind].
  match goal with |- context [recompute_token_usage turn ?x] =>
    destruct (recompute_release x) as (s' & -> & Hro & Hit & Href) end.
  cbn [rbind]. eexists _, (inr summary), l, notes. split; [done|]. split; [done|].
  cbn [send_event persist_rollout_items history rollout fmap list_fmap as_legacy_events].
  rewrite Hit, Hro, Href. unfold installed, logged, announced.
  rewrite <- Hi, E. destruct injection; cbn; rewrite Hr, <- !app_assoc; split_and!; eauto.
Qed.
End task.

(** The hooks leave notes and nothing else. *)
Lemma hooks_note {Json Rest} (s : Session Json Rest) hooks :
  (exists notes, rollout (run_compact_hooks s hooks) = rollout s ++ notes /\ Forall is_note notes)
  /\ items (history (run_compact_hooks s hooks)) = items (history s)
  /\ reference_context_item (history (run_compact_hooks s hooks)) = reference_context_item (history s).
Proof.
  assert (forall msgs s, history (foldl send_event s msgs) = history (s : Session Json Rest)) as Hh.
  { induction msgs as [|m msgs IH]; intros s0; [done|]. cbn. by rewrite IH. }
  unfold run_compact_hooks at 2 3. rewrite !Hh. split; [|done]. apply (grown_hooks s hooks).
Qed.


(** ** Trimming before remote compaction *)

Section trim.
Context {Json Rest : Type} `{Deserializers} `{Estimators Json} (turn : CompactTurn (Json:=Json) (Rest:=Rest)).
Abbreviation manager := (ContextManager Json (TurnContextItem Rest)).

Definition estimated_tokens (h : manager) : Z :=
  i64_saturating_add (i64_of_usize (approx_token_count (base_instructions turn)))
    (Z.min i64_max (tokens_of (items h))).

Lemma remove_last_shorter (h h' : manager) :
  remove_last_item h = (h', true) -> length (items h') < length (items h).
Proof.
  unfold remove_last_item, pop. destruct (reverse (items h)) as [|x rest] eqn:E; [done|].
  intros [= <-]. cbn [items bump with_items]. pose proof (remove_corresponding_length (reverse rest) x).
  rewrite length_reverse in *. rewrite <- (length_reverse (items h)), E. cbn. lia.
Qed.

Lemma trim_window_loop_spec fuel : forall (h : manager) window deleted,
  length (items h) < fuel ->
  exists h' deleted', trim_window_loop turn fuel h window deleted = Ok (h', deleted')
    /\ (well_paired (items h) -> well_paired (items h'))
    /\ ((estimated_tokens h' <= window)%Z
        \/ is_some_and (last (items h')) is_codex_generated_item = false).
Proof.
  induction fuel as [|fuel IH]; intros h window deleted Hf; [lia|].
  cbn [trim_window_loop]. unfold estimate_token_count_with_base_instructions.
  rewrite sum_items_exact. cbn [rbind is_some_and]. fold (estimated_tokens h).
  destruct (Z.ltb_spec window (estimated_tokens h)) as [Hover|Hfits]; [|by eexists _, _; eauto].
  destruct (last (items h)) as [last_item|] eqn:El; [|by eexists _, _; rewrite El; eauto].
  destruct (is_codex_generated_item last_item) eqn:Eg; cbn [negb].
  2: { eexists _, _. split; [done|]. split; [done|]. right. by rewrite El. }
  destruct (remove_last_item h) as [h1 removed] eqn:Er. destruct removed.
  - pose proof (remove_last_shorter _ _ Er).
    destruct (IH h1 window (S deleted)) as (h' & d' & -> & Hp & Hend); [lia|].
    eexists _, _. split; [done|]. split; [|done]. intros Hw. apply Hp.
    pose proof (proj2 (removal_keeps_pairing h Hw)) as Hw'. by rewrite Er in Hw'.
  - unfold remove_last_item, pop in Er. destruct (reverse (items h)) eqn:E; [|done].
    injection Er as <-. eexists _, _. split; [done|]. split; [done|]. right.
    assert (items h = []) as -> by (rewrite <- (reverse_involutive (items h)), E; done). done.
Qed.

(** Before a remote compaction, items the client made are removed from the end until the
    estimate fits the context window or none is left there; calls and outputs stay matched. *)
Theorem remote_trim_keeps_pairing (h : manager) :
  exists h' deleted, trim_function_call_history_to_fit_context_window turn h = Ok (h', deleted)
    /\ (well_paired (items h) -> well_paired (items h'))
    /\ forall window, turn_context_window turn = Some window ->
        (estimated_tokens h' <= window)%Z
        \/ is_some_and (last (items h')) is_codex_generated_item = false.
Proof.
  unfold trim_function_call_history_to_fit_context_window.
  destruct (turn_context_window turn) as [window|]; [|by eexists _, _].
  destruct (trim_window_loop_spec (S (length (items h))) h window 0) as (h' & d & -> & Hp & Hend); [lia|].
  eexists _, _. split_and!; [done|done|]. by intros ? [= <-].
Qed.
End trim.

(** ** An instance *)

(** The first attempt is too long, the second writes a summary. *)
Definition sample_stream (attempt : nat) (input : list (ResponseItem unit))
  : list (ResponseEvent (Json:=unit)) * StreamEnd :=
  match attempt with
  | 0 => ([], StreamFailed ContextWindowExceeded)
  | _ => ([RateLimits; OutputItemDone (Message None (L"assistant") [OutputText (L"done so far")] None)], StreamCompleted None)
  end.

Definition sample_turn : CompactTurn (Json:=unit) (Rest:=unit) :=
  mkCompactTurn (Bytes 100) [] 1 None [] (mkTurnContext _ None (L"m") None tt) [].

Definition sample_session : Session unit unit :=
  mkSession (mkManager _ _ [user_item (L"hello")] 0 None None) [RolloutResponse (user_item (L"hello"))].

#[export] Instance sample_estimators : Estimators unit :=
  {| serialized_len := fun _ => Some 8%N; image_dimensions := fun _ => None |}.
#[export] Instance sample_deserializers : Deserializers :=
  {| from_xml_str := fun _ => None; from_inter_agent_json := fun _ => None |}.

(** The history is replaced by the message and the summary, and the replacement is logged. *)
Example compaction_example :
  exists s', run_compact_task_inner [] false sample_stream sample_turn (mkCompactHooks 1 1 false) (mkCompactHooks 0 0 false)
      sample_session (user_item (L"summarize")) DoNotInject = Ok (s', inr tt)
    /\ items (history s') = [user_item (L"hello"); user_item (SUMMARY_PREFIX ++ [LF] ++ L"done so far")]
    /\ rollout s' = rollout sample_session
         ++ (RolloutEvent <$> [HookStarted; HookCompleted; ItemStarted; TokenCount; TokenCount])
         ++ logged sample_turn DoNotInject (L"done so far") (items (history s')) ++ announced.
Proof. eexists. split_and!; vm_compute; reflexivity. Qed.
