(* ===== verification/RolloutReplay.v ===== *)
(** * Replaying a rollout (core/src/session/rollout_reconstruction.rs,
      core/src/thread_rollout_truncation.rs; core/src/session/mod.rs, handlers.rs)

    A thread is resumed, forked or rolled back by replaying its log: newest to
    oldest for the settings of the last turn and for the newest checkpoint, then
    forward from there for the history.  The rollback of turns is an entry of the
    log like the others. *)

From S2P Require Import Prelude RustStr OutputTruncation ConversationItems HistoryNormalize ContextManager TokenEstimate TurnItems Compaction.

Record PreviousTurnSettings := mkSettings {
  settings_model : str;
  settings_realtime_active : option bool }.

Section replay.
Context {Json Rest : Type} `{Deserializers} (uuid : str) (debug_assertions : bool).
Abbreviation item := (ResponseItem Json).
Abbreviation manager := (ContextManager Json (TurnContextItem Rest)).
Abbreviation rollout_item := (RolloutItem Json Rest).

Inductive TurnReferenceContextItem :=
| NeverSet
| Cleared
| Latest (item : TurnContextItem Rest).

Record ActiveReplaySegment := mkSegment {
  seg_turn_id : option str;
  counts_as_user_turn : bool;
  seg_settings : option PreviousTurnSettings;
  seg_reference : TurnReferenceContextItem;
  seg_base : option (list item) }.

Definition no_segment : ActiveReplaySegment := mkSegment None false None NeverSet None.

Record Reconstruction := mkReconstruction {
  rec_history : list item;
  rec_settings : option PreviousTurnSettings;
  rec_reference : option (TurnContextItem Rest) }.

(** The variables of the reverse scan. *)
Record Replay := mkReplay {
  base_replacement_history : option (list item);
  previous_turn_settings : option PreviousTurnSettings;
  reference_item : TurnReferenceContextItem;
  pending_rollback_turns : N;
  rollout_suffix : list rollout_item;
  active_segment : option ActiveReplaySegment }.

Definition turn_ids_are_compatible (active_turn_id item_turn_id : option str) : bool :=
  match active_turn_id, item_turn_id with
  | Some turn_id, Some item_turn_id => str_eqb item_turn_id turn_id
  | _, _ => true
  end.

Definition is_never_set (r : TurnReferenceContextItem) : bool :=
  match r with NeverSet => true | _ => false end.
Definition is_cleared (r : TurnReferenceContextItem) : bool :=
  match r with Cleared => true | _ => false end.

Definition finalize_active_segment (seg : ActiveReplaySegment) (st : Replay) : Replay :=
  if (0 <? pending_rollback_turns st)%N then
    mkReplay (base_replacement_history st) (previous_turn_settings st) (reference_item st)
      (if counts_as_user_turn seg then pending_rollback_turns st - 1 else pending_rollback_turns st)
      (rollout_suffix st) None
  else
    mkReplay
      (match base_replacement_history st with Some b => Some b | None => seg_base seg end)
      (match previous_turn_settings st with
       | Some p => Some p
       | None => if counts_as_user_turn seg then seg_settings seg else None
       end)
      (if is_never_set (reference_item st)
          && (counts_as_user_turn seg || is_cleared (seg_reference seg))
       then seg_reference seg else reference_item st)
      (pending_rollback_turns st) (rollout_suffix st) None.

(** *** One entry of the log *)

Definition with_active (st : Replay) (seg : ActiveReplaySegment) : Replay :=
  mkReplay (base_replacement_history st) (previous_turn_settings st) (reference_item st)
    (pending_rollback_turns st) (rollout_suffix st) (Some seg).
Definition with_suffix (st : Replay) (suffix : list rollout_item) : Replay :=
  mkReplay (base_replacement_history st) (previous_turn_settings st) (reference_item st)
    (pending_rollback_turns st) suffix (active_segment st).
Definition with_pending (st : Replay) (pending : N) : Replay :=
  mkReplay (base_replacement_history st) (previous_turn_settings st) (reference_item st)
    pending (rollout_suffix st) (active_segment st).

(** [get_or_insert_with(ActiveReplaySegment::default)] *)
Definition segment (st : Replay) : ActiveReplaySegment := default no_segment (active_segment st).

Definition set_turn_id (seg : ActiveReplaySegment) (turn_id : option str) : ActiveReplaySegment :=
  match seg_turn_id seg with
  | Some _ => seg
  | None => mkSegment turn_id (counts_as_user_turn seg) (seg_settings seg) (seg_reference seg) (seg_base seg)
  end.
Definition set_user_turn (seg : ActiveReplaySegment) (b : bool) : ActiveReplaySegment :=
  mkSegment (seg_turn_id seg) (counts_as_user_turn seg || b) (seg_settings seg) (seg_reference seg)
    (seg_base seg).
Definition set_reference (seg : ActiveReplaySegment) (r : TurnReferenceContextItem) : ActiveReplaySegment :=
  if is_never_set (seg_reference seg)
  then mkSegment (seg_turn_id seg) (counts_as_user_turn seg) (seg_settings seg) r (seg_base seg)
  else seg.
Definition set_settings (seg : ActiveReplaySegment) (p : PreviousTurnSettings) : ActiveReplaySegment :=
  mkSegment (seg_turn_id seg) (counts_as_user_turn seg) (Some p) (seg_reference seg) (seg_base seg).
Definition set_base (seg : ActiveReplaySegment) (l : list item) : ActiveReplaySegment :=
  mkSegment (seg_turn_id seg) (counts_as_user_turn seg) (seg_settings seg) (seg_reference seg) (Some l).

Definition replay_step (rollout_items : list rollout_item) (index : nat) (i : rollout_item)
  (st : Replay) : Replay :=
  match i with
  | Compacted compacted =>
      let seg := set_reference (segment st) Cleared in
      match seg_base seg, replacement_history compacted with
      | None, Some l => with_suffix (with_active st (set_base seg l)) (drop (S index) rollout_items)
      | _, _ => with_active st seg
      end
  | RolloutEvent (ThreadRolledBack num_turns) =>
      with_pending st (saturating_add (pending_rollback_turns st) num_turns)
  | RolloutEvent (TurnComplete turn_id) => with_active st (set_turn_id (segment st) (Some turn_id))
  | RolloutEvent (TurnAborted turn_id) =>
      match active_segment st, turn_id with
      | Some seg, _ => with_active st (set_turn_id seg turn_id)
      | None, Some turn_id => with_active st (set_turn_id no_segment (Some turn_id))
      | None, None => st
      end
  | RolloutEvent UserMessageEvent => with_active st (set_user_turn (segment st) true)
  | RolloutTurnContext ctx =>
      let seg := set_turn_id (segment st) (ctx_turn_id ctx) in
      if turn_ids_are_compatible (seg_turn_id seg) (ctx_turn_id ctx)
      then with_active st
             (set_reference (set_settings seg (mkSettings (ctx_model ctx) (ctx_realtime_active ctx)))
                (Latest ctx))
      else with_active st seg
  | RolloutEvent (TurnStarted turn_id) =>
      match active_segment st with
      | Some seg =>
          if turn_ids_are_compatible (seg_turn_id seg) (Some turn_id)
          then finalize_active_segment seg st else st
      | None => st
      end
  | RolloutResponse response_item =>
      with_active st (set_user_turn (segment st) (is_user_turn_boundary response_item))
  | RolloutEvent _ | SessionMeta => st
  end.

Definition is_complete (st : Replay) : bool :=
  negb (is_none (base_replacement_history st)) && negb (is_none (previous_turn_settings st))
  && negb (is_never_set (reference_item st)).

(** [for (index, item) in rollout_items.iter().enumerate().rev()] *)
Fixpoint replay_loop (rollout_items : list rollout_item) (index : nat) (st : Replay) : Replay :=
  match index with
  | 0 => st
  | S index =>
      match rollout_items !! index with
      | None => st
      | Some i =>
          let st := replay_step rollout_items index i st in
          if is_complete st then st else replay_loop rollout_items index st
      end
  end.

Definition replay_scan (rollout_items : list rollout_item) : Replay :=
  let st := replay_loop rollout_items (length rollout_items)
              (mkReplay None None NeverSet 0 rollout_items None) in
  match active_segment st with Some seg => finalize_active_segment seg st | None => st end.

(** *** The history, forward; and whether an old compaction was met *)

Definition materialize_step (policy : TruncationPolicy) (h : manager) (saw_legacy : bool)
  (i : rollout_item) : result unit (manager * bool) :=
  match i with
  | RolloutResponse response_item =>
      let? h := record_items h [response_item] policy in Ok (h, saw_legacy)
  | Compacted compacted =>
      match replacement_history compacted with
      | Some l => Ok (replace h l, saw_legacy)
      | None =>
          let user_messages := collect_user_messages uuid (items h) in
          let? rebuilt := build_compacted_history [] user_messages (compacted_message compacted) in
          Ok (replace h rebuilt, true)
      end
  | RolloutEvent (ThreadRolledBack num_turns) =>
      let? h := drop_last_n_user_turns h num_turns in Ok (h, saw_legacy)
  | RolloutEvent _ | RolloutTurnContext _ | SessionMeta => Ok (h, saw_legacy)
  end.

Fixpoint materialize (policy : TruncationPolicy) (h : manager) (saw_legacy : bool)
  (l : list rollout_item) : result unit (manager * bool) :=
  match l with
  | [] => Ok (h, saw_legacy)
  | i :: rest =>
      let? (h, saw_legacy) := materialize_step policy h saw_legacy i in
      materialize policy h saw_legacy rest
  end.

Definition reconstruct_history_from_rollout (policy : TruncationPolicy)
  (rollout_items : list rollout_item) : result unit Reconstruction :=
  let st := replay_scan rollout_items in
  let? h := ContextManager.new debug_assertions in
  let h := match base_replacement_history st with Some l => replace h l | None => h end in
  let? (h, saw_legacy) := materialize policy h false (rollout_suffix st) in
  let reference := match reference_item st with
                   | NeverSet | Cleared => None
                   | Latest ctx => Some ctx
                   end in
  Ok (mkReconstruction (items h) (previous_turn_settings st)
        (if saw_legacy then None else reference)).

(** *** What is stored (rollout/src/policy.rs) *)

Definition should_persist_response_item (i : item) : bool :=
  match i with Other => false | _ => true end.

Definition should_persist_response_item_for_memories (i : item) : bool :=
  match i with
  | Message _ role _ _ => negb (str_eqb role (L"developer"))
  | Reasoning _ _ _ _ | ImageGenerationCall _ _ _ _ | Compaction _ | ContextCompaction _ | Other => false
  | _ => true
  end.

Definition event_msg_persistence_mode (ev : EventMsg) : option EventPersistenceMode :=
  match ev with
  | UserMessageEvent | TokenCount | ContextCompacted | ThreadRolledBack _ | TurnAborted _ | TurnStarted _
  | TurnComplete _ => Some Limited
  | ErrorEvent => Some Extended
  | ItemCompleted | WarningEvent | RawResponseItem | StreamError | ItemStarted | HookStarted | HookCompleted => None
  | OtherEvent mode => mode
  end.
Definition should_persist_event_msg (ev : EventMsg) (mode : EventPersistenceMode) : bool :=
  match mode, event_msg_persistence_mode ev with
  | Limited, Some Limited => true
  | Extended, Some _ => true
  | _, _ => false
  end.

Definition is_persisted_rollout_item (mode : EventPersistenceMode) (i : rollout_item) : bool :=
  match i with
  | RolloutResponse i => should_persist_response_item i
  | RolloutEvent ev => should_persist_event_msg ev mode
  | Compacted _ | RolloutTurnContext _ | SessionMeta => true
  end.

(** *** The session *)

(** The settings that are set, with the session. *)
Definition apply_rollout_reconstruction (policy : TruncationPolicy) (s : Session Json Rest)
  (rollout_items : list rollout_item) : result unit (Session Json Rest * option PreviousTurnSettings) :=
  let? r := reconstruct_history_from_rollout policy rollout_items in
  Ok (replace_history s (rec_history r) (rec_reference r), rec_settings r).

Inductive RollbackError :=
| NumTurnsZero
| TurnInProgress
| NotPersisted
| FlushFailed
| LoadFailed.

(** [load_history] gives the stored log, or the reason it cannot; the marker is taken to
    be flushed. *)
Definition thread_rollback `{Estimators Json} (turn : CompactTurn (Json:=Json) (Rest:=Rest))
  (has_active_turn : bool) (load_history : Session Json Rest -> RollbackError + list rollout_item)
  (s : Session Json Rest) (num_turns : N)
  : result unit (RollbackError + Session Json Rest * option PreviousTurnSettings) :=
  if (num_turns =? 0)%N then Ok (inl NumTurnsZero)
  else if has_active_turn then Ok (inl TurnInProgress)
  else
    match load_history s with
    | inl e => Ok (inl e)
    | inr stored =>
        let rollback_msg := RolloutEvent (ThreadRolledBack num_turns) in
        let? (s, settings) :=
          apply_rollout_reconstruction (truncation_policy turn) s (stored ++ [rollback_msg]) in
        let? s := recompute_token_usage turn s in
        Ok (inr (persist_rollout_items s [rollback_msg], settings))
    end.

(** ** Truncating a rollout *)

Definition rollout_item_is_user_turn_boundary (i : rollout_item) : bool :=
  match i with RolloutResponse i => is_user_turn_boundary i | _ => false end.

Inductive InitialHistory := InitialNew | InitialCleared | Resumed (l : list rollout_item) | Forked (l : list rollout_item).

Definition scan_rollout_items (predicate : rollout_item -> bool) (h : InitialHistory) : bool :=
  match h with
  | InitialNew | InitialCleared => false
  | Resumed l | Forked l => existsb predicate l
  end.
Definition initial_history_has_prior_user_turns (h : InitialHistory) : bool :=
  scan_rollout_items rollout_item_is_user_turn_boundary h.

Definition is_real_user_message_boundary (i : item) : bool :=
  match parse_turn_item uuid i with Some (TurnUserMessage _) => true | _ => false end.

Definition is_trigger_turn_boundary (i : item) : bool :=
  match i with
  | Message _ role content _ =>
      str_eqb role (L"assistant")
      && match from_message_content content with Some trigger_turn => trigger_turn | None => false end
  | _ => false
  end.

(** The loop of [user_message_positions_in_rollout]. *)
Fixpoint positions_loop (idx : nat) (l : list rollout_item) (user_positions : list nat) : list nat :=
  match l with
  | [] => user_positions
  | i :: rest =>
      positions_loop (S idx) rest
        (match i with
         | RolloutResponse (Message _ _ _ _ as i) =>
             if is_real_user_message_boundary i then user_positions ++ [idx] else user_positions
         | RolloutEvent (ThreadRolledBack num_turns) =>
             take (length user_positions - N.to_nat num_turns) user_positions
         | _ => user_positions
         end)
  end.
Definition user_message_positions_in_rollout (l : list rollout_item) : list nat := positions_loop 0 l [].

(** The two lists of [fork_turn_positions_in_rollout] after one entry. *)
Definition fork_step (idx : nat) (i : rollout_item) (acc : list nat * list nat) : list nat * list nat :=
  let '(rollback_turn_positions, fork_turn_positions) := acc in
  match i with
  | RolloutResponse i =>
      (if is_user_turn_boundary i then rollback_turn_positions ++ [idx] else rollback_turn_positions,
       if is_real_user_message_boundary i || is_trigger_turn_boundary i
       then fork_turn_positions ++ [idx] else fork_turn_positions)
  | RolloutEvent (ThreadRolledBack num_turns) =>
      let num_turns := N.to_nat num_turns in
      if num_turns =? 0 then acc
      else
        let start :=
          if num_turns <=? length rollback_turn_positions
          then rollback_turn_positions !! (length rollback_turn_positions - num_turns)
          else head rollback_turn_positions in
        match start with
        | None => acc
        | Some rollback_start_idx =>
            (take (length rollback_turn_positions - num_turns) rollback_turn_positions,
             filter (fun position => position < rollback_start_idx) fork_turn_positions)
        end
  | _ => acc
  end.
Fixpoint fork_loop (idx : nat) (l : list rollout_item) (acc : list nat * list nat) : list nat * list nat :=
  match l with [] => acc | i :: rest => fork_loop (S idx) rest (fork_step idx i acc) end.
Definition fork_turn_positions_in_rollout (l : list rollout_item) : list nat :=
  snd (fork_loop 0 l ([], [])).

(** [n_from_start] is [None] for [usize::MAX]. *)
Definition truncate_rollout_before_nth_user_message_from_start (l : list rollout_item)
  (n_from_start : option nat) : result unit (list rollout_item) :=
  match n_from_start with
  | None => Ok l
  | Some n =>
      let user_positions := user_message_positions_in_rollout l in
      if length user_positions <=? n then Ok l
      else let? cut_idx := index user_positions n in Ok (take cut_idx l)
  end.

Definition truncate_rollout_to_last_n_fork_turns (l : list rollout_item) (n_from_end : nat)
  : result unit (list rollout_item) :=
  if n_from_end =? 0 then Ok []
  else
    let fork_turn_positions := fork_turn_positions_in_rollout l in
    if length fork_turn_positions <=? n_from_end then Ok l
    else let? keep_idx := index fork_turn_positions (length fork_turn_positions - n_from_end) in
         Ok (drop keep_idx l).

(** core/src/thread_manager.rs *)
Record SnapshotTurnState := mkSnapshot {
  ends_mid_turn : bool;
  active_turn_id : option str;
  active_turn_start_index : option nat }.

Definition get_rollout_items (h : InitialHistory) : list rollout_item :=
  match h with InitialNew | InitialCleared => [] | Resumed l | Forked l => l end.

Definition truncate_before_nth_user_message (h : InitialHistory) (n : option nat)
  (snapshot_state : SnapshotTurnState) : result unit InitialHistory :=
  let l := get_rollout_items h in
  let user_positions := user_message_positions_in_rollout l in
  let past_end := match n with Some n => length user_positions <=? n | None => true end in
  let? rolled :=
    (if ends_mid_turn snapshot_state && past_end then
       match or_else (active_turn_start_index snapshot_state) (last user_positions) with
       | Some cut_idx => if cut_idx <=? length l then Ok (take cut_idx l) else Panic
       | None => Ok l
       end
     else truncate_rollout_before_nth_user_message_from_start l n) in
  Ok (if is_nil rolled then InitialNew else Forked rolled).
End replay.
