(* ===== verification/RolloutSafety.v ===== *)
(** * Replay: history, settings, and the live session

    The history that replay rebuilds is the one a forward replay of the whole log
    gives, unless the checkpoint it starts from was rolled back; the settings are
    those of the turns that survive the rollbacks; and a session that is resumed
    has the history it had when it was left. *)

From S2P Require Import Prelude RustStr OutputTruncation ConversationItems HistoryNormalize ContextManager TokenEstimate TurnItems Compaction CompactionSafety RolloutReplay.

(** ** The history, from the items alone *)

Section forward.
Context {Json Rest : Type} `{Deserializers} (uuid : str) (policy : TruncationPolicy).
Abbreviation item := (ResponseItem Json).
Abbreviation manager := (ContextManager Json (TurnContextItem Rest)).
Abbreviation rollout_item := (RolloutItem Json Rest).

Lemma trim_reference_free (r r' : option (TurnContextItem Rest)) (snapshot : list item) first cut n r1 :
  trim_pre_turn_context_updates r snapshot first cut = Ok (n, r1) ->
  exists r2, trim_pre_turn_context_updates r' snapshot first cut = Ok (n, r2).
Proof.
  revert r r'. induction cut as [|prev IH]; intros r r'; cbn [trim_pre_turn_context_updates].
  { intros [= <- _]. eauto. }
  destruct (first <? S prev); [|intros [= <- _]; eauto].
  destruct (index snapshot prev) as [i| | |]; cbn [rbind]; try done.
  destruct i; try (intros [= <- _]; by eauto). case_match; [by apply IH|].
  case_match; [by apply IH|]. intros [= <- _]. eauto.
Qed.

(** Rolling back never fails, and what is kept depends on the items only. *)
Lemma drop_items (h : manager) n :
  exists kept, forall h' : manager, items h' = items h ->
    exists h1, drop_last_n_user_turns h' n = Ok h1 /\ items h1 = kept.
Proof.
  destruct (decide (n = 0%N)) as [->|Hn].
  { exists (items h). intros h' Hi. by exists h'. }
  destruct (drop_last_n_spec h n Hn) as (kept & t & d & _ & _ & _ & _ & _ & _ & E).
  exists kept. intros h' Hi. revert E. unfold drop_last_n_user_turns. rewrite Hi.
  rewrite (proj2 (N.eqb_neq _ _)) by done.
  destruct (user_message_positions (items h)) as [|first rest].
  { intros [= <-]. eexists. split; [done|]. cbn. congruence. }
  destruct (if length (first :: rest) <=? N.to_nat n then Ok first
            else index (first :: rest) (length (first :: rest) - N.to_nat n)) as [cut| | |]; cbn [rbind]; try done.
  destruct (trim_pre_turn_context_updates (reference_context_item h) (items h) first cut)
    as [[c r]| | |] eqn:Et; cbn [rbind]; try done.
  destruct (trim_reference_free _ (reference_context_item h') _ _ _ _ _ Et) as [r2 ->]. cbn [rbind].
  destruct (c <=? length (items h)); [|done]. intros [= <-]. by eexists.
Qed.

Definition is_legacy (i : rollout_item) : bool :=
  match i with Compacted c => is_none (replacement_history c) | _ => false end.

(** A manager with nothing but items. *)
Definition bare (l : list item) : manager := mkManager _ _ l 0 None None.

Lemma step_items (l : list item) (i : rollout_item) :
  exists l', forall h saw, items h = l ->
    exists h', materialize_step uuid policy h saw i = Ok (h', saw || is_legacy i) /\ items h' = l'.
Proof.
  destruct i as [|response|compacted|ctx|[]]; cbn [materialize_step is_legacy];
    try (exists l; intros h saw Hl; exists h; by rewrite orb_false_r).
  - destruct (record_items_appends (bare l) [response] policy) as (recorded & E & _).
    exists (l ++ recorded). intros h saw <-. cbn [record_items] in *.
    destruct (is_api_message response).
    + destruct (process_item response policy) as [p| | |]; cbn [rbind] in *; try done.
      injection E as E. eexists. rewrite orb_false_r. split; [done|]. cbn. by rewrite <- E.
    + injection E as E. eexists. rewrite orb_false_r. split; [done|]. cbn. by rewrite <- E.
  - destruct (replacement_history compacted) as [l'|]; cbn [is_none].
    + exists l'. intros h saw _. eexists. by rewrite orb_false_r.
    + destruct (build_total (Json:=Json) (collect_user_messages uuid l) (compacted_message compacted)) as [out E].
      exists out. intros h saw ->. rewrite E. cbn. eexists. by rewrite orb_true_r.
  - destruct (drop_items (bare l) num_turns) as [kept Hk]. exists kept. intros h saw Hl.
    destruct (Hk h Hl) as (h1 & -> & Hi). cbn. eexists. by rewrite orb_false_r.
Qed.

(** What forward replay makes of a history. *)
Definition replayed (l : list item) (log : list rollout_item) : list item :=
  match materialize uuid policy (bare l) false log with Ok (h, _) => items h | _ => [] end.

Lemma materialize_replayed log : forall h saw,
  exists h', materialize uuid policy h saw log = Ok (h', saw || existsb is_legacy log)
    /\ items h' = replayed (items h) log.
Proof.
  unfold replayed. induction log as [|i log IH]; intros h saw; cbn [materialize existsb].
  { exists h. by rewrite orb_false_r. }
  destruct (step_items (items h) i) as (l' & Hl').
  destruct (Hl' h saw eq_refl) as (h1 & -> & Hi1). destruct (Hl' (bare (items h)) false eq_refl) as (h2 & -> & Hi2).
  cbn [rbind orb]. destruct (IH h1 (saw || is_legacy i)) as (h' & -> & Hh').
  destruct (IH h2 (is_legacy i)) as (h'' & -> & Hh''). exists h'. rewrite orb_assoc. split; [done|].
  by rewrite Hh', Hh'', Hi1, Hi2.
Qed.

Lemma replayed_app l a b : replayed l (a ++ b) = replayed (replayed l a) b.
Proof.
  revert l. induction a as [|i a IH]; intros l; [done|].
  assert (forall l i log, exists l', replayed l (i :: log) = replayed l' log
    /\ forall h saw, items h = l -> exists h', materialize_step uuid policy h saw i = Ok (h', saw || is_legacy i)
         /\ items h' = l') as Hcons.
  { clear. intros l i log. destruct (step_items l i) as (l' & Hl'). exists l'. split; [|done].
    unfold replayed at 1. cbn [materialize]. destruct (Hl' (bare l) false eq_refl) as (h' & -> & Hi). cbn [rbind].
    destruct (materialize_replayed log h' (false || is_legacy i)) as (h2 & -> & ->). by rewrite Hi. }
  destruct (Hcons l i (a ++ b)) as (l1 & E1 & H1), (Hcons l i a) as (l2 & E2 & H2).
  cbn [app]. rewrite E1, E2, IH. do 2 f_equal.
  destruct (H1 (bare l) false eq_refl) as (h1 & Eh1 & <-), (H2 (bare l) false eq_refl) as (h2 & Eh2 & <-). congruence.
Qed.

Definition checkpoint_of (i : rollout_item) : option (list item) :=
  match i with Compacted c => replacement_history c | _ => None end.
Definition has_checkpoint (log : list rollout_item) : Prop := exists i, i ∈ log /\ is_Some (checkpoint_of i).

Lemma replayed_checkpoint l i l' log :
  checkpoint_of i = Some l' -> replayed l (i :: log) = replayed l' log.
Proof.
  destruct i as [| |c| |]; cbn; try done. intros E. unfold replayed at 1. cbn [materialize materialize_step].
  rewrite E. cbn [rbind]. by destruct (materialize_replayed log (replace (bare l) l') false) as (h & -> & ->).
Qed.

(** A checkpoint makes everything before it irrelevant. *)
Lemma replayed_past_checkpoint l l' log : has_checkpoint log -> replayed l log = replayed l' log.
Proof.
  intros (i & Hi & x & Hx). apply list_elem_of_split in Hi as (a & b & ->).
  by rewrite !replayed_app, !(replayed_checkpoint _ _ _ _ Hx).
Qed.

(** ** The reverse scan and the suffix it leaves *)

Definition seg_base_of (st : Replay (Json:=Json) (Rest:=Rest)) : option (list item) :=
  seg ← active_segment st; seg_base seg.

(** Either no checkpoint was met, or the suffix starts after one; if no other is in the
    suffix, no other is the base. *)
Definition suffix_ok (log : list rollout_item) (index : nat) (st : Replay) : Prop :=
  (rollout_suffix st = log /\ base_replacement_history st = None /\ seg_base_of st = None)
  \/ exists pre i l, log = pre ++ i :: rollout_suffix st /\ checkpoint_of i = Some l /\ index <= length pre
       /\ (has_checkpoint (rollout_suffix st)
           \/ ((base_replacement_history st = None \/ base_replacement_history st = Some l)
               /\ (seg_base_of st = None \/ seg_base_of st = Some l))).

Lemma finalize_suffix_ok log index seg st :
  active_segment st = Some seg -> suffix_ok log index st ->
  suffix_ok log index (finalize_active_segment seg st).
Proof.
  intros Hseg. unfold suffix_ok, seg_base_of, finalize_active_segment. rewrite Hseg. cbn [mbind option_bind].
  destruct (0 <? pending_rollback_turns st)%N; cbn.
  - intros [(-> & -> & _)|(pre & i & l & ? & ? & ? & [?|[? _]])]; [by left| |];
      right; exists pre, i, l; split_and!; auto.
  - intros [(-> & -> & Hb)|(pre & i & l & ? & ? & ? & [?|[Hb Hs]])]; [left; by rewrite Hb| |];
      right; exists pre, i, l; split_and!; auto.
    right. split; [|by left]. destruct Hb as [-> | ->]; auto.
Qed.

Lemma step_suffix_ok log index i st :
  log !! index = Some i -> suffix_ok log (S index) st -> suffix_ok log index (replay_step log index i st).
Proof.
  intros Hi Hok.
  assert (forall seg st', rollout_suffix st' = rollout_suffix st ->
    base_replacement_history st' = base_replacement_history st -> active_segment st' = Some seg ->
    seg_base seg = seg_base_of st -> suffix_ok log index st') as Hsame.
  { intros seg st' Hsuf Hbase Hact Hseg. unfold suffix_ok in *. unfold seg_base_of at 1 2 3. rewrite Hact.
    cbn [mbind option_bind]. rewrite Hsuf, Hbase, Hseg.
    destruct Hok as [?|(pre & x & l & ? & ? & ? & ?)]; [by left|right]. exists pre, x, l. split_and!; auto. lia. }
  assert (suffix_ok log index st) as Hst.
  { destruct Hok as [?|(pre & x & l & ? & ? & ? & ?)]; [by left|right]. exists pre, x, l. split_and!; auto. lia. }
  assert (seg_base (segment st) = seg_base_of st) as Hsegb.
  { unfold segment, seg_base_of. by destruct (active_segment st). }
  assert (forall seg id, seg_base (set_turn_id (Json:=Json) (Rest:=Rest) seg id) = seg_base seg) as Hid.
  { intros seg id. unfold set_turn_id. by destruct (seg_turn_id seg). }
  assert (forall seg r, seg_base (set_reference (Json:=Json) (Rest:=Rest) seg r) = seg_base seg) as Href.
  { intros seg r. unfold set_reference. by destruct (is_never_set _). }
  destruct i as [|response|compacted|ctx|[turn_id|turn_id|turn_id| |n| | | | | | | | | | |]]; cbn [replay_step]; try exact Hst.
  - by eapply Hsame.
  - rewrite Href, Hsegb. destruct (seg_base_of st) as [b|] eqn:Eb;
      [by eapply Hsame; [..|rewrite Href, Hsegb]|].
    destruct (replacement_history compacted) as [l|] eqn:El; [|by eapply Hsame; [..|rewrite Href, Hsegb]].
    right. exists (take index log), (Compacted compacted), l. cbn [rollout_suffix with_suffix].
    split_and!; [by rewrite take_drop_middle|done|rewrite length_take; apply lookup_lt_Some in Hi; lia|].
    destruct Hok as [(_ & Hb & _)|(pre & x & l' & Hlog & Hx & Hlen & _)].
    + right. cbn. by auto.
    + left. exists x. split; [|by eexists]. apply list_elem_of_lookup. exists (length pre - S index).
      rewrite lookup_drop, Hlog. replace (S index + (length pre - S index)) with (length pre) by lia.
      by rewrite list_lookup_middle.
  - case_match; (eapply Hsame; [done|done|done|]); rewrite ?Href; cbn [seg_base set_settings]; by rewrite Hid.
  - destruct (active_segment st) as [seg|] eqn:Ea; [|done]. case_match; [|done]. by apply finalize_suffix_ok.
  - eapply Hsame; [done|done|done|]. by rewrite Hid.
  - destruct (active_segment st) as [seg|] eqn:Ea.
    + eapply Hsame; [done|done|done|]. rewrite Hid. unfold seg_base_of. by rewrite Ea.
    + destruct turn_id; [|done]. eapply Hsame; [done|done|done|]. unfold seg_base_of. by rewrite Ea.
  - by eapply Hsame.
Qed.

Lemma scan_suffix_ok log : suffix_ok log 0 (replay_scan log).
Proof.
  assert (forall n st, n <= length log -> suffix_ok log n st -> suffix_ok log 0 (replay_loop log n st)) as Hloop.
  { induction n as [|n IH]; intros st Hn Hok; [done|]. cbn [replay_loop].
    destruct (log !! n) as [i|] eqn:Ei; [|apply lookup_ge_None in Ei; lia].
    apply (step_suffix_ok _ _ _ _ Ei) in Hok. case_match; [|apply IH; [lia|done]].
    destruct Hok as [?|(pre & x & l & ? & ? & ? & ?)]; [by left|right]. exists pre, x, l. split_and!; auto. lia. }
  unfold replay_scan. set (st := replay_loop _ _ _).
  assert (suffix_ok log 0 st) as Hst by (apply Hloop; [done|by left]).
  destruct (active_segment st) eqn:E; [by apply finalize_suffix_ok|done].
Qed.

(** The one case that loses something: the base was dropped, and the suffix starts
    after a checkpoint that is the only one. *)
Definition base_was_lost (log post : list rollout_item) : Prop :=
  base_replacement_history (replay_scan log) = None
  /\ exists pre i, log = pre ++ i :: post /\ is_Some (checkpoint_of i) /\ ~ has_checkpoint post.

Lemma reconstruct_cases debug_assertions log :
  exists r, reconstruct_history_from_rollout uuid debug_assertions policy log = Ok r
    /\ rec_settings r = previous_turn_settings (replay_scan log)
    /\ rec_reference r
       = (if existsb is_legacy (rollout_suffix (replay_scan log)) then None
          else match reference_item (replay_scan log) with Latest ctx => Some ctx | _ => None end)
    /\ (rec_history r = replayed [] log
        \/ exists post, base_was_lost log post /\ rec_history r = replayed [] post).
Proof.
  pose proof (scan_suffix_ok log) as Hok. unfold reconstruct_history_from_rollout, base_was_lost.
  set (st := replay_scan log) in *. cbn [ContextManager.new new_or_append is_none andb rbind].
  set (h0 := match base_replacement_history st with Some l => _ | None => _ end).
  assert (items h0 = default [] (base_replacement_history st)) as Hh0
    by (subst h0; by destruct (base_replacement_history st)).
  destruct (materialize_replayed (rollout_suffix st) h0 false) as (h & -> & Hh). cbn [rbind].
  eexists. split; [done|]. cbn [rec_settings rec_reference rec_history orb]. split_and!; [done|by destruct (reference_item st)|].
  rewrite Hh, Hh0. destruct Hok as [(-> & -> & _)|(pre & i & l & Hlog & Hi & _ & Hcase)]; [by left|].
  assert (has_checkpoint (rollout_suffix st) \/ base_replacement_history st = Some l ->
    replayed (default [] (base_replacement_history st)) (rollout_suffix st) = replayed [] log) as Hgood.
  { assert (replayed [] log = replayed l (rollout_suffix st)) as ->
      by (rewrite Hlog at 1; by rewrite replayed_app, (replayed_checkpoint _ _ _ _ Hi)).
    intros [Hc| ->]; [by apply replayed_past_checkpoint|done]. }
  destruct Hcase as [Hc|[[Hb|Hb] _]]; [left; auto| |left; auto].
  destruct (decide (Exists (fun x => is_Some (checkpoint_of x)) (rollout_suffix st))) as [He|Hno].
  - left. apply Hgood. left. apply Exists_exists in He as (x & ? & ?). by exists x.
  - right. exists (rollout_suffix st). rewrite Hb. split; [|done]. split; [done|]. exists pre, i.
    split_and!; [done|by eexists|]. intros (x & ? & ?). apply Hno, Exists_exists. by exists x.
Qed.
End forward.

(** ** Settings and baseline: the turns that survive *)

Section turns.
Context {Json Rest : Type} `{Deserializers}.
Abbreviation item := (ResponseItem Json).
Abbreviation rollout_item := (RolloutItem Json Rest).
Abbreviation replay := (Replay (Json:=Json) (Rest:=Rest)).
Abbreviation reference := (TurnReferenceContextItem (Rest:=Rest)).

(** A log as a session writes it: what comes before the first turn, and turns, each
    with its start, entries that carry no other identifier, and the rollbacks
    that followed. *)
Record LoggedTurn := mkLoggedTurn {
  turn_id : str;
  turn_body : list rollout_item;
  turn_rollbacks : list N }.

Definition in_turn (id : str) (i : rollout_item) : Prop :=
  match i with
  | RolloutEvent (TurnStarted _) | RolloutEvent (ThreadRolledBack _) => False
  | RolloutEvent (TurnComplete id') | RolloutEvent (TurnAborted (Some id')) => id' = id
  | RolloutTurnContext ctx => ctx_turn_id ctx = None \/ ctx_turn_id ctx = Some id
  | _ => True
  end.

Definition log_of_turn (t : LoggedTurn) : list rollout_item :=
  RolloutEvent (TurnStarted (turn_id t)) :: turn_body t
  ++ ((fun n => RolloutEvent (ThreadRolledBack n)) <$> turn_rollbacks t).
Definition log_of (before : list rollout_item) (turns : list LoggedTurn) : list rollout_item :=
  before ++ concat (log_of_turn <$> turns).

(** *** What a turn says *)

Definition is_user_entry (i : rollout_item) : bool :=
  match i with
  | RolloutEvent UserMessageEvent => true
  | RolloutResponse response => is_user_turn_boundary response
  | _ => false
  end.
Definition settings_of (i : rollout_item) : option PreviousTurnSettings :=
  match i with
  | RolloutTurnContext ctx => Some (mkSettings (ctx_model ctx) (ctx_realtime_active ctx))
  | _ => None
  end.
Definition reference_of (i : rollout_item) : option reference :=
  match i with
  | Compacted _ => Some Cleared
  | RolloutTurnContext ctx => Some (Latest ctx)
  | _ => None
  end.

(** Whether the user spoke; the settings of the first context; what the last
    context or compaction says of the baseline; the last checkpoint. *)
Definition is_user_turn (body : list rollout_item) : bool := existsb is_user_entry body.
Definition body_settings (body : list rollout_item) : option PreviousTurnSettings := head (omap settings_of body).
Definition body_reference (body : list rollout_item) : reference :=
  default NeverSet (last (omap reference_of body)).
Definition body_base (body : list rollout_item) : option (list item) := last (omap checkpoint_of body).

(** *** Rollbacks: the stack of turns, newest first *)

Fixpoint pop (n : N) (stack : list (list rollout_item)) : list (list rollout_item) :=
  if (n =? 0)%N then stack
  else match stack with
       | [] => []
       | body :: older => pop (if is_user_turn body then n - 1 else n) older
       end.

Definition sum (l : list N) : N := foldr N.add 0%N l.

Definition survivors (before : list rollout_item) (turns : list LoggedTurn) : list (list rollout_item) :=
  foldl (fun stack t => pop (sum (turn_rollbacks t)) (turn_body t :: stack)) [before] turns.

(** The newest turn of the user that has settings; the newest that sets or
    clears the baseline; the newest with a checkpoint. *)
Definition thread_settings (stack : list (list rollout_item)) : option PreviousTurnSettings :=
  head (omap (fun body => if is_user_turn body then body_settings body else None) stack).
Definition says_reference (body : list rollout_item) : option reference :=
  match body_reference body with
  | NeverSet => None
  | r => if is_user_turn body || is_cleared r then Some r else None
  end.
Definition thread_reference (stack : list (list rollout_item)) : option reference :=
  head (omap says_reference stack).
Definition thread_base (stack : list (list rollout_item)) : option (list item) :=
  head (omap body_base stack).

Lemma pop_nil n : pop n [] = [].
Proof. cbn. by destruct (n =? 0)%N. Qed.

Lemma pop_zero stack : pop 0 stack = stack.
Proof. by destruct stack. Qed.

Lemma pop_pop n m stack : pop n (pop m stack) = pop (n + m) stack.
Proof.
  revert m. induction stack as [|body older IH]; intros m; [by rewrite !pop_nil|].
  destruct (decide (m = 0%N)) as [->|Hm]; [by rewrite pop_zero, N.add_0_r|].
  cbn [pop]. rewrite (proj2 (N.eqb_neq m 0)), (proj2 (N.eqb_neq (n + m) 0)) by lia.
  rewrite IH. destruct (is_user_turn body); f_equal; lia.
Qed.

(** *** The scan without its suffix and without its early end *)

Definition core (st : replay) : replay := with_suffix st [].
Definition core_step (i : rollout_item) (st : replay) : replay := core (replay_step [] 0 i st).
Definition settle (st : replay) : replay :=
  match active_segment st with Some seg => finalize_active_segment seg st | None => st end.
Definition meta (st : replay) : option (list item) * option PreviousTurnSettings * reference :=
  (base_replacement_history st, previous_turn_settings st, reference_item st).

Lemma core_step_core log index i (st : replay) :
  core (replay_step log index i st) = core_step i (core st).
Proof.
  destruct st as [b p r n s a]. unfold core_step, core, with_suffix.
  destruct i as [|response|compacted|ctx|[]]; cbn; unfold segment; cbn; try done.
  - by destruct (seg_base _), (replacement_history compacted).
  - by destruct (turn_ids_are_compatible _ _).
  - destruct a as [seg|]; [|done]. destruct (turn_ids_are_compatible _ _); [|done].
    unfold finalize_active_segment. cbn. by destruct (0 <? n)%N.
  - by destruct a, turn_id0.
Qed.

Lemma meta_complete (st st' : replay) : meta st = meta st' -> is_complete st = is_complete st'.
Proof. destruct st, st'. unfold meta, is_complete. cbn. by intros [= -> -> ->]. Qed.

Lemma complete_finalize (st : replay) seg :
  is_complete st = true -> meta (finalize_active_segment seg st) = meta st.
Proof.
  destruct st as [[b|] [p|] r n s a]; cbn; try done. unfold is_complete, finalize_active_segment. cbn.
  destruct r; cbn; try done; intros _; by destruct (0 <? n)%N.
Qed.

Lemma complete_settle (st : replay) : is_complete st = true -> meta (settle st) = meta st.
Proof. unfold settle. destruct (active_segment st); [apply complete_finalize|done]. Qed.

Lemma complete_step i (st : replay) :
  is_complete st = true -> is_complete (core_step i st) = true /\ meta (core_step i st) = meta st.
Proof.
  intros Hc. assert (meta (core_step i st) = meta st) as Hm.
  { unfold core_step, core. destruct i as [|response|compacted|ctx|[]]; cbn [replay_step]; try done.
    - by destruct (seg_base _), (replacement_history compacted).
    - by destruct (turn_ids_are_compatible _ _).
    - destruct (active_segment st) as [seg|]; [|done]. destruct (turn_ids_are_compatible _ _); [|done].
      by apply complete_finalize.
    - by destruct (active_segment st), turn_id0. }
  split; [|done]. by rewrite (meta_complete _ _ Hm).
Qed.

Lemma complete_foldr log (st : replay) :
  is_complete st = true ->
  is_complete (foldr core_step st log) = true /\ meta (foldr core_step st log) = meta st.
Proof.
  intros Hc. induction log as [|i log [IHc IHm]]; [done|]. cbn [foldr].
  destruct (complete_step i _ IHc) as [? ->]. done.
Qed.

Lemma loop_foldr log n : forall st : replay,
  n <= length log ->
  meta (settle (replay_loop log n st)) = meta (settle (foldr core_step (core st) (take n log))).
Proof.
  induction n as [|n IH]; intros st Hn.
  { rewrite take_0. unfold settle, core, with_suffix, finalize_active_segment.
    destruct st as [b p r m s [seg|]]; [|done].
    cbn [replay_loop foldr active_segment pending_rollback_turns]. by destruct (0 <? m)%N. }
  destruct (log !! n) as [i|] eqn:Ei; [|apply lookup_ge_None in Ei; lia].
  cbn [replay_loop]. rewrite Ei, (take_S_r _ _ _ Ei), foldr_snoc, <- (core_step_core log n).
  destruct (is_complete (replay_step log n i st)) eqn:Ec; [|apply IH; lia].
  rewrite complete_settle by done.
  destruct (complete_foldr (take n log) (core (replay_step log n i st)) Ec) as [Hc Hm].
  by rewrite complete_settle, Hm.
Qed.

Lemma scan_meta log :
  meta (replay_scan log) = meta (settle (foldr core_step (mkReplay None None NeverSet 0 [] None) log)).
Proof.
  unfold replay_scan. fold (settle (replay_loop log (length log) (mkReplay None None NeverSet 0 log None))).
  rewrite loop_foldr by done. by rewrite firstn_all.
Qed.
(** *** One turn *)

Lemma omap_cons_option {A B} (f : A -> option B) x l :
  omap f (x :: l) = option_list (f x) ++ omap f l.
Proof. cbn. by destruct (f x). Qed.

Lemma body_settings_cons i body :
  body_settings (i :: body) = match settings_of i with Some p => Some p | None => body_settings body end.
Proof. unfold body_settings. rewrite omap_cons_option. by destruct (settings_of i). Qed.

Lemma last_cons_option {A} (o : option A) l :
  last (option_list o ++ l) = match last l with Some x => Some x | None => o end.
Proof.
  destruct o as [x|]; [change (option_list (Some x) ++ l) with (x :: l); rewrite last_cons
                      |change (option_list None ++ l) with l]; by destruct (last l).
Qed.

Lemma body_base_cons i body :
  body_base (i :: body) = match body_base body with Some b => Some b | None => checkpoint_of i end.
Proof. unfold body_base. by rewrite omap_cons_option, last_cons_option. Qed.

Lemma body_reference_cons i body :
  body_reference (i :: body)
  = if is_never_set (body_reference body) then default NeverSet (reference_of i) else body_reference body.
Proof.
  unfold body_reference. rewrite omap_cons_option, last_cons_option.
  destruct (last (omap reference_of body)) as [r|] eqn:E; cbn [default is_never_set]; [|done].
  apply last_Some_elem_of, list_elem_of_omap in E as (x & _ & Hx).
  destruct x; try done; by injection Hx as <-.
Qed.

Definition says (id : option str) (body : list rollout_item) : ActiveReplaySegment :=
  mkSegment id (is_user_turn body) (body_settings body) (body_reference body) (body_base body).

(** An entry of a turn only changes the segment. *)
Definition absorb (i : rollout_item) (seg : ActiveReplaySegment (Json:=Json) (Rest:=Rest))
  : ActiveReplaySegment :=
  match i with
  | Compacted compacted =>
      let seg := set_reference seg Cleared in
      match seg_base seg, replacement_history compacted with
      | None, Some l => set_base seg l
      | _, _ => seg
      end
  | RolloutEvent (TurnComplete turn_id) => set_turn_id seg (Some turn_id)
  | RolloutEvent (TurnAborted turn_id) => set_turn_id seg turn_id
  | RolloutEvent UserMessageEvent => set_user_turn seg true
  | RolloutResponse response => set_user_turn seg (is_user_turn_boundary response)
  | RolloutTurnContext ctx =>
      let seg := set_turn_id seg (ctx_turn_id ctx) in
      if turn_ids_are_compatible (seg_turn_id seg) (ctx_turn_id ctx)
      then set_reference (set_settings seg (mkSettings (ctx_model ctx) (ctx_realtime_active ctx))) (Latest ctx)
      else seg
  | _ => seg
  end.

Definition with_segment (st : replay) (active : option ActiveReplaySegment) : replay :=
  mkReplay (base_replacement_history st) (previous_turn_settings st) (reference_item st)
    (pending_rollback_turns st) [] active.

Lemma step_in_turn id i (st : replay) :
  in_turn id i ->
  exists active, core_step i st = with_segment st active
    /\ default no_segment active = absorb i (segment st).
Proof.
  unfold core_step, core, with_segment. intros Hi.
  destruct i as [|response|compacted|ctx|[tid|tid|tid| |n| | | | | | | | | | |]]; cbn [replay_step absorb]; try done;
    try (eexists; by split).
  - destruct (seg_base _), (replacement_history compacted); eexists; by split.
  - destruct (turn_ids_are_compatible _ _); eexists; by split.
  - unfold segment. destruct (active_segment st) as [seg|] eqn:E; [eexists; by split|].
    destruct tid; [eexists; by split|]. exists None. unfold with_suffix. by rewrite E.
Qed.

Lemma absorb_says id tid i body :
  in_turn id i -> tid = None \/ tid = Some id ->
  exists tid', absorb i (says tid body) = says tid' (i :: body) /\ (tid' = None \/ tid' = Some id).
Proof.
  intros Hi Htid. unfold says. rewrite body_settings_cons, body_base_cons, body_reference_cons.
  assert (forall b, existsb is_user_entry body || b = b || existsb is_user_entry body) as Hor
    by (intros b; apply orb_comm).
  unfold is_user_turn. cbn [existsb].
  assert (forall o, o = None \/ o = Some id -> exists tid',
    set_turn_id (mkSegment tid (existsb is_user_entry body) (body_settings body) (body_reference body)
      (body_base body)) o
    = mkSegment tid' (existsb is_user_entry body) (body_settings body) (body_reference body) (body_base body)
    /\ (tid' = None \/ tid' = Some id)
    /\ turn_ids_are_compatible tid' o = true) as Hset.
  { intros o Ho. unfold set_turn_id. cbn [seg_turn_id counts_as_user_turn seg_settings seg_reference seg_base].
    destruct tid as [t|].
    - exists (Some t). destruct Htid as [?|Ht]; [done|]. split_and!; [done|by right|].
      destruct Ho as [->| ->]; cbn; [done|]. injection Ht as ->. unfold str_eqb. by rewrite bool_decide_true.
    - exists o. split_and!; [done|done|]. destruct o; cbn; [|done]. unfold str_eqb. by rewrite bool_decide_true. }
  destruct i as [|response|compacted|ctx|[t|t|t| |n| | | | | | | | | | |]];
    cbn [absorb is_user_entry settings_of reference_of checkpoint_of orb in_turn default] in *; try done;
    try (exists tid; split; [|done]; by destruct (body_reference body), (body_base body)).
  - exists tid. split; [|done]. unfold set_user_turn. cbn. rewrite Hor.
    by destruct (body_reference body), (body_base body).
  - exists tid. split; [|done]. unfold set_reference. cbn.
    by destruct (body_reference body), (body_base body), (replacement_history compacted).
  - destruct (Hset _ Hi) as (tid' & -> & ? & E). exists tid'. cbn [seg_turn_id]. rewrite E. split; [|done].
    unfold set_settings, set_reference. cbn. by destruct (body_reference body), (body_base body).
  - destruct (Hset (Some t)) as (tid' & -> & ? & _); [right; by rewrite Hi|]. exists tid'. split; [|done].
    by destruct (body_reference body), (body_base body).
  - destruct (Hset t) as (tid' & -> & ? & _); [destruct t; [right; by rewrite Hi|by left]|].
    exists tid'. split; [|done]. by destruct (body_reference body), (body_base body).
  - exists tid. split; [|done]. unfold set_user_turn. cbn. rewrite orb_true_r.
    by destruct (body_reference body), (body_base body).
Qed.

Lemma body_segment id body (st : replay) :
  Forall (in_turn id) body -> active_segment st = None -> rollout_suffix st = [] ->
  exists active tid, foldr core_step st body = with_segment st active
    /\ default no_segment active = says tid body /\ (tid = None \/ tid = Some id).
Proof.
  intros Hbody Hact Hsuf. induction Hbody as [|i body Hi _ (active & tid & E & Hseg & Htid)].
  { exists None, None. split_and!; [|done|by left]. cbn. unfold with_segment. destruct st. cbn in *. by subst. }
  cbn [foldr]. rewrite E. destruct (step_in_turn id i (with_segment st active) Hi) as (active' & -> & E').
  destruct (absorb_says id tid i body Hi Htid) as (tid' & Hs & Htid'). exists active', tid'. split_and!; [done| |done].
  rewrite E'. unfold segment. cbn [active_segment with_segment]. by rewrite Hseg.
Qed.

Definition close_turn (body : list rollout_item) (st : replay) : replay :=
  finalize_active_segment (says None body) st.

Lemma finalize_closes (st : replay) active tid body :
  default no_segment active = says tid body -> rollout_suffix st = [] -> active_segment st = None ->
  (match active with
   | Some seg => finalize_active_segment seg (with_segment st active)
   | None => with_segment st active
   end) = close_turn body st.
Proof.
  destruct st as [b p r n s a]. intros Hseg Hsuf Hact. cbn in Hsuf, Hact. subst s a. unfold close_turn. destruct active as [seg|].
  - cbn in Hseg. subst seg. unfold finalize_active_segment. cbn. by destruct (0 <? n)%N.
  - cbn [default] in Hseg. unfold with_segment, finalize_active_segment, says.
    cbn [base_replacement_history previous_turn_settings reference_item pending_rollback_turns rollout_suffix
         active_segment counts_as_user_turn seg_settings seg_reference seg_base].
    injection Hseg as _ Hu Hp Hr Hb. rewrite <- Hp, <- Hr, <- Hb, <- Hu.
    destruct (0 <? n)%N; [done|]. by destruct b, p, r.
Qed.

Lemma rollbacks_pending (l : list N) : forall st : replay,
  (pending_rollback_turns st + sum l <= usize_max)%N -> rollout_suffix st = [] ->
  foldr core_step st ((fun n => RolloutEvent (ThreadRolledBack n)) <$> l)
  = with_pending st (pending_rollback_turns st + sum l).
Proof.
  intros st Hmax Hsuf. induction l as [|n l IH].
  { cbn. rewrite N.add_0_r. by destruct st. }
  cbn [sum foldr] in Hmax. change (foldr N.add 0%N l) with (sum l) in Hmax. cbn [fmap list_fmap foldr].
  change (list_fmap _ _ ?f l) with (f <$> l) in *. rewrite IH by lia. unfold core_step, core. cbn [replay_step].
  unfold with_suffix, with_pending, saturating_add. cbn. rewrite Hsuf. f_equal.
  change (foldr N.add 0%N l) with (sum l). lia.
Qed.

Lemma turn_closes t (st : replay) :
  Forall (in_turn (turn_id t)) (turn_body t) ->
  (pending_rollback_turns st + sum (turn_rollbacks t) <= usize_max)%N ->
  active_segment st = None -> rollout_suffix st = [] ->
  foldr core_step st (log_of_turn t)
  = close_turn (turn_body t) (with_pending st (pending_rollback_turns st + sum (turn_rollbacks t))).
Proof.
  intros Hbody Hmax Hact Hsuf. unfold log_of_turn. cbn [foldr]. rewrite foldr_app, rollbacks_pending by done.
  set (st' := with_pending _ _).
  destruct (body_segment (turn_id t) (turn_body t) st' Hbody Hact Hsuf) as (active & tid & -> & Hseg & Htid).
  rewrite <- (finalize_closes st' active tid (turn_body t) Hseg Hsuf Hact).
  unfold core_step, core. cbn [replay_step active_segment with_segment]. destruct active as [seg|]; [|done].
  cbn in Hseg. subst seg. cbn [seg_turn_id says].
  assert (turn_ids_are_compatible tid (Some (turn_id t)) = true) as ->.
  { destruct Htid as [->| ->]; cbn; [done|]. unfold str_eqb. by rewrite bool_decide_true. }
  unfold finalize_active_segment. cbn. by destruct (0 <? _)%N.
Qed.

(** *** All the turns *)

(** What was found so far, then what the stack says. *)
Definition merge (m : option (list item) * option PreviousTurnSettings * reference)
  (stack : list (list rollout_item)) : option (list item) * option PreviousTurnSettings * reference :=
  let '(base, settings, r) := m in
  (match base with Some b => Some b | None => thread_base stack end,
   match settings with Some p => Some p | None => thread_settings stack end,
   if is_never_set r then default NeverSet (thread_reference stack) else r).

Lemma head_omap_cons {A B} (f : A -> option B) x l :
  head (omap f (x :: l)) = match f x with Some y => Some y | None => head (omap f l) end.
Proof. rewrite omap_cons_option. by destruct (f x). Qed.

Lemma close_turn_pop body (st : replay) older :
  merge (meta (close_turn body st)) (pop (pending_rollback_turns (close_turn body st)) older)
  = merge (meta st) (pop (pending_rollback_turns st) (body :: older)).
Proof.
  unfold close_turn, finalize_active_segment. destruct st as [b p r n s a].
  cbn [pending_rollback_turns base_replacement_history previous_turn_settings reference_item].
  destruct (decide (n = 0%N)) as [->|Hn].
  - rewrite (proj2 (N.ltb_ge _ _)) by lia.
    cbn [pending_rollback_turns base_replacement_history previous_turn_settings reference_item meta
         counts_as_user_turn seg_settings seg_reference seg_base says].
    rewrite !pop_zero. unfold merge, thread_base, thread_settings, thread_reference. rewrite !head_omap_cons.
    unfold says_reference at 2. f_equal; [f_equal|].
    + by destruct b, (body_base body).
    + by destruct p, (is_user_turn body), (body_settings body).
    + by destruct r, (body_reference body), (is_user_turn body).
  - rewrite (proj2 (N.ltb_lt _ _)) by lia.
    cbn [pending_rollback_turns meta base_replacement_history previous_turn_settings reference_item
         counts_as_user_turn says pop]. by rewrite (proj2 (N.eqb_neq n 0)).
Qed.

Definition total_rollbacks (turns : list LoggedTurn) : N := sum (concat (turn_rollbacks <$> turns)).
Definition logged_turn_ok (t : LoggedTurn) : Prop := Forall (in_turn (turn_id t)) (turn_body t).

Lemma sum_app a b : sum (a ++ b) = (sum a + sum b)%N.
Proof. induction a as [|n a IH]; [done|]. cbn [app sum foldr]. unfold sum in *. cbn [foldr]. lia. Qed.

Lemma scan_turns id before turns : forall st : replay,
  Forall (in_turn id) before -> Forall logged_turn_ok turns ->
  (pending_rollback_turns st + total_rollbacks turns <= usize_max)%N ->
  active_segment st = None -> rollout_suffix st = [] ->
  meta (settle (foldr core_step st (log_of before turns)))
  = merge (meta st) (pop (pending_rollback_turns st) (survivors before turns)).
Proof.
  induction turns as [|t turns IH] using rev_ind; intros st Hbefore Hturns Hmax Hact Hsuf.
  - unfold log_of. cbn [fmap list_fmap concat]. rewrite app_nil_r.
    destruct (body_segment id before st Hbefore Hact Hsuf) as (active & tid & -> & Hseg & _).
    unfold settle. cbn [active_segment with_segment]. rewrite (finalize_closes st active tid before Hseg Hsuf Hact).
    cbn [survivors foldl]. rewrite <- close_turn_pop, pop_nil. unfold merge, meta.
    cbn [thread_base thread_settings thread_reference omap list_omap head default].
    by destruct (base_replacement_history _), (previous_turn_settings _), (reference_item _).
  - apply Forall_app in Hturns as [Hturns Ht]. apply Forall_cons_1 in Ht as [Ht _].
    unfold total_rollbacks in Hmax. rewrite fmap_app, concat_app, sum_app in Hmax.
    cbn [fmap list_fmap concat] in Hmax. rewrite app_nil_r in Hmax.
    assert (log_of before (turns ++ [t]) = log_of before turns ++ log_of_turn t) as ->.
    { unfold log_of. rewrite fmap_app, concat_app. cbn. by rewrite app_nil_r, app_assoc. }
    rewrite foldr_app, turn_closes by (done || lia).
    set (st' := with_pending _ _).
    assert (pending_rollback_turns (close_turn (turn_body t) st')
            <= pending_rollback_turns st + sum (turn_rollbacks t))%N as Hle.
    { change (pending_rollback_turns st + sum (turn_rollbacks t))%N with (pending_rollback_turns st').
      unfold close_turn, finalize_active_segment. destruct (0 <? pending_rollback_turns st')%N; cbn [pending_rollback_turns]; [|lia].
      destruct (counts_as_user_turn _); lia. }
    rewrite IH; [|done|done|unfold total_rollbacks; lia| |].
    + rewrite close_turn_pop. unfold survivors at 2. rewrite foldl_app. cbn [foldl].
      fold (survivors before turns). by rewrite pop_pop.
    + unfold close_turn, finalize_active_segment. by destruct (0 <? _)%N.
    + unfold close_turn, finalize_active_segment. by destruct (0 <? _)%N.
Qed.
End turns.

(** Settings and history of a resumed thread. *)
Definition has_checkpointb {Json Rest} (log : list (RolloutItem Json Rest)) : bool :=
  existsb (fun i => negb (is_none (checkpoint_of i))) log.

Lemma has_checkpointb_spec {Json Rest} (log : list (RolloutItem Json Rest)) :
  has_checkpointb log = false -> ~ has_checkpoint log.
Proof.
  unfold has_checkpointb. intros E (i & Hi & x & Hx). apply not_true_iff_false in E. apply E, existsb_exists.
  exists i. rewrite Hx. split; [by apply list_elem_of_In|done].
Qed.

Definition current_reference {Rest} (r : option (TurnReferenceContextItem (Rest:=Rest)))
  : option (TurnContextItem Rest) :=
  match r with Some (Latest ctx) => Some ctx | _ => None end.

(** C22: Replay of a log follows the turns that survive its rollbacks.  For a log of
    turns, each opened by its start and holding only entries of its own, in which
    the rollbacks sum up to no more than a machine word holds, replay succeeds.
    Think of the turns as a stack: a rollback of n removes turns from its top until
    n turns in which the user spoke are gone.  The settings replay returns are those
    of the newest such turn left that has a context; the baseline is the one the
    newest turn left sets or clears (if no compaction without a replacement is in the
    log); and the history is the one that replaying the whole log from its beginning
    gives, although replay starts at a checkpoint, if a turn left has a checkpoint or the
    log has none. *)
Theorem replay_follows_surviving_turns {Json Rest} `{Deserializers} uuid debug_assertions policy id
    (before : list (RolloutItem Json Rest)) (turns : list LoggedTurn) :
  Forall (in_turn id) before -> Forall logged_turn_ok turns -> (total_rollbacks turns <= usize_max)%N ->
  let log := log_of before turns in
  let stack := survivors before turns in
  exists r, reconstruct_history_from_rollout uuid debug_assertions policy log = Ok r
    /\ rec_settings r = thread_settings stack
    /\ (existsb is_legacy log = false -> rec_reference r = current_reference (thread_reference stack))
    /\ (negb (is_none (thread_base stack)) || negb (has_checkpointb log) = true ->
        rec_history r = replayed uuid policy [] log).
Proof.
  intros Hbefore Hturns Hmax log stack.
  destruct (reconstruct_cases uuid policy debug_assertions log) as (r & E & Hset & Href & Hhist).
  pose proof (scan_turns id before turns (mkReplay None None NeverSet 0 [] None) Hbefore Hturns Hmax
                eq_refl eq_refl) as Hmeta.
  fold log in Hmeta. rewrite <- scan_meta, pop_zero in Hmeta. fold stack in Hmeta.
  unfold meta, merge in Hmeta. cbn [base_replacement_history previous_turn_settings reference_item is_never_set] in Hmeta.
  injection Hmeta as Hbase Hsettings Href'.
  exists r. split_and!; [done|by rewrite Hset| |].
  - intros Hleg. rewrite Href, Href'.
    assert (existsb is_legacy (rollout_suffix (replay_scan log)) = false) as ->.
    { destruct (scan_suffix_ok log) as [(-> & _)|(pre & i & l & Hlog & _)]; [done|].
      revert Hleg. rewrite Hlog at 1. rewrite existsb_app. cbn [existsb]. by intros [_ [_ ?]%orb_false_iff]%orb_false_iff. }
    by destruct (thread_reference stack) as [[]|].
  - intros Hkept. destruct Hhist as [?|(post & [Hnone (pre & i & Hlog & Hi & _)] & _)]; [done|].
    rewrite Hbase in Hnone. rewrite Hnone in Hkept. apply negb_true_iff, has_checkpointb_spec in Hkept.
    destruct Hkept. exists i. split; [rewrite Hlog; set_solver|done].
Qed.

Definition sample_context (id model : str) : RolloutItem unit unit :=
  RolloutTurnContext (mkTurnContext _ (Some id) model None tt).
Definition sample_checkpoint (l : list (ResponseItem unit)) : RolloutItem unit unit :=
  Compacted (mkCompacted _ [] (Some l)).

(** A turn with a checkpoint, a turn that is rolled back, and one after it. *)
Definition sample_turns : list (LoggedTurn (Json:=unit) (Rest:=unit)) :=
  [mkLoggedTurn (L"a") [sample_context (L"a") (L"m1"); RolloutEvent UserMessageEvent;
     RolloutResponse (user_item (L"one")); sample_checkpoint [user_item (L"one"); user_item (L"so far")];
     RolloutEvent (TurnComplete (L"a"))] [];
   mkLoggedTurn (L"b") [sample_context (L"b") (L"m2"); RolloutEvent UserMessageEvent;
     RolloutResponse (user_item (L"two")); RolloutEvent (TurnComplete (L"b"))] [1%N];
   mkLoggedTurn (L"c") [RolloutResponse (user_item (L"three")); RolloutEvent (TurnAborted (Some (L"c")))] []].

Lemma replay_follows_surviving_turns_witness :
  exists r, reconstruct_history_from_rollout [] false (Bytes 100) (log_of [SessionMeta] sample_turns) = Ok r
    /\ rec_settings r = Some (mkSettings (L"m1") None)
    /\ rec_history r = [user_item (L"one"); user_item (L"so far"); user_item (L"three")].
Proof.
  destruct (replay_follows_surviving_turns [] false (Bytes 100) [] [SessionMeta] sample_turns)
    as (r & E & Hset & _ & Hhist).
  - by constructor.
  - repeat (apply Forall_nil_2 || apply Forall_cons_2); cbn; auto.
  - by vm_compute.
  - exists r. split_and!; [done|by rewrite Hset|]. rewrite Hhist by reflexivity. reflexivity.
Defined.

(** A rolled-back checkpoint takes the history before it along: after turns [a] and
    [b], where [b] compacted, the rollback of [b] leaves nothing of [a]. *)
Definition lost_turns : list (LoggedTurn (Json:=unit) (Rest:=unit)) :=
  [mkLoggedTurn (L"a") [RolloutResponse (user_item (L"one"))] [];
   mkLoggedTurn (L"b") [RolloutResponse (user_item (L"two"));
     sample_checkpoint [user_item (L"one"); user_item (L"two"); user_item (L"so far")]] [1%N]].

Theorem rolled_back_checkpoint_loses_history :
  survivors [] lost_turns = [[RolloutResponse (user_item (L"one"))]; []]
  /\ exists r, reconstruct_history_from_rollout [] false (Bytes 100) (log_of [] lost_turns) = Ok r
       /\ rec_history r = [].
Proof. split; [by vm_compute|]. eexists. split; [by vm_compute|reflexivity]. Qed.

(** A turn the user steered has two messages: a rollback of one turn removes its
    settings but only its second message. *)
Definition steered_turns : list (LoggedTurn (Json:=unit) (Rest:=unit)) :=
  [mkLoggedTurn (L"a") [sample_context (L"a") (L"m1"); RolloutResponse (user_item (L"one"));
     RolloutResponse (user_item (L"two"))] [1%N]].

Theorem rollback_of_steered_turn_disagrees :
  exists r, reconstruct_history_from_rollout [] false (Bytes 100) (log_of [] steered_turns) = Ok r
    /\ rec_settings r = None /\ rec_history r = [user_item (L"one")].
Proof. eexists. split; [by vm_compute|]. by split. Qed.

(** ** Leaving and resuming a session *)

Section live.
Context {Json Rest : Type} `{Deserializers} `{Estimators Json} (uuid : str) (policy : TruncationPolicy)
  (mode : EventPersistenceMode).
Abbreviation item := (ResponseItem Json).
Abbreviation session := (Session Json Rest).
Abbreviation rollout_item := (RolloutItem Json Rest).
Abbreviation compact_turn := (CompactTurn (Json:=Json) (Rest:=Rest)).

Lemma replayed_cons l (i : rollout_item) log :
  replayed uuid policy l (i :: log) = replayed uuid policy (replayed uuid policy l [i]) log.
Proof. exact (replayed_app uuid policy l [i] log). Qed.

(** Entries that say nothing of the history. *)
Definition silent (i : rollout_item) : Prop :=
  match i with
  | RolloutEvent (ThreadRolledBack _) | RolloutResponse _ | Compacted _ => False
  | _ => True
  end.

Lemma replayed_silent l log : Forall silent log -> replayed uuid policy l log = l.
Proof.
  induction 1 as [|i log Hi _ IH] in l |- *; [done|]. rewrite replayed_cons, IH. by destruct i as [| | | |[]].
Qed.

Lemma note_silent (i : rollout_item) : is_note i -> silent i.
Proof. by destruct i as [| | | |[]]. Qed.

Lemma raw_items_sent (s : session) (new_items : list item) :
  history (send_raw_response_items s new_items) = history s
  /\ exists notes, rollout (send_raw_response_items s new_items) = rollout s ++ notes /\ Forall silent notes.
Proof.
  unfold send_raw_response_items. revert s. induction new_items as [|i new_items IH]; intros s.
  { split; [done|]. exists []. by rewrite app_nil_r. }
  cbn [foldl]. destruct (IH (send_event s RawResponseItem)) as (Hh & notes & -> & Hn). rewrite Hh. split; [done|].
  exists (RolloutEvent RawResponseItem :: notes). cbn. rewrite <- app_assoc. split; [done|by constructor].
Qed.

Lemma replayed_recorded (h : ContextManager Json (TurnContextItem Rest)) new_items h' :
  record_items h new_items policy = Ok h' ->
  replayed (Rest:=Rest) uuid policy (items h) (RolloutResponse <$> new_items) = items h'.
Proof.
  revert h. induction new_items as [|i new_items IH]; intros h; [by intros [= <-]|].
  cbn [fmap list_fmap]. change (list_fmap _ _ ?f new_items) with (f <$> new_items). rewrite replayed_cons.
  cbn [record_items]. unfold replayed at 2. cbn [materialize materialize_step record_items].
  destruct (is_api_message i); [|intros E; exact (IH _ E)].
  destruct (process_item i policy) as [p| | |]; cbn [rbind]; try done. intros E. exact (IH _ E).
Qed.

Definition stored_log (log : list rollout_item) : list rollout_item :=
  List.filter (is_persisted_rollout_item mode) log.

(** What is not stored says nothing of the history. *)
Lemma replayed_stored l log : replayed uuid policy l (stored_log log) = replayed uuid policy l log.
Proof.
  revert l. induction log as [|i log IH]; intros l; [done|]. cbn [stored_log List.filter]. fold (stored_log log).
  destruct (is_persisted_rollout_item mode i) eqn:E; rewrite (replayed_cons l i log);
    [by rewrite (replayed_cons l i (stored_log log)), IH|].
  rewrite IH. f_equal. by destruct i as [|[]| | |[]], mode.
Qed.

Lemma replayed_installed (l new_items : list item) message (reference : option (TurnContextItem Rest)) :
  replayed uuid policy l
    (Compacted (mkCompacted _ message (Some new_items)) :: match reference with Some ctx => [RolloutTurnContext ctx] | None => [] end)
  = new_items.
Proof. erewrite replayed_checkpoint by done. apply replayed_silent. by destruct reference; repeat constructor. Qed.

(** The start of the replay is not lost. *)
Definition base_kept (log : list rollout_item) : bool :=
  negb (is_none (base_replacement_history (replay_scan log))) || negb (has_checkpointb log).

Lemma reconstruct_base_kept debug_assertions log :
  base_kept log = true ->
  exists r, reconstruct_history_from_rollout uuid debug_assertions policy log = Ok r
    /\ rec_history r = replayed uuid policy [] log.
Proof.
  intros Hk. destruct (reconstruct_cases uuid policy debug_assertions log) as (r & E & _ & _ & Hh). exists r.
  split; [done|]. destruct Hh as [?|(post & [Hnone (pre & i & Hlog & Hi & _)] & _)]; [done|].
  unfold base_kept in Hk. rewrite Hnone in Hk. apply negb_true_iff, has_checkpointb_spec in Hk.
  destruct Hk. exists i. split; [rewrite Hlog; set_solver|done].
Qed.

(** The life of a session, with one truncation policy: it starts empty; items are recorded;
    entries that say nothing of the history are logged; it is compacted, locally with
    success, or remotely, when it may fail; turns are rolled back.  A local compaction that fails
    is left out: what was streamed stays in the history without being in the log. *)
Inductive live : session -> Prop :=
| live_new h : items h = [] -> live (mkSession h [])
| live_record s new_items s' :
    live s -> record_conversation_items s new_items policy = Ok s' -> live s'
| live_note s log : live s -> Forall silent log -> live (persist_rollout_items s log)
| live_compact s stream (turn : compact_turn) input injection s' summary :
    live s -> run_compact_task_inner_impl uuid false stream turn s input injection = Ok (s', inr summary) -> live s'
| live_remote s (turn : compact_turn) endpoint injection s' r :
    live s -> run_remote_compact_task_inner_impl uuid false turn endpoint s injection = Ok (s', r) -> live s'
| live_rollback s (turn : compact_turn) num_turns s' settings :
    live s -> truncation_policy turn = policy ->
    base_kept (stored_log (rollout s) ++ [RolloutEvent (ThreadRolledBack num_turns)]) = true ->
    thread_rollback uuid false turn false (fun s => inr (stored_log (rollout s))) s num_turns = Ok (inr (s', settings)) ->
    live s'.

Lemma recompute_keeps (turn : compact_turn) (s s' : session) :
  recompute_token_usage turn s = Ok s' ->
  items (history s') = items (history s) /\ rollout s' = rollout s ++ [RolloutEvent TokenCount].
Proof. destruct (recompute_release turn s) as (s1 & -> & Hr & Hi & _). intros [= <-]. done. Qed.

Lemma live_replayed s : live s -> items (history s) = replayed uuid policy [] (rollout s).
Proof.
  induction 1 as [h Hh|s new_items s' _ IH E|s log _ IH Hlog|s stream turn input injection s' summary _ IH E
                 |s turn endpoint injection s' r _ IH E|s turn n s' settings _ IH Hpol Hk E].
  - done.
  - unfold record_conversation_items, record_into_history in E.
    destruct (record_items (history s) new_items policy) as [h| | |] eqn:Er; try done. injection E as <-.
    match goal with |- context [send_raw_response_items ?s0 _] =>
      destruct (raw_items_sent s0 new_items) as (-> & notes & -> & Hn) end. cbn.
    rewrite !replayed_app, (replayed_silent _ notes) by done. rewrite <- IH. symmetry. by apply replayed_recorded.
  - cbn. by rewrite replayed_app, <- IH, replayed_silent.
  - destruct (compact_task_spec uuid stream turn s input injection) as (s1 & r & rec & notes & E' & _ & Hr).
    rewrite E in E'. injection E' as <- <-. destruct Hr as (_ & _ & -> & _). rewrite !replayed_app. unfold logged.
    rewrite (replayed_silent _ announced) by (by repeat constructor).
    destruct injection; symmetry; [exact (replayed_installed _ _ _ (Some _))|exact (replayed_installed _ _ _ None)].
  - unfold run_remote_compact_task_inner_impl in E.
    destruct (trim_function_call_history_to_fit_context_window turn _) as [[h k]| | |]; try done. cbn [rbind] in E.
    destruct (for_prompt _ _ _) as [input| | |]; try done. cbn [rbind] in E.
    destruct (endpoint input) as [e|compacted]; [injection E as <- <-; cbn; rewrite replayed_app, <- IH; by rewrite replayed_silent by (by repeat constructor)|].
    match type of E with rbind (recompute_token_usage _ ?s0) _ = _ =>
      destruct (recompute_token_usage turn s0) as [s1| | |] eqn:Er; try done end.
    cbn [rbind] in E. injection E as <- <-. apply recompute_keeps in Er as [Hi Hro].
    cbn [send_event persist_rollout_items history rollout]. rewrite Hi, Hro. rewrite <- !app_assoc.
    destruct injection; cbn [replace_compacted_history replace_history persist_rollout_items with_history rollout history
      items set_reference_context_item replace bump with_items send_event]; rewrite ?replayed_app;
      repeat rewrite (replayed_silent _ (_ :: _)) by (by repeat constructor).
    all: rewrite (replayed_silent _ (RolloutEvent <$> ItemCompleted :: _)) by (by repeat constructor).
    all: symmetry; exact (replayed_installed _ _ _ None).
  - unfold thread_rollback, apply_rollout_reconstruction in E.
    destruct (n =? 0)%N; [done|]. rewrite Hpol in E.
    destruct (reconstruct_base_kept false _ Hk) as (r & Er & Hr). rewrite Er in E. cbn [rbind] in E.
    match type of E with rbind (recompute_token_usage _ ?s0) _ = _ =>
      destruct (recompute_token_usage turn s0) as [s1| | |] eqn:Es; try done end.
    cbn [rbind] in E. injection E as <- _. apply recompute_keeps in Es as [Hi Hro].
    cbn [history rollout persist_rollout_items]. rewrite Hi, Hro. cbn [replace_history with_history rollout history
      items set_reference_context_item replace bump with_items]. rewrite Hr, !replayed_app, replayed_stored.
    by rewrite (replayed_silent _ [RolloutEvent TokenCount]) by (by repeat constructor).
Qed.
End live.

(** C6: Resuming a session gives the history it was left with.  However a session was
    lived -- items recorded, events and contexts logged, compactions, rollbacks -- the
    entries of its log that the persistence mode stores are replayed to exactly its
    history, provided that no local compaction failed, that the checkpoint replay starts
    from was not itself rolled back (the same condition holds at each rollback) and that
    the truncation policy did not change. *)
Theorem resumed_history_is_live_history {Json Rest} `{Deserializers} `{Estimators Json} uuid policy mode
    debug_assertions (s : Session Json Rest) :
  live uuid policy mode s -> base_kept (stored_log mode (rollout s)) = true ->
  exists r, reconstruct_history_from_rollout uuid debug_assertions policy (stored_log mode (rollout s)) = Ok r
    /\ rec_history r = items (history s).
Proof.
  intros Hlive Hk. destruct (reconstruct_base_kept uuid policy debug_assertions _ Hk) as (r & E & Hr). exists r.
  split; [done|]. by rewrite Hr, replayed_stored, (live_replayed _ _ _ _ Hlive).
Qed.

(** A session that is compacted, goes on, and is rolled back by one turn. *)
Definition sample_empty : Session unit unit := mkSession (bare []) [].
Definition session_of {E} (r : result E (Session unit unit)) : Session unit unit :=
  match r with Ok s => s | _ => sample_empty end.
Definition sample_spoken : Session unit unit :=
  session_of (record_conversation_items sample_empty [user_item (L"hello")] (Bytes 100)).
Definition sample_compacted : Session unit unit :=
  session_of (let? (s, _) := run_compact_task_inner_impl [] false sample_stream sample_turn sample_spoken
                               (user_item (L"summarize")) DoNotInject in Ok s).
Definition sample_continued : Session unit unit :=
  session_of (record_conversation_items
    (persist_rollout_items sample_compacted [RolloutEvent (TurnStarted (L"b")); RolloutEvent (OtherEvent None)])
    [user_item (L"two"); Other] (Bytes 100)).
Definition sample_rolled_back : Session unit unit :=
  session_of (let? r := thread_rollback [] false sample_turn false
                          (fun s => inr (stored_log Limited (rollout s))) sample_continued 1 in
              match r with inr (s, _) => Ok s | inl _ => Err tt end).

Lemma resumed_history_is_live_history_witness :
  live [] (Bytes 100) Limited sample_rolled_back
  /\ exists r, reconstruct_history_from_rollout [] false (Bytes 100)
                 (stored_log Limited (rollout sample_rolled_back)) = Ok r
       /\ rec_history r = items (history sample_rolled_back).
Proof.
  assert (live [] (Bytes 100) Limited sample_spoken) as H1.
  { apply (live_record _ _ _ sample_empty [user_item (L"hello")]); [by apply live_new|vm_compute; reflexivity]. }
  assert (live [] (Bytes 100) Limited sample_compacted) as H2.
  { apply (live_compact _ _ _ sample_spoken sample_stream sample_turn (user_item (L"summarize")) DoNotInject _
             (L"done so far") H1). vm_compute; reflexivity. }
  assert (live [] (Bytes 100) Limited sample_continued) as H3.
  { apply (live_record _ _ _ _ [user_item (L"two"); Other] _
             (live_note _ _ _ _ [RolloutEvent (TurnStarted (L"b")); RolloutEvent (OtherEvent None)] H2
                ltac:(by repeat constructor))). vm_compute; reflexivity. }
  assert (live [] (Bytes 100) Limited sample_rolled_back) as Hlive.
  { apply (live_rollback _ _ _ sample_continued sample_turn 1 sample_rolled_back None H3);
      [reflexivity|vm_compute; reflexivity|vm_compute; reflexivity]. }
  split; [done|]. apply (resumed_history_is_live_history [] (Bytes 100) Limited false sample_rolled_back Hlive).
  by vm_compute.
Defined.
