(* ===== verification/BwrapMounts.v ===== *)
(** * The sandbox of Linux: mounts for bubblewrap (linux-sandbox/src/bwrap.rs)

    From a policy to the mounts that enforce it.  A flag of bubblewrap with its
    arguments is one constructor of [Flag], and [render] is the text that is
    passed.  What the code asks the file system besides the questions of [Env] is
    in [Host]: metadata without following links, the entries of a directory, a run
    of ripgrep, the globs of the globset crate, and the descriptor of /dev/null. *)

From S2P Require Import Prelude RustStr AbsolutePath SandboxPaths Permissions.

Definition LINUX_PLATFORM_DEFAULT_READ_ROOTS : list str :=
  [L"/bin"; L"/sbin"; L"/usr"; L"/etc"; L"/lib"; L"/lib64"; L"/nix/store"; L"/run/current-system/sw"].
Definition MAX_UNREADABLE_GLOB_MATCHES : nat := Eval vm_compute in 64 * 128.

Inductive BwrapNetworkMode := FullAccess | Isolated | ProxyOnly.

#[export] Instance BwrapNetworkMode_eq_dec : EqDecision BwrapNetworkMode.
Proof. solve_decision. Defined.

Record BwrapOptions := mkOptions {
  mount_proc : bool;
  network_mode : BwrapNetworkMode;
  option_glob_scan_max_depth : option nat }.

Definition options_default : BwrapOptions := mkOptions true FullAccess None.

Definition should_unshare_network (m : BwrapNetworkMode) : bool :=
  match m with FullAccess => false | _ => true end.

(** ** The host *)

Inductive FileKind := IsFile | IsDirectory | IsSymlink | IsOther.

#[export] Instance FileKind_eq_dec : EqDecision FileKind.
Proof. solve_decision. Defined.

Record FileIdentity := mkIdentity { dev : N; ino : N }.

#[export] Instance FileIdentity_eq_dec : EqDecision FileIdentity.
Proof. solve_decision. Defined.

Record Metadata := mkMetadata {
  file_type : FileKind;
  file_len : N;
  identity : FileIdentity }.

Inductive Stat := Found (metadata : Metadata) | NotFound | StatError.

Inductive CodexErr := Fatal (message : str) | Io.

(** An entry of a directory: its name, and its type if that can be asked for. *)
Inductive DirEntry := ReadEntry (name : str) (kind : option FileKind) | EntryError.

(** A run of the program [rg]: not installed, not started, or with what it left. *)
Inductive RgRun :=
| RgNotFound
| RgNotStarted
| RgOutput (success : bool) (code : option N) (stdout stderr : str).

(** [glob_matcher] builds one glob and [glob_set_error] says why the set of some
    cannot be built. *)
Record Host := mkHost {
  symlink_metadata : list Component -> Stat;
  read_dir : list Component -> option (list DirEntry);
  rg : list str -> RgRun;
  glob_matcher : str -> str + (list Component -> bool);
  glob_set_error : list str -> option str;
  dev_null : option str }.

(** ** What is built *)

Inductive Flag :=
| Bind (path : list Component)
| RoBind (path : list Component)
| Tmpfs (path : list Component)
| Dev (path : list Component)
| Dir (path : list Component)
| RemountRo (path : list Component)
| Perms (mode : str)
| RoBindData (fd : str) (path : list Component).

Definition path_to_string (p : Path) : str := display p.

Definition render (f : Flag) : list str :=
  match f with
  | Bind path => [L"--bind"; path_to_string path; path_to_string path]
  | RoBind path => [L"--ro-bind"; path_to_string path; path_to_string path]
  | Tmpfs path => [L"--tmpfs"; path_to_string path]
  | Dev path => [L"--dev"; path_to_string path]
  | Dir path => [L"--dir"; path_to_string path]
  | RemountRo path => [L"--remount-ro"; path_to_string path]
  | Perms mode => [L"--perms"; mode]
  | RoBindData fd path => [L"--ro-bind-data"; fd; path_to_string path]
  end.

Inductive SyntheticMountTargetKind := EmptyFile | EmptyDirectory.

Record SyntheticMountTarget := mkSynthetic {
  synthetic_path : list Component;
  synthetic_kind : SyntheticMountTargetKind;
  pre_existing_path : option FileIdentity }.

Definition synthetic_missing (path : Path) : SyntheticMountTarget := mkSynthetic path EmptyFile None.
Definition missing_empty_directory (path : Path) : SyntheticMountTarget :=
  mkSynthetic path EmptyDirectory None.
Definition existing_empty_file (path : Path) (metadata : Metadata) : SyntheticMountTarget :=
  mkSynthetic path EmptyFile (Some (identity metadata)).
Definition existing_empty_directory (path : Path) (metadata : Metadata) : SyntheticMountTarget :=
  mkSynthetic path EmptyDirectory (Some (identity metadata)).
Definition preserves_pre_existing_path (t : SyntheticMountTarget) : bool :=
  negb (is_none (pre_existing_path t)).

(** Whether the leftover of a run is removed. *)
Definition should_remove_after_bwrap (t : SyntheticMountTarget) (metadata : Metadata) : bool :=
  let as_created :=
    match synthetic_kind t with
    | EmptyFile => bool_decide (file_type metadata = IsFile) && (file_len metadata =? 0)%N
    | EmptyDirectory => bool_decide (file_type metadata = IsDirectory)
    end in
  as_created && match pre_existing_path t with
                | Some id => negb (bool_decide (id = identity metadata))
                | None => true
                end.

(** [BwrapArgs], before the flags are rendered. *)
Record FilesystemArgs := mkFilesystemArgs {
  flags : list Flag;
  preserved_files : list str;
  synthetic_mount_targets : list SyntheticMountTarget;
  protected_create_targets : list (list Component) }.

Definition push_flags (b : FilesystemArgs) (fs : list Flag) : FilesystemArgs :=
  mkFilesystemArgs (flags b ++ fs) (preserved_files b) (synthetic_mount_targets b)
    (protected_create_targets b).
Definition push_synthetic (b : FilesystemArgs) (t : SyntheticMountTarget) : FilesystemArgs :=
  mkFilesystemArgs (flags b) (preserved_files b) (synthetic_mount_targets b ++ [t])
    (protected_create_targets b).
Definition push_create_target (b : FilesystemArgs) (path : Path) : FilesystemArgs :=
  mkFilesystemArgs (flags b) (preserved_files b) (synthetic_mount_targets b)
    (protected_create_targets b ++ [path]).

Record BwrapArgs := mkBwrapArgs {
  args : list str;
  args_preserved_files : list str;
  args_synthetic_mount_targets : list SyntheticMountTarget;
  args_protected_create_targets : list (list Component) }.

(** ** Paths *)

Definition path_depth (p : Path) : nat := length p.

(** [sort_by_key] is stable. *)
Fixpoint insert_by_key {A} (key : A -> nat) (x : A) (l : list A) : list A :=
  match l with
  | [] => [x]
  | y :: rest => if key x <=? key y then x :: l else y :: insert_by_key key x rest
  end.
Definition sort_by_key {A} (key : A -> nat) (l : list A) : list A := foldr (insert_by_key key) [] l.

Definition is_within_allowed_write_paths (path : Path) (allowed_write_paths : list (list Component)) : bool :=
  existsb (path_starts_with path) allowed_write_paths.

Definition remap_paths_for_symlink_target (paths : list (list Component)) (root target : Path)
  : list (list Component) :=
  (fun path => match path_strip_prefix path root with
               | Some relative => path_append target relative
               | None => path
               end) <$> paths.

Section bwrap.
Context (env : Env) (host : Host).

(** [exists()] of a symbolic link asks about its target; metadata does not. *)
Definition metadata_of (path : Path) : option Metadata :=
  match symlink_metadata host path with Found m => Some m | _ => None end.

(** A walk along the components, with what is found at a path after a name. *)
Fixpoint walk_components {A} (at_path : list Component -> option (option A)) (current : Path)
  (cs : list Component) : option A :=
  match cs with
  | [] => None
  | RootDir :: rest => walk_components at_path [RootDir] rest
  | CurDir :: rest => walk_components at_path current rest
  | ParentDir :: rest => walk_components at_path (path_pop current) rest
  | Normal part :: rest =>
      let current := current ++ [Normal part] in
      match at_path current with
      | Some found => found
      | None => walk_components at_path current rest
      end
  end.

Definition canonical_target_if_symlinked_path (path : Path) : option (list Component) :=
  walk_components (fun current =>
    match metadata_of current with
    | None => Some None
    | Some m =>
        if bool_decide (file_type m = IsSymlink) then
          Some (match canonicalize env path with
                | Some target => if bool_decide (target = path) then None else Some target
                | None => None
                end)
        else None
    end) [] path.

Definition first_writable_symlink_component_in_path (target_path : Path)
  (allowed_write_paths : list (list Component)) : option (list Component) :=
  walk_components (fun current =>
    match metadata_of current with
    | None => Some None
    | Some m =>
        if bool_decide (file_type m = IsSymlink)
           && is_within_allowed_write_paths current allowed_write_paths
        then Some (Some current) else None
    end) [] target_path.

Definition find_first_non_existent_component (target_path : Path) : option (list Component) :=
  walk_components (fun current => if path_exists env current then None else Some (Some current)) [] target_path.

Definition normalize_command_cwd_for_bwrap (command_cwd : Path) : list Component :=
  default command_cwd (canonicalize env command_cwd).

Definition directory_is_empty (path : Path) : bool :=
  match read_dir host path with Some names => is_nil names | None => false end.

Inductive EmptyProtectedMetadataPath :=
| EmptyMetadataFile (metadata : Metadata)
| EmptyMetadataDirectory (metadata : Metadata).

Definition transient_empty_metadata_path (path : Path) : option EmptyProtectedMetadataPath :=
  if negb (is_some_and (file_name path) is_protected_metadata_name) then None
  else
    match metadata_of path with
    | None => None
    | Some m =>
        if bool_decide (file_type m = IsFile) && (file_len m =? 0)%N then Some (EmptyMetadataFile m)
        else if bool_decide (file_type m = IsDirectory) && directory_is_empty path
        then Some (EmptyMetadataDirectory m)
        else None
    end.

Definition ancestor_has_git_metadata (ancestor : Path) : bool :=
  let git_path := ancestor ++ [Normal GIT] in
  match metadata_of git_path with
  | None => false
  | Some m =>
      match file_type m with
      | IsDirectory => negb (is_none (metadata_of (git_path ++ [Normal (L"HEAD")])))
      | IsFile =>
          match read_to_string env git_path with
          | Some contents => starts_with (L"gitdir:") (trim_start contents)
          | None => false
          end
      | _ => false
      end
  end.

Definition should_leave_missing_git_for_parent_repo_discovery (mount_root : Path) (name : str) : bool :=
  str_eqb name GIT
  && match symlink_metadata host (path_append mount_root (components name)) with
     | NotFound => true
     | _ => false
     end
  && existsb ancestor_has_git_metadata (tail (ancestors mount_root)).

(** ** Masks *)

Definition append_mount_target_parent_dir_args (b : FilesystemArgs) (mount_target anchor : Path)
  : FilesystemArgs :=
  match (if is_dir env mount_target then Some mount_target else path_parent mount_target) with
  | None => b
  | Some mount_target_dir =>
      let fix take_while (l : list (list Component)) : list (list Component) :=
        match l with
        | [] => []
        | path :: rest => if bool_decide (path = anchor) then [] else path :: take_while rest
        end in
      push_flags b (Dir <$> reverse (take_while (ancestors mount_target_dir)))
  end.

Definition append_empty_file_bind_data_args (b : FilesystemArgs) (path : Path)
  : result CodexErr FilesystemArgs :=
  let? b :=
    match preserved_files b with
    | [] =>
        match dev_null host with
        | Some fd => Ok (mkFilesystemArgs (flags b) [fd] (synthetic_mount_targets b)
                           (protected_create_targets b))
        | None => Err Io
        end
    | _ => Ok b
    end in
  let? null_fd := index (preserved_files b) 0 in
  Ok (push_flags b [RoBindData null_fd path]).

Definition append_empty_directory_args (b : FilesystemArgs) (path : Path) : FilesystemArgs :=
  push_flags b [Perms (L"555"); Tmpfs path; RemountRo path].

Definition append_missing_empty_file_bind_data_args (b : FilesystemArgs) (path : Path)
  : result CodexErr FilesystemArgs :=
  let? b := append_empty_file_bind_data_args b path in Ok (push_synthetic b (synthetic_missing path)).

Definition append_existing_empty_file_bind_data_args (b : FilesystemArgs) (path : Path) (m : Metadata)
  : result CodexErr FilesystemArgs :=
  let? b := append_empty_file_bind_data_args b path in Ok (push_synthetic b (existing_empty_file path m)).

Definition append_existing_empty_directory_args (b : FilesystemArgs) (path : Path) (m : Metadata)
  : FilesystemArgs :=
  push_synthetic (append_empty_directory_args b path) (existing_empty_directory path m).

Definition append_missing_read_only_subpath_args (b : FilesystemArgs) (path : Path)
  : result CodexErr FilesystemArgs :=
  if is_some_and (file_name path) is_protected_metadata_name
  then Ok (push_synthetic (append_empty_directory_args b path) (missing_empty_directory path))
  else append_missing_empty_file_bind_data_args b path.

Definition crosses_writable_symlink (what : str) (path symlink : Path) : CodexErr :=
  Fatal (L"cannot enforce sandbox " ++ what ++ L" path " ++ display path
         ++ L" because it crosses writable symlink " ++ display symlink).

(** The end of [append_read_only_subpath_args]: a path that is missing, or is there. *)
Definition append_plain_read_only_args (b : FilesystemArgs) (subpath : Path)
  (allowed_write_paths : list (list Component)) : result CodexErr FilesystemArgs :=
  if negb (path_exists env subpath) then
    match find_first_non_existent_component subpath with
    | Some first_missing_component =>
        if is_within_allowed_write_paths first_missing_component allowed_write_paths
        then append_missing_read_only_subpath_args b first_missing_component
        else Ok b
    | None => Ok b
    end
  else if is_within_allowed_write_paths subpath allowed_write_paths
  then Ok (push_flags b [RoBind subpath])
  else Ok b.

Definition append_read_only_subpath_args (b : FilesystemArgs) (subpath : Path)
  (allowed_write_paths : list (list Component)) : result CodexErr FilesystemArgs :=
  match first_writable_symlink_component_in_path subpath allowed_write_paths with
  | Some symlink => Err (crosses_writable_symlink (L"read-only") subpath symlink)
  | None =>
      match transient_empty_metadata_path subpath,
            is_within_allowed_write_paths subpath allowed_write_paths with
      | Some (EmptyMetadataFile m), true => append_existing_empty_file_bind_data_args b subpath m
      | Some (EmptyMetadataDirectory m), true => Ok (append_existing_empty_directory_args b subpath m)
      | _, _ => append_plain_read_only_args b subpath allowed_write_paths
      end
  end.

Definition append_existing_unreadable_path_args (b : FilesystemArgs) (unreadable_root : Path)
  (allowed_write_paths : list (list Component)) : result CodexErr FilesystemArgs :=
  if is_dir env unreadable_root then
    let writable_descendants :=
      List.filter (fun path => negb (bool_decide (path = unreadable_root)) && path_starts_with path unreadable_root)
        allowed_write_paths in
    let b := push_flags b [Perms (if is_nil writable_descendants then L"000" else L"111");
                           Tmpfs unreadable_root] in
    let b := foldl (fun b d => append_mount_target_parent_dir_args b d unreadable_root) b
               (sort_by_key path_depth writable_descendants) in
    Ok (push_flags b [RemountRo unreadable_root])
  else append_empty_file_bind_data_args (push_flags b [Perms (L"000")]) unreadable_root.

Definition append_unreadable_root_args (b : FilesystemArgs) (unreadable_root : Path)
  (allowed_write_paths : list (list Component)) : result CodexErr FilesystemArgs :=
  match first_writable_symlink_component_in_path unreadable_root allowed_write_paths with
  | Some symlink => Err (crosses_writable_symlink (L"deny-read") unreadable_root symlink)
  | None =>
      if negb (path_exists env unreadable_root) then
        match find_first_non_existent_component unreadable_root with
        | Some first_missing_component =>
            if is_within_allowed_write_paths first_missing_component allowed_write_paths
            then append_missing_empty_file_bind_data_args b first_missing_component
            else Ok b
        | None => Ok b
        end
      else append_existing_unreadable_path_args b unreadable_root allowed_write_paths
  end.

(** ** Globs *)

Definition is_glob_char (c : char) : bool := contains_char c (L"*?[]").

(** The loop over the characters; [class] is the text after an open bracket. *)
Fixpoint escape_loop (glob : str) (class : option str) : str :=
  match glob, class with
  | [], None => []
  | [], Some class => L"\[" ++ class
  | c :: rest, None =>
      if (c =? 91)%N then escape_loop rest (Some []) else c :: escape_loop rest None
  | c :: rest, Some class =>
      if (c =? 93)%N then L"[" ++ class ++ L"]" ++ escape_loop rest None
      else escape_loop rest (Some (class ++ [c]))
  end.
Definition escape_unclosed_glob_classes (glob : str) : str := escape_loop glob None.

Definition from_absolute_path_checked (path : str) : option AbsolutePathBuf :=
  let expanded := maybe_expand_home_directory (home_dir env) path in
  if is_absolute expanded then Some (absolutize_from expanded [SLASH]) else None.

Definition checked (path : str) : result CodexErr AbsolutePathBuf :=
  match from_absolute_path_checked path with Some p => Ok p | None => Err Io end.

Fixpoint before_glob (pattern : str) : str :=
  match pattern with
  | [] => []
  | c :: rest => if is_glob_char c then [] else c :: before_glob rest
  end.

Definition split_pattern_for_ripgrep (pattern : str) (cwd : Path) : option (AbsolutePathBuf * str) :=
  let pattern := display (resolve_against env pattern cwd) in
  if negb (existsb is_glob_char pattern) then None
  else
    let static_prefix := before_glob pattern in
    if is_nil static_prefix || str_eqb static_prefix [SLASH] then None
    else
      let search_root_end :=
        if ends_with [SLASH] static_prefix then length static_prefix - 1
        else match rsplit_once SLASH static_prefix with Some (a, _) => length a | None => 0 end in
      let search_root :=
        if search_root_end =? 0 then [RootDir] else components (take search_root_end pattern) in
      search_root ← from_absolute_path_checked (display search_root);
      let glob := escape_unclosed_glob_classes (drop (search_root_end + 1) pattern) in
      if is_nil glob then None else Some (search_root, glob).

(** [BTreeMap::entry(key).or_default().push(value)] *)
Fixpoint push_under (key : AbsolutePathBuf) (value : str) (m : list (AbsolutePathBuf * list str))
  : list (AbsolutePathBuf * list str) :=
  match m with
  | [] => [(key, [value])]
  | (k, vs) :: rest =>
      match path_compare key k with
      | Lt => (key, [value]) :: m
      | Eq => (k, vs ++ [value]) :: rest
      | Gt => (k, vs) :: push_under key value rest
      end
  end.

Definition patterns_by_search_root (patterns : list str) (cwd : Path) : list (AbsolutePathBuf * list str) :=
  foldl (fun m pattern =>
    match split_pattern_for_ripgrep pattern cwd with
    | Some (search_root, glob) => if is_dir env search_root then push_under search_root glob m else m
    | None => m
    end) [] patterns.

(** Linux refuses paths of more than [PATH_MAX] bytes, so that no directory that can
    be read is deeper; it bounds the descent. *)
Definition PATH_MAX : nat := Eval vm_compute in 64 * 64.

Fixpoint collect_glob_files (fuel : nat) (search_root dir : Path) (glob_set : list Component -> bool)
  (remaining_depth : option nat) (paths : list (list Component)) {struct fuel}
  : result CodexErr (list (list Component)) :=
  match fuel with
  | 0 => OutOfFuel
  | S fuel =>
      match read_dir host dir with
      | None => Err Io
      | Some entries =>
          (fix each (entries : list DirEntry) (paths : list (list Component)) {struct entries} :=
            match entries with
            | [] => Ok paths
            | EntryError :: _ | ReadEntry _ None :: _ => Err Io
            | ReadEntry name (Some file_type) :: rest =>
                let path := dir ++ [Normal name] in
                let relative := default path (path_strip_prefix path search_root) in
                let? paths :=
                  if bool_decide (file_type = IsFile \/ file_type = IsSymlink) && glob_set relative
                  then let? p := checked (display path) in Ok (paths ++ [p])
                  else Ok paths in
                if negb (bool_decide (file_type = IsDirectory)) then each rest paths
                else
                  match remaining_depth with
                  | Some 0 | Some 1 => each rest paths
                  | Some depth =>
                      let? paths := collect_glob_files fuel search_root path glob_set (Some (depth - 1)) paths in
                      each rest paths
                  | None =>
                      let? paths := collect_glob_files fuel search_root path glob_set None paths in
                      each rest paths
                  end
            end) entries paths
      end
  end.

(** The globs, each built in turn. *)
Definition build_globs (search_root : Path) (globs : list str) : result CodexErr (list (list Component -> bool)) :=
  traverse (fun glob =>
    match glob_matcher host glob with
    | inl err => Err (Fatal (L"unreadable glob pattern is invalid for " ++ display search_root ++ L": " ++ err))
    | inr matcher => Ok matcher
    end) globs.

Definition glob_files (search_root : Path) (globs : list str) (max_depth : option nat)
  : result CodexErr (list (list Component)) :=
  let? matchers := build_globs search_root globs in
  match glob_set_error host globs with
  | Some err => Err (Fatal (L"unreadable glob matcher failed for " ++ display search_root ++ L": " ++ err))
  | None =>
      collect_glob_files (S PATH_MAX) search_root search_root
        (fun path => existsb (fun matcher => matcher path) matchers) max_depth []
  end.

Definition rg_arguments (search_root : Path) (globs : list str) (max_depth : option nat) : list str :=
  [L"--files"; L"--hidden"; L"--no-ignore"; L"--null"]
  ++ (match max_depth with Some depth => [L"--max-depth"; show_nat depth] | None => [] end)
  ++ concat ((fun glob => [L"--glob"; glob]) <$> globs)
  ++ [L"--"; display search_root].

(** The paths ripgrep printed, each ended by a zero byte. *)
Definition checked_paths (search_root : Path) (stdout : str) : result CodexErr (list (list Component)) :=
  traverse (fun text => checked (if is_absolute text then text else path_join (display search_root) text))
    (filter (fun path => path <> []) (split_char 0%N stdout)).

Definition ripgrep_files (search_root : Path) (globs : list str) (max_depth : option nat)
  : result CodexErr (list (list Component)) :=
  match rg host (rg_arguments search_root globs max_depth) with
  | RgNotFound => glob_files search_root globs max_depth
  | RgNotStarted => Err Io
  | RgOutput false code _ stderr =>
      if bool_decide (code = Some 1%N) && is_nil stderr then Ok []
      else Err (Fatal (L"ripgrep unreadable glob scan failed for " ++ display search_root ++ L": " ++ stderr))
  | RgOutput true _ stdout _ => checked_paths search_root stdout
  end.

(** The loop over the matches under one root. *)
Fixpoint expand_matches (search_root : Path) (paths expanded : list (list Component))
  : result CodexErr (list (list Component)) :=
  match paths with
  | [] => Ok expanded
  | path :: rest =>
      let? expanded :=
        match canonical_target_if_symlinked_path path with
        | Some target => let? target := checked (display target) in Ok (push_unique expanded target)
        | None => Ok expanded
        end in
      let expanded := push_unique expanded path in
      if MAX_UNREADABLE_GLOB_MATCHES <? length expanded
      then Err (Fatal (L"unreadable glob expansion for " ++ display search_root ++ L" matched more than 8192 paths"))
      else expand_matches search_root rest expanded
  end.

Fixpoint expand_roots (roots : list (AbsolutePathBuf * list str)) (max_depth : option nat)
  (expanded : list (list Component)) : result CodexErr (list (list Component)) :=
  match roots with
  | [] => Ok expanded
  | (search_root, globs) :: rest =>
      let? paths := ripgrep_files search_root globs max_depth in
      let? expanded := expand_matches search_root paths expanded in
      expand_roots rest max_depth expanded
  end.

Definition sorted_paths (paths : list (list Component)) : list (list Component) :=
  dedup (merge_sort (compare_le path_compare) paths).

Definition expand_unreadable_globs_with_ripgrep (patterns : list str) (cwd : Path) (max_depth : option nat)
  : result CodexErr (list (list Component)) :=
  if is_nil patterns || bool_decide (max_depth = Some 0) then Ok []
  else let? expanded := expand_roots (patterns_by_search_root patterns cwd) max_depth [] in
       Ok (sorted_paths expanded).

(** ** The mounts of a policy *)

Definition bwrap_writable_roots (p : FileSystemSandboxPolicy) (cwd : Path) : result CodexErr (list WritableRoot) :=
  let writable_roots :=
    List.filter (fun r => path_exists env (root r)) (get_writable_roots_with_cwd env p cwd) in
  if is_nil writable_roots && has_full_disk_write_access p
     && negb (is_nil (get_unreadable_globs_with_cwd env p cwd))
  then match absolute env [RootDir] with
       | Some root => Ok [mkWritableRoot root [] []]
       | None => Err Io
       end
  else Ok writable_roots.

Definition missing_auto_metadata_read_only_project_root_subpaths (p : FileSystemSandboxPolicy) (cwd : Path)
  : list (list Component) :=
  omap (fun e =>
    match entry_path e with
    | Special (ProjectRoots (Some subpath)) =>
        if negb (bool_decide (subpath ∈ [[Normal GIT]; [Normal AGENTS]; [Normal CODEX]])) then None
        else let resolved := resolve_against env (display subpath) cwd in
             if path_exists env resolved then None else Some resolved
    | _ => None
    end) (List.filter (fun e => bool_decide (access e = AccessRead)) (entries p)).

Definition bwrap_unreadable_roots (p : FileSystemSandboxPolicy) (cwd : Path) (max_depth : option nat)
  : result CodexErr (list (list Component)) :=
  let? expanded :=
    expand_unreadable_globs_with_ripgrep (get_unreadable_globs_with_cwd env p cwd) cwd max_depth in
  Ok (sorted_paths (get_unreadable_roots_with_cwd env p cwd ++ expanded)).

Definition full_read_args : list Flag := [RoBind [RootDir]; Dev [RootDir; Normal (L"dev")]].

Definition bwrap_readable_roots (p : FileSystemSandboxPolicy) (cwd : Path) : list (list Component) :=
  sorted_paths
    (get_readable_roots_with_cwd env p cwd
     ++ if include_platform_defaults p
        then List.filter (path_exists env) (components <$> LINUX_PLATFORM_DEFAULT_READ_ROOTS)
        else []).

Definition mount_readable_root (writable_roots : list WritableRoot) (r : Path) : list Flag :=
  if negb (path_exists env r) then []
  else
    let mount_root :=
      if existsb (fun w => path_starts_with r (root w)) writable_roots
      then default r (canonical_target_if_symlinked_path r) else r in
    [RoBind mount_root].

Definition base_args (p : FileSystemSandboxPolicy) (cwd : Path) (writable_roots : list WritableRoot) : list Flag :=
  if has_full_disk_read_access p then full_read_args
  else
    let readable_roots := bwrap_readable_roots p cwd in
    if existsb (fun r => bool_decide (r = [RootDir])) readable_roots then full_read_args
    else [Tmpfs [RootDir]; Dev [RootDir; Normal (L"dev")]]
         ++ concat (mount_readable_root writable_roots <$> readable_roots).

Definition allowed_write_paths_of (writable_roots : list WritableRoot) : list (list Component) :=
  concat ((fun r => root r :: option_list (canonical_target_if_symlinked_path (root r))) <$> writable_roots).

Definition append_metadata_path_masks_for_writable_root (subpaths : list (list Component))
  (root mount_root : Path) (names : list str) : list (list Component) :=
  foldl (fun subpaths name =>
    let path := path_append root (components name) in
    if should_leave_missing_git_for_parent_repo_discovery mount_root name then subpaths
    else push_unique subpaths path) subpaths names.

Definition append_protected_create_targets_for_writable_root (b : FilesystemArgs) (names : list str)
  (root : Path) (symlink_target : option (list Component)) (subpaths : list (list Component)) : FilesystemArgs :=
  foldl (fun b name =>
    let path := path_append root (components name) in
    let path := match symlink_target, path_strip_prefix path root with
                | Some target, Some relative_path => path_append target relative_path
                | _, _ => path
                end in
    if bool_decide (path ∈ subpaths) || path_exists env path then b
    else push_create_target b path) b names.

(** Running a fallible step for each of a list. *)
Fixpoint for_each {A} (step : FilesystemArgs -> A -> result CodexErr FilesystemArgs)
  (b : FilesystemArgs) (l : list A) : result CodexErr FilesystemArgs :=
  match l with
  | [] => Ok b
  | x :: rest => let? b := step b x in for_each step b rest
  end.

Definition remapped (paths : list (list Component)) (root : Path) (symlink_target : option (list Component))
  : list (list Component) :=
  match symlink_target with
  | Some target => remap_paths_for_symlink_target paths root target
  | None => paths
  end.

(** One writable root: its parents, its bind, what is read-only and what is
    unreadable below it. *)
Definition mount_writable_root (unreadable_roots missing_auto allowed_write_paths : list (list Component))
  (b : FilesystemArgs) (r : WritableRoot) : result CodexErr FilesystemArgs :=
  let symlink_target := canonical_target_if_symlinked_path (root r) in
  let b :=
    match max_by_key (fun a b => path_depth a <=? path_depth b)
            (List.filter (path_starts_with (root r)) unreadable_roots) with
    | Some masking_root => append_mount_target_parent_dir_args b (root r) masking_root
    | None => b
    end in
  let mount_root := default (root r) symlink_target in
  let b := push_flags b [Bind mount_root] in
  let subpaths :=
    List.filter (fun path => negb (bool_decide (path ∈ missing_auto)))
      (List.filter (fun path => negb (bool_decide (path ∈ unreadable_roots))) (read_only_subpaths r)) in
  let subpaths :=
    append_metadata_path_masks_for_writable_root subpaths (root r) mount_root (protected_metadata_names r) in
  let subpaths := remapped subpaths (root r) symlink_target in
  let b := append_protected_create_targets_for_writable_root b (protected_metadata_names r) (root r)
             symlink_target subpaths in
  let? b := for_each (fun b path => append_read_only_subpath_args b path allowed_write_paths) b
              (sort_by_key path_depth subpaths) in
  let nested := remapped (List.filter (fun path => path_starts_with path (root r)) unreadable_roots)
                  (root r) symlink_target in
  for_each (fun b path => append_unreadable_root_args b path allowed_write_paths) b
    (sort_by_key path_depth nested).

Definition create_filesystem_args (p : FileSystemSandboxPolicy) (cwd : Path) (max_depth : option nat)
  : result CodexErr FilesystemArgs :=
  let? writable_roots := bwrap_writable_roots p cwd in
  let missing_auto := missing_auto_metadata_read_only_project_root_subpaths p cwd in
  let? unreadable_roots := bwrap_unreadable_roots p cwd max_depth in
  let b := mkFilesystemArgs (base_args p cwd writable_roots) [] [] [] in
  let allowed_write_paths := allowed_write_paths_of writable_roots in
  let mask b path := append_unreadable_root_args b path allowed_write_paths in
  let is_below path := existsb (path_starts_with path) allowed_write_paths in
  let is_above path := existsb (fun root => path_starts_with root path) allowed_write_paths in
  let? b := for_each mask b
              (sort_by_key path_depth (List.filter (fun u => negb (is_below u) && is_above u) unreadable_roots)) in
  let? b := for_each (mount_writable_root unreadable_roots missing_auto allowed_write_paths) b
              (sort_by_key (fun r => path_depth (root r)) writable_roots) in
  for_each mask b
    (sort_by_key path_depth (List.filter (fun u => negb (is_below u || is_above u)) unreadable_roots)).

(** ** The command line *)

Definition create_bwrap_flags_full_filesystem (command : list str) (options : BwrapOptions) : BwrapArgs :=
  mkBwrapArgs
    ([L"--new-session"; L"--die-with-parent"; L"--bind"; L"/"; L"/"; L"--unshare-user"; L"--unshare-pid"]
     ++ (if should_unshare_network (network_mode options) then [L"--unshare-net"] else [])
     ++ (if mount_proc options then [L"--proc"; L"/proc"] else [])
     ++ [L"--"] ++ command) [] [] [].

Definition create_bwrap_flags (command : list str) (p : FileSystemSandboxPolicy)
  (sandbox_policy_cwd command_cwd : Path) (options : BwrapOptions) : result CodexErr BwrapArgs :=
  let? b := create_filesystem_args p sandbox_policy_cwd
              (match option_glob_scan_max_depth options with
               | Some depth => Some depth
               | None => glob_scan_max_depth p
               end) in
  let normalized_command_cwd := normalize_command_cwd_for_bwrap command_cwd in
  Ok (mkBwrapArgs
    ([L"--new-session"; L"--die-with-parent"] ++ concat (render <$> flags b)
     ++ [L"--unshare-user"; L"--unshare-pid"]
     ++ (if should_unshare_network (network_mode options) then [L"--unshare-net"] else [])
     ++ (if mount_proc options then [L"--proc"; L"/proc"] else [])
     ++ (if bool_decide (normalized_command_cwd = command_cwd) then []
         else [L"--chdir"; path_to_string normalized_command_cwd])
     ++ [L"--"] ++ command)
    (preserved_files b) (synthetic_mount_targets b) (protected_create_targets b)).

Definition create_bwrap_command_args (command : list str) (p : FileSystemSandboxPolicy)
  (sandbox_policy_cwd command_cwd : Path) (options : BwrapOptions) : result CodexErr BwrapArgs :=
  if has_full_disk_write_access p && is_nil (get_unreadable_globs_with_cwd env p sandbox_policy_cwd)
  then
    if bool_decide (network_mode options = FullAccess) then Ok (mkBwrapArgs command [] [] [])
    else Ok (create_bwrap_flags_full_filesystem command options)
  else create_bwrap_flags command p sandbox_policy_cwd command_cwd options.
End bwrap.
