(* ===== verification/BwrapSafety.v ===== *)
(** * What a command in the sandbox of Linux sees

    Bubblewrap applies its mounts in order, each over what was there
    (vendor/bubblewrap/bubblewrap.c, setup_newroot).  [view] is what this leaves of a path
    of the host: hidden, read-only or writable.  The theorems relate it to the policy the
    mounts were made from. *)

From S2P Require Import Prelude RustStr AbsolutePath SandboxPaths Permissions PermissionSafety BwrapMounts.

(** ** The view *)

Inductive Seen := Hidden | HostReadOnly | HostWritable.

#[export] Instance Seen_eq_dec : EqDecision Seen.
Proof. solve_decision. Defined.

(** What a flag puts at its path, if it is a mount: a bind is recursive and shows the
    files of the host below the path; an empty file system, a minimal /dev and a file with
    the data of a descriptor show none of them.  (The nodes of a minimal /dev that are the
    host's, null, zero, full, random, urandom, tty and console, are devices and count as no
    files.)  Making a directory, setting a mode, and making an empty file system read-only
    show no other file of the host. *)
Definition mounts (f : Flag) : option (list Component * Seen) :=
  match f with
  | Bind path => Some (path, HostWritable)
  | RoBind path => Some (path, HostReadOnly)
  | Tmpfs path | Dev path | RoBindData _ path => Some (path, Hidden)
  | Dir _ | RemountRo _ | Perms _ => None
  end.

Definition mount_over (target : Path) (seen : Seen) (f : Flag) : Seen :=
  match mounts f with
  | Some (path, s) => if path_starts_with target path then s else seen
  | None => seen
  end.
Definition view (fs : list Flag) (target : Path) : Seen := foldl (mount_over target) Hidden fs.

Definition shows (f : Flag) (target : Path) (s : Seen) : Prop :=
  exists path, mounts f = Some (path, s) /\ path `prefix_of` target.
Definition covered (f : Flag) (target : Path) : Prop := exists s, shows f target s.

Lemma mount_over_spec target seen f :
  (exists s, shows f target s /\ mount_over target seen f = s)
  \/ (~ covered f target /\ mount_over target seen f = seen).
Proof.
  unfold mount_over, covered, shows. destruct (mounts f) as [[path s]|].
  - destruct (path_starts_with target path) eqn:E.
    + left. exists s. split; [|done]. exists path. split; [done|]. by apply path_starts_with_spec.
    + right. split; [|done]. intros (s' & path' & [= <- <-] & Hp). apply path_starts_with_spec in Hp. congruence.
  - right. split; [|done]. by intros (s & path & ? & _).
Qed.

(** The last mount over a path decides. *)
Lemma view_last fs target s :
  view fs target = s -> s <> Hidden ->
  exists before f after, fs = before ++ f :: after /\ shows f target s
    /\ forall g, g ∈ after -> ~ covered g target.
Proof.
  unfold view. induction fs as [|f fs IH] using rev_ind; [intros <-; done|].
  rewrite foldl_app. cbn [foldl]. intros Hs Hne.
  destruct (mount_over_spec target (foldl (mount_over target) Hidden fs) f) as [(s' & Hf & E)|[Hf E]].
  - exists fs, f, []. rewrite E in Hs. subst s'. split_and!; [done|done|set_solver].
  - rewrite E in Hs. destruct (IH Hs Hne) as (before & g & after & -> & Hg & Hafter).
    exists before, g, (after ++ [f]). split_and!; [by rewrite <- app_assoc|done|set_solver].
Qed.

Lemma view_app fs fs' target :
  (forall g, g ∈ fs' -> ~ covered g target) -> view (fs ++ fs') target = view fs target.
Proof.
  unfold view. intros Hno. rewrite foldl_app. generalize (foldl (mount_over target) Hidden fs). intros s.
  revert s. induction fs' as [|f fs' IH]; intros s; [done|]. cbn [foldl].
  destruct (mount_over_spec target s f) as [(s' & Hf & _)|[_ ->]]; [|apply IH; set_solver].
  destruct (Hno f); [set_solver|by exists s'].
Qed.

Lemma view_snoc fs f target s : shows f target s -> view (fs ++ [f]) target = s.
Proof.
  intros Hf. unfold view. rewrite foldl_app. cbn [foldl].
  destruct (mount_over_spec target (foldl (mount_over target) Hidden fs) f) as [(s' & Hs & ->)|[Hn _]].
  - destruct Hf as (p & E & _), Hs as (q & E' & _). congruence.
  - destruct Hn. by exists s.
Qed.

(** ** Sorting and loops *)

Lemma insert_by_key_Permutation {A} (key : A -> nat) x l : insert_by_key key x l ≡ₚ x :: l.
Proof.
  induction l as [|y l IH]; [done|]. cbn. destruct (key x <=? key y); [done|]. rewrite IH. constructor.
Qed.
Lemma sort_by_key_Permutation {A} (key : A -> nat) l : sort_by_key key l ≡ₚ l.
Proof. induction l as [|x l IH]; [done|]. cbn. by rewrite insert_by_key_Permutation, IH. Qed.

Lemma sort_by_key_sorted {A} (key : A -> nat) l :
  StronglySorted (fun x y => key x <= key y) (sort_by_key key l).
Proof.
  induction l as [|x l IH]; [constructor|].
  change (sort_by_key key (x :: l)) with (insert_by_key key x (sort_by_key key l)).
  revert IH. generalize (sort_by_key key l). intros s.
  induction s as [|y s IHs]; intros Hs; cbn [insert_by_key]; [by repeat constructor|].
  apply StronglySorted_inv in Hs as [Hs Hy]. destruct (key x <=? key y) eqn:E.
  - apply Nat.leb_le in E. constructor; [by constructor|]. constructor; [done|].
    eapply Forall_impl; [exact Hy|]. cbn. lia.
  - apply Nat.leb_gt in E. constructor; [by apply IHs|].
    apply Forall_forall. intros z Hz. rewrite insert_by_key_Permutation in Hz.
    apply elem_of_cons in Hz as [->|Hz]; [lia|]. by eapply Forall_forall in Hy.
Qed.

Lemma sorted_lookup {A} (R : A -> A -> Prop) l i j x y :
  StronglySorted R l -> l !! i = Some x -> l !! j = Some y -> i < j -> R x y.
Proof.
  intros Hs. revert i j. induction Hs as [|a l _ IH Ha]; intros i j Hi Hj Hij; [done|].
  destruct j as [|j]; [lia|]. destruct i as [|i]; cbn in *; [|by eapply (IH i j); [..|lia]].
  injection Hi as <-. eapply Forall_forall in Ha; [done|]. by eapply list_elem_of_lookup_2.
Qed.

(** A loop whose steps append flags. *)
Lemma for_each_appends {A} (R : A -> list Flag -> FilesystemArgs -> Prop)
    (step : FilesystemArgs -> A -> result CodexErr FilesystemArgs) (l : list A) :
  (forall b x b', x ∈ l -> step b x = Ok b' -> exists fs, flags b' = flags b ++ fs /\ R x fs b'
      /\ protected_create_targets b `prefix_of` protected_create_targets b') ->
  forall b b', for_each step b l = Ok b' ->
  exists fss, flags b' = flags b ++ concat fss
    /\ Forall2 (fun x fs => exists b0, R x fs b0
                 /\ protected_create_targets b0 `prefix_of` protected_create_targets b') l fss
    /\ protected_create_targets b `prefix_of` protected_create_targets b'.
Proof.
  intros Hstep. induction l as [|x l IH]; intros b b'; cbn [for_each].
  { intros [= <-]. exists []. split_and!; [by rewrite app_nil_r|constructor|done]. }
  destruct (step b x) as [b1| | |] eqn:E; cbn [rbind]; try done. intros E'.
  destruct (Hstep b x b1) as (fs & Hf & HR & Hp); [set_solver|done|].
  destruct (IH (fun b x b' H => Hstep b x b' (list_elem_of_further x _ l H)) b1 b' E') as (fss & Hfs & Hall & Hp').
  exists (fs :: fss). split_and!.
  - cbn. by rewrite Hfs, Hf, app_assoc.
  - constructor; [by exists b1|done].
  - by etransitivity.
Qed.

(** ** What flags mount *)

Definition no_mounts (fs : list Flag) : Prop := Forall (fun f => mounts f = None) fs.

Definition mounted (fs : list Flag) (path : list Component) (seen : Seen) : Prop :=
  exists f, f ∈ fs /\ mounts f = Some (path, seen).

Lemma mounted_app fs fs' path seen : mounted (fs ++ fs') path seen <-> mounted fs path seen \/ mounted fs' path seen.
Proof. unfold mounted. set_solver. Qed.

Lemma mounted_none fs path seen : no_mounts fs -> ~ mounted fs path seen.
Proof. intros Hn (f & Hf & E). unfold no_mounts in Hn. rewrite Forall_forall in Hn. by rewrite (Hn f Hf) in E. Qed.

Lemma mounted_one f path seen q s :
  mounts f = Some (q, s) -> mounted [f] path seen <-> path = q /\ seen = s.
Proof.
  intros E. unfold mounted. split; [intros (g & ->%list_elem_of_singleton & E'); naive_solver|].
  intros [-> ->]. exists f. split; [set_solver|done].
Qed.

(** Flags around one mount. *)
Lemma mounted_around fs f fs' path seen q s :
  no_mounts fs -> no_mounts fs' -> mounts f = Some (q, s) ->
  mounted (fs ++ f :: fs') path seen <-> path = q /\ seen = s.
Proof.
  intros H H' E. change (f :: fs') with ([f] ++ fs'). rewrite !mounted_app, (mounted_one f _ _ q s) by done.
  split; [|naive_solver]. intros [Hm|[?|Hm]]; [by apply mounted_none in Hm|done|by apply mounted_none in Hm].
Qed.

(** ** A host without symbolic links *)

Record host_ok (env : Env) (host : Host) : Prop := mkHostOk {
  host_no_links : forall q m, symlink_metadata host q = Found m -> file_type m <> IsSymlink;
  host_parents : forall q c, path_exists env (q ++ [c]) = true -> q <> [] -> path_exists env q = true;
  host_missing : forall q, symlink_metadata host q = NotFound -> path_exists env q = false }.

Section steps.
Context (env : Env) (host : Host) (Hhost : host_ok env host).

Lemma walk_nothing {A} (at_path : list Component -> option (option A)) cs : forall current,
  (forall p x, at_path p = Some x -> x = None) -> walk_components at_path current cs = None.
Proof.
  induction cs as [|c cs IH]; intros current Hat; [done|]. destruct c; cbn; [by apply IH..|].
  destruct (at_path _) eqn:E; [by eapply Hat|by apply IH].
Qed.

Lemma no_link q m : metadata_of host q = Some m -> bool_decide (file_type m = IsSymlink) = false.
Proof.
  unfold metadata_of. destruct (symlink_metadata host q) eqn:E; try done. intros [= <-].
  apply bool_decide_eq_false. by eapply host_no_links.
Qed.

Lemma canonical_target_none path : canonical_target_if_symlinked_path env host path = None.
Proof.
  apply walk_nothing. intros q x. destruct (metadata_of host q) as [m|] eqn:E; [|by intros [= <-]].
  by rewrite (no_link _ _ E).
Qed.

Lemma writable_symlink_none path allowed : first_writable_symlink_component_in_path host path allowed = None.
Proof.
  apply walk_nothing. intros q x. destruct (metadata_of host q) as [m|] eqn:E; [|by intros [= <-]].
  by rewrite (no_link _ _ E).
Qed.

Lemma exists_prefix p q : path_exists env p = true -> q `prefix_of` p -> q <> [] -> path_exists env q = true.
Proof.
  intros Hp [k ->] Hq. revert Hp. induction k as [|c k IH] using rev_ind; [by rewrite app_nil_r|].
  rewrite app_assoc. intros Hp. apply IH. eapply host_parents; [done|exact Hp|]. by destruct q.
Qed.

Definition missing_at (p : list Component) : option (option (list Component)) :=
  if path_exists env p then None else Some (Some p).

(** The walk stops at the first path that is missing. *)
Lemma walk_missing names : forall current,
  match walk_components missing_at current (Normal <$> names) with
  | Some f => path_exists env f = false /\ current `prefix_of` f /\ f `prefix_of` current ++ (Normal <$> names)
              /\ current <> f
  | None => names = [] \/ path_exists env (current ++ (Normal <$> names)) = true
  end.
Proof.
  induction names as [|n names IH]; intros current; [by left|]. cbn [fmap list_fmap walk_components].
  change (list_fmap _ _ Normal names) with (Normal <$> names). unfold missing_at at 1.
  destruct (path_exists env (current ++ [Normal n])) eqn:E.
  - specialize (IH (current ++ [Normal n])). rewrite <- app_assoc in IH. cbn [app] in IH.
    destruct (walk_components _ _ _) as [f|].
    + destruct IH as (Hf & Hpre & Hto & _). split_and!; [done| |done|].
      * etransitivity; [|exact Hpre]. by eexists.
      * intros <-. apply prefix_length in Hpre. rewrite length_app in Hpre. cbn in Hpre. lia.
    + right. destruct IH as [->|IH]; [done|done].
  - split_and!; [done|by eexists| |].
    + exists (Normal <$> names). by rewrite <- app_assoc.
    + intros E'. apply (f_equal length) in E'. rewrite length_app in E'. cbn in E'. lia.
Qed.

Lemma first_missing_spec s :
  abs_ok s ->
  match find_first_non_existent_component env s with
  | Some f => path_exists env f = false /\ f `prefix_of` s /\ f <> []
  | None => s = [RootDir] \/ path_exists env s = true
  end.
Proof.
  intros [[names ->] _]. unfold find_first_non_existent_component. cbn [walk_components].
  pose proof (walk_missing names [RootDir]) as H. change (walk_components _ [RootDir] (Normal <$> names)) with
    (walk_components missing_at [RootDir] (Normal <$> names)).
  destruct (walk_components _ _ _) as [f|]; [|destruct H as [->|H]; [by left|by right]].
  destruct H as (? & Hp & ? & _). split_and!; [done|done|]. intros ->. by apply prefix_nil_not in Hp.
Qed.

(** Below a path that exists the missing path is below it too. *)
Lemma first_missing_below s w :
  abs_ok s -> w `prefix_of` s -> w <> [] -> path_exists env w = true -> path_exists env s = false ->
  exists f, find_first_non_existent_component env s = Some f
    /\ path_exists env f = false /\ w `prefix_of` f /\ f `prefix_of` s.
Proof.
  intros Hs Hw Hne He Hm. pose proof (first_missing_spec s Hs) as H.
  destruct (find_first_non_existent_component env s) as [f|].
  - destruct H as (Hf & Hp & Hn). exists f. split_and!; [done|done| |done].
    destruct (prefix_weak_total _ _ _ Hw Hp) as [?|Hfw]; [done|].
    by rewrite (exists_prefix w f He Hfw Hn) in Hf.
  - destruct H as [->|H]; [|congruence]. destruct w as [|c w]; [done|]. destruct Hw as [k E]. injection E as <- E.
    apply eq_sym, app_eq_nil in E as [-> _]. congruence.
Qed.

(** *** What each step appends *)

(** Everything mounted is a mask of [s]: at [s], or at a missing path above it. *)
Definition at_or_missing (path s : list Component) : Prop :=
  path = s \/ (path `prefix_of` s /\ path_exists env path = false /\ path <> []).

Lemma parents_append b t anchor :
  exists fs, flags (append_mount_target_parent_dir_args env b t anchor) = flags b ++ fs /\ no_mounts fs
    /\ protected_create_targets (append_mount_target_parent_dir_args env b t anchor) = protected_create_targets b.
Proof.
  unfold append_mount_target_parent_dir_args. destruct (if is_dir env t then _ else _) as [d|].
  - eexists. split_and!; [reflexivity| |done]. apply Forall_fmap, Forall_forall. done.
  - exists []. rewrite app_nil_r. split_and!; [done|constructor|done].
Qed.

Lemma null_data_appends b path b' :
  append_empty_file_bind_data_args host b path = Ok b' ->
  exists fd, flags b' = flags b ++ [RoBindData fd path]
    /\ protected_create_targets b' = protected_create_targets b.
Proof.
  unfold append_empty_file_bind_data_args. destruct b as [fs files syn create]. cbn [preserved_files].
  destruct files as [|fd files]; [destruct (dev_null host) as [fd|]|]; cbn; try done;
    intros [= <-]; by exists fd.
Qed.

(** A denied path. *)
Definition denies (u : list Component) (allowed : list (list Component)) (fs : list Flag) : Prop :=
  (forall path seen, mounted fs path seen -> seen = Hidden /\ at_or_missing path u)
  /\ (path_exists env u = true \/ (exists w, w ∈ allowed /\ w <> [] /\ path_exists env w = true /\ w `prefix_of` u) ->
      exists path, mounted fs path Hidden /\ path `prefix_of` u).

Lemma mask_missing_appends b path b' :
  append_missing_empty_file_bind_data_args host b path = Ok b' ->
  exists fd, flags b' = flags b ++ [RoBindData fd path]
    /\ protected_create_targets b' = protected_create_targets b.
Proof.
  unfold append_missing_empty_file_bind_data_args.
  destruct (append_empty_file_bind_data_args host b path) as [b1| | |] eqn:E; cbn; try done.
  intros [= <-]. by apply null_data_appends in E.
Qed.

Lemma parents_append_all u l : forall b,
  exists fs, flags (foldl (fun b d => append_mount_target_parent_dir_args env b d u) b l) = flags b ++ fs
    /\ no_mounts fs
    /\ protected_create_targets (foldl (fun b d => append_mount_target_parent_dir_args env b d u) b l)
       = protected_create_targets b.
Proof.
  induction l as [|d l IH]; intros b; [exists []; rewrite app_nil_r; split_and!; [done|constructor|done]|].
  cbn [foldl]. destruct (parents_append b d u) as (fs & Hf & Hn & Hc).
  destruct (IH (append_mount_target_parent_dir_args env b d u)) as (fs' & -> & Hn' & ->).
  exists (fs ++ fs'). rewrite Hf, app_assoc. split_and!; [done|by apply Forall_app|done].
Qed.

Lemma denies_at u allowed fs :
  (forall path seen, mounted fs path seen <-> path = u /\ seen = Hidden) -> denies u allowed fs.
Proof.
  intros Hm. split; [intros path seen [-> ->]%Hm; split; [done|by left]|]. intros _. exists u. split; [by apply Hm|done].
Qed.

Lemma deny_existing b u allowed b' :
  append_existing_unreadable_path_args env host b u allowed = Ok b' ->
  exists fs, flags b' = flags b ++ fs /\ (forall path seen, mounted fs path seen <-> path = u /\ seen = Hidden)
    /\ protected_create_targets b' = protected_create_targets b.
Proof.
  unfold append_existing_unreadable_path_args. destruct (is_dir env u).
  - set (ds := List.filter _ _). set (b1 := push_flags b _).
    destruct (parents_append_all u (sort_by_key path_depth ds) b1) as (fs & Hf & Hn & Hc). intros [= <-].
    exists ([Perms (if is_nil ds then L"000" else L"111")] ++ Tmpfs u :: fs ++ [RemountRo u]).
    split; [cbn [flags push_flags]; rewrite Hf; cbn [b1 flags push_flags]; by rewrite <- !app_assoc|].
    split; [|done]. intros path seen. apply mounted_around; [by repeat constructor| |done].
    apply Forall_app. split; [done|by repeat constructor].
  - intros E. apply null_data_appends in E as (fd & E & Ec). exists ([Perms (L"000")] ++ [RoBindData fd u]).
    split; [rewrite E; cbn; by rewrite <- app_assoc|]. split; [|done].
    intros path seen. apply mounted_around; by repeat constructor.
Qed.

(** A missing path below one that may be written is blocked at its first missing
    component; any other is left. *)
Lemma missing_within s w allowed f :
  abs_ok s -> find_first_non_existent_component env s = Some f -> path_exists env s = false ->
  w ∈ allowed -> w <> [] -> path_exists env w = true -> w `prefix_of` s ->
  is_within_allowed_write_paths f allowed = true.
Proof.
  intros Hs Ef Es Hw Hwn Hwe Hws. destruct (first_missing_below s w Hs Hws Hwn Hwe Es) as (f' & Ef' & _ & Hwf & _).
  rewrite Ef in Ef'. injection Ef' as <-. apply existsb_exists. exists w.
  split; [by apply list_elem_of_In|by apply path_starts_with_spec].
Qed.

Lemma first_missing_some s w :
  abs_ok s -> path_exists env s = false -> w <> [] -> path_exists env w = true -> w `prefix_of` s ->
  find_first_non_existent_component env s <> None.
Proof.
  intros Hs Es Hwn Hwe Hws E. by destruct (first_missing_below s w Hs Hws Hwn Hwe Es) as (f' & Ef' & _);
  rewrite E in Ef'.
Qed.

Lemma deny_appends b u allowed b' :
  abs_ok u -> append_unreadable_root_args env host b u allowed = Ok b' ->
  exists fs, flags b' = flags b ++ fs /\ denies u allowed fs
    /\ protected_create_targets b' = protected_create_targets b.
Proof.
  intros Hu. unfold append_unreadable_root_args. rewrite writable_symlink_none.
  destruct (path_exists env u) eqn:Eu; cbn [negb].
  { intros (fs & ? & Hm & ?)%deny_existing. exists fs. split; [done|]. split; [by apply denies_at|done]. }
  assert (find_first_non_existent_component env u = None
          \/ (exists f, find_first_non_existent_component env u = Some f
               /\ is_within_allowed_write_paths f allowed = false) ->
          denies u allowed []) as Hnone.
  { intros Hcase. split; [intros path seen (f & Hf & _); by apply elem_of_nil in Hf|].
    intros [?|(w & Hw & Hwn & Hwe & Hwu)]; [congruence|]. destruct Hcase as [E|(f & Ef & Ew)].
    - by destruct (first_missing_some u w Hu Eu Hwn Hwe Hwu).
    - by rewrite (missing_within u w allowed f) in Ew. }
  pose proof (first_missing_spec u Hu) as Hfirst.
  destruct (find_first_non_existent_component env u) as [f|] eqn:Ef;
    [|intros [= <-]; exists []; rewrite app_nil_r; split; [done|split; [by apply Hnone; left|done]]].
  destruct (is_within_allowed_write_paths f allowed) eqn:Ew.
  - intros (fd & -> & Ec)%mask_missing_appends. exists [RoBindData fd f]. split; [done|]. split; [|done].
    split; setoid_rewrite (mounted_one (RoBindData fd f) _ _ f Hidden eq_refl).
    + intros path seen [-> ->]. split; [done|]. right. naive_solver.
    + intros _. exists f. naive_solver.
  - intros [= <-]. exists []. rewrite app_nil_r. split; [done|]. split; [|done]. apply Hnone. right. by exists f.
Qed.

(** A protected path. *)
Definition protects (s : list Component) (allowed : list (list Component)) (fs : list Flag) : Prop :=
  (forall path seen, mounted fs path seen -> seen <> HostWritable /\ at_or_missing path s
     /\ (seen = HostReadOnly -> path = s /\ is_within_allowed_write_paths s allowed = true))
  /\ (forall w, w ∈ allowed -> w <> [] -> path_exists env w = true -> w `prefix_of` s ->
      exists path seen, mounted fs path seen /\ path `prefix_of` s).

Lemma within_allowed w s allowed : w ∈ allowed -> w `prefix_of` s -> is_within_allowed_write_paths s allowed = true.
Proof.
  intros Hw Hs. apply existsb_exists. exists w. split; [by apply list_elem_of_In|by apply path_starts_with_spec].
Qed.

Lemma protects_at s allowed fs q seen :
  (forall path seen', mounted fs path seen' <-> path = q /\ seen' = seen) -> at_or_missing q s -> seen <> HostWritable ->
  (seen = HostReadOnly -> q = s /\ is_within_allowed_write_paths s allowed = true) -> protects s allowed fs.
Proof.
  intros Hm Hq Hw Hr. split.
  - intros path seen' [-> ->]%Hm. done.
  - intros w _ _ _ _. exists q, seen. split; [by apply Hm|]. destruct Hq as [->|[? _]]; done.
Qed.

Lemma empty_directory_appends b path :
  flags (append_empty_directory_args b path) = flags b ++ [Perms (L"555")] ++ [Tmpfs path; RemountRo path].
Proof. done. Qed.

Lemma mask_missing_subpath b path b' :
  append_missing_read_only_subpath_args host b path = Ok b' ->
  exists fs, flags b' = flags b ++ fs /\ (forall q seen, mounted fs q seen <-> q = path /\ seen = Hidden)
    /\ protected_create_targets b' = protected_create_targets b.
Proof.
  unfold append_missing_read_only_subpath_args. destruct (is_some_and _ _).
  - intros [= <-]. eexists. split; [apply empty_directory_appends|]. split; [|done].
    intros q seen. apply mounted_around; by repeat constructor.
  - intros (fd & -> & ->)%mask_missing_appends. eexists. split; [done|]. split; [|done].
    intros q seen. by apply mounted_one.
Qed.

Lemma protect_plain b s allowed b' :
  abs_ok s -> append_plain_read_only_args env host b s allowed = Ok b' ->
  exists fs, flags b' = flags b ++ fs /\ protects s allowed fs
    /\ protected_create_targets b' = protected_create_targets b.
Proof.
  intros Hs. unfold append_plain_read_only_args.
  assert ((forall w, w ∈ allowed -> w <> [] -> path_exists env w = true -> w `prefix_of` s -> False) ->
    protects s allowed []) as Hnone.
  { intros Hno. split; [intros path seen (f & Hf & _); by apply elem_of_nil in Hf|].
    intros w Hw Hwn Hwe Hws. by destruct (Hno w). }
  destruct (path_exists env s) eqn:Es; cbn [negb].
  { destruct (is_within_allowed_write_paths s allowed) eqn:Ew; intros [= <-].
    - exists [RoBind s]. split; [done|]. split; [|done].
      eapply protects_at; [intros q seen; by apply mounted_one|by left|done|done].
    - exists []. rewrite app_nil_r. split; [done|]. split; [|done]. apply Hnone. intros w Hw _ _ Hws.
      by rewrite (within_allowed w s allowed) in Ew. }
  pose proof (first_missing_spec s Hs) as Hfirst.
  destruct (find_first_non_existent_component env s) as [f|] eqn:Ef.
  - destruct (is_within_allowed_write_paths f allowed) eqn:Ew.
    + intros (fs & -> & Hm & Hc)%mask_missing_subpath. exists fs. split; [done|]. split; [|done].
      eapply protects_at; [exact Hm|right; naive_solver|done|done].
    + intros [= <-]. exists []. rewrite app_nil_r. split; [done|]. split; [|done]. apply Hnone.
      intros w Hw Hwn Hwe Hws. by rewrite (missing_within s w allowed f) in Ew.
  - intros [= <-]. exists []. rewrite app_nil_r. split; [done|]. split; [|done]. apply Hnone.
    intros w Hw Hwn Hwe Hws. by destruct (first_missing_some s w Hs Es Hwn Hwe Hws).
Qed.

Lemma protect_appends b s allowed b' :
  abs_ok s -> append_read_only_subpath_args env host b s allowed = Ok b' ->
  exists fs, flags b' = flags b ++ fs /\ protects s allowed fs
    /\ protected_create_targets b' = protected_create_targets b.
Proof.
  intros Hs. unfold append_read_only_subpath_args. rewrite writable_symlink_none.
  assert (forall fs (Hm : forall q seen, mounted fs q seen <-> q = s /\ seen = Hidden), protects s allowed fs) as Hhide
    by (intros fs Hm; eapply protects_at; [exact Hm|by left|done|done]).
  destruct (transient_empty_metadata_path host s) as [[m|m]|], (is_within_allowed_write_paths s allowed);
    try by apply protect_plain.
  - unfold append_existing_empty_file_bind_data_args.
    destruct (append_empty_file_bind_data_args host b s) as [b1| | |] eqn:E; cbn; try done. intros [= <-].
    apply null_data_appends in E as (fd & E & Ec). exists [RoBindData fd s]. split; [done|]. split; [|done].
    apply Hhide. intros q seen. by apply mounted_one.
  - intros [= <-]. eexists. split; [apply empty_directory_appends|]. split; [|done]. apply Hhide.
    intros q seen. apply mounted_around; by repeat constructor.
Qed.
End steps.

(** ** All the mounts *)

Lemma mounted_concat fss path seen : mounted (concat fss) path seen <-> exists fs, fs ∈ fss /\ mounted fs path seen.
Proof.
  unfold mounted. induction fss as [|fs fss IH]; cbn [concat].
  - split; [intros (f & Hf & _)|intros (fs & Hf & _)]; by apply elem_of_nil in Hf.
  - split.
    + intros (f & [Hf|Hf]%elem_of_app & E); [exists fs; set_solver|].
      destruct (proj1 IH) as (fs' & ? & ?); [by exists f|]. exists fs'. set_solver.
    + intros (fs' & [->|Hfs]%elem_of_cons & f & Hf & E); [exists f; set_solver|].
      destruct (proj2 IH) as (f' & ? & ?); [by exists fs'; split; [|exists f]|]. exists f'. set_solver.
Qed.

Section mounts_of.
Context (env : Env) (host : Host).
Context (unread missing allowed : list (list Component)).

Lemma elem_of_push_unique (l : list (list Component)) x y : y ∈ push_unique l x <-> y ∈ l \/ y = x.
Proof. unfold push_unique. case_bool_decide; set_solver. Qed.

(** The read-only paths of a root. *)
Definition subs (r : WritableRoot) : list (list Component) :=
  append_metadata_path_masks_for_writable_root env host
    (List.filter (fun path => negb (bool_decide (path ∈ missing)))
      (List.filter (fun path => negb (bool_decide (path ∈ unread))) (read_only_subpaths r)))
    (root r) (root r) (protected_metadata_names r).

Definition metadata_path (r : WritableRoot) (name : str) : list Component := path_append (root r) (components name).

Lemma elem_of_masks l root mount names s :
  s ∈ append_metadata_path_masks_for_writable_root env host l root mount names <->
  s ∈ l \/ exists name, name ∈ names /\ s = path_append root (components name)
             /\ should_leave_missing_git_for_parent_repo_discovery env host mount name = false.
Proof.
  unfold append_metadata_path_masks_for_writable_root. revert l.
  induction names as [|n names IH]; intros l; cbn [foldl].
  { split; [by left|]. intros [?|(n & Hn & _)]; [done|by apply elem_of_nil in Hn]. }
  rewrite IH. setoid_rewrite elem_of_cons.
  destruct (should_leave_missing_git_for_parent_repo_discovery env host mount n) eqn:E; [|rewrite elem_of_push_unique];
    naive_solver congruence.
Qed.

Lemma elem_of_subs r s :
  s ∈ subs r <->
  (s ∈ read_only_subpaths r /\ s ∉ unread /\ s ∉ missing)
  \/ exists name, name ∈ protected_metadata_names r /\ s = metadata_path r name
       /\ should_leave_missing_git_for_parent_repo_discovery env host (root r) name = false.
Proof.
  unfold subs. rewrite elem_of_masks. apply or_iff_compat_r.
  rewrite !list_elem_of_In, !filter_In, !negb_true_iff, !bool_decide_eq_false, <- !list_elem_of_In. naive_solver.
Qed.

Lemma create_targets_append b r l :
  let b' := append_protected_create_targets_for_writable_root env b (protected_metadata_names r) (root r) None l in
  flags b' = flags b /\ protected_create_targets b `prefix_of` protected_create_targets b'
  /\ forall name, name ∈ protected_metadata_names r -> metadata_path r name ∉ l ->
       path_exists env (metadata_path r name) = false -> metadata_path r name ∈ protected_create_targets b'.
Proof.
  unfold append_protected_create_targets_for_writable_root. generalize (protected_metadata_names r). intros names.
  revert b. induction names as [|n names IH]; intros b; cbn [foldl].
  { split_and!; [done|done|]. intros name Hn. by apply elem_of_nil in Hn. }
  change (path_append (root r) (components n)) with (metadata_path r n).
  set (b1 := if bool_decide (metadata_path r n ∈ l) || path_exists env (metadata_path r n) then b
             else push_create_target b (metadata_path r n)).
  assert (flags b1 = flags b /\ protected_create_targets b `prefix_of` protected_create_targets b1
    /\ (metadata_path r n ∉ l -> path_exists env (metadata_path r n) = false ->
        metadata_path r n ∈ protected_create_targets b1)) as (Hf & Hp & Hn).
  { subst b1. case_bool_decide as E; cbn [orb]; [done|]. destruct (path_exists env (metadata_path r n)).
    - done.
    - split_and!; [done|by eexists|]. intros _ _. cbn. set_solver. }
  destruct (IH b1) as (Hf' & Hp' & Hn'). split_and!; [congruence|by etransitivity|].
  intros name [->|Hname]%elem_of_cons Hl He; [|by apply Hn']. destruct Hp' as [k ->]. set_solver.
Qed.

(** What one writable root contributes. *)
Definition ro_part (l : list (list Component)) (fs : list Flag) : Prop :=
  (forall path seen, mounted fs path seen -> exists s, s ∈ l /\ seen <> HostWritable /\ at_or_missing env path s
     /\ (seen = HostReadOnly -> path = s /\ is_within_allowed_write_paths s allowed = true))
  /\ (forall s w, s ∈ l -> w ∈ allowed -> w <> [] -> path_exists env w = true -> w `prefix_of` s ->
      exists path seen, mounted fs path seen /\ path `prefix_of` s).
Definition hidden_part (l : list (list Component)) (fs : list Flag) : Prop :=
  (forall path seen, mounted fs path seen -> seen = Hidden /\ exists u, u ∈ l /\ at_or_missing env path u)
  /\ (forall u, u ∈ l -> path_exists env u = true \/
        (exists w, w ∈ allowed /\ w <> [] /\ path_exists env w = true /\ w `prefix_of` u) ->
      exists path, mounted fs path Hidden /\ path `prefix_of` u).
Definition nested (r : WritableRoot) : list (list Component) :=
  List.filter (fun path => path_starts_with path (root r)) unread.
Definition root_block (r : WritableRoot) (fs : list Flag) (b : FilesystemArgs) : Prop :=
  exists dirs ro hidden, fs = dirs ++ Bind (root r) :: ro ++ hidden /\ no_mounts dirs
    /\ ro_part (subs r) ro /\ hidden_part (nested r) hidden
    /\ forall name, name ∈ protected_metadata_names r -> metadata_path r name ∉ subs r ->
         path_exists env (metadata_path r name) = false -> metadata_path r name ∈ protected_create_targets b.

Context (Hhost : host_ok env host).

Lemma for_each_protect l b b' :
  Forall abs_ok l ->
  for_each (fun b path => append_read_only_subpath_args env host b path allowed) b (sort_by_key path_depth l) = Ok b' ->
  exists fs, flags b' = flags b ++ fs /\ ro_part l fs
    /\ protected_create_targets b `prefix_of` protected_create_targets b'.
Proof.
  intros Hl E. apply (for_each_appends (fun s fs _ => protects env s allowed fs)) in E as (fss & -> & Hall & Hp).
  - exists (concat fss). split; [done|]. split; [|done]. split.
    + intros path seen (fs & (i & Hi)%list_elem_of_lookup & Hm)%mounted_concat.
      destruct (Forall2_lookup_r _ _ _ _ _ Hall Hi) as (s & Hs & b0 & [H _] & _). exists s. split; [|by apply H].
      rewrite <- (sort_by_key_Permutation path_depth l). by eapply list_elem_of_lookup_2.
    + intros s w Hs Hw Hwn Hwe Hws. rewrite <- (sort_by_key_Permutation path_depth l) in Hs.
      apply list_elem_of_lookup in Hs as (i & Hi).
      destruct (Forall2_lookup_l _ _ _ _ _ Hall Hi) as (fs & Hfs & b0 & [_ H] & _).
      destruct (H w Hw Hwn Hwe Hws) as (path & seen & Hm & Hps). exists path, seen. split; [|done].
      apply mounted_concat. exists fs. split; [by eapply list_elem_of_lookup_2|done].
  - intros b0 s b1 Hs E1. rewrite (sort_by_key_Permutation path_depth l) in Hs.
    apply (protect_appends env host Hhost) in E1 as (fs & ? & ? & ->); [by exists fs|]. by eapply Forall_forall in Hl.
Qed.

Lemma for_each_deny l b b' :
  Forall abs_ok l ->
  for_each (fun b path => append_unreadable_root_args env host b path allowed) b (sort_by_key path_depth l) = Ok b' ->
  exists fs, flags b' = flags b ++ fs /\ hidden_part l fs
    /\ protected_create_targets b `prefix_of` protected_create_targets b'.
Proof.
  intros Hl E. apply (for_each_appends (fun u fs _ => denies env u allowed fs)) in E as (fss & -> & Hall & Hp).
  - exists (concat fss). split; [done|]. split; [|done]. split.
    + intros path seen (fs & (i & Hi)%list_elem_of_lookup & Hm)%mounted_concat.
      destruct (Forall2_lookup_r _ _ _ _ _ Hall Hi) as (u & Hu & b0 & [H _] & _).
      destruct (H path seen Hm) as [? Hat]. split; [done|]. exists u. split; [|done].
      rewrite <- (sort_by_key_Permutation path_depth l). by eapply list_elem_of_lookup_2.
    + intros u Hu Hcase. rewrite <- (sort_by_key_Permutation path_depth l) in Hu.
      apply list_elem_of_lookup in Hu as (i & Hi).
      destruct (Forall2_lookup_l _ _ _ _ _ Hall Hi) as (fs & Hfs & b0 & [_ H] & _).
      destruct (H Hcase) as (path & Hm & Hps). exists path. split; [|done].
      apply mounted_concat. exists fs. split; [by eapply list_elem_of_lookup_2|done].
  - intros b0 u b1 Hu E1. rewrite (sort_by_key_Permutation path_depth l) in Hu.
    apply (deny_appends env host Hhost) in E1 as (fs & ? & ? & ->); [by exists fs|]. by eapply Forall_forall in Hl.
Qed.

Lemma root_appends b r b' :
  Forall abs_ok (subs r) -> Forall abs_ok unread ->
  mount_writable_root env host unread missing allowed b r = Ok b' ->
  exists fs, flags b' = flags b ++ fs /\ root_block r fs b'
    /\ protected_create_targets b `prefix_of` protected_create_targets b'.
Proof.
  intros Hsubs Hunread. unfold mount_writable_root. rewrite (canonical_target_none env host Hhost).
  cbn [default remapped]. fold (subs r) (nested r).
  set (b1 := match max_by_key _ _ with Some _ => _ | None => _ end).
  assert (exists dirs, flags b1 = flags b ++ dirs /\ no_mounts dirs
    /\ protected_create_targets b1 = protected_create_targets b) as (dirs & Hd & Hdn & Hdc).
  { subst b1. destruct (max_by_key _ _); [apply parents_append|]. exists []. rewrite app_nil_r. split_and!; [done|constructor|done]. }
  destruct (create_targets_append (push_flags b1 [Bind (root r)]) r (subs r)) as (Hf & Hp & Hn).
  set (b2 := append_protected_create_targets_for_writable_root _ _ _ _ _ _) in *.
  destruct (for_each _ b2 _) as [b3| | |] eqn:E3; cbn [rbind]; try done. intros E4.
  apply for_each_protect in E3 as (ro & E3 & Hro & Hp3); [|done].
  apply for_each_deny in E4 as (hidden & E4 & Hhid & Hp4).
  2:{ apply Forall_forall. intros u Hu%list_elem_of_In. apply filter_In in Hu as [Hu _].
      eapply Forall_forall in Hunread; [done|by apply list_elem_of_In]. }
  exists (dirs ++ Bind (root r) :: ro ++ hidden). split.
  { rewrite E4, E3, Hf. cbn [flags push_flags]. by rewrite Hd, <- !app_assoc. }
  split.
  - exists dirs, ro, hidden. split_and!; [done|done|exact Hro|exact Hhid|].
    intros name Hname Hin He. destruct Hp3 as [k3 E5], Hp4 as [k4 E6]. rewrite E6, E5, !elem_of_app. left. left. by apply Hn.
  - etransitivity; [|exact Hp4]. etransitivity; [|exact Hp3]. etransitivity; [|exact Hp]. cbn. by rewrite Hdc.
Qed.
End mounts_of.

(** *** Taking the view apart *)

Definition uncovered (fs : list Flag) (target : Path) : Prop :=
  forall path seen, mounted fs path seen -> ~ path `prefix_of` target.

Lemma view_mounted fs target :
  view fs target <> Hidden -> exists path, mounted fs path (view fs target) /\ path `prefix_of` target.
Proof.
  intros Hne. destruct (view_last fs target _ eq_refl Hne) as (before & f & after & E & (path & Em & Hp) & _).
  exists path. split; [|done]. exists f. split; [rewrite E; set_solver|done].
Qed.

Lemma view_hidden fs target : (forall path seen, mounted fs path seen -> seen = Hidden) -> view fs target = Hidden.
Proof.
  intros Hall. destruct (decide (view fs target = Hidden)) as [?|Hne]; [done|].
  destruct (view_mounted fs target Hne) as (path & Hm & _). by apply Hall in Hm.
Qed.

Lemma uncovered_spec fs target : uncovered fs target <-> forall g, g ∈ fs -> ~ covered g target.
Proof.
  unfold uncovered, covered, shows, mounted. split.
  - intros H g Hg (s & path & E & Hp). by eapply H; [exists g|].
  - intros H path seen (f & Hf & E) Hp. eapply H; [exact Hf|]. by exists seen, path.
Qed.

Lemma view_peel fs fs' target :
  (uncovered fs' target /\ view (fs ++ fs') target = view fs target)
  \/ (~ uncovered fs' target /\ view (fs ++ fs') target = view fs' target).
Proof.
  induction fs' as [|f fs' IH] using rev_ind.
  { left. rewrite app_nil_r. split; [|done]. intros path seen (g & Hg & _). by apply elem_of_nil in Hg. }
  rewrite app_assoc. setoid_rewrite uncovered_spec in IH. rewrite uncovered_spec.
  destruct (mount_over_spec target Hidden f) as [(s & Hs & _)|[Hn _]].
  - right. rewrite !(view_snoc _ f target s Hs). split; [|done]. intros H. destruct (H f); [set_solver|by exists s].
  - rewrite (view_app _ [f]), (view_app fs' [f]) by (by intros g ->%list_elem_of_singleton).
    destruct IH as [[Hu ->]|[Hu ->]]; [left|right]; (split; [|done]).
    + intros g [Hg| ->%list_elem_of_singleton]%elem_of_app; auto.
    + intros H. apply Hu. intros g Hg. apply H. set_solver.
Qed.

Lemma view_concat fss target :
  view (concat fss) target <> Hidden ->
  exists i fs, fss !! i = Some fs /\ view (concat fss) target = view fs target
    /\ forall j fs', i < j -> fss !! j = Some fs' -> uncovered fs' target.
Proof.
  induction fss as [|fs fss IH] using rev_ind; [done|]. rewrite concat_app. cbn [concat]. rewrite app_nil_r.
  destruct (view_peel (concat fss) fs target) as [[Hu ->]|[_ ->]]; intros Hne.
  - destruct (IH Hne) as (i & blk & Hi & E & Hlater). exists i, blk. split_and!; [by apply lookup_app_l_Some|done|].
    intros j fs' Hj Hfs. destruct (decide (j < length fss)) as [Hl|Hl].
    + rewrite lookup_app_l in Hfs by done. eauto.
    + rewrite lookup_app_r in Hfs by lia. apply list_lookup_singleton_Some in Hfs as [_ <-]. done.
  - exists (length fss), fs. split_and!; [by apply list_lookup_middle|done|].
    intros j fs' Hj Hfs. apply lookup_lt_Some in Hfs. rewrite length_app in Hfs. cbn in Hfs. lia.
Qed.

Section whole.
Context (env : Env) (host : Host) (Hhost : host_ok env host).
Context (p : FileSystemSandboxPolicy) (cwd : Path) (max_depth : option nat).
Abbreviation missing := (missing_auto_metadata_read_only_project_root_subpaths env p cwd).

Lemma root_block_mono us allowed r fs b b' :
  protected_create_targets b `prefix_of` protected_create_targets b' ->
  root_block env host us missing allowed r fs b -> root_block env host us missing allowed r fs b'.
Proof.
  intros [k E] (dirs & ro & hidden & -> & Hd & Hro & Hh & Hc). exists dirs, ro, hidden.
  split_and!; [done|done|done|done|]. intros name H1 H2 H3. rewrite E. apply elem_of_app. left. by apply Hc.
Qed.

Lemma allowed_roots rs : allowed_write_paths_of env host rs = root <$> rs.
Proof.
  unfold allowed_write_paths_of. induction rs as [|r rs IH]; [done|]. csimpl. rewrite (canonical_target_none env host Hhost).
  cbn. by f_equal.
Qed.

(** The unreadable paths above the writable roots, and those that are unrelated. *)
Definition is_below (rs : list WritableRoot) (u : list Component) : bool :=
  existsb (path_starts_with u) (root <$> rs).
Definition is_above (rs : list WritableRoot) (u : list Component) : bool :=
  existsb (fun r => path_starts_with r u) (root <$> rs).

Record structure (rs : list WritableRoot) (us : list (list Component)) (b : FilesystemArgs)
    (above : list Flag) (blocks : list (list Flag)) (rest : list Flag) : Prop := mkStructure {
  structure_flags : flags b = base_args env host p cwd rs ++ above ++ concat blocks ++ rest;
  structure_above : hidden_part env (root <$> rs) (List.filter (fun u => negb (is_below rs u) && is_above rs u) us) above;
  structure_blocks : Forall2 (fun r fs => root_block env host us missing (root <$> rs) r fs b)
                       (sort_by_key (fun r => path_depth (root r)) rs) blocks;
  structure_rest : hidden_part env (root <$> rs) (List.filter (fun u => negb (is_below rs u || is_above rs u)) us) rest }.

Definition paths_ok (rs : list WritableRoot) (us : list (list Component)) : Prop :=
  Forall abs_ok us /\ Forall (fun r => abs_ok (root r) /\ path_exists env (root r) = true
    /\ (forall name, name ∈ protected_metadata_names r -> name ∈ PROTECTED_METADATA_PATH_NAMES)
    /\ Forall abs_ok (subs env host us missing r)) rs.

Lemma filter_ok (f : list Component -> bool) us : Forall abs_ok us -> Forall abs_ok (List.filter f us).
Proof.
  intros H. apply Forall_forall. intros u Hu%list_elem_of_In. apply filter_In in Hu as [Hu _].
  eapply Forall_forall in H; [done|by apply list_elem_of_In].
Qed.

Lemma filesystem_structure b rs us :
  create_filesystem_args env host p cwd max_depth = Ok b ->
  bwrap_writable_roots env p cwd = Ok rs -> bwrap_unreadable_roots env host p cwd max_depth = Ok us ->
  paths_ok rs us ->
  exists above blocks rest, structure rs us b above blocks rest.
Proof.
  intros E Ers Eus [Hus Hrs]. unfold create_filesystem_args in E. rewrite Ers in E. cbn [rbind] in E.
  rewrite Eus in E. cbn [rbind] in E. rewrite allowed_roots in E.
  destruct (for_each _ _ (sort_by_key path_depth _)) as [b1| | |] eqn:E1; cbn [rbind] in E; try done.
  destruct (for_each _ b1 _) as [b2| | |] eqn:E2; cbn [rbind] in E; try done.
  apply (for_each_deny env host _ Hhost) in E1 as (above & E1 & Habove & Hp1); [|by apply filter_ok].
  apply (for_each_appends (root_block env host us missing (root <$> rs))) in E2 as (blocks & E2 & Hblocks & Hp2).
  2:{ intros b0 r b0' Hr Er. rewrite (sort_by_key_Permutation _ rs) in Hr. eapply Forall_forall in Hrs as (_ & _ & _ & Hs); [|exact Hr].
      by apply (root_appends env host us missing (root <$> rs) Hhost). }
  apply (for_each_deny env host _ Hhost) in E as (rest & E & Hrest & Hp3); [|by apply filter_ok].
  exists above, blocks, rest. constructor; [|done| |done].
  - rewrite E, E2, E1. cbn [flags]. by rewrite <- !app_assoc.
  - eapply Forall2_impl; [exact Hblocks|]. intros r fs (b0 & Hblock & Hpre). eapply root_block_mono; [|exact Hblock].
    by etransitivity.
Qed.

(** *** Where what is seen comes from *)

Context (rs : list WritableRoot) (us : list (list Component)) (b : FilesystemArgs)
  (above : list Flag) (blocks : list (list Flag)) (rest : list Flag).
Context (Hok : paths_ok rs us) (Hst : structure rs us b above blocks rest).

Abbreviation allowed := (root <$> rs).

(** The block of a root, of which nothing after [ro] (or [hidden]) covers the path. *)
Definition last_bind (r : WritableRoot) (target : Path) : Prop :=
  r ∈ rs /\ root r `prefix_of` target
  /\ (forall s, s ∈ subs env host us missing r -> root r `prefix_of` s -> ~ s `prefix_of` target)
  /\ (forall u, u ∈ us -> root r `prefix_of` u -> ~ u `prefix_of` target)
  /\ forall name, name ∈ protected_metadata_names r -> metadata_path r name ∉ subs env host us missing r ->
       path_exists env (metadata_path r name) = false -> metadata_path r name ∈ protected_create_targets b.
Definition last_ro_bind (r : WritableRoot) (s target : Path) : Prop :=
  r ∈ rs /\ s ∈ subs env host us missing r /\ s `prefix_of` target
  /\ is_within_allowed_write_paths s allowed = true
  /\ (forall u, u ∈ us -> root r `prefix_of` u -> ~ u `prefix_of` target).

Lemma root_facts r : r ∈ rs -> abs_ok (root r) /\ path_exists env (root r) = true /\ root r <> [] /\ root r ∈ allowed
  /\ forall name, name ∈ protected_metadata_names r -> name ∈ PROTECTED_METADATA_PATH_NAMES.
Proof.
  intros Hr. destruct Hok as [_ H]. eapply Forall_forall in H as (Ha & He & Hn & _); [|exact Hr]. split_and!; [done|done| |set_solver|done].
  destruct Ha as [[names ->] _]. done.
Qed.

Lemma block_view r fs target :
  r ∈ rs -> root_block env host us missing allowed r fs b -> view fs target <> Hidden ->
  (view fs target = HostWritable /\ last_bind r target)
  \/ (view fs target = HostReadOnly /\ exists s, last_ro_bind r s target).
Proof.
  intros Hr (dirs & ro & hidden & -> & Hd & Hro & Hh & Hc) Hne. destruct (root_facts r Hr) as (_ & He & Hn & Hin & _).
  assert (view hidden target = Hidden) as Hvh by (apply view_hidden; intros path seen Hm; by apply Hh in Hm as [-> _]).
  assert (uncovered hidden target -> forall u, u ∈ us -> root r `prefix_of` u -> ~ u `prefix_of` target) as Hdeny.
  { intros Hu u Hin' Hru Hut. destruct Hh as [_ Hh].
    destruct (Hh u) as (path & Hm & Hpu).
    - apply list_elem_of_In, filter_In. split; [by apply list_elem_of_In|by apply path_starts_with_spec].
    - right. by exists (root r).
    - eapply Hu; [exact Hm|]. by etransitivity. }
  change (dirs ++ Bind (root r) :: ro ++ hidden) with (dirs ++ ([Bind (root r)] ++ (ro ++ hidden))) in *.
  rewrite !app_assoc in *.
  destruct (view_peel ((dirs ++ [Bind (root r)]) ++ ro) hidden target) as [[Hu E]|[_ E]]; rewrite E in *; [|done].
  destruct (view_peel (dirs ++ [Bind (root r)]) ro target) as [[Hu' E']|[_ E']]; rewrite E' in *.
  - left. destruct (view_peel dirs [Bind (root r)] target) as [[_ E'']|[Hb E'']]; rewrite E'' in *.
    { destruct (view_mounted dirs target Hne) as (path & Hm & _). by apply mounted_none in Hm. }
    destruct (view_mounted _ target Hne) as (path & Hm & Hp). rewrite (mounted_one _ _ _ (root r) HostWritable) in Hm by done.
    destruct Hm as [-> ->]. split; [done|]. split_and!; [done|done| |exact (Hdeny Hu)|exact Hc].
    intros s Hs Hrs' Hst'. destruct Hro as [_ Hro]. destruct (Hro s (root r)) as (path & seen & Hm & Hps); [done..|].
    eapply Hu'; [exact Hm|]. by etransitivity.
  - right. destruct (view_mounted ro target Hne) as (path & Hm & Hp).
    destruct (proj1 Hro path (view ro target) Hm) as (s & Hs & Hw & _ & Hseen).
    destruct (view ro target); [done| |done]. destruct Hseen as [-> Hwithin]; [done|].
    split; [done|]. exists s. split_and!; auto.
Qed.

(** The root bound last is the deepest. *)
Definition deepest (r : WritableRoot) (target : Path) : Prop :=
  forall r', r' ∈ rs -> root r' `prefix_of` target -> root r' `prefix_of` root r.

Lemma last_block_deepest i r target :
  sort_by_key (fun r => path_depth (root r)) rs !! i = Some r -> root r `prefix_of` target ->
  (forall j fs', i < j -> blocks !! j = Some fs' -> uncovered fs' target) -> deepest r target.
Proof.
  intros Hi Hrt Hlater r' Hr' Hp. rewrite <- (sort_by_key_Permutation (fun r => path_depth (root r)) rs) in Hr'.
  apply list_elem_of_lookup in Hr' as (j & Hj). eapply prefix_shorter; [exact Hp|exact Hrt|].
  destruct (decide (j < i)) as [Hlt|Hge].
  { apply (sorted_lookup _ _ j i r' r (sort_by_key_sorted (fun r => path_depth (root r)) rs)); done. }
  destruct (decide (j = i)) as [->|Hne]; [rewrite Hi in Hj; by injection Hj as ->|]. exfalso.
  destruct (Forall2_lookup_l _ _ _ _ _ (structure_blocks _ _ _ _ _ _ Hst) Hj) as (fs' & Hfs & dirs & ro & hidden & -> & _).
  eapply (Hlater j _ ltac:(lia) Hfs); [|exact Hp]. exists (Bind (root r')). split; [set_solver|done].
Qed.

Lemma visible_cases target :
  view (flags b) target <> Hidden ->
  (view (flags b) target = view (base_args env host p cwd rs) target
     /\ uncovered above target /\ uncovered (concat blocks) target /\ uncovered rest target)
  \/ (uncovered rest target
      /\ ((view (flags b) target = HostWritable /\ exists r, last_bind r target /\ deepest r target)
          \/ (view (flags b) target = HostReadOnly /\ exists r s, last_ro_bind r s target))).
Proof.
  destruct Hst as [Hf Ha Hb Hr]. rewrite Hf, !app_assoc. intros Hne.
  assert (forall l fs, hidden_part env allowed l fs -> view fs target = Hidden) as Hhid
    by (intros l fs Hl; apply view_hidden; intros path seen Hm; by apply Hl in Hm as [-> _]).
  destruct (view_peel ((base_args env host p cwd rs ++ above) ++ concat blocks) rest target) as [[Hu E]|[_ E]];
    rewrite E in *; [|by rewrite (Hhid _ _ Hr) in Hne].
  destruct (view_peel (base_args env host p cwd rs ++ above) (concat blocks) target) as [[Hu' E']|[_ E']]; rewrite E' in *.
  - left. destruct (view_peel (base_args env host p cwd rs) above target) as [[Hu'' E'']|[_ E'']];
      rewrite E'' in *; [done|by rewrite (Hhid _ _ Ha) in Hne].
  - right. split; [done|]. destruct (view_concat blocks target Hne) as (i & fs & Hi & Ev & Hlater). rewrite Ev in *.
    destruct (Forall2_lookup_r _ _ _ _ _ Hb Hi) as (r & Hri & Hblock).
    assert (r ∈ rs) as Hin
      by (rewrite <- (sort_by_key_Permutation (fun r => path_depth (root r)) rs); by eapply list_elem_of_lookup_2).
    destruct (block_view r fs target Hin Hblock Hne) as [[? Hlast]|[? (s & ?)]]; [left|right; eauto].
    split; [done|]. exists r. split; [done|]. eapply last_block_deepest; [exact Hri| |exact Hlater]. apply Hlast.
Qed.

(** *** What the base shows *)

Lemma base_mounts path seen :
  mounted (base_args env host p cwd rs) path seen ->
  seen <> HostWritable
  /\ (seen = HostReadOnly -> path = [RootDir] /\ has_full_disk_read_access p = true
        \/ path ∈ bwrap_readable_roots env p cwd).
Proof.
  unfold base_args. destruct (has_full_disk_read_access p) eqn:Ef.
  { intros (f & [->|[->|Hf]%elem_of_cons]%elem_of_cons & E); [| |by apply elem_of_nil in Hf];
      injection E as <- <-; (split; [done|]); intros ?; (done || by left). }
  destruct (existsb _ _) eqn:Er.
  { apply existsb_exists in Er as (r & Hr%list_elem_of_In & Er%bool_decide_eq_true). subst r.
    intros (f & [->|[->|Hf]%elem_of_cons]%elem_of_cons & E); [| |by apply elem_of_nil in Hf];
      injection E as <- <-; (split; [done|]); intros ?; (done || by right). }
  intros [(f & [->|[->|Hf]%elem_of_cons]%elem_of_cons & E)|(fs & Hfs & f & Hf & E)%mounted_concat]%mounted_app;
    [by injection E as <- <-|by injection E as <- <-|by apply elem_of_nil in Hf|].
  apply list_elem_of_fmap in Hfs as (r & -> & Hr). unfold mount_readable_root in Hf.
  rewrite (canonical_target_none env host Hhost) in Hf. destruct (path_exists env r); [|by apply elem_of_nil in Hf].
  cbn [negb default] in Hf. apply list_elem_of_singleton in Hf as ->. cbn in E.
  destruct (existsb _ rs); injection E as <- <-; (split; [done|]); intros ?; by right.
Qed.

(** *** What can be written *)

(** Paths under a writable root that the mounts leave open though the root does
    not: a metadata directory that is watched instead, because masking it would
    hide a repository above; one of the working directory that is missing and is not
    at the top of the root; and everything, if a [.git] file of the root points above it. *)
Definition left_open (r : WritableRoot) (target : Path) : Prop :=
  (exists path, path ∈ protected_create_targets b /\ path `prefix_of` target)
  \/ (exists s, s ∈ missing /\ s ∈ read_only_subpaths r /\ s `prefix_of` target
        /\ forall name, name ∈ protected_metadata_names r -> s <> metadata_path r name)
  \/ (exists s, s ∈ read_only_subpaths r /\ s `prefix_of` root r).

Lemma metadata_path_below r name : r ∈ rs -> name ∈ protected_metadata_names r -> metadata_path r name = root r ++ [Normal name].
Proof.
  intros Hr Hn. destruct (root_facts r Hr) as (_ & _ & _ & _ & Hnames). unfold metadata_path, path_append.
  rewrite components_plain by (by apply metadata_plain, Hnames). done.
Qed.

Lemma name_masked r name target :
  last_bind r target -> name ∈ protected_metadata_names r -> metadata_path r name `prefix_of` target -> left_open r target.
Proof.
  intros (Hr & Hrt & Hsubs & _ & Hc) Hn Hp.
  assert (root r `prefix_of` metadata_path r name) as Hbelow by (rewrite metadata_path_below by done; by eexists).
  destruct (decide (metadata_path r name ∈ subs env host us missing r)) as [Hin|Hin].
  { by destruct (Hsubs _ Hin Hbelow). }
  unfold left_open. left. exists (metadata_path r name). split; [|done]. apply Hc; [done|done|].
  destruct (should_leave_missing_git_for_parent_repo_discovery env host (root r) name) eqn:E.
  - unfold should_leave_missing_git_for_parent_repo_discovery in E.
    fold (metadata_path r name) in E. destruct (symlink_metadata host (metadata_path r name)) eqn:Es;
      rewrite ?andb_false_r in E; try done. by eapply host_missing.
  - destruct Hin. apply (proj2 (elem_of_subs env host us missing r _)). right. by exists name.
Qed.

Lemma subpath_masked r s target :
  last_bind r target -> s ∈ read_only_subpaths r -> s `prefix_of` target -> left_open r target.
Proof.
  intros Hlast Hs Hst'. pose proof Hlast as (Hr & Hrt & Hsubs & Hdeny & _).
  destruct (prefix_weak_total _ _ _ Hst' Hrt) as [Hsr|Hrs']; [unfold left_open; right; right; by exists s|].
  destruct (decide (s ∈ us)) as [Hu|Hu]; [by destruct (Hdeny s)|].
  destruct (decide (s ∈ missing)) as [Hm|Hm].
  - destruct (decide (Exists (fun name => s = metadata_path r name) (protected_metadata_names r))) as [He|Hne].
    + apply Exists_exists in He as (name & Hn & ->). by eapply name_masked.
    + unfold left_open. right. left. exists s. split_and!; [done..|]. intros name Hn E. apply Hne, Exists_exists. by exists name.
  - destruct (Hsubs s); [|done|done]. apply (proj2 (elem_of_subs env host us missing r _)). by left.
Qed.

Lemma written_within target :
  view (flags b) target = HostWritable ->
  exists r, r ∈ rs /\ root r `prefix_of` target /\ deepest r target
    /\ (is_path_writable r target = true \/ left_open r target).
Proof.
  intros Hv. destruct (visible_cases target) as [(E & _)|(_ & [(_ & r & Hlast & Hdeep)|(E & _)])]; [congruence| | |congruence].
  { rewrite Hv in E. destruct (view_mounted (base_args env host p cwd rs) target) as (path & Hm & _); [by rewrite <- E|].
    rewrite <- E in Hm. by apply base_mounts in Hm as [? _]. }
  pose proof Hlast as (Hr & Hrt & _). exists r. split; [done|]. split; [done|]. split; [done|].
  destruct (is_path_writable r target) eqn:Ew; [by left|]. right. unfold is_path_writable in Ew.
  rewrite (proj2 (path_starts_with_spec _ _) Hrt) in Ew. cbn [negb] in Ew.
  destruct (existsb _ _) eqn:Ex.
  - apply existsb_exists in Ex as (s & Hs%list_elem_of_In & Hp%path_starts_with_spec). by eapply subpath_masked.
  - apply negb_false_iff in Ew. unfold path_contains_protected_metadata_name in Ew.
    destruct (path_strip_prefix target (root r)) as [[|c k]|] eqn:Es; [done| |done].
    apply path_strip_prefix_spec in Es. apply bool_decide_eq_true in Ew.
    destruct (root_facts r Hr) as (_ & _ & _ & _ & Hnames).
    assert (c = Normal (component_text c)) as Ec by (apply component_text_plain; [by apply metadata_plain, Hnames|done]).
    eapply (name_masked r (component_text c)); [done|done|]. rewrite metadata_path_below by done.
    rewrite <- Ec, Es. exists k. by rewrite <- app_assoc.
Qed.

(** *** What can be read *)

(** A [.git] file of a root points to a directory outside of it, which is mounted
    read-only again after the masks of the other roots. *)
Definition in_outer_subpath (target : Path) : Prop :=
  exists r s, r ∈ rs /\ s ∈ read_only_subpaths r /\ ~ root r `prefix_of` s /\ s `prefix_of` target.

Lemma subs_outside r s : r ∈ rs -> s ∈ subs env host us missing r -> root r `prefix_of` s \/ s ∈ read_only_subpaths r.
Proof.
  intros Hr [(? & _)|(name & Hn & -> & _)]%elem_of_subs; [by right|left].
  rewrite metadata_path_below by done. by eexists.
Qed.

Lemma is_below_spec u : is_below rs u = true <-> exists r, r ∈ rs /\ root r `prefix_of` u.
Proof.
  unfold is_below. rewrite existsb_exists. setoid_rewrite <- list_elem_of_In. setoid_rewrite list_elem_of_fmap.
  setoid_rewrite path_starts_with_spec. naive_solver.
Qed.
Lemma is_above_spec u : is_above rs u = true <-> exists r, r ∈ rs /\ u `prefix_of` root r.
Proof.
  unfold is_above. rewrite existsb_exists. setoid_rewrite <- list_elem_of_In. setoid_rewrite list_elem_of_fmap.
  setoid_rewrite path_starts_with_spec. naive_solver.
Qed.

Lemma block_of r : r ∈ rs -> exists i fs, blocks !! i = Some fs /\ root_block env host us missing allowed r fs b
  /\ sort_by_key (fun r => path_depth (root r)) rs !! i = Some r.
Proof.
  intros Hr. rewrite <- (sort_by_key_Permutation (fun r => path_depth (root r)) rs) in Hr.
  apply list_elem_of_lookup in Hr as (i & Hi).
  destruct (Forall2_lookup_l _ _ _ _ _ (structure_blocks _ _ _ _ _ _ Hst) Hi) as (fs & Hfs & HR). by exists i, fs.
Qed.

(** Some mask of a denied path is there. *)
Lemma masked_somewhere u target :
  u ∈ us -> path_exists env u = true -> u `prefix_of` target ->
  ~ (uncovered above target /\ uncovered (concat blocks) target /\ uncovered rest target).
Proof.
  intros Hu He Hut (Ha & Hb & Hr).
  assert (forall l fs, hidden_part env allowed l fs -> u ∈ l -> ~ uncovered fs target) as Hmask.
  { intros l fs [_ H] Hin Hun. destruct (H u Hin) as (path & Hm & Hp); [by left|]. eapply Hun; [exact Hm|]. by etransitivity. }
  destruct (is_below rs u) eqn:Eb.
  - apply is_below_spec in Eb as (r & Hrs & Hru). destruct (block_of r Hrs) as (i & fs & Hi & (dirs & ro & hidden & -> & _ & _ & Hh & _) & _).
    eapply (Hmask (nested us r) hidden Hh).
    + apply list_elem_of_In, filter_In. split; [by apply list_elem_of_In|by apply path_starts_with_spec].
    + intros path seen (f & Hf & E). eapply Hb. apply mounted_concat. eexists. split; [by eapply list_elem_of_lookup_2|].
      exists f. split; [set_solver|done].
  - destruct (is_above rs u) eqn:Eab.
    + eapply (Hmask _ _ (structure_above _ _ _ _ _ _ Hst)); [|exact Ha]. apply list_elem_of_In, filter_In.
      rewrite Eb, Eab. split; [by apply list_elem_of_In|done].
    + eapply (Hmask _ _ (structure_rest _ _ _ _ _ _ Hst)); [|exact Hr]. apply list_elem_of_In, filter_In.
      rewrite Eb, Eab. split; [by apply list_elem_of_In|done].
Qed.

Lemma denied_hidden u target :
  u ∈ us -> path_exists env u = true -> u `prefix_of` target -> view (flags b) target <> Hidden ->
  (exists r, r ∈ rs /\ u `prefix_of` root r /\ root r `prefix_of` target) \/ in_outer_subpath target.
Proof.
  intros Hu He Hut Hv.
  destruct (visible_cases target Hv) as [(_ & Hun)|(_ & [(_ & r & (Hr & Hrt & _ & Hd & _) & _)|(_ & r & s & Hr & Hs & Hst' & Hw & Hd)])].
  - by destruct (masked_somewhere u target Hu He Hut).
  - left. exists r. destruct (prefix_weak_total _ _ _ Hut Hrt) as [?|Hru]; [done|by destruct (Hd u Hu Hru)].
  - apply existsb_exists in Hw as (w & Hw%list_elem_of_In & Hws%path_starts_with_spec).
    apply list_elem_of_fmap in Hw as (r' & -> & Hr').
    destruct (decide (root r `prefix_of` s)) as [Hrs'|Hrs'].
    + left. exists r. assert (root r `prefix_of` target) as Hrt by (by etransitivity).
      destruct (prefix_weak_total _ _ _ Hut Hrt) as [?|Hru]; [done|by destruct (Hd u Hu Hru)].
    + right. exists r, s. destruct (subs_outside r s Hr Hs); done.
Qed.

Lemma seen_readable target :
  view (flags b) target <> Hidden ->
  has_full_disk_read_access p = true
  \/ (exists q, q ∈ bwrap_readable_roots env p cwd /\ q `prefix_of` target)
  \/ (exists r, r ∈ rs /\ root r `prefix_of` target).
Proof.
  intros Hv. destruct (visible_cases target Hv) as [(E & _)|(_ & [(_ & r & (Hr & Hrt & _) & _)|(_ & r & s & _ & _ & Hst' & Hw & _)])].
  - rewrite E in Hv. destruct (view_mounted _ target Hv) as (path & Hm & Hp). apply base_mounts in Hm as [Hw Hr].
    destruct (view (base_args env host p cwd rs) target); [done| |done].
    destruct (Hr eq_refl) as [[_ ?]|?]; [by left|right; left; by exists path].
  - right. right. by exists r.
  - apply existsb_exists in Hw as (w & Hw%list_elem_of_In & Hws%path_starts_with_spec).
    apply list_elem_of_fmap in Hw as (r' & -> & Hr'). right. right. exists r'. split; [done|]. by etransitivity.
Qed.

(** *** What stays writable *)

Lemma present_covered path s target :
  path_exists env target = true -> at_or_missing env path s -> path `prefix_of` target -> s `prefix_of` target.
Proof.
  intros He [->|(_ & Hm & Hn)] Hp; [done|]. by rewrite (exists_prefix env host Hhost target path He Hp Hn) in Hm.
Qed.

(** The deepest writable root over a path, with nothing denied below it. *)
Record innermost (r : WritableRoot) (target : Path) : Prop := mkInnermost {
  innermost_root : r ∈ rs;
  innermost_writable : is_path_writable r target = true;
  innermost_deepest : forall r', r' ∈ rs -> root r' `prefix_of` target -> root r' `prefix_of` root r;
  innermost_allowed : forall u, u ∈ us -> u `prefix_of` target -> u `prefix_of` root r /\ u <> root r;
  innermost_inner : ~ in_outer_subpath target }.

Lemma other_root_uncovered r r' fs target :
  innermost r target -> path_exists env target = true -> r' ∈ rs -> root r' <> root r ->
  path_depth (root r) <= path_depth (root r') -> root_block env host us missing allowed r' fs b -> uncovered fs target.
Proof.
  intros Hin He Hr' Hne Hdepth (dirs & ro & hidden & -> & Hd & Hro & Hh & _) path seen Hm Hp.
  assert (root r' `prefix_of` target -> False) as Hnot.
  { intros Ht. pose proof (innermost_deepest _ _ Hin r' Hr' Ht) as Hpre. apply Hne.
    destruct Hpre as [k E]. unfold path_depth in Hdepth. rewrite E, length_app in Hdepth.
    destruct k; [by rewrite E, app_nil_r|cbn in Hdepth; lia]. }
  change (dirs ++ Bind (root r') :: ro ++ hidden) with (dirs ++ [Bind (root r')] ++ ro ++ hidden) in Hm.
  rewrite !mounted_app, (mounted_one _ _ _ (root r') HostWritable) in Hm by done.
  destruct Hm as [Hm|[[-> _]|[Hm|Hm]]].
  - by apply mounted_none in Hm.
  - by apply Hnot.
  - apply Hro in Hm as (s & Hs & _ & Hat & _). pose proof (present_covered path s target He Hat Hp) as Hst'.
    destruct (decide (root r' `prefix_of` s)) as [?|Hout]; [apply Hnot; by etransitivity|].
    apply (innermost_inner _ _ Hin). exists r', s. destruct (subs_outside r' s Hr' Hs); done.
  - apply Hh in Hm as (_ & u & Hu & Hat). apply list_elem_of_In, filter_In in Hu as [_ Hu%path_starts_with_spec].
    apply Hnot. etransitivity; [exact Hu|by eapply present_covered].
Qed.

Lemma own_block_writable r fs before target :
  innermost r target -> path_exists env target = true -> root_block env host us missing allowed r fs b ->
  view (before ++ fs) target = HostWritable.
Proof.
  intros Hin He (dirs & ro & hidden & -> & _ & Hro & Hh & _). pose proof (innermost_root _ _ Hin) as Hr.
  pose proof (innermost_writable _ _ Hin) as (Hrt & Hsub & Hname)%is_path_writable_spec.
  change (dirs ++ Bind (root r) :: ro ++ hidden) with (dirs ++ [Bind (root r)] ++ ro ++ hidden).
  rewrite !app_assoc, <- (app_assoc _ ro hidden), view_app; [by apply view_snoc; exists (root r)|].
  apply uncovered_spec. intros path seen [Hm|Hm]%mounted_app Hp.
  - apply Hro in Hm as (s & Hs & _ & Hat & _). pose proof (present_covered path s target He Hat Hp) as Hst'.
    apply elem_of_subs in Hs as [(Hs & _)|(name & Hn & -> & _)]; [by destruct (Hsub s)|].
    rewrite metadata_path_below in Hst' by done. destruct Hst' as [k ->]. unfold path_contains_protected_metadata_name in Hname.
    rewrite (proj2 (path_strip_prefix_spec _ _ (Normal name :: k))) in Hname by (by rewrite <- app_assoc).
    by apply bool_decide_eq_false in Hname.
  - apply Hh in Hm as (_ & u & Hu & Hat). apply list_elem_of_In, filter_In in Hu as [Hu Hru%path_starts_with_spec].
    destruct (innermost_allowed _ _ Hin u) as [Hur Hne]; [by apply list_elem_of_In|by eapply present_covered|].
    apply Hne. by apply (anti_symm prefix).
Qed.

Lemma kept_writable r target :
  NoDup (root <$> rs) -> innermost r target -> path_exists env target = true -> view (flags b) target = HostWritable.
Proof.
  intros Hnd Hin He. pose proof (innermost_root _ _ Hin) as Hr. destruct (block_of r Hr) as (i & fs & Hi & Hblock & Hri).
  rewrite (structure_flags _ _ _ _ _ _ Hst). rewrite <- (take_drop_middle _ _ _ Hi), concat_app. cbn [concat].
  rewrite !app_assoc, <- (app_assoc _ (concat (drop (S i) blocks)) rest). rewrite <- (app_assoc _ fs), app_assoc.
  rewrite view_app; [by eapply own_block_writable|].
  apply uncovered_spec. intros path seen [(fs' & (j & Hj)%list_elem_of_lookup & Hm)%mounted_concat|Hm]%mounted_app Hp.
  - rewrite lookup_drop in Hj.
    destruct (Forall2_lookup_r _ _ _ _ _ (structure_blocks _ _ _ _ _ _ Hst) Hj) as (r' & Hr' & Hblock').
    assert (r' ∈ rs) as Hin' by (rewrite <- (sort_by_key_Permutation (fun r => path_depth (root r)) rs); by eapply list_elem_of_lookup_2).
    eapply (other_root_uncovered r r' fs' target Hin He Hin'); [| |done|exact Hm|exact Hp].
    + intros E. rewrite <- (sort_by_key_Permutation (fun r => path_depth (root r)) rs) in Hnd.
      assert (S i + j = i) as Eij; [|lia]. eapply (NoDup_lookup _ _ _ (root r) Hnd);
        rewrite list_lookup_fmap; [by rewrite Hr', <- E|by rewrite Hri].
    + apply (sorted_lookup _ _ i (S i + j) r r' (sort_by_key_sorted (fun r => path_depth (root r)) rs)); [done|done|lia].
  - destruct (proj1 (structure_rest _ _ _ _ _ _ Hst) path seen Hm) as (_ & u & Hu & Hat).
    apply list_elem_of_In, filter_In in Hu as [Hu Hfree]. apply negb_true_iff, orb_false_iff in Hfree as [_ Hab].
    destruct (innermost_allowed _ _ Hin u) as [Hur _]; [by apply list_elem_of_In|by eapply present_covered|].
    apply not_true_iff_false in Hab. apply Hab, is_above_spec. by exists r.
Qed.
End whole.
