(* ===== verification/BwrapGlobs.v ===== *)
(** * The matches of denied globs (linux-sandbox/src/bwrap.rs)

    What the scan for the files that a denied glob matches finds: the paths are
    absolute, the descent without ripgrep finds exactly the files in reach that
    match, and it ends. *)

From S2P Require Import Prelude RustStr AbsolutePath SandboxPaths Permissions PermissionSafety BwrapMounts.

Section globs.
Context (env : Env) (host : Host).

Lemma checked_ok text q : checked env text = Ok q -> abs_ok q.
Proof.
  unfold checked, from_absolute_path_checked. destruct (is_absolute _) eqn:Ea; [|done]. intros [= <-].
  split; [by apply absolutize_from_absolute|apply normalize_path_valid].
Qed.

Lemma checked_display q : abs_ok q -> checked env (display q) = Ok q.
Proof.
  intros [Ha Hv]. destruct (normalize_display q Ha Hv) as [Hd Hn]. unfold checked, from_absolute_path_checked.
  rewrite expand_absolute by done. rewrite Hd. f_equal. unfold absolutize_from, path_with_base. by rewrite Hd, Hn.
Qed.

Lemma checked_settled path : settled (checked env path).
Proof. unfold checked. by destruct (from_absolute_path_checked _ _). Qed.

Lemma checked_paths_yields search_root stdout : yields (Forall abs_ok) (fun _ => True) (checked_paths env search_root stdout).
Proof.
  apply traverse_yields. intros text _. apply settled_yields; [apply checked_settled|]. intros q. apply checked_ok.
Qed.

(** What is reached from a directory, no deeper than asked for. *)
Definition deeper (depth : option nat) : option (option nat) :=
  match depth with Some 0 | Some 1 => None | Some n => Some (Some (n - 1)) | None => Some None end.
Inductive reached (dir : list Component) (depth : option nat) : list Component -> FileKind -> Prop :=
| reached_here entries name kind :
    read_dir host dir = Some entries -> ReadEntry name (Some kind) ∈ entries ->
    reached dir depth (dir ++ [Normal name]) kind
| reached_below entries name depth' path kind :
    read_dir host dir = Some entries -> ReadEntry name (Some IsDirectory) ∈ entries ->
    deeper depth = Some depth' -> reached (dir ++ [Normal name]) depth' path kind ->
    reached dir depth path kind.

Abbreviation matching search_root glob_set path kind :=
  ((kind = IsFile \/ kind = IsSymlink) /\ glob_set (default path (path_strip_prefix path search_root)) = true).

(** The loop over the entries of one directory. *)
Definition each_entry (descend : list Component -> option nat -> list (list Component) -> result CodexErr (list (list Component)))
    (search_root dir : Path) (glob_set : list Component -> bool) (depth : option nat) :=
  fix each (entries : list DirEntry) (paths : list (list Component)) {struct entries} : result CodexErr (list (list Component)) :=
    match entries with
    | [] => Ok paths
    | EntryError :: _ | ReadEntry _ None :: _ => Err Io
    | ReadEntry name (Some file_type) :: rest =>
        let path := dir ++ [Normal name] in
        let? paths :=
          if bool_decide (file_type = IsFile \/ file_type = IsSymlink)
             && glob_set (default path (path_strip_prefix path search_root))
          then let? p := checked env (display path) in Ok (paths ++ [p]) else Ok paths in
        if negb (bool_decide (file_type = IsDirectory)) then each rest paths
        else match deeper depth with
             | None => each rest paths
             | Some depth => let? paths := descend path depth paths in each rest paths
             end
    end.

Lemma collect_S fuel search_root dir glob_set depth paths :
  collect_glob_files env host (S fuel) search_root dir glob_set depth paths =
  match read_dir host dir with
  | None => Err Io
  | Some entries =>
      each_entry (fun path depth paths => collect_glob_files env host fuel search_root path glob_set depth paths)
        search_root dir glob_set depth entries paths
  end.
Proof.
  cbn [collect_glob_files]. destruct (read_dir host dir) as [entries|]; [|done]. revert paths.
  induction entries as [|[name [kind|]|] entries IH]; intros paths; [done| |done|done]. cbn [each_entry].
  destruct (if bool_decide _ && _ then _ else _) as [paths'| | |]; cbn [rbind]; try done.
  destruct (negb _); [apply IH|]. destruct depth as [[|[|n]]|]; cbn [deeper]; try apply IH.
  all: destruct (collect_glob_files _ _ _ _ _ _ _ _); cbn [rbind]; try done; apply IH.
Qed.

Context (search_root : list Component) (glob_set : list Component -> bool).

Definition found (dir : list Component) (depth : option nat) (x : list Component) : Prop :=
  exists path kind, reached dir depth path kind /\ matching search_root glob_set path kind
    /\ checked env (display path) = Ok x.
Definition found_in (dir : list Component) (depth : option nat) (entries : list DirEntry) (x : list Component) : Prop :=
  exists name kind, ReadEntry name (Some kind) ∈ entries
    /\ ((matching search_root glob_set (dir ++ [Normal name]) kind /\ checked env (display (dir ++ [Normal name])) = Ok x)
        \/ (kind = IsDirectory /\ exists depth', deeper depth = Some depth' /\ found (dir ++ [Normal name]) depth' x)).

Lemma found_spec dir depth entries x :
  read_dir host dir = Some entries -> found dir depth x <-> found_in dir depth entries x.
Proof.
  intros He. split.
  - intros (path & kind & [entries' name kind' He' Hin|entries' name d' path' kind' He' Hin Hd Hr] & Hm & Hx);
      rewrite He in He'; injection He' as <-.
    + exists name, kind'. split; [done|by left].
    + exists name, IsDirectory. split; [done|]. right. split; [done|]. exists d'. split; [done|]. by exists path', kind'.
  - intros (name & kind & Hin & [[Hm Hx]|(-> & d' & Hd & path & kind' & Hr & Hm & Hx)]).
    + exists (dir ++ [Normal name]), kind. split; [by econstructor|done].
    + exists path, kind'. split; [by eapply reached_below|done].
Qed.

Lemma found_in_cons dir depth e entries x :
  found_in dir depth (e :: entries) x <-> found_in dir depth [e] x \/ found_in dir depth entries x.
Proof. unfold found_in. setoid_rewrite elem_of_cons. setoid_rewrite elem_of_nil. naive_solver. Qed.

Lemma found_in_one dir depth name kind x :
  found_in dir depth [ReadEntry name (Some kind)] x <->
  (matching search_root glob_set (dir ++ [Normal name]) kind /\ checked env (display (dir ++ [Normal name])) = Ok x)
  \/ (kind = IsDirectory /\ exists depth', deeper depth = Some depth' /\ found (dir ++ [Normal name]) depth' x).
Proof.
  unfold found_in. setoid_rewrite list_elem_of_singleton. split; [|naive_solver].
  intros (n & k & [= -> ->] & H). done.
Qed.

(** The entry itself is added if it matches. *)
Lemma entry_added path kind paths paths' x :
  (if bool_decide (kind = IsFile \/ kind = IsSymlink) && glob_set (default path (path_strip_prefix path search_root))
   then let? p := checked env (display path) in Ok (paths ++ [p]) else Ok paths) = Ok paths' ->
  x ∈ paths' <-> x ∈ paths \/ (matching search_root glob_set path kind /\ checked env (display path) = Ok x).
Proof.
  case_bool_decide as Hk; cbn [andb]; [|intros [= <-]; naive_solver].
  destruct (glob_set _) eqn:Eg; [|intros [= <-]; naive_solver].
  destruct (checked env (display path)) as [q| | |]; cbn [rbind]; try done. intros [= <-].
  rewrite elem_of_app, list_elem_of_singleton. naive_solver.
Qed.

Lemma each_entry_spec descend dir depth :
  (forall path depth' paths out x, descend path depth' paths = Ok out -> x ∈ out <-> x ∈ paths \/ found path depth' x) ->
  forall entries paths out x, each_entry descend search_root dir glob_set depth entries paths = Ok out ->
    x ∈ out <-> x ∈ paths \/ found_in dir depth entries x.
Proof.
  intros Hd. induction entries as [|[name [kind|]|] entries IH]; intros paths out x; cbn [each_entry]; try done.
  { intros [= <-]. unfold found_in. setoid_rewrite elem_of_nil. naive_solver. }
  destruct (if bool_decide _ && _ then _ else _) as [paths1| | |] eqn:E1; cbn [rbind]; try done.
  apply (entry_added _ _ _ _ x) in E1. rewrite found_in_cons, found_in_one.
  case_bool_decide as Hk; cbn [negb].
  - destruct (deeper depth) as [d'|].
    + destruct (descend _ d' paths1) as [paths2| | |] eqn:E2; cbn [rbind]; try done.
      apply (Hd _ _ _ _ x) in E2. intros E. rewrite (IH _ _ x E). naive_solver.
    + intros E. rewrite (IH _ _ x E). naive_solver.
  - intros E. rewrite (IH _ _ x E). naive_solver.
Qed.

Lemma collect_spec fuel : forall dir depth paths out x,
  collect_glob_files env host fuel search_root dir glob_set depth paths = Ok out ->
  x ∈ out <-> x ∈ paths \/ found dir depth x.
Proof.
  induction fuel as [|fuel IH]; intros dir depth paths out x; [done|]. rewrite collect_S.
  destruct (read_dir host dir) as [entries|] eqn:He; [|done]. rewrite (found_spec dir depth entries x He).
  by apply each_entry_spec.
Qed.

(** Where no directory is deeper than the bound, the descent ends. *)
Lemma each_entry_settled descend dir depth :
  (forall name depth' paths, settled (descend (dir ++ [Normal name]) depth' paths)) ->
  forall entries paths, settled (each_entry descend search_root dir glob_set depth entries paths).
Proof.
  intros Hd. induction entries as [|[name [kind|]|] entries IH]; intros paths; cbn [each_entry]; try done.
  apply settled_bind.
  - destruct (_ && _); [|done]. apply settled_bind; [apply checked_settled|done].
  - intros paths'. destruct (negb _); [apply IH|]. destruct (deeper depth) as [d'|]; [|apply IH].
    apply settled_bind; [apply Hd|]. intros paths''. apply IH.
Qed.

Lemma collect_ok fuel dir depth out :
  collect_glob_files env host fuel search_root dir glob_set depth [] = Ok out -> Forall abs_ok out.
Proof.
  intros E. apply Forall_forall. intros x Hx. apply (collect_spec _ _ _ _ _ x) in E. apply E in Hx as [Hx|Hx].
  - by apply elem_of_nil in Hx.
  - destruct Hx as (path & kind & _ & _ & Hc). by eapply checked_ok.
Qed.

Lemma collect_settled fuel : forall dir depth paths,
  (forall q entries, read_dir host q = Some entries -> length q <= PATH_MAX) ->
  1 <= fuel -> S (S PATH_MAX) <= fuel + length dir ->
  settled (collect_glob_files env host fuel search_root dir glob_set depth paths).
Proof.
  induction fuel as [|fuel IH]; intros dir depth paths Hmax H1 H2; [lia|]. rewrite collect_S.
  destruct (read_dir host dir) as [entries|] eqn:He; [|done]. apply Hmax in He as Hl.
  apply each_entry_settled. intros name depth' paths'. apply IH; [done|lia|]. rewrite length_app. cbn. lia.
Qed.
End globs.

Lemma ripgrep_files_ok env host search_root gs max_depth out :
  ripgrep_files env host search_root gs max_depth = Ok out -> Forall abs_ok out.
Proof.
  unfold ripgrep_files. destruct (rg host _) as [| |[] code stdout stderr].
  - unfold glob_files. destruct (build_globs host search_root gs) as [matchers| | |]; cbn [rbind]; try done.
    destruct (glob_set_error host gs); [done|]. apply collect_ok.
  - done.
  - pose proof (checked_paths_yields env search_root stdout) as H. intros E. by rewrite E in H.
  - destruct (_ && _); [|done]. by intros [= <-].
Qed.

Lemma build_globs_settled host search_root gs : settled (build_globs host search_root gs).
Proof. apply settled_traverse. intros glob. by destruct (glob_matcher host glob). Qed.

Lemma ripgrep_files_settled env host search_root gs max_depth :
  (forall q entries, read_dir host q = Some entries -> length q <= PATH_MAX) -> search_root <> [] ->
  settled (ripgrep_files env host search_root gs max_depth).
Proof.
  intros Hmax Hne. unfold ripgrep_files. destruct (rg host _) as [| |[] code stdout stderr]; try done.
  - unfold glob_files. apply settled_bind; [apply build_globs_settled|]. intros matchers.
    destruct (glob_set_error host gs); [done|]. apply collect_settled; [done|lia|].
    destruct search_root; [done|]. cbn [length]. lia.
  - eapply yields_settled, checked_paths_yields.
  - by destruct (_ && _).
Qed.

(** Every pattern is searched for under its root. *)
Lemma push_under_elem key value m :
  (exists vs, (key, vs) ∈ push_under key value m /\ value ∈ vs)
  /\ forall k vs v, (k, vs) ∈ m -> v ∈ vs -> exists vs', (k, vs') ∈ push_under key value m /\ v ∈ vs'.
Proof.
  induction m as [|[k vs] m [IH1 IH2]]; cbn [push_under].
  { split; [exists [value]; set_solver|]. intros k vs v Hk. by apply elem_of_nil in Hk. }
  destruct (path_compare key k) eqn:E.
  - apply compare_eq in E as ->. split; [exists (vs ++ [value]); set_solver|].
    intros k' vs' v [[= -> ->]|Hk]%elem_of_cons Hv; [exists (vs ++ [value])|exists vs']; set_solver.
  - split; [exists [value]; set_solver|]. intros k' vs' v Hk Hv. exists vs'. set_solver.
  - destruct IH1 as (vs0 & H0 & Hv0). split; [exists vs0; set_solver|].
    intros k' vs' v [[= -> ->]|Hk]%elem_of_cons Hv; [exists vs; set_solver|].
    destruct (IH2 k' vs' v Hk Hv) as (vs'' & ? & ?). exists vs''. set_solver.
Qed.

Lemma patterns_grouped env patterns cwd pattern search_root glob :
  pattern ∈ patterns -> split_pattern_for_ripgrep env pattern cwd = Some (search_root, glob) ->
  is_dir env search_root = true ->
  exists gs, (search_root, gs) ∈ patterns_by_search_root env patterns cwd /\ glob ∈ gs.
Proof.
  intros Hp Hs Hd. unfold patterns_by_search_root.
  induction patterns as [|x patterns IH] using rev_ind; [by apply elem_of_nil in Hp|].
  rewrite foldl_app. cbn [foldl]. apply elem_of_app in Hp as [Hp|Hp%list_elem_of_singleton].
  - destruct (IH Hp) as (gs & Hg & Hin). destruct (split_pattern_for_ripgrep env x cwd) as [[r g]|]; [|by exists gs].
    destruct (is_dir env r); [|by exists gs]. by eapply push_under_elem.
  - subst x. rewrite Hs, Hd. apply push_under_elem.
Qed.

Lemma push_under_keys key value m k vs : (k, vs) ∈ push_under key value m -> k = key \/ exists vs', (k, vs') ∈ m.
Proof.
  induction m as [|[k' vs'] m IH]; cbn [push_under]; [set_solver|].
  destruct (path_compare key k') eqn:E; rewrite ?elem_of_cons.
  - intros [[= -> ->]|H]; right; [exists vs'|exists vs]; set_solver.
  - intros [[= -> ->]|H]; [by left|]. right. exists vs. set_solver.
  - intros [[= -> ->]|H]; [right; exists vs'; set_solver|]. destruct (IH H) as [?|(vs'' & ?)]; [by left|].
    right. exists vs''. set_solver.
Qed.

Lemma patterns_roots_ok env patterns cwd search_root gs :
  (search_root, gs) ∈ patterns_by_search_root env patterns cwd -> abs_ok search_root.
Proof.
  unfold patterns_by_search_root. revert gs. induction patterns as [|x patterns IH] using rev_ind; intros gs.
  { intros H. by apply elem_of_nil in H. }
  rewrite foldl_app. cbn [foldl]. destruct (split_pattern_for_ripgrep env x cwd) as [[r g]|] eqn:E; [|apply IH].
  destruct (is_dir env r); [|apply IH]. intros [->|(vs & H)]%push_under_keys; [|by eapply IH].
  unfold split_pattern_for_ripgrep in E. destruct (negb _); [done|]. destruct (_ || _); [done|].
  match goal with H : (_ ← from_absolute_path_checked env ?t; _) = _ |- _ =>
    destruct (from_absolute_path_checked env t) as [q|] eqn:Eq end; [|done]. cbn [mbind option_bind] in E.
  destruct (is_nil _); [done|]. injection E as -> <-. eapply (checked_ok env). unfold checked. by rewrite Eq.
Qed.

Lemma build_globs_elem host search_root gs matchers glob matcher :
  build_globs host search_root gs = Ok matchers -> glob ∈ gs -> glob_matcher host glob = inr matcher -> matcher ∈ matchers.
Proof.
  revert matchers. induction gs as [|g gs IH]; intros matchers; unfold build_globs; cbn [traverse]; [intros _ Hg; by apply elem_of_nil in Hg|].
  destruct (glob_matcher host g) as [|m] eqn:Em; cbn [rbind]; [done|]. fold (build_globs host search_root gs).
  destruct (build_globs host search_root gs) as [ms| | |]; cbn [rbind]; try done.
  intros [= <-] [->|Hg]%elem_of_cons E; [rewrite Em in E; injection E as ->; set_solver|].
  apply elem_of_cons. right. by apply IH.
Qed.
