(* ===== verification/BwrapPolicy.v ===== *)
(** * The sandbox of Linux enforces the policy

    The mounts of [create_filesystem_args] against the policy they are made from,
    on a host without symbolic links: what is writable, what is visible, and what
    stays usable. *)

From S2P Require Import Prelude RustStr AbsolutePath SandboxPaths Permissions PermissionSafety BwrapMounts BwrapSafety BwrapGlobs.

(** ** The paths of the mounts *)

Lemma resolve_against_ok env text base : abs_ok base -> abs_ok (resolve_against env text base).
Proof.
  intros Hb. split; [by apply absolutize_from_absolute, display_absolute|apply normalize_path_valid].
Qed.

Lemma abs_ok_name w name : abs_ok w -> name ∈ PROTECTED_METADATA_PATH_NAMES -> abs_ok (w ++ [Normal name]).
Proof.
  intros Hw Hn. rewrite <- (abs_join_name plain_env) by (done || by apply metadata_plain). by apply abs_join_ok.
Qed.

Lemma gitdir_ok env w g : abs_ok w -> resolve_gitdir_from_file env (w ++ [Normal GIT]) = Some g -> abs_ok g.
Proof.
  intros Hw. unfold resolve_gitdir_from_file.
  destruct (read_to_string env _) as [contents|]; [|done]. cbn [mbind option_bind].
  destruct (split_once 58%N (trim contents)) as [[prefix raw]|]; [|done]. cbn [mbind option_bind].
  destruct (negb _); [done|]. destruct (is_nil _); [done|].
  destruct (path_parent (w ++ [Normal GIT])) as [base|] eqn:Eb; [|done]. cbn [mbind option_bind].
  assert (base = w) as ->.
  { unfold path_parent in Eb. rewrite last_snoc, length_app, Nat.add_sub, take_app_length in Eb. congruence. }
  destruct (path_exists env _); [|done]. intros [= <-]. by apply resolve_against_ok.
Qed.

Lemma dedup_from_NoDup l : forall seen, NoDup (dedup_from seen l).
Proof.
  induction l as [|x l IH]; intros seen; cbn; [constructor|]. case_bool_decide; [done|].
  constructor; [|done]. rewrite elem_of_dedup_from. set_solver.
Qed.

Lemma NoDup_fmap_filter {A B} (f : A -> B) (P : A -> bool) l : NoDup (f <$> l) -> NoDup (f <$> List.filter P l).
Proof.
  induction l as [|x l IH]; [done|]. cbn. intros [Hx Hl]%NoDup_cons. destruct (P x); [|by apply IH].
  cbn. constructor; [|by apply IH]. intros (y & E & Hy%list_elem_of_In)%list_elem_of_fmap.
  apply filter_In in Hy as [Hy _]. apply Hx, list_elem_of_fmap. exists y. split; [done|by apply list_elem_of_In].
Qed.

Lemma elem_of_sorted_paths l x : x ∈ sorted_paths l <-> x ∈ l.
Proof. unfold sorted_paths. by rewrite elem_of_dedup, merge_sort_Permutation. Qed.

Section policy.
Context (env : Env) (host : Host) (Hhost : host_ok env host).
Context (p : FileSystemSandboxPolicy) (cwd : Path) (max_depth : option nat).
Context (Henv : env_ok env) (Hlinks : no_links env) (Hpaths : policy_paths_ok p).
Context (Hfull : has_full_disk_write_access p = false).

Abbreviation es := (resolved_entries_with_cwd env p cwd).
Abbreviation roots := (get_writable_roots_with_cwd env p cwd).
Abbreviation mounted_roots := (List.filter (fun r => path_exists env (root r)) roots).
Abbreviation globs := (get_unreadable_globs_with_cwd env p cwd).

Lemma not_full_restricted : fs_kind p = KindRestricted.
Proof. unfold has_full_disk_write_access in Hfull. by destruct (fs_kind p). Qed.

Lemma writable_roots_are : bwrap_writable_roots env p cwd = Ok mounted_roots.
Proof. unfold bwrap_writable_roots. rewrite Hfull, andb_false_r. done. Qed.

Lemma elem_of_mounted_roots r : r ∈ mounted_roots <-> r ∈ roots /\ path_exists env (root r) = true.
Proof. by rewrite list_elem_of_In, filter_In, <- list_elem_of_In. Qed.

Lemma mounted_roots_NoDup : NoDup (root <$> mounted_roots).
Proof.
  apply NoDup_fmap_filter. unfold get_writable_roots_with_cwd. rewrite Hfull. cbv zeta.
  rewrite <- list_fmap_compose. erewrite list_fmap_ext; [rewrite list_fmap_id; apply dedup_from_NoDup|done].
Qed.

(** A writable root is that of a writable entry. *)
Lemma root_entry r :
  r ∈ roots -> exists w, w ∈ es /\ writable w /\ can_write_path_with_cwd env p (resolved_path w) cwd = true
    /\ root r = resolved_path w /\ abs_ok (root r)
    /\ (forall name, name ∈ protected_metadata_names r -> name ∈ PROTECTED_METADATA_PATH_NAMES)
    /\ (forall s, s ∈ read_only_subpaths r -> abs_ok s).
Proof.
  pose proof not_full_restricted as Hk. pose proof (roots_entry_ok env p cwd Henv Hpaths) as Hes.
  intros (w & Hw & Hwr & Hc & ->)%roots_spec; [|done..]. exists w. split_and!; try done; [by apply Hes| |].
  - intros name [_ Hn]%list_elem_of_filter. done.
  - intros s Hs. cbn [read_only_subpaths writable_root_for] in Hs.
    apply elem_of_dedup_plain, elem_of_app in Hs as [[_ Hs]%list_elem_of_filter|Hs].
    + apply (default_subpath_spec env p) in Hs as [Hg|(name & Hn & ->)]; [| |done..|by apply Hes].
      * eapply gitdir_ok; [|exact Hg]. by apply Hes.
      * apply abs_ok_name; [by apply Hes|done].
    + apply list_elem_of_omap in Hs as (e & [_ [_ He]%list_elem_of_filter]%list_elem_of_filter & Hs).
      apply (carveout_only env Hlinks) in Hs as [-> _]; [by apply Hes|by apply Hes|].
      intros x Hx. by eapply (raw_roots_spec env p cwd).
Qed.

(** ** What is denied *)

Lemma expand_matches_elem search_root paths : forall expanded out x,
  expand_matches env host search_root paths expanded = Ok out -> x ∈ out <-> x ∈ expanded \/ x ∈ paths.
Proof.
  induction paths as [|path paths IH]; intros expanded out x; cbn [expand_matches].
  { intros [= ->]. set_solver. }
  rewrite (canonical_target_none env host Hhost). cbn [rbind]. destruct (_ <? _); [done|].
  intros E. rewrite (IH _ _ x E), elem_of_push_unique. set_solver.
Qed.

Lemma expand_roots_ok rs : forall expanded out,
  Forall abs_ok expanded -> expand_roots env host rs max_depth expanded = Ok out -> Forall abs_ok out.
Proof.
  induction rs as [|[search_root gs] rs IH]; intros expanded out Hx; cbn [expand_roots]; [by intros [= <-]|].
  destruct (ripgrep_files env host search_root gs max_depth) as [paths| | |] eqn:Er; cbn [rbind]; try done.
  destruct (expand_matches env host search_root paths expanded) as [mid| | |] eqn:Em; cbn [rbind]; try done.
  apply IH, Forall_forall. intros x. rewrite (expand_matches_elem _ _ _ _ x Em).
  apply ripgrep_files_ok in Er. rewrite Forall_forall in *. naive_solver.
Qed.

Lemma expand_roots_elem rs : forall expanded out x,
  expand_roots env host rs max_depth expanded = Ok out ->
  x ∈ expanded \/ (exists search_root gs paths, (search_root, gs) ∈ rs
                    /\ ripgrep_files env host search_root gs max_depth = Ok paths /\ x ∈ paths) <-> x ∈ out.
Proof.
  induction rs as [|[search_root gs] rs IH]; intros expanded out x; cbn [expand_roots].
  { intros [= <-]. setoid_rewrite elem_of_nil. naive_solver. }
  destruct (ripgrep_files env host search_root gs max_depth) as [paths| | |] eqn:Er; cbn [rbind]; try done.
  destruct (expand_matches env host search_root paths expanded) as [mid| | |] eqn:Em; cbn [rbind]; try done.
  intros E. rewrite <- (IH _ _ x E), (expand_matches_elem _ _ _ _ x Em). setoid_rewrite elem_of_cons. split.
  - intros [?|(r & g & ps & [[= -> ->]|Hin] & E' & Hx)]; [by left; left| |right; by exists r, g, ps].
    left. right. rewrite Er in E'. by injection E' as <-.
  - intros [[?|?]|(r & g & ps & Hin & E' & Hx)]; [by left|right; exists search_root, gs, paths; by split_and!; [left|..]|].
    right. exists r, g, ps. by split_and!; [right|..].
Qed.

Lemma expand_settled patterns :
  (forall q entries, read_dir host q = Some entries -> length q <= PATH_MAX) ->
  settled (expand_unreadable_globs_with_ripgrep env host patterns cwd max_depth).
Proof.
  intros Hmax. unfold expand_unreadable_globs_with_ripgrep. destruct (_ || _); [done|]. apply settled_bind; [|done].
  assert (forall r gs, (r, gs) ∈ patterns_by_search_root env patterns cwd -> r <> []) as Hne.
  { intros r gs H%patterns_roots_ok. by destruct H as [[names ->] _]. }
  generalize (@nil (list Component)). induction (patterns_by_search_root env patterns cwd) as [|[r gs] rs IH]; intros expanded; [done|].
  cbn [expand_roots]. apply settled_bind; [apply ripgrep_files_settled; [done|by eapply Hne; left]|]. intros paths.
  apply settled_bind; [|intros mid; apply IH; intros; eapply Hne; by right].
  clear. revert expanded. induction paths as [|path paths IH]; intros expanded; cbn [expand_matches]; [done|].
  apply settled_bind; [|intros mid; destruct (_ <? _); [done|apply IH]].
  destruct (canonical_target_if_symlinked_path env host path); [|done]. apply settled_bind; [apply checked_settled|done].
Qed.

Lemma expand_roots_runs rs search_root gs : forall expanded out,
  expand_roots env host rs max_depth expanded = Ok out -> (search_root, gs) ∈ rs ->
  exists paths, ripgrep_files env host search_root gs max_depth = Ok paths.
Proof.
  induction rs as [|[r g] rs IH]; intros expanded out; cbn [expand_roots]; [intros _ H; by apply elem_of_nil in H|].
  destruct (ripgrep_files env host r g max_depth) as [paths| | |] eqn:Er; cbn [rbind]; try done.
  destruct (expand_matches env host r paths expanded) as [mid| | |] eqn:Em; cbn [rbind]; try done.
  intros E [[= -> ->]|H]%elem_of_cons; [by exists paths|by eapply IH].
Qed.

Lemma expanded_ok patterns out :
  expand_unreadable_globs_with_ripgrep env host patterns cwd max_depth = Ok out -> Forall abs_ok out.
Proof.
  unfold expand_unreadable_globs_with_ripgrep. destruct (_ || _); [intros [= <-]; constructor|].
  destruct (expand_roots env host _ max_depth []) as [mid| | |] eqn:E; cbn [rbind]; try done. intros [= <-].
  apply expand_roots_ok in E; [|constructor]. rewrite Forall_forall in *. intros x. rewrite elem_of_sorted_paths. apply E.
Qed.

Lemma denied_root_spec u :
  u ∈ get_unreadable_roots_with_cwd env p cwd <->
  exists e, e ∈ es /\ resolved_access e = AccessNone /\ u = resolved_path e
    /\ can_read_path_with_cwd env p u cwd = false
    /\ (cwd ← absolute env cwd; absolute_root_path_for_cwd env cwd) <> Some u.
Proof.
  pose proof (roots_entry_ok env p cwd Henv Hpaths) as Hes.
  unfold get_unreadable_roots_with_cwd, is_restricted. rewrite bool_decide_eq_true_2 by apply not_full_restricted.
  cbn [negb]. cbv zeta. unfold dedup_absolute_paths. rewrite elem_of_dedup_from, list_elem_of_fmap.
  setoid_rewrite list_elem_of_fmap. setoid_rewrite list_elem_of_filter. setoid_rewrite list_elem_of_filter.
  setoid_rewrite list_elem_of_filter. split.
  - intros [(q & -> & e & -> & H1 & H2 & H3 & H4) _]. exists e. rewrite normalize_no_links by auto. done.
  - intros (e & H1 & H2 & -> & H3 & H4). split; [|set_solver]. exists (resolved_path e).
    split; [by rewrite normalize_no_links by auto|]. by exists e.
Qed.

Lemma unreadable_are us :
  bwrap_unreadable_roots env host p cwd max_depth = Ok us ->
  exists matches, expand_unreadable_globs_with_ripgrep env host globs cwd max_depth = Ok matches
    /\ forall u, u ∈ us <-> u ∈ get_unreadable_roots_with_cwd env p cwd \/ u ∈ matches.
Proof.
  unfold bwrap_unreadable_roots. destruct (expand_unreadable_globs_with_ripgrep _ _ _ _ _) as [matches| | |]; cbn; try done.
  intros [= <-]. exists matches. split; [done|]. intros u. by rewrite elem_of_sorted_paths, elem_of_app.
Qed.

Lemma unreadable_ok us : bwrap_unreadable_roots env host p cwd max_depth = Ok us -> Forall abs_ok us.
Proof.
  intros (matches & Hm & Hus)%unreadable_are. apply expanded_ok in Hm. rewrite Forall_forall in *.
  intros u [(e & He & _ & -> & _)%denied_root_spec|Hu]%Hus; [|by apply Hm]. by apply (roots_entry_ok env p cwd).
Qed.

Lemma mounts_paths_ok us :
  bwrap_unreadable_roots env host p cwd max_depth = Ok us -> paths_ok env host p cwd mounted_roots us.
Proof.
  intros Hus. split; [by apply unreadable_ok|]. apply Forall_forall. intros r [Hr He]%elem_of_mounted_roots.
  destruct (root_entry r Hr) as (w & _ & _ & _ & _ & Hok & Hn & Hs). split_and!; [done|done|done|].
  apply Forall_forall. intros s [(Hin & _)|(name & Hin & -> & _)]%elem_of_subs; [by apply Hs|].
  unfold metadata_path, path_append. rewrite components_plain by (by apply metadata_plain, Hn).
  apply abs_ok_name; [done|by apply Hn].
Qed.

Lemma filesystem_args_structure b :
  create_filesystem_args env host p cwd max_depth = Ok b ->
  exists us above blocks rest, bwrap_unreadable_roots env host p cwd max_depth = Ok us
    /\ paths_ok env host p cwd mounted_roots us /\ structure env host p cwd mounted_roots us b above blocks rest.
Proof.
  intros E. destruct (bwrap_unreadable_roots env host p cwd max_depth) as [us| | |] eqn:Eus.
  2-4: unfold create_filesystem_args in E; rewrite writable_roots_are in E; cbn [rbind] in E; by rewrite Eus in E.
  pose proof (mounts_paths_ok us Eus) as Hok.
  destruct (filesystem_structure env host Hhost p cwd max_depth b _ us E writable_roots_are Eus Hok) as (a & bl & r & Hst).
  by exists us, a, bl, r.
Qed.

(** Where ripgrep is not installed, the files a denied glob matches are denied. *)
Lemma fallback_match_denied us pattern search_root glob matcher path kind :
  bwrap_unreadable_roots env host p cwd max_depth = Ok us -> (forall arguments, rg host arguments = RgNotFound) ->
  max_depth <> Some 0 -> pattern ∈ globs -> split_pattern_for_ripgrep env pattern cwd = Some (search_root, glob) ->
  is_dir env search_root = true -> glob_matcher host glob = inr matcher ->
  reached host search_root max_depth path kind -> kind = IsFile \/ kind = IsSymlink ->
  matcher (default path (path_strip_prefix path search_root)) = true -> abs_ok path -> path ∈ us.
Proof.
  intros (matches & Hm & Hus)%unreadable_are Hrg Hdepth Hp Hs Hd Hglob Hr Hk Hmatch Hok. apply Hus. right.
  unfold expand_unreadable_globs_with_ripgrep in Hm. rewrite (bool_decide_eq_false_2 (max_depth = Some 0)), orb_false_r in Hm by done.
  destruct (is_nil globs) eqn:En; [by destruct globs; [apply elem_of_nil in Hp|]|].
  destruct (expand_roots env host _ max_depth []) as [out| | |] eqn:Eo; cbn [rbind] in Hm; try done. injection Hm as <-.
  destruct (patterns_grouped env globs cwd pattern search_root glob Hp Hs Hd) as (gs & Hgs & Hin).
  destruct (expand_roots_runs _ _ _ _ _ Eo Hgs) as (paths & Er). apply elem_of_sorted_paths, (expand_roots_elem _ _ _ _ Eo).
  right. exists search_root, gs, paths. split_and!; [done|done|]. unfold ripgrep_files in Er. rewrite Hrg in Er. unfold glob_files in Er.
  destruct (build_globs host search_root gs) as [matchers| | |] eqn:Eb; cbn [rbind] in Er; try done.
  destruct (glob_set_error host gs); [done|]. apply (collect_spec _ _ _ _ _ _ _ _ _ path Er). right.
  exists path, kind. split_and!; [done|done| |by apply checked_display].
  apply existsb_exists. exists matcher. split; [|done]. by eapply list_elem_of_In, build_globs_elem.
Qed.

(** ** What can be written *)

(** Metadata of a writable entry that the mounts do not know: its directory is
    missing, or the entry is overruled. *)
Definition in_unmounted_metadata (target : Path) : Prop :=
  exists v name, v ∈ es /\ writable v /\ name ∈ PROTECTED_METADATA_PATH_NAMES
    /\ resolved_path v ++ [Normal name] `prefix_of` target
    /\ (path_exists env (resolved_path v) = false
        \/ can_write_path_with_cwd env p (resolved_path v) cwd = false).

Lemma writes_within b target :
  create_filesystem_args env host p cwd max_depth = Ok b -> abs_ok target -> view (flags b) target = HostWritable ->
  exists r, r ∈ roots /\ root r `prefix_of` target
    /\ ((resolve_access_with_cwd env p target cwd = AccessWrite
         /\ (can_write_path_with_cwd env p target cwd = true \/ in_unmounted_metadata target))
        \/ left_open env p cwd b r target).
Proof.
  pose proof not_full_restricted as Hk.
  intros (us & above & blocks & rest & _ & Hok & Hst)%filesystem_args_structure Ht Hv.
  destruct (written_within env host Hhost p cwd _ us b above blocks rest Hok Hst target Hv) as (r & [Hr _]%elem_of_mounted_roots & Hrt & Hdeep & Hw).
  exists r. split; [done|]. split; [done|]. destruct Hw as [Hw|?]; [|by right]. left.
  apply roots_spec in Hr as (w & H1 & H2 & H3 & ->); [|done..].
  destruct (root_sound env p cwd Henv Hpaths Hk Hfull Hlinks w target H1 H2 H3 Ht Hw) as [Ha Hc]. split; [done|].
  destruct Hc as [Hc|(v & name & Hv1 & Hv2 & Hn & Hp & Hrv & Hne)]; [by left|right].
  exists v, name. split_and!; [done..|]. destruct (path_exists env (resolved_path v)) eqn:Ev; [right|by left].
  apply not_true_iff_false. intros Hcv. apply Hne, (anti_symm prefix); [|done].
  refine (Hdeep (writable_root_for env p cwd es _ (resolved_path v)) _ _).
  - apply elem_of_mounted_roots. split; [|done]. apply roots_spec; [done..|]. by exists v.
  - transitivity (resolved_path v ++ [Normal name]); [by eexists|done].
Qed.

(** ** What can be seen *)

Definition outer_subpath (target : Path) : Prop := in_outer_subpath mounted_roots target.

Lemma outer_subpath_Exists target :
  outer_subpath target <->
  Exists (fun r => Exists (fun s => ~ root r `prefix_of` s /\ s `prefix_of` target) (read_only_subpaths r)) mounted_roots.
Proof. setoid_rewrite Exists_exists. unfold outer_subpath, in_outer_subpath. setoid_rewrite Exists_exists. naive_solver. Qed.

Lemma denied_seen b us u target :
  create_filesystem_args env host p cwd max_depth = Ok b -> bwrap_unreadable_roots env host p cwd max_depth = Ok us ->
  u ∈ us -> path_exists env u = true -> u `prefix_of` target -> view (flags b) target <> Hidden ->
  (exists r, r ∈ roots /\ u `prefix_of` root r /\ root r `prefix_of` target) \/ outer_subpath target.
Proof.
  intros (us' & above & blocks & rest & Eus & Hok & Hst)%filesystem_args_structure Eus' Hu He Hut Hv.
  rewrite Eus' in Eus. injection Eus as <-.
  destruct (denied_hidden env host Hhost p cwd _ us b above blocks rest Hok Hst u target Hu He Hut Hv)
    as [(r & [Hr _]%elem_of_mounted_roots & ?)|?]; [left; by exists r|by right].
Qed.

(** A directory of the platform, that no entry below the root denies. *)
Definition platform_default (target : Path) : Prop :=
  include_platform_defaults p = true
  /\ (exists q, q ∈ components <$> LINUX_PLATFORM_DEFAULT_READ_ROOTS /\ q `prefix_of` target)
  /\ forall d, deciding es target d -> resolved_path d = [RootDir].

Lemma readable_root_spec q :
  q ∈ bwrap_readable_roots env p cwd ->
  (exists e, e ∈ es /\ q = resolved_path e /\ can_read_path_with_cwd env p q cwd = true)
  \/ (include_platform_defaults p = true /\ q ∈ components <$> LINUX_PLATFORM_DEFAULT_READ_ROOTS).
Proof.
  unfold bwrap_readable_roots. rewrite elem_of_sorted_paths, elem_of_app. intros [Hq|Hq].
  - left. unfold get_readable_roots_with_cwd in Hq. destruct (has_full_disk_read_access p); [by apply elem_of_nil in Hq|].
    unfold dedup_absolute_paths in Hq. rewrite elem_of_dedup_from in Hq. destruct Hq as [Hq _].
    apply list_elem_of_fmap in Hq as (q' & -> & (e & -> & [Hc [_ He]%list_elem_of_filter]%list_elem_of_filter)%list_elem_of_fmap).
    exists e. rewrite normalize_no_links by (done || by apply (roots_entry_ok env p cwd)). done.
  - right. destruct (include_platform_defaults p); [|by apply elem_of_nil in Hq]. split; [done|].
    apply list_elem_of_In, filter_In in Hq as [Hq _]. by apply list_elem_of_In.
Qed.

Lemma resolved_entry e : e ∈ es -> exists x, x ∈ entries p /\ access x = resolved_access e.
Proof.
  intros (x & Hx & E)%list_elem_of_omap. exists x. split; [done|].
  apply fmap_Some in E as (path & _ & ->). done.
Qed.

(** Full read access: the root is an entry, and no entry denies. *)
Lemma full_read_entries :
  abs_ok cwd -> has_full_disk_read_access p = true ->
  (exists e, e ∈ es /\ resolved_path e = [RootDir]) /\ forall e, e ∈ es -> resolved_access e <> AccessNone.
Proof.
  intros Hcwd. unfold has_full_disk_read_access, has_root_access, has_denied_read_restrictions, is_restricted.
  rewrite not_full_restricted, bool_decide_eq_true_2 by done. cbn [andb].
  intros [(x & Hx%list_elem_of_In & [Hp%bool_decide_eq_true _]%andb_true_iff)%existsb_exists Hn]%andb_true_iff. split.
  - exists (mkResolved [RootDir] (access x)). split; [|done]. apply list_elem_of_omap. exists x. split; [done|].
    rewrite Hp, absolute_ok by done. cbn. by rewrite (root_of env cwd Hcwd).
  - intros e (x' & Hx' & Ea)%resolved_entry Hnone. apply negb_true_iff, not_true_iff_false in Hn. apply Hn.
    apply existsb_exists. exists x'. split; [by apply list_elem_of_In|]. apply bool_decide_eq_true. congruence.
Qed.

(** An entry that grants something at its own path is not below a denial of it. *)
Lemma granted_not_denied target d e :
  deciding es target d -> resolved_access d = AccessNone -> e ∈ es -> covers e target ->
  resolve_access_with_cwd env p (resolved_path e) cwd <> AccessNone ->
  resolved_path e `prefix_of` resolved_path d /\ resolved_path e <> resolved_path d.
Proof.
  intros Hd Hn He Hc Ha. split; [by apply (deciding_most _ _ _ Hd)|]. intros E. apply Ha. rewrite E.
  rewrite (access_of_deciding env p cwd not_full_restricted _ d); [done| |by eapply deciding_self].
  apply (roots_entry_ok env p cwd); [done..|apply Hd].
Qed.

(** Something grants what is visible, or it is a default of the platform. *)
Lemma seen_granted b target :
  create_filesystem_args env host p cwd max_depth = Ok b -> abs_ok cwd -> abs_ok target -> view (flags b) target <> Hidden ->
  (exists e, e ∈ es /\ covers e target /\ resolve_access_with_cwd env p (resolved_path e) cwd <> AccessNone)
  \/ (include_platform_defaults p = true
      /\ exists q, q ∈ components <$> LINUX_PLATFORM_DEFAULT_READ_ROOTS /\ q `prefix_of` target).
Proof.
  intros (us & above & blocks & rest & _ & Hok & Hst)%filesystem_args_structure Hcwd Ht Hv.
  destruct (seen_readable env host Hhost p cwd _ us b above blocks rest Hok Hst target Hv)
    as [Hf|[(q & Hq & Hqt)|(r & [Hr _]%elem_of_mounted_roots & Hrt)]].
  - destruct (full_read_entries Hcwd Hf) as [(e & He & Ep) Hnone]. left. exists e. unfold covers. rewrite Ep.
    split_and!; [done|by destruct Ht as [[names ->] _]; exists (Normal <$> names)|].
    destruct (access_decided env p [RootDir] cwd [RootDir] not_full_restricted (candidate_ok _ _ _ root_ok))
      as [(d & Hd & ->)|[Hno _]]; [apply Hnone, Hd|]. destruct (Hno e He). unfold covers. by rewrite Ep.
  - destruct (readable_root_spec q Hq) as [(e & He & -> & Hc)|[? ?]]; [left|right; naive_solver].
    exists e. split_and!; [done|done|]. intros E. unfold can_read_path_with_cwd in Hc. by rewrite E in Hc.
  - destruct (root_entry r Hr) as (w & Hw & _ & Hc & E & _). left. exists w. unfold covers. rewrite <- E.
    split_and!; [done|done|]. rewrite E. intros E'. unfold can_write_path_with_cwd in Hc. by rewrite E' in Hc.
Qed.

(** A denial below the root shows only what lies in an outer subpath. *)
Lemma denial_seen b target d :
  create_filesystem_args env host p cwd max_depth = Ok b -> abs_ok cwd -> path_exists env target = true ->
  view (flags b) target <> Hidden -> deciding es target d -> resolved_access d = AccessNone ->
  resolved_path d <> [RootDir] -> outer_subpath target.
Proof.
  intros Hb Hcwd He Hv Hd Hn Hroot. pose proof (deciding_in _ _ _ Hd) as Hin.
  assert (abs_ok (resolved_path d)) as Hok by (by apply (roots_entry_ok env p cwd)).
  destruct (filesystem_args_structure b Hb) as (us & _ & _ & _ & Eus & _ & _).
  destruct (unreadable_are us Eus) as (matches & _ & Hus).
  destruct (denied_seen b us (resolved_path d) target Hb Eus) as [(r & Hr & Hdr & Hrt)|?]; try done.
  - apply Hus. left. apply denied_root_spec. exists d. split_and!; try done.
    + unfold can_read_path_with_cwd.
      rewrite (access_of_deciding env p cwd not_full_restricted _ d); [by rewrite Hn|done|by eapply deciding_self].
    + rewrite absolute_ok by done. cbn. rewrite root_of by done. congruence.
  - eapply (exists_prefix env host Hhost); [exact He|apply Hd|]. by destruct Hok as [[names ->] _].
  - apply Hd.
  - destruct (root_entry r Hr) as (w & Hw & _ & Hc & E & _).
    destruct (granted_not_denied target d w Hd Hn Hw) as [Hpre Hne].
    + unfold covers. by rewrite <- E.
    + intros E'. unfold can_write_path_with_cwd in Hc. by rewrite E' in Hc.
    + destruct Hne. apply (anti_symm prefix); [done|by rewrite <- E].
Qed.

Lemma visible_within b target :
  create_filesystem_args env host p cwd max_depth = Ok b -> abs_ok cwd -> abs_ok target ->
  path_exists env target = true -> view (flags b) target <> Hidden ->
  can_read_path_with_cwd env p target cwd = true \/ platform_default target \/ outer_subpath target.
Proof.
  intros Hb Hcwd Ht He Hv. unfold can_read_path_with_cwd.
  pose proof (seen_granted b target Hb Hcwd Ht Hv) as Hg.
  destruct (access_decided env p target cwd target not_full_restricted (candidate_ok _ _ _ Ht)) as [(d & Hd & E)|[Hno E]]; rewrite E.
  - destruct (decide (resolved_access d = AccessNone)) as [Hn|Hn]; [|left; by destruct (resolved_access d)].
    destruct (decide (resolved_path d = [RootDir])) as [Hroot|Hroot]; [|right; right; by eapply denial_seen].
    right. left. destruct Hg as [(e & Hin & Hc & Ha)|[Hp Hq]].
    + destruct (granted_not_denied target d e Hd Hn Hin Hc Ha) as [Hpre Hne]. rewrite Hroot in Hpre, Hne.
      assert (abs_ok (resolved_path e)) as [[names En] _] by (by apply (roots_entry_ok env p cwd)).
      rewrite En in Hpre. destruct Hpre as [k Hk]. injection Hk as Hk. apply eq_sym, app_eq_nil in Hk as [Hk _].
      by rewrite En, Hk in Hne.
    + split; [done|]. split; [done|]. intros d' Hd'. rewrite <- Hroot.
      apply (anti_symm prefix); [apply (deciding_most _ _ _ Hd)|apply (deciding_most _ _ _ Hd')]; apply Hd || apply Hd'.
  - destruct Hg as [(e & Hin & Hc & _)|[Hp Hq]]; [by destruct (Hno e)|]. right. left. split; [done|]. split; [done|].
    intros d Hd. destruct (Hno d); apply Hd.
Qed.

(** ** The mounts are made *)

Lemma for_each_total {A} (step : FilesystemArgs -> A -> result CodexErr FilesystemArgs) l :
  (forall b x, exists b', step b x = Ok b') -> forall b, exists b', for_each step b l = Ok b'.
Proof.
  intros Hs. induction l as [|x l IH]; intros b; cbn [for_each]; [by exists b|].
  destruct (Hs b x) as [b1 ->]. cbn [rbind]. apply IH.
Qed.

Context (fd : str) (Hnull : dev_null host = Some fd).

Lemma null_data_total b path : exists b', append_empty_file_bind_data_args host b path = Ok b'.
Proof.
  unfold append_empty_file_bind_data_args. destruct b as [fs files syn create]. cbn [preserved_files].
  destruct files; rewrite ?Hnull; cbn; by eexists.
Qed.

(** Every path to the end of a step is a step that is made. *)
Ltac total_step :=
  match goal with
  | |- context [append_empty_file_bind_data_args host ?b ?path] =>
      destruct (null_data_total b path) as [? ->]; cbn [rbind]; by eexists
  | |- exists b', Ok _ = Ok b' => by eexists
  | |- context [if ?c then _ else _] => destruct c
  | |- context [match ?c with _ => _ end] => destruct c
  end.

Lemma deny_total b u allowed : exists b', append_unreadable_root_args env host b u allowed = Ok b'.
Proof.
  unfold append_unreadable_root_args, append_existing_unreadable_path_args, append_missing_empty_file_bind_data_args.
  rewrite (writable_symlink_none env host Hhost). repeat total_step.
Qed.

Lemma protect_total b s allowed : exists b', append_read_only_subpath_args env host b s allowed = Ok b'.
Proof.
  unfold append_read_only_subpath_args, append_plain_read_only_args, append_missing_read_only_subpath_args,
    append_existing_empty_file_bind_data_args, append_missing_empty_file_bind_data_args.
  rewrite (writable_symlink_none env host Hhost). repeat total_step.
Qed.

Lemma each_denied_total allowed l b :
  exists b', for_each (fun b path => append_unreadable_root_args env host b path allowed) b l = Ok b'.
Proof. apply for_each_total. intros. apply deny_total. Qed.

Lemma root_total us missing allowed b r : exists b', mount_writable_root env host us missing allowed b r = Ok b'.
Proof.
  unfold mount_writable_root.
  match goal with |- exists b, (let? b := for_each ?f ?b0 ?l in _) = _ => assert (exists b', for_each f b0 l = Ok b') as [b1 ->] end.
  - apply for_each_total. intros. apply protect_total.
  - apply each_denied_total.
Qed.

Lemma filesystem_args_total matches :
  expand_unreadable_globs_with_ripgrep env host globs cwd max_depth = Ok matches ->
  exists b, create_filesystem_args env host p cwd max_depth = Ok b.
Proof.
  intros Hm. unfold create_filesystem_args, bwrap_unreadable_roots. rewrite writable_roots_are. cbn [rbind].
  rewrite Hm. cbn [rbind].
  match goal with |- exists b, (let? b := for_each ?f ?b0 ?l in _) = _ => assert (exists b', for_each f b0 l = Ok b') as [b1 ->] end.
  { apply each_denied_total. }
  cbn [rbind].
  match goal with |- exists b, (let? b := for_each ?f ?b0 ?l in _) = _ => assert (exists b', for_each f b0 l = Ok b') as [b2 ->] end.
  { apply for_each_total. intros. apply root_total. }
  apply each_denied_total.
Qed.

(** ** What stays usable *)

Lemma writable_kept matches target :
  expand_unreadable_globs_with_ripgrep env host globs cwd max_depth = Ok matches ->
  (forall u, u ∈ matches -> ~ u `prefix_of` target) ->
  abs_ok target -> path_exists env target = true -> can_write_path_with_cwd env p target cwd = true ->
  exists b, create_filesystem_args env host p cwd max_depth = Ok b
    /\ (view (flags b) target = HostWritable \/ outer_subpath target
        \/ exists r, r ∈ roots /\ root r `prefix_of` target
             /\ (in_gitdir env (root r) target \/ root_in_metadata env p cwd (root r))).
Proof.
  intros Hm Hno Ht He Hc. pose proof not_full_restricted as Hk. destruct (filesystem_args_total matches Hm) as [b Hb].
  exists b. split; [done|].
  destruct (root_complete env p cwd Henv Hpaths Hk Hfull Hlinks target Ht Hc) as (d & Hd & Hw & Hcd & Hcase).
  set (r := writable_root_for env p cwd es _ (resolved_path d)) in Hcase.
  assert (r ∈ roots) as Hr by (apply roots_spec; [done..|]; exists d; split_and!; try done; apply Hd).
  assert (root r `prefix_of` target) as Hrt by apply Hd.
  destruct Hcase as [Hpw|Hex]; [|right; right; by exists r].
  destruct (decide (Exists (fun r => Exists (fun s => ~ root r `prefix_of` s /\ s `prefix_of` target) (read_only_subpaths r))
    mounted_roots)) as [Hout|Hout]; rewrite <- outer_subpath_Exists in Hout; [right; by left|left].
  destruct (filesystem_args_structure b Hb) as (us & above & blocks & rest & Eus & Hok & Hst).
  destruct (unreadable_are us Eus) as (matches' & Em & Hus). rewrite Hm in Em. injection Em as <-.
  eapply (kept_writable env host Hhost p cwd _ us b above blocks rest Hok Hst r target); [apply mounted_roots_NoDup| |done].
  constructor; [|done| | |exact Hout].
  - apply elem_of_mounted_roots. split; [done|]. eapply (exists_prefix env host Hhost); [exact He|done|].
    destruct (root_entry r Hr) as (_ & _ & _ & _ & _ & [[names ->] _] & _). done.
  - intros r' [Hr' _]%elem_of_mounted_roots Ht'. destruct (root_entry r' Hr') as (w & Hw' & _ & _ & E & _).
    rewrite E. apply (deciding_most _ _ _ Hd); [done|]. unfold covers. by rewrite <- E.
  - intros u [(e & He' & Hn & -> & _)%denied_root_spec|Hu]%Hus Hut; [|by destruct (Hno u)].
    destruct (deciding_most _ _ _ Hd e He' Hut) as [Hpre Hrank]. split; [done|]. intros E. specialize (Hrank E).
    rewrite Hn, Hw in Hrank. cbn in Hrank. lia.
Qed.
End policy.

(** ** A host made of files *)

(** A path exists if it is one of the files or above one. *)
Definition tree_exists (files : list (list Component)) (q : Path) : bool :=
  negb (is_nil q) && existsb (fun file => path_starts_with file q) files.
Definition tree_env (files : list (list Component)) (text : list Component -> option str) : Env :=
  mkEnv None (Some (L"/")) None (fun q => tree_exists files q && negb (bool_decide (q ∈ files)))
    (fun q => bool_decide (q ∈ files)) (tree_exists files) (fun _ => Some false)
    (fun q => if tree_exists files q then Some q else None) text (fun _ => None).
Definition tree_host (files : list (list Component)) : Host :=
  mkHost (fun q => if tree_exists files q
                   then Found (mkMetadata (if decide (q ∈ files) then IsFile else IsDirectory) 1 (mkIdentity 0 0))
                   else NotFound)
    (fun _ => Some [ReadEntry (L"entry") (Some IsFile)]) (fun _ => RgOutput false (Some 1%N) [] []) (fun _ => inr (fun _ => false))
    (fun _ => None) (Some (L"7")).

Lemma tree_env_ok files text : env_ok (tree_env files text).
Proof. by intros d [= <-]. Qed.
Lemma tree_no_links files text : no_links (tree_env files text).
Proof. intros q c _. cbn. destruct (tree_exists files q); congruence. Qed.

Lemma tree_host_ok files text : host_ok (tree_env files text) (tree_host files).
Proof.
  constructor; cbn.
  - intros q m. destruct (tree_exists files q); [|done]. intros [= <-]. cbn. by destruct (decide _).
  - intros q c [_ (f & Hf & Hp%path_starts_with_spec)%existsb_exists]%andb_true_iff Hq. apply andb_true_iff.
    split; [by destruct q|]. apply existsb_exists. exists f. split; [done|]. apply path_starts_with_spec.
    etransitivity; [|exact Hp]. by eexists.
  - intros q. by destruct (tree_exists files q).
Qed.

Definition built (r : result CodexErr FilesystemArgs) : FilesystemArgs :=
  match r with Ok b => b | _ => mkFilesystemArgs [] [] [] [] end.
Definition is_built (r : result CodexErr FilesystemArgs) : bool := match r with Ok _ => true | _ => false end.
Lemma built_ok r : is_built r = true -> r = Ok (built r).
Proof. by destruct r. Qed.

(** A workspace with a repository, documents that are read-only and a secret. *)
Definition ws_path (names : list str) : list Component := path_of (L"ws" :: names).
Definition ws_files : list (list Component) :=
  [ws_path [L"src"; L"a.rs"]; ws_path [GIT; L"config"]; ws_path [L"docs"; L"a.md"]; ws_path [L"secret"; L"key"];
   path_of [L"home"; L"me"; L".profile"]; path_of [L"usr"; L"bin"; L"cc"]].
Definition ws_policy : FileSystemSandboxPolicy :=
  restricted [mkEntry (Special Minimal) AccessRead; mkEntry (PathEntry ws) AccessWrite;
              mkEntry (PathEntry (ws_path [L"docs"])) AccessRead;
              mkEntry (PathEntry (ws_path [L"secret"])) AccessNone].
Definition ws_env : Env := tree_env ws_files (fun _ => None).
Definition ws_args : FilesystemArgs := built (create_filesystem_args ws_env (tree_host ws_files) ws_policy ws None).

Lemma ws_policy_ok : policy_paths_ok ws_policy.
Proof. repeat apply Forall_cons_2; try apply Forall_nil_2; try exact I; cbn [entry_path]; solve_abs_ok. Qed.
Lemma ws_args_built : create_filesystem_args ws_env (tree_host ws_files) ws_policy ws None = Ok ws_args.
Proof. apply built_ok. vm_compute. reflexivity. Qed.

Example ws_views :
  (fun names => view (flags ws_args) (path_of names)) <$>
    [[L"ws"; L"src"; L"a.rs"]; [L"ws"; L"new"]; [L"ws"; GIT; L"config"]; [L"ws"; L"docs"; L"a.md"];
     [L"ws"; L"secret"; L"key"]; [L"ws"; CODEX; L"x"]; [L"home"; L"me"; L".profile"]; [L"usr"; L"bin"; L"cc"]]
  = [HostWritable; HostWritable; HostReadOnly; HostReadOnly; Hidden; Hidden; Hidden; HostReadOnly].
Proof. vm_compute. reflexivity. Qed.

(** ** Theorems *)

(** C3: The sandbox writes within the policy.  Whenever the mounts for bubblewrap
    are made, a path that a command may then write lies under a writable root of the
    policy; the policy resolves it to [Write] and lets it be written, save for
    metadata of a writable entry whose directory is missing or that is overruled;
    or it is among what the mounts leave open: the metadata that is watched for
    creation, metadata of the working directory that is missing below the top of the
    root, and roots inside the directory their own [.git] file points to. *)
Theorem bwrap_writes_within_policy env host p cwd max_depth b target :
  env_ok env -> no_links env -> host_ok env host -> policy_paths_ok p -> has_full_disk_write_access p = false ->
  abs_ok target -> create_filesystem_args env host p cwd max_depth = Ok b -> view (flags b) target = HostWritable ->
  exists r, r ∈ get_writable_roots_with_cwd env p cwd /\ root r `prefix_of` target
    /\ ((resolve_access_with_cwd env p target cwd = AccessWrite
         /\ (can_write_path_with_cwd env p target cwd = true \/ in_unmounted_metadata env p cwd target))
        \/ left_open env p cwd b r target).
Proof. intros He Hl Hh Hp Hf Ht Hb Hv. by eapply writes_within. Qed.

Lemma bwrap_writes_within_policy_witness :
  exists r, r ∈ get_writable_roots_with_cwd ws_env ws_policy ws /\ root r `prefix_of` ws_path [L"src"; L"a.rs"].
Proof.
  assert (abs_ok (ws_path [L"src"; L"a.rs"])) as Ht by solve_abs_ok.
  destruct (bwrap_writes_within_policy ws_env (tree_host ws_files) ws_policy ws None ws_args (ws_path [L"src"; L"a.rs"])
    (tree_env_ok _ _) (tree_no_links _ _) (tree_host_ok _ _) ws_policy_ok eq_refl Ht ws_args_built) as (r & Hr & Hp & _);
    [vm_compute; reflexivity|by exists r].
Defined.

(** C7: The sandbox shows nothing the policy denies.  On a host without symbolic links,
    under a policy that does not grant writes to the whole disk, an existing path that a command
    sees is readable under the policy, or lies in a default directory of the platform
    that no entry below the root denies, or in the directory that a [.git] file of a
    writable root points to outside of the root; and below a denied path that exists,
    the matches of denied globs included, only the writable roots inside it and such
    directories are seen. *)
Theorem bwrap_shows_only_readable env host p cwd max_depth b us target :
  env_ok env -> no_links env -> host_ok env host -> policy_paths_ok p -> has_full_disk_write_access p = false ->
  abs_ok cwd -> abs_ok target -> path_exists env target = true ->
  create_filesystem_args env host p cwd max_depth = Ok b -> bwrap_unreadable_roots env host p cwd max_depth = Ok us ->
  view (flags b) target <> Hidden ->
  (can_read_path_with_cwd env p target cwd = true \/ platform_default env p cwd target \/ outer_subpath env p cwd target)
  /\ forall u, u ∈ us -> u `prefix_of` target ->
       (exists r, r ∈ get_writable_roots_with_cwd env p cwd /\ u `prefix_of` root r /\ root r `prefix_of` target)
       \/ outer_subpath env p cwd target.
Proof.
  intros He Hl Hh Hp Hf Hc Ht Hex Hb Hus Hv. split; [by eapply visible_within|].
  intros u Hu Hut. eapply (denied_seen env host Hh p cwd max_depth); try done. eapply (exists_prefix env host Hh); [exact Hex|done|].
  pose proof (unreadable_ok env host Hh p cwd max_depth He Hl Hp Hf us Hus) as Hok.
  rewrite Forall_forall in Hok. by destruct (Hok u Hu) as [[names ->] _].
Qed.

Lemma bwrap_shows_only_readable_witness :
  let target := ws_path [L"docs"; L"a.md"] in
  can_read_path_with_cwd ws_env ws_policy target ws = true \/ platform_default ws_env ws_policy ws target
  \/ outer_subpath ws_env ws_policy ws target.
Proof.
  intros target. assert (abs_ok target) as Ht by solve_abs_ok. assert (abs_ok ws) as Hc by solve_abs_ok.
  apply (bwrap_shows_only_readable ws_env (tree_host ws_files) ws_policy ws None ws_args [ws_path [L"secret"]] target
    (tree_env_ok _ _) (tree_no_links _ _) (tree_host_ok _ _) ws_policy_ok eq_refl Hc Ht eq_refl ws_args_built);
    vm_compute; [reflexivity|discriminate].
Defined.

(** C14: The sandbox keeps what the policy grants.  Without symbolic links the mounts
    are made whenever the globs expand and /dev/null opens, and an existing path the
    policy lets be written, under no match of a denied glob, is writable for the
    command, save for the directory a [.git] file points to and for roots inside
    protected metadata. *)
Theorem bwrap_keeps_writable env host p cwd max_depth fd matches target :
  env_ok env -> no_links env -> host_ok env host -> policy_paths_ok p -> has_full_disk_write_access p = false ->
  dev_null host = Some fd ->
  expand_unreadable_globs_with_ripgrep env host (get_unreadable_globs_with_cwd env p cwd) cwd max_depth = Ok matches ->
  (forall u, u ∈ matches -> ~ u `prefix_of` target) ->
  abs_ok target -> path_exists env target = true -> can_write_path_with_cwd env p target cwd = true ->
  exists b, create_filesystem_args env host p cwd max_depth = Ok b
    /\ (view (flags b) target = HostWritable \/ outer_subpath env p cwd target
        \/ exists r, r ∈ get_writable_roots_with_cwd env p cwd /\ root r `prefix_of` target
             /\ (in_gitdir env (root r) target \/ root_in_metadata env p cwd (root r))).
Proof. intros He Hl Hh Hp Hf Hn Hm Hno Ht Hex Hc. by eapply writable_kept. Qed.

Lemma bwrap_keeps_writable_witness :
  exists b, create_filesystem_args ws_env (tree_host ws_files) ws_policy ws None = Ok b.
Proof.
  assert (abs_ok (ws_path [L"src"; L"a.rs"])) as Ht by solve_abs_ok.
  destruct (bwrap_keeps_writable ws_env (tree_host ws_files) ws_policy ws None (L"7") [] (ws_path [L"src"; L"a.rs"])
    (tree_env_ok _ _) (tree_no_links _ _) (tree_host_ok _ _) ws_policy_ok eq_refl eq_refl) as (b & Hb & _);
    [vm_compute; reflexivity|intros u Hu; by apply elem_of_nil in Hu|exact Ht|vm_compute; reflexivity..|by exists b].
Defined.

(** Denied globs hide what they match, also without ripgrep.  Where it is not
    installed and no directory is deeper than Linux lets paths be, the scan for a
    pattern returns or reports an error; with the mounts made, every file or link
    below the root of the pattern, no deeper than asked for, that the glob matches is
    hidden, unless it is itself a writable root or lies in the directory that a [.git]
    file of a root points to outside of the root. *)
Theorem bwrap_glob_matches_hidden env host p cwd max_depth fd pattern search_root glob matcher path kind :
  env_ok env -> no_links env -> host_ok env host -> policy_paths_ok p -> has_full_disk_write_access p = false ->
  dev_null host = Some fd -> (forall q entries, read_dir host q = Some entries -> length q <= PATH_MAX) ->
  (forall arguments, rg host arguments = RgNotFound) -> max_depth <> Some 0 ->
  pattern ∈ get_unreadable_globs_with_cwd env p cwd ->
  split_pattern_for_ripgrep env pattern cwd = Some (search_root, glob) -> is_dir env search_root = true ->
  glob_matcher host glob = inr matcher -> reached host search_root max_depth path kind ->
  kind = IsFile \/ kind = IsSymlink -> matcher (default path (path_strip_prefix path search_root)) = true ->
  abs_ok path -> path_exists env path = true ->
  (exists e, create_filesystem_args env host p cwd max_depth = Err e)
  \/ exists b, create_filesystem_args env host p cwd max_depth = Ok b
       /\ (view (flags b) path = Hidden \/ (exists r, r ∈ get_writable_roots_with_cwd env p cwd /\ root r = path)
           \/ outer_subpath env p cwd path).
Proof.
  intros He Hl Hh Hp Hf Hn Hmax Hrg Hd Hpat Hs Hdir Hg Hr Hk Hm Hok Hex.
  pose proof (expand_settled env host cwd max_depth (get_unreadable_globs_with_cwd env p cwd) Hmax) as Hset.
  destruct (expand_unreadable_globs_with_ripgrep env host (get_unreadable_globs_with_cwd env p cwd) cwd max_depth)
    as [matches|e| |] eqn:Ex; try done.
  2:{ left. exists e. unfold create_filesystem_args, bwrap_unreadable_roots. rewrite (writable_roots_are env p cwd Hf). cbn [rbind].
      by rewrite Ex. }
  right. destruct (filesystem_args_total env host Hh p cwd max_depth Hf fd Hn matches Ex) as [b Hb]. exists b. split; [done|].
  destruct (decide (view (flags b) path = Hidden)) as [?|Hv]; [by left|right].
  destruct (filesystem_args_structure env host Hh p cwd max_depth He Hl Hp Hf b Hb) as (us & _ & _ & _ & Eus & _).
  destruct (denied_seen env host Hh p cwd max_depth He Hl Hp Hf b us path path Hb Eus) as [(r & ? & ? & ?)|?]; try done.
  - by eapply fallback_match_denied.
  - left. exists r. split; [done|]. by apply (anti_symm prefix).
  - by right.
Qed.

(** Secrets of a workspace, denied by a glob, on a host without ripgrep. *)
Definition env_glob_policy : FileSystemSandboxPolicy :=
  restricted [mkEntry (Special Root) AccessRead; mkEntry (PathEntry ws) AccessWrite;
              mkEntry (GlobPattern (L"/ws/**/*.env")) AccessNone].
Definition env_glob_files : list (list Component) := [ws_path [L"src"; L"a.rs"]; ws_path [L"src"; L"local.env"]].
Definition env_glob_host : Host :=
  mkHost (symlink_metadata (tree_host env_glob_files))
    (fun q => if decide (q = ws) then Some [ReadEntry (L"src") (Some IsDirectory)]
              else if decide (q = ws_path [L"src"])
              then Some [ReadEntry (L"a.rs") (Some IsFile); ReadEntry (L"local.env") (Some IsFile)] else None)
    (fun _ => RgNotFound) (fun _ => inr (fun q => is_some_and (file_name q) (ends_with (L".env")))) (fun _ => None) (Some (L"7")).

Lemma bwrap_glob_matches_hidden_witness :
  let env := tree_env env_glob_files (fun _ => None) in
  let path := ws_path [L"src"; L"local.env"] in
  (exists e, create_filesystem_args env env_glob_host env_glob_policy ws None = Err e)
  \/ exists b, create_filesystem_args env env_glob_host env_glob_policy ws None = Ok b
       /\ (view (flags b) path = Hidden \/ (exists r, r ∈ get_writable_roots_with_cwd env env_glob_policy ws /\ root r = path)
           \/ outer_subpath env env_glob_policy ws path).
Proof.
  intros env path. assert (abs_ok path) as Ht by solve_abs_ok.
  assert (policy_paths_ok env_glob_policy) as Hp
    by (repeat apply Forall_cons_2; try apply Forall_nil_2; try exact I; cbn [entry_path]; solve_abs_ok).
  assert (host_ok env env_glob_host) as Hh by (destruct (tree_host_ok env_glob_files (fun _ => None)); constructor; done).
  apply (bwrap_glob_matches_hidden env env_glob_host env_glob_policy ws None (L"7") (L"/ws/**/*.env") ws (L"**/*.env")
    (fun q => is_some_and (file_name q) (ends_with (L".env"))) path IsFile (tree_env_ok _ _) (tree_no_links _ _) Hh Hp
    eq_refl eq_refl); try done.
  - intros q entries Hr. cbn in Hr. destruct (decide (q = ws)) as [->|_]; [vm_compute; lia|].
    destruct (decide (q = ws_path [L"src"])) as [->|_]; [vm_compute; lia|done].
  - apply (bool_decide_unpack _). vm_compute. exact I.
  - eapply (reached_below _ _ _ _ (L"src")); [vm_compute; reflexivity|by left|reflexivity|].
    change path with ((ws ++ [Normal (L"src")]) ++ [Normal (L"local.env")]).
    apply (reached_here _ _ _ [ReadEntry (L"a.rs") (Some IsFile); ReadEntry (L"local.env") (Some IsFile)] (L"local.env") IsFile);
      [vm_compute; reflexivity|right; by left].
  - by left.
Defined.

(** ** The command line *)

(** The options of bubblewrap that are used, by the number of their arguments, and
    the reading of a command line by them up to the command. *)
Definition option_arity (name : str) : option nat :=
  if decide (name ∈ [L"--new-session"; L"--die-with-parent"; L"--unshare-user"; L"--unshare-pid"; L"--unshare-net"]) then Some 0
  else if decide (name ∈ [L"--tmpfs"; L"--dev"; L"--dir"; L"--remount-ro"; L"--perms"; L"--proc"; L"--chdir"]) then Some 1
  else if decide (name ∈ [L"--bind"; L"--ro-bind"; L"--ro-bind-data"]) then Some 2
  else None.

Fixpoint read_options (l : list str) : option (list (str * list str) * list str) :=
  match l with
  | [] => None
  | name :: rest =>
      if decide (name = L"--") then Some ([], rest)
      else match option_arity name, rest with
           | Some 0, _ => '(os, c) ← read_options rest; Some ((name, []) :: os, c)
           | Some 1, x :: rest => '(os, c) ← read_options rest; Some ((name, [x]) :: os, c)
           | Some 2, x :: y :: rest => '(os, c) ← read_options rest; Some ((name, [x; y]) :: os, c)
           | _, _ => None
           end
  end.

Definition flag_option (f : Flag) : str * list str :=
  match render f with name :: arguments => (name, arguments) | [] => ([], []) end.

(** Everything before the command. *)
Definition wrapper_options (options : BwrapOptions) (mount_options chdir : list (str * list str)) : list (str * list str) :=
  [(L"--new-session", []); (L"--die-with-parent", [])] ++ mount_options
  ++ [(L"--unshare-user", []); (L"--unshare-pid", [])]
  ++ (if decide (network_mode options = FullAccess) then [] else [(L"--unshare-net", [])])
  ++ (if mount_proc options then [(L"--proc", [L"/proc"])] else []) ++ chdir.

Definition option_text (o : str * list str) : list str := o.1 :: o.2.
Definition good_option (o : str * list str) : Prop := o.1 <> L"--" /\ option_arity o.1 = Some (length o.2) /\ length o.2 <= 2.

Lemma read_option o l os c :
  good_option o -> read_options l = Some (os, c) -> read_options (option_text o ++ l) = Some (o :: os, c).
Proof.
  destruct o as [name arguments]. intros (Hn & Ha & Hl) E. cbn in *. rewrite decide_False by done. rewrite Ha.
  destruct arguments as [|x [|y [|z rest]]]; cbn in *; [by rewrite E..|lia].
Qed.

Lemma read_all os c : Forall good_option os -> read_options (concat (option_text <$> os) ++ L"--" :: c) = Some (os, c).
Proof.
  induction 1 as [|o os Ho _ IH]; [done|]. cbn [fmap list_fmap concat]. rewrite <- app_assoc. by apply read_option.
Qed.

Lemma flag_option_good f : good_option (flag_option f).
Proof. destruct f; (split_and!; [discriminate|vm_compute; reflexivity|cbn; lia]). Qed.
Lemma flag_option_text f : option_text (flag_option f) = render f.
Proof. by destruct f. Qed.

Lemma wrapper_options_good options mount_options chdir :
  Forall good_option mount_options -> Forall good_option chdir -> Forall good_option (wrapper_options options mount_options chdir).
Proof.
  intros Hm Hc. unfold wrapper_options. repeat (apply Forall_app; split); try done.
  - by repeat constructor; discriminate || cbn; lia.
  - by repeat constructor; discriminate || cbn; lia.
  - destruct (decide _); by repeat constructor; discriminate || cbn; lia.
  - destruct (mount_proc options); by repeat constructor; discriminate || cbn; lia.
Qed.

Lemma unshares_network options mount_options chdir :
  Forall (fun o => o.1 <> L"--unshare-net") mount_options -> Forall (fun o => o.1 <> L"--unshare-net") chdir ->
  (L"--unshare-net", []) ∈ wrapper_options options mount_options chdir <-> network_mode options <> FullAccess.
Proof.
  rewrite !Forall_forall. intros Hm Hc. unfold wrapper_options. destruct (decide (network_mode options = FullAccess)) as [E|E].
  - split; [|done]. rewrite !elem_of_app. intros [H|[H|[H|[H|[H|H]]]]]; exfalso.
    all: try by apply Hm in H. all: try by apply Hc in H.
    all: try by destruct (mount_proc options); set_solver.
    all: set_solver.
  - split; [done|]. intros _. set_solver.
Qed.

(** The text of what is before the command, and its reading. *)
Lemma read_wrapper options mount_options chdir command text :
  Forall good_option mount_options -> Forall good_option chdir ->
  text = concat (option_text <$> wrapper_options options mount_options chdir) ++ L"--" :: command ->
  read_options text = Some (wrapper_options options mount_options chdir, command).
Proof. intros Hm Hc ->. by apply read_all, wrapper_options_good. Qed.

Lemma mount_options_text fs : concat (option_text <$> (flag_option <$> fs)) = concat (render <$> fs).
Proof. rewrite <- list_fmap_compose. f_equal. apply list_fmap_ext. intros _ f _. apply flag_option_text. Qed.

Lemma flag_options_good fs : Forall good_option (flag_option <$> fs).
Proof. apply Forall_fmap, Forall_forall. intros f _. apply flag_option_good. Qed.
Lemma flag_options_keep_network fs : Forall (fun o => o.1 <> L"--unshare-net") (flag_option <$> fs).
Proof. apply Forall_fmap, Forall_forall. intros f _. by destruct f. Qed.

(** C30: The command line says what was decided.  The list returned for a command is
    the command itself exactly where the policy writes the full disk without denied
    globs and the network is open; otherwise, read by the arities of the options of
    bubblewrap, it is the session flags, the mounts in the order they were made, the
    namespaces with the network's exactly where its mode is not full access, /proc
    and the working directory where asked for, and the command unchanged at the end,
    whatever it contains. *)
Theorem bwrap_command_line_read env host command p policy_cwd command_cwd options a :
  create_bwrap_command_args env host command p policy_cwd command_cwd options = Ok a ->
  let unconfined := has_full_disk_write_access p && is_nil (get_unreadable_globs_with_cwd env p policy_cwd) in
  (unconfined = true /\ network_mode options = FullAccess /\ args a = command)
  \/ exists mount_options chdir,
       read_options (args a) = Some (wrapper_options options mount_options chdir, command)
       /\ ((L"--unshare-net", []) ∈ wrapper_options options mount_options chdir <-> network_mode options <> FullAccess)
       /\ (unconfined = true /\ network_mode options <> FullAccess
            /\ mount_options = [(L"--bind", [L"/"; L"/"])] /\ chdir = []
           \/ unconfined = false /\ exists max_depth b,
                create_filesystem_args env host p policy_cwd max_depth = Ok b /\ mount_options = flag_option <$> flags b
                /\ chdir = (if decide (normalize_command_cwd_for_bwrap env command_cwd = command_cwd) then []
                            else [(L"--chdir", [display (normalize_command_cwd_for_bwrap env command_cwd)])])
                /\ args_protected_create_targets a = protected_create_targets b).
Proof.
  unfold create_bwrap_command_args. intros E. cbv zeta.
  set (unconfined := has_full_disk_write_access p && _) in *. destruct unconfined.
  - case_bool_decide as En; injection E as <-; [by left|]. right. exists [(L"--bind", [L"/"; L"/"])], []. split_and!.
    + apply read_wrapper; [repeat constructor; discriminate || cbn; lia|constructor|].
      unfold wrapper_options, create_bwrap_flags_full_filesystem. rewrite decide_False by done.
      by destruct options as [[] [] ?].
    + apply unshares_network; by repeat constructor.
    + left. done.
  - unfold create_bwrap_flags in E. set (depth := match option_glob_scan_max_depth options with Some _ => _ | None => _ end) in E.
    destruct (create_filesystem_args env host p policy_cwd depth) as [b| | |] eqn:Eb; cbn [rbind] in E; try done.
    injection E as <-. right. set (dir := normalize_command_cwd_for_bwrap env command_cwd).
    exists (flag_option <$> flags b), (if decide (dir = command_cwd) then [] else [(L"--chdir", [display dir])]). split_and!.
    + apply read_wrapper; [apply flag_options_good|destruct (decide _); repeat constructor; discriminate || cbn; lia|].
      unfold wrapper_options. rewrite !fmap_app, !concat_app, mount_options_text. cbn [args].
      rewrite (decide_bool_decide (dir = command_cwd)). fold dir.
      destruct (bool_decide (dir = command_cwd)), options as [[] [] ?]; cbn; by rewrite <- ?app_assoc.
    + apply unshares_network; [apply flag_options_keep_network|]. destruct (decide _); by repeat constructor.
    + right. split; [done|]. by exists depth, b.
Qed.

(** A command of an open network that looks like options. *)
Definition ws_line : BwrapArgs :=
  match create_bwrap_command_args ws_env (tree_host ws_files) [L"--unshare-net"; L"--"; L"x"] ws_policy ws ws options_default with
  | Ok a => a
  | _ => mkBwrapArgs [] [] [] []
  end.

Lemma bwrap_command_line_read_witness :
  exists mount_options chdir,
    read_options (args ws_line)
      = Some (wrapper_options options_default mount_options chdir, [L"--unshare-net"; L"--"; L"x"])
    /\ (L"--unshare-net", []) ∉ wrapper_options options_default mount_options chdir.
Proof.
  destruct (bwrap_command_line_read ws_env (tree_host ws_files) [L"--unshare-net"; L"--"; L"x"] ws_policy ws ws
    options_default ws_line) as [(E & _)|(m & c & Hr & Hn & _)]; [vm_compute; reflexivity|discriminate E|].
  exists m, c. split; [exact Hr|]. intros H. apply Hn in H. by apply H.
Defined.

(** ** Where the mounts and the policy disagree *)

(** The working directory is below the top of the writable root and has no [.git]:
    the policy protects it, but the mounts leave it out and nothing watches it. *)
Example missing_metadata_below_root :
  let files := [ws_path [L"sub"; L"a.rs"]] in
  let p := restricted [mkEntry (Special Root) AccessRead; mkEntry (PathEntry ws) AccessWrite;
                       mkEntry (Special (ProjectRoots (Some [Normal GIT]))) AccessRead] in
  let env := tree_env files (fun _ => None) in
  let cwd := ws_path [L"sub"] in
  let b := built (create_filesystem_args env (tree_host files) p cwd None) in
  let target := ws_path [L"sub"; GIT; L"config"] in
  can_write_path_with_cwd env p target cwd = false
  /\ view (flags b) target = HostWritable
  /\ existsb (path_starts_with target) (protected_create_targets b) = false.
Proof. vm_compute. done. Qed.

(** A [.git] file of one root points into a denied directory of another, and the
    mount that keeps the git directory read-only shows it again. *)
Example gitdir_shown_in_denied_directory :
  let other := path_of [L"other"] in
  let gitdir := path_of [L"other"; L"private"; L"wt"] in
  let files := [gitdir ++ [Normal (L"HEAD")]; ws_path [GIT]] in
  let text := fun q => if decide (q = ws_path [GIT]) then Some (L"gitdir: /other/private/wt") else None in
  let p := restricted [mkEntry (Special Root) AccessRead; mkEntry (PathEntry other) AccessWrite;
                       mkEntry (PathEntry ws) AccessWrite; mkEntry (PathEntry (path_of [L"other"; L"private"])) AccessNone] in
  let env := tree_env files text in
  let b := built (create_filesystem_args env (tree_host files) p ws None) in
  can_read_path_with_cwd env p (gitdir ++ [Normal (L"HEAD")]) ws = false
  /\ view (flags b) (gitdir ++ [Normal (L"HEAD")]) = HostReadOnly.
Proof. vm_compute. done. Qed.
