(* ===== verification/PatchInvocation.v ===== *)
(** * Recognising patches in commands (apply-patch/src/invocation.rs and lib.rs)

    Which commands call [apply_patch], and the changes a patch would make, computed
    on the file system before anyone is asked.  The query of tree-sitter over a
    script is an argument: it fails, or gives its matches, each a list of captures
    with their names and texts.  So is the text of a diff. *)

From S2P Require Import Prelude RustStr PatchParser PatchApply AbsolutePath PatchFs ShellParse.

Definition APPLY_PATCH_COMMANDS : list str := [L"apply_patch"; L"applypatch"].

Inductive ApplyPatchShell := UnixShell | PowerShellShell | CmdShell.

Inductive ExtractHeredocError :=
| CommandDidNotStartWithApplyPatch
| FailedToLoadBashGrammar
| HeredocNotUtf8
| FailedToParsePatchIntoAst
| FailedToFindHeredocBody.

Inductive MaybeApplyPatch :=
| MaybeBody (args : ApplyPatchArgs)
| MaybeShellParseError (e : ExtractHeredocError)
| MaybePatchParseError (e : ParseError)
| MaybeNotApplyPatch.

Inductive ApplyPatchFileChange :=
| PatchAdd (content : str)
| PatchDelete (content : str)
| PatchUpdate (unified_diff : str) (move_path : option (list Component)) (new_content : str).

(** The changes are a map from paths. *)
Record ApplyPatchAction := mkAction {
  action_changes : list (AbsolutePathBuf * ApplyPatchFileChange);
  action_patch : str;
  action_cwd : AbsolutePathBuf }.

Inductive MaybeApplyPatchVerified :=
| VerifiedBody (action : ApplyPatchAction)
| VerifiedShellParseError (e : ExtractHeredocError)
| CorrectnessError (e : ApplyPatchError)
| NotApplyPatch.

Definition action_is_empty (a : ApplyPatchAction) : bool := is_nil (action_changes a).

(** ** Shells *)

Definition classify_shell_name (shell : str) : option str := to_ascii_lowercase <$> file_stem shell.

Definition classify_shell (shell flag : str) : option ApplyPatchShell :=
  name ← classify_shell_name shell;
  if bool_decide (name ∈ [L"bash"; L"zsh"; L"sh"]) && bool_decide (flag ∈ [L"-lc"; L"-c"]) then Some UnixShell
  else if bool_decide (name ∈ [L"pwsh"; L"powershell"]) && eq_ignore_ascii_case flag (L"-command")
  then Some PowerShellShell
  else if str_eqb name (L"cmd") && eq_ignore_ascii_case flag (L"/c") then Some CmdShell
  else None.

Definition can_skip_flag (shell flag : str) : bool :=
  is_some_and (classify_shell_name shell) (fun name =>
    bool_decide (name ∈ [L"pwsh"; L"powershell"]) && eq_ignore_ascii_case flag (L"-noprofile")).

Definition parse_shell_script (argv : list str) : option (ApplyPatchShell * str) :=
  match argv with
  | [shell; flag; script] => shell_type ← classify_shell shell flag; Some (shell_type, script)
  | [shell; skip_flag; flag; script] =>
      if can_skip_flag shell skip_flag
      then shell_type ← classify_shell shell flag; Some (shell_type, script)
      else None
  | _ => None
  end.

Section invocation.
Context {FS : Type} `{ExecutorFileSystem FS}.
Context (home : option str).
Context (bash_query : str -> ExtractHeredocError + list (list (str * str))).
Context (text_diff : str -> str -> str).

(** The captures of one match. *)
Definition read_captures (captures : list (str * str)) : option str * option str :=
  foldl (fun '(heredoc_text, cd_path) '(name, text) =>
    if str_eqb name (L"heredoc") then (Some (trim_end_matches (N.eqb LF) text), cd_path)
    else if str_eqb name (L"cd_path") then (heredoc_text, Some text)
    else if str_eqb name (L"cd_raw_string")
    then (heredoc_text, Some (default text (s ← strip_prefix [39%N] text; strip_suffix [39%N] s)))
    else (heredoc_text, cd_path)) (None, None) captures.

Fixpoint first_heredoc (matches : list (list (str * str))) : ExtractHeredocError + str * option str :=
  match matches with
  | [] => inl CommandDidNotStartWithApplyPatch
  | captures :: rest =>
      match read_captures captures with
      | (Some heredoc, cd_path) => inr (heredoc, cd_path)
      | (None, _) => first_heredoc rest
      end
  end.

Definition extract_apply_patch_from_bash (src : str) : ExtractHeredocError + str * option str :=
  match bash_query src with inl e => inl e | inr matches => first_heredoc matches end.

Definition extract_apply_patch_from_shell (shell : ApplyPatchShell) (script : str)
  : ExtractHeredocError + str * option str :=
  match shell with UnixShell | PowerShellShell | CmdShell => extract_apply_patch_from_bash script end.

(** [parse_patch] with its error as a value. *)
Definition parsed {A} (body : str) (ok : ApplyPatchArgs -> A) (err : ParseError -> A) : result Empty_set A :=
  match parse_patch body with
  | Ok source => Ok (ok source)
  | Err e => Ok (err e)
  | Panic => Panic
  | OutOfFuel => OutOfFuel
  end.

Definition maybe_parse_shell (argv : list str) : result Empty_set MaybeApplyPatch :=
  match parse_shell_script argv with
  | None => Ok MaybeNotApplyPatch
  | Some (shell, script) =>
      match extract_apply_patch_from_shell shell script with
      | inr (body, workdir) =>
          parsed body (fun source => MaybeBody (mkArgs (args_patch source) (args_hunks source) workdir))
            MaybePatchParseError
      | inl CommandDidNotStartWithApplyPatch => Ok MaybeNotApplyPatch
      | inl e => Ok (MaybeShellParseError e)
      end
  end.

Definition maybe_parse_apply_patch (argv : list str) : result Empty_set MaybeApplyPatch :=
  match argv with
  | [cmd; body] =>
      if bool_decide (cmd ∈ APPLY_PATCH_COMMANDS) then parsed body MaybeBody MaybePatchParseError
      else maybe_parse_shell argv
  | _ => maybe_parse_shell argv
  end.

(** ** The changes of a patch *)

Record ApplyPatchFileUpdate := mkFileUpdate {
  unified_diff : str;
  original_content : str;
  content : str }.

Definition unified_diff_from_chunks (fs : FS) (path_abs : AbsolutePathBuf) (chunks : list UpdateFileChunk)
  : result ApplyPatchError ApplyPatchFileUpdate :=
  match read_file_text fs path_abs with
  | inr err => Err (IoError (L"Failed to read file to update " ++ display path_abs) err)
  | inl original_contents =>
      let? new_contents := new_contents_from_chunks (display path_abs) original_contents chunks in
      Ok (mkFileUpdate (text_diff original_contents new_contents) original_contents new_contents)
  end.

(** [HashMap::insert]. *)
Fixpoint insert_change (path : AbsolutePathBuf) (c : ApplyPatchFileChange)
  (m : list (AbsolutePathBuf * ApplyPatchFileChange)) : list (AbsolutePathBuf * ApplyPatchFileChange) :=
  match m with
  | [] => [(path, c)]
  | (q, d) :: rest => if decide (q = path) then (q, c) :: rest else (q, d) :: insert_change path c rest
  end.

Definition change_of_hunk (fs : FS) (effective_cwd : AbsolutePathBuf) (hunk : Hunk)
  : result ApplyPatchError ApplyPatchFileChange :=
  let path := resolve_path home hunk (display effective_cwd) in
  match hunk with
  | AddFile _ contents => Ok (PatchAdd contents)
  | DeleteFile _ =>
      match read_file_text fs path with
      | inl content => Ok (PatchDelete content)
      | inr e => Err (IoError (L"Failed to read " ++ display path) e)
      end
  | UpdateFile _ move_path chunks =>
      let? update := unified_diff_from_chunks fs path chunks in
      Ok (PatchUpdate (unified_diff update)
            ((fun p => resolve_path_against_base home p (display effective_cwd)) <$> move_path)
            (content update))
  end.

Fixpoint changes_of_hunks (fs : FS) (effective_cwd : AbsolutePathBuf) (hunks : list Hunk)
  (changes : list (AbsolutePathBuf * ApplyPatchFileChange))
  : result ApplyPatchError (list (AbsolutePathBuf * ApplyPatchFileChange)) :=
  match hunks with
  | [] => Ok changes
  | hunk :: rest =>
      let? change := change_of_hunk fs effective_cwd hunk in
      changes_of_hunks fs effective_cwd rest
        (insert_change (resolve_path home hunk (display effective_cwd)) change changes)
  end.

Definition parses (text : str) : bool := match parse_patch text with Ok _ => true | _ => false end.

Definition is_implicit_invocation (argv : list str) : bool :=
  match argv with [body] => parses body | _ => false end
  || is_some_and (parse_shell_script argv) (fun '(_, script) => parses script).

Definition maybe_parse_apply_patch_verified (fs : FS) (argv : list str) (cwd : AbsolutePathBuf)
  : result Empty_set MaybeApplyPatchVerified :=
  if is_implicit_invocation argv then Ok (CorrectnessError ImplicitInvocation)
  else
    let? maybe := maybe_parse_apply_patch argv in
    match maybe with
    | MaybeBody args =>
        let effective_cwd :=
          match args_workdir args with
          | Some dir => resolve_path_against_base home dir (display cwd)
          | None => cwd
          end in
        match changes_of_hunks fs effective_cwd (args_hunks args) [] with
        | Ok changes => Ok (VerifiedBody (mkAction changes (args_patch args) effective_cwd))
        | Err e => Ok (CorrectnessError e)
        | Panic => Panic
        | OutOfFuel => OutOfFuel
        end
    | MaybeShellParseError e => Ok (VerifiedShellParseError e)
    | MaybePatchParseError e => Ok (CorrectnessError (PatchParseError e))
    | MaybeNotApplyPatch => Ok NotApplyPatch
    end.
End invocation.
