(* ===== verification/PatchTouches.v ===== *)
(** * What applying a patch touches (apply-patch/src/lib.rs)

    The run of a patch writes, removes and creates nothing but the paths its hunks
    name, whatever the file system answers; and a patch that was parsed is parsed
    again from the text that is kept of it. *)

From S2P Require Import Prelude RustStr PatchParser PatchApply AbsolutePath PatchFs.

Section touches.
Context {FS : Type} `{ExecutorFileSystem FS} (home : option str).
Context (allowed : AbsolutePathBuf -> Prop).

(** One file system comes from another by writing and removing allowed paths, and by
    creating the parents of allowed paths. *)
Inductive touches (fs : FS) : FS -> Prop :=
| touches_nothing : touches fs fs
| touches_write fs' p c : touches fs fs' -> allowed p -> touches fs (write_file fs' p c).1
| touches_parent fs' p d r : touches fs fs' -> allowed p -> path_parent p = Some d ->
    touches fs (create_directory fs' d r).1
| touches_remove fs' p r f : touches fs fs' -> allowed p -> touches fs (remove fs' p r f).1.

Lemma touches_trans fs1 fs2 fs3 : touches fs1 fs2 -> touches fs2 fs3 -> touches fs1 fs3.
Proof. intros H12 H23. induction H23; [done|by constructor|by econstructor|by constructor]. Qed.

(** A computation that touches allowed paths only. *)
Definition within {A} (m : M A) : Prop := forall s, touches s.1 (m s).1.1.

Lemma within_ret {A} (a : A) : within (ret a).
Proof. constructor. Qed.
Lemma within_fail {A} e : within (fail (A:=A) e).
Proof. constructor. Qed.
Lemma within_bind {A B} (m : M A) (k : A -> M B) : within m -> (forall a, within (k a)) -> within (bind m k).
Proof.
  intros Hm Hk s. unfold bind. specialize (Hm s). destruct (m s) as [s' []]; cbn in *; try done.
  eapply touches_trans; [exact Hm|apply Hk].
Qed.
Lemma within_ask {A} (f : FS -> A) : within (ask f).
Proof. constructor. Qed.
Lemma within_set_exact f : within (set_exact f).
Proof. constructor. Qed.
Lemma within_push_change c : within (push_change c).
Proof. constructor. Qed.
Lemma within_change_count : within change_count.
Proof. constructor. Qed.
Lemma within_set_change i c : within (set_change i c).
Proof. intros s. unfold set_change. destruct (_ <? _); constructor. Qed.
Lemma within_lift_io {A} context (r : io_result A) : within (lift_io context r).
Proof. destruct r; constructor. Qed.
Lemma within_lift_patch {A} (r : result ApplyPatchError A) : within (lift_patch r).
Proof. constructor. Qed.
Lemma within_try_write {A} (m : M A) : within m -> within (try_write m).
Proof. intros Hm s. specialize (Hm s). unfold try_write. destruct (m s) as [[fs d] []]; exact Hm. Qed.
Lemma within_write p c : allowed p -> within (mutate (fun fs => write_file fs p c)).
Proof.
  intros Hp s. unfold mutate. pose proof (touches_write s.1 s.1 p c (touches_nothing _) Hp) as Ht.
  by destruct (write_file s.1 p c).
Qed.
Lemma within_create p d r : allowed p -> path_parent p = Some d -> within (mutate (fun fs => create_directory fs d r)).
Proof.
  intros Hp Hd s. unfold mutate. pose proof (touches_parent s.1 s.1 p d r (touches_nothing _) Hp Hd) as Ht.
  by destruct (create_directory s.1 d r).
Qed.
Lemma within_remove p r f : allowed p -> within (mutate (fun fs => remove fs p r f)).
Proof.
  intros Hp s. unfold mutate. pose proof (touches_remove s.1 s.1 p r f (touches_nothing _) Hp) as Ht.
  by destruct (remove s.1 p r f).
Qed.

Create HintDb within discriminated.
Hint Resolve within_ret within_fail within_ask within_set_exact within_push_change within_change_count
  within_set_change within_lift_io within_lift_patch within_try_write within_write within_create within_remove : within.

(** Take a computation apart to its primitive steps. *)
Ltac solve_within :=
  repeat (auto with within;
    match goal with
    | |- within (try_write _) => apply within_try_write
    | |- within (bind _ _) => apply within_bind; [|intros ?]
    | |- within (match ?x with _ => _ end) => destruct x eqn:?
    end); eauto with within.

Lemma within_read_optional p : within (read_optional_file_text_for_delta p).
Proof. unfold read_optional_file_text_for_delta, note_existing_path_delta_support. solve_within. Qed.
Lemma within_write_retry p c : allowed p -> within (write_file_with_missing_parent_retry p c).
Proof. intros Hp. unfold write_file_with_missing_parent_retry. solve_within. Qed.
Lemma within_remove_or_note p expected context : allowed p -> within (remove_or_note p expected context).
Proof. intros Hp. unfold remove_or_note, remove_failure_was_side_effect_free. solve_within. Qed.
Hint Resolve within_read_optional within_write_retry within_remove_or_note : within.

(** The paths a hunk writes or removes. *)
Definition hunk_dest (cwd : str) (h : Hunk) : option AbsolutePathBuf :=
  match h with
  | UpdateFile _ (Some dest) _ => Some (resolve_path_against_base home dest cwd)
  | _ => None
  end.
Definition hunk_allowed (cwd : str) (h : Hunk) : Prop :=
  allowed (resolve_path home h cwd) /\ forall dest, hunk_dest cwd h = Some dest -> allowed dest.

Lemma within_apply_hunk cwd h a : hunk_allowed cwd h -> within (apply_hunk home cwd h a).
Proof.
  intros [Hs Hd]. unfold apply_hunk, note_existing_path_delta_support, ensure_not_directory,
    derive_new_contents_from_chunks.
  destruct h as [path contents|path|path [dest|] chunks].
  - solve_within.
  - solve_within.
  - assert (allowed (resolve_path_against_base home dest cwd)) as Hdest by (by apply Hd). solve_within.
  - solve_within.
Qed.

Lemma within_apply_hunks cwd hunks : Forall (hunk_allowed cwd) hunks -> within (apply_hunks_to_files home cwd hunks).
Proof.
  intros Hall. unfold apply_hunks_to_files. destruct (is_nil hunks); [apply within_fail|].
  generalize (mkAffected [] [] []). induction Hall as [|h hunks Hh _ IH]; intros a; cbn [apply_hunk_loop]; [apply within_ret|].
  apply within_bind; [by apply within_apply_hunk|done].
Qed.

Lemma apply_patch_touches {W} (writeln : W -> str -> W * io_result unit) patch cwd stdout stderr fs args :
  parse_patch patch = Ok args -> Forall (hunk_allowed cwd) (args_hunks args) ->
  touches fs (apply_patch home writeln patch cwd stdout stderr fs).1.1.1.
Proof.
  intros Hp Hall. unfold apply_patch, apply_hunks. rewrite Hp.
  pose proof (within_apply_hunks cwd (args_hunks args) Hall (fs, delta_empty)) as Ht.
  destruct (apply_hunks_to_files home cwd (args_hunks args) (fs, delta_empty)) as [[fs' delta] r]. cbn [fst] in Ht.
  destruct r; [destruct (print_summary writeln _ stdout)|destruct (writeln stderr _)| |]; exact Ht.
Qed.
End touches.

(** ** A patch read again *)

Lemma trim_split s t : trim s = t -> t <> [] ->
  exists w1 w2, s = w1 ++ t ++ w2 /\ Forall (fun c => is_whitespace c = true) w1 /\ Forall (fun c => is_whitespace c = true) w2.
Proof.
  intros <- _. unfold trim. destruct (trim_start_matches_suffix is_whitespace s) as (w1 & E1 & F1).
  destruct (trim_end_matches_prefix is_whitespace (trim_start s)) as (w2 & E2 & F2).
  exists w1, w2. split; [|done]. rewrite E1 at 1. f_equal. exact E2.
Qed.

Lemma strict_boundaries ls kept inner :
  check_patch_boundaries_strict ls = Ok (kept, inner) <->
  kept = ls /\ exists first last, ls = first :: inner ++ [last] /\ trim first = BEGIN_PATCH_MARKER /\ trim last = END_PATCH_MARKER.
Proof.
  unfold check_patch_boundaries_strict, check_start_and_end_lines_strict. split.
  - destruct ls as [|f ls]; [done|]. destruct ls as [|l ls _] using rev_ind; cbn [fmap option_fmap option_map last].
    { destruct (is_some_and _ _); cbn; [done|]. by destruct (negb _). }
    rewrite (last_cons f (ls ++ [l])), last_snoc. cbn [fmap option_fmap option_map is_some_and].
    destruct (str_eqb (trim f) BEGIN_PATCH_MARKER) eqn:E1; cbn [andb negb]; [|done].
    destruct (str_eqb (trim l) END_PATCH_MARKER) eqn:E2; cbn [rbind]; [|done].
    apply bool_decide_eq_true in E1, E2. unfold strip_ends. cbn [length]. rewrite length_app. cbn [length].
    replace (2 <=? S (length ls + 1)) with true by lia. cbn [rbind drop].
    replace (S (length ls + 1) - 2) with (length ls) by lia. rewrite drop_0, take_app_length. intros [= <- <-].
    split; [done|]. by exists f, l.
  - intros (-> & f & l & -> & E1 & E2). rewrite (last_cons f (inner ++ [l])), last_snoc.
    cbn [fmap option_fmap option_map is_some_and]. rewrite E1, E2.
    replace (str_eqb BEGIN_PATCH_MARKER BEGIN_PATCH_MARKER && str_eqb END_PATCH_MARKER END_PATCH_MARKER) with true by (vm_compute; reflexivity).
    cbn [rbind]. unfold strip_ends. cbn [length]. rewrite length_app. cbn [length].
    replace (2 <=? S (length inner + 1)) with true by lia. cbn [rbind drop].
    replace (S (length inner + 1) - 2) with (length inner) by lia. by rewrite drop_0, take_app_length.
Qed.

Lemma lines_no_LF s : Forall (fun l => LF ∉ l) (lines s).
Proof.
  unfold lines. pose proof (split_char_no_sep LF s) as Hall. induction Hall as [|p ps Hp Hps IH]; [constructor|].
  cbn [finish_lines]. destruct ps as [|q ps]; [destruct (is_nil p); by repeat constructor|]. constructor; [|exact IH].
  unfold strip_cr. destruct (strip_suffix [CR] p) as [r|] eqn:E; [|done]. apply strip_suffix_Some in E as ->. cbn. set_solver.
Qed.

Lemma join_elem sep ls l c : l ∈ ls -> c ∈ l -> c ∈ join sep ls.
Proof.
  intros Hl Hc. induction ls as [|x ls IH]; [by apply elem_of_nil in Hl|]. cbn [join]. destruct ls as [|y ls].
  - apply list_elem_of_singleton in Hl as ->. done.
  - apply elem_of_cons in Hl as [->|Hl]; [set_solver|]. specialize (IH Hl). set_solver.
Qed.

Lemma line_ok_plain l : LF ∉ l -> CR ∉ l -> line_ok l.
Proof.
  intros Hl Hc. split; [done|]. destruct (strip_suffix [CR] l) as [r|] eqn:E; [|done].
  apply strip_suffix_Some in E as ->. set_solver.
Qed.

(** The lines that are kept, and how they are read from their text. *)
Lemma kept_lines_again first inner last :
  trim first = BEGIN_PATCH_MARKER -> trim last = END_PATCH_MARKER ->
  Forall (fun l => LF ∉ l /\ CR ∉ l) (first :: inner ++ [last]) ->
  exists first' last', lines (trim (join [LF] (first :: inner ++ [last]))) = first' :: inner ++ [last']
    /\ trim first' = BEGIN_PATCH_MARKER /\ trim last' = END_PATCH_MARKER.
Proof.
  intros Ef El Hok.
  apply trim_split in Ef as (w1 & w2 & -> & F1 & F2); [|done]. apply trim_split in El as (w3 & w4 & -> & F3 & F4); [|done].
  exists (BEGIN_PATCH_MARKER ++ w2), (w3 ++ END_PATCH_MARKER).
  assert (trim (join [LF] ((w1 ++ BEGIN_PATCH_MARKER ++ w2) :: inner ++ [w3 ++ END_PATCH_MARKER ++ w4]))
          = join [LF] ((BEGIN_PATCH_MARKER ++ w2) :: inner ++ [w3 ++ END_PATCH_MARKER])) as ->.
  { rewrite !(app_comm_cons inner), !join_unlines.
    change (unlines (?x :: inner)) with ((x ++ [LF]) ++ unlines inner).
    rewrite <- !app_assoc.
    set (body := BEGIN_PATCH_MARKER ++ w2 ++ [LF] ++ unlines inner ++ w3 ++ END_PATCH_MARKER).
    replace (w1 ++ _) with (w1 ++ body ++ w4) by (unfold body; by rewrite <- !app_assoc).
    apply trim_surround; [done|done|apply trim_solid|done].
    - done.
    - unfold body. rewrite !app_assoc. by apply trimmed_end_app. }
  rewrite Forall_cons, Forall_app, Forall_singleton in Hok. destruct Hok as ([H1 H2] & Hin & [H3 H4]).
  split; [apply lines_join|].
  - constructor; [apply line_ok_plain; set_solver|]. apply Forall_app. split.
    + eapply Forall_impl; [exact Hin|]. intros l []. by apply line_ok_plain.
    + constructor; [apply line_ok_plain; set_solver|constructor].
  - rewrite app_comm_cons, last_snoc. intros [= E]. by apply app_eq_nil in E as [_ E].
  - split.
    + rewrite <- (app_nil_l (BEGIN_PATCH_MARKER ++ w2)). by apply trim_surround.
    + rewrite <- (app_nil_r (w3 ++ END_PATCH_MARKER)), <- app_assoc. by apply trim_surround.
Qed.

Lemma lenient_boundaries ls kept inner :
  check_patch_boundaries_lenient ls = Ok (kept, inner) ->
  (forall l, l ∈ kept -> l ∈ ls)
  /\ exists first last, kept = first :: inner ++ [last] /\ trim first = BEGIN_PATCH_MARKER /\ trim last = END_PATCH_MARKER.
Proof.
  unfold check_patch_boundaries_lenient. destruct (check_patch_boundaries_strict ls) as [[k i]|e| |] eqn:E; try done.
  { intros [= -> ->]. apply strict_boundaries in E as [-> E]. done. }
  destruct ls as [|f [|g rest]]; try done. destruct (_ && _ && _); [|done]. set (ls := f :: g :: rest) in *.
  unfold strip_ends. destruct (2 <=? length ls); [|done]. cbn [rbind]. intros [-> H]%strict_boundaries. split; [|done].
  intros l Hl%elem_of_take. destruct Hl as (i & Hl & _). rewrite lookup_drop in Hl. by eapply list_elem_of_lookup_2.
Qed.

Lemma parse_patch_again patch args :
  parse_patch patch = Ok args -> CR ∉ args_patch args ->
  exists args', parse_patch (args_patch args) = Ok args' /\ args_hunks args' = args_hunks args.
Proof.
  unfold parse_patch, parse_patch_text. cbn [PARSE_IN_STRICT_MODE].
  destruct (check_patch_boundaries_lenient (lines (trim patch))) as [[kept inner]| | |] eqn:E; cbn [rbind]; try done.
  destruct (hunk_loop _ inner 2 []) as [hunks| | |] eqn:Eh; cbn [rbind]; try done. intros [= <-] Hcr. cbn [args_patch] in *.
  apply lenient_boundaries in E as (Hin & first & last & -> & Ef & El).
  destruct (kept_lines_again first inner last Ef El) as (first' & last' & -> & Ef' & El').
  { apply Forall_forall. intros l Hl. split.
    - pose proof (lines_no_LF (trim patch)) as Hno. rewrite Forall_forall in Hno. by apply Hno, Hin.
    - intros Hc. apply Hcr. by eapply join_elem. }
  assert (check_patch_boundaries_strict (first' :: inner ++ [last']) = Ok (first' :: inner ++ [last'], inner)) as Es
    by (apply strict_boundaries; split; [done|by exists first', last']).
  unfold check_patch_boundaries_lenient. rewrite Es. cbn [rbind]. rewrite Eh. cbn [rbind]. by eexists.
Qed.
