(* ===== verification/PatchApproval.v ===== *)
(** * Approving patches (core/src/safety.rs, core/src/apply_patch.rs)

    Whether a patch is applied unasked, after asking, or not at all, and what
    applying it then touches: the check of the changes against the policy and the
    run on the file system together. *)

From S2P Require Import Prelude RustStr PatchParser PatchApply AbsolutePath PatchFs PatchDelta ShellParse PatchInvocation PatchTouches SandboxPaths Permissions PermissionSafety PermissionProfiles ExecApproval ToolOrchestrator.

Definition PATCH_REJECTED_OUTSIDE_PROJECT_REASON : str :=
  L"writing outside of the project; rejected by user approval settings".
Definition PATCH_REJECTED_READ_ONLY_REASON : str :=
  L"writing is blocked by read-only sandbox; rejected by user approval settings".

Inductive SafetyCheck :=
| AutoApprove (sandbox_type : SandboxType) (user_explicitly_approved : bool)
| AskUser
| Reject (reason : str).

(** [resolve_path] of core/src/util.rs. *)
Definition resolve_path_from (base path : Path) : list Component :=
  if path_is_absolute path then path else base ++ path.

(** [normalize] of [is_write_patch_constrained_to_writable_paths]. *)
Definition normalize (path : Path) : list Component := foldl normalize_step [] path.

Section safety.
Context (env : Env) (os : TargetOs).

Definition patch_path_writable (p : FileSystemSandboxPolicy) (cwd path : Path) : bool :=
  can_write_path_with_cwd env p (normalize (resolve_path_from cwd path)) cwd.

Definition is_write_patch_constrained_to_writable_paths (action : ApplyPatchAction)
  (p : FileSystemSandboxPolicy) (cwd : Path) : bool :=
  forallb (fun '(path, change) =>
    match change with
    | PatchAdd _ | PatchDelete _ => patch_path_writable p cwd path
    | PatchUpdate _ move_path _ =>
        patch_path_writable p cwd path
        && match move_path with Some dest => patch_path_writable p cwd dest | None => true end
    end) (action_changes action).

Definition patch_rejection_reason (profile : PermissionProfile) (p : FileSystemSandboxPolicy) (cwd : Path) : str :=
  match profile with
  | Managed _ _ =>
      if negb (has_full_disk_write_access p) && is_nil (get_writable_roots_with_cwd env p cwd)
      then PATCH_REJECTED_READ_ONLY_REASON else PATCH_REJECTED_OUTSIDE_PROJECT_REASON
  | Disabled | External _ => PATCH_REJECTED_OUTSIDE_PROJECT_REASON
  end.

Definition rejects_patch_approval (policy : AskForApproval) : bool :=
  match policy with
  | Never => true
  | Granular granular_config => negb (sandbox_approval granular_config)
  | _ => false
  end.

Definition assess_patch_safety (action : ApplyPatchAction) (policy : AskForApproval) (profile : PermissionProfile)
  (p : FileSystemSandboxPolicy) (cwd : Path) (windows_sandbox_enabled : bool) : SafetyCheck :=
  if action_is_empty action then Reject (L"empty patch")
  else
    match policy with
    | UnlessTrusted => AskUser
    | _ =>
        let ask_or_reject :=
          if rejects_patch_approval policy then Reject (patch_rejection_reason profile p cwd) else AskUser in
        if is_write_patch_constrained_to_writable_paths action p cwd
           || match policy with OnFailure => true | _ => false end
        then
          match profile with
          | Disabled | External _ => AutoApprove SandboxNone false
          | Managed _ _ =>
              match get_platform_sandbox os windows_sandbox_enabled with
              | Some sandbox_type => AutoApprove sandbox_type false
              | None => ask_or_reject
              end
          end
        else ask_or_reject
    end.

(** ** The tool (apply_patch.rs) *)

Record ApplyPatchRuntimeInvocation := mkInvocation {
  invocation_action : ApplyPatchAction;
  auto_approved : bool;
  exec_approval_requirement : ExecApprovalRequirement }.

Inductive InternalApplyPatchInvocation :=
| Output (error : str)
| DelegateToRuntime (invocation : ApplyPatchRuntimeInvocation).

Definition apply_patch_tool (policy : AskForApproval) (profile : PermissionProfile) (cwd : Path)
  (windows_sandbox_enabled : bool) (p : FileSystemSandboxPolicy) (action : ApplyPatchAction)
  : InternalApplyPatchInvocation :=
  match assess_patch_safety action policy profile p cwd windows_sandbox_enabled with
  | AutoApprove _ user_explicitly_approved =>
      DelegateToRuntime (mkInvocation action (negb user_explicitly_approved) (Skip false None))
  | AskUser => DelegateToRuntime (mkInvocation action false (NeedsApproval None None))
  | Reject reason => Output (L"patch rejected: " ++ reason)
  end.
End safety.

(** What is shown to the one who is asked. *)
Inductive FileChange :=
| FileChangeAdd (content : str)
| FileChangeDelete (content : str)
| FileChangeUpdate (unified_diff : str) (move_path : option (list Component)).

Definition convert_apply_patch_to_protocol (action : ApplyPatchAction) : list (AbsolutePathBuf * FileChange) :=
  (fun '(path, change) => (path, match change with
                                 | PatchAdd content => FileChangeAdd content
                                 | PatchDelete content => FileChangeDelete content
                                 | PatchUpdate unified_diff move_path _ => FileChangeUpdate unified_diff move_path
                                 end)) <$> action_changes action.

(** ** What is checked is what is touched *)

Lemma normalize_ok path : abs_ok path -> normalize path = path.
Proof.
  intros [[names ->] _]. unfold normalize. cbn [foldl normalize_step path_push].
  assert (forall buf, foldl normalize_step buf (Normal <$> names) = buf ++ (Normal <$> names)) as H; [|apply H].
  induction names as [|n names IH]; intros buf; cbn; [by rewrite app_nil_r|]. by rewrite IH, <- app_assoc.
Qed.

Lemma patch_path_writable_ok env p cwd path :
  abs_ok path -> patch_path_writable env p cwd path = can_write_path_with_cwd env p path cwd.
Proof.
  intros Hp. unfold patch_path_writable, resolve_path_from. by rewrite abs_ok_is_absolute, normalize_ok by done.
Qed.

Lemma resolved_against_ok home text base : abs_ok base -> abs_ok (resolve_path_against_base home text (display base)).
Proof.
  intros Hb. split; [by apply absolutize_from_absolute, display_absolute|apply normalize_path_valid].
Qed.

Lemma insert_change_here path c m : (path, c) ∈ insert_change path c m.
Proof.
  induction m as [|[r e] m IH]; cbn [insert_change]; [by left|]. destruct (decide (r = path)) as [->|]; [by left|by right].
Qed.
Lemma insert_change_keeps path c m q d : q <> path -> (q, d) ∈ m -> (q, d) ∈ insert_change path c m.
Proof.
  intros Hq. induction m as [|[r e] m IH]; cbn [insert_change]; [intros Hin; by apply elem_of_nil in Hin|].
  intros [[= -> ->]|Hin]%elem_of_cons; [rewrite decide_False by done; by left|].
  destruct (decide (r = path)); right; [done|by apply IH].
Qed.

Section checked.
Context {FS : Type} `{ExecutorFileSystem FS} (env : Env).
Context (bash_query : str -> ExtractHeredocError + list (list (str * str))) (text_diff : str -> str -> str).

Abbreviation home := (home_dir env).
Abbreviation source cwd := (fun h => resolve_path home h (display cwd)).

Lemma changes_of_hunks_elem fs cwd hunks : forall changes out,
  changes_of_hunks home text_diff fs cwd hunks changes = Ok out -> NoDup (source cwd <$> hunks) ->
  (forall q d, (q, d) ∈ changes -> q ∉ source cwd <$> hunks -> (q, d) ∈ out)
  /\ forall h, h ∈ hunks -> exists c, change_of_hunk home text_diff fs cwd h = Ok c /\ (source cwd h, c) ∈ out.
Proof.
  induction hunks as [|h hunks IH]; intros changes out; cbn [changes_of_hunks].
  { intros [= <-] _. split; [done|]. intros h Hh. by apply elem_of_nil in Hh. }
  destruct (change_of_hunk home text_diff fs cwd h) as [c| | |] eqn:Ec; cbn [rbind]; try done.
  intros E [Hh Hnd]%NoDup_cons. destruct (IH _ _ E Hnd) as [Hkeep Hall]. split.
  - intros q d Hq Hn. apply Hkeep; [|set_solver]. apply insert_change_keeps; [|done]. set_solver.
  - intros h' [->|Hin]%elem_of_cons; [|by apply Hall]. exists c. split; [done|].
    apply Hkeep; [apply insert_change_here|done].
Qed.

(** What the check says of a hunk that is among the changes. *)
Lemma constrained_hunk_allowed fs action p cwd hunks :
  abs_ok (action_cwd action) ->
  changes_of_hunks home text_diff fs (action_cwd action) hunks [] = Ok (action_changes action) ->
  NoDup (source (action_cwd action) <$> hunks) ->
  is_write_patch_constrained_to_writable_paths env action p cwd = true ->
  Forall (hunk_allowed home (fun path => can_write_path_with_cwd env p path cwd = true) (display (action_cwd action))) hunks.
Proof.
  intros Hcwd E Hnd Hc. destruct (changes_of_hunks_elem _ _ _ _ _ E Hnd) as [_ Hall].
  apply Forall_forall. intros h Hh. destruct (Hall h Hh) as (c & Ec & Hin).
  unfold is_write_patch_constrained_to_writable_paths in Hc. rewrite forallb_forall in Hc.
  specialize (Hc _ (proj1 (list_elem_of_In _ _) Hin)). cbn beta iota in Hc. unfold hunk_allowed.
  assert (forall text, abs_ok (resolve_path_against_base home text (display (action_cwd action)))) as Hok
    by (intros text; by apply resolved_against_ok).
  assert (abs_ok (resolve_path home h (display (action_cwd action)))) as Hs by apply Hok.
  destruct h as [path contents|path|path move chunks]; cbn [change_of_hunk hunk_dest] in *.
  - injection Ec as <-. rewrite patch_path_writable_ok in Hc by done. split; [done|]. by intros dest.
  - destruct (read_file_text fs _); [|done]. injection Ec as <-. rewrite patch_path_writable_ok in Hc by done.
    split; [done|]. by intros dest.
  - destruct (unified_diff_from_chunks text_diff fs _ chunks) as [u| | |]; cbn [rbind] in Ec; try done. injection Ec as <-.
    apply andb_true_iff in Hc as [Hc Hd]. rewrite patch_path_writable_ok in Hc by done. split; [done|].
    destruct move as [dest|]; [|done]. cbn in Hd. rewrite patch_path_writable_ok in Hd by done. by intros d [= <-].
Qed.

(** A body that is recognised is a parsed patch, perhaps with a working directory. *)
Definition from_patch (args : ApplyPatchArgs) : Prop :=
  exists text args', parse_patch text = Ok args' /\ args_patch args' = args_patch args /\ args_hunks args' = args_hunks args.

Lemma parsed_from_patch text ok args :
  (forall a, exists b, ok a = MaybeBody b /\ args_patch a = args_patch b /\ args_hunks a = args_hunks b) ->
  parsed text ok MaybePatchParseError = Ok (MaybeBody args) -> from_patch args.
Proof.
  intros Hok. unfold parsed. destruct (parse_patch text) as [a| | |] eqn:E; try done.
  destruct (Hok a) as (b & -> & H1 & H2). intros [= <-]. by exists text, a.
Qed.

Lemma shell_from_patch argv args : maybe_parse_shell bash_query argv = Ok (MaybeBody args) -> from_patch args.
Proof.
  unfold maybe_parse_shell. destruct (parse_shell_script argv) as [[shell script]|]; [|done].
  destruct (extract_apply_patch_from_shell bash_query shell script) as [[]|[body workdir]]; try done.
  apply parsed_from_patch. intros a. by eexists.
Qed.

Lemma body_from_patch argv args : maybe_parse_apply_patch bash_query argv = Ok (MaybeBody args) -> from_patch args.
Proof.
  unfold maybe_parse_apply_patch. destruct argv as [|cmd [|body [|]]]; try by apply shell_from_patch.
  destruct (bool_decide (cmd ∈ APPLY_PATCH_COMMANDS)); [|by apply shell_from_patch].
  apply parsed_from_patch. intros a. by exists a.
Qed.

(** A verified action comes from the hunks of a parsed patch. *)
Lemma verified_action fs argv cwd action :
  maybe_parse_apply_patch_verified home bash_query text_diff fs argv cwd = Ok (VerifiedBody action) -> abs_ok cwd ->
  abs_ok (action_cwd action) /\ exists text args, parse_patch text = Ok args /\ action_patch action = args_patch args
    /\ changes_of_hunks home text_diff fs (action_cwd action) (args_hunks args) [] = Ok (action_changes action).
Proof.
  unfold maybe_parse_apply_patch_verified. destruct (is_implicit_invocation argv); [done|].
  destruct (maybe_parse_apply_patch bash_query argv) as [[args| | |]| | |] eqn:Em; cbn [rbind]; try done.
  set (effective := match args_workdir args with Some _ => _ | None => _ end).
  destruct (changes_of_hunks home text_diff fs effective (args_hunks args) []) as [changes| | |] eqn:Ec; try done.
  intros [= <-] Hcwd. cbn [action_cwd action_patch action_changes]. split.
  - unfold effective. destruct (args_workdir args); [by apply resolved_against_ok|done].
  - destruct (body_from_patch argv args Em) as (text & args' & Hp & E1 & E2). exists text, args'. by rewrite E2.
Qed.

(** An approval without asking means the changes were constrained, unless approval is
    asked for on failure only. *)
Lemma auto_approve_constrained os action policy profile p cwd windows sandbox_type user :
  assess_patch_safety env os action policy profile p cwd windows = AutoApprove sandbox_type user -> policy <> OnFailure ->
  is_write_patch_constrained_to_writable_paths env action p cwd = true.
Proof.
  unfold assess_patch_safety. destruct (action_is_empty action); [done|]. intros E Hp.
  destruct (is_write_patch_constrained_to_writable_paths env action p cwd); [done|].
  destruct policy; try done; cbn [orb] in E; by destruct (rejects_patch_approval _).
Qed.
End checked.

(** ** What is shown is what is done *)

Section shown.
Context {FS : Type} `{FileSystemLaws FS} (env : Env) (text_diff : str -> str -> str).

Abbreviation home := (home_dir env).
Definition hunk_paths (cwd : Path) (h : Hunk) : list (list Component) :=
  resolve_path home h (display cwd) :: option_list (hunk_dest home (display cwd) h).

(** The texts after a change that was shown. *)
Definition shown_done (path : list Component) (c : ApplyPatchFileChange) (v : texts) : Prop :=
  match c with
  | PatchAdd content => v path = Some content
  | PatchDelete _ => v path = None
  | PatchUpdate _ None new_content => v path = Some new_content
  | PatchUpdate _ (Some dest) new_content => v path = None /\ v dest = Some new_content
  end.

Lemma insert_change_from path c m q d : (q, d) ∈ insert_change path c m -> (q = path /\ d = c) \/ (q, d) ∈ m.
Proof.
  induction m as [|[r e] m IH]; cbn [insert_change]; [intros [= -> ->]%list_elem_of_singleton; by left|].
  destruct (decide (r = path)) as [->|]; rewrite !elem_of_cons; naive_solver.
Qed.

Lemma changes_of_hunks_from (fs : FS) cwd hunks : forall changes out q d,
  changes_of_hunks home text_diff fs cwd hunks changes = Ok out -> (q, d) ∈ out ->
  (q, d) ∈ changes \/ exists h, h ∈ hunks /\ q = resolve_path home h (display cwd) /\ change_of_hunk home text_diff fs cwd h = Ok d.
Proof.
  induction hunks as [|h hunks IH]; intros changes out q d; cbn [changes_of_hunks]; [intros [= <-]; by left|].
  destruct (change_of_hunk home text_diff fs cwd h) as [c| | |] eqn:Ec; cbn [rbind]; try done.
  intros E Hin. destruct (IH _ _ _ _ E Hin) as [[[-> ->]|?]%insert_change_from|(h' & ? & ?)]; [right|by left|right].
  - exists h. split; [by left|done].
  - exists h'. split; [by right|done].
Qed.

Lemma do_change_elsewhere cwd h v c q :
  hunk_change home (display cwd) h v = Some c -> q ∉ hunk_paths cwd h -> do_change c v q = v q.
Proof.
  unfold hunk_change, hunk_paths. intros Hc Hq. destruct h as [path contents|path|path move chunks]; cbn [hunk_dest] in Hq.
  - injection Hc as <-. unfold do_change, upd. cbn. rewrite decide_False by set_solver. done.
  - apply fmap_Some in Hc as (t & _ & ->). unfold do_change, upd. cbn. rewrite decide_False by set_solver. done.
  - destruct (v (resolve_path home (UpdateFile path move chunks) (display cwd))) as [old|]; [|done]. cbn in Hc.
    destruct (new_contents_from_chunks _ old chunks); try done. injection Hc as <-.
    destruct move as [dest|]; unfold do_change, upd; cbn; rewrite !decide_False by set_solver; done.
Qed.

(** A hunk does what was shown of it, if its file is still as it was. *)
Lemma hunk_does_shown (fs : FS) cwd h v c d :
  hunk_change home (display cwd) h v = Some c -> change_of_hunk home text_diff fs cwd h = Ok d ->
  v (resolve_path home h (display cwd)) = view fs (resolve_path home h (display cwd)) -> NoDup (hunk_paths cwd h) ->
  shown_done (resolve_path home h (display cwd)) d (do_change c v).
Proof.
  intros Hc Hd Hv Hnd. unfold hunk_change in Hc. destruct h as [path contents|path|path move chunks]; cbn [change_of_hunk] in Hd.
  - injection Hc as <-. injection Hd as <-. unfold do_change, upd. cbn. by rewrite decide_True.
  - apply fmap_Some in Hc as (t & _ & ->). destruct (read_file_text fs _); [|done]. injection Hd as <-.
    unfold do_change, upd. cbn. by rewrite decide_True.
  - rewrite Hv in Hc. unfold view, unified_diff_from_chunks in *.
    destruct (read_file_text fs (resolve_path home (UpdateFile path move chunks) (display cwd))) as [old|]; [|done].
    cbn [mbind option_bind] in Hc. destruct (new_contents_from_chunks _ old chunks) as [new| | |]; try done. cbn [rbind] in Hd.
    injection Hc as <-. injection Hd as <-. unfold hunk_paths in Hnd. cbn [hunk_dest] in Hnd.
    destruct move as [dest|]; unfold do_change, upd; cbn.
    + rewrite decide_True by done. split; [done|]. rewrite decide_False, decide_True; [done|done|]. cbn in Hnd.
      apply NoDup_cons in Hnd as [Hne _]. set_solver.
    + by rewrite decide_True.
Qed.

Lemma shown_done_ext path c (v v' : texts) :
  shown_done path c v -> v' path = v path ->
  (forall u dest n, c = PatchUpdate u (Some dest) n -> v' dest = v dest) -> shown_done path c v'.
Proof. unfold shown_done. destruct c as [| |u [dest|] n]; intros Hs Hp Hd; rewrite ?Hp, ?(Hd _ _ _ eq_refl); done. Qed.
Lemma replay_elsewhere cwd hunks : forall v cs q,
  hunks_changes home (display cwd) hunks v = Some cs -> q ∉ concat (hunk_paths cwd <$> hunks) -> replay cs v q = v q.
Proof.
  induction hunks as [|h hunks IH]; intros v cs q; cbn [hunks_changes]; [by intros [= <-]|].
  destruct (hunk_change home (display cwd) h v) as [c|] eqn:Ec; [|done]. cbn [mbind option_bind].
  destruct (hunks_changes home (display cwd) hunks (do_change c v)) as [cs'|] eqn:E; [|done]. intros [= <-] Hq.
  cbn [fmap list_fmap concat] in Hq. apply not_elem_of_app in Hq as [H1 H2].
  change (replay (c :: cs') v q) with (replay cs' (do_change c v) q). rewrite (IH _ _ _ E H2).
  by eapply do_change_elsewhere.
Qed.

Lemma hunks_do_shown (fs : FS) cwd hunks : forall v cs,
  hunks_changes home (display cwd) hunks v = Some cs -> NoDup (concat (hunk_paths cwd <$> hunks)) ->
  (forall q, q ∈ concat (hunk_paths cwd <$> hunks) -> v q = view fs q) ->
  forall h d, h ∈ hunks -> change_of_hunk home text_diff fs cwd h = Ok d ->
    shown_done (resolve_path home h (display cwd)) d (replay cs v).
Proof.
  induction hunks as [|h hunks IH]; intros v cs; cbn [hunks_changes]; [intros _ _ _ h d Hh; by apply elem_of_nil in Hh|].
  destruct (hunk_change home (display cwd) h v) as [c|] eqn:Ec; [|done]. cbn [mbind option_bind].
  destruct (hunks_changes home (display cwd) hunks (do_change c v)) as [cs'|] eqn:E; [|done]. intros [= <-].
  cbn [fmap list_fmap concat]. intros (Hnd & Hdis & Hnd')%NoDup_app Hv h' d Hh Hd.
  change (replay (c :: cs') v) with (replay cs' (do_change c v)).
  apply elem_of_cons in Hh as [->|Hh].
  - assert (forall q, q ∈ hunk_paths cwd h -> replay cs' (do_change c v) q = do_change c v q) as Hsame
      by (intros q Hq; eapply replay_elsewhere; [exact E|by apply Hdis]).
    eapply shown_done_ext; [eapply hunk_does_shown; [exact Ec|exact Hd|apply Hv; apply elem_of_app; left; by left|done]| |].
    + apply Hsame. by left.
    + intros u dest n ->. apply Hsame. unfold hunk_paths. right. destruct h as [| |path [m|] chunks]; cbn in Hd |- *; try done.
      * by destruct (read_file_text fs _).
      * destruct (unified_diff_from_chunks _ _ _ _); [|done..]. injection Hd as _ <- _. by left.
      * by destruct (unified_diff_from_chunks _ _ _ _).
  - eapply IH; [exact E|done| |done|done]. intros q Hq. rewrite <- Hv by (apply elem_of_app; by right).
    eapply do_change_elsewhere; [exact Ec|]. intros Hin. by eapply Hdis.
Qed.
End shown.

(** ** Theorems *)

(** C4: A patch applied unasked stays within the policy.  When a command that calls
    [apply_patch] is verified, the patch is approved without asking and approval is
    not set to failures only, then running the patch, on whatever file system it then
    meets, writes and removes only paths the policy lets be written, and creates only
    their parents; provided the patch has no carriage returns and no two hunks name
    the same file. *)
Theorem auto_approved_patch_within_policy {FS W} `{ExecutorFileSystem FS} env os bash_query text_diff
    (fs fs0 : FS) argv cwd turn_cwd action policy profile p windows sandbox_type user
    (writeln : W -> str -> W * (unit + io_error)) stdout stderr :
  abs_ok cwd ->
  maybe_parse_apply_patch_verified (home_dir env) bash_query text_diff fs argv cwd = Ok (VerifiedBody action) ->
  assess_patch_safety env os action policy profile p turn_cwd windows = AutoApprove sandbox_type user ->
  policy <> OnFailure -> CR ∉ action_patch action ->
  (forall args, parse_patch (action_patch action) = Ok args ->
     NoDup ((fun h => resolve_path (home_dir env) h (display (action_cwd action))) <$> args_hunks args)) ->
  touches (fun path => can_write_path_with_cwd env p path turn_cwd = true) fs0
    (apply_patch (home_dir env) writeln (action_patch action) (display (action_cwd action)) stdout stderr fs0).1.1.1.
Proof.
  intros Hcwd Hv Ha Hpol Hcr Hnd.
  destruct (verified_action env bash_query text_diff fs argv cwd action Hv Hcwd) as (Hok & text & args & Hp & Ep & Ec).
  rewrite Ep in Hcr. destruct (parse_patch_again text args Hp Hcr) as (args' & Hp' & Eh). rewrite <- Ep in Hp'.
  eapply apply_patch_touches; [exact Hp'|]. rewrite Eh.
  eapply constrained_hunk_allowed; [exact Hok|exact Ec| |by eapply auto_approve_constrained].
  rewrite <- Eh. by apply Hnd.
Qed.


(** ** Examples *)

Definition patch_tree : MemFs.t :=
  MemFs.mk {[ components (L"/ws/a") := L"one" ++ [LF]; components (L"/ws/gone") := L"x" ++ [LF] ]}
           (list_to_set (components <$> [L"/"; L"/ws"])).
Definition no_query (script : str) : ExtractHeredocError + list (list (str * str)) := inl FailedToParsePatchIntoAst.
Definition no_diff (old new : str) : str := new.

Definition verified (patch : str) : option ApplyPatchAction :=
  match maybe_parse_apply_patch_verified None no_query no_diff patch_tree [L"apply_patch"; patch] ws with
  | Ok (VerifiedBody action) => Some action
  | _ => None
  end.
Definition action_of (patch : str) : ApplyPatchAction := default (mkAction [] [] []) (verified patch).
Lemma action_of_verified patch :
  is_none (verified patch) = false ->
  maybe_parse_apply_patch_verified None no_query no_diff patch_tree [L"apply_patch"; patch] ws = Ok (VerifiedBody (action_of patch)).
Proof. unfold action_of, verified. destruct (maybe_parse_apply_patch_verified _ _ _ _ _ _) as [[]| | |]; done. Qed.

Definition run_of (action : ApplyPatchAction) :=
  apply_patch None sink (action_patch action) (display (action_cwd action)) [] [] patch_tree.
Definition write_ws : FileSystemSandboxPolicy :=
  restricted [mkEntry (Special Root) AccessRead; mkEntry (PathEntry ws) AccessWrite].
Definition workspace_profile : PermissionProfile := Managed (ManagedRestricted [] None) NetRestricted.

(** A file that is renamed and changed, one that is removed and one that is added. *)
Definition three_hunks : str :=
  unlines [L"*** Begin Patch"; L"*** Update File: a"; L"*** Move to: d/b"; L"@@"; L"-one"; L"+two";
           L"*** Delete File: gone"; L"*** Add File: n"; L"+new"; L"*** End Patch"].

Lemma three_hunks_paths args :
  parse_patch (action_patch (action_of three_hunks)) = Ok args ->
  NoDup (concat (hunk_paths plain_env (action_cwd (action_of three_hunks)) <$> args_hunks args))
  /\ NoDup ((fun h => resolve_path None h (display (action_cwd (action_of three_hunks)))) <$> args_hunks args).
Proof.
  intros E. vm_compute in E. injection E as <-.
  split; apply (bool_decide_unpack _); vm_compute; exact I.
Qed.

Lemma auto_approved_patch_within_policy_witness :
  touches (fun path => can_write_path_with_cwd plain_env write_ws path ws = true) patch_tree
    (run_of (action_of three_hunks)).1.1.1.
Proof.
  assert (abs_ok ws) as Hws by solve_abs_ok.
  apply (auto_approved_patch_within_policy plain_env Linux no_query no_diff patch_tree patch_tree [L"apply_patch"; three_hunks]
    ws ws (action_of three_hunks) OnRequest workspace_profile write_ws false LinuxSeccomp false sink [] []);
    [exact Hws|apply action_of_verified; vm_compute; reflexivity|vm_compute; reflexivity|discriminate| |].
  - apply (bool_decide_unpack _). vm_compute. exact I.
  - intros args E. apply (three_hunks_paths args E).
Defined.


(** The changes are kept by the path of the file that is updated.  When a later hunk
    names the same file, the destination of the earlier move is neither checked nor
    shown: the patch is approved unasked and writes outside the workspace. *)
Definition hidden_move : str :=
  unlines [L"*** Begin Patch"; L"*** Update File: a"; L"*** Move to: /etc/b"; L"@@"; L"-one"; L"+two";
           L"*** Add File: a"; L"+one"; L"*** End Patch"].

Example hidden_move_is_approved :
  let action := action_of hidden_move in
  let dest := components (L"/etc/b") in
  convert_apply_patch_to_protocol action = [(ws ++ [Normal (L"a")], FileChangeAdd (L"one" ++ [LF]))]
  /\ assess_patch_safety plain_env Linux action OnRequest workspace_profile write_ws ws false = AutoApprove LinuxSeccomp false
  /\ can_write_path_with_cwd plain_env write_ws dest ws = false
  /\ view (run_of action).1.1.1 dest = Some (L"two" ++ [LF]).
Proof. vm_compute. done. Qed.

(** The text that is kept is parsed again when it is applied, and each parse drops
    one carriage return at the end of a line: a destination is checked under one name
    and written under another. *)
Definition returned_move : str :=
  L"*** Begin Patch" ++ [LF] ++ L"*** Update File: a" ++ [LF] ++ L"*** Move to: .git" ++ [CR; CR; LF]
  ++ L"@@" ++ [LF] ++ L"-one" ++ [LF] ++ L"+two" ++ [LF] ++ L"*** End Patch".

Example returned_move_is_approved :
  let action := action_of returned_move in
  let dest := ws ++ [Normal GIT] in
  assess_patch_safety plain_env Linux action OnRequest workspace_profile write_ws ws false = AutoApprove LinuxSeccomp false
  /\ can_write_path_with_cwd plain_env write_ws dest ws = false
  /\ view (run_of action).1.1.1 dest = Some (L"two" ++ [LF]).
Proof. vm_compute. done. Qed.
