(* ===== verification/ShellEnvironment.v ===== *)
(** * The environment of commands (protocol/src/shell_environment.rs)

    Which variables of the agent a command gets to see.  The patterns are matched by
    the wildmatch crate, which is an argument: [matches pattern name], without regard
    to case, as every pattern here is made. *)

From S2P Require Import Prelude RustStr.

Definition CODEX_THREAD_ID_ENV_VAR : str := L"CODEX_THREAD_ID".
Definition UNIX_CORE_ENV_VARS : list str :=
  [L"PATH"; L"SHELL"; L"TMPDIR"; L"TEMP"; L"TMP"; L"HOME"; L"LANG"; L"LC_ALL"; L"LC_CTYPE"; L"LOGNAME"; L"USER"].
Definition WINDOWS_CORE_ENV_VARS : list str :=
  [L"PATH"; L"PATHEXT"; L"SHELL"; L"COMSPEC"; L"SYSTEMROOT"; L"SYSTEMDRIVE"; L"USERNAME"; L"USERDOMAIN"; L"USERPROFILE";
   L"HOMEDRIVE"; L"HOMEPATH"; L"PROGRAMFILES"; L"PROGRAMFILES(X86)"; L"PROGRAMW6432"; L"PROGRAMDATA"; L"LOCALAPPDATA";
   L"APPDATA"; L"TEMP"; L"TMP"; L"TMPDIR"; L"POWERSHELL"; L"PWSH"].
Definition DEFAULT_EXCLUDES : list str := [L"*KEY*"; L"*SECRET*"; L"*TOKEN*"].

Inductive ShellEnvironmentPolicyInherit := InheritCore | InheritAll | InheritNone.

Abbreviation env_map := (gmap str str).

Record ShellEnvironmentPolicy := mkShellPolicy {
  inherit : ShellEnvironmentPolicyInherit;
  ignore_default_excludes : bool;
  exclude : list str;
  set_vars : env_map;
  include_only : list str;
  use_profile : bool }.

Definition shell_policy_default : ShellEnvironmentPolicy := mkShellPolicy InheritAll true [] ∅ [] false.

(** The table of the configuration file (config/src/types.rs). *)
Record ShellEnvironmentPolicyToml := mkShellPolicyToml {
  toml_inherit : option ShellEnvironmentPolicyInherit;
  toml_ignore_default_excludes : option bool;
  toml_exclude : option (list str);
  toml_set : option env_map;
  toml_include_only : option (list str);
  toml_use_profile : option bool }.

Definition shell_policy_from_toml (t : ShellEnvironmentPolicyToml) : ShellEnvironmentPolicy :=
  mkShellPolicy (default InheritAll (toml_inherit t)) (default true (toml_ignore_default_excludes t))
    (default [] (toml_exclude t)) (default ∅ (toml_set t)) (default [] (toml_include_only t))
    (default false (toml_use_profile t)).

Section environment.
Context (matches : str -> str -> bool).
Context (windows : bool).

Definition matches_any (name : str) (patterns : list str) : bool := existsb (fun p => matches p name) patterns.

(** [HashMap::retain] on the keys, and [collect] of pairs: the last one wins. *)
Definition retain (keep : str -> bool) (m : env_map) : env_map := filter (fun kv => keep kv.1 = true) m.
Definition collect (vars : list (str * str)) : env_map := foldl (fun m '(k, v) => <[k := v]> m) ∅ vars.

Definition is_core (name : str) : bool :=
  existsb (fun allowed => eq_ignore_ascii_case allowed name) (if windows then WINDOWS_CORE_ENV_VARS else UNIX_CORE_ENV_VARS).

Definition inherited_env (vars : list (str * str)) (policy : ShellEnvironmentPolicy) : env_map :=
  match inherit policy with
  | InheritAll => collect vars
  | InheritNone => ∅
  | InheritCore => collect (filter (fun kv => is_core kv.1 = true) vars)
  end.

Definition populate_env (vars : list (str * str)) (policy : ShellEnvironmentPolicy) (thread_id : option str) : env_map :=
  let m := inherited_env vars policy in
  let m := if ignore_default_excludes policy then m
           else retain (fun k => negb (matches_any k DEFAULT_EXCLUDES)) m in
  let m := if is_nil (exclude policy) then m else retain (fun k => negb (matches_any k (exclude policy))) m in
  let m := set_vars policy ∪ m in
  let m := if is_nil (include_only policy) then m else retain (fun k => matches_any k (include_only policy)) m in
  match thread_id with
  | Some id => <[CODEX_THREAD_ID_ENV_VAR := id]> m
  | None => m
  end.

Definition create_env_from_vars (vars : list (str * str)) (policy : ShellEnvironmentPolicy) (thread_id : option str)
  : env_map :=
  let m := populate_env vars policy thread_id in
  if windows && negb (existsb (fun kv => eq_ignore_ascii_case kv.1 (L"PATHEXT")) (map_to_list m))
  then <[L"PATHEXT" := L".COM;.EXE;.BAT;.CMD"]> m else m.

(** ** One variable *)

Lemma lookup_retain keep m k : retain keep m !! k = if keep k then m !! k else None.
Proof.
  unfold retain. destruct (m !! k) as [v|] eqn:E.
  - destruct (keep k) eqn:Ek; [by apply map_lookup_filter_Some|].
    apply map_lookup_filter_None. right. intros v' _. cbn. by rewrite Ek.
  - rewrite (proj2 (map_lookup_filter_None _ _ _)) by (by left). by destruct (keep k).
Qed.

(** The last value a list gives to a name. *)
Definition last_value (vars : list (str * str)) (k : str) : option str :=
  snd <$> last (filter (fun kv => kv.1 = k) vars).

Lemma lookup_collect vars k : collect vars !! k = last_value vars k.
Proof.
  unfold collect, last_value. induction vars as [|[k' v] vars IH] using rev_ind; [done|].
  rewrite foldl_app, filter_app. cbn [foldl]. destruct (decide (k' = k)) as [->|Hne].
  - rewrite lookup_insert_eq, filter_cons_True, filter_nil by done. by rewrite last_snoc.
  - rewrite lookup_insert_ne, filter_cons_False, filter_nil by done. by rewrite app_nil_r.
Qed.

Lemma last_value_filter (keep : str -> bool) vars k :
  last_value (filter (fun kv => keep kv.1 = true) vars) k = if keep k then last_value vars k else None.
Proof.
  unfold last_value. rewrite list_filter_filter. destruct (keep k) eqn:Ek.
  - do 2 f_equal. apply list_filter_iff. intros [k' v]. cbn. split; [by intros []|]. by intros ->.
  - destruct (filter _ vars) as [|kv rest] eqn:E; [done|]. exfalso.
    assert (kv ∈ kv :: rest) as Hin by by left. rewrite <- E in Hin.
    apply list_elem_of_filter in Hin as [[Hk Hkeep] _]. congruence.
Qed.

(** What a command sees of a variable of the agent, and of one the policy sets. *)
Definition passes (policy : ShellEnvironmentPolicy) (k : str) : bool :=
  match inherit policy with InheritAll => true | InheritNone => false | InheritCore => is_core k end
  && (ignore_default_excludes policy || negb (matches_any k DEFAULT_EXCLUDES))
  && negb (matches_any k (exclude policy)).
Definition kept (policy : ShellEnvironmentPolicy) (k : str) : bool :=
  is_nil (include_only policy) || matches_any k (include_only policy).

(** One variable, without the maps: what the policy alone makes of it, and with the
    identifier of the thread. *)
Definition by_policy (vars : list (str * str)) (policy : ShellEnvironmentPolicy) (k : str) : option str :=
  if kept policy k
  then match set_vars policy !! k with
       | Some v => Some v
       | None => if passes policy k then last_value vars k else None
       end
  else None.
Definition variable (vars : list (str * str)) (policy : ShellEnvironmentPolicy) (thread_id : option str) (k : str)
  : option str :=
  match thread_id with
  | Some id => if decide (k = CODEX_THREAD_ID_ENV_VAR) then Some id else by_policy vars policy k
  | None => by_policy vars policy k
  end.

Lemma lookup_inherited vars policy k :
  inherited_env vars policy !! k
  = if match inherit policy with InheritAll => true | InheritNone => false | InheritCore => is_core k end
    then last_value vars k else None.
Proof.
  unfold inherited_env. destruct (inherit policy).
  - rewrite lookup_collect. apply last_value_filter.
  - apply lookup_collect.
  - apply lookup_empty.
Qed.

Lemma lookup_filtered vars policy k :
  (let m := inherited_env vars policy in
   let m := if ignore_default_excludes policy then m
            else retain (fun k => negb (matches_any k DEFAULT_EXCLUDES)) m in
   if is_nil (exclude policy) then m else retain (fun k => negb (matches_any k (exclude policy))) m) !! k
  = if passes policy k then last_value vars k else None.
Proof.
  cbv zeta. unfold passes. set (inherits := match inherit policy with InheritAll => _ | _ => _ end).
  assert (forall m, (if is_nil (exclude policy) then m else retain (fun k => negb (matches_any k (exclude policy))) m) !! k
    = if negb (matches_any k (exclude policy)) then m !! k else None) as ->.
  { intros m. destruct (exclude policy) as [|p ps]; [done|]. cbn [is_nil]. apply lookup_retain. }
  destruct (ignore_default_excludes policy); rewrite ?lookup_retain, lookup_inherited; fold inherits; cbn [orb];
    destruct inherits, (matches_any k (exclude policy)), (matches_any k DEFAULT_EXCLUDES); done.
Qed.

Lemma populate_env_spec vars policy thread_id k : populate_env vars policy thread_id !! k = variable vars policy thread_id k.
Proof.
  unfold populate_env. cbv zeta. set (m := if is_nil (exclude policy) then _ else _).
  pose proof (lookup_filtered vars policy k) as Hm. cbv zeta in Hm. fold m in Hm.
  assert ((if is_nil (include_only policy) then set_vars policy ∪ m
           else retain (fun k => matches_any k (include_only policy)) (set_vars policy ∪ m)) !! k
    = if kept policy k then (set_vars policy ∪ m) !! k else None) as Hkept.
  { unfold kept. destruct (include_only policy) as [|p ps]; [done|]. cbn [is_nil orb]. apply lookup_retain. }
  assert ((set_vars policy ∪ m) !! k = match set_vars policy !! k with Some v => Some v
    | None => if passes policy k then last_value vars k else None end) as Hunion.
  { rewrite lookup_union, Hm. destruct (set_vars policy !! k); cbn; [|by destruct (if passes policy k then _ else _)].
    by destruct (if passes policy k then _ else _). }
  unfold variable, by_policy. destruct thread_id as [id|]; [|by rewrite Hkept, Hunion].
  destruct (decide (k = CODEX_THREAD_ID_ENV_VAR)) as [->|Hne]; [apply lookup_insert_eq|].
  by rewrite lookup_insert_ne, Hkept, Hunion.
Qed.

(** The list of extensions that a Windows command needs is there, and is the only
    variable that is added to the others. *)
Lemma lookup_create_env_ne vars policy thread_id k :
  windows = false \/ k <> L"PATHEXT" ->
  create_env_from_vars vars policy thread_id !! k = variable vars policy thread_id k.
Proof.
  intros Hk. rewrite <- populate_env_spec. unfold create_env_from_vars. destruct (_ && _) eqn:E; [|done].
  destruct Hk as [->|Hne]; [done|]. by rewrite lookup_insert_ne.
Qed.

Lemma create_env_extensions vars policy thread_id :
  windows = true ->
  exists k, eq_ignore_ascii_case k (L"PATHEXT") = true /\ is_Some (create_env_from_vars vars policy thread_id !! k).
Proof.
  intros Hw. unfold create_env_from_vars. rewrite Hw. cbn [andb].
  destruct (existsb _ _) eqn:E; cbn [negb].
  - apply existsb_exists in E as ([k v] & Hin & Hk). apply list_elem_of_In, elem_of_map_to_list in Hin. eauto.
  - exists (L"PATHEXT"). split; [done|]. rewrite lookup_insert_eq. eauto.
Qed.

Lemma variable_origin vars policy thread_id k v :
  variable vars policy thread_id k = Some v ->
  (k = CODEX_THREAD_ID_ENV_VAR /\ thread_id = Some v) \/ set_vars policy !! k = Some v
  \/ ((k, v) ∈ vars /\ matches_any k (exclude policy) = false).
Proof.
  assert (by_policy vars policy k = Some v -> set_vars policy !! k = Some v
    \/ ((k, v) ∈ vars /\ matches_any k (exclude policy) = false)) as Hpolicy.
  { unfold by_policy. destruct (kept policy k); [|done]. destruct (set_vars policy !! k); [by left|].
    destruct (passes policy k) eqn:Ep; [|done]. intros Hv. right. unfold passes in Ep.
    apply andb_true_iff in Ep as [_ Hexcluded%negb_true_iff]. split; [|done].
    unfold last_value in Hv. destruct (last _) as [[k' v']|] eqn:El; [|done]. injection Hv as <-.
    by apply last_Some_elem_of, list_elem_of_filter in El as [<- ?]. }
  unfold variable. destruct thread_id as [id|]; [|by auto].
  destruct (decide (k = CODEX_THREAD_ID_ENV_VAR)) as [->|_]; [|by auto]. intros [= ->]. by left.
Qed.
End environment.

(** C29: The environment of a command is the policy's, variable by variable.  Apart from
    the extension list of Windows, a name has the value that the policy gives it: the
    identifier of the thread; otherwise, if [include_only] is empty or matches the name,
    the value that [set] gives, or the agent's own (last) value when the name is
    inherited and matches no default and no configured exclusion; otherwise none.  So a
    variable of the agent that an [exclude] pattern matches never reaches a command,
    unless its very value is set by the policy or is the thread's.  On Windows, some
    spelling of [PATHEXT] is always set. *)
Theorem command_environment_exact matches windows vars policy thread_id :
  let env := create_env_from_vars matches windows vars policy thread_id in
  (forall k, windows = false \/ k <> L"PATHEXT" -> env !! k = variable matches windows vars policy thread_id k)
  /\ (forall k v, windows = false \/ k <> L"PATHEXT" -> env !! k = Some v -> matches_any matches k (exclude policy) = true ->
        (k = CODEX_THREAD_ID_ENV_VAR /\ thread_id = Some v) \/ set_vars policy !! k = Some v)
  /\ (windows = true -> exists k, eq_ignore_ascii_case k (L"PATHEXT") = true /\ is_Some (env !! k)).
Proof.
  cbv zeta. split_and!.
  - apply lookup_create_env_ne.
  - intros k v Hk Hv Hexcluded. rewrite lookup_create_env_ne in Hv by done.
    apply variable_origin in Hv as [?|[?|[_ ?]]]; [by left|by right|congruence].
  - apply create_env_extensions.
Qed.

(** Wildcards as the crate reads them: [*] stands for any text, [?] for one character. *)
Fixpoint wildcard_at (fuel : nat) (p name : str) : bool :=
  match fuel with
  | O => false
  | S fuel =>
      match p, name with
      | [], [] => true
      | [], _ :: _ => false
      | c :: p', [] => (c =? 42)%N && wildcard_at fuel p' []
      | c :: p', d :: name' =>
          if (c =? 42)%N then wildcard_at fuel p' name || wildcard_at fuel p name'
          else ((c =? 63)%N || eq_ignore_ascii_case [c] [d]) && wildcard_at fuel p' name'
      end
  end.
Definition wildcard (p name : str) : bool := wildcard_at (S (length p + length name)) p name.

Lemma command_environment_exact_witness :
  let vars := [(L"PATH", L"/bin"); (L"api_key", L"secret"); (L"HOME", L"/home/me"); (L"PATH", L"/usr/bin")] in
  let policy := mkShellPolicy InheritAll false [L"H?ME"] (<[L"MODE" := L"batch"]> ∅) [] false in
  let env := create_env_from_vars wildcard false vars policy (Some (L"t-1")) in
  env !! L"PATH" = Some (L"/usr/bin") /\ env !! L"api_key" = None /\ env !! L"HOME" = None
  /\ env !! L"MODE" = Some (L"batch") /\ env !! CODEX_THREAD_ID_ENV_VAR = Some (L"t-1").
Proof.
  cbv zeta.
  split_and!; (etransitivity; [apply (proj1 (command_environment_exact wildcard false _ _ _)); by left|vm_compute; reflexivity]).
Defined.
