(* ===== verification/TurnDiff.v ===== *)
(** * The diff of a turn (core/src/turn_diff_tracker.rs, core/src/tools/events.rs)

    The tracker follows the deltas of the patches of a turn and shows their net
    effect as one diff, without reading the files again.  Maps of Rust are iterated
    in an order that is not specified; it is an instance of [MapOrder].  SHA-1 and
    the text of a diff are arguments. *)

From S2P Require Import Prelude RustStr AbsolutePath SandboxPaths PatchApply PatchFs PatchDelta Utf8Stream.

Abbreviation path := (list Component) (only parsing).

(** The order in which a [HashMap] is iterated: each entry once. *)
Class MapOrder := {
  map_iter {V : Type} : gmap (list Component) V -> list (path * V);
  map_iter_perm {V : Type} (m : gmap (list Component) V) : map_iter m ≡ₚ map_to_list m }.

#[export] Instance plain_order : MapOrder :=
  { map_iter V m := map_to_list m; map_iter_perm V m := Permutation_refl _ }.

(** ** The tracker *)

Definition ZERO_OID : str := replicate 40 48%N.
Definition DEV_NULL : str := L"/dev/null".
Definition REGULAR_FILE_MODE : str := L"100644".

Record TurnDiffTracker := mkTracker {
  valid : bool;
  display_root : option path;
  baseline_by_path : gmap (list Component) str;
  current_by_path : gmap (list Component) str;
  origin_by_current_path : gmap (list Component) (list Component) }.

Definition tracker_default : TurnDiffTracker := mkTracker true None ∅ ∅ ∅.
Definition with_display_root (root : path) : TurnDiffTracker := mkTracker true (Some root) ∅ ∅ ∅.

Definition invalidate (t : TurnDiffTracker) : TurnDiffTracker :=
  mkTracker false (display_root t) (baseline_by_path t) (current_by_path t) (origin_by_current_path t).

Definition set_baseline (t : TurnDiffTracker) (m : gmap (list Component) str) : TurnDiffTracker :=
  mkTracker (valid t) (display_root t) m (current_by_path t) (origin_by_current_path t).
Definition set_current (t : TurnDiffTracker) (m : gmap (list Component) str) : TurnDiffTracker :=
  mkTracker (valid t) (display_root t) (baseline_by_path t) m (origin_by_current_path t).
Definition set_origin (t : TurnDiffTracker) (m : gmap (list Component) (list Component)) : TurnDiffTracker :=
  mkTracker (valid t) (display_root t) (baseline_by_path t) (current_by_path t) m.

(** A path of which nothing is known yet. *)
Definition unseen (t : TurnDiffTracker) (p : path) : bool :=
  is_none (current_by_path t !! p) && is_none (baseline_by_path t !! p).

(** The text before the turn, if the path is first met here. *)
Definition note_baseline (t : TurnDiffTracker) (p : path) (before : option str) : TurnDiffTracker :=
  match before with
  | Some text => if unseen t p then set_baseline t (<[p := text]> (baseline_by_path t)) else t
  | None => t
  end.

Definition apply_add (t : TurnDiffTracker) (p : path) (content : str) (overwritten_content : option str)
  : TurnDiffTracker :=
  let t := set_origin t (delete p (origin_by_current_path t)) in
  let t := note_baseline t p overwritten_content in
  set_current t (<[p := content]> (current_by_path t)).

Definition apply_delete (t : TurnDiffTracker) (p : path) (content : str) : TurnDiffTracker :=
  let removed := current_by_path t !! p in
  let t := set_current t (delete p (current_by_path t)) in
  let t := if is_none removed && is_none (baseline_by_path t !! p)
           then set_baseline t (<[p := content]> (baseline_by_path t)) else t in
  set_origin t (delete p (origin_by_current_path t)).

Definition apply_update (t : TurnDiffTracker) (source_path : path) (move_path : option path) (old_content : str)
  (overwritten_move_content : option str) (new_content : str) : TurnDiffTracker :=
  let t := note_baseline t source_path (Some old_content) in
  match move_path with
  | Some dest_path =>
      let t := note_baseline t dest_path overwritten_move_content in
      let origin := default source_path (origin_by_current_path t !! source_path) in
      let t := set_origin t (delete source_path (origin_by_current_path t)) in
      let t := set_current t (<[dest_path := new_content]> (delete source_path (current_by_path t))) in
      let origins := delete dest_path (origin_by_current_path t) in
      set_origin t (if decide (dest_path = origin) then origins else <[dest_path := origin]> origins)
  | None => set_current t (<[source_path := new_content]> (current_by_path t))
  end.

Definition apply_change (t : TurnDiffTracker) (change : AppliedPatchChange) : TurnDiffTracker :=
  match change_kind change with
  | ChangeAdd content overwritten_content => apply_add t (change_path change) content overwritten_content
  | ChangeDelete content => apply_delete t (change_path change) content
  | ChangeUpdate move_path old_content overwritten_move_content new_content =>
      apply_update t (change_path change) move_path old_content overwritten_move_content new_content
  end.

Definition track_delta (t : TurnDiffTracker) (delta : AppliedPatchDelta) : TurnDiffTracker :=
  if negb (exact delta) then invalidate t else foldl apply_change t (changes delta).

(** ** The diff *)

Section diff.
Context `{!MapOrder}.
Context (sha1_hex : list N -> str).
Context (text_diff : str -> str -> str -> str -> str).

Definition git_blob_oid (data : list N) : str :=
  sha1_hex (encode (L"blob " ++ show_nat (length data)) ++ [0%N] ++ data).

Definition display_path (t : TurnDiffTracker) (p : path) : str :=
  let shown := default p (root ← display_root t; path_strip_prefix p root) in
  (fun c => if (c =? 92)%N then SLASH else c) <$> display shown.

Definition is_rename (t : TurnDiffTracker) (dest_path origin_path : path) : bool :=
  negb (bool_decide (dest_path = origin_path)
        || is_some_and (current_by_path t !! origin_path) (fun _ => true)
        || is_none (current_by_path t !! dest_path)
        || is_none (baseline_by_path t !! origin_path)
        || is_some_and (baseline_by_path t !! dest_path) (fun _ => true)).

Definition rename_pairs (t : TurnDiffTracker) : gmap (list Component) (list Component) :=
  foldl (fun m '(dest_path, origin_path) => if is_rename t dest_path origin_path then <[origin_path := dest_path]> m else m)
    ∅ (map_iter (origin_by_current_path t)).

Definition render_diff (t : TurnDiffTracker) (left_path : path) (left_content : option str)
  (right_path : path) (right_content : option str) : option str :=
  if decide (left_content = right_content) then None
  else
    let left_display := display_path t left_path in
    let right_display := display_path t right_path in
    let oid content := match content with Some text => git_blob_oid (encode text) | None => ZERO_OID end in
    let old_header := match left_content with Some _ => L"a/" ++ left_display | None => DEV_NULL end in
    let new_header := match right_content with Some _ => L"b/" ++ right_display | None => DEV_NULL end in
    mode ← match left_content, right_content with
           | None, Some _ => Some (L"new file mode " ++ REGULAR_FILE_MODE ++ [LF])
           | Some _, None => Some (L"deleted file mode " ++ REGULAR_FILE_MODE ++ [LF])
           | Some _, Some _ => Some []
           | None, None => None
           end;
    Some (L"diff --git a/" ++ left_display ++ L" b/" ++ right_display ++ [LF] ++ mode
          ++ L"index " ++ oid left_content ++ L".." ++ oid right_content ++ [LF]
          ++ text_diff (default [] left_content) (default [] right_content) old_header new_header).

Definition render_path_diff (t : TurnDiffTracker) (p : path) : option str :=
  render_diff t p (baseline_by_path t !! p) p (current_by_path t !! p).

Definition render_rename_diff (t : TurnDiffTracker) (source_path dest_path : path) : option str :=
  render_diff t source_path (baseline_by_path t !! source_path) dest_path (current_by_path t !! dest_path).

(** A stable sort by a text. *)
Fixpoint insert_by_text {A} (key : A -> str) (x : A) (l : list A) : list A :=
  match l with
  | [] => [x]
  | y :: rest =>
      match lex_compare N.compare (key x) (key y) with
      | Gt => y :: insert_by_text key x rest
      | _ => x :: l
      end
  end.
Definition sort_by_text {A} (key : A -> str) (l : list A) : list A := foldr (insert_by_text key) [] l.

Definition end_line (s : str) : str := if ends_with [LF] s then s else s ++ [LF].

Fixpoint diff_loop (t : TurnDiffTracker) (pairs : gmap (list Component) (list Component))
  (paired_destinations handled : gset (list Component)) (paths : list path) (aggregated : str) : str :=
  match paths with
  | [] => aggregated
  | p :: rest =>
      if decide (p ∈ handled) then diff_loop t pairs paired_destinations handled rest aggregated
      else
        let handled := {[p]} ∪ handled in
        if decide (p ∈ paired_destinations) then diff_loop t pairs paired_destinations handled rest aggregated
        else
          let '(handled, diff) := match pairs !! p with
                                  | Some dest => ({[dest]} ∪ handled, render_rename_diff t p dest)
                                  | None => (handled, render_path_diff t p)
                                  end in
          diff_loop t pairs paired_destinations handled rest
            (match diff with Some diff => end_line (aggregated ++ diff) | None => aggregated end)
  end.

Definition sorted_keys (t : TurnDiffTracker) : list path :=
  dedup (sort_by_text (display_path t)
           ((map_iter (baseline_by_path t)).*1 ++ (map_iter (current_by_path t)).*1)).

Definition get_unified_diff (t : TurnDiffTracker) : option str :=
  if negb (valid t) then None
  else
    let pairs := rename_pairs t in
    let paired_destinations : gset (list Component) := list_to_set (map_iter pairs).*2 in
    let aggregated := diff_loop t pairs paired_destinations ∅ (sorted_keys t) [] in
    if is_nil aggregated then None else Some aggregated.
End diff.

(** ** The runtime of patches (tools/runtimes/apply_patch.rs) *)

Record ExecToolCallOutput := mkOutput {
  exit_code : Z;
  out_stdout : str;
  out_stderr : str;
  aggregated_output : str }.

(** [Codex(Sandbox(Timeout))], [Codex(Sandbox(Denied))], any other [Codex] error by
    its debug text, and [Rejected]. *)
Inductive PatchToolError :=
| TimeoutErr (output : ExecToolCallOutput)
| DeniedErr (output : ExecToolCallOutput)
| CodexError (debug : str)
| RejectedErr (reason : str).

Record ApplyPatchRuntimeOutput := mkRuntimeOutput {
  exec_output : ExecToolCallOutput;
  runtime_delta : AppliedPatchDelta }.

(** [writeln!] to a vector does not fail. *)
Definition vec_writeln (w line : str) : str * io_result unit := (w ++ line ++ [LF], inl tt).

Section runtime.
Context {FS : Type} `{ExecutorFileSystem FS}.
Context (home : option str) (likely_denied : ExecToolCallOutput -> bool).

(** [ApplyPatchRuntime::run] on a file system and the delta committed so far. *)
Definition runtime_run (patch cwd : str) (s : FS * AppliedPatchDelta)
  : (FS * AppliedPatchDelta) * result PatchToolError ApplyPatchRuntimeOutput :=
  let '(fs, stdout, stderr, outcome) := apply_patch home vec_writeln patch cwd [] [] s.1 in
  let ended (failed : bool) (delta : AppliedPatchDelta) :=
    let committed := delta_append s.2 delta in
    let output := mkOutput (if failed then 1 else 0) stdout stderr (stdout ++ stderr) in
    ((fs, committed),
     if failed && likely_denied output then Err (DeniedErr output) else Ok (mkRuntimeOutput output committed)) in
  match outcome with
  | Ok delta => ended false delta
  | Err failure => ended true (failure_delta failure)
  | Panic => ((fs, s.2), Panic)
  | OutOfFuel => ((fs, s.2), OutOfFuel)
  end.
End runtime.

(** ** Events (tools/events.rs) *)

Inductive ToolEventFailure :=
| FailureOutput (output : ExecToolCallOutput)
| FailureMessage (message : str)
| FailureRejected (message : str) (applied_patch_delta : option AppliedPatchDelta).

Inductive ToolEventStage :=
| StageBegin
| StageSuccess (output : ExecToolCallOutput) (applied_patch_delta : option AppliedPatchDelta)
| StageFailure (failure : ToolEventFailure).

Inductive TurnDiffTrackerUpdate := Track (delta : AppliedPatchDelta) | Invalidate | NoUpdate.

Inductive PatchApplyStatus := Completed | Failed | Declined.

Definition tracker_update_for_known_delta (delta : AppliedPatchDelta) : TurnDiffTrackerUpdate :=
  if exact delta && is_nil (changes delta) then NoUpdate else Track delta.

(** What [finish] of the patch emitter reports, and its answer to the model. *)
Definition finish_patch (format_exec_output_for_model : ExecToolCallOutput -> str)
  (out : result PatchToolError ExecToolCallOutput) (applied_patch_delta : option AppliedPatchDelta)
  : result Empty_set (ToolEventStage * (str + str)) :=
  match out with
  | Ok output =>
      let content := format_exec_output_for_model output in
      Ok (StageSuccess output applied_patch_delta, if (exit_code output =? 0)%Z then inl content else inr content)
  | Err (TimeoutErr output) => Ok (StageFailure (FailureOutput output), inr (format_exec_output_for_model output))
  | Err (DeniedErr output) =>
      Ok (match applied_patch_delta with
          | Some delta => StageSuccess output (Some delta)
          | None => StageFailure (FailureOutput output)
          end, inr (format_exec_output_for_model output))
  | Err (CodexError debug) =>
      let message := L"execution error: " ++ debug in Ok (StageFailure (FailureMessage message), inr message)
  | Err (RejectedErr msg) =>
      let normalized := if str_eqb msg (L"rejected by user") then L"patch rejected by user" else msg in
      Ok (StageFailure (FailureRejected normalized applied_patch_delta), inr normalized)
  | Panic => Panic
  | OutOfFuel => OutOfFuel
  end.

Definition status_of (output : ExecToolCallOutput) : PatchApplyStatus :=
  if (exit_code output =? 0)%Z then Completed else Failed.

(** The status, the texts and the update that [emit] hands to [emit_patch_end]. *)
Definition patch_end (stage : ToolEventStage) : option (PatchApplyStatus * str * str * TurnDiffTrackerUpdate) :=
  match stage with
  | StageBegin => None
  | StageSuccess output delta =>
      Some (status_of output, out_stdout output, out_stderr output,
            match delta with Some d => tracker_update_for_known_delta d | None => Invalidate end)
  | StageFailure (FailureOutput output) => Some (status_of output, out_stdout output, out_stderr output, Invalidate)
  | StageFailure (FailureMessage message) => Some (Failed, [], message, NoUpdate)
  | StageFailure (FailureRejected message delta) =>
      Some (Declined, [], message, match delta with Some d => tracker_update_for_known_delta d | None => NoUpdate end)
  end.

Section emit_patch.
Context `{!MapOrder} (sha1_hex : list N -> str) (text_diff : str -> str -> str -> str -> str).

(** The tracker after [emit_patch_end], and the diff that is sent. *)
Definition emit_patch_end (t : TurnDiffTracker) (update : TurnDiffTrackerUpdate) : TurnDiffTracker * option str :=
  let previous_diff := get_unified_diff sha1_hex text_diff t in
  let '(t, tracker_changed) := match update with
                               | Track delta => (track_delta t delta, true)
                               | Invalidate => (invalidate t, true)
                               | NoUpdate => (t, false)
                               end in
  let unified_diff := get_unified_diff sha1_hex text_diff t in
  (t, if tracker_changed && (negb (is_none previous_diff) || negb (is_none unified_diff))
      then Some (default [] unified_diff) else None).

Definition emit_patch (t : TurnDiffTracker) (stage : ToolEventStage) : TurnDiffTracker * option str :=
  match patch_end stage with
  | Some (_, _, _, update) => emit_patch_end t update
  | None => (t, None)
  end.
End emit_patch.
