(* ===== verification/TurnDiffSafety.v ===== *)
(** * The diff of a turn is its net effect (core/src/turn_diff_tracker.rs)

    What the tracker knows after a list of changes, the changes its diff stands for,
    and whole turns of calls, attempts and events. *)

From S2P Require Import Prelude RustStr AbsolutePath SandboxPaths PatchApply PatchFs PatchDelta TurnDiff.

(** ** What the tracker knows *)

(** [v0] are the texts at the start of the turn and [v] those of now. *)
Definition follows (v0 v : texts) (t : TurnDiffTracker) : Prop := forall q,
  match baseline_by_path t !! q, current_by_path t !! q with
  | Some b, c => v0 q = Some b /\ v q = c
  | None, Some c => v0 q = None /\ v q = Some c
  | None, None => v q = v0 q
  end.

(** One text is replaced: how it was, if this was not known, and how it is. *)
Definition put (t : TurnDiffTracker) (p : path) (before after : option str) : TurnDiffTracker :=
  let t := note_baseline t p before in
  set_current t (partial_alter (fun _ => after) p (current_by_path t)).

Lemma put_lookup t p before after q :
  baseline_by_path (put t p before after) !! q
    = (if decide (q = p) then if unseen t p then before else baseline_by_path t !! p else baseline_by_path t !! q)
  /\ current_by_path (put t p before after) !! q = (if decide (q = p) then after else current_by_path t !! q).
Proof.
  unfold put, note_baseline, unseen.
  destruct (decide (q = p)) as [->|Hne].
  - split; [|destruct before; [destruct (_ && _)|]; cbn; apply lookup_partial_alter_eq].
    destruct (current_by_path t !! p) eqn:Ec, (baseline_by_path t !! p) eqn:Eb, before; cbn;
      rewrite ?Ec, ?Eb; cbn; try done; apply lookup_insert_eq.
  - split; [|destruct before; [destruct (_ && _)|]; cbn; by apply lookup_partial_alter_ne].
    destruct before; [destruct (_ && _)|]; cbn; try done. by apply lookup_insert_ne.
Qed.

Lemma put_follows v0 v t p after :
  follows v0 v t -> follows v0 (upd v p after) (put t p (v p) after).
Proof.
  intros Hf q. destruct (put_lookup t p (v p) after q) as [-> ->]. unfold upd.
  destruct (decide (q = p)) as [->|Hne]; [|apply Hf]. specialize (Hf p). unfold unseen.
  destruct (baseline_by_path t !! p) as [b|], (current_by_path t !! p) as [c|]; cbn in *.
  - by destruct Hf as [-> _].
  - by destruct Hf as [-> _].
  - destruct Hf as [-> _]. by destruct after.
  - rewrite <- Hf. destruct (v p) as [x|]; [done|]. by destruct after.
Qed.

(** Equal in what is known of the texts. *)
Definition alike (t t' : TurnDiffTracker) : Prop :=
  (forall q, baseline_by_path t !! q = baseline_by_path t' !! q)
  /\ (forall q, current_by_path t !! q = current_by_path t' !! q).

Lemma alike_follows v0 v t t' : alike t t' -> follows v0 v t -> follows v0 v t'.
Proof. intros [Hb Hc] Hf q. rewrite <- Hb, <- Hc. apply Hf. Qed.

Lemma follows_proper v0 v v' t : veq v v' -> follows v0 v t -> follows v0 v' t.
Proof. intros Hv Hf q. specialize (Hf q). by rewrite (Hv q) in Hf. Qed.

(** A file is not moved onto itself. *)
Definition moves_elsewhere (c : AppliedPatchChange) : Prop :=
  match change_kind c with ChangeUpdate (Some dest) _ _ _ => dest <> change_path c | _ => True end.

Lemma add_alike t p content before : alike (put t p before (Some content)) (apply_add t p content before).
Proof.
  unfold apply_add, put, note_baseline, unseen. destruct before; [|done]. cbn. by destruct (_ && _).
Qed.

Lemma delete_alike t p content : alike (put t p (Some content) None) (apply_delete t p content).
Proof.
  unfold apply_delete, put, note_baseline, unseen. cbn.
  destruct (is_none (current_by_path t !! p) && is_none (baseline_by_path t !! p)); done.
Qed.

Lemma update_alike t p old new over : alike (put t p (Some old) (Some new)) (apply_update t p None old over new).
Proof. unfold apply_update, put, note_baseline. cbn. by destruct (unseen t p). Qed.

Lemma note_current t p before : current_by_path (note_baseline t p before) = current_by_path t.
Proof. unfold note_baseline. destruct before; [|done]. by destruct (unseen t p). Qed.

Lemma note_fields t t' p before :
  unseen t' p = unseen t p -> baseline_by_path t' = baseline_by_path t ->
  baseline_by_path (note_baseline t' p before) = baseline_by_path (note_baseline t p before)
  /\ current_by_path (note_baseline t' p before) = current_by_path t'.
Proof.
  intros Hu Hb. split; [|apply note_current]. unfold note_baseline. rewrite Hu.
  destruct before; [|done]. destruct (unseen t p); cbn; by rewrite Hb.
Qed.

Lemma move_alike t p dest old over new :
  dest <> p ->
  alike (put (put t p (Some old) None) dest over (Some new)) (apply_update t p (Some dest) old over new).
Proof.
  intros Hne. set (t1 := note_baseline t p (Some old)).
  assert (unseen (put t p (Some old) None) dest = unseen t1 dest) as Hu.
  { unfold unseen, put. fold t1. cbn. by rewrite lookup_partial_alter_ne. }
  pose proof (note_current t1 dest over) as Hc.
  destruct (note_fields t1 (put t p (Some old) None) dest over) as [Hb Hc']; [done|done|].
  split; intros q; [|change (current_by_path (apply_update t p (Some dest) old over new))
    with (<[dest := new]> (delete p (current_by_path (note_baseline t1 dest over))))].
  - change (baseline_by_path (note_baseline (put t p (Some old) None) dest over) !! q
      = baseline_by_path (note_baseline t1 dest over) !! q). by rewrite Hb.
  - change (current_by_path (put (put t p (Some old) None) dest over (Some new)))
      with (<[dest := new]> (current_by_path (note_baseline (put t p (Some old) None) dest over))).
    by rewrite Hc', Hc.
Qed.

(** What a reversible change finds. *)
Lemma undo_do_finds c v :
  veq (undo_change c (do_change c v)) v -> moves_elsewhere c ->
  match change_kind c with
  | ChangeAdd _ before => v (change_path c) = before
  | ChangeDelete content => v (change_path c) = Some content
  | ChangeUpdate None old _ _ => v (change_path c) = Some old
  | ChangeUpdate (Some dest) old over _ => v (change_path c) = Some old /\ v dest = over
  end.
Proof.
  intros Hv Hm. unfold undo_change, do_change, moves_elsewhere in *.
  destruct (change_kind c) as [content before|content|[dest|] old over new]; cbn in *.
  4: specialize (Hv (change_path c)).
  1,2: specialize (Hv (change_path c)).
  1,2,4: unfold upd in Hv; rewrite decide_True in Hv by done; done.
  pose proof (Hv (change_path c)) as Hp. specialize (Hv dest). unfold upd in *.
  rewrite (decide_True _ _ (eq_refl (change_path c))) in Hp.
  rewrite (decide_False _ _ Hm), (decide_True _ _ (eq_refl dest)) in Hv. done.
Qed.

Lemma apply_change_follows v0 v t c :
  follows v0 v t -> veq (undo_change c (do_change c v)) v -> moves_elsewhere c ->
  follows v0 (do_change c v) (apply_change t c).
Proof.
  intros Hf Hv Hm. pose proof (undo_do_finds c v Hv Hm) as Hfound.
  unfold apply_change, do_change, moves_elsewhere in *.
  destruct (change_kind c) as [content before|content|[dest|] old over new].
  - eapply alike_follows; [apply add_alike|]. rewrite <- Hfound. by apply put_follows.
  - eapply alike_follows; [apply delete_alike|]. rewrite <- Hfound. by apply put_follows.
  - destruct Hfound as [Hold Hover]. eapply alike_follows; [by apply move_alike|].
    apply (put_follows v0 _ _ (change_path c) None) in Hf. rewrite Hold in Hf.
    apply (put_follows v0 _ _ dest (Some new)) in Hf.
    replace (upd v (change_path c) None dest) with over in Hf by (unfold upd; by rewrite decide_False).
    eapply follows_proper; [|exact Hf]. intros q. unfold upd.
    repeat case_decide; congruence.
  - eapply alike_follows; [apply update_alike|]. rewrite <- Hfound. by apply put_follows.
Qed.

Lemma apply_changes_follow v0 cs : forall v t,
  follows v0 v t -> reversible cs v -> Forall moves_elsewhere cs ->
  follows v0 (replay cs v) (foldl apply_change t cs).
Proof.
  induction cs as [|c cs IH]; intros v t Hf Hr Hm; [done|].
  destruct Hr as [Hc Hr]. apply Forall_cons in Hm as [Hm Hms]. cbn.
  apply (IH (do_change c v)); [by apply apply_change_follows|done|done].
Qed.

(** ** What the diff stands for *)

(** One piece of a diff: a file of before, gone or changed or elsewhere, and a file of now. *)
Record NetChange := mkNet {
  left : path;
  left_text : option str;
  right : path;
  right_text : option str }.

Definition do_net (v : texts) (n : NetChange) : texts := upd (upd v (left n) None) (right n) (right_text n).

Section diffs.
Context `{!MapOrder}.

Definition net_of (t : TurnDiffTracker) (p : path) : NetChange :=
  let q := default p (rename_pairs t !! p) in
  mkNet p (baseline_by_path t !! p) q (current_by_path t !! q).

(** The paths of the loop that get a piece. *)
Fixpoint pieces (pairs : gmap (list Component) (list Component)) (paired handled : gset (list Component))
  (paths : list path) : list path :=
  match paths with
  | [] => []
  | p :: rest =>
      if decide (p ∈ handled) then pieces pairs paired handled rest
      else if decide (p ∈ paired) then pieces pairs paired ({[p]} ∪ handled) rest
      else p :: pieces pairs paired
             (match pairs !! p with Some dest => {[dest]} ∪ ({[p]} ∪ handled) | None => {[p]} ∪ handled end) rest
  end.

Definition paired_of (t : TurnDiffTracker) : gset (list Component) := list_to_set (map_iter (rename_pairs t)).*2.
Definition net_changes (t : TurnDiffTracker) : list NetChange :=
  net_of t <$> pieces (rename_pairs t) (paired_of t) ∅ (sorted_keys t).

Section printing.
Context (sha1_hex : list N -> str) (text_diff : str -> str -> str -> str -> str).

(** A piece is printed when the two texts differ. *)
Definition print_net (t : TurnDiffTracker) (n : NetChange) : option str :=
  render_diff sha1_hex text_diff t (left n) (left_text n) (right n) (right_text n).
Definition printed (t : TurnDiffTracker) (ns : list NetChange) : option str :=
  match omap (print_net t) ns with
  | [] => None
  | ds => Some (concat (end_line <$> ds))
  end.

Lemma print_net_none t n : print_net t n = None <-> left_text n = right_text n.
Proof.
  unfold print_net, render_diff. destruct (decide (left_text n = right_text n)) as [E|E]; [done|].
  split; [|done]. destruct (left_text n), (right_text n); done.
Qed.

Lemma print_net_nonempty t n d : print_net t n = Some d -> d <> [].
Proof.
  unfold print_net, render_diff. destruct (decide (left_text n = right_text n)) as [E|E]; [done|].
  destruct (left_text n), (right_text n); by intros [= <-].
Qed.

Lemma end_line_app a d : d <> [] -> end_line (a ++ d) = a ++ end_line d.
Proof.
  intros Hd. unfold end_line.
  assert (ends_with [LF] (a ++ d) = ends_with [LF] d) as ->.
  { apply Bool.eq_iff_eq_true. rewrite !ends_with_true. destruct d as [|x d _] using rev_ind; [done|].
    split; intros [r E].
    - rewrite app_assoc in E. apply app_inj_tail in E as [_ ->]. by exists d.
    - apply app_inj_tail in E as [-> ->]. exists (a ++ r). by rewrite app_assoc. }
  destruct (ends_with [LF] d); [done|]. by rewrite app_assoc.
Qed.

Lemma end_line_nonempty d : end_line d <> [] .
Proof. unfold end_line. destruct (ends_with [LF] d) eqn:E; [|by destruct d]. apply ends_with_true in E as [r ->]. by destruct r. Qed.

Lemma diff_loop_pieces t paired paths : forall handled agg,
  diff_loop sha1_hex text_diff t (rename_pairs t) paired handled paths agg
  = agg ++ concat (end_line <$> omap (print_net t) (net_of t <$> pieces (rename_pairs t) paired handled paths)).
Proof.
  induction paths as [|p paths IH]; intros handled agg; [by rewrite app_nil_r|]. cbn [diff_loop pieces].
  destruct (decide (p ∈ handled)); [apply IH|]. destruct (decide (p ∈ paired)); [apply IH|].
  cbn [fmap list_fmap omap list_omap].
  assert (print_net t (net_of t p) = match rename_pairs t !! p with
    | Some dest => render_rename_diff sha1_hex text_diff t p dest | None => render_path_diff sha1_hex text_diff t p end) as E
    by (unfold print_net, net_of; by destruct (rename_pairs t !! p)).
  pose proof (print_net_nonempty t (net_of t p)) as Hne. rewrite E in *.
  destruct (rename_pairs t !! p); (destruct (render_rename_diff _ _ _ _ _) as [d|] || destruct (render_path_diff _ _ _ _) as [d|]);
    rewrite IH; try done; cbn [fmap list_fmap concat]; rewrite end_line_app by (by apply Hne); by rewrite app_assoc.
Qed.

Lemma get_unified_diff_printed t :
  valid t = true -> get_unified_diff sha1_hex text_diff t = printed t (net_changes t).
Proof.
  intros Hv. unfold get_unified_diff, printed, net_changes. rewrite Hv. cbn [negb].
  rewrite diff_loop_pieces. cbn [app]. fold (paired_of t).
  destruct (omap _ _) as [|d ds]; [done|]. cbn [fmap list_fmap concat].
  destruct (end_line d) eqn:E; [by apply end_line_nonempty in E|done].
Qed.

End printing.

(** *** Which paths get a piece *)

Lemma elem_of_sort_by_text {A} (key : A -> str) (l : list A) x : x ∈ sort_by_text key l <-> x ∈ l.
Proof.
  unfold sort_by_text. induction l as [|y l IH]; [done|]. cbn. rewrite elem_of_cons, <- IH.
  generalize (foldr (insert_by_text key) [] l). intros s. clear IH.
  induction s as [|z s IH]; cbn; [set_solver|]. destruct (lex_compare _ _ _); set_solver.
Qed.

Lemma elem_of_keys {V} (m : gmap (list Component) V) p : p ∈ (map_iter m).*1 <-> is_Some (m !! p).
Proof.
  rewrite (map_iter_perm m). rewrite list_elem_of_fmap. split.
  - intros ([q v] & -> & Hin). apply elem_of_map_to_list in Hin. eauto.
  - intros [v Hv]. exists (p, v). split; [done|]. by apply elem_of_map_to_list.
Qed.

Lemma elem_of_sorted_keys t p :
  p ∈ sorted_keys t <-> is_Some (baseline_by_path t !! p) \/ is_Some (current_by_path t !! p).
Proof. unfold sorted_keys. by rewrite elem_of_dedup, elem_of_sort_by_text, elem_of_app, !elem_of_keys. Qed.

Lemma rename_pairs_spec t o d :
  rename_pairs t !! o = Some d -> origin_by_current_path t !! d = Some o /\ is_rename t d o = true.
Proof.
  unfold rename_pairs.
  assert (forall x, x ∈ map_iter (origin_by_current_path t) -> origin_by_current_path t !! x.1 = Some x.2) as Hin.
  { intros [d' o'] Hx. rewrite (map_iter_perm (origin_by_current_path t)) in Hx. by apply elem_of_map_to_list in Hx. }
  revert Hin. induction (map_iter (origin_by_current_path t)) as [|[d' o'] l IH] using rev_ind; [done|].
  intros Hin. rewrite foldl_app. cbn. destruct (is_rename t d' o') eqn:E.
  - destruct (decide (o' = o)) as [->|Hne].
    + rewrite lookup_insert_eq. intros [= <-]. split; [|done]. apply (Hin (d', o)). set_solver.
    + rewrite lookup_insert_ne by done. apply IH. intros x Hx. apply Hin. set_solver.
  - apply IH. intros x Hx. apply Hin. set_solver.
Qed.

Lemma is_rename_spec t d o :
  is_rename t d o = true ->
  d <> o /\ current_by_path t !! o = None /\ is_Some (current_by_path t !! d)
  /\ is_Some (baseline_by_path t !! o) /\ baseline_by_path t !! d = None.
Proof.
  unfold is_rename. rewrite negb_true_iff, !orb_false_iff. intros ((((H1 & H2) & H3) & H4) & H5).
  apply bool_decide_eq_false in H1. unfold is_some_and, is_none in *.
  destruct (current_by_path t !! o), (current_by_path t !! d), (baseline_by_path t !! o), (baseline_by_path t !! d);
    done.
Qed.

Lemma elem_of_paired t d : d ∈ paired_of t <-> exists o, rename_pairs t !! o = Some d.
Proof.
  unfold paired_of. rewrite elem_of_list_to_set, (map_iter_perm (rename_pairs t)), list_elem_of_fmap. split.
  - intros ([o d'] & -> & Hin). apply elem_of_map_to_list in Hin. eauto.
  - intros [o Ho]. exists (o, d). split; [done|]. by apply elem_of_map_to_list.
Qed.

Lemma elem_of_pieces (pairs : gmap (list Component) (list Component)) (paired : gset (list Component)) paths p :
  (forall o d, pairs !! o = Some d -> d ∈ paired) -> forall handled,
  p ∈ pieces pairs paired handled paths <-> p ∈ paths /\ p ∉ handled /\ p ∉ paired.
Proof.
  intros Hp. induction paths as [|q paths IH]; intros handled; cbn [pieces]; [set_solver|].
  destruct (decide (q ∈ handled)); [rewrite IH; set_solver|].
  destruct (decide (q ∈ paired)); [rewrite IH; set_solver|].
  rewrite elem_of_cons, IH. destruct (pairs !! q) as [d|] eqn:E; [apply Hp in E|];
    destruct (decide (p = q)) as [->|]; set_solver.
Qed.

Lemma pieces_NoDup (pairs : gmap (list Component) (list Component)) (paired : gset (list Component)) paths :
  (forall o d, pairs !! o = Some d -> d ∈ paired) -> forall handled, NoDup (pieces pairs paired handled paths).
Proof.
  intros Hp. induction paths as [|q paths IH]; intros handled; cbn [pieces]; [constructor|].
  destruct (decide (q ∈ handled)); [apply IH|]. destruct (decide (q ∈ paired)); [apply IH|].
  constructor; [|apply IH]. rewrite elem_of_pieces by done. destruct (pairs !! q); set_solver.
Qed.

Lemma pairs_paired t o d : rename_pairs t !! o = Some d -> d ∈ paired_of t.
Proof. intros Ho. apply elem_of_paired. eauto. Qed.

Lemma elem_of_net_changes t n :
  n ∈ net_changes t <->
  exists p, n = net_of t p /\ p ∉ paired_of t /\ (is_Some (baseline_by_path t !! p) \/ is_Some (current_by_path t !! p)).
Proof.
  unfold net_changes. rewrite list_elem_of_fmap. setoid_rewrite elem_of_pieces; [|apply pairs_paired].
  setoid_rewrite elem_of_sorted_keys. set_solver.
Qed.

Lemma net_changes_NoDup t : NoDup (left <$> net_changes t).
Proof.
  unfold net_changes. rewrite <- list_fmap_compose.
  rewrite (list_fmap_ext _ id), list_fmap_id by done. apply pieces_NoDup, pairs_paired.
Qed.

(** A path that no piece mentions has not changed. *)
Lemma net_changes_cover v0 v t q :
  follows v0 v t -> (forall n, n ∈ net_changes t -> q <> left n /\ q <> right n) -> v q = v0 q.
Proof.
  intros Hf Hn. specialize (Hf q).
  destruct (decide (q ∈ paired_of t)) as [Hp|Hp].
  - apply elem_of_paired in Hp as [o Ho]. destruct (rename_pairs_spec _ _ _ Ho) as [_ Hr].
    apply is_rename_spec in Hr as (_ & Hco & _ & Hbo & _). destruct (Hn (net_of t o)) as [_ Hright].
    + apply elem_of_net_changes. exists o. split_and!; [done| |by left]. rewrite elem_of_paired.
      intros [o' Ho']. destruct (rename_pairs_spec _ _ _ Ho') as [_ Hr'].
      apply is_rename_spec in Hr' as (_ & _ & [c Hc] & _). congruence.
    + unfold net_of in Hright. cbn in Hright. by rewrite Ho in Hright.
  - destruct (baseline_by_path t !! q) eqn:Eb, (current_by_path t !! q) eqn:Ec; try done; exfalso;
      (destruct (Hn (net_of t q)) as [Hl _]; [|done]);
      apply elem_of_net_changes; exists q; (split_and!; [done|done|]); rewrite Eb, Ec; eauto.
Qed.

(** The texts of a piece are those of before and of now, and a piece with two paths
    is a file that is gone at the one and new at the other. *)
Definition net_ok (v0 v : texts) (n : NetChange) : Prop :=
  left_text n = v0 (left n) /\ right_text n = v (right n)
  /\ (left n <> right n -> v (left n) = None /\ v0 (right n) = None).

Lemma net_changes_ok v0 v t n : follows v0 v t -> n ∈ net_changes t -> net_ok v0 v n.
Proof.
  intros Hf Hn. apply elem_of_net_changes in Hn as (p & -> & _ & Hkey). unfold net_ok, net_of. cbn.
  destruct (rename_pairs t !! p) as [d|] eqn:Ep; cbn.
  - destruct (rename_pairs_spec _ _ _ Ep) as [_ Hr]. apply is_rename_spec in Hr as (Hne & Hcp & [c Hcd] & [b Hbp] & Hbd).
    pose proof (Hf p) as Hp. pose proof (Hf d) as Hd. rewrite Hbp, Hcp in Hp. rewrite Hbd, Hcd in Hd.
    destruct Hp, Hd. by rewrite Hbp, Hcd.
  - specialize (Hf p). destruct (baseline_by_path t !! p) as [b|], (current_by_path t !! p) as [c|].
    4: by destruct Hkey as [[? ?]|[? ?]].
    all: by destruct Hf as [-> ->].
Qed.

Lemma do_nets (v' : texts) ns : forall v,
  (forall q, (forall n, n ∈ ns -> q <> left n /\ q <> right n) -> v q = v' q) ->
  Forall (fun n => right_text n = v' (right n) /\ (left n <> right n -> v' (left n) = None)) ns ->
  veq (foldl do_net v ns) v'.
Proof.
  induction ns as [|n ns IH]; intros v Hv Hns; [intros q; apply Hv; set_solver|]. cbn.
  apply Forall_cons in Hns as [[Hr Hl] Hns]. apply IH; [|done]. intros q Hq. unfold do_net, upd.
  destruct (decide (q = right n)) as [->|Hqr]; [done|].
  destruct (decide (q = left n)) as [->|Hql]; [by rewrite Hl|].
  apply Hv. intros m [->|Hm]%elem_of_cons; [done|]. by apply Hq.
Qed.

Lemma net_changes_do v0 v t : follows v0 v t -> veq (foldl do_net v0 (net_changes t)) v.
Proof.
  intros Hf. apply do_nets.
  - intros q Hq. symmetry. by eapply net_changes_cover.
  - apply Forall_forall. intros n Hn. destruct (net_changes_ok _ _ _ _ Hf Hn) as (_ & Hr & Hm).
    split; [done|]. intros Hne. by apply Hm.
Qed.
End diffs.

(** ** Turns *)

Lemma apply_changes_valid cs : forall t, valid (foldl apply_change t cs) = valid t.
Proof.
  induction cs as [|c cs IH]; intros t; [done|]. cbn. rewrite IH.
  assert (forall t' p before, valid (note_baseline t' p before) = valid t') as Hnote.
  { intros t' p before. unfold note_baseline. destruct before; [|done]. by destruct (unseen t' p). }
  unfold apply_change. destruct (change_kind c) as [content before|content|[dest|] old over new].
  - unfold apply_add. cbn. by rewrite Hnote.
  - unfold apply_delete. cbn. by destruct (_ && _).
  - unfold apply_update. unfold set_origin, set_current. cbn [valid]. by rewrite !Hnote.
  - unfold apply_update. unfold set_current. cbn [valid]. by rewrite Hnote.
Qed.

Section turns.
Context {FS : Type} `{FileSystemLaws FS} `{!MapOrder}.
Context (home : option str) (likely_denied : ExecToolCallOutput -> bool) (format : ExecToolCallOutput -> str).
Context (sha1_hex : list N -> str) (text_diff : str -> str -> str -> str -> str).

(** The attempts of one call, as the orchestrator makes them.  Before each the sandbox
    may change, which does not change the texts. *)
Inductive attempts (patch cwd : str) : FS * AppliedPatchDelta -> FS * AppliedPatchDelta -> Prop :=
| no_attempt s : attempts patch cwd s s
| one_attempt fs fs1 d s :
    veq (view fs) (view fs1) ->
    attempts patch cwd (runtime_run home likely_denied patch cwd (fs1, d)).1 s ->
    attempts patch cwd (fs, d) s.

(** A turn from [fs0]: the file system, the tracker and the diff shown last.  Texts are
    changed by patches only; no patch moves a file onto itself; an error that is
    neither a denial nor a timeout comes before the first attempt, as no attempt ends
    in one. *)
Inductive turn (fs0 : FS) (root : path) : FS -> TurnDiffTracker -> str -> Prop :=
| turn_start : turn fs0 root fs0 (with_display_root root) []
| turn_between fs fs' t shown :
    turn fs0 root fs t shown -> veq (view fs) (view fs') -> turn fs0 root fs' t shown
| turn_call fs fs' t shown patch cwd committed out stage answer :
    turn fs0 root fs t shown ->
    attempts patch cwd (fs, delta_empty) (fs', committed) ->
    Forall moves_elsewhere (changes committed) ->
    (forall e, out = Err (CodexError e) -> committed = delta_empty) ->
    finish_patch format out (Some committed) = Ok (stage, answer) ->
    turn fs0 root fs' (emit_patch sha1_hex text_diff t stage).1 (default shown (emit_patch sha1_hex text_diff t stage).2).

Lemma runtime_run_advances patch cwd s : advances s (runtime_run home likely_denied patch cwd s).1.
Proof.
  pose proof (apply_patch_tracks home vec_writeln patch cwd [] [] s.1) as [Hset Ht]. cbv zeta in *.
  unfold runtime_run. destruct (apply_patch home vec_writeln patch cwd [] [] s.1) as [[[fs w1] w2] [d|f| |]]; try done;
    intros Hex; cbn in *; apply andb_true_iff in Hex as [Hs Hd]; (split; [done|]); eexists; (split; [done|by apply Ht]).
Qed.

Lemma attempts_advance patch cwd s s' : attempts patch cwd s s' -> advances s s'.
Proof.
  induction 1 as [[fs d]|fs fs1 d s Hv Hrun IH]; [by apply advances_same|].
  apply advances_trans with (fs1, d).
  - apply advances_unchanged; [done|]. intros Hd. split; [done|]. intros q. by rewrite (Hv q).
  - apply advances_trans with (runtime_run home likely_denied patch cwd (fs1, d)).1; [apply runtime_run_advances|done].
Qed.

(** The update that a call makes: the committed delta, nothing where nothing was
    committed, or the end of tracking. *)
Lemma call_update t out committed stage answer :
  (forall e, out = Err (CodexError e) -> committed = delta_empty) ->
  finish_patch format out (Some committed) = Ok (stage, answer) ->
  exists update, emit_patch sha1_hex text_diff t stage = emit_patch_end sha1_hex text_diff t update
    /\ (update = Invalidate \/ update = Track committed \/ (update = NoUpdate /\ changes committed = [] /\ exact committed = true)).
Proof.
  intros Hother Hfin.
  assert (let u := tracker_update_for_known_delta committed in
    u = Invalidate \/ u = Track committed \/ (u = NoUpdate /\ changes committed = [] /\ exact committed = true)) as Hknown.
  { unfold tracker_update_for_known_delta. destruct (exact committed), (changes committed) eqn:E; cbn; auto. }
  destruct out as [output|[output|output|e|msg]| |]; try done; injection Hfin as <- _;
    (eexists; split; [reflexivity|]); auto.
  right; right. by rewrite (Hother e).
Qed.

Lemma no_diff_at_start root : get_unified_diff sha1_hex text_diff (with_display_root root) = None.
Proof.
  rewrite get_unified_diff_printed by done. unfold net_changes.
  destruct (sorted_keys (with_display_root root)) as [|p ps] eqn:E; [done|].
  assert (p ∈ sorted_keys (with_display_root root)) as Hp by (rewrite E; by left).
  apply elem_of_sorted_keys in Hp. cbn in Hp. rewrite !lookup_empty in Hp. by destruct Hp as [[? ?]|[? ?]].
Qed.

Lemma shown_diff (t : TurnDiffTracker) update shown :
  shown = default [] (get_unified_diff sha1_hex text_diff t) ->
  let out := emit_patch_end sha1_hex text_diff t update in
  default shown out.2 = default [] (get_unified_diff sha1_hex text_diff out.1).
Proof.
  intros ->. unfold emit_patch_end.
  destruct update; cbn; destruct (get_unified_diff sha1_hex text_diff t); cbn; try done;
    by destruct (get_unified_diff _ _ _).
Qed.

Lemma turn_follows fs0 root fs t shown :
  turn fs0 root fs t shown ->
  shown = default [] (get_unified_diff sha1_hex text_diff t) /\ (valid t = true -> follows (view fs0) (view fs) t).
Proof.
  induction 1 as [|fs fs' t shown _ [-> IH] Hv|fs fs' t shown patch cwd committed out stage answer _ [Hs IH] Hrun Hm Hother Hfin].
  - split; [by rewrite no_diff_at_start|]. intros _ q. cbn. by rewrite !lookup_empty.
  - split; [done|]. intros Hval. eapply follows_proper; [exact Hv|by apply IH].
  - destruct (call_update t _ _ _ _ Hother Hfin) as (update & -> & Hu). split; [by apply shown_diff|].
    apply attempts_advance in Hrun. unfold advances in Hrun. cbn in Hrun.
    destruct Hu as [->|[->|(-> & Hnil & Hex)]]; cbn.
    + done.
    + unfold track_delta. destruct (exact committed) eqn:Eex; cbn; [|done]. rewrite apply_changes_valid. intros Hval.
      destruct (Hrun eq_refl) as (_ & cs & Hcs & Hrep & _ & Hrev). rewrite Hcs in *.
      eapply follows_proper; [exact Hrep|]. by apply apply_changes_follow; [apply IH| |].
    + intros Hval. destruct (Hrun Hex) as (_ & cs & Hcs & Hrep & _). rewrite Hcs in Hnil. subst cs.
      eapply follows_proper; [exact Hrep|by apply IH].
Qed.
End turns.

(** C9: The diff of a turn is the net effect of its patches.  On a file system with the
    laws of [FileSystemLaws], as long as only patches change files during the turn, none of
    them moves a file onto itself, and an error that is neither a denial nor a timeout comes
    before the first attempt of a call: however the calls of the turn go, with attempts denied and repeated, failures
    half-way and overwritten files, the diff that was shown last is the one the tracker gives now; and while
    the tracker is valid, that diff prints a list of net changes, one for each path
    that they start from, whose texts are those of the files at the start of the turn
    and of now, and which turn the one into the other; a change is left out of the
    text exactly when its two texts are equal (a file renamed as it was).  *)
Theorem turn_diff_exact {FS : Type} `{FileSystemLaws FS} `{!MapOrder} home likely_denied format sha1_hex text_diff
    (fs0 fs : FS) root t shown :
  turn home likely_denied format sha1_hex text_diff fs0 root fs t shown ->
  shown = default [] (get_unified_diff sha1_hex text_diff t)
  /\ (valid t = true ->
      let ns := net_changes t in
      get_unified_diff sha1_hex text_diff t = printed sha1_hex text_diff t ns
      /\ veq (foldl do_net (view fs0) ns) (view fs)
      /\ NoDup (left <$> ns)
      /\ Forall (net_ok (view fs0) (view fs)) ns
      /\ forall n, print_net sha1_hex text_diff t n = None <-> left_text n = right_text n).
Proof.
  intros Hturn. apply turn_follows in Hturn as [-> Hf]. split; [done|]. intros Hval. specialize (Hf Hval).
  split_and!.
  - by apply get_unified_diff_printed.
  - by apply net_changes_do.
  - apply net_changes_NoDup.
  - apply Forall_forall. intros n Hn. by eapply net_changes_ok.
  - apply print_net_none.
Qed.

(** ** Examples *)

Definition no_sha (bytes : list N) : str := L"0".
Definition plain_diff (old new old_header new_header : str) : str := new.

(** One call with one attempt, from the small tree. *)
Definition first_run (patch : str) : (MemFs.t * AppliedPatchDelta) :=
  (runtime_run None (fun _ => false) patch (L"/w") (small_tree, delta_empty)).1.
Definition call_output : ExecToolCallOutput := mkOutput 0 [] [] [].
Definition after_call (patch : str) : TurnDiffTracker * option str :=
  emit_patch no_sha plain_diff (with_display_root (components (L"/w"))) (StageSuccess call_output (Some (first_run patch).2)).

(** A file is changed and renamed, and another is added. *)
Definition rename_patch : str :=
  unlines [L"*** Begin Patch"; L"*** Update File: a"; L"*** Move to: d/b"; L"@@"; L"-one"; L"+two";
           L"*** Add File: n"; L"+new"; L"*** End Patch"].

Lemma turn_diff_exact_witness :
  let t := (after_call rename_patch).1 in
  length (net_changes t) = 2 /\ valid t = true
  /\ veq (foldl do_net (view small_tree) (net_changes t)) (view (first_run rename_patch).1)
  /\ get_unified_diff no_sha plain_diff t = printed no_sha plain_diff t (net_changes t).
Proof.
  cbv zeta. split; [vm_compute; reflexivity|]. split; [vm_compute; reflexivity|].
  destruct (turn_diff_exact None (fun _ => false) out_stdout no_sha plain_diff small_tree (first_run rename_patch).1
    (components (L"/w")) (after_call rename_patch).1 (default [] (after_call rename_patch).2)) as [_ Hdiff].
  - eapply (turn_call _ _ _ _ _ _ _ small_tree _ _ [] rename_patch (L"/w") (first_run rename_patch).2 (Ok call_output));
      [apply turn_start| |vm_compute; repeat constructor; discriminate|discriminate|reflexivity].
    eapply one_attempt; [reflexivity|]. rewrite <- surjective_pairing. apply no_attempt.
  - destruct Hdiff as (Hp & Hv & _); [vm_compute; reflexivity|]. split; [exact Hv|exact Hp].
Defined.

(** A file that is moved onto itself is removed, and the diff of the turn shows it with
    its new text. *)
Definition self_move_patch : str :=
  unlines [L"*** Begin Patch"; L"*** Update File: a"; L"*** Move to: ./a"; L"@@"; L"-one"; L"+two"; L"*** End Patch"].

Example self_move_shown_as_update :
  let t := (after_call self_move_patch).1 in
  valid t = true
  /\ view (first_run self_move_patch).1 (components (L"/w/a")) = None
  /\ net_changes t = [mkNet (components (L"/w/a")) (Some (L"one" ++ [LF])) (components (L"/w/a")) (Some (L"two" ++ [LF]))].
Proof. vm_compute. done. Qed.
