(* ===== verification/ConfigRequirements.v ===== *)
(** * The requirements of administrators (config/src/config_requirements.rs,
    requirements_exec_policy.rs, hook_config.rs; loader/mod.rs)

    What a managed machine allows: tables of several sources, merged so that the first
    source that speaks of a field decides it, and turned into constraints on the
    settings of a session.  The wildmatch crate, the name of the host and the texts of
    hooks in messages are arguments. *)

From S2P Require Import Prelude RustStr AbsolutePath ExecPolicy SandboxPaths Permissions PermissionProfiles ExecApproval ConfigToml ConfigLayers.

Inductive RequirementSource :=
| SourceUnknown
| MdmManagedPreferences (domain key : str)
| CloudRequirements
| SystemRequirementsToml (file : list Component)
| LegacyManagedConfigTomlFromFile (file : list Component)
| LegacyManagedConfigTomlFromMdm.

Definition source_display (s : RequirementSource) : str :=
  match s with
  | SourceUnknown => L"<unspecified>"
  | MdmManagedPreferences domain key => L"MDM " ++ domain ++ L":" ++ key
  | CloudRequirements => L"cloud requirements"
  | SystemRequirementsToml file | LegacyManagedConfigTomlFromFile file => display file
  | LegacyManagedConfigTomlFromMdm => L"MDM managed_config.toml (legacy)"
  end.

Inductive ConstraintError :=
| InvalidValue (field_name candidate allowed : str) (requirement_source : RequirementSource)
| EmptyField (field_name : str)
| ExecPolicyParse (requirement_source : RequirementSource) (reason : str).

(** [format!("{value:?}")]. *)
Class Debug (A : Type) := debug : A -> str.
#[export] Instance debug_list {A} `{!Debug A} : Debug (list A) :=
  fun l => L"[" ++ join (L", ") (debug <$> l) ++ L"]".
#[export] Instance debug_option {A} `{!Debug A} : Debug (option A) :=
  fun o => match o with Some a => L"Some(" ++ debug a ++ L")" | None => L"None" end.
#[export] Instance debug_bool : Debug bool := fun b => if b then L"true" else L"false".

(** ** Settings that are constrained *)

Inductive ApprovalsReviewer := ReviewerUser | AutoReview.
Inductive SandboxMode := ModeReadOnly | ModeWorkspaceWrite | ModeDangerFullAccess.
Inductive WebSearchMode := SearchDisabled | SearchCached | SearchLive.
Inductive SandboxModeRequirement := ReqReadOnly | ReqWorkspaceWrite | ReqDangerFullAccess | ReqExternalSandbox.
Inductive WebSearchModeRequirement := WebDisabled | WebCached | WebLive.
Inductive ResidencyRequirement := Us.

#[export] Instance granular_eq_dec : EqDecision GranularApprovalConfig.
Proof. solve_decision. Defined.
#[export] Instance ask_eq_dec : EqDecision AskForApproval.
Proof. solve_decision. Defined.
#[export] Instance reviewer_eq_dec : EqDecision ApprovalsReviewer.
Proof. solve_decision. Defined.
#[export] Instance sandbox_requirement_eq_dec : EqDecision SandboxModeRequirement.
Proof. solve_decision. Defined.
#[export] Instance web_requirement_eq_dec : EqDecision WebSearchModeRequirement.
Proof. solve_decision. Defined.
#[export] Instance residency_eq_dec : EqDecision ResidencyRequirement.
Proof. solve_decision. Defined.

#[export] Instance debug_granular : Debug GranularApprovalConfig := fun g =>
  L"GranularApprovalConfig { sandbox_approval: " ++ debug (sandbox_approval g) ++ L", rules: " ++ debug (rules_approval g)
  ++ L", skill_approval: " ++ debug (skill_approval g) ++ L", request_permissions: " ++ debug (request_permissions g)
  ++ L", mcp_elicitations: " ++ debug (mcp_elicitations g) ++ L" }".
#[export] Instance debug_ask : Debug AskForApproval := fun a =>
  match a with
  | UnlessTrusted => L"UnlessTrusted" | OnFailure => L"OnFailure" | OnRequest => L"OnRequest"
  | Granular g => L"Granular(" ++ debug g ++ L")" | Never => L"Never"
  end.
#[export] Instance debug_reviewer : Debug ApprovalsReviewer := fun r =>
  match r with ReviewerUser => L"User" | AutoReview => L"AutoReview" end.
#[export] Instance debug_mode : Debug SandboxModeRequirement := fun m =>
  match m with
  | ReqReadOnly => L"ReadOnly" | ReqWorkspaceWrite => L"WorkspaceWrite"
  | ReqDangerFullAccess => L"DangerFullAccess" | ReqExternalSandbox => L"ExternalSandbox"
  end.
#[export] Instance debug_search : Debug WebSearchMode := fun m =>
  match m with SearchDisabled => L"Disabled" | SearchCached => L"Cached" | SearchLive => L"Live" end.
#[export] Instance debug_residency : Debug ResidencyRequirement := fun _ => L"Us".

Definition ask_default : AskForApproval := OnRequest.
Definition reviewer_default : ApprovalsReviewer := ReviewerUser.

Definition web_requirement_of (mode : WebSearchMode) : WebSearchModeRequirement :=
  match mode with SearchDisabled => WebDisabled | SearchCached => WebCached | SearchLive => WebLive end.
Definition web_mode_of (mode : WebSearchModeRequirement) : WebSearchMode :=
  match mode with WebDisabled => SearchDisabled | WebCached => SearchCached | WebLive => SearchLive end.
Definition requirement_of_mode (mode : SandboxMode) : SandboxModeRequirement :=
  match mode with
  | ModeReadOnly => ReqReadOnly | ModeWorkspaceWrite => ReqWorkspaceWrite | ModeDangerFullAccess => ReqDangerFullAccess
  end.

Definition sandbox_mode_requirement_for_permission_profile (p : PermissionProfile) : SandboxModeRequirement :=
  match p with
  | Disabled => ReqDangerFullAccess
  | External _ => ReqExternalSandbox
  | Managed _ _ =>
      let file_system_policy := file_system_sandbox_policy p in
      if has_full_disk_write_access file_system_policy then ReqDangerFullAccess
      else if existsb (fun entry => can_write (access entry)) (entries file_system_policy) then ReqWorkspaceWrite
      else ReqReadOnly
  end.

(** ** Hooks (hook_config.rs) *)

Inductive HookHandlerConfig :=
| HookCommand (command : str) (timeout_sec : option N) (is_async : bool) (status_message : option str)
| HookPrompt
| HookAgent.
Record MatcherGroup := mkGroup { matcher : option str; group_hooks : list HookHandlerConfig }.
Record HookEventsToml := mkHookEvents {
  pre_tool_use : list MatcherGroup;
  permission_request : list MatcherGroup;
  post_tool_use : list MatcherGroup;
  pre_compact : list MatcherGroup;
  post_compact : list MatcherGroup;
  session_start : list MatcherGroup;
  user_prompt_submit : list MatcherGroup;
  stop : list MatcherGroup }.
Record ManagedHooksRequirementsToml := mkManagedHooks {
  managed_dir : option (list Component);
  windows_managed_dir : option (list Component);
  hook_events : HookEventsToml }.

#[export] Instance hook_handler_eq_dec : EqDecision HookHandlerConfig.
Proof. solve_decision. Defined.
#[export] Instance matcher_group_eq_dec : EqDecision MatcherGroup.
Proof. solve_decision. Defined.
#[export] Instance hook_events_eq_dec : EqDecision HookEventsToml.
Proof. solve_decision. Defined.
#[export] Instance managed_hooks_eq_dec : EqDecision ManagedHooksRequirementsToml.
Proof. solve_decision. Defined.

Definition hook_groups (h : HookEventsToml) : list (list MatcherGroup) :=
  [pre_tool_use h; permission_request h; post_tool_use h; pre_compact h; post_compact h; session_start h;
   user_prompt_submit h; stop h].
Definition hook_events_is_empty (h : HookEventsToml) : bool := forallb is_nil (hook_groups h).
Definition handler_count (h : HookEventsToml) : nat :=
  sum_list ((fun group => length (group_hooks group)) <$> concat (hook_groups h)).
Definition managed_hooks_is_empty (h : ManagedHooksRequirementsToml) : bool :=
  is_none (managed_dir h) && is_none (windows_managed_dir h) && hook_events_is_empty (hook_events h).

(** ** Servers, plugins, features and apps *)

Inductive McpServerIdentity := IdentityCommand (command : str) | IdentityUrl (url : str).
Record McpServerRequirement := mkServer { identity : McpServerIdentity }.
Record PluginRequirementsToml := mkPlugin { plugin_mcp_servers : option (gmap str McpServerRequirement) }.

(** A map is empty when it has no entry. *)
Definition map_is_empty {V} (m : gmap str V) : bool := is_nil (map_to_list m).

Definition plugin_is_empty (p : PluginRequirementsToml) : bool :=
  match plugin_mcp_servers p with Some m => map_is_empty m | None => true end.

Abbreviation FeatureRequirementsToml := (gmap str bool).

(** An app with its [enabled]. *)
Abbreviation AppsRequirementsToml := (gmap str (option bool)).
Definition apps_is_empty (apps : AppsRequirementsToml) : bool :=
  forallb (fun '(_, enabled) => is_none enabled) (map_to_list apps).

Definition merge_enabled (higher_precedence lower_precedence : option bool) : option bool :=
  if bool_decide (higher_precedence = Some false) || bool_decide (lower_precedence = Some false) then Some false
  else match higher_precedence with Some b => Some b | None => lower_precedence end.

Definition merge_enablement_settings_descending (base incoming : AppsRequirementsToml) : AppsRequirementsToml :=
  foldl (fun base '(app_id, lower_precedence) =>
           <[app_id := merge_enabled (default None (base !! app_id)) lower_precedence]> base)
    base (map_to_list incoming).

(** ** The network *)

Inductive NetworkDomainPermissionToml := DomainAllow | DomainDeny.
Inductive NetworkUnixSocketPermissionToml := SocketAllow | SocketNone.

#[export] Instance domain_permission_eq_dec : EqDecision NetworkDomainPermissionToml.
Proof. solve_decision. Defined.
#[export] Instance socket_permission_eq_dec : EqDecision NetworkUnixSocketPermissionToml.
Proof. solve_decision. Defined.

(** A [BTreeMap]: entries in the order of their keys. *)
Abbreviation NetworkDomainPermissionsToml := (gmap str NetworkDomainPermissionToml).
Abbreviation NetworkUnixSocketPermissionsToml := (gmap str NetworkUnixSocketPermissionToml).
Definition sorted_keys_where {V} `{EqDecision V} (m : gmap str V) (v : V) : list str :=
  merge_sort (compare_le (lex_compare N.compare)) (filter (fun kv => kv.2 = v) (map_to_list m)).*1.

Definition unless_empty (l : list str) : option (list str) := if is_nil l then None else Some l.
Definition domains_allowed (m : NetworkDomainPermissionsToml) : option (list str) :=
  unless_empty (sorted_keys_where m DomainAllow).
Definition domains_denied (m : NetworkDomainPermissionsToml) : option (list str) :=
  unless_empty (sorted_keys_where m DomainDeny).
Definition sockets_allowed (m : NetworkUnixSocketPermissionsToml) : list str := sorted_keys_where m SocketAllow.

Record NetworkRequirementsToml := mkNetworkToml {
  network_enabled : option bool;
  http_port : option N;
  socks_port : option N;
  allow_upstream_proxy : option bool;
  dangerously_allow_non_loopback_proxy : option bool;
  dangerously_allow_all_unix_sockets : option bool;
  network_domains : option NetworkDomainPermissionsToml;
  managed_allowed_domains_only : option bool;
  network_unix_sockets : option NetworkUnixSocketPermissionsToml;
  allow_local_binding : option bool }.

(** [NetworkConstraints] has the same fields. *)
Definition network_constraints_from (value : NetworkRequirementsToml) : NetworkRequirementsToml := value.

(** The table as it is written, with the older lists beside it. *)
Record RawNetworkRequirementsToml := mkRawNetwork {
  raw_network : NetworkRequirementsToml;
  raw_allowed_domains : option (list str);
  raw_denied_domains : option (list str);
  raw_allow_unix_sockets : option (list str) }.

Definition legacy_domain_permissions_from_lists (allowed_domains denied_domains : option (list str))
  : option NetworkDomainPermissionsToml :=
  let m : NetworkDomainPermissionsToml := foldl (fun m p => <[p := DomainAllow]> m) ∅ (default [] allowed_domains) in
  let m := foldl (fun m p => <[p := DomainDeny]> m) m (default [] denied_domains) in
  if map_is_empty m then None else Some m.

Definition legacy_unix_socket_permissions_from_list (allow_unix_sockets : option (list str))
  : option NetworkUnixSocketPermissionsToml :=
  let m : NetworkUnixSocketPermissionsToml := foldl (fun m p => <[p := SocketAllow]> m) ∅ (default [] allow_unix_sockets) in
  if map_is_empty m then None else Some m.

Definition is_set {A} (o : option A) : bool := negb (is_none o).

Definition or_else {A} (o p : option A) : option A := match o with Some a => Some a | None => p end.

Definition network_requirements_from_raw (raw : RawNetworkRequirementsToml) : result str NetworkRequirementsToml :=
  let n := raw_network raw in
  if is_set (network_domains n) && (is_set (raw_allowed_domains raw) || is_set (raw_denied_domains raw))
  then Err (L"`experimental_network.domains` cannot be combined with legacy `allowed_domains` or `denied_domains`")
  else if is_set (network_unix_sockets n) && is_set (raw_allow_unix_sockets raw)
  then Err (L"`experimental_network.unix_sockets` cannot be combined with legacy `allow_unix_sockets`")
  else Ok (mkNetworkToml (network_enabled n) (http_port n) (socks_port n) (allow_upstream_proxy n)
             (dangerously_allow_non_loopback_proxy n) (dangerously_allow_all_unix_sockets n)
             (or_else (network_domains n)
                (legacy_domain_permissions_from_lists (raw_allowed_domains raw) (raw_denied_domains raw)))
             (managed_allowed_domains_only n)
             (or_else (network_unix_sockets n) (legacy_unix_socket_permissions_from_list (raw_allow_unix_sockets raw)))
             (allow_local_binding n)).

(** ** Paths that may not be read *)

Definition is_glob_metacharacter (ch : char) : bool := bool_decide (ch ∈ [42%N; 63%N; 91%N]).

(** The text before the first glob character. *)
Fixpoint literal_part (input : str) : str :=
  match input with
  | [] => []
  | ch :: rest => if is_glob_metacharacter ch then [] else ch :: literal_part rest
  end.

(** The index of the last separator. *)
Definition last_separator (s : str) : option nat :=
  match last (filter (fun ic => ic.2 = SLASH) (imap pair s)) with Some (i, _) => Some i | None => None end.

Definition split_glob_pattern (input : str) : str * str :=
  if negb (existsb is_glob_metacharacter input) then ([], input)
  else match last_separator (literal_part input) with
       | Some O => ([SLASH], drop 1 input)
       | Some index => (take index input, drop (S index) input)
       | None => ([], input)
       end.

Section paths.
(** The home directory, the base of relative paths while a table is read, the current
    directory and the error for it. *)
Context (home base cwd : option str) (current_dir_error : str).

Definition deserialize_absolute_path (input : str) : result str (list Component) :=
  match base with
  | Some base => Ok (resolve_path_against_base home input base)
  | None =>
      if is_absolute input
      then match from_absolute_path home cwd input with Some p => Ok p | None => Err current_dir_error end
      else Err (L"AbsolutePathBuf deserialized without a base path")
  end.

(** [FilesystemDenyReadPattern::from_input]. *)
Definition deny_read_pattern_from_input (input : str) : result str str :=
  if negb (existsb is_glob_metacharacter input)
  then let? path := deserialize_absolute_path input in Ok (display path)
  else
    let '(directory_prefix, suffix) := split_glob_pattern input in
    let? prefix := deserialize_absolute_path (if is_nil directory_prefix then L"." else directory_prefix) in
    let normalized_prefix := display prefix in
    Ok (if is_nil suffix then normalized_prefix
        else if str_eqb normalized_prefix [SLASH] then [SLASH] ++ suffix
        else normalized_prefix ++ [SLASH] ++ suffix).
End paths.

(** [permissions.filesystem.deny_read]. *)
Record FilesystemRequirementsToml := mkFilesystemToml { deny_read : option (list str) }.
Record PermissionsRequirementsToml := mkPermissionsToml { permissions_filesystem : option FilesystemRequirementsToml }.
Definition filesystem_constraints_from (value : PermissionsRequirementsToml) : list str :=
  default [] (filesystem ← permissions_filesystem value; deny_read filesystem).

(** ** Rules for commands (requirements_exec_policy.rs) *)

Inductive RequirementsExecPolicyDecisionToml := TomlAllow | TomlPrompt | TomlForbidden.
Record RequirementsExecPolicyPatternTokenToml := mkTokenToml { token : option str; any_of : option (list str) }.
Record RequirementsExecPolicyPrefixRuleToml := mkRuleToml {
  rule_pattern : list RequirementsExecPolicyPatternTokenToml;
  rule_toml_decision : option RequirementsExecPolicyDecisionToml;
  rule_toml_justification : option str }.
Record RequirementsExecPolicyToml := mkRulesToml { prefix_rules : list RequirementsExecPolicyPrefixRuleToml }.

Inductive RequirementsExecPolicyParseError :=
| EmptyPrefixRules
| EmptyRulePattern (rule_index : nat)
| InvalidPatternToken (rule_index token_index : nat) (reason : str)
| EmptyJustification (rule_index : nat)
| MissingDecision (rule_index : nat)
| AllowDecisionNotAllowed (rule_index : nat).

Definition rules_error_display (e : RequirementsExecPolicyParseError) : str :=
  let at_ i := L"rules prefix_rule at index " ++ show_nat i in
  match e with
  | EmptyPrefixRules => L"rules prefix_rules cannot be empty"
  | EmptyRulePattern i => at_ i ++ L" has an empty pattern"
  | InvalidPatternToken i j reason => at_ i ++ L" has an invalid pattern token at index " ++ show_nat j ++ L": " ++ reason
  | EmptyJustification i => at_ i ++ L" has an empty justification"
  | MissingDecision i => at_ i ++ L" is missing a decision"
  | AllowDecisionNotAllowed i =>
      at_ i ++ L" has decision 'allow', which is not permitted in requirements.toml: Codex merges these rules with other config and uses the most restrictive result (use 'prompt' or 'forbidden')"
  end.

Definition as_decision (d : RequirementsExecPolicyDecisionToml) : Decision :=
  match d with TomlAllow => Allow | TomlPrompt => Prompt | TomlForbidden => Forbidden end.

Definition is_blank (s : str) : bool := is_nil (trim s).

Definition parse_requirements_token (t : RequirementsExecPolicyPatternTokenToml) (rule_index token_index : nat)
  : result RequirementsExecPolicyParseError PatternToken :=
  let invalid reason := Err (InvalidPatternToken rule_index token_index reason) in
  match token t, any_of t with
  | Some single, None => if is_blank single then invalid (L"token cannot be empty") else Ok (Single single)
  | None, Some alternatives =>
      if is_nil alternatives then invalid (L"any_of cannot be empty")
      else if existsb is_blank alternatives then invalid (L"any_of cannot include empty tokens")
      else Ok (Alts alternatives)
  | Some _, Some _ => invalid (L"set either token or any_of, not both")
  | None, None => invalid (L"set either token or any_of")
  end.

(** One rule: its heads are added to the map. *)
Definition add_requirements_rule (rule_index : nat) (rule : RequirementsExecPolicyPrefixRuleToml)
  (rules_by_program : gmap str (list PrefixRule)) : result RequirementsExecPolicyParseError (gmap str (list PrefixRule)) :=
  if is_some_and (rule_toml_justification rule) is_blank then Err (EmptyJustification rule_index)
  else if is_nil (rule_pattern rule) then Err (EmptyRulePattern rule_index)
  else
    let? pattern_tokens := traverse (fun '(token_index, token) => parse_requirements_token token rule_index token_index)
                             (imap pair (rule_pattern rule)) in
    let? decision := match rule_toml_decision rule with
                     | Some TomlAllow => Err (AllowDecisionNotAllowed rule_index)
                     | Some decision => Ok (as_decision decision)
                     | None => Err (MissingDecision rule_index)
                     end in
    match pattern_tokens with
    | [] => Err (EmptyRulePattern rule_index)
    | first_token :: remaining_tokens =>
        Ok (foldl (fun m head => multimap_insert m head
                     (mkRule (mkPattern head remaining_tokens) decision (rule_toml_justification rule)))
              rules_by_program (alternatives first_token))
    end.

Fixpoint add_requirements_rules (rule_index : nat) (rules : list RequirementsExecPolicyPrefixRuleToml)
  (m : gmap str (list PrefixRule)) : result RequirementsExecPolicyParseError (gmap str (list PrefixRule)) :=
  match rules with
  | [] => Ok m
  | rule :: rest => let? m := add_requirements_rule rule_index rule m in add_requirements_rules (S rule_index) rest m
  end.

Definition to_policy (rules : RequirementsExecPolicyToml) : result RequirementsExecPolicyParseError Policy :=
  if is_nil (prefix_rules rules) then Err EmptyPrefixRules
  else let? m := add_requirements_rules 0 (prefix_rules rules) ∅ in Ok (policy_new m).

(** ** The tables *)

Record RemoteSandboxConfigToml := mkRemote {
  hostname_patterns : list str;
  remote_sandbox_modes : list SandboxModeRequirement }.

Record ConfigRequirementsToml := mkToml {
  t_approval_policies : option (list AskForApproval);
  t_approvals_reviewers : option (list ApprovalsReviewer);
  t_sandbox_modes : option (list SandboxModeRequirement);
  t_remote_sandbox_config : option (list RemoteSandboxConfigToml);
  t_web_search_modes : option (list WebSearchModeRequirement);
  t_features : option FeatureRequirementsToml;
  t_hooks : option ManagedHooksRequirementsToml;
  t_mcp_servers : option (gmap str McpServerRequirement);
  t_plugins : option (gmap str PluginRequirementsToml);
  t_apps : option AppsRequirementsToml;
  t_rules : option RequirementsExecPolicyToml;
  t_residency : option ResidencyRequirement;
  t_network : option NetworkRequirementsToml;
  t_permissions : option PermissionsRequirementsToml;
  t_guardian_policy_config : option str }.

Definition toml_default : ConfigRequirementsToml :=
  mkToml None None None None None None None None None None None None None None None.

Definition toml_is_empty (t : ConfigRequirementsToml) : bool :=
  is_none (t_approval_policies t) && is_none (t_approvals_reviewers t) && is_none (t_sandbox_modes t)
  && is_none (t_remote_sandbox_config t) && is_none (t_web_search_modes t)
  && match t_features t with Some f => map_is_empty f | None => true end
  && match t_hooks t with Some h => managed_hooks_is_empty h | None => true end
  && is_none (t_mcp_servers t)
  && match t_plugins t with Some ps => forallb (fun '(_, p) => plugin_is_empty p) (map_to_list ps) | None => true end
  && match t_apps t with Some a => apps_is_empty a | None => true end
  && is_none (t_rules t) && is_none (t_residency t) && is_none (t_network t) && is_none (t_permissions t)
  && match t_guardian_policy_config t with Some s => is_blank s | None => true end.

(** The older form of a managed configuration (loader/mod.rs). *)
Record LegacyManagedConfigToml := mkLegacy {
  legacy_approval_policy : option AskForApproval;
  legacy_approvals_reviewer : option ApprovalsReviewer;
  legacy_sandbox_mode : option SandboxMode }.

Definition toml_from_legacy (legacy : LegacyManagedConfigToml) : ConfigRequirementsToml :=
  mkToml ((fun policy => [policy]) <$> legacy_approval_policy legacy)
    ((fun reviewer => reviewer :: match reviewer with AutoReview => [ReviewerUser] | ReviewerUser => [] end)
       <$> legacy_approvals_reviewer legacy)
    ((fun mode => let required_mode := requirement_of_mode mode in
                  ReqReadOnly :: if bool_decide (required_mode <> ReqReadOnly) then [required_mode] else [])
       <$> legacy_sandbox_mode legacy)
    None None None None None None None None None None None None.

Record Sourced (T : Type) := mkSourced { sourced_value : T; sourced_from : RequirementSource }.
Arguments mkSourced {T}.
Arguments sourced_value {T}.
Arguments sourced_from {T}.

Record ConfigRequirementsWithSources := mkWithSources {
  s_approval_policies : option (Sourced (list AskForApproval));
  s_approvals_reviewers : option (Sourced (list ApprovalsReviewer));
  s_sandbox_modes : option (Sourced (list SandboxModeRequirement));
  s_web_search_modes : option (Sourced (list WebSearchModeRequirement));
  s_features : option (Sourced FeatureRequirementsToml);
  s_hooks : option (Sourced ManagedHooksRequirementsToml);
  s_mcp_servers : option (Sourced (gmap str McpServerRequirement));
  s_plugins : option (Sourced (gmap str PluginRequirementsToml));
  s_apps : option (Sourced AppsRequirementsToml);
  s_rules : option (Sourced RequirementsExecPolicyToml);
  s_residency : option (Sourced ResidencyRequirement);
  s_network : option (Sourced NetworkRequirementsToml);
  s_permissions : option (Sourced PermissionsRequirementsToml);
  s_guardian_policy_config : option (Sourced str) }.

Definition with_sources_default : ConfigRequirementsWithSources :=
  mkWithSources None None None None None None None None None None None None None None.

(** ** Merging *)

(** One field of [fill_missing_take!]. *)
Definition fill {T} (base : option (Sourced T)) (other : option T) (source : RequirementSource) : option (Sourced T) :=
  match base with
  | Some _ => base
  | None => (fun value => mkSourced value source) <$> other
  end.

Definition fill_apps (base : option (Sourced AppsRequirementsToml)) (other : option AppsRequirementsToml)
  (source : RequirementSource) : option (Sourced AppsRequirementsToml) :=
  match other with
  | None => base
  | Some incoming_apps =>
      match base with
      | Some existing_apps =>
          Some (mkSourced (merge_enablement_settings_descending (sourced_value existing_apps) incoming_apps)
                  (sourced_from existing_apps))
      | None => Some (mkSourced incoming_apps source)
      end
  end.

Definition merge_unset_fields (s : ConfigRequirementsWithSources) (source : RequirementSource)
  (other : ConfigRequirementsToml) : ConfigRequirementsWithSources :=
  let guardian_policy_config := if is_some_and (t_guardian_policy_config other) is_blank then None
                                else t_guardian_policy_config other in
  mkWithSources
    (fill (s_approval_policies s) (t_approval_policies other) source)
    (fill (s_approvals_reviewers s) (t_approvals_reviewers other) source)
    (fill (s_sandbox_modes s) (t_sandbox_modes other) source)
    (fill (s_web_search_modes s) (t_web_search_modes other) source)
    (fill (s_features s) (t_features other) source)
    (fill (s_hooks s) (t_hooks other) source)
    (fill (s_mcp_servers s) (t_mcp_servers other) source)
    (fill (s_plugins s) (t_plugins other) source)
    (fill_apps (s_apps s) (t_apps other) source)
    (fill (s_rules s) (t_rules other) source)
    (fill (s_residency s) (t_residency other) source)
    (fill (s_network s) (t_network other) source)
    (fill (s_permissions s) (t_permissions other) source)
    (fill (s_guardian_policy_config s) guardian_policy_config source).

Definition into_toml (s : ConfigRequirementsWithSources) : ConfigRequirementsToml :=
  mkToml (sourced_value <$> s_approval_policies s) (sourced_value <$> s_approvals_reviewers s)
    (sourced_value <$> s_sandbox_modes s) None (sourced_value <$> s_web_search_modes s) (sourced_value <$> s_features s)
    (sourced_value <$> s_hooks s) (sourced_value <$> s_mcp_servers s) (sourced_value <$> s_plugins s)
    (sourced_value <$> s_apps s) (sourced_value <$> s_rules s) (sourced_value <$> s_residency s)
    (sourced_value <$> s_network s) (sourced_value <$> s_permissions s) (sourced_value <$> s_guardian_policy_config s).

Section hosts.
Context (matches : str -> str -> bool).

Definition normalize_hostname (hostname : str) : option str :=
  let hostname := trim_end_matches (N.eqb 46) (trim hostname) in
  if is_nil hostname then None else Some (to_ascii_lowercase hostname).

Definition hostname_matches_any_pattern (hostname : str) (patterns : list str) : bool :=
  existsb (fun pattern => is_some_and (normalize_hostname pattern) (fun pattern => matches pattern hostname)) patterns.

Definition with_sandbox_modes (t : ConfigRequirementsToml) (modes : option (list SandboxModeRequirement))
  : ConfigRequirementsToml :=
  mkToml (t_approval_policies t) (t_approvals_reviewers t) modes (t_remote_sandbox_config t) (t_web_search_modes t)
    (t_features t) (t_hooks t) (t_mcp_servers t) (t_plugins t) (t_apps t) (t_rules t) (t_residency t) (t_network t)
    (t_permissions t) (t_guardian_policy_config t).

Definition apply_remote_sandbox_config (t : ConfigRequirementsToml) (hostname : option str) : ConfigRequirementsToml :=
  default t
    (remote_sandbox_config ← t_remote_sandbox_config t;
     hostname ← (hostname ≫= normalize_hostname);
     matched_config ← List.find (fun config => hostname_matches_any_pattern hostname (hostname_patterns config))
                        remote_sandbox_config;
     Some (with_sandbox_modes t (Some (remote_sandbox_modes matched_config)))).

Definition merge_requirements_with_remote_sandbox_config (host_name : option str)
  (target : ConfigRequirementsWithSources) (source : RequirementSource) (requirements : ConfigRequirementsToml)
  : ConfigRequirementsWithSources :=
  let requirements := if is_set (t_remote_sandbox_config requirements)
                      then apply_remote_sandbox_config requirements host_name else requirements in
  merge_unset_fields target source requirements.

(** The sources of [load_config_layers_state], from the highest precedence down. *)
Definition load_requirements (host_name : option str) (sources : list (RequirementSource * ConfigRequirementsToml))
  : ConfigRequirementsWithSources :=
  foldl (fun target '(source, requirements) =>
           merge_requirements_with_remote_sandbox_config host_name target source requirements)
    with_sources_default sources.
End hosts.

(** ** Constraints *)

Record ConstrainedWithSource (T : Type) := mkConstrainedWithSource {
  constrained : Constrained T ConstraintError;
  constraint_source : option RequirementSource }.
Arguments mkConstrainedWithSource {T}.
Arguments constrained {T}.
Arguments constraint_source {T}.

(** [ConfigRequirements], the form the session uses. *)
Record ManagedRequirements := mkManaged {
  approval_policy : ConstrainedWithSource AskForApproval;
  approvals_reviewer : ConstrainedWithSource ApprovalsReviewer;
  permission_profile : ConstrainedWithSource PermissionProfile;
  web_search_mode : ConstrainedWithSource WebSearchMode;
  feature_requirements : option (Sourced FeatureRequirementsToml);
  managed_hooks : option (ConstrainedWithSource ManagedHooksRequirementsToml);
  managed_mcp_servers : option (Sourced (gmap str McpServerRequirement));
  managed_plugins : option (Sourced (gmap str PluginRequirementsToml));
  managed_exec_policy : option (Sourced Policy);
  enforce_residency : ConstrainedWithSource (option ResidencyRequirement);
  managed_network : option (Sourced NetworkRequirementsToml);
  managed_filesystem : option (Sourced (list str));
  guardian_policy_config_source : option RequirementSource }.

Definition unconstrained {T} (initial_value : T) : ConstrainedWithSource T :=
  mkConstrainedWithSource (allow_any initial_value) None.

Definition managed_default : ManagedRequirements :=
  mkManaged (unconstrained ask_default) (unconstrained reviewer_default) (unconstrained profile_read_only)
    (unconstrained SearchCached) None None None None None (unconstrained None) None None None.

Definition exec_policy_source (r : ManagedRequirements) : option RequirementSource :=
  sourced_from <$> managed_exec_policy r.

(** [Constrained::new] with a validator that answers [InvalidValue]. *)
Definition constrain {T} (field_name : str) (source : RequirementSource) (initial_value : T)
  (allowed : T -> bool) (candidate_text : T -> str) (allowed_text : str)
  : result ConstraintError (ConstrainedWithSource T) :=
  let? c := constrained_new initial_value (fun candidate =>
              if allowed candidate then Ok tt
              else Err (InvalidValue field_name (candidate_text candidate) allowed_text source)) in
  Ok (mkConstrainedWithSource c (Some source)).

(** A list of allowed values; the first is the initial one. *)
Definition constrain_to_list {T} `{EqDecision T} `{!Debug T} (allowed_field field_name : str) (initial_value : T)
  (requirement : option (Sourced (list T))) : result ConstraintError (ConstrainedWithSource T) :=
  match requirement with
  | Some (mkSourced values source) =>
      match head values with
      | None => Err (EmptyField allowed_field)
      | Some first => constrain field_name source first (fun candidate => bool_decide (candidate ∈ values)) debug (debug values)
      end
  | None => Ok (unconstrained initial_value)
  end.

Definition constrain_profile (requirement : option (Sourced (list SandboxModeRequirement)))
  : result ConstraintError (ConstrainedWithSource PermissionProfile) :=
  match requirement with
  | Some (mkSourced modes source) =>
      if negb (bool_decide (ReqReadOnly ∈ modes))
      then Err (InvalidValue (L"allowed_sandbox_modes") (debug modes)
                  (L"must include 'read-only' to allow any PermissionProfile") source)
      else constrain (L"sandbox_mode") source profile_read_only
             (fun candidate => bool_decide (sandbox_mode_requirement_for_permission_profile candidate ∈ modes))
             (fun candidate => debug (sandbox_mode_requirement_for_permission_profile candidate)) (debug modes)
  | None => Ok (unconstrained profile_read_only)
  end.

(** [accepted] as the ordered set of the modes and [Disabled]. *)
Definition accepted_web_modes (modes : list WebSearchModeRequirement) : list WebSearchModeRequirement :=
  filter (fun m => m = WebDisabled \/ m ∈ modes) [WebDisabled; WebCached; WebLive].

Definition constrain_web_search (requirement : option (Sourced (list WebSearchModeRequirement)))
  : result ConstraintError (ConstrainedWithSource WebSearchMode) :=
  match requirement with
  | Some (mkSourced modes source) =>
      let accepted := accepted_web_modes modes in
      let initial_value := if bool_decide (WebCached ∈ accepted) then SearchCached
                           else if bool_decide (WebLive ∈ accepted) then SearchLive else SearchDisabled in
      constrain (L"web_search_mode") source initial_value
        (fun candidate => bool_decide (web_requirement_of candidate ∈ accepted)) debug (debug (web_mode_of <$> accepted))
  | None => Ok (unconstrained SearchCached)
  end.

Definition constrain_residency (requirement : option (Sourced ResidencyRequirement))
  : result ConstraintError (ConstrainedWithSource (option ResidencyRequirement)) :=
  match requirement with
  | Some (mkSourced residency source) =>
      let required := Some residency in
      constrain (L"enforce_residency") source required (fun candidate => bool_decide (candidate = required)) debug (debug required)
  | None => Ok (unconstrained None)
  end.

Definition requirements_policy (rules : option (Sourced RequirementsExecPolicyToml))
  : result ConstraintError (option (Sourced Policy)) :=
  match rules with
  | Some (mkSourced value source) =>
      let? policy := map_err (fun err => ExecPolicyParse source (rules_error_display err)) (to_policy value) in
      Ok (Some (mkSourced policy source))
  | None => Ok None
  end.

Section convert.
Context (debug_hooks : ManagedHooksRequirementsToml -> str).

Definition constrain_hooks (hooks : option (Sourced ManagedHooksRequirementsToml))
  : result ConstraintError (option (ConstrainedWithSource ManagedHooksRequirementsToml)) :=
  match hooks with
  | Some (mkSourced allowed source) =>
      if 0 <? handler_count (hook_events allowed)
      then let? c := constrain (L"hooks") source allowed (fun candidate => bool_decide (candidate = allowed)) debug_hooks
                       (debug_hooks allowed) in
           Ok (Some c)
      else Ok None
  | None => Ok None
  end.

(** [ConfigRequirements::try_from]. *)
Definition try_from (s : ConfigRequirementsWithSources) : result ConstraintError ManagedRequirements :=
  let? policy := constrain_to_list (L"allowed_approval_policies") (L"approval_policy") ask_default (s_approval_policies s) in
  let? reviewer := constrain_to_list (L"allowed_approvals_reviewers") (L"approvals_reviewer") reviewer_default
                     (s_approvals_reviewers s) in
  let? profile := constrain_profile (s_sandbox_modes s) in
  let? exec_policy := requirements_policy (s_rules s) in
  let? search := constrain_web_search (s_web_search_modes s) in
  let features := requirements ← s_features s;
                  if map_is_empty (sourced_value requirements) then None else Some requirements in
  let? hooks := constrain_hooks (s_hooks s) in
  let? residency := constrain_residency (s_residency s) in
  Ok (mkManaged policy reviewer profile search features hooks (s_mcp_servers s) (s_plugins s) exec_policy residency
        ((fun n => mkSourced (network_constraints_from (sourced_value n)) (sourced_from n)) <$> s_network s)
        ((fun p => mkSourced (filesystem_constraints_from (sourced_value p)) (sourced_from p)) <$> s_permissions s)
        (sourced_from <$> s_guardian_policy_config s)).
End convert.

(** What the stack of layers carries of the requirements. *)
Definition stack_requirements (r : ManagedRequirements) : ConfigRequirements :=
  mkRequirements (sourced_value <$> managed_exec_policy r).
