(* ===== verification/RequirementsSafety.v ===== *)
(** * What requirements guarantee (config/src/config_requirements.rs)

    Which source decides each field, and what a session can be set to under the
    constraints that follow, up to the paths a command may then write. *)

From S2P Require Import Prelude RustStr AbsolutePath ExecPolicy SandboxPaths Permissions PermissionProfiles ExecApproval ConfigToml ConfigLayers ConfigRequirements PermissionSafety ShellEnvironment.

(** ** The source that decides *)

Section sources.
Context (matches : str -> str -> bool) (host_name : option str).

(** A table as it reads on this host. *)
Definition on_host (t : ConfigRequirementsToml) : ConfigRequirementsToml :=
  if is_set (t_remote_sandbox_config t) then apply_remote_sandbox_config matches t host_name else t.

(** The first source that sets a field. *)
Definition first_source {T} (field : ConfigRequirementsToml -> option T)
  (sources : list (RequirementSource * ConfigRequirementsToml)) : option (Sourced T) :=
  head (omap (fun '(source, t) => (fun v => mkSourced v source) <$> field (on_host t)) sources).

Definition fill_from {T} (field : ConfigRequirementsToml -> option T) (base : option (Sourced T))
  (sources : list (RequirementSource * ConfigRequirementsToml)) : option (Sourced T) :=
  foldl (fun base '(source, t) => fill base (field (on_host t)) source) base sources.

Lemma fill_from_first {T} (field : ConfigRequirementsToml -> option T) sources : forall base,
  fill_from field base sources = match base with Some _ => base | None => first_source field sources end.
Proof.
  induction sources as [|[source t] sources IH]; intros base; [by destruct base|]. cbn. unfold fill_from in IH. rewrite IH.
  destruct base as [s|]; [done|]. cbn. unfold first_source. cbn. by destruct (field (on_host t)).
Qed.

(** What a source says of an app, and what they say together. *)
Definition app_setting (app_id : str) (t : ConfigRequirementsToml) : option bool :=
  default None (apps ← t_apps t; apps !! app_id).

Definition merged (sources : list (RequirementSource * ConfigRequirementsToml)) (s : ConfigRequirementsWithSources)
  : ConfigRequirementsWithSources :=
  foldl (fun target '(source, t) => merge_requirements_with_remote_sandbox_config matches host_name target source t) s sources.

Definition guardian_text (t : ConfigRequirementsToml) : option str :=
  if is_some_and (t_guardian_policy_config t) is_blank then None else t_guardian_policy_config t.

Lemma merged_fields sources : forall s,
  let r := merged sources s in
  s_approval_policies r = fill_from t_approval_policies (s_approval_policies s) sources
  /\ s_approvals_reviewers r = fill_from t_approvals_reviewers (s_approvals_reviewers s) sources
  /\ s_sandbox_modes r = fill_from t_sandbox_modes (s_sandbox_modes s) sources
  /\ s_web_search_modes r = fill_from t_web_search_modes (s_web_search_modes s) sources
  /\ s_features r = fill_from t_features (s_features s) sources
  /\ s_hooks r = fill_from t_hooks (s_hooks s) sources
  /\ s_mcp_servers r = fill_from t_mcp_servers (s_mcp_servers s) sources
  /\ s_plugins r = fill_from t_plugins (s_plugins s) sources
  /\ s_rules r = fill_from t_rules (s_rules s) sources
  /\ s_residency r = fill_from t_residency (s_residency s) sources
  /\ s_network r = fill_from t_network (s_network s) sources
  /\ s_permissions r = fill_from t_permissions (s_permissions s) sources
  /\ s_guardian_policy_config r = fill_from guardian_text (s_guardian_policy_config s) sources.
Proof.
  induction sources as [|[source t] sources IH]; intros s; [done|].
  exact (IH (merge_unset_fields s source (on_host t))).
Qed.

(** *** Apps *)

Definition sourced_setting (app_id : str) (s : option (Sourced AppsRequirementsToml)) : option bool :=
  default None (apps ← s; sourced_value apps !! app_id).

Lemma merge_enablement_lookup (base incoming : AppsRequirementsToml) app_id :
  default None (merge_enablement_settings_descending base incoming !! app_id)
  = merge_enabled (default None (base !! app_id)) (default None (incoming !! app_id)).
Proof.
  unfold merge_enablement_settings_descending.
  assert (forall l, NoDup l.*1 -> forall b : AppsRequirementsToml,
    default None (foldl (fun base '(app_id, lower) =>
      <[app_id := merge_enabled (default None (base !! app_id)) lower]> base) b l !! app_id)
    = merge_enabled (default None (b !! app_id))
        (default None ((list_to_map l : gmap str (option bool)) !! app_id))) as Hfold.
  { induction l as [|[k v] l IH]; intros Hnd b.
    - cbn. rewrite lookup_empty. unfold merge_enabled. cbn. by destruct (default None (b !! app_id)) as [[]|].
    - apply NoDup_cons in Hnd as [Hk Hnd]. cbn [foldl]. rewrite IH, list_to_map_cons by done.
      destruct (decide (k = app_id)) as [->|Hne].
      + rewrite !lookup_insert_eq. rewrite (not_elem_of_list_to_map_1 _ _ Hk).
        generalize (default None (b !! app_id)). intros x. by destruct x as [[]|], v as [[]|].
      + by rewrite !lookup_insert_ne. }
  rewrite Hfold by apply NoDup_fst_map_to_list. by rewrite list_to_map_to_list.
Qed.

Lemma merge_enabled_assoc a b c : merge_enabled (merge_enabled a b) c = merge_enabled a (merge_enabled b c).
Proof. by destruct a as [[]|], b as [[]|], c as [[]|]. Qed.

Lemma t_apps_on_host t : t_apps (on_host t) = t_apps t.
Proof.
  unfold on_host, apply_remote_sandbox_config. destruct (is_set _); [|done].
  destruct (t_remote_sandbox_config t) as [configs|]; [|done]. cbn. destruct (host_name ≫= normalize_hostname); [|done]. cbn.
  by destruct (List.find _ configs).
Qed.

Lemma merged_apps app_id sources : forall s,
  sourced_setting app_id (s_apps (merged sources s))
  = foldl merge_enabled (sourced_setting app_id (s_apps s)) ((fun '(_, t) => app_setting app_id t) <$> sources).
Proof.
  induction sources as [|[source t] sources IH]; intros s; [done|].
  change (merged ((source, t) :: sources) s) with (merged sources (merge_unset_fields s source (on_host t))).
  rewrite IH. cbn [fmap list_fmap foldl]. f_equal. cbn [s_apps merge_unset_fields]. rewrite t_apps_on_host.
  unfold sourced_setting, app_setting, fill_apps. destruct (t_apps t) as [apps|]; cbn.
  - destruct (s_apps s) as [[base from]|]; cbn; [apply merge_enablement_lookup|].
    unfold merge_enabled. by destruct (default None (apps !! app_id)) as [[]|].
  - unfold merge_enabled. by destruct (default None (s_apps s ≫= _)) as [[]|].
Qed.

(** Disabled by one is disabled; otherwise the first that speaks decides. *)
Definition joint_setting (settings : list (option bool)) : option bool :=
  if bool_decide (Some false ∈ settings) then Some false else head (omap id settings).

Lemma foldl_merge_enabled settings : forall b,
  foldl merge_enabled b settings = merge_enabled b (joint_setting settings).
Proof.
  induction settings as [|x settings IH]; intros b; cbn [foldl].
  { unfold joint_setting. rewrite bool_decide_eq_false_2 by apply not_elem_of_nil. by destruct b as [[]|]. }
  rewrite IH, merge_enabled_assoc. f_equal. unfold joint_setting.
  destruct (decide (Some false ∈ settings)) as [Hin|Hin].
  - rewrite !bool_decide_eq_true_2 by (set_solver). by destruct x as [[]|].
  - rewrite (bool_decide_eq_false_2 (Some false ∈ settings)) by done.
    destruct x as [[]|]; cbn.
    + rewrite bool_decide_eq_false_2 by set_solver.
      assert (head (omap id settings) <> Some false) as Hh.
      { intros E. apply Hin. destruct (omap id settings) as [|y ys] eqn:Eo; [done|]. injection E as ->.
        assert (false ∈ omap id settings) as Hf by (rewrite Eo; by left).
        apply list_elem_of_omap in Hf as (z & Hz & E). cbn in E. by subst z. }
      destruct (head (omap id settings)) as [[]|]; done.
    + rewrite bool_decide_eq_true_2 by set_solver. done.
    + rewrite bool_decide_eq_false_2 by set_solver. by destruct (head (omap id settings)) as [[]|].
Qed.
End sources.

(** ** Constraints in force *)

(** A setting after attempts to set it. *)
Definition reached {T E} (c : Constrained T E) (attempts : list T) : Constrained T E :=
  foldl (fun c x => (set c x).1) c attempts.

(** Whatever is attempted, the value is one that is allowed, and just those can be set. *)
Definition enforces {T} (c : ConstrainedWithSource T) (ok : T -> Prop) : Prop :=
  forall attempts, let c' := reached (constrained c) attempts in
  ok (value c') /\ forall x, can_set c' x = Ok tt <-> ok x.

Lemma set_validator {T E} (c : Constrained T E) x : validator (set c x).1 = validator c.
Proof. unfold set. by destruct (validator c _). Qed.

Lemma reached_satisfied {T E} attempts : forall c : Constrained T E,
  satisfied c -> satisfied (reached c attempts) /\ validator (reached c attempts) = validator c.
Proof.
  induction attempts as [|x attempts IH]; intros c Hc; [done|]. cbn.
  destruct (constrained_stays_satisfied c x (fun _ => Ok tt)) as (_ & _ & _ & Hset). destruct (Hset Hc) as (Hsat & _).
  destruct (IH _ Hsat) as [? Hv]. split; [done|]. by rewrite <- (set_validator c x).
Qed.

Lemma satisfied_enforces {T} (c : ConstrainedWithSource T) (ok : T -> Prop) :
  satisfied (constrained c) -> (forall x, can_set (constrained c) x = Ok tt <-> ok x) -> enforces c ok.
Proof.
  intros Hsat Hok attempts. cbv zeta. destruct (reached_satisfied attempts _ Hsat) as [Hs Hv]. unfold can_set, satisfied in *.
  rewrite Hv in *. split; [by apply Hok|done].
Qed.

Lemma unconstrained_enforces {T} (v : T) : enforces (unconstrained v) (fun _ => True).
Proof. by apply satisfied_enforces. Qed.

Lemma constrain_enforces {T} field source (v : T) allowed text all c :
  constrain field source v allowed text all = Ok c -> enforces c (fun x => allowed x = true).
Proof.
  unfold constrain, constrained_new. destruct (allowed v) eqn:Ev; [|done]. cbn. intros [= <-].
  apply satisfied_enforces; unfold satisfied, can_set; cbn; [by rewrite Ev|].
  intros x. by destruct (allowed x).
Qed.

Lemma enforces_iff {T} (c : ConstrainedWithSource T) (P Q : T -> Prop) :
  (forall x, P x <-> Q x) -> enforces c P -> enforces c Q.
Proof. intros Hpq Hc attempts. destruct (Hc attempts) as [Hv Hs]. split; [by apply Hpq|]. intros x. by rewrite Hs. Qed.

(** What a requirement says of a value. *)
Definition required {T R} (requirement : option (Sourced R)) (holds : R -> T -> Prop) (x : T) : Prop :=
  match requirement with Some s => holds (sourced_value s) x | None => True end.

Lemma constrain_to_list_enforces {T} `{EqDecision T} `{!Debug T} allowed_field field (v : T) requirement c :
  constrain_to_list allowed_field field v requirement = Ok c -> enforces c (required requirement (fun l x => x ∈ l)).
Proof.
  unfold constrain_to_list, required. destruct requirement as [[values source]|].
  - destruct (head values); [|done]. intros Hc%constrain_enforces. eapply enforces_iff; [|exact Hc].
    intros x. apply bool_decide_eq_true.
  - intros [= <-]. apply unconstrained_enforces.
Qed.

Lemma constrain_profile_enforces requirement c :
  constrain_profile requirement = Ok c ->
  enforces c (required requirement (fun modes p => sandbox_mode_requirement_for_permission_profile p ∈ modes)).
Proof.
  unfold constrain_profile, required. destruct requirement as [[modes source]|].
  - destruct (negb _); [done|]. intros Hc%constrain_enforces. eapply enforces_iff; [|exact Hc].
    intros x. apply bool_decide_eq_true.
  - intros [= <-]. apply unconstrained_enforces.
Qed.

Lemma constrain_web_search_enforces requirement c :
  constrain_web_search requirement = Ok c ->
  enforces c (required requirement (fun modes m => m = SearchDisabled \/ web_requirement_of m ∈ modes)).
Proof.
  unfold constrain_web_search, required. destruct requirement as [[modes source]|].
  - intros Hc%constrain_enforces. eapply enforces_iff; [|exact Hc]. intros x.
    etransitivity; [apply bool_decide_eq_true|]. unfold accepted_web_modes. rewrite list_elem_of_filter. destruct x; cbn; set_solver.
  - intros [= <-]. apply unconstrained_enforces.
Qed.

Lemma constrain_residency_enforces requirement c :
  constrain_residency requirement = Ok c -> enforces c (required requirement (fun residency x => x = Some residency)).
Proof.
  unfold constrain_residency, required. destruct requirement as [[residency source]|].
  - intros Hc%constrain_enforces. eapply enforces_iff; [|exact Hc]. intros x. apply bool_decide_eq_true.
  - intros [= <-]. apply unconstrained_enforces.
Qed.

(** ** Rules *)

Lemma foldl_heads_rules (rest : list PatternToken) d j heads : forall m k r,
  r ∈ default [] (foldl (fun m head => multimap_insert m head (mkRule (mkPattern head rest) d j)) m heads !! k) ->
  r ∈ default [] (m !! k) \/ (rule_decision r = d /\ rule_program r = k).
Proof.
  induction heads as [|h heads IH]; intros m k r; [by left|]. cbn. intros [Hr|?]%IH; [|by right].
  rewrite multimap_insert_default in Hr. apply elem_of_app in Hr as [?|Hr]; [by left|]. right.
  case_decide as E; [|by apply elem_of_nil in Hr]. apply list_elem_of_singleton in Hr as ->. by subst.
Qed.

Definition restrictive (m : gmap str (list PrefixRule)) : Prop :=
  forall k r, r ∈ default [] (m !! k) -> rule_decision r <> Allow /\ rule_program r = k.

Lemma add_requirements_rule_restrictive i rule m m' :
  add_requirements_rule i rule m = Ok m' -> restrictive m -> restrictive m'.
Proof.
  unfold add_requirements_rule. destruct (is_some_and _ _); [done|]. destruct (is_nil _); [done|].
  destruct (traverse _ _) as [tokens| | |]; [|done..]. cbn.
  destruct (rule_toml_decision rule) as [[]|]; [done| | |done]; cbn;
    (destruct tokens as [|t tokens]; [done|]); intros [= <-] Hm k r [Hr|[-> Hk]]%foldl_heads_rules; auto.
Qed.

Lemma add_requirements_rules_restrictive rules : forall i m m',
  add_requirements_rules i rules m = Ok m' -> restrictive m -> restrictive m'.
Proof.
  induction rules as [|rule rules IH]; intros i m m'; cbn; [by intros [= <-]|].
  destruct (add_requirements_rule i rule m) as [m1| | |] eqn:E; [|done..]. cbn. intros Hm Hr.
  eapply IH; [exact Hm|]. by eapply add_requirements_rule_restrictive.
Qed.

Lemma requirements_policy_restrictive rules policy source :
  requirements_policy rules = Ok (Some (mkSourced policy source)) ->
  policy_wf policy /\ forall r, policy_rule policy r -> rule_decision r <> Allow.
Proof.
  unfold requirements_policy. destruct rules as [[toml from]|]; [|done]. unfold to_policy.
  destruct (is_nil _); [done|]. destruct (add_requirements_rules _ _ _) as [m| | |] eqn:E; [|done..]. cbn. intros [= <- _].
  apply add_requirements_rules_restrictive in E; [|intros k r; rewrite lookup_empty; by intros ?%elem_of_nil].
  rewrite policy_wf_default. setoid_rewrite policy_rule_default. cbn. split.
  - intros k r Hr. by apply E.
  - intros r [k Hr]. by eapply E.
Qed.

(** ** What a profile of a mode may write *)

Lemma max_by_key_elem {A} (le : A -> A -> bool) (l : list A) m : max_by_key le l = Some m -> m ∈ l.
Proof.
  unfold max_by_key. assert (forall acc, foldl (fun best x => match best with
    | None => Some x | Some y => if le y x then Some x else best end) acc l = Some m -> acc = Some m \/ m ∈ l) as Hf.
  { induction l as [|x l IH]; intros acc; cbn; [by left|]. intros [Ha|?]%IH; [|set_solver].
    destruct acc as [a|]; [|injection Ha as ->; set_solver]. destruct (le a x); [injection Ha as ->; set_solver|by left]. }
  intros H. by apply Hf in H as [?|?].
Qed.

Lemma read_only_profile_writes_nothing env p path cwd :
  sandbox_mode_requirement_for_permission_profile p = ReqReadOnly ->
  can_write_path_with_cwd env (file_system_sandbox_policy p) path cwd = false.
Proof.
  unfold sandbox_mode_requirement_for_permission_profile. destruct p as [fs net| |]; [|done..].
  set (q := file_system_sandbox_policy (Managed fs net)). destruct (has_full_disk_write_access q) eqn:Ew; [done|].
  destruct (existsb _ _) eqn:Ee; [done|]. intros _. unfold can_write_path_with_cwd.
  assert (can_write (resolve_access_with_cwd env q path cwd) = false) as ->; [|done].
  unfold resolve_access_with_cwd. unfold has_full_disk_write_access in Ew. destruct (fs_kind q); [|done..].
  destruct (resolve_candidate_path env path cwd) as [c|]; [|done].
  destruct (max_by_key _ _) as [e|] eqn:Em; [|done]. apply max_by_key_elem, list_elem_of_filter in Em as [_ He].
  unfold resolved_entries_with_cwd in He. apply list_elem_of_omap in He as (entry & Hin & He).
  apply fmap_Some in He as (r & _ & ->). cbn. apply not_true_iff_false. intros Hw.
  rewrite <- not_true_iff_false in Ee. apply Ee, existsb_exists. exists entry. split; [by apply list_elem_of_In|done].
Qed.

(** ** Theorems *)

(** C33: The first source that speaks of a field decides it.  Requirements are read from
    the highest precedence down, each table as it reads on this host: the modes of the
    first remote entry that matches the host replace those of its own table only.
    Every field of the result is that of the first source that sets it, with that
    source beside it, and a blank guardian policy counts as not set; an app is disabled
    as soon as one source disables it, and otherwise is what the first source that
    speaks of it says. *)
Theorem requirements_first_source_decides matches host_name sources :
  let r := load_requirements matches host_name sources in
  let first {T} (field : ConfigRequirementsToml -> option T) := first_source matches host_name field sources in
  s_approval_policies r = first t_approval_policies
  /\ s_approvals_reviewers r = first t_approvals_reviewers
  /\ s_sandbox_modes r = first t_sandbox_modes
  /\ s_web_search_modes r = first t_web_search_modes
  /\ s_features r = first t_features
  /\ s_hooks r = first t_hooks
  /\ s_mcp_servers r = first t_mcp_servers
  /\ s_plugins r = first t_plugins
  /\ s_rules r = first t_rules
  /\ s_residency r = first t_residency
  /\ s_network r = first t_network
  /\ s_permissions r = first t_permissions
  /\ s_guardian_policy_config r = first guardian_text
  /\ forall app_id, sourced_setting app_id (s_apps r) = joint_setting ((fun '(_, t) => app_setting app_id t) <$> sources).
Proof.
  cbv zeta. change (load_requirements matches host_name sources) with (merged matches host_name sources with_sources_default).
  pose proof (merged_fields matches host_name sources with_sources_default) as H. cbv zeta in H.
  rewrite !fill_from_first in H. cbn [with_sources_default s_approval_policies s_approvals_reviewers s_sandbox_modes
    s_web_search_modes s_features s_hooks s_mcp_servers s_plugins s_rules s_residency s_network s_permissions
    s_guardian_policy_config] in H.
  destruct H as (? & ? & ? & ? & ? & ? & ? & ? & ? & ? & ? & ? & ?). split_and!; try done.
  intros app_id. rewrite merged_apps, foldl_merge_enabled. cbn.
  unfold merge_enabled. cbn. by destruct (joint_setting _) as [[]|].
Qed.

(** C13: Requirements hold whatever is set.  When the requirements of the sources are
    accepted, then after any attempts to set them the approval policy, the reviewer,
    the mode of web search, the residency and the permission profile are among the
    values that the first source to speak of them allows, and just those can be set;
    the hooks in force are the required ones; the rules for commands are stored under
    their programs and none of them allows anything; a profile in force is without
    access to the whole disk unless full access or an external sandbox is allowed, and
    where read-only is the only mode allowed, no path can be written under it. *)
Theorem requirements_enforced debug_hooks matches host_name sources r :
  try_from debug_hooks (load_requirements matches host_name sources) = Ok r ->
  let s := load_requirements matches host_name sources in
  enforces (approval_policy r) (required (s_approval_policies s) (fun l x => x ∈ l))
  /\ enforces (approvals_reviewer r) (required (s_approvals_reviewers s) (fun l x => x ∈ l))
  /\ enforces (web_search_mode r) (required (s_web_search_modes s) (fun l m => m = SearchDisabled \/ web_requirement_of m ∈ l))
  /\ enforces (enforce_residency r) (required (s_residency s) (fun residency x => x = Some residency))
  /\ enforces (permission_profile r)
       (required (s_sandbox_modes s) (fun modes p => sandbox_mode_requirement_for_permission_profile p ∈ modes))
  /\ (forall hooks, managed_hooks r = Some hooks -> exists allowed, s_hooks s = Some allowed
        /\ enforces hooks (fun x => x = sourced_value allowed))
  /\ (forall policy, managed_exec_policy r = Some policy ->
        policy_wf (sourced_value policy) /\ forall rule, policy_rule (sourced_value policy) rule -> rule_decision rule <> Allow)
  /\ (forall attempts modes, s_sandbox_modes s = Some modes ->
        let p := value (reached (constrained (permission_profile r)) attempts) in
        (ReqDangerFullAccess ∉ sourced_value modes -> ReqExternalSandbox ∉ sourced_value modes ->
           has_full_disk_write_access (file_system_sandbox_policy p) = false)
        /\ (Forall (eq ReqReadOnly) (sourced_value modes) ->
           forall env path cwd, can_write_path_with_cwd env (file_system_sandbox_policy p) path cwd = false)).
Proof.
  intros Hr s. fold s in Hr. unfold try_from in Hr. run_ok Hr. injection Hr as <-.
  cbn [approval_policy approvals_reviewer web_search_mode enforce_residency permission_profile managed_hooks managed_exec_policy].
  assert (enforces a1 (required (s_sandbox_modes s)
    (fun modes p => sandbox_mode_requirement_for_permission_profile p ∈ modes))) as Hprofile by (by apply constrain_profile_enforces).
  split_and!; [by eapply constrain_to_list_enforces|by eapply constrain_to_list_enforces
    |by apply constrain_web_search_enforces|by apply constrain_residency_enforces|done| | |].
  - intros hooks ->. unfold constrain_hooks in *. destruct (s_hooks s) as [[allowed source]|]; [|done].
    destruct (0 <? _); [|done]. destruct (constrain _ _ _ _ _ _) as [c| | |] eqn:Ec; [|done..].
    exists (mkSourced allowed source). split; [done|].
    match goal with H : _ = Ok (Some hooks) |- _ => injection H as -> end.
    apply constrain_enforces in Ec. eapply enforces_iff; [|exact Ec]. intros x. apply bool_decide_eq_true.
  - intros [policy source] ->. by eapply requirements_policy_restrictive.
  - intros attempts modes Em. destruct (Hprofile attempts) as [Hv _]. unfold required in Hv. rewrite Em in Hv. cbv zeta. split.
    + intros Hd He. destruct (value _) as [fs net| |] eqn:Ep; [|by destruct Hd|by destruct He].
      unfold sandbox_mode_requirement_for_permission_profile in Hv. by destruct (has_full_disk_write_access _).
    + intros Hall env path cwd. apply read_only_profile_writes_nothing. rewrite Forall_forall in Hall. symmetry. by apply Hall.
Qed.

(** ** Examples *)

(** The cloud names the approval policies and the file of the system the modes; the
    policies of the latter come too late, and a remote entry for this host leaves
    read-only. *)
Definition two_sources : list (RequirementSource * ConfigRequirementsToml) :=
  [(CloudRequirements, mkToml (Some [OnRequest]) None None None None None None None None None None None None None None);
   (SystemRequirementsToml (components (L"/etc/codex/requirements.toml")),
    mkToml (Some [Never]) None (Some [ReqReadOnly; ReqDangerFullAccess])
      (Some [mkRemote [L"*.Lab.example."] [ReqReadOnly]]) None None None None None None
      (Some (mkRulesToml [mkRuleToml [mkTokenToml (Some (L"rm")) None] (Some TomlForbidden) None])) None None None None)].
Definition lab_host : option str := Some (L"box1.lab.example").
Definition lab_requirements : result ConstraintError ManagedRequirements :=
  try_from (fun _ => []) (load_requirements wildcard lab_host two_sources).

(** No attempt to switch the sandbox off lets a path be written on that host. *)
Lemma requirements_enforced_witness :
  match lab_requirements with
  | Ok r =>
      value (reached (constrained (approval_policy r)) [Never; UnlessTrusted]) = OnRequest
      /\ can_write_path_with_cwd plain_env
           (file_system_sandbox_policy (value (reached (constrained (permission_profile r)) [Disabled; External NetEnabled])))
           (components (L"/ws/a")) (components (L"/ws")) = false
  | _ => False
  end.
Proof.
  assert (match lab_requirements with Ok _ => true | _ => false end = true) as Hok by (vm_compute; reflexivity).
  destruct lab_requirements as [r| | |] eqn:E; try discriminate Hok.
  destruct (requirements_enforced (fun _ => []) wildcard lab_host two_sources r E)
    as (Hpolicy & _ & _ & _ & _ & _ & _ & Hprofile). split.
  - destruct (Hpolicy [Never; UnlessTrusted]) as [Hv _]. unfold required in Hv. cbn in Hv.
    apply list_elem_of_singleton in Hv. exact Hv.
  - refine (proj2 (Hprofile _ (mkSourced [ReqReadOnly] _) _) _ _ _ _); [vm_compute; reflexivity|repeat constructor].
Defined.

(** The mode of a profile is found from its entries.  One that can write everywhere but
    in one place counts as writing to a workspace, so a source that allows no full
    access lets it through. *)
Definition nearly_full_access : PermissionProfile :=
  Managed (ManagedRestricted [mkEntry (Special Root) AccessWrite; mkEntry (PathEntry (components (L"/nowhere"))) AccessRead] None)
    NetEnabled.

Example nearly_full_access_is_workspace_write :
  let sources := [(CloudRequirements,
    mkToml None None (Some [ReqReadOnly; ReqWorkspaceWrite]) None None None None None None None None None None None None)] in
  match try_from (fun _ => []) (load_requirements wildcard None sources) with
  | Ok r => (set (constrained (permission_profile r)) nearly_full_access).2 = Ok tt
  | _ => False
  end
  /\ can_write_path_with_cwd plain_env (file_system_sandbox_policy nearly_full_access) (components (L"/etc/passwd"))
       (components (L"/ws")) = true.
Proof. vm_compute. done. Qed.
