(* ===== verification/NetworkApproval.v ===== *)
(** * Approving network access (core/src/tools/network_approval.rs)

    A host that the lists of the proxy do not mention may be approved while the request
    waits: one task asks for each host and the others wait for its answer.  Each step of
    a task is one access to shared state, so that the tasks can be interleaved; what
    hooks, reviewers and the user answer is part of the step.  Messages to the session
    and the writing of accepted rules are left out. *)

From S2P Require Import Prelude RustStr AbsolutePath SandboxPaths Permissions PermissionProfiles ExecApproval NetworkHosts NetworkState NetworkPolicy ToolOrchestrator.

Inductive NetworkApprovalProtocol := ApprovalHttp | ApprovalHttps | ApprovalSocks5Tcp | ApprovalSocks5Udp.

Definition approval_protocol (p : NetworkProtocol) : NetworkApprovalProtocol :=
  match p with
  | Http => ApprovalHttp | HttpsConnect => ApprovalHttps | Socks5Tcp => ApprovalSocks5Tcp | Socks5Udp => ApprovalSocks5Udp
  end.

Definition protocol_key_label (p : NetworkApprovalProtocol) : str :=
  match p with
  | ApprovalHttp => L"http" | ApprovalHttps => L"https"
  | ApprovalSocks5Tcp => L"socks5-tcp" | ApprovalSocks5Udp => L"socks5-udp"
  end.

Record HostApprovalKey := mkHostKey { key_host : str; key_protocol : str; key_port : N }.

#[export] Instance host_key_eq_dec : EqDecision HostApprovalKey.
Proof. solve_decision. Defined.
#[export] Instance host_key_countable : Countable HostApprovalKey.
Proof.
  apply (inj_countable' (fun k => (key_host k, key_protocol k, key_port k)) (fun '(h, p, n) => mkHostKey h p n)).
  by intros [].
Defined.

Definition key_from_request (request : NetworkPolicyRequest) : HostApprovalKey :=
  mkHostKey (to_ascii_lowercase (req_host request)) (protocol_key_label (approval_protocol (req_protocol request)))
    (req_port request).

Inductive PendingApprovalDecision := AllowOnce | AllowForSession | DenyPending.

Definition to_network_decision (d : PendingApprovalDecision) : NetworkDecision :=
  match d with AllowOnce | AllowForSession => DecisionAllow | DenyPending => deny REASON_NOT_ALLOWED end.

Inductive NetworkApprovalOutcome := DeniedByUser | DeniedByPolicy (message : str).

Definition network_approval_outcome_to_result (outcome : option NetworkApprovalOutcome) : option str :=
  match outcome with
  | Some DeniedByUser => Some (L"rejected by user")
  | Some (DeniedByPolicy message) => Some message
  | None => None
  end.

Definition allows_network_approval_flow (policy : AskForApproval) : bool :=
  match policy with Never => false | _ => true end.

Definition permission_profile_allows_network_approval_flow (p : PermissionProfile) : bool :=
  match p with Managed _ _ => true | Disabled | External _ => false end.

(** ** The service *)

Record ActiveNetworkApprovalCall := mkNetworkCall {
  registration_id : str;
  call_turn_id : str;
  call_command : str }.

(** [PendingHostApproval]: its decision, and how often its waiters were notified. *)
Record PendingHostApproval := mkPendingApproval {
  pending_decision : option PendingApprovalDecision;
  notified : nat }.

(** The calls in the order of their registration, the outcomes, the tokens that were
    cancelled; the pending approvals by host, which are shared objects; the hosts
    decided for the session. *)
Record NetworkApprovalService := mkService {
  active_calls : list ActiveNetworkApprovalCall;
  call_outcomes : gmap str NetworkApprovalOutcome;
  cancelled : gset str;
  pending_host_approvals : gmap HostApprovalKey nat;
  approvals : list PendingHostApproval;
  session_approved_hosts : gset HostApprovalKey;
  session_denied_hosts : gset HostApprovalKey }.

Definition service_default : NetworkApprovalService := mkService [] ∅ ∅ ∅ [] ∅ ∅.

Definition with_calls (s : NetworkApprovalService) (calls : list ActiveNetworkApprovalCall)
  (outcomes : gmap str NetworkApprovalOutcome) (tokens : gset str) : NetworkApprovalService :=
  mkService calls outcomes tokens (pending_host_approvals s) (approvals s) (session_approved_hosts s) (session_denied_hosts s).
Definition with_pending (s : NetworkApprovalService) (pending : gmap HostApprovalKey nat) (objects : list PendingHostApproval)
  : NetworkApprovalService :=
  mkService (active_calls s) (call_outcomes s) (cancelled s) pending objects (session_approved_hosts s) (session_denied_hosts s).
Definition with_hosts (s : NetworkApprovalService) (approved denied : gset HostApprovalKey) : NetworkApprovalService :=
  mkService (active_calls s) (call_outcomes s) (cancelled s) (pending_host_approvals s) (approvals s) approved denied.

Definition is_call (id : str) (call : ActiveNetworkApprovalCall) : bool := str_eqb (registration_id call) id.

(** [IndexMap::insert] keeps the place of a key that is there. *)
Definition register_call (s : NetworkApprovalService) (call : ActiveNetworkApprovalCall) : NetworkApprovalService :=
  with_calls s
    (if existsb (is_call (registration_id call)) (active_calls s)
     then (fun c => if is_call (registration_id call) c then call else c) <$> active_calls s
     else active_calls s ++ [call]) (call_outcomes s) (cancelled s).

Definition resolve_single_active_call (s : NetworkApprovalService) : option ActiveNetworkApprovalCall :=
  match active_calls s with [call] => Some call | _ => None end.

Definition get_or_create_pending_approval (s : NetworkApprovalService) (key : HostApprovalKey)
  : NetworkApprovalService * (nat * bool) :=
  match pending_host_approvals s !! key with
  | Some existing => (s, (existing, false))
  | None =>
      let created := length (approvals s) in
      (with_pending s (<[key := created]> (pending_host_approvals s)) (approvals s ++ [mkPendingApproval None 0]), (created, true))
  end.

(** Up to the release of the lock; the flag says whether the token is cancelled next. *)
Definition record_call_outcome (s : NetworkApprovalService) (id : str) (outcome : NetworkApprovalOutcome)
  : NetworkApprovalService * bool :=
  if negb (existsb (is_call id) (active_calls s)) then (s, false)
  else match call_outcomes s !! id with
       | Some DeniedByUser => (s, false)
       | _ => (with_calls s (active_calls s) (<[id := outcome]> (call_outcomes s)) (cancelled s), true)
       end.

Definition remove_call (s : NetworkApprovalService) (id : str) : NetworkApprovalService * option NetworkApprovalOutcome :=
  (with_calls s (List.filter (fun c => negb (is_call id c)) (active_calls s)) (delete id (call_outcomes s)) (cancelled s),
   call_outcomes s !! id).

Definition finish_call (s : NetworkApprovalService) (id : str) : NetworkApprovalService * option str :=
  let '(s, outcome) := remove_call s id in (s, network_approval_outcome_to_result outcome).

Definition sync_session_approved_hosts_to (s other : NetworkApprovalService) : NetworkApprovalService :=
  with_hosts other (session_approved_hosts s) (session_denied_hosts other).

(** ** Calls of tools *)

Record NetworkApprovalSpec := mkSpec { spec_network : bool; spec_mode : NetworkApprovalMode; spec_command : str }.
Record ActiveNetworkApproval := mkActive { active_registration_id : option str; active_mode : NetworkApprovalMode }.

(** [finish_outcome] is set once. *)
Record DeferredNetworkApproval := mkDeferred {
  deferred_registration_id : str;
  finish_outcome : option (option NetworkApprovalOutcome) }.

Definition begin_network_approval (s : NetworkApprovalService) (uuid turn_id : str) (managed_network_active : bool)
  (spec : option NetworkApprovalSpec) : NetworkApprovalService * option ActiveNetworkApproval :=
  match spec with
  | None => (s, None)
  | Some spec =>
      if negb managed_network_active || negb (spec_network spec) then (s, None)
      else (register_call s (mkNetworkCall uuid turn_id (spec_command spec)), Some (mkActive (Some uuid) (spec_mode spec)))
  end.

Definition into_deferred (a : ActiveNetworkApproval) : option DeferredNetworkApproval :=
  match active_mode a, active_registration_id a with
  | Deferred, Some id => Some (mkDeferred id None)
  | _, _ => None
  end.

Definition finish_immediate_network_approval (s : NetworkApprovalService) (a : ActiveNetworkApproval)
  : NetworkApprovalService * option str :=
  match active_registration_id a with Some id => finish_call s id | None => (s, None) end.

Definition finish_deferred_network_approval (s : NetworkApprovalService) (d : DeferredNetworkApproval)
  : NetworkApprovalService * DeferredNetworkApproval * option str :=
  match finish_outcome d with
  | Some outcome => (s, d, network_approval_outcome_to_result outcome)
  | None =>
      let '(s, outcome) := remove_call s (deferred_registration_id d) in
      (s, mkDeferred (deferred_registration_id d) (Some outcome), network_approval_outcome_to_result outcome)
  end.

(** ** What is denied (network_policy_decision.rs) *)

Definition denied_network_policy_message (blocked : BlockedRequest) : option str :=
  if negb (bool_decide (decision blocked = Some (L"deny"))) then None
  else
    let host := trim (blocked_host blocked) in
    if is_nil host then Some (L"Network access was blocked by policy.")
    else
      let reason := blocked_reason blocked in
      let detail :=
        if str_eqb reason (L"denied") then L"domain is explicitly denied by policy and cannot be approved from this prompt"
        else if str_eqb reason (L"not_allowed") then L"domain is not on the allowlist for the current sandbox mode"
        else if str_eqb reason (L"not_allowed_local") then L"local/private network addresses are blocked by the sandbox policy"
        else if str_eqb reason (L"method_not_allowed") then L"request method is blocked by the current network mode"
        else if str_eqb reason (L"proxy_disabled") then L"network proxy is disabled"
        else L"request is blocked by network policy" in
      Some (L"Network access to " ++ [34%N] ++ host ++ [34%N] ++ L" was blocked: " ++ detail ++ L".").

(** ** Requests as tasks *)

(** What the owner of a request finds of the turn. *)
Record ApprovalTurn := mkApprovalTurn {
  approval_profile : PermissionProfile;
  approval_ask : AskForApproval;
  approval_guardian : bool }.

(** One access to the shared state each. *)
Inductive Action :=
| RecordOutcome (id : str) (outcome : NetworkApprovalOutcome)
| CancelToken (id : str)
| RecordForSingleCall (outcome : NetworkApprovalOutcome)
| RemoveDeniedHost
| InsertApprovedHost
| RemoveApprovedHost
| InsertDeniedHost
| SetDecision (d : PendingApprovalDecision)
| NotifyWaiters
| RemovePending.

Inductive ApprovalTask :=
| CheckDenied (r : NetworkPolicyRequest)
| CheckApproved (r : NetworkPolicyRequest)
| GetPending (r : NetworkPolicyRequest)
| Subscribe (r : NetworkPolicyRequest) (p : nat)
| LookAtDecision (r : NetworkPolicyRequest) (p seen : nat)
| AwaitNotified (r : NetworkPolicyRequest) (p seen : nat)
| FindTurn (r : NetworkPolicyRequest) (p : nat)
| FindCall (r : NetworkPolicyRequest) (p : nat) (turn : ApprovalTurn)
| AskHooks (r : NetworkPolicyRequest) (p : nat) (turn : ApprovalTurn) (call : option ActiveNetworkApprovalCall)
| AskReview (r : NetworkPolicyRequest) (p : nat) (turn : ApprovalTurn) (call : option ActiveNetworkApprovalCall)
| Conclude (r : NetworkPolicyRequest) (p : nat) (actions : list Action) (d : NetworkDecision)
| Answered (r : NetworkPolicyRequest) (d : NetworkDecision)
| Observe (actions : list Action).

Inductive Answer :=
| NoAnswer
| TurnAnswer (turn : option ApprovalTurn)
| HookAnswer (d : option HookDecision)
| ReviewAnswer (d : ReviewDecision) (rejection : str).

(** Who was asked about which host, in which turn, and whether it was approved. *)
Inductive ApprovalEvent :=
| HooksAsked (key : HostApprovalKey) (turn : ApprovalTurn) (d : option HookDecision)
| ReviewAsked (key : HostApprovalKey) (turn : ApprovalTurn) (d : ReviewDecision)
| HostsSynced (hosts : gset HostApprovalKey).

Section tasks.
Context (guardian_timeout_message : str).

Definition format_network_target (protocol host : str) (port : N) : str :=
  protocol ++ L"://" ++ host ++ L":" ++ show_nat (N.to_nat port).
Definition policy_denial_message (r : NetworkPolicyRequest) : str :=
  L"Network access to " ++ [34%N]
  ++ format_network_target (key_protocol (key_from_request r)) (req_host r) (key_port (key_from_request r))
  ++ [34%N] ++ L" was blocked by policy.".

(** [set_decision], and the removal of the entry. *)
Definition closing (d : PendingApprovalDecision) : list Action := [SetDecision d; NotifyWaiters; RemovePending].

Definition denied_by_policy (r : NetworkPolicyRequest) (p : nat) : ApprovalTask :=
  Conclude r p (closing DenyPending ++ [RecordForSingleCall (DeniedByPolicy (policy_denial_message r))]) (deny REASON_NOT_ALLOWED).

(** The outcome for the call that owns the request, if there is one. *)
Definition record_for (call : option ActiveNetworkApprovalCall) (outcome : NetworkApprovalOutcome) : list Action :=
  match call with Some call => [RecordOutcome (registration_id call) outcome] | None => [] end.

(** What follows a review. *)
Definition resolve_review (guardian : bool) (call : option ActiveNetworkApprovalCall) (d : ReviewDecision) (rejection : str)
  : list Action * PendingApprovalDecision :=
  match d with
  | Approved | ApprovedExecpolicyAmendment _ => ([], AllowOnce)
  | ApprovedForSession | NetworkPolicyAmendment true => ([RemoveDeniedHost; InsertApprovedHost], AllowForSession)
  | NetworkPolicyAmendment false => (record_for call DeniedByUser ++ [RemoveApprovedHost; InsertDeniedHost], DenyPending)
  | ToolOrchestrator.Denied | Abort => (record_for call (if guardian then DeniedByPolicy rejection else DeniedByUser), DenyPending)
  | TimedOut => (record_for call (DeniedByPolicy guardian_timeout_message), DenyPending)
  end.

Definition update_approval (s : NetworkApprovalService) (p : nat) (f : PendingHostApproval -> PendingHostApproval)
  : NetworkApprovalService :=
  with_pending s (pending_host_approvals s) (alter f p (approvals s)).

(** An action, and the actions that it leads to. *)
Definition run_action (key : HostApprovalKey) (p : nat) (a : Action) (s : NetworkApprovalService)
  : NetworkApprovalService * list Action :=
  match a with
  | RecordOutcome id outcome =>
      let '(s, cancels) := record_call_outcome s id outcome in (s, if cancels then [CancelToken id] else [])
  | CancelToken id => (with_calls s (active_calls s) (call_outcomes s) ({[id]} ∪ cancelled s), [])
  | RecordForSingleCall outcome =>
      (s, match resolve_single_active_call s with Some call => [RecordOutcome (registration_id call) outcome] | None => [] end)
  | RemoveDeniedHost => (with_hosts s (session_approved_hosts s) (session_denied_hosts s ∖ {[key]}), [])
  | InsertApprovedHost => (with_hosts s ({[key]} ∪ session_approved_hosts s) (session_denied_hosts s), [])
  | RemoveApprovedHost => (with_hosts s (session_approved_hosts s ∖ {[key]}) (session_denied_hosts s), [])
  | InsertDeniedHost => (with_hosts s (session_approved_hosts s) ({[key]} ∪ session_denied_hosts s), [])
  | SetDecision d => (update_approval s p (fun a => mkPendingApproval (Some d) (notified a)), [])
  | NotifyWaiters => (update_approval s p (fun a => mkPendingApproval (pending_decision a) (S (notified a))), [])
  | RemovePending => (with_pending s (delete key (pending_host_approvals s)) (approvals s), [])
  end.

(** One step of a task; [None] while it has to wait. *)
Definition approval_step (t : ApprovalTask) (answer : Answer) (s : NetworkApprovalService)
  : option (NetworkApprovalService * ApprovalTask * list ApprovalEvent) :=
  match t, answer with
  | CheckDenied r, NoAnswer =>
      Some (s, if decide (key_from_request r ∈ session_denied_hosts s) then Answered r (deny REASON_NOT_ALLOWED)
               else CheckApproved r, [])
  | CheckApproved r, NoAnswer =>
      Some (s, if decide (key_from_request r ∈ session_approved_hosts s) then Answered r DecisionAllow else GetPending r, [])
  | GetPending r, NoAnswer =>
      let '(s, (p, is_owner)) := get_or_create_pending_approval s (key_from_request r) in
      Some (s, if is_owner : bool then FindTurn r p else Subscribe r p, [])
  | Subscribe r p, NoAnswer =>
      a ← approvals s !! p; Some (s, LookAtDecision r p (notified a), [])
  | LookAtDecision r p seen, NoAnswer =>
      a ← approvals s !! p;
      Some (s, match pending_decision a with Some d => Answered r (to_network_decision d) | None => AwaitNotified r p seen end, [])
  | AwaitNotified r p seen, NoAnswer =>
      a ← approvals s !! p; if seen <? notified a then Some (s, Subscribe r p, []) else None
  | FindTurn r p, TurnAnswer turn =>
      Some (s, match turn with
               | None => denied_by_policy r p
               | Some turn =>
                   if negb (permission_profile_allows_network_approval_flow (approval_profile turn)) then denied_by_policy r p
                   else if negb (allows_network_approval_flow (approval_ask turn)) then denied_by_policy r p
                   else FindCall r p turn
               end, [])
  | FindCall r p turn, NoAnswer => Some (s, AskHooks r p turn (resolve_single_active_call s), [])
  | AskHooks r p turn call, HookAnswer d =>
      Some (s, match d with
               | Some HookAllow => Conclude r p (closing AllowOnce) DecisionAllow
               | Some (HookDeny message) =>
                   Conclude r p (record_for call (DeniedByPolicy message) ++ closing DenyPending) (deny REASON_NOT_ALLOWED)
               | None => AskReview r p turn call
               end, [HooksAsked (key_from_request r) turn d])
  | AskReview r p turn call, ReviewAnswer d rejection =>
      let '(actions, resolved) := resolve_review (approval_guardian turn) call d rejection in
      Some (s, Conclude r p (actions ++ closing resolved) (to_network_decision resolved),
            [ReviewAsked (key_from_request r) turn d])
  | Conclude r p (a :: actions) d, NoAnswer =>
      let '(s, more) := run_action (key_from_request r) p a s in Some (s, Conclude r p (more ++ actions) d, [])
  | Conclude r p [] d, NoAnswer => Some (s, Answered r d, [])
  | Observe (a :: actions), NoAnswer =>
      let '(s, more) := run_action (mkHostKey [] [] 0) 0 a s in Some (s, Observe (more ++ actions), [])
  | _, _ => None
  end.

(** [build_network_policy_decider], for a session that may be gone. *)
Definition decide_request (session_alive : bool) (r : NetworkPolicyRequest) : ApprovalTask :=
  if session_alive then CheckDenied r else Answered r (ask REASON_NOT_ALLOWED).

(** [build_blocked_request_observer]. *)
Definition record_blocked_request (blocked : BlockedRequest) : option ApprovalTask :=
  message ← denied_network_policy_message blocked; Some (Observe [RecordForSingleCall (DeniedByPolicy message)]).

(** ** All tasks together *)

Record World := mkWorld {
  service : NetworkApprovalService;
  tasks : list ApprovalTask;
  events : list ApprovalEvent }.

(** A task moves, a request or a blocked request arrives, a call begins, under an
    identifier that is new, or ends, or another session hands over its hosts. *)
Inductive world_step : World -> World -> Prop :=
| step_task w i t answer s t' evs :
    tasks w !! i = Some t -> approval_step t answer (service w) = Some (s, t', evs) ->
    world_step w (mkWorld s (<[i := t']> (tasks w)) (events w ++ evs))
| step_request w alive r : world_step w (mkWorld (service w) (tasks w ++ [decide_request alive r]) (events w))
| step_blocked w blocked t :
    record_blocked_request blocked = Some t -> world_step w (mkWorld (service w) (tasks w ++ [t]) (events w))
| step_begin w uuid turn_id managed spec :
    uuid ∉ cancelled (service w) -> ~ existsb (is_call uuid) (active_calls (service w)) = true ->
    world_step w (mkWorld (begin_network_approval (service w) uuid turn_id managed spec).1 (tasks w) (events w))
| step_finish w id : world_step w (mkWorld (remove_call (service w) id).1 (tasks w) (events w))
| step_sync w (other : NetworkApprovalService) :
    world_step w (mkWorld (sync_session_approved_hosts_to other (service w)) (tasks w)
                    (events w ++ [HostsSynced (session_approved_hosts other)])).

Definition reachable (w : World) : Prop := rtc world_step (mkWorld service_default [] []) w.
End tasks.
