(* ===== verification/NetworkApprovalSafety.v ===== *)
(** * Network approvals under any interleaving (core/src/tools/network_approval.rs)

    The invariant of the tasks and the service together, and what it gives: nothing is
    let through that was not approved, one task asks for a host at a time, and whoever
    waits waits for a task that is still at work. *)

From S2P Require Import Prelude RustStr AbsolutePath SandboxPaths Permissions PermissionProfiles ExecApproval NetworkHosts NetworkState NetworkPolicy ToolOrchestrator NetworkApproval.

(** ** Where a task stands *)

(** The host a task is about and the shared approval it refers to. *)
Definition task_pid (t : ApprovalTask) : option (HostApprovalKey * nat) :=
  match t with
  | Subscribe r p | LookAtDecision r p _ | AwaitNotified r p _ | FindTurn r p | FindCall r p _ | AskHooks r p _ _
  | AskReview r p _ _ | Conclude r p _ _ => Some (key_from_request r, p)
  | _ => None
  end.

(** The approval that a task created. *)
Definition owner_pid (t : ApprovalTask) : option nat :=
  match t with
  | FindTurn _ p | FindCall _ p _ | AskHooks _ p _ _ | AskReview _ p _ _ | Conclude _ p _ _ => Some p
  | _ => None
  end.

(** What an owner still has to do. *)
Definition still (P : Action -> Prop) (t : ApprovalTask) : Prop :=
  match t with
  | FindTurn _ _ | FindCall _ _ _ | AskHooks _ _ _ _ | AskReview _ _ _ _ => True
  | Conclude _ _ actions _ => Exists P actions
  | _ => False
  end.
Definition is_set_decision (a : Action) : Prop := match a with SetDecision _ => True | _ => False end.
Definition sets := still is_set_decision.
Definition notifies := still (eq NotifyWaiters).
Definition removes := still (eq RemovePending).

(** The order of the last three actions. *)
Fixpoint wf_actions (l : list Action) : Prop :=
  match l with
  | [] => True
  | a :: l =>
      match a with
      | SetDecision _ => NotifyWaiters ∈ l
      | NotifyWaiters => RemovePending ∈ l /\ ~ Exists is_set_decision l
      | RemovePending => ~ Exists is_set_decision l /\ NotifyWaiters ∉ l /\ RemovePending ∉ l
      | _ => True
      end /\ wf_actions l
  end.

(** An action that approves. *)
Definition is_grant (a : Action) : Prop :=
  match a with InsertApprovedHost | SetDecision AllowOnce | SetDecision AllowForSession => True | _ => False end.

(** An action on the calls only. *)
Definition is_quiet (a : Action) : Prop :=
  match a with RecordOutcome _ _ | CancelToken _ | RecordForSingleCall _ => True | _ => False end.

(** ** What was approved *)

Definition approving (d : ReviewDecision) : bool :=
  match d with Approved | ApprovedExecpolicyAmendment _ | ApprovedForSession | NetworkPolicyAmendment true => true | _ => false end.

Definition approves (k : HostApprovalKey) (e : ApprovalEvent) : Prop :=
  match e with
  | HooksAsked k' _ d => k' = k /\ d = Some HookAllow
  | ReviewAsked k' _ d => k' = k /\ approving d = true
  | HostsSynced hosts => k ∈ hosts
  end.
Definition granted (evs : list ApprovalEvent) (k : HostApprovalKey) : Prop := Exists (approves k) evs.

Definition turn_ok (turn : ApprovalTurn) : Prop :=
  permission_profile_allows_network_approval_flow (approval_profile turn) = true
  /\ allows_network_approval_flow (approval_ask turn) = true.
Definition event_ok (e : ApprovalEvent) : Prop :=
  match e with HooksAsked _ turn _ | ReviewAsked _ turn _ => turn_ok turn | HostsSynced _ => True end.

Lemma granted_app evs more k : granted evs k -> granted (evs ++ more) k.
Proof. unfold granted. rewrite Exists_app. auto. Qed.

(** ** The invariant *)

Definition task_ok (evs : list ApprovalEvent) (s : NetworkApprovalService) (t : ApprovalTask) : Prop :=
  match t with
  | LookAtDecision _ p seen => exists a, approvals s !! p = Some a /\ seen <= notified a
  | AwaitNotified _ _ seen => seen = 0
  | FindCall _ _ turn | AskHooks _ _ turn _ | AskReview _ _ turn _ => turn_ok turn
  | Conclude r _ actions d =>
      wf_actions actions /\ (d = DecisionAllow \/ Exists is_grant actions -> granted evs (key_from_request r))
  | Answered r d => d = DecisionAllow -> granted evs (key_from_request r)
  | Observe actions => Forall is_quiet actions
  | _ => True
  end.

Definition allows_pending (d : option PendingApprovalDecision) : Prop := d = Some AllowOnce \/ d = Some AllowForSession.

(** [keys] are the hosts of the approvals. *)
Record invariant (keys : list HostApprovalKey) (w : World) : Prop := {
  inv_len : length keys = length (approvals (service w));
  inv_key i t k p : tasks w !! i = Some t -> task_pid t = Some (k, p) -> keys !! p = Some k;
  inv_pending k p : pending_host_approvals (service w) !! k = Some p ->
    keys !! p = Some k /\ exists i t, tasks w !! i = Some t /\ owner_pid t = Some p /\ removes t;
  inv_owner i t k p : tasks w !! i = Some t -> owner_pid t = Some p -> removes t -> keys !! p = Some k ->
    pending_host_approvals (service w) !! k = Some p;
  inv_unique i j t t' p : tasks w !! i = Some t -> tasks w !! j = Some t' ->
    owner_pid t = Some p -> owner_pid t' = Some p -> i = j;
  inv_open p a : approvals (service w) !! p = Some a ->
    (pending_decision a = None -> exists i t, tasks w !! i = Some t /\ owner_pid t = Some p /\ sets t)
    /\ (notified a = 0 -> exists i t, tasks w !! i = Some t /\ owner_pid t = Some p /\ notifies t)
    /\ (notified a <> 0 -> pending_decision a <> None)
    /\ (allows_pending (pending_decision a) -> exists k, keys !! p = Some k /\ granted (events w) k);
  inv_tasks i t : tasks w !! i = Some t -> task_ok (events w) (service w) t;
  inv_hosts k : k ∈ session_approved_hosts (service w) -> granted (events w) k;
  inv_events e : e ∈ events w -> event_ok e }.

Lemma invariant_start : invariant [] (mkWorld service_default [] []).
Proof. split; cbn; intros; try done; try (by rewrite lookup_empty in *); set_solver. Qed.

Lemma owner_task_pid t p : owner_pid t = Some p -> exists k, task_pid t = Some (k, p).
Proof. destruct t; cbn; try done; intros [= <-]; eauto. Qed.

Lemma task_ok_mono evs more s s' t :
  (forall p a, approvals s !! p = Some a -> exists a', approvals s' !! p = Some a' /\ notified a <= notified a') ->
  task_ok evs s t -> task_ok (evs ++ more) s' t.
Proof.
  intros Ha. destruct t; cbn; auto using granted_app.
  - intros (a & Hp & Hs). destruct (Ha _ _ Hp) as (a' & Hp' & Hn). exists a'. split; [done|lia].
  - intros [Hw Hg]. auto using granted_app.
Qed.

(** A lookup among tasks of which one has moved. *)
Lemma lookup_moved {A} (l : list A) i x y j z :
  l !! i = Some x -> <[i := y]> l !! j = Some z -> (j = i /\ z = y) \/ (j <> i /\ l !! j = Some z).
Proof.
  intros Hi. destruct (decide (j = i)) as [->|Hne]; [|rewrite list_lookup_insert_ne by done; auto].
  rewrite list_lookup_insert_eq by (by eapply lookup_lt_Some). intros [= <-]. auto.
Qed.

(** A task that keeps what it owes is still the one that another fact needs. *)
Lemma exists_moved (l : list ApprovalTask) i t t' (P : ApprovalTask -> Prop) :
  l !! i = Some t -> (P t -> P t') -> (exists j u, l !! j = Some u /\ P u) -> exists j u, <[i := t']> l !! j = Some u /\ P u.
Proof.
  intros Hi Hp (j & u & Hj & Hu). destruct (decide (j = i)) as [->|Hne].
  - exists i, t'. rewrite list_lookup_insert_eq by (by eapply lookup_lt_Some). split; [done|]. apply Hp. congruence.
  - exists j, u. by rewrite list_lookup_insert_ne.
Qed.

(** Steps that leave the pending approvals alone. *)
Lemma invariant_move keys w i t s' t' evs :
  invariant keys w -> tasks w !! i = Some t ->
  approvals s' = approvals (service w) -> pending_host_approvals s' = pending_host_approvals (service w) ->
  (forall q, owner_pid t' = Some q -> owner_pid t = Some q) -> (removes t' -> removes t) ->
  (forall q, owner_pid t = Some q -> (removes t \/ sets t \/ notifies t -> owner_pid t' = Some q)
             /\ (removes t -> removes t') /\ (sets t -> sets t') /\ (notifies t -> notifies t')) ->
  (forall k p, task_pid t' = Some (k, p) -> keys !! p = Some k) ->
  task_ok (events w ++ evs) s' t' ->
  (forall k, k ∈ session_approved_hosts s' -> granted (events w ++ evs) k) ->
  Forall event_ok evs ->
  invariant keys (mkWorld s' (<[i := t']> (tasks w)) (events w ++ evs)).
Proof.
  intros Hinv Hi Ha Hp Ho Hrem Hkeep Hkey Hok Hhosts Hevs. split; cbn [service tasks events].
  - rewrite Ha. apply Hinv.
  - intros j u k p Hj Hu. destruct (lookup_moved _ _ _ _ _ _ Hi Hj) as [[_ ->]|[_ Hj']]; [by apply Hkey|by eapply Hinv].
  - intros k p Hk. rewrite Hp in Hk. destruct (inv_pending _ _ Hinv k p Hk) as [Hkp He]. split; [done|].
    eapply exists_moved; [exact Hi| |exact He]. intros [Hq Hr]. destruct (Hkeep _ Hq). naive_solver.
  - intros j u k p Hj Hu Hr Hk. rewrite Hp. destruct (lookup_moved _ _ _ _ _ _ Hi Hj) as [[-> ->]|[_ Hj']].
    + eapply (inv_owner _ _ Hinv i t); eauto.
    + by eapply Hinv.
  - intros j j' u u' p Hj Hj' Hu Hu'.
    destruct (lookup_moved _ _ _ _ _ _ Hi Hj) as [[-> ->]|[_ Hj1]], (lookup_moved _ _ _ _ _ _ Hi Hj') as [[-> ->]|[_ Hj2]];
      [done|eapply (inv_unique _ _ Hinv); eauto..].
  - intros p a Hpa. rewrite Ha in Hpa. destruct (inv_open _ _ Hinv p a Hpa) as (Hs & Hn & Hd & Hg). split_and!.
    + intros Hnone. eapply exists_moved; [exact Hi| |by apply Hs]. intros [Hq Hr]. destruct (Hkeep _ Hq). naive_solver.
    + intros Hzero. eapply exists_moved; [exact Hi| |by apply Hn]. intros [Hq Hr]. destruct (Hkeep _ Hq). naive_solver.
    + done.
    + intros Hal. destruct (Hg Hal) as (k & ? & ?). exists k. split; [done|by apply granted_app].
  - intros j u Hj. destruct (lookup_moved _ _ _ _ _ _ Hi Hj) as [[_ ->]|[_ Hj']]; [done|].
    eapply task_ok_mono; [|by eapply (inv_tasks _ _ Hinv)]. rewrite Ha. eauto.
  - done.
  - intros e. rewrite elem_of_app. intros [He|He]; [by eapply Hinv|]. rewrite Forall_forall in Hevs. auto.
Qed.

(** Steps of an owner on the approval that it created. *)
Lemma invariant_object keys w i t t' p f a :
  invariant keys w -> tasks w !! i = Some t -> owner_pid t = Some p -> owner_pid t' = Some p -> task_pid t' = task_pid t ->
  (removes t' <-> removes t) ->
  approvals (service w) !! p = Some a -> notified a <= notified (f a) ->
  (pending_decision (f a) = None -> sets t') -> (notified (f a) = 0 -> notifies t') ->
  (notified (f a) <> 0 -> pending_decision (f a) <> None) ->
  (allows_pending (pending_decision (f a)) -> exists k, keys !! p = Some k /\ granted (events w) k) ->
  task_ok (events w) (update_approval (service w) p f) t' ->
  invariant keys (mkWorld (update_approval (service w) p f) (<[i := t']> (tasks w)) (events w)).
Proof.
  intros Hinv Hi Ho Ho' Hpid Hrem Hp Hmono Hset Hnot Hdec Hgr Hok.
  assert (forall q (P : ApprovalTask -> Prop), q <> p ->
    (exists j u, tasks w !! j = Some u /\ owner_pid u = Some q /\ P u) ->
    exists j u, <[i := t']> (tasks w) !! j = Some u /\ owner_pid u = Some q /\ P u) as Hother.
  { intros q P Hq. apply exists_moved with t; [done|]. intros [E _]. congruence. }
  assert (<[i := t']> (tasks w) !! i = Some t') as Hi' by (apply list_lookup_insert_eq; by eapply lookup_lt_Some).
  split; cbn [service tasks events update_approval with_pending approvals pending_host_approvals session_approved_hosts].
  - rewrite length_alter. apply Hinv.
  - intros j u k q Hj Hu. destruct (lookup_moved _ _ _ _ _ _ Hi Hj) as [[_ ->]|[_ Hj']]; [|by eapply Hinv].
    rewrite Hpid in Hu. by eapply Hinv.
  - intros k q Hk. destruct (inv_pending _ _ Hinv k q Hk) as [Hkp He]. split; [done|].
    destruct (decide (q = p)) as [->|Hne]; [|by apply Hother]. exists i, t'. split_and!; [done|done|].
    destruct He as (j & u & Hj & Hu & Hr). rewrite (inv_unique _ _ Hinv j i u t p) in Hj by done. apply Hrem. congruence.
  - intros j u k q Hj Hu Hr Hk. destruct (lookup_moved _ _ _ _ _ _ Hi Hj) as [[-> ->]|[_ Hj']]; [|by eapply Hinv].
    eapply (inv_owner _ _ Hinv i t); [done| |by apply Hrem|done]. congruence.
  - intros j j' u u' q Hj Hj' Hu Hu'.
    destruct (lookup_moved _ _ _ _ _ _ Hi Hj) as [[-> ->]|[_ Hj1]], (lookup_moved _ _ _ _ _ _ Hi Hj') as [[-> ->]|[_ Hj2]];
      [done|eapply (inv_unique _ _ Hinv); try done; congruence..].
  - intros q b Hq. destruct (decide (q = p)) as [->|Hne].
    + rewrite list_lookup_alter_eq, Hp in Hq. injection Hq as <-. split_and!; [| |done|done]; intros; exists i, t'; auto.
    + rewrite list_lookup_alter_ne in Hq by done. destruct (inv_open _ _ Hinv q b Hq) as (Hs & Hn & Hd & Hg).
      split_and!; auto.
  - intros j u Hj. destruct (lookup_moved _ _ _ _ _ _ Hi Hj) as [[_ ->]|[_ Hj']]; [done|].
    rewrite <- (app_nil_r (events w)). eapply task_ok_mono; [|by eapply (inv_tasks _ _ Hinv)].
    intros q b Hq. cbn. destruct (decide (q = p)) as [->|Hne].
    + rewrite list_lookup_alter_eq, Hq. exists (f b). split; [done|]. congruence.
    + rewrite list_lookup_alter_ne by done. eauto.
  - apply Hinv.
  - apply Hinv.
Qed.

(** The owner takes its approval out of the map. *)
Lemma invariant_remove keys w i r p actions d :
  invariant keys w -> tasks w !! i = Some (Conclude r p (RemovePending :: actions) d) ->
  invariant keys (mkWorld (with_pending (service w) (delete (key_from_request r) (pending_host_approvals (service w)))
                             (approvals (service w))) (<[i := Conclude r p actions d]> (tasks w)) (events w)).
Proof.
  intros Hinv Hi. set (k0 := key_from_request r). set (t := Conclude r p (RemovePending :: actions) d) in *.
  pose proof (inv_tasks _ _ Hinv i t Hi) as [((Hns & Hnn & Hnr) & Hwf) Hg].
  assert (keys !! p = Some k0) as Hk0 by (by eapply (inv_key _ _ Hinv)).
  assert (pending_host_approvals (service w) !! k0 = Some p) as Hp0
    by (eapply (inv_owner _ _ Hinv i t); try done; by left).
  assert (forall P, ~ Exists P actions -> ~ P RemovePending ->
    forall q, (exists j u, tasks w !! j = Some u /\ owner_pid u = Some q /\ still P u) ->
    exists j u, <[i := Conclude r p actions d]> (tasks w) !! j = Some u /\ owner_pid u = Some q /\ still P u) as Hother.
  { intros P Hno Hr q. apply exists_moved with t; [done|]. cbn. rewrite Exists_cons. naive_solver. }
  split; cbn [service tasks events with_pending approvals pending_host_approvals session_approved_hosts].
  - apply Hinv.
  - intros j u k q Hj Hu. destruct (lookup_moved _ _ _ _ _ _ Hi Hj) as [[_ ->]|[_ Hj']]; [|by eapply Hinv].
    by eapply (inv_key _ _ Hinv i t).
  - intros k q Hk. apply lookup_delete_Some in Hk as [Hne Hk]. destruct (inv_pending _ _ Hinv k q Hk) as [Hkq He].
    split; [done|]. eapply exists_moved; [exact Hi| |exact He]. intros [[= <-] _]. congruence.
  - intros j u k q Hj Hu Hr Hk. destruct (lookup_moved _ _ _ _ _ _ Hi Hj) as [[-> ->]|[Hji Hj']].
    + exfalso. cbn in Hr. apply Exists_exists in Hr as (x & Hx & <-). done.
    + rewrite lookup_delete_ne; [by eapply Hinv|]. intros <-.
      assert (q = p) as -> by (pose proof (inv_owner _ _ Hinv j u _ q Hj' Hu Hr Hk); congruence).
      apply Hji. by eapply (inv_unique _ _ Hinv).
  - intros j j' u u' q Hj Hj' Hu Hu'.
    destruct (lookup_moved _ _ _ _ _ _ Hi Hj) as [[-> ->]|[_ Hj1]], (lookup_moved _ _ _ _ _ _ Hi Hj') as [[-> ->]|[_ Hj2]];
      [done|by eapply (inv_unique _ _ Hinv)..].
  - intros q b Hq. destruct (inv_open _ _ Hinv q b Hq) as (Hs & Hn & Hd & Hgr). split_and!; [| |done|done].
    + intros E. apply Hother; [done|by intros []|by apply Hs].
    + intros E. apply Hother; [|done|by apply Hn]. rewrite Exists_exists. intros (x & Hx & <-). done.
  - intros j u Hj. destruct (lookup_moved _ _ _ _ _ _ Hi Hj) as [[_ ->]|[_ Hj']]; [|by apply (inv_tasks _ _ Hinv j)].
    cbn. split; [done|]. intros Hd. apply Hg. destruct Hd; [by left|]. right. by apply Exists_cons_tl.
  - apply Hinv.
  - apply Hinv.
Qed.

(** A task that finds no approval for its host creates one. *)
Lemma invariant_create keys w i r :
  invariant keys w -> tasks w !! i = Some (GetPending r) ->
  pending_host_approvals (service w) !! key_from_request r = None ->
  let p := length (approvals (service w)) in
  invariant (keys ++ [key_from_request r])
    (mkWorld (with_pending (service w) (<[key_from_request r := p]> (pending_host_approvals (service w)))
                (approvals (service w) ++ [mkPendingApproval None 0])) (<[i := FindTurn r p]> (tasks w)) (events w)).
Proof.
  intros Hinv Hi Hnone p. set (k0 := key_from_request r) in *.
  assert (forall q k, keys !! q = Some k -> q < p) as Hlt.
  { intros q k Hq. apply lookup_lt_Some in Hq. unfold p. by rewrite <- (inv_len _ _ Hinv). }
  assert (forall q k, keys !! q = Some k -> (keys ++ [k0]) !! q = Some k) as Hkeep by (intros; by apply lookup_app_l_Some).
  assert ((keys ++ [k0]) !! p = Some k0) as Hnew.
  { unfold p. rewrite <- (inv_len _ _ Hinv). apply list_lookup_middle. done. }
  assert (forall j u q, tasks w !! j = Some u -> owner_pid u = Some q -> q < p) as Hold.
  { intros j u q Hj [k Hk]%owner_task_pid. by eapply Hlt, (inv_key _ _ Hinv). }
  assert (forall P q, (exists j u, tasks w !! j = Some u /\ owner_pid u = Some q /\ still P u) ->
    exists j u, <[i := FindTurn r p]> (tasks w) !! j = Some u /\ owner_pid u = Some q /\ still P u) as Hother.
  { intros P q. apply exists_moved with (GetPending r); [done|]. by intros []. }
  assert (<[i := FindTurn r p]> (tasks w) !! i = Some (FindTurn r p)) as Hi'
    by (apply list_lookup_insert_eq; by eapply lookup_lt_Some).
  split; cbn [service tasks events with_pending approvals pending_host_approvals session_approved_hosts].
  - rewrite !length_app, (inv_len _ _ Hinv). done.
  - intros j u k q Hj Hu. destruct (lookup_moved _ _ _ _ _ _ Hi Hj) as [[_ ->]|[_ Hj']].
    + injection Hu as <- <-. done.
    + by eapply Hkeep, (inv_key _ _ Hinv).
  - intros k q Hk. destruct (decide (k = k0)) as [->|Hne].
    + rewrite lookup_insert_eq in Hk. injection Hk as <-. split; [done|]. exists i, (FindTurn r p). done.
    + rewrite lookup_insert_ne in Hk by done. destruct (inv_pending _ _ Hinv k q Hk) as [Hkq He]. split; [by apply Hkeep|].
      by apply Hother.
  - intros j u k q Hj Hu Hr Hk. destruct (lookup_moved _ _ _ _ _ _ Hi Hj) as [[-> ->]|[_ Hj']].
    + injection Hu as <-. rewrite Hnew in Hk. injection Hk as <-. apply lookup_insert_eq.
    + assert (pending_host_approvals (service w) !! k = Some q) as Hkq.
      { eapply (inv_owner _ _ Hinv j u); [done..|]. rewrite lookup_app_l in Hk; [done|].
        rewrite (inv_len _ _ Hinv). by eapply Hold. }
      rewrite lookup_insert_ne; [done|]. intros <-. congruence.
  - intros j j' u u' q Hj Hj' Hu Hu'.
    destruct (lookup_moved _ _ _ _ _ _ Hi Hj) as [[-> ->]|[_ Hj1]], (lookup_moved _ _ _ _ _ _ Hi Hj') as [[-> ->]|[_ Hj2]];
      [done| | |by eapply (inv_unique _ _ Hinv)].
    + injection Hu as <-. by pose proof (Hold _ _ _ Hj2 Hu'); lia.
    + injection Hu' as <-. by pose proof (Hold _ _ _ Hj1 Hu); lia.
  - intros q b Hq. apply lookup_snoc_Some in Hq as [[Hlt' Hq]|[-> <-]].
    + destruct (inv_open _ _ Hinv q b Hq) as (Hs & Hn & Hd & Hg). split_and!; [| |done|].
      * intros E. by apply Hother, Hs.
      * intros E. by apply Hother, Hn.
      * intros Hal. destruct (Hg Hal) as (k & ? & ?). eauto.
    + cbn. split_and!; [|intros _; by exists i, (FindTurn r p)..|done|by intros [|]].
      intros _. by exists i, (FindTurn r p).
  - intros j u Hj. destruct (lookup_moved _ _ _ _ _ _ Hi Hj) as [[_ ->]|[_ Hj']]; [done|].
    rewrite <- (app_nil_r (events w)). eapply task_ok_mono; [|by eapply (inv_tasks _ _ Hinv)].
    intros q b Hq. cbn. exists b. split; [by apply lookup_app_l_Some|done].
  - apply Hinv.
  - apply Hinv.
Qed.

(** ** Every step keeps it *)

(** The actions other than the last three leave the pending approvals alone. *)
Lemma run_action_plain key p a s s' more :
  run_action key p a s = (s', more) -> ~ is_set_decision a -> a <> NotifyWaiters -> a <> RemovePending ->
  approvals s' = approvals s /\ pending_host_approvals s' = pending_host_approvals s /\ Forall is_quiet more
  /\ (forall k, k ∈ session_approved_hosts s' -> k ∈ session_approved_hosts s \/ (k = key /\ is_grant a)).
Proof.
  unfold run_action, record_call_outcome. intros E Hs Hn Hr.
  destruct a; try done; repeat case_match; simplify_eq; cbn; split_and!; try done; try (by repeat constructor); set_solver.
Qed.

Lemma exists_quiet (P : Action -> Prop) more actions :
  (forall a, is_quiet a -> ~ P a) -> Forall is_quiet more -> Exists P (more ++ actions) <-> Exists P actions.
Proof.
  intros Hq Hm. rewrite Exists_app. split; [|auto]. intros [He|He]; [|done].
  rewrite Exists_exists in He. rewrite Forall_forall in Hm. naive_solver.
Qed.

Lemma wf_quiet more actions : Forall is_quiet more -> wf_actions actions -> wf_actions (more ++ actions).
Proof. induction 1 as [|a more Ha Hm IH]; [done|]. intros Hw. cbn. split; [by destruct a|auto]. Qed.

Lemma approval_there keys w i t k p :
  invariant keys w -> tasks w !! i = Some t -> task_pid t = Some (k, p) -> exists a, approvals (service w) !! p = Some a.
Proof.
  intros Hinv Hi Hp. apply lookup_lt_is_Some. rewrite <- (inv_len _ _ Hinv). apply lookup_lt_Some with k.
  by eapply (inv_key _ _ Hinv).
Qed.

Lemma invariant_plain keys w i r p a actions d s' more :
  invariant keys w -> tasks w !! i = Some (Conclude r p (a :: actions) d) ->
  run_action (key_from_request r) p a (service w) = (s', more) ->
  ~ is_set_decision a -> a <> NotifyWaiters -> a <> RemovePending ->
  invariant keys (mkWorld s' (<[i := Conclude r p (more ++ actions) d]> (tasks w)) (events w)).
Proof.
  intros Hinv Hi Hrun Hs Hn Hr. destruct (run_action_plain _ _ _ _ _ _ Hrun Hs Hn Hr) as (Ha & Hp & Hq & Hh).
  pose proof (inv_tasks _ _ Hinv i _ Hi) as [[_ Hwf] Hg].
  assert (forall P : Action -> Prop, (forall b, is_quiet b -> ~ P b) -> ~ P a ->
            still P (Conclude r p (more ++ actions) d) <-> still P (Conclude r p (a :: actions) d)) as Hstill.
  { intros P Hno Hpa. cbn. rewrite exists_quiet, Exists_cons by done. naive_solver. }
  rewrite <- (app_nil_r (events w)).
  eapply (invariant_move _ _ _ _ _ _ _ Hinv Hi); try done.
  - apply Hstill; [by intros []|congruence].
  - intros q [= <-]. split; [done|]. split_and!; apply Hstill; first [done|congruence|by intros []|intros []; cbn; tauto].
  - intros k q Hk. by eapply (inv_key _ _ Hinv i).
  - rewrite app_nil_r. split; [by apply wf_quiet|]. intros Hd. apply Hg. destruct Hd as [Hd|Hd]; [by left|right].
    apply Exists_cons_tl. apply exists_quiet in Hd; [done|intros []; cbn; tauto|done].
  - intros k [Hk|[-> Hk]]%Hh; rewrite app_nil_r; [by apply Hinv|]. apply Hg. right. by apply Exists_cons_hd.
Qed.

(** [SetDecision] and [NotifyWaiters]. *)
Lemma invariant_set keys w i r p v actions d :
  invariant keys w -> tasks w !! i = Some (Conclude r p (SetDecision v :: actions) d) ->
  invariant keys (mkWorld (update_approval (service w) p (fun a => mkPendingApproval (Some v) (notified a)))
                    (<[i := Conclude r p actions d]> (tasks w)) (events w)).
Proof.
  intros Hinv Hi. pose proof (inv_tasks _ _ Hinv i _ Hi) as [[Hwa Hwf] Hg].
  destruct (approval_there _ _ _ _ _ _ Hinv Hi eq_refl) as [ap Hap].
  pose proof (inv_key _ _ Hinv i _ _ _ Hi eq_refl) as Hk.
  eapply (invariant_object _ _ _ _ _ _ _ _ Hinv Hi); try done; cbn.
  - rewrite Exists_cons. naive_solver.
  - intros _. apply Exists_exists. eauto.
  - intros Hv. exists (key_from_request r). split; [done|]. apply Hg. right. apply Exists_cons_hd.
    by destruct Hv as [[= ->]|[= ->]].
  - split; [done|]. intros Hd. apply Hg. destruct Hd; [by left|right; by apply Exists_cons_tl].
Qed.

Lemma invariant_notify keys w i r p actions d :
  invariant keys w -> tasks w !! i = Some (Conclude r p (NotifyWaiters :: actions) d) ->
  invariant keys (mkWorld (update_approval (service w) p (fun a => mkPendingApproval (pending_decision a) (S (notified a))))
                    (<[i := Conclude r p actions d]> (tasks w)) (events w)).
Proof.
  intros Hinv Hi. pose proof (inv_tasks _ _ Hinv i _ Hi) as [[[Hrem Hset] Hwf] Hg].
  destruct (approval_there _ _ _ _ _ _ Hinv Hi eq_refl) as [ap Hap].
  destruct (inv_open _ _ Hinv p ap Hap) as (Ho & Hn & Hd & Hgr).
  assert (pending_decision ap <> None) as Hsome.
  { intros E. destruct (Ho E) as (j & u & Hj & Hu & Hs). pose proof (inv_unique _ _ Hinv j i _ _ p Hj Hi Hu eq_refl) as ->.
    assert (u = Conclude r p (NotifyWaiters :: actions) d) as -> by congruence. by apply Exists_cons in Hs as [[]|Hs]. }
  eapply (invariant_object _ _ _ _ _ _ _ _ Hinv Hi); try done; cbn.
  - rewrite Exists_cons. naive_solver.
  - lia.
  - split; [done|]. intros E. apply Hg. destruct E; [by left|right; by apply Exists_cons_tl].
Qed.

Lemma invariant_action keys w i r p a actions d s' more :
  invariant keys w -> tasks w !! i = Some (Conclude r p (a :: actions) d) ->
  run_action (key_from_request r) p a (service w) = (s', more) ->
  invariant keys (mkWorld s' (<[i := Conclude r p (more ++ actions) d]> (tasks w)) (events w)).
Proof.
  intros Hinv Hi Hrun. destruct a; try (by eapply invariant_plain; [exact Hinv|exact Hi|exact Hrun|..]; auto);
    injection Hrun as <- <-; eauto using invariant_set, invariant_notify, invariant_remove.
Qed.

(** An action other than the three of [closing]. *)
Definition is_plain (a : Action) : Prop :=
  match a with SetDecision _ | NotifyWaiters | RemovePending => False | _ => True end.

Lemma wf_closing pre v post : Forall is_plain pre -> Forall is_quiet post -> wf_actions (pre ++ closing v ++ post).
Proof.
  intros Hpre Hpost.
  assert (forall P : Action -> Prop, (forall a, is_quiet a -> ~ P a) -> ~ Exists P post) as Hno.
  { intros P Hq. rewrite Exists_exists. rewrite Forall_forall in Hpost. naive_solver. }
  assert (forall a, ~ is_quiet a -> a ∉ post) as Hnin by (rewrite Forall_forall in Hpost; naive_solver).
  induction Hpre as [|a pre Ha _ IH]; cbn; [|split; [by destruct a|done]].
  assert (wf_actions post) as Hwf by (rewrite <- (app_nil_r post); by apply wf_quiet).
  pose proof (Hno is_set_decision ltac:(intros []; cbn; tauto)) as Hns.
  split_and!; try done; try set_solver; try (by apply Hnin).
  rewrite Exists_cons. by intros [[]|He].
Qed.

Lemma grant_closing pre v post :
  Forall is_quiet post -> Exists is_grant (pre ++ closing v ++ post) -> Exists is_grant pre \/ v <> DenyPending.
Proof.
  intros Hpost. rewrite Exists_app. intros [He|He]; [by left|right]. intros ->.
  apply Exists_app in He as [He|He].
  - repeat (apply Exists_cons in He as [[]|He]). inversion He.
  - apply Exists_exists in He as (a & Ha & Hg). rewrite Forall_forall in Hpost. specialize (Hpost a Ha). by destruct a.
Qed.

Lemma closing_still (P : Action -> Prop) r p pre v post d :
  Exists P (closing v) -> still P (Conclude r p (pre ++ closing v ++ post) d).
Proof. intros He. cbn [still]. rewrite !Exists_app. auto. Qed.

(** An owner that has all its work before it and turns to its last actions. *)
Lemma invariant_conclude keys w i t r p pre v post d evs :
  invariant keys w -> tasks w !! i = Some t -> task_pid t = Some (key_from_request r, p) -> owner_pid t = Some p ->
  removes t -> Forall is_plain pre -> Forall is_quiet post -> Forall event_ok evs ->
  (d = DecisionAllow \/ Exists is_grant pre \/ v <> DenyPending -> granted (events w ++ evs) (key_from_request r)) ->
  invariant keys (mkWorld (service w) (<[i := Conclude r p (pre ++ closing v ++ post) d]> (tasks w)) (events w ++ evs)).
Proof.
  intros Hinv Hi Hpid Ho Hr Hpre Hpost Hevs Hg. eapply (invariant_move _ _ _ _ _ _ _ Hinv Hi); try done.
  - intros q. by rewrite Ho.
  - intros q. rewrite Ho. intros [= <-]. split; [done|].
    split_and!; intros _; apply closing_still; unfold closing; rewrite !Exists_cons; cbn; auto.
  - intros k q [= <- <-]. by eapply (inv_key _ _ Hinv).
  - split; [by apply wf_closing|]. intros [Hd|He]; apply Hg; [by left|]. right. by eapply grant_closing.
  - intros k Hk. apply granted_app. by apply Hinv.
Qed.

(** An owner that goes on asking. *)
Lemma invariant_ask keys w i t t' p evs :
  invariant keys w -> tasks w !! i = Some t -> task_pid t' = task_pid t -> owner_pid t' = Some p -> owner_pid t = Some p ->
  (forall P, still P t) -> (forall P, still P t') -> task_ok (events w ++ evs) (service w) t' -> Forall event_ok evs ->
  invariant keys (mkWorld (service w) (<[i := t']> (tasks w)) (events w ++ evs)).
Proof.
  intros Hinv Hi Hpid Ho' Ho Hs Hs' Hok Hevs. eapply (invariant_move _ _ _ _ _ _ _ Hinv Hi); try done.
  - congruence.
  - intros _. apply Hs.
  - intros q Hq. split_and!; try done; try (intros _; apply Hs'). congruence.
  - intros k q Hk. rewrite Hpid in Hk. by eapply (inv_key _ _ Hinv).
  - intros k Hk. apply granted_app. by apply Hinv.
Qed.

(** A task that owns nothing, before and after. *)
Lemma invariant_guest keys w i t t' :
  invariant keys w -> tasks w !! i = Some t -> owner_pid t = None -> owner_pid t' = None -> (forall P, ~ still P t') ->
  (forall k p, task_pid t' = Some (k, p) -> keys !! p = Some k) -> task_ok (events w) (service w) t' ->
  invariant keys (mkWorld (service w) (<[i := t']> (tasks w)) (events w)).
Proof.
  intros Hinv Hi Ho Ho' Hs Hk Hok. rewrite <- (app_nil_r (events w)).
  eapply (invariant_move _ _ _ _ _ _ _ Hinv Hi); try done; rewrite ?app_nil_r; try done; try congruence.
  - intros Hr. by apply Hs in Hr.
  - apply Hinv.
Qed.

Lemma quiet_plain a : is_quiet a -> ~ is_set_decision a /\ a <> NotifyWaiters /\ a <> RemovePending /\ ~ is_grant a.
Proof. destruct a; cbn; naive_solver. Qed.

Lemma invariant_observe keys w i a actions s' more :
  invariant keys w -> tasks w !! i = Some (Observe (a :: actions)) ->
  run_action (mkHostKey [] [] 0) 0 a (service w) = (s', more) ->
  invariant keys (mkWorld s' (<[i := Observe (more ++ actions)]> (tasks w)) (events w)).
Proof.
  intros Hinv Hi Hrun. pose proof (inv_tasks _ _ Hinv i _ Hi) as Hq. apply Forall_cons in Hq as [Hq Hqs].
  destruct (quiet_plain a Hq) as (Hs & Hn & Hr & Hg).
  destruct (run_action_plain _ _ _ _ _ _ Hrun Hs Hn Hr) as (Ha & Hp & Hm & Hh).
  rewrite <- (app_nil_r (events w)). eapply (invariant_move _ _ _ _ _ _ _ Hinv Hi); try done.
  - by apply Forall_app.
  - intros k [Hk|[-> Hk]]%Hh; rewrite app_nil_r; [by apply Hinv|done].
Qed.

(** The owner has its answer. *)
Lemma invariant_answer keys w i r p d :
  invariant keys w -> tasks w !! i = Some (Conclude r p [] d) ->
  invariant keys (mkWorld (service w) (<[i := Answered r d]> (tasks w)) (events w)).
Proof.
  intros Hinv Hi. pose proof (inv_tasks _ _ Hinv i _ Hi) as [_ Hg].
  assert (forall P : Action -> Prop, ~ Exists P []) as Hno by (intros P He; inversion He).
  rewrite <- (app_nil_r (events w)). eapply (invariant_move _ _ _ _ _ _ _ Hinv Hi); try done; rewrite ?app_nil_r.
  - intros q _. cbn. naive_solver.
  - intros Hd. apply Hg. by left.
  - apply Hinv.
Qed.

Lemma resolve_plain message guardian call d rejection actions v :
  resolve_review message guardian call d rejection = (actions, v) ->
  Forall is_plain actions /\ (Exists is_grant actions \/ v <> DenyPending -> approving d = true).
Proof.
  unfold resolve_review, record_for. intros E.
  destruct d as [| | |[]| | | ], call; simplify_eq; cbn; (split; [by repeat constructor|]);
    try done; intros [He|]; try done; repeat (apply Exists_cons in He as [[]|He]); inversion He.
Qed.

(** The waiters. *)
Lemma invariant_wait message keys w i t s' t' evs :
  invariant keys w -> tasks w !! i = Some t ->
  match t with Subscribe _ _ | LookAtDecision _ _ _ | AwaitNotified _ _ _ => True | _ => False end ->
  approval_step message t NoAnswer (service w) = Some (s', t', evs) ->
  invariant keys (mkWorld s' (<[i := t']> (tasks w)) (events w ++ evs)).
Proof.
  intros Hinv Hi Hw E. pose proof (inv_tasks _ _ Hinv i _ Hi) as Hok.
  assert (forall k p, task_pid t = Some (k, p) -> keys !! p = Some k) as Hkey by (intros; by eapply (inv_key _ _ Hinv)).
  destruct t as [| | |r p|r p seen|r p seen| | | | | | |]; try done; cbn in E;
    destruct (approvals (service w) !! p) as [a|] eqn:Ea; cbn in E; try done;
    destruct (inv_open _ _ Hinv p a Ea) as (_ & _ & Hd & Hg).
  - simplify_eq. rewrite app_nil_r. eapply invariant_guest; [done..|by intros P []|done|]. cbn. eauto.
  - simplify_eq. rewrite app_nil_r. destruct (pending_decision a) as [v|] eqn:Ev.
    + eapply invariant_guest; [done..|by intros P []|done|]. cbn. intros Hv.
      destruct Hg as (k & Hk & Hgr); [unfold allows_pending; destruct v; try done; auto|].
      rewrite (Hkey _ _ eq_refl) in Hk. by injection Hk as <-.
    + eapply invariant_guest; [done..|by intros P []|done|]. cbn in Hok |- *. destruct Hok as (a' & Ha' & Hs).
      assert (a' = a) as -> by congruence. destruct (decide (notified a = 0)); [lia|]. by destruct (Hd n).
  - case_match; simplify_eq. rewrite app_nil_r. eapply invariant_guest; [done..|by intros P []|done|done].
Qed.

(** A task looks at the lists of the session, and for an approval of its host. *)
Lemma invariant_arrive message keys w i t s' t' evs :
  invariant keys w -> tasks w !! i = Some t ->
  match t with CheckDenied _ | CheckApproved _ | GetPending _ => True | _ => False end ->
  approval_step message t NoAnswer (service w) = Some (s', t', evs) ->
  exists keys', invariant keys' (mkWorld s' (<[i := t']> (tasks w)) (events w ++ evs)).
Proof.
  intros Hinv Hi Hw E. destruct t as [r|r|r| | | | | | | | | |]; try done; cbn in E.
  - simplify_eq. exists keys. rewrite app_nil_r. case_decide; (eapply invariant_guest; [done..|by intros P []|done|done]).
  - simplify_eq. exists keys. rewrite app_nil_r. case_decide; (eapply invariant_guest; [done..|by intros P []|done|]); [|done].
    intros _. by apply (inv_hosts _ _ Hinv).
  - unfold get_or_create_pending_approval in E. destruct (pending_host_approvals (service w) !! _) as [p|] eqn:Ep;
      simplify_eq; rewrite app_nil_r.
    + exists keys. eapply invariant_guest; [done..|by intros P []| |done]. intros k q [= <- <-].
      by apply (inv_pending _ _ Hinv).
    + eexists. by apply invariant_create.
Qed.

(** The owner asks. *)
Lemma invariant_owner message keys w i t answer s' t' evs :
  invariant keys w -> tasks w !! i = Some t ->
  match t with FindTurn _ _ | FindCall _ _ _ | AskHooks _ _ _ _ | AskReview _ _ _ _ => True | _ => False end ->
  approval_step message t answer (service w) = Some (s', t', evs) ->
  invariant keys (mkWorld s' (<[i := t']> (tasks w)) (events w ++ evs)).
Proof.
  intros Hinv Hi Hw E. pose proof (inv_tasks _ _ Hinv i _ Hi) as Hok.
  destruct t as [| | | | | |r p|r p turn|r p turn call|r p turn call| | |]; try done; destruct answer; try done; cbn in E.
  - assert (invariant keys (mkWorld (service w) (<[i := denied_by_policy r p]> (tasks w)) (events w ++ []))).
    { apply (invariant_conclude _ _ _ _ _ _ [] DenyPending _ _ [] Hinv Hi); try done; [by repeat constructor|].
      intros [|[He|]]; [done|by inversion He|done]. }
    injection E as <- <- <-. destruct turn as [turn|]; [|done].
    destruct (permission_profile_allows_network_approval_flow _) eqn:E1; [|done].
    destruct (allows_network_approval_flow _) eqn:E2; [|done]. by eapply (invariant_ask _ _ _ _ _ _ _ Hinv Hi).
  - injection E as <- <- <-. by eapply (invariant_ask _ _ _ _ _ _ _ Hinv Hi).
  - injection E as <- <- <-. destruct d as [[|m]|].
    + apply (invariant_conclude _ _ _ _ _ _ [] AllowOnce [] _ _ Hinv Hi); try done; [by apply Forall_singleton|].
      intros _. apply Exists_app. right. by constructor.
    + rewrite <- (app_nil_r (closing DenyPending)).
      apply (invariant_conclude _ _ _ _ _ _ _ DenyPending [] _ _ Hinv Hi); try done; [by destruct call; repeat constructor|by apply Forall_singleton|].
      intros [|[He|]]; [done| |done]. destruct call; repeat (apply Exists_cons in He as [[]|He]); inversion He.
    + eapply (invariant_ask _ _ _ _ _ _ _ Hinv Hi); try done. by apply Forall_singleton.
  - destruct (resolve_review _ _ _ _ _) as [actions v] eqn:Er. injection E as <- <- <-.
    destruct (resolve_plain _ _ _ _ _ _ _ Er) as [Hpl Hap]. rewrite <- (app_nil_r (closing v)).
    apply (invariant_conclude _ _ _ _ _ _ _ v [] _ _ Hinv Hi); try done; [by apply Forall_singleton|].
    intros Hd. apply Exists_app. right. constructor. split; [done|]. apply Hap. destruct Hd as [Hd|Hd]; [|done].
    right. by intros ->.
Qed.

Lemma invariant_task message keys w i t answer s' t' evs :
  invariant keys w -> tasks w !! i = Some t -> approval_step message t answer (service w) = Some (s', t', evs) ->
  exists keys', invariant keys' (mkWorld s' (<[i := t']> (tasks w)) (events w ++ evs)).
Proof.
  intros Hinv Hi E. destruct t as [| | | | | | | | | |r p [|a actions] d|r d|[|a actions]];
    try (eexists; eapply invariant_owner; [done|done| |exact E]; done);
    destruct answer; try done;
    try (eapply invariant_arrive; [done|done| |exact E]; done);
    try (eexists; eapply invariant_wait; [done|done| |exact E]; done).
  - injection E as <- <- <-. exists keys. rewrite app_nil_r. by eapply invariant_answer.
  - cbn in E. destruct (run_action _ _ _ _) as [s1 more] eqn:Er. injection E as <- <- <-. exists keys. rewrite app_nil_r.
    by eapply invariant_action.
  - cbn in E. destruct (run_action _ _ _ _) as [s1 more] eqn:Er. injection E as <- <- <-. exists keys. rewrite app_nil_r.
    by eapply invariant_observe.
Qed.

(** A request arrives. *)
Lemma invariant_spawn keys w t :
  invariant keys w -> task_pid t = None -> owner_pid t = None -> task_ok (events w) (service w) t ->
  invariant keys (mkWorld (service w) (tasks w ++ [t]) (events w)).
Proof.
  intros Hinv Hpid Ho Hok.
  assert (forall P : ApprovalTask -> Prop,
    (exists j u, tasks w !! j = Some u /\ P u) -> exists j u, (tasks w ++ [t]) !! j = Some u /\ P u) as Hkeep.
  { intros P (j & u & Hj & Hu). exists j, u. split; [by apply lookup_app_l_Some|done]. }
  split; cbn [service tasks events].
  - apply Hinv.
  - intros j u k p [[_ Hj]|[_ <-]]%lookup_snoc_Some Hu; [by eapply Hinv|congruence].
  - intros k p Hk. destruct (inv_pending _ _ Hinv k p Hk) as [? He]. split; [done|by apply Hkeep].
  - intros j u k p [[_ Hj]|[_ <-]]%lookup_snoc_Some Hu; [by eapply Hinv|congruence].
  - intros j j' u u' p [[_ Hj]|[_ <-]]%lookup_snoc_Some [[_ Hj']|[_ <-]]%lookup_snoc_Some Hu Hu'; try congruence.
    by eapply (inv_unique _ _ Hinv).
  - intros p a Hp. destruct (inv_open _ _ Hinv p a Hp) as (Hs & Hn & Hd & Hg). split_and!; auto.
  - intros j u [[_ Hj]|[_ <-]]%lookup_snoc_Some; [by eapply (inv_tasks _ _ Hinv)|done].
  - apply Hinv.
  - apply Hinv.
Qed.

(** The calls and the hosts of the session change. *)
Lemma invariant_service keys w s' evs :
  invariant keys w -> approvals s' = approvals (service w) -> pending_host_approvals s' = pending_host_approvals (service w) ->
  (forall k, k ∈ session_approved_hosts s' -> granted (events w ++ evs) k) -> Forall event_ok evs ->
  invariant keys (mkWorld s' (tasks w) (events w ++ evs)).
Proof.
  intros Hinv Ha Hp Hh Hevs. split; cbn [service tasks events]; rewrite ?Ha, ?Hp; try apply Hinv; try done.
  - intros p a Hap. destruct (inv_open _ _ Hinv p a Hap) as (Hs & Hn & Hd & Hg). split_and!; try done.
    intros Hal. destruct (Hg Hal) as (k & ? & ?). eauto using granted_app.
  - intros i t Hi. eapply task_ok_mono; [|by eapply (inv_tasks _ _ Hinv)]. rewrite Ha. eauto.
  - intros e [He|He]%elem_of_app; [by apply Hinv|]. rewrite Forall_forall in Hevs. auto.
Qed.

Lemma world_step_invariant message keys w w' :
  invariant keys w -> world_step message w w' -> exists keys', invariant keys' w'.
Proof.
  intros Hinv Hstep. destruct Hstep as [w i t answer s t' evs Hi E|w alive r|w blocked t Hb|w uuid tid managed spec _ _|w id|w other].
  - by eapply invariant_task.
  - exists keys. by apply invariant_spawn; [|destruct alive..].
  - exists keys. unfold record_blocked_request in Hb. destruct (denied_network_policy_message _); simplify_eq/=.
    apply invariant_spawn; try done. by repeat constructor.
  - exists keys. rewrite <- (app_nil_r (events w)). apply invariant_service; try done;
      unfold begin_network_approval; repeat case_match; try done; rewrite app_nil_r; apply Hinv.
  - exists keys. rewrite <- (app_nil_r (events w)). apply invariant_service; try done. rewrite app_nil_r. apply Hinv.
  - exists keys. apply invariant_service; try done; [|by repeat constructor]. intros k Hk. apply Exists_app. right. by constructor.
Qed.

Lemma reachable_invariant message w : reachable message w -> exists keys, invariant keys w.
Proof.
  unfold reachable. intros Hr. apply (rtc_ind_r (fun w => exists keys, invariant keys w)) in Hr; [done| |].
  - exists []. apply invariant_start.
  - intros w1 w2 _ Hs [keys Hk]. by eapply world_step_invariant.
Qed.

(** ** Work that is left *)

Definition action_work (a : Action) : nat :=
  match a with RecordForSingleCall _ => 3 | RecordOutcome _ _ => 2 | _ => 1 end.

Definition decided (s : NetworkApprovalService) (p : nat) : bool :=
  match approvals s !! p with Some a => bool_decide (is_Some (pending_decision a)) | None => false end.

(** How many steps a task can still take. *)
Definition task_work (s : NetworkApprovalService) (t : ApprovalTask) : nat :=
  match t with
  | CheckDenied _ => 15
  | CheckApproved _ => 14
  | GetPending _ => 13
  | FindTurn _ _ => 12
  | FindCall _ _ _ => 11
  | AskHooks _ _ _ _ => 10
  | AskReview _ _ _ _ => 9
  | Conclude _ _ actions _ => S (sum_list (action_work <$> actions))
  | Subscribe _ p => if decided s p then 2 else 6
  | LookAtDecision _ p _ => if decided s p then 1 else 5
  | AwaitNotified _ p _ => if decided s p then 3 else 4
  | Answered _ _ => 0
  | Observe actions => sum_list (action_work <$> actions)
  end.
Definition work (w : World) : nat := sum_list (task_work (service w) <$> tasks w).

(** A step of one of the tasks. *)
Inductive task_move (message : str) : World -> World -> Prop :=
| move_task w i t answer s t' evs :
    tasks w !! i = Some t -> approval_step message t answer (service w) = Some (s, t', evs) ->
    task_move message w (mkWorld s (<[i := t']> (tasks w)) (events w ++ evs)).

Definition finished (t : ApprovalTask) : Prop := match t with Answered _ _ | Observe [] => True | _ => False end.

#[export] Instance finished_dec t : Decision (finished t).
Proof. destruct t as [| | | | | | | | | | | |[|]]; cbn; apply _. Defined.

Lemma task_move_step message w w' : task_move message w w' -> world_step message w w'.
Proof. intros []. by econstructor. Qed.

Lemma sum_moved {A} (f g : A -> nat) (l : list A) i x y :
  l !! i = Some x -> g y < f x -> (forall z, g z <= f z) -> sum_list (g <$> <[i := y]> l) < sum_list (f <$> l).
Proof.
  intros Hi Hlt Hle. assert (forall l, sum_list (g <$> l) <= sum_list (f <$> l)) as Hall.
  { clear -Hle. intros l. induction l as [|z l IH]; csimpl; [lia|]. specialize (Hle z). lia. }
  revert i Hi. induction l as [|z l IH]; intros [|i] Hi; csimpl; simplify_eq/=.
  - specialize (Hall l). lia.
  - specialize (IH i Hi). specialize (Hle z). lia.
Qed.

Lemma run_action_decided key p a s q : decided s q = true -> decided (run_action key p a s).1 q = true.
Proof.
  unfold decided. destruct a; cbn; try done.
  - unfold record_call_outcome. destruct (negb _); [done|]. by destruct (call_outcomes s !! id) as [[]|].
  - destruct (decide (q = p)) as [->|Hne]; [|by rewrite list_lookup_alter_ne].
    rewrite list_lookup_alter_eq. by destruct (approvals s !! p).
  - destruct (decide (q = p)) as [->|Hne]; [|by rewrite list_lookup_alter_ne].
    rewrite list_lookup_alter_eq. by destruct (approvals s !! p).
Qed.

Lemma run_action_work key p a s : sum_list (action_work <$> (run_action key p a s).2) < action_work a.
Proof. destruct a; cbn; try lia; [unfold record_call_outcome|]; repeat case_match; cbn; lia. Qed.

(** Decisions stay. *)
Lemma approval_step_decided message t answer s s' t' evs q :
  approval_step message t answer s = Some (s', t', evs) -> decided s q = true -> decided s' q = true.
Proof.
  intros E Hq. destruct t as [| | | | | | | | | |r p [|a actions] d| |[|a actions]], answer; try done; cbn in E;
    try (injection E as <- <- <-; done).
  - unfold get_or_create_pending_approval in E. destruct (pending_host_approvals s !! _); simplify_eq; [done|].
    unfold decided in *. cbn.
    destruct (approvals s !! q) as [b|] eqn:Eb; [|done]. by rewrite (lookup_app_l_Some _ _ _ _ Eb).
  - destruct (approvals s !! _); by simplify_eq/=.
  - destruct (approvals s !! _); by simplify_eq/=.
  - destruct (approvals s !! _); simplify_eq/=. by case_match; simplify_eq.
  - by destruct (resolve_review _ _ _ _ _); simplify_eq.
  - pose proof (run_action_decided (key_from_request r) p a s q Hq). by destruct (run_action _ _ _ _); simplify_eq.
  - pose proof (run_action_decided (mkHostKey [] [] 0) 0 a s q Hq). by destruct (run_action _ _ _ _); simplify_eq.
Qed.

Lemma task_work_mono s s' t :
  (forall q, decided s q = true -> decided s' q = true) -> task_work s' t <= task_work s t.
Proof.
  intros Hd. destruct t; cbn; try lia; destruct (decided s p) eqn:E; try rewrite (Hd _ E); try lia; case_match; lia.
Qed.

Lemma resolve_work message guardian call d rejection actions v :
  resolve_review message guardian call d rejection = (actions, v) -> sum_list (action_work <$> (actions ++ closing v)) <= 7.
Proof. unfold resolve_review, record_for. intros E. destruct d as [| | |[]| | | ], call; simplify_eq; cbn; lia. Qed.

Lemma run_action_work_app key p a s s' more actions :
  run_action key p a s = (s', more) ->
  sum_list (action_work <$> (more ++ actions)) < sum_list (action_work <$> (a :: actions)).
Proof.
  intros E. pose proof (run_action_work key p a s) as Hw. rewrite E in Hw. cbn [snd] in Hw.
  rewrite fmap_app, sum_list_with_app. csimpl. lia.
Qed.

(** Every step of a task leaves it less to do. *)
Lemma approval_step_work message keys w i t answer s' t' evs :
  invariant keys w -> tasks w !! i = Some t -> approval_step message t answer (service w) = Some (s', t', evs) ->
  task_work s' t' < task_work (service w) t.
Proof.
  intros Hinv Hi E. destruct t as [r|r|r|r p|r p seen|r p seen|r p|r p turn|r p turn call|r p turn call|r p [|a actions] d|r d|[|a actions]],
    answer; try done; cbn in E.
  - injection E as <- <- <-. case_decide; cbn; lia.
  - injection E as <- <- <-. case_decide; cbn; lia.
  - unfold get_or_create_pending_approval in E. destruct (pending_host_approvals _ !! _); simplify_eq; cbn; [case_match|]; lia.
  - destruct (approvals _ !! p); simplify_eq/=. case_match; lia.
  - destruct (approvals _ !! p) as [a|] eqn:Ea; simplify_eq/=. unfold decided. destruct (pending_decision a) eqn:Ed; cbn;
      unfold decided; rewrite Ea, Ed; cbn; lia.
  - destruct (approvals _ !! p) as [a|] eqn:Ea; simplify_eq/=. case_match eqn:Es; simplify_eq. apply Nat.ltb_lt in Es.
    destruct (inv_open _ _ Hinv p a Ea) as (_ & _ & Hd & _). unfold task_work, decided. rewrite Ea.
    rewrite bool_decide_eq_true_2; [lia|]. apply not_eq_None_Some, Hd. lia.
  - injection E as <- <- <-. repeat case_match; cbn; lia.
  - injection E as <- <- <-. cbn. lia.
  - injection E as <- <- <-. destruct d as [[]|]; [| destruct call|]; cbn; lia.
  - destruct (resolve_review _ _ _ _ _) as [actions v] eqn:Er. injection E as <- <- <-. pose proof (resolve_work _ _ _ _ _ _ _ Er).
    unfold task_work. lia.
  - injection E as <- <- <-. cbn. lia.
  - destruct (run_action _ _ _ _) as [s1 more] eqn:Er. injection E as <- <- <-.
    pose proof (run_action_work_app _ _ _ _ _ _ actions Er). unfold task_work. lia.
  - destruct (run_action _ _ _ _) as [s1 more] eqn:Er. injection E as <- <- <-.
    pose proof (run_action_work_app _ _ _ _ _ _ actions Er). unfold task_work. lia.
Qed.

Lemma task_move_work message w w' : reachable message w -> task_move message w w' -> work w' < work w.
Proof.
  intros Hr Hm. destruct (reachable_invariant _ _ Hr) as [keys Hinv]. destruct Hm as [w i t answer s t' evs Hi E].
  eapply sum_moved; [done| |].
  - by eapply approval_step_work.
  - intros u. apply task_work_mono. intros q. by eapply approval_step_decided.
Qed.

(** A task that is not done moves, or waits for one that does. *)
Lemma task_moves message keys w i t :
  invariant keys w -> tasks w !! i = Some t -> ~ finished t -> exists w', task_move message w w'.
Proof.
  intros Hinv Hi Hf.
  assert (forall j u answer, tasks w !! j = Some u -> is_Some (approval_step message u answer (service w)) ->
            exists w', task_move message w w') as Hmove.
  { intros j u answer Hj [[[s t'] evs] E]. eexists. by econstructor. }
  assert (forall j u p, tasks w !! j = Some u -> owner_pid u = Some p -> notifies u -> exists w', task_move message w w') as Hown.
  { intros j u p Hj Ho Hn. destruct u as [| | | | | |? ?|? ? ?|? ? ? ?|? ? ? ?|? ? [|a actions] ?| |]; try done.
    - apply (Hmove j _ (TurnAnswer None) Hj). cbn. eauto.
    - apply (Hmove j _ NoAnswer Hj). cbn. eauto.
    - apply (Hmove j _ (HookAnswer None) Hj). cbn. eauto.
    - apply (Hmove j _ (ReviewAnswer Abort []) Hj). cbn. case_match; eauto.
    - by inversion Hn.
    - apply (Hmove j _ NoAnswer Hj). cbn. repeat case_match; eauto. }
  destruct t as [r|r|r|r p|r p seen|r p seen|r p|r p turn|r p turn call|r p turn call|r p [|a actions] d|r d|[|a actions]];
    try done; try (by eapply Hown);
    try (destruct (approval_there _ _ _ _ _ _ Hinv Hi eq_refl) as [ap Hap]);
    try (apply (Hmove i _ NoAnswer Hi); cbn; rewrite ?Hap; cbn; repeat case_match; by eauto).
  pose proof (inv_tasks _ _ Hinv i _ Hi) as ->. destruct (decide (notified ap = 0)) as [Hz|Hz].
  - destruct (inv_open _ _ Hinv p ap Hap) as (_ & Hn & _). destruct (Hn Hz) as (j & u & Hj & Ho & Hu). by eapply Hown.
  - apply (Hmove i _ NoAnswer Hi). cbn. rewrite Hap. destruct ap as [d [|n]]; [done|by eexists].
Qed.

(** ** What holds of every interleaving *)

(** A task that asks for a host. *)
Definition asks_for (k : HostApprovalKey) (t : ApprovalTask) : Prop :=
  match t with
  | FindTurn r _ | FindCall r _ _ | AskHooks r _ _ _ | AskReview r _ _ _ => key_from_request r = k
  | _ => False
  end.

Lemma asks_for_owner k t : asks_for k t -> exists p, owner_pid t = Some p /\ task_pid t = Some (k, p) /\ removes t.
Proof. destruct t; cbn; try done; intros <-; eauto. Qed.

(** A schedule: which task moves, and what it is answered. *)
Fixpoint run_schedule (message : str) (moves : list (nat * Answer)) (w : World) : option World :=
  match moves with
  | [] => Some w
  | (i, answer) :: moves =>
      t ← tasks w !! i;
      '(s, t', evs) ← approval_step message t answer (service w);
      run_schedule message moves (mkWorld s (<[i := t']> (tasks w)) (events w ++ evs))
  end.

Lemma run_schedule_steps message moves w w' :
  run_schedule message moves w = Some w' -> nsteps (task_move message) (length moves) w w'.
Proof.
  revert w. induction moves as [|[i answer] moves IH]; cbn; intros w E; [simplify_eq; constructor|].
  destruct (tasks w !! i) as [t|] eqn:Ei; cbn in E; [|done].
  destruct (approval_step _ _ _ _) as [[[s t'] evs]|] eqn:Et; cbn in E; [|done]. econstructor; [by econstructor|by apply IH].
Qed.

Lemma run_schedule_reachable message moves w w' :
  reachable message w -> run_schedule message moves w = Some w' -> reachable message w'.
Proof.
  intros Hr Hn%run_schedule_steps. induction Hn as [w|n w1 w2 w3 H12 _ IH]; [done|]. apply IH.
  eapply rtc_r; [exact Hr|by apply task_move_step].
Qed.

(** Two requests for one host: the second waits for what the first is told. *)
Definition sample_request : NetworkPolicyRequest :=
  mkPolicyRequest HttpsConnect (L"Example.com") 443 None None None None.
Definition sample_turn : ApprovalTurn := mkApprovalTurn profile_default OnRequest false.
Definition two_requests : World := mkWorld service_default [CheckDenied sample_request; CheckDenied sample_request] [].

Lemma two_requests_reachable message : reachable message two_requests.
Proof.
  eapply rtc_l; [apply (step_request _ _ true sample_request)|].
  eapply rtc_l; [apply (step_request _ _ true sample_request)|]. constructor.
Qed.

Definition shared_answer : list (nat * Answer) :=
  [(0, NoAnswer); (1, NoAnswer); (0, NoAnswer); (1, NoAnswer); (0, NoAnswer); (1, NoAnswer); (1, NoAnswer); (1, NoAnswer);
   (0, TurnAnswer (Some sample_turn)); (0, NoAnswer); (0, HookAnswer None); (0, ReviewAnswer Approved []);
   (0, NoAnswer); (0, NoAnswer); (1, NoAnswer); (1, NoAnswer); (1, NoAnswer)].
Definition answered_world : World := default two_requests (run_schedule [] shared_answer two_requests).

(** C20: Whatever the order in which requests arrive, wait, are answered and calls begin
    and end: a request is let through only if a hook, a reviewer or the user approved its
    host, protocol and port, or another session handed over that approval; hooks and
    reviewers are asked only in turns with a managed profile whose policy lets them be
    asked; and no two tasks ask about the same host at the same time. *)
Theorem network_access_granted message w :
  reachable message w ->
  (forall i r, tasks w !! i = Some (Answered r DecisionAllow) -> Exists (approves (key_from_request r)) (events w))
  /\ Forall event_ok (events w)
  /\ (forall i j t u k, tasks w !! i = Some t -> tasks w !! j = Some u -> asks_for k t -> asks_for k u -> i = j).
Proof.
  intros [keys Hinv]%reachable_invariant. split_and!.
  - intros i r Hi. by apply (inv_tasks _ _ Hinv i _ Hi).
  - apply Forall_forall. intros e He. by apply (inv_events _ _ Hinv).
  - intros i j t u k Hi Hj (p & Ho & Hp & Hr)%asks_for_owner (q & Ho' & Hq & Hr')%asks_for_owner.
    pose proof (inv_key _ _ Hinv _ _ _ _ Hi Hp) as Hk. pose proof (inv_key _ _ Hinv _ _ _ _ Hj Hq) as Hk'.
    pose proof (inv_owner _ _ Hinv _ _ _ _ Hi Ho Hr Hk). pose proof (inv_owner _ _ Hinv _ _ _ _ Hj Ho' Hr' Hk').
    eapply (inv_unique _ _ Hinv); eauto. congruence.
Qed.

Lemma network_access_granted_witness :
  tasks answered_world !! 1 = Some (Answered sample_request DecisionAllow)
  /\ Exists (approves (key_from_request sample_request)) (events answered_world).
Proof.
  split; [vm_compute; reflexivity|].
  assert (reachable [] answered_world) as Hr
    by (apply (run_schedule_reachable [] shared_answer two_requests); [apply two_requests_reachable|vm_compute; reflexivity]).
  apply (proj1 (network_access_granted [] answered_world Hr) 1). vm_compute. reflexivity.
Defined.

(** C27: However the tasks that are there are scheduled, they take at most as many steps
    as [work] counts, and when none of them can move, each has its answer: no waiter
    misses the decision it waits for.  (Hooks and reviewers are taken to answer.) *)
Theorem network_approval_completes message w :
  reachable message w -> forall n w', nsteps (task_move message) n w w' ->
  n <= work w /\ ((exists w'', task_move message w' w'') \/ Forall finished (tasks w')).
Proof.
  intros Hr n w' Hn. assert (reachable message w' /\ n + work w' <= work w) as [Hr' Hle].
  { induction Hn as [w|n w1 w2 w3 H12 H23 IH]; [split; [done|lia]|].
    assert (reachable message w2) as Hr2 by (eapply rtc_r; [exact Hr|by apply task_move_step]).
    pose proof (task_move_work _ _ _ Hr H12). destruct (IH Hr2). split; [done|lia]. }
  split; [lia|]. destruct (reachable_invariant _ _ Hr') as [keys Hinv].
  destruct (decide (Forall finished (tasks w'))) as [Hf|Hf]; [by right|left].
  pose proof (not_Forall_Exists _ _ Hf) as (t & [i Hi]%list_elem_of_lookup & Ht)%Exists_exists.
  by eapply task_moves.
Qed.

Lemma network_approval_completes_witness :
  work two_requests = 30 /\ length shared_answer = 17
  /\ ((exists w'', task_move [] answered_world w'') \/ Forall finished (tasks answered_world)).
Proof.
  split; [reflexivity|]. split; [reflexivity|].
  apply (network_approval_completes [] two_requests (two_requests_reachable [])) with (n := 17).
  apply (run_schedule_steps [] shared_answer). vm_compute. reflexivity.
Defined.
